(* ===== verification/_CoqProject ===== *)
-Q . S2P
Prelude.v
Event.v
SVal.v
SAddr.v
VSet.v
SExpr.v
SExprFacts.v
Trie.v
TrieFacts.v
Deps.v
Views.v
Labels.v
LabelClasses.v
Graph.v
GraphBase.v
GraphRf.v
GraphCut.v
GraphCutTo.v
GraphSync.v
DepGraph.v
Iterators.v
Bounds.v
BoundsFacts.v
Revisits.v
RevisitsFacts.v
RAViews.v
RASearch.v
RAHb.v
RAExact.v
RARace.v
RARaceFacts.v
RASafety.v
RACoherence.v
RACoherenceFacts.v
Interp.v
Execution.v
MemoryModel.v
Driver.v
Checks.v
Symmetry.v
Schedule.v
Permutations.v
RfOptions.v
RfOptionsFacts.v
RevisitCalc.v
Revisiting.v
Typed.v
Backtrack.v
Handlers.v
Explore.v
Calls.v
InternalNames.v
Instructions.v
Intrinsics.v
FileSystem.v
FsCalls.v
Programs.v
Frames.v
FramesDriver.v
FramesCalls.v
ScheduleFacts.v
ExploreFacts.v
Litmus.v
SoundFacts.v
ConfigOptions.v
Verification.v
ConfigFacts.v
FileFacts.v
ThreadPool.v
ThreadPoolFacts.v
InstAnnotator.v
InstAnnotatorFacts.v
Numbers.v
Operations.v
Contexts.v
OperationsFacts.v
Registers.v
RegistersFacts.v
GraphTables.v
GraphTablesFacts.v
