(* ===== verification/Prelude.v ===== *)
(** * RustMC: a verification of the model checker

    RustMC is a stateless model checker for concurrent programs: it runs a
    program under an interpreter, records what the threads do in an execution
    graph, and explores every graph the memory model (release/acquire) allows.
    This library models the program from its data to its exit code, in the terms of
    the source, and proves what makes each part correct.  File names of the program
    are those of src/src/.

    ** How the parts interact

    The interpreter executes the next instruction of the thread the driver has
    scheduled.  An instruction that is visible to other threads becomes a label;
    the driver adds it to the graph, asks the memory model for its views, for
    errors and for the stores it may read from or the places it may take, and
    keeps the alternatives on a work list.  At the end of an execution the driver
    takes the last alternative, cuts the graph back to it, changes an edge, and
    the interpreter runs the program again along the graph.  Configuration, the pool
    of workers and the process are around this loop; passes annotate the program
    before it.

    ** Files, in the order of compilation

    - Prelude: outcomes of C++ code ([Ret], [Undef] for undefined behaviour and
      exceptions, [Bug] for a process that stops), their monad, machine integers,
      lemmas and hints all files share.
    - Data.  Event (Event.hpp, Stamp.hpp), SVal (SVal.hpp), SAddr (SAddr.hpp,
      ASize.hpp, MemAccess.hpp, SAddrAllocator.hpp), VSet (VSet.hpp, VSet.tcc), Deps
      (DepInfo.hpp), Views (VectorClock.hpp, View, DepView: the class [VectorClock]
      and its two instances), SExpr and SExprFacts (SExpr.hpp, SExprVisitor.tcc),
      Trie and TrieFacts (Trie.hpp).
    - Labels (EventLabel.hpp, EventAttr.hpp): kinds, one record for the fields of
      all classes, accessors in modules named after the classes.  LabelClasses:
      constructors ([Make]), type tests, dispatch of visitors (LabelVisitor.hpp).
    - Graph (ExecutionGraph.hpp, ExecutionGraph.cpp): the state and every operation;
      a pointer to a label is its position.  GraphBase, GraphRf, GraphCut,
      GraphCutTo, GraphSync: its theorems.  DepGraph (DepExecutionGraph.cpp,
      DepTracker.hpp).  Iterators (GraphIterators.hpp).
    - Bounds and BoundsFacts (BoundDecider.hpp and the two deciders), Revisits and
      RevisitsFacts (Revisit.hpp, WorkSet.hpp and the driver's queue).
    - The memory model (RADriver.cpp).  RAViews: the automata behind the views.
      RASearch: their search terminates and is exact, once for all automata.  RAHb
      and RAExact: the views are happens-before and the causal prefix.  RARace,
      RARaceFacts, RASafety: races and memory errors.  RACoherence and
      RACoherenceFacts: coherent stores, placings and revisits.
    - The driver (GenMCDriver.cpp).  Interp: the interpreter's threads as the driver
      changes them (Interpreter.h).  Execution: a graph with its work list.
      MemoryModel: the class of what a model answers, with RADriver as instance.
      Driver: configuration, program, state and monad, the classes [Config],
      [Program], [LongDouble].  Checks, Symmetry, Schedule, RfOptions(Facts),
      RevisitCalc, Revisiting, Backtrack: the methods by subject; Permutations
      (CombinatoricUtils.hpp).  Handlers: one definition per handler, and their
      dispatcher.  Explore: the loops.
    - The interpreter (Execution.cpp, Interpreter.cpp).  Calls: the macros that call
      the driver, over the class [Machine] of what LLVM answers.  InternalNames
      (InterpreterEnumAPI.cpp), Intrinsics, FileSystem, FsCalls: the functions it
      provides.  Instructions: loads, stores, fences and read-modify-writes, over
      the class [Instructions].  Programs: a small instance of these classes, for
      programs of constants.
    - Typed, Frames, FramesDriver, FramesCalls: well-typed graphs, and what every
      method of the driver and every provided function leaves as it is, as a
      logic of relations between the driver before and after.  ScheduleFacts,
      ExploreFacts, Litmus, SoundFacts: the exploration as a whole.
    - ConfigOptions, Verification, ConfigFacts, FileFacts (Config.cpp,
      MemoryModel.hpp, DriverFactory.hpp, main.cpp): options, the choice of a driver,
      verdict and exit code.  ThreadPool and ThreadPoolFacts (ThreadPool.cpp).
    - InstAnnotator and InstAnnotatorFacts (Static/Transforms/InstAnnotator.cpp,
      LoadAnnotationPass.cpp): the annotation of loads, over the class [IR].
    - Numbers: LLVM's integers as classes of operations and laws, with an instance.
      Operations: generic values and the operations on them.  Contexts: stack
      frames, jumps and the instructions of a frame alone.  OperationsFacts: their
      properties, and that annotations agree with them.  Registers: functions,
      blocks and calls as an instance of [Program], [Machine] and [Instructions],
      with the interpreter's step; RegistersFacts: such programs explored.
    - GraphTables and GraphTablesFacts (Matrix2D.tcc, AdjList.tcc): the containers
      for relations, which the other parts do not use.

    ** What the theorems show

    - Data: values, accesses, sets and clocks implement their mathematical
      counterparts; a trie is a map that also has the points where its sequences
      part; allocations are disjoint below 4 GiB.
    - Graph: reads-from edges and reader lists stay inverse; [validate] accepts the
      well-formed graphs; cutting and renumbering do what they are for; atomicity;
      locks and unlocks match; views of stamps with holes.
    - Memory model: views are exact; [checkErrors] answers OK on memory-safe labels
      and misses three kinds of error, which are named ([covered] in RASafety);
      warnings are exact; options, placings and revisits are the coherent ones
      without [-mixer], and all there are with it.
    - Exploration: in every state it goes through, graphs are well-typed and the
      interpreter can be reset; every option of a read covers each byte once; the
      scheduler picks a thread that can run, or completes or retries an access, and
      an execution ends only when there is none; the verdict is OK exactly when no
      error stopped it and nothing is left.  The litmus tests (Litmus) and the
      programs with registers (RegistersFacts) are examples: the model run on
      fixed programs.
    - Around it: accepted configurations fit the driver; the pool loses no task
      and never gets stuck; annotations are sound up to the steps they do not
      represent ([Inexact] in InstAnnotatorFacts), with the operations of the
      interpreter, and agree with these where widths make no difference but for
      the remainders; jumps execute phis at once; shifts and casts; writes to
      files are cut into blocks that cover them; matrices and adjacency lists
      without cycles sort and close a graph alike, and find its cycles.
    - Findings: where the code does not do what it means to, a theorem or lemma
      says so, or the definition is undefined there and its comment says why.

    ** Fuel and bounds

    Loops that need not end (the exploration, the run of a program, the handlers
    of [atexit]) are relations ([Loop], [Explores]) with a fuelled function beside
    them that is proved to compute the relation and to agree with more fuel.
    Every other fuel is enough by a measure: the search of RAViews has the
    number of states times that of stamps (RASearch); the deciders of Bounds the
    events of the view (BoundsFacts); [chain] of Symmetry the threads; [resolve]
    of Handlers the height of the class hierarchy; the loops of Trie the sequence
    (TrieFacts) and of VSet the two vectors; [write_blocks] the bytes
    (FileFacts); [dfs] of InstAnnotator the instructions and [backPaths] the blocks.
    Where [calcSourceLoads] of InstAnnotator follows operands without a bound the
    fuel is the caller's.  The searches of GraphTables have the number of nodes
    (GraphTablesFacts).  Integers keep their width where the code can wrap: stamps
    and sizes 32 bits, values and addresses 64, identifiers signed 32.  The pool
    counts tasks without wrapping below 2^32 pending ones; its steps are the
    sections between two points where another thread can interfere.

    ** Not modelled

    - Output, logging, names for printing, the replay that collects source lines,
      the parsing of command lines and sources, child processes and the pinning of
      threads: input, output and the operating system.
    - LLVM: its data structures and their folding of constants, [APInt], [fmod] and
      conversions of numbers are classes and parameters.  Loading of modules, the
      passes other than the annotation of loads (they rewrite modules through
      LLVM), external functions (foreign calls), inline assembly beyond skipping
      it, and the lowering of intrinsics are left out.
    - The driver has no pool here ([getThreadPool()] is null), and its branches
      for models with dependencies are left out: no such model has a driver.
      Debug-only code is left out, but for the counting functions of the deciders.
    - [CALL_DRIVER]'s comparison of string literals is read as meant ([is_load]).
    - The combinations of CombinatoricUtils.hpp: nothing uses them. *)

From Stdlib Require Export ZArith List Lia.
From stdpp Require Export sorting.
From stdpp Require Export base gmap sets option numbers list.

#[global] Open Scope Z_scope.

(** ** Outcomes of C++ code

    The source stops the process with [BUG()] / [BUG_ON(c)]
    (src/Error.hpp, [exit(EGENMC)]).  Code whose behaviour the language
    leaves undefined (an index outside a vector, a shift by 64 or more, a
    division by zero), or that throws an exception nobody catches (the [at] of
    a map without the key), has the outcome [Undef]. *)
Inductive outcome (A : Type) : Type :=
| Ret (a : A)
| Bug
| Undef.
Arguments Ret {A} a.
Arguments Bug {A}.
Arguments Undef {A}.

#[global] Instance outcome_ret : MRet outcome := @Ret.
#[global] Instance outcome_bind : MBind outcome :=
  fun A B (f : A -> outcome B) (m : outcome A) =>
    match m with Ret a => f a | Bug => Bug | Undef => Undef end.
#[global] Instance outcome_fmap : FMap outcome :=
  fun A B (f : A -> B) (m : outcome A) =>
    match m with Ret a => Ret (f a) | Bug => Bug | Undef => Undef end.
#[global] Instance outcome_eq_dec `{EqDecision A} : EqDecision (outcome A).
Proof. solve_decision. Defined.

(** [BUG_ON(c)]: src/Error.hpp. *)
Definition BUG_ON (c : bool) : outcome unit := if c then Bug else Ret tt.

(** Reading [v[i]] of a vector, [Undef] when the index is out of range. *)
Definition vec_get {A} (v : list A) (i : Z) : outcome A :=
  if (i <? 0) then Undef
  else match v !! Z.to_nat i with Some x => Ret x | None => Undef end.

(** A loop of monadic steps over a list ([for (auto &x : l) s = f(s, x)]). *)
Fixpoint mfold {A S} (f : S -> A -> outcome S) (l : list A) (s : S) : outcome S :=
  match l with
  | [] => Ret s
  | x :: l' => s' ← f s x; mfold f l' s'
  end.

Lemma mfold_app {A S} (f : S -> A -> outcome S) l1 l2 s :
  mfold f (l1 ++ l2) s = (s' ← mfold f l1 s; mfold f l2 s').
Proof.
  revert s; induction l1 as [|x l1 IH]; intros s; simpl; [done|].
  destruct (f s x); simpl; [apply IH|done|done].
Qed.

(** If every step from a state satisfying [I] returns a state satisfying [I],
    the loop does. *)
Lemma mfold_inv {A S} (I : S -> Prop) (f : S -> A -> outcome S) l s :
  I s -> (forall x s, x ∈ l -> I s -> exists s', f s x = Ret s' /\ I s') ->
  exists s', mfold f l s = Ret s' /\ I s'.
Proof.
  revert s; induction l as [|x l IH]; intros s Hs Hf; simpl; [eauto|].
  destruct (Hf x s) as (s' & -> & Hs'); [left|done|].
  apply IH; [done|]. intros y t Hy; apply Hf; by right.
Qed.

(** If no step that returns leaves [I], neither does the loop. *)
Lemma mfold_ret {A S} (I : S -> Prop) (f : S -> A -> outcome S) l :
  (forall x s s', x ∈ l -> I s -> f s x = Ret s' -> I s') -> forall s s', mfold f l s = Ret s' -> I s -> I s'.
Proof.
  induction l as [|x l IH]; intros Hf s s' Hm Hs; cbn in Hm; [by injection Hm as <-|].
  destruct (f s x) as [s1| |] eqn:E; [|done..].
  eapply IH; [|exact Hm|]; [intros y ????; eapply Hf; [by right|done..]|]. eapply Hf; [by left|done..].
Qed.

(** ** Machine integers *)

(** Reduction modulo [2^w]: the value of an unsigned [w]-bit variable. *)
Definition wrap (w z : Z) : Z := z mod 2 ^ w.
Abbreviation u32 := (wrap 32).
Abbreviation u64 := (wrap 64).

(** The signed reading of a [w]-bit pattern (two's complement). *)
Definition signed (w z : Z) : Z :=
  if z <? 2 ^ (w - 1) then z else z - 2 ^ w.

Lemma wrap_range w z : 0 <= w -> 0 <= wrap w z < 2 ^ w.
Proof. intros. apply Z.mod_pos_bound. by apply Z.pow_pos_nonneg. Qed.

Lemma wrap_small w z : 0 <= z < 2 ^ w -> wrap w z = z.
Proof. apply Z.mod_small. Qed.

Lemma wrap_testbit w z i :
  0 <= w -> Z.testbit (wrap w z) i = (i <? w) && Z.testbit z i.
Proof.
  intros Hw. unfold wrap. destruct (Z.ltb_spec i w); simpl.
  - destruct (Z.lt_ge_cases i 0); [by rewrite !Z.testbit_neg_r|].
    by apply Z.mod_pow2_bits_low.
  - by apply Z.mod_pow2_bits_high; lia.
Qed.

Lemma wrap_wrap w z : 0 <= w -> wrap w (wrap w z) = wrap w z.
Proof. intros; apply wrap_small, wrap_range; lia. Qed.

Lemma signed_range w z :
  0 < w -> 0 <= z < 2 ^ w -> - 2 ^ (w - 1) <= signed w z < 2 ^ (w - 1).
Proof.
  intros Hw Hz. unfold signed.
  assert (2 ^ w = 2 * 2 ^ (w - 1)) by (rewrite <- Z.pow_succ_r by lia; f_equal; lia).
  case (Z.ltb_spec z (2 ^ (w - 1))); lia.
Qed.

(** The signed reading determines the pattern. *)
Lemma wrap_signed w z : 0 < w -> 0 <= z < 2 ^ w -> wrap w (signed w z) = z.
Proof.
  intros Hw Hz. unfold signed, wrap.
  case (Z.ltb_spec z (2 ^ (w - 1))); intros.
  - by apply Z.mod_small.
  - replace (z - 2 ^ w) with (z + (-1) * 2 ^ w) by lia.
    rewrite Z.mod_add by (apply Z.pow_nonzero; lia). by apply Z.mod_small.
Qed.

Lemma signed_wrap w z :
  0 < w -> - 2 ^ (w - 1) <= z < 2 ^ (w - 1) -> signed w (wrap w z) = z.
Proof.
  intros Hw Hz. unfold signed.
  assert (E : 2 ^ w = 2 * 2 ^ (w - 1)) by (rewrite <- Z.pow_succ_r by lia; f_equal; lia).
  destruct (Z.lt_ge_cases z 0).
  - assert (wrap w z = z + 2 ^ w) as ->.
    { unfold wrap. replace z with (z + 2 ^ w + (-1) * 2 ^ w) at 1 by lia.
      rewrite Z.mod_add by lia. apply Z.mod_small; lia. }
    case (Z.ltb_spec (z + 2 ^ w) (2 ^ (w - 1))); lia.
  - rewrite wrap_small by lia. case (Z.ltb_spec z (2 ^ (w - 1))); lia.
Qed.

(** ** Orders as boolean functions

    A C++ [operator<] is modelled by a boolean function.  Containers that
    need a strict weak order state it through this class. *)
Class StrictTotal {A} (ltb : A -> A -> bool) : Prop := {
  ltb_irrefl x : ltb x x = false;
  ltb_trans x y z : ltb x y = true -> ltb y z = true -> ltb x z = true;
  ltb_total x y : ltb x y = false -> ltb y x = false -> x = y;
}.

#[export] Instance Zltb_total : StrictTotal Z.ltb.
Proof. split; intros *; rewrite ?Z.ltb_lt, ?Z.ltb_ge; lia. Qed.

Lemma ltb_asym {A} (ltb : A -> A -> bool) `{!StrictTotal ltb} x y :
  ltb x y = true -> ltb y x = false.
Proof.
  intros H. destruct (ltb y x) eqn:E; [|done].
  pose proof (ltb_trans _ _ _ H E). pose proof (ltb_irrefl x). congruence.
Qed.

(** ** Automation *)

Create HintDb rustmc discriminated.
#[export] Hint Resolve wrap_range wrap_small : rustmc.

(** Splits boolean connectives of hypotheses and goal into propositions. *)
Ltac bool_to_prop :=
  repeat match goal with
  | H : _ && _ = true |- _ => apply andb_true_iff in H as [? ?]
  | H : _ || _ = false |- _ => apply orb_false_iff in H as [? ?]
  | H : negb _ = true |- _ => apply negb_true_iff in H
  | H : negb _ = false |- _ => apply negb_false_iff in H
  | H : bool_decide _ = true |- _ => apply bool_decide_eq_true in H
  | H : bool_decide _ = false |- _ => apply bool_decide_eq_false in H
  | H : (_ <? _) = true |- _ => apply Z.ltb_lt in H
  | H : (_ <? _) = false |- _ => apply Z.ltb_ge in H
  | H : (_ <=? _) = true |- _ => apply Z.leb_le in H
  | H : (_ <=? _) = false |- _ => apply Z.leb_gt in H
  | H : (_ =? _) = true |- _ => apply Z.eqb_eq in H
  | H : (_ =? _) = false |- _ => apply Z.eqb_neq in H
  | |- _ && _ = true => apply andb_true_iff; split
  | |- negb _ = true => apply negb_true_iff
  | |- negb _ = false => apply negb_false_iff
  | |- bool_decide _ = true => apply bool_decide_eq_true
  | |- bool_decide _ = false => apply bool_decide_eq_false
  | |- (_ <? _) = true => apply Z.ltb_lt
  | |- (_ <? _) = false => apply Z.ltb_ge
  | |- (_ <=? _) = true => apply Z.leb_le
  | |- (_ <=? _) = false => apply Z.leb_gt
  | |- (_ =? _) = true => apply Z.eqb_eq
  | |- (_ =? _) = false => apply Z.eqb_neq
  end.

(** Case analysis on every integer comparison of the goal. *)
Ltac zcases :=
  repeat match goal with
  | |- context [?a <? ?b] => destruct (Z.ltb_spec a b)
  | |- context [?a <=? ?b] => destruct (Z.leb_spec a b)
  | |- context [?a =? ?b] => destruct (Z.eqb_spec a b)
  end.

(** Unfolds one [Ret] binding of a hypothesis [m ← ..; ..= Ret _]. *)
Ltac ret_inv :=
  repeat match goal with
  | H : mbind _ ?m = Ret _ |- _ =>
      let E := fresh "E" in destruct m eqn:E; simpl in H; try discriminate H
  | H : Ret _ = Ret _ |- _ => injection H as H
  | H : BUG_ON _ = Ret _ |- _ => unfold BUG_ON in H; case_match; try discriminate H
  end.
