(* ===== verification/Event.v ===== *)
(** * Positions and stamps of events
    (src/src/Event.hpp, src/src/Stamp.hpp). *)
From S2P Require Import Prelude.

(** ** Event: a position (thread, index) in an execution graph *)

(** [thread] and [index] are C++ [int]s; no bound is assumed on them. *)
Record Event := mkEvent { thread : Z; index : Z }.

#[export] Instance Event_eq_dec : EqDecision Event.
Proof. solve_decision. Defined.
#[export] Program Instance Event_countable : Countable Event :=
  inj_countable' (fun e => (thread e, index e)) (fun p => mkEvent p.1 p.2) _.
Next Obligation. by intros []. Qed.

Module EventOps.

Definition DEF_IDX : Z := -17.
Definition BOT_IDX : Z := -42.

(** [Event()] *)
Definition default : Event := mkEvent DEF_IDX DEF_IDX.
Definition getInit : Event := mkEvent 0 0.
Definition getBottom : Event := mkEvent BOT_IDX BOT_IDX.
Definition isInitializer (e : Event) : bool := bool_decide (e = getInit).
Definition isBottom (e : Event) : bool := bool_decide (e = getBottom).
Definition prev (e : Event) : Event := mkEvent (thread e) (index e - 1).
Definition next (e : Event) : Event := mkEvent (thread e) (index e + 1).

(** [operator<=>]: [None] is [std::partial_ordering::unordered]. *)
Definition compare (a b : Event) : option comparison :=
  if thread a =? thread b then Some (index a ?= index b) else None.

(** The [<] and [<=] the compiler derives from [operator<=>]. *)
Definition ltb (a b : Event) : bool :=
  match compare a b with Some Lt => true | _ => false end.
Definition leb (a b : Event) : bool :=
  match compare a b with Some Lt | Some Eq => true | _ => false end.

(** [EventL2RCompare]: the left-to-right total order. *)
Definition EventL2RCompare (a b : Event) : bool :=
  if thread a =? thread b then index a <? index b else thread a <? thread b.

(** [EventHasher::hash_combine] on a 64-bit [size_t]; [h] is the hash of the
    element. *)
Definition hash_combine (seed h : Z) : Z :=
  Z.lxor seed (u64 (u64 (u64 (h + 0x9e3779b9) + u64 (Z.shiftl seed 6)) + Z.shiftr seed 2)).

(** [EventHasher::operator()]; [std_hash] is [std::hash<int>]. *)
Definition hash (std_hash : Z -> Z) (e : Event) : Z :=
  hash_combine (hash_combine 0 (std_hash (thread e))) (std_hash (index e)).

Lemma ltb_spec a b : ltb a b = true <-> thread a = thread b /\ index a < index b.
Proof.
  unfold ltb, compare. case (Z.eqb_spec (thread a) (thread b)); intros.
  - case (Z.compare_spec (index a) (index b)); intuition (done || lia).
  - intuition done.
Qed.

Lemma leb_spec a b : leb a b = true <-> thread a = thread b /\ index a <= index b.
Proof.
  unfold leb, compare. case (Z.eqb_spec (thread a) (thread b)); intros.
  - case (Z.compare_spec (index a) (index b)); intuition (done || lia).
  - intuition done.
Qed.

Lemma prev_next e : prev (next e) = e.
Proof. destruct e; unfold prev, next; simpl; f_equal; lia. Qed.

Lemma next_prev e : next (prev e) = e.
Proof. destruct e; unfold prev, next; simpl; f_equal; lia. Qed.

Lemma L2R_spec a b :
  EventL2RCompare a b = true <-> thread a < thread b \/ thread a = thread b /\ index a < index b.
Proof. unfold EventL2RCompare. zcases; intuition (done || lia). Qed.

#[export] Instance L2R_total : StrictTotal EventL2RCompare.
Proof.
  unfold EventL2RCompare.
  split; [intros [t i] | intros [t i] [t' i'] [t'' i''] | intros [t i] [t' i']];
    simpl; zcases; try (intros; (done || lia || (f_equal; lia))).
Qed.

End EventOps.

(** ** Stamp: a 32-bit timestamp *)
Module Stamp.

(** A [Stamp] is the [uint32_t] it wraps. *)
Definition add_assign (s v : Z) : Z := u32 (s + v).
Definition sub_assign (s v : Z) : Z := u32 (s - v).

(** [IMPL_STAMP_BINOP(+)] and [IMPL_STAMP_BINOP(-)].  The macro writes [n += v]
    in the body of both operators. *)
Definition add (s v : Z) : Z := add_assign s v.
Definition sub (s v : Z) : Z := add_assign s v.

Definition pre_incr (s : Z) : Z := add_assign s 1.
Definition pre_decr (s : Z) : Z := sub_assign s 1.
(** The postfix operators: the old value and the new state. *)
Definition post_incr (s : Z) : Z * Z := (s, pre_incr s).
Definition post_decr (s : Z) : Z * Z := (s, pre_decr s).

Lemma add_small s v : 0 <= s -> 0 <= v -> s + v < 2 ^ 32 -> add s v = s + v.
Proof. intros. unfold add, add_assign. apply wrap_small; lia. Qed.

Lemma incr_decr s : 0 <= s < 2 ^ 32 -> pre_decr (pre_incr s) = s.
Proof.
  intros. unfold pre_decr, pre_incr, sub_assign, add_assign, wrap.
  rewrite Zminus_mod_idemp_l. rewrite Z.add_simpl_r. by apply Z.mod_small.
Qed.

(** [s - v] is [s + v]: it agrees with [s -= v] only where adding and
    subtracting [v] coincide modulo [2^32]. *)
Theorem sub_adds s v :
  0 <= v < 2 ^ 32 ->
  sub s v = add s v /\ (sub s v = sub_assign s v <-> v = 0 \/ v = 2 ^ 31).
Proof.
  intros Hv. split; [done|]. unfold sub, sub_assign, add_assign, wrap.
  pose proof (Z.div_mod (s + v) (2 ^ 32)) as E1. pose proof (Z.div_mod (s - v) (2 ^ 32)) as E2.
  pose proof (Z.mod_pos_bound (s + v) (2 ^ 32)). pose proof (Z.mod_pos_bound (s - v) (2 ^ 32)).
  split; lia.
Qed.

Lemma sub_adds_witness :
  sub 10 3 = add 10 3 /\ (sub 10 3 = sub_assign 10 3 <-> 3 = 0 \/ 3 = 2 ^ 31).
Proof. apply (sub_adds 10 3). lia. Defined.

End Stamp.
