(* ===== verification/SVal.v ===== *)
(** * SVal: 64-bit memory values (src/src/SVal.hpp). *)
From S2P Require Import Prelude.

(** A value is the [uint64_t] it wraps: an integer in [0, 2^64). *)
Module SVal.

Definition width : Z := 64.

(** The representation invariant. *)
Definition ok (v : Z) : Prop := 0 <= v < 2 ^ 64.

(** [SVal(uint64_t)]: a wider argument is truncated. *)
Definition make (v : Z) : Z := u64 v.

Definition getSigned (v : Z) : Z := signed width v.
(** [operator bool] and [getBool]. *)
Definition getBool (v : Z) : bool := negb (v =? 0).

(** [get() << n] on a [uint64_t], [0 <= n < 64]. *)
Definition shl64 (v n : Z) : Z := u64 (Z.shiftl v n).

(** [int64_t(x) >> n] stored into a [uint64_t]: an arithmetic shift. *)
Definition sar64 (v n : Z) : Z := u64 (Z.shiftr (signed width v) n).

Definition signExtendBottom (v b : Z) : outcome Z :=
  _ ← BUG_ON ((b =? 0) || (b >? width));
  Ret (sar64 (shl64 v (width - b)) (width - b)).

Definition eqb (v w : Z) : bool := w =? v.

Definition cmp (v w : Z) : Z := if v <? w then -1 else if v >? w then 1 else 0.
Definition compareSigned (v w : Z) : Z := cmp (getSigned v) (getSigned w).

Definition ult (v w : Z) : bool := cmp v w <? 0.
Definition slt (v w : Z) : bool := compareSigned v w <? 0.
Definition ule (v w : Z) : bool := cmp v w <=? 0.
Definition sle (v w : Z) : bool := compareSigned v w <=? 0.
Definition ugt (v w : Z) : bool := negb (ule v w).
Definition sgt (v w : Z) : bool := negb (sle v w).
Definition uge (v w : Z) : bool := negb (ult v w).
Definition sge (v w : Z) : bool := negb (slt v w).

(** [IMPL_BINOP]: the operators of [uint64_t].  Division by zero and shifts by
    64 or more are undefined. *)
Definition add (v w : Z) : Z := u64 (v + w).
Definition sub (v w : Z) : Z := u64 (v - w).
Definition mul (v w : Z) : Z := u64 (v * w).
Definition div (v w : Z) : outcome Z := if w =? 0 then Undef else Ret (v / w).
Definition rem (v w : Z) : outcome Z := if w =? 0 then Undef else Ret (v mod w).
Definition land (v w : Z) : Z := Z.land v w.
Definition lor (v w : Z) : Z := Z.lor v w.
Definition lxor (v w : Z) : Z := Z.lxor v w.
Definition shl (v w : Z) : outcome Z := if w <? 64 then Ret (shl64 v w) else Undef.
Definition shr (v w : Z) : outcome Z := if w <? 64 then Ret (Z.shiftr v w) else Undef.
(** [operator~] *)
Definition lnot (v : Z) : Z := u64 (Z.lnot v).

(** ** Representation *)

Lemma ok_u64 z : ok (u64 z).
Proof. apply wrap_range; lia. Qed.

Lemma getSigned_range v : ok v -> - 2 ^ 63 <= getSigned v < 2 ^ 63.
Proof. intros. apply (signed_range 64); [lia|done]. Qed.

Lemma getSigned_inj v w : ok v -> ok w -> getSigned v = getSigned w -> v = w.
Proof.
  intros Hv Hw E. rewrite <- (wrap_signed 64 v), <- (wrap_signed 64 w) by (done || lia).
  by f_equal.
Qed.

Lemma ok_nonneg v : ok v -> 0 <= v.
Proof. by intros []. Qed.

(** A non-negative number whose bits from 64 up are clear is a value. *)
Lemma ok_bits v : 0 <= v -> (forall i, 64 <= i -> Z.testbit v i = false) -> ok v.
Proof.
  intros H0 Hb. split; [done|].
  destruct (Z.lt_ge_cases v (2 ^ 64)) as [|Hge]; [done|exfalso].
  assert (64 <= Z.log2 v) by (change 64 with (Z.log2 (2 ^ 64)); by apply Z.log2_le_mono).

  pose proof (Z.bit_log2 v ltac:(lia)) as Hl. rewrite Hb in Hl; done.
Qed.

(** ** Comparisons: a sign of [v - w] under each reading *)

Lemma cmp_spec v w : cmp v w = Z.sgn (v - w).
Proof.
  unfold cmp. rewrite Z.gtb_ltb. zcases; lia.
Qed.

Lemma ult_spec v w : ult v w = (v <? w).
Proof. unfold ult. rewrite cmp_spec. zcases; lia. Qed.
Lemma ule_spec v w : ule v w = (v <=? w).
Proof. unfold ule. rewrite cmp_spec. zcases; lia. Qed.
Lemma slt_spec v w : slt v w = (getSigned v <? getSigned w).
Proof. unfold slt, compareSigned. apply (ult_spec (getSigned v) (getSigned w)). Qed.
Lemma sle_spec v w : sle v w = (getSigned v <=? getSigned w).
Proof. unfold sle, compareSigned. apply (ule_spec (getSigned v) (getSigned w)). Qed.

#[export] Instance ult_total : StrictTotal ult.
Proof.
  split; intros *; rewrite !ult_spec; [apply Z.ltb_irrefl|..]; intros; bool_to_prop; lia.
Qed.

(** ** Closure of the operators *)

Lemma land_ok v w : ok v -> ok w -> ok (land v w).
Proof.
  intros Hv Hw. apply ok_bits; [apply Z.land_nonneg; left; apply Hv|].
  intros i Hi. unfold land. rewrite Z.land_spec.
  rewrite <- (wrap_small 64 v) by apply Hv. rewrite wrap_testbit by lia.
  by destruct (Z.ltb_spec i 64); [lia|].
Qed.

Lemma ok_testbit v i : ok v -> 64 <= i -> Z.testbit v i = false.
Proof.
  intros Hv Hi. rewrite <- (wrap_small 64 v) by apply Hv. rewrite wrap_testbit by lia.
  by destruct (Z.ltb_spec i 64); [lia|].
Qed.
Lemma lor_ok v w : ok v -> ok w -> ok (lor v w).
Proof.
  intros Hv Hw. apply ok_bits; [apply Z.lor_nonneg; split; [apply Hv|apply Hw]|].
  intros i Hi. unfold lor. by rewrite Z.lor_spec, !ok_testbit.
Qed.
Lemma lxor_ok v w : ok v -> ok w -> ok (lxor v w).
Proof.
  intros Hv Hw. apply ok_bits; [apply Z.lxor_nonneg; split; intros; [apply Hw|apply Hv]|].
  intros i Hi. unfold lxor. by rewrite Z.lxor_spec, !ok_testbit.
Qed.

Lemma shr_ok v n : ok v -> 0 <= n -> ok (Z.shiftr v n).
Proof.
  intros Hv Hn. split; [by apply Z.shiftr_nonneg, Hv|].
  rewrite Z.shiftr_div_pow2 by done. apply Z.div_lt_upper_bound; [by apply Z.pow_pos_nonneg|].
  pose proof (Z.pow_pos_nonneg 2 n). destruct Hv. nia.
Qed.

(** ** Sign extension *)

(** Shifting the low [64 - n] bits to the top multiplies them by [2^n]. *)
Lemma shl64_low v n : 0 <= n < 64 -> shl64 v n = 2 ^ n * wrap (64 - n) v.
Proof.
  intros Hn. unfold shl64, wrap. rewrite Z.shiftl_mul_pow2, (Z.mul_comm v) by lia.
  replace (2 ^ 64) with (2 ^ n * 2 ^ (64 - n)) by (rewrite <- Z.pow_add_r by lia; f_equal; lia).
  rewrite Z.mul_mod_distr_l; [done|apply Z.pow_nonzero; lia..].
Qed.

Lemma signed_scale n x :
  0 <= n < 64 -> signed 64 (2 ^ n * x) = 2 ^ n * signed (64 - n) x.
Proof.
  intros Hn. unfold signed.
  assert (2 ^ 64 = 2 ^ n * 2 ^ (64 - n)) as -> by (rewrite <- Z.pow_add_r by lia; f_equal; lia).
  assert (2 ^ (64 - 1) = 2 ^ n * 2 ^ (64 - n - 1)) as ->
    by (rewrite <- Z.pow_add_r by lia; f_equal; lia).
  assert (0 < 2 ^ n) by (apply Z.pow_pos_nonneg; lia).
  zcases; nia.
Qed.

(** The low [b] bits of [v] read as a signed number. *)
Definition signed_low (b v : Z) : Z := signed b (wrap b v).

Lemma signed_low_range b v : 0 < b <= 64 -> - 2 ^ 63 <= signed_low b v < 2 ^ 63.
Proof.
  intros Hb. pose proof (signed_range b (wrap b v) ltac:(lia) ltac:(apply wrap_range; lia)).
  assert (2 ^ (b - 1) <= 2 ^ 63) by (apply Z.pow_le_mono_r; lia).
  unfold signed_low. lia.
Qed.

Lemma signExtendBottom_ret v b :
  0 < b <= 64 -> signExtendBottom v b = Ret (u64 (signed_low b v)).
Proof.
  intros Hb. unfold signExtendBottom, BUG_ON, width.
  rewrite Z.gtb_ltb. destruct (Z.eqb_spec b 0); [lia|]. destruct (Z.ltb_spec 64 b); [lia|].
  simpl. f_equal. unfold sar64, width.
  rewrite shl64_low, signed_scale by lia.
  replace (64 - (64 - b)) with b by lia.
  rewrite Z.shiftr_div_pow2 by lia. unfold signed_low. f_equal.
  rewrite Z.mul_comm, Z.div_mul; [done|apply Z.pow_nonzero; lia].
Qed.

(** Sign extension returns a value for every width in range, whose signed
    reading is the signed reading of the bottom [b] bits and whose bottom [b]
    bits are those of the argument; any other width stops the process. *)
Theorem signExtendBottom_correct v b :
  (0 < b <= 64 ->
   exists r, signExtendBottom v b = Ret r /\ ok r /\
             getSigned r = signed_low b v /\ wrap b r = wrap b v) /\
  (b = 0 \/ 64 < b -> signExtendBottom v b = Bug).
Proof.
  split.
  - intros Hb. rewrite signExtendBottom_ret by done. eexists. split; [done|].
    split; [apply ok_u64|]. split.
    + unfold getSigned. apply signed_wrap; [done|]. by apply signed_low_range.
    + unfold signed_low, wrap. rewrite Z.mod_mod_divide.
      * apply (wrap_signed b (v mod 2 ^ b)); [lia|]. apply Z.mod_pos_bound, Z.pow_pos_nonneg; lia.
      * exists (2 ^ (64 - b)). rewrite <- Z.pow_add_r by lia. f_equal; lia.
  - intros Hb. unfold signExtendBottom, BUG_ON, width. rewrite Z.gtb_ltb.
    destruct Hb as [->|Hb]; [done|]. destruct (Z.ltb_spec 64 b); [|lia].
    by rewrite orb_true_r.
Qed.

Lemma signExtendBottom_correct_witness :
  exists r, signExtendBottom 0xff 8 = Ret r /\ ok r /\
            getSigned r = signed_low 8 0xff /\ wrap 8 r = wrap 8 0xff.
Proof. apply (signExtendBottom_correct 0xff 8). lia. Defined.

End SVal.
