(* ===== verification/SAddr.v ===== *)
(** * Addresses, memory accesses and address allocation
    (src/src/ASize.hpp, SAddr.hpp, SAddr.cpp, MemAccess.hpp,
    SAddrAllocator.hpp). *)
From S2P Require Import Prelude.

(** ** ASize: the size of an access in bytes, a [uint32_t] *)
Module ASize.
Definition CHAR_BIT : Z := 8.
Definition make (s : Z) : Z := u32 s.
Definition get (s : Z) : Z := s.
Definition getBits (s : Z) : Z := u32 (s * CHAR_BIT).
End ASize.

(** ** SAddr: a 64-bit tagged address *)
Module SAddr.

Definition wordSize : Z := 3.
Definition byteMask : Z := u64 (Z.shiftl 1 wordSize) - 1.
Definition staticMask : Z := Z.shiftl 1 63.
Definition automaticMask : Z := Z.shiftl 1 62.
Definition internalMask : Z := Z.shiftl 1 61.
Definition durableMask : Z := Z.shiftl 1 60.
Definition storageMask : Z :=
  Z.lor (Z.lor (Z.lor staticMask automaticMask) internalMask) durableMask.
Definition addressMask : Z := durableMask - 1.
Definition limit : Z := addressMask.

(** [-(unsigned long)(!!b)] *)
Definition neg_bool (b : bool) : Z := if b then 2 ^ 64 - 1 else 0.

Definition create (storage value : Z) (durable internal : bool) : outcome Z :=
  _ ← BUG_ON (value >=? limit);
  let fresh := Z.lor 0 storage in
  let fresh := Z.lxor fresh (Z.land (Z.lxor (neg_bool durable) fresh) durableMask) in
  let fresh := Z.lxor fresh (Z.land (Z.lxor (neg_bool internal) fresh) internalMask) in
  Ret (Z.lor fresh value).

Definition createStatic := create staticMask.
Definition createHeap := create 0.
Definition createAutomatic := create automaticMask.

(** [addr & mask] read as a [bool]. *)
Definition has (addr mask : Z) : bool := negb (Z.land addr mask =? 0).

Definition isStatic (a : Z) : bool := has a staticMask.
Definition isDynamic (a : Z) : bool := negb (isStatic a).
Definition isAutomatic (a : Z) : bool := has a automaticMask.
Definition isHeap (a : Z) : bool := negb (isAutomatic a).
Definition isInternal (a : Z) : bool := has a internalMask.
Definition isUser (a : Z) : bool := negb (isInternal a).
Definition isDurable (a : Z) : bool := has a durableMask.
Definition isVolatile (a : Z) : bool := negb (isDurable a).
Definition isNull (a : Z) : bool := a =? 0.

Definition sameStorageAs (a b : Z) : bool :=
  Z.land a storageMask =? Z.land b storageMask.

Definition align (a : Z) : Z := u64 (Z.shiftl (Z.shiftr a wordSize) wordSize).
Definition getByte (a : Z) : Z := Z.land a byteMask.

(** [operator+], [operator-], [operator>>], [operator<<]. *)
Definition add (a size : Z) : Z := u64 (a + size).
Definition sub (a size : Z) : Z := u64 (a - size).
Definition diff (a b : Z) : Z := u64 (a - b).
Definition shr (a n : Z) : outcome Z := if n <? 64 then Ret (Z.shiftr a n) else Undef.
Definition shl (a n : Z) : outcome Z := if n <? 64 then Ret (u64 (Z.shiftl a n)) else Undef.

Definition ok (a : Z) : Prop := 0 <= a < 2 ^ 64.

(** *** Address arithmetic *)

Lemma align_spec a : ok a -> align a = a - a mod 8.
Proof.
  intros Ha. unfold align, wordSize. rewrite Z.shiftl_mul_pow2, Z.shiftr_div_pow2 by lia.
  change (2 ^ 3) with 8. unfold ok in Ha.
  pose proof (Z.div_mod a 8 ltac:(lia)). pose proof (Z.mod_pos_bound a 8 ltac:(lia)).
  rewrite wrap_small; lia.
Qed.

Lemma getByte_spec a : getByte a = a mod 8.
Proof. unfold getByte. change byteMask with (Z.ones 3). by rewrite Z.land_ones. Qed.

Lemma align_idem a : ok a -> align (align a) = align a.
Proof.
  intros Ha. pose proof (align_spec a Ha) as E.
  assert (ok (align a)).
  { unfold ok in *. rewrite E. pose proof (Z.mod_pos_bound a 8). pose proof (Z.mod_le a 8). lia. }
  rewrite align_spec by done. rewrite E.
  pose proof (Z.div_mod a 8 ltac:(lia)).
  replace (a - a mod 8) with (a / 8 * 8) by lia. rewrite Z.mod_mul; lia.
Qed.

(** Every address is its word plus its byte number. *)
Lemma align_getByte a : ok a -> add (align a) (getByte a) = a.
Proof.
  intros Ha. unfold add. rewrite align_spec, getByte_spec by done.
  rewrite wrap_small by (unfold ok in Ha; lia). lia.
Qed.

(** *** Tag bits *)

(** A number below [2^60] has none of the tag bits. *)
Lemma lor_tag k v : 0 <= v < 2 ^ 60 -> Z.lor (k * 2 ^ 60) v = k * 2 ^ 60 + v.
Proof.
  intros Hv. rewrite <- Z.add_lor_land.
  replace (Z.land (k * 2 ^ 60) v) with 0; [lia|]. symmetry. apply Z.bits_inj'. intros i Hi.
  rewrite Z.land_spec, Z.bits_0, <- Z.shiftl_mul_pow2 by lia.
  destruct (Z.lt_ge_cases i 60).
  - by rewrite Z.shiftl_spec_low.
  - rewrite <- (wrap_small 60 v), wrap_testbit by lia.
    destruct (Z.ltb_spec i 60); [lia|]. by rewrite andb_false_r.
Qed.

(** The tag of an address: its four highest bits. *)
Definition tag (a : Z) : Z := a / 2 ^ 60.

Lemma land_tag a m : 0 <= m -> Z.land a (m * 2 ^ 60) = Z.land (tag a) m * 2 ^ 60.
Proof.
  intros Hm. unfold tag. rewrite <- Z.shiftr_div_pow2, <- !Z.shiftl_mul_pow2 by lia.
  apply Z.bits_inj'. intros i Hi. rewrite Z.land_spec.
  destruct (Z.lt_ge_cases i 60).
  - rewrite !Z.shiftl_spec_low by done. apply andb_false_r.
  - rewrite !Z.shiftl_spec_high by lia. rewrite Z.land_spec, Z.shiftr_spec by lia.
    do 2 f_equal. lia.
Qed.

Lemma tag_add k v : 0 <= v < 2 ^ 60 -> tag (k * 2 ^ 60 + v) = k.
Proof. intros. unfold tag. rewrite Z.div_add_l by lia. rewrite Z.div_small; lia. Qed.

(** The tag [create] writes for a storage tag [k]. *)
Definition tag_of (k : Z) (durable internal : bool) : Z :=
  k + 2 * Z.b2z internal + Z.b2z durable.

Lemma create_tag k v d i :
  k ∈ [0; 4; 8] -> 0 <= v ->
  create (k * 2 ^ 60) v d i =
    if v >=? limit then Bug else Ret (tag_of k d i * 2 ^ 60 + v).
Proof.
  intros Hk Hv. unfold create, BUG_ON. destruct (v >=? limit) eqn:E; [done|]. simpl. f_equal.
  rewrite <- lor_tag.
  - f_equal. set_unfold in Hk. destruct Hk as [->|[->|[->|[]]]]; by destruct d, i.
  - rewrite Z.geb_leb in E. bool_to_prop. change limit with (2 ^ 60 - 1) in E. lia.
Qed.
End SAddr.

(** ** AAccess: an address, a size and a type *)
Inductive AType := Pointer | Signed | Unsigned.
#[export] Instance AType_eq_dec : EqDecision AType.
Proof. solve_decision. Defined.

(** The record keeps the source's fields; [acc_addr] is an [SAddr], [acc_size]
    an [ASize]. *)
Record AAccess := mkAccess { acc_addr : Z; acc_size : Z; acc_type : AType }.
#[export] Instance AAccess_eq_dec : EqDecision AAccess.
Proof. solve_decision. Defined.

Module AccessOps.

Definition isPointer (a : AAccess) : bool := bool_decide (acc_type a = Pointer).
Definition isUnsigned (a : AAccess) : bool := bool_decide (acc_type a = Unsigned).
Definition isSigned (a : AAccess) : bool := bool_decide (acc_type a = Signed).

Definition contains (a : AAccess) (x : Z) : bool :=
  if negb (SAddr.sameStorageAs (acc_addr a) x) then false
  else (acc_addr a <=? x) && (x <? SAddr.add (acc_addr a) (acc_size a)).

Definition overlaps (a b : AAccess) : bool :=
  if negb (SAddr.sameStorageAs (acc_addr a) (acc_addr b)) then false
  else (SAddr.add (acc_addr a) (acc_size a) >? acc_addr b) &&
       (acc_addr a <? SAddr.add (acc_addr b) (acc_size b)).

(** [SAddr::operator AAccess]: the access of the whole word (SAddr.cpp). *)
Definition word_access (a : Z) : AAccess :=
  mkAccess (SAddr.align a) (ASize.make (Z.shiftl 1 SAddr.wordSize)) Signed.

(** *** WordFragment: a [std::set<int>] of byte numbers, in increasing order *)

(** [std::set<int>::insert]. *)
Fixpoint set_insert (x : Z) (s : list Z) : list Z :=
  match s with
  | [] => [x]
  | y :: s' => if x <? y then x :: s else if y <? x then y :: set_insert x s' else s
  end.

(** [WordFragment(AAccess)] *)
Definition WordFragment (a : AAccess) : list Z :=
  let first := SAddr.getByte (acc_addr a) in
  foldl (fun s i => set_insert (first + Z.of_nat i) s) [] (seq 0 (Z.to_nat (acc_size a))).

Definition subtract (f g : list Z) : list Z := filter (fun x => x ∉ g) f.
Definition intersect (f g : list Z) : list Z := filter (fun x => x ∈ g) f.

(** The loops of [getAccesses]: [beg] and [size] are the variables of the outer
    iteration, the list what [it] has not reached. *)
Fixpoint fragment_runs (beg size : Z) (l : list Z) : list (Z * Z) :=
  match l with
  | [] => [(beg, size)]
  | x :: l' =>
      if x =? beg + size then fragment_runs beg (size + 1) l'
      else (beg, size) :: fragment_runs x 1 l'
  end.

Definition getAccesses (word : Z) (fragment : list Z) (type : AType) : outcome (list AAccess) :=
  _ ← BUG_ON (negb (word =? SAddr.align word));
  Ret (match fragment with
       | [] => []
       | b :: l =>
           map (fun '(beg, size) =>
                  mkAccess (SAddr.add word (ASize.make beg)) (ASize.make size) type)
               (fragment_runs b 1 l)
       end).

Definition getOverlap (a : AAccess) (fragment : list Z) : list Z :=
  intersect (WordFragment a) fragment.

(** *** Overlap is intersection of byte ranges *)

(** An access that does not run past the end of the address space. *)
Definition bounded (a : AAccess) : Prop :=
  0 <= acc_addr a /\ 0 < acc_size a /\ acc_addr a + acc_size a < 2 ^ 64.

Lemma bounded_end a : bounded a -> SAddr.add (acc_addr a) (acc_size a) = acc_addr a + acc_size a.
Proof. intros (?&?&?). apply wrap_small. lia. Qed.

Lemma sameStorageAs_refl x : SAddr.sameStorageAs x x = true.
Proof. unfold SAddr.sameStorageAs. apply Z.eqb_refl. Qed.

Lemma sameStorageAs_sym x y : SAddr.sameStorageAs x y = SAddr.sameStorageAs y x.
Proof. apply Z.eqb_sym. Qed.

Lemma sameStorageAs_trans x y z :
  SAddr.sameStorageAs x y = true -> SAddr.sameStorageAs y z = true ->
  SAddr.sameStorageAs x z = true.
Proof. unfold SAddr.sameStorageAs. intros; bool_to_prop; congruence. Qed.

Lemma acc_contains_spec a x :
  bounded a ->
  contains a x = true <->
  SAddr.sameStorageAs (acc_addr a) x = true /\ acc_addr a <= x < acc_addr a + acc_size a.
Proof.
  intros Hb. unfold contains. rewrite bounded_end by done.
  destruct (SAddr.sameStorageAs _ _); simpl; [|intuition congruence].
  rewrite andb_true_iff, Z.leb_le, Z.ltb_lt. intuition lia.
Qed.

Lemma overlaps_range a b :
  bounded a -> bounded b ->
  overlaps a b = true <->
  SAddr.sameStorageAs (acc_addr a) (acc_addr b) = true /\
  acc_addr b < acc_addr a + acc_size a /\ acc_addr a < acc_addr b + acc_size b.
Proof.
  intros Ha Hb. unfold overlaps. rewrite !bounded_end by done.
  destruct (SAddr.sameStorageAs _ _); simpl; [|intuition congruence].
  rewrite andb_true_iff, Z.gtb_lt, Z.ltb_lt. intuition lia.
Qed.

(** Two accesses overlap exactly when some address lies in both, and the test
    is symmetric. *)
Theorem overlaps_iff_common_byte a b :
  bounded a -> bounded b ->
  (overlaps a b = true <-> exists x, contains a x = true /\ contains b x = true) /\
  overlaps a b = overlaps b a.
Proof.
  intros Ha Hb. split.
  - rewrite overlaps_range by done. setoid_rewrite acc_contains_spec; [|done..].
    destruct Ha as (?&?&?), Hb as (?&?&?). split.
    + intros (Hs & ? & ?). exists (Z.max (acc_addr a) (acc_addr b)).
      destruct (Z.max_spec (acc_addr a) (acc_addr b)) as [[? ->]|[? ->]];
        rewrite ?sameStorageAs_refl, ?(sameStorageAs_sym (acc_addr b)); repeat split; (done || lia).
    + intros (x & [? ?] & [? ?]). split; [|lia].
      eapply sameStorageAs_trans; [done|]. by rewrite sameStorageAs_sym.
  - apply eq_true_iff_eq. rewrite !overlaps_range, sameStorageAs_sym by done. intuition lia.
Qed.

Lemma overlaps_iff_common_byte_witness :
  let a := mkAccess 8 4 Unsigned in let b := mkAccess 10 8 Signed in
  (overlaps a b = true <-> exists x, contains a x = true /\ contains b x = true) /\
  overlaps a b = overlaps b a.
Proof. apply overlaps_iff_common_byte; unfold bounded; simpl; lia. Defined.

(** *** Splitting a fragment into accesses *)

(** The consecutive numbers [beg, ..., beg + size - 1]. *)
Definition range (beg size : Z) : list Z := seqZ beg size.
Definition run_bytes (p : Z * Z) : list Z := range p.1 p.2.
Definition access_bytes (a : AAccess) : list Z := range (acc_addr a) (acc_size a).

Lemma range_snoc beg size : 0 <= size -> range beg (size + 1) = range beg size ++ [beg + size].
Proof. intros. unfold range. by rewrite seqZ_app by lia. Qed.

Lemma fragment_runs_bytes beg size l :
  0 <= size -> flat_map run_bytes (fragment_runs beg size l) = range beg size ++ l.
Proof.
  revert beg size. induction l as [|x l IH]; intros beg size Hs; simpl; [done|].
  case (Z.eqb_spec x (beg + size)); intros; simpl.
  - subst x. rewrite IH, range_snoc, <- app_assoc by lia. done.
  - rewrite IH by lia. done.
Qed.

Lemma fragment_runs_separated beg size l :
  StronglySorted Z.lt l -> Forall (fun x => beg + size - 1 < x) l ->
  Sorted (fun p q => p.1 + p.2 < q.1) (fragment_runs beg size l) /\
  exists n r, fragment_runs beg size l = (beg, n) :: r.
Proof.
  revert beg size. induction l as [|x l IH]; intros beg size Hs Hl; simpl; [by eauto|].
  inversion Hs as [|?? Hs' Hx]; subst. inversion Hl; subst.
  case (Z.eqb_spec x (beg + size)); intros.
  - apply IH; [done|]. eapply Forall_impl; [exact Hx|]. simpl; lia.
  - destruct (IH x 1) as (IHs & n0 & r & E); [done|(eapply Forall_impl; [exact Hx|simpl; lia])|].
    split; [|by eauto]. constructor; [done|]. rewrite E. constructor. simpl; lia.
Qed.

Lemma fragment_runs_pos beg size l :
  0 < size -> Forall (fun p => 0 < p.2) (fragment_runs beg size l).
Proof.
  revert beg size. induction l as [|x l IH]; intros beg size Hs; simpl; [by constructor|].
  case_match; [apply IH; lia|]. constructor; [done|]. apply IH; lia.
Qed.

Lemma range_shift w b n : range (w + b) n = map (fun i => w + i) (range b n).
Proof. symmetry. apply fmap_add_seqZ. Qed.

(** The bytes of a run of [fragment_runs] are bytes of the fragment. *)
Lemma fragment_run_bound b l lo hi p :
  Forall (fun x => lo <= x < hi) (b :: l) -> p ∈ fragment_runs b 1 l ->
  lo <= p.1 /\ 0 < p.2 /\ p.1 + p.2 <= hi.
Proof.
  intros Hl Hp.
  assert (0 < p.2) as Hpos.
  { pose proof (fragment_runs_pos b 1 l ltac:(lia)) as Hf. rewrite Forall_forall in Hf. by apply Hf. }
  assert (Hin : forall x, p.1 <= x < p.1 + p.2 -> lo <= x < hi).
  { intros x Hx. rewrite Forall_forall in Hl. apply Hl.
    change (b :: l) with (range b 1 ++ l).
    rewrite <- fragment_runs_bytes by lia. apply list_elem_of_In, in_flat_map.
    exists p. split; [by apply list_elem_of_In|]. apply list_elem_of_In. unfold run_bytes, range.
    by apply elem_of_seqZ. }
  pose proof (Hin p.1 ltac:(lia)). pose proof (Hin (p.1 + p.2 - 1) ltac:(lia)). lia.
Qed.

(** Splitting a fragment of a word into accesses loses and invents no byte, and
    the accesses are the maximal runs: each ends strictly before the next
    begins. *)
Theorem getAccesses_partition word f t :
  SAddr.ok word -> SAddr.align word = word -> word + 2 ^ 31 < 2 ^ 64 ->
  StronglySorted Z.lt f -> Forall (fun x => 0 <= x < 2 ^ 31) f ->
  exists accs, getAccesses word f t = Ret accs /\
    flat_map access_bytes accs = map (fun i => word + i) f /\
    Sorted (fun a b => acc_addr a + acc_size a < acc_addr b) accs /\
    Forall (fun a => 0 < acc_size a /\ acc_type a = t) accs.
Proof.
  intros Hok Hal Hw Hs Hf. unfold getAccesses. rewrite Hal, Z.eqb_refl. simpl.
  eexists; split; [done|]. destruct f as [|b l]; [by repeat constructor|].
  set (mk := fun '(_, _) => _).
  assert (Hmk : forall p, p ∈ fragment_runs b 1 l -> mk p = mkAccess (word + p.1) p.2 t).
  { intros [x n] Hp. destruct (fragment_run_bound b l 0 (2 ^ 31) (x, n) Hf Hp) as (?&?&?).
    unfold mk, SAddr.add, ASize.make. unfold SAddr.ok in Hok.
    simpl in *. by rewrite (wrap_small 32 x), (wrap_small 32 n), wrap_small by lia. }
  assert (Emap : map mk (fragment_runs b 1 l) =
                 map (fun p => mkAccess (word + p.1) p.2 t) (fragment_runs b 1 l)).
  { apply map_ext_in. intros p Hp. by apply Hmk, list_elem_of_In. }
  rewrite Emap. inversion Hs as [|?? Hs' Hlt]; subst. split; [|split].
  - change (b :: l) with (range b 1 ++ l). rewrite <- fragment_runs_bytes by lia.
    clear. induction (fragment_runs b 1 l) as [|p r IH]; simpl; [done|].
    rewrite map_app, <- IH. f_equal. unfold access_bytes, run_bytes. simpl. apply range_shift.
  - destruct (fragment_runs_separated b 1 l) as [HS _];
      [done|(eapply Forall_impl; [exact Hlt|simpl; lia])|].
    clear -HS. induction HS as [|p r HS IH HR]; simpl; constructor; [done|].
    destruct HR; constructor. simpl. lia.
  - pose proof (fragment_runs_pos b 1 l ltac:(lia)) as HP. clear -HP.
    induction HP; simpl; constructor; simpl; auto.
Qed.

Lemma getAccesses_partition_witness :
  exists accs, getAccesses 16 [0; 1; 4; 5; 6] Unsigned = Ret accs /\
    flat_map access_bytes accs = map (fun i => 16 + i) [0; 1; 4; 5; 6] /\
    Sorted (fun a b => acc_addr a + acc_size a < acc_addr b) accs /\
    Forall (fun a => 0 < acc_size a /\ acc_type a = Unsigned) accs.
Proof.
  apply getAccesses_partition; [unfold SAddr.ok; lia|reflexivity|lia|..].
  - repeat (constructor; try lia).
  - repeat (constructor; try lia).
Defined.

End AccessOps.

(** ** SAddrAllocator: three bump pools *)

Record SAddrAllocator := mkAlloc { staticPool : Z; automaticPool : Z; heapPool : Z }.

Module Allocator.

(** [SAddrAllocator()]: the member initialisers. *)
Definition init : SAddrAllocator := mkAlloc 0 0 1.

(** [allocate]: [size] and [alignment] are [unsigned int]s, the pool a 64-bit
    counter.  [~(alignment - 1)] is computed on 32 bits and then widened, so
    its upper half is zero.  Returns the address and the new pool. *)
Definition allocate (allocFun : Z -> bool -> bool -> outcome Z) (pool size alignment : Z)
    (isDurable isInternal : bool) : outcome (Z * Z) :=
  let alignment := Z.max alignment (u32 (Z.shiftl 1 3)) in
  let offset := u32 (alignment - 1) in
  let oldAddr := pool in
  let pool := u64 (pool + u32 (offset + size)) in
  a ← allocFun (Z.land (u64 (oldAddr + offset)) (u32 (Z.lnot (u32 (alignment - 1)))))
        isDurable isInternal;
  Ret (a, pool).

Definition allocStatic (s : SAddrAllocator) (size alignment : Z) (d i : bool) :
    outcome (Z * SAddrAllocator) :=
  '(a, p) ← allocate SAddr.createStatic (staticPool s) size alignment d i;
  Ret (a, mkAlloc p (automaticPool s) (heapPool s)).

Definition allocAutomatic (s : SAddrAllocator) (size alignment : Z) (d i : bool) :
    outcome (Z * SAddrAllocator) :=
  '(a, p) ← allocate SAddr.createAutomatic (automaticPool s) size alignment d i;
  Ret (a, mkAlloc (staticPool s) p (heapPool s)).

Definition allocHeap (s : SAddrAllocator) (size alignment : Z) (d i : bool) :
    outcome (Z * SAddrAllocator) :=
  '(a, p) ← allocate SAddr.createHeap (heapPool s) size alignment d i;
  Ret (a, mkAlloc (staticPool s) (automaticPool s) p).

(** *** Sequences of requests *)

Inductive storage := Static | Automatic | Heap.
#[export] Instance storage_eq_dec : EqDecision storage.
Proof. solve_decision. Defined.

Record request := mkReq {
  req_storage : storage; req_size : Z; req_log_align : Z;
  req_durable : bool; req_internal : bool }.

(** The alignment of a request is a power of two, as LLVM's [Align] is. *)
Definition req_align (r : request) : Z := 2 ^ req_log_align r.

Definition alloc (s : SAddrAllocator) (r : request) : outcome (Z * SAddrAllocator) :=
  match req_storage r with
  | Static => allocStatic s (req_size r) (req_align r) (req_durable r) (req_internal r)
  | Automatic => allocAutomatic s (req_size r) (req_align r) (req_durable r) (req_internal r)
  | Heap => allocHeap s (req_size r) (req_align r) (req_durable r) (req_internal r)
  end.

(** The blocks a list of requests is given, in order. *)
Fixpoint alloc_all (s : SAddrAllocator) (rs : list request) :
    outcome (list AAccess * SAddrAllocator) :=
  match rs with
  | [] => Ret ([], s)
  | r :: rs =>
      '(a, s) ← alloc s r;
      '(bs, s) ← alloc_all s rs;
      Ret (mkAccess a (req_size r) Unsigned :: bs, s)
  end.

Definition pool (s : SAddrAllocator) (p : storage) : Z :=
  match p with Static => staticPool s | Automatic => automaticPool s | Heap => heapPool s end.
Definition storage_tag (p : storage) : Z :=
  match p with Static => 8 | Automatic => 4 | Heap => 0 end.

(** What a request adds to its pool. *)
Definition cost (r : request) : Z := Z.max (req_align r) 8 - 1 + req_size r.
Definition req_ok (r : request) : Prop := 0 < req_size r /\ 0 <= req_log_align r < 32.
Definition total_cost (rs : list request) : Z := foldr (fun r n => cost r + n) 0 rs.

(** Masking with the 32-bit complement of [2^k - 1] rounds a 32-bit number down. *)
Lemma mask_align x k :
  0 <= x < 2 ^ 32 -> 0 <= k < 32 ->
  Z.land x (u32 (Z.lnot (u32 (2 ^ k - 1)))) = x - x mod 2 ^ k.
Proof.
  intros Hx Hk. replace (2 ^ k - 1) with (Z.ones k) by (rewrite Z.ones_equiv; lia).
  assert (0 <= Z.ones k < 2 ^ 32).
  { rewrite Z.ones_equiv. pose proof (Z.pow_pos_nonneg 2 k). 
    assert (2 ^ k <= 2 ^ 32) by (apply Z.pow_le_mono_r; lia). lia. }
  rewrite (wrap_small 32 (Z.ones k)) by done.
  assert (Z.land x (u32 (Z.lnot (Z.ones k))) = Z.ldiff x (Z.ones k)) as ->.
  { apply Z.bits_inj'. intros i Hi. rewrite Z.land_spec, Z.ldiff_spec, wrap_testbit, Z.lnot_spec by lia.
    rewrite <- (wrap_small 32 x), !wrap_testbit by lia. by destruct (i <? 32). }
  rewrite Z.ldiff_ones_r, Z.shiftl_mul_pow2, Z.shiftr_div_pow2 by lia.
  pose proof (Z.div_mod x (2 ^ k)). pose proof (Z.pow_pos_nonneg 2 k). lia.
Qed.

Definition block_tag (r : request) : Z :=
  SAddr.tag_of (storage_tag (req_storage r)) (req_durable r) (req_internal r).

(** The alignment used: the requested power of two, at least a word. *)
Lemma align_pow r :
  0 <= req_log_align r < 32 ->
  exists k, 3 <= k < 32 /\ Z.max (req_align r) 8 = 2 ^ k /\ (req_align r | 2 ^ k).
Proof.
  intros Hk. unfold req_align. destruct (Z.le_gt_cases 3 (req_log_align r)).
  - exists (req_log_align r). split; [lia|]. split; [|done].
    apply Z.max_l. apply (Z.pow_le_mono_r 2 3); lia.
  - exists 3. split; [lia|]. split.
    + apply Z.max_r. apply (Z.pow_le_mono_r 2 _ 3); lia.
    + exists (2 ^ (3 - req_log_align r)). rewrite <- Z.pow_add_r by lia. f_equal; lia.
Qed.

(** [allocate] below the 32-bit limit passes the rounded-up pool to the
    address constructor. *)
Lemma allocate_ret c P size al d i k :
  3 <= k < 32 -> Z.max al 8 = 2 ^ k -> 0 <= P -> 0 < size -> P + (2 ^ k - 1 + size) < 2 ^ 32 ->
  let x := P + (2 ^ k - 1) in
  allocate c P size al d i =
  (a ← c (x - x mod 2 ^ k) d i; Ret (a, P + (2 ^ k - 1 + size))).
Proof.
  intros Hk Ek HP Hs Hc x. pose proof (Z.pow_pos_nonneg 2 k ltac:(lia) ltac:(lia)).
  unfold allocate. change (u32 (Z.shiftl 1 3)) with 8. rewrite Ek.
  rewrite mask_align; [|subst x; rewrite (wrap_small 32 (2 ^ k - 1)), wrap_small by lia; lia|lia].
  rewrite (wrap_small 32 (2 ^ k - 1)), (wrap_small 32 (2 ^ k - 1 + size)) by lia.
  by rewrite !wrap_small by lia.
Qed.

(** One allocation below the 32-bit limit: the block is aligned and lies
    between the old pool and the new pool; the other pools do not change. *)
Lemma alloc_spec s r :
  req_ok r -> 0 <= pool s (req_storage r) -> pool s (req_storage r) + cost r < 2 ^ 32 ->
  exists v s', alloc s r = Ret (block_tag r * 2 ^ 60 + v, s') /\
    pool s (req_storage r) <= v /\ v + req_size r <= pool s' (req_storage r) /\
    v mod req_align r = 0 /\
    pool s' (req_storage r) = pool s (req_storage r) + cost r /\
    (forall p, p <> req_storage r -> pool s' p = pool s p).
Proof.
  intros [Hs Hk] Hp Hc. destruct (align_pow r Hk) as (k & Hk' & Ek & Hdiv).
  unfold cost in *. rewrite Ek in *.
  pose proof (Z.pow_pos_nonneg 2 k ltac:(lia) ltac:(lia)) as Hpos.
  set (P := pool s (req_storage r)) in *. set (x := P + (2 ^ k - 1)).
  pose proof (Z.mod_pos_bound x (2 ^ k) Hpos). set (v := x - x mod 2 ^ k) in *.
  assert (Hcreate : forall t d i, t ∈ [0; 4; 8] ->
            SAddr.create (t * 2 ^ 60) v d i = Ret (SAddr.tag_of t d i * 2 ^ 60 + v)).
  { intros t d i Ht. rewrite SAddr.create_tag by (done || lia).
    rewrite Z.geb_leb. destruct (Z.leb_spec SAddr.limit v); [|done].
    change SAddr.limit with (2 ^ 60 - 1) in *. lia. }
  assert (v mod req_align r = 0) as Hal.
  { apply Z.mod_divide; [unfold req_align; apply Z.pow_nonzero; lia|].
    etransitivity; [exact Hdiv|]. apply Z.mod_divide; [lia|].
    unfold v. rewrite Zminus_mod_idemp_r. by rewrite Z.sub_diag. }
  unfold alloc, allocStatic, allocAutomatic, allocHeap, block_tag, pool in *.
  destruct (req_storage r) eqn:Er; exists v; eexists;
    (split; [rewrite (allocate_ret _ _ _ _ _ _ k) by lia; fold x v|]).
  - change SAddr.createStatic with (SAddr.create (8 * 2 ^ 60)).
    rewrite Hcreate by set_solver. reflexivity.
  - simpl. repeat split; [lia..|done|]. intros []; done.
  - change SAddr.createAutomatic with (SAddr.create (4 * 2 ^ 60)).
    rewrite Hcreate by set_solver. reflexivity.
  - simpl. repeat split; [lia..|done|]. intros []; done.
  - change SAddr.createHeap with (SAddr.create (0 * 2 ^ 60)).
    rewrite Hcreate by set_solver. reflexivity.
  - simpl. repeat split; [lia..|done|]. intros []; done.
Qed.

(** *** Blocks of a run never overlap *)

Lemma sameStorageAs_tag k1 k2 v1 v2 :
  0 <= k1 < 16 -> 0 <= k2 < 16 -> 0 <= v1 < 2 ^ 60 -> 0 <= v2 < 2 ^ 60 ->
  SAddr.sameStorageAs (k1 * 2 ^ 60 + v1) (k2 * 2 ^ 60 + v2) = (k1 =? k2).
Proof.
  intros. unfold SAddr.sameStorageAs. change SAddr.storageMask with (15 * 2 ^ 60).
  rewrite !SAddr.land_tag, !SAddr.tag_add by lia. change 15 with (Z.ones 4).
  rewrite !Z.land_ones, !Z.mod_small by lia. apply eq_true_iff_eq.
  rewrite !Z.eqb_eq. lia.
Qed.

Lemma block_tag_range r : 0 <= block_tag r < 16.
Proof. unfold block_tag, SAddr.tag_of. by destruct (req_storage r), (req_durable r), (req_internal r). Qed.

Lemma block_tag_storage r1 r2 : block_tag r1 = block_tag r2 -> req_storage r1 = req_storage r2.
Proof.
  unfold block_tag, SAddr.tag_of.
  by destruct (req_storage r1), (req_durable r1), (req_internal r1),
    (req_storage r2), (req_durable r2), (req_internal r2).
Qed.

(** Block [b] answers request [r] with pool offsets in [lo, hi). *)
Definition block_in (lo hi : Z) (r : request) (b : AAccess) : Prop :=
  exists v, acc_addr b = block_tag r * 2 ^ 60 + v /\ acc_size b = req_size r /\
    0 < req_size r /\ lo <= v /\ v + req_size r <= hi /\ v mod req_align r = 0.

Lemma block_in_disjoint lo1 hi1 lo2 hi2 r1 r2 b1 b2 :
  0 <= lo1 -> 0 <= lo2 -> hi1 < 2 ^ 32 -> hi2 < 2 ^ 32 ->
  block_in lo1 hi1 r1 b1 -> block_in lo2 hi2 r2 b2 ->
  (req_storage r1 = req_storage r2 -> hi1 <= lo2) ->
  AccessOps.overlaps b1 b2 = false.
Proof.
  intros ???? (v1 & A1 & S1 & ?&?&?&_) (v2 & A2 & S2 & ?&?&?&_) Hord.
  pose proof (block_tag_range r1). pose proof (block_tag_range r2).
  apply not_true_iff_false. rewrite AccessOps.overlaps_range, A1, A2
    by (unfold AccessOps.bounded; rewrite ?A1, ?A2, ?S1, ?S2; lia).
  rewrite sameStorageAs_tag, Z.eqb_eq, S1, S2 by lia. intros (Et & ? & ?).
  specialize (Hord (block_tag_storage _ _ Et)). lia.
Qed.

Lemma cost_pos r : req_ok r -> 0 < cost r.
Proof. intros []. unfold cost. lia. Qed.

Lemma total_cost_nonneg rs : Forall req_ok rs -> 0 <= total_cost rs.
Proof. induction 1 as [|r rs Hr _ IH]; simpl; [done|]. pose proof (cost_pos r Hr). lia. Qed.

Lemma alloc_all_spec rs : forall s,
  Forall req_ok rs -> (forall p, 0 <= pool s p /\ pool s p + total_cost rs < 2 ^ 32) ->
  exists bs s', alloc_all s rs = Ret (bs, s') /\
    Forall2 (fun r b => block_in (pool s (req_storage r)) (2 ^ 32 - 1) r b) rs bs /\
    ForallOrdPairs (fun a b => AccessOps.overlaps a b = false) bs.
Proof.
  induction rs as [|r rs IH]; intros s Hok Hp; simpl.
  { exists [], s. repeat constructor. }
  inversion Hok as [|?? Hr Hrs]; subst. pose proof (cost_pos r Hr).
  pose proof (total_cost_nonneg rs Hrs). simpl in Hp.
  destruct (alloc_spec s r) as (v & s' & -> & Hlo & Hhi & Hal & Hnew & Hother);
    [done|apply Hp|specialize (Hp (req_storage r)); lia|].
  assert (Hmono : forall p, pool s p <= pool s' p /\ pool s' p <= pool s p + cost r).
  { intros p. destruct (decide (p = req_storage r)) as [->|Hne]; [lia|].
    rewrite Hother by done. lia. }
  destruct (IH s') as (bs & s'' & E & HF & HO); [done| |].
  { intros p. pose proof (Hmono p). pose proof (Hp p). lia. }
  simpl. rewrite E. simpl. eexists _, s''. split; [reflexivity|]. destruct Hr as [Hsz _].
  pose proof (Hp (req_storage r)) as Hpr.
  split; constructor; try done.
  - exists v. simpl. repeat split; (done || lia).
  - eapply Forall2_impl; [exact HF|]. intros r' b (v' & ?&?&?&?&?&?).
    exists v'. pose proof (Hmono (req_storage r')). repeat split; (done || lia).
  - apply Forall_forall. intros b Hb. apply list_elem_of_lookup in Hb as [n Hn].
    destruct (Forall2_lookup_r _ _ _ _ _ HF Hn) as (r' & _ & Hr').
    eapply (block_in_disjoint (pool s (req_storage r)) (v + req_size r)); try exact Hr'; try lia.
    + pose proof (Hmono (req_storage r')). pose proof (Hp (req_storage r')). lia.
    + exists v. simpl. repeat split; (done || lia).
    + intros <-. lia.
Qed.

(** Below 4 GiB of cumulative requests, a fresh allocator answers every request
    with a block that is not null, is aligned as asked and overlaps no other
    block of the run. Property C37. *)
Theorem allocations_disjoint rs :
  Forall req_ok rs -> 1 + total_cost rs < 2 ^ 32 ->
  exists bs s', alloc_all init rs = Ret (bs, s') /\
    ForallOrdPairs (fun a b => AccessOps.overlaps a b = false) bs /\
    Forall2 (fun r b => acc_addr b <> 0 /\ acc_addr b mod req_align r = 0 /\
                        acc_size b = req_size r) rs bs.
Proof.
  intros Hok Hc. pose proof (total_cost_nonneg rs Hok).
  destruct (alloc_all_spec rs init Hok) as (bs & s' & E & HF & HO).
  { intros []; simpl; lia. }
  exists bs, s'. split; [done|]. split; [done|].
  assert (Forall2 (fun r b => req_ok r /\ block_in (pool init (req_storage r)) (2 ^ 32 - 1) r b) rs bs)
    as HF'.
  { apply Forall2_same_length_lookup_2; [by eapply Forall2_length|].
    intros i r b Hr Hb. split; [by eapply Forall_lookup_1|].
    by eapply Forall2_lookup_lr in HF. }
  eapply Forall2_impl; [exact HF'|]. intros r b ([_ Hk] & v & A & S & ?&?&?&Hv). repeat split.
  - rewrite A. destruct (block_tag_range r). unfold block_tag, SAddr.tag_of in *.
    destruct (req_storage r), (req_durable r), (req_internal r); simpl in *; lia.
  - rewrite A. apply Z.mod_divide; [unfold req_align; apply Z.pow_nonzero; lia|].
    apply Z.divide_add_r.
    + apply Z.divide_mul_r. exists (2 ^ (60 - req_log_align r)). unfold req_align.
      rewrite <- Z.pow_add_r by lia. f_equal; lia.
    + apply Z.mod_divide; [unfold req_align; apply Z.pow_nonzero; lia|done].
  - done.
Qed.

Lemma allocations_disjoint_witness :
  let rs := [mkReq Heap 24 4 false false; mkReq Static 8 3 false true; mkReq Heap 1 0 true false] in
  exists bs s', alloc_all init rs = Ret (bs, s') /\
    ForallOrdPairs (fun a b => AccessOps.overlaps a b = false) bs /\
    Forall2 (fun r b => acc_addr b <> 0 /\ acc_addr b mod req_align r = 0 /\
                        acc_size b = req_size r) rs bs.
Proof.
  apply allocations_disjoint; [|vm_compute; reflexivity].
  repeat (constructor; [unfold req_ok; simpl; lia|]). constructor.
Defined.

(** The 32-bit complement in [allocate] clears the upper half of the pool: after
    4 GiB of heap requests a new block is placed inside the first, live one,
    although the allocator promises never to give out an address twice. *)
Theorem allocator_reuses_addresses :
  let rs := [mkReq Heap (2 ^ 31) 3 false false; mkReq Heap (2 ^ 31) 3 false false;
             mkReq Heap 8 3 false false] in
  Forall req_ok rs /\
  exists b1 b2 b3 s', alloc_all init rs = Ret ([b1; b2; b3], s') /\
    AccessOps.contains b1 (acc_addr b3) = true /\ AccessOps.overlaps b1 b3 = true.
Proof.
  split; [repeat (constructor; [unfold req_ok; simpl; lia|]); constructor|].
  do 4 eexists. split; [vm_compute; reflexivity|]. by vm_compute.
Qed.

End Allocator.

Module SAddrFacts.

(** The address constructors are decoded by the predicates: storage, flags and
    offset are read back, and an offset past the limit stops the process. *)
Theorem create_roundtrip v d i :
  0 <= v ->
  (v < SAddr.limit ->
   (exists a, SAddr.createStatic v d i = Ret a /\ SAddr.isStatic a = true /\
      SAddr.isAutomatic a = false /\ SAddr.isDurable a = d /\ SAddr.isInternal a = i /\
      Z.land a SAddr.addressMask = v) /\
   (exists a, SAddr.createAutomatic v d i = Ret a /\ SAddr.isStatic a = false /\
      SAddr.isAutomatic a = true /\ SAddr.isDurable a = d /\ SAddr.isInternal a = i /\
      Z.land a SAddr.addressMask = v) /\
   (exists a, SAddr.createHeap v d i = Ret a /\ SAddr.isStatic a = false /\
      SAddr.isHeap a = true /\ SAddr.isDurable a = d /\ SAddr.isInternal a = i /\
      Z.land a SAddr.addressMask = v)) /\
  (SAddr.limit <= v ->
   SAddr.createStatic v d i = Bug /\ SAddr.createAutomatic v d i = Bug /\
   SAddr.createHeap v d i = Bug).
Proof.
  intros Hv.
  assert (Hc : forall t, t ∈ [0; 4; 8] -> SAddr.create (t * 2 ^ 60) v d i =
      if v >=? SAddr.limit then Bug else Ret (SAddr.tag_of t d i * 2 ^ 60 + v)).
  { intros t Ht. by apply SAddr.create_tag. }
  unfold SAddr.createStatic, SAddr.createAutomatic, SAddr.createHeap.
  change SAddr.staticMask with (8 * 2 ^ 60). change SAddr.automaticMask with (4 * 2 ^ 60).
  change (SAddr.create 0) with (SAddr.create (0 * 2 ^ 60)).
  rewrite !Hc by set_solver. rewrite Z.geb_leb. split.
  - intros Hl. destruct (Z.leb_spec SAddr.limit v); [lia|].
    change SAddr.limit with (2 ^ 60 - 1) in Hl.
    assert (Hm : forall t, Z.land (t * 2 ^ 60 + v) SAddr.addressMask = v).
    { intros t. change SAddr.addressMask with (Z.ones 60).
      rewrite Z.land_ones, Z.add_comm, Z.mod_add, Z.mod_small by lia. done. }
    assert (Hh : forall t m, 0 <= m ->
              SAddr.has (t * 2 ^ 60 + v) (m * 2 ^ 60) = negb (Z.land t m =? 0)).
    { intros t m Hm0. unfold SAddr.has. rewrite SAddr.land_tag, SAddr.tag_add by lia. f_equal.
      apply eq_true_iff_eq. rewrite !Z.eqb_eq. lia. }
    unfold SAddr.isHeap, SAddr.isStatic, SAddr.isAutomatic, SAddr.isDurable, SAddr.isInternal.
    change SAddr.staticMask with (8 * 2 ^ 60). change SAddr.automaticMask with (4 * 2 ^ 60).
    change SAddr.internalMask with (2 * 2 ^ 60). change SAddr.durableMask with (1 * 2 ^ 60).
    repeat split; (eexists; split; [reflexivity|]); rewrite !Hh, Hm by lia; by destruct d, i.
  - intros Hl. destruct (Z.leb_spec SAddr.limit v); [done|lia].
Qed.

Lemma create_roundtrip_witness :
  (4096 < SAddr.limit /\
  (exists a, SAddr.createHeap 4096 true false = Ret a /\ SAddr.isStatic a = false /\
      SAddr.isHeap a = true /\ SAddr.isDurable a = true /\ SAddr.isInternal a = false /\
      Z.land a SAddr.addressMask = 4096)).
Proof.
  split; [reflexivity|].
  destruct (create_roundtrip 4096 true false ltac:(lia)) as [H _].
  destruct (H ltac:(reflexivity)) as (_ & _ & Hh). exact Hh.
Defined.

End SAddrFacts.
