(* ===== verification/VSet.v ===== *)
(** * VSet: a set kept as a sorted vector (src/src/VSet.hpp, VSet.tcc). *)
From S2P Require Import Prelude.

Module VSet.

Section ops.
(** [T] has the source's [operator<] ([ltb]) and [operator==]. *)
Context {T : Type} `{!EqDecision T} (ltb : T -> T -> bool).

Abbreviation eqb x y := (bool_decide (x = y)).

(** [std::lower_bound(begin(), end(), el)]: the first position whose element is
    not less than [el], on a range partitioned by [_ < el]. *)
Fixpoint lower_bound (l : list T) (el : T) : nat :=
  match l with
  | [] => O
  | x :: l' => if ltb x el then S (lower_bound l' el) else O
  end.

(** The element at a position, [None] at [end()]. *)
Definition at_it (l : list T) (it : nat) : option T := l !! it.

(** [it == end() || *it != el] *)
Definition not_at (l : list T) (it : nat) (el : T) : bool :=
  match at_it l it with None => true | Some x => negb (eqb x el) end.

(** [find]: [None] is [end()]. *)
Definition find (l : list T) (el : T) : option nat :=
  let it := lower_bound l el in
  if not_at l it el then None else Some it.

Definition count (l : list T) (el : T) : Z :=
  match find l el with Some _ => 1 | None => 0 end.

(** [insert(const T &)]: the new vector, the iterator and whether it inserted. *)
Definition insert_elem (l : list T) (el : T) : list T * nat * bool :=
  let it := lower_bound l el in
  if not_at l it el then (take it l ++ el :: drop it l, it, true) else (l, it, false).

Definition insert1 (l : list T) (el : T) : list T := (insert_elem l el).1.1.

Definition max (l : list T) : option T := last l.
Definition min (l : list T) : option T := head l.

(** [size() && max() < x] *)
Definition above_max (l : list T) (x : T) : bool :=
  match max l with Some m => ltb m x | None => false end.

(** [insert(ITER, ITER)], also the body of the range and list constructors. *)
Definition insert_range (l xs : list T) : list T :=
  foldl (fun l x => if above_max l x then l ++ [x] else insert1 l x) l xs.
Definition of_range (xs : list T) : list T := insert_range [] xs.

(** The counting loop of [insert(const VSet &)]: how many elements of [b] are
    not in [a]. *)
Fixpoint count_missing (a : list T) {struct a} : list T -> nat :=
  fix go (b : list T) : nat :=
    match a, b with
    | _, [] => O
    | [], _ => length b
    | x :: a', y :: b' =>
        if ltb x y then count_missing a' b
        else if eqb x y then count_missing a' b'
        else S (go b')
    end.

(** The backward loop of [insert(const VSet &)]: [n] is [i + 1], [v] the
    resized vector. *)
Fixpoint merge_back (s : list T) (n : nat) (v : list T) (idxA idxB : Z) : outcome (list T) :=
  match n with
  | O => Ret v
  | S i =>
      c1 ← (if idxA <? 0 then Ret true
            else if idxB >=? 0 then x ← vec_get v idxA; y ← vec_get s idxB; Ret (ltb x y)
            else Ret false);
      if c1 : bool then
        y ← vec_get s idxB; merge_back s i (<[i := y]> v) idxA (idxB - 1)
      else
        c2 ← (if (idxA >=? 0) && (idxB >=? 0)
              then x ← vec_get v idxA; y ← vec_get s idxB; Ret (eqb x y)
              else Ret false);
        x ← vec_get v idxA;
        if c2 : bool then merge_back s i (<[i := x]> v) (idxA - 1) (idxB - 1)
        else merge_back s i (<[i := x]> v) (idxA - 1) idxB
  end.

(** [insert(const VSet &)]: the number of insertions and the new vector. *)
Definition insert_set (l s : list T) : outcome (Z * list T) :=
  match l, s with
  | [], _ => Ret (Z.of_nat (length s), s)
  | _, [] => Ret (0, l)
  | _, [y] => let '(l', _, b) := insert_elem l y in Ret (Z.b2z b, l')
  | x0 :: _, _ =>
      let c := count_missing l s in
      if decide (c = 0%nat) then Ret (0, l)
      else
        let v := l ++ replicate c x0 in
        v' ← merge_back s (length v) v (Z.of_nat (length l) - 1) (Z.of_nat (length s) - 1);
        Ret (Z.of_nat c, v')
  end.

Definition erase_elem (l : list T) (el : T) : Z * list T :=
  let it := lower_bound l el in
  if not_at l it el then (0, l) else (1, take it l ++ drop (S it) l).

(** The main loop of [erase(const VSet &)].  [fuel] bounds the iterations, each
    of which advances [a] or [b]. *)
Fixpoint erase_loop (s : list T) (fuel : nat) (v : list T) (a b aMov : nat) (erased : Z) :
    outcome (list T * nat * nat * Z) :=
  match v !! a, s !! b with
  | Some x, Some y =>
      match fuel with
      | O => Undef
      | S fuel =>
          if eqb x y then erase_loop s fuel v (S a) (S b) aMov (erased + 1)
          else if ltb x y then
            erase_loop s fuel (if decide (aMov = a) then v else <[aMov := x]> v)
              (S a) b (S aMov) erased
          else erase_loop s fuel v a (S b) aMov erased
      end
  | _, _ => Ret (v, a, aMov, erased)
  end.

(** The loop copying the remaining elements; [n] iterations are left. *)
Fixpoint shift_down (n : nat) (v : list T) (a aMov : nat) : list T * nat :=
  match n with
  | O => (v, aMov)
  | S n =>
      match v !! a with
      | Some x => shift_down n (<[aMov := x]> v) (S a) (S aMov)
      | None => (v, aMov)
      end
  end.

Definition erase_set (l s : list T) : outcome (Z * list T) :=
  match l, s with
  | [], _ | _, [] => Ret (0, l)
  | _, _ =>
      '(v, a, aMov, erased) ← erase_loop s (length l + length s) l 0 0 0 0;
      if decide (aMov = a) then Ret (erased, v)
      else let '(v, aMov) := shift_down (length v - a) v a aMov in Ret (erased, take aMov v)
  end.

Fixpoint subset_loop (a b : list T) {struct b} : bool :=
  match a with
  | [] => true
  | x :: a' =>
      if (length b <? length a)%nat then false
      else match b with
           | [] => false
           | y :: b' =>
               if ltb x y then false
               else if eqb x y then subset_loop a' b'
               else subset_loop a b'
           end
  end.

Definition subsetOf (l s : list T) : bool :=
  if (length s <? length l)%nat then false else subset_loop l s.

Fixpoint intersects (a : list T) {struct a} : list T -> bool :=
  fix go (b : list T) : bool :=
    match a, b with
    | x :: a', y :: b' =>
        if eqb x y then true else if ltb x y then intersects a' b else go b'
    | _, _ => false
    end.

Fixpoint intersect_loop (result a : list T) {struct a} : list T -> list T :=
  fix go (b : list T) : list T :=
    match a, b with
    | x :: a', y :: b' =>
        if eqb x y then intersect_loop (insert1 result x) a' b'
        else if ltb x y then intersect_loop result a' b
        else go b'
    | _, _ => result
    end.

Definition intersectWith (l s : list T) : list T := intersect_loop [] l s.

End ops.

(** ** Lemmas on sorted vectors *)
Section facts.
Context {T : Type} `{!EqDecision T} (ltb : T -> T -> bool) `{!StrictTotal ltb}.

Definition lt (x y : T) : Prop := ltb x y = true.

(** The representation invariant: strictly increasing. *)
Definition sorted (l : list T) : Prop := StronglySorted lt l.

Lemma lt_irrefl x : ~ lt x x.
Proof. unfold lt. rewrite ltb_irrefl. done. Qed.
Lemma lt_trans x y z : lt x y -> lt y z -> lt x z.
Proof. apply ltb_trans. Qed.
Lemma lt_asym x y : lt x y -> lt y x -> False.
Proof. intros H1 H2. apply (lt_irrefl x). by eapply lt_trans. Qed.

(** The three outcomes of comparing two elements. *)
Lemma lt_tri x y : lt x y \/ x = y \/ lt y x.
Proof.
  unfold lt. destruct (ltb x y) eqn:E1; [by left|]. destruct (ltb y x) eqn:E2; [by right; right|].
  right; left. by apply ltb_total.
Qed.

Lemma sorted_cons x l : sorted (x :: l) <-> sorted l /\ forall y, y ∈ l -> lt x y.
Proof.
  split.
  - inversion 1 as [|?? Hl Hx]; subst. split; [done|]. by rewrite Forall_forall in Hx.
  - intros [Hl Hx]. constructor; [done|]. by apply Forall_forall.
Qed.

Lemma sorted_app l1 l2 :
  sorted (l1 ++ l2) <->
  (forall x y, x ∈ l1 -> y ∈ l2 -> lt x y) /\ sorted l1 /\ sorted l2.
Proof. apply StronglySorted_app. Qed.

Lemma sorted_snoc l x : sorted (l ++ [x]) <-> sorted l /\ forall y, y ∈ l -> lt y x.
Proof.
  rewrite sorted_app. split.
  - intros (H & Hl & _). split; [done|]. intros y Hy. apply H; [done|]. set_solver.
  - intros [Hl H]. split; [|split; [done|repeat constructor]]. intros y z Hy Hz.
    set_unfold in Hz. destruct Hz as [->|[]]. by apply H.
Qed.

Lemma sorted_NoDup l : sorted l -> NoDup l.
Proof.
  induction l as [|x l IH]; [constructor|]. intros [Hl Hx]%sorted_cons.
  constructor; [|by apply IH]. intros Hin. by eapply lt_irrefl, Hx.
Qed.

Lemma sorted_nil : sorted [].
Proof. constructor. Qed.

(** A sorted vector is determined by its elements. *)
Lemma sorted_ext l1 l2 :
  sorted l1 -> sorted l2 -> (forall x, x ∈ l1 <-> x ∈ l2) -> l1 = l2.
Proof.
  intros H1 H2 Heq. apply (StronglySorted_unique_strong lt); [|done|done|].
  - intros x y _ _ Hxy Hyx. by destruct (lt_asym x y).
  - apply NoDup_Permutation; [by apply sorted_NoDup..|done].
Qed.

(** *** Searching *)

Lemma lower_bound_split l el :
  exists l1 l2, l = l1 ++ l2 /\ lower_bound ltb l el = length l1 /\
    (forall x, x ∈ l1 -> lt x el) /\
    match l2 with [] => True | y :: _ => ~ lt y el end.
Proof.
  induction l as [|x l IH]; simpl.
  - exists [], []. repeat split; set_solver.
  - destruct (ltb x el) eqn:E.
    + destruct IH as (l1 & l2 & -> & -> & H1 & H2). exists (x :: l1), l2.
      repeat split; [|done]. intros y [->|Hy]%elem_of_cons; [done|by apply H1].
    + exists [], (x :: l). repeat split; [set_solver|]. unfold lt. by rewrite E.
Qed.

(** In a sorted vector the elements from the lower bound on are [el], if it
    occurs, and the elements above it. *)
Lemma lower_bound_sorted l el :
  sorted l ->
  exists l1 l2, l = l1 ++ l2 /\ lower_bound ltb l el = length l1 /\
    (forall x, x ∈ l1 -> lt x el) /\
    ((exists l3, l2 = el :: l3 /\ el ∈ l /\ forall x, x ∈ l3 -> lt el x) \/
     (el ∉ l /\ not_at l (lower_bound ltb l el) el = true /\ forall x, x ∈ l2 -> lt el x)).
Proof.
  intros Hs. destruct (lower_bound_split l el) as (l1 & l2 & -> & E & H1 & H2).
  exists l1, l2. split; [done|]. split; [done|]. split; [done|].
  apply sorted_app in Hs as (H12 & _ & Hs2). rewrite E. unfold not_at, at_it.
  rewrite lookup_app_r, Nat.sub_diag by done.
  assert (Hnot : el ∉ l1) by (intros Hin; by eapply lt_irrefl, H1).
  destruct l2 as [|y l3]; simpl.
  - right. set_solver.
  - apply sorted_cons in Hs2 as [_ H3]. destruct (lt_tri y el) as [?|[->|Hy]]; [done|..].
    + left. exists l3. set_solver.
    + right. assert (forall x, x ∈ y :: l3 -> lt el x) as Hall.
      { intros x [->|Hx]%elem_of_cons; [done|]. eapply lt_trans; [done|by apply H3]. }
      split; [|split; [|done]].
      * intros [?|Hin]%elem_of_app; [done|]. by eapply lt_irrefl, Hall.
      * rewrite bool_decide_eq_false_2; [done|]. intros ->. by eapply lt_irrefl.
Qed.

Lemma not_at_elem (l l1 l3 : list T) el :
  l = l1 ++ el :: l3 -> not_at l (length l1) el = false.
Proof.
  intros ->. unfold not_at, at_it. rewrite lookup_app_r, Nat.sub_diag by done. simpl.
  by rewrite bool_decide_eq_true_2.
Qed.

Lemma find_spec l el i : sorted l -> find ltb l el = Some i <-> l !! i = Some el.
Proof.
  intros Hs. pose proof (sorted_NoDup l Hs) as Hnd.
  destruct (lower_bound_sorted l el Hs) as (l1 & l2 & E & Hlb & _ & [(l3 & -> & _ & _)|(Hn & Hat & _)]);
    unfold find.
  - rewrite Hlb, (not_at_elem l l1 l3 el E).
    assert (l !! length l1 = Some el) as Hl by (subst; by rewrite lookup_app_r, Nat.sub_diag).
    split; [by intros [= <-]|]. intros Hi. f_equal. by eapply NoDup_lookup.
  - rewrite Hat. split; [done|]. intros Hi%list_elem_of_lookup_2. done.
Qed.

Lemma count_spec l el : sorted l -> count ltb l el = if decide (el ∈ l) then 1 else 0.
Proof.
  intros Hs. unfold count. destruct (find ltb l el) as [i|] eqn:E.
  - apply find_spec in E; [|done]. apply list_elem_of_lookup_2 in E. by case_decide.
  - case_decide as Hin; [|done]. apply list_elem_of_lookup_1 in Hin as [i Hi].
    apply find_spec in Hi; [congruence|done].
Qed.

(** *** Single insertion and deletion *)

Lemma insert_elem_spec l el :
  sorted l ->
  let '(l', it, b) := insert_elem ltb l el in
  sorted l' /\ (forall x, x ∈ l' <-> x = el \/ x ∈ l) /\ l' !! it = Some el /\
  (b = true <-> el ∉ l).
Proof.
  intros Hs.
  destruct (lower_bound_sorted l el Hs) as
    (l1 & l2 & E & Hlb & H1 & [(l3 & -> & Hin & _)|(Hn & Hat & H2)]); unfold insert_elem.
  - rewrite Hlb, (not_at_elem l l1 l3 el E). split; [done|]. split; [set_solver|].
    split; [|naive_solver]. subst. by rewrite lookup_app_r, Nat.sub_diag.
  - rewrite Hat, Hlb. subst l. rewrite take_app_length, drop_app_length.
    apply sorted_app in Hs as (H12 & Hs1 & Hs2). split; [|split; [|split]].
    + apply sorted_app. split; [|split; [done|by apply sorted_cons]].
      intros x y Hx [->|Hy]%elem_of_cons; [by apply H1|by apply H12].
    + set_solver.
    + by rewrite lookup_app_r, Nat.sub_diag.
    + done.
Qed.

Lemma insert1_sorted l el : sorted l -> sorted (insert1 ltb l el).
Proof.
  intros Hs. pose proof (insert_elem_spec l el Hs) as H. unfold insert1.
  destruct (insert_elem ltb l el) as [[l' it] b]. by destruct H.
Qed.

Lemma insert1_elem l el x : sorted l -> x ∈ insert1 ltb l el <-> x = el \/ x ∈ l.
Proof.
  intros Hs. pose proof (insert_elem_spec l el Hs) as H. unfold insert1.
  destruct (insert_elem ltb l el) as [[l' it] b]. by destruct H as (_ & ? & _).
Qed.

Lemma above_max_spec l x : sorted l -> above_max ltb l x = true -> forall y, y ∈ l -> lt y x.
Proof.
  unfold above_max, max. intros Hs Hm y Hy.
  destruct l as [|z l _] using rev_ind; [set_solver|].
  rewrite last_snoc in Hm. apply sorted_snoc in Hs as [_ Hs].
  apply elem_of_app in Hy as [Hy|Hy]; [|set_solver]. eapply lt_trans; [by apply Hs|done].
Qed.

(** The append at the end and the general insertion agree. *)
Lemma insert_range_spec l xs :
  sorted l -> sorted (insert_range ltb l xs) /\
  (forall x, x ∈ insert_range ltb l xs <-> x ∈ l \/ x ∈ xs).
Proof.
  unfold insert_range. revert l. induction xs as [|y xs IH]; intros l Hs; simpl; [set_solver|].
  destruct (above_max ltb l y) eqn:E.
  - destruct (IH (l ++ [y])) as [IHs IHe].
    { apply sorted_snoc. split; [done|by apply above_max_spec]. }
    split; [done|]. intros x. rewrite IHe. set_solver.
  - destruct (IH (insert1 ltb l y)) as [IHs IHe]; [by apply insert1_sorted|].
    split; [done|]. intros x. rewrite IHe, insert1_elem by done. set_solver.
Qed.

Lemma erase_elem_spec l el :
  sorted l -> sorted (erase_elem ltb l el).2 /\
  (forall x, x ∈ (erase_elem ltb l el).2 <-> x ∈ l /\ x <> el) /\
  (erase_elem ltb l el).1 = if decide (el ∈ l) then 1 else 0.
Proof.
  intros Hs. pose proof (sorted_NoDup l Hs) as Hnd.
  destruct (lower_bound_sorted l el Hs) as
    (l1 & l2 & E & Hlb & H1 & [(l3 & -> & Hin & H3)|(Hn & Hat & H2)]); unfold erase_elem.
  - rewrite Hlb, (not_at_elem l l1 l3 el E). simpl. subst l.
    rewrite take_app_length.
    replace (drop (S (length l1)) (l1 ++ el :: l3)) with l3
      by (rewrite cons_middle, (assoc_L app); symmetry; apply drop_app_length';
          rewrite length_app; simpl; lia).
    apply sorted_app in Hs as (H12 & Hs1 & [Hs3 _]%sorted_cons). split; [|split].
    + apply sorted_app. set_solver.
    + intros x. rewrite elem_of_app. split.
      * intros [Hx|Hx]; (split; [set_solver|]); intros ->; [by eapply lt_irrefl, H1|by eapply lt_irrefl, H3].
      * set_solver.
    + by rewrite decide_True.
  - rewrite Hat. simpl. split; [done|]. split; [set_solver|]. by rewrite decide_False.
Qed.

(** *** Bulk insertion *)

(** The number of elements of [b] that [a] lacks. *)
Definition missing (a b : list T) : nat := length (filter (fun y => y ∉ a) b).

Lemma missing_ext (a a' b : list T) :
  (forall y, y ∈ b -> y ∈ a <-> y ∈ a') -> missing a b = missing a' b.
Proof.
  unfold missing. induction b as [|y b IH]; intros H; [done|]. rewrite !filter_cons.
  assert (length (filter (fun y => y ∉ a) b) = length (filter (fun y => y ∉ a') b)) as E.
  { apply IH. intros z Hz. apply H. by right. }
  pose proof (H y ltac:(left)). repeat case_decide; simpl; try tauto; lia.
Qed.

Lemma missing_cons (a b : list T) y :
  missing a (y :: b) = ((if decide (y ∈ a) then 0 else 1) + missing a b)%nat.
Proof. unfold missing. rewrite filter_cons. by repeat case_decide. Qed.

Lemma missing_snoc (a b : list T) y :
  missing a (b ++ [y]) = (missing a b + (if decide (y ∈ a) then 0 else 1))%nat.
Proof.
  unfold missing. rewrite filter_app, length_app. f_equal.
  rewrite filter_cons. by repeat case_decide.
Qed.

Lemma missing_nil_l (b : list T) : missing [] b = length b.
Proof.
  induction b as [|y b IH]; [done|]. rewrite missing_cons, IH. case_decide; [set_solver|done].
Qed.

(** The counting loop counts them. *)
Lemma count_missing_spec a b : sorted a -> sorted b -> count_missing ltb a b = missing a b.
Proof.
  revert b. induction a as [|x a IHa]; intros b Ha Hb.
  { rewrite missing_nil_l. by destruct b. }
  apply sorted_cons in Ha as [Ha Hxa].
  induction b as [|y b IHb]; [done|]. apply sorted_cons in Hb as [Hb Hyb]. simpl.
  destruct (ltb x y) eqn:Exy; [|destruct (decide (x = y)) as [<-|Hne]].
  - rewrite IHa by (done || by apply sorted_cons).
    apply missing_ext. intros z Hz. assert (lt x z).
    { apply elem_of_cons in Hz as [->|Hz]; [done|]. eapply lt_trans; [exact Exy|by apply Hyb]. }
    rewrite elem_of_cons. split; [by right|]. intros [->|]; [by destruct (lt_irrefl x)|done].
  - rewrite bool_decide_eq_true_2, IHa, missing_cons by done. rewrite decide_True by left. simpl.
    apply missing_ext. intros z Hz. rewrite elem_of_cons. split; [by right|].
    intros [->|]; [by destruct (lt_irrefl x); apply Hyb|done].
  - rewrite bool_decide_eq_false_2 by done. rewrite missing_cons, decide_False.
    + simpl. f_equal. by apply IHb.
    + intros Hin. assert (lt y x) as Hyx by (by destruct (lt_tri x y) as [Hc|[?|?]]; [unfold lt in Hc; congruence|..]).
      apply elem_of_cons in Hin as [->|Hin]; [done|]. by eapply lt_asym, Hxa.
Qed.

Lemma vec_get_last (A v : list T) x :
  take (length (A ++ [x])) v = A ++ [x] -> vec_get v (Z.of_nat (length (A ++ [x])) - 1) = Ret x.
Proof.
  intros Ht. unfold vec_get. rewrite length_app in *. simpl in *.
  destruct (Z.ltb_spec (Z.of_nat (length A + 1) - 1) 0); [lia|].
  replace (Z.to_nat _) with (length A) by lia.
  rewrite <- (lookup_take_lt v (length A + 1)) by lia. rewrite Ht.
  by rewrite lookup_app_r, Nat.sub_diag.
Qed.

(** A suffix of the vector once position [n] is written. *)
Lemma drop_write n (v : list T) z : (n < length v)%nat -> drop n (<[n := z]> v) = z :: drop (S n) v.
Proof.
  intros Hn. rewrite drop_insert_ge, Nat.sub_diag by lia.
  destruct (lookup_lt_is_Some_2 v n Hn) as [w Hw].
  by rewrite (drop_S v w n Hw).
Qed.

Lemma take_shorter (A v : list T) x :
  take (length (A ++ [x])) v = A ++ [x] -> take (length A) v = A.
Proof.
  intros Ht. rewrite <- (take_app_length A [x]) at 2. rewrite <- Ht, take_take, length_app.
  f_equal. lia.
Qed.

(** What the backward loop still has to write: the union of the unread
    prefixes [A] and [B]. *)
Definition merged (s v : list T) (n : nat) (A B : list T) : Prop :=
  exists w, merge_back ltb s n v (Z.of_nat (length A) - 1) (Z.of_nat (length B) - 1) =
    Ret (w ++ drop n v) /\ sorted w /\ (forall x, x ∈ w <-> x ∈ A \/ x ∈ B).

(** Writing the largest remaining element [z] at [i] reduces to smaller
    prefixes. *)
Lemma merged_write s v i A' B' A B z :
  (i < length v)%nat -> merged s (<[i := z]> v) i A' B' ->
  (forall y, y ∈ A' \/ y ∈ B' -> lt y z) ->
  (forall y, (y ∈ A' \/ y ∈ B') \/ y = z <-> y ∈ A \/ y ∈ B) ->
  merge_back ltb s (S i) v (Z.of_nat (length A) - 1) (Z.of_nat (length B) - 1) =
  merge_back ltb s i (<[i := z]> v) (Z.of_nat (length A') - 1) (Z.of_nat (length B') - 1) ->
  merged s v (S i) A B.
Proof.
  intros Hi (w & Ew & Hw & Hin) Hz Heq Estep. exists (w ++ [z]). split; [|split].
  - rewrite Estep, Ew, drop_write, <- (assoc_L app) by done. done.
  - apply sorted_snoc. split; [done|]. intros y Hy. by apply Hz, Hin.
  - intros y. rewrite elem_of_app, Hin, <- Heq, list_elem_of_singleton. done.
Qed.

Lemma snoc_len (A : list T) x : Z.of_nat (length (A ++ [x])) - 1 - 1 = Z.of_nat (length A) - 1.
Proof. rewrite length_app. simpl. lia. Qed.

Lemma snoc_nonneg (A : list T) x :
  (Z.of_nat (length (A ++ [x])) - 1 <? 0) = false /\ (Z.of_nat (length (A ++ [x])) - 1 >=? 0) = true.
Proof. rewrite length_app, Z.geb_leb. simpl. split; bool_to_prop; lia. Qed.

Lemma merge_back_spec s n : forall v A B,
  sorted A -> sorted B -> take (length B) s = B -> take (length A) v = A ->
  n = (length A + missing A B)%nat -> (n <= length v)%nat -> merged s v n A B.
Proof.
  induction n as [|i IH]; intros v A B HA HB Hs Hv Hn Hlen.
  { destruct A; [|simpl in Hn; lia]. rewrite missing_nil_l in Hn.
    destruct B; [|simpl in Hn; lia]. exists []. split; [done|]. split; [apply sorted_nil|set_solver]. }
  assert (Hwr : forall z (A' : list T), take (length A') v = A' -> (length A' <= i)%nat ->
            take (length A') (<[i := z]> v) = A')
    by (intros z A' ? ?; by rewrite take_insert_ge).
  destruct A as [|x A _] using rev_ind; destruct B as [|y B _] using rev_ind.
  - rewrite missing_nil_l in Hn. simpl in Hn. lia.
  - rewrite missing_nil_l in Hn. apply sorted_snoc in HB as [HB Hy]. rewrite length_app in Hn.
    simpl in Hn. apply (merged_write s v i [] B [] (B ++ [y]) y); [lia|..|set_solver|].
    + apply IH; try done; [by eapply take_shorter|rewrite missing_nil_l; simpl; lia|].
      rewrite length_insert. lia.
    + set_solver.
    + simpl. rewrite (vec_get_last B s y) by done. simpl. by rewrite snoc_len.
  - unfold missing in Hn. simpl in Hn. apply sorted_snoc in HA as [HA Hx]. rewrite length_app in Hn.
    simpl in Hn. destruct (snoc_nonneg A x) as [N1 N2].
    apply (merged_write s v i A [] (A ++ [x]) [] x); [lia|..|set_solver|].
    + apply IH; try done; [apply Hwr; [by eapply take_shorter|lia]|unfold missing; simpl; lia|].
      rewrite length_insert. lia.
    + set_solver.
    + simpl. rewrite N1, N2. simpl. rewrite (vec_get_last A v x) by done. simpl. by rewrite snoc_len.
  - destruct (snoc_nonneg A x) as [N1 N2]. destruct (snoc_nonneg B y) as [_ N4].
    pose proof (sorted_snoc A x) as [SA _]. destruct (SA HA) as [HA' Hx].
    pose proof (sorted_snoc B y) as [SB _]. destruct (SB HB) as [HB' Hy].
    rewrite missing_snoc in Hn. rewrite length_app in Hn. simpl in Hn.
    assert (Hmiss : forall C, (forall z, z ∈ C -> lt z x) -> missing (A ++ [x]) C = missing A C).
    { intros C HC. apply missing_ext. intros z Hz. rewrite elem_of_app, list_elem_of_singleton.
      split; [|by left]. intros [?| ->]; [done|]. by destruct (lt_irrefl x); apply HC. }
    destruct (lt_tri x y) as [Hxy|[Heq|Hyx]].
    + apply (merged_write s v i (A ++ [x]) B (A ++ [x]) (B ++ [y]) y).
      * lia.
      * rewrite decide_False in Hn.
        -- apply IH; try done; [by eapply take_shorter|apply Hwr; [done|rewrite length_app; simpl; lia]
             |rewrite length_app; simpl; lia|rewrite length_insert; lia].
        -- rewrite elem_of_app, list_elem_of_singleton. intros [Hin| ->]; [|by eapply lt_irrefl].
           eapply lt_asym; [exact Hxy|by apply Hx].
      * intros z [[Hz| ->%list_elem_of_singleton]%elem_of_app|Hz]; [|done|by apply Hy].
        eapply lt_trans; [by apply Hx|done].
      * set_solver.
      * simpl. rewrite N1, N4, (vec_get_last A v x), (vec_get_last B s y) by done. simpl.
        rewrite Hxy. simpl. by rewrite snoc_len.
    + subst y. rewrite decide_True in Hn by set_solver.
      apply (merged_write s v i A B (A ++ [x]) (B ++ [x]) x).
      * lia.
      * rewrite Hmiss in Hn by done. apply IH; try done;
          [by eapply take_shorter|apply Hwr; [by eapply take_shorter|lia]|lia|rewrite length_insert; lia].
      * intros z [Hz|Hz]; [by apply Hx|by apply Hy].
      * set_solver.
      * simpl. rewrite N1, N2, N4, (vec_get_last A v x), (vec_get_last B s x) by done. simpl.
        rewrite ltb_irrefl. simpl. rewrite bool_decide_eq_true_2, !snoc_len by done. done.
    + assert (HB2 : forall z, z ∈ B ++ [y] -> lt z x).
      { intros z [Hz| ->%list_elem_of_singleton]%elem_of_app; [|done].
        eapply lt_trans; [by apply Hy|done]. }
      apply (merged_write s v i A (B ++ [y]) (A ++ [x]) (B ++ [y]) x).
      * lia.
      * apply IH; try done; [apply Hwr; [by eapply take_shorter|lia]| |rewrite length_insert; lia].
        rewrite <- missing_snoc, Hmiss in Hn by done. lia.
      * intros z [Hz|Hz]; [by apply Hx|by apply HB2].
      * set_solver.
      * assert (ltb x y = false) as E by (by apply ltb_asym).
        assert (x <> y) by (intros ->; by eapply lt_irrefl).
        simpl. rewrite N1, N2, N4, (vec_get_last A v x), (vec_get_last B s y) by done. simpl.
        rewrite E. simpl. rewrite bool_decide_eq_false_2, snoc_len by done. done.
Qed.

(** [insert(const VSet &)] computes the union and counts the new elements. *)
Lemma insert_set_spec l s :
  sorted l -> sorted s ->
  exists l', insert_set ltb l s = Ret (Z.of_nat (missing l s), l') /\ sorted l' /\
    forall x, x ∈ l' <-> x ∈ l \/ x ∈ s.
Proof.
  intros Hl Hs. destruct l as [|x0 l0]; [exists s; rewrite missing_nil_l; set_solver|].
  set (l := x0 :: l0) in *. destruct s as [|y0 s0]; [exists l; set_solver|].
  destruct s0 as [|y1 s1].
  - pose proof (insert_elem_spec l y0 Hl) as H. unfold insert_set, l at 1.
    fold l. destruct (insert_elem ltb l y0) as [[l' it] b]. destruct H as (H1 & H2 & _ & H4).
    exists l'. split; [|set_solver]. do 2 f_equal. rewrite missing_cons. unfold missing. simpl.
    destruct b; case_decide as Hd; simpl; naive_solver.
  - unfold insert_set, l at 1. fold l. set (s := y0 :: y1 :: s1) in *.
    rewrite count_missing_spec by done. case_decide as Hc.
    + exists l. rewrite Hc. split; [done|]. split; [done|]. intros x. split; [by left|].
      intros [|Hx]; [done|]. destruct (decide (x ∈ l)) as [|Hn]; [done|exfalso].
      unfold missing in Hc. apply length_zero_iff_nil in Hc.
      eapply (elem_of_nil x). rewrite <- Hc. by apply list_elem_of_filter.
    + set (v := l ++ replicate (missing l s) x0).
      destruct (merge_back_spec s (length v) v l s) as (w & Ew & Hw & Hin); try done.
      * by rewrite firstn_all.
      * apply take_app_length.
      * unfold v. by rewrite length_app, length_replicate.
      * exists w. rewrite Ew. simpl. rewrite drop_all, app_nil_r. done.
Qed.

(** *** Bulk deletion *)

Definition keep (s l : list T) : list T := filter (fun x => x ∉ s) l.

Lemma keep_all s l : (forall x, x ∈ l -> x ∉ s) -> keep s l = l.
Proof.
  unfold keep. induction l as [|x l IH]; intros H; [done|].
  rewrite filter_cons, decide_True by (apply H; left). f_equal. apply IH.
  intros y Hy. apply H. by right.
Qed.

(** The loop has compacted the first [a] elements of [l] into the first [aMov]
    positions and left the others alone; the [b] elements of [s] it has passed
    are below all of those. *)
Record erase_inv (l s v : list T) (a b aMov : nat) (erased : Z) : Prop := {
  ei_len : length v = length l;
  ei_take : take aMov v = keep s (take a l);
  ei_drop : drop a v = drop a l;
  ei_count : Z.of_nat aMov + erased = Z.of_nat a;
  ei_mov : (aMov <= a <= length l)%nat;
  ei_below : forall x y, x ∈ take b s -> y ∈ drop a l -> lt x y;
}.

Lemma take_S_last (l : list T) a x : l !! a = Some x -> take (S a) l = take a l ++ [x].
Proof. apply take_S_r. Qed.

Lemma keep_snoc s l x :
  keep s (l ++ [x]) = keep s l ++ (if decide (x ∈ s) then [] else [x]).
Proof. unfold keep. rewrite filter_app. f_equal. rewrite filter_cons. by repeat case_decide. Qed.

Lemma drop_lookup_eq (v l : list T) a : drop a v = drop a l -> v !! a = l !! a.
Proof.
  intros H. pose proof (f_equal (fun k => k !! 0%nat) H) as E. simpl in E.
  by rewrite !lookup_drop, !Nat.add_0_r in E.
Qed.

Lemma drop_S_eq (v l : list T) a : drop a v = drop a l -> drop (S a) v = drop (S a) l.
Proof. intros H. replace (S a) with (a + 1)%nat by lia. rewrite <- !drop_drop. by rewrite H. Qed.

(** An element between the passed and the remaining part of [s] is not in it. *)
Lemma not_in_between s b x :
  (forall y, y ∈ take b s -> lt y x) -> (forall y, y ∈ drop b s -> lt x y) -> x ∉ s.
Proof.
  intros H1 H2 Hx. rewrite <- (take_drop b s) in Hx.
  apply elem_of_app in Hx as [Hx|Hx]; [by eapply lt_irrefl, H1|by eapply lt_irrefl, H2].
Qed.

Lemma sorted_drop l a x y : sorted l -> l !! a = Some x -> y ∈ drop (S a) l -> lt x y.
Proof.
  intros Hs Hx Hy. rewrite <- (take_drop_middle l a x Hx) in Hs.
  apply sorted_app in Hs as (_ & _ & [_ Hs]%sorted_cons). by apply Hs.
Qed.

Section erase.
Context (l s : list T) (Hl : sorted l) (Hs : sorted s).

Lemma erase_step_eq v a b aMov e x :
  erase_inv l s v a b aMov e -> l !! a = Some x -> s !! b = Some x ->
  erase_inv l s v (S a) (S b) aMov (e + 1).
Proof.
  intros [] Ha Hb. pose proof (lookup_lt_Some _ _ _ Ha). split; try done; try lia.
  - rewrite (take_S_last l a x Ha), keep_snoc, decide_True, app_nil_r by (by eapply list_elem_of_lookup_2).
    done.
  - by apply drop_S_eq.
  - intros y z Hy Hz. rewrite (take_S_last s b x Hb) in Hy.
    assert (lt x z) by exact (sorted_drop l a x z Hl Ha Hz).
    apply elem_of_app in Hy as [Hy| ->%list_elem_of_singleton]; [|done].
    apply ei_below0; [done|]. rewrite (drop_S l x a Ha). by right.
Qed.

Lemma erase_step_lt v a b aMov e x y :
  erase_inv l s v a b aMov e -> l !! a = Some x -> s !! b = Some y -> lt x y ->
  erase_inv l s (if decide (aMov = a) then v else <[aMov := x]> v) (S a) b (S aMov) e.
Proof.
  intros [] Ha Hb Hxy. pose proof (lookup_lt_Some _ _ _ Ha).
  assert (x ∉ s) as Hx.
  { apply (not_in_between s b).
    - intros z Hz. apply ei_below0; [done|]. rewrite (drop_S l x a Ha). by left.
    - intros z Hz. rewrite (drop_S s y b Hb) in Hz. apply elem_of_cons in Hz as [->|Hz]; [done|].
      eapply lt_trans; [exact Hxy|exact (sorted_drop s b y z Hs Hb Hz)]. }
  assert (Hv : v !! a = Some x) by (by rewrite (drop_lookup_eq v l a)).
  split; try lia.
  - case_decide; [done|]. by rewrite length_insert.
  - rewrite (take_S_last l a x Ha), keep_snoc, (decide_False (P := x ∈ s)), <- ei_take0 by done. case_decide.
    + subst aMov. by apply take_S_last.
    + rewrite (take_S_last _ aMov x) by (apply list_lookup_insert_eq; lia).
      by rewrite take_insert_ge by lia.
  - rewrite <- (drop_S_eq v l a) by done. case_decide; [done|]. by rewrite drop_insert_lt by lia.
  - intros z w Hz Hw. apply ei_below0; [done|]. rewrite (drop_S l x a Ha). by right.
Qed.

Lemma erase_step_gt v a b aMov e x y :
  erase_inv l s v a b aMov e -> l !! a = Some x -> s !! b = Some y -> lt y x ->
  erase_inv l s v a (S b) aMov e.
Proof.
  intros [] Ha Hb Hyx. split; try done.
  intros z w Hz Hw. rewrite (take_S_last s b y Hb) in Hz.
  apply elem_of_app in Hz as [Hz| ->%list_elem_of_singleton]; [by apply ei_below0|].
  rewrite (drop_S l x a Ha) in Hw. apply elem_of_cons in Hw as [->|Hw]; [done|].
  eapply lt_trans; [exact Hyx|exact (sorted_drop l a x w Hl Ha Hw)].
Qed.

(** The loop terminates within its fuel, with nothing of [s] left to remove. *)
Lemma erase_loop_spec fuel : forall v a b aMov e,
  erase_inv l s v a b aMov e -> (length l - a + (length s - b) <= fuel)%nat ->
  exists v' a' b' aMov' e', erase_loop ltb s fuel v a b aMov e = Ret (v', a', aMov', e') /\
    erase_inv l s v' a' b' aMov' e' /\ (forall x, x ∈ drop a' l -> x ∉ s).
Proof.
  induction fuel as [|fuel IH]; intros v a b aMov e Hi Hf;
    pose proof (drop_lookup_eq v l a (ei_drop _ _ _ _ _ _ _ Hi)) as Hva; simpl; rewrite Hva;
    destruct (l !! a) as [x|] eqn:Ha; [destruct (s !! b) as [y|] eqn:Hb| |destruct (s !! b) as [y|] eqn:Hb|].
  1: apply lookup_lt_Some in Ha, Hb; lia.
  3: { apply lookup_lt_Some in Ha as Ha', Hb as Hb'.
    destruct (lt_tri x y) as [Hxy|[->|Hyx]].
    - rewrite bool_decide_eq_false_2, Hxy by (intros ->; by eapply lt_irrefl).
      apply (IH _ _ b); [by eapply erase_step_lt|lia].
    - rewrite bool_decide_eq_true_2 by done. apply (IH _ _ (S b)); [by eapply erase_step_eq|lia].
    - rewrite bool_decide_eq_false_2 by (intros ->; by eapply lt_irrefl).
      replace (ltb x y) with false by (symmetry; by apply ltb_asym).
      apply (IH _ _ (S b)); [by eapply erase_step_gt|lia]. }
  all: exists v, a, b, aMov, e; split; [done|]; split; [done|]; intros z Hz Hin.
  all: try (rewrite drop_ge in Hz by (by apply lookup_ge_None); set_solver).
  all: apply lookup_ge_None in Hb; destruct Hi; eapply lt_irrefl, ei_below0; [|exact Hz];
    by rewrite take_ge.
Qed.
End erase.

Lemma shift_down_spec n : forall (v : list T) a aMov,
  (aMov <= a)%nat -> (a + n)%nat = length v ->
  exists v', shift_down n v a aMov = (v', (aMov + n)%nat) /\
    take (aMov + n) v' = take aMov v ++ drop a v.
Proof.
  induction n as [|n IH]; intros v a aMov Hle Hlen; simpl.
  - exists v. rewrite Nat.add_0_r, drop_ge, app_nil_r by lia. done.
  - destruct (lookup_lt_is_Some_2 v a) as [x Hx]; [lia|]. rewrite Hx.
    destruct (IH (<[aMov := x]> v) (S a) (S aMov)) as (v' & -> & Ht);
      [lia|rewrite length_insert; lia|].
    exists v'. rewrite Nat.add_succ_r. split; [done|].
    rewrite (Nat.add_succ_l aMov n) in Ht. rewrite Ht, (drop_S v x a Hx), drop_insert_lt by lia.
    rewrite (take_S_last _ aMov x) by (apply list_lookup_insert_eq; lia).
    rewrite take_insert_ge, <- (assoc_L app) by lia. done.
Qed.

(** [erase(const VSet &)] leaves exactly the elements outside [s]. *)
Lemma erase_set_spec l s :
  sorted l -> sorted s ->
  erase_set ltb l s = Ret (Z.of_nat (length l) - Z.of_nat (length (keep s l)), keep s l).
Proof.
  intros Hl Hs. destruct l as [|x0 l0]; [done|]. set (l := x0 :: l0) in *.
  destruct s as [|y0 s0].
  { rewrite keep_all by set_solver. unfold erase_set, l. by rewrite Z.sub_diag. }
  unfold erase_set, l at 1. fold l. set (s := y0 :: s0) in *.
  destruct (erase_loop_spec l s Hl Hs (length l + length s) l 0 0 0 0)
    as (v & a & b & aMov & e & -> & [] & Hrest); [split; try done; simpl; lia || set_solver|lia|].
  simpl. change (S (length l0)) with (length l).
  assert (keep s l = keep s (take a l) ++ drop a l) as Hkeep.
  { rewrite <- (take_drop a l) at 1. unfold keep. rewrite filter_app. f_equal.
    by apply keep_all. }
  assert (length (keep s (take a l)) = aMov) as Hmov
    by (rewrite <- ei_take0, length_take; lia).
  assert (length (keep s l) = (aMov + (length l - a))%nat) as Hlen
    by (rewrite Hkeep, length_app, Hmov, length_drop; lia).
  rewrite Hlen. case_decide as Hd.
  - f_equal. f_equal; [lia|]. rewrite Hkeep, <- ei_take0, <- ei_drop0, Hd. by rewrite take_drop.
  - destruct (shift_down_spec (length v - a) v a aMov) as (v' & -> & Ht); [lia|lia|].
    rewrite Ht, ei_take0, ei_drop0, Hkeep. do 2 f_equal. lia.
Qed.

(** *** Queries *)

Lemma sorted_head_lt x y l : sorted (y :: l) -> lt x y -> forall z, z ∈ y :: l -> lt x z.
Proof.
  intros [_ H]%sorted_cons Hxy z [->|Hz]%elem_of_cons; [done|].
  eapply lt_trans; [exact Hxy|by apply H].
Qed.

Lemma sorted_head_notin x y l : sorted (y :: l) -> lt x y -> x ∉ y :: l.
Proof. intros Hs Hxy Hin. by eapply lt_irrefl, sorted_head_lt. Qed.

Lemma subset_loop_spec b : forall a,
  sorted a -> sorted b -> subset_loop ltb a b = true <-> forall x, x ∈ a -> x ∈ b.
Proof.
  induction b as [|y b IH]; intros [|x a] Ha Hb; simpl; try (split; [set_solver|done]).
  - split; [done|]. intros H. destruct (not_elem_of_nil x). apply H. by left.
  - apply sorted_cons in Ha as Ha'. destruct Ha' as [Ha' Hxa].
    apply sorted_cons in Hb as Hb'. destruct Hb' as [Hb' Hyb].
    case_match eqn:Elen.
    + split; [done|]. intros Hsub. apply Nat.ltb_lt in Elen.
      apply sorted_NoDup in Ha as Hnd.
      pose proof (submseteq_length _ _ (NoDup_submseteq _ _ Hnd Hsub)). simpl in *. lia.
    + destruct (lt_tri x y) as [Hxy|[->|Hyx]].
      * rewrite Hxy. split; [done|]. intros Hsub.
        destruct (sorted_head_notin x y b Hb Hxy). apply Hsub. by left.
      * rewrite ltb_irrefl, bool_decide_eq_true_2, IH by done. split.
        -- intros H z [->|Hz]%elem_of_cons; [by left|right; by apply H].
        -- intros H z Hz. pose proof (H z ltac:(by right)) as Hin.
           apply elem_of_cons in Hin as [->|]; [|done]. by destruct (lt_irrefl y); apply Hxa.
      * replace (ltb x y) with false by (symmetry; by apply ltb_asym).
        rewrite bool_decide_eq_false_2, IH by (done || intros ->; by eapply lt_irrefl).
        pose proof (sorted_head_notin y x a Ha Hyx).
        split; intros Hsub z Hz; specialize (Hsub z Hz); set_solver.
Qed.

Lemma subsetOf_spec l s :
  sorted l -> sorted s -> subsetOf ltb l s = true <-> forall x, x ∈ l -> x ∈ s.
Proof.
  intros Hl Hs. unfold subsetOf. case_match eqn:E; [|by apply subset_loop_spec].
  split; [done|]. intros Hsub. apply Nat.ltb_lt in E.
  pose proof (submseteq_length _ _ (NoDup_submseteq _ _ (sorted_NoDup l Hl) Hsub)). lia.
Qed.

Lemma intersects_spec a : forall b,
  sorted a -> sorted b -> intersects ltb a b = true <-> exists x, x ∈ a /\ x ∈ b.
Proof.
  induction a as [|x a IHa]; intros b Ha Hb.
  { destruct b; simpl; split; [done|set_solver|done|set_solver]. }
  induction b as [|y b IHb]; [split; [done|set_solver]|].
  apply sorted_cons in Ha as Ha'. destruct Ha' as [Ha' _].
  apply sorted_cons in Hb as Hb'. destruct Hb' as [Hb' _]. simpl.
  destruct (lt_tri x y) as [Hxy|[->|Hyx]].
  - rewrite Hxy, bool_decide_eq_false_2, IHa by (done || intros ->; by eapply lt_irrefl).
    pose proof (sorted_head_notin x y b Hb Hxy). set_solver.
  - rewrite bool_decide_eq_true_2 by done. set_solver.
  - replace (ltb x y) with false by (symmetry; by apply ltb_asym).
    rewrite bool_decide_eq_false_2 by (intros ->; by eapply lt_irrefl).
    pose proof (sorted_head_notin y x a Ha Hyx). specialize (IHb Hb').
    simpl in IHb. rewrite IHb. set_solver.
Qed.

Lemma intersect_loop_spec a : forall b r,
  sorted a -> sorted b -> sorted r ->
  sorted (intersect_loop ltb r a b) /\
  forall x, x ∈ intersect_loop ltb r a b <-> x ∈ r \/ (x ∈ a /\ x ∈ b).
Proof.
  induction a as [|x a IHa]; intros b r Ha Hb Hr.
  { destruct b; simpl; set_solver. }
  induction b as [|y b IHb]; [simpl; set_solver|].
  apply sorted_cons in Ha as Ha'. destruct Ha' as [Ha' Hxa].
  apply sorted_cons in Hb as Hb'. destruct Hb' as [Hb' Hyb]. simpl.
  destruct (lt_tri x y) as [Hxy|[->|Hyx]].
  - rewrite bool_decide_eq_false_2, Hxy by (intros ->; by eapply lt_irrefl).
    destruct (IHa (y :: b) r) as [? IH]; [done..|]. split; [done|].
    pose proof (sorted_head_notin x y b Hb Hxy). set_solver.
  - rewrite bool_decide_eq_true_2 by done.
    destruct (IHa b (insert1 ltb r y)) as [? IH]; [done|done|by apply insert1_sorted|].
    split; [done|]. intros z. rewrite IH, insert1_elem by done.
    assert (y ∉ a) by (intros Hin; by eapply lt_irrefl, Hxa).
    assert (y ∉ b) by (intros Hin; by eapply lt_irrefl, Hyb). set_solver.
  - replace (ltb x y) with false by (symmetry; by apply ltb_asym).
    rewrite bool_decide_eq_false_2 by (intros ->; by eapply lt_irrefl).
    pose proof (sorted_head_notin y x a Ha Hyx). specialize (IHb Hb'). simpl in IHb.
    destruct IHb as [? IH]. split; [done|]. intros z. rewrite IH. set_solver.
Qed.

Lemma intersectWith_spec a b :
  sorted a -> sorted b -> sorted (intersectWith ltb a b) /\
  forall x, x ∈ intersectWith ltb a b <-> x ∈ a /\ x ∈ b.
Proof.
  intros Ha Hb. destruct (intersect_loop_spec a b [] Ha Hb sorted_nil) as [? H].
  split; [done|]. intros x. unfold intersectWith. rewrite H. set_solver.
Qed.

(** *** The vector implements a finite set *)

(** Bulk insertion never reads outside a vector, produces a sorted vector of the
    union, and returns how many elements are new. *)
Theorem bulk_insert_is_union l s :
  sorted l -> sorted s ->
  exists n l', insert_set ltb l s = Ret (n, l') /\ sorted l' /\
    (forall x, x ∈ l' <-> x ∈ l \/ x ∈ s) /\
    Z.of_nat (length l') = Z.of_nat (length l) + n.
Proof.
  intros Hl Hs. destruct (insert_set_spec l s Hl Hs) as (l' & E & Hl' & Hin).
  exists (Z.of_nat (missing l s)), l'. split; [done|]. split; [done|]. split; [done|].
  assert (l' ≡ₚ l ++ filter (fun y => y ∉ l) s) as ->.
  { apply NoDup_Permutation; [by apply sorted_NoDup| |].
    - apply NoDup_app. split; [by apply sorted_NoDup|]. split; [|by apply NoDup_filter, sorted_NoDup].
      intros x Hx [Hn _]%list_elem_of_filter. done.
    - intros x. rewrite Hin, elem_of_app, list_elem_of_filter.
      destruct (decide (x ∈ l)); naive_solver. }
  rewrite length_app. unfold missing. lia.
Qed.

(** Bulk deletion stays in bounds, keeps exactly the elements outside the other
    set, in order, and returns how many it removed. *)
Theorem bulk_erase_is_difference l s :
  sorted l -> sorted s ->
  exists n l', erase_set ltb l s = Ret (n, l') /\ sorted l' /\
    (forall x, x ∈ l' <-> x ∈ l /\ x ∉ s) /\
    Z.of_nat (length l') = Z.of_nat (length l) - n.
Proof.
  intros Hl Hs. rewrite erase_set_spec by done. do 2 eexists. split; [done|].
  split; [|split; [|lia]].
  - clear Hs. induction l as [|x l IH]; [done|]. apply sorted_cons in Hl as [Hl Hx].
    unfold keep in *. rewrite filter_cons. case_decide; [|by apply IH].
    apply sorted_cons. split; [by apply IH|]. intros y [_ Hy]%list_elem_of_filter. by apply Hx.
  - intros x. unfold keep. rewrite list_elem_of_filter. naive_solver.
Qed.

(** On sorted vectors the linear-time queries are the set queries: membership,
    inclusion, common element, and intersection. *)
Theorem queries_are_set_queries l s el :
  sorted l -> sorted s ->
  (count ltb l el = 1 <-> el ∈ l) /\
  (subsetOf ltb l s = true <-> forall x, x ∈ l -> x ∈ s) /\
  (intersects ltb l s = true <-> exists x, x ∈ l /\ x ∈ s) /\
  sorted (intersectWith ltb l s) /\
  (forall x, x ∈ intersectWith ltb l s <-> x ∈ l /\ x ∈ s).
Proof.
  intros Hl Hs. split; [|split; [|split]].
  - rewrite count_spec by done. case_decide; naive_solver.
  - by apply subsetOf_spec.
  - by apply intersects_spec.
  - by apply intersectWith_spec.
Qed.

End facts.
#[export] Hint Resolve sorted_nil insert1_sorted : rustmc.

Lemma sorted_Z l : sorted Z.ltb l <-> StronglySorted Z.lt l.
Proof.
  unfold sorted. split; induction 1; constructor; try done;
    eapply Forall_impl; try done; intros x; unfold lt; apply Z.ltb_lt.
Qed.

Lemma bulk_insert_is_union_witness :
  exists n l', insert_set Z.ltb [1; 4; 6] [2; 4; 9] = Ret (n, l') /\ sorted Z.ltb l' /\
    (forall x, x ∈ l' <-> x ∈ [1; 4; 6] \/ x ∈ [2; 4; 9]) /\
    Z.of_nat (length l') = Z.of_nat (length [1; 4; 6]) + n.
Proof. apply bulk_insert_is_union; [apply _|repeat (constructor; try done)..]. Defined.

Lemma bulk_erase_is_difference_witness :
  exists n l', erase_set Z.ltb [1; 2; 4; 6] [2; 3; 6] = Ret (n, l') /\ sorted Z.ltb l' /\
    (forall x, x ∈ l' <-> x ∈ [1; 2; 4; 6] /\ x ∉ [2; 3; 6]) /\
    Z.of_nat (length l') = Z.of_nat (length [1; 2; 4; 6]) - n.
Proof. apply bulk_erase_is_difference; [apply _|repeat (constructor; try done)..]. Defined.

Lemma queries_are_set_queries_witness :
  let l := [1; 4] in let s := [1; 2; 4] in
  (count Z.ltb l 4 = 1 <-> 4 ∈ l) /\
  (subsetOf Z.ltb l s = true <-> forall x, x ∈ l -> x ∈ s) /\
  (intersects Z.ltb l s = true <-> exists x, x ∈ l /\ x ∈ s) /\
  sorted Z.ltb (intersectWith Z.ltb l s) /\
  (forall x, x ∈ intersectWith Z.ltb l s <-> x ∈ l /\ x ∈ s).
Proof. apply queries_are_set_queries; [apply _|repeat (constructor; try done)..]. Defined.

End VSet.
