(* ===== verification/SExpr.v ===== *)
(** * Annotation expressions (src/src/SExpr.hpp, SExprVisitor.hpp,
    SExprVisitor.tcc): expressions over registers, their evaluation,
    substitution, concretisation, renaming and printing.

    Every class of the hierarchy is a constructor; the classes that differ in
    their kind only share one.  A visitor is the function its [visit..] members
    define together. *)
From Stdlib Require Import String.
From stdpp Require Import strings pretty.
From S2P Require Import Prelude SVal VSet.
#[local] Open Scope Z_scope.

Module SExprOps.

(** ** Kinds *)

Inductive LogicalKind := Conjunction | Disjunction.
Inductive CastKind := ZExt | SExt | Trunc.
Inductive ArithKind :=
| Add | Sub | Mul | UDiv | SDiv | URem | SRem | And | Or | Xor | Shl | LShr | AShr.
Inductive CmpKind := Eq | Ne | Ult | Ule | Ugt | Uge | Slt | Sle | Sgt | Sge.

(** The enumerators of [Kind] that some class has. *)
Inductive Kind :=
| KConcrete | KRegister | KSelect | KLogical (k : LogicalKind) | KNot | KCast (k : CastKind)
| KArith (k : ArithKind) | KCmp (k : CmpKind).

(** ** Expressions *)

Inductive SExpr {T : Type} :=
| ConcreteExpr (width value : Z)
| RegisterExpr (width : Z) (reg : T) (name : string)
| SelectExpr (width : Z) (c t f : SExpr)
| LogicalExpr (k : LogicalKind) (kids : list SExpr)
| NotExpr (e : SExpr)
| CastExpr (k : CastKind) (width : Z) (e : SExpr)
| ArithExpr (k : ArithKind) (width : Z) (l r : SExpr)
| CmpExpr (k : CmpKind) (l r : SExpr).
#[global] Arguments SExpr T : clear implicits.

Definition BoolWidth : Z := 1.

Section Expressions.
Context {T : Type}.
#[local] Abbreviation E := (SExpr T).

Definition getKind (e : E) : Kind :=
  match e with
  | ConcreteExpr _ _ => KConcrete
  | RegisterExpr _ _ _ => KRegister
  | SelectExpr _ _ _ _ => KSelect
  | LogicalExpr k _ => KLogical k
  | NotExpr _ => KNot
  | CastExpr k _ _ => KCast k
  | ArithExpr k _ _ _ => KArith k
  | CmpExpr k _ _ => KCmp k
  end.
(** A logical expression, a negation and a comparison are one bit wide. *)
Definition getWidth (e : E) : Z :=
  match e with
  | ConcreteExpr w _ | RegisterExpr w _ _ | SelectExpr w _ _ _ | CastExpr _ w _ | ArithExpr _ w _ _ => w
  | LogicalExpr _ _ | NotExpr _ | CmpExpr _ _ _ => BoolWidth
  end.
Definition getKids (e : E) : list E :=
  match e with
  | ConcreteExpr _ _ | RegisterExpr _ _ _ => []
  | SelectExpr _ c t f => [c; t; f]
  | LogicalExpr _ kids => kids
  | NotExpr e | CastExpr _ _ e => [e]
  | ArithExpr _ _ l r | CmpExpr _ l r => [l; r]
  end.
Definition getNumKids (e : E) : Z := Z.of_nat (length (getKids e)).
Definition getKid (i : nat) (e : E) : outcome E :=
  match getKids e !! i with Some k => Ret k | None => Bug end.
(** [e] with other kids, as many as it has. *)
Definition with_kids (e : E) (kids : list E) : E :=
  match e, kids with
  | SelectExpr w _ _ _, [c; t; f] => SelectExpr w c t f
  | LogicalExpr k _, _ => LogicalExpr k kids
  | NotExpr _, [e] => NotExpr e
  | CastExpr k w _, [e] => CastExpr k w e
  | ArithExpr k w _ _, [l; r] => ArithExpr k w l r
  | CmpExpr k _ _, [l; r] => CmpExpr k l r
  | _, _ => e
  end.
Definition setKid (i : nat) (k e : E) : outcome E :=
  if (i <? length (getKids e))%nat then Ret (with_kids e (<[i := k]> (getKids e))) else Bug.

(** *** Constructors *)

Definition createTrue : E := ConcreteExpr 1 1.
Definition createFalse : E := ConcreteExpr 1 0.
(** A select is as wide as its first alternative, an operation as its left kid. *)
Definition Select (c t f : E) : E := SelectExpr (getWidth t) c t f.
Definition Arith (k : ArithKind) (l r : E) : E := ArithExpr k (getWidth l) l r.
(** A logical expression over a vector must not be empty. *)
Definition Logical (k : LogicalKind) (kids : list E) : outcome E :=
  match kids with [] => Bug | _ => Ret (LogicalExpr k kids) end.

(** [clone]: an operation is built again from its kids. *)
Fixpoint clone (e : E) : E :=
  match e with
  | ConcreteExpr w v => ConcreteExpr w v
  | RegisterExpr w r n => RegisterExpr w r n
  | SelectExpr w c t f => SelectExpr w (clone c) (clone t) (clone f)
  | LogicalExpr k kids => LogicalExpr k (map clone kids)
  | NotExpr e => NotExpr (clone e)
  | CastExpr k w e => CastExpr k w (clone e)
  | ArithExpr k _ l r => Arith k (clone l) (clone r)
  | CmpExpr k l r => CmpExpr k (clone l) (clone r)
  end.
End Expressions.

(** ** Evaluation *)
Section Evaluator.
Context {T : Type} `{EqDecision T} (ltb : T -> T -> bool).
#[local] Abbreviation E := (SExpr T).

(** An evaluation by brute force replaces every register with one value; the
    other looks registers up. *)
Inductive Mapping := BruteForce (v : Z) | ValueMapping (m : T -> option Z).

(** [IMPLEMENT_BINOP_NONMEM] *)
Definition arith (k : ArithKind) (v w : Z) : outcome Z :=
  match k with
  | Add => Ret (SVal.add v w)
  | Sub => Ret (SVal.sub v w)
  | Mul => Ret (SVal.mul v w)
  | UDiv | SDiv | URem | SRem => SVal.div v w
  | And => Ret (SVal.land v w)
  | Or => Ret (SVal.lor v w)
  | Xor => Ret (SVal.lxor v w)
  | Shl => SVal.shl v w
  | LShr | AShr => SVal.shr v w
  end.
(** [IMPLEMENT_EQOP] and [IMPLEMENT_CMPOP] *)
Definition cmp (k : CmpKind) (v w : Z) : bool :=
  match k with
  | Eq => SVal.eqb v w
  | Ne => negb (SVal.eqb v w)
  | Ult => SVal.ult v w
  | Ule => SVal.ule v w
  | Ugt => SVal.ugt v w
  | Uge => SVal.uge v w
  | Slt => SVal.slt v w
  | Sle => SVal.sle v w
  | Sgt => SVal.sgt v w
  | Sge => SVal.sge v w
  end.
Definition of_bool (b : bool) : Z := if b then 1 else 0.

Definition visitRegisterExpr (m : Mapping) (r : T) (unknown : list T) : Z * list T :=
  match m with
  | BruteForce v => (v, unknown)
  | ValueMapping f => match f r with Some v => (v, unknown) | None => (42, VSet.insert1 ltb unknown r) end
  end.

(** [std::all_of] and [std::any_of]: stop at the first kid whose value is
    [stop]. *)
Section Kids.
Context (visit : E -> list T -> outcome (Z * list T)) (stop : bool).
Fixpoint visit_until (kids : list E) (unknown : list T) : outcome (bool * list T) :=
  match kids with
  | [] => Ret (negb stop, unknown)
  | k :: kids =>
      r ← visit k unknown;
      if Bool.eqb (SVal.getBool (fst r)) stop then Ret (stop, snd r) else visit_until kids (snd r)
  end.
End Kids.

(** The operand of [!] in [visitNotExpr] is the pointer to the kid. *)
Fixpoint visit (m : Mapping) (e : E) (unknown : list T) : outcome (Z * list T) :=
  match e with
  | ConcreteExpr _ v => Ret (v, unknown)
  | RegisterExpr _ r _ => Ret (visitRegisterExpr m r unknown)
  | SelectExpr _ c t f =>
      r ← visit m c unknown;
      if SVal.getBool (fst r) then visit m t (snd r) else visit m f (snd r)
  | LogicalExpr k kids =>
      r ← visit_until (visit m) (match k with Conjunction => false | Disjunction => true end) kids unknown;
      Ret (of_bool (fst r), snd r)
  | NotExpr _ => Ret (of_bool false, unknown)
  | CastExpr _ _ e => visit m e unknown
  | ArithExpr k _ l r =>
      a ← visit m l unknown; b ← visit m r (snd a); v ← arith k (fst a) (fst b); Ret (v, snd b)
  | CmpExpr k l r =>
      a ← visit m l unknown; b ← visit m r (snd a); Ret (of_bool (cmp k (fst a) (fst b)), snd b)
  end.

(** [evaluate]: the brute-force form starts with no unknown register; the other
    keeps those of earlier evaluations by the same evaluator. *)
Definition evaluate_with (e : E) (v : Z) : outcome (Z * list T) := visit (BruteForce v) e [].
Definition evaluate (e : E) (map : T -> option Z) (unknown : list T) : outcome (Z * list T) :=
  visit (ValueMapping map) e unknown.

(** ** Substitution and concretisation *)

(** A visitor that replaces kids: each kid is visited and then replaced when it is
    a register [f] has an expression for. *)
Fixpoint replace_kids (f : T -> option E) (e : E) : E :=
  let kid (k : E) :=
    match replace_kids f k with
    | RegisterExpr w r n => default (RegisterExpr w r n) (f r)
    | k' => k'
    end in
  match e with
  | ConcreteExpr w v => ConcreteExpr w v
  | RegisterExpr w r n => RegisterExpr w r n
  | SelectExpr w c t g => SelectExpr w (kid c) (kid t) (kid g)
  | LogicalExpr k kids => LogicalExpr k (map kid kids)
  | NotExpr e => NotExpr (kid e)
  | CastExpr k w e => CastExpr k w (kid e)
  | ArithExpr k w l r => ArithExpr k w (kid l) (kid r)
  | CmpExpr k l r => CmpExpr k (kid l) (kid r)
  end.
(** On a clone, whose root is replaced first. *)
Definition replace (f : T -> option E) (e : E) : E :=
  match clone e with
  | RegisterExpr w r n => default (RegisterExpr w r n) (f r)
  | e' => replace_kids f e'
  end.

Definition substitute (orig : E) (reg : T) (r : E) : E :=
  replace (fun x => if decide (x = reg) then Some (clone r) else None) orig.

Definition concretize (orig : E) (rMap : T -> option (Z * Z)) : E :=
  replace (fun x => (fun vs => ConcreteExpr (snd vs) (fst vs)) <$> rMap x) orig.

End Evaluator.

(** ** Renaming registers ([SExprTransformer]) *)

(** The casts are dropped: their [visit] members return the visited kid. *)
Fixpoint transform {T U} (fun_ : T -> U) (e : SExpr T) : SExpr U :=
  match e with
  | ConcreteExpr w v => ConcreteExpr w v
  | RegisterExpr w r n => RegisterExpr w (fun_ r) n
  | SelectExpr w c t f => SelectExpr w (transform fun_ c) (transform fun_ t) (transform fun_ f)
  | LogicalExpr k kids => LogicalExpr k (map (transform fun_) kids)
  | NotExpr e => NotExpr (transform fun_ e)
  | CastExpr _ _ e => transform fun_ e
  | ArithExpr k w l r => ArithExpr k w (transform fun_ l) (transform fun_ r)
  | CmpExpr k l r => CmpExpr k (transform fun_ l) (transform fun_ r)
  end.

(** ** Printing *)

Definition arith_symbol (k : ArithKind) : string :=
  match k with
  | Add => "+" | Sub => "-" | Mul => "*" | UDiv => "/u" | SDiv => "/s" | URem => "%u" | SRem => "%s"
  | And => "&" | Or => "|" | Xor => "^" | Shl => "<<" | LShr => "<<a" | AShr => ">>a"
  end.
Definition cmp_symbol (k : CmpKind) : string :=
  match k with
  | Eq => "==" | Ne => "!=" | Ult => "<u" | Ule => "<=u" | Ugt => ">u" | Uge => ">=u"
  | Slt => "<s" | Sle => "<=s" | Sgt => ">s" | Sge => ">=s"
  end.
(** The kids of a conjunction or disjunction, with a separator in between. *)
Fixpoint join (sep : string) (l : list string) : string :=
  match l with
  | [] => ""
  | [s] => s
  | s :: l => s +:+ sep +:+ join sep l
  end.
(** [SExprPrinter]: operands are not parenthesised. *)
Fixpoint toString {T} (e : SExpr T) : string :=
  match e with
  | ConcreteExpr _ v => pretty v
  | RegisterExpr _ _ n => n
  | SelectExpr _ c t f => "(" +:+ toString c +:+ " ? " +:+ toString t +:+ " : " +:+ toString f +:+ ")"
  | LogicalExpr Conjunction kids => join " /\ " (map toString kids)
  | LogicalExpr Disjunction kids => join " \/ " (map toString kids)
  | NotExpr e => "!" +:+ toString e
  | CastExpr _ w e => "cast" +:+ pretty w +:+ "(" +:+ toString e +:+ ")"
  | ArithExpr k _ l r => toString l +:+ " " +:+ arith_symbol k +:+ " " +:+ toString r
  | CmpExpr k l r => toString l +:+ " " +:+ cmp_symbol k +:+ " " +:+ toString r
  end.
End SExprOps.
