(* ===== verification/SExprFacts.v ===== *)
(** * What annotation expressions evaluate to (properties of SExpr.v). *)
From Stdlib Require Import String.
From S2P Require Import Prelude SVal VSet SExpr.
#[local] Open Scope Z_scope.

Module SExprFacts.
Import SExprOps.

(** ** Induction with hypotheses for the kids of logical expressions *)
Section Induction.
Context {T : Type} (P : SExpr T -> Prop).
Context (Hconcrete : forall w v, P (ConcreteExpr w v)) (Hregister : forall w r n, P (RegisterExpr w r n)).
Context (Hselect : forall w c t f, P c -> P t -> P f -> P (SelectExpr w c t f)).
Context (Hlogical : forall k kids, Forall P kids -> P (LogicalExpr k kids)).
Context (Hnot : forall e, P e -> P (NotExpr e)) (Hcast : forall k w e, P e -> P (CastExpr k w e)).
Context (Harith : forall k w l r, P l -> P r -> P (ArithExpr k w l r)).
Context (Hcmp : forall k l r, P l -> P r -> P (CmpExpr k l r)).
Fixpoint expr_ind (e : SExpr T) : P e :=
  match e with
  | ConcreteExpr w v => Hconcrete w v
  | RegisterExpr w r n => Hregister w r n
  | SelectExpr w c t f => Hselect w c t f (expr_ind c) (expr_ind t) (expr_ind f)
  | LogicalExpr k kids =>
      Hlogical k kids ((fix go l := match l return Forall P l with
                                    | [] => Forall_nil_2 P
                                    | x :: l => Forall_cons_2 P x l (expr_ind x) (go l) end) kids)
  | NotExpr e => Hnot e (expr_ind e)
  | CastExpr k w e => Hcast k w e (expr_ind e)
  | ArithExpr k w l r => Harith k w l r (expr_ind l) (expr_ind r)
  | CmpExpr k l r => Hcmp k l r (expr_ind l) (expr_ind r)
  end.
End Induction.

(** ** Values without the unknown registers *)
Section Denotation.
Context {T : Type}.

(** The value of an expression under values for its registers. *)
Definition until (f : SExpr T -> outcome Z) (stop : bool) : list (SExpr T) -> outcome bool :=
  fix go l :=
    match l with
    | [] => Ret (negb stop)
    | x :: l => v ← f x; if Bool.eqb (SVal.getBool v) stop then Ret stop else go l
    end.
Fixpoint denote (env : T -> outcome Z) (e : SExpr T) : outcome Z :=
  match e with
  | ConcreteExpr _ v => Ret v
  | RegisterExpr _ r _ => env r
  | SelectExpr _ c t f => v ← denote env c; if SVal.getBool v then denote env t else denote env f
  | LogicalExpr k kids =>
      b ← until (denote env) (match k with Conjunction => false | Disjunction => true end) kids; Ret (of_bool b)
  | NotExpr _ => Ret 0
  | CastExpr _ _ e => denote env e
  | ArithExpr k _ l r => v ← denote env l; w ← denote env r; arith k v w
  | CmpExpr k l r => v ← denote env l; w ← denote env r; Ret (of_bool (cmp k v w))
  end.

Lemma until_ext f g stop l : Forall (fun x => f x = g x) l -> until f stop l = until g stop l.
Proof. induction 1 as [|x l E _ IH]; simpl; [done|]. by rewrite E, IH. Qed.

Lemma denote_ext env env' e : (forall r, env r = env' r) -> denote env e = denote env' e.
Proof.
  intros H. induction e as [| |w c t f IHc IHt IHf|k kids IH|e _|k w e IH|k w l r IHl IHr|k l r IHl IHr]
    using expr_ind; simpl; auto.
  - by rewrite IHc, IHt, IHf.
  - by rewrite (until_ext _ _ _ _ IH).
  - by rewrite IHl, IHr.
  - by rewrite IHl, IHr.
Qed.

Lemma until_map f g h stop l :
  Forall (fun x => f (h x) = g x) l -> until f stop (map h l) = until g stop l.
Proof. induction 1 as [|x l E _ IH]; simpl; [done|]. by rewrite E, IH. Qed.

Lemma denote_clone env e : denote env (clone e) = denote env e.
Proof.
  induction e as [| |w c t f IHc IHt IHf|k kids IH|e _|k w e IH|k w l r IHl IHr|k l r IHl IHr]
    using expr_ind; simpl; auto.
  - by rewrite IHc, IHt, IHf.
  - by rewrite (until_map _ _ _ _ _ IH).
  - by rewrite IHl, IHr.
  - by rewrite IHl, IHr.
Qed.

(** Replacing registers is evaluating under the values of the replacements. *)
Definition env_replaced (f : T -> option (SExpr T)) (env : T -> outcome Z) (r : T) : outcome Z :=
  match f r with Some x => denote env x | None => env r end.
Definition kid (f : T -> option (SExpr T)) (k : SExpr T) : SExpr T :=
  match replace_kids f k with RegisterExpr w r n => default (RegisterExpr w r n) (f r) | k' => k' end.

Lemma denote_kid f env e : denote env (kid f e) = denote (env_replaced f env) e.
Proof.
  induction e as [| |w c t g IHc IHt IHg|k kids IH|e _|k w e IH|k w l r IHl IHr|k l r IHl IHr]
    using expr_ind; unfold kid; cbn [replace_kids]; try done.
  - cbn. unfold env_replaced. by destruct (f r).
  - cbn [denote]. fold (kid f c) (kid f t) (kid f g). by rewrite IHc, IHt, IHg.
  - cbn [denote]. change (map _ kids) with (map (kid f) kids). by rewrite (until_map _ _ _ _ _ IH).
  - cbn [denote]. fold (kid f l) (kid f r). by rewrite IHl, IHr.
  - cbn [denote]. fold (kid f l) (kid f r). by rewrite IHl, IHr.
Qed.
Lemma denote_replace f env e : denote env (replace f e) = denote (env_replaced f env) e.
Proof.
  rewrite <- (denote_clone _ e). rewrite <- denote_kid. unfold replace, kid.
  destruct (clone e) as [| | | | | | |] eqn:Ec; try done.
Qed.
End Denotation.

Lemma denote_transform {T U} (g : T -> U) env (e : SExpr T) :
  denote env (transform g e) = denote (fun r => env (g r)) e.
Proof.
  induction e as [| |w c t f IHc IHt IHf|k kids IH|e _|k w e IH|k w l r IHl IHr|k l r IHl IHr]
    using expr_ind; simpl; auto.
  - by rewrite IHc, IHt, IHf.
  - assert (forall stop, until (denote env) stop (map (transform g) kids) =
      until (denote (fun r => env (g r))) stop kids) as ->; [|done].
    intros stop. induction IH as [|x l E _ IH]; simpl; [done|]. by rewrite E, IH.
  - by rewrite IHl, IHr.
  - by rewrite IHl, IHr.
Qed.

(** ** The evaluator computes the value *)
Section Evaluation.
Context {T : Type} `{EqDecision T} (ltb : T -> T -> bool).

Definition env_of (m : @Mapping T) (r : T) : outcome Z :=
  match m with BruteForce v => Ret v | ValueMapping f => Ret (default 42 (f r)) end.

Lemma visit_until_fst m stop kids :
  Forall (fun e => forall unknown, fst <$> visit ltb m e unknown = denote (env_of m) e) kids ->
  forall unknown, fst <$> visit_until (visit ltb m) stop kids unknown = until (denote (env_of m)) stop kids.
Proof.
  induction 1 as [|x l E _ IH]; intros unknown; simpl; [done|]. specialize (E unknown).
  destruct (visit ltb m x unknown) as [[v u]| |]; simpl in E; rewrite <- E; simpl; [|done..].
  destruct (Bool.eqb _ _); [done|apply IH].
Qed.

Lemma visit_fst m e : forall unknown, fst <$> visit ltb m e unknown = denote (env_of m) e.
Proof.
  induction e as [| |w c t f IHc IHt IHf|k kids IH|e _|k w e IH|k w l r IHl IHr|k l r IHl IHr]
    using expr_ind; intros unknown; cbn [visit denote].
  - done.
  - unfold visitRegisterExpr. destruct m as [v|f]; simpl; [done|]. by destruct (f r).
  - specialize (IHc unknown). destruct (visit ltb m c unknown) as [[v u]| |]; simpl in IHc; rewrite <- IHc; simpl; [|done..].
    destruct (SVal.getBool v); [apply IHt|apply IHf].
  - pose proof (visit_until_fst m (match k with Conjunction => false | Disjunction => true end) kids IH unknown) as E.
    destruct (visit_until _ _ _ _) as [[v u]| |]; simpl in E; rewrite <- E; done.
  - done.
  - apply IH.
  - specialize (IHl unknown). destruct (visit ltb m l unknown) as [[v u]| |]; simpl in IHl; rewrite <- IHl; simpl; [|done..].
    specialize (IHr u). destruct (visit ltb m r u) as [[x y]| |]; simpl in IHr; rewrite <- IHr; simpl; [|done..].
    by destruct (arith k v x).
  - specialize (IHl unknown). destruct (visit ltb m l unknown) as [[v u]| |]; simpl in IHl; rewrite <- IHl; simpl; [|done..].
    specialize (IHr u). by destruct (visit ltb m r u) as [[x y]| |]; simpl in IHr; rewrite <- IHr; simpl.
Qed.

(** Values are 64-bit values when the constants and the known registers are. *)
Fixpoint constants_ok (e : SExpr T) : Prop :=
  match e with
  | ConcreteExpr _ v => SVal.ok v
  | RegisterExpr _ _ _ => True
  | SelectExpr _ c t f => constants_ok c /\ constants_ok t /\ constants_ok f
  | LogicalExpr _ kids => Forall (fun b => b) (map constants_ok kids)
  | NotExpr e | CastExpr _ _ e => constants_ok e
  | ArithExpr _ _ l r | CmpExpr _ l r => constants_ok l /\ constants_ok r
  end.
Lemma of_bool_ok b : SVal.ok (of_bool b).
Proof. by destruct b. Qed.
Lemma arith_ok k v w x : SVal.ok v -> SVal.ok w -> arith k v w = Ret x -> SVal.ok x.
Proof.
  intros Hv Hw. assert (0 <= v < 2 ^ 64) as Hv' by apply Hv. assert (0 <= w < 2 ^ 64) as Hw' by apply Hw.
  destruct k; simpl; try (solve [intros [= <-]; first [apply SVal.ok_u64|by apply SVal.land_ok|by apply SVal.lor_ok|by apply SVal.lxor_ok]]).
  1-4: unfold SVal.div; destruct (Z.eqb_spec w 0); [done|]; intros [= <-]; split;
       [apply Z.div_pos; lia|apply Z.div_lt_upper_bound; nia].
  1: unfold SVal.shl; destruct (w <? 64); [|done]; intros [= <-]; apply SVal.ok_u64.
  all: unfold SVal.shr; destruct (w <? 64); [|done]; intros [= <-]; by apply SVal.shr_ok; [|lia].
Qed.
Lemma denote_ok (env : T -> outcome Z) e :
  (forall r v, env r = Ret v -> SVal.ok v) -> constants_ok e -> forall v, denote env e = Ret v -> SVal.ok v.
Proof.
  intros Henv. induction e as [| |w c t f IHc IHt IHf|k kids IH|e _|k w e IH|k w l r IHl IHr|k l r IHl IHr]
    using expr_ind; cbn [constants_ok denote].
  - by intros ? ? [= <-].
  - intros _. apply Henv.
  - intros (? & ? & ?) v. destruct (denote env c) as [b| |]; simpl; [|done..]. destruct (SVal.getBool b); auto.
  - intros _ v. destruct (until _ _ _) as [b| |]; simpl; [|done..]. intros [= <-]. apply of_bool_ok.
  - by intros _ ? [= <-].
  - auto.
  - intros [? ?] v. destruct (denote env l) as [a| |]; simpl; [|done..].
    destruct (denote env r) as [b| |]; simpl; [|done..]. apply arith_ok; auto.
  - intros [? ?] v. destruct (denote env l) as [a| |]; simpl; [|done..].
    destruct (denote env r) as [b| |]; simpl; [|done..]. intros [= <-]. apply of_bool_ok.
Qed.

(** *** The unknown registers *)

Lemma insert1_length l (r : T) : (length l <= length (VSet.insert1 ltb l r))%nat.
Proof.
  unfold VSet.insert1, VSet.insert_elem. destruct (VSet.not_at _ _ _); simpl; [|done].
  rewrite length_app, length_take. simpl. rewrite length_drop. lia.
Qed.
Lemma insert1_nonempty l (r : T) : VSet.insert1 ltb l r <> [].
Proof.
  unfold VSet.insert1, VSet.insert_elem. destruct (VSet.not_at l _ r) eqn:E; simpl.
  - intros H. by apply app_eq_nil in H as [_ ?].
  - intros ->. by unfold VSet.not_at, VSet.at_it in E; rewrite lookup_nil in E.
Qed.

(** Evaluations that end without an unknown register met none, and looked up
    known registers only. *)
Definition agrees (f g : T -> option Z) : Prop := forall r v, f r = Some v -> g r = Some v.
Definition settled (m m' : T -> option Z) (e : SExpr T) : Prop :=
  forall u v, visit ltb (ValueMapping m) e u = Ret (v, []) ->
    u = [] /\ visit ltb (ValueMapping m') e [] = Ret (v, []).

Lemma visit_until_settled m m' stop kids :
  Forall (settled m m') kids ->
  forall u b, visit_until (visit ltb (ValueMapping m)) stop kids u = Ret (b, []) ->
    u = [] /\ visit_until (visit ltb (ValueMapping m')) stop kids [] = Ret (b, []).
Proof.
  induction 1 as [|x l Hx _ IH]; intros u b; simpl; [by intros [= <- ->]|].
  destruct (visit ltb (ValueMapping m) x u) as [[v u1]| |] eqn:E; simpl; [|done..].
  destruct (Bool.eqb (SVal.getBool v) stop) eqn:Es.
  - intros [= <- ->]. destruct (Hx u v E) as [-> ->]. simpl. by rewrite Es.
  - intros H. destruct (IH u1 b H) as [-> Hl]. destruct (Hx u v E) as [-> ->]. simpl. by rewrite Es.
Qed.
Lemma visit_settled m m' e : agrees m m' -> settled m m' e.
Proof.
  intros Hm. induction e as [| |w c t f IHc IHt IHf|k kids IH|e _|k w e IH|k w l r IHl IHr|k l r IHl IHr]
    using expr_ind; intros u v0; cbn [visit].
  - by intros [= <- ->].
  - unfold visitRegisterExpr. destruct (m r) as [x|] eqn:E.
    + intros [= <- ->]. by rewrite (Hm r x E).
    + intros [= _ H]. by apply insert1_nonempty in H.
  - destruct (visit ltb (ValueMapping m) c u) as [[x u1]| |] eqn:E; simpl; [|done..].
    destruct (SVal.getBool x) eqn:Eb; intros H; [destruct (IHt _ _ H) as [-> Ht]|destruct (IHf _ _ H) as [-> Ht]];
      destruct (IHc _ _ E) as [-> ->]; simpl; by rewrite Eb.
  - destruct (visit_until _ _ _ _) as [[b u1]| |] eqn:E; simpl; [|done..]. intros [= <- ->].
    by destruct (visit_until_settled m m' _ _ IH _ _ E) as [-> ->].
  - by intros [= <- ->].
  - apply IH.
  - destruct (visit ltb (ValueMapping m) l u) as [[x u1]| |] eqn:El; simpl; [|done..].
    destruct (visit ltb (ValueMapping m) r u1) as [[y u2]| |] eqn:Er; simpl; [|done..].
    destruct (arith k x y) eqn:Ea; simpl; [|done..]. intros [= <- ->].
    destruct (IHr _ _ Er) as [-> Hr]. destruct (IHl _ _ El) as [-> ->]. simpl. rewrite Hr. simpl. by rewrite Ea.
  - destruct (visit ltb (ValueMapping m) l u) as [[x u1]| |] eqn:El; simpl; [|done..].
    destruct (visit ltb (ValueMapping m) r u1) as [[y u2]| |] eqn:Er; simpl; [|done..]. intros [= <- ->].
    destruct (IHr _ _ Er) as [-> Hr]. destruct (IHl _ _ El) as [-> ->]. simpl. by rewrite Hr.
Qed.

(** Concretising an expression is evaluating it with the values put in. *)
Lemma evaluate_concretize e rMap map u u' :
  fst <$> evaluate ltb (concretize e rMap) map u =
  fst <$> evaluate ltb e (fun r => match rMap r with Some vs => Some (fst vs) | None => map r end) u'.
Proof.
  unfold evaluate. rewrite !visit_fst. unfold concretize. rewrite denote_replace. apply denote_ext.
  intros r. unfold env_replaced. simpl. by destruct (rMap r).
Qed.

(**  Substituting an expression for a register and then evaluating
    is evaluating with the register mapped to the value of that expression. *)
Theorem evaluate_substitute e reg x map v u u' :
  fst <$> evaluate ltb x map u = Ret v ->
  fst <$> evaluate ltb (substitute e reg x) map u =
  fst <$> evaluate ltb e (fun r => if decide (r = reg) then Some v else map r) u'.
Proof.
  unfold evaluate. rewrite !visit_fst. intros Hx. unfold substitute. rewrite denote_replace. apply denote_ext.
  intros r. unfold env_replaced. simpl. case_decide; [|done]. by rewrite denote_clone.
Qed.

(** Property C34.  The value of an annotation is a 64-bit value, and when
    [numUnknown] comes out as 0 it does not depend on the registers the mapping
    leaves out: every larger mapping gives the same value, and again no unknown
    register. *)
Theorem evaluate_known e map v :
  constants_ok e -> (forall r w, map r = Some w -> SVal.ok w) -> evaluate ltb e map [] = Ret (v, []) ->
  SVal.ok v /\ forall map', agrees map map' -> evaluate ltb e map' [] = Ret (v, []).
Proof.
  intros He Hm E. split.
  - eapply (denote_ok (env_of (ValueMapping map))); [|exact He|].
    + intros r w [= <-]. destruct (map r) eqn:Er; [by eapply Hm|by split].
    + rewrite <- (visit_fst (ValueMapping map) e []). unfold evaluate in E. by rewrite E.
  - intros map' Ha. by apply (visit_settled map map' e Ha [] v E).
Qed.
End Evaluation.

(** A negation evaluates to 0 whatever its operand: the evaluator
    negates the pointer to the operand; and remainders evaluate to quotients. *)
Theorem evaluate_not_constant {T} `{EqDecision T} (ltb : T -> T -> bool) m :
  (forall e u, visit ltb m (NotExpr e) u = Ret (0, u)) /\
  (forall w l r u, visit ltb m (ArithExpr URem w l r) u = visit ltb m (ArithExpr UDiv w l r) u /\
                   visit ltb m (ArithExpr SRem w l r) u = visit ltb m (ArithExpr UDiv w l r) u).
Proof. done. Qed.

(** The annotation [r1 == r2 + 1]. *)
Definition sample : SExpr Z :=
  CmpExpr Eq (RegisterExpr 32 1 "r1") (Arith Add (RegisterExpr 32 2 "r2") (ConcreteExpr 32 1)).
Definition sample_map (r : Z) : option Z := if r =? 1 then Some 7 else if r =? 2 then Some 6 else None.

Lemma evaluate_substitute_witness :
  fst <$> evaluate Z.ltb (substitute sample 2 (Arith Mul (ConcreteExpr 32 2) (RegisterExpr 32 3 "r3")))
    (fun r => if r =? 1 then Some 7 else if r =? 3 then Some 3 else None) [] = Ret 1.
Proof.
  rewrite (evaluate_substitute Z.ltb sample 2 _ _ 6 [] []); [reflexivity|]. reflexivity.
Defined.
Lemma evaluate_known_witness :
  evaluate Z.ltb sample sample_map [] = Ret (1, []) /\ SVal.ok 1 /\
  evaluate Z.ltb sample (fun r => if r =? 3 then Some 5 else sample_map r) [] = Ret (1, []).
Proof.
  destruct (evaluate_known Z.ltb sample sample_map 1) as [H1 H2].
  - cbn. split; [exact I|]. split; [exact I|]. split; [apply Z.leb_le; reflexivity|apply Z.ltb_lt; reflexivity].
  - intros r w H. unfold sample_map in H.
    destruct (r =? 1); [injection H as <-; split; [apply Z.leb_le|apply Z.ltb_lt]; reflexivity|].
    destruct (r =? 2); [injection H as <-; split; [apply Z.leb_le|apply Z.ltb_lt]; reflexivity|discriminate H].
  - reflexivity.
  - split; [reflexivity|]. split; [exact H1|]. apply H2. intros r w H. unfold sample_map in *.
    destruct (Z.eqb_spec r 1) as [->|]; [exact H|]. destruct (Z.eqb_spec r 2) as [->|]; [exact H|discriminate H].
Defined.
End SExprFacts.
