(* ===== verification/Trie.v ===== *)
(** * Tries over sequences (src/src/Trie.hpp): the cache of value prefixes.

    The nodes are owned by a vector and point to each other; no node has two
    parents, so a trie is the tree below its root.  The loops that walk down a
    sequence take fuel. *)
From S2P Require Import Prelude.
#[local] Open Scope Z_scope.

Module Trie.
Section Trie.
(** The elements of a sequence with the source's [ValCmp]; payloads with their
    default. *)
Context {A P : Type} `{EqDecision A} (cmp : A -> A -> bool) (Payload : P).

Inductive Node := mkNode { lab : list A; dat : P; children : list Node }.

(** *** Edges *)

(** The first element of a label. *)
Definition front (n : Node) : outcome A := match lab n with a :: _ => Ret a | [] => Undef end.
(** [std::lower_bound(begin(), end(), id, NodeCmp())] *)
Fixpoint lower_bound (cs : list Node) (id : A) : outcome nat :=
  match cs with
  | [] => Ret O
  | c :: cs => a ← front c; if cmp a id then S <$> lower_bound cs id else Ret O
  end.
Definition getEdge (n : Node) (id : A) : outcome (option (nat * Node)) :=
  it ← lower_bound (children n) id;
  match children n !! it with
  | None => Ret None
  | Some c => a ← front c; Ret (if decide (a = id) then Some (it, c) else None)
  end.
Definition addEdge (n c : Node) : outcome Node :=
  it ← (match children n with [] => Ret O | _ => a ← front c; lower_bound (children n) a end);
  Ret (mkNode (lab n) (dat n) (take it (children n) ++ c :: drop it (children n))).
Definition setEdge (n c : Node) : outcome Node :=
  a ← front c;
  it ← lower_bound (children n) a;
  _ ← BUG_ON (it =? length (children n))%nat;
  Ret (mkNode (lab n) (dat n) (<[it := c]> (children n))).
Definition setData (d : P) (n : Node) : Node := mkNode (lab n) d (children n).

(** *** Comparing a sequence with a label *)

Definition Same : Z := -3.
Definition StringIsPrefix : Z := -2.
Definition LabelIsPrefix : Z := -1.
Definition DontMatch : Z := 0.
Fixpoint common (s l : list A) : nat :=
  match s, l with
  | a :: s, b :: l => if decide (a = b) then S (common s l) else O
  | _, _ => O
  end.
(** The result is an 8-bit enumerator, and the length of a common part is cast
    to it. *)
Definition query (n : Node) (s : list A) : Z :=
  let i := common s (lab n) in
  if (i =? Nat.min (length s) (length (lab n)))%nat then
    if (length s =? length (lab n))%nat then Same
    else if (i =? length s)%nat then StringIsPrefix else LabelIsPrefix
  else signed 8 (wrap 8 (Z.of_nat i)).

(** *** Splitting an edge *)

(** The node in the middle; [index] is a [size_t]. *)
Definition splitEdge (n : Node) (id : A) (index : Z) : outcome (Node * Node) :=
  e ← getEdge n id;
  match e with
  | None => Bug
  | Some (_, eNode) =>
      let l := lab eNode in
      _ ← BUG_ON ((wrap 64 index <=? 0) || (wrap 64 index >=? Z.of_nat (length l)));
      let mid := mkNode (take (Z.to_nat index) l) Payload
                   [mkNode (drop (Z.to_nat index) l) (dat eNode) (children eNode)] in
      n ← setEdge n mid; Ret (n, mid)
  end.

(** *** Insertion and lookup *)

Definition child_replaced (n : Node) (k : nat) (c : Node) : Node :=
  mkNode (lab n) (dat n) (<[k := c]> (children n)).
Fixpoint add_loop (fuel : nat) (cNode : Node) (s : list A) (data : P) : outcome (bool * Node) :=
  match fuel, s with
  | O, _ | _, [] => Undef
  | S fuel, id :: _ =>
      e ← getEdge cNode id;
      match e with
      | None => n ← addEdge cNode (mkNode s data []); Ret (true, n)
      | Some (k, nNode) =>
          let r := query nNode s in
          if r =? Same then Ret (false, cNode)
          else if r =? StringIsPrefix then
            '(n, mid) ← splitEdge cNode id (Z.of_nat (length s));
            n ← setEdge n (setData data mid); Ret (true, n)
          else if r =? DontMatch then Bug
          else if r =? LabelIsPrefix then
            '(b, c) ← add_loop fuel nNode (drop (length (lab nNode)) s) data;
            Ret (b, child_replaced cNode k c)
          else
            '(n, mid) ← splitEdge cNode id r;
            mid ← addEdge mid (mkNode (drop (Z.to_nat r) s) data []);
            n ← setEdge n mid; Ret (true, n)
      end
  end.
Definition addSeq (root : Node) (s : list A) (data : P) : outcome (bool * Node) :=
  match s with [] => Ret (false, root) | _ => add_loop (length s) root s data end.

Fixpoint lookup_loop (fuel : nat) (cNode : Node) (s : list A) : outcome (option P) :=
  match fuel, s with
  | O, _ | _, [] => Undef
  | S fuel, id :: _ =>
      e ← getEdge cNode id;
      match e with
      | None => Ret None
      | Some (_, nNode) =>
          let r := query nNode s in
          if r =? Same then Ret (Some (dat nNode))
          else if r =? StringIsPrefix then Ret None
          else if r =? DontMatch then Bug
          else if r =? LabelIsPrefix then lookup_loop fuel nNode (drop (length (lab nNode)) s)
          else Ret None
      end
  end.
Definition lookup (root : Node) (s : list A) : outcome (option P) :=
  match s with [] => Ret (Some (dat root)) | _ => lookup_loop (length s) root s end.

(** [Trie()] *)
Definition make : Node := mkNode [] Payload [].

(** [setData(s, data)]: the payload found is replaced. *)
Fixpoint set_loop (fuel : nat) (cNode : Node) (s : list A) (data : P) : outcome (option Node) :=
  match fuel, s with
  | O, _ | _, [] => Undef
  | S fuel, id :: _ =>
      e ← getEdge cNode id;
      match e with
      | None => Ret None
      | Some (k, nNode) =>
          let r := query nNode s in
          if r =? Same then Ret (Some (child_replaced cNode k (setData data nNode)))
          else if r =? StringIsPrefix then Ret None
          else if r =? DontMatch then Bug
          else if r =? LabelIsPrefix then
            o ← set_loop fuel nNode (drop (length (lab nNode)) s) data; Ret (option_map (child_replaced cNode k) o)
          else Ret None
      end
  end.
Definition setSeqData (root : Node) (s : list A) (data : P) : outcome (bool * Node) :=
  match s with
  | [] => Ret (true, setData data root)
  | _ => o ← set_loop (length s) root s data;
         Ret (match o with Some n => (true, n) | None => (false, root) end)
  end.
End Trie.
End Trie.
