(* ===== verification/TrieFacts.v ===== *)
(** * Tries as maps that are closed under branching points (properties of Trie.v). *)
From S2P Require Import Prelude Trie.
#[local] Open Scope Z_scope.

Module TrieFacts.
Import Trie.

Section Facts.
Context {A P : Type} `{EqDecision A} (cmp : A -> A -> bool) `{!StrictTotal cmp} (Payload : P).
#[local] Abbreviation Node := (@Node A P).

(** ** Well-formed tries: children sorted by the first elements of their
    non-empty labels, labels short enough for the cast of [query] *)

Definition below (c c' : Node) : Prop :=
  exists a b, head (lab c) = Some a /\ head (lab c') = Some b /\ cmp a b = true.
Definition short (c : Node) : Prop := lab c <> [] /\ (length (lab c) < 128)%nat.
Inductive wf : Node -> Prop :=
| wf_node l d cs : Forall short cs -> StronglySorted below cs -> Forall wf cs -> wf (mkNode l d cs).

(** The sequences of a trie with their payloads. *)
Inductive maps : Node -> list A -> P -> Prop :=
| maps_here n c : c ∈ children n -> maps n (lab c) (dat c)
| maps_deep n c s p : c ∈ children n -> maps c s p -> maps n (lab c ++ s) p.
Definition cmaps (c : Node) (s : list A) (p : P) : Prop :=
  (s = lab c /\ p = dat c) \/ exists s', s = lab c ++ s' /\ maps c s' p.

Lemma maps_iff n s p : maps n s p <-> exists c, c ∈ children n /\ cmaps c s p.
Proof.
  split.
  - intros [? c ?|? c s' p' ?]; exists c; (split; [done|]); [by left|right; by exists s'].
  - intros (c & Hc & [[-> ->]|(s' & -> & Hs')]); by constructor.
Qed.

Lemma wf_children n c : wf n -> c ∈ children n -> wf c /\ short c.
Proof. intros [l d cs H1 _ H2] Hc. simpl in Hc. rewrite Forall_forall in H1, H2. auto. Qed.
Lemma wf_sorted n : wf n -> StronglySorted below (children n).
Proof. by intros []. Qed.
Lemma short_front c : short c -> exists a l, lab c = a :: l /\ front c = Ret a.
Proof. intros [H _]. unfold front. destruct (lab c) as [|a l]; [done|]. by exists a, l. Qed.

Lemma maps_nonempty n s p : wf n -> maps n s p -> s <> [].
Proof.
  intros Hw (c & Hc & H)%maps_iff. destruct (wf_children n c Hw Hc) as [_ [Hl _]].
  destruct H as [[-> _]|(s' & -> & _)]; [done|]. by destruct (lab c).
Qed.

Lemma sorted_heads cs i j c c' :
  StronglySorted below cs -> (i < j)%nat -> cs !! i = Some c -> cs !! j = Some c' -> below c c'.
Proof.
  intros Hs. revert i j. induction Hs as [|x cs _ IH Hx]; intros i j Hij Hi Hj; [done|].
  destruct i as [|i], j as [|j]; simpl in *; [lia| |lia|].
  - injection Hi as <-. rewrite Forall_forall in Hx. apply Hx. by eapply list_elem_of_lookup_2.
  - by apply (IH i j); [lia|..].
Qed.
Lemma same_head cs i j c c' a :
  StronglySorted below cs -> cs !! i = Some c -> cs !! j = Some c' ->
  head (lab c) = Some a -> head (lab c') = Some a -> i = j.
Proof.
  intros Hs Hi Hj Ha Ha'. destruct (decide (i = j)) as [|Hn]; [done|exfalso].
  assert (below c c' \/ below c' c) as [(x & y & Hx & Hy & H)|(x & y & Hx & Hy & H)].
  { destruct (Nat.lt_total i j) as [?|[?|?]]; [left|done|right]; by eapply sorted_heads. }
  all: rewrite Hx in *; rewrite Hy in *; simplify_eq; by rewrite ltb_irrefl in H.
Qed.

(** ** Edges *)

Definition splits (cs : list Node) (id : A) (it : nat) : Prop :=
  (it <= length cs)%nat /\
  (forall k c a, (k < it)%nat -> cs !! k = Some c -> head (lab c) = Some a -> cmp a id = true) /\
  (forall k c a, (it <= k)%nat -> cs !! k = Some c -> head (lab c) = Some a -> cmp a id = false).

Lemma lower_bound_splits cs id :
  Forall short cs -> StronglySorted below cs -> exists it, lower_bound cmp cs id = Ret it /\ splits cs id it.
Proof.
  intros Hsh Hs. induction Hs as [|c cs Hs IH Hc]; simpl.
  { exists O. split; [done|]. split; [done|]. split; intros k ? ? ? H; by rewrite lookup_nil in H. }
  inversion Hsh as [|? ? Hc' Hsh']; subst. destruct (short_front c Hc') as (a & l & Ha & ->). cbn [mbind outcome_bind].
  destruct (cmp a id) eqn:E.
  - destruct (IH Hsh') as (it & -> & Hle & H1 & H2). exists (S it). split; [done|]. split; [simpl; lia|]. split.
    + intros [|k] x b Hk Hx Hb; simpl in Hx; [|by eapply H1; [|done..]; lia].
      injection Hx as <-. rewrite Ha in Hb. simpl in Hb. congruence.
    + intros [|k] x b Hk Hx Hb; [lia|]. by eapply (H2 k); [lia|..].
  - exists O. split; [done|]. split; [lia|]. split; [lia|]. intros [|k] x b _ Hx Hb; simpl in Hx.
    + injection Hx as <-. rewrite Ha in Hb. simpl in Hb. congruence.
    + rewrite Forall_forall in Hc. destruct (Hc x) as (a' & b' & Ha' & Hb' & H); [by eapply list_elem_of_lookup_2|].
      rewrite Ha in Ha'. simpl in Ha'. rewrite Hb in Hb'. simplify_eq.
      destruct (cmp b' id) eqn:E'; [|done]. rewrite (ltb_trans _ _ _ H E') in E. done.
Qed.

Lemma getEdge_spec n id :
  wf n -> exists r, getEdge cmp n id = Ret r /\
    match r with
    | Some (k, c) => children n !! k = Some c /\ head (lab c) = Some id /\ splits (children n) id k
    | None => forall c, c ∈ children n -> head (lab c) <> Some id
    end.
Proof.
  intros Hw. destruct n as [l d cs]. inversion Hw as [? ? ? Hsh Hs Hwf]; subst. unfold getEdge. simpl.
  destruct (lower_bound_splits cs id Hsh Hs) as (it & -> & Hsp). cbn [mbind outcome_bind].
  pose proof Hsp as (Hle & H1 & H2).
  destruct (cs !! it) as [c|] eqn:Ec.
  - assert (short c) as Hc. { rewrite Forall_forall in Hsh. apply Hsh. by eapply list_elem_of_lookup_2. }
    destruct (short_front c Hc) as (a & l' & Ha & ->). cbn [mbind outcome_bind]. eexists. split; [done|].
    destruct (decide (a = id)) as [->|Hn]; [by rewrite Ha|].
    intros x [j Hj]%list_elem_of_lookup Hx. destruct (Nat.lt_total j it) as [Hlt|[->|Hlt]].
    + pose proof (H1 j x id Hlt Hj Hx) as E. by rewrite ltb_irrefl in E.
    + rewrite Ec in Hj. injection Hj as <-. rewrite Ha in Hx. by injection Hx.
    + destruct (sorted_heads cs it j c x Hs Hlt Ec Hj) as (a' & b' & Ha' & Hb' & E).
      rewrite Ha in Ha'. rewrite Hx in Hb'. simplify_eq/=. rewrite (H2 it c a') in E; [done|lia|done|by rewrite Ha].
  - eexists. split; [done|]. intros x [j Hj]%list_elem_of_lookup Hx.
    apply lookup_ge_None in Ec. pose proof (lookup_lt_Some _ _ _ Hj).
    pose proof (H1 j x id ltac:(lia) Hj Hx) as E. by rewrite ltb_irrefl in E.
Qed.

(** ** Comparing a sequence with a label *)

Inductive compared (s l : list A) : Z -> Prop :=
| compared_same : s = l -> compared s l Same
| compared_string x l' : l = s ++ x :: l' -> compared s l StringIsPrefix
| compared_label x s' : s = l ++ x :: s' -> compared s l LabelIsPrefix
| compared_part pre a b s' l' : s = pre ++ a :: s' -> l = pre ++ b :: l' -> a <> b -> pre <> [] ->
    compared s l (Z.of_nat (length pre)).

Lemma common_split (s l : list A) :
  exists s' l', s = take (common s l) s ++ s' /\ l = take (common s l) s ++ l' /\
    (common s l <= Nat.min (length s) (length l))%nat /\
    (forall a b, head s' = Some a -> head l' = Some b -> a <> b).
Proof.
  revert l. induction s as [|x s IH]; intros [|y l]; simpl; try by eexists _, _.
  case_decide as E; [subst y|].
  - destruct (IH l) as (s' & l' & Hs & Hl & Hle & Hn). exists s', l'. simpl.
    split; [by f_equal|]. split; [by f_equal|]. split; [lia|done].
  - exists (x :: s), (y :: l). split; [done|]. split; [done|]. split; [simpl; lia|].
    by intros a b [= <-] [= <-].
Qed.

Lemma query_spec n s a :
  short n -> head s = Some a -> head (lab n) = Some a -> compared s (lab n) (query n s).
Proof.
  intros [_ Hlen] Hs Hl. unfold query. destruct (common_split s (lab n)) as (s' & l' & E1 & E2 & Hle & Hne).
  set (i := common s (lab n)) in *. set (pre := take i s) in *.
  assert (length pre = i) as Hi by (unfold pre; rewrite length_take; lia).
  destruct (Nat.eqb_spec i (Nat.min (length s) (length (lab n)))) as [Hm|Hm].
  - destruct (Nat.eqb_spec (length s) (length (lab n))) as [He|He].
    + assert (s' = [] /\ l' = []) as [-> ->].
      { apply (f_equal length) in E1, E2. rewrite length_app, Hi in E1, E2. split; apply length_zero_iff_nil; lia. }
      rewrite E2, E1, !app_nil_r. by constructor.
    + destruct (Nat.eqb_spec i (length s)) as [Hx|Hx].
      * assert (s' = []) as ->.
        { apply (f_equal length) in E1. rewrite length_app, Hi in E1. apply length_zero_iff_nil. lia. }
        destruct l' as [|x l']; [exfalso; apply (f_equal length) in E1, E2; rewrite length_app in E1, E2; simpl in *; lia|].
        apply (compared_string _ _ x l'). rewrite app_nil_r in E1. by rewrite <- E1 in E2.
      * assert (l' = []) as ->.
        { apply (f_equal length) in E2. rewrite length_app, Hi in E2. apply length_zero_iff_nil. lia. }
        destruct s' as [|x s']; [exfalso; apply (f_equal length) in E1, E2; rewrite length_app in E1, E2; simpl in *; lia|].
        apply (compared_label _ _ x s'). rewrite app_nil_r in E2. by rewrite <- E2 in E1.
  - destruct s' as [|x s']; [exfalso; apply (f_equal length) in E1; rewrite length_app in E1; simpl in *; lia|].
    destruct l' as [|y l']; [exfalso; apply (f_equal length) in E2; rewrite length_app in E2; simpl in *; lia|].
    assert (signed 8 (wrap 8 (Z.of_nat i)) = Z.of_nat (length pre)) as ->.
    { rewrite Hi, wrap_small by (change (2 ^ 8) with 256; lia). unfold signed. change (2 ^ 8) with 256.
      change (2 ^ (8 - 1)) with 128. destruct (Z.ltb_spec (Z.of_nat i) 128); [done|lia]. }
    apply (compared_part _ _ _ x y s' l'); [done..|by apply Hne|].
    intros E. rewrite E in E1, E2. simpl in *. rewrite E1 in Hs. rewrite E2 in Hl. simpl in Hs, Hl.
    by apply (Hne x y); [..|congruence].
Qed.

(** The child of an edge is the only one whose sequences start like [s]. *)
Lemma cmaps_head c s p : short c -> cmaps c s p -> head s = head (lab c).
Proof. intros [Hl _] [[-> _]|(s' & -> & _)]; [done|]. by destruct (lab c). Qed.
Lemma maps_edge n k c s p id :
  wf n -> children n !! k = Some c -> head (lab c) = Some id -> head s = Some id -> maps n s p <-> cmaps c s p.
Proof.
  intros Hw Hk Hc Hs. rewrite maps_iff. split.
  - intros (c' & Hin & H). destruct (wf_children n c' Hw Hin) as [_ Hsh].
    apply list_elem_of_lookup in Hin as [j Hj]. pose proof (cmaps_head c' s p Hsh H) as Hh.
    assert (j = k) as -> by (apply (same_head (children n) j k c' c id); [by apply wf_sorted|done|done|congruence|done]).
    congruence.
  - intros H. exists c. split; [by eapply list_elem_of_lookup_2|done].
Qed.

Lemma app_cmaps c s p : cmaps c (lab c ++ s) p <-> (s = [] /\ p = dat c) \/ maps c s p.
Proof.
  unfold cmaps. split.
  - intros [[E ->]|(s' & E & H)]; [left|right].
    + split; [|done]. rewrite <- (app_nil_r (lab c)) in E at 2. by apply app_inv_head in E.
    + apply app_inv_head in E. by subst.
  - intros [[-> ->]|H]; [left; by rewrite app_nil_r|right; by exists s].
Qed.

Lemma cmaps_length c s p : cmaps c s p -> (length (lab c) <= length s)%nat.
Proof. intros [[-> _]|(s' & -> & _)]; [done|]. rewrite length_app. lia. Qed.

(** ** Lookup *)

Lemma lookup_maps fuel : forall n s,
  wf n -> s <> [] -> (length s <= fuel)%nat ->
  exists o, lookup_loop cmp fuel n s = Ret o /\ forall p, o = Some p <-> maps n s p.
Proof.
  induction fuel as [|fuel IH]; intros n s Hw Hs Hf; [destruct s; simpl in Hf; [done|lia]|].
  destruct s as [|id s]; [done|]. cbn [lookup_loop].
  destruct (getEdge_spec n id Hw) as (r & -> & Hr). cbn [mbind outcome_bind]. destruct r as [[k c]|].
  - destruct Hr as (Hk & Hc & _). destruct (wf_children n c Hw) as [Hwc Hsh]; [by eapply list_elem_of_lookup_2|].
    pose proof (maps_edge n k c (id :: s)) as Hm.
    pose proof (query_spec c (id :: s) id Hsh eq_refl Hc) as Hq.
    set (q := query c (id :: s)) in *. clearbody q. destruct Hq as [E|x l' E|x s' E|pre a b s' l' E1 E2 Hab Hpre].
    + cbn. eexists. split; [done|]. intros p. rewrite (Hm p id Hw Hk Hc eq_refl). rewrite E.
      rewrite <- (app_nil_r (lab c)) at 1. rewrite app_cmaps. split; [intros [= <-]; by left|].
      intros [[_ ->]|H]; [done|]. by apply (maps_nonempty c [] p Hwc) in H.
    + cbn. eexists. split; [done|]. intros p. rewrite (Hm p id Hw Hk Hc eq_refl). split; [done|].
      intros H%cmaps_length. apply (f_equal length) in E. rewrite length_app in E. simpl in *. lia.
    + cbn. rewrite E, drop_app_length. destruct (IH c (x :: s') Hwc) as (o & -> & Ho); [done| |].
      { apply (f_equal length) in E. rewrite length_app in E. simpl in *. destruct Hsh as [Hl _].
        destruct (lab c); [done|]. simpl in E. lia. }
      exists o. split; [done|]. intros p. rewrite Ho, <- E, (Hm p id Hw Hk Hc eq_refl), E, app_cmaps.
      split; [by right|]. by intros [[? _]|?].
    + assert (0 < Z.of_nat (length pre)) by (destruct pre; [done|simpl; lia]).
      unfold Same, StringIsPrefix, LabelIsPrefix, DontMatch.
      repeat (rewrite (proj2 (Z.eqb_neq _ _)) by lia).
      eexists. split; [done|]. intros p. rewrite (Hm p id Hw Hk Hc eq_refl). split; [done|]. intros Hc0. exfalso.
      apply Hab. assert (exists s'', id :: s = lab c ++ s'') as (s'' & E).
      { destruct Hc0 as [[E _]|(s'' & E & _)]; [exists []; by rewrite app_nil_r|by exists s'']. }
      rewrite E1, E2, <- app_assoc in E. apply app_inv_head in E. by injection E.
  - eexists. split; [done|]. intros p. split; [done|]. intros H. exfalso.
    apply maps_iff in H as (c & Hc & H). destruct (wf_children n c Hw Hc) as [_ Hsh].
    apply (Hr c Hc). by rewrite <- (cmaps_head c _ p Hsh H).
Qed.

(** ** Changing one child *)

Lemma sorted_of_pairs (cs : list Node) :
  (forall i j c c', (i < j)%nat -> cs !! i = Some c -> cs !! j = Some c' -> below c c') -> StronglySorted below cs.
Proof.
  induction cs as [|c cs IH]; intros Hs; constructor.
  - apply IH. intros i j x y Hij Hx Hy. apply (Hs (S i) (S j)); [lia|done..].
  - apply Forall_forall. intros x [j Hj]%list_elem_of_lookup. apply (Hs O (S j)); [lia|done..].
Qed.

Lemma wf_replaced n k c c' :
  wf n -> children n !! k = Some c -> wf c' -> short c' -> head (lab c') = head (lab c) -> wf (child_replaced n k c').
Proof.
  intros Hw Hk Hc' Hsh Hh. pose proof (wf_sorted n Hw) as Hs. destruct n as [l d cs].
  inversion Hw as [? ? ? H1 _ H2]; subst. unfold child_replaced. simpl in *. constructor.
  - by apply Forall_insert.
  - apply sorted_of_pairs. intros i j x y Hij Hx Hy. pose proof (lookup_lt_Some _ _ _ Hk) as Hlt.
    assert (forall m z, <[k:=c']> cs !! m = Some z ->
      exists z0, cs !! m = Some z0 /\ head (lab z) = head (lab z0)) as Hget.
    { intros m z Hz. destruct (decide (m = k)) as [->|Hm].
      - rewrite list_lookup_insert_eq in Hz by done. injection Hz as <-. by exists c.
      - rewrite list_lookup_insert_ne in Hz by done. by exists z. }
    destruct (Hget i x Hx) as (x0 & Hx0 & Ex), (Hget j y Hy) as (y0 & Hy0 & Ey).
    destruct (sorted_heads cs i j x0 y0 Hs Hij Hx0 Hy0) as (a & b & ? & ? & ?).
    exists a, b. rewrite Ex, Ey. done.
  - by apply Forall_insert.
Qed.

Lemma maps_replaced n k c c' (Q : list A -> P -> Prop) s p :
  children n !! k = Some c -> (forall s p, cmaps c' s p <-> cmaps c s p \/ Q s p) ->
  maps (child_replaced n k c') s p <-> maps n s p \/ Q s p.
Proof.
  intros Hk HQ. rewrite !maps_iff. unfold child_replaced. cbn [children].
  pose proof (lookup_lt_Some _ _ _ Hk) as Hlt. split.
  - intros (x & [j Hj]%list_elem_of_lookup & Hx). destruct (decide (j = k)) as [->|Hn].
    + rewrite list_lookup_insert_eq in Hj by done. injection Hj as <-. apply HQ in Hx as [?|?]; [left|by right].
      exists c. split; [by eapply list_elem_of_lookup_2|done].
    + rewrite list_lookup_insert_ne in Hj by done. left. exists x. split; [by eapply list_elem_of_lookup_2|done].
  - intros [(x & [j Hj]%list_elem_of_lookup & Hx)|Hq].
    + destruct (decide (j = k)) as [->|Hn].
      * exists c'. split; [eapply (list_elem_of_lookup_2 _ k); by rewrite list_lookup_insert_eq|].
        apply HQ. left. congruence.
      * exists x. split; [eapply (list_elem_of_lookup_2 _ j); by rewrite list_lookup_insert_ne|done].
    + exists c'. split; [eapply (list_elem_of_lookup_2 _ k); by rewrite list_lookup_insert_eq|]. apply HQ. by right.
Qed.

Lemma addEdge_spec n c id :
  wf n -> wf c -> short c -> head (lab c) = Some id -> (forall x, x ∈ children n -> head (lab x) <> Some id) ->
  exists n', addEdge cmp n c = Ret n' /\ wf n' /\ lab n' = lab n /\ dat n' = dat n /\
    forall s p, maps n' s p <-> maps n s p \/ cmaps c s p.
Proof.
  intros Hw Hc Hsh Hid Hne. pose proof (wf_sorted n Hw) as Hs. destruct n as [l d cs].
  inversion Hw as [? ? ? H1 _ H2]; subst. simpl in *.
  destruct (short_front c Hsh) as (a & l' & Ha & Hf). assert (a = id) as -> by (rewrite Ha in Hid; by injection Hid).
  destruct (lower_bound_splits cs id H1 Hs) as (it & E & Hle & Hlo & Hhi).
  assert (exists it', (match cs with [] => Ret O | _ => a ← front c; lower_bound cmp cs a end) = Ret it' /\ it' = it) as (it' & E' & ->).
  { rewrite Hf. cbn [mbind outcome_bind]. rewrite E. destruct cs; eexists; split; try done. }
  unfold addEdge. cbn [children lab dat]. rewrite E'. cbn [mbind outcome_bind]. eexists. split; [done|].
  split; [|split; [done|split; [done|]]].
  - constructor.
    + rewrite Forall_app, Forall_cons. split_and!; [by apply Forall_take|done|by apply Forall_drop].
    + apply sorted_of_pairs. intros i j x y Hij Hx Hy.
      assert (forall m z, (take it cs ++ c :: drop it cs) !! m = Some z ->
        ((m < it)%nat /\ cs !! m = Some z) \/ (m = it /\ z = c) \/ ((it < m)%nat /\ cs !! (pred m) = Some z)) as Hget.
      { intros m z Hz. destruct (Nat.lt_total m it) as [Hm|[->|Hm]].
        - left. split; [done|]. rewrite lookup_app_l in Hz by (rewrite length_take; lia). by rewrite lookup_take_lt in Hz.
        - right. left. rewrite lookup_app_r in Hz by (rewrite length_take; lia).
          rewrite length_take, Nat.min_l, Nat.sub_diag in Hz by done. by injection Hz.
        - right. right. split; [done|]. rewrite lookup_app_r in Hz by (rewrite length_take; lia).
          rewrite length_take, Nat.min_l in Hz by done. destruct (m - it)%nat as [|q] eqn:Eq; [lia|]. simpl in Hz.
          rewrite lookup_drop in Hz. rewrite <- Hz. f_equal. lia. }
      assert (forall z, z ∈ cs -> exists b, head (lab z) = Some b) as Hhd.
      { intros z Hz. rewrite Forall_forall in H1. destruct (short_front z (H1 z Hz)) as (b & ? & -> & _). by exists b. }
      pose proof (Hget i x Hx) as Gx. pose proof (Hget j y Hy) as Gy.
      destruct Gx as [[? Gx]|[[-> ->]|[? Gx]]], Gy as [[? Gy]|[[-> ->]|[? Gy]]]; try lia.
      * apply (sorted_heads cs i j); [done|lia|done..].
      * destruct (Hhd x) as (b & Hb); [by eapply list_elem_of_lookup_2|]. exists b, id. split_and!; [done..|].
        by apply (Hlo i x b).
      * apply (sorted_heads cs i (pred j)); [done|lia|done..].
      * destruct (Hhd y) as (b & Hb); [by eapply list_elem_of_lookup_2|]. exists id, b. split_and!; [done..|].
        assert (cmp b id = false) as Hge by (apply (Hhi (pred j) y b); [lia|done..]).
        destruct (cmp id b) eqn:El; [done|]. exfalso. assert (b = id) as -> by (symmetry; by apply (ltb_total _ _ El)).
        by apply (Hne y); [eapply list_elem_of_lookup_2|].
      * apply (sorted_heads cs (pred i) (pred j)); [done|lia|done..].
    + rewrite Forall_app, Forall_cons. split_and!; [by apply Forall_take|done|by apply Forall_drop].
  - intros s p. rewrite !maps_iff. cbn [children]. split.
    + intros (x & Hx & H). rewrite elem_of_app, elem_of_cons in Hx.
      destruct Hx as [Hx|[->|Hx]]; [left|by right|left]; exists x; (split; [|done]).
      * rewrite <- (take_drop it cs). apply elem_of_app. by left.
      * rewrite <- (take_drop it cs). apply elem_of_app. by right.
    + intros [(x & Hx & H)|H].
      * exists x. split; [|done]. rewrite <- (take_drop it cs) in Hx. set_solver.
      * exists c. split; [set_solver|done].
Qed.

Lemma setEdge_spec n k c c' id :
  wf n -> children n !! k = Some c -> head (lab c) = Some id -> head (lab c') = Some id ->
  setEdge cmp n c' = Ret (child_replaced n k c').
Proof.
  intros Hw Hk Hc Hc'. unfold setEdge, front. destruct (lab c') as [|x l'] eqn:El; [done|]. injection Hc' as ->.
  cbn [mbind outcome_bind].
  pose proof (wf_sorted n Hw) as Hs. destruct n as [l d cs]. inversion Hw as [? ? ? H1 _ H2]; subst. simpl in *.
  destruct (lower_bound_splits cs id H1 Hs) as (it & -> & Hle & Hlo & Hhi). cbn [mbind outcome_bind].
  assert (it = k) as ->.
  { destruct (Nat.lt_total it k) as [Hlt|[?|Hlt]]; [|done|].
    - destruct (cs !! it) as [y|] eqn:Ey; [|apply lookup_ge_None in Ey; pose proof (lookup_lt_Some _ _ _ Hk); lia].
      destruct (sorted_heads cs it k y c Hs Hlt Ey Hk) as (a & b & Ha & Hb & E).
      rewrite Hb in Hc. injection Hc as ->. by rewrite (Hhi it y a) in E.
    - pose proof (Hlo k c id Hlt Hk Hc) as E. by rewrite ltb_irrefl in E. }
  pose proof (lookup_lt_Some _ _ _ Hk) as Hlt. unfold BUG_ON.
  rewrite (proj2 (Nat.eqb_neq _ _)) by lia. done.
Qed.

(** ** Splitting an edge *)

Definition middle (c : Node) (i : nat) (d : P) (extra : list Node) : Node :=
  mkNode (take i (lab c)) d (mkNode (drop i (lab c)) (dat c) (children c) :: extra).

Lemma splitEdge_spec n k c id i :
  wf n -> getEdge cmp n id = Ret (Some (k, c)) -> children n !! k = Some c -> head (lab c) = Some id ->
  (0 < i < length (lab c))%nat ->
  splitEdge cmp Payload n id (Z.of_nat i) = Ret (child_replaced n k (middle c i Payload []), middle c i Payload []).
Proof.
  intros Hw He Hk Hc Hi. destruct (wf_children n c Hw) as [_ [_ Hl]]; [by eapply list_elem_of_lookup_2|].
  unfold splitEdge. rewrite He. cbn [mbind outcome_bind]. rewrite wrap_small by (change (2 ^ 64) with 18446744073709551616; lia).
  unfold BUG_ON. rewrite (proj2 (Z.leb_gt _ _)) by lia. rewrite Z.geb_leb, (proj2 (Z.leb_gt _ _)) by lia.
  cbn [orb mbind outcome_bind]. rewrite Nat2Z.id.
  rewrite (setEdge_spec n k c _ id Hw Hk Hc); [done|]. simpl. destruct (lab c), i; simpl in *; [lia..|done].
Qed.

Section Middle.
Context (c : Node) (i : nat) (Hw : wf c) (Hsh : short c) (Hi : (0 < i < length (lab c))%nat).
#[local] Abbreviation rest := (mkNode (drop i (lab c)) (dat c) (children c)).

Lemma rest_ok : wf rest /\ short rest.
Proof.
  split; [destruct c; inversion Hw; subst; by constructor|]. destruct Hsh as [_ Hl]. split; simpl.
  - intros E. apply (f_equal length) in E. rewrite length_drop in E. simpl in E. lia.
  - rewrite length_drop. lia.
Qed.
Lemma middle_short d extra : short (middle c i d extra).
Proof.
  destruct Hsh as [_ Hl]. split; simpl; [|rewrite length_take; lia].
  intros E. apply (f_equal length) in E. rewrite length_take in E. simpl in E. lia.
Qed.
Lemma middle_wf d : wf (middle c i d []).
Proof. destruct rest_ok as [H1 H2]. constructor; [by apply Forall_singleton|by repeat constructor|by apply Forall_singleton]. Qed.
Lemma rest_cmaps s p : cmaps c (take i (lab c) ++ s) p <-> cmaps rest s p.
Proof.
  assert (forall q, maps c q p <-> maps rest q p) as Hm by (intros q; by rewrite !maps_iff).
  unfold cmaps. split.
  - intros [[E ->]|(s' & E & H)]; rewrite <- (take_drop i (lab c)) in E at 2.
    + apply app_inv_head in E. by left.
    + rewrite <- app_assoc in E. apply app_inv_head in E. right. exists s'. by rewrite <- Hm.
  - intros [[-> ->]|(s' & -> & H)]; [left|right].
    + split; [apply take_drop|done].
    + exists s'. rewrite Hm, app_assoc. cbn [lab]. by rewrite take_drop.
Qed.
Lemma middle_head d extra : head (lab (middle c i d extra)) = head (lab c).
Proof. simpl. destruct (lab c), i; simpl in *; try done; lia. Qed.
(** Splitting adds the sequence of the new node, with its payload. *)
Lemma middle_cmaps m (Q : list A -> P -> Prop) :
  lab m = take i (lab c) ->
  (forall s p, maps m s p <-> cmaps rest s p \/ Q s p) ->
  forall s p, cmaps m s p <-> cmaps c s p \/ (s = take i (lab c) /\ p = dat m) \/
                              (exists s', s = take i (lab c) ++ s' /\ Q s' p).
Proof.
  intros Hl HQ s p. split.
  - intros [[-> ->]|(s' & -> & H)]; rewrite Hl; [by right; left|].
    apply HQ in H as [H|H]; [left; by apply rest_cmaps|right; right; by exists s'].
  - intros [H|[[-> ->]|(s' & -> & H)]].
    + right. assert (exists s', s = take i (lab c) ++ s') as (s' & ->).
      { destruct H as [[-> _]|(s' & -> & _)]; [exists (drop i (lab c))|exists (drop i (lab c) ++ s')].
        - by rewrite take_drop.
        - by rewrite app_assoc, take_drop. }
      exists s'. rewrite Hl. split; [done|]. apply HQ. left. by apply rest_cmaps.
    + left. by rewrite Hl.
    + right. exists s'. rewrite Hl. split; [done|]. apply HQ. by right.
Qed.
Lemma middle_maps d s p : maps (middle c i d []) s p <-> cmaps rest s p.
Proof. rewrite maps_iff. simpl. set_solver. Qed.
End Middle.

(** ** Insertion *)

(** What [add_loop] does to the map: nothing when the sequence is there;
    otherwise it adds the sequence and possibly the sequence of a middle node,
    where it branches off one that is there, with the default payload. *)
Definition added (n : Node) (s : list A) (d : P) (b : bool) (n' : Node) : Prop :=
  if b then
    (forall p, ~ maps n s p) /\
    exists o : option (list A),
      (forall q, o = Some q -> q <> [] /\
         (exists x q' y t p, s = q ++ x :: q' /\ x <> y /\ maps n (q ++ y :: t) p) /\ forall p, ~ maps n q p) /\
      forall s' p, maps n' s' p <-> maps n s' p \/ (s' = s /\ p = d) \/ (o = Some s' /\ p = Payload)
  else n' = n /\ exists p, maps n s p.

Lemma no_cmaps_prefix c q x l : lab c = q ++ x :: l -> forall p, ~ cmaps c q p.
Proof. intros E p H%cmaps_length. rewrite E, length_app in H. simpl in H. lia. Qed.

Lemma added_deep n k c c' id s x d b :
  wf n -> children n !! k = Some c -> head (lab c) = Some id -> head (lab c ++ x :: s) = Some id ->
  wf c -> lab c' = lab c -> dat c' = dat c -> added c (x :: s) d b c' -> added n (lab c ++ x :: s) d b (child_replaced n k c').
Proof.
  intros Hw Hk Hc Hh Hwc El Ed. pose proof (maps_edge n k c) as Hm. destruct b; simpl.
  - intros (Hno & o & Ho & Hall). split.
    { intros p H. rewrite (Hm _ p id Hw Hk Hc Hh), app_cmaps in H. destruct H as [[? _]|H]; [done|by apply (Hno p)]. }
    exists (app (lab c) <$> o). split.
    + intros q Hq. destruct o as [q0|]; [|done]. injection Hq as <-. destruct (Ho q0 eq_refl) as (Hne & (y & q' & z & t & p' & E & Hyz & Hp') & Hq0).
      split; [by destruct (lab c)|].
      split; [exists y, q', z, t, p'; rewrite <- !app_assoc, E; do 2 (split; [done|]); apply maps_deep with (c := c);
              [by eapply list_elem_of_lookup_2|done]|].
      intros p H. destruct (wf_children n c Hw) as [_ Hsh]; [by eapply list_elem_of_lookup_2|].
      assert (head (lab c ++ q0) = Some id) as Hhq by (destruct (lab c); [by destruct Hsh|done]).
      rewrite (Hm _ p id Hw Hk Hc Hhq), app_cmaps in H. destruct H as [[? _]|H]; [done|by apply (Hq0 p)].
    + intros s' p.
      rewrite (maps_replaced n k c c' (fun s' p => exists t, s' = lab c ++ t /\ ((t = x :: s /\ p = d) \/ (o = Some t /\ p = Payload)))).
      * split; (intros [H|H]; [by left|right]).
        -- destruct H as (t & -> & [[-> ->]|[-> ->]]); [by left|by right].
        -- destruct H as [[-> ->]|[Hs ->]]; [exists (x :: s); auto|].
           destruct o as [t|]; [|done]. injection Hs as <-. exists t. auto.
      * done.
      * intros s0 p0. unfold cmaps. rewrite El, Ed. setoid_rewrite Hall. naive_solver.
  - intros [-> [p Hp]]. split.
    + unfold child_replaced. rewrite list_insert_id by done. by destruct n.
    + exists p. rewrite (Hm _ p id Hw Hk Hc Hh). apply app_cmaps. by right.
Qed.

Lemma twice_replaced n k (c c' : Node) : child_replaced (child_replaced n k c) k c' = child_replaced n k c'.
Proof. unfold child_replaced. cbn [children lab dat]. by rewrite list_insert_insert_eq. Qed.

(** The sequence is a proper prefix of the edge's label. *)
Lemma added_prefix n k c id s d x l :
  wf n -> children n !! k = Some c -> head (lab c) = Some id -> head s = Some id -> lab c = s ++ x :: l ->
  let n' := child_replaced n k (middle c (length s) d []) in wf n' /\ added n s d true n'.
Proof.
  intros Hw Hk Hc Hs El. destruct (wf_children n c Hw) as [Hwc Hsh]; [by eapply list_elem_of_lookup_2|].
  assert (0 < length s < length (lab c))%nat as Hi.
  { rewrite El, length_app. destruct s; simpl in *; [done|lia]. }
  assert (take (length s) (lab c) = s) as Et by (rewrite El; apply take_app_length).
  split; [apply wf_replaced with (c := c); [done..|by apply middle_wf|by apply middle_short|by apply middle_head]|].
  split.
  { intros p H. rewrite (maps_edge n k c s p id Hw Hk Hc Hs) in H. by apply (no_cmaps_prefix c s x l El p). }
  exists None. split; [done|]. intros s' p.
  rewrite (maps_replaced n k c _ (fun s' p => s' = s /\ p = d)); [naive_solver|done|]. intros s0 p0.
  rewrite (middle_cmaps c (length s) (middle c (length s) d []) (fun _ _ => False)).
  - rewrite Et. simpl. naive_solver.
  - done.
  - intros. rewrite middle_maps by done. naive_solver.
Qed.

(** The sequence and the label part after a common prefix. *)
Lemma added_part n k c id pre a b s l d :
  wf n -> children n !! k = Some c -> head (lab c) = Some id -> pre <> [] ->
  head (pre ++ a :: s) = Some id -> lab c = pre ++ b :: l -> a <> b -> (length (a :: s) < 128)%nat ->
  exists m, addEdge cmp (middle c (length pre) Payload []) (mkNode (a :: s) d []) = Ret m /\
    head (lab m) = Some id /\
    let n' := child_replaced n k m in wf n' /\ added n (pre ++ a :: s) d true n'.
Proof.
  intros Hw Hk Hc Hpre Hs El Hab Hlen. destruct (wf_children n c Hw) as [Hwc Hsh]; [by eapply list_elem_of_lookup_2|].
  assert (0 < length pre < length (lab c))%nat as Hi.
  { rewrite El, length_app. destruct pre; simpl in *; [done|lia]. }
  assert (take (length pre) (lab c) = pre) as Et by (rewrite El; apply take_app_length).
  assert (drop (length pre) (lab c) = b :: l) as Edr by (rewrite El; apply drop_app_length).
  set (m0 := middle c (length pre) Payload []).
  destruct (addEdge_spec m0 (mkNode (a :: s) d []) a) as (m & Em & Hwm & Elm & Edm & Hm).
  { by apply middle_wf. } { constructor; constructor. } { by split. } { done. }
  { intros y Hy. unfold m0 in Hy. simpl in Hy. apply list_elem_of_singleton in Hy as ->. simpl. rewrite Edr. by intros [= ->]. }
  exists m. split; [done|]. pose proof (middle_head c (length pre) Hi Payload []) as Hmh.
  assert (short m) as Hshm. { pose proof (middle_short c (length pre) Hsh Hi Payload []) as H. unfold short in *. by rewrite Elm. }
  split; [by rewrite Elm, <- Hc, <- Hmh|].
  split; [apply wf_replaced with (c := c); [done..|by rewrite Elm, <- Hmh]|].
  assert (forall p, ~ cmaps c (pre ++ a :: s) p) as Hno.
  { intros p H. assert (exists t, pre ++ a :: s = lab c ++ t) as (t & E).
    { destruct H as [[-> _]|(t & E & _)]; [exists []; by rewrite app_nil_r|by exists t]. }
    rewrite El, <- app_assoc in E. apply app_inv_head in E. by injection E. }
  split.
  { intros p H. rewrite (maps_edge n k c _ p id Hw Hk Hc Hs) in H. by apply (Hno p). }
  exists (Some pre). split.
  { intros q [= <-]. split; [done|].
    split; [exists a, s, b, l, (dat c); rewrite <- El; do 2 (split; [done|]); apply maps_here; by eapply list_elem_of_lookup_2|].
    intros p H.
    assert (head pre = Some id) as Hp by (by destruct pre).
    rewrite (maps_edge n k c _ p id Hw Hk Hc Hp) in H. by apply (no_cmaps_prefix c pre b l El p). }
  intros s' p.
  rewrite (maps_replaced n k c m (fun s' p => (s' = pre ++ a :: s /\ p = d) \/ (Some pre = Some s' /\ p = Payload))); [done|done|].
  intros s0 p0. rewrite (middle_cmaps c (length pre) m (fun t p => t = a :: s /\ p = d)).
  - rewrite Et, Edm. simpl. naive_solver.
  - done.
  - intros t q. rewrite Hm. unfold m0. rewrite middle_maps by done. unfold cmaps at 2. cbn [lab dat].
    split; intros [H|H]; auto. destruct H as [H|(? & -> & H)]; [auto|]. apply maps_iff in H as (? & H & _). simpl in H. set_solver.
Qed.

Lemma setEdge_again n k c c0 c' id :
  wf (child_replaced n k c0) -> children n !! k = Some c -> head (lab c0) = Some id -> head (lab c') = Some id ->
  setEdge cmp (child_replaced n k c0) c' = Ret (child_replaced n k c').
Proof.
  intros Hw Hk H0 H'. rewrite (setEdge_spec _ k c0 _ id Hw); [by rewrite twice_replaced|..|done|done].
  cbn [child_replaced children]. apply list_lookup_insert_eq. by eapply lookup_lt_Some.
Qed.

Lemma add_loop_spec fuel : forall n s d,
  wf n -> s <> [] -> (length s <= fuel)%nat -> (length s < 128)%nat ->
  exists b n', add_loop cmp Payload fuel n s d = Ret (b, n') /\ wf n' /\ lab n' = lab n /\ dat n' = dat n /\ added n s d b n'.
Proof.
  induction fuel as [|fuel IH]; intros n s d Hw Hs Hf Hlen; [destruct s; simpl in Hf; [done|lia]|].
  destruct s as [|id s]; [done|]. cbn [add_loop].
  destruct (getEdge_spec n id Hw) as (r & Er & Hr). rewrite Er. cbn [mbind outcome_bind]. destruct r as [[k c]|].
  - destruct Hr as (Hk & Hc & _). destruct (wf_children n c Hw) as [Hwc Hsh]; [by eapply list_elem_of_lookup_2|].
    pose proof (query_spec c (id :: s) id Hsh eq_refl Hc) as Hq.
    set (q := query c (id :: s)) in *. clearbody q. destruct Hq as [E|x l' E|x s' E|pre a b s' l' E1 E2 Hab Hpre].
    + cbn. exists false, n. split_and!; try done. split; [done|]. exists (dat c).
      rewrite (maps_edge n k c (id :: s) _ id Hw Hk Hc eq_refl). by left.
    + destruct (added_prefix n k c id (id :: s) d x l' Hw Hk Hc eq_refl E) as [Hw' Ha].
      destruct (added_prefix n k c id (id :: s) Payload x l' Hw Hk Hc eq_refl E) as [Hw0 _].
      cbn [Z.eqb StringIsPrefix Same Pos.eqb].
      rewrite (splitEdge_spec n k c id (length (id :: s)) Hw Er Hk Hc); [|rewrite E, length_app; simpl; lia].
      cbn [mbind outcome_bind]. rewrite (setEdge_again n k c _ _ id Hw0 Hk). all: swap 1 3. 1: by cbn [lab middle setData]; rewrite E. 1: by cbn [lab middle]; rewrite E.
      exists true, (child_replaced n k (middle c (length (id :: s)) d [])). by split.
    + cbn [Z.eqb LabelIsPrefix StringIsPrefix Same DontMatch Pos.eqb]. rewrite E, drop_app_length.
      destruct (IH c (x :: s') d Hwc) as (b & c' & -> & Hwc' & El & Ed & Ha); [done|..].
      { apply (f_equal length) in E. rewrite length_app in E. destruct Hsh as [Hl _]. destruct (lab c); simpl in *; [done|lia]. }
      { apply (f_equal length) in E. rewrite length_app in E. simpl in *. lia. }
      cbn [mbind outcome_bind]. exists b, (child_replaced n k c'). split_and!; try done.
      * apply wf_replaced with (c := c); try done; [by destruct Hsh; split; rewrite El|by rewrite El].
      * apply (added_deep n k c c' id); try done. by rewrite <- E.
    + assert (0 < length pre)%nat by (destruct pre; [done|simpl; lia]).
      unfold Same, StringIsPrefix, LabelIsPrefix, DontMatch.
      repeat (rewrite (proj2 (Z.eqb_neq _ _)) by lia).
      assert (length (a :: s') < 128)%nat as Hl'.
      { apply (f_equal length) in E1. rewrite length_app in E1. simpl in *. lia. }
      destruct (added_part n k c id pre a b s' l' d Hw Hk Hc Hpre) as (m & Em & Hm & Hw' & Ha); [by rewrite <- E1|done..|].
      rewrite (splitEdge_spec n k c id (length pre) Hw Er Hk Hc); [|rewrite E2, length_app; simpl; lia].
      cbn [mbind outcome_bind]. rewrite Nat2Z.id, E1, drop_app_length, Em. cbn [mbind outcome_bind].
      assert (0 < length pre < length (lab c))%nat by (rewrite E2, length_app; simpl; lia).
      rewrite (setEdge_again n k c _ _ id); try done.
      * exists true, (child_replaced n k m). by split.
      * apply wf_replaced with (c := c); [done..|by apply middle_wf|by apply middle_short|by apply middle_head].
      * by rewrite middle_head.
  - destruct (addEdge_spec n (mkNode (id :: s) d []) id) as (n' & E & Hw' & El & Ed & Hm).
    { done. } { constructor; constructor. } { by split. } { done. } { done. }
    rewrite E. cbn [mbind outcome_bind]. exists true, n'. split_and!; try done. split.
    + intros p H. apply maps_iff in H as (c & Hc & H). destruct (wf_children n c Hw Hc) as [_ Hsh].
      apply (Hr c Hc). by rewrite <- (cmaps_head c _ p Hsh H).
    + exists None. split; [done|]. intros s' p. rewrite Hm. unfold cmaps. cbn [lab dat].
      split; intros [H|H]; auto.
      * destruct H as [H|(t & -> & H)]; [auto|]. apply maps_iff in H as (? & H & _). simpl in H. set_solver.
      * destruct H as [H|[? _]]; [auto|done].
Qed.

(** ** The operations of the trie *)

Lemma lookup_spec root s : wf root -> s <> [] -> exists o, lookup cmp root s = Ret o /\ forall p, o = Some p <-> maps root s p.
Proof. intros Hw Hs. destruct s as [|a s]; [done|]. by apply lookup_maps. Qed.

Lemma lookup_eq root root' s s' :
  wf root -> wf root' -> s <> [] -> s' <> [] -> (forall p, maps root' s' p <-> maps root s p) ->
  lookup cmp root' s' = lookup cmp root s.
Proof.
  intros Hw Hw' Hs Hs' Hm. destruct (lookup_spec root s Hw Hs) as (o & -> & Ho).
  destruct (lookup_spec root' s' Hw' Hs') as (o' & -> & Ho'). f_equal.
  destruct o as [p|].
  - apply Ho', Hm, Ho. done.
  - destruct o' as [p|]; [|done]. symmetry. apply Ho, Hm, Ho'. done.
Qed.

(** Where two sequences of a trie part there is a sequence of the trie. *)
Lemma branch_present : forall q n x t y t' p p', wf n -> q <> [] -> x <> y ->
  maps n (q ++ x :: t) p -> maps n (q ++ y :: t') p' -> exists r, maps n q r.
Proof.
  intros q. induction q as [q IH] using (induction_ltof1 _ length). unfold ltof in IH.
  intros n x t y t' p p' Hw Hq Hxy Hm Hm'. destruct q as [|id q]; [done|].
  apply maps_iff in Hm as (c & Hc & Hm). apply list_elem_of_lookup in Hc as [k Hk].
  destruct (wf_children n c Hw) as [Hwc Hsh]; [by eapply list_elem_of_lookup_2|].
  pose proof (cmaps_head c _ p Hsh Hm) as Hh. symmetry in Hh. change (head (lab c) = Some id) in Hh.
  rewrite (maps_edge n k c _ p' id Hw Hk Hh) in Hm' by done.
  assert (forall s r, cmaps c s r -> exists u, s = lab c ++ u) as Hpre.
  { intros s r [[-> _]|(u & -> & _)]; [exists []; by rewrite app_nil_r|by exists u]. }
  destruct (Hpre _ _ Hm) as [u Eu], (Hpre _ _ Hm') as [u' Eu']. destruct Hsh as [Hne _].
  assert (exists v, id :: q = lab c ++ v) as [v Ev].
  { destruct (decide (length (lab c) <= length (id :: q))%nat) as [Hle|Hgt].
    - exists (drop (length (lab c)) (id :: q)). apply (f_equal (take (length (lab c)))) in Eu.
      rewrite take_app_length, take_app_le in Eu by done. rewrite <- Eu at 1. by rewrite take_drop.
    - exfalso. apply Hxy. apply (f_equal (fun l => l !! length (id :: q))) in Eu, Eu'.
      rewrite lookup_app_r, Nat.sub_diag, lookup_app_l in Eu by lia.
      rewrite lookup_app_r, Nat.sub_diag, lookup_app_l in Eu' by lia.
      rewrite <- Eu' in Eu. by injection Eu. }
  rewrite Ev in Hm, Hm' |- *. rewrite <- app_assoc, app_cmaps in Hm, Hm'.
  destruct v as [|z v]; [exists (dat c); rewrite app_nil_r; apply maps_here; by eapply list_elem_of_lookup_2|].
  destruct Hm as [[? _]|Hm]; [done|]. destruct Hm' as [[? _]|Hm']; [done|].
  destruct (IH (z :: v)) with (n := c) (x := x) (t := t) (y := y) (t' := t') (p := p) (p' := p') as [r Hr]; try done.
  { apply (f_equal length) in Ev. rewrite length_app in Ev. rewrite Ev. destruct (lab c); simpl in *; [done|lia]. }
  exists r. apply maps_deep with (c := c); [by eapply list_elem_of_lookup_2|done].
Qed.

(** The trie has no [q], where [s] parts from a sequence that it has. *)
Definition branching (root : Node) (s q : list A) : Prop :=
  q <> [] /\ lookup cmp root q = Ret None /\
  exists x t y t' p, s = q ++ x :: t /\ x <> y /\ lookup cmp root (q ++ y :: t') = Ret (Some p).

Lemma lookup_maps_iff root s p : wf root -> s <> [] -> lookup cmp root s = Ret (Some p) <-> maps root s p.
Proof. intros Hw Hs. destruct (lookup_spec root s Hw Hs) as (o & -> & <-). split; [by intros [= ->]|by intros ->]. Qed.
Lemma lookup_none root s : wf root -> s <> [] -> lookup cmp root s = Ret None <-> forall p, ~ maps root s p.
Proof.
  intros Hw Hs. destruct (lookup_spec root s Hw Hs) as (o & -> & Ho). split.
  - intros [= ->] p Hp. by apply Ho in Hp.
  - intros Hn. destruct o as [p|]; [|done]. by destruct (Hn p); apply Ho.
Qed.

(** Property C35.  What adding a non-empty sequence does to the map that a trie
    is.  If the trie has the sequence it is left alone.  Otherwise afterwards it
    has its payload, and every other sequence has what it had, but the one where
    an edge was split: if the new sequence parts from one that the trie has at a
    point that the trie has not, this proper prefix of both, which nobody added,
    is there afterwards with the default payload.  (So a trie is not quite the
    finite map of what was added: adding such a prefix later is refused.) *)
Theorem addSeq_is_insertion (root : Node) s d :
  wf root -> s <> [] -> (length s < 128)%nat ->
  exists b root', addSeq cmp Payload root s d = Ret (b, root') /\ wf root' /\
    (if b then
       lookup cmp root s = Ret None /\ lookup cmp root' s = Ret (Some d) /\
       forall s', s' <> s ->
         (branching root s s' -> lookup cmp root' s' = Ret (Some Payload)) /\
         (~ branching root s s' -> lookup cmp root' s' = lookup cmp root s')
     else root' = root /\ exists p, lookup cmp root s = Ret (Some p)).
Proof.
  intros Hw Hs Hl. assert (addSeq cmp Payload root s d = add_loop cmp Payload (length s) root s d) as -> by (by destruct s).
  destruct (add_loop_spec (length s) root s d Hw Hs) as (b & root' & -> & Hw' & _ & Ed & Ha); [done..|].
  exists b, root'. split; [done|]. split; [done|]. destruct b; simpl in Ha.
  2: { destruct Ha as [-> [p Hp]]. split; [done|]. exists p. by apply lookup_maps_iff. }
  destruct Ha as (Hno & o & Ho & Hall). split; [by apply lookup_none|].
  split; [apply lookup_maps_iff, Hall; auto|]. intros s' Hn. split.
  - intros (Hs' & Hnone & x & t & y & t' & p & -> & Hxy & Hp). apply lookup_maps_iff; [done..|].
    apply lookup_maps_iff in Hp; [|done|by destruct s']. rewrite lookup_none in Hnone by done.
    destruct (branch_present s' root' x t y t' d p Hw' Hs' Hxy) as [r Hr]; [apply Hall; auto..|].
    destruct (proj1 (Hall _ _) Hr) as [H|[[? _]|[-> ->]]]; [by apply Hnone in H|done|done].
  - intros Hb. destruct (decide (s' = [])) as [->|Hs']; [simpl; by rewrite Ed|].
    apply lookup_eq; [done..|]. intros p. rewrite Hall. split; [|auto].
    intros [H|[[? _]|[-> _]]]; [done|done|]. destruct Hb.
    destruct (Ho s' eq_refl) as (_ & (x & q' & y & t & p' & Es & Hxy & Hp') & Hno').
    split; [done|]. split; [by apply lookup_none|]. exists x, q', y, t, p'. do 2 (split; [done|]).
    apply lookup_maps_iff; [done|by destruct s'|done].
Qed.

Lemma make_wf : wf (make Payload).
Proof. repeat constructor. Qed.
Lemma make_lookup s : s <> [] -> lookup cmp (make Payload) s = Ret None.
Proof. by destruct s. Qed.
End Facts.


(** Two sequences are added whose edge is split, then the sequence where it was
    split, which is then not a new one. *)
Lemma addSeq_is_insertion_witness :
  let c := @mkNode Z Z [1; 2; 3; 4] 10 [] in
  let root := mkNode [] 0 [c] in
  wf Z.ltb root /\ addSeq Z.ltb 0 (make 0) [1; 2; 3; 4] 10 = Ret (true, root) /\
  exists root', addSeq Z.ltb 0 root [1; 2; 5] 20 = Ret (true, root') /\ wf Z.ltb root' /\
    addSeq Z.ltb 0 root' [1; 2] 30 = Ret (false, root') /\ lookup Z.ltb root' [1; 2] = Ret (Some 0) /\
    lookup Z.ltb root' [1; 2; 3; 4] = Ret (Some 10) /\ lookup Z.ltb root' [1; 2; 5] = Ret (Some 20).
Proof.
  assert (wf Z.ltb (mkNode [] 0 [@mkNode Z Z [1; 2; 3; 4] 10 []])) as Hw.
  { constructor; [|by repeat constructor|by repeat constructor]. apply Forall_singleton. split; [done|simpl; lia]. }
  split; [done|]. split; [done|].
  destruct (addSeq_is_insertion Z.ltb 0 _ [1; 2; 5] 20 Hw) as (b & root' & E & Hw' & _); [done|simpl; lia|].
  vm_compute in E. injection E as <- <-. eexists. split; [reflexivity|]. split; [exact Hw'|]. by repeat split.
Defined.

(** The length of a common part is cast to 8 bits.  At 253 the cast is the
    code of equal sequences: what was cached for one sequence is what a lookup
    of another finds. *)
Lemma lookup_confuses_long_sequences :
  let pre := repeat 7 253 in
  ('(b, root) ← addSeq Z.ltb 0 (make 0) (pre ++ [1]) 10;
   r ← lookup Z.ltb root (pre ++ [2]); Ret (b, r)) = Ret (true, Some 10).
Proof. vm_compute. reflexivity. Qed.
(** From 128 on it is negative: the edge is split past its end. *)
Lemma addSeq_stops_long_sequences :
  let pre := repeat 7 128 in
  ('(_, root) ← addSeq Z.ltb 0 (make 0) (pre ++ [1]) 10; addSeq Z.ltb 0 root (pre ++ [2]) 20) = Bug.
Proof. vm_compute. reflexivity. Qed.

(** ** What all payloads satisfy *)

Section Payloads.
Context {A P : Type} `{EqDecision A} (cmp : A -> A -> bool) (Payload : P) (Q : P -> Prop).
#[local] Abbreviation Node := (@Node A P).
Inductive all_data : Node -> Prop :=
| all_node l d cs : Q d -> Forall all_data cs -> all_data (mkNode l d cs).
Lemma all_data_iff n : all_data n <-> Q (dat n) /\ Forall all_data (children n).
Proof. split; [by intros []|]. destruct n. intros []. by constructor. Qed.
Lemma all_edge n id k c : all_data n -> getEdge cmp n id = Ret (Some (k, c)) -> all_data c.
Proof.
  intros [_ Hn]%all_data_iff. unfold getEdge. destruct (lower_bound _ _ _) as [it| |]; [|done..]. cbn [mbind outcome_bind].
  destruct (children n !! it) as [c'|] eqn:Ec; [|done]. destruct (front c'); [|done..]. cbn [mbind outcome_bind].
  case_decide; [|done]. intros [= <- <-]. by eapply Forall_lookup_1.
Qed.
Lemma all_addEdge n c n' : all_data n -> all_data c -> addEdge cmp n c = Ret n' -> all_data n'.
Proof.
  intros [Hd Hn]%all_data_iff Hc. unfold addEdge. destruct (match children n with [] => _ | _ => _ end) as [it| |]; [|done..].
  intros [= <-]. apply all_data_iff. split; [done|]. cbn. apply Forall_app. split; [by apply Forall_take|].
  constructor; [done|by apply Forall_drop].
Qed.
Lemma all_setEdge n c n' : all_data n -> all_data c -> setEdge cmp n c = Ret n' -> all_data n'.
Proof.
  intros [Hd Hn]%all_data_iff Hc. unfold setEdge. destruct (front c) as [a| |]; [|done..]. cbn [mbind outcome_bind].
  destruct (lower_bound _ _ _) as [it| |]; [|done..]. cbn [mbind outcome_bind]. destruct (BUG_ON _); [|done..].
  intros [= <-]. apply all_data_iff. split; [done|]. cbn. by apply Forall_insert.
Qed.
Lemma all_setData d n : Q d -> all_data n -> all_data (setData d n).
Proof. intros Hd [_ Hn]%all_data_iff. by apply all_data_iff. Qed.
Lemma all_replaced n k c : all_data n -> all_data c -> all_data (child_replaced n k c).
Proof. intros [Hd Hn]%all_data_iff Hc. apply all_data_iff. split; [done|]. by apply Forall_insert. Qed.
Lemma all_splitEdge n id i n' mid :
  Q Payload -> all_data n -> splitEdge cmp Payload n id i = Ret (n', mid) -> all_data n' /\ all_data mid.
Proof.
  intros HP Hn. unfold splitEdge. destruct (getEdge cmp n id) as [[[k c]|]| |] eqn:Ee; [|done..].
  cbn [mbind outcome_bind]. apply all_edge in Ee; [|done]. apply all_data_iff in Ee as [Hd Hc].
  destruct (BUG_ON _); [|done..]. cbn [mbind outcome_bind]. destruct (setEdge cmp n _) as [n1| |] eqn:Es; [|done..].
  intros [= <- <-]. match type of Es with setEdge _ _ ?m = _ => assert (all_data m) as Hm end.
  { constructor; [done|]. apply Forall_singleton. by constructor. }
  split; [exact (all_setEdge _ _ _ Hn Hm Es)|exact Hm].
Qed.
Lemma all_add_loop fuel : forall n s d b n',
  Q Payload -> Q d -> all_data n -> add_loop cmp Payload fuel n s d = Ret (b, n') -> all_data n'.
Proof.
  induction fuel as [|fuel IH]; intros n s d b n' HP Hd Hn; [done|]. destruct s as [|id s]; [done|]. cbn [add_loop].
  assert (all_data (mkNode (id :: s) d [])) as Hnew by by constructor.
  destruct (getEdge cmp n id) as [[[k c]|]| |] eqn:Ee; [| |done..]; cbn [mbind outcome_bind].
  2:{ destruct (addEdge cmp n _) as [n1| |] eqn:Ea; [|done..]. intros [= _ <-]. exact (all_addEdge _ _ _ Hn Hnew Ea). }
  pose proof (all_edge _ _ _ _ Hn Ee) as Hc. cbv zeta. destruct (_ =? Same); [by intros [= _ <-]|].
  destruct (_ =? StringIsPrefix).
  { destruct (splitEdge _ _ _ _ _) as [[n1 mid]| |] eqn:Es; [|done..]. cbn [mbind outcome_bind].
    apply all_splitEdge in Es as [H1 Hmid]; [|done..]. destruct (setEdge cmp n1 _) as [n2| |] eqn:E2; [|done..].
    intros [= _ <-]. exact (all_setEdge _ _ _ H1 (all_setData _ _ Hd Hmid) E2). }
  destruct (_ =? DontMatch); [done|]. destruct (_ =? LabelIsPrefix).
  { destruct (add_loop cmp Payload fuel c _ d) as [[b1 c1]| |] eqn:E1; [|done..]. intros [= _ <-].
    apply IH in E1; [|done..]. by apply all_replaced. }
  destruct (splitEdge _ _ _ _ _) as [[n1 mid]| |] eqn:Es; [|done..]. cbn [mbind outcome_bind].
  apply all_splitEdge in Es as [H1 Hmid]; [|done..].
  destruct (addEdge cmp mid _) as [mid1| |] eqn:Ea; [|done..]. cbn [mbind outcome_bind].
  apply all_addEdge in Ea; [|done|by constructor]. destruct (setEdge cmp n1 mid1) as [n2| |] eqn:E2; [|done..].
  intros [= _ <-]. exact (all_setEdge _ _ _ H1 Ea E2).
Qed.
Lemma all_addSeq n s d b n' :
  Q Payload -> Q d -> all_data n -> addSeq cmp Payload n s d = Ret (b, n') -> all_data n'.
Proof. intros HP Hd Hn. unfold addSeq. destruct s; [by intros [= _ <-]|]. by apply all_add_loop. Qed.
Lemma all_lookup_loop fuel : forall n s p, all_data n -> lookup_loop cmp fuel n s = Ret (Some p) -> Q p.
Proof.
  induction fuel as [|fuel IH]; intros n s p Hn; [done|]. destruct s as [|id s]; [done|]. cbn [lookup_loop].
  destruct (getEdge cmp n id) as [[[k c]|]| |] eqn:Ee; [|done..]. cbn [mbind outcome_bind]. cbv zeta.
  pose proof (all_edge _ _ _ _ Hn Ee) as Hc. destruct (_ =? Same).
  { intros [= <-]. by apply all_data_iff in Hc as [Hd _]. }
  destruct (_ =? StringIsPrefix); [done|]. destruct (_ =? DontMatch); [done|].
  destruct (_ =? LabelIsPrefix); [|done]. by apply IH.
Qed.
Lemma all_lookup n s p : all_data n -> lookup cmp n s = Ret (Some p) -> Q p.
Proof.
  intros Hn. unfold lookup. destruct s; [|by apply all_lookup_loop]. intros [= <-]. by apply all_data_iff in Hn as [Hd _].
Qed.
Lemma all_set_loop fuel : forall n s d n', Q d -> all_data n -> set_loop cmp fuel n s d = Ret (Some n') -> all_data n'.
Proof.
  induction fuel as [|fuel IH]; intros n s d n' Hd Hn; [done|]. destruct s as [|id s]; [done|]. cbn [set_loop].
  destruct (getEdge cmp n id) as [[[k c]|]| |] eqn:Ee; [|done..]. cbn [mbind outcome_bind]. cbv zeta.
  pose proof (all_edge _ _ _ _ Hn Ee) as Hc. destruct (_ =? Same).
  { intros [= <-]. apply all_replaced; [done|by apply all_setData]. }
  destruct (_ =? StringIsPrefix); [done|]. destruct (_ =? DontMatch); [done|].
  destruct (_ =? LabelIsPrefix); [|done]. destruct (set_loop cmp fuel c _ d) as [[c1|]| |] eqn:E1; [|done..].
  intros [= <-]. apply all_replaced; [done|by eapply IH].
Qed.
Lemma all_setSeqData n s d b n' : Q d -> all_data n -> setSeqData cmp n s d = Ret (b, n') -> all_data n'.
Proof.
  intros Hd Hn. unfold setSeqData. destruct s; [intros [= _ <-]; by apply all_setData|].
  destruct (set_loop _ _ _ _ _) as [[n1|]| |] eqn:E; [| |done..]; intros [= _ <-]; [by eapply all_set_loop|done].
Qed.
Lemma all_make : Q Payload -> all_data (make (A := A) Payload).
Proof. by constructor. Qed.
End Payloads.
End TrieFacts.
