(* ===== verification/Deps.v ===== *)
(** * Dependencies of an event (src/src/DepInfo.hpp). *)
From S2P Require Import Prelude Event VSet.

(** A [DepInfo] is a [VSet<Event>], ordered by [Event]'s [operator<], which
    does not relate events of different threads. *)
Module DepInfo.

Abbreviation t := (list Event).
Definition make : t := [].
Definition of_event (e : Event) : t := VSet.of_range EventOps.ltb [e].
(** [update] *)
Definition update (d dep : t) : outcome t :=
  r ← VSet.insert_set EventOps.ltb d dep; Ret r.2.
Definition clear (d : t) : t := [].
Definition contains (d : t) (e : Event) : bool := negb (VSet.count EventOps.ltb d e =? 0).
Definition empty (d : t) : bool := bool_decide (d = []).

(** [EventDeps] *)
Record EventDeps := mkDeps { addr : t; data : t; ctrl : t; addrPo : t; cas : t }.
Definition no_deps : EventDeps := mkDeps [] [] [] [] [].

(** Joining the dependencies on events of two threads can lose one of them: the
    binary search of [contains] relies on an order of all events. *)
Theorem update_loses_dependency :
  exists a b d, update (of_event a) (of_event b) = Ret d /\ length d = 2%nat /\
    a ∈ d /\ contains d a = false.
Proof.
  exists (mkEvent 1 1), (mkEvent 0 1). eexists. split; [reflexivity|].
  split; [done|]. split; [|reflexivity]. set_solver.
Qed.

End DepInfo.
