(* ===== verification/Views.v ===== *)
(** * Vector clocks (src/src/VectorClock.hpp, View.hpp, View.cpp, DepView.hpp,
    DepView.cpp).

    Thread identifiers that index a clock are non-negative in every caller;
    statements say so with [valid]. *)
From S2P Require Import Prelude Event VSet.

(** A position that can be an event of a graph. *)
Definition valid (e : Event) : Prop := 0 <= thread e /\ 0 <= index e.

(** ** View: the maximum index seen per thread

    The vector is [view_], an [llvm::IndexedMap<int>] with null value 0. *)
Module View.

Abbreviation t := (list Z).

(** [View()] *)
Definition make : t := [].
Definition size (v : t) : Z := Z.of_nat (length v).
Definition empty (v : t) : bool := size v =? 0.
Definition clear (v : t) : t := [].

Definition getMax (v : t) (tid : Z) : Z :=
  if tid <? size v then default 0 (v !! Z.to_nat tid) else 0.

(** [IndexedMap::grow(n)]: at least [n + 1] entries, new ones null. *)
Definition grow (v : t) (n : nat) : t := v ++ replicate (S n - length v) 0.

Definition setMax (v : t) (e : Event) : t :=
  let v := if thread e >=? size v then grow v (Z.to_nat (thread e)) else v in
  <[Z.to_nat (thread e) := index e]> v.

Definition contains (v : t) (e : Event) : bool := index e <=? getMax v (thread e).

Definition updateIdx (v : t) (e : Event) : t :=
  if getMax v (thread e) <? index e then setMax v e else v.

(** [update(const View &)] *)
Definition update (v w : t) : t :=
  if empty w then v
  else
    foldl (fun v i => if getMax v i <? getMax w i then setMax v (mkEvent i (getMax w i)) else v)
      v (seqZ 0 (Z.max (size v) (size w))).

(** *** Lemmas *)

Lemma getMax_lookup v tid : 0 <= tid -> getMax v tid = default 0 (v !! Z.to_nat tid).
Proof.
  intros Ht. unfold getMax, size. zcases; [done|].
  by rewrite (lookup_ge_None_2 v) by lia.
Qed.

Lemma grow_lookup v n i : default 0 (grow v n !! i) = default 0 (v !! i).
Proof.
  unfold grow. destruct (decide (i < length v)%nat).
  - by rewrite lookup_app_l.
  - rewrite lookup_app_r, (lookup_ge_None_2 v) by lia. simpl.
    destruct (replicate _ 0 !! _) eqn:E; [|done]. by apply lookup_replicate in E as [-> _].
Qed.

Lemma grow_length v n : length (grow v n) = Nat.max (length v) (S n).
Proof. unfold grow. rewrite length_app, length_replicate. lia. Qed.

Lemma setMax_length v e :
  0 <= thread e -> length (setMax v e) = Nat.max (length v) (S (Z.to_nat (thread e))).
Proof.
  intros Ht. unfold setMax, size. rewrite length_insert, Z.geb_leb. zcases.
  - by rewrite grow_length.
  - lia.
Qed.

Lemma getMax_setMax v e tid :
  0 <= thread e -> 0 <= tid ->
  getMax (setMax v e) tid = if tid =? thread e then index e else getMax v tid.
Proof.
  intros He Ht. rewrite !getMax_lookup by done. unfold setMax.
  set (w := if thread e >=? size v then _ else v).
  assert (Z.to_nat (thread e) < length w)%nat as Hlt.
  { unfold w, size. rewrite Z.geb_leb. zcases; [rewrite grow_length|]; lia. }
  assert (default 0 (w !! Z.to_nat tid) = default 0 (v !! Z.to_nat tid)) as Ew.
  { unfold w. case_match; [apply grow_lookup|done]. }
  zcases.
  - subst tid. by rewrite list_lookup_insert_eq.
  - by rewrite list_lookup_insert_ne by lia.
Qed.

Lemma getMax_updateIdx v e tid :
  0 <= thread e -> 0 <= tid ->
  getMax (updateIdx v e) tid =
    if tid =? thread e then Z.max (getMax v tid) (index e) else getMax v tid.
Proof.
  intros He Ht. unfold updateIdx. destruct (Z.ltb_spec (getMax v (thread e)) (index e)).
  - rewrite getMax_setMax by done. zcases; subst; lia.
  - zcases; subst; lia.
Qed.

Lemma getMax_ge v tid : size v <= tid -> getMax v tid = 0.
Proof. intros. unfold getMax. zcases; [lia|done]. Qed.

(** One step of the loop of [update]. *)
Lemma update_loop w l : forall v tid,
  0 <= tid -> Forall (fun i => 0 <= i) l ->
  getMax (foldl (fun v i => if getMax v i <? getMax w i
                            then setMax v (mkEvent i (getMax w i)) else v) v l) tid =
  if decide (tid ∈ l) then Z.max (getMax v tid) (getMax w tid) else getMax v tid.
Proof.
  induction l as [|i l IH]; intros v tid Ht Hl; cbn [foldl].
  { by rewrite decide_False by set_solver. }
  inversion Hl; subst. rewrite IH by done. set (v' := if _ <? _ then _ else v).
  assert (getMax v' tid = if tid =? i then Z.max (getMax v tid) (getMax w tid) else getMax v tid) as ->.
  { unfold v'. destruct (Z.ltb_spec (getMax v i) (getMax w i)).
    - rewrite getMax_setMax by done. simpl. zcases; subst; lia.
    - zcases; subst; lia. }
  destruct (Z.eqb_spec tid i); repeat case_decide; set_unfold; try lia; naive_solver.
Qed.

(** No entry is negative: what [setMax] and [updateIdx] keep on events. *)
Definition ok (v : t) : Prop := forall tid, 0 <= tid -> 0 <= getMax v tid.

Lemma view_ok_make : ok make.
Proof. intros tid _. unfold getMax. by case_match. Qed.

(** The update is the pointwise maximum. *)
Lemma getMax_update v w tid :
  ok v -> 0 <= tid -> getMax (update v w) tid = Z.max (getMax v tid) (getMax w tid).
Proof.
  intros Hv Ht. unfold update, empty. destruct (Z.eqb_spec (size w) 0) as [Hw|Hw].
  - rewrite (getMax_ge w) by lia. specialize (Hv tid Ht). lia.
  - rewrite update_loop; [|done|apply Forall_seqZ; lia].
    case_decide as Hin; rewrite elem_of_seqZ in Hin; [done|]. by rewrite !getMax_ge by lia.
Qed.

Lemma ok_update v w : ok v -> ok (update v w).
Proof. intros Hv tid Ht. rewrite getMax_update by done. specialize (Hv tid Ht). lia. Qed.

Lemma ok_updateIdx v e : ok v -> 0 <= thread e -> ok (updateIdx v e).
Proof.
  intros Hv He tid Ht. rewrite getMax_updateIdx by done. specialize (Hv tid Ht). case_match; lia.
Qed.

Lemma ok_setMax v e : ok v -> valid e -> ok (setMax v e).
Proof.
  intros Hv [He Hi] tid Ht. rewrite getMax_setMax by done. specialize (Hv tid Ht). by case_match.
Qed.

Lemma view_contains_spec v e : contains v e = true <-> index e <= getMax v (thread e).
Proof. apply Z.leb_le. Qed.

Lemma contains_update v w e :
  ok v -> valid e ->
  contains (update v w) e = true <-> contains v e = true \/ contains w e = true.
Proof. intros Hv [Ht _]. rewrite !view_contains_spec, getMax_update by done. lia. Qed.

Lemma contains_updateIdx v e e' :
  valid e -> valid e' ->
  contains (updateIdx v e) e' = true <->
  contains v e' = true \/ (thread e' = thread e /\ index e' <= index e).
Proof.
  intros [He _] [He' _]. rewrite !view_contains_spec, getMax_updateIdx by done.
  destruct (Z.eqb_spec (thread e') (thread e)); lia.
Qed.

(** *** Views up to what they contain *)

(** Trailing entries that were never raised do not matter. *)
Definition view_eq (v w : t) : Prop := forall tid, 0 <= tid -> getMax v tid = getMax w tid.

#[export] Instance view_equivalence : Equivalence view_eq.
Proof.
  split.
  - by intros v tid _.
  - intros v w H tid Ht. symmetry. by apply H.
  - intros u v w H1 H2 tid Ht. by rewrite (H1 tid Ht), (H2 tid Ht).
Qed.

#[export] Instance ok_proper : Proper (view_eq ==> iff) ok.
Proof. intros v w H. split; intros Hok tid Ht; [rewrite <- H|rewrite H]; auto. Qed.

Lemma contains_proper v w e : view_eq v w -> valid e -> contains v e = contains w e.
Proof. intros H [He _]. unfold contains. by rewrite (H _ He). Qed.

Lemma update_proper v v' w w' : ok v -> view_eq v v' -> view_eq w w' -> view_eq (update v w) (update v' w').
Proof.
  intros Hv H1 H2 tid Ht. rewrite !getMax_update by (done || by rewrite <- H1).
  by rewrite (H1 tid Ht), (H2 tid Ht).
Qed.

Lemma update_idem v : ok v -> view_eq (update v v) v.
Proof. intros Hv tid Ht. rewrite getMax_update by done. lia. Qed.
Lemma update_comm v w : ok v -> ok w -> view_eq (update v w) (update w v).
Proof. intros Hv Hw tid Ht. rewrite !getMax_update by done. lia. Qed.
Lemma update_assoc u v w : ok u -> ok v -> view_eq (update u (update v w)) (update (update u v) w).
Proof. intros Hu Hv tid Ht. rewrite !getMax_update by eauto using ok_update. lia. Qed.

(** *** Correctness *)

(** [update] is the least upper bound of two views: it contains exactly the
    events of either, and it is idempotent, commutative and associative up to
    the equality of views. *)
Theorem update_is_join u v w :
  ok u -> ok v -> ok w ->
  (forall e, valid e -> contains (update v w) e = true <-> contains v e = true \/ contains w e = true) /\
  view_eq (update v v) v /\
  view_eq (update v w) (update w v) /\
  view_eq (update u (update v w)) (update (update u v) w) /\
  ok (update v w).
Proof.
  intros. split; [intros; by apply contains_update|].
  split; [by apply update_idem|]. split; [by apply update_comm|].
  split; [by apply update_assoc|by apply ok_update].
Qed.

Lemma ok_list l : Forall (fun x => 0 <= x) l -> ok l.
Proof.
  intros Hl tid Ht. rewrite getMax_lookup by done.
  destruct (l !! Z.to_nat tid) eqn:E; [|done]. simpl. by eapply Forall_lookup_1.
Qed.

Lemma update_is_join_witness :
  (forall e, valid e -> contains (update [0; 2] [1]) e = true <->
     contains [0; 2] e = true \/ contains [1] e = true) /\
  view_eq (update [0; 2] [0; 2]) [0; 2] /\
  view_eq (update [0; 2] [1]) (update [1] [0; 2]) /\
  view_eq (update [3] (update [0; 2] [1])) (update (update [3] [0; 2]) [1]) /\
  ok (update [0; 2] [1]).
Proof. apply (update_is_join [3] [0; 2] [1]); apply ok_list; repeat constructor; lia. Defined.

End View.

(** ** The interface of a vector clock

    What the graph and the drivers rely on: a clock contains a set of
    positions, [update] joins two clocks of the same kind and [updateIdx]
    includes an event.  A clock may fail ([BUG]) outside its invariant. *)
Class VectorClock (C : Type) := {
  vc_make : C;
  vc_ok : C -> Prop;
  vc_size : C -> Z;
  vc_getMax : C -> Z -> Z;
  vc_contains : C -> Event -> bool;
  vc_updateIdx : C -> Event -> outcome C;
  vc_update : C -> C -> outcome C;
  vc_make_ok : vc_ok vc_make;
  vc_contains_max c e : vc_contains c e = true -> index e <= vc_getMax c (thread e);
  vc_updateIdx_spec c e :
    vc_ok c -> valid e ->
    exists c', vc_updateIdx c e = Ret c' /\ vc_ok c' /\ vc_contains c' e = true /\
      forall e', valid e' -> vc_contains c e' = true -> vc_contains c' e' = true;
  vc_update_spec c d :
    vc_ok c -> vc_ok d ->
    exists c', vc_update c d = Ret c' /\ vc_ok c' /\
      forall e, valid e ->
        vc_contains c' e = true <-> vc_contains c e = true \/ vc_contains d e = true;
}.

#[export] Program Instance View_VectorClock : VectorClock View.t := {|
  vc_make := View.make;
  vc_ok := View.ok;
  vc_size := View.size;
  vc_getMax := View.getMax;
  vc_contains := View.contains;
  vc_updateIdx v e := Ret (View.updateIdx v e);
  vc_update v w := Ret (View.update v w);
  vc_make_ok := View.view_ok_make;
|}.
Next Obligation. intros v e. apply View.view_contains_spec. Qed.
Next Obligation.
  intros v e Hv He. eexists. split; [done|]. split; [by apply View.ok_updateIdx; [|apply He]|].
  split.
  - apply View.contains_updateIdx; [done..|]. right. lia.
  - intros e' He' H. apply View.contains_updateIdx; [done..|by left].
Qed.
Next Obligation.
  intros v w Hv Hw. eexists. split; [done|]. split; [by apply View.ok_update|].
  intros e He. by apply View.contains_update.
Qed.

(** Joining a list of clocks, as the drivers do over reads-from edges. *)
Definition vc_join {C} `{VectorClock C} (c : C) (ds : list C) : outcome C := mfold vc_update ds c.

Lemma vc_join_spec {C} `{VectorClock C} c ds :
  vc_ok c -> Forall vc_ok ds ->
  exists c', vc_join c ds = Ret c' /\ vc_ok c' /\
    forall e, valid e ->
      vc_contains c' e = true <->
      vc_contains c e = true \/ exists d, d ∈ ds /\ vc_contains d e = true.
Proof.
  revert c. induction ds as [|d ds IH]; intros c Hc Hds; unfold vc_join in *; simpl.
  { exists c. split; [done|]. split; [done|]. intros e _. set_solver. }
  inversion Hds; subst. destruct (vc_update_spec c d) as (c' & -> & Hc' & Hu1); [done..|]. simpl.
  destruct (IH c') as (c'' & E & Hc'' & Hu2); [done..|]. exists c''. split; [done|]. split; [done|].
  intros e He. rewrite Hu2, Hu1 by done. set_solver.
Qed.

(** ** DepView: a clock with holes *)

(** [view_] and [holes_] (a [HoleView], indexed by thread). *)
Record DepViewT := mkDepView { dv_view : View.t; dv_holes : list (list Z) }.

Module DepView.

Abbreviation Holes := (list Z).
Abbreviation HoleView := (list (list Z)).

Definition make : DepViewT := mkDepView View.make [].
Definition size (d : DepViewT) : Z := View.size (dv_view d).
Definition empty (d : DepViewT) : bool := size d =? 0.
Definition clear (d : DepViewT) : DepViewT := mkDepView [] [].

Definition hsize (h : HoleView) : Z := Z.of_nat (length h).

(** [HoleView::operator[] const]: [BUG] past the end. *)
Definition holes_get (h : HoleView) (tid : Z) : outcome Holes :=
  if tid <? hsize h then vec_get h tid else Bug.

(** The growing [HoleView::operator[]]. *)
Definition holes_grow (h : HoleView) (tid : Z) : HoleView :=
  h ++ replicate (S (Z.to_nat tid) - length h) [].

(** [holes_[tid] = f(holes_[tid])] through the growing operator. *)
Definition holes_alter (h : HoleView) (tid : Z) (f : Holes -> Holes) : HoleView :=
  alter f (Z.to_nat tid) (holes_grow h tid).

Definition getMax (d : DepViewT) (tid : Z) : Z := View.getMax (dv_view d) tid.

(** [e.thread < holes_.size() && !holes_[e.thread].count(e.index)] *)
Definition no_hole (d : DepViewT) (e : Event) : bool :=
  match holes_get (dv_holes d) (thread e) with
  | Ret hs => VSet.count Z.ltb hs (index e) =? 0
  | _ => false
  end.

Definition contains (d : DepViewT) (e : Event) : bool :=
  (index e <=? getMax d (thread e)) && ((index e =? 0) || no_hole d e).

(** [hasHole]: the source's test carries a negation. *)
Definition hasHole (d : DepViewT) (e : Event) : bool := no_hole d e.

Definition addHole (d : DepViewT) (e : Event) : outcome DepViewT :=
  _ ← BUG_ON (index e >? getMax d (thread e));
  Ret (mkDepView (dv_view d)
         (holes_alter (dv_holes d) (thread e) (fun hs => VSet.insert1 Z.ltb hs (index e)))).

Definition addHolesInRange (d : DepViewT) (start : Event) (endIdx : Z) : outcome DepViewT :=
  mfold (fun d i => addHole d (mkEvent (thread start) i)) (seqZ (index start) (endIdx - index start)) d.

Definition removeHole (d : DepViewT) (e : Event) : DepViewT :=
  mkDepView (dv_view d)
    (holes_alter (dv_holes d) (thread e) (fun hs => (VSet.erase_elem Z.ltb hs (index e)).2)).

Definition removeAllHoles (d : DepViewT) (tid : Z) : DepViewT :=
  mkDepView (dv_view d) (holes_alter (dv_holes d) tid (fun _ => [])).

Definition removeHolesInRange (d : DepViewT) (start : Event) (endIdx : Z) : DepViewT :=
  foldl (fun d i => removeHole d (mkEvent (thread start) i)) d
    (seqZ (index start) (endIdx - index start)).

Definition updateIdx (d : DepViewT) (e : Event) : outcome DepViewT :=
  let old := View.getMax (dv_view d) (thread e) in
  if index e >? old then
    let d := mkDepView (View.setMax (dv_view d) e) (holes_grow (dv_holes d) (thread e)) in
    addHolesInRange d (mkEvent (thread e) (old + 1)) (index e)
  else Ret (removeHole d e).

Definition setMax (d : DepViewT) (e : Event) : outcome DepViewT :=
  let d := if thread e >=? View.size (dv_view d)
           then mkDepView (dv_view d) (holes_grow (dv_holes d) (thread e)) else d in
  let old := View.getMax (dv_view d) (thread e) in
  let d := mkDepView (View.setMax (dv_view d) e) (dv_holes d) in
  if old <? index e then addHolesInRange d (mkEvent (thread e) (old + 1)) (index e)
  else Ret (removeHolesInRange d e (old + 1)).

(** [[std::lower_bound(hs, x), hs.end())] *)
Definition holes_from (hs : Holes) (x : Z) : Holes := drop (VSet.lower_bound Z.ltb hs x) hs.

(** The body of the loop of [update(const DepView &)], for thread [i]. *)
Definition update_thread (w : DepViewT) (d : DepViewT) (i : Z) : outcome DepViewT :=
  let h := holes_grow (dv_holes d) i in
  hd ← vec_get h i;
  hw ← holes_get (dv_holes w) i;
  let isec := VSet.intersectWith Z.ltb hd hw in
  if getMax d i <? getMax w i then
    let isec := VSet.insert_range Z.ltb isec (holes_from hw (getMax d i + 1)) in
    Ret (mkDepView (View.setMax (dv_view d) (mkEvent i (getMax w i)))
           (holes_alter h i (fun _ => isec)))
  else
    let isec := VSet.insert_range Z.ltb isec (holes_from hd (getMax w i + 1)) in
    Ret (mkDepView (dv_view d) (holes_alter h i (fun _ => isec))).

Definition update (d w : DepViewT) : outcome DepViewT :=
  if empty w then Ret d
  else mfold (update_thread w) (seqZ 0 (size w)) d.

Example depview_ex :
  (d ← updateIdx make (mkEvent 1 3); w ← updateIdx make (mkEvent 1 2);
   r ← update d w;
   Ret (map (fun i => contains r (mkEvent 1 i)) [0; 1; 2; 3; 4])) =
  Ret [true; false; true; true; false].
Proof. reflexivity. Qed.

(** *** The holes of a thread *)

Definition hs (d : DepViewT) (tid : Z) : Holes := default [] (dv_holes d !! Z.to_nat tid).

(** The invariant: the view is a view, every thread of the view has a hole set,
    and the holes of a thread lie strictly between 0 and its maximum. *)
Record ok (d : DepViewT) : Prop := {
  ok_view : View.ok (dv_view d);
  ok_len : (length (dv_view d) <= length (dv_holes d))%nat;
  ok_sorted : forall tid, 0 <= tid -> VSet.sorted Z.ltb (hs d tid);
  ok_holes : forall tid h, 0 <= tid -> h ∈ hs d tid -> 1 <= h < getMax d tid;
}.

Lemma dv_ok_make : ok make.
Proof.
  split; [apply View.view_ok_make|done|intros; apply VSet.sorted_nil|].
  intros tid h _. unfold hs. simpl. set_solver.
Qed.

Lemma grow_hs h tid t : default [] (holes_grow h tid !! t) = default [] (h !! t).
Proof.
  unfold holes_grow. destruct (decide (t < length h)%nat).
  - by rewrite lookup_app_l.
  - rewrite lookup_app_r, (lookup_ge_None_2 h) by lia. simpl.
    destruct (replicate _ [] !! _) eqn:E; [|done]. by apply lookup_replicate in E as [-> _].
Qed.

Lemma grow_len h tid : length (holes_grow h tid) = Nat.max (length h) (S (Z.to_nat tid)).
Proof. unfold holes_grow. rewrite length_app, length_replicate. lia. Qed.

Lemma alter_len h tid f : length (holes_alter h tid f) = Nat.max (length h) (S (Z.to_nat tid)).
Proof. unfold holes_alter. by rewrite length_alter, grow_len. Qed.

Lemma alter_hs h tid f t :
  0 <= tid -> 0 <= t ->
  default [] (holes_alter h tid f !! Z.to_nat t) =
  if t =? tid then f (default [] (h !! Z.to_nat tid)) else default [] (h !! Z.to_nat t).
Proof.
  intros Htid Ht. unfold holes_alter. destruct (Z.eqb_spec t tid) as [->|].
  - rewrite list_lookup_alter_eq, <- (grow_hs h tid).
    destruct (lookup_lt_is_Some_2 (holes_grow h tid) (Z.to_nat tid)) as [x Hx];
      [rewrite grow_len; lia|]. by rewrite Hx.
  - rewrite list_lookup_alter_ne by lia. apply grow_hs.
Qed.

Lemma no_hole_spec d e :
  valid e -> VSet.sorted Z.ltb (hs d (thread e)) ->
  no_hole d e = true <-> (thread e < hsize (dv_holes d) /\ index e ∉ hs d (thread e)).
Proof.
  intros [Ht _] Hs. unfold no_hole, holes_get, hsize in *.
  destruct (Z.ltb_spec (thread e) (Z.of_nat (length (dv_holes d)))); [|split; [done|lia]].
  unfold vec_get. destruct (Z.ltb_spec (thread e) 0); [lia|].
  unfold hs in *. destruct (lookup_lt_is_Some_2 (dv_holes d) (Z.to_nat (thread e))) as [x Hx]; [lia|].
  rewrite Hx in *. simpl in *. rewrite VSet.count_spec, Z.eqb_eq by (apply _ || done).
  case_decide; naive_solver.
Qed.

Lemma dv_contains_spec d e :
  ok d -> valid e ->
  contains d e = true <->
  index e = 0 \/ (index e <= getMax d (thread e) /\ index e ∉ hs d (thread e)).
Proof.
  intros Hd He. destruct He as [Ht Hi]. pose proof (ok_view d Hd _ Ht) as Hmax. unfold getMax in *.
  unfold contains. rewrite andb_true_iff, orb_true_iff, Z.leb_le, Z.eqb_eq,
    no_hole_spec by (done || by apply ok_sorted).
  unfold hsize, getMax. destruct (Z.eq_dec (index e) 0) as [E|E]; [rewrite E; tauto|].
  assert (index e <= View.getMax (dv_view d) (thread e) -> thread e < Z.of_nat (length (dv_holes d))).
  { intros Hle. destruct (Z.lt_ge_cases (thread e) (View.size (dv_view d))) as [Hlt|Hge].
    - pose proof (ok_len d Hd). unfold View.size in *. lia.
    - rewrite View.getMax_ge in Hle by done. lia. }
  tauto.
Qed.

(** *** Adding and removing ranges of holes *)

Lemma addHole_ret d tid i :
  i <= getMax d tid ->
  addHole d (mkEvent tid i) =
  Ret (mkDepView (dv_view d) (holes_alter (dv_holes d) tid (fun hs => VSet.insert1 Z.ltb hs i))).
Proof.
  intros Hi. unfold addHole, BUG_ON. simpl. rewrite Z.gtb_ltb.
  by destruct (Z.ltb_spec (getMax d tid) i); [lia|].
Qed.

Lemma addHole_range_spec tid l : forall d,
  0 <= tid -> VSet.sorted Z.ltb (hs d tid) -> Forall (fun i => i <= getMax d tid) l ->
  exists d', mfold (fun d i => addHole d (mkEvent tid i)) l d = Ret d' /\
    dv_view d' = dv_view d /\ (length (dv_holes d) <= length (dv_holes d'))%nat /\
    (forall t, 0 <= t -> t <> tid -> hs d' t = hs d t) /\
    VSet.sorted Z.ltb (hs d' tid) /\ (forall h, h ∈ hs d' tid <-> h ∈ hs d tid \/ h ∈ l).
Proof.
  induction l as [|i l IH]; intros d Ht Hs Hl; cbn [mfold].
  { exists d. repeat split; (done || set_solver). }
  inversion Hl as [|?? Hi Hl']; subst. rewrite addHole_ret by done.
  cbn [mbind outcome_bind]. set (d1 := mkDepView _ _) at 1.
  assert (Hd1 : forall t, 0 <= t ->
            hs d1 t = if t =? tid then VSet.insert1 Z.ltb (hs d tid) i else hs d t).
  { intros t Ht'. unfold hs, d1. simpl. by rewrite alter_hs. }
  pose proof (Hd1 tid Ht) as Hd1t. rewrite Z.eqb_refl in Hd1t.
  destruct (IH d1) as (d' & -> & Hv & Hlen & Hoth & Hs' & Hin); [done| | |].
  - rewrite Hd1t. apply VSet.insert1_sorted; [apply _|done].
  - exact Hl'.
  - exists d'. split; [done|]. split; [done|].
    split; [etransitivity; [|exact Hlen]; unfold d1; simpl; rewrite alter_len; lia|].
    split; [intros t Ht' Hne; rewrite Hoth, Hd1 by done; by destruct (Z.eqb_spec t tid)|].
    split; [done|]. intros h. rewrite Hin, Hd1t, VSet.insert1_elem by (apply _ || done). set_solver.
Qed.

Lemma removeHole_range_spec tid l : forall d,
  0 <= tid -> VSet.sorted Z.ltb (hs d tid) ->
  let d' := foldl (fun d i => removeHole d (mkEvent tid i)) d l in
  dv_view d' = dv_view d /\ (length (dv_holes d) <= length (dv_holes d'))%nat /\
  (forall t, 0 <= t -> t <> tid -> hs d' t = hs d t) /\
  VSet.sorted Z.ltb (hs d' tid) /\ (forall h, h ∈ hs d' tid <-> h ∈ hs d tid /\ h ∉ l).
Proof.
  induction l as [|i l IH]; intros d Ht Hs; cbn [foldl].
  { repeat split; (done || set_solver). }
  set (d1 := removeHole d (mkEvent tid i)).
  assert (Hd1 : forall t, 0 <= t ->
            hs d1 t = if t =? tid then (VSet.erase_elem Z.ltb (hs d tid) i).2 else hs d t).
  { intros t Ht'. unfold hs, d1, removeHole. simpl. by rewrite alter_hs. }
  pose proof (Hd1 tid Ht) as Hd1t. rewrite Z.eqb_refl in Hd1t.
  pose proof (VSet.erase_elem_spec Z.ltb (hs d tid) i Hs) as (Hes & Hein & _).
  destruct (IH d1 Ht) as (Hv & Hlen & Hoth & Hs' & Hin); [by rewrite Hd1t|].
  split; [done|]. split; [etransitivity; [|exact Hlen]; unfold d1; simpl; rewrite alter_len; lia|].
  split; [intros t Ht' Hne; rewrite Hoth, Hd1 by done; by destruct (Z.eqb_spec t tid)|].
  split; [done|]. intros h. rewrite Hin, Hd1t, Hein. set_solver.
Qed.

(** Raising the maximum of a thread leaves holes between the old maximum and
    the new event. *)
Lemma raise_spec d d0 e :
  ok d -> valid e -> getMax d (thread e) < index e ->
  dv_view d0 = View.setMax (dv_view d) e -> (forall t, hs d0 t = hs d t) ->
  (length (dv_view d0) <= length (dv_holes d0))%nat ->
  exists d', addHolesInRange d0 (mkEvent (thread e) (getMax d (thread e) + 1)) (index e) = Ret d' /\
    ok d' /\ getMax d' (thread e) = index e /\
    (forall t, 0 <= t -> t <> thread e -> getMax d' t = getMax d t) /\
    (forall e', valid e' -> contains d' e' = true <-> contains d e' = true \/ e' = e).
Proof.
  intros Hd He Hlt Hv0 Hd0 Hl0. destruct He as [Ht Hi].
  assert (Hm0 : forall t, 0 <= t -> getMax d0 t = if t =? thread e then index e else getMax d t)
    by (intros t Ht'; unfold getMax; by rewrite Hv0, View.getMax_setMax).
  pose proof (Hm0 _ Ht) as Hmt. rewrite Z.eqb_refl in Hmt.
  destruct (addHole_range_spec (thread e)
    (seqZ (getMax d (thread e) + 1) (index e - (getMax d (thread e) + 1))) d0)
    as (d' & E & Hv & Hlen & Hoth & Hs & Hin); [done|rewrite Hd0; by apply ok_sorted| |].
  { apply Forall_seqZ. intros i Hr. rewrite Hmt. lia. }
  assert (Hm : forall t, getMax d' t = getMax d0 t) by (intros t; unfold getMax; by rewrite Hv).
  pose proof (ok_view d Hd _ Ht) as Hpos. fold (getMax d (thread e)) in Hpos.
  assert (Hok : ok d').
  { split.
    - rewrite Hv, Hv0. apply View.ok_setMax; [by apply ok_view|done].
    - rewrite Hv. by etransitivity; [|exact Hlen].
    - intros t Ht'. destruct (decide (t = thread e)) as [->|]; [done|].
      rewrite Hoth, Hd0 by done. by apply ok_sorted.
    - intros t h Ht' Hh. rewrite Hm, Hm0 by done. destruct (Z.eqb_spec t (thread e)) as [->|].
      + apply Hin in Hh as [Hh|Hh]; [rewrite Hd0 in Hh; apply ok_holes in Hh; [lia|done..]|].
        apply elem_of_seqZ in Hh. lia.
      + rewrite Hoth, Hd0 in Hh by done. by apply ok_holes. }
  exists d'. split; [exact E|]. split; [done|]. split; [by rewrite Hm, Hmt|].
  split; [intros t Ht' Hne; rewrite Hm, Hm0 by done; by destruct (Z.eqb_spec t (thread e))|].
  intros e' [Ht' Hi']. rewrite !dv_contains_spec, Hm, Hm0 by done.
  destruct (Z.eqb_spec (thread e') (thread e)) as [Et|Hne].
  - rewrite Et, Hin, Hd0, elem_of_seqZ. destruct e as [te ie], e' as [te' ie']; simpl in *. subst te'.
    assert (Hb : ie' ∈ hs d te -> ie' < getMax d te) by (intros Hh; apply ok_holes in Hh; [lia|done..]).
    split.
    + intros [->|[Hle Hn]]; [by left; left|].
      destruct (Z.eq_dec ie' ie) as [->|]; [by right|left; right]. split; [|tauto].
      apply Z.nlt_ge. intros Hgt. apply Hn. right. lia.
    + intros [[->|[Hle Hn]]|[= ->]]; [by left|right; split; [lia|]|right; split; [lia|]];
        (intros [Hh|Hh]; [by apply Hn in Hh || (apply Hb in Hh; lia)|lia]).
  - rewrite Hoth, Hd0 by done. split; [by left|]. intros [?| ->]; done.
Qed.

(** Removing holes at or below the maximum adds exactly those events. *)
Lemma lower_spec d tid l :
  ok d -> 0 <= tid ->
  let d' := foldl (fun d i => removeHole d (mkEvent tid i)) d l in
  ok d' /\ (forall t, getMax d' t = getMax d t) /\
  (forall e', valid e' -> contains d' e' = true <->
     contains d e' = true \/ (thread e' = tid /\ index e' ∈ l /\ index e' <= getMax d tid)).
Proof.
  intros Hd Ht d'.
  destruct (removeHole_range_spec tid l d Ht) as (Hv & Hlen & Hoth & Hs & Hin);
    [by apply ok_sorted|]. fold d' in Hv, Hlen, Hoth, Hs, Hin.
  assert (Hm : forall t, getMax d' t = getMax d t) by (intros t; unfold getMax; by rewrite Hv).
  assert (Hok : ok d').
  { split.
    - rewrite Hv. by apply ok_view.
    - rewrite Hv. etransitivity; [by apply ok_len|done].
    - intros t Ht'. destruct (decide (t = tid)) as [->|]; [done|]. rewrite Hoth by done.
      by apply ok_sorted.
    - intros t h Ht' Hh. rewrite Hm. destruct (decide (t = tid)) as [->|].
      + apply Hin in Hh as [Hh _]. by apply ok_holes.
      + rewrite Hoth in Hh by done. by apply ok_holes. }
  split; [done|]. split; [done|]. intros e' He'. rewrite !dv_contains_spec, Hm by done.
  destruct He' as [Ht' Hi']. destruct (decide (thread e' = tid)) as [->|Hne].
  - rewrite Hin. destruct (decide (index e' ∈ l)), (decide (index e' ∈ hs d tid)); tauto.
  - rewrite Hoth by done. tauto.
Qed.

(** Lowering the maximum of a thread to an event of it. *)
Lemma cut_spec d d0 e :
  ok d -> valid e -> index e <= getMax d (thread e) ->
  dv_view d0 = View.setMax (dv_view d) e -> (forall t, hs d0 t = hs d t) ->
  (length (dv_view d0) <= length (dv_holes d0))%nat ->
  let d' := removeHolesInRange d0 e (getMax d (thread e) + 1) in
  ok d' /\ getMax d' (thread e) = index e /\
    forall e', valid e' -> contains d' e' = true <->
      (contains d e' = true \/ e' = e) /\ (thread e' = thread e -> index e' <= index e).
Proof.
  intros Hd [Ht Hi] Hge Hv0 Hh0 Hl0 d'.
  destruct (removeHole_range_spec (thread e)
    (seqZ (index e) (getMax d (thread e) + 1 - index e)) d0 Ht) as (Hv & Hlen & Hoth & Hs & Hin);
    [rewrite Hh0; by apply ok_sorted|].
  change (foldl _ _ _) with d' in *.
  assert (Hm : forall t, 0 <= t -> getMax d' t = if t =? thread e then index e else getMax d t)
    by (intros t Ht'; unfold getMax; by rewrite Hv, Hv0, View.getMax_setMax).
  assert (Hin' : forall h, h ∈ hs d' (thread e) <-> h ∈ hs d (thread e) /\ h < index e).
  { intros h. rewrite Hin, Hh0, elem_of_seqZ. split; [|lia + (intros []; split; [done|lia])].
    intros [Hh Hn]. split; [done|]. apply ok_holes in Hh; [lia|done..]. }
  assert (Hok : ok d').
  { split.
    - rewrite Hv, Hv0. apply View.ok_setMax; [by apply ok_view|done].
    - rewrite Hv. by etransitivity; [|exact Hlen].
    - intros t Ht'. destruct (decide (t = thread e)) as [->|]; [done|].
      rewrite Hoth, Hh0 by done. by apply ok_sorted.
    - intros t h Ht' Hh. rewrite Hm by done. destruct (Z.eqb_spec t (thread e)) as [->|].
      + apply Hin' in Hh as [Hh ?]. apply ok_holes in Hh; [lia|done..].
      + rewrite Hoth, Hh0 in Hh by done. by apply ok_holes. }
  split; [done|]. split; [by rewrite Hm, Z.eqb_refl|].
  intros e' [Ht' Hi']. rewrite !dv_contains_spec, Hm by done.
  destruct (Z.eqb_spec (thread e') (thread e)) as [Et|Hne].
  - rewrite Et, Hin'. destruct e as [te ie], e' as [te' ie']; simpl in *. subst te'.
    destruct (Z.eq_dec ie' ie) as [->|Hn].
    + split; [intros _; split; [by right|lia]|]. intros _. right. split; [lia|]. intros [_ ?]. lia.
    + split.
      * intros [->|[? Hh]]; [split; [by left; left|lia]|]. split; [|lia]. left; right.
        split; [lia|]. intros ?. apply Hh. split; [done|lia].
      * intros [[[->|[? Hh]]|[= ?]] Hle]; [by left| |done]. right. split; [by apply Hle|]. tauto.
  - rewrite Hoth, Hh0 by done. split; [intros ?; split; [by left|done]|]. intros [[?| ->] _]; done.
Qed.

(** [updateIdx] never stops the process and adds exactly its event. *)
Lemma updateIdx_spec d e :
  ok d -> valid e ->
  exists d', updateIdx d e = Ret d' /\ ok d' /\
    forall e', valid e' -> contains d' e' = true <-> contains d e' = true \/ e' = e.
Proof.
  intros Hd He. unfold updateIdx. fold (getMax d (thread e)). rewrite Z.gtb_ltb.
  destruct (Z.ltb_spec (getMax d (thread e)) (index e)) as [Hlt|Hge].
  - edestruct (raise_spec d) as (d' & E & Hok & _ & _ & Hin); [done..| | | |exists d'; by rewrite E].
    + done.
    + intros t. unfold hs. simpl. apply grow_hs.
    + simpl. pose proof (ok_len d Hd). rewrite grow_len, View.setMax_length by apply He. lia.
  - destruct (lower_spec d (thread e) [index e] Hd) as (Hok & _ & Hin); [apply He|].
    destruct e as [te ie]. eexists. split; [done|]. split; [exact Hok|].
    intros e' He'. etransitivity; [by apply Hin|]. simpl in *. rewrite list_elem_of_singleton.
    destruct e' as [te' ie']; simpl. split; (intros [?|H]; [by left|right]).
    + destruct H as (-> & -> & _). done.
    + injection H as -> ->. done.
Qed.

(** [setMax] makes its event the last one of its thread: later events are
    forgotten, and everything it contained up to the event is kept. *)
Lemma setMax_spec d e :
  ok d -> valid e ->
  exists d', setMax d e = Ret d' /\ ok d' /\ getMax d' (thread e) = index e /\
    forall e', valid e' -> contains d' e' = true <->
      (contains d e' = true \/ e' = e) /\ (thread e' = thread e -> index e' <= index e).
Proof.
  intros Hd He. unfold setMax. rewrite Z.geb_leb.
  set (d0 := if View.size _ <=? _ then _ else d).
  assert (Hv0 : dv_view d0 = dv_view d) by (unfold d0; by case_match).
  assert (Hh0 : forall t, hs d0 t = hs d t)
    by (intros t; unfold hs, d0; case_match; [apply grow_hs|done]).
  rewrite Hv0. set (d1 := mkDepView _ _). fold (getMax d (thread e)).
  pose proof (ok_view d Hd _ (proj1 He)) as Hpos. fold (getMax d (thread e)) in Hpos.
  assert (Hl1 : (length (dv_view d1) <= length (dv_holes d1))%nat).
  { unfold d1, d0. simpl. pose proof (ok_len d Hd). rewrite View.setMax_length by apply He.
    pose proof (proj1 He). unfold View.size. zcases; simpl; [rewrite grow_len|]; lia. }
  destruct (Z.ltb_spec (getMax d (thread e)) (index e)) as [Hlt|Hge].
  - destruct (raise_spec d d1 e) as (d' & -> & Hok & Hm & _ & Hin); [done..|].
    exists d'. split; [done|]. split; [done|]. split; [done|]. intros e' He'. rewrite Hin by done.
    split; [|tauto]. intros H. split; [done|]. intros Et. destruct H as [H| ->]; [|done].
    apply dv_contains_spec in H; [|done..]. rewrite Et in H. destruct He. lia.
  - eexists. split; [done|]. by apply cut_spec.
Qed.

(** *** Joining two clocks *)

Lemma holes_from_spec l x :
  VSet.sorted Z.ltb l -> forall h, h ∈ holes_from l x <-> h ∈ l /\ x <= h.
Proof.
  intros Hs h. destruct (VSet.lower_bound_sorted Z.ltb l x Hs) as (l1 & l2 & E & Hlb & H1 & H2).
  unfold holes_from. rewrite Hlb, E, drop_app_length, elem_of_app.
  assert (forall y, y ∈ l2 -> x <= y).
  { unfold VSet.lt in H2. setoid_rewrite Z.ltb_lt in H2.
    destruct H2 as [(l3 & -> & _ & H3)|(_ & _ & H3)]; intros y Hy.
    - apply elem_of_cons in Hy as [->|Hy]; [lia|]. by apply Z.lt_le_incl, H3.
    - by apply Z.lt_le_incl, H3. }
  assert (forall y, y ∈ l1 -> y < x) by (intros y Hy; by apply Z.ltb_lt, H1).
  split; [naive_solver|]. intros [[Hh|Hh] Hx]; [|done]. specialize (H0 h Hh). lia.
Qed.

(** The holes of a thread in the join: what neither clock has seen. *)
Lemma update_thread_spec w d i :
  ok d -> ok w -> 0 <= i < hsize (dv_holes w) ->
  exists d', update_thread w d i = Ret d' /\ ok d' /\
    (forall t, 0 <= t -> getMax d' t = if t =? i then Z.max (getMax d i) (getMax w i) else getMax d t) /\
    (forall t, 0 <= t -> t <> i -> hs d' t = hs d t) /\
    (forall h, h ∈ hs d' i <-> (h ∈ hs d i /\ h ∈ hs w i) \/
      (if getMax d i <? getMax w i then h ∈ hs w i /\ getMax d i < h
       else h ∈ hs d i /\ getMax w i < h)).
Proof.
  intros Hd Hw [Hi Hlt]. unfold update_thread.
  assert (vec_get (holes_grow (dv_holes d) i) i = Ret (hs d i)) as ->.
  { unfold vec_get, hs. rewrite <- (grow_hs _ i). destruct (Z.ltb_spec i 0); [lia|].
    destruct (lookup_lt_is_Some_2 (holes_grow (dv_holes d) i) (Z.to_nat i)) as [x ->];
      [rewrite grow_len; lia|done]. }
  assert (holes_get (dv_holes w) i = Ret (hs w i)) as ->.
  { unfold holes_get, vec_get, hs. destruct (Z.ltb_spec i (hsize (dv_holes w))); [|lia].
    destruct (Z.ltb_spec i 0); [lia|]. unfold hsize in *.
    by destruct (lookup_lt_is_Some_2 (dv_holes w) (Z.to_nat i)) as [x ->]; [lia|]. }
  cbn [mbind outcome_bind].
  pose proof (ok_sorted d Hd i Hi) as Sd. pose proof (ok_sorted w Hw i Hi) as Sw.
  destruct (VSet.intersectWith_spec Z.ltb (hs d i) (hs w i) Sd Sw) as [Si Ii].
  set (isec := VSet.intersectWith _ _ _) in *.
  set (tail := if getMax d i <? getMax w i then holes_from (hs w i) (getMax d i + 1)
               else holes_from (hs d i) (getMax w i + 1)).
  destruct (VSet.insert_range_spec Z.ltb isec tail Si) as [Sr Ir].
  set (v := if getMax d i <? getMax w i then View.setMax (dv_view d) (mkEvent i (getMax w i)) else dv_view d).
  set (d' := mkDepView v (holes_alter (holes_grow (dv_holes d) i) i (fun _ => VSet.insert_range Z.ltb isec tail))).
  assert (Hm : forall t, 0 <= t -> getMax d' t = if t =? i then Z.max (getMax d i) (getMax w i) else getMax d t).
  { intros t Ht. unfold getMax at 1, d', v. simpl. destruct (Z.ltb_spec (getMax d i) (getMax w i)).
    - rewrite View.getMax_setMax by done. simpl. zcases; unfold getMax in *; lia.
    - zcases; subst; unfold getMax in *; lia. }
  assert (Hh : forall t, 0 <= t -> hs d' t = if t =? i then VSet.insert_range Z.ltb isec tail else hs d t).
  { intros t Ht. unfold hs, d'. simpl. rewrite alter_hs by done. by rewrite grow_hs. }
  assert (Hin : forall h, h ∈ hs d' i <-> (h ∈ hs d i /\ h ∈ hs w i) \/
      (if getMax d i <? getMax w i then h ∈ hs w i /\ getMax d i < h
       else h ∈ hs d i /\ getMax w i < h)).
  { intros h. rewrite Hh, Z.eqb_refl, Ir, Ii by done. unfold tail.
    destruct (getMax d i <? getMax w i); rewrite holes_from_spec by done; intuition lia. }
  exists d'. split; [unfold d', v, tail; by case_match|].
  split; [|split; [done|split; [|done]]].
  - split.
    + unfold d', v. simpl. case_match; [|by apply ok_view].
      apply View.ok_setMax; [by apply ok_view|]. split; [done|]. by apply (ok_view w Hw).
    + unfold d', v. simpl. rewrite alter_len, grow_len. pose proof (ok_len d Hd).
      case_match; [rewrite View.setMax_length by done; simpl|]; lia.
    + intros t Ht. rewrite Hh by done. destruct (t =? i); [exact Sr|by apply ok_sorted].
    + intros t h Ht Hx. rewrite Hm by done. destruct (Z.eqb_spec t i) as [->|Hne].
      * apply Hin in Hx. pose proof (ok_holes d Hd i h Hi). pose proof (ok_holes w Hw i h Hi).
        case_match; intuition lia.
      * rewrite Hh in Hx by done. apply Z.eqb_neq in Hne. rewrite Hne in Hx. by apply ok_holes.
  - intros t Ht Hne. rewrite Hh by done. by destruct (Z.eqb_spec t i).
Qed.

Lemma update_thread_contains w d i :
  ok d -> ok w -> 0 <= i < hsize (dv_holes w) ->
  exists d', update_thread w d i = Ret d' /\ ok d' /\
    (forall e, valid e -> contains d' e = true <->
      contains d e = true \/ (thread e = i /\ contains w e = true)) /\
    (forall t, 0 <= t -> getMax d' t = if t =? i then Z.max (getMax d i) (getMax w i) else getMax d t).
Proof.
  intros Hd Hw Hi. destruct (update_thread_spec w d i Hd Hw Hi) as (d' & -> & Hok & Hm & Hoth & Hin).
  exists d'. split; [done|]. split; [done|]. split; [|done]. intros e He.
  rewrite !dv_contains_spec, Hm by (done || apply He). destruct He as [Ht He].
  destruct (Z.eqb_spec (thread e) i) as [->|Hne]; [|rewrite Hoth by done; tauto].
  rewrite Hin. set (x := index e) in *.
  pose proof (fun h => ok_holes d Hd i h (proj1 Hi)) as H.
  pose proof (fun h => ok_holes w Hw i h (proj1 Hi)) as H0.
  destruct (decide (x ∈ hs d i)) as [D|D], (decide (x ∈ hs w i)) as [W|W];
    try (specialize (H x D)); try (specialize (H0 x W));
    destruct (Z.ltb_spec (getMax d i) (getMax w i)); intuition lia.
Qed.

Lemma update_loop_spec w l : forall d,
  ok d -> ok w -> Forall (fun i => 0 <= i < hsize (dv_holes w)) l ->
  exists d', mfold (update_thread w) l d = Ret d' /\ ok d' /\
    (forall e, valid e -> contains d' e = true <->
      contains d e = true \/ (thread e ∈ l /\ contains w e = true)) /\
    (forall t, 0 <= t -> getMax d' t =
      if decide (t ∈ l) then Z.max (getMax d t) (getMax w t) else getMax d t).
Proof.
  induction l as [|i l IH]; intros d Hd Hw Hl; cbn [mfold].
  { exists d. split; [done|]. split; [done|]. split; [set_solver|]. intros t _.
    by rewrite decide_False by set_solver. }
  inversion Hl; subst. destruct (update_thread_contains w d i) as (d1 & -> & Hd1 & Hc1 & Hm1); [done..|].
  cbn [mbind outcome_bind]. destruct (IH d1) as (d' & -> & Hd' & Hc2 & Hm2); [done..|].
  exists d'. split; [done|]. split; [done|].
  split; [intros e He; rewrite Hc2, Hc1 by done; set_solver|].
  intros t Ht. rewrite Hm2, Hm1 by done.
  destruct (Z.eqb_spec t i) as [->|]; repeat case_decide; set_unfold; try lia; naive_solver.
Qed.

Lemma update_spec d w :
  ok d -> ok w ->
  exists d', update d w = Ret d' /\ ok d' /\
    (forall e, valid e -> contains d' e = true <-> contains d e = true \/ contains w e = true) /\
    (forall t, 0 <= t -> getMax d' t = Z.max (getMax d t) (getMax w t)).
Proof.
  intros Hd Hw. pose proof (ok_len w Hw) as Hl.
  assert (Hge : forall t, 0 <= t -> size w <= t -> Z.max (getMax d t) (getMax w t) = getMax d t).
  { intros t Ht Hs. unfold getMax. rewrite (View.getMax_ge (dv_view w)) by done.
    pose proof (ok_view d Hd t Ht). lia. }
  assert (H0 : forall e, valid e -> size w <= thread e -> contains w e = true -> contains d e = true).
  { intros e He Hs Hc. apply dv_contains_spec in Hc; [|done..]. apply dv_contains_spec; [done..|]. left.
    destruct Hc as [|[Hc _]]; [done|]. unfold getMax in Hc. rewrite View.getMax_ge in Hc by done.
    destruct He. lia. }
  unfold update, empty. destruct (Z.eqb_spec (size w) 0) as [E|E].
  - exists d. split; [done|]. split; [done|]. split; [|intros t Ht; rewrite Hge by lia; done].
    intros e He. split; [by left|].
    intros [?|?]; [done|]. apply H0; [done|destruct He; lia|done].
  - destruct (update_loop_spec w (seqZ 0 (size w)) d) as (d' & -> & Hd' & H & Hm); [done..| |].
    + apply Forall_seqZ. unfold hsize, size, View.size. intros; lia.
    + exists d'. split; [done|]. split; [done|]. split.
      2:{ intros t Ht. rewrite Hm by done. case_decide as Hin; rewrite elem_of_seqZ in Hin; [done|].
          rewrite Hge by lia. done. }
      intros e He. rewrite H, elem_of_seqZ by done.
      split; [tauto|]. intros [?|Hc]; [by left|]. destruct (Z.lt_ge_cases (thread e) (size w)).
      * right. destruct He. split; [lia|done].
      * left. by apply H0.
Qed.


(** *** Correctness *)

(** The join of two clocks with holes never stops the process, keeps the
    invariant, and contains exactly the events either clock contains. *)
Theorem update_is_union d w :
  ok d -> ok w ->
  exists d', update d w = Ret d' /\ ok d' /\
    (forall e, valid e -> contains d' e = true <-> contains d e = true \/ contains w e = true) /\
    (forall tid, 0 <= tid -> getMax d' tid = Z.max (getMax d tid) (getMax w tid)).
Proof.
  intros Hd Hw. destruct (update_spec d w Hd Hw) as (d' & E & Hd' & Hin & Hm). by exists d'.
Qed.

(** [updateIdx] records exactly one more event, and [setMax] makes its event the
    last of its thread: earlier events stay as they were and later ones are
    forgotten.  Neither stops the process. *)
Theorem single_event_updates d e :
  ok d -> valid e ->
  (exists d', updateIdx d e = Ret d' /\ ok d' /\
     forall e', valid e' -> contains d' e' = true <-> contains d e' = true \/ e' = e) /\
  (exists d', setMax d e = Ret d' /\ ok d' /\ getMax d' (thread e) = index e /\
     forall e', valid e' -> contains d' e' = true <->
       (contains d e' = true \/ e' = e) /\ (thread e' = thread e -> index e' <= index e)).
Proof. intros Hd He. split; [by apply updateIdx_spec|by apply setMax_spec]. Qed.

(** [hasHole] answers [true] for an event that is not recorded as a hole (of a
    thread that has a hole set), the opposite of what its comment says.
    *)
Theorem hasHole_negated d e :
  ok d -> valid e ->
  hasHole d e = true <-> (thread e < hsize (dv_holes d) /\ index e ∉ hs d (thread e)).
Proof. intros Hd He. apply no_hole_spec; [done|by apply ok_sorted; [|apply He]]. Qed.

Lemma ok_sample : ok (mkDepView [0; 3] [[]; [1]]).
Proof.
  split.
  - intros tid _. unfold View.getMax. case_match; [|done]. simpl.
    destruct (Z.to_nat tid) as [|[|[|n]]]; done.
  - done.
  - intros tid _. unfold hs; simpl. destruct (Z.to_nat tid) as [|[|[|n]]]; simpl; repeat constructor.
  - intros tid h Ht. unfold hs, getMax, View.getMax. simpl.
    destruct (Z.ltb_spec tid (View.size [0; 3])) as [Hlt|Hge].
    + destruct (Z.to_nat tid) as [|[|[|n]]] eqn:E; simpl; [set_solver| |set_solver..].
      intros Hh%list_elem_of_singleton. lia.
    + unfold View.size in Hge. simpl in Hge.
      destruct (Z.to_nat tid) as [|[|n]] eqn:E; [lia|lia|]. simpl. set_solver.
Qed.

Lemma update_is_union_witness :
  exists d', update make (mkDepView [0; 3] [[]; [1]]) = Ret d' /\ ok d' /\
    (forall e, valid e -> contains d' e = true <->
       contains make e = true \/ contains (mkDepView [0; 3] [[]; [1]]) e = true) /\
    (forall tid, 0 <= tid ->
       getMax d' tid = Z.max (getMax make tid) (getMax (mkDepView [0; 3] [[]; [1]]) tid)).
Proof. apply (update_is_union make (mkDepView [0; 3] [[]; [1]])); [apply dv_ok_make|apply ok_sample]. Defined.

Lemma single_event_updates_witness :
  (exists d', updateIdx (mkDepView [0; 3] [[]; [1]]) (mkEvent 1 1) = Ret d' /\ ok d' /\
     forall e', valid e' -> contains d' e' = true <->
       contains (mkDepView [0; 3] [[]; [1]]) e' = true \/ e' = mkEvent 1 1) /\
  (exists d', setMax (mkDepView [0; 3] [[]; [1]]) (mkEvent 1 1) = Ret d' /\ ok d' /\ getMax d' 1 = 1 /\
     forall e', valid e' -> contains d' e' = true <->
       (contains (mkDepView [0; 3] [[]; [1]]) e' = true \/ e' = mkEvent 1 1) /\
       (thread e' = 1 -> index e' <= 1)).
Proof.
  apply (single_event_updates (mkDepView [0; 3] [[]; [1]]) (mkEvent 1 1)); [apply ok_sample|].
  split; simpl; lia.
Defined.

Lemma hasHole_negated_witness :
  hasHole (mkDepView [0; 3] [[]; [1]]) (mkEvent 1 1) = true <->
  (1 < hsize [[]; [1]] /\ 1 ∉ hs (mkDepView [0; 3] [[]; [1]]) 1).
Proof.
  apply (hasHole_negated (mkDepView [0; 3] [[]; [1]]) (mkEvent 1 1)); [apply ok_sample|].
  split; simpl; lia.
Defined.

End DepView.

#[export] Program Instance DepView_VectorClock : VectorClock DepViewT := {|
  vc_make := DepView.make;
  vc_ok := DepView.ok;
  vc_size := DepView.size;
  vc_getMax := DepView.getMax;
  vc_contains := DepView.contains;
  vc_updateIdx := DepView.updateIdx;
  vc_update := DepView.update;
  vc_make_ok := DepView.dv_ok_make;
|}.
Next Obligation. intros d e [H _]%andb_true_iff. by apply Z.leb_le. Qed.
Next Obligation.
  intros d e Hd He. destruct (DepView.updateIdx_spec d e Hd He) as (d' & E & Hok & H).
  exists d'. split; [done|]. split; [done|]. split; [by apply H; [|right]|].
  intros e' He' Hc. by apply H; [|left].
Qed.
Next Obligation.
  intros d w Hd Hw. destruct (DepView.update_spec d w Hd Hw) as (d' & E & Hd' & H & _). by exists d'.
Qed.
