(* ===== verification/Labels.v ===== *)
(** * Event labels: kinds, attributes, the label data type and its accessors
    (src/src/EventLabel.hpp, EventAttr.hpp, ThreadInfo.hpp, AccessFilter.hpp).

    A pointer to a label of a graph is the position of that label: every label
    of a graph sits at its own position.  The naming information of a label is not
    modelled. *)
From Stdlib Require Import String.
From S2P Require Import Prelude Event SVal SAddr VSet SExpr Deps Views.

(** ** Discriminators *)

Inductive EventLabelKind : Type :=
| EL_Empty | EL_Optional | EL_ThreadStart | EL_Init | EL_ThreadStartEnd
| EL_TerminatorBegin | EL_BlockBegin | EL_SpinloopBlock | EL_FaiZNEBlock | EL_LockZNEBlock
| EL_HelpedCASBlock | EL_ConfirmationBlock | EL_LockNotAcqBlock | EL_LockNotRelBlock
| EL_BarrierBlock | EL_ErrorBlock | EL_UserBlock | EL_JoinBlock | EL_ReadOptBlock
| EL_BlockEnd | EL_ThreadKill | EL_ThreadFinish | EL_TerminatorLast | EL_ThreadCreate
| EL_ThreadJoin | EL_LoopBegin | EL_SpinStart | EL_FaiZNESpinEnd | EL_LockZNESpinEnd
| EL_MemAccessBegin | EL_Read | EL_BWaitRead | EL_SpeculativeRead | EL_ConfirmingRead
| EL_FaiRead | EL_NoRetFaiRead | EL_BIncFaiRead | EL_FaiReadLast | EL_CasRead
| EL_LockCasRead | EL_TrylockCasRead | EL_HelpedCasRead | EL_ConfirmingCasRead
| EL_CasReadLast | EL_DskRead | EL_LastRead | EL_Write | EL_UnlockWrite | EL_BInitWrite
| EL_BDestroyWrite | EL_FaiWrite | EL_NoRetFaiWrite | EL_BIncFaiWrite | EL_FaiWriteLast
| EL_CasWrite | EL_LockCasWrite | EL_TrylockCasWrite | EL_HelpedCasWrite
| EL_ConfirmingCasWrite | EL_CasWriteLast | EL_DskWrite | EL_DskMdWrite | EL_DskJnlWrite
| EL_DskDirWrite | EL_LastDskWrite | EL_LastWrite | EL_MemAccessEnd | EL_Fence
| EL_DskFsync | EL_DskSync | EL_DskPbarrier | EL_SmpFenceLKMM | EL_RCUSyncLKMM
| EL_LastFence | EL_Malloc | EL_Free | EL_HpRetire | EL_FreeLast | EL_HpProtect
| EL_LockLAPOR | EL_UnlockLAPOR | EL_HelpingCas | EL_DskOpen | EL_RCULockLKMM
| EL_RCUUnlockLKMM | EL_CLFlush.

(** The enumerators in the order of their declaration. *)
Definition kinds : list EventLabelKind :=
  [EL_Empty; EL_Optional; EL_ThreadStart; EL_Init; EL_ThreadStartEnd; EL_TerminatorBegin;
   EL_BlockBegin; EL_SpinloopBlock; EL_FaiZNEBlock; EL_LockZNEBlock; EL_HelpedCASBlock;
   EL_ConfirmationBlock; EL_LockNotAcqBlock; EL_LockNotRelBlock; EL_BarrierBlock;
   EL_ErrorBlock; EL_UserBlock; EL_JoinBlock; EL_ReadOptBlock; EL_BlockEnd; EL_ThreadKill;
   EL_ThreadFinish; EL_TerminatorLast; EL_ThreadCreate; EL_ThreadJoin; EL_LoopBegin;
   EL_SpinStart; EL_FaiZNESpinEnd; EL_LockZNESpinEnd; EL_MemAccessBegin; EL_Read;
   EL_BWaitRead; EL_SpeculativeRead; EL_ConfirmingRead; EL_FaiRead; EL_NoRetFaiRead;
   EL_BIncFaiRead; EL_FaiReadLast; EL_CasRead; EL_LockCasRead; EL_TrylockCasRead;
   EL_HelpedCasRead; EL_ConfirmingCasRead; EL_CasReadLast; EL_DskRead; EL_LastRead;
   EL_Write; EL_UnlockWrite; EL_BInitWrite; EL_BDestroyWrite; EL_FaiWrite;
   EL_NoRetFaiWrite; EL_BIncFaiWrite; EL_FaiWriteLast; EL_CasWrite; EL_LockCasWrite;
   EL_TrylockCasWrite; EL_HelpedCasWrite; EL_ConfirmingCasWrite; EL_CasWriteLast;
   EL_DskWrite; EL_DskMdWrite; EL_DskJnlWrite; EL_DskDirWrite; EL_LastDskWrite;
   EL_LastWrite; EL_MemAccessEnd; EL_Fence; EL_DskFsync; EL_DskSync; EL_DskPbarrier;
   EL_SmpFenceLKMM; EL_RCUSyncLKMM; EL_LastFence; EL_Malloc; EL_Free; EL_HpRetire;
   EL_FreeLast; EL_HpProtect; EL_LockLAPOR; EL_UnlockLAPOR; EL_HelpingCas; EL_DskOpen;
   EL_RCULockLKMM; EL_RCUUnlockLKMM; EL_CLFlush].

(** The value of an enumerator. *)
Definition kval (k : EventLabelKind) : Z :=
  match k with
  | EL_Empty => 0 | EL_Optional => 1 | EL_ThreadStart => 2 | EL_Init => 3
  | EL_ThreadStartEnd => 4 | EL_TerminatorBegin => 5 | EL_BlockBegin => 6
  | EL_SpinloopBlock => 7 | EL_FaiZNEBlock => 8 | EL_LockZNEBlock => 9
  | EL_HelpedCASBlock => 10 | EL_ConfirmationBlock => 11 | EL_LockNotAcqBlock => 12
  | EL_LockNotRelBlock => 13 | EL_BarrierBlock => 14 | EL_ErrorBlock => 15
  | EL_UserBlock => 16 | EL_JoinBlock => 17 | EL_ReadOptBlock => 18 | EL_BlockEnd => 19
  | EL_ThreadKill => 20 | EL_ThreadFinish => 21 | EL_TerminatorLast => 22
  | EL_ThreadCreate => 23 | EL_ThreadJoin => 24 | EL_LoopBegin => 25 | EL_SpinStart => 26
  | EL_FaiZNESpinEnd => 27 | EL_LockZNESpinEnd => 28 | EL_MemAccessBegin => 29
  | EL_Read => 30 | EL_BWaitRead => 31 | EL_SpeculativeRead => 32 | EL_ConfirmingRead => 33
  | EL_FaiRead => 34 | EL_NoRetFaiRead => 35 | EL_BIncFaiRead => 36 | EL_FaiReadLast => 37
  | EL_CasRead => 38 | EL_LockCasRead => 39 | EL_TrylockCasRead => 40
  | EL_HelpedCasRead => 41 | EL_ConfirmingCasRead => 42 | EL_CasReadLast => 43
  | EL_DskRead => 44 | EL_LastRead => 45 | EL_Write => 46 | EL_UnlockWrite => 47
  | EL_BInitWrite => 48 | EL_BDestroyWrite => 49 | EL_FaiWrite => 50
  | EL_NoRetFaiWrite => 51 | EL_BIncFaiWrite => 52 | EL_FaiWriteLast => 53
  | EL_CasWrite => 54 | EL_LockCasWrite => 55 | EL_TrylockCasWrite => 56
  | EL_HelpedCasWrite => 57 | EL_ConfirmingCasWrite => 58 | EL_CasWriteLast => 59
  | EL_DskWrite => 60 | EL_DskMdWrite => 61 | EL_DskJnlWrite => 62 | EL_DskDirWrite => 63
  | EL_LastDskWrite => 64 | EL_LastWrite => 65 | EL_MemAccessEnd => 66 | EL_Fence => 67
  | EL_DskFsync => 68 | EL_DskSync => 69 | EL_DskPbarrier => 70 | EL_SmpFenceLKMM => 71
  | EL_RCUSyncLKMM => 72 | EL_LastFence => 73 | EL_Malloc => 74 | EL_Free => 75
  | EL_HpRetire => 76 | EL_FreeLast => 77 | EL_HpProtect => 78 | EL_LockLAPOR => 79
  | EL_UnlockLAPOR => 80 | EL_HelpingCas => 81 | EL_DskOpen => 82 | EL_RCULockLKMM => 83
  | EL_RCUUnlockLKMM => 84 | EL_CLFlush => 85
  end.

Lemma kinds_kval k : kinds !! Z.to_nat (kval k) = Some k.
Proof. by destruct k. Qed.

#[export] Instance kval_inj : Inj (=) (=) kval.
Proof. intros a b E. pose proof (kinds_kval a). rewrite E, kinds_kval in H. congruence. Qed.

#[export] Instance EventLabelKind_eq_dec : EqDecision EventLabelKind :=
  fun a b => match decide (kval a = kval b) with
             | left E => left (kval_inj a b E)
             | right N => right (fun E => N (f_equal kval E))
             end.

Lemma kinds_all k : k ∈ kinds.
Proof. eapply list_elem_of_lookup_2, kinds_kval. Qed.

(** A boolean property of kinds is decided by evaluating it on all of them. *)
Lemma kinds_forall (P : EventLabelKind -> bool) : forallb P kinds = true -> forall k, P k = true.
Proof. intros H k. rewrite forallb_forall in H. apply H, list_elem_of_In, kinds_all. Qed.

(** [k >= a && k <= b] and [k == a]. *)
Definition kin (a b k : EventLabelKind) : bool := (kval a <=? kval k) && (kval k <=? kval b).
Definition kis (a k : EventLabelKind) : bool := bool_decide (k = a).

(** [llvm::AtomicOrdering], as far as the source compares it. *)
Inductive AtomicOrdering :=
| NotAtomic | Unordered | Monotonic | Acquire | Release | AcquireRelease | SequentiallyConsistent.
#[export] Instance AtomicOrdering_eq_dec : EqDecision AtomicOrdering.
Proof. solve_decision. Defined.

(** ** Attributes of writes: a bit mask *)
Module WriteAttr.
Definition None_ : Z := 0x0.
Definition Local : Z := 0x1.
Definition Final : Z := 0x2.
Definition RevBlocker : Z := 0x4.
Definition WWRacy : Z := 0x8.
(** [!!(wattr & a)], [wattr |= a] and [wattr &= ~a]. *)
Definition hasAttr (wattr a : Z) : bool := negb (Z.land wattr a =? 0).
Definition setAttr (wattr a : Z) : Z := Z.lor wattr a.
Definition clearAttr (wattr a : Z) : Z := Z.ldiff wattr a.

Lemma hasAttr_bit w n :
  0 <= n -> hasAttr w (2 ^ n) = Z.testbit w n.
Proof.
  intros Hn. unfold hasAttr. destruct (Z.eqb_spec (Z.land w (2 ^ n)) 0) as [E|E]; simpl.
  - assert (Z.testbit (Z.land w (2 ^ n)) n = false) as H by (by rewrite E, Z.bits_0).
    rewrite Z.land_spec, Z.pow2_bits_true, andb_true_r in H by done. done.
  - destruct (Z.testbit w n) eqn:B; [done|]. destruct E. apply Z.bits_inj_0. intros m.
    rewrite Z.land_spec, Z.pow2_bits_eqb by done. destruct (Z.eqb_spec n m); [subst; by rewrite B|].
    apply andb_false_r.
Qed.
End WriteAttr.

(** [ThreadInfo] *)
Record ThreadInfo := mkThreadInfo {
  ti_id : Z; ti_parentId : Z; ti_funId : Z; ti_arg : Z; ti_symmId : Z }.

Inductive SmpFenceType := MB | WMB | RMB | MBBA | MBAA | MBAS | MBAUL.
#[export] Instance SmpFenceType_eq_dec : EqDecision SmpFenceType.
Proof. solve_decision. Defined.
Definition smpval (t : SmpFenceType) : Z :=
  match t with MB => 0 | WMB => 1 | RMB => 2 | MBBA => 3 | MBAA => 4 | MBAS => 5 | MBAUL => 6 end.
Definition isCumul (t : SmpFenceType) : bool :=
  (smpval t <=? smpval WMB) || (smpval MBBA <=? smpval t).
Definition isStrong (t : SmpFenceType) : bool :=
  bool_decide (t = MB) || (smpval MBBA <=? smpval t).

Inductive AddressSpace := AS_User | AS_Internal.
Inductive StorageDuration := SD_Static | SD_Automatic | SD_Heap | SD_StorageLast.
Inductive StorageType := ST_Volatile | ST_Durable | ST_StorageLast.

(** ** The data of a label *)

(** A [std::unique_ptr<VectorClock>]. *)
Inductive Clock := CView (v : View.t) | CDep (d : DepViewT).

(** [MemAccessLabel] *)
Record MemPart := mkMem { m_access : AAccess; m_maximal : bool; m_alloc : option Event }.

(** [ReadLabel]: the writes it reads from, with the part read from each; the
    registers of its annotation are numbers ([ModuleID::ID]). *)
Abbreviation RfsT := (list (Event * AAccess)).
Record ReadPart := mkRead { r_rfs : RfsT; r_ipr : bool; r_annot : option (SExprOps.SExpr Z) }.

(** [FaiReadLabel], [CasReadLabel] and [DskReadLabel]; the operator of an RMW is
    an enumerator of LLVM, kept as a number. *)
Inductive ReadExtra :=
| RPlain
| RFai (binOp opValue wattr : Z)
| RCas (expected swapValue wattr : Z)
| RDsk (pbView : DepViewT).

(** [WriteLabel] and [DskWriteLabel]. *)
Record WritePart := mkWrite { w_value : Z; w_readers : list Event; w_attr : Z }.
Inductive WriteExtra :=
| WPlain
| WDsk (pbView : DepViewT) (mapping : Z) (ordDataRange : option (Z * Z)) (inode : option Z).

Inductive Payload :=
| PNone
| PRead (m : MemPart) (r : ReadPart) (x : ReadExtra)
| PWrite (m : MemPart) (w : WritePart) (x : WriteExtra)
| PJoinBlock (childId : Z)
| PReadOpt (addr : Z)
| POptional (expandable expanded : bool)
| PDskSync (pbView : DepViewT)
| PDskFsync (pbView : DepViewT) (inode size : Z)
| PSmpFence (type : SmpFenceType)
| PThreadCreate (childInfo : ThreadInfo)
| PThreadJoin (childId : Z)
| PThreadStart (parentCreate : Event) (info : ThreadInfo) (symmetricTid : Z)
| PInit (initRfs : list (Z * list Event))
| PThreadFinish (parentJoin : option Event) (retVal : Z)
| PMalloc (allocAddr : Z) (dLab : option Event) (accesses : list Event)
          (allocSize alignment : Z) (sdur : StorageDuration) (stype : StorageType)
          (spc : AddressSpace) (name : string)
| PFree (freeAddr freedSize : Z) (aLab : option Event)
| PHpProtect (hpAddr protAddr : Z)
| PLockLAPOR (lockAddr : Z)
| PHelpingCas (access : AAccess) (expected swapValue : Z)
| PDskOpen (fileName : string) (fd : Z)
| PCLFlush (addr : Z).

Record Label := mkLabel {
  kind : EventLabelKind;
  getPos : Event;
  ordering : AtomicOrdering;
  deps : DepInfo.EventDeps;
  stamp : option Z;
  prefixView : option Clock;
  calculatedRels : list (list Event);
  calculatedViews : list View.t;
  revisitable : bool;
  payload : Payload;
}.

(** ** EventLabel: what every label has *)
Module EventLabel.

(** The protected constructor, with the default members. *)
Definition make (k : EventLabelKind) (p : Event) (o : AtomicOrdering) (ds : DepInfo.EventDeps)
    (pl : Payload) : Label :=
  mkLabel k p o ds None None [] [] true pl.

Definition getIndex (l : Label) : Z := index (getPos l).
Definition getThread (l : Label) : Z := thread (getPos l).
Definition hasStamp (l : Label) : bool := bool_decide (is_Some (stamp l)).
(** [*stamp]: undefined when no stamp was assigned. *)
Definition getStamp (l : Label) : outcome Z := match stamp l with Some s => Ret s | None => Undef end.

Definition setOrdering (o : AtomicOrdering) (l : Label) : Label :=
  mkLabel (kind l) (getPos l) o (deps l) (stamp l) (prefixView l) (calculatedRels l)
    (calculatedViews l) (revisitable l) (payload l).
Definition setDeps (ds : DepInfo.EventDeps) (l : Label) : Label :=
  mkLabel (kind l) (getPos l) (ordering l) ds (stamp l) (prefixView l) (calculatedRels l)
    (calculatedViews l) (revisitable l) (payload l).
Definition setStamp (s : Z) (l : Label) : Label :=
  mkLabel (kind l) (getPos l) (ordering l) (deps l) (Some s) (prefixView l) (calculatedRels l)
    (calculatedViews l) (revisitable l) (payload l).
Definition setPrefixView (v : Clock) (l : Label) : Label :=
  mkLabel (kind l) (getPos l) (ordering l) (deps l) (stamp l) (Some v) (calculatedRels l)
    (calculatedViews l) (revisitable l) (payload l).
Definition setCalculated (c : list (list Event)) (l : Label) : Label :=
  mkLabel (kind l) (getPos l) (ordering l) (deps l) (stamp l) (prefixView l) c
    (calculatedViews l) (revisitable l) (payload l).
Definition setViews (vs : list View.t) (l : Label) : Label :=
  mkLabel (kind l) (getPos l) (ordering l) (deps l) (stamp l) (prefixView l) (calculatedRels l)
    vs (revisitable l) (payload l).
Definition addView (v : View.t) (l : Label) : Label := setViews (calculatedViews l ++ [v]) l.
Definition setRevisitStatus (b : bool) (l : Label) : Label :=
  mkLabel (kind l) (getPos l) (ordering l) (deps l) (stamp l) (prefixView l) (calculatedRels l)
    (calculatedViews l) b (payload l).
Definition setPayload (pl : Payload) (l : Label) : Label :=
  mkLabel (kind l) (getPos l) (ordering l) (deps l) (stamp l) (prefixView l) (calculatedRels l)
    (calculatedViews l) (revisitable l) pl.

Definition isInitOrEmpty (l : Label) : bool :=
  EventOps.isInitializer (getPos l) || kis EL_Empty (kind l).
(** [calculated(i)] and [view(i)]: the initializer and holes have one set and one
    view that stand for all of them. *)
Definition calculated (l : Label) (i : nat) : outcome (list Event) :=
  vec_get (calculatedRels l) (if isInitOrEmpty l then 0 else Z.of_nat i).
Definition view (l : Label) (i : nat) : outcome View.t :=
  vec_get (calculatedViews l) (if isInitOrEmpty l then 0 else Z.of_nat i).

Definition isNotAtomic (l : Label) : bool := bool_decide (ordering l = NotAtomic).
Definition isAtLeastAcquire (l : Label) : bool :=
  bool_decide (ordering l = Acquire) || bool_decide (ordering l = AcquireRelease)
  || bool_decide (ordering l = SequentiallyConsistent).
Definition isAtMostAcquire (l : Label) : bool :=
  bool_decide (ordering l = NotAtomic) || bool_decide (ordering l = Monotonic)
  || bool_decide (ordering l = Acquire).
Definition isAtLeastRelease (l : Label) : bool :=
  bool_decide (ordering l = Release) || bool_decide (ordering l = AcquireRelease)
  || bool_decide (ordering l = SequentiallyConsistent).
Definition isAtMostRelease (l : Label) : bool :=
  bool_decide (ordering l = NotAtomic) || bool_decide (ordering l = Monotonic)
  || bool_decide (ordering l = Release).
Definition isSC (l : Label) : bool := bool_decide (ordering l = SequentiallyConsistent).

Definition isTerminatorKind (k : EventLabelKind) : bool := kin EL_TerminatorBegin EL_TerminatorLast k.
Definition isDependableKind (k : EventLabelKind) : bool := kin EL_Read EL_LastRead k || kis EL_Malloc k.
Definition hasValueKind (k : EventLabelKind) : bool :=
  kin EL_Read EL_LastRead k || kin EL_ThreadStart EL_ThreadStartEnd k || kis EL_ThreadJoin k
  || kis EL_Optional k.
Definition isTerminator (l : Label) : bool := isTerminatorKind (kind l).
Definition isDependable (l : Label) : bool := isDependableKind (kind l).
Definition hasValue (l : Label) : bool := hasValueKind (kind l).
Definition isRevisitable (l : Label) : bool := revisitable l.

(** [EventLabel::reset()] *)
Definition reset_base (l : Label) : Label :=
  mkLabel (kind l) (getPos l) (ordering l) (deps l) None None [] [] true (payload l).

End EventLabel.

(** ** MemAccessLabel *)
Module MemAccessLabel.

Definition classof (k : EventLabelKind) : bool := kin EL_MemAccessBegin EL_MemAccessEnd k.

Definition part (l : Label) : option MemPart :=
  match payload l with PRead m _ _ | PWrite m _ _ => Some m | _ => None end.
Definition map_part (f : MemPart -> MemPart) (l : Label) : Label :=
  match payload l with
  | PRead m r x => EventLabel.setPayload (PRead (f m) r x) l
  | PWrite m w x => EventLabel.setPayload (PWrite (f m) w x) l
  | _ => l
  end.

Definition no_access : AAccess := mkAccess 0 0 Unsigned.
(** The getters of a label that is not an access are never reached. *)
Definition getAccess (l : Label) : AAccess := from_option m_access no_access (part l).
Definition getAddr (l : Label) : Z := acc_addr (getAccess l).
Definition getSize (l : Label) : Z := acc_size (getAccess l).
Definition getType (l : Label) : AType := acc_type (getAccess l).
Definition overlaps_lab (l l' : Label) : bool := AccessOps.overlaps (getAccess l) (getAccess l').
Definition overlaps (l : Label) (a : AAccess) : bool := AccessOps.overlaps (getAccess l) a.
Definition wasAddedMax (l : Label) : bool := from_option m_maximal false (part l).
Definition setAddedMax (b : bool) : Label -> Label :=
  map_part (fun m => mkMem (m_access m) b (m_alloc m)).
Definition getAlloc (l : Label) : option Event := part l ≫= m_alloc.
Definition setAlloc (a : option Event) : Label -> Label :=
  map_part (fun m => mkMem (m_access m) (m_maximal m) a).
(** The part of [MemAccessLabel::reset()] that is its own. *)
Definition reset_part : Label -> Label := map_part (fun m => mkMem (m_access m) true None).

(** [OverlapFilter] *)
Definition OverlapFilter (a : AAccess) (l : Label) : bool := AccessOps.overlaps (getAccess l) a.

End MemAccessLabel.

(** [EventLabel::isStable] *)
Definition isStable (l : Label) : bool :=
  negb (EventLabel.isRevisitable l)
  || (MemAccessLabel.classof (kind l) && negb (MemAccessLabel.wasAddedMax l)).

(** ** ReadLabel *)
Module ReadLabel.

Definition classof (k : EventLabelKind) : bool := kin EL_Read EL_LastRead k.

Definition part (l : Label) : option ReadPart :=
  match payload l with PRead _ r _ => Some r | _ => None end.
Definition map_part (f : ReadPart -> ReadPart) (l : Label) : Label :=
  match payload l with
  | PRead m r x => EventLabel.setPayload (PRead m (f r) x) l
  | _ => l
  end.

Definition getRfs (l : Label) : RfsT := from_option r_rfs [] (part l).
Definition hasRf (l : Label) : bool := negb (bool_decide (getRfs l = [])).
(** [getRf]: [None] is the null pointer. *)
Definition getRf (l : Label) : option Event := fst <$> head (getRfs l).
Definition readsExt (l : Label) : bool :=
  match getRf l with
  | Some w => negb (EventOps.isInitializer w) && negb (thread w =? EventLabel.getThread l)
  | None => false
  end.
Definition readsInt (l : Label) : bool :=
  match getRf l with
  | Some w => EventOps.isInitializer w || (thread w =? EventLabel.getThread l)
  | None => false
  end.
Definition isIPR (l : Label) : bool := from_option r_ipr false (part l).
Definition setIPRStatus (b : bool) : Label -> Label := map_part (fun r => mkRead (r_rfs r) b (r_annot r)).
Definition getAnnot (l : Label) : option (SExprOps.SExpr Z) := part l ≫= r_annot.
Definition setAnnot (annot : option (SExprOps.SExpr Z)) : Label -> Label :=
  map_part (fun r => mkRead (r_rfs r) (r_ipr r) annot).

(** [setRf(RfsT)], [clearRfs], [addRf] and [removeRf]. *)
Definition setRfs (rfs : RfsT) : Label -> Label := map_part (fun r => mkRead rfs (r_ipr r) (r_annot r)).
(** [setRf] of one label: the whole access from one write, or nothing. *)
Definition setRf (w : option Event) (l : Label) : Label :=
  match w with
  | Some w => setRfs [(w, MemAccessLabel.getAccess l)] l
  | None => setRfs [] l
  end.
Definition clearRfs : Label -> Label := setRfs [].
Definition addRf (w : Event) (a : AAccess) (l : Label) : Label := setRfs (getRfs l ++ [(w, a)]) l.
Definition removeRf (p : Event) (l : Label) : Label :=
  setRfs (filter (fun wa => fst wa <> p) (getRfs l)) l.
Definition reset_part : Label -> Label := map_part (fun r => mkRead [] false (r_annot r)).

End ReadLabel.

(** ** WriteLabel *)
Module WriteLabel.

Definition classof (k : EventLabelKind) : bool := kin EL_Write EL_LastWrite k.

Definition part (l : Label) : option WritePart :=
  match payload l with PWrite _ w _ => Some w | _ => None end.
Definition map_part (f : WritePart -> WritePart) (l : Label) : Label :=
  match payload l with
  | PWrite m w x => EventLabel.setPayload (PWrite m (f w) x) l
  | _ => l
  end.

Definition getVal (l : Label) : Z := from_option w_value 0 (part l).
Definition setVal (v : Z) : Label -> Label :=
  map_part (fun w => mkWrite v (w_readers w) (w_attr w)).
Definition getAttr (l : Label) : Z := from_option w_attr 0 (part l).
Definition setAttr (a : Z) : Label -> Label :=
  map_part (fun w => mkWrite (w_value w) (w_readers w) (WriteAttr.setAttr (w_attr w) a)).
Definition hasAttr (l : Label) (a : Z) : bool := WriteAttr.hasAttr (getAttr l) a.
Definition isFinal (l : Label) : bool := hasAttr l WriteAttr.Final.
Definition isLocal (l : Label) : bool := hasAttr l WriteAttr.Local.
Definition readers (l : Label) : list Event := from_option w_readers [] (part l).
Definition setReaders (rs : list Event) : Label -> Label :=
  map_part (fun w => mkWrite (w_value w) rs (w_attr w)).

(** [addReader]: stops the process if the read is already there. *)
Definition addReader (r : Event) (l : Label) : outcome Label :=
  _ ← BUG_ON (bool_decide (r ∈ readers l));
  Ret (setReaders (readers l ++ [r]) l).
Definition removeReader (cond : Event -> bool) (l : Label) : Label :=
  setReaders (filter (fun r => cond r = false) (readers l)) l.
Definition reset_part : Label -> Label :=
  map_part (fun w => mkWrite (w_value w) [] (WriteAttr.clearAttr (w_attr w) WriteAttr.RevBlocker)).

(** [getSizedValAtOffset]: the bytes of [a] in the value of the write.  The
    64-bit [a.getAddr() - getAddr()] bytes are shifted out and the result is
    masked; the second shift is by the unsigned [64 - 8 * size]. *)
Definition getSizedValAtOffset (l : Label) (a : AAccess) : outcome Z :=
  _ ← BUG_ON (negb (AccessOps.contains (MemAccessLabel.getAccess l) (acc_addr a)));
  hi ← SVal.shr (getVal l) (SVal.mul (SAddr.diff (acc_addr a) (MemAccessLabel.getAddr l)) 8);
  mask ← SVal.shr (2 ^ 64 - 1) (u32 (64 - u32 (acc_size a * 8)));
  Ret (SVal.land hi mask).

End WriteLabel.

(** ** FaiReadLabel and CasReadLabel *)
Module RmwReadLabel.
Definition extra (l : Label) : ReadExtra :=
  match payload l with PRead _ _ x => x | _ => RPlain end.
Definition map_extra (f : ReadExtra -> ReadExtra) (l : Label) : Label :=
  match payload l with
  | PRead m r x => EventLabel.setPayload (PRead m r (f x)) l
  | _ => l
  end.
(** [getAttr] and [setAttr] of both classes. *)
Definition getAttr (l : Label) : Z :=
  match extra l with RFai _ _ a | RCas _ _ a => a | _ => WriteAttr.None_ end.
Definition setAttr (a : Z) : Label -> Label :=
  map_extra (fun x => match x with
    | RFai op v w => RFai op v (WriteAttr.setAttr w a)
    | RCas e s w => RCas e s (WriteAttr.setAttr w a)
    | x => x end).
Definition hasAttr (l : Label) (a : Z) : bool := WriteAttr.hasAttr (getAttr l) a.
(** [FaiReadLabel::getOp] and [getOpVal], [CasReadLabel::getExpected] and
    [getSwapVal]. *)
Definition getOp (l : Label) : option Z := match extra l with RFai op _ _ => Some op | _ => None end.
Definition getOpVal (l : Label) : option Z := match extra l with RFai _ v _ => Some v | _ => None end.
Definition getExpected (l : Label) : option Z := match extra l with RCas e _ _ => Some e | _ => None end.
Definition getSwapVal (l : Label) : option Z := match extra l with RCas _ s _ => Some s | _ => None end.
(** The parts of [reset()] that are their own. *)
Definition reset_part : Label -> Label :=
  map_extra (fun x => match x with
    | RFai op v w => RFai op v (WriteAttr.clearAttr w WriteAttr.RevBlocker)
    | RCas e s w => RCas e s (WriteAttr.clearAttr w WriteAttr.RevBlocker)
    | x => x end).
End RmwReadLabel.

(** ** DskAccessLabel: the second base class of disk accesses *)
Module DskAccessLabel.
Definition classof (k : EventLabelKind) : bool :=
  kis EL_DskRead k || kin EL_DskWrite EL_LastDskWrite k || kis EL_DskSync k
  || kis EL_DskFsync k || kis EL_DskPbarrier k.

Definition getPbView (l : Label) : option DepViewT :=
  match payload l with
  | PRead _ _ (RDsk v) => Some v
  | PWrite _ _ (WDsk v _ _ _) => Some v
  | PDskSync v => Some v
  | PDskFsync v _ _ => Some v
  | _ => None
  end.
Definition setPbView (v : DepViewT) (l : Label) : Label :=
  match payload l with
  | PRead m r (RDsk _) => EventLabel.setPayload (PRead m r (RDsk v)) l
  | PWrite m w (WDsk _ p o i) => EventLabel.setPayload (PWrite m w (WDsk v p o i)) l
  | PDskSync _ => EventLabel.setPayload (PDskSync v) l
  | PDskFsync _ i s => EventLabel.setPayload (PDskFsync v i s) l
  | _ => l
  end.
(** [DskAccessLabel::reset()] *)
Definition reset_part (l : Label) : Label := setPbView DepView.make l.

(** [EventLabel::castToDskAccessLabel]: the kinds its switch lists; any other
    stops the process. *)
Definition castTo (l : Label) : outcome Label :=
  match kind l with
  | EL_DskRead | EL_DskWrite | EL_DskMdWrite | EL_DskJnlWrite | EL_DskDirWrite
  | EL_DskSync | EL_DskFsync | EL_DskPbarrier => Ret l
  | _ => Bug
  end.
(** [EventLabel::castFromDskAccessLabel], on the kind kept by the disk access. *)
Definition castFrom (l : Label) : outcome Label :=
  match kind l with
  | EL_DskRead | EL_DskWrite | EL_DskMdWrite | EL_DskJnlWrite | EL_DskDirWrite
  | EL_DskSync | EL_DskFsync | EL_DskPbarrier => Ret l
  | _ => Bug
  end.
End DskAccessLabel.

(** ** InitLabel: the reads from the initial values, per aligned address

    [initRfs] is an [std::unordered_map]; the list keeps its iteration order,
    a new bucket last. *)
Module InitLabel.
Definition classof (k : EventLabelKind) : bool := kis EL_Init k.

Fixpoint bucket_get (m : list (Z * list Event)) (a : Z) : option (list Event) :=
  match m with
  | [] => None
  | (b, rs) :: m => if b =? a then Some rs else bucket_get m a
  end.
(** [m[a] = f(m[a])], the bucket created when it does not exist. *)
Fixpoint bucket_alter (f : list Event -> list Event) (a : Z) (m : list (Z * list Event)) :
    list (Z * list Event) :=
  match m with
  | [] => [(a, f [])]
  | (b, rs) :: m => if b =? a then (b, f rs) :: m else (b, rs) :: bucket_alter f a m
  end.

Definition initRfs (l : Label) : list (Z * list Event) :=
  match payload l with PInit m => m | _ => [] end.
Definition map_initRfs (f : list (Z * list Event) -> list (Z * list Event)) (l : Label) : Label :=
  match payload l with PInit m => EventLabel.setPayload (PInit (f m)) l | _ => l end.
Definition bucket (l : Label) (addr : Z) : list Event :=
  default [] (bucket_get (initRfs l) (SAddr.align addr)).
End InitLabel.

(** ** MallocLabel and FreeLabel *)
Module MallocLabel.
Definition classof (k : EventLabelKind) : bool := kis EL_Malloc k.
Definition getAllocAddr (l : Label) : Z :=
  match payload l with PMalloc a _ _ _ _ _ _ _ _ => a | _ => 0 end.
Definition getAllocSize (l : Label) : Z :=
  match payload l with PMalloc _ _ _ s _ _ _ _ _ => s | _ => 0 end.
Definition getFree (l : Label) : option Event :=
  match payload l with PMalloc _ d _ _ _ _ _ _ _ => d | _ => None end.
Definition accesses (l : Label) : list Event :=
  match payload l with PMalloc _ _ acc _ _ _ _ _ _ => acc | _ => [] end.
Definition setAllocAddr (a : Z) (l : Label) : Label :=
  match payload l with
  | PMalloc _ d acc s al sd st sp n => EventLabel.setPayload (PMalloc a d acc s al sd st sp n) l
  | _ => l
  end.
Definition setFree (d : option Event) (l : Label) : Label :=
  match payload l with
  | PMalloc a _ acc s al sd st sp n => EventLabel.setPayload (PMalloc a d acc s al sd st sp n) l
  | _ => l
  end.
Definition setAccesses (acc : list Event) (l : Label) : Label :=
  match payload l with
  | PMalloc a d _ s al sd st sp n => EventLabel.setPayload (PMalloc a d acc s al sd st sp n) l
  | _ => l
  end.
(** [contains]: the end of the block is a 64-bit sum. *)
Definition contains (l : Label) (addr : Z) : bool :=
  (getAllocAddr l <=? addr) && (addr <? SAddr.add (getAllocAddr l) (getAllocSize l)).
Definition addAccess (p : Event) (l : Label) : outcome Label :=
  _ ← BUG_ON (bool_decide (p ∈ accesses l));
  Ret (setAccesses (accesses l ++ [p]) l).
Definition removeAccess (cond : Event -> bool) (l : Label) : Label :=
  setAccesses (filter (fun p => cond p = false) (accesses l)) l.
Definition reset_part (l : Label) : Label := setAccesses [] (setFree None l).
End MallocLabel.

Module FreeLabel.
Definition classof (k : EventLabelKind) : bool := kin EL_Free EL_FreeLast k.
Definition getFreedAddr (l : Label) : Z := match payload l with PFree a _ _ => a | _ => 0 end.
Definition getFreedSize (l : Label) : Z := match payload l with PFree _ s _ => s | _ => 0 end.
Definition getAlloc (l : Label) : option Event := match payload l with PFree _ _ a => a | _ => None end.
Definition setFreedSize (s : Z) (l : Label) : Label :=
  match payload l with PFree a _ al => EventLabel.setPayload (PFree a s al) l | _ => l end.
Definition setAlloc (al : option Event) (l : Label) : Label :=
  match payload l with PFree a s _ => EventLabel.setPayload (PFree a s al) l | _ => l end.
Definition contains (l : Label) (addr : Z) : bool :=
  (getFreedAddr l <=? addr) && (addr <? SAddr.add (getFreedAddr l) (getFreedSize l)).
Definition reset_part (l : Label) : Label := setAlloc None l.
End FreeLabel.

(** ** ThreadFinishLabel *)
Module ThreadFinishLabel.
Definition classof (k : EventLabelKind) : bool := kis EL_ThreadFinish k.
Definition getParentJoin (l : Label) : option Event :=
  match payload l with PThreadFinish j _ => j | _ => None end.
Definition setParentJoin (j : option Event) (l : Label) : Label :=
  match payload l with PThreadFinish _ v => EventLabel.setPayload (PThreadFinish j v) l | _ => l end.
Definition getRetVal (l : Label) : Z := match payload l with PThreadFinish _ v => v | _ => 0 end.
Definition reset_part (l : Label) : Label := setParentJoin None l.
End ThreadFinishLabel.

(** ** The virtual [reset()]: the override of the most derived class *)
Definition reset (l : Label) : Label :=
  let l := EventLabel.reset_base l in
  match payload l with
  | PRead _ _ RPlain => ReadLabel.reset_part (MemAccessLabel.reset_part l)
  | PRead _ _ (RFai _ _ _) | PRead _ _ (RCas _ _ _) =>
      RmwReadLabel.reset_part (ReadLabel.reset_part (MemAccessLabel.reset_part l))
  | PRead _ _ (RDsk _) =>
      DskAccessLabel.reset_part (ReadLabel.reset_part (MemAccessLabel.reset_part l))
  | PWrite _ _ WPlain => WriteLabel.reset_part (MemAccessLabel.reset_part l)
  | PWrite _ _ (WDsk _ _ _ _) =>
      DskAccessLabel.reset_part (WriteLabel.reset_part (MemAccessLabel.reset_part l))
  | PDskSync _ | PDskFsync _ _ _ => DskAccessLabel.reset_part l
  | PThreadFinish _ _ => ThreadFinishLabel.reset_part l
  | PMalloc _ _ _ _ _ _ _ _ _ => MallocLabel.reset_part l
  | PFree _ _ _ => FreeLabel.reset_part l
  | _ => l
  end.

(** ** Facts about labels *)
Module LabelFacts.

(** The payload of a label agrees with its kind. *)
Definition label_ok (l : Label) : bool :=
  match payload l with
  | PRead _ _ _ => ReadLabel.classof (kind l)
  | PWrite _ _ _ => WriteLabel.classof (kind l)
  | PInit _ => InitLabel.classof (kind l)
  | PMalloc _ _ _ _ _ _ _ _ _ => MallocLabel.classof (kind l)
  | PFree _ _ _ => FreeLabel.classof (kind l)
  | PThreadFinish _ _ => ThreadFinishLabel.classof (kind l)
  | _ => negb (MemAccessLabel.classof (kind l) || InitLabel.classof (kind l)
               || MallocLabel.classof (kind l) || FreeLabel.classof (kind l)
               || ThreadFinishLabel.classof (kind l))
  end.

(** The classes whose members a graph follows exclude each other. *)
Lemma classes_disjoint k :
  (ReadLabel.classof k = true -> WriteLabel.classof k = false /\ InitLabel.classof k = false) /\
  (WriteLabel.classof k = true -> InitLabel.classof k = false) /\
  (ReadLabel.classof k = true \/ WriteLabel.classof k = true -> MemAccessLabel.classof k = true).
Proof.
  destruct k; unfold ReadLabel.classof, WriteLabel.classof, InitLabel.classof,
    MemAccessLabel.classof, kin, kis; simpl; intuition done.
Qed.

Lemma ok_read l :
  label_ok l = true -> ReadLabel.classof (kind l) = true ->
  exists m r x, payload l = PRead m r x.
Proof.
  unfold label_ok. intros H Hr. destruct (classes_disjoint (kind l)) as (H1 & _ & H3).
  destruct (H1 Hr) as [Hw Hi]. specialize (H3 (or_introl Hr)).
  destruct (payload l); eauto; rewrite ?Hw, ?Hi, ?H3 in H; try discriminate.
  all: revert H Hr; destruct (kind l); vm_compute; congruence.
Qed.

Lemma ok_write l :
  label_ok l = true -> WriteLabel.classof (kind l) = true ->
  exists m w x, payload l = PWrite m w x.
Proof.
  unfold label_ok. intros H Hw. destruct (classes_disjoint (kind l)) as (H1 & H2 & H3).
  specialize (H2 Hw). specialize (H3 (or_intror Hw)).
  destruct (payload l); eauto; rewrite ?H2, ?H3 in H; try discriminate.
  all: revert H Hw; destruct (kind l); vm_compute; congruence.
Qed.

(** *** Resetting a label *)

Ltac case_payload l :=
  let k := fresh "k" in let pl := fresh "pl" in
  destruct l as [k ? ? ? ? ? ? ? ? pl]; destruct pl;
  repeat match goal with x : ReadExtra |- _ => destruct x | x : WriteExtra |- _ => destruct x end.

Lemma clearAttr_idem w a : WriteAttr.clearAttr (WriteAttr.clearAttr w a) a = WriteAttr.clearAttr w a.
Proof. unfold WriteAttr.clearAttr. by rewrite Z.ldiff_ldiff_l, Z.lor_diag. Qed.

Lemma reset_idem l : reset (reset l) = reset l.
Proof. case_payload l; try done; unfold reset; cbn; by rewrite !clearAttr_idem. Qed.

Lemma reset_identity l :
  (kind (reset l), getPos (reset l), ordering (reset l), deps (reset l)) =
  (kind l, getPos l, ordering l, deps l).
Proof. by case_payload l. Qed.

Lemma reset_fields l :
  stamp (reset l) = None /\ prefixView (reset l) = None /\
  ReadLabel.getRfs (reset l) = [] /\ WriteLabel.readers (reset l) = [] /\
  MemAccessLabel.getAlloc (reset l) = None /\ MallocLabel.accesses (reset l) = [] /\
  MemAccessLabel.getAccess (reset l) = MemAccessLabel.getAccess l /\
  WriteLabel.getVal (reset l) = WriteLabel.getVal l /\
  MemAccessLabel.wasAddedMax (reset l) = bool_decide (is_Some (MemAccessLabel.part l)).
Proof.
  repeat split; case_payload l; try done; symmetry; by (apply bool_decide_eq_true_2; eauto)
    || (apply bool_decide_eq_false_2; intros [? [=]]).
Qed.

Lemma reset_label_ok l : label_ok (reset l) = label_ok l.
Proof. by case_payload l. Qed.

Lemma reset_attr l n :
  0 <= n -> WriteLabel.hasAttr (reset l) (2 ^ n) = WriteLabel.hasAttr l (2 ^ n) && negb (n =? 2).
Proof.
  intros Hn. unfold WriteLabel.hasAttr. rewrite !WriteAttr.hasAttr_bit by done.
  assert (Z.testbit 0 n = false) as H0 by apply Z.bits_0.
  assert (forall w, Z.testbit (Z.ldiff w 4) n = Z.testbit w n && negb (n =? 2)) as Hc.
  { intros w. rewrite Z.ldiff_spec. change 4 with (2 ^ 2). rewrite Z.pow2_bits_eqb by lia.
    by rewrite Z.eqb_sym. }
  case_payload l; cbn; rewrite ?H0; try done; apply Hc.
Qed.

Lemma reset_unstable l : label_ok l = true -> isStable (reset l) = false.
Proof.
  intros Hok. destruct (reset_fields l) as (_ & _ & _ & _ & _ & _ & _ & _ & Hm).
  unfold isStable. rewrite Hm. pose proof (reset_identity l) as [= -> _ _ _].
  assert (EventLabel.isRevisitable (reset l) = true) as -> by (by case_payload l). simpl.
  destruct (MemAccessLabel.classof (kind l)) eqn:Hk; [|done]. simpl.
  apply negb_false_iff, bool_decide_eq_true. unfold label_ok in Hok. unfold MemAccessLabel.part.
  destruct (payload l); try eauto; rewrite Hk in Hok || idtac; try discriminate.
  all: exfalso; revert Hok Hk; destruct (kind l); vm_compute; congruence.
Qed.

(** What a reset does to a label: everything a graph attached to it goes, its
    identity, its access, its value and its dependencies stay; of the
    attributes only [RevBlocker] is cleared, and resetting twice changes
    nothing more. *)
Theorem reset_detaches l :
  label_ok l = true ->
  reset (reset l) = reset l /\
  (kind (reset l), getPos (reset l), ordering (reset l), deps (reset l)) =
    (kind l, getPos l, ordering l, deps l) /\
  stamp (reset l) = None /\ prefixView (reset l) = None /\ isStable (reset l) = false /\
  ReadLabel.getRfs (reset l) = [] /\ WriteLabel.readers (reset l) = [] /\
  MemAccessLabel.getAlloc (reset l) = None /\ MallocLabel.accesses (reset l) = [] /\
  MemAccessLabel.getAccess (reset l) = MemAccessLabel.getAccess l /\
  WriteLabel.getVal (reset l) = WriteLabel.getVal l /\
  label_ok (reset l) = true /\
  forall n, 0 <= n ->
    WriteLabel.hasAttr (reset l) (2 ^ n) = WriteLabel.hasAttr l (2 ^ n) && negb (n =? 2).
Proof.
  intros Hok. split; [apply reset_idem|].
  split; [apply reset_identity|].
  destruct (reset_fields l) as (-> & -> & -> & -> & -> & -> & -> & -> & _).
  split; [done|]. split; [done|].
  split; [by apply reset_unstable|]. split; [done|]. split; [done|]. split; [done|].
  split; [done|]. split; [done|]. split; [done|].
  split; [by rewrite reset_label_ok|]. intros n Hn. by apply reset_attr.
Qed.

Lemma reset_detaches_witness :
  let l := WriteLabel.setReaders [mkEvent 1 1]
             (EventLabel.setStamp 4 (EventLabel.make EL_Write (mkEvent 2 3) Release DepInfo.no_deps
               (PWrite (mkMem (mkAccess 8 4 Signed) false (Some (mkEvent 0 1))) (mkWrite 7 [] 6) WPlain))) in
  label_ok l = true /\ reset (reset l) = reset l /\ WriteLabel.readers (reset l) = [] /\
  WriteLabel.hasAttr (reset l) (2 ^ 1) = true.
Proof.
  split; [reflexivity|].
  set (l := WriteLabel.setReaders _ _). assert (H : label_ok l = true) by reflexivity.
  destruct (reset_detaches l H) as (H1 & _ & _ & _ & _ & _ & H2 & _ & _ & _ & _ & _ & H3).
  split; [exact H1|]. split; [exact H2|]. rewrite H3 by lia. reflexivity.
Defined.

(** *** Reading a part of a written value *)

(** The part of a value that an access of one to eight bytes inside the write
    reads: exactly the bits of those bytes.  An access that starts outside the
    write stops the process. *)
Theorem getSizedValAtOffset_bytes l a :
  let w := MemAccessLabel.getAccess l in
  AccessOps.bounded w -> acc_size w <= 8 -> SVal.ok (WriteLabel.getVal l) ->
  SVal.ok (acc_addr a) -> 1 <= acc_size a <= 8 ->
  (AccessOps.contains w (acc_addr a) = false -> WriteLabel.getSizedValAtOffset l a = Bug) /\
  (AccessOps.contains w (acc_addr a) = true ->
   exists r, WriteLabel.getSizedValAtOffset l a = Ret r /\ SVal.ok r /\
     forall i, 0 <= i ->
       Z.testbit r i = (i <? 8 * acc_size a) &&
                       Z.testbit (WriteLabel.getVal l) (i + 8 * (acc_addr a - acc_addr w))).
Proof.
  intros w Hw Hsz Hv Ha Hs. unfold WriteLabel.getSizedValAtOffset. fold w.
  split; [intros ->; done|]. intros Hc. rewrite Hc. cbn [negb BUG_ON mbind outcome_bind].
  apply AccessOps.acc_contains_spec in Hc as [_ Hc]; [|done].
  assert (SAddr.diff (acc_addr a) (MemAccessLabel.getAddr l) = acc_addr a - acc_addr w) as ->.
  { unfold SAddr.diff. apply wrap_small. unfold MemAccessLabel.getAddr. fold w. lia. }
  set (off := acc_addr a - acc_addr w). assert (0 <= off < 8) as Hoff by (unfold off; lia).
  assert (SVal.mul off 8 = 8 * off) as -> by (unfold SVal.mul; rewrite wrap_small; lia).
  assert (u32 (64 - u32 (acc_size a * 8)) = 64 - 8 * acc_size a) as ->.
  { rewrite (wrap_small 32 (acc_size a * 8)) by lia. rewrite wrap_small; lia. }
  unfold SVal.shr. destruct (Z.ltb_spec (8 * off) 64); [|lia]. cbn [mbind outcome_bind].
  destruct (Z.ltb_spec (64 - 8 * acc_size a) 64); [|lia]. cbn [mbind outcome_bind].
  eexists. split; [reflexivity|].
  assert (Hb : forall i, 0 <= i ->
    Z.testbit (Z.land (WriteLabel.getVal l ≫ (8 * off)) ((2 ^ 64 - 1) ≫ (64 - 8 * acc_size a))) i =
    (i <? 8 * acc_size a) && Z.testbit (WriteLabel.getVal l) (i + 8 * off)).
  { intros i Hi. rewrite Z.land_spec, !Z.shiftr_spec by done.
    change (2 ^ 64 - 1) with (Z.ones 64). rewrite andb_comm. f_equal.
    destruct (Z.ltb_spec i (8 * acc_size a)).
    - apply Z.ones_spec_low. lia.
    - apply Z.ones_spec_high. lia. }
  split; [|exact Hb]. apply SVal.ok_bits.
  - apply Z.land_nonneg. left. apply Z.shiftr_nonneg. by destruct Hv.
  - intros i Hi. unfold SVal.land. rewrite Hb by lia. destruct (Z.ltb_spec i (8 * acc_size a)); [lia|done].
Qed.

Lemma getSizedValAtOffset_bytes_witness :
  let l := EventLabel.make EL_Write (mkEvent 2 3) Release DepInfo.no_deps
             (PWrite (mkMem (mkAccess 8 4 Unsigned) true None) (mkWrite 0x11223344 [] 0) WPlain) in
  exists r, WriteLabel.getSizedValAtOffset l (mkAccess 10 1 Unsigned) = Ret r /\ SVal.ok r /\
    forall i, 0 <= i ->
      Z.testbit r i = (i <? 8 * 1) && Z.testbit 0x11223344 (i + 8 * (10 - 8)).
Proof.
  intros l.
  apply (getSizedValAtOffset_bytes l (mkAccess 10 1 Unsigned));
    repeat split; vm_compute; (reflexivity || discriminate).
Defined.

End LabelFacts.
