(* ===== verification/LabelClasses.v ===== *)
(** * The label classes: their constructors and their run-time type tests
    (src/src/EventLabel.hpp), the dispatch of visitors over them
    (src/src/LabelVisitor.hpp) and their printed names (src/src/EventLabel.cpp).

    A constructor with default arguments is the definition of the class's most
    general public constructor; [.._default] is the overload that fixes the
    ordering (and, for locks, the type and the values). *)
From Stdlib Require Import String.
From S2P Require Import Prelude Event SVal SAddr VSet Deps Views Labels.

Abbreviation Deps := DepInfo.EventDeps.

(** ** Constructors *)
Module Make.

Definition EmptyLabel (pos : Event) : Label :=
  EventLabel.make EL_Empty pos NotAtomic DepInfo.no_deps PNone.

(** [BlockLabel] and the classes [BLOCK_PURE_SUBCLASS] declares. *)
Definition BlockLabel (k : EventLabelKind) (pos : Event) (pl : Payload) : Label :=
  EventLabel.make k pos NotAtomic DepInfo.no_deps pl.
Definition SpinloopBlockLabel pos := BlockLabel EL_SpinloopBlock pos PNone.
Definition FaiZNEBlockLabel pos := BlockLabel EL_FaiZNEBlock pos PNone.
Definition LockZNEBlockLabel pos := BlockLabel EL_LockZNEBlock pos PNone.
Definition HelpedCASBlockLabel pos := BlockLabel EL_HelpedCASBlock pos PNone.
Definition ConfirmationBlockLabel pos := BlockLabel EL_ConfirmationBlock pos PNone.
Definition LockNotAcqBlockLabel pos := BlockLabel EL_LockNotAcqBlock pos PNone.
Definition LockNotRelBlockLabel pos := BlockLabel EL_LockNotRelBlock pos PNone.
Definition BarrierBlockLabel pos := BlockLabel EL_BarrierBlock pos PNone.
Definition ErrorBlockLabel pos := BlockLabel EL_ErrorBlock pos PNone.
Definition UserBlockLabel pos := BlockLabel EL_UserBlock pos PNone.
Definition JoinBlockLabel pos (childId : Z) := BlockLabel EL_JoinBlock pos (PJoinBlock childId).
Definition ReadOptBlockLabel pos (addr : Z) := BlockLabel EL_ReadOptBlock pos (PReadOpt addr).

Definition OptionalLabel pos (deps : Deps) :=
  EventLabel.make EL_Optional pos NotAtomic deps (POptional true false).
Definition LoopBeginLabel pos (deps : Deps) := EventLabel.make EL_LoopBegin pos NotAtomic deps PNone.
Definition SpinStartLabel pos (deps : Deps) := EventLabel.make EL_SpinStart pos NotAtomic deps PNone.
Definition FaiZNESpinEndLabel pos (deps : Deps) :=
  EventLabel.make EL_FaiZNESpinEnd pos NotAtomic deps PNone.
Definition LockZNESpinEndLabel pos (deps : Deps) :=
  EventLabel.make EL_LockZNESpinEnd pos NotAtomic deps PNone.

(** The protected [MemAccessLabel] constructor: the members of an access. *)
Definition MemAccess (loc size : Z) (type : AType) : MemPart :=
  mkMem (mkAccess loc size type) true None.

(** The protected [ReadLabel] constructor without an annotation, which
    [ReadLabel.setAnnot] adds. *)
Definition Read (k : EventLabelKind) pos ord (loc size : Z) (type : AType) (rf : option Event)
    (x : ReadExtra) (deps : Deps) : Label :=
  let m := MemAccess loc size type in
  let rfs := match rf with Some w => [(w, m_access m)] | None => [] end in
  EventLabel.make k pos ord deps (PRead m (mkRead rfs false None) x).

Definition ReadLabel pos ord loc size type rf deps := Read EL_Read pos ord loc size type rf RPlain deps.
Definition SpeculativeReadLabel pos ord loc size type rf deps :=
  Read EL_SpeculativeRead pos ord loc size type rf RPlain deps.
Definition ConfirmingReadLabel pos ord loc size type rf deps :=
  Read EL_ConfirmingRead pos ord loc size type rf RPlain deps.
Definition BWaitReadLabel pos ord loc size type rf deps :=
  Read EL_BWaitRead pos ord loc size type rf RPlain deps.

Definition FaiRead (k : EventLabelKind) pos ord addr size type (op val wattr : Z) rf deps :=
  Read k pos ord addr size type rf (RFai op val wattr) deps.
Definition FaiReadLabel := FaiRead EL_FaiRead.
Definition NoRetFaiReadLabel := FaiRead EL_NoRetFaiRead.
Definition BIncFaiReadLabel := FaiRead EL_BIncFaiRead.

Definition CasRead (k : EventLabelKind) pos ord addr size type (exp swap wattr : Z) rf deps :=
  Read k pos ord addr size type rf (RCas exp swap wattr) deps.
Definition CasReadLabel := CasRead EL_CasRead.
Definition HelpedCasReadLabel := CasRead EL_HelpedCasRead.
Definition ConfirmingCasReadLabel := CasRead EL_ConfirmingCasRead.
Definition LockCasReadLabel := CasRead EL_LockCasRead.
Definition LockCasReadLabel_default pos addr size wattr rf deps :=
  LockCasReadLabel pos Acquire addr size Signed 0 1 wattr rf deps.
Definition TrylockCasReadLabel := CasRead EL_TrylockCasRead.
Definition TrylockCasReadLabel_default pos addr size wattr rf deps :=
  TrylockCasReadLabel pos Acquire addr size Signed 0 1 wattr rf deps.

Definition DskReadLabel pos ord loc size type rf deps :=
  Read EL_DskRead pos ord loc size type rf (RDsk DepView.make) deps.
Definition DskReadLabel_default pos loc size type rf deps :=
  DskReadLabel pos Acquire loc size type rf deps.

(** The protected [WriteLabel] constructor. *)
Definition Write (k : EventLabelKind) pos ord (addr size : Z) (type : AType) (val wattr : Z)
    (x : WriteExtra) (deps : Deps) : Label :=
  EventLabel.make k pos ord deps
    (PWrite (MemAccess addr size type) (mkWrite val [] wattr) x).

Definition WriteLabel pos ord addr size type val wattr deps :=
  Write EL_Write pos ord addr size type val wattr WPlain deps.
Definition UnlockWriteLabel pos ord addr size type val deps :=
  Write EL_UnlockWrite pos ord addr size type val WriteAttr.None_ WPlain deps.
Definition UnlockWriteLabel_default pos addr size deps :=
  UnlockWriteLabel pos Release addr size Signed 0 deps.
Definition BInitWriteLabel pos ord addr size type val deps :=
  Write EL_BInitWrite pos ord addr size type val WriteAttr.None_ WPlain deps.
Definition BDestroyWriteLabel pos ord addr size type val deps :=
  Write EL_BDestroyWrite pos ord addr size type val WriteAttr.None_ WPlain deps.
Definition FaiWriteLabel pos ord addr size type val wattr deps :=
  Write EL_FaiWrite pos ord addr size type val wattr WPlain deps.
Definition NoRetFaiWriteLabel pos ord addr size type val wattr deps :=
  Write EL_NoRetFaiWrite pos ord addr size type val wattr WPlain deps.
Definition BIncFaiWriteLabel pos ord addr size type val wattr deps :=
  Write EL_BIncFaiWrite pos ord addr size type val wattr WPlain deps.
Definition CasWriteLabel pos ord addr size type val wattr deps :=
  Write EL_CasWrite pos ord addr size type val wattr WPlain deps.
Definition HelpedCasWriteLabel pos ord addr size type val wattr deps :=
  Write EL_HelpedCasWrite pos ord addr size type val wattr WPlain deps.
Definition ConfirmingCasWriteLabel pos ord addr size type val wattr deps :=
  Write EL_ConfirmingCasWrite pos ord addr size type val wattr WPlain deps.
Definition LockCasWriteLabel pos ord addr size type val wattr deps :=
  Write EL_LockCasWrite pos ord addr size type val wattr WPlain deps.
Definition LockCasWriteLabel_default pos addr size deps :=
  LockCasWriteLabel pos Acquire addr size Signed 1 WriteAttr.None_ deps.
(** The constructor takes attributes and passes [WriteAttr::None] on. *)
Definition TrylockCasWriteLabel pos ord addr size type val (wattr : Z) deps :=
  Write EL_TrylockCasWrite pos ord addr size type val WriteAttr.None_ WPlain deps.
Definition TrylockCasWriteLabel_default pos addr size deps :=
  TrylockCasWriteLabel pos Acquire addr size Signed 1 WriteAttr.None_ deps.

Definition DskWrite (k : EventLabelKind) pos ord addr size type val (mapping : Z) ordDataRange inode
    deps :=
  Write k pos ord addr size type val WriteAttr.None_ (WDsk DepView.make mapping ordDataRange inode) deps.
Definition DskWriteLabel pos ord addr size type val mapping deps :=
  DskWrite EL_DskWrite pos ord addr size type val mapping None None deps.
Definition DskMdWriteLabel pos ord addr size type val mapping ordDataRange deps :=
  DskWrite EL_DskMdWrite pos ord addr size type val mapping (Some ordDataRange) None deps.
Definition DskDirWriteLabel pos ord addr size type val mapping deps :=
  DskWrite EL_DskDirWrite pos ord addr size type val mapping None None deps.
Definition DskJnlWriteLabel pos ord addr size type val mapping inode deps :=
  DskWrite EL_DskJnlWrite pos ord addr size type val mapping None (Some inode) deps.

Definition FenceLabel pos ord deps := EventLabel.make EL_Fence pos ord deps PNone.
Definition DskFsyncLabel pos ord inode size deps :=
  EventLabel.make EL_DskFsync pos ord deps (PDskFsync DepView.make inode size).
Definition DskSyncLabel pos ord deps := EventLabel.make EL_DskSync pos ord deps (PDskSync DepView.make).
Definition DskPbarrierLabel pos ord deps :=
  EventLabel.make EL_DskPbarrier pos ord deps (PDskSync DepView.make).
(** The ordering argument is ignored: it follows from the fence type. *)
Definition SmpFenceLabelLKMM pos (ord : AtomicOrdering) (t : SmpFenceType) deps :=
  EventLabel.make EL_SmpFenceLKMM pos (if isStrong t then SequentiallyConsistent else Monotonic) deps
    (PSmpFence t).
Definition RCUSyncLabelLKMM pos deps :=
  EventLabel.make EL_RCUSyncLKMM pos SequentiallyConsistent deps PNone.

Definition ThreadCreateLabel pos ord childInfo deps :=
  EventLabel.make EL_ThreadCreate pos ord deps (PThreadCreate childInfo).
Definition ThreadJoinLabel pos ord childId deps :=
  EventLabel.make EL_ThreadJoin pos ord deps (PThreadJoin childId).
Definition ThreadKillLabel pos deps := EventLabel.make EL_ThreadKill pos NotAtomic deps PNone.
Definition ThreadStartLabel pos ord pc tinfo symm :=
  EventLabel.make EL_ThreadStart pos ord DepInfo.no_deps (PThreadStart pc tinfo symm).
Definition ThreadFinishLabel pos ord retVal :=
  EventLabel.make EL_ThreadFinish pos ord DepInfo.no_deps (PThreadFinish None retVal).
(** [InitLabel]: a thread start at the initializer, with no reads. *)
Definition InitLabel : Label :=
  EventLabel.make EL_Init EventOps.getInit Acquire DepInfo.no_deps (PInit []).

Definition MallocLabel pos ord addr size alignment sd stype spc name deps :=
  EventLabel.make EL_Malloc pos ord deps (PMalloc addr None [] size alignment sd stype spc name).
Definition FreeLabel pos ord addr size deps := EventLabel.make EL_Free pos ord deps (PFree addr size None).
Definition HpRetireLabel pos ord addr size deps :=
  EventLabel.make EL_HpRetire pos ord deps (PFree addr size None).
Definition HpProtectLabel pos ord hpAddr protAddr deps :=
  EventLabel.make EL_HpProtect pos ord deps (PHpProtect hpAddr protAddr).
Definition LockLabelLAPOR pos ord addr deps := EventLabel.make EL_LockLAPOR pos ord deps (PLockLAPOR addr).
Definition UnlockLabelLAPOR pos ord addr deps :=
  EventLabel.make EL_UnlockLAPOR pos ord deps (PLockLAPOR addr).
Definition HelpingCasLabel pos ord addr size type exp swap deps :=
  EventLabel.make EL_HelpingCas pos ord deps (PHelpingCas (mkAccess addr size type) exp swap).
Definition DskOpenLabel pos ord fileName fd deps :=
  EventLabel.make EL_DskOpen pos ord deps (PDskOpen fileName fd).
Definition RCULockLabelLKMM pos deps := EventLabel.make EL_RCULockLKMM pos Acquire deps PNone.
Definition RCUUnlockLabelLKMM pos deps := EventLabel.make EL_RCUUnlockLKMM pos Release deps PNone.
Definition CLFlushLabel pos ord addr deps := EventLabel.make EL_CLFlush pos ord deps (PCLFlush addr).

End Make.

(** ** Type tests: [classofKind] of every class ([llvm::isa], [llvm::dyn_cast]) *)
Module Isa.

Definition EmptyLabel (k : EventLabelKind) : bool := kis EL_Empty k.
Definition BlockLabel (k : EventLabelKind) : bool := kin EL_BlockBegin EL_BlockEnd k.
Definition SpinloopBlockLabel (k : EventLabelKind) : bool := kis EL_SpinloopBlock k.
Definition FaiZNEBlockLabel (k : EventLabelKind) : bool := kis EL_FaiZNEBlock k.
Definition LockZNEBlockLabel (k : EventLabelKind) : bool := kis EL_LockZNEBlock k.
Definition HelpedCASBlockLabel (k : EventLabelKind) : bool := kis EL_HelpedCASBlock k.
Definition ConfirmationBlockLabel (k : EventLabelKind) : bool := kis EL_ConfirmationBlock k.
Definition LockNotAcqBlockLabel (k : EventLabelKind) : bool := kis EL_LockNotAcqBlock k.
Definition LockNotRelBlockLabel (k : EventLabelKind) : bool := kis EL_LockNotRelBlock k.
Definition BarrierBlockLabel (k : EventLabelKind) : bool := kis EL_BarrierBlock k.
Definition ErrorBlockLabel (k : EventLabelKind) : bool := kis EL_ErrorBlock k.
Definition UserBlockLabel (k : EventLabelKind) : bool := kis EL_UserBlock k.
Definition JoinBlockLabel (k : EventLabelKind) : bool := kis EL_JoinBlock k.
Definition ReadOptBlockLabel (k : EventLabelKind) : bool := kis EL_ReadOptBlock k.
Definition OptionalLabel (k : EventLabelKind) : bool := kis EL_Optional k.
Definition LoopBeginLabel (k : EventLabelKind) : bool := kis EL_LoopBegin k.
Definition SpinStartLabel (k : EventLabelKind) : bool := kis EL_SpinStart k.
Definition FaiZNESpinEndLabel (k : EventLabelKind) : bool := kis EL_FaiZNESpinEnd k.
Definition LockZNESpinEndLabel (k : EventLabelKind) : bool := kis EL_LockZNESpinEnd k.
Definition MemAccessLabel := MemAccessLabel.classof.
Definition ReadLabel := ReadLabel.classof.
Definition SpeculativeReadLabel (k : EventLabelKind) : bool := kis EL_SpeculativeRead k.
Definition ConfirmingReadLabel (k : EventLabelKind) : bool := kis EL_ConfirmingRead k.
Definition BWaitReadLabel (k : EventLabelKind) : bool := kis EL_BWaitRead k.
Definition FaiReadLabel (k : EventLabelKind) : bool := kin EL_FaiRead EL_FaiReadLast k.
Definition NoRetFaiReadLabel (k : EventLabelKind) : bool := kis EL_NoRetFaiRead k.
Definition BIncFaiReadLabel (k : EventLabelKind) : bool := kis EL_BIncFaiRead k.
Definition CasReadLabel (k : EventLabelKind) : bool := kin EL_CasRead EL_CasReadLast k.
Definition HelpedCasReadLabel (k : EventLabelKind) : bool := kis EL_HelpedCasRead k.
Definition ConfirmingCasReadLabel (k : EventLabelKind) : bool := kis EL_ConfirmingCasRead k.
Definition LockCasReadLabel (k : EventLabelKind) : bool := kis EL_LockCasRead k.
Definition TrylockCasReadLabel (k : EventLabelKind) : bool := kis EL_TrylockCasRead k.
Definition DskReadLabel (k : EventLabelKind) : bool := kis EL_DskRead k.
Definition WriteLabel := WriteLabel.classof.
Definition UnlockWriteLabel (k : EventLabelKind) : bool := kis EL_UnlockWrite k.
Definition BInitWriteLabel (k : EventLabelKind) : bool := kis EL_BInitWrite k.
Definition BDestroyWriteLabel (k : EventLabelKind) : bool := kis EL_BDestroyWrite k.
Definition FaiWriteLabel (k : EventLabelKind) : bool := kin EL_FaiWrite EL_FaiWriteLast k.
Definition NoRetFaiWriteLabel (k : EventLabelKind) : bool := kis EL_NoRetFaiWrite k.
Definition BIncFaiWriteLabel (k : EventLabelKind) : bool := kis EL_BIncFaiWrite k.
Definition CasWriteLabel (k : EventLabelKind) : bool := kin EL_CasWrite EL_CasWriteLast k.
Definition HelpedCasWriteLabel (k : EventLabelKind) : bool := kis EL_HelpedCasWrite k.
Definition ConfirmingCasWriteLabel (k : EventLabelKind) : bool := kis EL_ConfirmingCasWrite k.
Definition LockCasWriteLabel (k : EventLabelKind) : bool := kis EL_LockCasWrite k.
Definition TrylockCasWriteLabel (k : EventLabelKind) : bool := kis EL_TrylockCasWrite k.
Definition DskWriteLabel (k : EventLabelKind) : bool := kin EL_DskWrite EL_LastDskWrite k.
Definition DskMdWriteLabel (k : EventLabelKind) : bool := kis EL_DskMdWrite k.
Definition DskDirWriteLabel (k : EventLabelKind) : bool := kis EL_DskDirWrite k.
Definition DskJnlWriteLabel (k : EventLabelKind) : bool := kis EL_DskJnlWrite k.
Definition FenceLabel (k : EventLabelKind) : bool := kin EL_Fence EL_LastFence k.
Definition DskFsyncLabel (k : EventLabelKind) : bool := kis EL_DskFsync k.
Definition DskSyncLabel (k : EventLabelKind) : bool := kis EL_DskSync k.
Definition DskPbarrierLabel (k : EventLabelKind) : bool := kis EL_DskPbarrier k.
Definition SmpFenceLabelLKMM (k : EventLabelKind) : bool := kis EL_SmpFenceLKMM k.
Definition RCUSyncLabelLKMM (k : EventLabelKind) : bool := kis EL_RCUSyncLKMM k.
Definition ThreadCreateLabel (k : EventLabelKind) : bool := kis EL_ThreadCreate k.
Definition ThreadJoinLabel (k : EventLabelKind) : bool := kis EL_ThreadJoin k.
Definition ThreadKillLabel (k : EventLabelKind) : bool := kis EL_ThreadKill k.
Definition ThreadStartLabel (k : EventLabelKind) : bool := kin EL_ThreadStart EL_ThreadStartEnd k.
Definition InitLabel := InitLabel.classof.
Definition ThreadFinishLabel := ThreadFinishLabel.classof.
Definition MallocLabel := MallocLabel.classof.
Definition FreeLabel := FreeLabel.classof.
Definition HpRetireLabel (k : EventLabelKind) : bool := kis EL_HpRetire k.
Definition HpProtectLabel (k : EventLabelKind) : bool := kis EL_HpProtect k.
Definition LockLabelLAPOR (k : EventLabelKind) : bool := kis EL_LockLAPOR k.
Definition UnlockLabelLAPOR (k : EventLabelKind) : bool := kis EL_UnlockLAPOR k.
Definition HelpingCasLabel (k : EventLabelKind) : bool := kis EL_HelpingCas k.
Definition DskOpenLabel (k : EventLabelKind) : bool := kis EL_DskOpen k.
Definition RCULockLabelLKMM (k : EventLabelKind) : bool := kis EL_RCULockLKMM k.
Definition RCUUnlockLabelLKMM (k : EventLabelKind) : bool := kis EL_RCUUnlockLKMM k.
Definition CLFlushLabel (k : EventLabelKind) : bool := kis EL_CLFlush k.

End Isa.

(** ** The classes and their hierarchy *)
Inductive LabelClass :=
| C_EventLabel | C_EmptyLabel | C_BlockLabel | C_SpinloopBlockLabel | C_FaiZNEBlockLabel
| C_LockZNEBlockLabel | C_HelpedCASBlockLabel | C_ConfirmationBlockLabel
| C_LockNotAcqBlockLabel | C_LockNotRelBlockLabel | C_BarrierBlockLabel | C_ErrorBlockLabel
| C_UserBlockLabel | C_JoinBlockLabel | C_ReadOptBlockLabel | C_OptionalLabel
| C_LoopBeginLabel | C_SpinStartLabel | C_FaiZNESpinEndLabel | C_LockZNESpinEndLabel
| C_MemAccessLabel | C_ReadLabel | C_SpeculativeReadLabel | C_ConfirmingReadLabel
| C_BWaitReadLabel | C_FaiReadLabel | C_NoRetFaiReadLabel | C_BIncFaiReadLabel
| C_CasReadLabel | C_HelpedCasReadLabel | C_ConfirmingCasReadLabel | C_LockCasReadLabel
| C_TrylockCasReadLabel | C_DskReadLabel | C_WriteLabel | C_UnlockWriteLabel
| C_BInitWriteLabel | C_BDestroyWriteLabel | C_FaiWriteLabel | C_NoRetFaiWriteLabel
| C_BIncFaiWriteLabel | C_CasWriteLabel | C_HelpedCasWriteLabel | C_ConfirmingCasWriteLabel
| C_LockCasWriteLabel | C_TrylockCasWriteLabel | C_DskWriteLabel | C_DskMdWriteLabel
| C_DskDirWriteLabel | C_DskJnlWriteLabel | C_FenceLabel | C_DskFsyncLabel | C_DskSyncLabel
| C_DskPbarrierLabel | C_SmpFenceLabelLKMM | C_RCUSyncLabelLKMM | C_ThreadCreateLabel
| C_ThreadJoinLabel | C_ThreadKillLabel | C_ThreadStartLabel | C_InitLabel
| C_ThreadFinishLabel | C_MallocLabel | C_FreeLabel | C_HpRetireLabel | C_HpProtectLabel
| C_LockLabelLAPOR | C_UnlockLabelLAPOR | C_HelpingCasLabel | C_DskOpenLabel
| C_RCULockLabelLKMM | C_RCUUnlockLabelLKMM | C_CLFlushLabel.
#[export] Instance LabelClass_eq_dec : EqDecision LabelClass.
Proof. solve_decision. Defined.

Module Hierarchy.

Definition all_classes : list LabelClass :=
  [C_EventLabel; C_EmptyLabel; C_BlockLabel; C_SpinloopBlockLabel; C_FaiZNEBlockLabel;
   C_LockZNEBlockLabel; C_HelpedCASBlockLabel; C_ConfirmationBlockLabel;
   C_LockNotAcqBlockLabel; C_LockNotRelBlockLabel; C_BarrierBlockLabel; C_ErrorBlockLabel;
   C_UserBlockLabel; C_JoinBlockLabel; C_ReadOptBlockLabel; C_OptionalLabel; C_LoopBeginLabel;
   C_SpinStartLabel; C_FaiZNESpinEndLabel; C_LockZNESpinEndLabel; C_MemAccessLabel;
   C_ReadLabel; C_SpeculativeReadLabel; C_ConfirmingReadLabel; C_BWaitReadLabel;
   C_FaiReadLabel; C_NoRetFaiReadLabel; C_BIncFaiReadLabel; C_CasReadLabel;
   C_HelpedCasReadLabel; C_ConfirmingCasReadLabel; C_LockCasReadLabel; C_TrylockCasReadLabel;
   C_DskReadLabel; C_WriteLabel; C_UnlockWriteLabel; C_BInitWriteLabel; C_BDestroyWriteLabel;
   C_FaiWriteLabel; C_NoRetFaiWriteLabel; C_BIncFaiWriteLabel; C_CasWriteLabel;
   C_HelpedCasWriteLabel; C_ConfirmingCasWriteLabel; C_LockCasWriteLabel;
   C_TrylockCasWriteLabel; C_DskWriteLabel; C_DskMdWriteLabel; C_DskDirWriteLabel;
   C_DskJnlWriteLabel; C_FenceLabel; C_DskFsyncLabel; C_DskSyncLabel; C_DskPbarrierLabel;
   C_SmpFenceLabelLKMM; C_RCUSyncLabelLKMM; C_ThreadCreateLabel; C_ThreadJoinLabel;
   C_ThreadKillLabel; C_ThreadStartLabel; C_InitLabel; C_ThreadFinishLabel; C_MallocLabel;
   C_FreeLabel; C_HpRetireLabel; C_HpProtectLabel; C_LockLabelLAPOR; C_UnlockLabelLAPOR;
   C_HelpingCasLabel; C_DskOpenLabel; C_RCULockLabelLKMM; C_RCUUnlockLabelLKMM;
   C_CLFlushLabel].

(** The public base class that is a label. *)
Definition base (c : LabelClass) : option LabelClass :=
  match c with
  | C_EventLabel => None
  | C_SpinloopBlockLabel | C_FaiZNEBlockLabel | C_LockZNEBlockLabel | C_HelpedCASBlockLabel
  | C_ConfirmationBlockLabel | C_LockNotAcqBlockLabel | C_LockNotRelBlockLabel
  | C_BarrierBlockLabel | C_ErrorBlockLabel | C_UserBlockLabel | C_JoinBlockLabel
  | C_ReadOptBlockLabel => Some C_BlockLabel
  | C_ReadLabel | C_WriteLabel => Some C_MemAccessLabel
  | C_SpeculativeReadLabel | C_ConfirmingReadLabel | C_BWaitReadLabel | C_FaiReadLabel
  | C_CasReadLabel | C_DskReadLabel => Some C_ReadLabel
  | C_NoRetFaiReadLabel | C_BIncFaiReadLabel => Some C_FaiReadLabel
  | C_HelpedCasReadLabel | C_ConfirmingCasReadLabel | C_LockCasReadLabel
  | C_TrylockCasReadLabel => Some C_CasReadLabel
  | C_UnlockWriteLabel | C_BInitWriteLabel | C_BDestroyWriteLabel | C_FaiWriteLabel
  | C_CasWriteLabel | C_DskWriteLabel => Some C_WriteLabel
  | C_NoRetFaiWriteLabel | C_BIncFaiWriteLabel => Some C_FaiWriteLabel
  | C_HelpedCasWriteLabel | C_ConfirmingCasWriteLabel | C_LockCasWriteLabel
  | C_TrylockCasWriteLabel => Some C_CasWriteLabel
  | C_DskMdWriteLabel | C_DskDirWriteLabel | C_DskJnlWriteLabel => Some C_DskWriteLabel
  | C_DskFsyncLabel | C_DskSyncLabel | C_DskPbarrierLabel | C_SmpFenceLabelLKMM
  | C_RCUSyncLabelLKMM => Some C_FenceLabel
  | C_InitLabel => Some C_ThreadStartLabel
  | C_HpRetireLabel => Some C_FreeLabel
  | _ => Some C_EventLabel
  end.

Definition classofKind (c : LabelClass) : EventLabelKind -> bool :=
  match c with
  | C_EventLabel => fun _ => true
  | C_EmptyLabel => Isa.EmptyLabel
  | C_BlockLabel => Isa.BlockLabel
  | C_SpinloopBlockLabel => Isa.SpinloopBlockLabel
  | C_FaiZNEBlockLabel => Isa.FaiZNEBlockLabel
  | C_LockZNEBlockLabel => Isa.LockZNEBlockLabel
  | C_HelpedCASBlockLabel => Isa.HelpedCASBlockLabel
  | C_ConfirmationBlockLabel => Isa.ConfirmationBlockLabel
  | C_LockNotAcqBlockLabel => Isa.LockNotAcqBlockLabel
  | C_LockNotRelBlockLabel => Isa.LockNotRelBlockLabel
  | C_BarrierBlockLabel => Isa.BarrierBlockLabel
  | C_ErrorBlockLabel => Isa.ErrorBlockLabel
  | C_UserBlockLabel => Isa.UserBlockLabel
  | C_JoinBlockLabel => Isa.JoinBlockLabel
  | C_ReadOptBlockLabel => Isa.ReadOptBlockLabel
  | C_OptionalLabel => Isa.OptionalLabel
  | C_LoopBeginLabel => Isa.LoopBeginLabel
  | C_SpinStartLabel => Isa.SpinStartLabel
  | C_FaiZNESpinEndLabel => Isa.FaiZNESpinEndLabel
  | C_LockZNESpinEndLabel => Isa.LockZNESpinEndLabel
  | C_MemAccessLabel => Isa.MemAccessLabel
  | C_ReadLabel => Isa.ReadLabel
  | C_SpeculativeReadLabel => Isa.SpeculativeReadLabel
  | C_ConfirmingReadLabel => Isa.ConfirmingReadLabel
  | C_BWaitReadLabel => Isa.BWaitReadLabel
  | C_FaiReadLabel => Isa.FaiReadLabel
  | C_NoRetFaiReadLabel => Isa.NoRetFaiReadLabel
  | C_BIncFaiReadLabel => Isa.BIncFaiReadLabel
  | C_CasReadLabel => Isa.CasReadLabel
  | C_HelpedCasReadLabel => Isa.HelpedCasReadLabel
  | C_ConfirmingCasReadLabel => Isa.ConfirmingCasReadLabel
  | C_LockCasReadLabel => Isa.LockCasReadLabel
  | C_TrylockCasReadLabel => Isa.TrylockCasReadLabel
  | C_DskReadLabel => Isa.DskReadLabel
  | C_WriteLabel => Isa.WriteLabel
  | C_UnlockWriteLabel => Isa.UnlockWriteLabel
  | C_BInitWriteLabel => Isa.BInitWriteLabel
  | C_BDestroyWriteLabel => Isa.BDestroyWriteLabel
  | C_FaiWriteLabel => Isa.FaiWriteLabel
  | C_NoRetFaiWriteLabel => Isa.NoRetFaiWriteLabel
  | C_BIncFaiWriteLabel => Isa.BIncFaiWriteLabel
  | C_CasWriteLabel => Isa.CasWriteLabel
  | C_HelpedCasWriteLabel => Isa.HelpedCasWriteLabel
  | C_ConfirmingCasWriteLabel => Isa.ConfirmingCasWriteLabel
  | C_LockCasWriteLabel => Isa.LockCasWriteLabel
  | C_TrylockCasWriteLabel => Isa.TrylockCasWriteLabel
  | C_DskWriteLabel => Isa.DskWriteLabel
  | C_DskMdWriteLabel => Isa.DskMdWriteLabel
  | C_DskDirWriteLabel => Isa.DskDirWriteLabel
  | C_DskJnlWriteLabel => Isa.DskJnlWriteLabel
  | C_FenceLabel => Isa.FenceLabel
  | C_DskFsyncLabel => Isa.DskFsyncLabel
  | C_DskSyncLabel => Isa.DskSyncLabel
  | C_DskPbarrierLabel => Isa.DskPbarrierLabel
  | C_SmpFenceLabelLKMM => Isa.SmpFenceLabelLKMM
  | C_RCUSyncLabelLKMM => Isa.RCUSyncLabelLKMM
  | C_ThreadCreateLabel => Isa.ThreadCreateLabel
  | C_ThreadJoinLabel => Isa.ThreadJoinLabel
  | C_ThreadKillLabel => Isa.ThreadKillLabel
  | C_ThreadStartLabel => Isa.ThreadStartLabel
  | C_InitLabel => Isa.InitLabel
  | C_ThreadFinishLabel => Isa.ThreadFinishLabel
  | C_MallocLabel => Isa.MallocLabel
  | C_FreeLabel => Isa.FreeLabel
  | C_HpRetireLabel => Isa.HpRetireLabel
  | C_HpProtectLabel => Isa.HpProtectLabel
  | C_LockLabelLAPOR => Isa.LockLabelLAPOR
  | C_UnlockLabelLAPOR => Isa.UnlockLabelLAPOR
  | C_HelpingCasLabel => Isa.HelpingCasLabel
  | C_DskOpenLabel => Isa.DskOpenLabel
  | C_RCULockLabelLKMM => Isa.RCULockLabelLKMM
  | C_RCUUnlockLabelLKMM => Isa.RCUUnlockLabelLKMM
  | C_CLFlushLabel => Isa.CLFlushLabel
  end.

End Hierarchy.

(** ** LabelVisitor: the handler a label is dispatched to *)
Module LabelVisitor.

(** [visit]: the handler of each kind its switch lists. *)
Definition visit (k : EventLabelKind) : outcome LabelClass :=
  match k with
  | EL_Empty => Ret C_EmptyLabel
  | EL_JoinBlock => Ret C_JoinBlockLabel
  | EL_SpinloopBlock => Ret C_SpinloopBlockLabel
  | EL_FaiZNEBlock => Ret C_FaiZNEBlockLabel
  | EL_LockZNEBlock => Ret C_LockZNEBlockLabel
  | EL_HelpedCASBlock => Ret C_HelpedCASBlockLabel
  | EL_ConfirmationBlock => Ret C_ConfirmationBlockLabel
  | EL_LockNotAcqBlock => Ret C_LockNotAcqBlockLabel
  | EL_LockNotRelBlock => Ret C_LockNotRelBlockLabel
  | EL_BarrierBlock => Ret C_BarrierBlockLabel
  | EL_ErrorBlock => Ret C_ErrorBlockLabel
  | EL_UserBlock => Ret C_UserBlockLabel
  | EL_ReadOptBlock => Ret C_ReadOptBlockLabel
  | EL_Optional => Ret C_OptionalLabel
  | EL_ThreadStart => Ret C_ThreadStartLabel
  | EL_Init => Ret C_InitLabel
  | EL_ThreadFinish => Ret C_ThreadFinishLabel
  | EL_ThreadCreate => Ret C_ThreadCreateLabel
  | EL_ThreadJoin => Ret C_ThreadJoinLabel
  | EL_ThreadKill => Ret C_ThreadKillLabel
  | EL_LoopBegin => Ret C_LoopBeginLabel
  | EL_SpinStart => Ret C_SpinStartLabel
  | EL_FaiZNESpinEnd => Ret C_FaiZNESpinEndLabel
  | EL_LockZNESpinEnd => Ret C_LockZNESpinEndLabel
  | EL_Read => Ret C_ReadLabel
  | EL_BWaitRead => Ret C_BWaitReadLabel
  | EL_SpeculativeRead => Ret C_SpeculativeReadLabel
  | EL_ConfirmingRead => Ret C_ConfirmingReadLabel
  | EL_FaiRead => Ret C_FaiReadLabel
  | EL_NoRetFaiRead => Ret C_NoRetFaiReadLabel
  | EL_BIncFaiRead => Ret C_BIncFaiReadLabel
  | EL_CasRead => Ret C_CasReadLabel
  | EL_LockCasRead => Ret C_LockCasReadLabel
  | EL_TrylockCasRead => Ret C_TrylockCasReadLabel
  | EL_HelpedCasRead => Ret C_HelpedCasReadLabel
  | EL_ConfirmingCasRead => Ret C_ConfirmingCasReadLabel
  | EL_DskRead => Ret C_DskReadLabel
  | EL_Write => Ret C_WriteLabel
  | EL_UnlockWrite => Ret C_UnlockWriteLabel
  | EL_BInitWrite => Ret C_BInitWriteLabel
  | EL_BDestroyWrite => Ret C_BDestroyWriteLabel
  | EL_FaiWrite => Ret C_FaiWriteLabel
  | EL_NoRetFaiWrite => Ret C_NoRetFaiWriteLabel
  | EL_BIncFaiWrite => Ret C_BIncFaiWriteLabel
  | EL_CasWrite => Ret C_CasWriteLabel
  | EL_LockCasWrite => Ret C_LockCasWriteLabel
  | EL_TrylockCasWrite => Ret C_TrylockCasWriteLabel
  | EL_HelpedCasWrite => Ret C_HelpedCasWriteLabel
  | EL_ConfirmingCasWrite => Ret C_ConfirmingCasWriteLabel
  | EL_DskWrite => Ret C_DskWriteLabel
  | EL_DskMdWrite => Ret C_DskMdWriteLabel
  | EL_DskJnlWrite => Ret C_DskJnlWriteLabel
  | EL_DskDirWrite => Ret C_DskDirWriteLabel
  | EL_Fence => Ret C_FenceLabel
  | EL_DskFsync => Ret C_DskFsyncLabel
  | EL_DskSync => Ret C_DskSyncLabel
  | EL_DskPbarrier => Ret C_DskPbarrierLabel
  | EL_SmpFenceLKMM => Ret C_SmpFenceLabelLKMM
  | EL_RCUSyncLKMM => Ret C_RCUSyncLabelLKMM
  | EL_Malloc => Ret C_MallocLabel
  | EL_Free => Ret C_FreeLabel
  | EL_HpRetire => Ret C_HpRetireLabel
  | EL_HpProtect => Ret C_HpProtectLabel
  | EL_LockLAPOR => Ret C_LockLabelLAPOR
  | EL_UnlockLAPOR => Ret C_UnlockLabelLAPOR
  | EL_HelpingCas => Ret C_HelpingCasLabel
  | EL_DskOpen => Ret C_DskOpenLabel
  | EL_RCULockLKMM => Ret C_RCULockLabelLKMM
  | EL_RCUUnlockLKMM => Ret C_RCUUnlockLabelLKMM
  | EL_CLFlush => Ret C_CLFlushLabel
  | _ => Bug
  end.

(** The handler a handler delegates to when it is not overridden. *)
Definition delegate (c : LabelClass) : option LabelClass :=
  match c with
  | C_EventLabel => None
  | C_JoinBlockLabel | C_SpinloopBlockLabel | C_FaiZNEBlockLabel | C_LockZNEBlockLabel
  | C_HelpedCASBlockLabel | C_ConfirmationBlockLabel | C_LockNotAcqBlockLabel
  | C_LockNotRelBlockLabel | C_BarrierBlockLabel | C_ErrorBlockLabel | C_UserBlockLabel
  | C_ReadOptBlockLabel => Some C_BlockLabel
  | C_ReadLabel | C_WriteLabel => Some C_MemAccessLabel
  | C_BWaitReadLabel | C_SpeculativeReadLabel | C_ConfirmingReadLabel | C_DskReadLabel
  | C_FaiReadLabel | C_CasReadLabel => Some C_ReadLabel
  | C_NoRetFaiReadLabel | C_BIncFaiReadLabel => Some C_FaiReadLabel
  | C_LockCasReadLabel | C_TrylockCasReadLabel | C_HelpedCasReadLabel
  | C_ConfirmingCasReadLabel => Some C_CasReadLabel
  | C_UnlockWriteLabel | C_BInitWriteLabel | C_BDestroyWriteLabel | C_FaiWriteLabel
  | C_CasWriteLabel | C_DskWriteLabel | C_DskMdWriteLabel | C_DskJnlWriteLabel
  | C_DskDirWriteLabel => Some C_WriteLabel
  | C_NoRetFaiWriteLabel | C_BIncFaiWriteLabel => Some C_FaiWriteLabel
  | C_LockCasWriteLabel | C_TrylockCasWriteLabel | C_HelpedCasWriteLabel
  | C_ConfirmingCasWriteLabel => Some C_CasWriteLabel
  | C_DskFsyncLabel | C_DskSyncLabel | C_DskPbarrierLabel | C_SmpFenceLabelLKMM
  | C_RCUSyncLabelLKMM => Some C_FenceLabel
  | C_HpRetireLabel => Some C_FreeLabel
  | _ => Some C_EventLabel
  end.

(** [operator<<] on kinds: [None] is the branch that asks for a bug report. *)
Definition kind_name (k : EventLabelKind) : option string :=
  match k with
  | EL_Empty => Some "EMPTY"%string
  | EL_JoinBlock => Some "BLOCK[join]"%string
  | EL_SpinloopBlock => Some "BLOCK[spinloop]"%string
  | EL_FaiZNEBlock => Some "BLOCK[Fai-zne]"%string
  | EL_LockZNEBlock => Some "BLOCK[Lock-zne]"%string
  | EL_HelpedCASBlock => Some "BLOCK[helped-cas]"%string
  | EL_ConfirmationBlock => Some "BLOCK[conf]"%string
  | EL_LockNotAcqBlock => Some "BLOCK[lock-unacq]"%string
  | EL_LockNotRelBlock => Some "BLOCK[lock-unrel]"%string
  | EL_BarrierBlock => Some "BLOCK[barrier]"%string
  | EL_ErrorBlock => Some "BLOCK[error]"%string
  | EL_UserBlock => Some "BLOCK[user]"%string
  | EL_ReadOptBlock => Some "BLOCK[read-opt]"%string
  | EL_ThreadKill => Some "KILL"%string
  | EL_Optional => Some "OPTIONAL"%string
  | EL_LoopBegin => Some "LOOP_BEGIN"%string
  | EL_SpinStart => Some "SPIN_START"%string
  | EL_FaiZNESpinEnd | EL_LockZNESpinEnd => Some "ZNE_SPIN_END"%string
  | EL_Read | EL_BWaitRead | EL_SpeculativeRead | EL_ConfirmingRead => Some "R"%string
  | EL_FaiRead | EL_BIncFaiRead | EL_NoRetFaiRead => Some "UR"%string
  | EL_FaiWrite | EL_BIncFaiWrite | EL_NoRetFaiWrite => Some "UW"%string
  | EL_CasRead | EL_LockCasRead | EL_TrylockCasRead | EL_HelpedCasRead
  | EL_ConfirmingCasRead => Some "CR"%string
  | EL_CasWrite | EL_LockCasWrite | EL_TrylockCasWrite | EL_HelpedCasWrite
  | EL_ConfirmingCasWrite => Some "CW"%string
  | EL_HelpingCas => Some "HELPING_CAS"%string
  | EL_Write | EL_BInitWrite | EL_BDestroyWrite | EL_UnlockWrite => Some "W"%string
  | EL_Fence | EL_SmpFenceLKMM => Some "F"%string
  | EL_CLFlush => Some "CLF"%string
  | EL_ThreadCreate => Some "THREAD_CREATE"%string
  | EL_ThreadJoin => Some "THREAD_JOIN"%string
  | EL_ThreadStart => Some "THREAD_START"%string
  | EL_Init => Some "INIT"%string
  | EL_ThreadFinish => Some "THREAD_END"%string
  | EL_Malloc => Some "MALLOC"%string
  | EL_Free => Some "FREE"%string
  | EL_HpRetire => Some "HP_RETIRE"%string
  | EL_HpProtect => Some "HP_PROTECT"%string
  | EL_LockLAPOR => Some "LAPOR_LOCK"%string
  | EL_UnlockLAPOR => Some "LAPOR_UNLOCK"%string
  | EL_DskOpen => Some "FOPEN"%string
  | EL_DskRead => Some "DR"%string
  | EL_DskWrite | EL_DskMdWrite | EL_DskDirWrite | EL_DskJnlWrite => Some "DW"%string
  | EL_DskFsync => Some "FSYNC"%string
  | EL_DskSync => Some "SYNC"%string
  | EL_DskPbarrier => Some "PERSISTENCY_BARRIER"%string
  | EL_RCULockLKMM => Some "RCU_LOCK"%string
  | EL_RCUUnlockLKMM => Some "RCU_UNLOCK"%string
  | EL_RCUSyncLKMM => Some "RCU_SYNC"%string
  | _ => None
  end.

Definition ordering_name (o : AtomicOrdering) : string :=
  match o with
  | NotAtomic => "na"%string
  | Unordered => "un"%string
  | Monotonic => "rlx"%string
  | Acquire => "acq"%string
  | Release => "rel"%string
  | AcquireRelease => "ar"%string
  | SequentiallyConsistent => "sc"%string
  end.

Definition fence_name (o : SmpFenceType) : string :=
  match o with
  | MB => "mb"%string
  | WMB => "wmb"%string
  | RMB => "rmb"%string
  | MBBA => "ba"%string
  | MBAA => "aa"%string
  | MBAS => "as"%string
  | MBAUL => "aul"%string
  end.

(** *** The dispatch follows the hierarchy *)

Import Hierarchy.

(** A class and its superclasses, most derived first; the hierarchy is five
    levels deep. *)
Fixpoint superclasses (fuel : nat) (c : LabelClass) : list LabelClass :=
  match fuel with
  | O => []
  | S n => c :: match base c with Some b => superclasses n b | None => [] end
  end.
Definition ancestors : LabelClass -> list LabelClass := superclasses 6.

(** The enumerators that only delimit ranges. *)
Definition markers : list EventLabelKind :=
  [EL_ThreadStartEnd; EL_TerminatorBegin; EL_BlockBegin; EL_BlockEnd; EL_TerminatorLast;
   EL_MemAccessBegin; EL_FaiReadLast; EL_CasReadLast; EL_LastRead; EL_FaiWriteLast;
   EL_CasWriteLast; EL_LastDskWrite; EL_LastWrite; EL_MemAccessEnd; EL_LastFence; EL_FreeLast].

Definition dispatch_ok (k : EventLabelKind) : bool :=
  match visit k with
  | Ret c => negb (bool_decide (k ∈ markers)) && bool_decide (is_Some (kind_name k)) &&
             forallb (fun d => eqb (classofKind d k) (bool_decide (d ∈ ancestors c))) all_classes
  | Bug => bool_decide (k ∈ markers)
  | Undef => false
  end.

Lemma all_classes_all c : c ∈ all_classes.
Proof. by destruct c; unfold all_classes; repeat (apply list_elem_of_here || apply list_elem_of_further). Qed.

(** A label of every kind but the range markers is dispatched to the handler of
    its most derived class (the classes whose type test accepts it are exactly
    that class and its superclasses) and has a printed name; a marker stops the
    process.  Delegation leads from a class to a proper superclass and
    reaches the generic handler. *)
Theorem visit_most_derived k :
  (visit k = Bug <-> k ∈ markers) /\
  (k ∉ markers -> is_Some (kind_name k) /\
     exists c, visit k = Ret c /\ forall d, classofKind d k = true <-> d ∈ ancestors c) /\
  forall c, match delegate c with
            | Some d => d ∈ tail (ancestors c)
            | None => c = C_EventLabel
            end.
Proof.
  assert (H : dispatch_ok k = true) by (apply kinds_forall; vm_compute; reflexivity).
  unfold dispatch_ok in H. split; [|split].
  - destruct (visit k) eqn:E; [apply andb_true_iff in H as [[H _]%andb_true_iff _]|..|done];
      bool_to_prop; by split.
  - intros Hk. destruct (visit k) as [c| |] eqn:E; [|by bool_to_prop|done].
    apply andb_true_iff in H as [[_ Hn]%andb_true_iff Hc].
    split; [by apply bool_decide_eq_true in Hn|]. exists c. split; [done|]. intros d.
    rewrite forallb_forall in Hc. specialize (Hc d). rewrite <- list_elem_of_In in Hc.
    specialize (Hc (all_classes_all d)). apply eqb_prop in Hc.
    by rewrite Hc, bool_decide_eq_true.
  - assert (Hd : forallb (fun c => match delegate c with
                            | Some d => bool_decide (d ∈ tail (ancestors c))
                            | None => bool_decide (c = C_EventLabel) end) all_classes = true)
      by (vm_compute; reflexivity).
    intros c. rewrite forallb_forall in Hd. specialize (Hd c). rewrite <- list_elem_of_In in Hd.
    specialize (Hd (all_classes_all c)). by case_match; apply bool_decide_eq_true in Hd.
Qed.

Lemma visit_most_derived_witness :
  is_Some (kind_name EL_LockCasRead) /\
  exists c, visit EL_LockCasRead = Ret c /\
    forall d, classofKind d EL_LockCasRead = true <-> d ∈ ancestors c.
Proof. apply (visit_most_derived EL_LockCasRead). vm_compute. set_solver. Defined.

(** The second base class of disk accesses: the cast to it returns the label
    exactly when the type test of [DskAccessLabel] accepts a kind that is not
    the range marker, and casting back is the identity. *)
Lemma dsk_casts_agree l :
  let dsk := DskAccessLabel.classof (kind l) && negb (kis EL_LastDskWrite (kind l)) in
  DskAccessLabel.castTo l = (if dsk then Ret l else Bug) /\
  (l' ← DskAccessLabel.castTo l; DskAccessLabel.castFrom l') = DskAccessLabel.castTo l.
Proof.
  unfold DskAccessLabel.castTo, DskAccessLabel.castFrom, DskAccessLabel.classof, kin, kis.
  destruct (kind l) eqn:E; simpl; rewrite ?E; split; reflexivity.
Qed.

(** The trylock store constructor with attributes builds a label without them. *)
Lemma trylock_no_attr pos ord addr size type val wattr deps :
  WriteLabel.getAttr (Make.TrylockCasWriteLabel pos ord addr size type val wattr deps) = WriteAttr.None_.
Proof. done. Qed.

(** The write part of a successful trylock loses the attributes its constructor
    is given, where the write part of a lock or of any other CAS keeps them.
    *)
Theorem trylock_drops_attributes pos ord addr size type val wattr a deps :
  WriteLabel.hasAttr (Make.TrylockCasWriteLabel pos ord addr size type val wattr deps) a = false /\
  WriteLabel.getAttr (Make.LockCasWriteLabel pos ord addr size type val wattr deps) = wattr /\
  WriteLabel.getAttr (Make.CasWriteLabel pos ord addr size type val wattr deps) = wattr.
Proof. unfold WriteLabel.hasAttr. by rewrite trylock_no_attr. Qed.

End LabelVisitor.
