(* ===== verification/Graph.v ===== *)
(** * Execution graphs (src/src/ExecutionGraph.hpp, ExecutionGraph.cpp).

    A graph owns its labels: [events] is the vector of threads.  A pointer to a
    label of the graph is its position, and a change through such a pointer is
    a change of the label at that position.  The two hash maps from aligned
    addresses ([coherence], and [initRfs] of the initializer) are association
    lists in iteration order. *)
From S2P Require Import Prelude Event SVal SAddr VSet Deps Views Labels LabelClasses.

Record Graph := mkGraph {
  events : list (list Label);
  timestamp : Z;
  coherence : list (Z * list Event);
  recoveryTID : Z;
}.

Module ExecutionGraph.

Definition set_events (es : list (list Label)) (g : Graph) : Graph :=
  mkGraph es (timestamp g) (coherence g) (recoveryTID g).
Definition set_timestamp (t : Z) (g : Graph) : Graph :=
  mkGraph (events g) t (coherence g) (recoveryTID g).
Definition set_coherence (c : list (Z * list Event)) (g : Graph) : Graph :=
  mkGraph (events g) (timestamp g) c (recoveryTID g).

(** ** Threads and labels *)

Definition getNumThreads (g : Graph) : Z := Z.of_nat (length (events g)).
Definition thread_labels (g : Graph) (tid : Z) : list Label :=
  default [] (if tid <? 0 then None else events g !! Z.to_nat tid).
Definition getThreadSize (g : Graph) (tid : Z) : Z := Z.of_nat (length (thread_labels g tid)).
Definition isThreadEmpty (g : Graph) (tid : Z) : bool := getThreadSize g tid =? 0.

Definition addNewThread (g : Graph) : Graph := set_events (events g ++ [[]]) g.
Definition addRecoveryThread (g : Graph) : Graph :=
  mkGraph (events g ++ [[]]) (timestamp g) (coherence g) (getNumThreads g).
Definition delRecoveryThread (g : Graph) : Graph :=
  mkGraph (removelast (events g)) (timestamp g) (coherence g) (-1).

(** The label at a position, if there is one. *)
Definition label_at (g : Graph) (e : Event) : option Label :=
  if (thread e <? 0) || (index e <? 0) then None
  else events g !! Z.to_nat (thread e) ≫= (.!! Z.to_nat (index e)).
(** [getEventLabel]: no bounds are checked. *)
Definition getEventLabel (g : Graph) (e : Event) : outcome Label :=
  match label_at g e with Some l => Ret l | None => Undef end.
(** A change made through a pointer to the label at [e]. *)
Definition alter_label (f : Label -> Label) (e : Event) (g : Graph) : Graph :=
  set_events (alter (alter f (Z.to_nat (index e))) (Z.to_nat (thread e)) (events g)) g.

(** [labels(g)]: all labels, thread by thread (GraphIterators.hpp). *)
Definition labels (g : Graph) : list Label := concat (events g).

Definition containsPos (g : Graph) (e : Event) : bool :=
  (thread e >=? 0) && (thread e <? getNumThreads g) && (index e >=? 0) &&
  (index e <? getThreadSize g (thread e)).
Definition containsPosNonEmpty (g : Graph) (e : Event) : bool :=
  match label_at g e with
  | Some l => containsPos g e && negb (Isa.EmptyLabel (kind l))
  | None => false
  end.

Definition getPreviousLabel (g : Graph) (e : Event) : outcome (option Label) :=
  if index e =? 0 then Ret None else Some <$> getEventLabel g (EventOps.prev e).
Definition getLastThreadEvent (g : Graph) (tid : Z) : Event := mkEvent tid (getThreadSize g tid - 1).
Definition getLastThreadLabel (g : Graph) (tid : Z) : outcome Label :=
  getEventLabel g (getLastThreadEvent g tid).
Definition getNextLabel (g : Graph) (e : Event) : outcome (option Label) :=
  if bool_decide (e = getLastThreadEvent g (thread e)) then Ret None
  else Some <$> getEventLabel g (EventOps.next e).
Definition getFirstThreadEvent (tid : Z) : Event := mkEvent tid 0.

(** The labels at indices [e.index - 1, ..., lo] of the thread of [e]: the
    sequence a loop [for (j = e.index - 1; j >= lo; j--)] reads. *)
Definition po_before (g : Graph) (e : Event) (lo : Z) : outcome (list Label) :=
  if (index e <=? getThreadSize g (thread e)) || (index e - 1 <? lo)
  then Ret (rev (drop (Z.to_nat lo) (take (Z.to_nat (index e)) (thread_labels g (thread e)))))
  else Undef.

Definition getPreviousNonEmptyLabel (g : Graph) (e : Event) : outcome Label :=
  ls ← po_before g e 1;
  match List.find (fun l => negb (Isa.EmptyLabel (kind l))) ls with
  | Some l => Ret l
  | None => getEventLabel g (mkEvent (thread e) 0)
  end.

Definition getPreviousLabelST (g : Graph) (l : Label) (cond : Label -> bool) : outcome (option Label) :=
  ls ← po_before g (getPos l) 0; Ret (List.find cond ls).

(** The positions of a graph, thread by thread. *)
Definition positions (g : Graph) : list Event :=
  concat (imap (fun i thr => imap (fun j _ => mkEvent (Z.of_nat i) (Z.of_nat j)) thr) (events g)).
Definition label_sat (g : Graph) (cond : Label -> bool) (e : Event) : bool :=
  from_option cond false (label_at g e).
Definition collectAllEvents (g : Graph) (cond : Label -> bool) : list Event :=
  List.filter (label_sat g cond) (positions g).

(** The position [find] found, or the initializer. *)
Definition pos_or_init (o : option Label) : Event := from_option getPos EventOps.getInit o.

Definition getLastThreadStoreAtLoc (g : Graph) (upperLimit : Event) (addr : Z) : outcome Event :=
  ls ← po_before g upperLimit 1;
  Ret (pos_or_init (List.find (fun l => Isa.WriteLabel (kind l) && (MemAccessLabel.getAddr l =? addr)) ls)).

Definition is_release_at (addr : Z) (l : Label) : bool :=
  Isa.ThreadCreateLabel (kind l) || Isa.ThreadFinishLabel (kind l) || Isa.UnlockLabelLAPOR (kind l)
  || (Isa.FenceLabel (kind l) && EventLabel.isAtLeastRelease l)
  || (Isa.WriteLabel (kind l) && EventLabel.isAtLeastRelease l && (MemAccessLabel.getAddr l =? addr)).
Definition getLastThreadReleaseAtLoc (g : Graph) (upperLimit : Event) (addr : Z) : outcome Event :=
  ls ← po_before g upperLimit 1;
  Ret (from_option getPos (mkEvent (thread upperLimit) 0) (List.find (is_release_at addr) ls)).

(** *** Locks *)

Definition is_unlock_at (addr : Z) (l : Label) : bool :=
  Isa.UnlockWriteLabel (kind l) && (MemAccessLabel.getAddr l =? addr).
Definition is_lock_write_at (addr : Z) (l : Label) : bool :=
  Isa.CasWriteLabel (kind l) && (Isa.LockCasWriteLabel (kind l) || Isa.TrylockCasWriteLabel (kind l))
  && (MemAccessLabel.getAddr l =? addr).

(** The loop of [getMatchingLock], the vector of pending unlocks by its length. *)
Fixpoint matching_lock_loop (addr : Z) (locUnlocks : nat) (ls : list Label) : Event :=
  match ls with
  | [] => EventOps.getInit
  | l :: ls =>
      let locUnlocks := if is_unlock_at addr l then S locUnlocks else locUnlocks in
      if is_lock_write_at addr l then
        match locUnlocks with
        | O => EventOps.prev (getPos l)
        | S n => matching_lock_loop addr n ls
        end
      else matching_lock_loop addr locUnlocks ls
  end.
Definition getMatchingLock (g : Graph) (unlock : Event) : outcome Event :=
  uLab ← getEventLabel g unlock;
  _ ← BUG_ON (negb (Isa.UnlockWriteLabel (kind uLab)));
  ls ← po_before g unlock 1;
  Ret (matching_lock_loop (MemAccessLabel.getAddr uLab) 0 ls).

Fixpoint matching_unlock_loop (addr : Z) (locLocks : nat) (ls : list Label) : Event :=
  match ls with
  | [] => EventOps.getInit
  | l :: ls =>
      let locLocks := if is_lock_write_at addr l then S locLocks else locLocks in
      if is_unlock_at addr l then
        match locLocks with
        | O => getPos l
        | S n => matching_unlock_loop addr n ls
        end
      else matching_unlock_loop addr locLocks ls
  end.
Definition getMatchingUnlock (g : Graph) (lock : Event) : outcome Event :=
  lLab ← getEventLabel g lock;
  _ ← BUG_ON (negb (Isa.CasReadLabel (kind lLab))
              || negb (Isa.LockCasReadLabel (kind lLab)) && negb (Isa.TrylockCasReadLabel (kind lLab)));
  Ret (matching_unlock_loop (MemAccessLabel.getAddr lLab) 0
         (drop (Z.to_nat (index lock + 2)) (thread_labels g (thread lock)))).

(** [getMatchingSpeculativeRead]: the second component is what [sc] points to
    afterwards, when it is not null. *)
Fixpoint matching_speculative_loop (addr : Z) (sc : option Event) (ls : list Label) :
    Event * option Event :=
  match ls with
  | [] => (EventOps.getInit, sc)
  | l :: ls =>
      let sc := match sc with
                | Some s => Some (if EventLabel.isSC l then getPos l else s)
                | None => None
                end in
      if Isa.SpeculativeReadLabel (kind l) && (MemAccessLabel.getAddr l =? addr) then (getPos l, sc)
      else matching_speculative_loop addr sc ls
  end.
Definition getMatchingSpeculativeRead (g : Graph) (conf : Event) (sc : option Event) :
    outcome (Event * option Event) :=
  cLab ← getEventLabel g conf;
  _ ← BUG_ON (negb (Isa.ReadLabel (kind cLab)));
  ls ← po_before g conf 1;
  Ret (matching_speculative_loop (MemAccessLabel.getAddr cLab) sc ls).

(** *** Allocations *)

Definition getMalloc (g : Graph) (addr : Z) : Event :=
  pos_or_init (List.find (fun l => Isa.MallocLabel (kind l) && MallocLabel.contains l addr) (labels g)).
Definition getMallocCounterpart (g : Graph) (fLab : Label) : Event :=
  pos_or_init (List.find (fun l => Isa.MallocLabel (kind l) &&
                            (MallocLabel.getAllocAddr l =? FreeLabel.getFreedAddr fLab)) (labels g)).

(** ** Coherence

    A location's stores are kept per aligned address; an iterator over the
    coherence of an access skips the stores that do not overlap with it. *)

Definition getBucket (addr : Z) : Z := SAddr.align addr.
(** The [const] [getStoresToLoc]: [coherence.at(..)]. *)
Definition getStoresToLoc (g : Graph) (addr : Z) : outcome (list Event) :=
  match InitLabel.bucket_get (coherence g) (getBucket addr) with Some ss => Ret ss | None => Undef end.
(** [co_begin(access), .., co_end(access)] *)
Definition overlapping (g : Graph) (access : AAccess) (es : list Event) : list Event :=
  List.filter (label_sat g (MemAccessLabel.OverlapFilter access)) es.
Definition co (g : Graph) (access : AAccess) : outcome (list Event) :=
  overlapping g access <$> getStoresToLoc g (acc_addr access).

(** What follows (or precedes) an element; undefined when it is not there. *)
Fixpoint after (e : Event) (l : list Event) : outcome (list Event) :=
  match l with
  | [] => Undef
  | x :: l => if decide (x = e) then Ret l else after e l
  end.
(** [co_succ_begin(lab, access), ..]: the filtered iterator starts at [lab]
    (or at the first overlapping store after it) and is advanced once. *)
Definition co_succs (g : Graph) (w : Event) (access : AAccess) : outcome (list Event) :=
  ss ← getStoresToLoc g (acc_addr access);
  l ← after w ss;
  Ret (tail (overlapping g access (w :: l))).
Definition co_preds (g : Graph) (w : Event) (access : AAccess) : outcome (list Event) :=
  ss ← getStoresToLoc g (acc_addr access);
  l ← after w (rev ss);
  Ret (tail (overlapping g access (w :: l))).
Definition access_of (g : Graph) (e : Event) : AAccess :=
  from_option MemAccessLabel.getAccess MemAccessLabel.no_access (label_at g e).
Definition co_imm_succ (g : Graph) (w : Event) : outcome (option Event) :=
  head <$> co_succs g w (access_of g w).
Definition co_imm_pred (g : Graph) (w : Event) : outcome (option Event) :=
  head <$> co_preds g w (access_of g w).

(** [fr_succ_begin]: a null reads-from is dereferenced. *)
Definition fr_succs (g : Graph) (rLab : Label) : outcome (list Event) :=
  match ReadLabel.getRf rLab with
  | None => Undef
  | Some w =>
      if label_sat g (fun l => Isa.WriteLabel (kind l)) w then co_succs g w (access_of g w)
      else co g (MemAccessLabel.getAccess rLab)
  end.
Definition fr_imm_succ (g : Graph) (rLab : Label) : outcome (option Event) :=
  head <$> fr_succs g rLab.

(** The initializer and its readers. *)
Definition init_pos : Event := EventOps.getInit.
Definition initRfs (g : Graph) : list (Z * list Event) :=
  from_option InitLabel.initRfs [] (label_at g init_pos).
(** The [const] [init_rf_begin, ..]: [initRfs.at(..)], filtered. *)
Definition init_rfs (g : Graph) (access : AAccess) : outcome (list Event) :=
  match InitLabel.bucket_get (initRfs g) (SAddr.align (acc_addr access)) with
  | Some rs => Ret (overlapping g access rs)
  | None => Undef
  end.
(** [fr_imm_pred_begin, ..]: who reads from the predecessor of a store.  The
    filtered iterators over the reads of the initializer are converted to plain
    ones, so only the reads before the first overlapping one are skipped. *)
Fixpoint from_first_overlapping (g : Graph) (access : AAccess) (es : list Event) : list Event :=
  match es with
  | [] => []
  | e :: es' => if label_sat g (MemAccessLabel.OverlapFilter access) e then es
                else from_first_overlapping g access es'
  end.
Definition fr_imm_preds (g : Graph) (wLab : Label) : outcome (list Event) :=
  ps ← co_preds g (getPos wLab) (MemAccessLabel.getAccess wLab);
  match ps with
  | [] =>
      match InitLabel.bucket_get (initRfs g) (SAddr.align (MemAccessLabel.getAddr wLab)) with
      | Some rs => Ret (from_first_overlapping g (MemAccessLabel.getAccess wLab) rs)
      | None => Undef
      end
  | p :: _ => pl ← getEventLabel g p; Ret (WriteLabel.readers pl)
  end.

(** [addStoreToCO]: insert before the [n]-th store of the location, which is
    created when it does not exist. *)
Definition insert_at (n : nat) (w : Event) (ss : list Event) : list Event := take n ss ++ w :: drop n ss.
Definition addStoreToCO (g : Graph) (wLab : Label) (n : nat) : Graph :=
  set_coherence (InitLabel.bucket_alter (insert_at n (getPos wLab))
                   (getBucket (MemAccessLabel.getAddr wLab)) (coherence g)) g.
Definition addStoresToCO (g : Graph) (stores : list Event) (access : AAccess) (n : nat) : Graph :=
  set_coherence (InitLabel.bucket_alter (fun ss => take n ss ++ stores ++ drop n ss)
                   (getBucket (acc_addr access)) (coherence g)) g.
Definition removeStoreFromCO (g : Graph) (wLab : Label) : Graph :=
  set_coherence (InitLabel.bucket_alter (List.filter (fun e => negb (bool_decide (e = getPos wLab))))
                   (getBucket (MemAccessLabel.getAddr wLab)) (coherence g)) g.

Definition isLocEmpty (g : Graph) (access : AAccess) : outcome bool :=
  (fun l => bool_decide (l = [])) <$> co g access.
Definition hasLocMoreThanOneStore (g : Graph) (access : AAccess) : outcome bool :=
  (fun l => (1 <? length l)%nat) <$> co g access.
Definition isCoMaximal (g : Graph) (access : AAccess) (e : Event) : outcome bool :=
  l ← co g access;
  Ret (if EventOps.isInitializer e then bool_decide (l = []) else bool_decide (last l = Some e)).

(** [trackCoherenceAtLoc]: both maps get a bucket. *)
Definition trackCoherenceAtLoc (g : Graph) (access : AAccess) : Graph :=
  let b := getBucket (acc_addr access) in
  alter_label (InitLabel.map_initRfs (InitLabel.bucket_alter id b)) init_pos
    (set_coherence (InitLabel.bucket_alter id b (coherence g)) g).

(** ** Read-modify-writes *)

Definition isRMWStore (l : Label) : bool := Isa.FaiWriteLabel (kind l) || Isa.CasWriteLabel (kind l).
Definition isRMWLoad (g : Graph) (l : Label) : outcome bool :=
  if negb (Isa.CasReadLabel (kind l)) && negb (Isa.FaiReadLabel (kind l)) then Ret false
  else if EventLabel.getIndex l =? getThreadSize g (EventLabel.getThread l) - 1 then Ret false
  else
    nLab ← getEventLabel g (EventOps.next (getPos l));
    Ret (Isa.MemAccessLabel (kind nLab) && isRMWStore nLab
         && (MemAccessLabel.getAddr nLab =? MemAccessLabel.getAddr l)).
Definition isConfirming (l : Label) : bool :=
  Isa.ConfirmingReadLabel (kind l) || Isa.ConfirmingCasReadLabel (kind l).

(** [std::min_element] by stamp: the first of the smallest. *)
Fixpoint min_stamp (g : Graph) (best : Event * Z) (es : list Event) : outcome Event :=
  match es with
  | [] => Ret (fst best)
  | e :: es =>
      l ← getEventLabel g e; s ← EventLabel.getStamp l;
      min_stamp g (if s <? snd best then (e, s) else best) es
  end.
Definition getMinimumStampEvent (g : Graph) (es : list Event) : outcome Event :=
  match es with
  | [] => Ret EventOps.getInit
  | [e] => Ret e
  | e :: es => l ← getEventLabel g e; s ← EventLabel.getStamp l; min_stamp g (e, s) es
  end.

(** [readFromOverlaps] of [getPendingRMW]. *)
Definition readFromOverlaps (access : AAccess) (rLab : Label) (w : Event) : bool :=
  existsb (fun '(w', a) => bool_decide (w' = w) && AccessOps.overlaps access a) (ReadLabel.getRfs rLab).
(** The readers [rs] of [w] that are other successful RMWs of [access]. *)
Fixpoint pending_among (g : Graph) (pLab : Label) (access : AAccess) (w : Event) (rs : list Event) :
    outcome (list Event) :=
  match rs with
  | [] => Ret []
  | r :: rs =>
      rLab ← getEventLabel g r;
      b ← isRMWLoad g rLab;
      tl ← pending_among g pLab access w rs;
      Ret (if b && negb (bool_decide (r = getPos pLab)) && readFromOverlaps access rLab w
           then r :: tl else tl)
  end.
Definition pending_of_rf (g : Graph) (pLab : Label) (acc : list Event) (p : Event * AAccess) :
    outcome (list Event) :=
  let '(w, access) := p in
  wLab ← getEventLabel g w;
  rs ← (if Isa.WriteLabel (kind wLab) then Ret (WriteLabel.readers wLab) else init_rfs g access);
  l ← pending_among g pLab access (if Isa.WriteLabel (kind wLab) then w else init_pos) rs;
  Ret (acc ++ l).
(** [getPendingRMW]: the previous label must be a read, or a null pointer is
    dereferenced. *)
Definition getPendingRMW (g : Graph) (sLab : Label) : outcome Event :=
  if negb (isRMWStore sLab) then Ret EventOps.getInit
  else
    p ← getPreviousLabel g (getPos sLab);
    match p with
    | None => Undef
    | Some pLab =>
        if negb (Isa.ReadLabel (kind pLab)) then Undef
        else
          _ ← BUG_ON (negb (ReadLabel.hasRf pLab));
          pending ← mfold (pending_of_rf g pLab) (ReadLabel.getRfs pLab) [];
          getMinimumStampEvent g pending
    end.
Definition violatesAtomicity (g : Graph) (sLab : Label) : outcome bool :=
  if negb (isRMWStore sLab) then Ret false
  else e ← getPendingRMW g sLab; Ret (negb (EventOps.isInitializer e)).

(** ** Candidates for revisits and readers *)

Definition is_revisit_candidate (sLab l : Label) : bool :=
  Isa.ReadLabel (kind l) && MemAccessLabel.overlaps_lab l sLab && EventLabel.isRevisitable l
  && MemAccessLabel.wasAddedMax l.
(** Drops the loads added after the pending RMW. *)
Fixpoint drop_after_stamp (g : Graph) (st : Z) (es : list Event) : outcome (list Event) :=
  match es with
  | [] => Ret []
  | e :: es =>
      l ← getEventLabel g e; s ← EventLabel.getStamp l;
      tl ← drop_after_stamp g st es;
      Ret (if s >? st then tl else e :: tl)
  end.
Definition drop_after_pending (g : Graph) (pendingRMW : Event) (loads : list Event) :
    outcome (list Event) :=
  if EventOps.isInitializer pendingRMW then Ret loads
  else
    match loads with
    | [] => Ret []
    | _ => confLab ← getEventLabel g pendingRMW; st ← EventLabel.getStamp confLab;
           drop_after_stamp g st loads
    end.
Definition getRevisitable {C} `{VectorClock C} (g : Graph) (sLab : Label) (before : C) :
    outcome (list Event) :=
  pendingRMW ← getPendingRMW g sLab;
  drop_after_pending g pendingRMW
    (List.filter (fun e => (vc_getMax before (thread e) <? index e)
                           && label_sat g (is_revisit_candidate sLab) e) (positions g)).

Definition getInitRfsAtLoc (g : Graph) (a : AAccess) : list Event :=
  map getPos (List.filter (fun l => Isa.ReadLabel (kind l) &&
    existsb (fun '(w, part) => EventOps.isInitializer w && AccessOps.overlaps part a)
      (ReadLabel.getRfs l)) (labels g)).

Definition reads_store_at (store : Event) (addr : Z) (l : Label) : bool :=
  existsb (fun '(w, _) => bool_decide (w = store) && (MemAccessLabel.getAddr l =? addr))
    (ReadLabel.getRfs l).
Fixpoint isStoreReadByExclusiveRead_loop (g : Graph) (store : Event) (addr : Z) (ls : list Label) :
    outcome bool :=
  match ls with
  | [] => Ret false
  | l :: ls =>
      b ← isRMWLoad g l;
      if b && reads_store_at store addr l then Ret true
      else isStoreReadByExclusiveRead_loop g store addr ls
  end.
Definition isStoreReadByExclusiveRead (g : Graph) (store : Event) (addr : Z) : outcome bool :=
  isStoreReadByExclusiveRead_loop g store addr (labels g).

Fixpoint isStoreReadBySettledRMW_loop {C} `{VectorClock C} (g : Graph) (store : Event) (addr : Z)
    (prefix : C) (ls : list Label) : outcome bool :=
  match ls with
  | [] => Ret false
  | l :: ls =>
      b ← isRMWLoad g l;
      if negb b || negb (reads_store_at store addr l)
      then isStoreReadBySettledRMW_loop g store addr prefix ls
      else
        wLab ← getEventLabel g (EventOps.next (getPos l));
        if negb (EventLabel.isRevisitable l) && negb (WriteLabel.hasAttr wLab WriteAttr.RevBlocker)
           || vc_contains prefix (getPos l)
        then Ret true
        else isStoreReadBySettledRMW_loop g store addr prefix ls
  end.
Definition isStoreReadBySettledRMW {C} `{VectorClock C} (g : Graph) (store : Event) (addr : Z)
    (prefix : C) : outcome bool :=
  isStoreReadBySettledRMW_loop g store addr prefix (labels g).

(** ** Adding and removing labels *)

(** [nextStamp()]: the stamp and the counter after it. *)
Definition nextStamp (g : Graph) : Z * Graph :=
  let '(s, t) := Stamp.post_incr (timestamp g) in (s, set_timestamp t g).

Definition set_thread (tid : Z) (ls : list Label) (g : Graph) : Graph :=
  set_events (<[Z.to_nat tid := ls]> (events g)) g.

Definition addLabelToGraph (g : Graph) (lab : Label) : outcome Graph :=
  let '(lab, g) := if EventLabel.hasStamp lab then (lab, g)
                   else let '(s, g) := nextStamp g in (EventLabel.setStamp s lab, g) in
  let pos := getPos lab in
  if (thread pos <? 0) || (getNumThreads g <=? thread pos) || (index pos <? 0) then Undef
  else
    g ← (if index pos <? getThreadSize g (thread pos) then
           eLab ← getEventLabel g pos;
           _ ← BUG_ON (negb (Isa.EmptyLabel (kind eLab)));
           Ret (alter_label (fun _ => lab) pos g)
         else Ret (set_thread (thread pos) (thread_labels g (thread pos) ++ [lab]) g));
    _ ← BUG_ON (index pos >? getThreadSize g (thread pos));
    _ ← getEventLabel g pos;
    Ret g.

(** [ExecutionGraph()] *)
Definition make : outcome Graph :=
  g ← addLabelToGraph (mkGraph [[]] 0 [] (-1)) Make.InitLabel;
  Ret (alter_label (fun l => EventLabel.setPrefixView (CView View.make)
         (EventLabel.setViews [View.make] (EventLabel.setCalculated [[]] l))) init_pos g).

Definition createHoleLabel (pos : Event) : Label :=
  EventLabel.setCalculated [[]] (EventLabel.setViews [View.make] (Make.EmptyLabel pos)).

(** [resizeThread(pos)]: the thread keeps the labels before [pos]. *)
Definition resizeThread (pos : Event) (g : Graph) : Graph :=
  set_thread (thread pos) (take (Z.to_nat (index pos)) (thread_labels g (thread pos))) g.

Definition is_pos (p e : Event) : bool := bool_decide (e = p).

(** [wLab->removeReader(..)] for every write [rLab] reads from. *)
Definition remove_from_readers (r : Event) (rfs : RfsT) (g : Graph) : Graph :=
  foldl (fun g '(w, _) =>
    if label_sat g (fun l => Isa.WriteLabel (kind l)) w
    then alter_label (WriteLabel.removeReader (is_pos r)) w g else g) g rfs.
Definition removeLast (g : Graph) (tid : Z) : outcome Graph :=
  lab ← getLastThreadLabel g tid;
  let pos := getPos lab in
  let g := if Isa.ReadLabel (kind lab) then remove_from_readers pos (ReadLabel.getRfs lab) g else g in
  let g := if Isa.WriteLabel (kind lab)
           then foldl (fun g r => alter_label (ReadLabel.setRf None) r g) g (WriteLabel.readers lab) else g in
  let g := if Isa.MemAccessLabel (kind lab) then
             match MemAccessLabel.getAlloc lab with
             | Some a => if label_sat g (fun l => Isa.MallocLabel (kind l)) a
                         then alter_label (MallocLabel.removeAccess (is_pos pos)) a g else g
             | None => g
             end else g in
  g ← (if Isa.FreeLabel (kind lab) then
         match FreeLabel.getAlloc lab with
         | Some a => Ret (alter_label (MallocLabel.setFree None) a g)
         | None => Undef
         end else Ret g);
  let g := if Isa.MallocLabel (kind lab) then
             match MallocLabel.getFree lab with
             | Some d => if label_sat g (fun l => Isa.FreeLabel (kind l)) d
                         then alter_label (FreeLabel.setAlloc None) d g else g
             | None => g
             end else g in
  Ret (resizeThread pos g).

(** ** Changing where a read reads from *)

(** [addInitRfToLoc] and [removeInitRfToLoc]: [InitLabel::addReader] looks for the
    read among the overlapping ones of its bucket. *)
Definition addInitRfToLoc (g : Graph) (rLab : Label) : outcome Graph :=
  let b := SAddr.align (MemAccessLabel.getAddr rLab) in
  _ ← BUG_ON (bool_decide (getPos rLab ∈ overlapping g (MemAccessLabel.getAccess rLab)
                             (default [] (InitLabel.bucket_get (initRfs g) b))));
  Ret (alter_label (InitLabel.map_initRfs (InitLabel.bucket_alter (fun rs => rs ++ [getPos rLab]) b))
         init_pos g).
Definition removeInitRfToLoc (g : Graph) (rLab : Label) : Graph :=
  let b := SAddr.align (MemAccessLabel.getAddr rLab) in
  alter_label (InitLabel.map_initRfs (InitLabel.bucket_alter
    (List.filter (fun e => negb (is_pos (getPos rLab) e))) b)) init_pos g.

(** Taking a read off the readers of the label [o] it read from. *)
Definition detach_reader (rLab : Label) (g : Graph) (o : Event) : Graph :=
  if containsPos g o then
    if label_sat g (fun l => Isa.WriteLabel (kind l)) o
    then alter_label (WriteLabel.removeReader (is_pos (getPos rLab))) o g
    else if EventOps.isInitializer o then removeInitRfToLoc g rLab else g
  else g.
(** Putting it on the readers of [store]. *)
Definition attach_reader (rLab : Label) (g : Graph) (store : Event) : outcome Graph :=
  wLab ← getEventLabel g store;
  if Isa.WriteLabel (kind wLab) then
    wLab' ← WriteLabel.addReader (getPos rLab) wLab;
    Ret (alter_label (fun _ => wLab') store g)
  else
    _ ← BUG_ON (negb (EventOps.isInitializer store));
    addInitRfToLoc g rLab.

(** [changeRf(Event, Event)] *)
Definition changeRf (g : Graph) (read store : Event) : outcome Graph :=
  rLab ← getEventLabel g read;
  _ ← BUG_ON (negb (Isa.ReadLabel (kind rLab)));
  let oldRf := ReadLabel.getRf rLab in
  rf ← (if EventOps.isBottom store then Ret None else l ← getEventLabel g store; Ret (Some (getPos l)));
  let g := alter_label (ReadLabel.setRf rf) read g in
  let g := match oldRf with Some o => detach_reader rLab g o | None => g end in
  if EventOps.isBottom store then Ret g else attach_reader rLab g store.

(** [changeRf(Event, RfsT)] *)
Definition dedup_stores (rfs : RfsT) : list Event :=
  foldl (fun acc '(w, _) => if bool_decide (w ∈ acc) then acc else acc ++ [w]) [] rfs.
Fixpoint resolve_rfs (g : Graph) (rfs : RfsT) : outcome RfsT :=
  match rfs with
  | [] => Ret []
  | (w, a) :: rfs => l ← getEventLabel g w; tl ← resolve_rfs g rfs; Ret ((getPos l, a) :: tl)
  end.
Definition changeRfs (g : Graph) (read : Event) (rfs : RfsT) : outcome Graph :=
  rLab ← getEventLabel g read;
  _ ← BUG_ON (negb (Isa.ReadLabel (kind rLab)));
  rfsLab ← resolve_rfs g rfs;
  let g := alter_label (ReadLabel.setRfs rfsLab) read g in
  let g := foldl (detach_reader rLab) g (map fst (ReadLabel.getRfs rLab)) in
  mfold (attach_reader rLab) (dedup_stores rfs) g.

(** [addAlloc]: a null allocation changes nothing. *)
Definition addAlloc (g : Graph) (aLab : option Event) (m : Event) : outcome Graph :=
  match aLab with
  | None => Ret g
  | Some a =>
      let g := alter_label (MemAccessLabel.setAlloc (Some a)) m g in
      l ← getEventLabel g a; l' ← MallocLabel.addAccess m l;
      Ret (alter_label (fun _ => l') a g)
  end.

(** ** Cutting *)

(** The loop over one thread of [getViewFromStamp], last label first. *)
Fixpoint last_le_stamp (st : Z) (ls : list Label) (j : Z) : outcome (option Z) :=
  match ls with
  | [] => Ret None
  | l :: ls =>
      s ← EventLabel.getStamp l;
      if s <=? st then Ret (Some j) else last_le_stamp st ls (j - 1)
  end.
Definition getViewFromStamp (g : Graph) (st : Z) : outcome View.t :=
  mfold (fun v i =>
           o ← last_le_stamp st (rev (thread_labels g i)) (getThreadSize g i - 1);
           Ret (match o with Some j => View.setMax v (mkEvent i j) | None => v end))
    (seqZ 0 (getNumThreads g)) View.make.
Definition getPredsView (g : Graph) (e : Event) : outcome View.t :=
  l ← getEventLabel g e; st ← EventLabel.getStamp l; getViewFromStamp g st.

Section cut.
Context {C : Type} `{VectorClock C}.

(** The positions the loops [for (i < preds.size()) for (j = lo; j <= preds.getMax(i))]
    visit. *)
Definition visited (preds : C) (lo : Z) : list Event :=
  concat (map (fun i => map (mkEvent i) (seqZ lo (vc_getMax preds i + 1 - lo)))
            (seqZ 0 (vc_size preds))).

(** The locations that still have an access. *)
Definition keep_step (g : Graph) (keep : list Z) (e : Event) : outcome (list Z) :=
  l ← getEventLabel g e;
  Ret (if Isa.MemAccessLabel (kind l)
       then VSet.insert1 Z.ltb keep (getBucket (MemAccessLabel.getAddr l)) else keep).
(** The loop over both maps: [rIt] is an index into [initRfs], moved or erased
    in step with the iterator over [coherence]. *)
Fixpoint removeAfter_loop (preds : C) (keep : list Z) (todo done : list (Z * list Event))
    (rfs : list (Z * list Event)) (rIt : nat) : outcome (list (Z * list Event) * list (Z * list Event)) :=
  match todo with
  | [] => Ret (done, rfs)
  | (b, ss) :: todo =>
      if (rIt <? length rfs)%nat then
        if VSet.count Z.ltb keep (getBucket b) =? 0
        then removeAfter_loop preds keep todo done (delete rIt rfs) rIt
        else removeAfter_loop preds keep todo
               (done ++ [(b, List.filter (vc_contains preds) ss)])
               (InitLabel.bucket_alter (List.filter (vc_contains preds)) (getBucket b) rfs) (S rIt)
      else Undef
  end.
Definition removeAfter (g : Graph) (preds : C) : outcome Graph :=
  keep ← mfold (keep_step g) (visited preds 0) [];
  r ← removeAfter_loop preds keep (coherence g) [] (initRfs g) 0;
  Ret (alter_label (InitLabel.map_initRfs (fun _ => snd r)) init_pos (set_coherence (fst r) g)).

(** What [cutToStamp] does to a label that stays: pointers to removed labels go. *)
Definition kept (preds : C) (o : option Event) : bool :=
  match o with Some e => vc_contains preds e | None => true end.
(** The loop over [getRfs()] removes from the vector it walks: once an element
    is erased the iterators are invalid, so only an erasure in the last round
    has a defined continuation. *)
Fixpoint cut_rfs (preds : C) (todo : RfsT) (l : Label) : outcome Label :=
  match todo with
  | [] => Ret l
  | (w, _) :: todo =>
      if vc_contains preds w then cut_rfs preds todo l
      else match todo with [] => Ret (ReadLabel.removeRf w l) | _ => Undef end
  end.
Definition cut_label (preds : C) (l : Label) : outcome Label :=
  let l := if Isa.WriteLabel (kind l)
           then WriteLabel.removeReader (fun r => negb (vc_contains preds r)) l else l in
  l ← (if Isa.ReadLabel (kind l) then cut_rfs preds (ReadLabel.getRfs l) l else Ret l);
  let l := if Isa.MemAccessLabel (kind l) && negb (kept preds (MemAccessLabel.getAlloc l))
           then MemAccessLabel.setAlloc None l else l in
  let l := if Isa.ThreadFinishLabel (kind l) && negb (kept preds (ThreadFinishLabel.getParentJoin l))
           then ThreadFinishLabel.setParentJoin None l else l in
  let l := if Isa.FreeLabel (kind l) && negb (kept preds (FreeLabel.getAlloc l))
           then FreeLabel.setAlloc None l else l in
  if Isa.MallocLabel (kind l) then
    let l := if kept preds (MallocLabel.getFree l) then l else MallocLabel.setFree None l in
    Ret (MallocLabel.removeAccess (fun m => negb (vc_contains preds m)) l)
  else Ret l.
Definition cut_step (preds : C) (g : Graph) (e : Event) : outcome Graph :=
  l ← getEventLabel g e; l' ← cut_label preds l; Ret (alter_label (fun _ => l') e g).

(** Every thread keeps the labels up to the maximum of the view; the erased
    range must lie inside the thread. *)
Fixpoint restrict_threads (preds : C) (i : Z) (thrs : list (list Label)) : outcome (list (list Label)) :=
  match thrs with
  | [] => Ret []
  | thr :: thrs =>
      let n := vc_getMax preds i + 1 in
      if n <=? Z.of_nat (length thr) then
        tl ← restrict_threads preds (i + 1) thrs; Ret (take (Z.to_nat n) thr :: tl)
      else Undef
  end.

End cut.

Definition cutToStamp (g : Graph) (st : Z) : outcome Graph :=
  preds ← getViewFromStamp g st;
  g ← removeAfter g preds;
  g ← mfold (cut_step preds) (visited preds 0) g;
  es ← restrict_threads preds 0 (events g);
  Ret (set_events es g).

(** [compressStampsAfter] over the labels of a thread, then of all threads. *)
Fixpoint compress_thread (st next : Z) (ls : list Label) : outcome (Z * list Label) :=
  match ls with
  | [] => Ret (next, [])
  | l :: ls =>
      s ← EventLabel.getStamp l;
      let '(l, next) := if s >? st then (EventLabel.setStamp next l, (Stamp.post_incr next).2)
                        else (l, next) in
      r ← compress_thread st next ls; Ret (fst r, l :: snd r)
  end.
Fixpoint compress_threads (st next : Z) (thrs : list (list Label)) : outcome (Z * list (list Label)) :=
  match thrs with
  | [] => Ret (next, [])
  | thr :: thrs =>
      r ← compress_thread st next thr;
      rs ← compress_threads st (fst r) thrs; Ret (fst rs, snd r :: snd rs)
  end.
Definition compressStampsAfter (g : Graph) (st : Z) : outcome Graph :=
  r ← compress_threads st (Stamp.add st 1) (events g);
  Ret (set_timestamp (fst r) (set_events (snd r) g)).

(** ** Copying *)

(** [clone()]: the copy of a [CopyableIList] is empty. *)
Definition clone_label (l : Label) : Label := MallocLabel.setAccesses [] l.

Section copy.
Context {C : Type} `{VectorClock C}.

Definition copy_event (g : Graph) (v : C) (other : Graph) (e : Event) : outcome Graph :=
  if negb (vc_contains v e) then addLabelToGraph other (createHoleLabel e)
  else if negb (containsPos g e) then Ret other
  else
    l ← getEventLabel g e;
    other ← addLabelToGraph other (clone_label l);
    let other := if Isa.WriteLabel (kind l)
                 then alter_label (WriteLabel.removeReader (fun r => negb (vc_contains v r))) e other
                 else other in
    Ret (if Isa.MemAccessLabel (kind l)
         then trackCoherenceAtLoc other (MemAccessLabel.getAccess l) else other).
Definition copy_thread (g : Graph) (v : C) (other : Graph) (i : Z) : outcome Graph :=
  other ← (if i =? 0 then Ret other
           else l ← getEventLabel g (mkEvent i 0); addLabelToGraph other (clone_label l));
  mfold (copy_event g v) (map (mkEvent i) (seqZ 1 (vc_getMax v i))) other.

(** A pointer of a copied label, redirected into the copy: null when its target
    is cut or is not of the class [cls] there. *)
Definition redirect (other : Graph) (stays : Event -> bool) (cls : EventLabelKind -> bool)
    (o : option Event) : option Event :=
  match o with
  | Some e => if stays e && label_sat other (fun l => cls (kind l)) e then Some e else None
  | None => None
  end.
(** [addReader]/[addAccess] of the copies of [es]: a null pointer when a copy is
    not of the class. *)
Definition copies_of (other : Graph) (v : C) (cls : EventLabelKind -> bool) (es : list Event) :
    outcome (list Event) :=
  let es := List.filter (vc_contains v) es in
  if forallb (label_sat other (fun l => cls (kind l))) es then
    _ ← BUG_ON (negb (bool_decide (NoDup es))); Ret es
  else Undef.
Definition fix_label (g : Graph) (v : C) (other : Graph) (e : Event) : outcome Graph :=
  l ← getEventLabel other e;
  let l := if Isa.ReadLabel (kind l)
           then ReadLabel.setRfs (List.filter (fun '(w, _) => containsPos other w) (ReadLabel.getRfs l)) l
           else l in
  l ← (if Isa.WriteLabel (kind l) then
         o ← getEventLabel g e;
         rs ← copies_of other v Isa.ReadLabel (WriteLabel.readers o);
         Ret (WriteLabel.setReaders rs l)
       else Ret l);
  let l := if Isa.MemAccessLabel (kind l)
           then MemAccessLabel.setAlloc
                  (redirect other (containsPos other) Isa.MallocLabel (MemAccessLabel.getAlloc l)) l
           else l in
  let l := if Isa.ThreadFinishLabel (kind l)
           then ThreadFinishLabel.setParentJoin
                  (redirect other (vc_contains v) Isa.ThreadJoinLabel (ThreadFinishLabel.getParentJoin l)) l
           else l in
  l ← (if Isa.MallocLabel (kind l) then
         let l := MallocLabel.setFree
                    (redirect other (vc_contains v) Isa.FreeLabel (MallocLabel.getFree l)) l in
         o ← getEventLabel g e;
         ms ← copies_of other v Isa.MemAccessLabel (MallocLabel.accesses o);
         Ret (MallocLabel.setAccesses ms l)
       else Ret l);
  let l := if Isa.FreeLabel (kind l)
           then FreeLabel.setAlloc
                  (redirect other (vc_contains v) Isa.MallocLabel (FreeLabel.getAlloc l)) l
           else l in
  Ret (alter_label (fun _ => l) e other).

Definition copy_store (v : C) (other : Graph) (s : Event) : outcome Graph :=
  if vc_contains v s then
    w ← getEventLabel other s;
    let b := getBucket (MemAccessLabel.getAddr w) in
    Ret (addStoreToCO other w (length (default [] (InitLabel.bucket_get (coherence other) b))))
  else Ret other.
Definition copy_init_reader (v : C) (other : Graph) (r : Event) : outcome Graph :=
  if vc_contains v r then rLab ← getEventLabel other r; addInitRfToLoc other rLab else Ret other.
Definition copy_init_bucket (g : Graph) (v : C) (other : Graph) (b : Z) : outcome Graph :=
  match InitLabel.bucket_get (initRfs g) b with
  | Some rs => mfold (copy_init_reader v) rs other
  | None => Undef
  end.

Definition copyGraphUpTo (g other : Graph) (v : C) : outcome Graph :=
  let other := mkGraph (take (length (events g)) (events other)
                          ++ replicate (length (events g) - length (events other)) [])
                 (timestamp g) (coherence other) (recoveryTID g) in
  other ← mfold (copy_thread g v) (seqZ 0 (getNumThreads g)) other;
  other ← mfold (fix_label g v) (positions other) other;
  other ← mfold (copy_store v) (concat (map snd (coherence g))) other;
  mfold (copy_init_bucket g v) (map fst (coherence g)) other.
Definition getCopyUpTo (g : Graph) (v : C) : outcome Graph :=
  other ← make; copyGraphUpTo g other v.

End copy.

Definition clone (g : Graph) : outcome Graph :=
  v ← getViewFromStamp g (timestamp g); getCopyUpTo g v.

(** ** Validation: [Bug] at the first inconsistency *)

Definition validate_read (g : Graph) (l : Label) : outcome unit :=
  _ ← BUG_ON (negb (forallb (fun '(w, _) => containsPos g w) (ReadLabel.getRfs l)));
  BUG_ON (existsb (fun '(w, _) =>
            match label_at g w with
            | Some wl => Isa.WriteLabel (kind wl) && negb (bool_decide (getPos l ∈ WriteLabel.readers wl))
            | None => false
            end) (ReadLabel.getRfs l)).
Fixpoint count_rmw_loads (g : Graph) (rs : list Event) : outcome Z :=
  match rs with
  | [] => Ret 0
  | r :: rs =>
      rLab ← getEventLabel g r; b ← isRMWLoad g rLab; n ← count_rmw_loads g rs;
      Ret (if (b : bool) then n + 1 else n)
  end.
Definition validate_write (g : Graph) (l : Label) : outcome unit :=
  n ← (if isRMWStore l then count_rmw_loads g (WriteLabel.readers l) else Ret 0);
  _ ← BUG_ON (n >? 1);
  _ ← BUG_ON (existsb (fun r => negb (containsPosNonEmpty g r)) (WriteLabel.readers l));
  BUG_ON (existsb (fun r =>
            match label_at g r with
            | Some rl => forallb (fun '(w, _) => negb (bool_decide (w = getPos l))) (ReadLabel.getRfs rl)
            | None => true
            end) (WriteLabel.readers l)).
Definition validate (g : Graph) : outcome unit :=
  mfold (fun _ l =>
    _ ← (if Isa.ReadLabel (kind l) then validate_read g l else Ret tt);
    if Isa.WriteLabel (kind l) then validate_write g l else Ret tt) (labels g) tt.

End ExecutionGraph.
