(* ===== verification/GraphBase.v ===== *)
(** * Lookup in execution graphs: which label is at a position, and how the
    changes of ExecutionGraph.cpp affect it. *)
From S2P Require Import Prelude Event SVal SAddr VSet Deps Views Labels LabelClasses Graph.

(** ** Looking up labels *)
Module Lookup.
Import ExecutionGraph.

Lemma label_at_valid g e l : label_at g e = Some l -> valid e.
Proof.
  unfold label_at, valid. destruct (Z.ltb_spec (thread e) 0), (Z.ltb_spec (index e) 0); simpl; try done.
Qed.

Lemma label_at_lookup g e :
  valid e -> label_at g e = events g !! Z.to_nat (thread e) ≫= (.!! Z.to_nat (index e)).
Proof.
  intros [H1 H2]. unfold label_at. destruct (Z.ltb_spec (thread e) 0); [lia|].
  destruct (Z.ltb_spec (index e) 0); [lia|done].
Qed.

Lemma valid_inj e e' :
  valid e -> valid e' -> Z.to_nat (thread e) = Z.to_nat (thread e') ->
  Z.to_nat (index e) = Z.to_nat (index e') -> e = e'.
Proof. destruct e, e'. intros [] [] ? ?; simpl in *. f_equal; lia. Qed.

Lemma label_at_alter f e g e' :
  valid e -> label_at (alter_label f e g) e' = if decide (e' = e) then f <$> label_at g e' else label_at g e'.
Proof.
  intros He. destruct (decide (valid e')) as [He'|He'].
  2:{ assert (forall h, label_at h e' = None) as E.
      { intros h. destruct (label_at h e') eqn:E; [|done]. by apply label_at_valid in E. }
      rewrite !E. by case_decide. }
  rewrite !label_at_lookup by done. unfold alter_label, set_events. simpl.
  case_decide as Hd.
  - subst. rewrite list_lookup_alter_eq.
    destruct (events g !! _) as [thr|]; simpl; [|done]. apply list_lookup_alter_eq.
  - destruct (decide (Z.to_nat (thread e') = Z.to_nat (thread e))) as [Et|Et].
    + rewrite Et, list_lookup_alter_eq. destruct (events g !! _) as [thr|]; simpl; [|done].
      apply list_lookup_alter_ne. intros Ei. apply Hd. by apply valid_inj.
    + by rewrite list_lookup_alter_ne.
Qed.

Lemma alter_label_const g e l f :
  label_at g e = Some l -> alter_label (fun _ => f l) e g = alter_label f e g.
Proof.
  intros Hl. pose proof (label_at_valid _ _ _ Hl) as He. rewrite label_at_lookup in Hl by done.
  unfold alter_label, set_events. f_equal. apply list_eq. intros t.
  destruct (decide (t = Z.to_nat (thread e))) as [->|Ht]; [|by rewrite !list_lookup_alter_ne].
  rewrite !list_lookup_alter_eq. destruct (events g !! _) as [thr|]; simpl in *; [|done]. f_equal.
  apply list_eq. intros i.
  destruct (decide (i = Z.to_nat (index e))) as [->|Hi]; [|by rewrite !list_lookup_alter_ne].
  by rewrite !list_lookup_alter_eq, Hl.
Qed.

Lemma alter_thread_sizes f e g : map length (events (alter_label f e g)) = map length (events g).
Proof.
  unfold alter_label, set_events. simpl. apply list_eq. intros t. rewrite !list_lookup_fmap.
  destruct (decide (t = Z.to_nat (thread e))) as [->|Ht]; [|by rewrite list_lookup_alter_ne].
  rewrite list_lookup_alter_eq. destruct (events g !! _); simpl; [by rewrite length_alter|done].
Qed.

(** Same threads, same counters and same coherence. *)
Record same_frame (g g' : Graph) : Prop := {
  sf_sizes : map length (events g') = map length (events g);
  sf_timestamp : timestamp g' = timestamp g;
  sf_coherence : coherence g' = coherence g;
  sf_recovery : recoveryTID g' = recoveryTID g;
}.
#[export] Instance same_frame_refl : Reflexive same_frame.
Proof. by constructor. Qed.
#[export] Instance same_frame_trans : Transitive same_frame.
Proof. intros g1 g2 g3 [] []. constructor; congruence. Qed.

Lemma alter_frame f e g : same_frame g (alter_label f e g).
Proof. constructor; try done. apply alter_thread_sizes. Qed.

Lemma label_at_some_iff g e : is_Some (label_at g e) <-> containsPos g e = true.
Proof.
  unfold label_at, containsPos, getNumThreads, getThreadSize, thread_labels.
  rewrite !andb_true_iff, !Z.geb_leb, !Z.leb_le, !Z.ltb_lt.
  destruct (Z.ltb_spec (thread e) 0); simpl; [split; [intros []; done|lia]|].
  destruct (Z.ltb_spec (index e) 0); simpl; [split; [intros []; done|lia]|].
  destruct (events g !! Z.to_nat (thread e)) as [thr|] eqn:E; simpl.
  - apply lookup_lt_Some in E as Hlt. rewrite lookup_lt_is_Some. lia.
  - apply lookup_ge_None in E. split; [intros []; done|lia].
Qed.

Lemma label_at_some_iff_size g e l : label_at g e = Some l -> index e < getThreadSize g (thread e).
Proof.
  intros Hl. assert (containsPos g e = true) as H by (apply label_at_some_iff; by rewrite Hl).
  unfold containsPos in H. rewrite !andb_true_iff, Z.ltb_lt in H. lia.
Qed.

(** Threads of the same sizes. *)
Lemma sizes_threads g g' :
  map length (events g') = map length (events g) -> getNumThreads g' = getNumThreads g.
Proof.
  intros Hs. unfold getNumThreads. f_equal. rewrite <- (length_map length (events g')), Hs. by rewrite length_map.
Qed.
Lemma sizes_size g g' t :
  map length (events g') = map length (events g) -> getThreadSize g' t = getThreadSize g t.
Proof.
  intros Hs. unfold getThreadSize, thread_labels. destruct (t <? 0); [done|].
  pose proof (f_equal (.!! Z.to_nat t) Hs) as E. simpl in E. rewrite !list_lookup_fmap in E.
  destruct (events g' !! _), (events g !! _); simpl in *; congruence.
Qed.

Lemma contains_frame g g' e : same_frame g g' -> containsPos g' e = containsPos g e.
Proof.
  intros [Hs _ _ _]. unfold containsPos. by rewrite (sizes_threads g g'), (sizes_size g g') by done.
Qed.

Lemma label_at_thread g e :
  valid e -> label_at g e = thread_labels g (thread e) !! Z.to_nat (index e).
Proof.
  intros He. rewrite label_at_lookup by done. destruct He. unfold thread_labels.
  destruct (Z.ltb_spec (thread e) 0); [lia|]. by destruct (events g !! _).
Qed.

Lemma label_at_set_thread g t ls e :
  0 <= t < getNumThreads g -> valid e ->
  label_at (set_thread t ls g) e = if decide (thread e = t) then ls !! Z.to_nat (index e) else label_at g e.
Proof.
  unfold getNumThreads. intros Ht He. rewrite !label_at_lookup by done. unfold set_thread, set_events. simpl.
  destruct He as [He _]. case_decide as Hd.
  - subst. rewrite list_lookup_insert_eq by lia. done.
  - by rewrite list_lookup_insert_ne by lia.
Qed.

Lemma set_thread_threads g t ls : getNumThreads (set_thread t ls g) = getNumThreads g.
Proof. unfold getNumThreads, set_thread, set_events. simpl. by rewrite length_insert. Qed.

Lemma alter_threads f e g : getNumThreads (alter_label f e g) = getNumThreads g.
Proof. unfold getNumThreads, alter_label, set_events. simpl. by rewrite length_alter. Qed.

Lemma alter_size f e g t : getThreadSize (alter_label f e g) t = getThreadSize g t.
Proof. apply sizes_size, alter_thread_sizes. Qed.

Lemma set_thread_size g t ls :
  0 <= t < getNumThreads g -> getThreadSize (set_thread t ls g) t = Z.of_nat (length ls).
Proof.
  unfold getNumThreads. intros Ht. unfold getThreadSize, thread_labels, set_thread, set_events.
  destruct (Z.ltb_spec t 0); [lia|]. simpl. by rewrite list_lookup_insert_eq by lia.
Qed.

Lemma label_at_no_valid g e : ~ valid e -> label_at g e = None.
Proof. intros He. destruct (label_at g e) eqn:E; [|done]. by apply label_at_valid in E. Qed.

(** The labels of the loops [for (auto &lab : labels())] are those at some position. *)
Lemma labels_iff g l : l ∈ labels g <-> exists e, label_at g e = Some l.
Proof.
  unfold labels. rewrite list_elem_of_In, in_concat. split.
  - intros (thr & Ht & Hl). apply list_elem_of_In, list_elem_of_lookup in Ht as [i Hi].
    apply list_elem_of_In, list_elem_of_lookup in Hl as [j Hj].
    exists (mkEvent (Z.of_nat i) (Z.of_nat j)). rewrite label_at_lookup by (split; simpl; lia).
    simpl. by rewrite !Nat2Z.id, Hi.
  - intros [e He]. pose proof (label_at_valid _ _ _ He). rewrite label_at_lookup in He by done.
    destruct (events g !! _) as [thr|] eqn:E; [|done]. exists thr.
    split; apply list_elem_of_In, list_elem_of_lookup; eauto.
Qed.

(** All labels with their positions. *)
Definition entries (g : Graph) : list (Event * Label) :=
  concat (imap (fun t thr => imap (fun i l => (mkEvent (Z.of_nat t) (Z.of_nat i), l)) thr) (events g)).
Lemma entries_complete g e l : label_at g e = Some l -> (e, l) ∈ entries g.
Proof.
  intros El. pose proof (label_at_valid _ _ _ El) as Hv. rewrite label_at_lookup in El by done.
  destruct (events g !! Z.to_nat (thread e)) as [thr|] eqn:Et; [|done]. simpl in El.
  unfold entries. apply list_elem_of_In, in_concat.
  exists (imap (fun i l => (mkEvent (Z.of_nat (Z.to_nat (thread e))) (Z.of_nat i), l)) thr).
  split; apply list_elem_of_In, elem_of_lookup_imap; [by eexists _, _|].
  exists (Z.to_nat (index e)), l. split; [|done]. destruct Hv, e; simpl in *. by rewrite !Z2Nat.id by lia.
Qed.
Lemma entries_forall g (P : Event -> Label -> bool) :
  forallb (fun p => P p.1 p.2) (entries g) = true -> forall e l, label_at g e = Some l -> P e l = true.
Proof.
  intros Hf e l El%entries_complete. rewrite forallb_forall in Hf. by apply (Hf (e, l)), list_elem_of_In.
Qed.

(** The label as it is stored: with the next stamp if it has none. *)
Definition stamped (g : Graph) (lab : Label) : Label :=
  if EventLabel.hasStamp lab then lab else EventLabel.setStamp (timestamp g) lab.
Definition clock_after (g : Graph) (lab : Label) : Z :=
  if EventLabel.hasStamp lab then timestamp g else u32 (timestamp g + 1).

(** Where a label may be put: after the last label of its thread, or over an
    empty label. *)
Definition free_slot (g : Graph) (e : Event) : Prop :=
  valid e /\ thread e < getNumThreads g /\
  (index e = getThreadSize g (thread e) \/
   exists l, label_at g e = Some l /\ Isa.EmptyLabel (kind l) = true).

Lemma stamped_pos g lab : getPos (stamped g lab) = getPos lab.
Proof. unfold stamped. by destruct (EventLabel.hasStamp lab). Qed.

(** Adding, up to the label it returns. *)
Definition put_label (g : Graph) (lab : Label) : Graph :=
  let pos := getPos lab in
  let g0 := set_timestamp (clock_after g lab) g in
  if index pos <? getThreadSize g (thread pos) then alter_label (fun _ => stamped g lab) pos g0
  else set_thread (thread pos) (thread_labels g (thread pos) ++ [stamped g lab]) g0.
Lemma add_is_put g lab :
  addLabelToGraph g lab =
    let pos := getPos lab in
    if (thread pos <? 0) || (getNumThreads g <=? thread pos) || (index pos <? 0) then Undef
    else
      _ ← (if index pos <? getThreadSize g (thread pos)
           then eLab ← getEventLabel g pos; BUG_ON (negb (Isa.EmptyLabel (kind eLab))) else Ret tt);
      _ ← BUG_ON (index pos >? getThreadSize (put_label g lab) (thread pos));
      _ ← getEventLabel (put_label g lab) pos;
      Ret (put_label g lab).
Proof.
  unfold addLabelToGraph, put_label.
  set (p := if EventLabel.hasStamp lab then (lab, g) else _).
  assert (p = (stamped g lab, set_timestamp (clock_after g lab) g)) as ->.
  { unfold p, stamped, clock_after. destruct (EventLabel.hasStamp lab); [by destruct g|done]. }
  cbv beta iota zeta. rewrite stamped_pos.
  change (getNumThreads (set_timestamp (clock_after g lab) g)) with (getNumThreads g).
  change (getThreadSize (set_timestamp (clock_after g lab) g)) with (getThreadSize g).
  change (thread_labels (set_timestamp (clock_after g lab) g)) with (thread_labels g).
  change (getEventLabel (set_timestamp (clock_after g lab) g)) with (getEventLabel g).
  destruct (_ || _); [done|]. destruct (_ <? _); [|done].
  destruct (getEventLabel g (getPos lab)) as [l| |]; [|done|done]. cbn [mbind outcome_bind].
  by destruct (BUG_ON _).
Qed.

(** The labels of the new graph, in a free slot. *)
Lemma put_label_at g lab e :
  free_slot g (getPos lab) ->
  label_at (put_label g lab) e = if decide (e = getPos lab) then Some (stamped g lab) else label_at g e.
Proof.
  intros (Hv & Ht & Hslot). unfold put_label. cbv zeta. set (pos := getPos lab) in *.
  set (g0 := set_timestamp _ g). pose proof Hv as [Hv1 Hv2]. destruct Hslot as [He|(l & Hl & Hk)].
  - destruct (Z.ltb_spec (index pos) (getThreadSize g (thread pos))); [lia|].
    destruct (decide (valid e)) as [Hve|Hve].
    2:{ rewrite !label_at_no_valid by done. case_decide; [by subst|done]. }
    rewrite label_at_set_thread by (done || (split; [done|exact Ht])).
    unfold getThreadSize in He. case_decide as Hd.
    + case_decide as Hd2.
      * subst e. rewrite He, Nat2Z.id. by apply list_lookup_middle.
      * rewrite (label_at_thread g) by done. rewrite <- Hd. destruct Hve.
        destruct (decide (Z.to_nat (index e) < length (thread_labels g (thread e)))%nat).
        -- by apply lookup_app_l.
        -- rewrite Hd in *. rewrite lookup_app_r by lia.
           rewrite (lookup_ge_None_2 (thread_labels _ _)) by lia. apply lookup_ge_None_2. simpl.
           assert (index e <> index pos) by (intros ?; apply Hd2; destruct e, pos; simpl in *; congruence). lia.
    + rewrite decide_False by congruence. done.
  - apply label_at_some_iff_size in Hl as Hs.
    destruct (Z.ltb_spec (index pos) (getThreadSize g (thread pos))); [|lia].
    rewrite label_at_alter by done. change (label_at g0 e) with (label_at g e).
    case_decide; [|done]. subst e. by rewrite Hl.
Qed.
Lemma put_label_frame g lab :
  timestamp (put_label g lab) = clock_after g lab /\ coherence (put_label g lab) = coherence g /\
  recoveryTID (put_label g lab) = recoveryTID g /\ getNumThreads (put_label g lab) = getNumThreads g.
Proof.
  unfold put_label. cbv zeta. destruct (_ <? _); repeat split;
    [exact (alter_threads _ _ (set_timestamp _ g))|exact (set_thread_threads (set_timestamp _ g) _ _)].
Qed.
Lemma put_label_size g lab :
  free_slot g (getPos lab) -> index (getPos lab) < getThreadSize (put_label g lab) (thread (getPos lab)).
Proof.
  intros Hs. destruct (label_at (put_label g lab) (getPos lab)) as [l|] eqn:E.
  - by apply label_at_some_iff_size in E.
  - by rewrite put_label_at, decide_True in E.
Qed.

Lemma add_label g lab :
  free_slot g (getPos lab) ->
  exists g', addLabelToGraph g lab = Ret g' /\
    (forall e, label_at g' e = if decide (e = getPos lab) then Some (stamped g lab) else label_at g e) /\
    timestamp g' = clock_after g lab /\ coherence g' = coherence g /\ recoveryTID g' = recoveryTID g /\
    getNumThreads g' = getNumThreads g.
Proof.
  intros Hs. exists (put_label g lab). split; [|split; [intros e; by apply put_label_at|apply put_label_frame]].
  rewrite add_is_put. cbv zeta. pose proof Hs as ((Hv1 & Hv2) & Ht & Hslot).
  destruct (Z.ltb_spec (thread (getPos lab)) 0); [lia|].
  destruct (Z.leb_spec (getNumThreads g) (thread (getPos lab))); [lia|].
  destruct (Z.ltb_spec (index (getPos lab)) 0); [lia|]. cbn [orb].
  assert ((if index (getPos lab) <? getThreadSize g (thread (getPos lab))
           then eLab ← getEventLabel g (getPos lab); BUG_ON (negb (Isa.EmptyLabel (kind eLab))) else Ret tt) = Ret tt) as ->.
  { destruct Hslot as [He|(l & Hl & Hk)].
    - destruct (Z.ltb_spec (index (getPos lab)) (getThreadSize g (thread (getPos lab)))); [lia|done].
    - destruct (_ <? _); [|done]. unfold getEventLabel. rewrite Hl. cbn [mbind outcome_bind]. by rewrite Hk. }
  cbn [mbind outcome_bind]. pose proof (put_label_size g lab Hs).
  assert ((index (getPos lab) >? getThreadSize (put_label g lab) (thread (getPos lab))) = false) as -> by lia.
  cbn [BUG_ON mbind outcome_bind]. unfold getEventLabel. by rewrite put_label_at, decide_True.
Qed.

(** Adding returns for a free slot only. *)
Lemma add_label_inv g lab g' :
  addLabelToGraph g lab = Ret g' -> free_slot g (getPos lab) /\ g' = put_label g lab.
Proof.
  rewrite add_is_put. cbv zeta. set (pos := getPos lab).
  destruct (Z.ltb_spec (thread pos) 0); [done|]. destruct (Z.leb_spec (getNumThreads g) (thread pos)); [done|].
  destruct (Z.ltb_spec (index pos) 0); [done|]. cbn [orb]. intros E.
  assert (g' = put_label g lab /\ is_Some (label_at (put_label g lab) pos) /\
    (if index pos <? getThreadSize g (thread pos)
     then eLab ← getEventLabel g pos; BUG_ON (negb (Isa.EmptyLabel (kind eLab))) else Ret tt) = Ret tt) as (-> & [l El] & Ec).
  { revert E. destruct (if _ <? _ then _ else _) as [[]| |]; [|done..]. cbn [mbind outcome_bind].
    destruct (BUG_ON _); [|done..]. cbn [mbind outcome_bind]. unfold getEventLabel.
    destruct (label_at (put_label g lab) pos) as [l|]; [|done]. intros [= <-]. split; [done|]. split; [by exists l|done]. }
  split; [|done]. clear E. split; [done|]. split; [done|]. revert Ec.
  destruct (Z.ltb_spec (index pos) (getThreadSize g (thread pos))) as [Hi|Hi]; intros Ec.
  - right. unfold getEventLabel in Ec. destruct (label_at g pos) as [l0|]; [|done]. exists l0.
    cbn [mbind outcome_bind] in Ec. by destruct (Isa.EmptyLabel (kind l0)).
  - left. apply label_at_some_iff_size in El. revert El. unfold put_label. cbv zeta. fold pos.
    destruct (Z.ltb_spec (index pos) (getThreadSize g (thread pos))); [lia|].
    rewrite set_thread_size by (split; [done|]; exact H0). rewrite length_app. unfold getThreadSize in *. cbn [length]. lia.
Qed.

End Lookup.
