(* ===== verification/GraphRf.v ===== *)
(** * Reads-from and reader lists (the properties of ExecutionGraph.cpp's
    [changeRf], [removeLast] and [validate]). *)
From S2P Require Import Prelude Event SVal SAddr VSet Deps Views Labels LabelClasses Graph GraphBase.

(** ** The invariant: reads-from and the reader lists are inverse relations *)
Module Rf.
Import ExecutionGraph Lookup.

Definition rfs_of (g : Graph) (e : Event) : RfsT := from_option ReadLabel.getRfs [] (label_at g e).
Definition readers_of (g : Graph) (e : Event) : list Event :=
  from_option WriteLabel.readers [] (label_at g e).
Definition init_readers (g : Graph) (b : Z) : list Event :=
  default [] (InitLabel.bucket_get (initRfs g) b).
Definition bucket_of (g : Graph) (r : Event) : Z := SAddr.align (acc_addr (access_of g r)).
Definition is_write (g : Graph) (w : Event) : Prop :=
  label_sat g (fun l => Isa.WriteLabel (kind l)) w = true.
Definition is_read (g : Graph) (r : Event) : Prop :=
  label_sat g (fun l => Isa.ReadLabel (kind l)) r = true.
(** A write of the graph or the initializer. *)
Definition is_source (g : Graph) (w : Event) : Prop := is_write g w \/ w = init_pos.

(** Labels sit at their positions, their data fits their kind, and the
    initializer is at its place. *)
Record labelled (g : Graph) : Prop := {
  lb_ok e l : label_at g e = Some l -> getPos l = e /\ LabelFacts.label_ok l = true;
  lb_init : exists l, label_at g init_pos = Some l /\ kind l = EL_Init;
}.

Record consistent (g : Graph) : Prop := {
  c_labelled : labelled g;
  c_rf r w a : (w, a) ∈ rfs_of g r ->
    (is_write g w /\ r ∈ readers_of g w) \/ (w = init_pos /\ r ∈ init_readers g (bucket_of g r));
  c_readers r w : r ∈ readers_of g w -> w ∈ (rfs_of g r).*1;
  c_init r b : r ∈ init_readers g b -> init_pos ∈ (rfs_of g r).*1 /\ b = bucket_of g r;
  c_nodup w : NoDup (readers_of g w);
  c_nodup_init b : NoDup (init_readers g b);
}.

(** *** Changes that keep the shape of labels *)

Definition shape (l : Label) : EventLabelKind * Event * AAccess * bool :=
  (kind l, getPos l, MemAccessLabel.getAccess l, LabelFacts.label_ok l).
Definition keeps_shape (f : Label -> Label) : Prop := forall l, shape (f l) = shape l.
Definition same_shape (g g' : Graph) : Prop :=
  forall e, shape <$> label_at g' e = shape <$> label_at g e.

Lemma keeps_setRfs x : keeps_shape (ReadLabel.setRfs x).
Proof. intros l. by LabelFacts.case_payload l. Qed.
Lemma keeps_setRf o : keeps_shape (ReadLabel.setRf o).
Proof. intros l. by destruct o; LabelFacts.case_payload l. Qed.
Lemma keeps_setReaders x : keeps_shape (WriteLabel.setReaders x).
Proof. intros l. by LabelFacts.case_payload l. Qed.
Lemma keeps_removeReader c : keeps_shape (WriteLabel.removeReader c).
Proof. intros l. apply keeps_setReaders. Qed.
Lemma keeps_initRfs f : keeps_shape (InitLabel.map_initRfs f).
Proof. intros l. by LabelFacts.case_payload l. Qed.

Lemma alter_shape f e g : valid e -> keeps_shape f -> same_shape g (alter_label f e g).
Proof.
  intros He Hf e'. rewrite label_at_alter by done. case_decide; [|done].
  destruct (label_at g e'); simpl; [|done]. f_equal. apply Hf.
Qed.

#[export] Instance same_shape_refl : Reflexive same_shape.
Proof. by intros g e. Qed.
#[export] Instance same_shape_trans : Transitive same_shape.
Proof. intros g1 g2 g3 H1 H2 e. by rewrite H2. Qed.

Section shape.
Context (g g' : Graph) (Hs : same_shape g g').

Lemma shape_some e l' : label_at g' e = Some l' -> exists l, label_at g e = Some l /\ shape l' = shape l.
Proof.
  intros E. pose proof (Hs e) as H. rewrite E in H. destruct (label_at g e); simpl in H; [|done].
  injection H as H1 H2 H3 H4. eexists; split; [done|]. unfold shape. by f_equal; [f_equal; [f_equal|]|].
Qed.
Lemma shape_labelled : labelled g -> labelled g'.
Proof.
  intros [Hok (il & Hi & Hk)]. split.
  - intros e l' E. destruct (shape_some _ _ E) as (l & El & [= H1 H2 H3 H4]).
    apply Hok in El. by rewrite H2, H4.
  - pose proof (Hs init_pos) as H. rewrite Hi in H. destruct (label_at g' init_pos) as [l'|]; [|done].
    simpl in H. injection H as H _ _ _. exists l'. split; [done|]. congruence.
Qed.
Lemma shape_sat (P : EventLabelKind -> bool) e :
  label_sat g' (fun l => P (kind l)) e = label_sat g (fun l => P (kind l)) e.
Proof.
  unfold label_sat. pose proof (Hs e) as H.
  destruct (label_at g' e), (label_at g e); simpl in *; try done. by injection H as -> _ _ _.
Qed.
Lemma shape_access e : access_of g' e = access_of g e.
Proof.
  unfold access_of. pose proof (Hs e) as H.
  destruct (label_at g' e), (label_at g e); simpl in *; try done. by injection H.
Qed.
Lemma shape_bucket e : bucket_of g' e = bucket_of g e.
Proof. unfold bucket_of. by rewrite shape_access. Qed.
Lemma shape_source w : is_source g' w <-> is_source g w.
Proof. unfold is_source, is_write. by rewrite (shape_sat Isa.WriteLabel). Qed.
End shape.

(** *** What the accessors read after a change *)

Lemma getRfs_setRfs x l :
  LabelFacts.label_ok l = true -> Isa.ReadLabel (kind l) = true -> ReadLabel.getRfs (ReadLabel.setRfs x l) = x.
Proof.
  intros Hok Hk. destruct (LabelFacts.ok_read l Hok Hk) as (m & r & y & E).
  unfold ReadLabel.setRfs, ReadLabel.map_part. rewrite E. done.
Qed.
Lemma readers_setReaders x l :
  LabelFacts.label_ok l = true -> Isa.WriteLabel (kind l) = true -> WriteLabel.readers (WriteLabel.setReaders x l) = x.
Proof.
  intros Hok Hk. destruct (LabelFacts.ok_write l Hok Hk) as (m & r & y & E).
  unfold WriteLabel.setReaders, WriteLabel.map_part. by rewrite E.
Qed.
Lemma getRfs_setReaders x l : ReadLabel.getRfs (WriteLabel.setReaders x l) = ReadLabel.getRfs l.
Proof. by LabelFacts.case_payload l. Qed.
Lemma readers_setRfs x l : WriteLabel.readers (ReadLabel.setRfs x l) = WriteLabel.readers l.
Proof. by LabelFacts.case_payload l. Qed.
Lemma initRfs_setRfs x l : InitLabel.initRfs (ReadLabel.setRfs x l) = InitLabel.initRfs l.
Proof. by LabelFacts.case_payload l. Qed.
Lemma initRfs_setReaders x l : InitLabel.initRfs (WriteLabel.setReaders x l) = InitLabel.initRfs l.
Proof. by LabelFacts.case_payload l. Qed.
Lemma getRfs_initRfs f l : ReadLabel.getRfs (InitLabel.map_initRfs f l) = ReadLabel.getRfs l.
Proof. by LabelFacts.case_payload l. Qed.
Lemma readers_initRfs f l : WriteLabel.readers (InitLabel.map_initRfs f l) = WriteLabel.readers l.
Proof. by LabelFacts.case_payload l. Qed.

Lemma readers_other l :
  LabelFacts.label_ok l = true -> Isa.WriteLabel (kind l) = false -> WriteLabel.readers l = [].
Proof.
  unfold LabelFacts.label_ok, WriteLabel.readers, WriteLabel.part. intros Hok Hk.
  destruct (payload l); try done. unfold Isa.WriteLabel in Hk. congruence.
Qed.
Lemma getRfs_other l :
  LabelFacts.label_ok l = true -> Isa.ReadLabel (kind l) = false -> ReadLabel.getRfs l = [].
Proof.
  unfold LabelFacts.label_ok, ReadLabel.getRfs, ReadLabel.part. intros Hok Hk.
  destruct (payload l); try done. unfold Isa.ReadLabel in Hk. congruence.
Qed.

(** A projection a change does not touch. *)
Lemma proj_alter {A} (p : Label -> A) (d : A) f e g e' :
  valid e -> (forall l, p (f l) = p l) ->
  from_option p d (label_at (alter_label f e g) e') = from_option p d (label_at g e').
Proof.
  intros He Hp. rewrite label_at_alter by done. case_decide; [|done].
  destruct (label_at g e'); simpl; [apply Hp|done].
Qed.

Lemma bucket_get_alter f a m b :
  InitLabel.bucket_get (InitLabel.bucket_alter f a m) b =
  if decide (b = a) then Some (f (default [] (InitLabel.bucket_get m a))) else InitLabel.bucket_get m b.
Proof.
  induction m as [|[c rs] m IH]; simpl.
  - destruct (Z.eqb_spec a b), (decide (b = a)); congruence.
  - destruct (Z.eqb_spec c a) as [->|]; simpl.
    + destruct (Z.eqb_spec a b), (decide (b = a)); congruence.
    + rewrite IH. destruct (Z.eqb_spec c b), (decide (b = a)); congruence.
Qed.

Lemma valid_init : valid init_pos.
Proof. by split. Qed.

Lemma init_payload g :
  labelled g -> exists l m, label_at g init_pos = Some l /\ payload l = PInit m.
Proof.
  intros [Hok (l & Hl & Hk)]. apply Hok in Hl as H. destruct H as [_ H]. exists l.
  unfold LabelFacts.label_ok in H. rewrite Hk in H. destruct (payload l) eqn:E; try done. eauto.
Qed.

Lemma init_readers_alter g f a b :
  labelled g ->
  init_readers (alter_label (InitLabel.map_initRfs (InitLabel.bucket_alter f a)) init_pos g) b =
  if decide (b = a) then f (init_readers g a) else init_readers g b.
Proof.
  intros Hlb. destruct (init_payload g Hlb) as (l & m & Hl & Hm).
  unfold init_readers, initRfs. rewrite label_at_alter, decide_True, Hl by (done || apply valid_init).
  simpl. unfold InitLabel.initRfs, InitLabel.map_initRfs. rewrite Hm. simpl.
  rewrite bucket_get_alter. by case_decide.
Qed.

(** *** One read detached from the others

    [r] is on the reader list of exactly the sources [srcs], whatever it reads
    from; every other read is consistent. *)
Record linked (g : Graph) (r : Event) (srcs : list Event) : Prop := {
  l_labelled : labelled g;
  l_read : is_read g r;
  l_rf r' w a : r' <> r -> (w, a) ∈ rfs_of g r' ->
    (is_write g w /\ r' ∈ readers_of g w) \/ (w = init_pos /\ r' ∈ init_readers g (bucket_of g r'));
  l_readers r' w : r' <> r -> r' ∈ readers_of g w -> w ∈ (rfs_of g r').*1;
  l_init r' b : r' <> r -> r' ∈ init_readers g b -> init_pos ∈ (rfs_of g r').*1 /\ b = bucket_of g r';
  l_own w : r ∈ readers_of g w <-> w ∈ srcs /\ is_write g w;
  l_own_init b : r ∈ init_readers g b <-> init_pos ∈ srcs /\ b = bucket_of g r;
  l_nodup w : NoDup (readers_of g w);
  l_nodup_init b : NoDup (init_readers g b);
}.

Lemma init_not_write g : labelled g -> ~ is_write g init_pos.
Proof.
  intros [_ (l & Hl & Hk)] Hw. unfold is_write, label_sat in Hw. rewrite Hl in Hw. simpl in Hw.
  by rewrite Hk in Hw.
Qed.

Lemma consistent_linked g r :
  consistent g -> is_read g r -> linked g r (rfs_of g r).*1.
Proof.
  intros [Hl Hrf Hrd Hin Hnd Hni] Hr. split; try done.
  - intros r' w a _. apply Hrf.
  - intros r' w _. apply Hrd.
  - intros r' b _. apply Hin.
  - intros w. split.
    + intros H. split; [by apply Hrd|]. pose proof (Hrd _ _ H) as Hw.
      apply list_elem_of_fmap in Hw as ([w' a] & -> & Ha). simpl in *.
      destruct (Hrf _ _ _ Ha) as [[? _]|[-> _]]; [done|].
      unfold readers_of in H. destruct (init_payload g Hl) as (l & m & E & Em). rewrite E in H. simpl in H.
      unfold WriteLabel.readers, WriteLabel.part in H. rewrite Em in H. by apply not_elem_of_nil in H.
    + intros [Hw Hwr]. apply list_elem_of_fmap in Hw as ([w' a] & -> & Ha). simpl in *.
      destruct (Hrf _ _ _ Ha) as [[_ ?]|[-> _]]; [done|]. by destruct (init_not_write g).
  - intros b. split.
    + intros H. by apply Hin in H.
    + intros [Hi ->]. apply list_elem_of_fmap in Hi as ([w a] & E & Ha). simpl in E. subst w.
      destruct (Hrf _ _ _ Ha) as [[Hw _]|[_ ?]]; [|done]. by destruct (init_not_write g).
Qed.

Lemma linked_consistent g r srcs :
  linked g r srcs -> (forall w, w ∈ (rfs_of g r).*1 <-> w ∈ srcs) ->
  (forall w, w ∈ srcs -> is_source g w) -> consistent g.
Proof.
  intros [Hl Hr Hrf Hrd Hin Ho Hoi Hnd Hni] Hsrc Hok. split; try done.
  - intros r' w a H. destruct (decide (r' = r)) as [->|]; [|by eapply Hrf].
    assert (w ∈ srcs) as Hw by (apply Hsrc, list_elem_of_fmap; by exists (w, a)).
    destruct (Hok w Hw) as [?| ->]; [left; split; [done|by apply Ho]|].
    right. split; [done|by apply Hoi].
  - intros r' w H. destruct (decide (r' = r)) as [->|]; [|by apply Hrd].
    apply Hsrc. by apply Ho in H as [? _].
  - intros r' b H. destruct (decide (r' = r)) as [->|]; [|by apply Hin].
    rewrite Hsrc. by apply Hoi.
Qed.

(** Changing what [r] reads from does not change the lists. *)
Lemma linked_setRfs g r srcs x :
  linked g r srcs -> linked (alter_label (ReadLabel.setRfs x) r g) r srcs /\
  rfs_of (alter_label (ReadLabel.setRfs x) r g) r = x /\
  forall e, e <> r -> rfs_of (alter_label (ReadLabel.setRfs x) r g) e = rfs_of g e.
Proof.
  intros [Hl Hr Hrf Hrd Hin Ho Hoi Hnd Hni]. set (g' := alter_label _ r g).
  unfold is_read, label_sat in Hr. destruct (label_at g r) as [rl|] eqn:Er; [|done]. simpl in Hr.
  pose proof (label_at_valid _ _ _ Er) as Hv.
  pose proof (alter_shape _ r g Hv (keeps_setRfs x)) as Hs. fold g' in Hs.
  assert (Hread : forall w, readers_of g' w = readers_of g w)
    by (intros w; by apply proj_alter; [|apply readers_setRfs]).
  assert (Hini : forall b, init_readers g' b = init_readers g b).
  { intros b. unfold init_readers. do 2 f_equal. apply proj_alter; [done|apply initRfs_setRfs]. }
  assert (Hoth : forall e, e <> r -> rfs_of g' e = rfs_of g e).
  { intros e He. unfold rfs_of, g'. rewrite label_at_alter by done. by rewrite decide_False. }
  split; [|split; [|done]].
  - split; try setoid_rewrite Hread; try setoid_rewrite Hini; try done.
    + by apply (shape_labelled g).
    + unfold is_read. rewrite (shape_sat g g' Hs Isa.ReadLabel). unfold label_sat. by rewrite Er.
    + intros r' w a Hne. rewrite Hoth, (shape_bucket g g' Hs) by done. unfold is_write.
      rewrite (shape_sat g g' Hs Isa.WriteLabel). by apply Hrf.
    + intros r' w Hne. rewrite Hoth by done. by apply Hrd.
    + intros r' b Hne. rewrite Hoth, (shape_bucket g g' Hs) by done. by apply Hin.
    + intros w. unfold is_write. rewrite (shape_sat g g' Hs Isa.WriteLabel). apply Ho.
    + intros b. rewrite (shape_bucket g g' Hs). apply Hoi.
  - unfold rfs_of, g'. rewrite label_at_alter, decide_True, Er by done. simpl.
    apply getRfs_setRfs; [by eapply lb_ok|done].
Qed.

(** The reader list of a write, changed. *)
Lemma linked_readers g r srcs srcs' w f :
  linked g r srcs -> is_write g w ->
  (forall rs r', r' <> r -> r' ∈ f rs <-> r' ∈ rs) -> NoDup (f (readers_of g w)) ->
  (r ∈ f (readers_of g w) <-> w ∈ srcs') ->
  (forall w', w' <> w -> w' ∈ srcs' <-> w' ∈ srcs) ->
  let g' := alter_label (fun l => WriteLabel.setReaders (f (WriteLabel.readers l)) l) w g in
  linked g' r srcs' /\ (forall e, rfs_of g' e = rfs_of g e) /\ same_shape g g'.
Proof.
  intros [Hl Hr Hrf Hrd Hin Ho Hoi Hnd Hni] Hw Hf Hndf Hfr Hsr g'.
  pose proof Hw as Hw0. unfold is_write, label_sat in Hw0.
  destruct (label_at g w) as [wl|] eqn:Ew; [|done]. simpl in Hw0.
  pose proof (label_at_valid _ _ _ Ew) as Hv.
  assert (Hs : same_shape g g') by (apply alter_shape; [done|intros l; apply keeps_setReaders]).
  assert (Hrfs : forall e, rfs_of g' e = rfs_of g e).
  { intros e. by apply proj_alter; [|intros; apply getRfs_setReaders]. }
  assert (Hini : forall b, init_readers g' b = init_readers g b).
  { intros b. unfold init_readers. do 2 f_equal.
    apply proj_alter; [done|intros; apply initRfs_setReaders]. }
  assert (Hread : forall e, readers_of g' e = if decide (e = w) then f (readers_of g w) else readers_of g e).
  { intros e. unfold readers_of, g'. rewrite label_at_alter by done. case_decide; [|done]. subst e.
    rewrite Ew. simpl. apply readers_setReaders; [by eapply lb_ok|done]. }
  assert (Hiw : forall e, is_write g' e <-> is_write g e)
    by (intros e; unfold is_write; by rewrite (shape_sat g g' Hs Isa.WriteLabel)).
  assert (init_pos <> w) by (intros <-; by destruct (init_not_write g)).
  split; [|done]. split; try setoid_rewrite Hini; try done.
  - by apply (shape_labelled g).
  - unfold is_read. by rewrite (shape_sat g g' Hs Isa.ReadLabel).
  - intros r' w' a Hne. rewrite Hrfs, (shape_bucket g g' Hs), Hiw, Hread. intros H'.
    destruct (Hrf _ _ _ Hne H') as [[? Hrr]|?]; [left|by right]. split; [done|].
    case_decide; [subst; by apply Hf|done].
  - intros r' w' Hne. rewrite Hrfs, Hread. case_decide; [subst; rewrite Hf by done|]; by apply Hrd.
  - intros r' b Hne. rewrite Hrfs, (shape_bucket g g' Hs). by apply Hin.
  - intros w'. rewrite Hiw, Hread. case_decide; [subst; tauto|]. rewrite Ho, Hsr by done. done.
  - intros b. rewrite (shape_bucket g g' Hs), Hoi, Hsr by done. done.
  - intros w'. rewrite Hread. by case_decide.
Qed.

(** The bucket of [r] in the readers of the initializer, changed. *)
Lemma linked_init g r srcs srcs' f :
  linked g r srcs ->
  (forall rs r', r' <> r -> r' ∈ f rs <-> r' ∈ rs) -> NoDup (f (init_readers g (bucket_of g r))) ->
  (r ∈ f (init_readers g (bucket_of g r)) <-> init_pos ∈ srcs') ->
  (forall w', w' <> init_pos -> w' ∈ srcs' <-> w' ∈ srcs) ->
  let g' := alter_label (InitLabel.map_initRfs (InitLabel.bucket_alter f (bucket_of g r))) init_pos g in
  linked g' r srcs' /\ (forall e, rfs_of g' e = rfs_of g e) /\ same_shape g g'.
Proof.
  intros [Hl Hr Hrf Hrd Hin Ho Hoi Hnd Hni] Hf Hndf Hfr Hsr g'.
  assert (Hs : same_shape g g') by (apply alter_shape; [apply valid_init|apply keeps_initRfs]).
  assert (Hrfs : forall e, rfs_of g' e = rfs_of g e)
    by (intros e; by apply proj_alter; [apply valid_init|apply getRfs_initRfs]).
  assert (Hread : forall e, readers_of g' e = readers_of g e)
    by (intros e; by apply proj_alter; [apply valid_init|apply readers_initRfs]).
  assert (Hini : forall b, init_readers g' b = if decide (b = bucket_of g r) then f (init_readers g (bucket_of g r))
                                               else init_readers g b)
    by (intros b; by apply init_readers_alter).
  assert (Hiw : forall e, is_write g' e <-> is_write g e)
    by (intros e; unfold is_write; by rewrite (shape_sat g g' Hs Isa.WriteLabel)).
  split; [|done]. split; try setoid_rewrite Hread; try done.
  - by apply (shape_labelled g).
  - unfold is_read. by rewrite (shape_sat g g' Hs Isa.ReadLabel).
  - intros r' w' a Hne. rewrite Hrfs, (shape_bucket g g' Hs), Hiw, Hini. intros H'.
    destruct (Hrf _ _ _ Hne H') as [?|[-> ?]]; [by left|right]. split; [done|].
    case_decide as E; [rewrite E in *; by apply Hf|done].
  - intros r' w' Hne. rewrite Hrfs. by apply Hrd.
  - intros r' b Hne. rewrite Hrfs, (shape_bucket g g' Hs), Hini.
    case_decide; [subst; rewrite Hf by done|]; by apply Hin.
  - intros w'. rewrite Hiw, Ho. split; intros [? ?]; (split; [|done]);
      (apply Hsr; [intros ->; by destruct (init_not_write g)|done]).
  - intros b. rewrite (shape_bucket g g' Hs), Hini. case_decide; [subst; tauto|]. rewrite Hoi. naive_solver.
  - intros b. rewrite Hini. by case_decide.
Qed.

Lemma is_write_not_init g w : labelled g -> is_write g w -> w <> init_pos.
Proof. intros Hl Hw ->. by destruct (init_not_write g). Qed.

Lemma is_write_label g w :
  is_write g w -> exists l, label_at g w = Some l /\ Isa.WriteLabel (kind l) = true.
Proof.
  unfold is_write, label_sat. destruct (label_at g w); simpl; [eauto|done].
Qed.

Lemma source_contained g w : labelled g -> is_source g w -> containsPos g w = true.
Proof.
  intros [_ (il & Hi & _)] [Hw| ->]; apply label_at_some_iff; [|eauto].
  destruct (is_write_label _ _ Hw) as (l & -> & _). eauto.
Qed.

(** Taking [r] off the list of one of its sources. *)
Lemma linked_detach g r srcs rLab o :
  linked g r srcs -> getPos rLab = r -> MemAccessLabel.getAccess rLab = access_of g r ->
  is_source g o ->
  let g' := detach_reader rLab g o in
  linked g' r (List.filter (fun x => negb (is_pos o x)) srcs) /\
  (forall e, rfs_of g' e = rfs_of g e) /\ same_shape g g' /\ same_frame g g'.
Proof.
  intros Hlk Hpos Hacc Ho. unfold detach_reader. pose proof (l_labelled _ _ _ Hlk) as Hl.
  rewrite (source_contained g o) by done.
  assert (Hin : forall w', w' ∈ List.filter (fun x => negb (is_pos o x)) srcs <-> w' ∈ srcs /\ w' <> o).
  { intros w'. rewrite list_elem_of_In, List.filter_In, <- list_elem_of_In, negb_true_iff.
    unfold is_pos. rewrite bool_decide_eq_false. done. }
  destruct (label_sat g _ o) eqn:Hw.
  - destruct (linked_readers g r srcs (List.filter (fun x => negb (is_pos o x)) srcs) o
      (fun rs => filter (fun x => is_pos (getPos rLab) x = false) rs)) as (H1 & H2 & H3); try done.
    + intros rs r' Hne. rewrite list_elem_of_filter. unfold is_pos. rewrite Hpos.
      rewrite bool_decide_eq_false. tauto.
    + apply NoDup_filter, l_nodup with (1 := Hlk).
    + rewrite list_elem_of_filter, Hin. unfold is_pos. rewrite Hpos, bool_decide_eq_false. tauto.
    + intros w' Hne. rewrite Hin. tauto.
    + split; [exact H1|]. split; [exact H2|]. split; [exact H3|]. apply alter_frame.
  - destruct Ho as [Ho| ->]; [unfold is_write in Ho; congruence|]. unfold EventOps.isInitializer.
    rewrite bool_decide_eq_true_2 by done. unfold removeInitRfToLoc, MemAccessLabel.getAddr.
    rewrite Hacc. fold (bucket_of g r).
    destruct (linked_init g r srcs (List.filter (fun x => negb (is_pos init_pos x)) srcs)
      (List.filter (fun e => negb (is_pos (getPos rLab) e)))) as (H1 & H2 & H3); try done.
    + intros rs r' Hne. rewrite list_elem_of_In, List.filter_In, <- list_elem_of_In, negb_true_iff.
      unfold is_pos. rewrite Hpos, bool_decide_eq_false. tauto.
    + apply NoDup_ListNoDup, List.NoDup_filter, NoDup_ListNoDup, l_nodup_init with (1 := Hlk).
    + rewrite list_elem_of_In, List.filter_In, <- list_elem_of_In, negb_true_iff, Hin.
      unfold is_pos. rewrite Hpos, bool_decide_eq_false. tauto.
    + intros w' Hne. rewrite Hin. tauto.
    + split; [exact H1|]. split; [exact H2|]. split; [exact H3|]. apply alter_frame.
Qed.

(** Putting [r] on the list of a new source. *)
Lemma linked_attach g r srcs rLab w :
  linked g r srcs -> getPos rLab = r -> MemAccessLabel.getAccess rLab = access_of g r ->
  is_source g w -> w ∉ srcs ->
  exists g', attach_reader rLab g w = Ret g' /\ linked g' r (w :: srcs) /\
    (forall e, rfs_of g' e = rfs_of g e) /\ same_shape g g' /\ same_frame g g'.
Proof.
  intros Hlk Hpos Hacc Hs Hn. pose proof (l_labelled _ _ _ Hlk) as Hl.
  unfold attach_reader, getEventLabel.
  assert (Hin : forall rs r', r' <> r -> r' ∈ rs ++ [getPos rLab] <-> r' ∈ rs)
    by (intros rs r' Hne; rewrite Hpos; set_solver).
  assert (Hnd : forall rs, NoDup rs -> r ∉ rs -> NoDup (rs ++ [getPos rLab])).
  { intros rs Hrs Hr. rewrite Hpos. apply NoDup_app. repeat split; [done| |apply NoDup_singleton].
    intros x Hx ->%list_elem_of_singleton. done. }
  destruct Hs as [Hw| ->].
  - destruct (is_write_label _ _ Hw) as (wl & Ew & Hk). rewrite Ew. cbn [mbind outcome_bind]. rewrite Hk.
    assert (Hr : r ∉ readers_of g w) by (rewrite (l_own _ _ _ Hlk); tauto).
    unfold WriteLabel.addReader, BUG_ON. rewrite bool_decide_eq_false_2.
    2:{ unfold readers_of in Hr. rewrite Ew in Hr. by rewrite Hpos. }
    cbn [mbind outcome_bind]. eexists. split; [reflexivity|].
    rewrite (alter_label_const g w wl (fun l => WriteLabel.setReaders (WriteLabel.readers l ++ [getPos rLab]) l)) by done.
    destruct (linked_readers g r srcs (w :: srcs) w (fun rs => rs ++ [getPos rLab])) as (H1 & H2 & H3); try done.
    + apply Hnd; [apply l_nodup with (1 := Hlk)|done].
    + rewrite Hpos. set_solver.
    + set_solver.
    + split; [exact H1|]. split; [exact H2|]. split; [exact H3|]. apply alter_frame.
  - destruct (lb_init _ Hl) as (il & Ei & Hki). rewrite Ei. cbn [mbind outcome_bind].
    assert (Isa.WriteLabel (kind il) = false) as -> by (rewrite Hki; done).
    unfold EventOps.isInitializer. rewrite bool_decide_eq_true_2 by done. cbn [negb BUG_ON mbind outcome_bind].
    unfold addInitRfToLoc, MemAccessLabel.getAddr. rewrite Hacc. fold (bucket_of g r).
    fold (init_readers g (bucket_of g r)).
    assert (Hr : r ∉ init_readers g (bucket_of g r)) by (rewrite (l_own_init _ _ _ Hlk); tauto).
    rewrite bool_decide_eq_false_2.
    2:{ unfold overlapping. rewrite list_elem_of_In, List.filter_In, <- list_elem_of_In, Hpos. tauto. }
    cbn [BUG_ON mbind outcome_bind]. eexists. split; [reflexivity|].
    destruct (linked_init g r srcs (init_pos :: srcs) (fun rs => rs ++ [getPos rLab])) as (H1 & H2 & H3); try done.
    + apply Hnd; [apply l_nodup_init with (1 := Hlk)|done].
    + rewrite Hpos. set_solver.
    + set_solver.
    + split; [exact H1|]. split; [exact H2|]. split; [exact H3|]. apply alter_frame.
Qed.

(** Detaching from a list of sources, attaching to a list of new ones. *)
Lemma linked_detach_all rLab r os : forall g srcs,
  linked g r srcs -> getPos rLab = r -> MemAccessLabel.getAccess rLab = access_of g r ->
  (forall o, o ∈ os -> is_source g o) -> (forall s, s ∈ srcs -> s ∈ os) ->
  let g' := foldl (detach_reader rLab) g os in
  linked g' r [] /\ (forall e, rfs_of g' e = rfs_of g e) /\ same_shape g g' /\ same_frame g g'.
Proof.
  induction os as [|o os IH]; intros g srcs Hlk Hpos Hacc Hos Hsub; cbn [foldl].
  - destruct srcs as [|s srcs]; [done|]. exfalso. eapply not_elem_of_nil, Hsub. left.
  - destruct (linked_detach g r srcs rLab o Hlk Hpos Hacc) as (H1 & H2 & H3 & H4); [apply Hos; left|].
    set (g1 := detach_reader rLab g o) in *.
    destruct (IH g1 _ H1 Hpos) as (K1 & K2 & K3 & K4).
    + by rewrite (shape_access g g1 H3).
    + intros o' Ho'. apply (shape_source g g1 H3), Hos. by right.
    + intros s. rewrite list_elem_of_In, List.filter_In, <- list_elem_of_In, negb_true_iff.
      unfold is_pos. rewrite bool_decide_eq_false. intros [Hs Hne].
      apply Hsub, elem_of_cons in Hs as [?|?]; done.
    + split; [done|]. split; [intros e; by rewrite K2|]. split; etransitivity; done.
Qed.

Lemma linked_attach_all rLab r ws : forall g srcs,
  linked g r srcs -> getPos rLab = r -> MemAccessLabel.getAccess rLab = access_of g r ->
  (forall w, w ∈ ws -> is_source g w /\ w ∉ srcs) -> NoDup ws ->
  exists g', mfold (attach_reader rLab) ws g = Ret g' /\ linked g' r (rev ws ++ srcs) /\
    (forall e, rfs_of g' e = rfs_of g e) /\ same_shape g g' /\ same_frame g g'.
Proof.
  induction ws as [|w ws IH]; intros g srcs Hlk Hpos Hacc Hws Hnd; cbn [mfold].
  - exists g. split; [done|]. split; [exact Hlk|]. split; [done|]. split; reflexivity.
  - apply NoDup_cons in Hnd as [Hn Hnd].
    destruct (Hws w) as [Hs0 Hn0]; [left|].
    destruct (linked_attach g r srcs rLab w) as (g1 & -> & H1 & H2 & H3 & H4); [done..|].
    cbn [mbind outcome_bind].
    destruct (IH g1 _ H1 Hpos) as (g' & -> & K1 & K2 & K3 & K4); [by rewrite (shape_access g g1 H3)| |done|].
    + intros w' Hw'. destruct (Hws w') as [? ?]; [by right|].
      split; [by apply (shape_source g g1 H3)|]. intros [->|?]%elem_of_cons; done.
    + exists g'. split; [done|]. split; [simpl; by rewrite <- app_assoc|].
      split; [intros e; by rewrite K2|]. split; etransitivity; done.
Qed.

(** *** [changeRf] *)

Lemma consistent_source g r w :
  consistent g -> w ∈ (rfs_of g r).*1 -> is_source g w.
Proof.
  intros Hc ([w' a] & -> & Ha)%list_elem_of_fmap. apply (c_rf _ Hc) in Ha as [[? _]|[? _]]; [by left|by right].
Qed.

Lemma is_read_label g r :
  is_read g r -> exists l, label_at g r = Some l /\ Isa.ReadLabel (kind l) = true.
Proof. unfold is_read, label_sat. destruct (label_at g r); simpl; [eauto|done]. Qed.

Lemma source_label g w : labelled g -> is_source g w -> exists l, label_at g w = Some l /\ getPos l = w.
Proof.
  intros Hl Hs. destruct (proj2 (label_at_some_iff g w) (source_contained g w Hl Hs)) as [l E].
  exists l. split; [done|]. by eapply lb_ok.
Qed.

Lemma resolve_rfs_ret g rfs :
  labelled g -> (forall w a, (w, a) ∈ rfs -> is_source g w) -> resolve_rfs g rfs = Ret rfs.
Proof.
  intros Hl. induction rfs as [|[w a] rfs IH]; intros Hs; [done|]. simpl. unfold getEventLabel.
  destruct (source_label g w Hl) as (l & E & Ep); [apply (Hs w a); left|].
  rewrite E. cbn [mbind outcome_bind]. rewrite IH; [cbn [mbind outcome_bind]; by rewrite Ep|].
  intros w' a' ?. apply (Hs w' a'). by right.
Qed.

Lemma dedup_stores_app rfs : forall acc,
  NoDup acc ->
  let d := foldl (fun acc '(w, _) => if bool_decide (w ∈ acc) then acc else acc ++ [w]) acc rfs in
  NoDup d /\ forall w, w ∈ d <-> w ∈ acc \/ w ∈ (rfs : RfsT).*1.
Proof.
  induction rfs as [|[w a] rfs IH]; intros acc Hn; simpl; [set_solver|].
  case_bool_decide.
  - destruct (IH acc Hn) as [? Hd]. split; [done|]. intros w'. rewrite Hd. set_solver.
  - destruct (IH (acc ++ [w])) as [? Hd].
    { apply NoDup_app. split; [done|]. split; [set_solver|apply NoDup_singleton]. }
    split; [done|]. intros w'. rewrite Hd. set_solver.
Qed.
Lemma dedup_stores_spec (rfs : RfsT) :
  NoDup (dedup_stores rfs) /\ forall w, w ∈ dedup_stores rfs <-> w ∈ rfs.*1.
Proof.
  destruct (dedup_stores_app rfs []) as [? H]; [constructor|]. split; [done|].
  intros w. rewrite H. set_solver.
Qed.

(** The common part of both [changeRf]s: new edges, detach from the old
    sources, attach to the new ones. *)
Lemma rewire_consistent g r rLab rfs :
  consistent g -> label_at g r = Some rLab -> Isa.ReadLabel (kind rLab) = true ->
  (forall w a, (w, a) ∈ rfs -> is_source g w) ->
  exists g', mfold (attach_reader rLab) (dedup_stores rfs)
      (foldl (detach_reader rLab) (alter_label (ReadLabel.setRfs rfs) r g) (map fst (ReadLabel.getRfs rLab)))
    = Ret g' /\
    consistent g' /\ rfs_of g' r = rfs /\ (forall e, e <> r -> rfs_of g' e = rfs_of g e) /\
    same_frame g g'.
Proof.
  intros Hc Er Hk Hsrc. pose proof (c_labelled _ Hc) as Hl.
  assert (Hr : is_read g r) by (unfold is_read, label_sat; by rewrite Er).
  pose proof (label_at_valid _ _ _ Er) as Hv.
  pose proof (alter_shape _ r g Hv (keeps_setRfs rfs)) as Hs.
  pose proof (alter_frame (ReadLabel.setRfs rfs) r g) as Hf.
  destruct (linked_setRfs g r _ rfs (consistent_linked g r Hc Hr)) as (H1 & H2 & H3).
  set (g1 := alter_label _ r g) in *.
  assert (Hpos : getPos rLab = r) by (by eapply lb_ok).
  assert (Hacc : MemAccessLabel.getAccess rLab = access_of g1 r)
    by (rewrite (shape_access g g1 Hs); unfold access_of; by rewrite Er).
  assert (Hold : forall w, w ∈ (rfs_of g r).*1 <-> w ∈ map fst (ReadLabel.getRfs rLab))
    by (intros w; unfold rfs_of; by rewrite Er).
  destruct (linked_detach_all rLab r (map fst (ReadLabel.getRfs rLab)) g1 _ H1 Hpos Hacc)
    as (K1 & K2 & K3 & K4).
  { intros o Ho. apply (shape_source g g1 Hs). apply (consistent_source g r); [done|by apply Hold]. }
  { intros s. apply Hold. }
  set (g2 := foldl _ g1 _) in *. destruct (dedup_stores_spec rfs) as [Hnd Hin].
  destruct (linked_attach_all rLab r (dedup_stores rfs) g2 _ K1 Hpos) as (g' & -> & L1 & L2 & L3 & L4).
  { by rewrite (shape_access g1 g2 K3). }
  { intros w Hw. split; [|set_solver]. apply (shape_source g1 g2 K3), (shape_source g g1 Hs).
    apply Hin, list_elem_of_fmap in Hw as ([w' a] & -> & Ha). by eapply Hsrc. }
  { done. }
  exists g'. split; [done|]. assert (Hrfs : rfs_of g' r = rfs) by (rewrite L2, K2; done).
  split; [|split; [done|split]].
  - apply (linked_consistent g' r _ L1).
    + intros w. rewrite Hrfs, app_nil_r, list_elem_of_In, (list_elem_of_In (rev _)), <- in_rev, <- !list_elem_of_In, Hin. done.
    + intros w. rewrite app_nil_r, list_elem_of_In, <- in_rev, <- list_elem_of_In. intros Hw. apply Hin in Hw.
      apply (shape_source g2 g' L3), (shape_source g1 g2 K3), (shape_source g g1 Hs).
      apply list_elem_of_fmap in Hw as ([w' a] & -> & Ha). by eapply Hsrc.
  - intros e He. rewrite L2, K2. by apply H3.
  - do 2 (etransitivity; [|done]). done.
Qed.

(** *** Adding labels *)

Lemma free_slot_label g e l : free_slot g e -> label_at g e = Some l -> Isa.EmptyLabel (kind l) = true.
Proof.
  intros (_ & _ & [He|(l' & Hl & Hk)]) Hl'; [|congruence].
  apply label_at_some_iff_size in Hl'. lia.
Qed.

(** Nothing points to or from a free slot. *)
Lemma free_slot_fresh g e :
  labelled g -> free_slot g e ->
  rfs_of g e = [] /\ readers_of g e = [] /\ ~ is_write g e /\ e <> init_pos.
Proof.
  intros [Hok (il & Hi & Hki)] Hf. unfold rfs_of, readers_of, is_write, label_sat.
  assert (e <> init_pos)
    by (intros ->; pose proof (free_slot_label _ _ _ Hf Hi) as Hk; by rewrite Hki in Hk).
  destruct (label_at g e) as [l|] eqn:E; [|by repeat split]. simpl.
  pose proof (free_slot_label _ _ _ Hf E) as Hk. apply Hok in E as [_ Hl].
  unfold Isa.EmptyLabel, kis in Hk. apply bool_decide_eq_true in Hk.
  unfold LabelFacts.label_ok in Hl. rewrite Hk in *.
  unfold ReadLabel.getRfs, ReadLabel.part, WriteLabel.readers, WriteLabel.part.
  by destruct (payload l); repeat split.
Qed.

Lemma add_consistent g g' lab :
  consistent g -> free_slot g (getPos lab) -> LabelFacts.label_ok lab = true ->
  ReadLabel.getRfs lab = [] -> WriteLabel.readers lab = [] ->
  (forall e, label_at g' e = if decide (e = getPos lab) then Some (stamped g lab) else label_at g e) ->
  consistent g'.
Proof.
  intros [Hl Hrf Hrd Hin Hnd Hni] Hf Hok Hr Hw Hat.
  destruct (free_slot_fresh g _ Hl Hf) as (F1 & F2 & F3 & F4).
  assert (Hpay : payload (stamped g lab) = payload lab /\ kind (stamped g lab) = kind lab)
    by (unfold stamped; by destruct (EventLabel.hasStamp lab)). destruct Hpay as [Hpay Hkind].
  assert (E1 : forall e, rfs_of g' e = rfs_of g e).
  { intros e. destruct (decide (e = getPos lab)) as [->|]; unfold rfs_of in *; rewrite Hat.
    - rewrite decide_True, F1 by done. simpl. unfold ReadLabel.getRfs, ReadLabel.part in *. by rewrite Hpay.
    - by rewrite decide_False. }
  assert (E2 : forall e, readers_of g' e = readers_of g e).
  { intros e. destruct (decide (e = getPos lab)) as [->|]; unfold readers_of in *; rewrite Hat.
    - rewrite decide_True, F2 by done. simpl. unfold WriteLabel.readers, WriteLabel.part in *. by rewrite Hpay.
    - by rewrite decide_False. }
  assert (E3 : forall b, init_readers g' b = init_readers g b)
    by (intros b; unfold init_readers, initRfs; by rewrite Hat, decide_False).
  assert (E4 : forall e, e <> getPos lab -> bucket_of g' e = bucket_of g e)
    by (intros e He; unfold bucket_of, access_of; by rewrite Hat, decide_False).
  assert (E5 : forall w, is_write g w -> is_write g' w).
  { intros w Hww. unfold is_write, label_sat. rewrite Hat. rewrite decide_False by (by intros ->). done. }
  assert (E6 : forall r, rfs_of g r <> [] -> r <> getPos lab) by (intros r H ->; done).
  split.
  - split.
    + intros e l. rewrite Hat. case_decide; [|by apply Hl]. intros [= <-]. subst.
      rewrite stamped_pos. split; [done|]. unfold LabelFacts.label_ok. by rewrite Hpay, Hkind.
    + destruct (lb_init _ Hl) as (il & Hi & Hk). exists il. by rewrite Hat, decide_False.
  - intros r w a. rewrite E1. intros Ha. rewrite E2, E4, E3.
    + destruct (Hrf _ _ _ Ha) as [[? ?]|?]; [left|by right]. split; [by apply E5|done].
    + apply E6. by destruct (rfs_of g r); [apply not_elem_of_nil in Ha|].
  - intros r w. rewrite E1, E2. apply Hrd.
  - intros r b. rewrite E3, E1. intros H. destruct (Hin _ _ H) as [? ->]. split; [done|].
    rewrite E4; [done|]. apply E6. intros E. rewrite E in *. by apply not_elem_of_nil in H0.
  - intros w. rewrite E2. apply Hnd.
  - intros b. rewrite E3. apply Hni.
Qed.

(** Property C24.  Adding a label without reads-from edges and readers at a free
    slot succeeds: the label is found at its position, with the next stamp of
    the graph unless it has one already; every other label stays, the counter
    advances exactly when a stamp was given, and reads-from edges and reader
    lists remain inverse. *)
Theorem addLabelToGraph_adds g lab :
  consistent g -> free_slot g (getPos lab) -> LabelFacts.label_ok lab = true ->
  ReadLabel.getRfs lab = [] -> WriteLabel.readers lab = [] ->
  exists g', addLabelToGraph g lab = Ret g' /\
    label_at g' (getPos lab) = Some (stamped g lab) /\
    (forall e, e <> getPos lab -> label_at g' e = label_at g e) /\
    timestamp g' = clock_after g lab /\ coherence g' = coherence g /\
    consistent g'.
Proof.
  intros Hc Hf Hok Hr Hw. destruct (add_label g lab Hf) as (g' & E & Hat & Ht & Hco & _).
  exists g'. split; [done|]. split; [by rewrite Hat, decide_True|].
  split; [intros e He; by rewrite Hat, decide_False|]. split; [done|]. split; [done|].
  by eapply add_consistent.
Qed.

(** The empty graph. *)
Definition empty : Graph := default (mkGraph [[]] 0 [] (-1)) (match make with Ret g => Some g | _ => None end).

(** *** A checker, for concrete graphs *)

Definition source_okb (g : Graph) (r : Event) (p : Event * AAccess) : bool :=
  (label_sat g (fun l => Isa.WriteLabel (kind l)) p.1 && bool_decide (r ∈ readers_of g p.1)) ||
  (bool_decide (p.1 = init_pos) && bool_decide (r ∈ init_readers g (bucket_of g r))).
Definition entry_okb (g : Graph) (e : Event) (l : Label) : bool :=
  bool_decide (getPos l = e) && LabelFacts.label_ok l &&
  forallb (source_okb g e) (ReadLabel.getRfs l) &&
  forallb (fun r => bool_decide (e ∈ (rfs_of g r).*1)) (WriteLabel.readers l) &&
  bool_decide (NoDup (WriteLabel.readers l)).
Definition bucket_okb (g : Graph) (b : Z) : bool :=
  forallb (fun r => bool_decide (init_pos ∈ (rfs_of g r).*1) && bool_decide (b = bucket_of g r)) (init_readers g b) &&
  bool_decide (NoDup (init_readers g b)).
Definition consistentb (g : Graph) : bool :=
  forallb (fun p => entry_okb g p.1 p.2) (entries g) && forallb (bucket_okb g) (initRfs g).*1 &&
  label_sat g (fun l => bool_decide (kind l = EL_Init)) init_pos.

Lemma bucket_get_key (m : list (Z * list Event)) b : b ∉ m.*1 -> InitLabel.bucket_get m b = None.
Proof.
  induction m as [|[a rs] m IH]; [done|]. rewrite fmap_cons. simpl. intros Hb.
  destruct (Z.eqb_spec a b); [set_solver|]. apply IH. set_solver.
Qed.

Lemma consistentb_sound g : consistentb g = true -> consistent g.
Proof.
  unfold consistentb. rewrite !andb_true_iff. intros [[He Hb] Hi].
  pose proof (entries_forall g _ He) as Hent.
  assert (Hbu : forall b, bucket_okb g b = true).
  { intros b. destruct (decide (b ∈ (initRfs g).*1)) as [Hin|Hn].
    - rewrite forallb_forall in Hb. by apply Hb, list_elem_of_In.
    - unfold bucket_okb, init_readers. by rewrite bucket_get_key. }
  assert (Hr : forall r p, p ∈ rfs_of g r -> source_okb g r p = true).
  { intros r p. unfold rfs_of. destruct (label_at g r) as [l|] eqn:El; [|by intros ?%elem_of_nil].
    simpl. intros Hp. specialize (Hent r l El). unfold entry_okb in Hent. rewrite !andb_true_iff in Hent.
    destruct Hent as [[[_ H] _] _]. rewrite forallb_forall in H. by apply H, list_elem_of_In. }
  split.
  - split.
    + intros e l El. specialize (Hent e l El). unfold entry_okb in Hent.
      rewrite !andb_true_iff, bool_decide_eq_true in Hent. tauto.
    + unfold label_sat in Hi. destruct (label_at g init_pos) as [l|]; [|done]. exists l. split; [done|].
      simpl in Hi. by apply bool_decide_eq_true in Hi.
  - intros r w a Ha. specialize (Hr r _ Ha). unfold source_okb in Hr.
    rewrite orb_true_iff, !andb_true_iff, !bool_decide_eq_true in Hr. done.
  - intros r w Hrw. unfold readers_of in Hrw. destruct (label_at g w) as [l|] eqn:El; [|by apply elem_of_nil in Hrw].
    specialize (Hent w l El). unfold entry_okb in Hent. rewrite !andb_true_iff in Hent.
    destruct Hent as [[_ H] _]. rewrite forallb_forall in H. apply list_elem_of_In, H in Hrw.
    by apply bool_decide_eq_true in Hrw.
  - intros r b Hrb. specialize (Hbu b). unfold bucket_okb in Hbu. rewrite andb_true_iff, forallb_forall in Hbu.
    destruct Hbu as [H _]. apply list_elem_of_In, H in Hrb. by rewrite andb_true_iff, !bool_decide_eq_true in Hrb.
  - intros w. unfold readers_of. destruct (label_at g w) as [l|] eqn:El; [|constructor].
    specialize (Hent w l El). unfold entry_okb in Hent. rewrite !andb_true_iff in Hent.
    destruct Hent as [_ H]. by apply bool_decide_eq_true in H.
  - intros b. specialize (Hbu b). unfold bucket_okb in Hbu. rewrite andb_true_iff in Hbu.
    destruct Hbu as [_ H]. by apply bool_decide_eq_true in H.
Qed.

(** Property C1.  [changeRf] with a list of reads-from edges, on a graph whose
    reads-from edges and reader lists (those of writes and those the
    initializer keeps per aligned address) are inverse to each other: for a
    read of the graph and sources of the graph it returns, the read has
    exactly the given edges, no other read changed, and edges and reader
    lists are inverse again; threads, counters and coherence are kept. *)
Theorem changeRfs_keeps_inverse g r rfs :
  consistent g -> is_read g r -> (forall w a, (w, a) ∈ rfs -> is_source g w) ->
  exists g', changeRfs g r rfs = Ret g' /\
    consistent g' /\ rfs_of g' r = rfs /\ (forall e, e <> r -> rfs_of g' e = rfs_of g e) /\
    same_frame g g'.
Proof.
  intros Hc Hr Hs. destruct (is_read_label g r Hr) as (rLab & E & Hk).
  unfold changeRfs, getEventLabel. rewrite E. cbn [mbind outcome_bind]. rewrite Hk.
  cbn [negb BUG_ON mbind outcome_bind].
  rewrite resolve_rfs_ret by (done || apply Hc). cbn [mbind outcome_bind].
  by apply rewire_consistent.
Qed.

(**  [changeRf] of one store, on a consistent graph and a read with
    at most one reads-from edge: the read afterwards reads its whole access
    from the store, or nothing when the store is bottom, and the graph is
    consistent again. *)
Theorem changeRf_keeps_inverse g r s :
  consistent g -> is_read g r -> (length (rfs_of g r) <= 1)%nat ->
  EventOps.isBottom s = true \/ is_source g s ->
  exists g', changeRf g r s = Ret g' /\ consistent g' /\
    rfs_of g' r = (if EventOps.isBottom s then [] else [(s, access_of g r)]) /\
    (forall e, e <> r -> rfs_of g' e = rfs_of g e) /\ same_frame g g'.
Proof.
  intros Hc Hr Hlen Hs. destruct (is_read_label g r Hr) as (rLab & E & Hk).
  pose proof (c_labelled _ Hc) as Hl.
  set (rfs := if EventOps.isBottom s then [] else [(s, access_of g r)]).
  assert (Hsrc : forall w a, (w, a) ∈ rfs -> is_source g w).
  { intros w a. unfold rfs. destruct (EventOps.isBottom s); [intros ?%not_elem_of_nil; done|].
    intros [= -> ->]%list_elem_of_singleton. naive_solver. }
  destruct (rewire_consistent g r rLab rfs Hc E Hk Hsrc) as (g' & Hg & H).
  exists g'. split; [|exact H]. rewrite <- Hg. clear Hg H.
  unfold changeRf, getEventLabel. rewrite E. cbn [mbind outcome_bind]. rewrite Hk.
  cbn [negb BUG_ON mbind outcome_bind].
  assert (Hold : match ReadLabel.getRf rLab with Some o => [o] | None => [] end = map fst (ReadLabel.getRfs rLab)).
  { unfold ReadLabel.getRf. unfold rfs_of in Hlen. rewrite E in Hlen. simpl in Hlen.
    destruct (ReadLabel.getRfs rLab) as [|? []]; simpl in *; [done|done|lia]. }
  assert (Hdet : forall h, match ReadLabel.getRf rLab with Some o => detach_reader rLab h o | None => h end
                   = foldl (detach_reader rLab) h (map fst (ReadLabel.getRfs rLab))).
  { intros h. rewrite <- Hold. by destruct (ReadLabel.getRf rLab). }
  subst rfs. destruct (EventOps.isBottom s).
  - cbn [mbind outcome_bind]. rewrite Hdet. done.
  - destruct Hs as [|Hs]; [done|]. destruct (source_label g s Hl Hs) as (sl & Es & Ep).
    rewrite Es. cbn [mbind outcome_bind]. rewrite Hdet, Ep. simpl.
    assert (alter_label (ReadLabel.setRf (Some s)) r g = alter_label (ReadLabel.setRfs [(s, access_of g r)]) r g) as ->.
    { rewrite <- (alter_label_const g r rLab (ReadLabel.setRf (Some s))) by done.
      rewrite <- (alter_label_const g r rLab (ReadLabel.setRfs _)) by done.
      simpl. unfold access_of. by rewrite E. }
    by destruct (attach_reader rLab _ s).
Qed.

(** *** Sample graphs: stores and loads of 8 bytes at one address *)

Definition sample_store (i v : Z) : Label :=
  Make.WriteLabel (mkEvent 0 i) Release 64 8 Unsigned v WriteAttr.None_ DepInfo.no_deps.
Definition sample_load (i : Z) : Label :=
  Make.ReadLabel (mkEvent 0 i) Acquire 64 8 Unsigned None DepInfo.no_deps.

Definition add_or_keep (g : Graph) (lab : Label) : Graph :=
  match addLabelToGraph g lab with Ret g' => g' | _ => g end.
(** Three stores, then a load. *)
Definition sample : Graph :=
  foldl add_or_keep empty [sample_store 1 10; sample_store 2 20; sample_store 3 30; sample_load 4].

Lemma sample_consistent : consistent sample.
Proof. apply consistentb_sound. vm_compute. reflexivity. Qed.

Definition pos (i : Z) : Event := mkEvent 0 i.
Definition word_access : AAccess := mkAccess 64 8 Unsigned.
Definition lower_half : AAccess := mkAccess 64 4 Unsigned.
Definition upper_half : AAccess := mkAccess 68 4 Unsigned.
Definition mixed_rfs : RfsT := [(pos 1, lower_half); (pos 2, upper_half)].

Lemma sample_sources w a : (w, a) ∈ mixed_rfs -> is_source sample w.
Proof.
  intros [[= -> ->]|[[= -> ->]|Hn]%elem_of_cons]%elem_of_cons; [by left|by left|].
  by apply not_elem_of_nil in Hn.
Qed.

Lemma changeRfs_keeps_inverse_witness :
  exists g', changeRfs sample (pos 4) mixed_rfs = Ret g' /\ consistent g' /\ rfs_of g' (pos 4) = mixed_rfs.
Proof.
  destruct (changeRfs_keeps_inverse sample (pos 4) mixed_rfs) as (g' & E & Hc & Hr & _);
    [apply sample_consistent|reflexivity|apply sample_sources|eauto].
Defined.

Lemma changeRf_keeps_inverse_witness :
  exists g', changeRf sample (pos 4) init_pos = Ret g' /\ consistent g' /\
    rfs_of g' (pos 4) = [(init_pos, word_access)].
Proof.
  destruct (changeRf_keeps_inverse sample (pos 4) init_pos) as (g' & E & Hc & Hr & _);
    [apply sample_consistent|reflexivity|vm_compute; lia|right; right; reflexivity|].
  exists g'. split; [done|]. split; [done|]. exact Hr.
Defined.

Lemma addLabelToGraph_adds_witness :
  exists g', addLabelToGraph sample (sample_load 5) = Ret g' /\
    label_at g' (pos 5) = Some (stamped sample (sample_load 5)) /\ consistent g'.
Proof.
  destruct (addLabelToGraph_adds sample (sample_load 5)) as (g' & E & Hl & _ & _ & _ & Hc);
    [apply sample_consistent|split; [done|]; split; [done|by left]|reflexivity..|].
  exists g'. split; [done|]. by split.
Defined.

(** The sample after the load read from two stores. *)
Definition mixed_sample : Graph :=
  match changeRfs sample (pos 4) mixed_rfs with Ret g => g | _ => sample end.
Lemma mixed_sample_consistent : consistent mixed_sample.
Proof. apply consistentb_sound. vm_compute. reflexivity. Qed.

(**  [changeRf] of one store on a read that reads its bytes from two
    stores removes the read from the readers of the first of them only: the
    second keeps a reader that does not read from it. *)
Theorem changeRf_leaves_stale_reader :
  consistent mixed_sample /\ rfs_of mixed_sample (pos 4) = mixed_rfs /\
  exists g', changeRf mixed_sample (pos 4) (pos 3) = Ret g' /\
    rfs_of g' (pos 4) = [(pos 3, word_access)] /\
    readers_of g' (pos 1) = [] /\ readers_of g' (pos 2) = [pos 4] /\ ~ consistent g'.
Proof.
  split; [apply mixed_sample_consistent|]. split; [reflexivity|].
  eexists. split; [vm_compute; reflexivity|]. split_and!; try reflexivity.
  intros Hc. assert (pos 2 ∈ [pos 3]) as H by (apply (c_readers _ Hc (pos 4)); left).
  by apply list_elem_of_singleton in H.
Qed.

(** The sample after the load read from the initializer. *)
Definition init_sample : Graph :=
  match changeRf sample (pos 4) init_pos with Ret g => g | _ => sample end.

(**  [removeLast] of a load that reads from the initializer: the load
    is gone, and the initializer still lists it as a reader. *)
Theorem removeLast_keeps_init_reader :
  exists g', removeLast init_sample 0 = Ret g' /\
    label_at g' (pos 4) = None /\ init_readers g' 64 = [pos 4] /\ ~ consistent g'.
Proof.
  eexists. split; [vm_compute; reflexivity|]. split_and!; try reflexivity.
  intros Hc. destruct (c_init _ Hc (pos 4) 64) as [H _]; [left|].
  change (init_pos ∈ @nil Event) in H. by apply not_elem_of_nil in H.
Qed.

End Rf.
