(* ===== verification/GraphCut.v ===== *)
(** * Cutting a graph at a stamp and renumbering stamps (the properties of
    ExecutionGraph.cpp's [getViewFromStamp], [cutToStamp] and
    [compressStampsAfter]). *)
From S2P Require Import Prelude Event SVal SAddr VSet Deps Views Labels LabelClasses Graph GraphBase GraphRf.

(** ** The view of the labels up to a stamp *)
Module StampView.
Import ExecutionGraph Lookup.

Definition stamp_of (g : Graph) (e : Event) : option Z := label_at g e ≫= stamp.

(** Every label has a stamp, and stamps do not decrease along a thread. *)
Record po_stamped (g : Graph) : Prop := {
  ps_stamped e l : label_at g e = Some l -> is_Some (stamp l);
  ps_po e e' s s' : thread e = thread e' -> index e <= index e' ->
    stamp_of g e = Some s -> stamp_of g e' = Some s' -> s <= s';
}.

(** What the inner loop finds: the last index with a small stamp. *)
Definition last_small (st : Z) (ls : list Label) (o : option Z) : Prop :=
  match o with
  | Some j => 0 <= j < Z.of_nat (length ls) /\
      (exists l s, ls !! Z.to_nat j = Some l /\ stamp l = Some s /\ s <= st) /\
      forall k l s, (Z.to_nat j < k)%nat -> ls !! k = Some l -> stamp l = Some s -> st < s
  | None => forall k l s, ls !! k = Some l -> stamp l = Some s -> st < s
  end.

Lemma last_le_stamp_spec st ls :
  (forall k l, ls !! k = Some l -> is_Some (stamp l)) ->
  exists o, last_le_stamp st (rev ls) (Z.of_nat (length ls) - 1) = Ret o /\ last_small st ls o.
Proof.
  induction ls as [|l ls IH] using rev_ind; intros Hs; [by exists None|].
  destruct (Hs (length ls) l) as [s Es]; [by apply list_lookup_middle|].
  rewrite rev_unit, length_app. cbn [last_le_stamp length]. unfold EventLabel.getStamp. rewrite Es.
  cbn [mbind outcome_bind].
  assert (Hlast : forall k l', (ls ++ [l]) !! k = Some l' -> ls !! k = Some l' \/ k = length ls /\ l' = l).
  { intros k l'. rewrite lookup_snoc_Some. naive_solver. }
  destruct (Z.leb_spec s st).
  - exists (Some (Z.of_nat (length ls + 1) - 1)). split; [done|]. unfold last_small.
    rewrite length_app. simpl. split; [lia|]. split.
    + exists l, s. replace (Z.to_nat _) with (length ls) by lia. by rewrite list_lookup_middle.
    + intros k l' s' Hk Hl. apply lookup_lt_Some in Hl. rewrite length_app in Hl. simpl in Hl. lia.
  - destruct IH as (o & E & Ho).
    { intros k l' Hl. apply (Hs k). by apply lookup_app_l_Some. }
    exists o. replace (Z.of_nat (length ls + 1) - 1 - 1) with (Z.of_nat (length ls) - 1) by lia.
    split; [done|]. destruct o as [j|]; unfold last_small in *.
    + destruct Ho as (Hj & (l0 & s0 & H0 & H1 & H2) & Hgt). rewrite length_app. split; [lia|]. split.
      * exists l0, s0. split; [by apply lookup_app_l_Some|done].
      * intros k l' s' Hk [Hl|[-> ->]]%Hlast Hs'; [by eapply Hgt|]. congruence.
    + intros k l' s' [Hl|[-> ->]]%Hlast Hs'; [by eapply Ho|]. congruence.
Qed.

Lemma view_loop g st f tids : forall v,
  Forall (fun i => 0 <= i) tids ->
  (forall i, i ∈ tids ->
    last_le_stamp st (rev (thread_labels g i)) (getThreadSize g i - 1) = Ret (f i)) ->
  exists v',
    mfold (fun v i =>
      o ← last_le_stamp st (rev (thread_labels g i)) (getThreadSize g i - 1);
      Ret (match o with Some j => View.setMax v (mkEvent i j) | None => v end)) tids v = Ret v' /\
    (forall t, 0 <= t -> View.getMax v' t =
      if decide (t ∈ tids) then default (View.getMax v t) (f t) else View.getMax v t) /\
    (forall n, Forall (fun i => i < n) tids -> View.size v <= n -> View.size v' <= n).
Proof.
  induction tids as [|i tids IH]; intros v Hpos Hf; cbn [mfold].
  { exists v. split; [done|]. split; [intros t _; by rewrite decide_False by set_solver|done]. }
  apply Forall_cons_1 in Hpos as [Hi Hpos].
  rewrite (Hf i) by left. cbn [mbind outcome_bind].
  set (v1 := match f i with Some j => _ | None => v end).
  destruct (IH v1 Hpos) as (v' & -> & Hget & Hsz); [intros; apply Hf; by right|].
  exists v'. split; [done|]. split.
  - intros t Ht. rewrite Hget by done.
    assert (View.getMax v1 t = if decide (t = i) then default (View.getMax v t) (f t) else View.getMax v t) as ->.
    { unfold v1. case_decide; subst; destruct (f _) eqn:E; try done;
        rewrite View.getMax_setMax by done; simpl; zcases; done. }
    destruct (decide (t ∈ i :: tids)) as [H|H]; rewrite elem_of_cons in H;
      destruct (decide (t ∈ tids)), (decide (t = i)) as [->|]; try done; try tauto; by destruct (f _).
  - intros n Hall Hv. apply Forall_cons_1 in Hall as [Hin Hall]. apply Hsz; [done|].
    unfold v1. destruct (f i); [|done]. unfold View.size in *. rewrite View.setMax_length by done. simpl. lia.
Qed.

(** What [getViewFromStamp] computes, thread by thread. *)
Lemma getViewFromStamp_threads g st :
  (forall e l, label_at g e = Some l -> is_Some (stamp l)) ->
  exists v, getViewFromStamp g st = Ret v /\ View.size v <= getNumThreads g /\
    forall i, 0 <= i < getNumThreads g ->
      exists o, last_small st (thread_labels g i) o /\ View.getMax v i = default 0 o.
Proof.
  intros Hs.
  assert (Hl : forall i, 0 <= i -> exists o,
    last_le_stamp st (rev (thread_labels g i)) (getThreadSize g i - 1) = Ret o /\
    last_small st (thread_labels g i) o).
  { intros i Hi. apply last_le_stamp_spec. intros k l Hk. apply (Hs (mkEvent i (Z.of_nat k))).
    rewrite label_at_thread by (split; simpl; lia). simpl. by rewrite Nat2Z.id. }
  set (f := fun i => match last_le_stamp st (rev (thread_labels g i)) (getThreadSize g i - 1) with
                     | Ret o => o | _ => None end).
  destruct (view_loop g st f (seqZ 0 (getNumThreads g)) View.make) as (v & E & Hget & Hsz).
  - apply Forall_seqZ. lia.
  - intros i Hi%elem_of_seqZ. destruct (Hl i) as (o & Eo & _); [lia|]. unfold f. by rewrite Eo.
  - exists v. split; [exact E|]. split.
    + apply Hsz; [apply Forall_seqZ; lia|]. unfold getNumThreads. apply Nat2Z.is_nonneg.
    + intros i Hi. destruct (Hl i) as (o & Eo & Ho); [lia|]. exists o. split; [done|].
      rewrite Hget, decide_True by (lia || (apply elem_of_seqZ; lia)). unfold f. rewrite Eo.
      destruct o; [done|]. simpl. unfold View.getMax. by case_match.
Qed.

(** Membership in that view, for any view with these maxima. *)
Lemma last_small_contains g st v e s o :
  po_stamped g -> stamp_of g e = Some s ->
  last_small st (thread_labels g (thread e)) o -> View.getMax v (thread e) = default 0 o ->
  View.contains v e = true <-> index e = 0 \/ s <= st.
Proof.
  intros [_ Hpo] Es Ho Hm. pose proof Es as Es'. unfold stamp_of in Es'.
  destruct (label_at g e) as [l|] eqn:El; [|done]. simpl in Es'.
  pose proof (label_at_valid _ _ _ El) as [Ht Hi]. rewrite View.view_contains_spec, Hm.
  rewrite label_at_thread in El by done. destruct o as [j|]; simpl in *.
  - destruct Ho as (Hj & (l0 & s0 & H0 & H1 & H2) & Hgt). split.
    + intros Hle. right. transitivity s0; [|done].
      apply (Hpo e (mkEvent (thread e) j)); [done|done|done|].
      unfold stamp_of. rewrite label_at_thread by (split; simpl; lia). simpl. by rewrite H0.
    + intros [->|Hle]; [lia|]. destruct (decide (index e <= j)); [done|].
      assert (st < s) by (apply (Hgt (Z.to_nat (index e)) l); [lia|done..]). lia.
  - pose proof (Ho _ _ _ El Es'). lia.
Qed.

Lemma getViewFromStamp_spec g st :
  po_stamped g ->
  exists v, getViewFromStamp g st = Ret v /\ View.size v <= getNumThreads g /\
    (forall i, 0 <= i < getNumThreads g -> 0 < getThreadSize g i ->
      0 <= View.getMax v i < getThreadSize g i) /\
    forall e s, stamp_of g e = Some s -> View.contains v e = true <-> index e = 0 \/ s <= st.
Proof.
  intros Hp. destruct (getViewFromStamp_threads g st (ps_stamped _ Hp)) as (v & E & Hsz & Hv).
  exists v. split; [done|]. split; [done|]. split.
  - intros i Hi Hlen. destruct (Hv i Hi) as (o & Ho & ->). destruct o; [apply Ho|simpl; lia].
  - intros e s Es. assert (containsPos g e = true) as Hc.
    { apply label_at_some_iff. unfold stamp_of in Es. destruct (label_at g e); [eauto|done]. }
    unfold containsPos in Hc. rewrite !andb_true_iff, !Z.ltb_lt in Hc.
    destruct (Hv (thread e)) as (o & Ho & Hm); [lia|]. by eapply last_small_contains.
Qed.

(** A checker, for concrete graphs. *)
Definition po_stampedb (g : Graph) : bool :=
  forallb (fun p => bool_decide (is_Some (stamp p.2)) &&
    forallb (fun q => negb ((thread p.1 =? thread q.1) && (index p.1 <=? index q.1)) ||
      (default 0 (stamp p.2) <=? default 0 (stamp q.2))) (entries g)) (entries g).
Lemma po_stampedb_sound g : po_stampedb g = true -> po_stamped g.
Proof.
  intros H. unfold po_stampedb in H.
  pose proof (entries_forall g (fun e l => bool_decide (is_Some (stamp l)) &&
    forallb (fun q => negb ((thread e =? thread q.1) && (index e <=? index q.1)) ||
      (default 0 (stamp l) <=? default 0 (stamp q.2))) (entries g)) H) as He. split.
  - intros e l El. specialize (He e l El). simpl in He. rewrite andb_true_iff, bool_decide_eq_true in He. tauto.
  - intros e e' s s' Ht Hi Es Es'. unfold stamp_of in *.
    destruct (label_at g e) as [l|] eqn:El; [|done]. destruct (label_at g e') as [l'|] eqn:El'; [|done].
    simpl in *. specialize (He e l El). simpl in He. rewrite andb_true_iff, forallb_forall in He.
    destruct He as [_ He]. specialize (He (e', l')). rewrite Es in He. simpl in He. rewrite Es' in He. simpl in He.
    assert (negb ((thread e =? thread e') && (index e <=? index e')) = false) as E.
    { rewrite (proj2 (Z.eqb_eq _ _) Ht), (proj2 (Z.leb_le _ _) Hi). done. }
    rewrite E in He. simpl in He. apply Z.leb_le, He, list_elem_of_In. by apply entries_complete.
Qed.

(**  [getViewFromStamp] when stamps do not decrease along threads: a
    view over the threads of the graph that contains, besides the first label
    of every thread, exactly the labels whose stamp is at most the given one. *)
Theorem getViewFromStamp_contains g st :
  po_stamped g ->
  exists v, getViewFromStamp g st = Ret v /\ View.size v <= getNumThreads g /\
    forall e s, stamp_of g e = Some s -> View.contains v e = true <-> index e = 0 \/ s <= st.
Proof. intros Hp. destruct (getViewFromStamp_spec g st Hp) as (v & E & Hsz & _ & Hv). eauto. Qed.

Lemma getViewFromStamp_contains_witness :
  exists v, getViewFromStamp Rf.sample 2 = Ret v /\ View.size v <= getNumThreads Rf.sample /\
    forall e s, stamp_of Rf.sample e = Some s -> View.contains v e = true <-> index e = 0 \/ s <= 2.
Proof. apply (getViewFromStamp_contains Rf.sample 2). apply po_stampedb_sound. vm_compute. reflexivity. Defined.

End StampView.

(** ** Renumbering stamps *)
Module Compress.
Import ExecutionGraph Lookup StampView.

(** Labels added after [st], and how many of them come before a position. *)
Definition is_late (st : Z) (l : Label) : bool := from_option (fun s => st <? s) false (stamp l).
Definition late (st : Z) (ls : list Label) : Z := Z.of_nat (length (List.filter (is_late st) ls)).
Definition rank (g : Graph) (st : Z) (e : Event) : Z :=
  late st (concat (take (Z.to_nat (thread e)) (events g))) +
  late st (take (Z.to_nat (index e)) (thread_labels g (thread e))).

Lemma late_app st l1 l2 : late st (l1 ++ l2) = late st l1 + late st l2.
Proof. unfold late. rewrite List.filter_app, length_app. lia. Qed.
Lemma late_nonneg st ls : 0 <= late st ls.
Proof. unfold late. lia. Qed.
Lemma late_cons st l ls s :
  stamp l = Some s -> late st (l :: ls) = (if s >? st then 1 else 0) + late st ls.
Proof.
  intros E. unfold late, is_late. simpl. rewrite E. simpl. rewrite Z.gtb_ltb. destruct (st <? s); simpl; lia.
Qed.

(** A label after renumbering, with [n] late labels before it. *)
Definition renumber (st next n : Z) (l : Label) : Label :=
  if is_late st l then EventLabel.setStamp (next + n) l else l.

Lemma compress_thread_spec st ls : forall next,
  Forall (fun l => is_Some (stamp l)) ls -> 0 <= next -> next + late st ls < 2 ^ 32 ->
  exists ls', compress_thread st next ls = Ret (next + late st ls, ls') /\ length ls' = length ls /\
    forall k l, ls !! k = Some l -> ls' !! k = Some (renumber st next (late st (take k ls)) l).
Proof.
  induction ls as [|l ls IH]; intros next Hs Hn Hb; cbn [compress_thread].
  { exists []. rewrite Z.add_0_r. done. }
  apply Forall_cons_1 in Hs as [[s Es] Hs]. rewrite (late_cons _ _ _ s) in * by done.
  unfold EventLabel.getStamp. rewrite Es. cbn [mbind outcome_bind].
  pose proof (late_nonneg st ls).
  assert (El : is_late st l = (s >? st)) by (unfold is_late; rewrite Es; simpl; by rewrite Z.gtb_ltb).
  set (d := if s >? st then 1 else 0) in *.
  assert (d = 0 \/ d = 1) by (unfold d; destruct (s >? st); lia).
  destruct (IH (next + d)) as (ls' & E & Hlen & Hat); [done|lia..|].
  exists (renumber st next 0 l :: ls').
  assert ((let '(l0, next0) := if s >? st then (EventLabel.setStamp next l, (Stamp.post_incr next).2) else (l, next) in
    r ← compress_thread st next0 ls; Ret (r.1, l0 :: r.2)) = Ret (next + (d + late st ls), renumber st next 0 l :: ls')) as ->.
  { unfold renumber. rewrite El. unfold d in *. destruct (s >? st).
    - assert ((Stamp.post_incr next).2 = next + 1) as -> by (apply wrap_small; lia).
      rewrite E. cbn [mbind outcome_bind]. simpl. by rewrite Z.add_0_r, Z.add_assoc.
    - rewrite Z.add_0_r in E. rewrite E. cbn [mbind outcome_bind]. simpl. done. }
  split; [done|]. split; [simpl; by rewrite Hlen|].
  intros [|k] l' Hk; simpl in *; [by injection Hk as ->|].
  rewrite (Hat _ _ Hk). rewrite (late_cons _ _ _ s) by done. fold d. unfold renumber.
  by rewrite Z.add_assoc.
Qed.

Lemma compress_threads_spec st thrs : forall next,
  Forall (Forall (fun l => is_Some (stamp l))) thrs -> 0 <= next -> next + late st (concat thrs) < 2 ^ 32 ->
  exists thrs', compress_threads st next thrs = Ret (next + late st (concat thrs), thrs') /\
    length thrs' = length thrs /\
    forall t thr, thrs !! t = Some thr -> exists thr', thrs' !! t = Some thr' /\ length thr' = length thr /\
      forall k l, thr !! k = Some l ->
        thr' !! k = Some (renumber st next (late st (concat (take t thrs)) + late st (take k thr)) l).
Proof.
  induction thrs as [|thr thrs IH]; intros next Hs Hn Hb; cbn [compress_threads concat].
  { exists []. rewrite Z.add_0_r. done. }
  apply Forall_cons_1 in Hs as [Hthr Hs]. cbn [concat] in Hb. rewrite late_app in *.
  pose proof (late_nonneg st thr). pose proof (late_nonneg st (concat thrs)).
  destruct (compress_thread_spec st thr next) as (thr' & -> & Hlen & Hat); [done|lia..|].
  cbn [mbind outcome_bind fst snd].
  destruct (IH (next + late st thr)) as (thrs' & -> & Hlen' & Hat'); [done|lia..|].
  cbn [mbind outcome_bind fst snd]. exists (thr' :: thrs'). split; [by rewrite Z.add_assoc|].
  split; [simpl; by rewrite Hlen'|]. intros [|t] u Hu; simpl in *.
  - injection Hu as <-. exists thr'. split; [done|]. split; [done|]. intros k l Hk. by apply Hat.
  - destruct (Hat' t u Hu) as (u' & Hu' & Hul & Huk). exists u'. split; [done|]. split; [done|].
    intros k l Hk. rewrite (Huk k l Hk). unfold renumber. rewrite late_app. by rewrite !Z.add_assoc.
Qed.

Lemma rank_before g st e1 e2 l :
  label_at g e1 = Some l -> is_late st l = true -> valid e2 ->
  EventOps.EventL2RCompare e1 e2 = true -> rank g st e1 < rank g st e2.
Proof.
  intros El Hl [Hv1 Hv2] Hlt. pose proof (label_at_valid _ _ _ El) as [Ht Hi].
  pose proof El as Ex. rewrite label_at_thread in El by done.
  set (thr := thread_labels g (thread e1)) in *.
  assert (Hsplit : late st (take (Z.to_nat (index e1)) thr) + 1 <= late st (take (S (Z.to_nat (index e1))) thr)).
  { rewrite (take_S_r _ _ l) by done. rewrite late_app. unfold late at 3. simpl. rewrite Hl. simpl. lia. }
  assert (Htake : forall n m (ls : list Label), (n <= m)%nat -> late st (take n ls) <= late st (take m ls)).
  { intros n m ls Hnm. replace (take n ls) with (take n (take m ls)) by (rewrite take_take; f_equal; lia).
    rewrite <- (take_drop n (take m ls)) at 2. rewrite late_app. pose proof (late_nonneg st (drop n (take m ls))). lia. }
  unfold rank. apply EventOps.L2R_spec in Hlt as [Hlt|[Et Hlt]].
  2:{ rewrite <- Et. fold thr.
      pose proof (Htake (S (Z.to_nat (index e1))) (Z.to_nat (index e2)) thr ltac:(lia)). lia. }
  - assert (Hthr : late st (concat (take (Z.to_nat (thread e1)) (events g))) + late st thr <=
                   late st (concat (take (Z.to_nat (thread e2)) (events g)))).
    { assert (events g !! Z.to_nat (thread e1) = Some thr) as Eg.
      { rewrite label_at_lookup in Ex by done. unfold thr, thread_labels.
        destruct (Z.ltb_spec (thread e1) 0); [lia|]. by destruct (events g !! _). }
      transitivity (late st (concat (take (S (Z.to_nat (thread e1))) (events g)))).
      - rewrite (take_S_r _ _ thr) by done. rewrite concat_app, late_app. simpl. rewrite app_nil_r. lia.
      - replace (take (S (Z.to_nat (thread e1))) (events g)) with
          (take (S (Z.to_nat (thread e1))) (take (Z.to_nat (thread e2)) (events g)))
          by (rewrite take_take; f_equal; lia).
        rewrite <- (take_drop (S (Z.to_nat (thread e1))) (take (Z.to_nat (thread e2)) (events g))) at 2.
        rewrite concat_app, late_app. pose proof (late_nonneg st (concat (drop (S (Z.to_nat (thread e1))) (take (Z.to_nat (thread e2)) (events g))))). lia. }
    apply lookup_lt_Some in El as Hlen.
    pose proof (Htake (S (Z.to_nat (index e1))) (length thr) thr Hlen) as Hall. rewrite firstn_all in Hall.
    pose proof (late_nonneg st (take (Z.to_nat (index e2)) (thread_labels g (thread e2)))). fold thr. lia.
Qed.

(** Property C30.  [compressStampsAfter] on stamped labels whose renumbering fits in
    32 bits: labels up to the stamp keep it; the later ones are numbered from
    the stamp on without gaps in the order of positions (thread by thread), so
    that distinct late labels get distinct stamps; nothing else of a label
    changes, and the next stamp is the first one not used. *)
Theorem compressStampsAfter_renumbers g st :
  (forall e l, label_at g e = Some l -> is_Some (stamp l)) ->
  0 <= st -> st + 1 + late st (labels g) < 2 ^ 32 ->
  exists g', compressStampsAfter g st = Ret g' /\ timestamp g' = st + 1 + late st (labels g) /\
    coherence g' = coherence g /\ recoveryTID g' = recoveryTID g /\
    (forall e, label_at g' e =
      (fun l => if is_late st l then EventLabel.setStamp (st + 1 + rank g st e) l else l) <$> label_at g e) /\
    (forall e1 e2 l, label_at g e1 = Some l -> is_late st l = true -> valid e2 ->
      EventOps.EventL2RCompare e1 e2 = true -> rank g st e1 < rank g st e2).
Proof.
  intros Hs Hst Hb. unfold labels in *. pose proof (late_nonneg st (concat (events g))).
  unfold compressStampsAfter. assert (Stamp.add st 1 = st + 1) as -> by (apply Stamp.add_small; lia).
  destruct (compress_threads_spec st (events g) (st + 1)) as (thrs' & -> & Hlen & Hat); [|lia..|].
  { apply Forall_lookup. intros t thr Ht. apply Forall_lookup. intros k l Hk.
    apply (Hs (mkEvent (Z.of_nat t) (Z.of_nat k))). rewrite label_at_lookup by (split; simpl; lia).
    simpl. by rewrite !Nat2Z.id, Ht. }
  cbn [mbind outcome_bind fst snd]. eexists. split; [done|]. split; [done|]. split; [done|]. split; [done|].
  split; [|intros; by eapply rank_before].
  intros e. destruct (decide (valid e)) as [Hv|Hv]; [|by rewrite !label_at_no_valid].
  rewrite !label_at_lookup by done. unfold rank, thread_labels. destruct Hv as [Hv1 Hv2].
  destruct (Z.ltb_spec (thread e) 0); [lia|]. simpl.
  destruct (events g !! Z.to_nat (thread e)) as [thr|] eqn:Et; simpl.
  - destruct (Hat _ _ Et) as (thr' & -> & Hl' & Hk). simpl.
    destruct (thr !! Z.to_nat (index e)) as [l|] eqn:El; simpl; [by apply Hk|].
    apply lookup_ge_None. apply lookup_ge_None in El. lia.
  - apply lookup_ge_None in Et. by rewrite (lookup_ge_None_2 thrs') by lia.
Qed.

Lemma compressStampsAfter_renumbers_witness :
  exists g', compressStampsAfter Rf.sample 2 = Ret g' /\ timestamp g' = 5 /\
    (forall e, label_at g' e =
      (fun l => if is_late 2 l then EventLabel.setStamp (2 + 1 + rank Rf.sample 2 e) l else l) <$> label_at Rf.sample e).
Proof.
  destruct (compressStampsAfter_renumbers Rf.sample 2) as (g' & E & Ht & _ & _ & Hat & _).
  - apply ps_stamped, po_stampedb_sound. vm_compute. reflexivity.
  - lia.
  - vm_compute. reflexivity.
  - exists g'. split; [done|]. split; [exact Ht|]. exact Hat.
Defined.

End Compress.
