(* ===== verification/GraphCutTo.v ===== *)
(** * Cutting a graph at a stamp (the properties of ExecutionGraph.cpp's
    [removeAfter] and [cutToStamp]). *)
From S2P Require Import Prelude Event SVal SAddr VSet Deps Views Labels LabelClasses Graph GraphBase GraphRf GraphCut.

(** ** What cutting does to one label *)
Module CutLabel.
Import ExecutionGraph Rf.

(** Labels that agree on what the reads-from edges of a graph are made of. *)
Definition edges (l : Label) : RfsT * list Event * list (Z * list Event) :=
  (ReadLabel.getRfs l, WriteLabel.readers l, InitLabel.initRfs l).
Definition same_edges (l l' : Label) : Prop := shape l' = shape l /\ stamp l' = stamp l /\ edges l' = edges l.

#[export] Instance same_edges_refl : Reflexive same_edges.
Proof. done. Qed.
#[export] Instance same_edges_trans : Transitive same_edges.
Proof. intros l1 l2 l3 (? & ? & ?) (? & ? & ?). split_and!; etransitivity; done. Qed.

Ltac edges_by_case := intros; match goal with l : Label |- _ => by LabelFacts.case_payload l end.
Lemma edges_setAlloc o l : same_edges l (MemAccessLabel.setAlloc o l).
Proof. edges_by_case. Qed.
Lemma edges_setParentJoin o l : same_edges l (ThreadFinishLabel.setParentJoin o l).
Proof. edges_by_case. Qed.
Lemma edges_free_setAlloc o l : same_edges l (FreeLabel.setAlloc o l).
Proof. edges_by_case. Qed.
Lemma edges_setFree o l : same_edges l (MallocLabel.setFree o l).
Proof. edges_by_case. Qed.
Lemma edges_removeAccess c l : same_edges l (MallocLabel.removeAccess c l).
Proof. edges_by_case. Qed.
Lemma edges_if (b : bool) l l' : same_edges l l' -> same_edges l (if b then l' else l).
Proof. by destruct b. Qed.
Lemma edges_unless (b : bool) l l' : same_edges l l' -> same_edges l (if b then l else l').
Proof. by destruct b. Qed.

Section cut.
Context {C : Type} `{VectorClock C}.

(** A label after the cut: the reads-from edges and readers the clock contains. *)
Record cut_of (c : C) (l l' : Label) : Prop := {
  co_shape : shape l' = shape l;
  co_stamp : stamp l' = stamp l;
  co_rfs : ReadLabel.getRfs l' = List.filter (fun p => vc_contains c p.1) (ReadLabel.getRfs l);
  co_readers : WriteLabel.readers l' = List.filter (vc_contains c) (WriteLabel.readers l);
  co_init : InitLabel.initRfs l' = InitLabel.initRfs l;
}.

Lemma cut_of_edges c l1 l2 l3 : cut_of c l1 l2 -> same_edges l2 l3 -> cut_of c l1 l3.
Proof. intros [] (? & ? & [= ? ? ?]). constructor; congruence. Qed.

Lemma filter_negb_negb (c : C) rs :
  filter (fun r => negb (vc_contains c r) = false) rs = List.filter (vc_contains c) rs.
Proof.
  induction rs as [|r rs IH]; [done|]. rewrite filter_cons, IH. simpl.
  by destruct (vc_contains c r).
Qed.

(** The first two steps: readers, then reads-from edges. *)
Lemma cut_readers c l :
  LabelFacts.label_ok l = true ->
  let l1 := if Isa.WriteLabel (kind l) then WriteLabel.removeReader (fun r => negb (vc_contains c r)) l else l in
  shape l1 = shape l /\ stamp l1 = stamp l /\ ReadLabel.getRfs l1 = ReadLabel.getRfs l /\
  WriteLabel.readers l1 = List.filter (vc_contains c) (WriteLabel.readers l) /\
  InitLabel.initRfs l1 = InitLabel.initRfs l.
Proof.
  intros Hok. destruct (Isa.WriteLabel (kind l)) eqn:Hk; simpl.
  - unfold WriteLabel.removeReader. rewrite readers_setReaders, filter_negb_negb by done.
    split_and!; try done; [apply keeps_setReaders|by LabelFacts.case_payload l|apply getRfs_setReaders|apply initRfs_setReaders].
  - by rewrite (readers_other l) by done.
Qed.

Lemma cut_rfs_spec c l :
  LabelFacts.label_ok l = true -> (length (ReadLabel.getRfs l) <= 1)%nat ->
  exists l', (if Isa.ReadLabel (kind l) then cut_rfs c (ReadLabel.getRfs l) l else Ret l) = Ret l' /\
    shape l' = shape l /\ stamp l' = stamp l /\
    ReadLabel.getRfs l' = List.filter (fun p => vc_contains c p.1) (ReadLabel.getRfs l) /\
    WriteLabel.readers l' = WriteLabel.readers l /\ InitLabel.initRfs l' = InitLabel.initRfs l.
Proof.
  intros Hok Hlen. destruct (Isa.ReadLabel (kind l)) eqn:Hk; [|exists l; by rewrite (getRfs_other l)].
  destruct (ReadLabel.getRfs l) as [|[w a] [|]] eqn:Er; simpl in *; [exists l; by rewrite Er| |lia].
  destruct (vc_contains c w) eqn:Hc; [exists l; by rewrite Er|].
  exists (ReadLabel.removeRf w l). split; [done|]. unfold ReadLabel.removeRf.
  rewrite getRfs_setRfs, Er by done. simpl. rewrite filter_cons, decide_False by (simpl; tauto).
  split_and!; [apply keeps_setRfs|by LabelFacts.case_payload l|done|apply readers_setRfs|apply initRfs_setRfs].
Qed.

Lemma cut_label_spec c l :
  LabelFacts.label_ok l = true -> (length (ReadLabel.getRfs l) <= 1)%nat ->
  exists l', cut_label c l = Ret l' /\ cut_of c l l'.
Proof.
  intros Hok Hlen. unfold cut_label.
  pose proof (cut_readers c l Hok) as (S1 & T1 & R1 & W1 & I1). cbv zeta in *.
  set (l1 := if Isa.WriteLabel _ then _ else l) in *.
  assert (Hok1 : LabelFacts.label_ok l1 = true) by (injection S1; congruence).
  destruct (cut_rfs_spec c l1 Hok1) as (l2 & -> & S2 & T2 & R2 & W2 & I2); [by rewrite R1|].
  cbn [mbind outcome_bind].
  assert (H0 : cut_of c l l2) by (constructor; congruence).
  set (l3 := if Isa.MemAccessLabel _ && _ then _ else l2).
  assert (H3 : cut_of c l l3) by (eapply cut_of_edges; [exact H0|apply edges_if, edges_setAlloc]).
  clearbody l3. set (l4 := if Isa.ThreadFinishLabel _ && _ then _ else l3).
  assert (H4 : cut_of c l l4) by (eapply cut_of_edges; [exact H3|apply edges_if, edges_setParentJoin]).
  clearbody l4. set (l5 := if Isa.FreeLabel _ && _ then _ else l4).
  assert (H5 : cut_of c l l5) by (eapply cut_of_edges; [exact H4|apply edges_if, edges_free_setAlloc]).
  clearbody l5. destruct (Isa.MallocLabel (kind l5)); [|by exists l5].
  eexists. split; [done|]. eapply cut_of_edges; [exact H5|].
  etransitivity; [|apply edges_removeAccess]. apply edges_unless, edges_setFree.
Qed.

End cut.
End CutLabel.

(** ** The two maps after [removeAfter] *)
Module Prune.
Import ExecutionGraph Lookup Rf.
Section prune.
Context {C : Type} `{VectorClock C}.

Definition in_keep (keep : list Z) (b : Z) : bool := negb (VSet.count Z.ltb keep b =? 0).
(** Kept buckets, each with what the clock contains. *)
Definition prune (c : C) (keep : list Z) (m : list (Z * list Event)) : list (Z * list Event) :=
  map (fun p => (p.1, List.filter (vc_contains c) p.2)) (List.filter (fun p => in_keep keep p.1) m).

Lemma prune_cons c keep b es m :
  prune c keep ((b, es) :: m) =
  if in_keep keep b then (b, List.filter (vc_contains c) es) :: prune c keep m else prune c keep m.
Proof. unfold prune. cbn [List.filter fst]. by destruct (in_keep keep b). Qed.

Lemma bucket_alter_middle f b m1 es m2 :
  b ∉ m1.*1 -> InitLabel.bucket_alter f b (m1 ++ (b, es) :: m2) = m1 ++ (b, f es) :: m2.
Proof.
  induction m1 as [|[a rs] m1 IH]; simpl; intros Hb; [by rewrite Z.eqb_refl|].
  destruct (Z.eqb_spec a b); [set_solver|]. rewrite IH by set_solver. done.
Qed.

(** Both maps in the same order of aligned keys: the loop stays in step. *)
Lemma removeAfter_loop_spec c keep todo : forall done rs1 rs2,
  rs2.*1 = todo.*1 -> (forall b, b ∈ todo.*1 -> getBucket b = b) -> NoDup (rs1.*1 ++ todo.*1) ->
  removeAfter_loop c keep todo done (rs1 ++ rs2) (length rs1) =
    Ret (done ++ prune c keep todo, rs1 ++ prune c keep rs2).
Proof.
  induction todo as [|[b ss] todo IH]; intros done rs1 rs2 Hk Hb Hnd.
  { destruct rs2; [|done]. cbn. by rewrite !app_nil_r. }
  destruct rs2 as [|[b' rs] rs2]; [done|]. simpl in Hk. injection Hk as -> Hk.
  cbn [removeAfter_loop]. rewrite length_app.
  assert ((length rs1 <? length rs1 + length ((b, rs) :: rs2))%nat = true) as -> by (apply Nat.ltb_lt; simpl; lia).
  rewrite (Hb b) by (simpl; set_solver). rewrite !prune_cons. unfold in_keep.
  destruct (VSet.count Z.ltb keep b =? 0) eqn:E; simpl.
  - assert (delete (length rs1) (rs1 ++ (b, rs) :: rs2) = rs1 ++ rs2) as -> by (by rewrite delete_middle).
    apply IH; [done|intros; apply Hb; by right|]. simpl in Hnd.
    eapply sublist_NoDup; [exact Hnd|]. apply sublist_app; [done|]. by apply sublist_cons.
  - rewrite bucket_alter_middle.
    2:{ apply NoDup_app in Hnd as (_ & Hn & _). intros Hin. apply (Hn b Hin). left. }
    pose proof (IH (done ++ [(b, List.filter (vc_contains c) ss)]) (rs1 ++ [(b, List.filter (vc_contains c) rs)]) rs2 Hk)
      as IH'. rewrite length_app in IH'. simpl in IH'. rewrite Nat.add_1_r, <- !app_assoc in IH'. simpl in IH'.
    apply IH'; [intros; apply Hb; by right|].
    rewrite fmap_app. simpl. rewrite <- app_assoc. done.
Qed.

(** Looking up a bucket of a pruned map. *)
Lemma prune_get c keep m b :
  NoDup m.*1 ->
  InitLabel.bucket_get (prune c keep m) b =
  if in_keep keep b then List.filter (vc_contains c) <$> InitLabel.bucket_get m b else None.
Proof.
  induction m as [|[a es] m IH]; simpl; intros Hnd; [by destruct (in_keep keep b)|].
  apply NoDup_cons in Hnd as [Ha Hnd]. rewrite prune_cons.
  destruct (in_keep keep a) eqn:Ek; simpl.
  - destruct (Z.eqb_spec a b) as [->|]; [by rewrite Ek|by apply IH].
  - rewrite IH by done. destruct (Z.eqb_spec a b) as [->|]; [by rewrite Ek|done].
Qed.

Lemma prune_keys c keep m : (prune c keep m).*1 = List.filter (in_keep keep) m.*1.
Proof.
  induction m as [|[a es] m IH]; [done|]. rewrite prune_cons, fmap_cons. cbn [List.filter fst].
  destruct (in_keep keep a); rewrite ?fmap_cons; by rewrite IH.
Qed.

(** *** The locations that stay *)

(** The positions of the view are in the graph. *)
Definition covered (g : Graph) (c : C) : Prop :=
  vc_size c <= getNumThreads g /\
  forall i, 0 <= i < getNumThreads g -> 0 <= vc_getMax c i < getThreadSize g i.

Lemma visited_iff (c : C) e :
  e ∈ visited c 0 <-> 0 <= thread e < vc_size c /\ 0 <= index e <= vc_getMax c (thread e).
Proof.
  unfold visited. rewrite list_elem_of_In, in_concat. setoid_rewrite in_map_iff. split.
  - intros (l & (i & <- & Hi) & He). apply list_elem_of_In, elem_of_seqZ in Hi.
    apply in_map_iff in He as (j & <- & Hj). apply list_elem_of_In, elem_of_seqZ in Hj. simpl. lia.
  - intros [Ht Hi]. eexists. split.
    + exists (thread e). split; [done|]. apply list_elem_of_In, elem_of_seqZ. lia.
    + apply in_map_iff. exists (index e). split; [by destruct e|]. apply list_elem_of_In, elem_of_seqZ. lia.
Qed.

Lemma visited_NoDup (c : C) : NoDup (visited c 0).
Proof.
  unfold visited. generalize (seqZ 0 (vc_size c)) (NoDup_seqZ 0 (vc_size c)). intros ts.
  induction ts as [|i ts IH]; simpl; intros Hnd; [constructor|]. apply NoDup_cons in Hnd as [Hi Hnd].
  apply NoDup_app. split; [|split; [|by apply IH]].
  - apply (NoDup_fmap_2_strong (mkEvent i)); [by intros ???? [= ->]|apply NoDup_seqZ].
  - intros e He He'. apply list_elem_of_In, in_map_iff in He as (j & <- & _).
    apply list_elem_of_In, in_concat in He' as (l & Hl & He').
    apply in_map_iff in Hl as (i' & <- & Hi'). apply in_map_iff in He' as (j' & [= -> _] & _).
    by apply Hi, list_elem_of_In.
Qed.

Lemma visited_label g (c : C) e :
  covered g c -> e ∈ visited c 0 -> is_Some (label_at g e).
Proof.
  intros [Hsz Hm] He%visited_iff. apply label_at_some_iff. unfold containsPos.
  assert (0 <= vc_getMax c (thread e) < getThreadSize g (thread e)) by (apply Hm; lia).
  rewrite !andb_true_iff, !Z.geb_leb, !Z.leb_le, !Z.ltb_lt. lia.
Qed.

Lemma keep_spec g es : forall keep0,
  VSet.sorted Z.ltb keep0 -> (forall e, e ∈ es -> is_Some (label_at g e)) ->
  exists keep, mfold (keep_step g) es keep0 = Ret keep /\ VSet.sorted Z.ltb keep /\
    forall b, b ∈ keep <-> b ∈ keep0 \/
      exists e l, e ∈ es /\ label_at g e = Some l /\ Isa.MemAccessLabel (kind l) = true /\
        b = getBucket (MemAccessLabel.getAddr l).
Proof.
  induction es as [|e es IH]; intros keep0 Hs Hes; cbn [mfold].
  { exists keep0. split; [done|]. split; [done|]. set_solver. }
  destruct (Hes e) as [l El]; [left|].
  set (k1 := if Isa.MemAccessLabel (kind l)
             then VSet.insert1 Z.ltb keep0 (getBucket (MemAccessLabel.getAddr l)) else keep0).
  assert (keep_step g keep0 e = Ret k1) as -> by (unfold keep_step, getEventLabel; by rewrite El).
  cbn [mbind outcome_bind].
  assert (Hs1 : VSet.sorted Z.ltb k1) by (unfold k1; destruct (Isa.MemAccessLabel _); [apply VSet.insert1_sorted; [apply _|exact Hs]|exact Hs]).
  destruct (IH k1 Hs1) as (keep & -> & Hk & Hin); [intros; apply Hes; by right|].
  exists keep. split; [done|]. split; [done|]. intros b. rewrite Hin.
  assert (b ∈ k1 <-> b ∈ keep0 \/ Isa.MemAccessLabel (kind l) = true /\ b = getBucket (MemAccessLabel.getAddr l)) as ->.
  { unfold k1. destruct (Isa.MemAccessLabel (kind l)); [|naive_solver].
    rewrite VSet.insert1_elem by first [done | apply _]. naive_solver. }
  setoid_rewrite elem_of_cons. split.
  - intros [[?|[Hm ->]]|(e' & l' & He & H')]; [by left| |]; right; [exists e, l|exists e', l']; tauto.
  - intros [?|(e' & l' & [->|He] & El' & Hm & ->)]; [tauto| |].
    + rewrite El in El'. injection El' as ->. tauto.
    + right. exists e', l'. tauto.
Qed.

Lemma in_keep_spec keep b : VSet.sorted Z.ltb keep -> in_keep keep b = true <-> b ∈ keep.
Proof.
  intros Hs. unfold in_keep. rewrite VSet.count_spec by first [done | apply _]. by case_decide.
Qed.

End prune.
End Prune.

(** ** The whole cut *)
Module Cut.
Import ExecutionGraph Lookup Rf StampView CutLabel Prune.

Definition stores_at (g : Graph) (b : Z) : list Event := default [] (InitLabel.bucket_get (coherence g) b).

(** What a cut relies on: consistent reads-from edges, one per read, stamps
    along threads, a begin label in every thread, and both maps over the same
    aligned locations in the same order, the stores at their own location. *)
Record cuttable (g : Graph) : Prop := {
  ct_consistent : consistent g;
  ct_stamped : po_stamped g;
  ct_threads i : 0 <= i < getNumThreads g -> 0 < getThreadSize g i;
  ct_begin i l : label_at g (mkEvent i 0) = Some l -> Isa.MemAccessLabel (kind l) = false;
  ct_single r : (length (rfs_of g r) <= 1)%nat;
  ct_maps : (initRfs g).*1 = (coherence g).*1;
  ct_keys : NoDup (coherence g).*1;
  ct_aligned b : b ∈ (coherence g).*1 -> getBucket b = b;
  ct_stores b w : w ∈ stores_at g b -> is_write g w /\ b = bucket_of g w;
}.

Lemma cut_all {C} `{VectorClock C} (c : C) es : forall g,
  NoDup es ->
  (forall e, e ∈ es -> exists l, label_at g e = Some l /\ LabelFacts.label_ok l = true /\
    (length (ReadLabel.getRfs l) <= 1)%nat) ->
  exists g', mfold (cut_step c) es g = Ret g' /\ same_frame g g' /\
    (forall e, e ∈ es -> exists l l', label_at g e = Some l /\ label_at g' e = Some l' /\ cut_of c l l') /\
    (forall e, e ∉ es -> label_at g' e = label_at g e).
Proof.
  induction es as [|e es IH]; intros g Hnd Hes; cbn [mfold].
  { exists g. split; [done|]. split; [reflexivity|]. split; [set_solver|done]. }
  apply NoDup_cons in Hnd as [Hn Hnd]. destruct (Hes e) as (l & El & Hok & Hlen); [left|].
  destruct (cut_label_spec c l Hok Hlen) as (l' & Ec & Hc).
  pose proof (label_at_valid _ _ _ El) as Hv. set (g1 := alter_label (fun _ => l') e g).
  assert (cut_step c g e = Ret g1) as -> by (unfold cut_step, getEventLabel; rewrite El; simpl; by rewrite Ec).
  cbn [mbind outcome_bind].
  assert (Hat : forall x, label_at g1 x = if decide (x = e) then Some l' else label_at g x).
  { intros x. unfold g1. rewrite label_at_alter by done. case_decide; [subst; by rewrite El|done]. }
  destruct (IH g1 Hnd) as (g' & -> & Hf & Hin & Hout).
  { intros x Hx. rewrite Hat. rewrite decide_False by (by intros ->). apply Hes. by right. }
  exists g'. split; [done|]. split; [etransitivity; [apply alter_frame|done]|]. split.
  - intros x [->|Hx]%elem_of_cons.
    + exists l, l'. rewrite Hout, Hat, decide_True by done. done.
    + destruct (Hin x Hx) as (l1 & l2 & H1 & H2 & H3). rewrite Hat, decide_False in H1 by (by intros ->). eauto.
  - intros x Hx. rewrite elem_of_cons in Hx. rewrite Hout, Hat, decide_False by tauto. done.
Qed.

Lemma restrict_spec (v : View.t) thrs : forall i,
  (forall k thr, thrs !! k = Some thr -> View.getMax v (i + Z.of_nat k) + 1 <= Z.of_nat (length thr)) ->
  exists thrs', restrict_threads v i thrs = Ret thrs' /\ length thrs' = length thrs /\
    forall k, thrs' !! k = take (Z.to_nat (View.getMax v (i + Z.of_nat k) + 1)) <$> thrs !! k.
Proof.
  induction thrs as [|thr thrs IH]; intros i Hlen; cbn [restrict_threads]; [by exists []|].
  pose proof (Hlen 0%nat thr eq_refl) as H0. rewrite Z.add_0_r in H0.
  change (vc_getMax v i) with (View.getMax v i).
  destruct (Z.leb_spec (View.getMax v i + 1) (Z.of_nat (length thr))); [|lia].
  destruct (IH (i + 1)) as (thrs' & -> & Hl & Hat).
  { intros k u Hu. replace (i + 1 + Z.of_nat k) with (i + Z.of_nat (S k)) by lia. by apply Hlen. }
  cbn [mbind outcome_bind]. eexists. split; [done|]. split; [simpl; by rewrite Hl|].
  intros [|k]; [by rewrite Z.add_0_r|]. simpl lookup. rewrite Hat.
  by replace (i + 1 + Z.of_nat k) with (i + Z.of_nat (S k)) by lia.
Qed.

(** The labels left by the last loop. *)
Lemma restrict_labels (v : View.t) g thrs' :
  (forall i, 0 <= i < getNumThreads g -> 0 <= View.getMax v i < getThreadSize g i) ->
  length thrs' = length (events g) ->
  (forall k, thrs' !! k = take (Z.to_nat (View.getMax v (0 + Z.of_nat k) + 1)) <$> events g !! k) ->
  forall e, label_at (set_events thrs' g) e = if View.contains v e then label_at g e else None.
Proof.
  intros Hm Hl Hat e. destruct (decide (valid e)) as [Hv|Hv];
    [|rewrite !label_at_no_valid by done; by case_match].
  rewrite !label_at_lookup by done. unfold set_events. simpl. rewrite Hat. destruct Hv as [Ht Hi].
  destruct (events g !! Z.to_nat (thread e)) as [thr|] eqn:Et; simpl; [|by case_match].
  rewrite Z2Nat.id, Z.add_0_l by lia. unfold View.contains.
  apply lookup_lt_Some in Et as Hlt.
  destruct (Hm (thread e)) as [H0 _]; [unfold getNumThreads; lia|].
  destruct (Z.leb_spec (index e) (View.getMax v (thread e))).
  - apply lookup_take_lt. lia.
  - apply lookup_take_ge. lia.
Qed.

Section cut.
Context (g : Graph) (st : Z) (Hct : cuttable g).

Lemma initRfs_nodup : NoDup (initRfs g).*1.
Proof. rewrite (ct_maps _ Hct). apply (ct_keys _ Hct). Qed.

(** A mapped bucket whose location goes holds nothing the clock contains. *)
Lemma default_filter (keep : list Z) (v : View.t) (m : list (Z * list Event)) b :
  NoDup m.*1 ->
  (in_keep keep b = false -> forall e, e ∈ default [] (InitLabel.bucket_get m b) -> vc_contains v e = false) ->
  default [] (InitLabel.bucket_get (prune v keep m) b) =
  List.filter (vc_contains v) (default [] (InitLabel.bucket_get m b)).
Proof.
  intros Hnd Hk. rewrite prune_get by done. destruct (in_keep keep b) eqn:E.
  - by destruct (InitLabel.bucket_get m b).
  - cbn [default]. symmetry. specialize (Hk eq_refl). revert Hk. generalize (default [] (InitLabel.bucket_get m b)).
    induction l as [|e l IH]; intros Hk; [done|]. cbn [List.filter]. rewrite (Hk e) by left. apply IH. intros; apply Hk. by right.
Qed.

(** A label of the graph that is an access and that the view contains is visited. *)
Lemma access_visited (v : View.t) e l :
  covered g v -> label_at g e = Some l -> Isa.MemAccessLabel (kind l) = true ->
  View.contains v e = true -> e ∈ visited v 0.
Proof.
  intros Hcov El Hm Hc. pose proof (label_at_valid _ _ _ El) as [Ht Hi].
  apply View.view_contains_spec in Hc. apply visited_iff. change (vc_size v) with (View.size v).
  change (vc_getMax v (thread e)) with (View.getMax v (thread e)).
  destruct (decide (thread e < View.size v)); [lia|].
  rewrite View.getMax_ge in Hc by lia. destruct e as [t i]; simpl in *.
  assert (i = 0) as -> by lia. by rewrite (ct_begin _ Hct t l El) in Hm.
Qed.

Lemma source_access w : is_write g w -> exists l, label_at g w = Some l /\ Isa.MemAccessLabel (kind l) = true.
Proof.
  intros (l & El & Hk)%is_write_label. exists l. split; [done|].
  apply (LabelFacts.classes_disjoint (kind l)). by right.
Qed.

Lemma rfs_access r : rfs_of g r <> [] -> exists l, label_at g r = Some l /\ Isa.MemAccessLabel (kind l) = true.
Proof.
  unfold rfs_of. destruct (label_at g r) as [l|] eqn:El; [|done]. simpl. intros Hr. exists l. split; [done|].
  apply (LabelFacts.classes_disjoint (kind l)). left.
  destruct (Isa.ReadLabel (kind l)) eqn:Hk; [done|]. destruct Hr.
  apply getRfs_other; [|done]. by apply (lb_ok _ (c_labelled _ (ct_consistent _ Hct)) r).
Qed.

(** [removeAfter]: labels stay, the initializer's map and coherence are pruned. *)
Lemma removeAfter_spec (v : View.t) :
  covered g v ->
  exists g1, removeAfter g v = Ret g1 /\ map length (events g1) = map length (events g) /\
    timestamp g1 = timestamp g /\ recoveryTID g1 = recoveryTID g /\
    (forall e, e <> init_pos -> label_at g1 e = label_at g e) /\
    (forall e, shape <$> label_at g1 e = shape <$> label_at g e) /\
    (forall e, stamp_of g1 e = stamp_of g e) /\
    (forall e, rfs_of g1 e = rfs_of g e) /\ (forall e, readers_of g1 e = readers_of g e) /\
    (forall b, init_readers g1 b = List.filter (View.contains v) (init_readers g b)) /\
    (forall b, stores_at g1 b = List.filter (View.contains v) (stores_at g b)).
Proof.
  intros Hcov. pose proof (ct_consistent _ Hct) as Hc. pose proof (c_labelled _ Hc) as Hl.
  destruct (keep_spec g (visited v 0) []) as (keep & Ek & Hs & Hin);
    [apply VSet.sorted_nil|intros e He; by apply (visited_label g v)|].
  set (rfs' := prune v keep (initRfs g)). set (co' := prune v keep (coherence g)).
  set (g0 := set_coherence co' g).
  set (g1 := alter_label (InitLabel.map_initRfs (fun _ => rfs')) init_pos g0).
  assert (Hloc : forall b e l, in_keep keep b = false -> label_at g e = Some l ->
    Isa.MemAccessLabel (kind l) = true -> b = getBucket (MemAccessLabel.getAddr l) -> vc_contains v e = false).
  { intros b e l Hb El Hm ->. destruct (vc_contains v e) eqn:E; [|done]. exfalso.
    assert (in_keep keep (getBucket (MemAccessLabel.getAddr l)) = true); [|congruence].
    apply in_keep_spec; [done|]. apply Hin. right. exists e, l. split; [by apply (access_visited v e l)|done]. }
  assert (Hg1 : removeAfter g v = Ret g1).
  { unfold removeAfter. rewrite Ek. cbn [mbind outcome_bind].
    pose proof (removeAfter_loop_spec v keep (coherence g) [] [] (initRfs g) (ct_maps _ Hct) (ct_aligned _ Hct) (ct_keys _ Hct)) as E.
    cbn [app length] in E. by rewrite E. }
  assert (Hsh : same_shape g0 g1) by (apply alter_shape; [apply valid_init|apply keeps_initRfs]).
  pose proof valid_init as Hvi. exists g1. split_and!; try done.
  - apply (alter_thread_sizes _ init_pos g0).
  - intros e He. unfold g1. by rewrite label_at_alter, decide_False.
  - intros e. unfold stamp_of, g1. rewrite label_at_alter by done. case_decide; [|done].
    change (label_at g0 e) with (label_at g e). destruct (label_at g e) as [l|]; [|done].
    by LabelFacts.case_payload l.
  - intros e. by apply (proj_alter ReadLabel.getRfs [] _ _ g0); [|intros; apply getRfs_initRfs].
  - intros e. by apply (proj_alter WriteLabel.readers [] _ _ g0); [|intros; apply readers_initRfs].
  - intros b. assert (initRfs g1 = rfs') as E.
    { destruct (init_payload g Hl) as (l & m & El & Em). unfold initRfs, g1.
      rewrite label_at_alter, decide_True by done. change (label_at g0 init_pos) with (label_at g init_pos).
      rewrite El. simpl. unfold InitLabel.initRfs, InitLabel.map_initRfs. by rewrite Em. }
    unfold init_readers at 1. rewrite E. apply default_filter; [apply initRfs_nodup|].
    intros Hb r Hr. destruct (c_init _ Hc r b Hr) as [Hi Eb].
    destruct (rfs_access r) as (l & El & Hm); [intros E'; rewrite E' in Hi; by apply elem_of_nil in Hi|].
    apply (Hloc b r l); try done. rewrite Eb. unfold bucket_of, access_of. by rewrite El.
  - intros b. unfold stores_at at 1. change (coherence g1) with co'. apply default_filter; [apply (ct_keys _ Hct)|].
    intros Hb w Hw. destruct (ct_stores _ Hct b w Hw) as [Hww Eb].
    destruct (source_access w Hww) as (l & El & Hm).
    apply (Hloc b w l); try done. rewrite Eb. unfold bucket_of, access_of. by rewrite El.
Qed.

(** The labels of [g2], as [cutToStamp] leaves them before threads are cut short. *)
Definition cut_labels (v : View.t) (g2 : Graph) : Prop :=
  forall e, View.contains v e = true ->
    shape <$> label_at g2 e = shape <$> label_at g e /\ stamp_of g2 e = stamp_of g e /\
    rfs_of g2 e = List.filter (fun p => View.contains v p.1) (rfs_of g e) /\
    readers_of g2 e = List.filter (View.contains v) (readers_of g e).

Lemma begin_no_edges v e :
  covered g v -> e ∉ visited v 0 -> View.contains v e = true -> rfs_of g e = [] /\ readers_of g e = [].
Proof.
  intros Hcov Hn Hc. destruct (label_at g e) as [l|] eqn:El.
  2:{ unfold rfs_of, readers_of. by rewrite El. }
  assert (Hm : Isa.MemAccessLabel (kind l) = false).
  { destruct (Isa.MemAccessLabel (kind l)) eqn:Hm; [|done]. destruct Hn. by apply (access_visited v e l). }
  destruct (lb_ok _ (c_labelled _ (ct_consistent _ Hct)) e l El) as [_ Hok].
  destruct (LabelFacts.classes_disjoint (kind l)) as (_ & _ & Hd). unfold Isa.MemAccessLabel in Hm.
  unfold rfs_of, readers_of. rewrite El. simpl. split; [apply getRfs_other|apply readers_other]; try done;
    [destruct (Isa.ReadLabel (kind l)) eqn:E|destruct (Isa.WriteLabel (kind l)) eqn:E]; try done;
    rewrite Hd in Hm; try done; [by left|by right].
Qed.

Lemma cut_loop_spec (v : View.t) g1 :
  covered g v ->
  map length (events g1) = map length (events g) ->
  (forall e, shape <$> label_at g1 e = shape <$> label_at g e) ->
  (forall e, stamp_of g1 e = stamp_of g e) -> (forall e, rfs_of g1 e = rfs_of g e) ->
  (forall e, readers_of g1 e = readers_of g e) ->
  exists g2, mfold (cut_step v) (visited v 0) g1 = Ret g2 /\ same_frame g1 g2 /\ cut_labels v g2 /\
    initRfs g2 = initRfs g1.
Proof.
  intros Hcov Hsz Hsh Hst Hrf Hrd. pose proof (c_labelled _ (ct_consistent _ Hct)) as Hl.
  destruct (cut_all v (visited v 0) g1 (visited_NoDup v)) as (g2 & E & Hf & Hin & Hout).
  { intros e He. destruct (visited_label g v e Hcov He) as [l El].
    destruct (shape_some g g1) with (e := e) (l' := default l (label_at g1 e)) as (l0 & El0 & Hs0); [done| |].
    - pose proof (Hsh e) as H'. rewrite El in H'. by destruct (label_at g1 e).
    - pose proof (Hsh e) as H'. rewrite El in H'. destruct (label_at g1 e) as [l1|] eqn:E1; [|done].
      simpl in Hs0. exists l1. split; [done|]. injection Hs0 as _ _ _ Hok.
      split; [rewrite Hok; by apply (lb_ok _ Hl e)|].
      pose proof (ct_single _ Hct e) as Hs. rewrite <- Hrf in Hs. unfold rfs_of in Hs. by rewrite E1 in Hs. }
  exists g2. split; [exact E|]. split; [exact Hf|]. split.
  - intros e Hc. destruct (decide (e ∈ visited v 0)) as [Hv|Hv].
    + destruct (Hin e Hv) as (l1 & l2 & E1 & E2 & [C1 C2 C3 C4 C5]).
      unfold stamp_of, rfs_of, readers_of. rewrite <- Hsh. specialize (Hst e); specialize (Hrf e); specialize (Hrd e).
      unfold stamp_of, rfs_of, readers_of in Hst, Hrf, Hrd. rewrite E1 in *. rewrite E2. simpl in *.
      rewrite <- Hst, <- Hrf, <- Hrd. split_and!; congruence.
    + destruct (begin_no_edges v e Hcov Hv Hc) as [R0 W0].
      unfold stamp_of, rfs_of, readers_of. rewrite Hout by done. fold (stamp_of g1 e) (rfs_of g1 e) (readers_of g1 e).
      fold (stamp_of g e) (rfs_of g e) (readers_of g e). rewrite Hrf, Hrd, R0, W0. by split_and!.
  - unfold initRfs. destruct (decide (init_pos ∈ visited v 0)) as [Hv|Hv]; [|by rewrite Hout].
    destruct (Hin _ Hv) as (l1 & l2 & E1 & E2 & Hc). rewrite E1, E2. simpl. apply Hc.
Qed.

(** The graph after the cut, position by position. *)
Record cut_graph (v : View.t) (g' : Graph) : Prop := {
  cg_gone e : View.contains v e = false -> label_at g' e = None;
  cg_labels : cut_labels v g';
  cg_init b : init_readers g' b = List.filter (View.contains v) (init_readers g b);
  cg_stores b : stores_at g' b = List.filter (View.contains v) (stores_at g b);
  cg_timestamp : timestamp g' = timestamp g;
}.

Lemma cutToStamp_graph v :
  getViewFromStamp g st = Ret v -> View.size v <= getNumThreads g ->
  (forall i, 0 <= i < getNumThreads g -> 0 <= View.getMax v i < getThreadSize g i) ->
  exists g', cutToStamp g st = Ret g' /\ cut_graph v g'.
Proof.
  intros Ev Hsz Hm. assert (Hcov : covered g v) by (by split).
  destruct (removeAfter_spec v Hcov) as (g1 & E1 & S1 & T1 & _ & _ & Hsh & Hst & Hrf & Hrd & Hi1 & Hs1).
  destruct (cut_loop_spec v g1 Hcov S1 Hsh Hst Hrf Hrd) as (g2 & E2 & [F1 F2 F3 F4] & Hlab & Hi2).
  assert (Hsizes : map length (events g2) = map length (events g)) by congruence.
  destruct (restrict_spec v (events g2) 0) as (thrs' & E3 & Hlen & Hat).
  { intros k thr Hk. destruct (Hm (0 + Z.of_nat k)) as [_ H].
    - apply lookup_lt_Some in Hk. unfold getNumThreads. rewrite <- (length_map length), <- Hsizes, length_map. lia.
    - unfold getThreadSize, thread_labels in H. destruct (Z.ltb_spec (0 + Z.of_nat k) 0); [lia|].
      replace (Z.to_nat (0 + Z.of_nat k)) with k in H by lia.
      pose proof (f_equal (.!! k) Hsizes) as Ek. simpl in Ek. rewrite !list_lookup_fmap, Hk in Ek.
      destruct (events g !! k); simpl in *; [|done]. injection Ek as ->. lia. }
  exists (set_events thrs' g2). split.
  { unfold cutToStamp. rewrite Ev. cbn [mbind outcome_bind]. rewrite E1. cbn [mbind outcome_bind].
    rewrite E2. cbn [mbind outcome_bind]. by rewrite E3. }
  assert (Hm2 : forall i, 0 <= i < getNumThreads g2 -> 0 <= View.getMax v i < getThreadSize g2 i).
  { intros i Hi. rewrite (sizes_threads g g2) in Hi by done. rewrite (sizes_size g g2) by done. by apply Hm. }
  pose proof (restrict_labels v g2 thrs' Hm2 Hlen Hat) as Hfin.
  constructor.
  - intros e Hc. by rewrite Hfin, Hc.
  - intros e Hc. unfold stamp_of, rfs_of, readers_of. rewrite Hfin, Hc. by apply Hlab.
  - intros b. unfold init_readers, initRfs. rewrite Hfin.
    assert (View.contains v init_pos = true) as -> by (apply View.view_contains_spec; simpl; unfold View.getMax;
      pose proof (Hm 0); unfold View.getMax in *; case_match; lia || (destruct (decide (0 < getNumThreads g)); lia)).
    fold (initRfs g2). rewrite Hi2. apply Hi1.
  - intros b. unfold stores_at. simpl. rewrite F3. apply Hs1.
  - simpl. congruence.
Qed.

(** The restricted graph is consistent. *)
Lemma elem_filter (P : Event -> bool) e l : e ∈ List.filter P l <-> P e = true /\ e ∈ l.
Proof. rewrite !list_elem_of_In, List.filter_In. tauto. Qed.

Lemma cut_graph_consistent v g' :
  cut_graph v g' -> View.contains v init_pos = true -> consistent g'.
Proof.
  intros [Hgone Hlab Hinit _ _] Hi. destruct (ct_consistent _ Hct) as [Hl Hrf Hrd Hin Hnd Hni].
  assert (Hshape : forall e l', label_at g' e = Some l' ->
    View.contains v e = true /\ exists l, label_at g e = Some l /\ shape l' = shape l).
  { intros e l' E. destruct (View.contains v e) eqn:Hc; [|by rewrite (Hgone e Hc) in E].
    split; [done|]. destruct (Hlab e Hc) as (Hs & _). rewrite E in Hs.
    destruct (label_at g e) as [l|]; [|done]. exists l. split; [done|]. simpl in Hs. congruence. }
  assert (Hrfs : forall e, rfs_of g' e = if View.contains v e
      then List.filter (fun p => View.contains v p.1) (rfs_of g e) else []).
  { intros e. destruct (View.contains v e) eqn:Hc; [by apply Hlab|]. unfold rfs_of. by rewrite Hgone. }
  assert (Hreaders : forall e, readers_of g' e = if View.contains v e
      then List.filter (View.contains v) (readers_of g e) else []).
  { intros e. destruct (View.contains v e) eqn:Hc; [by apply Hlab|]. unfold readers_of. by rewrite Hgone. }
  assert (Hkeep : forall e, View.contains v e = true -> shape <$> label_at g' e = shape <$> label_at g e)
    by (intros e Hc; by apply Hlab).
  assert (Hwr : forall w, View.contains v w = true -> is_write g w -> is_write g' w).
  { intros w Hc. unfold is_write, label_sat. specialize (Hkeep w Hc).
    destruct (label_at g' w), (label_at g w); simpl in *; try done. injection Hkeep as -> _ _ _. done. }
  assert (Hb : forall r, View.contains v r = true -> bucket_of g' r = bucket_of g r).
  { intros r Hc. unfold bucket_of, access_of. specialize (Hkeep r Hc).
    destruct (label_at g' r), (label_at g r); simpl in *; try done. by injection Hkeep as _ _ -> _. }
  constructor.
  - split.
    + intros e l' E. destruct (Hshape e l' E) as (_ & l & El & [= _ Hp _ Hok]).
      apply (lb_ok _ Hl) in El. by rewrite Hp, Hok.
    + destruct (lb_init _ Hl) as (il & Ei & Hki). specialize (Hkeep _ Hi). rewrite Ei in Hkeep.
      destruct (label_at g' init_pos) as [l'|]; [|done]. exists l'. split; [done|].
      simpl in Hkeep. injection Hkeep as -> _ _ _. done.
  - intros r w a. rewrite Hrfs. destruct (View.contains v r) eqn:Hr; [|by intros ?%elem_of_nil].
    rewrite list_elem_of_In, List.filter_In, <- list_elem_of_In. intros [Ha Hw]. simpl in Hw.
    destruct (Hrf r w a Ha) as [[Hww Hrr]|[-> Hrr]]; [left|right].
    + split; [by apply Hwr|]. rewrite Hreaders, Hw. by apply elem_filter.
    + split; [done|]. rewrite Hinit, Hb by done. by apply elem_filter.
  - intros r w. rewrite Hreaders. destruct (View.contains v w) eqn:Hw; [|by intros ?%elem_of_nil].
    intros [Hr Hrr]%elem_filter. rewrite Hrfs, Hr. apply Hrd in Hrr.
    apply list_elem_of_fmap in Hrr as (p & -> & Hp). apply list_elem_of_fmap. exists p. split; [done|].
    rewrite list_elem_of_In, List.filter_In, <- list_elem_of_In. done.
  - intros r b. rewrite Hinit. intros [Hr Hrr]%elem_filter. destruct (Hin r b Hrr) as [Hii ->].
    split; [|by rewrite Hb]. rewrite Hrfs, Hr.
    apply list_elem_of_fmap in Hii as (p & Ep & Hp). apply list_elem_of_fmap. exists p. split; [done|].
    rewrite list_elem_of_In, List.filter_In, <- list_elem_of_In. split; [done|]. by rewrite <- Ep.
  - intros w. rewrite Hreaders. destruct (View.contains v w); [|constructor].
    by apply NoDup_ListNoDup, List.NoDup_filter, NoDup_ListNoDup.
  - intros b. rewrite Hinit. by apply NoDup_ListNoDup, List.NoDup_filter, NoDup_ListNoDup.
Qed.

End cut.

(** Property C2.  [cutToStamp] on a graph with consistent reads-from edges, one
    per read, whose stamps do not decrease along threads and whose two maps
    hold the same locations in the same order: it returns a graph with exactly
    the begin labels and the labels whose stamp is at most the given one, each
    with its kind, access and stamp; reads-from edges and reader lists are
    again inverse to each other, and every location keeps its remaining
    stores in coherence order. *)
Theorem cutToStamp_restricts g st :
  cuttable g ->
  exists g', cutToStamp g st = Ret g' /\ consistent g' /\
    (forall e, is_Some (label_at g' e) <-> exists s, stamp_of g e = Some s /\ (index e = 0 \/ s <= st)) /\
    (forall e, is_Some (label_at g' e) ->
      shape <$> label_at g' e = shape <$> label_at g e /\ stamp_of g' e = stamp_of g e) /\
    (forall b, stores_at g' b = List.filter (containsPos g') (stores_at g b)) /\
    timestamp g' = timestamp g.
Proof.
  intros Hct. destruct (getViewFromStamp_spec g st (ct_stamped _ Hct)) as (v & Ev & Hsz & Hm & Hv).
  destruct (cutToStamp_graph g st Hct v Ev Hsz) as (g' & E & Hcg).
  { intros i Hi. apply Hm; [done|]. by apply (ct_threads _ Hct). }
  pose proof Hcg as [Hgone Hlab _ Hst Ht]. exists g'. split; [done|].
  assert (Hiff : forall e, is_Some (label_at g' e) <-> exists s, stamp_of g e = Some s /\ (index e = 0 \/ s <= st)).
  { intros e. split.
    - intros [l' El]. destruct (View.contains v e) eqn:Hc; [|by rewrite Hgone in El].
      destruct (Hlab e Hc) as (Hs & _). rewrite El in Hs. destruct (label_at g e) as [l|] eqn:Eg; [|done].
      destruct (ps_stamped _ (ct_stamped _ Hct) e l Eg) as [s Es]. exists s.
      assert (stamp_of g e = Some s) as Es' by (unfold stamp_of; by rewrite Eg). split; [done|]. by apply (Hv e s).
    - intros (s & Es & Hs). apply (Hv e s Es) in Hs. destruct (Hlab e Hs) as (Hsh & _).
      unfold stamp_of in Es. destruct (label_at g e); [|done]. destruct (label_at g' e); [by eexists|done]. }
  assert (Hin : forall e, is_Some (label_at g' e) -> View.contains v e = true).
  { intros e [l' El]. destruct (View.contains v e) eqn:Hc; [done|]. by rewrite Hgone in El. }
  split; [|split; [done|split; [|split; [|done]]]].
  - apply (cut_graph_consistent g Hct v g' Hcg). apply Hin, Hiff.
    destruct (lb_init _ (c_labelled _ (ct_consistent _ Hct))) as (il & Ei & _).
    destruct (ps_stamped _ (ct_stamped _ Hct) _ _ Ei) as [s Es]. exists s. split; [|by left].
    unfold stamp_of. by rewrite Ei.
  - intros e He. destruct (Hlab e (Hin e He)) as (H1 & H2 & _). done.
  - intros b. rewrite Hst. apply filter_ext_in. intros w Hw.
    destruct (ct_stores _ Hct b w) as [Hww _]; [by apply list_elem_of_In|].
    destruct (containsPos g' w) eqn:E1; destruct (View.contains v w) eqn:E2; try done.
    + apply label_at_some_iff, Hin in E1. congruence.
    + destruct (is_write_label _ _ Hww) as (l & El & _). destruct (Hlab w E2) as (Hs & _). rewrite El in Hs.
      destruct (label_at g' w) eqn:E3; [|done]. assert (containsPos g' w = true) by (apply label_at_some_iff; eauto).
      congruence.
Qed.

(** *** A concrete graph: a store, a load of it, a second store, a load of that *)

Definition or_keep (g : Graph) (o : outcome Graph) : Graph := match o with Ret g' => g' | _ => g end.
Definition add_store (g : Graph) (i v : Z) : Graph :=
  let g := add_or_keep g (sample_store i v) in addStoreToCO g (sample_store i v) (Z.to_nat i).
Definition add_load (g : Graph) (i src : Z) : Graph :=
  let g := add_or_keep g (sample_load i) in or_keep g (changeRf g (pos i) (pos src)).
Definition cut_sample : Graph :=
  add_load (add_store (add_load (add_store (trackCoherenceAtLoc empty word_access) 1 10) 2 1) 3 30) 4 3.

Lemma cut_sample_cuttable : cuttable cut_sample.
Proof.
  assert (He : forall e l, label_at cut_sample e = Some l -> (e, l) ∈ entries cut_sample) by apply entries_complete.
  split.
  - apply consistentb_sound. vm_compute. reflexivity.
  - apply po_stampedb_sound. vm_compute. reflexivity.
  - intros i Hi. change (getNumThreads cut_sample) with 1 in Hi. assert (i = 0) as -> by lia. vm_compute. reflexivity.
  - intros i l El. apply (entries_forall cut_sample
      (fun e l => negb (bool_decide (index e = 0)) || negb (Isa.MemAccessLabel (kind l)))) in El; [|vm_compute; reflexivity].
    simpl in El. by apply negb_true_iff in El.
  - intros r. unfold rfs_of. destruct (label_at cut_sample r) as [l|] eqn:El; [|simpl; lia].
    apply (entries_forall cut_sample (fun _ l => (length (ReadLabel.getRfs l) <=? 1)%nat)) in El; [|vm_compute; reflexivity].
    by apply Nat.leb_le in El.
  - vm_compute. reflexivity.
  - change ((coherence cut_sample).*1) with [64]. apply NoDup_singleton.
  - intros b Hb. change ((coherence cut_sample).*1) with [64] in Hb. apply list_elem_of_singleton in Hb as ->. reflexivity.
  - intros b w Hw. unfold stores_at in Hw. change (coherence cut_sample) with [(64, [pos 1; pos 3])] in Hw.
    cbn [InitLabel.bucket_get] in Hw. destruct (Z.eqb_spec 64 b) as [<-|]; simpl in Hw; [|by apply elem_of_nil in Hw].
    repeat (apply elem_of_cons in Hw as [->|Hw]; [split; reflexivity|]). by apply elem_of_nil in Hw.
Qed.

Lemma cutToStamp_restricts_witness :
  exists g', cutToStamp cut_sample 2 = Ret g' /\ consistent g' /\
    (forall e, is_Some (label_at g' e) <-> exists s, stamp_of cut_sample e = Some s /\ (index e = 0 \/ s <= 2)).
Proof.
  destruct (cutToStamp_restricts cut_sample 2 cut_sample_cuttable) as (g' & E & Hc & Hin & _).
  exists g'. split; [done|]. by split.
Defined.

(** A load of the main thread that reads its lower half from a store of a second
    thread that was added after it, and its upper half from the initializer. *)
Definition mixed_cut_sample : Graph :=
  let start := Make.ThreadStartLabel (mkEvent 1 0) Acquire (mkEvent 0 0) (mkThreadInfo 1 0 0 0 (-1)) (-1) in
  let st1 := Make.WriteLabel (mkEvent 1 1) Release 64 8 Unsigned 7 WriteAttr.None_ DepInfo.no_deps in
  let g := foldl add_or_keep (addNewThread (trackCoherenceAtLoc empty word_access)) [start; sample_load 1; st1] in
  let g := addStoreToCO g st1 0 in
  or_keep g (changeRfs g (pos 1) [(mkEvent 1 1, lower_half); (init_pos, upper_half)]).

(**  [cutToStamp] on a load of two stores of which the first is cut:
    the loop erases from the vector it iterates over and goes on with
    iterators that are no longer valid. *)
Theorem cutToStamp_mixed_undefined :
  consistent mixed_cut_sample /\ po_stamped mixed_cut_sample /\
  rfs_of mixed_cut_sample (pos 1) = [(mkEvent 1 1, lower_half); (init_pos, upper_half)] /\
  stamp_of mixed_cut_sample (pos 1) = Some 2 /\ stamp_of mixed_cut_sample (mkEvent 1 1) = Some 3 /\
  cutToStamp mixed_cut_sample 2 = Undef.
Proof.
  split; [apply consistentb_sound; vm_compute; reflexivity|].
  split; [apply po_stampedb_sound; vm_compute; reflexivity|].
  split_and!; vm_compute; reflexivity.
Qed.

End Cut.
