(* ===== verification/GraphSync.v ===== *)
(** * Locks and read-modify-writes in a graph (the properties of
    ExecutionGraph.cpp's [getMatchingLock], [getMatchingUnlock],
    [getPendingRMW], [violatesAtomicity] and [validate]). *)
From S2P Require Import Prelude Event SVal SAddr VSet Deps Views Labels LabelClasses Graph GraphBase GraphRf GraphCut.

(** ** Matching locks and unlocks *)
Module Locks.
Import ExecutionGraph Lookup Rf.
Section locks.
Context (addr : Z).

(** One step of either loop: the counter afterwards, [None] where it returns. *)
Definition back_step (n : nat) (l : Label) : option nat :=
  let n := if is_unlock_at addr l then S n else n in
  if is_lock_write_at addr l then match n with O => None | S n => Some n end else Some n.
Definition fwd_step (n : nat) (l : Label) : option nat :=
  let n := if is_lock_write_at addr l then S n else n in
  if is_unlock_at addr l then match n with O => None | S n => Some n end else Some n.
Definition steps (f : nat -> Label -> option nat) (ls : list Label) (n : nat) : option nat :=
  foldl (fun o l => o ≫= fun n => f n l) (Some n) ls.

Lemma foldl_none f ls : foldl (fun (o : option nat) (l : Label) => o ≫= fun n => f n l) None ls = None.
Proof. by induction ls. Qed.
Lemma steps_cons f l ls n : steps f (l :: ls) n = f n l ≫= steps f ls.
Proof. unfold steps. simpl. destruct (f n l); [done|apply foldl_none]. Qed.
Lemma steps_snoc f l ls n : steps f (ls ++ [l]) n = steps f ls n ≫= fun n => f n l.
Proof. unfold steps. by rewrite foldl_app. Qed.

Lemma unlock_not_lock l : is_unlock_at addr l = true -> is_lock_write_at addr l = false.
Proof.
  unfold is_unlock_at, is_lock_write_at. rewrite andb_true_iff. intros [Hk _].
  destruct (kind l); try done.
Qed.

Lemma step_inverse n m l : back_step n l = Some m <-> fwd_step m l = Some n.
Proof.
  unfold back_step, fwd_step. pose proof (unlock_not_lock l) as Hx.
  destruct (is_unlock_at addr l), (is_lock_write_at addr l); try (specialize (Hx eq_refl); done);
    destruct n, m; naive_solver.
Qed.

(** A segment the backward loop crosses is crossed by the forward loop, with the
    counters exchanged. *)
Lemma steps_inverse ls n m : steps back_step (rev ls) n = Some m <-> steps fwd_step ls m = Some n.
Proof.
  revert m. induction ls as [|l ls IH]; intros m; [naive_solver|].
  simpl rev. rewrite steps_snoc, steps_cons. rewrite !bind_Some. split.
  - intros (k & Hk & Hl). apply step_inverse in Hl. exists k. split; [done|]. by apply IH.
  - intros (k & Hl & Hk). exists k. split; [by apply IH|]. by apply step_inverse.
Qed.

(** Where the loops return. *)
Lemma matching_lock_loop_spec ls n :
  matching_lock_loop addr n ls = EventOps.getInit \/
  exists ls1 l ls2, ls = ls1 ++ l :: ls2 /\ steps back_step ls1 n = Some 0%nat /\
    is_lock_write_at addr l = true /\ matching_lock_loop addr n ls = EventOps.prev (getPos l).
Proof.
  revert n. induction ls as [|l ls IH]; intros n; [by left|]. cbn [matching_lock_loop].
  pose proof (unlock_not_lock l) as Hx.
  set (n' := if is_unlock_at addr l then S n else n).
  assert (Hgo : forall k, back_step n l = Some k -> 
    matching_lock_loop addr k ls = EventOps.getInit \/
    exists ls1 l0 ls2, l :: ls = ls1 ++ l0 :: ls2 /\ steps back_step ls1 n = Some 0%nat /\
      is_lock_write_at addr l0 = true /\ matching_lock_loop addr k ls = EventOps.prev (getPos l0)).
  { intros k Hk. destruct (IH k) as [?|(ls1 & l0 & ls2 & -> & Hs & Hl0 & ->)]; [by left|right].
    exists (l :: ls1), l0, ls2. split; [done|]. split; [by rewrite steps_cons, Hk|]. done. }
  destruct (is_lock_write_at addr l) eqn:El.
  - destruct n' as [|k] eqn:En.
    + right. exists [], l, ls. split; [done|]. split; [|done].
      destruct (is_unlock_at addr l); [by specialize (Hx eq_refl)|]. unfold n' in En. by subst.
    + apply Hgo. unfold back_step. fold n'. by rewrite El, En.
  - apply Hgo. unfold back_step. fold n'. by rewrite El.
Qed.

Lemma matching_unlock_loop_find ls1 l ls2 n :
  steps fwd_step ls1 n = Some 0%nat -> is_unlock_at addr l = true ->
  matching_unlock_loop addr n (ls1 ++ l :: ls2) = getPos l.
Proof.
  revert n. induction ls1 as [|x ls1 IH]; intros n Hs Hl; cbn [app matching_unlock_loop].
  - unfold steps in Hs. simpl in Hs. injection Hs as ->.
    by rewrite Hl, (unlock_not_lock l Hl).
  - rewrite steps_cons in Hs. destruct (fwd_step n x) as [m|] eqn:E; [|done]. simpl in Hs.
    rewrite <- (IH m Hs Hl). clear IH Hs. unfold fwd_step in E.
    destruct (is_lock_write_at addr x), (is_unlock_at addr x); simpl in *; try (by injection E as <-).
    destruct n; [done|by injection E as <-].
Qed.

End locks.

(** The label is the read part of a lock operation. *)
Definition is_lock_read (l : Label) : bool :=
  Isa.LockCasReadLabel (kind l) || Isa.TrylockCasReadLabel (kind l).

(** Property C38. [getMatchingLock] and [getMatchingUnlock] are inverse: when the lock
    found for an unlock is the read part of a lock operation at the same
    address, the unlock found for that lock is the one started from. *)
Theorem getMatchingUnlock_of_lock g u uLab lk lLab :
  labelled g -> label_at g u = Some uLab -> getMatchingLock g u = Ret lk ->
  label_at g lk = Some lLab -> is_lock_read lLab = true ->
  MemAccessLabel.getAddr lLab = MemAccessLabel.getAddr uLab ->
  getMatchingUnlock g lk = Ret u.
Proof.
  intros Hl Eu Hml El Hk Ha. unfold is_lock_read in Hk. unfold getMatchingLock, getEventLabel in Hml. rewrite Eu in Hml.
  cbn [mbind outcome_bind] in Hml. destruct (Isa.UnlockWriteLabel (kind uLab)) eqn:Hku; [|done].
  cbn [negb BUG_ON mbind outcome_bind] in Hml.
  pose proof (label_at_valid _ _ _ Eu) as [Hut Hui]. pose proof (label_at_some_iff_size _ _ _ Eu) as Hsz.
  unfold po_before in Hml. destruct (Z.leb_spec (index u) (getThreadSize g (thread u))); [|lia].
  cbn [orb mbind outcome_bind] in Hml. injection Hml as Hml.
  set (addr := MemAccessLabel.getAddr uLab) in *. set (thr := thread_labels g (thread u)) in *.
  destruct (matching_lock_loop_spec addr (rev (drop 1 (take (Z.to_nat (index u)) thr))) 0)
    as [E|(ls1 & l & ls2 & Els & Hs & Hlw & E)].
  { exfalso. change (Z.to_nat 1) with 1%nat in Hml. rewrite E in Hml. subst lk.
    destruct (lb_init _ Hl) as (il & Ei & Hki). unfold init_pos in Ei. rewrite El in Ei. injection Ei as <-.
    by rewrite Hki in Hk. }
  change (Z.to_nat 1) with 1%nat in Hml. rewrite E in Hml. clear E.
  (* the thread around the lock *)
  apply (f_equal (@rev Label)) in Els. rewrite rev_involutive, rev_app_distr in Els. simpl in Els.
  rewrite <- app_assoc in Els. simpl in Els.
  set (k := length (rev ls2)).
  assert (Ethr : thr = take 1 thr ++ rev ls2 ++ l :: rev ls1 ++ uLab :: drop (S (Z.to_nat (index u))) thr).
  { rewrite label_at_thread in Eu by done. fold thr in Eu.
    rewrite <- (take_drop_middle thr _ _ Eu) at 1.
    rewrite <- (take_drop 1 (take (Z.to_nat (index u)) thr)) at 1. rewrite Els.
    assert (0 < Z.to_nat (index u))%nat.
    { destruct (Z.to_nat (index u)) eqn:E0; [|lia]. rewrite take_0 in Els. destruct (rev ls2); done. }
    rewrite take_take, Nat.min_l by lia. rewrite <- !app_assoc. done. }
  assert (Hthr0 : length (take 1 thr) = 1%nat).
  { rewrite length_take. rewrite label_at_thread in Eu by done. apply lookup_lt_Some in Eu. fold thr in Eu. lia. }
  assert (Hpos : getPos l = mkEvent (thread u) (Z.of_nat (1 + k))).
  { apply (lb_ok _ Hl). rewrite label_at_thread by (split; simpl; lia). cbn [thread index]. fold thr.
    rewrite Nat2Z.id, Ethr. rewrite lookup_app_r by lia. rewrite Hthr0.
    replace (1 + k - 1)%nat with k by lia. unfold k. by rewrite list_lookup_middle. }
  assert (Hlk : lk = mkEvent (thread u) (Z.of_nat k)).
  { rewrite <- Hml, Hpos. unfold EventOps.prev. simpl. f_equal. lia. }
  unfold getMatchingUnlock, getEventLabel. rewrite El. cbn [mbind outcome_bind].
  assert (Isa.CasReadLabel (kind lLab) = true) as -> by (destruct (kind lLab); done).
  assert (negb true || negb (Isa.LockCasReadLabel (kind lLab)) && negb (Isa.TrylockCasReadLabel (kind lLab)) = false) as ->
    by (destruct (Isa.LockCasReadLabel (kind lLab)), (Isa.TrylockCasReadLabel (kind lLab)); done).
  cbn [BUG_ON mbind outcome_bind]. rewrite Ha, Hlk. simpl thread. simpl index. fold thr.
  assert (drop (Z.to_nat (Z.of_nat k + 2)) thr = rev ls1 ++ uLab :: drop (S (Z.to_nat (index u))) thr) as ->.
  { assert (thr = (take 1 thr ++ rev ls2 ++ [l]) ++ rev ls1 ++ uLab :: drop (S (Z.to_nat (index u))) thr) as Ethr'
      by (rewrite Ethr at 1; by rewrite <- !app_assoc).
    rewrite Ethr' at 1. apply drop_app_length'. rewrite !length_app, Hthr0. simpl. fold k. lia. }
  assert (getPos uLab = u) as <- by (by apply (lb_ok _ Hl)).
  f_equal. apply matching_unlock_loop_find.
  - apply steps_inverse. by rewrite rev_involutive.
  - unfold is_unlock_at. by rewrite Hku, Z.eqb_refl.
Qed.

(** A critical section with a nested one at the same address. *)
Definition lock_at (i : Z) : list Label :=
  [Make.LockCasReadLabel_default (mkEvent 0 i) 64 4 0 None DepInfo.no_deps;
   Make.LockCasWriteLabel (mkEvent 0 (i + 1)) Acquire 64 4 Signed 1 0 DepInfo.no_deps].
Definition unlock_at (i : Z) : Label := Make.UnlockWriteLabel_default (mkEvent 0 i) 64 4 DepInfo.no_deps.
Definition lock_sample : Graph :=
  foldl add_or_keep empty (lock_at 1 ++ lock_at 3 ++ [unlock_at 5; unlock_at 6]).

Lemma getMatchingUnlock_of_lock_witness :
  getMatchingLock lock_sample (pos 6) = Ret (pos 1) /\ getMatchingUnlock lock_sample (pos 1) = Ret (pos 6).
Proof.
  split; [vm_compute; reflexivity|].
  eapply (getMatchingUnlock_of_lock lock_sample (pos 6)).
  - apply c_labelled, consistentb_sound. vm_compute. reflexivity.
  - vm_compute. reflexivity.
  - vm_compute. reflexivity.
  - vm_compute. reflexivity.
  - vm_compute. reflexivity.
  - vm_compute. reflexivity.
Defined.

End Locks.

(** ** Validation *)
Module Validate.
Import ExecutionGraph Lookup Rf.

Lemma bug_on_ret (b : bool) : BUG_ON b = Ret tt <-> b = false.
Proof. by destruct b. Qed.
Lemma ret_bind {A B} (m : outcome A) (f : A -> outcome B) y :
  (x ← m; f x) = Ret y <-> exists x, m = Ret x /\ f x = Ret y.
Proof. destruct m; simpl; naive_solver. Qed.
Lemma bug_on_bind {B} (b : bool) (m : outcome B) y :
  (_ ← BUG_ON b; m) = Ret y <-> b = false /\ m = Ret y.
Proof. destruct b; simpl; naive_solver. Qed.
Lemma mfold_unit {A} (f : A -> outcome unit) ls :
  mfold (fun _ l => f l) ls tt = Ret tt <-> forall l, l ∈ ls -> f l = Ret tt.
Proof.
  induction ls as [|l ls IH]; cbn [mfold]; [set_solver|]. rewrite ret_bind.
  setoid_rewrite elem_of_cons. split.
  - intros ([] & Hl & Hls) l' [->|H']; [done|]. by apply IH.
  - intros H. exists tt. split; [by apply H; left|]. apply IH. intros; apply H. by right.
Qed.

(** What one label must satisfy. *)
Definition read_valid (g : Graph) (r : Event) (rLab : Label) : Prop :=
  forall w a, (w, a) ∈ ReadLabel.getRfs rLab ->
    containsPos g w = true /\ (is_write g w -> r ∈ readers_of g w).
(** [r] is the load of a read-modify-write that takes place: the next label of
    its thread is the store, to the same address. *)
Definition rmw_read (g : Graph) (r : Event) : Prop :=
  exists l s, label_at g r = Some l /\ (Isa.FaiReadLabel (kind l) = true \/ Isa.CasReadLabel (kind l) = true) /\
    label_at g (EventOps.next r) = Some s /\ (Isa.FaiWriteLabel (kind s) = true \/ Isa.CasWriteLabel (kind s) = true) /\
    MemAccessLabel.getAddr s = MemAccessLabel.getAddr l.
(** At most one place of the list holds such a load. *)
Definition one_rmw (g : Graph) (rs : list Event) : Prop :=
  forall i j r r', rs !! i = Some r -> rs !! j = Some r' -> rmw_read g r -> rmw_read g r' -> i = j.
Definition write_valid (g : Graph) (w : Event) (wLab : Label) : Prop :=
  (isRMWStore wLab = true -> one_rmw g (WriteLabel.readers wLab)) /\
  forall r, r ∈ WriteLabel.readers wLab -> containsPosNonEmpty g r = true /\ w ∈ (rfs_of g r).*1.

Lemma isRMWLoad_iff g e l :
  labelled g -> label_at g e = Some l -> exists b, isRMWLoad g l = Ret b /\ (b = true <-> rmw_read g e).
Proof.
  intros Hl El. destruct (lb_ok _ Hl e l El) as [Hp _]. unfold isRMWLoad, rmw_read.
  rewrite <- negb_orb. destruct (Isa.CasReadLabel (kind l) || Isa.FaiReadLabel (kind l)) eqn:Ek; cbn [negb].
  2: { exists false. split; [done|]. split; [done|]. intros (l' & s & El' & Hk & _). rewrite El in El'.
       injection El' as <-. apply orb_false_iff in Ek. intuition congruence. }
  unfold EventLabel.getIndex, EventLabel.getThread. rewrite Hp.
  pose proof (label_at_some_iff_size _ _ _ El) as Hs. pose proof (label_at_valid _ _ _ El) as [Ht Hi].
  destruct (Z.eqb_spec (index e) (getThreadSize g (thread e) - 1)) as [He|He].
  { exists false. split; [done|]. split; [done|]. intros (l' & s & _ & _ & En & _).
    apply label_at_some_iff_size in En. simpl in En. lia. }
  assert (containsPos g e = true) as Hc by (apply label_at_some_iff; eauto).
  assert (is_Some (label_at g (EventOps.next e))) as [nl En].
  { apply label_at_some_iff. unfold containsPos in *. simpl in *.
    rewrite !andb_true_iff, !Z.geb_leb, !Z.leb_le, !Z.ltb_lt in *. lia. }
  unfold getEventLabel. rewrite En. cbn [mbind outcome_bind]. eexists. split; [done|].
  assert (forall k, implb (Isa.FaiWriteLabel k || Isa.CasWriteLabel k) (Isa.MemAccessLabel k) = true) as Hm
    by (apply kinds_forall; vm_compute; reflexivity).
  specialize (Hm (kind nl)). apply orb_true_iff in Ek. unfold isRMWStore. rewrite !andb_true_iff, Z.eqb_eq, orb_true_iff.
  split.
  - intros [[_ Hw] Ha]. exists l, nl. tauto.
  - intros (l' & s & El' & _ & En' & Hw & Ha). rewrite El in El'. injection El' as <-.
    injection En' as <-. split; [|done]. split; [|done]. apply orb_true_iff in Hw. by rewrite Hw in Hm.
Qed.

Lemma one_rmw_cons g r rs :
  one_rmw g (r :: rs) <-> (rmw_read g r -> forall r', r' ∈ rs -> ~ rmw_read g r') /\ one_rmw g rs.
Proof.
  split.
  - intros H. split.
    + intros Hr r' [j Hj]%list_elem_of_lookup Hr'. by specialize (H 0%nat (S j) r r' eq_refl Hj Hr Hr').
    + intros i j x y Hi Hj Hx Hy. specialize (H (S i) (S j) x y Hi Hj Hx Hy). lia.
  - intros [H1 H2] [|i] [|j] x y Hi Hj Hx Hy; simpl in Hi, Hj; [done| | |f_equal; by eapply H2].
    + injection Hi as ->. apply list_elem_of_lookup_2 in Hj. by destruct (H1 Hx y Hj).
    + injection Hj as ->. apply list_elem_of_lookup_2 in Hi. by destruct (H1 Hy x Hi).
Qed.
(** The counter of the code, from the readers that are such loads. *)
Lemma count_rmw_loads_spec g rs :
  labelled g -> (forall r, r ∈ rs -> is_Some (label_at g r)) ->
  exists n, count_rmw_loads g rs = Ret n /\ 0 <= n /\ (n = 0 <-> forall r, r ∈ rs -> ~ rmw_read g r) /\
    (n <= 1 <-> one_rmw g rs).
Proof.
  intros Hl. induction rs as [|r rs IH]; intros Hrs; cbn [count_rmw_loads].
  { exists 0. split; [done|]. split; [lia|]. split; [split; [intros _ x Hx; by apply elem_of_nil in Hx|done]|].
    split; [intros _ i j x y Hi; by rewrite lookup_nil in Hi|lia]. }
  destruct (Hrs r) as [l El]; [left|]. unfold getEventLabel. rewrite El. cbn [mbind outcome_bind].
  destruct (isRMWLoad_iff g r l Hl El) as (b & -> & Hb). cbn [mbind outcome_bind].
  destruct IH as (n & -> & Hn & H0 & H1); [intros; apply Hrs; by right|]. cbn [mbind outcome_bind].
  eexists. split; [done|]. rewrite one_rmw_cons. setoid_rewrite elem_of_cons. destruct b.
  - pose proof (proj1 Hb eq_refl) as Hr. split; [lia|]. split.
    + split; [lia|]. intros H. by destruct (H r (or_introl eq_refl)).
    + split; [intros ?; assert (n = 0) as Hz by lia; split; [intros _; by apply H0|apply H1; lia]|].
      intros [H _]. assert (n = 0) by (apply H0, H, Hr). lia.
  - assert (~ rmw_read g r) as Hr by (intros Hr; by apply Hb in Hr). split; [lia|]. split.
    + rewrite H0. split; [intros H x [->|Hx]; auto|auto].
    + rewrite H1. split; [by intros H|by intros [_ H]].
Qed.
Lemma containsPosNonEmpty_label g e : containsPosNonEmpty g e = true -> is_Some (label_at g e).
Proof. unfold containsPosNonEmpty. by destruct (label_at g e). Qed.

Lemma existsb_false {A} (f : A -> bool) l : existsb f l = false <-> forall x, x ∈ l -> f x = false.
Proof.
  induction l as [|x l IH]; simpl; [set_solver|]. rewrite orb_false_iff, IH.
  setoid_rewrite elem_of_cons. naive_solver.
Qed.
Lemma negb_forallb_false {A} (f : A -> bool) l : negb (forallb f l) = false <-> forall x, x ∈ l -> f x = true.
Proof.
  rewrite negb_false_iff, forallb_forall. by setoid_rewrite <- list_elem_of_In.
Qed.

Lemma validate_read_spec g l : validate_read g l = Ret tt <-> read_valid g (getPos l) l.
Proof.
  unfold validate_read, read_valid. rewrite bug_on_bind, bug_on_ret.
  rewrite negb_forallb_false, existsb_false. split.
  - intros (H1 & H2) w a Ha. specialize (H1 _ Ha). specialize (H2 _ Ha). simpl in *. split; [done|].
    intros Hw. unfold is_write, label_sat, readers_of in *. destruct (label_at g w); [|done]. simpl in *.
    rewrite Hw in H2. simpl in H2. by rewrite negb_false_iff, bool_decide_eq_true in H2.
  - intros H. split.
    + intros [w a] Ha. by apply (H w a).
    + intros [w a] Ha. destruct (H w a Ha) as [_ Hr]. unfold is_write, label_sat, readers_of in Hr.
      destruct (label_at g w) as [wl|]; [|done]. simpl in *.
      destruct (Isa.WriteLabel (kind wl)); [|done]. simpl. rewrite bool_decide_eq_true_2; auto.
Qed.

Lemma validate_write_spec g l : labelled g -> validate_write g l = Ret tt <-> write_valid g (getPos l) l.
Proof.
  intros Hl. unfold validate_write, write_valid. rewrite ret_bind. setoid_rewrite bug_on_bind. setoid_rewrite bug_on_bind.
  setoid_rewrite bug_on_ret. setoid_rewrite existsb_false.
  assert (Hn : (forall r, r ∈ WriteLabel.readers l -> is_Some (label_at g r)) ->
    (exists n, (if isRMWStore l then count_rmw_loads g (WriteLabel.readers l) else Ret 0) = Ret n /\ (n >? 1) = false)
    <-> (isRMWStore l = true -> one_rmw g (WriteLabel.readers l))).
  { intros Hrs. destruct (isRMWStore l).
    - destruct (count_rmw_loads_spec g _ Hl Hrs) as (n & E & _ & _ & H1). rewrite E, <- H1. split.
      + intros (m & [= <-] & Hm) _. lia.
      + intros H. exists n. split; [done|]. specialize (H eq_refl). lia.
    - split; [done|]. intros _. by exists 0. }
  assert (Hr : forall r, (match label_at g r with
      | Some rl => forallb (fun '(w, _) => negb (bool_decide (w = getPos l))) (ReadLabel.getRfs rl)
      | None => true end) = false <-> getPos l ∈ (rfs_of g r).*1).
  { intros r. unfold rfs_of. destruct (label_at g r) as [rl|]; simpl; [|split; [done|by intros ?%elem_of_nil]].
    rewrite list_elem_of_fmap. rewrite <- not_true_iff_false, forallb_forall. split.
    - intros H. destruct (decide (Exists (fun p => p.1 = getPos l) (ReadLabel.getRfs rl))) as [He|He].
      + apply Exists_exists in He as (p & Hp & Hw). by exists p.
      + destruct H. intros [w a] Ha. apply negb_true_iff, bool_decide_eq_false. intros ->. apply He, Exists_exists.
        exists (getPos l, a). split; [by apply list_elem_of_In|done].
    - intros ([w a] & E & Ha) H. simpl in E. subst w. apply list_elem_of_In, H in Ha.
      by rewrite bool_decide_eq_true_2 in Ha. }
  split.
  - intros (n & En & ? & Hc & Hrf).
    assert (forall r, r ∈ WriteLabel.readers l -> containsPosNonEmpty g r = true) as Hc'
      by (intros r Hrr; specialize (Hc r Hrr); simpl in Hc; by apply negb_false_iff in Hc).
    split; [apply Hn; [intros r Hrr; by apply containsPosNonEmpty_label, Hc'|by exists n]|].
    intros r Hrr. split; [by apply Hc'|by apply Hr, Hrf].
  - intros [H1 H]. apply Hn in H1 as (n & E & Hgt); [|intros r Hrr; by apply containsPosNonEmpty_label, H].
    exists n. split; [done|]. split; [done|].
    split; [intros r Hrr; apply negb_false_iff; by apply H|]. intros r Hrr. by apply Hr, H.
Qed.

(** An increment of one location: its load and its store. *)
Definition fai (t i : Z) : list Label :=
  [Make.FaiReadLabel (mkEvent t i) Acquire 64 8 Unsigned 0 1 0 None DepInfo.no_deps;
   Make.FaiWriteLabel (mkEvent t (i + 1)) Release 64 8 Unsigned 11 0 DepInfo.no_deps].
Definition thread_start : Label :=
  Make.ThreadStartLabel (mkEvent 1 0) Acquire (mkEvent 0 0) (mkThreadInfo 1 0 0 0 (-1)) (-1).
Definition read_from_or_keep (g : Graph) (p : Event * Event) : Graph :=
  match changeRf g (fst p) (snd p) with Ret g' => g' | _ => g end.
(** Two threads increment a location, the second reads from the store of the
    first; and a third one that reads from the same store. *)
Definition two_increments : Graph :=
  foldl read_from_or_keep (foldl add_or_keep (addNewThread empty) ([sample_store 1 10] ++ fai 0 2 ++ thread_start :: fai 1 1))
    [(pos 2, pos 1); (mkEvent 1 1, pos 3)].
Definition clash : Graph :=
  foldl read_from_or_keep (foldl add_or_keep two_increments (fai 1 3)) [(mkEvent 1 3, pos 3)].

(** Property C29.  [validate] returns, rather than stopping the process, exactly when
    every read reads from events of the graph and is on the reader list of each
    of them that is a store, every reader of a store is a non-empty event of
    the graph with an edge from it, and at most one place of the reader list of
    a read-modify-write store holds the load of a read-modify-write that takes
    place. *)
Theorem validate_iff g :
  labelled g ->
  validate g = Ret tt <->
  forall e l, label_at g e = Some l ->
    (Isa.ReadLabel (kind l) = true -> read_valid g e l) /\ (Isa.WriteLabel (kind l) = true -> write_valid g e l).
Proof.
  intros Hl. unfold validate. rewrite mfold_unit. split.
  - intros H e l El. assert (l ∈ labels g) as Hin by (apply labels_iff; eauto). specialize (H l Hin).
    destruct (lb_ok _ Hl e l El) as [<- _]. apply ret_bind in H as ([] & Hr & Hw). split; intros Hk.
    + rewrite Hk in Hr. by apply validate_read_spec.
    + rewrite Hk in Hw. by apply validate_write_spec.
  - intros H l [e El]%labels_iff. destruct (lb_ok _ Hl e l El) as [<- _]. destruct (H _ l El) as [Hr Hw].
    destruct (Isa.ReadLabel (kind l)) eqn:Er; [rewrite (proj2 (validate_read_spec g l) (Hr eq_refl))|];
      cbn [mbind outcome_bind]; (destruct (Isa.WriteLabel (kind l)); [apply (validate_write_spec g l Hl); by apply Hw|done]).
Qed.

(** The chain of two increments is valid; with another increment that reads from
    the store of the first one the graph is not, and its reader list is the
    reason. *)
Lemma validate_iff_witness :
  (forall e l, label_at two_increments e = Some l ->
    (Isa.ReadLabel (kind l) = true -> read_valid two_increments e l) /\
    (Isa.WriteLabel (kind l) = true -> write_valid two_increments e l)) /\
  readers_of two_increments (pos 3) = [mkEvent 1 1] /\ rmw_read two_increments (mkEvent 1 1) /\
  readers_of clash (pos 3) = [mkEvent 1 1; mkEvent 1 3] /\
  ~ (forall e l, label_at clash e = Some l ->
    (Isa.ReadLabel (kind l) = true -> read_valid clash e l) /\ (Isa.WriteLabel (kind l) = true -> write_valid clash e l)).
Proof.
  split; [|split; [vm_compute; reflexivity|]; split; [|split; [vm_compute; reflexivity|]]].
  - apply (validate_iff two_increments); [apply c_labelled, consistentb_sound; vm_compute; reflexivity|vm_compute; reflexivity].
  - do 2 eexists. split; [vm_compute; reflexivity|]. split; [left; reflexivity|]. split; [vm_compute; reflexivity|].
    split; [left; reflexivity|reflexivity].
  - intros H. apply (validate_iff clash) in H; [vm_compute in H; discriminate|].
    apply c_labelled, consistentb_sound. vm_compute. reflexivity.
Defined.

End Validate.

(** ** Pending read-modify-writes *)
Module Rmw.
Import ExecutionGraph Lookup Rf StampView Validate.

(** [r] is the load of a successful read-modify-write. *)
Definition rmw_load (g : Graph) (r : Event) : Prop :=
  exists l, label_at g r = Some l /\ isRMWLoad g l = Ret true.

(** Another successful read-modify-write [r] reads overlapping bytes from a
    source of the read [p]. *)
Definition competes (g : Graph) (p r : Event) : Prop :=
  exists w a a', (w, a) ∈ rfs_of g p /\ (w, a') ∈ rfs_of g r /\ AccessOps.overlaps a a' = true /\
    rmw_load g r /\ r <> p.

(** The bytes of reads-from edges lie inside the aligned word of their read. *)
Record word_parts (g : Graph) : Prop := {
  wp_word r w a : (w, a) ∈ rfs_of g r -> SAddr.align (acc_addr a) = bucket_of g r;
  wp_inside r w a b : (w, a) ∈ rfs_of g r -> AccessOps.overlaps b a = true ->
    AccessOps.overlaps (access_of g r) b = true;
  wp_bucket r w a r' w' a' : (w, a) ∈ rfs_of g r -> (w', a') ∈ rfs_of g r' ->
    AccessOps.overlaps a a' = true -> bucket_of g r = bucket_of g r';
}.

Lemma isRMWLoad_ret g e l :
  labelled g -> label_at g e = Some l -> exists b, isRMWLoad g l = Ret b.
Proof. intros Hl El. destruct (isRMWLoad_iff g e l Hl El) as (b & E & _). by exists b. Qed.

Lemma readFromOverlaps_iff a l w :
  readFromOverlaps a l w = true <-> exists a', (w, a') ∈ ReadLabel.getRfs l /\ AccessOps.overlaps a a' = true.
Proof.
  unfold readFromOverlaps. rewrite existsb_exists. setoid_rewrite <- list_elem_of_In. split.
  - intros ([w' a'] & Ha & H). rewrite andb_true_iff, bool_decide_eq_true in H. destruct H as [-> ?]. eauto.
  - intros (a' & Ha & Ho). exists (w, a'). split; [done|]. by rewrite bool_decide_eq_true_2, Ho.
Qed.

Lemma pending_among_spec g pLab access w rs :
  labelled g -> (forall r, r ∈ rs -> is_Some (label_at g r)) ->
  exists out, pending_among g pLab access w rs = Ret out /\
    forall r, r ∈ out <-> r ∈ rs /\ rmw_load g r /\ r <> getPos pLab /\
      exists a', (w, a') ∈ rfs_of g r /\ AccessOps.overlaps access a' = true.
Proof.
  intros Hl. induction rs as [|r rs IH]; intros Hrs; cbn [pending_among].
  { exists []. split; [done|]. intros r. split; [by intros ?%elem_of_nil|by intros [?%elem_of_nil _]]. }
  destruct (Hrs r) as [l El]; [left|]. unfold getEventLabel. rewrite El. cbn [mbind outcome_bind].
  destruct (isRMWLoad_ret g r l Hl El) as [b Eb]. rewrite Eb. cbn [mbind outcome_bind].
  destruct IH as (out & -> & Hout); [intros; apply Hrs; by right|]. cbn [mbind outcome_bind].
  eexists. split; [done|]. intros r'. 
  assert (Hb : b && negb (bool_decide (r = getPos pLab)) && readFromOverlaps access l w = true <->
    rmw_load g r /\ r <> getPos pLab /\ exists a', (w, a') ∈ rfs_of g r /\ AccessOps.overlaps access a' = true).
  { rewrite !andb_true_iff, negb_true_iff, bool_decide_eq_false, readFromOverlaps_iff.
    assert (rfs_of g r = ReadLabel.getRfs l) as -> by (unfold rfs_of; by rewrite El).
    assert (rmw_load g r <-> b = true) as ->; [|tauto]. unfold rmw_load. split.
    - intros (l' & El' & E). rewrite El in El'. injection El' as <-. congruence.
    - intros ->. eauto. }
  destruct (_ && _ && _) eqn:E.
  - rewrite !elem_of_cons, Hout. destruct Hb as [Hb _]. specialize (Hb eq_refl). split; [|tauto].
    intros [->|?]; tauto.
  - rewrite elem_of_cons, Hout. destruct Hb as [_ Hb]. split; [tauto|].
    intros [[->|?] Hx]; [|tauto]. by specialize (Hb Hx).
Qed.

(** *** The minimum by stamp *)

Lemma min_stamp_spec g es : forall best s,
  (forall e, e ∈ es -> is_Some (stamp_of g e)) -> stamp_of g best = Some s ->
  exists x sx, min_stamp g (best, s) es = Ret x /\ x ∈ best :: es /\ stamp_of g x = Some sx /\
    forall e se, e ∈ best :: es -> stamp_of g e = Some se -> sx <= se.
Proof.
  induction es as [|e es IH]; intros best s Hes Hb; cbn [min_stamp].
  { exists best, s. split; [done|]. split; [left|]. split; [done|].
    intros e se ->%list_elem_of_singleton. rewrite Hb. intros [= ->]. lia. }
  destruct (Hes e) as [se Ese]; [left|]. pose proof Ese as Ese'. unfold stamp_of in Ese'.
  destruct (label_at g e) as [l|] eqn:El; [|done]. simpl in Ese'.
  unfold getEventLabel, EventLabel.getStamp. rewrite El. cbn [mbind outcome_bind]. rewrite Ese'.
  cbn [mbind outcome_bind snd].
  destruct (Z.ltb_spec se s).
  - destruct (IH e se) as (x & sx & -> & Hx & Hsx & Hmin); [intros; apply Hes; by right|done|].
    exists x, sx. split; [done|]. split; [by right|]. split; [done|].
    intros e' se' [->|He]%elem_of_cons E'; [|by eapply Hmin]. rewrite Hb in E'. injection E' as <-.
    pose proof (Hmin e se ltac:(left) Ese). lia.
  - destruct (IH best s) as (x & sx & -> & Hx & Hsx & Hmin); [intros; apply Hes; by right|done|].
    exists x, sx. split; [done|]. split; [set_solver|]. split; [done|].
    intros e' se' He E'. apply elem_of_cons in He as [->|[->|He]%elem_of_cons].
    + by apply (Hmin best); [left|].
    + rewrite Ese in E'. injection E' as <-. pose proof (Hmin best s ltac:(left) Hb). lia.
    + apply (Hmin e'); [by right|done].
Qed.

Lemma getMinimumStampEvent_spec g es :
  (forall e, e ∈ es -> is_Some (stamp_of g e)) ->
  exists x, getMinimumStampEvent g es = Ret x /\
    ((x = EventOps.getInit /\ es = []) \/
     (x ∈ es /\ forall e s s', e ∈ es -> stamp_of g x = Some s -> stamp_of g e = Some s' -> s <= s')).
Proof.
  intros Hes. destruct es as [|e [|e' es]]; [eexists; split; [done|by left]| |].
  - exists e. split; [done|]. right. split; [left|]. intros e' s s' ->%list_elem_of_singleton Hs Hs'.
    rewrite Hs in Hs'. injection Hs' as ->. lia.
  - destruct (Hes e) as [s Es]; [left|]. 
    destruct (min_stamp_spec g (e' :: es) e s) as (x & sx & E & Hx & Hsx & Hmin);
      [intros; apply Hes; by right|done|]. exists x. split.
    + unfold stamp_of in Es. destruct (label_at g e) as [l|] eqn:El; [|done]. simpl in Es.
      unfold getMinimumStampEvent, getEventLabel, EventLabel.getStamp. rewrite El. cbn [mbind outcome_bind].
      rewrite Es. done.
    + right. split; [done|]. intros y s1 s2 Hy E1 E2. rewrite Hsx in E1. injection E1 as <-. by eapply Hmin.
Qed.

(** *** The competitors *)

Lemma rfs_label g r w : w ∈ (rfs_of g r).*1 -> is_Some (label_at g r).
Proof.
  unfold rfs_of. destruct (label_at g r); [eauto|]. simpl. by intros ?%elem_of_nil.
Qed.

(** The readers [getPendingRMW] looks at for one reads-from edge. *)
Lemma source_readers g p w a wLab :
  consistent g -> word_parts g -> (w, a) ∈ rfs_of g p -> label_at g w = Some wLab ->
  exists rs, (if Isa.WriteLabel (kind wLab) then Ret (WriteLabel.readers wLab) else init_rfs g a) = Ret rs /\
    (forall r, r ∈ rs -> is_Some (label_at g r)) /\
    (forall r a', (w, a') ∈ rfs_of g r -> AccessOps.overlaps a a' = true -> r ∈ rs) /\
    (if Isa.WriteLabel (kind wLab) then w else init_pos) = w.
Proof.
  intros Hc Hwp Ha Ew. destruct (Isa.WriteLabel (kind wLab)) eqn:Hk.
  - assert (Hw : is_write g w) by (unfold is_write, label_sat; by rewrite Ew).
    assert (Hrs : WriteLabel.readers wLab = readers_of g w) by (unfold readers_of; by rewrite Ew).
    eexists. split; [done|]. rewrite Hrs. split; [|split; [|done]].
    + intros r Hr. by eapply rfs_label, (c_readers _ Hc).
    + intros r a' Ha' _. destruct (c_rf _ Hc r w a' Ha') as [[_ ?]|[-> _]]; [done|].
      by destruct (init_not_write g (c_labelled _ Hc)).
  - destruct (c_rf _ Hc p w a Ha) as [[Hw _]|[-> Hp]].
    { unfold is_write, label_sat in Hw. rewrite Ew in Hw. simpl in Hw. congruence. }
    unfold init_rfs. rewrite (wp_word _ Hwp p init_pos a Ha). unfold init_readers in Hp.
    destruct (InitLabel.bucket_get (initRfs g) (bucket_of g p)) as [rs|] eqn:Eb; [|by apply elem_of_nil in Hp].
    simpl in Hp. eexists. split; [done|]. unfold overlapping. split; [|split; [|done]].
    + intros r Hr. apply list_elem_of_In, List.filter_In in Hr as [Hr _]. apply list_elem_of_In in Hr. eapply rfs_label, (c_init _ Hc r (bucket_of g p)).
      unfold init_readers. by rewrite Eb.
    + intros r a' Ha' Ho. apply list_elem_of_In, List.filter_In. rewrite <- list_elem_of_In.
      assert (Hb : bucket_of g p = bucket_of g r) by (by eapply (wp_bucket _ Hwp)).
      destruct (c_rf _ Hc r init_pos a' Ha') as [[Hw _]|[_ Hr]]; [by destruct (init_not_write g (c_labelled _ Hc))|].
      unfold init_readers in Hr. rewrite <- Hb, Eb in Hr. split; [done|].
      pose proof (wp_inside _ Hwp r init_pos a' a Ha' Ho) as Hin. unfold access_of in Hin.
      destruct (rfs_label g r init_pos) as [l El]; [apply list_elem_of_fmap; by exists (init_pos, a')|].
      unfold label_sat. rewrite El in *. done.
Qed.

Lemma pending_of_rf_spec g p pLab acc w a :
  consistent g -> word_parts g -> getPos pLab = p -> (w, a) ∈ rfs_of g p ->
  exists out, pending_of_rf g pLab acc (w, a) = Ret (acc ++ out) /\
    forall r, r ∈ out <-> rmw_load g r /\ r <> p /\
      exists a', (w, a') ∈ rfs_of g r /\ AccessOps.overlaps a a' = true.
Proof.
  intros Hc Hwp Hp Ha. pose proof (c_labelled _ Hc) as Hl.
  destruct (source_label g w Hl) as (wLab & Ew & _).
  { eapply consistent_source; [done|]. apply list_elem_of_fmap. by exists (w, a). }
  destruct (source_readers g p w a wLab Hc Hwp Ha Ew) as (rs & Ers & Hrs & Hall & Hsrc).
  destruct (pending_among_spec g pLab a w rs Hl Hrs) as (out & Eo & Hout).
  exists out. unfold pending_of_rf, getEventLabel. rewrite Ew. cbn [mbind outcome_bind]. rewrite Ers, Hsrc.
  cbn [mbind outcome_bind]. rewrite Eo. split; [done|]. intros r. rewrite Hout, Hp. naive_solver.
Qed.

Lemma pending_fold_spec g p pLab es : forall acc,
  consistent g -> word_parts g -> getPos pLab = p -> (forall w a, (w, a) ∈ es -> (w, a) ∈ rfs_of g p) ->
  exists out, mfold (pending_of_rf g pLab) es acc = Ret out /\
    forall r, r ∈ out <-> r ∈ acc \/ rmw_load g r /\ r <> p /\
      exists w a a', (w, a) ∈ es /\ (w, a') ∈ rfs_of g r /\ AccessOps.overlaps a a' = true.
Proof.
  induction es as [|[w a] es IH]; intros acc Hc Hwp Hp Hes; cbn [mfold].
  { exists acc. split; [done|]. intros r. split; [by left|]. intros [?|(_ & _ & ? & ? & ? & ?%elem_of_nil & _)]; done. }
  destruct (pending_of_rf_spec g p pLab acc w a Hc Hwp Hp) as (o & -> & Ho); [apply Hes; left|].
  cbn [mbind outcome_bind]. destruct (IH (acc ++ o)) as (out & -> & Hout); [done..|intros; apply Hes; by right|].
  exists out. split; [done|]. intros r. rewrite Hout, elem_of_app, Ho. setoid_rewrite elem_of_cons. split.
  - intros [[?|(Hr & Hn & a' & H1 & H2)]|(Hr & Hn & w' & b & b' & H1 & H2)]; [by left| |]; right;
      (split; [done|]; split; [done|]); [exists w, a, a'; naive_solver|exists w', b, b'; naive_solver].
  - intros [?|(Hr & Hn & w' & b & b' & [[= -> ->]|H1] & H2 & H3)]; [by left; left| |];
      [left; right|right]; (split; [done|]; split; [done|]); [by exists b'|by exists w', b, b'].
Qed.

(** [getPendingRMW] on a store of a read-modify-write whose load is [p]. *)
Lemma getPendingRMW_lemma g s sLab p :
  consistent g -> (forall e l, label_at g e = Some l -> is_Some (stamp l)) -> word_parts g ->
  label_at g s = Some sLab -> isRMWStore sLab = true -> p = EventOps.prev s -> 0 < index s ->
  is_read g p -> rfs_of g p <> [] ->
  exists x, getPendingRMW g sLab = Ret x /\
    ((x = EventOps.getInit /\ forall r, ~ competes g p r) \/
     (competes g p x /\ forall r t t', competes g p r -> stamp_of g x = Some t -> stamp_of g r = Some t' -> t <= t')).
Proof.
  intros Hc Hst Hwp Es Hrmw -> Hi Hr Hrf. pose proof (c_labelled _ Hc) as Hl.
  destruct (lb_ok _ Hl s sLab Es) as [Hps _]. destruct (is_read_label g _ Hr) as (pLab & Ep & Hk).
  destruct (lb_ok _ Hl _ pLab Ep) as [Hpp _].
  assert (Hrfs : rfs_of g (EventOps.prev s) = ReadLabel.getRfs pLab) by (unfold rfs_of; by rewrite Ep).
  destruct (pending_fold_spec g (EventOps.prev s) pLab (ReadLabel.getRfs pLab) [] Hc Hwp Hpp) as (out & Eo & Hout).
  { intros w a. by rewrite Hrfs. }
  assert (Hcomp : forall r, r ∈ out <-> competes g (EventOps.prev s) r).
  { intros r. rewrite Hout. unfold competes. rewrite Hrfs. rewrite elem_of_nil. naive_solver. }
  destruct (getMinimumStampEvent_spec g out) as (x & Ex & Hx).
  { intros r Hrr. apply Hcomp in Hrr as (w & a & a' & _ & _ & _ & (l & El & _) & _).
    unfold stamp_of. rewrite El. by apply (Hst r). }
  exists x. split.
  - unfold getPendingRMW, getPreviousLabel. rewrite Hrmw, Hps. cbn [negb].
    destruct (Z.eqb_spec (index s) 0); [lia|]. unfold getEventLabel at 1. rewrite Ep.
    cbn [fmap outcome_fmap mbind outcome_bind]. rewrite Hk. cbn [negb].
    assert (ReadLabel.hasRf pLab = true) as ->
      by (unfold ReadLabel.hasRf; rewrite bool_decide_eq_false_2; [done|by rewrite <- Hrfs]).
    cbn [negb BUG_ON mbind outcome_bind]. rewrite Eo. done.
  - destruct Hx as [[-> ->]|[Hx Hmin]]; [left|right].
    + split; [done|]. intros r Hrr. apply Hcomp in Hrr. by apply elem_of_nil in Hrr.
    + split; [by apply Hcomp|]. intros r t t' Hrr. by apply Hmin, Hcomp.
Qed.

(** *** A checker for unmixed graphs *)

Lemma overlaps_sym a b : AccessOps.overlaps a b = AccessOps.overlaps b a.
Proof.
  unfold AccessOps.overlaps, SAddr.sameStorageAs. rewrite !Z.gtb_ltb.
  by rewrite (andb_comm (acc_addr b <? _)), Z.eqb_sym.
Qed.

Definition whole_partsb (g : Graph) : bool :=
  forallb (fun p => forallb (fun '(w, a) => bool_decide (a = MemAccessLabel.getAccess p.2) &&
    forallb (fun q => forallb (fun '(w', a') => negb (AccessOps.overlaps a a') ||
      (SAddr.align (acc_addr a) =? SAddr.align (acc_addr (MemAccessLabel.getAccess q.2))))
      (ReadLabel.getRfs q.2)) (entries g)) (ReadLabel.getRfs p.2)) (entries g).

Lemma whole_partsb_sound g : whole_partsb g = true -> word_parts g.
Proof.
  intros H. pose proof (entries_forall g (fun e l => forallb (fun '(w, a) => bool_decide (a = MemAccessLabel.getAccess l) &&
    forallb (fun q => forallb (fun '(w', a') => negb (AccessOps.overlaps a a') ||
      (SAddr.align (acc_addr a) =? SAddr.align (acc_addr (MemAccessLabel.getAccess q.2))))
      (ReadLabel.getRfs q.2)) (entries g)) (ReadLabel.getRfs l)) H) as Hg. clear H.
  assert (Ha : forall r w a, (w, a) ∈ rfs_of g r -> a = access_of g r /\
    forall r' w' a', (w', a') ∈ rfs_of g r' -> AccessOps.overlaps a a' = true -> bucket_of g r = bucket_of g r').
  { intros r w a. unfold rfs_of, bucket_of, access_of. destruct (label_at g r) as [l|] eqn:El; [|by intros ?%elem_of_nil].
    simpl. intros Hin. specialize (Hg r l El). simpl in Hg. rewrite forallb_forall in Hg.
    specialize (Hg (w, a) (proj1 (list_elem_of_In _ _) Hin)). simpl in Hg.
    rewrite andb_true_iff, bool_decide_eq_true in Hg. destruct Hg as [-> Hg]. split; [done|].
    intros r' w' a'. destruct (label_at g r') as [l'|] eqn:El'; [|by intros ?%elem_of_nil]. simpl. intros Hin' Ho.
    rewrite forallb_forall in Hg. specialize (Hg (r', l') (proj1 (list_elem_of_In _ _) (entries_complete _ _ _ El'))).
    simpl in Hg. rewrite forallb_forall in Hg. specialize (Hg (w', a') (proj1 (list_elem_of_In _ _) Hin')).
    simpl in Hg. rewrite Ho in Hg. simpl in Hg. by apply Z.eqb_eq. }
  split.
  - intros r w a Hin. destruct (Ha r w a Hin) as [-> _]. done.
  - intros r w a b Hin Ho. destruct (Ha r w a Hin) as [-> _]. by rewrite overlaps_sym.
  - intros r w a r' w' a' Hin Hin' Ho. destruct (Ha r w a Hin) as [_ H]. by apply (H r' w' a').
Qed.

(** Two increments of one location that read from the same store. *)
Definition rmw_sample : Graph :=
  let g := foldl add_or_keep (addNewThread empty) ([sample_store 1 10] ++ fai 0 2 ++ thread_start :: fai 1 1) in
  foldl (fun g r => match changeRf g r (pos 1) with Ret g' => g' | _ => g end) g [pos 2; mkEvent 1 1].

(** Property C23.  [getPendingRMW] of the store of a read-modify-write: the
    initializer when no other successful read-modify-write reads bytes that
    overlap with what its load reads from a common source; otherwise one that
    does, with the smallest stamp of all of them. *)
Theorem getPendingRMW_minimal g s sLab p :
  consistent g -> (forall e l, label_at g e = Some l -> is_Some (stamp l)) -> word_parts g ->
  label_at g s = Some sLab -> isRMWStore sLab = true -> p = EventOps.prev s -> 0 < index s ->
  is_read g p -> rfs_of g p <> [] ->
  exists x, getPendingRMW g sLab = Ret x /\
    ((x = EventOps.getInit /\ forall r, ~ competes g p r) \/
     (competes g p x /\ forall r t t', competes g p r -> stamp_of g x = Some t -> stamp_of g r = Some t' -> t <= t')).
Proof. intros. by eapply getPendingRMW_lemma. Qed.

(** Property C26.  [violatesAtomicity] holds of such a store exactly when another
    successful read-modify-write competes with its load. *)
Theorem violatesAtomicity_iff g s sLab p :
  consistent g -> (forall e l, label_at g e = Some l -> is_Some (stamp l)) -> word_parts g ->
  label_at g s = Some sLab -> isRMWStore sLab = true -> p = EventOps.prev s -> 0 < index s ->
  is_read g p -> rfs_of g p <> [] ->
  exists b, violatesAtomicity g sLab = Ret b /\ (b = true <-> exists r, competes g p r).
Proof.
  intros Hc Hst Hwp Es Hrmw Hp Hi Hr Hrf.
  destruct (getPendingRMW_lemma g s sLab p Hc Hst Hwp Es Hrmw Hp Hi Hr Hrf) as (x & E & Hx).
  unfold violatesAtomicity. rewrite Hrmw, E. cbn [negb mbind outcome_bind]. eexists. split; [done|].
  rewrite negb_true_iff. unfold EventOps.isInitializer. rewrite bool_decide_eq_false.
  destruct Hx as [[-> Hn]|[Hx _]]; [naive_solver|]. split; [eauto|]. intros _ ->.
  destruct Hx as (w & a & a' & _ & Ha & _). destruct (lb_init _ (c_labelled _ Hc)) as (il & Ei & Hk).
  unfold init_pos in Ei. unfold rfs_of in Ha. rewrite Ei in Ha. simpl in Ha.
  rewrite getRfs_other in Ha; [by apply elem_of_nil in Ha|by apply (lb_ok _ (c_labelled _ Hc) _ _ Ei)|by rewrite Hk].
Qed.

Lemma getPendingRMW_minimal_witness :
  exists sLab x, label_at rmw_sample (mkEvent 1 2) = Some sLab /\ getPendingRMW rmw_sample sLab = Ret x /\
    x = pos 2 /\ competes rmw_sample (mkEvent 1 1) x.
Proof.
  destruct (label_at rmw_sample (mkEvent 1 2)) as [sLab|] eqn:Es; [|vm_compute in Es; discriminate].
  assert (getPendingRMW rmw_sample sLab = Ret (pos 2)) as Ep
    by (vm_compute in Es; injection Es as <-; vm_compute; reflexivity).
  destruct (getPendingRMW_minimal rmw_sample (mkEvent 1 2) sLab (mkEvent 1 1)) as (x & E & Hx).
  - apply consistentb_sound. vm_compute. reflexivity.
  - apply ps_stamped, po_stampedb_sound. vm_compute. reflexivity.
  - apply whole_partsb_sound. vm_compute. reflexivity.
  - exact Es.
  - vm_compute in Es. injection Es as <-. reflexivity.
  - reflexivity.
  - reflexivity.
  - vm_compute. reflexivity.
  - vm_compute. discriminate.
  - exists sLab, x. rewrite Ep in E. injection E as <-. split; [done|]. split; [done|]. split; [done|].
    destruct Hx as [[Hx _]|[Hx _]]; [discriminate Hx|exact Hx].
Defined.

Lemma violatesAtomicity_iff_witness :
  exists sLab b, label_at rmw_sample (mkEvent 1 2) = Some sLab /\ violatesAtomicity rmw_sample sLab = Ret b /\
    (b = true <-> exists r, competes rmw_sample (mkEvent 1 1) r).
Proof.
  destruct (label_at rmw_sample (mkEvent 1 2)) as [sLab|] eqn:Es; [|vm_compute in Es; discriminate].
  destruct (violatesAtomicity_iff rmw_sample (mkEvent 1 2) sLab (mkEvent 1 1)) as (b & E & Hb).
  - apply consistentb_sound. vm_compute. reflexivity.
  - apply ps_stamped, po_stampedb_sound. vm_compute. reflexivity.
  - apply whole_partsb_sound. vm_compute. reflexivity.
  - exact Es.
  - vm_compute in Es. injection Es as <-. reflexivity.
  - reflexivity.
  - reflexivity.
  - vm_compute. reflexivity.
  - vm_compute. discriminate.
  - exists sLab, b. split; [done|]. by split.
Defined.

End Rmw.
