(* ===== verification/DepGraph.v ===== *)
(** * Dependency-tracking graphs and the tracker of dependencies
    (src/src/DepExecutionGraph.hpp, DepExecutionGraph.cpp, DepTracker.hpp).

    The overrides of the methods of ExecutionGraph.v for graphs whose prefixes have
    holes.  A register is a number; the maps of the tracker have an empty entry
    where nothing was inserted. *)
From S2P Require Import Prelude Event SVal SAddr VSet Deps Views Labels LabelClasses Graph GraphBase GraphCut.
#[local] Open Scope Z_scope.

Module DepGraph.
Import ExecutionGraph Lookup.

Definition make : outcome Graph :=
  g ← ExecutionGraph.make;
  Ret (alter_label (EventLabel.setPrefixView (CDep DepView.make)) init_pos g).

(** The positions the loops [for (i < getNumThreads()) for (j = 1; ..)] visit. *)
Definition later_positions (g : Graph) : list Event := List.filter (fun e => 1 <=? index e) (positions g).

Definition getRevisitable {C} `{VectorClock C} (g : Graph) (sLab : Label) (pporf : C) : outcome (list Event) :=
  pendingRMW ← getPendingRMW g sLab;
  drop_after_pending g pendingRMW
    (List.filter (fun e => negb (EventLabel.getThread sLab =? thread e) && negb (vc_contains pporf e)
                           && label_sat g (is_revisit_candidate sLab) e) (later_positions g)).

Definition view_step (g : Graph) (stamp : Z) (preds : DepViewT) (e : Event) : outcome DepViewT :=
  lab ← getEventLabel g e;
  s ← EventLabel.getStamp lab;
  if s <=? stamp then DepView.setMax preds e else Ret preds.
Definition getViewFromStamp (g : Graph) (stamp : Z) : outcome DepViewT :=
  mfold (view_step g stamp) (later_positions g) DepView.make.

(** Labels the view skips are replaced at the end. *)
Definition cut_step (preds : DepViewT) (g : Graph) (e : Event) : outcome Graph :=
  if negb (vc_contains preds e) then Ret g else ExecutionGraph.cut_step preds g e.
Definition fill_hole (preds : DepViewT) (g : Graph) (e : Event) : outcome Graph :=
  if vc_contains preds e then Ret g
  else
    let '(s, g) := nextStamp g in
    _ ← getEventLabel g e;
    Ret (alter_label (fun _ => EventLabel.setStamp s (createHoleLabel e)) e g).
Definition cutToStamp (g : Graph) (stamp : Z) : outcome Graph :=
  preds ← getViewFromStamp g stamp;
  g ← removeAfter g preds;
  g ← mfold (cut_step preds) (visited preds 1) g;
  es ← restrict_threads preds 0 (events g);
  let g := set_events es g in
  mfold (fill_hole preds) (positions g) g.

Definition getCopyUpTo {C} `{VectorClock C} (g : Graph) (v : C) : outcome Graph :=
  og ← make; copyGraphUpTo g og v.
End DepGraph.

(** ** [DepTracker] *)
Module DepTracker.
Record DepTracker := mkTracker {
  dataDeps : gmap (Z * Z) DepInfo.t;
  addrPoDeps : gmap Z DepInfo.t;
  ctrlDeps : gmap Z DepInfo.t }.
Definition make : DepTracker := mkTracker ∅ ∅ ∅.
Definition getDataDeps (d : DepTracker) (tid i : Z) : DepInfo.t := default DepInfo.make (dataDeps d !! (tid, i)).
Definition getAddrPoDeps (d : DepTracker) (tid : Z) : DepInfo.t := default DepInfo.make (addrPoDeps d !! tid).
Definition getCtrlDeps (d : DepTracker) (tid : Z) : DepInfo.t := default DepInfo.make (ctrlDeps d !! tid).
(** The overload for a set of dependencies; the one for a register reads its set. *)
Definition updateDataDeps (d : DepTracker) (tid dst : Z) (e : DepInfo.t) : outcome DepTracker :=
  s ← DepInfo.update (getDataDeps d tid dst) e;
  Ret (mkTracker (<[(tid, dst) := s]> (dataDeps d)) (addrPoDeps d) (ctrlDeps d)).
Definition updateDataDepsFrom (d : DepTracker) (tid dst src : Z) : outcome DepTracker :=
  updateDataDeps d tid dst (getDataDeps d tid src).
Definition updateAddrPoDeps (d : DepTracker) (tid src : Z) : outcome DepTracker :=
  s ← DepInfo.update (getAddrPoDeps d tid) (getDataDeps d tid src);
  Ret (mkTracker (dataDeps d) (<[tid := s]> (addrPoDeps d)) (ctrlDeps d)).
Definition updateCtrlDeps (d : DepTracker) (tid src : Z) : outcome DepTracker :=
  s ← DepInfo.update (getCtrlDeps d tid) (getDataDeps d tid src);
  Ret (mkTracker (dataDeps d) (addrPoDeps d) (<[tid := s]> (ctrlDeps d))).
Definition clearDeps (d : DepTracker) (tid : Z) : DepTracker :=
  mkTracker (filter (fun kv => fst (fst kv) <> tid) (dataDeps d))
    (<[tid := DepInfo.clear (getAddrPoDeps d tid)]> (addrPoDeps d))
    (<[tid := DepInfo.clear (getCtrlDeps d tid)]> (ctrlDeps d)).

(** Clearing a thread forgets its dependencies and no others. *)
Lemma clearDeps_clears d tid t i :
  getDataDeps (clearDeps d tid) t i = (if decide (t = tid) then DepInfo.make else getDataDeps d t i) /\
  getAddrPoDeps (clearDeps d tid) t = (if decide (t = tid) then DepInfo.make else getAddrPoDeps d t) /\
  getCtrlDeps (clearDeps d tid) t = (if decide (t = tid) then DepInfo.make else getCtrlDeps d t).
Proof.
  unfold getDataDeps, getAddrPoDeps, getCtrlDeps, clearDeps. cbn. case_decide as Ht.
  - subst. rewrite !lookup_insert_eq, map_lookup_filter_None_2; [done|]. right. intros s _. cbn. tauto.
  - rewrite !lookup_insert_ne by done. split; [|done]. f_equal.
    destruct (dataDeps d !! (t, i)) as [s|] eqn:E.
    + by apply map_lookup_filter_Some_2.
    + apply map_lookup_filter_None_2. by left.
Qed.
End DepTracker.

(** ** The view of a stamp is exact, whatever the order of stamps *)
Module DepGraphFacts.
Import ExecutionGraph Lookup StampView DepGraph.

Definition later (e e' : Event) : Prop := thread e = thread e' -> index e < index e'.
Lemma row_sorted i (thr : list Label) k :
  StronglySorted later (imap (fun j (_ : Label) => mkEvent i (Z.of_nat (k + j))) thr) /\
  Forall (fun e => thread e = i /\ Z.of_nat k <= index e) (imap (fun j (_ : Label) => mkEvent i (Z.of_nat (k + j))) thr).
Proof.
  revert k. induction thr as [|l thr IH]; intros k; [repeat constructor|].
  cbn [imap]. destruct (IH (S k)) as [Hs Hf].
  assert (imap ((fun j (_ : Label) => mkEvent i (Z.of_nat (k + j))) ∘ S) thr =
          imap (fun j (_ : Label) => mkEvent i (Z.of_nat (S k + j))) thr) as ->.
  { apply imap_ext. intros j x _. cbn. f_equal. lia. }
  split; constructor; cbn; try (split; [done|lia]); [done| |].
  - eapply Forall_impl; [exact Hf|]. intros e [Ht He] _. cbn. lia.
  - eapply Forall_impl; [exact Hf|]. cbn. intros e [Ht He]. split; [done|lia].
Qed.
Lemma rows_sorted (thrs : list (list Label)) k :
  let rows := concat (imap (fun i thr => imap (fun j (_ : Label) => mkEvent (Z.of_nat (k + i)) (Z.of_nat j)) thr) thrs) in
  StronglySorted later rows /\ Forall (fun e => Z.of_nat k <= thread e) rows.
Proof.
  revert k. induction thrs as [|thr thrs IH]; intros k; [by repeat constructor|].
  cbn [imap concat]. destruct (IH (S k)) as [Hs Hf].
  assert (imap ((fun i thr => imap (fun j (_ : Label) => mkEvent (Z.of_nat (k + i)) (Z.of_nat j)) thr) ∘ S) thrs =
          imap (fun i thr => imap (fun j (_ : Label) => mkEvent (Z.of_nat (S k + i)) (Z.of_nat j)) thr) thrs) as ->.
  { apply imap_ext. intros j x _. cbn. apply imap_ext. intros j' y _. f_equal. lia. }
  rewrite Nat.add_0_r. destruct (row_sorted (Z.of_nat k) thr 0) as [Hr Ht]. cbn [Nat.add] in *. split.
  - revert Hr Ht. generalize (imap (fun j (_ : Label) => mkEvent (Z.of_nat k) (Z.of_nat j)) thr).
    induction l as [|e l IHl]; intros Hr Ht; [done|]. inversion Hr; subst. inversion Ht; subst.
    cbn. constructor; [by apply IHl|]. apply Forall_app. split; [done|].
    eapply Forall_impl; [exact Hf|]. cbn. intros e' He' E. lia.
  - apply Forall_app. split; (eapply Forall_impl; [eassumption|]); cbn; [intros e [-> _]; lia|intros e He; lia].
Qed.
Lemma positions_sorted g : StronglySorted later (positions g).
Proof. apply (rows_sorted (events g) 0). Qed.
Lemma positions_iff g e : e ∈ positions g <-> is_Some (label_at g e).
Proof.
  unfold positions. rewrite list_elem_of_In, in_concat. split.
  - intros (row & Hrow & He). apply list_elem_of_In, elem_of_lookup_imap in Hrow as (i & thr & -> & Hi).
    apply list_elem_of_In, elem_of_lookup_imap in He as (j & l & -> & Hj). exists l.
    rewrite label_at_lookup by (split; cbn; lia). cbn. rewrite !Nat2Z.id, Hi. exact Hj.
  - intros [l Hl]. pose proof (label_at_valid _ _ _ Hl) as [Ht Hi]. rewrite label_at_lookup in Hl by done.
    destruct (events g !! Z.to_nat (thread e)) as [thr|] eqn:E; [|done]. cbn in Hl.
    exists (imap (fun j _ => mkEvent (Z.of_nat (Z.to_nat (thread e))) (Z.of_nat j)) thr). split.
    + apply list_elem_of_In, elem_of_lookup_imap. eauto.
    + apply list_elem_of_In, elem_of_lookup_imap. exists (Z.to_nat (index e)), l. split; [|done].
      rewrite !Z2Nat.id by done. by destruct e.
Qed.

Lemma make_max t : DepView.getMax DepView.make t = 0.
Proof.
  unfold DepView.getMax, View.getMax.
  case_match; [|done]. cbn. by destruct (Z.to_nat t).
Qed.
Definition small (g : Graph) (st : Z) (e : Event) : Prop := exists s, stamp_of g e = Some s /\ s <= st.
Lemma dep_view_loop g st es : forall d,
  DepView.ok d -> StronglySorted later es -> (forall e, e ∈ es -> valid e /\ is_Some (stamp_of g e)) ->
  (forall e e', valid e -> DepView.contains d e = true -> e' ∈ es -> 1 <= index e -> later e e') ->
  (forall e, e ∈ es -> 1 <= index e) ->
  exists d', mfold (view_step g st) es d = Ret d' /\ DepView.ok d' /\
    forall e, valid e -> DepView.contains d' e = true <-> DepView.contains d e = true \/ (e ∈ es /\ small g st e).
Proof.
  induction es as [|e es IH]; intros d Hd Hs He Hl H1; cbn [mfold].
  { exists d. split; [done|]. split; [done|]. intros e _. rewrite elem_of_nil. tauto. }
  apply StronglySorted_inv in Hs as [Hs Hf]. destruct (He e) as [Hv [s Es]]; [by left|].
  pose proof Es as Es'. unfold stamp_of in Es'. destruct (label_at g e) as [l|] eqn:El; [|done]. cbn in Es'.
  assert (view_step g st d e = if s <=? st then DepView.setMax d e else Ret d) as ->.
  { unfold view_step, getEventLabel, EventLabel.getStamp. rewrite El. cbn. by rewrite Es'. }
  assert (Hnew : forall e', e' ∈ es -> later e e').
  { intros e' He'. by apply (proj1 (Forall_forall _ _) Hf). }
  destruct (Z.leb_spec s st) as [Hle|Hgt].
  - destruct (DepView.setMax_spec d e Hd Hv) as (d1 & -> & Hd1 & _ & Hc). cbn [mbind outcome_bind].
    assert (Hc1 : forall e', valid e' -> DepView.contains d1 e' = true <-> DepView.contains d e' = true \/ e' = e).
    { intros e' Hv'. rewrite Hc by done. split; [tauto|]. intros H. split; [done|]. intros Ht.
      destruct H as [H| ->]; [|done]. destruct (Z.le_gt_cases 1 (index e')) as [Hi|Hi].
      - pose proof (Hl e' e Hv' H ltac:(by left) Hi Ht). lia.
      - pose proof (H1 e ltac:(by left)). lia. }
    destruct (IH d1 Hd1 Hs) as (d' & -> & Hd' & Hc').
    + intros x Hx. apply He. by right.
    + intros x x' Hx Hcx Hx' Hi. apply Hc1 in Hcx as [Hcx| ->]; [|by apply Hnew|done].
      apply Hl; try done. by right.
    + intros x Hx. apply H1. by right.
    + exists d'. split; [done|]. split; [done|]. intros x Hx. rewrite Hc', Hc1, elem_of_cons by done.
      split; [|naive_solver]. intros [[?| ->]|[??]]; [tauto| |tauto]. right. split; [by left|]. by exists s.
  - cbn [mbind outcome_bind]. destruct (IH d Hd Hs) as (d' & -> & Hd' & Hc').
    + intros x Hx. apply He. by right.
    + intros x x' Hx Hcx Hx' Hi. apply Hl; try done. by right.
    + intros x Hx. apply H1. by right.
    + exists d'. split; [done|]. split; [done|]. intros x Hx. rewrite Hc', elem_of_cons by done.
      split; [tauto|]. intros [?|[[->|?] Hsm]]; [tauto| |tauto]. destruct Hsm as (s' & E' & Hle).
      rewrite Es in E'. injection E' as <-. lia.
Qed.

(** Property C39. The view of a stamp contains, besides the first position of every thread, exactly
    the labels whose stamp is at most the given one: stamps need not grow along a
    thread, as they must for a plain view. *)
Theorem dep_view_exact g st :
  (forall e l, label_at g e = Some l -> is_Some (stamp l)) ->
  exists v, getViewFromStamp g st = Ret v /\ DepView.ok v /\
    forall e s, stamp_of g e = Some s -> DepView.contains v e = true <-> index e = 0 \/ s <= st.
Proof.
  intros Hst.
  assert (Hin : forall e, e ∈ later_positions g <-> 1 <= index e /\ is_Some (label_at g e)).
  { intros e. unfold later_positions. rewrite list_elem_of_In, filter_In, <- list_elem_of_In, positions_iff, Z.leb_le. tauto. }
  assert (Hstamp : forall e, is_Some (label_at g e) -> is_Some (stamp_of g e)).
  { intros e [l El]. unfold stamp_of. rewrite El. by apply (Hst e). }
  destruct (dep_view_loop g st (later_positions g) DepView.make DepView.dv_ok_make) as (v & E & Hv & Hc).
  - unfold later_positions. pose proof (positions_sorted g) as Hs. induction Hs as [|x l Hs IH Hf]; [constructor|].
    cbn. destruct (1 <=? index x); [|done]. constructor; [done|].
    apply Forall_forall. intros y Hy. apply list_elem_of_In, filter_In in Hy as [Hy _].
    by apply (proj1 (Forall_forall _ _) Hf), list_elem_of_In.
  - intros e He. apply Hin in He as [_ He]. split; [|by apply Hstamp]. destruct He as [l El]. by eapply label_at_valid.
  - intros e e' Hve Hce _ Hi. apply DepView.dv_contains_spec in Hce; [|apply DepView.dv_ok_make|done].
    rewrite make_max in Hce. destruct Hce as [|[? _]]; lia.
  - intros e He. by apply Hin in He as [? _].
  - exists v. split; [done|]. split; [done|]. intros e s Es.
    assert (is_Some (label_at g e)) as [l El].
    { unfold stamp_of in Es. destruct (label_at g e); [by eexists|done]. }
    pose proof (label_at_valid _ _ _ El) as Hve. rewrite Hc by done. rewrite Hin.
    assert (small g st e <-> s <= st) as ->.
    { unfold small. rewrite Es. split; [intros (s' & [= ->] & ?); done|intros ?; by exists s]. }
    rewrite DepView.dv_contains_spec by (apply DepView.dv_ok_make || done).
    assert (is_Some (label_at g e)) by (by eexists). destruct Hve as [Ht Hi].
    rewrite make_max. split; [intros [[?|[? _]]|[_ ?]]; lia|]. intros [H0|H0]; [tauto|].
    destruct (Z.eq_dec (index e) 0); [tauto|]. right. split; [|done]. split; [lia|done].
Qed.

(** A cut through a thread whose second event was added after its third: the label
    that goes leaves a hole with a new stamp. *)
Definition fence (i s : Z) : Label := EventLabel.setStamp s (Make.FenceLabel (mkEvent 0 i) AcquireRelease DepInfo.no_deps).
Definition fences : outcome Graph :=
  g ← make; mfold addLabelToGraph [fence 1 1; fence 2 7; fence 3 2; fence 4 8] (set_timestamp 9 g).
(** The view of stamp 2 has the first and the third fence, and not the second. *)
Lemma dep_view_exact_witness :
  exists g v, fences = Ret g /\ getViewFromStamp g 2 = Ret v /\ DepView.contains v (mkEvent 0 1) = true /\
    DepView.contains v (mkEvent 0 3) = true /\ DepView.contains v (mkEvent 0 2) <> true.
Proof.
  destruct fences as [g| |] eqn:Eg; [|vm_compute in Eg; discriminate Eg..].
  destruct (dep_view_exact g 2) as (v & E & _ & Hv).
  - vm_compute in Eg. injection Eg as <-. intros e l Hl.
    assert (forall ls, forallb (fun l => bool_decide (is_Some (stamp l))) ls = true -> forall l, l ∈ ls -> is_Some (stamp l)) as Hall.
    { intros ls Hb x Hx. rewrite forallb_forall in Hb. apply list_elem_of_In, Hb, bool_decide_eq_true in Hx. exact Hx. }
    eapply Hall; [|apply labels_iff; exists e; exact Hl]. vm_compute. reflexivity.
  - exists g, v. split; [reflexivity|]. split; [exact E|].
    split; [apply (Hv _ 1)|split; [apply (Hv _ 2)|rewrite (Hv _ 7)]];
      try (vm_compute in Eg; injection Eg as <-; vm_compute; reflexivity); [right; lia..|simpl; lia].
Defined.
Example cut_leaves_hole :
  (g ← fences; g ← cutToStamp g 2; Ret (map (fun l => (kind l, stamp l)) (labels g))) =
  Ret [(EL_Init, Some 0); (EL_Fence, Some 1); (EL_Empty, Some 9); (EL_Fence, Some 2)].
Proof. vm_compute. reflexivity. Qed.
End DepGraphFacts.
