(* ===== verification/Iterators.v ===== *)
(** * Navigation in a graph (src/src/GraphIterators.hpp): the predecessors and
    successors of a label along each relation.

    A function that returns a pointer returns the label behind it, or [None]
    for the null pointer; one that returns a range returns the labels of the
    range in order. *)
From S2P Require Import Prelude Event SVal SAddr VSet Deps Views Labels LabelClasses Graph.

(** The getters of the labels that carry these edges (EventLabel.hpp). *)
Module EdgeLabels.
Definition getParentCreate (l : Label) : Event :=
  match payload l with PThreadStart p _ _ => p | _ => EventOps.getInit end.
Definition create_getChildId (l : Label) : Z :=
  match payload l with PThreadCreate i => ti_id i | _ => 0 end.
Definition join_getChildId (l : Label) : Z :=
  match payload l with PThreadJoin c => c | _ => 0 end.
Definition clflush_getAddr (l : Label) : Z := match payload l with PCLFlush a => a | _ => 0 end.
Definition getHpAddr (l : Label) : Z := match payload l with PHpProtect a _ => a | _ => 0 end.
Definition getProtectedAddr (l : Label) : Z := match payload l with PHpProtect _ a => a | _ => 0 end.
End EdgeLabels.

Module GraphIterators.
Import ExecutionGraph EdgeLabels.

(** The label a pointer points to. *)
Definition deref (g : Graph) (p : option Event) : outcome (option Label) :=
  match p with Some e => Some <$> getEventLabel g e | None => Ret None end.
Fixpoint deref_all (g : Graph) (es : list Event) : outcome (list Label) :=
  match es with
  | [] => Ret []
  | e :: es => l ← getEventLabel g e; ls ← deref_all g es; Ret (l :: ls)
  end.

(** ** po *)

(** [po_succs] and [po_preds]: the labels after, and (last first) before. *)
Definition po_succs (g : Graph) (e : Event) : list Label :=
  drop (Z.to_nat (index e + 1)) (thread_labels g (thread e)).
Definition po_preds (g : Graph) (e : Event) : list Label :=
  rev (take (Z.to_nat (index e)) (thread_labels g (thread e))).
Definition po_imm_succ (g : Graph) (lab : Label) : outcome (option Label) := getNextLabel g (getPos lab).
Definition po_imm_pred (g : Graph) (lab : Label) : outcome (option Label) := getPreviousLabel g (getPos lab).

(** ** po-loc *)

Definition hasLocation (l : Label) : bool := Isa.MemAccessLabel (kind l) || Isa.CLFlushLabel (kind l).
Definition getLocation (l : Label) : Z :=
  if Isa.MemAccessLabel (kind l) then MemAccessLabel.getAddr l
  else if Isa.CLFlushLabel (kind l) then clflush_getAddr l else 0.
Definition LocationFilter (addr : Z) (l : Label) : bool :=
  Isa.MemAccessLabel (kind l) && (MemAccessLabel.getAddr l =? addr).
Definition poloc_succs (g : Graph) (lab : Label) : list Label :=
  if hasLocation lab then List.filter (LocationFilter (getLocation lab)) (po_succs g (getPos lab)) else [].
Definition poloc_preds (g : Graph) (lab : Label) : list Label :=
  if hasLocation lab then List.filter (LocationFilter (getLocation lab)) (po_preds g (getPos lab)) else [].
Definition poloc_imm_succs (g : Graph) (lab : Label) : list Label := take 1 (poloc_succs g lab).
Definition poloc_imm_preds (g : Graph) (lab : Label) : list Label := take 1 (poloc_preds g lab).

(** ** rf *)

Definition rf_succs (g : Graph) (lab : Label) : outcome (list Label) :=
  if Isa.WriteLabel (kind lab) then deref_all g (WriteLabel.readers lab) else Ret [].
Definition rf_pred (g : Graph) (lab : Label) : outcome (option Label) :=
  if negb (Isa.ReadLabel (kind lab)) || negb (ReadLabel.hasRf lab) then Ret None
  else deref g (ReadLabel.getRf lab).
Definition rfe_pred (g : Graph) (lab : Label) : outcome (option Label) :=
  if Isa.ReadLabel (kind lab) && ReadLabel.readsExt lab then deref g (ReadLabel.getRf lab) else Ret None.
Definition rfi_pred (g : Graph) (lab : Label) : outcome (option Label) :=
  if Isa.ReadLabel (kind lab) && ReadLabel.readsInt lab then deref g (ReadLabel.getRf lab) else Ret None.

(** ** Thread creation and joins *)

Definition dyn_cast (cls : EventLabelKind -> bool) (l : Label) : option Label :=
  if cls (kind l) then Some l else None.
Definition tc_succ (g : Graph) (lab : Label) : outcome (option Label) :=
  if Isa.ThreadCreateLabel (kind lab)
  then dyn_cast Isa.ThreadStartLabel <$> getEventLabel g (getFirstThreadEvent (create_getChildId lab))
  else Ret None.
Definition tc_pred (g : Graph) (lab : Label) : outcome (option Label) :=
  if Isa.ThreadStartLabel (kind lab)
  then dyn_cast Isa.ThreadCreateLabel <$> getEventLabel g (getParentCreate lab)
  else Ret None.
Definition tj_succ (g : Graph) (lab : Label) : outcome (option Label) :=
  if Isa.ThreadFinishLabel (kind lab) then deref g (ThreadFinishLabel.getParentJoin lab) else Ret None.
Definition tj_pred (g : Graph) (lab : Label) : outcome (option Label) :=
  if Isa.ThreadJoinLabel (kind lab)
  then dyn_cast Isa.ThreadFinishLabel <$> getLastThreadLabel g (join_getChildId lab)
  else Ret None.

(** ** co and fr *)

Definition co_succs_of (g : Graph) (lab : Label) : outcome (list Event) :=
  if Isa.WriteLabel (kind lab) then co_succs g (getPos lab) (MemAccessLabel.getAccess lab) else Ret [].
Definition co_preds_of (g : Graph) (lab : Label) : outcome (list Event) :=
  if Isa.WriteLabel (kind lab) then co_preds g (getPos lab) (MemAccessLabel.getAccess lab) else Ret [].
Definition co_imm_succ_of (g : Graph) (lab : Label) : outcome (option Event) :=
  if Isa.WriteLabel (kind lab) then co_imm_succ g (getPos lab) else Ret None.
Definition co_imm_pred_of (g : Graph) (lab : Label) : outcome (option Event) :=
  if Isa.WriteLabel (kind lab) then co_imm_pred g (getPos lab) else Ret None.
Definition fr_succs_of (g : Graph) (lab : Label) : outcome (list Event) :=
  if Isa.ReadLabel (kind lab) then fr_succs g lab else Ret [].
Definition fr_imm_succ_of (g : Graph) (lab : Label) : outcome (option Event) :=
  if Isa.ReadLabel (kind lab) then fr_imm_succ g lab else Ret None.
Definition fr_imm_preds_of (g : Graph) (lab : Label) : outcome (list Event) :=
  if Isa.WriteLabel (kind lab) then fr_imm_preds g lab else Ret [].

(** ** Same location *)

Definition IDAndLocFilter (addr : Z) (pos : Event) (l : Label) : bool :=
  if Isa.MemAccessLabel (kind l) then negb (bool_decide (getPos l = pos)) && (MemAccessLabel.getAddr l =? addr)
  else if Isa.MallocLabel (kind l) then negb (bool_decide (getPos l = pos)) && MallocLabel.contains l addr
  else if Isa.FreeLabel (kind l) then negb (bool_decide (getPos l = pos)) && FreeLabel.contains l addr
  else false.
Definition samelocs (g : Graph) (lab : Label) : list Label :=
  if hasLocation lab then List.filter (IDAndLocFilter (getLocation lab) (getPos lab)) (labels g) else [].

(** ** Allocations *)

Definition alloc_succs (g : Graph) (lab : Label) : outcome (list Label) :=
  if Isa.MallocLabel (kind lab) then deref_all g (MallocLabel.accesses lab) else Ret [].
Definition alloc_pred (g : Graph) (lab : Label) : outcome (option Label) :=
  if Isa.MemAccessLabel (kind lab) then deref g (MemAccessLabel.getAlloc lab) else Ret None.
Definition free_succ (g : Graph) (lab : Label) : outcome (option Label) :=
  if Isa.MallocLabel (kind lab) then deref g (MallocLabel.getFree lab) else Ret None.
Definition free_pred (g : Graph) (lab : Label) : outcome (option Label) :=
  if Isa.FreeLabel (kind lab) then deref g (FreeLabel.getAlloc lab) else Ret None.

End GraphIterators.
