(* ===== verification/Bounds.v ===== *)
(** * Bounding the exploration (src/src/BoundDecider.hpp, ContextBoundDecider.cpp,
    RoundBoundDecider.cpp): is a graph the graph of a run with at most so many
    context switches, or rounds of a round-robin scheduler?

    A view is the set of events scheduled so far (or still to be taken back).
    The recursions go down with the view; their fuel is the number of events of
    the view. *)
From S2P Require Import Prelude Event SVal SAddr VSet Deps Views Labels LabelClasses Graph Iterators.
#[local] Open Scope Z_scope.

Inductive BoundType := context | round.
Inductive BoundCalculationStrategy := Slacked | NonSlacked.

Module Bounds.
Import ExecutionGraph GraphIterators.

(** A dereferenced pointer. *)
Definition some {A} (p : outcome (option A)) : outcome A :=
  o ← p; match o with Some a => Ret a | None => Undef end.
Fixpoint first_in (v : View.t) (es : list Event) : option Event :=
  match es with [] => None | e :: es => if View.contains v e then Some e else first_in v es end.

(** ** Context switches *)

Definition canBlock (g : Graph) (s : View.t) (t : Z) : outcome bool :=
  n ← getNextLabel g (mkEvent t (View.getMax s t));
  Ret (match n with
       | None => false
       | Some nLab => Isa.ThreadJoinLabel (kind nLab) || Isa.LockCasReadLabel (kind nLab)
                      || Isa.BWaitReadLabel (kind nLab)
       end).

Definition isEnabled (g : Graph) (v : View.t) (t : Z) : outcome bool :=
  let last_ := mkEvent t (View.getMax v t) in
  llab ← getEventLabel g last_;
  if EventLabel.isTerminator llab then Ret false
  else
    n ← getNextLabel g last_;
    match n with
    | None => Ret false
    | Some nLab =>
        let access := MemAccessLabel.getAccess nLab in
        if Isa.ThreadJoinLabel (kind nLab) then
          p ← some (tj_pred g nLab); Ret (View.contains v (getPos p))
        else if Isa.LockCasReadLabel (kind nLab) then
          c ← co g access;
          match first_in v (rev c) with
          | None => rs ← init_rfs g access; Ret (forallb (fun e => negb (View.contains v e)) rs)
          | Some w =>
              sLab ← getEventLabel g w;
              Ret (Isa.UnlockWriteLabel (kind sLab) &&
                   forallb (fun e => negb (View.contains v (EventOps.next e))) (WriteLabel.readers sLab))
          end
        else if Isa.BWaitReadLabel (kind nLab) then
          c ← co g access;
          match head c, first_in v (rev c) with
          | Some i, Some w =>
              iwLab ← getEventLabel g i; wLab ← getEventLabel g w;
              Ret (WriteLabel.getVal iwLab =? WriteLabel.getVal wLab)
          | _, _ => Undef
          end
        else Ret true
    end.

(** [co_begin(access)] or [co_imm_succ(wLab)]: the first store after the one [wLab]
    points to. *)
Definition first_after (g : Graph) (access : AAccess) (wLab : option Event) : outcome (option Event) :=
  match wLab with
  | None => Undef
  | Some w =>
      l ← getEventLabel g w;
      if Isa.InitLabel (kind l) then head <$> co g access
      else if Isa.WriteLabel (kind l) then co_imm_succ g w else Undef
  end.
Definition isSCMaximal (g : Graph) (v : View.t) (t : Z) : outcome bool :=
  lab ← getEventLabel g (mkEvent t (View.getMax v t));
  if Isa.ThreadFinishLabel (kind lab) then
    tjLab ← tj_succ g lab;
    Ret (match tjLab with None => true | Some j => negb (View.contains v (getPos j)) end)
  else if Isa.ThreadCreateLabel (kind lab) then
    Ret (View.getMax v (EdgeLabels.create_getChildId lab) =? 0)
  else if negb (Isa.MemAccessLabel (kind lab)) then Ret true
  else if Isa.WriteLabel (kind lab) && existsb (View.contains v) (WriteLabel.readers lab) then Ret false
  else
    let wLab := if Isa.WriteLabel (kind lab) then Some (getPos lab) else ReadLabel.getRf lab in
    let access := MemAccessLabel.getAccess lab in
    b ← isLocEmpty g access;
    if b : bool then Ret true
    else
      succLab ← first_after g access wLab;
      Ret (match succLab with None => true | Some s => negb (View.contains v s) end).

Definition shrinkViewByOne (v : View.t) (t : Z) : View.t :=
  View.setMax v (EventOps.prev (mkEvent t (View.getMax v t))).

(** The condition of the loop of [unfoldPrefix]. *)
Definition unfolds (g : Graph) (v : View.t) (t : Z) : outcome bool :=
  if View.getMax v t =? 0 then Ret false
  else
    b ← isSCMaximal g v t;
    if b : bool then negb <$> canBlock g v t else Ret false.
Fixpoint unfold_loop (fuel : nat) (g : Graph) (v : View.t) (t : Z) : outcome View.t :=
  b ← unfolds g v t;
  match b, fuel with
  | false, _ => Ret v
  | true, O => Undef
  | true, S fuel => unfold_loop fuel g (shrinkViewByOne v t) t
  end.
Definition unfoldPrefix (g : Graph) (v : View.t) (t : Z) : outcome View.t :=
  unfold_loop (Z.to_nat (View.getMax v t)) g v t.

Definition view_empty (v : View.t) : bool := forallb (fun m => m =? 0) v.
(** The threads a loop over all threads does not skip: those whose last event
    can be taken back. *)
Definition candidate (g : Graph) (v : View.t) (tp : Z) : outcome bool :=
  if View.getMax v tp =? 0 then Ret false else isSCMaximal g v tp.
Definition all_threads (g : Graph) : list Z := seqZ 0 (getNumThreads g).

(** The loop over the threads [tps]; [exists_] is whether one was not skipped. *)
Fixpoint any_candidate (g : Graph) (v : View.t) (f : Z -> outcome bool) (exists_ : bool) (tps : list Z) :
    outcome bool :=
  match tps with
  | [] => _ ← BUG_ON (negb exists_); Ret false
  | tp :: tps =>
      c ← candidate g v tp;
      if c : bool then
        r ← f tp;
        if r : bool then Ret true else any_candidate g v f true tps
      else any_candidate g v f exists_ tps
  end.

(** Despite its name: is the prefix within the bound?  [bound] is unsigned. *)
Fixpoint doesPrefixExceedBound (fuel : nat) (g : Graph) (v : View.t) (t bound : Z) : outcome bool :=
  match fuel with
  | O => Undef
  | S fuel =>
      v ← unfoldPrefix g v t;
      if view_empty v then Ret true
      else
        any_candidate g v (fun tp =>
          let sp := shrinkViewByOne v tp in
          en ← (if tp =? t then Ret false else isEnabled g v tp);
          if en : bool then
            if bound =? 0 then Ret false else doesPrefixExceedBound fuel g sp tp (bound - 1)
          else doesPrefixExceedBound fuel g sp tp bound) false (all_threads g)
  end.

(** The number of events a view has: enough fuel for the recursions. *)
Definition view_total (v : View.t) : Z := foldr Z.add 0 v.
Definition bound_fuel (v : View.t) : nat := S (Z.to_nat (view_total v)).

(** [getViewFromStamp(getMaxStamp())] *)
Definition full_view (g : Graph) : outcome View.t := getViewFromStamp g (timestamp g).

Definition context_exceeds (g : Graph) (bound : Z) : outcome bool :=
  v ← full_view g;
  b ← any_candidate g v (fun i => doesPrefixExceedBound (bound_fuel v) g (shrinkViewByOne v i) i bound)
        false (all_threads g);
  Ret (negb b).

(** Threads of more than their first label, and threads with an unstable label. *)
Definition getSlack_context (g : Graph) : Z :=
  let nonEmptyThreads := Z.of_nat (length (List.filter (fun t : list Label => (1 <? length t)%nat) (events g))) in
  let unstableThreads :=
    Z.of_nat (length (List.filter (existsb (fun lab => negb (isStable lab))) (events g))) in
  Z.min (Z.max 0 (unstableThreads - 1)) (Z.max 0 (nonEmptyThreads - 2)).

(** [calculate()] (of the debug build): the number of context switches.  The loop
    keeps the minimum. *)
Definition opt_min (res : option Z) (b : Z) : option Z := Some (match res with Some r => Z.min r b | None => b end).
Fixpoint min_candidate (g : Graph) (v : View.t) (f : Z -> outcome Z) (res : option Z) (tps : list Z) : outcome Z :=
  match tps with
  | [] => match res with Some r => Ret r | None => Undef end
  | tp :: tps =>
      c ← candidate g v tp;
      if c : bool then b ← f tp; min_candidate g v f (opt_min res b) tps
      else min_candidate g v f res tps
  end.
Fixpoint calculate_context (fuel : nat) (g : Graph) (v : View.t) (t : Z) : outcome Z :=
  match fuel with
  | O => Undef
  | S fuel =>
      v ← unfoldPrefix g v t;
      if view_empty v then Ret 0
      else
        min_candidate g v (fun tp =>
          let sp := shrinkViewByOne v tp in
          b ← calculate_context fuel g sp tp;
          en ← (if tp =? t then Ret false else isEnabled g v tp);
          Ret (u32 (b + (if en : bool then 1 else 0)))) None (all_threads g)
  end.
Definition context_bound (g : Graph) : outcome Z :=
  v ← full_view g;
  min_candidate g v (fun i => calculate_context (bound_fuel v) g (shrinkViewByOne v i) i) None (all_threads g).

(** ** Rounds *)

Definition areSCPredsInView (g : Graph) (v : View.t) (e : Event) : outcome bool :=
  lab ← getEventLabel g e;
  if Isa.ThreadStartLabel (kind lab) then p ← some (tc_pred g lab); Ret (View.contains v (getPos p))
  else if Isa.ThreadJoinLabel (kind lab) then p ← some (tj_pred g lab); Ret (View.contains v (getPos p))
  else if negb (Isa.MemAccessLabel (kind lab)) then Ret true
  else if Isa.ReadLabel (kind lab) then
    match ReadLabel.getRf lab with Some w => Ret (View.contains v w) | None => Undef end
  else
    _ ← BUG_ON (negb (Isa.WriteLabel (kind lab)));
    pLab ← co_imm_pred g (getPos lab);
    if (match pLab with Some p => negb (View.contains v p) | None => false end) then Ret false
    else rs ← fr_imm_preds g lab; Ret (forallb (View.contains v) rs).

(** The loop over one thread: the events scheduled, whether there is one, and
    whether all were. *)
Record Round := mkRound { curr : View.t; exists_ : bool; done_ : bool }.
Fixpoint round_thread (g : Graph) (i j : Z) (fuel : nat) (r : Round) : outcome Round :=
  match fuel with
  | O => Ret r
  | S fuel =>
      let next := mkEvent i (j + 1) in
      b ← areSCPredsInView g (curr r) next;
      if b : bool then round_thread g i (j + 1) fuel (mkRound (View.updateIdx (curr r) next) true (done_ r))
      else Ret (mkRound (curr r) (exists_ r) false)
  end.
(** One round over all threads. *)
Definition round_step (g : Graph) (full c : View.t) : outcome Round :=
  mfold (fun r i => round_thread g i (View.getMax (curr r) i)
                      (Z.to_nat (View.getMax full i - View.getMax (curr r) i)) r)
    (all_threads g) (mkRound c false true).

(** [do .. while (bound--)]: the fuel is the bound. *)
Fixpoint rounds_loop (bound : nat) (g : Graph) (full c : View.t) : outcome bool :=
  r ← round_step g full c;
  _ ← BUG_ON (negb (exists_ r));
  if done_ r then Ret false
  else match bound with O => Ret true | S bound => rounds_loop bound g full (curr r) end.
Definition round_exceeds (g : Graph) (bound : Z) : outcome bool :=
  full ← full_view g; rounds_loop (Z.to_nat bound) g full View.make.

(** [calculate()] (of the debug build); [bound] is the counter. *)
Fixpoint count_rounds (fuel : nat) (g : Graph) (full c : View.t) (bound : Z) : outcome Z :=
  match fuel with
  | O => Undef
  | S fuel =>
      r ← round_step g full c;
      if done_ r then Ret bound
      else _ ← BUG_ON (negb (exists_ r)); count_rounds fuel g full (curr r) (u32 (bound + 1))
  end.
Definition round_bound (g : Graph) : outcome Z :=
  full ← full_view g; count_rounds (bound_fuel full) g full View.make 0.

(** ** BoundDecider *)

Definition getSlack (type : BoundType) (g : Graph) : Z :=
  match type with context => getSlack_context g | round => 0 end.
Definition exceeds (type : BoundType) (g : Graph) (bound : Z) : outcome bool :=
  match type with context => context_exceeds g bound | round => round_exceeds g bound end.
Definition doesExecutionExceedBound (type : BoundType) (g : Graph) (bound : Z)
    (strategy : BoundCalculationStrategy) : outcome bool :=
  let slack := match strategy with Slacked => getSlack type g | NonSlacked => 0 end in
  exceeds type g (u32 (bound + slack)).
Definition calculate (type : BoundType) (g : Graph) : outcome Z :=
  match type with context => context_bound g | round => round_bound g end.

End Bounds.
