(* ===== verification/BoundsFacts.v ===== *)
(** * The bound deciders count context switches and rounds (properties of
    Bounds.v). *)
From S2P Require Import Prelude Event SVal SAddr VSet Deps Views Labels LabelClasses Graph GraphBase GraphRf Iterators Bounds.
#[local] Open Scope Z_scope.

Module BoundsFacts.
Import ExecutionGraph GraphIterators Bounds.

(** ** Context switches: the decision and the count *)

(** The loop of the decision finds a candidate within the bound exactly when the
    minimum over the candidates is. *)
Lemma any_min g v (f : Z -> outcome bool) (h : Z -> outcome Z) b res tps n :
  (forall tp m, h tp = Ret m -> f tp = Ret (m <=? b)) ->
  min_candidate g v h res tps = Ret n ->
  (match res with Some r => (b < r) | None => True end) ->
  any_candidate g v f (bool_decide (is_Some res)) tps = Ret (n <=? b).
Proof.
  intros Hf. revert res. induction tps as [|tp tps IH]; intros res Hn Hres; simpl in *.
  - destruct res as [r|]; [|done]. injection Hn as ->. simpl. cbn. f_equal. symmetry. apply Z.leb_gt. lia.
  - destruct (candidate g v tp) as [[]| |]; cbn [mbind outcome_bind] in *; [|by apply IH|done..].
    destruct (h tp) as [m| |] eqn:Em; cbn [mbind outcome_bind] in *; [|done..].
    rewrite (Hf tp m Em). cbn [mbind outcome_bind].
    destruct (Z.leb_spec m b) as [Hle|Hgt].
    + f_equal. symmetry. apply Z.leb_le.
      assert (forall res tps, min_candidate g v h res tps = Ret n -> forall r, res = Some r -> n <= r) as Hmin.
      { clear. intros res tps. revert res. induction tps as [|tp tps IH]; intros res Hn r ->; simpl in Hn.
        - by injection Hn as ->.
        - destruct (candidate g v tp) as [[]| |]; cbn [mbind outcome_bind] in *; [|by apply (IH _ Hn)|done..].
          destruct (h tp); cbn [mbind outcome_bind] in *; [|done..]. pose proof (IH _ Hn _ eq_refl). simpl in *. lia. }
      pose proof (Hmin _ _ Hn _ eq_refl). destruct res; lia.
    + apply (IH (opt_min res m) Hn). destruct res; simpl; lia.
Qed.

Lemma calculate_range fuel g v t n :
  calculate_context fuel g v t = Ret n -> 0 <= n < Z.of_nat fuel.
Proof.
  revert v t n. induction fuel as [|fuel IH]; intros v t n; [done|]. cbn [calculate_context].
  destruct (unfoldPrefix g v t) as [v'| |]; cbn [mbind outcome_bind]; [|done..].
  destruct (view_empty v'); [intros [= <-]; lia|].
  assert (forall res tps, (match res with Some r => 0 <= r < Z.of_nat (S fuel) | None => True end) ->
    min_candidate g v' (fun tp => b ← calculate_context fuel g (shrinkViewByOne v' tp) tp;
      en ← (if tp =? t then Ret false else isEnabled g v' tp); Ret (u32 (b + (if en : bool then 1 else 0)))) res tps = Ret n ->
    0 <= n < Z.of_nat (S fuel)) as Hmin; [|by apply Hmin].
  intros res tps. revert res. induction tps as [|tp tps IHl]; intros res Hres; simpl.
  - destruct res; [|done]. by intros [= <-].
  - destruct (candidate g v' tp) as [[]| |]; cbn [mbind outcome_bind]; [|by apply IHl|done..].
    destruct (calculate_context fuel g (shrinkViewByOne v' tp) tp) as [b| |] eqn:Eb; cbn [mbind outcome_bind]; [|done..].
    destruct (if tp =? t then _ else _) as [en| |]; cbn [mbind outcome_bind]; [|done..].
    apply IHl. apply IH in Eb. destruct (wrap_range 32 (b + (if en then 1 else 0))) as [H0 _]; [lia|].
    assert (u32 (b + (if en then 1 else 0)) <= b + (if en then 1 else 0)) by (apply Z.mod_le; destruct en; lia).
    destruct res, en; simpl; lia.
Qed.

Lemma prefix_decides fuel g v t n b :
  Z.of_nat fuel <= 2 ^ 32 -> 0 <= b ->
  calculate_context fuel g v t = Ret n -> doesPrefixExceedBound fuel g v t b = Ret (n <=? b).
Proof.
  revert v t n b. induction fuel as [|fuel IH]; intros v t n b Hf Hb; [done|].
  cbn [calculate_context doesPrefixExceedBound].
  destruct (unfoldPrefix g v t) as [v'| |]; cbn [mbind outcome_bind]; [|done..].
  destruct (view_empty v'); [intros [= <-]; f_equal; symmetry; by apply Z.leb_le|].
  intros Hn. refine (any_min g v' _ _ b None _ n _ Hn I).
  intros tp m. destruct (calculate_context fuel g (shrinkViewByOne v' tp) tp) as [c| |] eqn:Ec; cbn [mbind outcome_bind]; [|done..].
  destruct (if tp =? t then _ else _) as [en| |]; cbn [mbind outcome_bind]; [|done..].
  pose proof (calculate_range _ _ _ _ _ Ec) as Hc. intros [= <-].
  rewrite wrap_small by (destruct en; lia). destruct en.
  - destruct (Z.eqb_spec b 0) as [->|Hb0]; [f_equal; symmetry; apply Z.leb_gt; lia|].
    rewrite (IH _ _ c) by (done || lia). f_equal. zcases; lia.
  - rewrite (IH _ _ c) by (done || lia). f_equal. zcases; lia.
Qed.

Lemma context_decides g n b :
  context_bound g = Ret n -> 0 <= b ->
  (forall v, full_view g = Ret v -> view_total v < 2 ^ 32) ->
  context_exceeds g b = Ret (b <? n).
Proof.
  unfold context_bound, context_exceeds. intros Hn Hb Hv.
  destruct (full_view g) as [v| |] eqn:Ev; cbn [mbind outcome_bind] in *; [|done..]. specialize (Hv v eq_refl).
  rewrite (any_min g v _ (fun i => calculate_context (bound_fuel v) g (shrinkViewByOne v i) i) b None _ n); try done.
  - cbn [mbind outcome_bind]. f_equal. by rewrite Z.ltb_antisym.
  - intros tp m Hm. apply prefix_decides; [unfold bound_fuel; lia|done|done].
Qed.

(** ** The recursions end: they go down with the number of events *)

Lemma total_insert (v : View.t) k x y :
  v !! k = Some x -> view_total (<[k := y]> v) = view_total v - x + y.
Proof.
  revert k. induction v as [|z v IH]; intros [|k] Hk; simpl in *; [done..| |].
  - injection Hk as ->. unfold view_total. simpl. lia.
  - unfold view_total in *. simpl. rewrite (IH k Hk). lia.
Qed.
Lemma total_nonneg v : View.ok v -> 0 <= view_total v.
Proof.
  intros Hv. assert (Forall (fun m => 0 <= m) v) as H.
  { apply Forall_lookup. intros i x Hx. specialize (Hv (Z.of_nat i) ltac:(lia)).
    rewrite View.getMax_lookup, Nat2Z.id, Hx in Hv by lia. done. }
  clear Hv. unfold view_total. induction H; simpl; lia.
Qed.

Lemma getMax_shrink v t tid :
  0 <= t -> 0 <= tid -> View.getMax (shrinkViewByOne v t) tid = if tid =? t then View.getMax v t - 1 else View.getMax v tid.
Proof. intros. unfold shrinkViewByOne. rewrite View.getMax_setMax by done. done. Qed.
Lemma shrink_total v t :
  0 <= t -> View.getMax v t <> 0 -> view_total (shrinkViewByOne v t) = view_total v - 1.
Proof.
  intros Ht Hm. pose proof Hm as Hm'. rewrite View.getMax_lookup in Hm by done.
  destruct (v !! Z.to_nat t) as [x|] eqn:Ex; [|done]. simpl in Hm.
  unfold shrinkViewByOne, View.setMax. pose proof (lookup_lt_Some _ _ _ Ex). cbn [thread EventOps.prev index].
  unfold View.size. rewrite Z.geb_leb, (proj2 (Z.leb_gt _ _)) by lia.
  rewrite (total_insert v _ x) by done. rewrite View.getMax_lookup, Ex by done. simpl. lia.
Qed.
Lemma shrink_ok v t : View.ok v -> 0 <= t -> View.getMax v t <> 0 -> View.ok (shrinkViewByOne v t).
Proof.
  intros Hv Ht Hm tid Htid. rewrite getMax_shrink by done. pose proof (Hv tid Htid). pose proof (Hv t Ht). case_match; lia.
Qed.

Lemma unfold_ok fuel g v t v' :
  View.ok v -> 0 <= t -> unfold_loop fuel g v t = Ret v' -> View.ok v' /\ view_total v' <= view_total v.
Proof.
  revert v. induction fuel as [|fuel IH]; intros v Hv Ht; simpl;
    unfold unfolds; destruct (Z.eqb_spec (View.getMax v t) 0) as [E|E]; cbn [mbind outcome_bind];
    try (intros [= <-]; split; [done|lia]);
    (destruct (isSCMaximal g v t) as [[]| |]; cbn [mbind outcome_bind];
      [destruct (canBlock g v t) as [[]| |]; cbn [fmap outcome_fmap mbind outcome_bind]| | |]);
    try done; try (intros [= <-]; split; [done|lia]).
  intros H. destruct (IH _ (shrink_ok v t Hv Ht E) Ht H) as [H1 H2]. split; [done|].
  rewrite shrink_total in H2 by done. lia.
Qed.

(** [unfoldPrefix] takes back one event per iteration, so its fuel is enough. *)
Lemma unfold_fuel fuel g v t :
  View.ok v -> 0 <= t -> (Z.to_nat (View.getMax v t) <= fuel)%nat ->
  unfold_loop fuel g v t = unfoldPrefix g v t.
Proof.
  unfold unfoldPrefix. intros Hv Ht. remember (Z.to_nat (View.getMax v t)) as m eqn:Em.
  revert fuel v Hv Em. induction m as [|m IH]; intros fuel v Hv Em Hf.
  - pose proof (Hv t Ht). assert (View.getMax v t = 0) as E by lia. unfold unfolds.
    destruct fuel; cbn [unfold_loop]; unfold unfolds; by rewrite E.
  - destruct fuel as [|fuel]; [lia|]. cbn [unfold_loop].
    destruct (unfolds g v t) as [[]| |]; cbn [mbind outcome_bind]; [|done..].
    assert (View.getMax v t <> 0) as Hm by lia.
    apply IH; [by apply shrink_ok|rewrite getMax_shrink, Z.eqb_refl by done; lia|lia].
Qed.

Lemma any_ext g v f f' e tps :
  (forall tp, tp ∈ tps -> View.getMax v tp <> 0 -> f tp = f' tp) ->
  any_candidate g v f e tps = any_candidate g v f' e tps.
Proof.
  revert e. induction tps as [|tp tps IH]; intros e Hf; [done|]. simpl. unfold candidate.
  destruct (Z.eqb_spec (View.getMax v tp) 0) as [E|E]; cbn [mbind outcome_bind].
  { apply IH. intros; apply Hf; [by right|done]. }
  destruct (isSCMaximal g v tp) as [[]| |]; cbn [mbind outcome_bind]; [|apply IH; intros; apply Hf; [by right|done]|done..].
  rewrite (Hf tp); [|by left|done]. destruct (f' tp) as [[]| |]; cbn [mbind outcome_bind]; try done.
  apply IH. intros; apply Hf; [by right|done].
Qed.

Lemma in_threads g tp : tp ∈ all_threads g -> 0 <= tp.
Proof. unfold all_threads. rewrite elem_of_seqZ. lia. Qed.

(** The search for a schedule ends: with as much fuel as there are
    events, its answer is the answer with any more fuel. *)
Theorem prefix_search_terminates fuel g v t b :
  View.ok v -> 0 <= t -> (bound_fuel v <= fuel)%nat ->
  doesPrefixExceedBound fuel g v t b = doesPrefixExceedBound (bound_fuel v) g v t b.
Proof.
  intros Hv Ht Hf. assert (forall f1 f2 v t b, View.ok v -> 0 <= t -> (bound_fuel v <= f1)%nat ->
    (bound_fuel v <= f2)%nat -> doesPrefixExceedBound f1 g v t b = doesPrefixExceedBound f2 g v t b) as H; [|by apply H].
  clear. induction f1 as [|f1 IH]; intros f2 v t b Hv Ht H1 H2; [unfold bound_fuel in H1; lia|].
  destruct f2 as [|f2]; [unfold bound_fuel in H2; lia|]. cbn [doesPrefixExceedBound].
  destruct (unfoldPrefix g v t) as [v'| |] eqn:Eu; cbn [mbind outcome_bind]; [|done..].
  apply unfold_ok in Eu as [Hv' Hle]; [|done..]. destruct (view_empty v'); [done|].
  apply any_ext. intros tp Htp%in_threads Hm.
  assert (forall b, doesPrefixExceedBound f1 g (shrinkViewByOne v' tp) tp b
                  = doesPrefixExceedBound f2 g (shrinkViewByOne v' tp) tp b) as Hrec.
  { intros b'. pose proof (shrink_ok v' tp Hv' Htp Hm) as Hs. pose proof (total_nonneg _ Hs) as Hn.
    apply IH; [done|done|..]; unfold bound_fuel in *; rewrite shrink_total in * by done; lia. }
  destruct (if tp =? t then _ else _) as [[]| |]; cbn [mbind outcome_bind]; rewrite ?Hrec; done.
Qed.

(** ** Rounds: the decision and the count *)

Lemma round_thread_spec g i fuel : forall j r r',
  0 <= i -> j = View.getMax (curr r) i -> round_thread g i j fuel r = Ret r' ->
  (forall k, 0 <= k -> k <> i -> View.getMax (curr r') k = View.getMax (curr r) k) /\
  j <= View.getMax (curr r') i /\
  ((done_ r' = done_ r /\ View.getMax (curr r') i = j + Z.of_nat fuel) \/
   (done_ r' = false /\ View.getMax (curr r') i < j + Z.of_nat fuel)) /\
  exists_ r' = exists_ r || (j <? View.getMax (curr r') i).
Proof.
  induction fuel as [|fuel IH]; intros j r r' Hi Hj; simpl.
  - intros [= <-]. split; [done|]. split; [lia|]. split; [left; split; [done|lia]|].
    rewrite <- Hj, Z.ltb_irrefl. by rewrite orb_false_r.
  - destruct (areSCPredsInView g (curr r) (mkEvent i (j + 1))) as [[]| |]; cbn [mbind outcome_bind]; try done.
    + intros H. assert (View.getMax (View.updateIdx (curr r) (mkEvent i (j + 1))) i = j + 1) as E.
      { rewrite View.getMax_updateIdx by done. simpl. rewrite Z.eqb_refl. lia. }
      apply IH in H as (H1 & H2 & H3 & H4); [|done|done]. cbn [curr done_ exists_] in *.
      split; [|split; [lia|split]].
      * intros k Hk Hn. rewrite H1 by done. rewrite View.getMax_updateIdx by done. simpl. by rewrite (proj2 (Z.eqb_neq _ _)).
      * destruct H3 as [[? ?]|[? ?]]; [left|right]; (split; [done|lia]).
      * rewrite H4. simpl. symmetry. rewrite (proj2 (Z.ltb_lt _ _)) by lia. by destruct (exists_ r).
    + intros [= <-]. cbn [curr done_ exists_]. split; [done|]. split; [lia|].
      split; [right; split; [done|lia]|]. rewrite <- Hj, Z.ltb_irrefl. by rewrite orb_false_r.
Qed.

(** What a round did over the threads [ts], from [c]. *)
Definition after_round (full c : View.t) (ts : list Z) (r : Round) : Prop :=
  (forall i, 0 <= i -> View.getMax c i <= View.getMax (curr r) i) /\
  (forall i, 0 <= i -> i ∉ ts -> View.getMax (curr r) i = View.getMax c i) /\
  (if done_ r then forall i, i ∈ ts -> View.getMax full i <= View.getMax (curr r) i
   else exists i, i ∈ ts /\ View.getMax (curr r) i < View.getMax full i) /\
  (exists_ r = true <-> exists i, i ∈ ts /\ View.getMax c i < View.getMax (curr r) i).

Lemma round_fold g full c ts r :
  NoDup ts -> (forall i, i ∈ ts -> 0 <= i) ->
  mfold (fun r i => round_thread g i (View.getMax (curr r) i)
                      (Z.to_nat (View.getMax full i - View.getMax (curr r) i)) r) ts (mkRound c false true) = Ret r ->
  after_round full c ts r.
Proof.
  revert r. induction ts as [|i ts IH] using rev_ind; intros r Hnd Hpos; simpl.
  { intros [= <-]. split; [done|]. split; [done|]. cbn. split; [set_solver|]. split; [done|set_solver]. }
  apply NoDup_app in Hnd as (Hnd & Hi & _). rewrite mfold_app.
  destruct (mfold _ ts _) as [r0| |]; cbn [mbind outcome_bind]; [|done..]. simpl.
  destruct (round_thread _ _ _ _ r0) as [r1| |] eqn:E1; cbn [mbind outcome_bind]; [|done..]. intros [= <-].
  destruct (IH r0 Hnd) as (A & B & C & D); [set_solver|done|].
  assert (i ∉ ts) as Hni by (intros H; by apply (Hi i H); left).
  assert (0 <= i) as Hi0 by (apply Hpos; set_solver).
  apply round_thread_spec in E1 as (F & G & H & K); [|done|done].
  assert (forall k, 0 <= k -> View.getMax (curr r0) k <= View.getMax (curr r1) k) as Hmono.
  { intros k Hk. destruct (decide (k = i)) as [->|Hn]; [done|]. by rewrite F. }
  assert (forall k, k ∈ ts -> View.getMax (curr r1) k = View.getMax (curr r0) k) as Hsame.
  { intros k Hk. apply F; [apply Hpos; set_solver|]. by intros ->. }
  split; [intros k Hk; pose proof (A k Hk); pose proof (Hmono k Hk); lia|].
  split; [intros k Hk Hnk; rewrite F, B by set_solver; done|]. split.
  - destruct H as [[-> H]|[-> H]].
    + destruct (done_ r0).
      * intros k [Hk|Hk%list_elem_of_singleton]%elem_of_app; [rewrite Hsame by done; by apply C|subst k; lia].
      * destruct C as (k & Hk & Hlt). exists k. split; [set_solver|]. by rewrite Hsame.
    + exists i. split; [set_solver|]. lia.
  - rewrite K, orb_true_iff, D, Z.ltb_lt. rewrite (B i Hi0 Hni). split.
    + intros [(k & Hk & Hlt)|Hlt]; [exists k; split; [set_solver|by rewrite Hsame]|exists i; split; [set_solver|done]].
    + intros (k & [Hk|Hk%list_elem_of_singleton]%elem_of_app & Hlt); [left; exists k; split; [done|by rewrite <- Hsame]|by subst k; right].
Qed.

(** Events left to schedule. *)
Definition left_over (g : Graph) (full c : View.t) : Prop :=
  exists i, i ∈ all_threads g /\ View.getMax c i < View.getMax full i.
Lemma round_step_spec g full c r :
  round_step g full c = Ret r ->
  (done_ r = false -> left_over g full (curr r)) /\ (left_over g full c -> done_ r = true -> exists_ r = true).
Proof.
  intros H. apply round_fold in H as (_ & _ & C & D); [|apply NoDup_seqZ|apply in_threads]. split.
  - intros Hd. rewrite Hd in C. exact C.
  - intros (i & Hi & Hlt) Hd. rewrite Hd in C. apply D. exists i. split; [done|]. pose proof (C i Hi). lia.
Qed.

Lemma count_ge fuel g full c k n :
  0 <= k -> k + Z.of_nat fuel <= 2 ^ 32 -> count_rounds fuel g full c k = Ret n -> k <= n.
Proof.
  revert c k. induction fuel as [|fuel IH]; intros c k Hk Hf; simpl; [done|].
  destruct (round_step g full c) as [r| |]; cbn [mbind outcome_bind]; [|done..].
  destruct (done_ r); [intros [= ->]; lia|]. destruct (exists_ r); cbn; [|done].
  destruct (decide (fuel = O)) as [->|Hn]; [done|].
  rewrite wrap_small by lia. intros H%IH; lia.
Qed.
Lemma rounds_decide fuel g full c k n b :
  left_over g full c -> 0 <= k -> k + Z.of_nat fuel <= 2 ^ 32 ->
  count_rounds fuel g full c k = Ret n -> rounds_loop b g full c = Ret (Z.of_nat b <? n - k).
Proof.
  revert c k b. induction fuel as [|fuel IH]; intros c k b Hl Hk Hf; simpl; [done|].
  assert (forall b, rounds_loop b g full c = (r ← round_step g full c; _ ← BUG_ON (negb (exists_ r));
    if done_ r then Ret false else match b with O => Ret true | S b => rounds_loop b g full (curr r) end)) as ->
    by (intros []; done).
  destruct (round_step g full c) as [r| |] eqn:Er; cbn [mbind outcome_bind]; [|done..].
  apply round_step_spec in Er as [H1 H2].
  destruct (done_ r) eqn:Ed.
  - rewrite (H2 Hl eq_refl). cbn. intros [= ->]. f_equal. symmetry. apply Z.ltb_ge. lia.
  - destruct (exists_ r); cbn [negb BUG_ON mbind outcome_bind]; [|done].
    destruct (decide (fuel = O)) as [->|Hn]; [done|]. rewrite wrap_small by lia. intros Hc.
    pose proof (count_ge fuel g full (curr r) (k + 1) n ltac:(lia) ltac:(lia) Hc) as Hge.
    destruct b as [|b]; [f_equal; symmetry; apply Z.ltb_lt; lia|].
    rewrite (IH (curr r) (k + 1) b (H1 eq_refl) ltac:(lia) ltac:(lia) Hc). f_equal. zcases; lia.
Qed.

(** ** A concrete graph

    The first thread creates the second and stores 1; the second reads it and
    stores 2, which the first reads.  One switch leaves a thread that could go on
    (the second has finished when the first resumes), and one round is not
    enough. *)
Definition access : AAccess := mkAccess 64 8 Unsigned.
Definition store (t i v : Z) : Label :=
  Make.WriteLabel (mkEvent t i) Monotonic 64 8 Unsigned v WriteAttr.None_ DepInfo.no_deps.
Definition load (t i : Z) : Label := Make.ReadLabel (mkEvent t i) Monotonic 64 8 Unsigned None DepInfo.no_deps.
Definition stored (n : nat) (g : Graph) (lab : Label) : Graph := addStoreToCO (Rf.add_or_keep g lab) lab n.
Definition loaded (g : Graph) (lab : Label) (w : Event) : Graph :=
  let g := Rf.add_or_keep g lab in match changeRf g (getPos lab) w with Ret g' => g' | _ => g end.
Definition ping_pong : Graph :=
  let info := mkThreadInfo 1 0 0 0 (-1) in
  let g := foldl Rf.add_or_keep (trackCoherenceAtLoc (addNewThread Rf.empty) access)
    [Make.ThreadCreateLabel (mkEvent 0 1) Release info DepInfo.no_deps;
     Make.ThreadStartLabel (mkEvent 1 0) Acquire (mkEvent 0 1) info (-1)] in
  let g := loaded (stored 0 g (store 0 2 1)) (load 1 1) (mkEvent 0 2) in
  loaded (stored 1 g (store 1 2 2)) (load 0 3) (mkEvent 1 2).

(** ** The properties *)

(** Property C31.  Deciding whether a graph exceeds a bound is comparing the bound
    (with the slack of a graph that is still growing) with the number of context
    switches, or of rounds, that the debug build counts. *)
Theorem exceeds_is_count type g full b strategy n :
  let slack := match strategy with Slacked => getSlack type g | NonSlacked => 0 end in
  full_view g = Ret full -> view_total full < 2 ^ 32 - 1 -> left_over g full View.make ->
  calculate type g = Ret n -> 0 <= b + slack < 2 ^ 32 ->
  doesExecutionExceedBound type g b strategy = Ret (b + slack <? n).
Proof.
  intros slack Ev Ht Hl Hn Hb. unfold doesExecutionExceedBound. fold slack. rewrite wrap_small by done.
  destruct type; simpl in *.
  - apply context_decides; [done|lia|]. intros v Hv. rewrite Ev in Hv. injection Hv as <-. lia.
  - unfold round_bound in Hn. unfold round_exceeds. rewrite Ev in *. cbn [mbind outcome_bind] in *.
    rewrite (rounds_decide (bound_fuel full) g full View.make 0 n (Z.to_nat (b + slack)) Hl);
      [f_equal; zcases; lia|done|unfold bound_fuel; lia|done].
Qed.

Lemma exceeds_is_count_witness :
  full_view ping_pong = Ret [3; 2] /\ left_over ping_pong [3; 2] View.make /\
  calculate context ping_pong = Ret 1 /\ calculate round ping_pong = Ret 1 /\
  doesExecutionExceedBound context ping_pong 0 NonSlacked = Ret true /\
  doesExecutionExceedBound context ping_pong 1 NonSlacked = Ret false /\
  doesExecutionExceedBound round ping_pong 0 Slacked = Ret true /\
  doesExecutionExceedBound round ping_pong 1 Slacked = Ret false.
Proof.
  assert (full_view ping_pong = Ret [3; 2]) as Ev by (vm_compute; reflexivity).
  assert (left_over ping_pong [3; 2] View.make) as Hl.
  { exists 0. split; [apply elem_of_seqZ|]; vm_compute; intuition congruence. }
  assert (calculate context ping_pong = Ret 1) as Ec by (vm_compute; reflexivity).
  assert (calculate round ping_pong = Ret 1) as Er by (vm_compute; reflexivity).
  split; [exact Ev|]. split; [exact Hl|]. split; [exact Ec|]. split; [exact Er|].
  assert (view_total [3; 2] < 2 ^ 32 - 1) as Ht by (vm_compute; reflexivity).
  split; [exact (exceeds_is_count context ping_pong [3; 2] 0 NonSlacked 1 Ev Ht Hl Ec ltac:(simpl; lia))|].
  split; [exact (exceeds_is_count context ping_pong [3; 2] 1 NonSlacked 1 Ev Ht Hl Ec ltac:(simpl; lia))|].
  split; [exact (exceeds_is_count round ping_pong [3; 2] 0 Slacked 1 Ev Ht Hl Er ltac:(simpl; lia))|].
  exact (exceeds_is_count round ping_pong [3; 2] 1 Slacked 1 Ev Ht Hl Er ltac:(simpl; lia)).
Defined.

Lemma prefix_search_terminates_witness :
  bound_fuel [3; 2] = 6%nat /\
  doesPrefixExceedBound 100 ping_pong [3; 2] 0 2 = doesPrefixExceedBound 6 ping_pong [3; 2] 0 2 /\
  doesPrefixExceedBound 6 ping_pong [3; 2] 0 2 = Ret true.
Proof.
  split; [reflexivity|]. split.
  - apply (prefix_search_terminates 100 ping_pong [3; 2] 0 2); [|lia|vm_compute; lia].
    intros tid Ht. rewrite View.getMax_lookup by done. destruct (Z.to_nat tid) as [|[|?]]; simpl; lia.
  - vm_compute. reflexivity.
Defined.
End BoundsFacts.
