(* ===== verification/Revisits.v ===== *)
(** * Revisits and the work list (src/src/Revisit.hpp, WorkSet.hpp, and
    [LocalQueueT] of GenMCDriver.hpp).

    A revisit is what the exploration has left to try: another store for a
    read, another place in coherence for a store, or a read taken back to.  The
    work list maps stamps to vectors of revisits; the next item is the last one
    added for the largest stamp. *)
From S2P Require Import Prelude Event SVal SAddr VSet Deps Views Labels.
#[local] Open Scope Z_scope.

Module Revisits.

(** ** The discriminator *)

Inductive Kind :=
| RV_FRev | RV_FRevRead | RV_FRevRead_MIXER | RV_FRevReadLast | RV_FRevMO | RV_FRevMO_MIXER | RV_FRevMOLast
| RV_FRevOpt | RV_FRevRerun | RV_FRevLast | RV_BRev | RV_BRevHelper | RV_BRevMIXER | RV_BRevLast.
Definition kval (k : Kind) : Z :=
  match k with
  | RV_FRev => 0 | RV_FRevRead => 1 | RV_FRevRead_MIXER => 2 | RV_FRevReadLast => 3 | RV_FRevMO => 4
  | RV_FRevMO_MIXER => 5 | RV_FRevMOLast => 6 | RV_FRevOpt => 7 | RV_FRevRerun => 8 | RV_FRevLast => 9
  | RV_BRev => 10 | RV_BRevHelper => 11 | RV_BRevMIXER => 12 | RV_BRevLast => 13
  end.
Definition within (a b k : Kind) : bool := (kval a <=? kval k) && (kval k <=? kval b).

(** ** The revisits *)

(** One constructor per class that is instantiated. *)
Inductive Revisit :=
| ReadForwardRevisit (p r : Event) (maximal : bool)
| ReadForwardRevisitMIXER (r : Event) (rfs : RfsT)
| WriteForwardRevisit (p moSucc : Event)
| WriteRevisitMIXER (p succ : Event) (seq : list Event)
| OptionalForwardRevisit (p : Event)
| RerunForwardRevisit
| BackwardRevisit (p r : Event) (view : View.t)
| BackwardRevisitHELPER (p r : Event) (view : View.t) (mid : Event)
| BackwardRevisitMIXER (p r : Event) (view : View.t) (rfs : RfsT).

Definition getKind (r : Revisit) : Kind :=
  match r with
  | ReadForwardRevisit _ _ _ => RV_FRevRead
  | ReadForwardRevisitMIXER _ _ => RV_FRevRead_MIXER
  | WriteForwardRevisit _ _ => RV_FRevMO
  | WriteRevisitMIXER _ _ _ => RV_FRevMO_MIXER
  | OptionalForwardRevisit _ => RV_FRevOpt
  | RerunForwardRevisit => RV_FRevRerun
  | BackwardRevisit _ _ _ => RV_BRev
  | BackwardRevisitHELPER _ _ _ _ => RV_BRevHelper
  | BackwardRevisitMIXER _ _ _ _ => RV_BRevMIXER
  end.
Definition getPos (r : Revisit) : Event :=
  match r with
  | ReadForwardRevisit p _ _ | ReadForwardRevisitMIXER p _ | WriteForwardRevisit p _ | WriteRevisitMIXER p _ _
  | OptionalForwardRevisit p | BackwardRevisit p _ _ | BackwardRevisitHELPER p _ _ _
  | BackwardRevisitMIXER p _ _ _ => p
  | RerunForwardRevisit => EventOps.getInit
  end.
(** [ReadRevisit::getRev()]; the forward revisit by several stores has none. *)
Definition getRev (r : Revisit) : option Event :=
  match r with
  | ReadForwardRevisit _ r _ | BackwardRevisit _ r _ | BackwardRevisitHELPER _ r _ _
  | BackwardRevisitMIXER _ r _ _ => Some r
  | ReadForwardRevisitMIXER _ _ => Some EventOps.default
  | _ => None
  end.
Definition isMaximal (r : Revisit) : option bool :=
  match r with
  | ReadForwardRevisit _ _ m => Some m
  | ReadForwardRevisitMIXER _ _ => Some false
  | _ => None
  end.
(** [ReadRevisitMIXER::getRfs()] *)
Definition getRfs (r : Revisit) : option RfsT :=
  match r with ReadForwardRevisitMIXER _ rfs | BackwardRevisitMIXER _ _ _ rfs => Some rfs | _ => None end.
Definition getSucc (r : Revisit) : option Event :=
  match r with WriteForwardRevisit _ s | WriteRevisitMIXER _ s _ => Some s | _ => None end.
Definition getSeq (r : Revisit) : option (list Event) :=
  match r with WriteRevisitMIXER _ _ s => Some s | _ => None end.
Definition getViewNoRel (r : Revisit) : option View.t :=
  match r with BackwardRevisit _ _ v | BackwardRevisitHELPER _ _ v _ | BackwardRevisitMIXER _ _ v _ => Some v | _ => None end.
Definition getMid (r : Revisit) : option Event :=
  match r with BackwardRevisitHELPER _ _ _ m => Some m | _ => None end.

(** ** Type tests *)

Definition isReadRevisit (r : Revisit) : bool :=
  within RV_FRevRead RV_FRevReadLast (getKind r) || within RV_BRev RV_BRevLast (getKind r).
Definition isForwardRevisit (r : Revisit) : bool := within RV_FRev RV_FRevLast (getKind r).
Definition isReadForwardRevisit (r : Revisit) : bool := within RV_FRevRead RV_FRevReadLast (getKind r).
Definition isWriteForwardRevisit (r : Revisit) : bool := within RV_FRevMO RV_FRevMOLast (getKind r).
Definition isBackwardRevisit (r : Revisit) : bool := within RV_BRev RV_BRevLast (getKind r).

(** [Revisit::castToReadRevisit] and [castFromReadRevisit]: the kinds of their
    switches; any other stops the process. *)
Definition castToReadRevisit (r : Revisit) : outcome Revisit :=
  match getKind r with
  | RV_FRevRead | RV_BRev | RV_BRevHelper | RV_BRevMIXER => Ret r
  | _ => Bug
  end.
Definition castFromReadRevisit (r : Revisit) : outcome Revisit :=
  match getKind r with
  | RV_FRevRead | RV_BRev | RV_BRevHelper | RV_BRevMIXER => Ret r
  | _ => Bug
  end.

End Revisits.

(** ** WorkSet: the items of one event *)
Module WorkSet.
Abbreviation t := (list Revisits.Revisit).
Definition empty (w : t) : bool := bool_decide (length w = O).
Definition add (i : Revisits.Revisit) (w : t) : t := w ++ [i].
(** [back()] and [pop_back()]. *)
Definition getNext (w : t) : outcome (Revisits.Revisit * t) :=
  match last w with Some i => Ret (i, removelast w) | None => Undef end.
End WorkSet.

(** ** [std::map]: an association list in the order of its keys *)
Module OrderedMap.
Section Map.
Context {V : Type}.
Fixpoint lookup (k : Z) (m : list (Z * V)) : option V :=
  match m with
  | [] => None
  | (j, v) :: m => if j =? k then Some v else lookup k m
  end.
(** [f(m[k])], the entry created from [d] when there is none. *)
Fixpoint alter (d : V) (f : V -> V) (k : Z) (m : list (Z * V)) : list (Z * V) :=
  match m with
  | [] => [(k, f d)]
  | (j, v) :: m' =>
      if k <? j then (k, f d) :: m
      else if j <? k then (j, v) :: alter d f k m' else (j, f v) :: m'
  end.
Definition sorted (m : list (Z * V)) : Prop := StronglySorted Z.lt (map fst m).
End Map.
End OrderedMap.

(** ** The work list of an execution *)
Module WorkQueue.
Import Revisits.
Abbreviation t := (list (Z * WorkSet.t)).

(** [getWorkqueue()[stamp].add(item)] *)
Definition addToWorklist (stamp : Z) (item : Revisit) (q : t) : t :=
  OrderedMap.alter [] (WorkSet.add item) stamp q.

(** [getNextItem()]: the map is walked from its end; [None] is the null item. *)
Fixpoint next_item (rq : list (Z * WorkSet.t)) : outcome (option (Z * Revisit) * t) :=
  match rq with
  | [] => Ret (None, [])
  | (s, w) :: rq =>
      if WorkSet.empty w then r ← next_item rq; Ret (fst r, (s, w) :: snd r)
      else r ← WorkSet.getNext w; Ret (Some (s, fst r), (s, snd r) :: rq)
  end.
Definition getNextItem (q : t) : outcome (option (Z * Revisit) * t) :=
  r ← next_item (rev q); Ret (fst r, rev (snd r)).

(** [restrictWorklist(stamp)] erases the empty sets of later stamps. *)
Definition restrictWorklist (stamp : Z) (q : t) : t :=
  List.filter (fun sw => negb ((fst sw >? stamp) && WorkSet.empty (snd sw))) q.

End WorkQueue.
