(* ===== verification/RevisitsFacts.v ===== *)
(** * The work list is a stack ordered by stamps (properties of Revisits.v). *)
From S2P Require Import Prelude Event SVal SAddr VSet Deps Views Labels Revisits.
#[local] Open Scope Z_scope.

Module RevisitsFacts.
Import Revisits WorkQueue.

(** The items of a work list with their stamps, in the order of the map and of
    its vectors. *)
Definition items (q : WorkQueue.t) : list (Z * Revisit) :=
  concat (map (fun sw => map (pair (fst sw)) (snd sw)) q).

Lemma items_app q1 q2 : items (q1 ++ q2) = items q1 ++ items q2.
Proof. unfold items. by rewrite map_app, concat_app. Qed.
Lemma items_cons s w q : items ((s, w) :: q) = map (pair s) w ++ items q.
Proof. done. Qed.

Lemma items_stamps q s i : (s, i) ∈ items q -> s ∈ map fst q.
Proof.
  unfold items. rewrite list_elem_of_In, in_concat. intros (l & Hl & Hi).
  apply in_map_iff in Hl as ((s' & w) & <- & Hin). apply in_map_iff in Hi as (x & [= <- <-] & _).
  apply list_elem_of_In, in_map_iff. by exists (s', w).
Qed.

(** ** Searching from the end *)

Lemma empty_iff w : WorkSet.empty w = true <-> w = [].
Proof. unfold WorkSet.empty. rewrite bool_decide_eq_true. apply length_zero_iff_nil. Qed.

Lemma next_item_spec rq :
  match last (items (rev rq)) with
  | None => next_item rq = Ret (None, rq)
  | Some it => exists rq', next_item rq = Ret (Some it, rq') /\ map fst rq' = map fst rq /\
                 items (rev rq) = items (rev rq') ++ [it]
  end.
Proof.
  induction rq as [|[s w] rq IH]; [done|]. cbn [rev next_item]. rewrite items_app.
  assert (items [(s, w)] = map (pair s) w) as E by (rewrite items_cons; apply app_nil_r). rewrite E.
  destruct (WorkSet.empty w) eqn:Ew.
  - apply empty_iff in Ew as ->. simpl. rewrite app_nil_r. destruct (last (items (rev rq))) as [it|].
    + destruct IH as (rq' & -> & Hf & Hi). exists ((s, []) :: rq'). split; [done|].
      split; [by simpl; f_equal|]. rewrite Hi. cbn [rev]. rewrite items_app. simpl. by rewrite app_nil_r.
    + by rewrite IH.
  - destruct w as [|i w _] using rev_ind; [done|]. rewrite map_app, app_assoc. cbn [map]. rewrite last_snoc.
    unfold WorkSet.getNext. rewrite last_snoc, removelast_last. cbn [mbind outcome_bind fst snd].
    exists ((s, w) :: rq). split; [done|]. split; [done|]. cbn [rev]. rewrite items_app.
    rewrite (items_cons s w []). unfold items at 3. cbn [map concat]. by rewrite app_nil_r.
Qed.

(** ** Adding *)

Definition upto (s : Z) (l : list (Z * Revisit)) : list (Z * Revisit) := List.filter (fun p => fst p <=? s) l.
Definition beyond (s : Z) (l : list (Z * Revisit)) : list (Z * Revisit) := List.filter (fun p => s <? fst p) l.

Lemma filter_stamps (f : Z -> bool) b q :
  (forall s, s ∈ map fst q -> f s = b) -> List.filter (fun p => f (fst p)) (items q) = if b then items q else [].
Proof.
  intros Hf. assert (forall p, p ∈ items q -> f (fst p) = b) as H.
  { intros [s i] Hp. by apply Hf, (items_stamps _ _ i). }
  clear Hf. induction (items q) as [|p l IH]; simpl; [by destruct b|].
  rewrite (H p) by left. rewrite IH by (intros; apply H; by right). by destruct b.
Qed.
Lemma filter_run (f : Z -> bool) s w : List.filter (fun p : Z * Revisit => f (fst p)) (map (pair s) w) = if f s then map (pair s) w else [].
Proof. induction w as [|i w IH]; simpl; [by destruct (f s)|]. rewrite IH. by destruct (f s). Qed.

Lemma sorted_tail (s : Z) (w : WorkSet.t) q : OrderedMap.sorted ((s, w) :: q) -> OrderedMap.sorted q /\ forall t, t ∈ map fst q -> s < t.
Proof. unfold OrderedMap.sorted. simpl. intros H. inversion H; subst. split; [done|]. by apply Forall_forall. Qed.

Lemma alter_stamps s i q t : t ∈ map fst (addToWorklist s i q) <-> t = s \/ t ∈ map fst q.
Proof.
  unfold addToWorklist. induction q as [|[s' w] q IH]; simpl; [set_solver|].
  case (Z.ltb_spec s s'); intros; simpl; [set_solver|]. case (Z.ltb_spec s' s); intros; simpl.
  - rewrite !elem_of_cons, IH. tauto.
  - assert (s = s') as -> by lia. set_solver.
Qed.

Lemma add_spec s i q :
  OrderedMap.sorted q ->
  OrderedMap.sorted (addToWorklist s i q) /\
  items (addToWorklist s i q) = upto s (items q) ++ (s, i) :: beyond s (items q).
Proof.
  intros Hs. induction q as [|[s' w] q IH].
  { split; [|done]. repeat constructor. }
  apply sorted_tail in Hs as [Hq Hlt]. specialize (IH Hq).
  pose proof (alter_stamps s i q) as Hst. unfold addToWorklist in *. cbn [OrderedMap.alter].
  unfold upto, beyond. rewrite items_cons, !List.filter_app.
  rewrite (filter_run (fun x => x <=? s)), (filter_run (fun x => s <? x)).
  case (Z.ltb_spec s s') as [H|H].
  - split.
    + constructor; [constructor; [done|]|]; simpl; apply Forall_forall; [done|].
      intros t [->|Ht]%elem_of_cons; [done|]. specialize (Hlt t Ht). lia.
    + rewrite (filter_stamps (fun x => x <=? s) false), (filter_stamps (fun x => s <? x) true).
      * rewrite (proj2 (Z.leb_gt _ _)) by lia. rewrite !items_cons. done.
      * intros t Ht. specialize (Hlt t Ht). apply Z.ltb_lt. lia.
      * intros t Ht. specialize (Hlt t Ht). apply Z.leb_gt. lia.
  - case (Z.ltb_spec s' s) as [H'|H'].
    + destruct IH as [IH1 IH2]. split.
      * constructor; [done|]. apply Forall_forall. intros t [->|Ht]%Hst; [done|auto].
      * rewrite items_cons, IH2. rewrite (proj2 (Z.leb_le _ _)) by lia.
        simpl. by rewrite app_assoc.
    + assert (s = s') as -> by lia. split.
      * constructor; [done|]. by apply Forall_forall.
      * rewrite (filter_stamps (fun x => x <=? s') false), (filter_stamps (fun x => s' <? x) true).
        -- rewrite Z.leb_refl, items_cons. unfold WorkSet.add. rewrite map_app. simpl.
           by rewrite app_nil_r, <- app_assoc.
        -- intros t Ht. apply Z.ltb_lt. auto.
        -- intros t Ht. apply Z.leb_gt. auto.
Qed.

Lemma bucket_restrict_spec s q :
  OrderedMap.sorted q -> OrderedMap.sorted (restrictWorklist s q) /\ items (restrictWorklist s q) = items q.
Proof.
  unfold restrictWorklist. induction q as [|[s' w] q IH]; intros Hs; [done|].
  apply sorted_tail in Hs as [Hq Hlt]. destruct (IH Hq) as [H1 H2]. cbn [List.filter fst snd].
  destruct (s' >? s); destruct (WorkSet.empty w) eqn:Ew; simpl; rewrite ?items_cons, ?H2.
  1: apply empty_iff in Ew as ->; by split.
  all: (split; [|done]); constructor; [done|]; simpl; apply Forall_forall; intros t Ht;
    apply list_elem_of_In, in_map_iff in Ht as ((t' & w') & <- & Hin); apply List.filter_In in Hin as [Hin _];
    apply Hlt, list_elem_of_In, in_map_iff; by exists (t', w').
Qed.

(** Property C33.  The work list implements one stack ordered by stamps: an item
    goes in after the items of its own stamp and earlier ones, the next item is
    the last of all, and dropping the sets of later stamps loses no item. *)
Theorem worklist_is_stamped_stack (q : WorkQueue.t) :
  OrderedMap.sorted q ->
  (forall s i, let q' := addToWorklist s i q in
     OrderedMap.sorted q' /\ items q' = upto s (items q) ++ (s, i) :: beyond s (items q)) /\
  (forall s, let q' := restrictWorklist s q in OrderedMap.sorted q' /\ items q' = items q) /\
  match last (items q) with
  | None => getNextItem q = Ret (None, q)
  | Some it => exists q', getNextItem q = Ret (Some it, q') /\ OrderedMap.sorted q' /\ items q = items q' ++ [it]
  end.
Proof.
  intros Hs. split; [intros; by apply add_spec|]. split; [intros; by apply bucket_restrict_spec|].
  unfold getNextItem. pose proof (next_item_spec (rev q)) as H. rewrite rev_involutive in H.
  destruct (last (items q)) as [it|].
  - destruct H as (rq' & -> & Hf & Hi). exists (rev rq'). split; [done|]. split; [|done].
    unfold OrderedMap.sorted. rewrite map_rev, Hf, <- map_rev, rev_involutive. exact Hs.
  - rewrite H. simpl. by rewrite rev_involutive.
Qed.

(** Two items of stamp 3 and then one of stamp 1: the second comes first. *)
Lemma worklist_is_stamped_stack_witness :
  let e := mkEvent 0 1 in let r := WriteForwardRevisit e in
  let q := addToWorklist 3 (r (mkEvent 1 2)) (addToWorklist 3 (r (mkEvent 1 1)) []) in
  OrderedMap.sorted q /\ items q = [(3, r (mkEvent 1 1)); (3, r (mkEvent 1 2))] /\
  exists q', getNextItem (addToWorklist 1 (OptionalForwardRevisit e) q) = Ret (Some (3, r (mkEvent 1 2)), q') /\
    items q' = [(1, OptionalForwardRevisit e); (3, r (mkEvent 1 1))].
Proof.
  intros e r q. assert (OrderedMap.sorted q) as Hq by repeat constructor. split; [exact Hq|]. split; [reflexivity|].
  destruct (worklist_is_stamped_stack q Hq) as (Ha & _). destruct (Ha 1 (OptionalForwardRevisit e)) as [Hs _].
  destruct (worklist_is_stamped_stack _ Hs) as (_ & _ & Hn). simpl in Hn.
  destruct Hn as (q' & E & _ & Hi). exists q'. split; [exact E|]. vm_compute in E. injection E as <-. reflexivity.
Defined.
End RevisitsFacts.
