(* ===== verification/RAViews.v ===== *)
(** * The views the RA driver computes for a new label (src/src/RADriver.cpp):
    happens-before, and program order with reads-from.

    A view is collected by a depth-first search of an automaton over the
    graph: state [k] has a vector [visitedCalc.._k] of node statuses indexed by
    stamps, and [visitCalc.._k] follows the edges of state [k].  The recursion
    is on fuel; running out of fuel is [Undef], like a vector index out of
    range. *)
From S2P Require Import Prelude Event SVal SAddr VSet Deps Views Labels LabelClasses Graph GraphBase Iterators.

(** ** The state of a search *)
Module Search.

Inductive NodeStatus := unseen | entered | left.
#[export] Instance NodeStatus_eq : EqDecision NodeStatus.
Proof. solve_decision. Defined.

(** The vectors [visitedCalc.._0, ..] and the view collected so far. *)
Record State := mkState { visited : list (list NodeStatus); calcRes : View.t }.

(** [clear()] and [resize(g.getMaxStamp().get() + 1, unseen)] of [n] vectors. *)
Definition fresh_visited (g : Graph) (n : nat) : list (list NodeStatus) :=
  replicate n (replicate (Z.to_nat (u32 (timestamp g + 1))) unseen).

(** [visited_k[lab->getStamp().get()]], read and written. *)
Definition status (vis : list (list NodeStatus)) (k : nat) (lab : Label) : outcome NodeStatus :=
  s ← EventLabel.getStamp lab; v ← vec_get vis (Z.of_nat k); vec_get v s.
Definition mark (k : nat) (x : NodeStatus) (lab : Label) (st : State) : outcome State :=
  _ ← status (visited st) k lab; s ← EventLabel.getStamp lab;
  Ret (mkState (alter (fun v => <[Z.to_nat s := x]> v) k (visited st)) (calcRes st)).

(** [calcRes.update(lab->view(i)); calcRes.updateIdx(lab->getPos())] *)
Definition gather (i : nat) (lab : Label) (st : State) : outcome State :=
  v ← EventLabel.view lab i;
  Ret (mkState (visited st) (View.updateIdx (View.update (calcRes st) v) (getPos lab))).

(** [if (pLab) if (visited_k[..] == unseen) visit_k(pLab)] *)
Definition visit_next (k : nat) (visit : Label -> State -> outcome State) (p : option Label)
    (st : State) : outcome State :=
  match p with
  | None => Ret st
  | Some pLab =>
      s ← status (visited st) k pLab;
      if decide (s = unseen) then visit pLab st else Ret st
  end.

(** A pointer, null unless the condition holds of its label. *)
Definition when (cond : Label -> bool) (p : option Label) : option Label :=
  match p with Some l => if cond l then Some l else None | None => None end.
Definition whenM (cond : Label -> outcome bool) (p : option Label) : outcome (option Label) :=
  match p with
  | Some l => b ← cond l; Ret (if b : bool then Some l else None)
  | None => Ret None
  end.

End Search.

(** ** The operations *)
Module Calc.
Import ExecutionGraph GraphIterators Search.

(** [isa<ReadLabel>(l) && g.isRMWLoad(l) || isa<WriteLabel>(l) && g.isRMWStore(l)] *)
Definition is_rmw (g : Graph) (l : Label) : outcome bool :=
  b ← (if Isa.ReadLabel (kind l) then isRMWLoad g l else Ret false);
  Ret (b || (Isa.WriteLabel (kind l) && isRMWStore l)).
Definition rmw_write (g : Graph) (l : Label) : outcome bool :=
  if Isa.WriteLabel (kind l) then is_rmw g l else Ret false.
Definition rmw_read (g : Graph) (l : Label) : outcome bool :=
  if Isa.ReadLabel (kind l) then is_rmw g l else Ret false.
Definition rel_and (cls : EventLabelKind -> bool) (l : Label) : bool :=
  EventLabel.isAtLeastRelease l && cls (kind l).
Definition acq_and (cls : EventLabelKind -> bool) (l : Label) : bool :=
  EventLabel.isAtLeastAcquire l && cls (kind l).

(** Each visit function of a search is given the others as [visit]: state [k] is
    visited by [visit k]; [visitCalc0] and [visitCalc1] tie the knot. *)
Abbreviation Visit := (nat -> Label -> State -> outcome State).

Definition visitCalc0_0 (visit : Visit) (g : Graph) (lab : Label) (st : State) : outcome State :=
  st ← mark 0 entered lab st;
  st ← gather 0 lab st;
  p ← tc_pred g lab;
  st ← visit_next 2 (visit 2%nat) p st;
  p ← tj_pred g lab;
  st ← visit_next 2 (visit 2%nat) p st;
  mark 0 left lab st.
Definition visitCalc0_1 (visit : Visit) (g : Graph) (lab : Label) (st : State) : outcome State :=
  st ← mark 1 entered lab st;
  p ← po_imm_pred g lab;
  st ← visit_next 4 (visit 4%nat) (when EventLabel.isAtLeastAcquire p) st;
  p ← po_imm_pred g lab;
  st ← visit_next 0 (visit 0%nat) p st;
  p ← (if acq_and Isa.FenceLabel lab then po_imm_pred g lab else Ret None);
  st ← visit_next 6 (visit 6%nat) p st;
  p ← (if acq_and Isa.ThreadJoinLabel lab then po_imm_pred g lab else Ret None);
  st ← visit_next 6 (visit 6%nat) p st;
  p ← (if acq_and Isa.ThreadStartLabel lab then po_imm_pred g lab else Ret None);
  st ← visit_next 6 (visit 6%nat) p st;
  mark 1 left lab st.
Definition visitCalc0_2 (visit : Visit) (g : Graph) (lab : Label) (st : State) : outcome State :=
  st ← mark 2 entered lab st;
  st ← gather 0 lab st;
  mark 2 left lab st.
Definition visitCalc0_3 (visit : Visit) (g : Graph) (lab : Label) (st : State) : outcome State :=
  st ← mark 3 entered lab st;
  p ← po_imm_pred g lab;
  st ← visit_next 2 (visit 2%nat) (when (rel_and Isa.FenceLabel) p) st;
  p ← po_imm_pred g lab;
  st ← visit_next 2 (visit 2%nat) (when (rel_and Isa.ThreadCreateLabel) p) st;
  p ← po_imm_pred g lab;
  st ← visit_next 2 (visit 2%nat) (when (rel_and Isa.ThreadFinishLabel) p) st;
  p ← po_imm_pred g lab;
  st ← visit_next 3 (visit 3%nat) p st;
  mark 3 left lab st.
Definition visitCalc0_4 (visit : Visit) (g : Graph) (lab : Label) (st : State) : outcome State :=
  st ← mark 4 entered lab st;
  p ← rf_pred g lab;
  st ← visit_next 2 (visit 2%nat) (when EventLabel.isAtLeastRelease p) st;
  p ← rf_pred g lab;
  st ← visit_next 3 (visit 3%nat) p st;
  p ← rf_pred g lab ≫= whenM (rmw_write g);
  st ← visit_next 5 (visit 5%nat) p st;
  mark 4 left lab st.
Definition visitCalc0_5 (visit : Visit) (g : Graph) (lab : Label) (st : State) : outcome State :=
  st ← mark 5 entered lab st;
  p ← po_imm_pred g lab ≫= whenM (rmw_read g);
  st ← visit_next 4 (visit 4%nat) p st;
  mark 5 left lab st.
Definition visitCalc0_6 (visit : Visit) (g : Graph) (lab : Label) (st : State) : outcome State :=
  st ← mark 6 entered lab st;
  p ← rf_pred g lab;
  st ← visit_next 2 (visit 2%nat) (when EventLabel.isAtLeastRelease p) st;
  p ← rf_pred g lab;
  st ← visit_next 3 (visit 3%nat) p st;
  p ← rf_pred g lab ≫= whenM (rmw_write g);
  st ← visit_next 5 (visit 5%nat) p st;
  p ← po_imm_pred g lab;
  st ← visit_next 6 (visit 6%nat) p st;
  mark 6 left lab st.
Fixpoint visitCalc0 (g : Graph) (fuel k : nat) (lab : Label) (st : State) {struct fuel} : outcome State :=
  match fuel with
  | O => Undef
  | S fuel =>
      match k with
      | 0%nat => visitCalc0_0 (visitCalc0 g fuel) g lab st
      | 1%nat => visitCalc0_1 (visitCalc0 g fuel) g lab st
      | 2%nat => visitCalc0_2 (visitCalc0 g fuel) g lab st
      | 3%nat => visitCalc0_3 (visitCalc0 g fuel) g lab st
      | 4%nat => visitCalc0_4 (visitCalc0 g fuel) g lab st
      | 5%nat => visitCalc0_5 (visitCalc0 g fuel) g lab st
      | 6%nat => visitCalc0_6 (visitCalc0 g fuel) g lab st
      | _ => Undef
      end
  end.

(** Every node is entered at most once, so one unit of fuel per node of the
    search (a state and a stamp) is enough. *)
Definition search_fuel (g : Graph) (n : nat) : nat := (n * Z.to_nat (u32 (timestamp g + 1)))%nat.

Definition calculate0 (g : Graph) (lab : Label) : outcome View.t :=
  let calcRes := View.updateIdx View.make (EventOps.prev (getPos lab)) in
  st ← visitCalc0 g (search_fuel g 7) 1 lab (mkState (fresh_visited g 7) calcRes);
  Ret (Search.calcRes st).

Definition visitCalc1_0 (visit : Visit) (g : Graph) (lab : Label) (st : State) : outcome State :=
  st ← mark 0 entered lab st;
  st ← gather 1 lab st;
  p ← tc_pred g lab;
  st ← visit_next 2 (visit 2%nat) p st;
  p ← tj_pred g lab;
  st ← visit_next 2 (visit 2%nat) p st;
  p ← rf_pred g lab;
  st ← visit_next 2 (visit 2%nat) p st;
  mark 0 left lab st.
Definition visitCalc1_1 (visit : Visit) (g : Graph) (lab : Label) (st : State) : outcome State :=
  st ← mark 1 entered lab st;
  p ← po_imm_pred g lab;
  st ← visit_next 0 (visit 0%nat) p st;
  mark 1 left lab st.
Definition visitCalc1_2 (visit : Visit) (g : Graph) (lab : Label) (st : State) : outcome State :=
  st ← mark 2 entered lab st;
  st ← gather 1 lab st;
  mark 2 left lab st.
Fixpoint visitCalc1 (g : Graph) (fuel k : nat) (lab : Label) (st : State) {struct fuel} : outcome State :=
  match fuel with
  | O => Undef
  | S fuel =>
      match k with
      | 0%nat => visitCalc1_0 (visitCalc1 g fuel) g lab st
      | 1%nat => visitCalc1_1 (visitCalc1 g fuel) g lab st
      | 2%nat => visitCalc1_2 (visitCalc1 g fuel) g lab st
      | _ => Undef
      end
  end.

Definition calculate1 (g : Graph) (lab : Label) : outcome View.t :=
  let calcRes := View.updateIdx View.make (EventOps.prev (getPos lab)) in
  st ← visitCalc1 g (search_fuel g 3) 1 lab (mkState (fresh_visited g 3) calcRes);
  Ret (Search.calcRes st).

(** [calculateSaved] and [calculateViews] move the driver's (empty) members
    [saved] and [views] out. *)
Definition calculateSaved : list (list Event) := [].
Definition calculateViews (g : Graph) (lab : Label) : outcome (list View.t) :=
  v0 ← calculate0 g lab; v1 ← calculate1 g lab; Ret [v0; v1].

(** [View::update(const VectorClock &)]: stops the process on the other kind of
    clock. *)
Definition update_clock (v : View.t) (c : option Clock) : outcome View.t :=
  match c with
  | Some (CView w) => Ret (View.update v w)
  | Some (CDep _) => Bug
  | None => Undef
  end.
Definition update_prefix_of (g : Graph) (v : View.t) (e : Event) : outcome View.t :=
  l ← getEventLabel g e; update_clock v (prefixView l).
Definition calcPPoRfBefore (g : Graph) (lab : Label) : outcome View.t :=
  let pporf := View.updateIdx View.make (getPos lab) in
  p ← getPreviousLabel g (getPos lab);
  match p with
  | None => Ret pporf
  | Some pLab =>
      pporf ← update_clock pporf (prefixView pLab);
      pporf ← (if Isa.ReadLabel (kind pLab)
               then mfold (update_prefix_of g) (map fst (ReadLabel.getRfs pLab)) pporf
               else Ret pporf);
      pporf ← (if Isa.ThreadStartLabel (kind pLab)
               then update_prefix_of g pporf (EdgeLabels.getParentCreate pLab) else Ret pporf);
      if Isa.ThreadJoinLabel (kind pLab)
      then update_prefix_of g pporf (getLastThreadEvent g (EdgeLabels.join_getChildId pLab))
      else Ret pporf
  end.
Definition calculatePrefixView (g : Graph) (lab : Label) : outcome Clock :=
  CView <$> calcPPoRfBefore g lab.

(** [updateMMViews], the label being one of the graph's. *)
Definition updateMMViews (g : Graph) (lab : Label) : outcome Graph :=
  let lab := EventLabel.setCalculated calculateSaved lab in
  let g := alter_label (fun _ => lab) (getPos lab) g in
  vs ← calculateViews g lab;
  let lab := EventLabel.setViews vs lab in
  let g := alter_label (fun _ => lab) (getPos lab) g in
  pv ← calculatePrefixView g lab;
  Ret (alter_label (fun _ => EventLabel.setPrefixView pv lab) (getPos lab) g).

Definition isDepTracking : bool := false.
Definition getHbView (lab : Label) : outcome View.t := EventLabel.view lab 0.

End Calc.
