(* ===== verification/RASearch.v ===== *)
(** * The search behind the RA driver's views: termination and correctness.

    The visit functions of RAViews.v are one depth-first search over the edges
    of an automaton.  The search marks every node it enters, so it returns
    within one unit of fuel per node, visits exactly the reachable nodes and
    joins their views. *)
From S2P Require Import Prelude Event SVal SAddr VSet Deps Views Labels LabelClasses Graph GraphBase Iterators RAViews.
#[local] Open Scope Z_scope.

(** ** Depth-first search *)
Module Dfs.
Import ExecutionGraph GraphIterators Search.

Section Search.
Context (edges : nat -> Label -> outcome (list (nat * Label))).
Context (collect : nat -> option nat).

(** The states whose labels' views are collected, with the view's number. *)
Definition take_view (k : nat) (lab : Label) (st : State) : outcome State :=
  match collect k with Some i => gather i lab st | None => Ret st end.

Fixpoint dfs (fuel : nat) (k : nat) (lab : Label) (st : State) : outcome State :=
  match fuel with
  | O => Undef
  | S fuel =>
      st ← mark k entered lab st;
      st ← take_view k lab st;
      es ← edges k lab;
      st ← mfold (fun st e => visit_next (fst e) (dfs fuel (fst e)) (Some (snd e)) st) es st;
      mark k left lab st
  end.
End Search.

Definition edge (k : nat) (p : option Label) : list (nat * Label) :=
  match p with Some l => [(k, l)] | None => [] end.

Lemma mfold_edge (f : nat -> Label -> State -> outcome State) k p es st :
  mfold (fun st e => visit_next (fst e) (f (fst e)) (Some (snd e)) st) (edge k p ++ es) st =
  (st ← visit_next k (f k) p st;
   mfold (fun st e => visit_next (fst e) (f (fst e)) (Some (snd e)) st) es st).
Proof. by destruct p. Qed.

Lemma visit_next_mono k f f' p st st' :
  (forall l s s', f l s = Ret s' -> f' l s = Ret s') ->
  visit_next k f p st = Ret st' -> visit_next k f' p st = Ret st'.
Proof. intros Hf. destruct p; simpl; [|done]. destruct (status _ _ _); simpl; try done. case_decide; auto. Qed.

(** *** The table of nodes *)

Definition seen (st : State) (k : nat) (n : Z) : Prop :=
  exists v x, visited st !! k = Some v /\ v !! Z.to_nat n = Some x /\ x <> unseen.
Definition todo_row (v : list NodeStatus) : nat := length (List.filter (fun x => bool_decide (x = unseen)) v).
Definition todo (st : State) : nat := sum_list_with todo_row (visited st).
Definition table (K size : nat) (st : State) : Prop :=
  length (visited st) = K /\ forall k v, visited st !! k = Some v -> length v = size.

Lemma todo_row_app v w : todo_row (v ++ w) = (todo_row v + todo_row w)%nat.
Proof. unfold todo_row. by rewrite List.filter_app, length_app. Qed.

Lemma todo_row_insert v i x y :
  v !! i = Some y ->
  (todo_row (<[i := x]> v) + todo_row [y] = todo_row v + todo_row [x])%nat.
Proof.
  intros Hi. destruct (list_elem_of_split_length _ _ _ Hi) as (a & b & -> & ->).
  replace (length a) with (length a + 0)%nat by lia. rewrite insert_app_r. simpl.
  rewrite !todo_row_app.
  replace (x :: b) with ([x] ++ b) by done. replace (y :: b) with ([y] ++ b) by done.
  rewrite !todo_row_app. lia.
Qed.

Lemma sum_alter {A} (f : A -> nat) (g : A -> A) l i x :
  l !! i = Some x -> (sum_list_with f (alter g i l) + f x = sum_list_with f l + f (g x))%nat.
Proof.
  revert i; induction l as [|y l IH]; intros [|i] Hi; simplify_eq/=; [lia|].
  specialize (IH i Hi). change (list_alter g i l) with (alter g i l). lia.
Qed.

Section Table.
Context (K size : nat).

Lemma status_ret st k l n :
  table K size st -> (k < K)%nat -> stamp l = Some n -> 0 <= n < Z.of_nat size ->
  exists x, status (visited st) k l = Ret x /\ (x <> unseen <-> seen st k n).
Proof.
  intros [HK Hsz] Hk Hs Hn. unfold status, EventLabel.getStamp. rewrite Hs. simpl.
  destruct (lookup_lt_is_Some_2 (visited st) k ltac:(lia)) as [v Hv].
  pose proof (Hsz _ _ Hv). unfold vec_get. destruct (Z.ltb_spec (Z.of_nat k) 0); [lia|].
  rewrite Nat2Z.id, Hv. simpl. destruct (Z.ltb_spec n 0); [lia|].
  destruct (lookup_lt_is_Some_2 v (Z.to_nat n) ltac:(lia)) as [x Hx]. rewrite Hx.
  exists x. split; [done|]. unfold seen. split; [by eauto|].
  intros (v' & x' & Hv' & Hx' & ?). congruence.
Qed.

Lemma mark_ret st k l n x :
  table K size st -> (k < K)%nat -> stamp l = Some n -> 0 <= n < Z.of_nat size -> x <> unseen ->
  exists st', mark k x l st = Ret st' /\ table K size st' /\ calcRes st' = calcRes st /\
    (forall j m, 0 <= m -> seen st' j m <-> seen st j m \/ (j = k /\ m = n)) /\
    (todo st' <= todo st)%nat /\ (~ seen st k n -> (todo st' < todo st)%nat).
Proof.
  intros Ht Hk Hs Hn Hx. destruct (status_ret st k l n Ht Hk Hs Hn) as (y & Ey & Hy).
  unfold mark. rewrite Ey. unfold EventLabel.getStamp. rewrite Hs. simpl.
  eexists. split; [done|]. destruct Ht as [HK Hsz].
  destruct (lookup_lt_is_Some_2 (visited st) k ltac:(lia)) as [v Hv].
  pose proof (Hsz _ _ Hv).
  destruct (lookup_lt_is_Some_2 v (Z.to_nat n) ltac:(lia)) as [z Hz].
  assert (Hz' : z <> unseen <-> seen st k n).
  { unfold seen. split; [by eauto|]. intros (v' & x' & Hv' & Hx' & ?). congruence. }
  pose proof (sum_alter todo_row (fun v => <[Z.to_nat n := x]> v) _ _ _ Hv) as Hsum. simpl in Hsum.
  pose proof (todo_row_insert v _ x z Hz) as Hrow.
  assert (Ex : todo_row [x] = 0%nat) by (unfold todo_row; simpl; by rewrite bool_decide_eq_false_2).
  split; [split; simpl|split; [done|split; [|split]]].
  - by rewrite length_alter.
  - intros j w Hw. destruct (decide (j = k)) as [->|Hj].
    + rewrite list_lookup_alter_eq, Hv in Hw. simplify_eq/=. by rewrite length_insert.
    + rewrite list_lookup_alter_ne in Hw by done. eauto.
  - intros j m Hm. unfold seen. simpl. destruct (decide (j = k)) as [->|Hj].
    + rewrite list_lookup_alter_eq, Hv. simpl. destruct (decide (m = n)) as [->|Hmn].
      * split; [by right|]. intros _. eexists _, x. split; [done|]. rewrite list_lookup_insert_eq by lia. done.
      * split.
        -- intros (w & u & [= <-] & Hu & ?). rewrite list_lookup_insert_ne in Hu by lia. left; eauto.
        -- intros [(w & u & [= <-] & Hu & ?)|[_ ?]]; [|done]. eexists _, u. split; [done|].
           by rewrite list_lookup_insert_ne by lia.
    + rewrite list_lookup_alter_ne by done. naive_solver.
  - unfold todo. simpl. lia.
  - intros Hnew. assert (z = unseen) as -> by (destruct (decide (z = unseen)); [done|tauto]).
    assert (todo_row [unseen] = 1%nat) by done. unfold todo; simpl. lia.
Qed.

End Table.

(** What a label contributes: the events of its view and those of its thread
    up to it. *)
Definition covers (i : nat) (l : Label) (e : Event) : Prop :=
  exists v, EventLabel.view l i = Ret v /\
    (View.contains v e = true \/ (thread e = thread (getPos l) /\ index e <= index (getPos l))).

Lemma gather_ret i l st v :
  EventLabel.view l i = Ret v -> View.ok v -> valid (getPos l) -> View.ok (calcRes st) ->
  exists st', gather i l st = Ret st' /\ visited st' = visited st /\ View.ok (calcRes st') /\
    forall e, valid e ->
      View.contains (calcRes st') e = true <-> View.contains (calcRes st) e = true \/ covers i l e.
Proof.
  intros Ev Hv Hl Hst. unfold gather. rewrite Ev. simpl. eexists. split; [done|]. simpl.
  pose proof (View.ok_update (calcRes st) v Hst) as Hu.
  split; [done|]. split; [by apply View.ok_updateIdx; [|apply Hl]|]. intros e He.
  rewrite View.contains_updateIdx by done. rewrite View.contains_update by done.
  unfold covers. rewrite Ev. naive_solver.
Qed.

Definition visited_node (st : State) (k : nat) (l : Label) : Prop :=
  exists n, stamp l = Some n /\ seen st k n.
#[export] Instance visited_node_dec st k l : Decision (visited_node st k l).
Proof.
  unfold visited_node, seen.
  destruct (stamp l) as [n|]; [|right; naive_solver].
  destruct (visited st !! k) as [v|] eqn:Ev; [|right; naive_solver].
  destruct (v !! Z.to_nat n) as [x|] eqn:Ex; [|right; naive_solver].
  destruct (decide (x = unseen)); [right|left]; naive_solver.
Defined.

(** *** The search visits the reachable nodes *)
Section Correct.
Context (edges : nat -> Label -> outcome (list (nat * Label))) (collect : nat -> option nat).
Context (K size : nat) (N : nat -> Label -> Prop).
Context (N_state : forall k l, N k l -> (k < K)%nat).
Context (N_stamp : forall k l, N k l -> exists n, stamp l = Some n /\ 0 <= n < Z.of_nat size).
Context (N_inj : forall k l l', N k l -> N k l' -> stamp l = stamp l' -> l = l').
Context (N_edges : forall k l, N k l -> exists es, edges k l = Ret es /\ forall j m, (j, m) ∈ es -> N j m).
Context (N_view : forall k l i, N k l -> collect k = Some i ->
  exists v, EventLabel.view l i = Ret v /\ View.ok v /\ valid (getPos l)).

Definition contributes (k : nat) (l : Label) (e : Event) : Prop :=
  exists i, collect k = Some i /\ covers i l e.
Definition fresh (st st' : State) (k : nat) (l : Label) : Prop :=
  N k l /\ visited_node st' k l /\ ~ visited_node st k l.

(** The nodes visited from [st] to [st'] have all their successors visited, and
    exactly their views are joined. *)
Record extends (st st' : State) : Prop := {
  ex_table : table K size st';
  ex_ok : View.ok (calcRes st');
  ex_todo : (todo st' <= todo st)%nat;
  ex_mono k l : N k l -> visited_node st k l -> visited_node st' k l;
  ex_closed k l es j m : fresh st st' k l -> edges k l = Ret es -> (j, m) ∈ es -> visited_node st' j m;
  ex_view e : valid e ->
    View.contains (calcRes st') e = true <->
    View.contains (calcRes st) e = true \/ exists k l, fresh st st' k l /\ contributes k l e;
}.

Lemma extends_refl st : table K size st -> View.ok (calcRes st) -> extends st st.
Proof.
  unfold fresh. intros Ht Ho. split; [done|done|done|done| |].
  - intros ? ? ? ? ? (_ & ? & ?). done.
  - intros e He. split; [by left|]. intros [?|(? & ? & (_ & ? & ?) & _)]; done.
Qed.

Lemma extends_trans st1 st2 st3 : extends st1 st2 -> extends st2 st3 -> extends st1 st3.
Proof.
  intros E1 E2.
  assert (Hf : forall k l, fresh st1 st3 k l <-> fresh st1 st2 k l \/ fresh st2 st3 k l).
  { intros k l. unfold fresh. pose proof (ex_mono _ _ E1 k l). pose proof (ex_mono _ _ E2 k l).
    destruct (decide (visited_node st2 k l)); tauto. }
  split; try apply E2.
  - pose proof (ex_todo _ _ E1). pose proof (ex_todo _ _ E2). lia.
  - intros k l Hl H. by apply (ex_mono _ _ E2), (ex_mono _ _ E1).
  - intros k l es j m [Hkl|Hkl]%Hf He Hin; [|by eapply (ex_closed _ _ E2)].
    apply (ex_mono _ _ E2); [|by eapply (ex_closed _ _ E1)].
    destruct (N_edges k l) as (es' & He' & Hin'); [apply Hkl|].
    rewrite He in He'. injection He' as <-. by apply Hin'.
  - intros e He. rewrite (ex_view _ _ E2), (ex_view _ _ E1) by done. setoid_rewrite Hf. naive_solver.
Qed.

Lemma take_view_ret k l st :
  N k l -> View.ok (calcRes st) ->
  exists st', take_view collect k l st = Ret st' /\ visited st' = visited st /\ View.ok (calcRes st') /\
    forall e, valid e ->
      View.contains (calcRes st') e = true <-> View.contains (calcRes st) e = true \/ contributes k l e.
Proof.
  intros Hl Ho. unfold take_view, contributes. destruct (collect k) as [i|] eqn:Hk.
  - destruct (N_view _ _ _ Hl Hk) as (v & Ev & Hv & Hp).
    destruct (gather_ret i l st v Ev Hv Hp Ho) as (st' & ? & ? & ? & Hc).
    exists st'. do 3 (split; [done|]). intros e He. rewrite Hc by done. naive_solver.
  - exists st. do 3 (split; [done|]). naive_solver.
Qed.

Lemma visited_seen st k l n : stamp l = Some n -> visited_node st k l <-> seen st k n.
Proof. intros Hs. unfold visited_node. rewrite Hs. naive_solver. Qed.

(** Marking a node. *)
Lemma mark_node st k l x :
  table K size st -> N k l -> x <> unseen ->
  exists st', mark k x l st = Ret st' /\ table K size st' /\ calcRes st' = calcRes st /\
    (forall j m, N j m -> visited_node st' j m <-> visited_node st j m \/ (j = k /\ m = l)) /\
    (todo st' <= todo st)%nat /\ (~ visited_node st k l -> (todo st' < todo st)%nat).
Proof.
  intros Ht Hl Hx. destruct (N_stamp _ _ Hl) as (n & Hs & Hn).
  destruct (mark_ret K size st k l n x) as (st' & R & T & C & S & D & D'); [done|by eapply N_state|done..|].
  exists st'. do 3 (split; [done|]). split; [|split; [done|by rewrite (visited_seen _ _ _ _ Hs)]].
  intros j m Hm. destruct (N_stamp _ _ Hm) as (p & Hp & Hp0). rewrite !(visited_seen _ _ _ _ Hp).
  rewrite S by lia. split.
  - intros [?|[-> ->]]; [by left|right]. split; [done|]. apply (N_inj k); [done..|congruence].
  - intros [?|[-> ->]]; [by left|right]. split; [done|congruence].
Qed.

(** The node's own visit, given what the visits of its successors do. *)
Lemma visit_extends k l st st1 st2 st3 st4 es :
  N k l -> table K size st -> View.ok (calcRes st) -> ~ visited_node st k l ->
  mark k entered l st = Ret st1 -> take_view collect k l st1 = Ret st2 ->
  edges k l = Ret es -> extends st2 st3 -> (forall j m, (j, m) ∈ es -> visited_node st3 j m) ->
  mark k left l st3 = Ret st4 ->
  extends st st4 /\ visited_node st4 k l.
Proof.
  intros Hl Ht Ho Hnew E1 E2 Ees E23 Hes E4.
  destruct (mark_node st k l entered) as (s1 & R1 & T1 & C1 & H1 & D1 & _); [done..|].
  rewrite E1 in R1. injection R1 as <-.
  destruct (take_view_ret k l st1 Hl) as (s2 & R2 & V2 & O2 & C2); [by rewrite C1|].
  rewrite E2 in R2. injection R2 as <-.
  destruct (mark_node st3 k l left) as (s4 & R4 & T4 & C4 & H4 & D4 & _); [apply E23|done..|].
  rewrite E4 in R4. injection R4 as <-.
  assert (Hv2 : forall j m, visited_node st2 j m <-> visited_node st1 j m).
  { intros j m. unfold visited_node, seen. by rewrite V2. }
  assert (M : forall j m, N j m -> visited_node st j m -> visited_node st4 j m).
  { intros j m Hm H. apply H4; [done|]. left. apply (ex_mono _ _ E23); [done|]. apply Hv2, H1; [done|by left]. }
  assert (F : forall j m, fresh st st4 j m <-> fresh st2 st3 j m \/ (j = k /\ m = l)).
  { intros j m. unfold fresh. rewrite Hv2.
    assert (Hback : N j m -> visited_node st1 j m -> visited_node st3 j m).
    { intros Hm H. apply (ex_mono _ _ E23); [done|]. by apply Hv2. }
    split.
    - intros (Hm & A & B). rewrite H4 in A by done. rewrite H1 by done.
      destruct (decide (visited_node st1 j m)) as [D|D].
      + apply H1 in D; [|done]. tauto.
      + rewrite H1 in D by done. tauto.
    - intros [(Hm & A & B)|[-> ->]].
      + rewrite H1 in B by done. rewrite H4 by done. tauto.
      + rewrite H4 by done. tauto. }
  split; [split|].
  - done.
  - rewrite C4. apply E23.
  - pose proof (ex_todo _ _ E23) as D23. unfold todo in *. rewrite V2 in D23. lia.
  - done.
  - intros j m es' j' m' [Hf|[-> ->]]%F He Hin.
    + destruct (N_edges j m) as (es'' & He' & Hin'); [apply Hf|]. rewrite He in He'. injection He' as <-.
      apply H4; [by eauto|]. left. by eapply (ex_closed _ _ E23).
    + destruct (N_edges k l) as (es'' & He' & Hin'); [done|]. rewrite He in He'. injection He' as <-. rewrite He in Ees. injection Ees as <-.
      apply H4; [by eauto|]. left. by apply Hes.
  - intros e He. rewrite C4, (ex_view _ _ E23), C2, C1 by done. setoid_rewrite F.
    clear -N. naive_solver.
  - apply H4; auto.
Qed.

Lemma status_node st k l :
  table K size st -> N k l ->
  exists x, status (visited st) k l = Ret x /\ (x <> unseen <-> visited_node st k l).
Proof.
  intros Ht Hl. destruct (N_stamp _ _ Hl) as (n & Hs & Hn).
  destruct (status_ret K size st k l n) as (x & E & Hx); [done|by eapply N_state|done..|].
  exists x. by rewrite (visited_seen _ _ _ _ Hs).
Qed.

(** The loop over the edges of a node. *)
Lemma loop_extends (visit : nat -> Label -> State -> outcome State) bound es : forall st,
  (forall k l st, N k l -> table K size st -> View.ok (calcRes st) -> ~ visited_node st k l ->
    (todo st <= bound)%nat ->
    exists st', visit k l st = Ret st' /\ extends st st' /\ visited_node st' k l) ->
  (forall j m, (j, m) ∈ es -> N j m) ->
  table K size st -> View.ok (calcRes st) -> (todo st <= bound)%nat ->
  exists st', mfold (fun st e => visit_next (fst e) (visit (fst e)) (Some (snd e)) st) es st = Ret st' /\
    extends st st' /\ forall j m, (j, m) ∈ es -> visited_node st' j m.
Proof.
  induction es as [|[j m] es IH]; intros st Hv Hes Ht Ho Hb; cbn [mfold fst snd].
  { exists st. split; [done|]. split; [by apply extends_refl|]. intros j m H. by apply elem_of_nil in H. }
  assert (Hm : N j m) by (apply Hes; left).
  assert (exists st', visit_next j (visit j) (Some m) st = Ret st' /\ extends st st' /\ visited_node st' j m)
    as (st' & E & X & V).
  { simpl. destruct (status_node st j m Ht Hm) as (x & -> & Hx). simpl. case_decide.
    - apply Hv; [done..|tauto|done].
    - exists st. split; [done|]. split; [by apply extends_refl|tauto]. }
  rewrite E. cbn [mbind outcome_bind].
  destruct (IH st') as (st'' & -> & X' & V'); [done|by intros; apply Hes; right|apply X..| |].
  { pose proof (ex_todo _ _ X). lia. }
  exists st''. split; [done|]. split; [by eapply extends_trans|].
  intros j' m' [[= -> ->]|?]%elem_of_cons; [|by apply V']. by apply (ex_mono _ _ X').
Qed.

Lemma dfs_extends fuel : forall k l st,
  N k l -> table K size st -> View.ok (calcRes st) -> ~ visited_node st k l -> (todo st <= fuel)%nat ->
  exists st', dfs edges collect fuel k l st = Ret st' /\ extends st st' /\ visited_node st' k l.
Proof.
  induction fuel as [|fuel IH]; intros k l st Hl Ht Ho Hnew Hf;
    destruct (mark_node st k l entered) as (st1 & E1 & T1 & C1 & H1 & D1 & D1'); try done;
    specialize (D1' Hnew); [lia|].
  destruct (take_view_ret k l st1 Hl) as (st2 & E2 & V2 & O2 & C2); [by rewrite C1|].
  destruct (N_edges _ _ Hl) as (es & Ees & Hes).
  destruct (loop_extends (dfs edges collect fuel) fuel es st2) as (st3 & E3 & X & V); try done.
  { unfold table. by rewrite V2. }
  { unfold todo in *. rewrite V2. lia. }
  destruct (mark_node st3 k l left) as (st4 & E4 & _); [apply X|done|done|].
  exists st4. cbn [dfs]. rewrite E1. cbn [mbind outcome_bind]. rewrite E2. cbn [mbind outcome_bind].
  rewrite Ees. cbn [mbind outcome_bind]. rewrite E3. cbn [mbind outcome_bind]. split; [done|].
  eapply visit_extends; eauto.
Qed.

(** From a table without visited nodes. *)
Lemma dfs_collects k0 l0 st fuel :
  N k0 l0 -> table K size st -> View.ok (calcRes st) -> (forall k l, ~ visited_node st k l) ->
  (todo st <= fuel)%nat ->
  (forall k l (P : nat -> Label -> Prop), N k l -> P k0 l0 ->
    (forall k l es j m, N k l -> P k l -> edges k l = Ret es -> (j, m) ∈ es -> P j m) -> P k l) ->
  exists st', dfs edges collect fuel k0 l0 st = Ret st' /\ View.ok (calcRes st') /\
    forall e, valid e ->
      View.contains (calcRes st') e = true <->
      View.contains (calcRes st) e = true \/ exists k l, N k l /\ contributes k l e.
Proof.
  intros Hl Ht Ho Hnew Hf Hreach. destruct (dfs_extends fuel k0 l0 st) as (st' & E & X & V); [done..|].
  exists st'. split; [done|]. split; [apply X|]. intros e He. rewrite (ex_view _ _ X) by done.
  assert (Hall : forall k l, N k l -> visited_node st' k l).
  { intros k l Hkl. apply (Hreach k l (visited_node st')); [done..|].
    intros k' l' es j m Hn Hv He' Hin. by eapply (ex_closed _ _ X). }
  unfold fresh. split; intros [?|(k & l & H)]; auto; right; exists k, l; naive_solver.
Qed.
End Correct.

(** The nodes reachable from a node. *)
Inductive reach (edges : nat -> Label -> outcome (list (nat * Label))) (k0 : nat) (l0 : Label) :
    nat -> Label -> Prop :=
| reach_start : reach edges k0 l0 k0 l0
| reach_edge k l es j m :
    reach edges k0 l0 k l -> edges k l = Ret es -> (j, m) ∈ es -> reach edges k0 l0 j m.

Lemma reach_trans edges k0 l0 k l j m :
  reach edges k0 l0 k l -> reach edges k l j m -> reach edges k0 l0 j m.
Proof. intros H. induction 1; [done|by eapply reach_edge]. Qed.

(** The conditions under which a search over the labels of a graph succeeds:
    every label sits at its position with a stamp of its own below the bound,
    and every edge leads to a label of the graph, with a view where one is
    collected. *)
Record searchable (edges : nat -> Label -> outcome (list (nat * Label))) (collect : nat -> option nat)
    (K : nat) (g : Graph) : Prop := {
  sr_pos e l : label_at g e = Some l -> getPos l = e;
  sr_stamp e l : label_at g e = Some l ->
    exists n, stamp l = Some n /\ 0 <= n < u32 (timestamp g + 1);
  sr_inj e e' l l' : label_at g e = Some l -> label_at g e' = Some l' -> stamp l = stamp l' -> e = e';
  sr_edges k l : (k < K)%nat -> l ∈ labels g ->
    exists es, edges k l = Ret es /\ forall j m, (j, m) ∈ es ->
      (j < K)%nat /\ m ∈ labels g /\
      forall i, collect j = Some i -> exists v, EventLabel.view m i = Ret v /\ View.ok v;
}.

Lemma sum_replicate {A} (f : A -> nat) n x : sum_list_with f (replicate n x) = (n * f x)%nat.
Proof. induction n as [|n IH]; simpl; [done|]. rewrite IH. lia. Qed.
Lemma todo_row_unseen n : todo_row (replicate n unseen) = n.
Proof.
  induction n as [|n IH]; [done|]. change (replicate (S n) unseen) with ([unseen] ++ replicate n unseen).
  rewrite todo_row_app, IH. done.
Qed.

Lemma search_collects edges collect K g k0 l0 v :
  searchable edges collect K g -> l0 ∈ labels g -> (k0 < K)%nat -> collect k0 = None -> View.ok v ->
  exists st', dfs edges collect (Calc.search_fuel g K) k0 l0 (mkState (fresh_visited g K) v) = Ret st' /\
    View.ok (calcRes st') /\
    forall e, valid e ->
      View.contains (calcRes st') e = true <->
      View.contains v e = true \/
      exists k l i, reach edges k0 l0 k l /\ collect k = Some i /\ covers i l e.
Proof.
  intros Hs Hl0 Hk0 Hc0 Hv. set (size := Z.to_nat (u32 (timestamp g + 1))).
  set (N := fun k l => (k < K)%nat /\ l ∈ labels g /\
    (forall i, collect k = Some i -> exists v, EventLabel.view l i = Ret v /\ View.ok v) /\
    reach edges k0 l0 k l).
  assert (H0 : N k0 l0).
  { do 2 (split; [done|]). split; [intros i; congruence|constructor]. }
  assert (Hr : forall k l, reach edges k0 l0 k l -> N k l).
  { induction 1 as [|k l es j m Hkl IH He Hin]; [done|].
    destruct IH as (Hk & Hl & _ & _). destruct (sr_edges _ _ _ _ Hs k l Hk Hl) as (es' & He' & Hin').
    rewrite He in He'. injection He' as <-. destruct (Hin' _ _ Hin) as (? & ? & ?).
    do 3 (split; [done|]). by econstructor. }
  destruct (dfs_collects edges collect K size N) with (k0 := k0) (l0 := l0) (fuel := Calc.search_fuel g K)
    (st := mkState (fresh_visited g K) v) as (st' & E & O & C).
  - by intros k l (? & _).
  - intros k l (_ & [e He]%Lookup.labels_iff & _). destruct (sr_stamp _ _ _ _ Hs _ _ He) as (n & ? & ?).
    exists n. split; [done|]. unfold size. lia.
  - intros k l l' (_ & [e He]%Lookup.labels_iff & _) (_ & [e' He']%Lookup.labels_iff & _) Est.
    pose proof (sr_inj _ _ _ _ Hs _ _ _ _ He He' Est). congruence.
  - intros k l (Hk & Hl & _ & Hkl). destruct (sr_edges _ _ _ _ Hs k l Hk Hl) as (es & He & Hin).
    exists es. split; [done|]. intros j m Hjm. apply Hr. by econstructor.
  - intros k l i (_ & [e He]%Lookup.labels_iff & Hw & _) Hi. destruct (Hw i Hi) as (w & ? & ?).
    exists w. do 2 (split; [done|]). rewrite (sr_pos _ _ _ _ Hs _ _ He). by eapply Lookup.label_at_valid.
  - done.
  - split; [apply length_replicate|]. unfold fresh_visited. cbn [visited]. intros k w Hw.
    apply lookup_replicate in Hw as [-> _]. by rewrite length_replicate.
  - done.
  - intros k l (n & _ & w & x & Hw & Hx & Hne). simpl in Hw. apply lookup_replicate in Hw as [-> _].
    apply lookup_replicate in Hx as [-> _]. done.
  - unfold todo, fresh_visited, Calc.search_fuel. simpl. by rewrite sum_replicate, todo_row_unseen.
  - intros k l P (_ & _ & _ & Hkl) HP Hstep. induction Hkl as [|k l es j m Hkl IH He Hin]; [done|].
    eapply Hstep; [by apply Hr|done..].
  - exists st'. split; [done|]. split; [done|]. intros e He. rewrite C by done. unfold contributes.
    split; (intros [?|H]; [by left|right]).
    + destruct H as (k & l & (_ & _ & _ & Hkl) & i & Hi & Hc). by exists k, l, i.
    + destruct H as (k & l & i & Hkl & Hi & Hc). exists k, l. split; [by apply Hr|by exists i].
Qed.

End Dfs.
