(* ===== verification/RAHb.v ===== *)
(** * What the RA driver's views contain (properties of RAViews.v).

    The automata of [calculate0] and [calculate1] are read back as relations of
    the graph: program order, thread creation and joins, and release/acquire
    synchronisation through reads-from and read-modify-writes. *)
From S2P Require Import Prelude Event SVal SAddr VSet Deps Views Labels LabelClasses Graph GraphBase GraphRf GraphSync Iterators RAViews RASearch.
From stdpp Require Import relations.
#[local] Open Scope Z_scope.

(** ** The visit functions are searches over edges *)
Module Edges.
Import ExecutionGraph GraphIterators Search Calc Dfs.

Definition edges0 (g : Graph) (k : nat) (lab : Label) : outcome (list (nat * Label)) :=
  match k with
  | 0%nat => p ← tc_pred g lab; q ← tj_pred g lab; Ret (edge 2 p ++ edge 2 q ++ [])
  | 1%nat =>
      p ← po_imm_pred g lab;
      let fence cls := if acq_and cls lab then p else None in
      Ret (edge 4 (when EventLabel.isAtLeastAcquire p) ++ edge 0 p ++ edge 6 (fence Isa.FenceLabel)
           ++ edge 6 (fence Isa.ThreadJoinLabel) ++ edge 6 (fence Isa.ThreadStartLabel) ++ [])
  | 3%nat =>
      p ← po_imm_pred g lab;
      Ret (edge 2 (when (rel_and Isa.FenceLabel) p) ++ edge 2 (when (rel_and Isa.ThreadCreateLabel) p)
           ++ edge 2 (when (rel_and Isa.ThreadFinishLabel) p) ++ edge 3 p ++ [])
  | 4%nat =>
      p ← rf_pred g lab; w ← whenM (rmw_write g) p;
      Ret (edge 2 (when EventLabel.isAtLeastRelease p) ++ edge 3 p ++ edge 5 w ++ [])
  | 5%nat => p ← po_imm_pred g lab; r ← whenM (rmw_read g) p; Ret (edge 4 r ++ [])
  | 6%nat =>
      p ← rf_pred g lab; w ← whenM (rmw_write g) p; q ← po_imm_pred g lab;
      Ret (edge 2 (when EventLabel.isAtLeastRelease p) ++ edge 3 p ++ edge 5 w ++ edge 6 q ++ [])
  | _ => Ret []
  end.
Definition collect0 (k : nat) : option nat := match k with 0%nat | 2%nat => Some 0%nat | _ => None end.

Definition edges1 (g : Graph) (k : nat) (lab : Label) : outcome (list (nat * Label)) :=
  match k with
  | 0%nat =>
      p ← tc_pred g lab; q ← tj_pred g lab; r ← rf_pred g lab; Ret (edge 2 p ++ edge 2 q ++ edge 2 r ++ [])
  | 1%nat => p ← po_imm_pred g lab; Ret (edge 0 p ++ [])
  | _ => Ret []
  end.
Definition collect1 (k : nat) : option nat := match k with 0%nat | 2%nat => Some 1%nat | _ => None end.

Lemma bind_ret {A B} (m : outcome A) (f f' : A -> outcome B) y :
  (forall x, m = Ret x -> f x = Ret y -> f' x = Ret y) -> m ≫= f = Ret y -> m ≫= f' = Ret y.
Proof. destruct m; simpl; auto; discriminate. Qed.
(** The loop over the edges against the sequence of visits. *)
Lemma follow_edge (f : nat -> Label -> State -> outcome State) k f' p es st (h h' : State -> outcome State) y :
  (forall l s s', f k l s = Ret s' -> f' l s = Ret s') ->
  (forall x, mfold (fun st e => visit_next (fst e) (f (fst e)) (Some (snd e)) st) es x ≫= h = Ret y ->
    h' x = Ret y) ->
  mfold (fun st e => visit_next (fst e) (f (fst e)) (Some (snd e)) st) (edge k p ++ es) st ≫= h = Ret y ->
  visit_next k f' p st ≫= h' = Ret y.
Proof.
  intros Hf Hh H. rewrite mfold_edge in H. destruct (visit_next k (f k) p st) as [x| |] eqn:E; try discriminate H.
  rewrite (visit_next_mono k (f k) f' p st x Hf E). simpl in *. by apply Hh.
Qed.

(** Follows the search through the pointers a visit function reads. *)
Ltac read_pointers H :=
  repeat match goal with
  | |- context [mbind _ (?q ?g ?lab)] =>
      lazymatch q with
      | tc_pred => idtac | tj_pred => idtac | rf_pred => idtac | po_imm_pred => idtac
      end;
      destruct (q g lab) as [?p| |]; cbn [mbind outcome_bind] in H |- *; try discriminate H
  | |- context [whenM ?c ?p] =>
      destruct (whenM c p) as [?p| |]; cbn [mbind outcome_bind] in H |- *; try discriminate H
  end.

Ltac follow_edges H IH :=
  repeat match goal with
  | |- mbind _ (visit_next ?k ?f _ _) = Ret _ =>
      revert H; eapply (follow_edge _ k f); [intros ? ? ?; apply (IH k); lia|intros ? H]
  | |- context [if ?b then Ret _ else Ret None] => destruct b; cbn [mbind outcome_bind]
  end; exact H.

Lemma visit0_search g fuel : forall k lab st st',
  (k < 7)%nat -> dfs (edges0 g) collect0 fuel k lab st = Ret st' -> visitCalc0 g fuel k lab st = Ret st'.
Proof.
  induction fuel as [|fuel IH]; intros k lab st st' Hk H; [discriminate H|].
  cbn [dfs] in H.
  destruct k as [|[|[|[|[|[|[|k]]]]]]]; [| | | | | | |lia];
    cbn [visitCalc0];
    unfold visitCalc0_0, visitCalc0_1, visitCalc0_2, visitCalc0_3, visitCalc0_4, visitCalc0_5, visitCalc0_6;
    revert H; apply bind_ret; intros st1 _ H; cbn [take_view collect0 edges0] in H;
    try (revert H; apply bind_ret; intros st2 _ H); cbn [mbind outcome_bind] in H.
  all: read_pointers H; follow_edges H IH.
Qed.

Lemma visit1_search g fuel : forall k lab st st',
  (k < 3)%nat -> dfs (edges1 g) collect1 fuel k lab st = Ret st' -> visitCalc1 g fuel k lab st = Ret st'.
Proof.
  induction fuel as [|fuel IH]; intros k lab st st' Hk H; [discriminate H|].
  cbn [dfs] in H.
  destruct k as [|[|[|k]]]; [| | |lia]; cbn [visitCalc1];
    unfold visitCalc1_0, visitCalc1_1, visitCalc1_2;
    revert H; apply bind_ret; intros st1 _ H; cbn [take_view collect1 edges1] in H;
    try (revert H; apply bind_ret; intros st2 _ H); cbn [mbind outcome_bind] in H.
  all: read_pointers H; follow_edges H IH.
Qed.
End Edges.

(** ** The relations of a graph *)
Module Hb.
Import ExecutionGraph GraphIterators Search Calc Dfs Edges Lookup Rf.

(** The conditions under which view [i] of a new label can be computed: labels
    sit at their positions with stamps of their own, the pointers to
    predecessors lead to labels of the graph, and those have their views. *)
Record navigable (g : Graph) (i : nat) : Prop := {
  nv_labelled : labelled g;
  nv_stamp e l : label_at g e = Some l -> exists n, stamp l = Some n /\ 0 <= n < u32 (timestamp g + 1);
  nv_inj e e' l l' : label_at g e = Some l -> label_at g e' = Some l' -> stamp l = stamp l' -> e = e';
  nv_pred l pred : l ∈ labels g -> pred ∈ [po_imm_pred; rf_pred; tc_pred; tj_pred] ->
    exists o, pred g l = Ret o /\ forall p, o = Some p ->
      p ∈ labels g /\ exists v, EventLabel.view p i = Ret v /\ View.ok v;
}.

Section Relations.
Context (g : Graph).

Definition po_imm (p l : Label) : Prop := po_imm_pred g l = Ret (Some p).
Definition po (p l : Label) : Prop := tc (flip po_imm) l p.
Definition rf (w r : Label) : Prop := rf_pred g r = Ret (Some w).
(** The thread's creator at its start, the joined thread's end at a join. *)
Definition spawned (p l : Label) : Prop := tc_pred g l = Ret (Some p) \/ tj_pred g l = Ret (Some p).
(** The load of the successful read-modify-write that stores [w]. *)
Definition rmw (r w : Label) : Prop := po_imm r w /\ rmw_write g w = Ret true /\ rmw_read g r = Ret true.

Definition release_fence (l : Label) : Prop :=
  EventLabel.isAtLeastRelease l = true /\
  (Isa.FenceLabel (kind l) || Isa.ThreadCreateLabel (kind l) || Isa.ThreadFinishLabel (kind l)) = true.
Definition acquire_fence (l : Label) : Prop :=
  EventLabel.isAtLeastAcquire l = true /\
  (Isa.FenceLabel (kind l) || Isa.ThreadJoinLabel (kind l) || Isa.ThreadStartLabel (kind l)) = true.

(** [rf; (rmw; rf)*]: the stores of the release sequence a read reads from. *)
Inductive release_sequence (w r : Label) : Prop :=
| rs_rf : rf w r -> release_sequence w r
| rs_rmw w' r' : rf w' r -> rmw r' w' -> release_sequence w r' -> release_sequence w r.
(** What a read can synchronise with: a release store of the sequence, or a
    release fence before a store of it. *)
Definition released_to (x r : Label) : Prop :=
  exists w, release_sequence w r /\
    ((x = w /\ EventLabel.isAtLeastRelease w = true) \/ (po x w /\ release_fence x)).
(** The reads whose synchronisation a label sees: an acquire read just before
    it, or any read before it when it is an acquire fence. *)
Definition acquired_by (r l : Label) : Prop :=
  (po_imm r l /\ EventLabel.isAtLeastAcquire r = true) \/ (po r l /\ acquire_fence l).

(** One step of happens-before into a label. *)
Definition hb_step (x l : Label) : Prop :=
  po_imm x l \/ (exists p, po_imm p l /\ spawned x p) \/ (exists r, acquired_by r l /\ released_to x r).

(** *** The automaton's edges *)
Definition table0 (k : nat) (l : Label) (j : nat) (m : Label) : Prop :=
  let read := rf m l /\ ((j = 2%nat /\ EventLabel.isAtLeastRelease m = true) \/ j = 3%nat \/
                         (j = 5%nat /\ rmw_write g m = Ret true)) in
  match k with
  | 0%nat => j = 2%nat /\ spawned m l
  | 1%nat => po_imm m l /\ ((j = 4%nat /\ EventLabel.isAtLeastAcquire m = true) \/ j = 0%nat \/
                            (j = 6%nat /\ acquire_fence l))
  | 3%nat => po_imm m l /\ ((j = 2%nat /\ release_fence m) \/ j = 3%nat)
  | 4%nat => read
  | 5%nat => j = 4%nat /\ po_imm m l /\ rmw_read g m = Ret true
  | 6%nat => read \/ (po_imm m l /\ j = 6%nat)
  | _ => False
  end.

Lemma elem_of_edge k p j m : (j, m) ∈ edge k p <-> j = k /\ p = Some m.
Proof. destruct p; simpl; rewrite ?elem_of_nil, ?list_elem_of_singleton; naive_solver. Qed.
Lemma when_some c p m : when c p = Some m <-> p = Some m /\ c m = true.
Proof.
  destruct p as [l|]; simpl; [|by split; [|intros [? _]]].
  destruct (c l) eqn:E; split; [by intros [= <-]|by intros [? _]|done|].
  intros [[= <-] ?]. congruence.
Qed.
Lemma whenM_some c p o m : whenM c p = Ret o -> (o = Some m <-> p = Some m /\ c m = Ret true).
Proof.
  destruct p as [l|]; simpl; [destruct (c l) as [b| |] eqn:E; simpl|]; intros [= <-].
  - destruct b; split; [by intros [= <-]|by intros [[= <-] _]|done|].
    intros [[= <-] ?]. congruence.
  - split; [done|by intros [? _]].
Qed.
Lemma if_some {A} (b : bool) (p : option A) m : (if b then p else None) = Some m <-> p = Some m /\ b = true.
Proof. destruct b; split; [done|by intros [? _]|done|by intros [_ ?]]. Qed.
Lemma rel_and_fences l cls :
  rel_and cls l = true <-> EventLabel.isAtLeastRelease l = true /\ cls (kind l) = true.
Proof. unfold rel_and. by rewrite andb_true_iff. Qed.
Lemma acq_and_fences l cls :
  acq_and cls l = true <-> EventLabel.isAtLeastAcquire l = true /\ cls (kind l) = true.
Proof. unfold acq_and. by rewrite andb_true_iff. Qed.

Context (i : nat) (Hnav : navigable g i).

Lemma is_rmw_ret l : l ∈ labels g -> exists b, is_rmw g l = Ret b.
Proof.
  intros [e He]%labels_iff. unfold is_rmw. destruct (Isa.ReadLabel (kind l)); [|by eexists].
  destruct (Rmw.isRMWLoad_ret g e l) as [b ->]; [apply Hnav|done|]. by eexists.
Qed.
Lemma rmw_write_ret l : l ∈ labels g -> exists b, rmw_write g l = Ret b.
Proof. intros Hl. unfold rmw_write. destruct (Isa.WriteLabel (kind l)); [by apply is_rmw_ret|by eexists]. Qed.
Lemma rmw_read_ret l : l ∈ labels g -> exists b, rmw_read g l = Ret b.
Proof. intros Hl. unfold rmw_read. destruct (Isa.ReadLabel (kind l)); [by apply is_rmw_ret|by eexists]. Qed.
Lemma whenM_ret c p :
  (forall l, p = Some l -> exists b, c l = Ret b) -> exists o, whenM c p = Ret o.
Proof. intros H. destruct p as [l|]; simpl; [|by eexists]. destruct (H l) as [b ->]; [done|]. by eexists. Qed.

Lemma pred_ret pred l :
  l ∈ labels g -> pred ∈ [po_imm_pred; rf_pred; tc_pred; tj_pred] ->
  exists o, pred g l = Ret o /\ forall p, o = Some p -> p ∈ labels g.
Proof. intros Hl Hp. destruct (nv_pred _ _ Hnav l pred Hl Hp) as (o & ? & Ho). exists o. naive_solver. Qed.

(** Rewrites membership in a list of edges into the pointers behind it. *)
Ltac edge_list :=
  rewrite ?elem_of_app, ?elem_of_edge, ?elem_of_nil, ?when_some, ?if_some, ?rel_and_fences, ?acq_and_fences.
Ltac get_pred p l o H :=
  let Hin := fresh "Hin" in
  destruct (pred_ret p l) as (o & H & Hin); [done|set_solver|rewrite H; cbn [mbind outcome_bind]].

Lemma edges0_table k l :
  (k < 7)%nat -> l ∈ labels g ->
  exists es, edges0 g k l = Ret es /\ forall j m, (j, m) ∈ es <-> table0 k l j m.
Proof.
  intros Hk Hl. unfold table0, spawned, rf, po_imm, release_fence, acquire_fence.
  destruct k as [|[|[|[|[|[|[|k]]]]]]]; [| | | | | | |lia]; cbn [edges0].
  - get_pred tc_pred l p Ep. get_pred tj_pred l q Eq2. eexists; split; [done|]; intros j m. edge_list.
    clear. split; [intros [[-> ->]|[[-> ->]|[]]]; auto|intros [-> [[= ->]|[= ->]]]; auto].
  - get_pred po_imm_pred l p Ep. eexists; split; [done|]; intros j m. edge_list.
    rewrite !orb_true_iff. clear. assert (Ret p = Ret (Some m) <-> p = Some m) as -> by (split; congruence).
    tauto.
  - eexists; split; [done|]. intros j m. by rewrite elem_of_nil.
  - get_pred po_imm_pred l p Ep. eexists; split; [done|]; intros j m. edge_list.
    rewrite !orb_true_iff. clear. assert (Ret p = Ret (Some m) <-> p = Some m) as -> by (split; congruence).
    tauto.
  - get_pred rf_pred l p Ep.
    destruct (whenM_ret (rmw_write g) p) as [w Ew]; [intros; apply rmw_write_ret; auto|].
    rewrite Ew. eexists; split; [done|]; intros j m. edge_list. rewrite (whenM_some _ _ _ _ Ew).
    clear. assert (Ret p = Ret (Some m) <-> p = Some m) as -> by (split; congruence). tauto.
  - get_pred po_imm_pred l p Ep.
    destruct (whenM_ret (rmw_read g) p) as [w Ew]; [intros; apply rmw_read_ret; auto|].
    rewrite Ew. eexists; split; [done|]; intros j m. edge_list. rewrite (whenM_some _ _ _ _ Ew).
    clear. assert (Ret p = Ret (Some m) <-> p = Some m) as -> by (split; congruence). tauto.
  - get_pred rf_pred l p Ep.
    destruct (whenM_ret (rmw_write g) p) as [w Ew]; [intros; apply rmw_write_ret; auto|].
    rewrite Ew. cbn [mbind outcome_bind]. get_pred po_imm_pred l q Eq2.
    eexists; split; [done|]; intros j m. edge_list. rewrite (whenM_some _ _ _ _ Ew).
    clear. assert (Ret p = Ret (Some m) <-> p = Some m) as -> by (split; congruence).
    assert (Ret q = Ret (Some m) <-> q = Some m) as -> by (split; congruence). tauto.
Qed.

Lemma table0_target k l j m : table0 k l j m -> (j < 7)%nat.
Proof. unfold table0. repeat case_match; naive_solver lia. Qed.

(** *** What is collected from each state *)

Definition target0 (k : nat) (l x : Label) : Prop :=
  match k with
  | 0%nat => x = l \/ spawned x l
  | 1%nat => hb_step x l
  | 2%nat => x = l
  | 3%nat => po x l /\ release_fence x
  | 4%nat => released_to x l
  | 5%nat => exists r, po_imm r l /\ rmw_read g r = Ret true /\ released_to x r
  | 6%nat => exists r, (r = l \/ po r l) /\ released_to x r
  | _ => False
  end.

Lemma po_step p l : po_imm p l -> po p l.
Proof. intros H. by apply tc_once. Qed.
Lemma po_left x p l : po_imm p l -> po x p -> po x l.
Proof. intros H H'. by eapply tc_l. Qed.

Lemma released_read x l j m :
  rf m l ->
  (j = 2%nat /\ EventLabel.isAtLeastRelease m = true) \/ j = 3%nat \/ (j = 5%nat /\ rmw_write g m = Ret true) ->
  target0 j m x -> released_to x l.
Proof.
  intros Hrf [[-> Hr]|[->|[-> Hw]]]; cbn [target0].
  - intros ->. exists m. split; [by constructor|auto].
  - intros [Hpo Hf]. exists m. split; [by constructor|auto].
  - intros (r & Hi & Hr & w & Hs & Hx). exists w. split; [|done].
    by eapply (rs_rmw _ _ m r).
Qed.

Lemma target0_edge k l j m x : (k < 7)%nat -> table0 k l j m -> target0 j m x -> target0 k l x.
Proof.
  intros Hk. destruct k as [|[|[|[|[|[|[|k]]]]]]]; [| | | | | | |lia]; cbn [table0].
  - intros [-> Hs] ->. by right.
  - intros [Hp [[-> Ha]|[->|[-> Ha]]]]; cbn [target0].
    + intros Hx. right. right. exists m. split; [by left|done].
    + intros [->|Hx]; [by left|]. right. left. by exists m.
    + intros (r & Hr & Hx). right. right. exists r. split; [|done]. right. split; [|done].
      destruct Hr as [->|Hr]; [by apply po_step|by eapply po_left].
  - done.
  - intros [Hp [[-> Hf]| ->]]; cbn [target0].
    + intros ->. split; [by apply po_step|done].
    + intros [Hx Hf]. split; [by eapply po_left|done].
  - intros [Hrf Hj] Hx. by eapply released_read.
  - intros (-> & Hp & Hr) Hx. by exists m.
  - intros [[Hrf Hj]|[Hp ->]] Hx.
    + exists l. split; [by left|]. by eapply released_read.
    + destruct Hx as (r & Hr & Hx). exists r. split; [|done]. right.
      destruct Hr as [->|Hr]; [by apply po_step|by eapply po_left].
Qed.

Lemma table0_node k l j m :
  (k < 7)%nat -> l ∈ labels g -> table0 k l j m ->
  m ∈ labels g /\ exists v, EventLabel.view m i = Ret v /\ View.ok v.
Proof.
  unfold table0, rf, po_imm, spawned. intros Hk Hl Hin.
  assert (exists pred, pred ∈ [po_imm_pred; rf_pred; tc_pred; tj_pred] /\ pred g l = Ret (Some m))
    as (pred & Hp & E).
  { destruct k as [|[|[|[|[|[|[|k]]]]]]]; [| | | | | | |lia].
    - destruct Hin as [_ [?|?]]; eexists; (split; [|done]); set_solver.
    - exists po_imm_pred; split; [set_solver|tauto].
    - done.
    - exists po_imm_pred; split; [set_solver|tauto].
    - exists rf_pred; split; [set_solver|tauto].
    - exists po_imm_pred; split; [set_solver|tauto].
    - destruct Hin as [[? _]|[? _]]; eexists; (split; [|done]); set_solver. }
  destruct (nv_pred _ _ Hnav l pred) as (o & Eo & Ho); [done..|]. rewrite E in Eo. injection Eo as <-.
  by apply Ho.
Qed.
Lemma table0_label k l j m : (k < 7)%nat -> l ∈ labels g -> table0 k l j m -> m ∈ labels g.
Proof. intros. by eapply table0_node. Qed.

Lemma reach_sound k0 l0 k l x :
  (k0 < 7)%nat -> l0 ∈ labels g -> reach (edges0 g) k0 l0 k l ->
  ((k < 7)%nat /\ l ∈ labels g) /\ (target0 k l x -> target0 k0 l0 x).
Proof.
  intros Hk0 Hl0. induction 1 as [|k l es j m Hr [[Hk Hl] IH] He Hin]; [done|].
  destruct (edges0_table k l Hk Hl) as (es' & He' & Hes). rewrite He in He'. injection He' as <-.
  apply Hes in Hin. split; [split|].
  - by eapply table0_target.
  - by eapply table0_label.
  - intros Hx. apply IH. by eapply target0_edge.
Qed.

(** A node from which the search reaches [x] in a collecting state. *)
Definition leads (k : nat) (l x : Label) : Prop :=
  exists k', reach (edges0 g) k l k' x /\ collect0 k' = Some 0%nat.

Lemma leads_edge k l j m x :
  (k < 7)%nat -> l ∈ labels g -> table0 k l j m -> leads j m x -> leads k l x.
Proof.
  intros Hk Hl Ht (k' & Hr & Hc). exists k'. split; [|done].
  destruct (edges0_table k l Hk Hl) as (es & He & Hes). apply Hes in Ht.
  eapply reach_trans; [|done]. by eapply reach_edge; [constructor|..].
Qed.
Lemma leads_here x : leads 2 x x.
Proof. exists 2%nat. by split; [constructor|]. Qed.

Lemma leads_fence l x : l ∈ labels g -> po x l -> release_fence x -> leads 3 l x.
Proof.
  intros Hl Hpo Hx. revert Hl. induction Hpo as [l x Hp|l p x Hp Hpo IH]; intros Hl.
  - apply (leads_edge 3 l 2 x); [lia|done|by split; [|left]|apply leads_here].
  - apply (leads_edge 3 l 3 p); [lia|done|by split; [|right]|].
    apply IH; [done|]. eapply (table0_label 3 l 3); [lia|done|by split; [|right]].
Qed.

Lemma leads_released k r x :
  k = 4%nat \/ k = 6%nat -> r ∈ labels g -> released_to x r -> leads k r x.
Proof.
  intros Hk Hr (w & Hs & Hx). revert k Hk Hr.
  assert (Ht : forall k l j m, k = 4%nat \/ k = 6%nat -> table0 4 l j m -> table0 k l j m).
  { intros k l j m [->| ->] H; [done|by left]. }
  induction Hs as [r Hrf|r w' r' Hrf (Hi & Hw & Hr') Hs IH]; intros k Hk Hr.
  - destruct Hx as [[-> Hrel]|[Hpo Hf]].
    + apply (leads_edge k r 2 w); [lia|done|apply Ht; [done|]; split; auto|apply leads_here].
    + assert (T : table0 4 r 3 w) by (split; auto).
      apply (leads_edge k r 3 w); [lia|done|by apply Ht|]. apply leads_fence; [|done..].
      eapply table0_label; [|done|apply T]; lia.
  - assert (T : table0 4 r 5 w') by (split; auto). pose proof (table0_label 4 r 5 w' ltac:(lia) Hr T).
    assert (T' : table0 5 w' 4 r') by (split; auto). pose proof (table0_label 5 w' 4 r' ltac:(lia) ltac:(done) T').
    apply (leads_edge k r 5 w'); [lia|done|by apply Ht|].
    apply (leads_edge 5 w' 4 r'); [lia|done..|]. by apply IH; [left|].
Qed.

Lemma leads_acquired l r x : l ∈ labels g -> r = l \/ po r l -> released_to x r -> leads 6 l x.
Proof.
  intros Hl [->|Hpo] Hx; [by apply leads_released; [right|..]|].
  revert Hl. induction Hpo as [l r Hp|l p r Hp Hpo IH]; intros Hl;
    assert (T : table0 6 l 6 _) by (right; split; [exact Hp|done]);
    pose proof (table0_label 6 l 6 _ ltac:(lia) Hl T);
    (eapply (leads_edge 6 l 6); [lia|done|exact T|]).
  - by apply leads_released; [right|..].
  - by apply IH.
Qed.

Lemma leads_hb l x : l ∈ labels g -> hb_step x l -> leads 1 l x.
Proof.
  intros Hl [Hp|[(p & Hp & Hs)|(r & Hr & Hx)]].
  - apply (leads_edge 1 l 0 x); [lia|done|by split; [|right; left]|].
    exists 0%nat. by split; [constructor|].
  - assert (T : table0 1 l 0 p) by (split; auto).
    pose proof (table0_label 1 l 0 p ltac:(lia) Hl T).
    apply (leads_edge 1 l 0 p); [lia|done..|].
    apply (leads_edge 0 p 2 x); [lia|done|by split|apply leads_here].
  - destruct Hr as [[Hp Ha]|[Hpo Ha]].
    + assert (T : table0 1 l 4 r) by (split; auto).
      apply (leads_edge 1 l 4 r); [lia|done..|]. apply leads_released; [by left| |done].
      by eapply (table0_label 1 l 4); [lia|..].
    + assert (exists p, po_imm p l /\ (r = p \/ po r p)) as (p & Hp & Hr).
      { inversion Hpo as [? ? H|? p ? H H']; subst; [exists r|exists p]; auto. }
      assert (T : table0 1 l 6 p) by (split; auto).
      apply (leads_edge 1 l 6 p); [lia|done..|]. eapply leads_acquired; [|done..].
      by eapply (table0_label 1 l 6); [lia|..].
Qed.
End Relations.

(** *** The views *)

Lemma search0_ok g : navigable g 0 -> searchable (edges0 g) collect0 7 g.
Proof.
  intros Hnav. split.
  - intros e l He. by apply (lb_ok _ (nv_labelled _ _ Hnav) e l He).
  - apply Hnav.
  - apply Hnav.
  - intros k l Hk Hl. destruct (edges0_table g 0 Hnav k l Hk Hl) as (es & He & Hes).
    exists es. split; [done|]. intros j m Hin%Hes. split; [by eapply table0_target|].
    split; [by eapply table0_label|]. intros i Hi.
    assert (i = 0%nat) as -> by (unfold collect0 in Hi; repeat case_match; congruence).
    by eapply table0_node.
Qed.

(** What a computed view contains: the events before the label in its thread,
    the first event of every thread, and what the views of [sources] contain. *)
Definition view_of (sources : Label -> Prop) (i : nat) (lab : Label) (v : View.t) : Prop :=
  View.ok v /\ forall e, valid e ->
    View.contains v e = true <->
    index e = 0 \/ (thread e = thread (getPos lab) /\ index e < index (getPos lab)) \/
    exists x, sources x /\ covers i x e.

Lemma start_view (p : Event) :
  valid p -> View.ok (View.updateIdx View.make (EventOps.prev p)) /\
  forall e, valid e ->
    View.contains (View.updateIdx View.make (EventOps.prev p)) e = true <->
    index e = 0 \/ (thread e = thread p /\ index e < index p).
Proof.
  intros [Ht Hi]. split; [by apply View.ok_updateIdx; [apply View.view_ok_make|]|].
  intros e [Het Hei]. rewrite View.view_contains_spec, View.getMax_updateIdx by done. simpl.
  assert (View.getMax View.make (thread e) = 0) as -> by (unfold View.getMax; by case_match).
  destruct (Z.eqb_spec (thread e) (thread p)); lia.
Qed.

Lemma calculate0_view g lab :
  navigable g 0 -> lab ∈ labels g ->
  exists v, calculate0 g lab = Ret v /\ view_of (fun x => hb_step g x lab) 0 lab v.
Proof.
  intros Hnav Hl. assert (valid (getPos lab)) as Hp.
  { apply labels_iff in Hl as [e He]. rewrite (proj1 (lb_ok _ (nv_labelled _ _ Hnav) e lab He)).
    by eapply label_at_valid. }
  destruct (start_view _ Hp) as [Hok Hstart].
  destruct (search_collects _ _ _ g 1 lab _ (search0_ok g Hnav) Hl ltac:(lia) eq_refl Hok)
    as (st & E & Hv & Hc).
  apply visit0_search in E; [|lia]. unfold calculate0. rewrite E.
  cbn [mbind outcome_bind]. eexists. split; [done|]. split; [done|].
  intros e He. rewrite Hc, Hstart by done.
  assert (Hcol : forall k i, collect0 k = Some i -> i = 0%nat).
  { intros k i Hi. unfold collect0 in Hi. repeat case_match; congruence. }
  split.
  - intros [[?|?]|(k & l & i & Hr & Hi & Hcov)]; [by left|by right; left|]. right. right.
    rewrite (Hcol _ _ Hi) in Hcov. exists l. split; [|done].
    apply (reach_sound g 0 Hnav 1 lab k l l); [lia|done..|].
    destruct k as [|[|[|k]]]; try discriminate Hi; [by left|done].
  - intros [?|[?|(x & Hx & Hcov)]]; [by left; left|by left; right|right].
    destruct (leads_hb g 0 Hnav lab x Hl Hx) as (k & Hr & Hk). by exists k, x, 0%nat.
Qed.

(** *** calculate1 *)

(** One step of program order with thread creation, joins and reads-from; the
    edges other than program order are those into the label before. *)
Definition porf_step (g : Graph) (x l : Label) : Prop :=
  po_imm g x l \/ exists p, po_imm g p l /\ (spawned g x p \/ rf g x p).

Definition table1 (g : Graph) (k : nat) (l : Label) (j : nat) (m : Label) : Prop :=
  match k with
  | 0%nat => j = 2%nat /\ (spawned g m l \/ rf g m l)
  | 1%nat => j = 0%nat /\ po_imm g m l
  | _ => False
  end.

Lemma edges1_table g i k l :
  navigable g i -> (k < 3)%nat -> l ∈ labels g ->
  exists es, edges1 g k l = Ret es /\ forall j m, (j, m) ∈ es <-> table1 g k l j m.
Proof.
  intros Hnav Hk Hl. unfold table1, spawned, rf, po_imm.
  destruct k as [|[|[|k]]]; [| | |lia]; cbn [edges1].
  - destruct (pred_ret g i Hnav tc_pred l) as (p & -> & _); [done|set_solver|].
    destruct (pred_ret g i Hnav tj_pred l) as (q & -> & _); [done|set_solver|].
    destruct (pred_ret g i Hnav rf_pred l) as (r & -> & _); [done|set_solver|].
    eexists; split; [done|]; intros j m. rewrite ?elem_of_app, ?elem_of_edge, ?elem_of_nil. clear.
    split; [intros [[-> ->]|[[-> ->]|[[-> ->]|[]]]]; auto|intros [-> [[[= ->]|[= ->]]|[= ->]]]; auto].
  - destruct (pred_ret g i Hnav po_imm_pred l) as (p & -> & _); [done|set_solver|].
    eexists; split; [done|]; intros j m. rewrite ?elem_of_app, ?elem_of_edge, ?elem_of_nil. clear.
    split; [intros [[-> ->]|[]]; auto|intros [-> [= ->]]; auto].
  - eexists; split; [done|]. intros j m. by rewrite elem_of_nil.
Qed.

Lemma table1_node g i k l j m :
  navigable g i -> l ∈ labels g -> table1 g k l j m ->
  (j < 3)%nat /\ m ∈ labels g /\ exists v, EventLabel.view m i = Ret v /\ View.ok v.
Proof.
  unfold table1, rf, po_imm, spawned. intros Hnav Hl Hin.
  assert ((j < 3)%nat /\ exists pred, pred ∈ [po_imm_pred; rf_pred; tc_pred; tj_pred] /\ pred g l = Ret (Some m))
    as (Hj & pred & Hp & E).
  { destruct k as [|[|k]]; [| |done].
    - destruct Hin as [-> [[?|?]|?]]; (split; [lia|]); eexists; (split; [|done]); set_solver.
    - destruct Hin as [-> ?]. split; [lia|]. exists po_imm_pred; split; [set_solver|done]. }
  split; [done|]. destruct (nv_pred _ _ Hnav l pred) as (o & Eo & Ho); [done..|].
  rewrite E in Eo. injection Eo as <-. by apply Ho.
Qed.

Lemma search1_ok g : navigable g 1 -> searchable (edges1 g) collect1 3 g.
Proof.
  intros Hnav. split.
  - intros e l He. by apply (lb_ok _ (nv_labelled _ _ Hnav) e l He).
  - apply Hnav.
  - apply Hnav.
  - intros k l Hk Hl. destruct (edges1_table g 1 k l Hnav Hk Hl) as (es & He & Hes).
    exists es. split; [done|]. intros j m Hin%Hes.
    destruct (table1_node g 1 _ _ _ _ Hnav Hl Hin) as (? & ? & ?). do 2 (split; [done|]). intros i Hi.
    assert (i = 1%nat) as -> by (unfold collect1 in Hi; repeat case_match; congruence). done.
Qed.

Definition target1 (g : Graph) (k : nat) (l x : Label) : Prop :=
  match k with
  | 0%nat => x = l \/ spawned g x l \/ rf g x l
  | 1%nat => porf_step g x l
  | _ => x = l
  end.

Lemma reach1_sound g k0 l0 k l x :
  navigable g 1 -> (k0 < 3)%nat -> l0 ∈ labels g -> reach (edges1 g) k0 l0 k l ->
  ((k < 3)%nat /\ l ∈ labels g) /\ (target1 g k l x -> target1 g k0 l0 x).
Proof.
  intros Hnav Hk0 Hl0. induction 1 as [|k l es j m Hr [[Hk Hl] IH] He Hin]; [done|].
  destruct (edges1_table g 1 k l Hnav Hk Hl) as (es' & He' & Hes). rewrite He in He'. injection He' as <-.
  apply Hes in Hin. destruct (table1_node g 1 _ _ _ _ Hnav Hl Hin) as (? & ? & _).
  split; [done|]. intros Hx. apply IH. destruct k as [|[|k]]; cbn [table1 target1] in *.
  - destruct Hin as [-> Hs]. cbn [target1] in Hx. subst x. tauto.
  - destruct Hin as [-> Hp]. cbn [target1] in Hx. destruct Hx as [->|Hx]; [by left|right].
    by exists m.
  - done.
Qed.

Lemma reach1_complete g l x :
  navigable g 1 -> l ∈ labels g -> porf_step g x l ->
  exists k, reach (edges1 g) 1 l k x /\ collect1 k = Some 1%nat.
Proof.
  intros Hnav Hl Hx.
  assert (exists p, po_imm g p l /\ (x = p \/ spawned g x p \/ rf g x p)) as (p & Hp & Hs).
  { destruct Hx as [?|(p & ? & ?)]; [by exists x; auto|by exists p; auto]. }
  destruct (edges1_table g 1 1 l Hnav ltac:(lia) Hl) as (es & He & Hes).
  assert (Hin : (0%nat, p) ∈ es) by by apply Hes.
  assert (Hr : reach (edges1 g) 1 l 0 p) by (eapply reach_edge; [constructor|done..]).
  destruct Hs as [->|Hs]; [by exists 0%nat|]. exists 2%nat. split; [|done].
  destruct (table1_node g 1 1 l 0 p Hnav Hl) as (_ & Hp' & _); [by split|].
  destruct (edges1_table g 1 0 p Hnav ltac:(lia) Hp') as (es' & He' & Hes').
  eapply reach_edge; [done..|]. apply Hes'. by split.
Qed.

Lemma valid_pos g l : labelled g -> l ∈ labels g -> valid (getPos l).
Proof.
  intros Hg [e He]%labels_iff. rewrite (proj1 (lb_ok _ Hg e l He)). by eapply label_at_valid.
Qed.

Lemma calculate1_view g lab :
  navigable g 1 -> lab ∈ labels g ->
  exists v, calculate1 g lab = Ret v /\ view_of (fun x => porf_step g x lab) 1 lab v.
Proof.
  intros Hnav Hl. destruct (start_view _ (valid_pos g lab (nv_labelled _ _ Hnav) Hl)) as [Hok Hstart].
  destruct (search_collects _ _ _ g 1 lab _ (search1_ok g Hnav) Hl ltac:(lia) eq_refl Hok)
    as (st & E & Hv & Hc).
  apply visit1_search in E; [|lia]. unfold calculate1. rewrite E.
  cbn [mbind outcome_bind]. eexists. split; [done|]. split; [done|].
  intros e He. rewrite Hc, Hstart by done.
  assert (Hcol : forall k i, collect1 k = Some i -> i = 1%nat).
  { intros k i Hi. unfold collect1 in Hi. repeat case_match; congruence. }
  split.
  - intros [[?|?]|(k & l & i & Hr & Hi & Hcov)]; [by left|by right; left|]. right. right.
    rewrite (Hcol _ _ Hi) in Hcov. exists l. split; [|done].
    apply (reach1_sound g 1 lab k l l); [done|lia|done..|].
    destruct k as [|[|[|k]]]; try discriminate Hi; [by left|done].
  - intros [?|[?|(x & Hx & Hcov)]]; [by left; left|by left; right|right].
    destruct (reach1_complete g lab x Hnav Hl Hx) as (k & Hr & Hk). by exists k, x, 1%nat.
Qed.

(** *** Exact views *)
Section Exact.
Context (g : Graph) (Hg : labelled g) (i : nat) (step : Label -> Label -> Prop).
Context (step_po : forall x l, po_imm g x l -> step x l).

Definition before (x l : Label) : Prop := tc (flip step) l x.
(** The view of [l] contains exactly the labels before it, and the first label
    of every thread. *)
Definition exact_view (l : Label) (v : View.t) : Prop :=
  View.ok v /\ forall e x, label_at g e = Some x ->
    View.contains v e = true <-> index e = 0 \/ before x l.

Lemma po_imm_prev e l : label_at g e = Some l -> index e <> 0 ->
  po_imm_pred g l = Some <$> getEventLabel g (EventOps.prev e).
Proof.
  intros He Hi. unfold po_imm_pred, getPreviousLabel. rewrite (proj1 (lb_ok _ Hg e l He)).
  by destruct (Z.eqb_spec (index e) 0).
Qed.

Lemma before_po n : forall e x l,
  label_at g e = Some x -> label_at g (mkEvent (thread e) (index e + 1 + Z.of_nat n)) = Some l -> before x l.
Proof.
  induction n as [|n IH]; intros e x l Hx Hl; pose proof (label_at_valid _ _ _ Hx) as [Ht Hi].
  - apply tc_once, step_po. unfold po_imm. rewrite (po_imm_prev _ _ Hl) by (simpl; lia).
    assert (EventOps.prev (mkEvent (thread e) (index e + 1 + Z.of_nat 0)) = e) as ->.
    { unfold EventOps.prev. destruct e; simpl. f_equal; lia. }
    unfold getEventLabel. by rewrite Hx.
  - assert (is_Some (label_at g (mkEvent (thread e) (index e + 1 + Z.of_nat n)))) as [p Hp].
    { apply label_at_some_iff. pose proof (proj1 (label_at_some_iff g _) (ex_intro _ _ Hl)) as Hc.
      unfold containsPos in *. simpl in *. rewrite !andb_true_iff, !Z.geb_leb, !Z.leb_le, !Z.ltb_lt in *. lia. }
    eapply tc_l; [|by apply (IH e x p)]. apply step_po. unfold po_imm.
    rewrite (po_imm_prev _ _ Hl) by (simpl; lia).
    assert (EventOps.prev (mkEvent (thread e) (index e + 1 + Z.of_nat (S n))) =
            mkEvent (thread e) (index e + 1 + Z.of_nat n)) as -> by (unfold EventOps.prev; simpl; f_equal; lia).
    unfold getEventLabel. by rewrite Hp.
Qed.

Lemma before_index e x l :
  label_at g e = Some x -> l ∈ labels g -> thread e = thread (getPos l) -> index e < index (getPos l) -> before x l.
Proof.
  intros Hx [e' He']%labels_iff Ht Hi. rewrite (proj1 (lb_ok _ Hg e' l He')) in Ht, Hi.
  apply (before_po (Z.to_nat (index e' - index e - 1)) e); [done|].
  replace (index e + 1 + _) with (index e') by lia. rewrite Ht. by destruct e'.
Qed.

Lemma exact_step l v :
  l ∈ labels g -> view_of (fun x => step x l) i l v ->
  (forall x, step x l -> x ∈ labels g /\ exists w, EventLabel.view x i = Ret w /\ exact_view x w) ->
  exact_view l v.
Proof.
  intros Hl [Hok Hv] Hpre. split; [done|]. intros e x Hx. pose proof (label_at_valid _ _ _ Hx) as He.
  pose proof (proj1 (lb_ok _ Hg e x Hx)) as Hpos.
  rewrite Hv by done. split.
  - intros [?|[[Ht Hi]|(p & Hp & w & Ew & Hc)]]; [by left|right; by eapply before_index|].
    destruct (Hpre p Hp) as (Hpl & w' & Ew' & Hw' & Hex). rewrite Ew in Ew'. injection Ew' as <-.
    destruct Hc as [Hc|[Ht Hi]].
    + apply (Hex e x Hx) in Hc as [?|Hb]; [by left|right]. by eapply tc_l.
    + right. destruct (Z.eq_dec (index e) (index (getPos p))) as [Hi'|Hi'].
      * apply tc_once. unfold flip. replace x with p; [done|].
        apply labels_iff in Hpl as [e' He']. rewrite (proj1 (lb_ok _ Hg e' p He')) in *.
        assert (e = e') as <- by (destruct e, e'; simpl in *; congruence). congruence.
      * eapply tc_l; [exact Hp|]. eapply before_index; [done..|lia].
  - intros [?|Hb]; [by left|]. right. right. inversion Hb as [? ? Hp|? p ? Hp Hb']; subst.
    + exists x. split; [done|]. destruct (Hpre x Hp) as (_ & w & Ew & _).
      exists w. split; [done|]. right. split; [done|lia].
    + exists p. split; [done|]. destruct (Hpre p Hp) as (_ & w & Ew & _ & Hex).
      exists w. split; [done|]. left. apply (Hex _ x Hx). by right.
Qed.
End Exact.

(** Happens-before, and program order with reads-from. *)
Definition hb (g : Graph) : Label -> Label -> Prop := before (hb_step g).
Definition porf (g : Graph) : Label -> Label -> Prop := before (porf_step g).
End Hb.
