(* ===== verification/RAExact.v ===== *)
(** * The views of the RA driver are exact (properties of RAViews.v): the
    happens-before view, the view of program order with reads-from and the
    prefix view of a label contain exactly the labels before it. *)
From S2P Require Import Prelude Event SVal SAddr VSet Deps Views Labels LabelClasses Graph GraphBase GraphRf Iterators RAViews RASearch RAHb.
From stdpp Require Import relations.
#[local] Open Scope Z_scope.

Module Exact.
Import ExecutionGraph GraphIterators EdgeLabels Search Calc Dfs Edges Lookup Rf Hb.

(** ** Predecessors are labels of the graph *)

Definition preds : list (Graph -> Label -> outcome (option Label)) :=
  [po_imm_pred; rf_pred; tc_pred; tj_pred].

Lemma getEventLabel_in g e l : getEventLabel g e = Ret l -> l ∈ labels g.
Proof. unfold getEventLabel. intros H. apply labels_iff. exists e. destruct (label_at g e); congruence. Qed.
Lemma fmap_ret {A B} (f : A -> B) m y : f <$> m = Ret y -> exists x, m = Ret x /\ f x = y.
Proof. destruct m as [x| |]; simpl; intros [= <-]; eauto. Qed.
Lemma dyn_cast_some c l p : dyn_cast c l = Some p -> p = l.
Proof. unfold dyn_cast. case_match; congruence. Qed.

Lemma pred_in g l pred p : pred ∈ preds -> pred g l = Ret (Some p) -> p ∈ labels g.
Proof.
  unfold preds. rewrite !elem_of_cons, elem_of_nil. intros [->|[->|[->|[->|[]]]]].
  - unfold po_imm_pred, getPreviousLabel. case_match; [done|].
    intros (x & ? & [= <-])%fmap_ret. by eapply getEventLabel_in.
  - unfold rf_pred, deref. case_match; [done|]. case_match; [|done].
    intros (x & ? & [= <-])%fmap_ret. by eapply getEventLabel_in.
  - unfold tc_pred. case_match; [|done]. intros (x & ? & ->%dyn_cast_some)%fmap_ret.
    by eapply getEventLabel_in.
  - unfold tj_pred. case_match; [|done]. intros (x & ? & ->%dyn_cast_some)%fmap_ret.
    by eapply getEventLabel_in.
Qed.

(** ** Stamps grow along every edge *)

Definition stamp_lt (x l : Label) : Prop := exists s t, stamp x = Some s /\ stamp l = Some t /\ 0 <= s < t.
Definition stamp_ordered (g : Graph) : Prop :=
  forall l pred p, l ∈ labels g -> pred ∈ preds -> pred g l = Ret (Some p) -> stamp_lt p l.

Lemma stamp_lt_trans x y z : stamp_lt x y -> stamp_lt y z -> stamp_lt x z.
Proof. intros (s & t & ? & ? & ?) (t' & u & ? & ? & ?). exists s, u. split_and!; try done; simplify_eq; lia. Qed.

Section Ordered.
Context (g : Graph) (Ho : stamp_ordered g).

Lemma po_imm_lt p l : l ∈ labels g -> po_imm g p l -> stamp_lt p l /\ p ∈ labels g.
Proof.
  intros Hl Hp. split; [apply (Ho l po_imm_pred)|apply (pred_in g l po_imm_pred)]; try done; set_solver.
Qed.
Lemma po_lt p l : l ∈ labels g -> po g p l -> stamp_lt p l /\ p ∈ labels g.
Proof.
  intros Hl Hp. revert Hl. induction Hp as [l x H|l p x H _ IH]; intros Hl.
  - by apply po_imm_lt.
  - destruct (po_imm_lt p l Hl H) as [Hlt Hin]. destruct (IH Hin). split; [|done].
    by eapply stamp_lt_trans.
Qed.
Lemma rf_lt w r : r ∈ labels g -> rf g w r -> stamp_lt w r /\ w ∈ labels g.
Proof. intros Hr H. split; [apply (Ho r rf_pred)|apply (pred_in g r rf_pred)]; try done; set_solver. Qed.
Lemma spawned_lt p l : l ∈ labels g -> spawned g p l -> stamp_lt p l /\ p ∈ labels g.
Proof.
  intros Hl [H|H].
  - split; [apply (Ho l tc_pred)|apply (pred_in g l tc_pred)]; try done; set_solver.
  - split; [apply (Ho l tj_pred)|apply (pred_in g l tj_pred)]; try done; set_solver.
Qed.
Lemma release_sequence_lt w r :
  r ∈ labels g -> release_sequence g w r -> stamp_lt w r /\ w ∈ labels g.
Proof.
  intros Hr H. revert Hr. induction H as [r H|r w' r' Hrf (Hp & _) _ IH]; intros Hr.
  - by apply rf_lt.
  - destruct (rf_lt w' r Hr Hrf) as [L1 I1]. destruct (po_imm_lt r' w' I1 Hp) as [L2 I2].
    destruct (IH I2) as [L3 I3]. split; [|done]. eapply stamp_lt_trans; [done|].
    by eapply stamp_lt_trans.
Qed.
Lemma hb_step_lt x l : l ∈ labels g -> hb_step g x l -> stamp_lt x l /\ x ∈ labels g.
Proof.
  intros Hl [H|[(p & Hp & H)|(r & Hr & w & Hw & Hx)]].
  - by apply po_imm_lt.
  - destruct (po_imm_lt p l Hl Hp) as [L1 I1]. destruct (spawned_lt x p I1 H).
    split; [|done]. by eapply stamp_lt_trans.
  - assert (stamp_lt r l /\ r ∈ labels g) as [L1 I1].
    { destruct Hr as [[Hr _]|[Hr _]]; [by apply po_imm_lt|by apply po_lt]. }
    destruct (release_sequence_lt w r I1 Hw) as [L2 I2].
    pose proof (stamp_lt_trans _ _ _ L2 L1). destruct Hx as [[-> _]|[Hx _]]; [done|].
    destruct (po_lt x w I2 Hx). split; [|done]. by eapply stamp_lt_trans.
Qed.
Lemma porf_step_lt x l : l ∈ labels g -> porf_step g x l -> stamp_lt x l /\ x ∈ labels g.
Proof.
  intros Hl [H|(p & Hp & H)]; [by apply po_imm_lt|].
  destruct (po_imm_lt p l Hl Hp) as [L1 I1].
  assert (stamp_lt x p /\ x ∈ labels g) as [? ?] by (destruct H; [by apply spawned_lt|by apply rf_lt]).
  split; [|done]. by eapply stamp_lt_trans.
Qed.
End Ordered.

(** ** Exactness *)

Definition has_exact (g : Graph) (step : Label -> Label -> Prop) (i : nat) (l : Label) : Prop :=
  exists v, EventLabel.view l i = Ret v /\ exact_view g step l v.

Lemma hb_step_in g x l : navigable g 0 -> l ∈ labels g -> hb_step g x l -> x ∈ labels g.
Proof.
  intros Hn Hl Hx. destruct (leads_hb g 0 Hn l x Hl Hx) as (k & Hr & _).
  destruct (reach_sound g 0 Hn 1 l k x x) as [[_ H] _]; [lia|done..].
Qed.
Lemma porf_step_in g x l : navigable g 1 -> l ∈ labels g -> porf_step g x l -> x ∈ labels g.
Proof.
  intros Hn Hl Hx. destruct (reach1_complete g l x Hn Hl Hx) as (k & Hr & _).
  destruct (reach1_sound g 1 l k x x Hn) as [[_ H] _]; [lia|done..].
Qed.

Lemma calculate0_exact g l :
  navigable g 0 -> l ∈ labels g -> (forall x, hb_step g x l -> has_exact g (hb_step g) 0 x) ->
  exists v, calculate0 g l = Ret v /\ exact_view g (hb_step g) l v.
Proof.
  intros Hn Hl Hx. destruct (calculate0_view g l Hn Hl) as (v & E & Hv). exists v. split; [done|].
  eapply (exact_step g (nv_labelled _ _ Hn) 0); [by left|done..|].
  intros x H. split; [by eapply hb_step_in|by apply Hx].
Qed.
Lemma calculate1_exact g l :
  navigable g 1 -> l ∈ labels g -> (forall x, porf_step g x l -> has_exact g (porf_step g) 1 x) ->
  exists v, calculate1 g l = Ret v /\ exact_view g (porf_step g) l v.
Proof.
  intros Hn Hl Hx. destruct (calculate1_view g l Hn Hl) as (v & E & Hv). exists v. split; [done|].
  eapply (exact_step g (nv_labelled _ _ Hn) 1); [by left|done..|].
  intros x H. split; [by eapply porf_step_in|by apply Hx].
Qed.

(** Stored views are exact when each is what the driver computes. *)
Lemma stored_exact g (step : Label -> Label -> Prop) i (calc : Graph -> Label -> outcome View.t) :
  (forall x l, l ∈ labels g -> step x l -> stamp_lt x l /\ x ∈ labels g) ->
  (forall l, l ∈ labels g -> (forall x, step x l -> has_exact g step i x) ->
    exists v, calc g l = Ret v /\ exact_view g step l v) ->
  (forall l, l ∈ labels g -> exists s, stamp l = Some s /\ 0 <= s) ->
  (forall l, l ∈ labels g -> EventLabel.view l i = calc g l) ->
  forall l, l ∈ labels g -> has_exact g step i l.
Proof.
  intros Hlt Hcalc Hs Hview l Hl. destruct (Hs l Hl) as (s & Es & Hs0). revert s Hs0 l Es Hl.
  apply (Zlt_0_ind (fun s => forall l, stamp l = Some s -> l ∈ labels g -> has_exact g step i l)).
  intros s IH _ l Es Hl. destruct (Hcalc l Hl) as (v & E & Hv).
  - intros x Hx. destruct (Hlt x l Hl Hx) as [(a & b & Ea & Eb & Hab) Hin].
    apply (IH a); [|done..]. rewrite Es in Eb. injection Eb as <-. lia.
  - exists v. by rewrite Hview.
Qed.

(** ** The prefix view *)

(** The labels whose prefixes a label inherits: the one before it, and what that
    one reads from, was created by or joins. *)
Definition prefix_events (g : Graph) (p : Label) : list Event :=
  (if Isa.ReadLabel (kind p) then map fst (ReadLabel.getRfs p) else []) ++
  (if Isa.ThreadStartLabel (kind p) then [getParentCreate p] else []) ++
  (if Isa.ThreadJoinLabel (kind p) then [getLastThreadEvent g (join_getChildId p)] else []).
Definition prefix_step (g : Graph) (x l : Label) : Prop :=
  exists p, po_imm g p l /\ (x = p \/ exists e, e ∈ prefix_events g p /\ label_at g e = Some x).
(** The prefix view of [l] contains exactly [l], the labels before it and the
    first label of every thread. *)
Definition exact_prefix (g : Graph) (l : Label) (v : View.t) : Prop :=
  View.ok v /\ forall e x, label_at g e = Some x ->
    View.contains v e = true <-> index e = 0 \/ x = l \/ before (prefix_step g) x l.
Definition has_prefix (g : Graph) (l : Label) : Prop :=
  exists v, prefixView l = Some (CView v) /\ exact_prefix g l v.

Lemma mfold_one {A S} (f : S -> A -> outcome S) x s : mfold f [x] s = f s x.
Proof. simpl. by destruct (f s x). Qed.

Lemma calcPPoRfBefore_fold g lab p :
  po_imm g p lab ->
  calcPPoRfBefore g lab =
  (v ← update_clock (View.updateIdx View.make (getPos lab)) (prefixView p);
   mfold (update_prefix_of g) (prefix_events g p) v).
Proof.
  unfold po_imm, po_imm_pred, calcPPoRfBefore, prefix_events. intros ->. cbn [mbind outcome_bind].
  destruct (update_clock _ _) as [v| |]; cbn [mbind outcome_bind]; [|done..].
  rewrite !mfold_app.
  destruct (Isa.ReadLabel _); [destruct (mfold _ _ v) as [v1| |]; [|done..]|];
    cbn [mbind outcome_bind mfold]; rewrite mfold_app;
    (destruct (Isa.ThreadStartLabel _);
      [rewrite mfold_one; destruct (update_prefix_of g _ _) as [v2| |]; [|done..]|]);
    cbn [mbind outcome_bind mfold]; (destruct (Isa.ThreadJoinLabel _); [by rewrite mfold_one|done]).
Qed.

Definition clock_at (g : Graph) (e : Event) (w : View.t) : Prop :=
  exists x, label_at g e = Some x /\ prefixView x = Some (CView w).

Lemma join_prefixes g es : forall v,
  View.ok v -> (forall e, e ∈ es -> exists w, clock_at g e w /\ View.ok w) ->
  exists v', mfold (update_prefix_of g) es v = Ret v' /\ View.ok v' /\
    forall e, valid e -> View.contains v' e = true <->
      View.contains v e = true \/ exists e' w, e' ∈ es /\ clock_at g e' w /\ View.contains w e = true.
Proof.
  induction es as [|a es IH]; intros v Hv Hes.
  { exists v. split; [done|]. split; [done|]. intros e _. split; [by left|].
    intros [?|(? & ? & []%elem_of_nil & _)]; done. }
  destruct (Hes a) as (w & (x & Ex & Ew) & Hw); [left|].
  destruct (IH (View.update v w)) as (v' & E & Hv' & Hc);
    [by apply View.ok_update|by intros; apply Hes; right|].
  exists v'. split; [|split; [done|]].
  - cbn [mfold]. assert (update_prefix_of g v a = Ret (View.update v w)) as ->; [|done].
    unfold update_prefix_of, getEventLabel. rewrite Ex. cbn [mbind outcome_bind]. by rewrite Ew.
  - intros e He. rewrite Hc, View.contains_update by done. setoid_rewrite elem_of_cons. split.
    + intros [[?|?]|(e' & w' & ? & ? & ?)]; [by left|right; exists a, w|right; exists e', w'].
      * split; [by left|]. split; [|done]. by exists x.
      * auto.
    + intros [?|(e' & w' & [->|?] & (x' & Ex' & Ew') & ?)]; [by left; left| |].
      * left. right. rewrite Ex in Ex'. injection Ex' as <-. rewrite Ew in Ew'. by injection Ew' as <-.
      * right. exists e', w'. split; [done|]. split; [by exists x'|done].
Qed.

Lemma pred_or_first g lab :
  labelled g -> lab ∈ labels g ->
  (po_imm_pred g lab = Ret None /\ index (getPos lab) = 0) \/ exists p, po_imm g p lab /\ p ∈ labels g /\ index (getPos lab) <> 0.
Proof.
  intros Hg [e He]%labels_iff. pose proof (proj1 (lb_ok _ Hg e lab He)) as Hp.
  unfold po_imm, po_imm_pred, getPreviousLabel. rewrite Hp.
  destruct (Z.eqb_spec (index e) 0); [by left|right].
  assert (is_Some (label_at g (EventOps.prev e))) as [p Ep].
  { apply label_at_some_iff. pose proof (label_at_valid _ _ _ He) as [? ?].
    pose proof (proj1 (label_at_some_iff g _) (ex_intro _ _ He)) as Hc.
    unfold containsPos in *. simpl in *. rewrite !andb_true_iff, !Z.geb_leb, !Z.leb_le, !Z.ltb_lt in *. lia. }
  exists p. unfold getEventLabel. rewrite Ep. split; [done|]. split; [|done]. apply labels_iff; eauto.
Qed.

Lemma upto_view (p : Event) :
  valid p -> View.ok (View.updateIdx View.make p) /\
  forall e, valid e ->
    View.contains (View.updateIdx View.make p) e = true <->
    index e = 0 \/ (thread e = thread p /\ index e <= index p).
Proof.
  intros [Ht Hi]. split; [by apply View.ok_updateIdx; [apply View.view_ok_make|]|].
  intros e [Het Hei]. rewrite View.view_contains_spec, View.getMax_updateIdx by done.
  assert (View.getMax View.make (thread e) = 0) as -> by (unfold View.getMax; by case_match).
  destruct (Z.eqb_spec (thread e) (thread p)); lia.
Qed.

Lemma prefix_po g x l : po_imm g x l -> prefix_step g x l.
Proof. intros H. exists x. auto. Qed.

(** The prefixes of the labels stepped from, seen from [lab]. *)
Lemma prefix_inherit g q lab v e x :
  prefix_step g q lab -> exact_prefix g q v -> label_at g e = Some x ->
  View.contains v e = true -> index e = 0 \/ before (prefix_step g) x lab.
Proof.
  intros Hq [_ Hv] Hx Hc. apply (Hv e x Hx) in Hc as [?|[->|?]]; [by left|right|right].
  - by apply tc_once.
  - by eapply tc_l.
Qed.
Lemma before_first g x lab :
  before (prefix_step g) x lab ->
  exists q, prefix_step g q lab /\ (x = q \/ before (prefix_step g) x q).
Proof. intros H. inversion H as [? ? Hq|? q ? Hq Hq']; subst; [exists x|exists q]; auto. Qed.

Lemma calcPPoRfBefore_ret g lab :
  labelled g -> lab ∈ labels g ->
  (forall p e, po_imm g p lab -> e ∈ prefix_events g p -> is_Some (label_at g e)) ->
  (forall x, prefix_step g x lab -> has_prefix g x) ->
  exists v, calcPPoRfBefore g lab = Ret v /\ View.ok v /\
    forall e, valid e -> View.contains v e = true <->
      index e = 0 \/ (thread e = thread (getPos lab) /\ index e <= index (getPos lab)) \/
      exists q w, prefix_step g q lab /\ prefixView q = Some (CView w) /\ View.contains w e = true.
Proof.
  intros Hg Hl Hev Hpre. destruct (upto_view _ (valid_pos g lab Hg Hl)) as [Hok Hup].
  destruct (pred_or_first g lab Hg Hl) as [[E Hi]|(p & Hp & Hpl & Hi)].
  - exists (View.updateIdx View.make (getPos lab)). split; [|split; [done|]].
    + unfold calcPPoRfBefore. unfold po_imm_pred in E. by rewrite E.
    + intros e He. rewrite Hup by done. split; [tauto|]. intros [?|[?|(q & w & (p & Hp & _) & _)]]; auto.
      unfold po_imm in Hp. congruence.
  - destruct (Hpre p) as (wp & Ewp & Hwp); [by apply prefix_po|].
    destruct (join_prefixes g (prefix_events g p) (View.update (View.updateIdx View.make (getPos lab)) wp))
      as (v & E & Hv & Hc); [by apply View.ok_update| |].
    { intros e He. destruct (Hev p e Hp He) as [x Hx].
      destruct (Hpre x) as (w & Ew & Hw & _); [exists p; split; [done|right; by exists e]|].
      exists w. split; [by exists x|done]. }
    exists v. split; [|split; [done|]].
    + rewrite (calcPPoRfBefore_fold g lab p Hp), Ewp. exact E.
    + intros e He. rewrite Hc, View.contains_update, Hup by done. split.
      * intros [[[?|?]|?]|(e' & w & He' & (x & Hx & Ew) & ?)]; auto; right; right.
        -- exists p, wp. by split; [apply prefix_po|].
        -- exists x, w. split; [|done]. exists p. split; [done|]. right. by exists e'.
      * intros [?|[?|(q & w & (p' & Hp' & Hq) & Ew & ?)]]; auto.
        unfold po_imm in Hp, Hp'. rewrite Hp in Hp'. injection Hp' as <-.
        destruct Hq as [->|(e' & He' & Hx)].
        -- left. right. congruence.
        -- right. exists e', w. split; [done|]. split; [by exists q|done].
Qed.

Lemma prefix_exact g lab :
  labelled g -> lab ∈ labels g ->
  (forall p e, po_imm g p lab -> e ∈ prefix_events g p -> is_Some (label_at g e)) ->
  (forall x, prefix_step g x lab -> has_prefix g x) ->
  exists v, calcPPoRfBefore g lab = Ret v /\ exact_prefix g lab v.
Proof.
  intros Hg Hl Hev Hpre. destruct (calcPPoRfBefore_ret g lab Hg Hl Hev Hpre) as (v & E & Hv & Hc).
  exists v. split; [done|]. split; [done|]. intros e x Hx. pose proof (label_at_valid _ _ _ Hx) as He.
  pose proof (proj1 (lb_ok _ Hg e x Hx)) as Hpos. rewrite Hc by done. split.
  - intros [?|[[Ht Hi]|(q & w & Hq & Ew & Hw)]]; [by left| |].
    + right. destruct (Z.eq_dec (index e) (index (getPos lab))) as [Hi'|Hi'].
      * left. apply labels_iff in Hl as [e' He']. rewrite (proj1 (lb_ok _ Hg e' lab He')) in *.
        assert (e = e') as <- by (destruct e, e'; simpl in *; congruence). congruence.
      * right. eapply (before_index g Hg); [by apply prefix_po|done..|lia].
    + destruct (Hpre q Hq) as (w' & Ew' & Hx'). rewrite Ew in Ew'. injection Ew' as <-.
      destruct (prefix_inherit g q lab w e x Hq Hx' Hx Hw); auto.
  - intros [?|[->|Hb]]; [by left|right; left; rewrite Hpos; split; [done|lia]|].
    right. right. destruct (before_first g x lab Hb) as (q & Hq & Hxq).
    destruct (Hpre q Hq) as (w & Ew & _ & Hw). exists q, w. do 2 (split; [done|]). apply (Hw e x Hx). tauto.
Qed.

(** Stored prefix views are exact when each is what the driver computes. *)
Definition prefix_ordered (g : Graph) : Prop :=
  forall l p, l ∈ labels g -> po_imm g p l -> stamp_lt p l /\
    forall e, e ∈ prefix_events g p -> exists x, label_at g e = Some x /\ stamp_lt x l.
Lemma stored_prefix g :
  labelled g -> prefix_ordered g -> (forall l, l ∈ labels g -> exists s, stamp l = Some s /\ 0 <= s) ->
  (forall l, l ∈ labels g -> option_map Ret (prefixView l) = Some (calculatePrefixView g l)) ->
  forall l, l ∈ labels g -> has_prefix g l.
Proof.
  intros Hg Ho Hs Hview l Hl. destruct (Hs l Hl) as (s & Es & Hs0). revert s Hs0 l Es Hl.
  apply (Zlt_0_ind (fun s => forall l, stamp l = Some s -> l ∈ labels g -> has_prefix g l)).
  intros s IH _ l Es Hl. destruct (prefix_exact g l Hg Hl) as (v & E & Hv).
  - intros p e Hp He. destruct (Ho l p Hl Hp) as [_ H]. destruct (H e He) as (x & -> & _). by eexists.
  - intros x (p & Hp & Hx). destruct (Ho l p Hl Hp) as [Hlt H].
    assert (stamp_lt x l /\ x ∈ labels g) as [(a & b & Ea & Eb & Hab) Hin].
    { destruct Hx as [->|(e & He & Hx)].
      - split; [done|]. apply (pred_in g l po_imm_pred); [set_solver|done].
      - destruct (H e He) as (y & Hy & ?). rewrite Hx in Hy. injection Hy as <-. split; [done|].
        apply labels_iff; eauto. }
    apply (IH a); [|done..]. rewrite Es in Eb. injection Eb as <-. lia.
  - exists v. split; [|done]. specialize (Hview l Hl). unfold calculatePrefixView in Hview. rewrite E in Hview.
    simpl in Hview. destruct (prefixView l); simpl in Hview; congruence.
Qed.

(** ** Deciding the conditions on a concrete graph *)

Definition ok_viewb (l : Label) (i : nat) : bool :=
  match EventLabel.view l i with Ret v => forallb (fun x => 0 <=? x) v | _ => false end.
Definition stamp_ltb (x l : Label) : bool :=
  match stamp x, stamp l with Some s, Some t => (0 <=? s) && (s <? t) | _, _ => false end.
Definition pred_okb (g : Graph) (i : nat) (l : Label) (pred : Graph -> Label -> outcome (option Label)) : bool :=
  match pred g l with
  | Ret (Some p) => ok_viewb p i && stamp_ltb p l
  | Ret None => true
  | _ => false
  end.
Definition navigableb (g : Graph) (i : nat) : bool :=
  consistentb g &&
  forallb (fun p => match stamp p.2 with Some n => (0 <=? n) && (n <? u32 (timestamp g + 1)) | None => false end) (entries g) &&
  forallb (fun p => forallb (fun q => negb (bool_decide (stamp p.2 = stamp q.2)) || bool_decide (p.1 = q.1))
    (entries g)) (entries g) &&
  forallb (fun l => forallb (pred_okb g i l) preds) (labels g).

Lemma stamp_ltb_sound x l : stamp_ltb x l = true -> stamp_lt x l.
Proof.
  unfold stamp_ltb, stamp_lt. destruct (stamp x) as [s|], (stamp l) as [t|]; intros H; try discriminate H.
  exists s, t. bool_to_prop. split_and!; done || lia.
Qed.

Lemma navigableb_sound g i : navigableb g i = true -> navigable g i /\ stamp_ordered g.
Proof.
  unfold navigableb. rewrite !andb_true_iff. intros [[[Hc Hs] Hi] Hp].
  pose proof (entries_forall g (fun _ l => match stamp l with Some n => (0 <=? n) && (n <? u32 (timestamp g + 1)) | None => false end) Hs) as Hs'.
  pose proof (entries_forall g (fun e l => forallb (fun q => negb (bool_decide (stamp l = stamp q.2)) || bool_decide (e = q.1)) (entries g)) Hi) as Hi'.
  assert (Hp' : forall l pred, l ∈ labels g -> pred ∈ preds -> pred_okb g i l pred = true).
  { intros l pred Hl Hin. rewrite forallb_forall in Hp. specialize (Hp l (proj1 (list_elem_of_In _ _) Hl)).
    rewrite forallb_forall in Hp. by apply Hp, list_elem_of_In. }
  split; [split|].
  - by apply c_labelled, consistentb_sound.
  - intros e l He. specialize (Hs' e l He). cbn beta in Hs'.
    destruct (stamp l) as [n|]; [|discriminate Hs'].
    exists n. split; [done|]. bool_to_prop. lia.
  - intros e e' l l' He He' Est. specialize (Hi' e l He).
    pose proof (entries_forall g (fun e' l' => negb (bool_decide (stamp l = stamp l')) || bool_decide (e = e')) Hi' e' l' He') as H.
    rewrite Est, bool_decide_eq_true_2 in H by done. simpl in H. by apply bool_decide_eq_true in H.
  - intros l pred Hl Hin. specialize (Hp' l pred Hl Hin). unfold pred_okb in Hp'.
    destruct (pred g l) as [o| |] eqn:E; try discriminate Hp'. exists o. split; [done|]. intros p ->.
    split; [by eapply pred_in|]. apply andb_true_iff in Hp' as [Hv _]. unfold ok_viewb in Hv.
    destruct (EventLabel.view p i) as [v| |]; try discriminate Hv. exists v. split; [done|].
    apply View.ok_list, Forall_forall. intros x Hx. rewrite forallb_forall in Hv.
    by apply Z.leb_le, Hv, list_elem_of_In.
  - intros l pred p Hl Hin E. specialize (Hp' l pred Hl Hin). unfold pred_okb in Hp'. rewrite E in Hp'.
    apply andb_true_iff in Hp' as [_ Hlt]. by apply stamp_ltb_sound.
Qed.

Definition prefix_orderedb (g : Graph) : bool :=
  forallb (fun l => match po_imm_pred g l with
    | Ret (Some p) => stamp_ltb p l &&
        forallb (fun e => match label_at g e with Some x => stamp_ltb x l | None => false end) (prefix_events g p)
    | _ => true
    end) (labels g).
Lemma prefix_orderedb_sound g : prefix_orderedb g = true -> prefix_ordered g.
Proof.
  unfold prefix_orderedb. rewrite forallb_forall. intros H l p Hl Hp.
  specialize (H l (proj1 (list_elem_of_In _ _) Hl)). unfold po_imm in Hp. rewrite Hp in H.
  apply andb_true_iff in H as [H1 H2]. split; [by apply stamp_ltb_sound|]. intros e He.
  rewrite forallb_forall in H2. specialize (H2 e (proj1 (list_elem_of_In _ _) He)).
  destruct (label_at g e) as [x|]; [|discriminate H2]. exists x. split; [done|by apply stamp_ltb_sound].
Qed.

Lemma navigable_stamped g i l : navigable g i -> l ∈ labels g -> exists s, stamp l = Some s /\ 0 <= s.
Proof. intros Hn [e He]%labels_iff. destruct (nv_stamp _ _ Hn e l He) as (n & ? & ?). exists n. split; [done|lia]. Qed.

Definition recomputed (g : Graph) (i : nat) (calc : Graph -> Label -> outcome View.t) : bool :=
  forallb (fun l => bool_decide (EventLabel.view l i = calc g l)) (labels g).
Lemma recomputed_sound g i calc l :
  recomputed g i calc = true -> l ∈ labels g -> EventLabel.view l i = calc g l.
Proof.
  unfold recomputed. rewrite forallb_forall. intros H Hl.
  specialize (H l (proj1 (list_elem_of_In _ _) Hl)). by apply bool_decide_eq_true in H.
Qed.

(** Every stored happens-before view is exact, checked by recomputing them. *)
Lemma stored_hb_exact g l :
  navigableb g 0 = true -> recomputed g 0 calculate0 = true -> l ∈ labels g -> has_exact g (hb_step g) 0 l.
Proof.
  intros [Hn Ho]%navigableb_sound Hr. apply stored_exact with (calc := calculate0).
  - intros x y Hy. by apply hb_step_lt.
  - intros y Hy. by apply calculate0_exact.
  - intros y. by apply (navigable_stamped g 0).
  - intros y. by apply recomputed_sound.
Qed.

(** ** A message-passing graph

    The first thread writes [x], creates the second and publishes with a release
    write to [y]; the second reads that write with acquire ordering and then
    loads [x]. *)
Definition add_viewed (g : Graph) (lab : Label) : Graph :=
  match (g1 ← addLabelToGraph g lab; l ← getEventLabel g1 (getPos lab); updateMMViews g1 l) with
  | Ret g' => g'
  | _ => g
  end.
Definition read_from (g : Graph) (r w : Event) : Graph :=
  match changeRf g r w with Ret g' => g' | _ => g end.
Definition mp_start : list Label :=
  [Make.WriteLabel (mkEvent 0 1) Monotonic 64 8 Unsigned 1 WriteAttr.None_ DepInfo.no_deps;
   Make.ThreadCreateLabel (mkEvent 0 2) Release (mkThreadInfo 1 0 0 0 (-1)) DepInfo.no_deps;
   Make.WriteLabel (mkEvent 0 3) Release 72 8 Unsigned 1 WriteAttr.None_ DepInfo.no_deps;
   Make.ThreadStartLabel (mkEvent 1 0) Acquire (mkEvent 0 2) (mkThreadInfo 1 0 0 0 (-1)) (-1);
   Make.ReadLabel (mkEvent 1 1) Acquire 72 8 Unsigned None DepInfo.no_deps].
Definition mp_load : Label := Make.ReadLabel (mkEvent 1 2) Monotonic 64 8 Unsigned None DepInfo.no_deps.
Definition mp : Graph :=
  add_viewed (read_from (foldl add_viewed (addNewThread empty) mp_start) (mkEvent 1 1) (mkEvent 0 3)) mp_load.
Definition mp_label (t i : Z) : Label := default mp_load (label_at mp (mkEvent t i)).


(** ** The properties *)

(** Property C3.  The happens-before view of a label: when the views of the
    labels one happens-before step away are exact, [calculate0] returns a view
    that contains exactly the labels that happen before the given one - through
    program order, thread creation and joins, and release/acquire
    synchronisation - and the first label of every thread. *)
Theorem calculate0_is_happens_before g lab :
  navigable g 0 -> lab ∈ labels g ->
  (forall x, hb_step g x lab -> has_exact g (hb_step g) 0 x) ->
  exists v, calculate0 g lab = Ret v /\ View.ok v /\
    forall e x, label_at g e = Some x -> View.contains v e = true <-> index e = 0 \/ hb g x lab.
Proof. intros Hn Hl Hx. by apply calculate0_exact. Qed.

(**  The second view of a label is exact in the same sense for
    program order, thread creation and joins, and the reads-from edges into the
    labels before it. *)
Theorem calculate1_is_porf g lab :
  navigable g 1 -> lab ∈ labels g ->
  (forall x, porf_step g x lab -> has_exact g (porf_step g) 1 x) ->
  exists v, calculate1 g lab = Ret v /\ View.ok v /\
    forall e x, label_at g e = Some x -> View.contains v e = true <-> index e = 0 \/ porf g x lab.
Proof. intros Hn Hl Hx. by apply calculate1_exact. Qed.

(** Property C4.  The prefix view of a label: when the prefix views one step
    away are exact, [calcPPoRfBefore] returns a view of exactly the label
    itself, the labels before it through program order and all the stores that
    earlier reads read from, the creations and the joined threads, and the first
    label of every thread. *)
Theorem calcPPoRfBefore_exact g lab :
  labelled g -> lab ∈ labels g ->
  (forall p e, po_imm g p lab -> e ∈ prefix_events g p -> is_Some (label_at g e)) ->
  (forall x, prefix_step g x lab -> has_prefix g x) ->
  exists v, calcPPoRfBefore g lab = Ret v /\ exact_prefix g lab v.
Proof. apply prefix_exact. Qed.

(** The views stored in the message-passing graph are exact. *)
Lemma mp_navigable : (navigable mp 0 /\ stamp_ordered mp) /\ (navigable mp 1 /\ stamp_ordered mp).
Proof. split; apply navigableb_sound; vm_compute; reflexivity. Qed.
Lemma mp_exact0 l : l ∈ labels mp -> has_exact mp (hb_step mp) 0 l.
Proof. apply stored_hb_exact; vm_compute; reflexivity. Qed.
Lemma mp_exact1 l : l ∈ labels mp -> has_exact mp (porf_step mp) 1 l.
Proof.
  destruct mp_navigable as [_ [Hn Ho]]. apply stored_exact with (calc := calculate1).
  - intros x y Hy. by apply porf_step_lt.
  - intros y Hy. by apply calculate1_exact.
  - intros y. by apply (navigable_stamped mp 1).
  - intros y. apply recomputed_sound. vm_compute. reflexivity.
Qed.
Lemma mp_label_in : mp_label 1 2 ∈ labels mp.
Proof. apply labels_iff. exists (mkEvent 1 2). vm_compute. reflexivity. Qed.

(** The load of [x] is after its write, through the acquire read of [y]. *)
Lemma calculate0_is_happens_before_witness :
  exists v, calculate0 mp (mp_label 1 2) = Ret v /\ View.contains v (mkEvent 0 1) = true /\
    hb mp (mp_label 0 1) (mp_label 1 2).
Proof.
  destruct (calculate0_is_happens_before mp (mp_label 1 2)) as (v & E & _ & Hv);
    [apply mp_navigable|apply mp_label_in|by intros; apply mp_exact0; eapply hb_step_in; [apply mp_navigable|apply mp_label_in|]|].
  exists v. split; [done|].
  assert (View.contains v (mkEvent 0 1) = true) as Hc by (vm_compute in E; injection E as <-; reflexivity).
  split; [done|]. apply (Hv (mkEvent 0 1) (mp_label 0 1)) in Hc as [Hc|Hc]; [discriminate Hc|exact Hc|vm_compute; reflexivity].
Defined.
Lemma calculate1_is_porf_witness :
  exists v, calculate1 mp (mp_label 1 2) = Ret v /\ View.contains v (mkEvent 0 3) = true /\
    porf mp (mp_label 0 3) (mp_label 1 2).
Proof.
  destruct (calculate1_is_porf mp (mp_label 1 2)) as (v & E & _ & Hv);
    [apply mp_navigable|apply mp_label_in|by intros; apply mp_exact1; eapply porf_step_in; [apply mp_navigable|apply mp_label_in|]|].
  exists v. split; [done|].
  assert (View.contains v (mkEvent 0 3) = true) as Hc by (vm_compute in E; injection E as <-; reflexivity).
  split; [done|]. apply (Hv (mkEvent 0 3) (mp_label 0 3)) in Hc as [Hc|Hc]; [discriminate Hc|exact Hc|vm_compute; reflexivity].
Defined.
Lemma mp_prefix l : l ∈ labels mp -> has_prefix mp l.
Proof.
  destruct mp_navigable as [[Hn _] _]. apply stored_prefix.
  - apply Hn.
  - apply prefix_orderedb_sound. vm_compute. reflexivity.
  - intros y. by apply (navigable_stamped mp 0).
  - assert (forallb (fun l => match prefixView l, calculatePrefixView mp l with
      | Some (CView v), Ret (CView w) => bool_decide (v = w) | _, _ => false end) (labels mp) = true) as H
      by (vm_compute; reflexivity).
    intros y Hy. rewrite forallb_forall in H. specialize (H y (proj1 (list_elem_of_In _ _) Hy)).
    destruct (prefixView y) as [[v|]|], (calculatePrefixView mp y) as [[w|]| |]; try discriminate H.
    apply bool_decide_eq_true in H. by subst.
Qed.
Lemma calcPPoRfBefore_exact_witness :
  exists v, calcPPoRfBefore mp (mp_label 1 2) = Ret v /\ exact_prefix mp (mp_label 1 2) v /\
    View.contains v (mkEvent 0 3) = true.
Proof.
  destruct (calcPPoRfBefore_exact mp (mp_label 1 2)) as (v & E & Hv).
  - apply mp_navigable.
  - apply mp_label_in.
  - intros p e Hp He. pose proof (prefix_orderedb_sound mp eq_refl _ _ mp_label_in Hp) as [_ H].
    destruct (H e He) as (x & -> & _). by eexists.
  - intros x (p & Hp & Hx). apply mp_prefix. destruct Hx as [->|(e & _ & Hx)].
    + apply (pred_in mp (mp_label 1 2) po_imm_pred); [left|exact Hp].
    + apply labels_iff. by exists e.
  - exists v. split; [done|]. split; [done|]. vm_compute in E. injection E as <-. reflexivity.
Defined.
End Exact.
