(* ===== verification/RARace.v ===== *)
(** * Race and memory-error detection of the RA driver (src/src/RADriver.cpp,
    [checkRace0] to [checkRace7], [checkErrors], [checkWarnings]; the hazard
    pointer test of src/src/GenMCDriver.cpp).

    A [visitRaceLHS] function that takes a view stops at the first label the
    view does not contain: its result is [inr] of that label (the driver's
    [racyLab]), or [inl] of the visited vectors.  One without a view marks
    labels in [lhsAccept].  [checkRace] returns the racy label, if any. *)
From S2P Require Import Prelude Event SVal SAddr VSet Deps Views Labels LabelClasses Graph GraphBase Iterators RAViews.
#[local] Open Scope Z_scope.

Inductive VerificationError :=
| VE_OK | VE_Safety | VE_Recovery | VE_Liveness | VE_RaceNotAtomic | VE_WWRace | VE_RaceFreeMalloc
| VE_FreeNonMalloc | VE_DoubleFree | VE_Allocation
| VE_InvalidAccessBegin | VE_UninitializedMem | VE_AccessNonMalloc | VE_AccessFreed | VE_InvalidAccessEnd
| VE_InvalidCreate | VE_InvalidJoin | VE_InvalidUnlock | VE_InvalidBInit | VE_InvalidRecoveryCall
| VE_InvalidTruncate | VE_Annotation | VE_MixedSize | VE_SystemError.
#[export] Instance VerificationError_eq : EqDecision VerificationError.
Proof. solve_decision. Defined.

Definition isHardError (err : VerificationError) : bool :=
  negb (bool_decide (err = VE_OK)) && negb (bool_decide (err = VE_WWRace)).

Module Race.
Import ExecutionGraph GraphIterators EdgeLabels Search.

Abbreviation Vectors := (list (list NodeStatus)).

Definition mark_node (k : nat) (x : NodeStatus) (lab : Label) (vis : Vectors) : outcome Vectors :=
  visited <$> mark k x lab (mkState vis View.make).

(** *** Visits that stop at a label outside the view *)

Definition Stop : Type := (Vectors + Label)%type.
(** Goes on from the vectors of a visit that has not stopped. *)
Definition continue (r : outcome Stop) (f : Vectors -> outcome Stop) : outcome Stop :=
  x ← r; match x with inl vis => f vis | inr racy => Ret (inr racy) end.
(** [if (status == unseen && !visit(pLab, v)) return false;] *)
Definition stop_next (k : nat) (visit : Label -> Vectors -> outcome Stop) (pLab : Label) (vis : Vectors) :
    outcome Stop :=
  s ← status vis k pLab;
  if decide (s = unseen) then visit pLab vis else Ret (inl vis).
Definition stop_opt (k : nat) (visit : Label -> Vectors -> outcome Stop) (p : option Label) (vis : Vectors) :
    outcome Stop :=
  match p with Some pLab => stop_next k visit pLab vis | None => Ret (inl vis) end.
(** The same in a loop over a range, for the labels that satisfy [cond]. *)
Fixpoint stop_each (k : nat) (cond : Label -> outcome bool) (visit : Label -> Vectors -> outcome Stop)
    (ls : list Label) (vis : Vectors) : outcome Stop :=
  match ls with
  | [] => Ret (inl vis)
  | l :: ls =>
      b ← cond l;
      continue (if b : bool then stop_next k visit l vis else Ret (inl vis)) (stop_each k cond visit ls)
  end.
Definition finish (k : nat) (lab : Label) (vis : Vectors) : outcome Stop :=
  inl <$> mark_node k left lab vis.
Definition racy (r : outcome Stop) : outcome (option Label) :=
  x ← r; Ret (match x with inl _ => None | inr l => Some l end).

(** The common body of [visitRaceLHS0_0], [2_0], [4_0], [6_0] and [7_0]. *)
Definition visit_contained (v : View.t) (lab : Label) (vis : Vectors) : outcome Stop :=
  vis ← mark_node 0 entered lab vis;
  if negb (View.contains v (getPos lab)) then Ret (inr lab) else finish 0 lab vis.

Definition is_free (l : Label) : bool := Isa.FreeLabel (kind l) && negb (Isa.HpRetireLabel (kind l)).
Definition always (l : Label) : outcome bool := Ret true.
Definition holds (f : Label -> bool) (l : Label) : outcome bool := Ret (f l).
Definition is_write (l : Label) : bool := Isa.WriteLabel (kind l).
Definition is_read (l : Label) : bool := Isa.ReadLabel (kind l).
Definition na_write (l : Label) : bool := EventLabel.isNotAtomic l && Isa.WriteLabel (kind l).
Definition na_read (l : Label) : bool := EventLabel.isNotAtomic l && Isa.ReadLabel (kind l).

(** ** An access must be after its allocation *)

Definition visitRaceLHS0_0 := visit_contained.
Definition visitRaceLHS0_1 (g : Graph) (v : View.t) (lab : Label) (vis : Vectors) : outcome Stop :=
  vis ← mark_node 1 entered lab vis;
  p ← alloc_pred g lab;
  continue (stop_opt 0 (visitRaceLHS0_0 v) p vis) (finish 1 lab).
Definition checkRace0 (g : Graph) (lab : Label) : outcome (option Label) :=
  v ← EventLabel.view lab 0; racy (visitRaceLHS0_1 g v lab (fresh_visited g 2)).

(** ** Visits that mark labels *)

Record Marks := mkMarks { mk_visited : Vectors; lhsAccept : list bool }.
Definition mark_marks (k : nat) (x : NodeStatus) (lab : Label) (m : Marks) : outcome Marks :=
  vis ← mark_node k x lab (mk_visited m); Ret (mkMarks vis (lhsAccept m)).
(** [lhsAccept[lab->getStamp().get()] = true] *)
Definition accept (lab : Label) (m : Marks) : outcome Marks :=
  s ← EventLabel.getStamp lab; _ ← vec_get (lhsAccept m) s;
  Ret (mkMarks (mk_visited m) (<[Z.to_nat s := true]> (lhsAccept m))).
Definition marks_next (k : nat) (visit : Label -> Marks -> outcome Marks) (p : option Label) (m : Marks) :
    outcome Marks :=
  match p with
  | Some pLab =>
      s ← status (mk_visited m) k pLab;
      if decide (s = unseen) then visit pLab m else Ret m
  | None => Ret m
  end.
Definition marks_each (k : nat) (cond : Label -> bool) (visit : Label -> Marks -> outcome Marks)
    (ls : list Label) (m : Marks) : outcome Marks :=
  mfold (fun m l => marks_next k visit (when cond (Some l)) m) ls m.
Definition fresh_marks (g : Graph) (n : nat) : Marks :=
  mkMarks (fresh_visited g n) (replicate (Z.to_nat (u32 (timestamp g + 1))) false).
(** [*std::find_if(label_begin(g), label_end(g), lab.getStamp() == i)] *)
Fixpoint label_stamped (i : Z) (ls : list Label) : outcome Label :=
  match ls with
  | [] => Undef
  | l :: ls => s ← EventLabel.getStamp l; if s =? i then Ret l else label_stamped i ls
  end.
(** The loop over [lhsAccept]; [rhsAccept] is all false. *)
Fixpoint first_accepted (g : Graph) (i : Z) (acc : list bool) : outcome (option Label) :=
  match acc with
  | [] => Ret None
  | b :: acc => if b : bool then Some <$> label_stamped i (labels g) else first_accepted g (i + 1) acc
  end.

(** The common body of [visitRaceLHS1_0], [3_0] and [5_0]. *)
Definition visit_accept (lab : Label) (m : Marks) : outcome Marks :=
  m ← mark_marks 0 entered lab m; m ← accept lab m; mark_marks 0 left lab m.

(** ** Two frees of a location *)

Definition visitRaceLHS1_0 := visit_accept.
Definition visitRaceLHS1_1 (g : Graph) (lab : Label) (m : Marks) : outcome Marks :=
  let each guard cond := if guard : bool then marks_each 0 cond visitRaceLHS1_0 (samelocs g lab) else Ret in
  let retire (l : Label) := Isa.HpRetireLabel (kind l) in
  m ← mark_marks 1 entered lab m;
  m ← each (is_free lab) is_free m;
  m ← each (is_free lab) retire m;
  m ← each (retire lab) is_free m;
  m ← each (retire lab) retire m;
  mark_marks 1 left lab m.
Definition checkRace1 (g : Graph) (lab : Label) : outcome (option Label) :=
  m ← visitRaceLHS1_1 g lab (fresh_marks g 2); first_accepted g 0 (lhsAccept m).

(** ** A free must be after the accesses of the block and its allocation *)

Definition visitRaceLHS2_0 := visit_contained.
Definition visitRaceLHS2_1 (g : Graph) (v : View.t) (lab : Label) (vis : Vectors) : outcome Stop :=
  vis ← mark_node 1 entered lab vis;
  ls ← alloc_succs g lab;
  continue (stop_each 0 always (visitRaceLHS2_0 v) ls vis) (finish 1 lab).
Definition visitRaceLHS2_2 (g : Graph) (v : View.t) (lab : Label) (vis : Vectors) : outcome Stop :=
  vis ← mark_node 2 entered lab vis;
  p ← (if is_free lab then free_pred g lab else Ret None);
  continue (stop_opt 1 (visitRaceLHS2_1 g v) p vis) (fun vis =>
  p ← (if is_free lab then free_pred g lab else Ret None);
  continue (stop_opt 0 (visitRaceLHS2_0 v) p vis) (finish 2 lab)).
Definition checkRace2 (g : Graph) (lab : Label) : outcome (option Label) :=
  v ← EventLabel.view lab 0; racy (visitRaceLHS2_2 g v lab (fresh_visited g 3)).

(** ** An access to a freed block *)

Definition visitRaceLHS3_0 := visit_accept.
Definition visitRaceLHS3_1 (g : Graph) (lab : Label) (m : Marks) : outcome Marks :=
  m ← mark_marks 1 entered lab m;
  p ← free_succ g lab;
  m ← marks_next 0 visitRaceLHS3_0 (when is_free p) m;
  mark_marks 1 left lab m.
Definition visitRaceLHS3_2 (g : Graph) (lab : Label) (m : Marks) : outcome Marks :=
  m ← mark_marks 2 entered lab m;
  p ← alloc_pred g lab;
  m ← marks_next 1 (visitRaceLHS3_1 g) p m;
  mark_marks 2 left lab m.
Definition checkRace3 (g : Graph) (lab : Label) : outcome (option Label) :=
  m ← visitRaceLHS3_2 g lab (fresh_marks g 3); first_accepted g 0 (lhsAccept m).

(** ** Retired blocks and hazard pointers *)

(** [GenMCDriver::isHazptrProtected] *)
Definition protects (aLab l : Label) : bool :=
  Isa.HpProtectLabel (kind l) && MallocLabel.contains aLab (getProtectedAddr l).
Definition isHazptrProtected (g : Graph) (mLab : Label) : outcome bool :=
  _ ← BUG_ON (negb (SAddr.isDynamic (MemAccessLabel.getAddr mLab)));
  a ← deref g (MemAccessLabel.getAlloc mLab);
  match a with
  | None => Bug
  | Some aLab =>
      p ← getPreviousLabelST g mLab (protects aLab);
      match p with
      | None => Ret false
      | Some pLab =>
          if negb (Isa.HpProtectLabel (kind pLab)) then Ret false
          else
            let from := EventLabel.getIndex pLab + 1 in
            let between := take (Z.to_nat (EventLabel.getIndex mLab - from))
                             (drop (Z.to_nat from) (thread_labels g (EventLabel.getThread mLab))) in
            Ret (negb (existsb (fun l => Isa.HpProtectLabel (kind l) && (getHpAddr l =? getHpAddr pLab)) between))
      end
  end.
(** A dynamic access no hazard pointer protects. *)
Definition unprotected (g : Graph) (l : Label) : outcome bool :=
  if Isa.MemAccessLabel (kind l) && SAddr.isDynamic (MemAccessLabel.getAddr l)
  then negb <$> isHazptrProtected g l else Ret false.

Definition visitRaceLHS4_0 := visit_contained.
Definition visitRaceLHS4_1 (g : Graph) (v : View.t) (lab : Label) (vis : Vectors) : outcome Stop :=
  vis ← mark_node 1 entered lab vis;
  ls ← alloc_succs g lab;
  continue (stop_each 0 (unprotected g) (visitRaceLHS4_0 v) ls vis) (finish 1 lab).
Definition visitRaceLHS4_2 (g : Graph) (v : View.t) (lab : Label) (vis : Vectors) : outcome Stop :=
  let retire := Isa.HpRetireLabel (kind lab) in
  vis ← mark_node 2 entered lab vis;
  p ← (if retire then free_pred g lab else Ret None);
  continue (stop_opt 1 (visitRaceLHS4_1 g v) p vis) (fun vis =>
  p ← (if retire then free_pred g lab else Ret None) ≫= whenM (unprotected g);
  continue (stop_opt 0 (visitRaceLHS4_0 v) p vis) (finish 2 lab)).
Definition checkRace4 (g : Graph) (lab : Label) : outcome (option Label) :=
  v ← EventLabel.view lab 0; racy (visitRaceLHS4_2 g v lab (fresh_visited g 3)).

Definition visitRaceLHS5_0 := visit_accept.
Definition visitRaceLHS5_1 (g : Graph) (lab : Label) (m : Marks) : outcome Marks :=
  m ← mark_marks 1 entered lab m;
  p ← free_succ g lab;
  m ← marks_next 0 visitRaceLHS5_0 (when (fun l => Isa.HpRetireLabel (kind l)) p) m;
  mark_marks 1 left lab m.
Definition visitRaceLHS5_2 (g : Graph) (lab : Label) (m : Marks) : outcome Marks :=
  m ← mark_marks 2 entered lab m;
  b ← unprotected g lab;
  p ← (if b : bool then alloc_pred g lab else Ret None);
  m ← marks_next 1 (visitRaceLHS5_1 g) p m;
  mark_marks 2 left lab m.
Definition checkRace5 (g : Graph) (lab : Label) : outcome (option Label) :=
  m ← visitRaceLHS5_2 g lab (fresh_marks g 3); first_accepted g 0 (lhsAccept m).

(** ** Conflicting accesses *)

Definition visitRaceLHS6_0 := visit_contained.
Definition visitRaceLHS6_1 (g : Graph) (v : View.t) (lab : Label) (vis : Vectors) : outcome Stop :=
  let each guard cond vis :=
    if guard : bool then stop_each 0 (holds cond) (visitRaceLHS6_0 v) (samelocs g lab) vis else Ret (inl vis) in
  vis ← mark_node 1 entered lab vis;
  continue (each (na_write lab) is_write vis) (fun vis =>
  continue (each (na_write lab) is_read vis) (fun vis =>
  continue (each (na_read lab) is_write vis) (fun vis =>
  continue (each (is_write lab) na_write vis) (fun vis =>
  continue (each (is_write lab) na_read vis) (fun vis =>
  continue (each (is_read lab) na_write vis) (finish 1 lab)))))).
Definition checkRace6 (g : Graph) (lab : Label) : outcome (option Label) :=
  v ← EventLabel.view lab 0; racy (visitRaceLHS6_1 g v lab (fresh_visited g 2)).

Definition visitRaceLHS7_0 := visit_contained.
Definition visitRaceLHS7_1 (g : Graph) (v : View.t) (lab : Label) (vis : Vectors) : outcome Stop :=
  vis ← mark_node 1 entered lab vis;
  continue (if is_write lab then stop_each 0 (holds is_write) (visitRaceLHS7_0 v) (samelocs g lab) vis
            else Ret (inl vis)) (finish 1 lab).
Definition checkRace7 (g : Graph) (lab : Label) : outcome (option Label) :=
  v ← EventLabel.view lab 1; racy (visitRaceLHS7_1 g v lab (fresh_visited g 2)).

(** ** Errors and warnings *)

(** [if (!check(lab)) { race = racy; return err; }] *)
Definition or_else (check : outcome (option Label)) (err : VerificationError)
    (rest : outcome (VerificationError * option Label)) : outcome (VerificationError * option Label) :=
  r ← check; match r with Some race => Ret (err, Some race) | None => rest end.
Definition checkErrors (g : Graph) (lab : Label) : outcome (VerificationError * option Label) :=
  or_else (checkRace0 g lab) VE_AccessNonMalloc (
  or_else (checkRace1 g lab) VE_DoubleFree (
  or_else (checkRace2 g lab) VE_AccessFreed (
  or_else (checkRace3 g lab) VE_AccessFreed (
  or_else (checkRace4 g lab) VE_AccessFreed (
  or_else (checkRace5 g lab) VE_AccessFreed (
  or_else (checkRace6 g lab) VE_RaceNotAtomic (
  Ret (VE_OK, None)))))))).

(** [checkWarnings]: the warnings with their racy labels. *)
Definition checkWarnings (g : Graph) (lab : Label) (seenWarnings : list VerificationError) :
    outcome (list (VerificationError * Label)) :=
  if bool_decide (VE_WWRace ∈ seenWarnings) then Ret []
  else r ← checkRace7 g lab; Ret (match r with Some race => [(VE_WWRace, race)] | None => [] end).

Definition isConsistent (g : Graph) (lab : Label) : bool := true.
Definition isRecAcyclic (g : Graph) (lab : Label) : bool := true.
Definition isRecoveryValid (g : Graph) (lab : Label) : bool := isRecAcyclic g lab.

End Race.
