(* ===== verification/RARaceFacts.v ===== *)
(** * What the race detection of the RA driver reports (properties of RARace.v). *)
From S2P Require Import Prelude Event SVal SAddr VSet Deps Views Labels LabelClasses Graph GraphBase GraphRf Iterators RAViews RASearch RAHb RAExact RARace.
#[local] Open Scope Z_scope.

Module RaceFacts.
Import ExecutionGraph GraphIterators EdgeLabels Search Dfs Lookup Rf Hb Exact Race.

(** Labels sit at their positions and have stamps of their own. *)
Record well_stamped (g : Graph) : Prop := {
  ws_labelled : labelled g;
  ws_stamp e l : label_at g e = Some l -> exists n, stamp l = Some n /\ 0 <= n < u32 (timestamp g + 1);
  ws_inj e e' l l' : label_at g e = Some l -> label_at g e' = Some l' -> stamp l = stamp l' -> e = e';
}.
Lemma navigable_well_stamped g i : navigable g i -> well_stamped g.
Proof. intros Hn. split; apply Hn. Qed.

(** ** The visited vectors *)
Section Vectors.
Context (g : Graph) (Hg : well_stamped g) (K : nat).

Definition size : nat := Z.to_nat (u32 (timestamp g + 1)).
Definition tbl (vis : Vectors) : Prop := table K size (mkState vis View.make).
Definition seen_at (vis : Vectors) (k : nat) (l : Label) : Prop := visited_node (mkState vis View.make) k l.

Lemma stamp_of_in l : l ∈ labels g -> exists n, stamp l = Some n /\ 0 <= n < Z.of_nat size.
Proof.
  intros [e He]%labels_iff. destruct (ws_stamp _ Hg e l He) as (n & ? & ?). exists n.
  split; [done|]. unfold size. lia.
Qed.
Lemma stamp_inj l l' : l ∈ labels g -> l' ∈ labels g -> stamp l = stamp l' -> l = l'.
Proof.
  intros [e He]%labels_iff [e' He']%labels_iff Hs. pose proof (ws_inj _ Hg _ _ _ _ He He' Hs). congruence.
Qed.

Lemma fresh_tbl : tbl (fresh_visited g K).
Proof.
  split; [apply length_replicate|]. unfold fresh_visited. cbn [visited]. intros k w Hw.
  apply lookup_replicate in Hw as [-> _]. by rewrite length_replicate.
Qed.
Lemma fresh_unseen k l : ~ seen_at (fresh_visited g K) k l.
Proof.
  intros (n & _ & w & x & Hw & Hx & Hne). cbn [visited] in Hw. unfold fresh_visited in Hw.
  apply lookup_replicate in Hw as [-> _]. by apply lookup_replicate in Hx as [-> _].
Qed.

Lemma status_vis vis k l :
  tbl vis -> (k < K)%nat -> l ∈ labels g ->
  exists x, status vis k l = Ret x /\ (x <> unseen <-> seen_at vis k l).
Proof.
  intros Ht Hk Hl. destruct (stamp_of_in l Hl) as (n & Hs & Hn).
  destruct (status_ret K size _ k l n Ht Hk Hs Hn) as (x & E & Hx). exists x. split; [exact E|].
  rewrite Hx. unfold seen_at. by rewrite (visited_seen _ _ _ _ Hs).
Qed.

Lemma mark_vis vis k x l :
  tbl vis -> (k < K)%nat -> l ∈ labels g -> x <> unseen ->
  exists vis', mark_node k x l vis = Ret vis' /\ tbl vis' /\
    forall j m, m ∈ labels g -> seen_at vis' j m <-> seen_at vis j m \/ (j = k /\ m = l).
Proof.
  intros Ht Hk Hl Hx. destruct (stamp_of_in l Hl) as (n & Hs & Hn).
  destruct (mark_ret K size _ k l n x Ht Hk Hs Hn Hx) as (st' & R & T & C & S & _).
  exists (visited st'). unfold mark_node. rewrite R. split; [done|].
  assert (mkState (visited st') View.make = st') as E by (destruct st'; simpl in *; congruence).
  split; [by unfold tbl; rewrite E|]. intros j m Hm. unfold seen_at. rewrite E.
  destruct (stamp_of_in m Hm) as (p & Hp & Hp0). rewrite !(visited_seen _ _ _ _ Hp), S by lia.
  split; (intros [?|[-> Hq]]; [by left|right; split; [done|]]); [|congruence].
  apply stamp_inj; [done..|congruence].
Qed.

(** ** Visits that stop outside a view *)

Context (v : View.t).
Definition ordered (l : Label) : Prop := View.contains v (getPos l) = true.
(** The accepting labels visited so far are all in the view. *)
Definition inv (vis : Vectors) : Prop := tbl vis /\ forall l, l ∈ labels g -> seen_at vis 0 l -> ordered l.
(** The visit returns; it stops at one of the labels [C] outside the view, or all
    of them are in it. *)
Definition stops (r : outcome Stop) (C : Label -> Prop) : Prop :=
  exists x, r = Ret x /\
    match x with
    | inl vis => inv vis /\ forall l, C l -> ordered l
    | inr l => C l /\ l ∈ labels g /\ ~ ordered l
    end.

Lemma fresh_inv : inv (fresh_visited g K).
Proof. split; [apply fresh_tbl|]. intros l _ H. by apply fresh_unseen in H. Qed.

Lemma stops_iff r C C' : (forall l, C l <-> C' l) -> stops r C -> stops r C'.
Proof.
  intros H (x & E & Hx). exists x. split; [done|]. destruct x as [vis|l].
  - split; [apply Hx|]. intros l Hl. by apply Hx, H.
  - by rewrite <- H.
Qed.
Lemma stops_continue r f C1 C2 :
  stops r C1 -> (forall vis, inv vis -> stops (f vis) C2) -> stops (continue r f) (fun l => C1 l \/ C2 l).
Proof.
  intros (x & -> & Hx) Hf. unfold continue. cbn [mbind outcome_bind]. destruct x as [vis|l].
  - destruct Hx as [Hi H1]. destruct (Hf vis Hi) as (y & -> & Hy). exists y. split; [done|].
    destruct y as [vis'|l]; [|tauto]. split; [apply Hy|]. intros l [?|?]; [by apply H1|by apply Hy].
  - exists (inr l). split; [done|]. tauto.
Qed.
Lemma stops_skip vis : inv vis -> stops (Ret (inl vis)) (fun _ => False).
Proof. intros Hi. by exists (inl vis). Qed.

Lemma mark_inv vis k x l :
  inv vis -> (0 < k < K)%nat -> l ∈ labels g -> x <> unseen ->
  exists vis', mark_node k x l vis = Ret vis' /\ inv vis' /\
    forall j m, m ∈ labels g -> seen_at vis' j m <-> seen_at vis j m \/ (j = k /\ m = l).
Proof.
  intros [Ht Hi] Hk Hl Hx. destruct (mark_vis vis k x l Ht ltac:(lia) Hl Hx) as (vis' & E & T & S).
  exists vis'. split; [done|]. split; [split; [done|]|done]. intros m Hm Hs.
  apply S in Hs as [?|[? _]]; [by apply Hi|lia|done].
Qed.
Lemma stops_finish k l vis : inv vis -> (0 < k < K)%nat -> l ∈ labels g -> stops (finish k l vis) (fun _ => False).
Proof.
  intros Hi Hk Hl. destruct (mark_inv vis k left l Hi Hk Hl) as (vis' & E & Hi' & _); [done|].
  unfold finish. rewrite E. by exists (inl vis').
Qed.

Lemma stops_contained vis l :
  inv vis -> (0 < K)%nat -> l ∈ labels g -> stops (stop_next 0 (visit_contained v) l vis) (fun m => m = l).
Proof.
  intros [Ht Hi] HK Hl. unfold stop_next. destruct (status_vis vis 0 l Ht HK Hl) as (x & -> & Hx).
  cbn [mbind outcome_bind]. case_decide as Hx'.
  - unfold visit_contained. destruct (mark_vis vis 0 entered l Ht HK Hl) as (vis1 & -> & T1 & S1); [done|].
    cbn [mbind outcome_bind]. destruct (View.contains v (getPos l)) eqn:Hc; simpl.
    + destruct (mark_vis vis1 0 left l T1 HK Hl) as (vis2 & E & T2 & S2); [done|].
      unfold finish. rewrite E. exists (inl vis2). split; [done|]. split; [split; [done|]|by intros ? ->].
      intros m Hm Hs. apply S2 in Hs as [Hs|[_ ->]]; [|done|done].
      apply S1 in Hs as [Hs|[_ ->]]; [|done|done]. by apply Hi.
    + exists (inr l). split; [done|]. unfold ordered. by rewrite Hc.
  - exists (inl vis). split; [done|]. split; [done|]. intros ? ->. apply Hi; [done|]. tauto.
Qed.

Lemma stops_each vis (c : Label -> outcome bool) (P : Label -> Prop) ls :
  (0 < K)%nat -> (forall l, l ∈ ls -> l ∈ labels g /\ exists b : bool, c l = Ret b /\ (b = true <-> P l)) -> inv vis ->
  stops (stop_each 0 c (visit_contained v) ls vis) (fun l => l ∈ ls /\ P l).
Proof.
  intros HK. revert vis. induction ls as [|l ls IH]; intros vis Hls Hi.
  - eapply stops_iff; [|by apply stops_skip]. intros l. split; [done|]. by intros [?%elem_of_nil _].
  - destruct (Hls l) as (Hl & b & Eb & Hb); [left|]. cbn [stop_each]. rewrite Eb. cbn [mbind outcome_bind].
    eapply stops_iff; [|apply (stops_continue _ _ (fun m => m = l /\ b = true));
      [|intros vis' Hi'; apply IH; [|done]; intros; apply Hls; by right]].
    + intros m. rewrite elem_of_cons. split; [|naive_solver].
      intros [[-> Hbt]|[? ?]]; [|tauto]. split; [by left|]. by apply Hb.
    + destruct b.
      * eapply stops_iff; [|by apply stops_contained]. intros m. tauto.
      * eapply stops_iff; [|by apply stops_skip]. intros m. split; [done|]. by intros [_ ?].
Qed.

Lemma stops_racy r C :
  stops r C -> exists o, racy r = Ret o /\
    (o = None <-> forall l, C l -> l ∈ labels g -> ordered l) /\ (forall l, o = Some l -> C l /\ ~ ordered l).
Proof.
  intros (x & -> & Hx). unfold racy. cbn [mbind outcome_bind]. destruct x as [vis|l].
  - exists None. split; [done|]. split; [|done]. split; [|done]. intros _ l Hl _. by apply Hx.
  - exists (Some l). split; [done|]. split; [|by intros ? [= <-]; split; apply Hx].
    split; [done|]. intros H. destruct Hx as (H1 & H2 & []). by apply H.
Qed.

Lemma racy_none r C (P : Prop) :
  stops r C -> (P <-> forall l, C l -> l ∈ labels g -> ordered l) ->
  exists o, racy r = Ret o /\ (o = None <-> P).
Proof. intros H HP. destruct (stops_racy r C H) as (o & E & Ho & _). exists o. by rewrite Ho, HP. Qed.

End Vectors.

(** ** Conflicts *)

(** Two different accesses that start at one address; of any sizes. *)
Definition same_location (g : Graph) (lab l : Label) : Prop :=
  l ∈ labels g /\ getPos l <> getPos lab /\
  Isa.MemAccessLabel (kind lab) = true /\ Isa.MemAccessLabel (kind l) = true /\
  MemAccessLabel.getAddr l = MemAccessLabel.getAddr lab.
Definition conflicting (lab l : Label) : bool :=
  (EventLabel.isNotAtomic lab || EventLabel.isNotAtomic l) &&
  (is_write lab && is_write l || is_write lab && is_read l || is_read lab && is_write l).
Definition races (g : Graph) (lab l : Label) : Prop := same_location g lab l /\ conflicting lab l = true.
(** Two different accesses that start at one address or have a byte in common,
    whatever their addresses and sizes, and that conflict. *)
Definition common_byte (lab l : Label) : Prop :=
  exists x, MemAccessLabel.getAddr lab <= x < MemAccessLabel.getAddr lab + MemAccessLabel.getSize lab /\
            MemAccessLabel.getAddr l <= x < MemAccessLabel.getAddr l + MemAccessLabel.getSize l.
Definition data_race (g : Graph) (lab l : Label) : Prop :=
  l ∈ labels g /\ getPos l <> getPos lab /\ conflicting lab l = true /\
  (MemAccessLabel.getAddr l = MemAccessLabel.getAddr lab \/ common_byte lab l).

Lemma access_kind l : is_write l = true \/ is_read l = true -> Isa.MemAccessLabel (kind l) = true.
Proof.
  unfold is_write, is_read.
  assert (forall k, implb (Isa.WriteLabel k || Isa.ReadLabel k) (Isa.MemAccessLabel k) = true) as H
    by (apply kinds_forall; vm_compute; reflexivity).
  specialize (H (kind l)). rewrite <- orb_true_iff. destruct (_ || _); [done|discriminate].
Qed.

Lemma conflicting_access lab l :
  conflicting lab l = true -> Isa.MemAccessLabel (kind lab) = true /\ Isa.MemAccessLabel (kind l) = true.
Proof.
  unfold conflicting. rewrite andb_true_iff, !orb_true_iff, !andb_true_iff. intros Hc. split; apply access_kind; tauto.
Qed.
(** The races are the data races between accesses of one address. *)
Lemma races_data_race g lab l :
  races g lab l <-> data_race g lab l /\ MemAccessLabel.getAddr l = MemAccessLabel.getAddr lab.
Proof.
  unfold races, data_race, same_location. split; [tauto|]. intros [(? & ? & Hc & _) ?].
  by destruct (conflicting_access _ _ Hc).
Qed.

Lemma samelocs_access g lab l :
  Isa.MemAccessLabel (kind lab) = true -> Isa.MemAccessLabel (kind l) = true ->
  l ∈ samelocs g lab <-> same_location g lab l.
Proof.
  intros H H'. unfold samelocs, hasLocation, getLocation, same_location. rewrite H. simpl.
  rewrite list_elem_of_In, filter_In, <- list_elem_of_In. unfold IDAndLocFilter. rewrite H'.
  rewrite andb_true_iff, negb_true_iff, bool_decide_eq_false, Z.eqb_eq. tauto.
Qed.
Lemma samelocs_in g lab l : l ∈ samelocs g lab -> l ∈ labels g.
Proof.
  unfold samelocs. case_match; [|by intros ?%elem_of_nil].
  rewrite list_elem_of_In, filter_In, <- list_elem_of_In. tauto.
Qed.
(** A free, or any label without a location, has no same-location labels. *)
Lemma samelocs_free g lab : Isa.FreeLabel (kind lab) = true -> samelocs g lab = [].
Proof.
  intros H. unfold samelocs, hasLocation.
  assert (forall k, implb (Isa.FreeLabel k) (negb (Isa.MemAccessLabel k || Isa.CLFlushLabel k)) = true) as Hk
    by (apply kinds_forall; vm_compute; reflexivity).
  specialize (Hk (kind lab)). rewrite H in Hk. apply negb_true_iff in Hk. by rewrite Hk.
Qed.

Lemma race_terms lab l :
  conflicting lab l = true <->
  (na_write lab = true /\ is_write l = true) \/ (na_write lab = true /\ is_read l = true) \/
  (na_read lab = true /\ is_write l = true) \/ (is_write lab = true /\ na_write l = true) \/
  (is_write lab = true /\ na_read l = true) \/ (is_read lab = true /\ na_write l = true).
Proof.
  unfold conflicting, na_write, na_read, is_write, is_read.
  destruct (EventLabel.isNotAtomic lab), (EventLabel.isNotAtomic l), (Isa.WriteLabel (kind lab)),
    (Isa.WriteLabel (kind l)), (Isa.ReadLabel (kind lab)), (Isa.ReadLabel (kind l)); simpl; intuition discriminate.
Qed.

Section Checks.
Context (g : Graph) (Hg : well_stamped g) (lab : Label) (Hlab : lab ∈ labels g) (v : View.t).

Lemma start_inv K k :
  (0 < k < K)%nat ->
  exists vis, mark_node k entered lab (fresh_visited g K) = Ret vis /\ inv g K v vis /\
    forall j m, m ∈ labels g -> seen_at vis j m -> j = k.
Proof.
  intros Hk. destruct (mark_inv g Hg K v (fresh_visited g K) k entered lab) as (vis & E & Hi & Hs);
    [apply fresh_inv|done..|]. exists vis. split; [done|]. split; [done|]. intros j m Hm H.
  apply Hs in H as [H|[? _]]; [by apply fresh_unseen in H|done|done].
Qed.

(** One guarded loop over the same-location labels. *)
Lemma stops_sameloc K (guard : bool) cond vis :
  (0 < K)%nat -> inv g K v vis ->
  stops g K v (if guard then stop_each 0 (holds cond) (visit_contained v) (samelocs g lab) vis
               else Ret (inl vis)) (fun l => l ∈ samelocs g lab /\ guard = true /\ cond l = true).
Proof.
  intros HK Hi. destruct guard.
  - eapply stops_iff; [|apply (stops_each g Hg K v vis (holds cond) (fun l => cond l = true)); try done].
    + intros l. tauto.
    + intros l Hl. split; [by eapply samelocs_in|]. by exists (cond l).
  - eapply stops_iff; [|by apply stops_skip]. intros l. split; [done|]. by intros (_ & ? & _).
Qed.

Ltac sameloc_chain :=
  eapply stops_continue;
  [apply stops_sameloc; [lia|assumption]|intros ? ?; cbn beta; try sameloc_chain].

Lemma visitRaceLHS6_1_stops vis :
  inv g 2 v vis -> stops g 2 v (visitRaceLHS6_1 g v lab vis) (races g lab).
Proof.
  intros Hi. unfold visitRaceLHS6_1.
  destruct (mark_inv g Hg 2 v vis 1 entered lab Hi ltac:(lia) Hlab) as (vis1 & -> & Hi1 & _); [done|].
  cbn [mbind outcome_bind]. eapply stops_iff; [|sameloc_chain].
  2: apply stops_finish; [done|done|lia|done].
  intros l. cbn beta. unfold races. rewrite race_terms.
  pose proof (conflicting_access lab l) as Hm.
  rewrite race_terms in Hm. split.
  - intros H. assert (l ∈ samelocs g lab) by tauto.
    match goal with |- _ /\ ?T => assert T as HT by tauto end.
    destruct (Hm HT). split; [by apply samelocs_access|done].
  - intros [Hs HT]. destruct (Hm HT) as [H1 H2]. apply (samelocs_access g lab l H1 H2) in Hs. tauto.
Qed.

Lemma visitRaceLHS7_1_stops vis :
  inv g 2 v vis ->
  stops g 2 v (visitRaceLHS7_1 g v lab vis)
    (fun l => same_location g lab l /\ is_write lab = true /\ is_write l = true).
Proof.
  intros Hi. unfold visitRaceLHS7_1.
  destruct (mark_inv g Hg 2 v vis 1 entered lab Hi ltac:(lia) Hlab) as (vis1 & -> & Hi1 & _); [done|].
  cbn [mbind outcome_bind]. eapply stops_iff; [|sameloc_chain]. 2: apply stops_finish; [done|done|lia|done].
  intros l. cbn beta. split.
  - intros [(Hs & H1 & H2)|[]]. split; [|done]. apply samelocs_access; [apply access_kind; auto..|done].
  - intros (Hs & H1 & H2). left. split; [|done]. apply samelocs_access; [apply access_kind; auto..|done].
Qed.

(** ** Allocations and frees *)

(** The pointers between accesses, allocations and frees lead to labels, and the
    hazard-pointer test finds the allocation of a dynamic access. *)
Record blocks_ok : Prop := {
  bl_alloc l : l ∈ labels g -> exists o, alloc_pred g l = Ret o;
  bl_accesses l : l ∈ labels g -> exists ls, alloc_succs g l = Ret ls;
  bl_free l : l ∈ labels g -> exists o, free_succ g l = Ret o;
  bl_freed l : l ∈ labels g -> exists o, free_pred g l = Ret o;
  bl_malloc l a : l ∈ labels g -> free_pred g l = Ret (Some a) -> Isa.MallocLabel (kind a) = true;
  bl_hazard l : l ∈ labels g -> exists b, unprotected g l = Ret b;
}.
Context (Hb : blocks_ok).

Lemma deref_in p o l : deref g p = Ret o -> o = Some l -> l ∈ labels g.
Proof.
  unfold deref. destruct p; [|congruence]. intros (x & Ex & [= <-])%fmap_ret [= <-].
  by eapply getEventLabel_in.
Qed.
Lemma deref_all_in es : forall ls l, deref_all g es = Ret ls -> l ∈ ls -> l ∈ labels g.
Proof.
  induction es as [|e es IH]; intros ls l; cbn [deref_all].
  - intros [= <-] []%elem_of_nil.
  - destruct (getEventLabel g e) as [x| |] eqn:Ex; cbn [mbind outcome_bind]; [|discriminate..].
    destruct (deref_all g es) as [xs| |]; cbn [mbind outcome_bind]; [|discriminate..].
    intros [= <-] [->|?]%elem_of_cons; [by eapply getEventLabel_in|by eapply IH].
Qed.
Lemma alloc_pred_in l a : alloc_pred g l = Ret (Some a) -> a ∈ labels g.
Proof. unfold alloc_pred. case_match; [|done]. intros Hd. by eapply deref_in. Qed.
Lemma free_pred_in l a : free_pred g l = Ret (Some a) -> a ∈ labels g.
Proof. unfold free_pred. case_match; [|done]. intros Hd. by eapply deref_in. Qed.
Lemma free_succ_in l a : free_succ g l = Ret (Some a) -> a ∈ labels g.
Proof. unfold free_succ. case_match; [|done]. intros Hd. by eapply deref_in. Qed.
Lemma alloc_succs_in l ls x : alloc_succs g l = Ret ls -> x ∈ ls -> x ∈ labels g.
Proof. unfold alloc_succs. case_match; [|intros [= <-] []%elem_of_nil]. by apply deref_all_in. Qed.

Lemma stops_opt K p vis :
  (0 < K)%nat -> (forall a, p = Some a -> a ∈ labels g) -> inv g K v vis ->
  stops g K v (stop_opt 0 (visit_contained v) p vis) (fun l => p = Some l).
Proof.
  intros HK Hp Hi. destruct p as [a|]; simpl.
  - eapply stops_iff; [|apply stops_contained; auto]. intros l. split; [by intros ->|congruence].
  - eapply stops_iff; [|by apply stops_skip]. intros l. by split.
Qed.

Lemma checkRace0_spec o :
  EventLabel.view lab 0 = Ret v -> alloc_pred g lab = Ret o ->
  exists r, checkRace0 g lab = Ret r /\ (r = None <-> forall a, o = Some a -> ordered v a).
Proof.
  intros Ev Eo. assert (Ho : forall a, o = Some a -> a ∈ labels g).
  { intros a ->. by eapply alloc_pred_in. }
  unfold checkRace0. rewrite Ev. cbn [mbind outcome_bind]. unfold visitRaceLHS0_1.
  destruct (start_inv 2 1) as (vis & -> & Hi & _); [lia|]. cbn [mbind outcome_bind]. rewrite Eo.
  cbn [mbind outcome_bind]. eapply (racy_none g 2 v).
  { apply stops_continue; [apply stops_opt; [lia|done|done]|intros ? ?; apply (stops_finish g Hg); [done|lia|done]]. }
  cbn beta. split; [intros H l [?|[]] _; by apply H|]. intros H a Ha. apply H; auto.
Qed.

(** The visit of an allocation: its accesses that satisfy the condition. *)
Lemma stops_accesses (c : Label -> outcome bool) (P : Label -> Prop) a ls vis :
  a ∈ labels g -> alloc_succs g a = Ret ls ->
  (forall l, l ∈ labels g -> exists b : bool, c l = Ret b /\ (b = true <-> P l)) ->
  inv g 3 v vis -> ~ seen_at vis 1 a ->
  stops g 3 v (stop_next 1 (fun lab vis =>
      vis ← mark_node 1 entered lab vis; ls ← alloc_succs g lab;
      continue (stop_each 0 c (visit_contained v) ls vis) (finish 1 lab)) a vis)
    (fun l => l ∈ ls /\ P l).
Proof.
  intros Ha Els Hc Hi Hnew. unfold stop_next.
  destruct (status_vis g Hg 3 vis 1 a (proj1 Hi) ltac:(lia) Ha) as (x & -> & Hx). cbn [mbind outcome_bind].
  rewrite decide_True by (destruct (decide (x = unseen)); [done|tauto]).
  destruct (mark_inv g Hg 3 v vis 1 entered a Hi ltac:(lia) Ha) as (vis1 & -> & Hi1 & _); [done|].
  cbn [mbind outcome_bind]. rewrite Els. cbn [mbind outcome_bind].
  eapply stops_iff; [|apply stops_continue;
    [apply (stops_each g Hg 3 v vis1 c P ls); [lia| |done]
    |intros ? ?; apply (stops_finish g Hg); [done|lia|done]]].
  - intros l. tauto.
  - intros l Hl. pose proof (alloc_succs_in _ _ _ Els Hl) as Hin. split; [done|]. by apply Hc.
Qed.

(** What a free must be after: its allocation and the accesses of the block. *)
Lemma checkRace2_spec :
  EventLabel.view lab 0 = Ret v ->
  exists r, checkRace2 g lab = Ret r /\
    (r = None <-> (is_free lab = true -> forall a, free_pred g lab = Ret (Some a) -> ordered v a /\
       forall ls l, alloc_succs g a = Ret ls -> l ∈ ls -> ordered v l)).
Proof.
  intros Ev. unfold checkRace2. rewrite Ev. cbn [mbind outcome_bind]. unfold visitRaceLHS2_2.
  destruct (start_inv 3 2) as (vis & -> & Hi & Hs); [lia|]. cbn [mbind outcome_bind].
  destruct (bl_freed Hb lab Hlab) as [o Eo]. rewrite Eo.
  set (p := if is_free lab then o else None).
  assert ((if is_free lab then Ret o else Ret None) = Ret p) as -> by (unfold p; by destruct (is_free lab)).
  cbn [mbind outcome_bind].
  assert (Hp : forall a, p = Some a <-> is_free lab = true /\ free_pred g lab = Ret (Some a)).
  { intros a. rewrite Eo. unfold p.
    destruct (is_free lab); split; [by intros ->|by intros [_ [= ->]]|done|by intros [? _]]. }
  assert (stops g 3 v (stop_opt 1 (visitRaceLHS2_1 g v) p vis)
    (fun l => exists a ls, p = Some a /\ alloc_succs g a = Ret ls /\ l ∈ ls)) as H1.
  { destruct p as [a|]; simpl.
    - assert (a ∈ labels g) as Ha by (apply (free_pred_in lab); apply (Hp a); done).
      destruct (bl_accesses Hb a Ha) as [ls Els].
      eapply stops_iff; [|apply (stops_accesses always (fun _ => True) a ls); [done|done| |done|]].
      + intros l. split; [intros [? _]; by exists a, ls|]. intros (? & ? & [= <-] & E & ?).
        rewrite Els in E. by injection E as <-.
      + intros l _. by exists true.
      + intros H. by apply Hs in H.
    - eapply stops_iff; [|by apply stops_skip]. intros l. split; [done|]. by intros (? & ? & ? & _). }
  eapply (racy_none g 3 v).
  { apply stops_continue; [exact H1|]. intros vis' Hi'. cbn beta.
    apply stops_continue; [apply (stops_opt 3 p); [lia| |exact Hi']|].
    - intros a Ha. apply (free_pred_in lab). by apply Hp.
    - intros ? ?. apply (stops_finish g Hg); [done|lia|done]. }
  clear H1. cbn beta. split; cycle 1.
  - rewrite <- Eo. intros H Hf a Ha. assert (Hpa : p = Some a) by by apply Hp. split.
    + apply H; [by right; left|]. by eapply free_pred_in.
    + intros ls l Els Hl. apply H; [left; by exists a, ls|]. by eapply alloc_succs_in.
  - rewrite <- Eo. intros H l [(a & ls & Ha & Els & Hl)|[Ha|[]]] _; apply Hp in Ha as [Hf Ha].
    + destruct (H Hf a Ha) as [_ Hls]. by eapply Hls.
    + by destruct (H Hf l Ha).
Qed.

Lemma malloc_protected a : Isa.MallocLabel (kind a) = true -> unprotected g a = Ret false.
Proof.
  intros H. unfold unprotected.
  assert (forall k, implb (Isa.MallocLabel k) (negb (Isa.MemAccessLabel k)) = true) as Hk
    by (apply kinds_forall; vm_compute; reflexivity).
  specialize (Hk (kind a)). rewrite H in Hk. apply negb_true_iff in Hk. by rewrite Hk.
Qed.

(** What the retirement of a block must be after: its unprotected accesses. *)
Lemma checkRace4_spec :
  EventLabel.view lab 0 = Ret v ->
  exists r, checkRace4 g lab = Ret r /\
    (r = None <-> (Isa.HpRetireLabel (kind lab) = true -> forall a ls l, free_pred g lab = Ret (Some a) ->
       alloc_succs g a = Ret ls -> l ∈ ls -> unprotected g l = Ret true -> ordered v l)).
Proof.
  intros Ev. unfold checkRace4. rewrite Ev. cbn [mbind outcome_bind]. unfold visitRaceLHS4_2.
  destruct (start_inv 3 2) as (vis & -> & Hi & Hs); [lia|]. cbn [mbind outcome_bind].
  destruct (bl_freed Hb lab Hlab) as [o Eo]. rewrite Eo.
  set (p := if Isa.HpRetireLabel (kind lab) then o else None).
  assert ((if Isa.HpRetireLabel (kind lab) then Ret o else Ret None) = Ret p) as ->
    by (unfold p; by destruct (Isa.HpRetireLabel (kind lab))).
  cbn [mbind outcome_bind].
  assert (Hp : forall a, p = Some a <-> Isa.HpRetireLabel (kind lab) = true /\ free_pred g lab = Ret (Some a)).
  { intros a. rewrite Eo. unfold p.
    destruct (Isa.HpRetireLabel (kind lab)); split; [by intros ->|by intros [_ [= ->]]|done|by intros [? _]]. }
  assert (Hw : whenM (unprotected g) p = Ret None).
  { destruct p as [a|]; [|done]. simpl. by rewrite (malloc_protected a) by by eapply bl_malloc; [..|apply Hp]. }
  assert (stops g 3 v (stop_opt 1 (visitRaceLHS4_1 g v) p vis)
    (fun l => exists a ls, p = Some a /\ alloc_succs g a = Ret ls /\ l ∈ ls /\ unprotected g l = Ret true)) as H1.
  { clear Hw. destruct p as [a|]; simpl.
    - assert (a ∈ labels g) as Ha by (apply (free_pred_in lab); apply (Hp a); done).
      destruct (bl_accesses Hb a Ha) as [ls Els].
      eapply stops_iff; [|apply (stops_accesses (unprotected g) (fun l => unprotected g l = Ret true) a ls);
        [done|done| |done|]].
      + intros l. split; [intros [? ?]; by exists a, ls|]. intros (? & ? & [= <-] & E & ? & ?).
        rewrite Els in E. injection E as <-. done.
      + intros l Hl. destruct (bl_hazard Hb l Hl) as [b Eb]. exists b. split; [done|]. rewrite Eb.
        split; congruence.
      + intros H. by apply Hs in H.
    - eapply stops_iff; [|by apply stops_skip]. intros l. split; [done|]. by intros (? & ? & ? & _). }
  eapply (racy_none g 3 v).
  { apply stops_continue; [exact H1|]. intros vis' Hi'. cbn beta. rewrite Hw. cbn [mbind outcome_bind].
    apply stops_continue; [apply (stops_opt 3 None); [lia|done|exact Hi']|].
    intros ? ?. apply (stops_finish g Hg); [done|lia|done]. }
  clear H1. cbn beta. rewrite <- Eo. split.
  - intros H l [(a & ls & Ha & Els & Hl & Hu)|[?|[]]] _; [|done]. apply Hp in Ha as [Hf Ha]. by eapply H.
  - intros H Hf a ls l Ha Els Hl Hu. apply H; [left|by eapply alloc_succs_in].
    exists a, ls. split; [by apply Hp|done].
Qed.

(** ** The checks that mark labels *)

(** The marked labels are exactly [S]. *)
Record marked (K : nat) (m : Marks) (S : Label -> Prop) : Prop := {
  mk_tbl : tbl g K (mk_visited m);
  mk_len : length (lhsAccept m) = size g;
  mk_seen l : l ∈ labels g -> seen_at (mk_visited m) 0 l <-> S l;
  mk_acc i : lhsAccept m !! i = Some true <-> exists l, l ∈ labels g /\ stamp l = Some (Z.of_nat i) /\ S l;
}.

Lemma marked_iff K m S S' : (forall l, S l <-> S' l) -> marked K m S -> marked K m S'.
Proof.
  intros H []. split; [done|done|intros; rewrite <- H; auto|]. intros i. rewrite mk_acc0.
  by setoid_rewrite H.
Qed.
Lemma fresh_marked K : marked K (fresh_marks g K) (fun _ => False).
Proof.
  split; [apply fresh_tbl|apply length_replicate| |].
  - intros l _. split; [apply fresh_unseen|done].
  - intros i. split; [|by intros (? & _ & _ & [])]. intros H.
    unfold fresh_marks in H. cbn [lhsAccept] in H. by apply lookup_replicate in H as [? _].
Qed.
Lemma marked_mark K m S k x l :
  marked K m S -> (0 < k < K)%nat -> l ∈ labels g -> x <> unseen ->
  exists m', mark_marks k x l m = Ret m' /\ marked K m' S /\
    forall j y, y ∈ labels g -> seen_at (mk_visited m') j y <-> seen_at (mk_visited m) j y \/ (j = k /\ y = l).
Proof.
  intros Hm Hk Hl Hx. destruct (mark_vis g Hg K (mk_visited m) k x l (mk_tbl _ _ _ Hm) ltac:(lia) Hl Hx)
    as (vis & E & T & S'). unfold mark_marks. rewrite E. cbn [mbind outcome_bind]. eexists. split; [done|].
  split; [|done]. split; [done|apply Hm| |apply Hm].
  intros y Hy. cbn [mk_visited]. rewrite S' by done. rewrite (mk_seen _ _ _ Hm) by done.
  split; [intros [?|[? _]]; [done|lia]|by left].
Qed.

Lemma marked_accept K m S p :
  marked K m S -> (0 < K)%nat -> (forall l, p = Some l -> l ∈ labels g) ->
  exists m', marks_next 0 visit_accept p m = Ret m' /\ marked K m' (fun l => S l \/ p = Some l).
Proof.
  intros Hm HK Hp. destruct p as [l|]; simpl.
  2: { exists m. split; [done|]. eapply marked_iff; [|done]. intros l. split; [by left|by intros [?|?]]. }
  specialize (Hp l eq_refl).
  destruct (status_vis g Hg K (mk_visited m) 0 l (mk_tbl _ _ _ Hm) HK Hp) as (x & -> & Hx).
  cbn [mbind outcome_bind]. case_decide as Hx'; cycle 1.
  { exists m. split; [done|]. eapply marked_iff; [|done]. intros y. split; [by left|].
    intros [?|[= <-]]; [done|]. apply (mk_seen _ _ _ Hm l Hp). tauto. }
  destruct (stamp_of_in g Hg l Hp) as (n & En & Hn).
  unfold visit_accept, mark_marks.
  destruct (mark_vis g Hg K (mk_visited m) 0 entered l (mk_tbl _ _ _ Hm) HK Hp) as (v1 & -> & T1 & S1); [done|].
  cbn [mbind outcome_bind]. unfold accept, EventLabel.getStamp. rewrite En.
  cbn [mbind outcome_bind lhsAccept mk_visited].
  pose proof (mk_len _ _ _ Hm) as Hlen.
  destruct (lookup_lt_is_Some_2 (lhsAccept m) (Z.to_nat n) ltac:(lia)) as [b Eb].
  assert (vec_get (lhsAccept m) n = Ret b) as ->.
  { unfold vec_get. destruct (Z.ltb_spec n 0); [lia|]. by rewrite Eb. }
  cbn [mbind outcome_bind lhsAccept mk_visited].
  destruct (mark_vis g Hg K v1 0 left l T1 HK Hp) as (v2 & -> & T2 & S2); [done|].
  cbn [mbind outcome_bind lhsAccept mk_visited]. eexists. split; [done|]. split; cbn [lhsAccept mk_visited].
  - done.
  - by rewrite length_insert.
  - intros y Hy. rewrite S2, S1, (mk_seen _ _ _ Hm) by done. split; [|intros [?|[= ->]]; auto].
    intros [[?|[_ ->]]|[_ ->]]; auto.
  - intros i. destruct (decide (i = Z.to_nat n)) as [->|Hi].
    + rewrite list_lookup_insert_eq by lia. split; [|done]. intros _. exists l. rewrite Z2Nat.id by lia. auto.
    + rewrite list_lookup_insert_ne by done. rewrite (mk_acc _ _ _ Hm). split.
      * intros (y & ? & ? & ?). exists y. auto.
      * intros (y & ? & Ey & [?|[= <-]]); [by exists y|]. rewrite En in Ey. injection Ey as Ey. lia.
Qed.

Lemma label_stamped_ret n l ls :
  (forall x, x ∈ ls -> x ∈ labels g) -> l ∈ ls -> stamp l = Some n -> label_stamped n ls = Ret l.
Proof.
  intros Hls Hl Hs. induction ls as [|x ls IH]; [by apply elem_of_nil in Hl|]. cbn [label_stamped].
  assert (Hx : x ∈ labels g) by (apply Hls; left).
  destruct (stamp_of_in g Hg x Hx) as (k & Ek & _). unfold EventLabel.getStamp. rewrite Ek.
  cbn [mbind outcome_bind]. destruct (Z.eqb_spec k n) as [->|Hk].
  - f_equal. apply (stamp_inj g Hg); [done|by apply Hls|congruence].
  - apply IH; [intros; apply Hls; by right|]. apply elem_of_cons in Hl as [->|?]; [congruence|done].
Qed.

Lemma first_accepted_spec acc i (S : Label -> Prop) :
  (forall j, acc !! j = Some true <->
    exists l, l ∈ labels g /\ stamp l = Some (i + Z.of_nat j) /\ S l) ->
  exists r, first_accepted g i acc = Ret r /\
    (r = None <-> forall j, acc !! j <> Some true) /\ (forall l, r = Some l -> S l).
Proof.
  revert i. induction acc as [|b acc IH]; intros i H; cbn [first_accepted].
  { exists None. by split. }
  destruct b.
  - destruct (proj1 (H 0%nat) eq_refl) as (l & Hl & Es & HS). rewrite Z.add_0_r in Es.
    rewrite (label_stamped_ret i l) by done. exists (Some l). split; [done|].
    split; [split; [done|]|by intros ? [= <-]]. intros Hn. by specialize (Hn 0%nat).
  - destruct (IH (i + 1)) as (r & E & Hr & HS).
    { intros j. rewrite (H (Datatypes.S j)). setoid_rewrite Nat2Z.inj_succ.
      by replace (i + 1 + Z.of_nat j) with (i + Z.succ (Z.of_nat j)) by lia. }
    exists r. split; [done|]. split; [|done]. rewrite Hr. split.
    + intros Hn [|j]; [done|apply Hn].
    + intros Hn j. apply (Hn (Datatypes.S j)).
Qed.

Lemma marked_result K m S :
  marked K m S -> (forall l, S l -> l ∈ labels g) ->
  exists r, first_accepted g 0 (lhsAccept m) = Ret r /\
    (r = None <-> forall l, ~ S l) /\ (forall l, r = Some l -> S l).
Proof.
  intros Hm HS. destruct (first_accepted_spec (lhsAccept m) 0 S) as (r & E & Hr & Hl).
  { intros j. by rewrite (mk_acc _ _ _ Hm). }
  exists r. split; [done|]. split; [|done]. rewrite Hr. split.
  - intros H l Hl'. destruct (stamp_of_in g Hg l (HS l Hl')) as (n & En & Hn).
    apply (H (Z.to_nat n)). apply (mk_acc _ _ _ Hm). exists l. rewrite Z2Nat.id by lia. auto.
  - intros H j (l & _ & _ & Hl')%(mk_acc _ _ _ Hm). by apply (H l).
Qed.

(** Visiting the allocation [p], when there is one: its free is marked if it
    satisfies [cond]. *)
Definition visit_freed (cond : Label -> bool) (a : Label) (m : Marks) : outcome Marks :=
  m ← mark_marks 1 entered a m; p ← free_succ g a;
  m ← marks_next 0 visit_accept (when cond p) m; mark_marks 1 left a m.
Definition freed_by (cond : Label -> bool) (p : option Label) (f : Label) : Prop :=
  exists a, p = Some a /\ free_succ g a = Ret (Some f) /\ cond f = true.

Lemma marked_freed cond p m :
  (forall a, p = Some a -> a ∈ labels g) -> marked 3 m (fun _ => False) ->
  (forall l, l ∈ labels g -> ~ seen_at (mk_visited m) 1 l) ->
  exists m', marks_next 1 (visit_freed cond) p m = Ret m' /\ marked 3 m' (freed_by cond p).
Proof.
  intros Hp Hm Hnew. destruct p as [a|]; simpl.
  2: { exists m. split; [done|]. eapply marked_iff; [|done]. intros f. split; [done|]. by intros (? & ? & _). }
  specialize (Hp a eq_refl).
  destruct (status_vis g Hg 3 (mk_visited m) 1 a (mk_tbl _ _ _ Hm) ltac:(lia) Hp) as (x & -> & Hx).
  cbn [mbind outcome_bind]. rewrite decide_True.
  2: { destruct (decide (x = unseen)); [done|]. exfalso. apply (Hnew a Hp). tauto. }
  unfold visit_freed. destruct (marked_mark 3 m _ 1 entered a Hm ltac:(lia) Hp) as (m1 & -> & M1 & _); [done|].
  cbn [mbind outcome_bind]. destruct (bl_free Hb a Hp) as [o Eo]. rewrite Eo. cbn [mbind outcome_bind].
  destruct (marked_accept 3 m1 _ (when cond o) M1) as (m2 & -> & M2); [lia| |].
  { intros l [Ho _]%when_some. apply (free_succ_in a). by rewrite Eo, Ho. }
  cbn [mbind outcome_bind]. destruct (marked_mark 3 m2 _ 1 left a M2 ltac:(lia) Hp) as (m3 & -> & M3 & _); [done|].
  exists m3. split; [done|]. eapply marked_iff; [|exact M3]. intros f. cbn beta. rewrite when_some. unfold freed_by. split.
  - intros [[]|[-> Hc]]. by exists a.
  - intros (? & [= <-] & E & Hc). right. rewrite Eo in E. by injection E as ->.
Qed.

(** The common shape of [checkRace3] and [checkRace5]. *)
Lemma freed_check cond p :
  (forall a, p = Some a -> a ∈ labels g) ->
  exists r, (m ← mark_marks 2 entered lab (fresh_marks g 3);
             m ← marks_next 1 (visit_freed cond) p m;
             m ← mark_marks 2 left lab m; first_accepted g 0 (lhsAccept m)) = Ret r /\
    (r = None <-> forall f, ~ freed_by cond p f) /\ (forall f, r = Some f -> freed_by cond p f).
Proof.
  intros Hp. destruct (marked_mark 3 _ _ 2 entered lab (fresh_marked 3) ltac:(lia) Hlab) as (m1 & -> & M1 & S1); [done|].
  cbn [mbind outcome_bind]. destruct (marked_freed cond p m1 Hp M1) as (m2 & -> & M2).
  { intros l Hl [H|[H _]]%S1; [by apply fresh_unseen in H|lia|done]. }
  cbn [mbind outcome_bind]. destruct (marked_mark 3 m2 _ 2 left lab M2 ltac:(lia) Hlab) as (m3 & -> & M3 & _); [done|].
  apply (marked_result 3 m3 _ M3). intros f (a & _ & Hf & _). by eapply free_succ_in.
Qed.

Lemma checkRace3_spec :
  exists r, checkRace3 g lab = Ret r /\
    (r = None <-> forall a f, alloc_pred g lab = Ret (Some a) -> free_succ g a = Ret (Some f) -> is_free f = false).
Proof.
  destruct (bl_alloc Hb lab Hlab) as [o Eo].
  destruct (freed_check is_free o) as (r & E & Hr & _).
  { intros a ->. by eapply alloc_pred_in. }
  exists r. split.
  - rewrite <- E. unfold checkRace3, visitRaceLHS3_2.
    destruct (mark_marks 2 entered lab _) as [m| |]; cbn [mbind outcome_bind]; [|done..].
    rewrite Eo. cbn [mbind outcome_bind].
    change (visitRaceLHS3_1 g) with (visit_freed is_free).
    by destruct (marks_next 1 (visit_freed is_free) o m).
  - rewrite Hr, Eo. unfold freed_by. split.
    + intros H a f [= ->] Hf. destruct (is_free f) eqn:?; [|done]. exfalso. apply (H f). by exists a.
    + intros H f (a & -> & Hf & Hc). rewrite (H a f eq_refl Hf) in Hc. done.
Qed.

Lemma checkRace5_spec :
  exists r, checkRace5 g lab = Ret r /\
    (r = None <-> (unprotected g lab = Ret true -> forall a f, alloc_pred g lab = Ret (Some a) ->
       free_succ g a = Ret (Some f) -> Isa.HpRetireLabel (kind f) = false)).
Proof.
  destruct (bl_alloc Hb lab Hlab) as [o Eo]. destruct (bl_hazard Hb lab Hlab) as [b Eb].
  set (p := if b then o else None).
  destruct (freed_check (fun l => Isa.HpRetireLabel (kind l)) p) as (r & E & Hr & _).
  { intros a. unfold p. destruct b; [|done]. intros ->. by eapply alloc_pred_in. }
  exists r. split.
  - rewrite <- E. unfold checkRace5, visitRaceLHS5_2.
    destruct (mark_marks 2 entered lab _) as [m| |]; cbn [mbind outcome_bind]; [|done..].
    rewrite Eb, Eo. cbn [mbind outcome_bind].
    assert ((if b then Ret o else Ret None) = Ret p) as -> by (unfold p; by destruct b).
    cbn [mbind outcome_bind].
    change (visitRaceLHS5_1 g) with (visit_freed (fun l => Isa.HpRetireLabel (kind l))).
    by destruct (marks_next 1 (visit_freed _) p m).
  - rewrite Hr, Eo, Eb. unfold freed_by, p. destruct b.
    + split.
      * intros H _ a f [= ->] Hf. destruct (Isa.HpRetireLabel (kind f)) eqn:?; [|done].
        exfalso. apply (H f). by exists a.
      * intros H f (a & -> & Hf & Hc). rewrite (H eq_refl a f eq_refl Hf) in Hc. done.
    + split; [done|]. by intros _ f (a & ? & _).
Qed.

(** The guarded loops over the same-location labels of a free do nothing. *)
Lemma free_loop_skip (guard : bool) cond m :
  guard = is_free lab \/ guard = Isa.HpRetireLabel (kind lab) ->
  (if guard then marks_each 0 cond visitRaceLHS1_0 (samelocs g lab) else Ret) m = Ret m.
Proof.
  intros H. destruct guard; [|done]. rewrite samelocs_free; [done|].
  destruct H as [H|H]; symmetry in H; [by apply andb_true_iff in H as [? _]|].
  assert (forall k, implb (Isa.HpRetireLabel k) (Isa.FreeLabel k) = true) as Hr
    by (apply kinds_forall; vm_compute; reflexivity).
  specialize (Hr (kind lab)). by rewrite H in Hr.
Qed.

(** A free has no same-location labels, so the check for two frees marks none. *)
Lemma checkRace1_none : checkRace1 g lab = Ret None.
Proof.
  unfold checkRace1, visitRaceLHS1_1.
  destruct (marked_mark 2 _ _ 1 entered lab (fresh_marked 2) ltac:(lia) Hlab) as (m1 & -> & M1 & _); [done|].
  cbn [mbind outcome_bind].
  do 4 (rewrite free_loop_skip by auto; cbn [mbind outcome_bind]).
  destruct (marked_mark 2 m1 _ 1 left lab M1 ltac:(lia) Hlab) as (m2 & -> & M2 & _); [done|].
  cbn [mbind outcome_bind]. destruct (marked_result 2 m2 _ M2) as (r & E & Hn & _); [done|].
  rewrite E. f_equal. apply Hn. auto.
Qed.
End Checks.
End RaceFacts.
