(* ===== verification/RASafety.v ===== *)
(** * Memory safety and data races: what [checkErrors] and [checkWarnings] mean
    (properties of RARace.v). *)
From Stdlib Require Import String.
From S2P Require Import Prelude Event SVal SAddr VSet Deps Views Labels LabelClasses Graph GraphBase GraphRf Iterators RAViews RASearch RAHb RAExact RARace RARaceFacts.
#[local] Open Scope Z_scope.

Module Safety.
Import ExecutionGraph GraphIterators EdgeLabels Search Lookup Rf Hb Exact Race RaceFacts.

(** Memory safety of [lab] in a graph, when [before] are the labels that happen
    before it.  An access comes after the allocation of its block; a free or a
    retirement comes after the allocation of the block, a free after all its
    accesses and a retirement after those that hazard pointers do not protect;
    the block of an access was not freed, nor retired when the access is not
    protected; no two labels free or retire one block; and two accesses with a
    byte in common, one of them not atomic and one a write, are ordered. *)
Record memory_safe (g : Graph) (before : Label -> Prop) (lab : Label) : Prop := {
  ms_alloc a : alloc_pred g lab = Ret (Some a) -> before a;
  ms_after a : free_pred g lab = Ret (Some a) -> before a;
  ms_free a ls l : is_free lab = true -> free_pred g lab = Ret (Some a) ->
    alloc_succs g a = Ret ls -> l ∈ ls -> before l;
  ms_retire a ls l : Isa.HpRetireLabel (kind lab) = true -> free_pred g lab = Ret (Some a) ->
    alloc_succs g a = Ret ls -> l ∈ ls -> unprotected g l = Ret true -> before l;
  ms_freed a f : alloc_pred g lab = Ret (Some a) -> free_succ g a = Ret (Some f) -> is_free f = false;
  ms_retired a f : unprotected g lab = Ret true -> alloc_pred g lab = Ret (Some a) ->
    free_succ g a = Ret (Some f) -> Isa.HpRetireLabel (kind f) = false;
  ms_once a l : free_pred g lab = Ret (Some a) -> l ∈ labels g -> getPos l <> getPos lab ->
    free_pred g l <> Ret (Some a);
  ms_race l : data_race g lab l -> before l;
}.
(** What the checks leave out: [lab] frees or retires no block that another label
    frees or retires, retires no block whose allocation is not before it, and
    conflicts with no access that overlaps it from another address. *)
Record covered (g : Graph) (before : Label -> Prop) (lab : Label) : Prop := {
  cov_once a l : free_pred g lab = Ret (Some a) -> l ∈ labels g -> getPos l <> getPos lab ->
    free_pred g l <> Ret (Some a);
  cov_retire a : Isa.HpRetireLabel (kind lab) = true -> free_pred g lab = Ret (Some a) -> before a;
  cov_race l : data_race g lab l -> MemAccessLabel.getAddr l <> MemAccessLabel.getAddr lab -> before l;
}.
(** What the checks test. *)
Record passes (g : Graph) (before : Label -> Prop) (lab : Label) : Prop := {
  ps_alloc a : alloc_pred g lab = Ret (Some a) -> before a;
  ps_free a : is_free lab = true -> free_pred g lab = Ret (Some a) ->
    before a /\ forall ls l, alloc_succs g a = Ret ls -> l ∈ ls -> before l;
  ps_freed a f : alloc_pred g lab = Ret (Some a) -> free_succ g a = Ret (Some f) -> is_free f = false;
  ps_retire a ls l : Isa.HpRetireLabel (kind lab) = true -> free_pred g lab = Ret (Some a) ->
    alloc_succs g a = Ret ls -> l ∈ ls -> unprotected g l = Ret true -> before l;
  ps_retired a f : unprotected g lab = Ret true -> alloc_pred g lab = Ret (Some a) ->
    free_succ g a = Ret (Some f) -> Isa.HpRetireLabel (kind f) = false;
  ps_race l : races g lab l -> before l;
}.
Lemma free_pred_kind g lab a : free_pred g lab = Ret (Some a) ->
  is_free lab = true \/ Isa.HpRetireLabel (kind lab) = true.
Proof.
  unfold free_pred, is_free. destruct (Isa.FreeLabel (kind lab)); [|done]. intros _.
  destruct (Isa.HpRetireLabel (kind lab)); auto.
Qed.
(** Memory safety is what the checks test and what they leave out. *)
Lemma memory_safe_passes g before lab :
  memory_safe g before lab <-> passes g before lab /\ covered g before lab.
Proof.
  split.
  - intros []. split; split; eauto. intros l [Hl _]%races_data_race. auto.
  - intros [[] []]. split; eauto.
    + intros a Ha. destruct (free_pred_kind g lab a Ha); [by apply ps_free0|auto].
    + intros a ls l Hf Ha. by apply ps_free0.
    + intros l Hl. destruct (decide (MemAccessLabel.getAddr l = MemAccessLabel.getAddr lab)); [|auto].
      apply ps_race0. by apply races_data_race.
Qed.

Lemma passes_iff g (P Q : Label -> Prop) lab :
  (forall l, l ∈ labels g -> P l <-> Q l) -> passes g P lab -> passes g Q lab.
Proof.
  intros H []. split; try done.
  - intros a Ha. apply H; [by eapply alloc_pred_in|auto].
  - intros a Hf Ha. destruct (ps_free0 a Hf Ha) as [Hb Hl]. split.
    + apply H; [by eapply free_pred_in|done].
    + intros ls l Els Hin. apply H; [by eapply alloc_succs_in|by eapply Hl].
  - intros a ls l Hr Ha Els Hin Hu. apply H; [by eapply alloc_succs_in|by eapply ps_retire0].
  - intros l Hl. apply H; [apply Hl|auto].
Qed.

Lemma or_else_ret check err rest o e r :
  check = Ret o -> rest = Ret (e, r) ->
  exists e' r', or_else check err rest = Ret (e', r') /\
    match o with Some l => e' = err /\ r' = Some l | None => e' = e /\ r' = r end.
Proof. intros -> ->. unfold or_else. simpl. destruct o; by eexists _, _. Qed.

(** The whole chain of checks, from the specifications of each. *)
Lemma checkErrors_spec g lab v :
  well_stamped g -> blocks_ok g -> lab ∈ labels g -> EventLabel.view lab 0 = Ret v ->
  exists e r, checkErrors g lab = Ret (e, r) /\
    (e = VE_OK <-> passes g (ordered v) lab) /\
    (e = VE_RaceNotAtomic -> exists l, r = Some l /\ races g lab l /\ ~ ordered v l) /\
    (e = VE_AccessNonMalloc <-> exists a, alloc_pred g lab = Ret (Some a) /\ ~ ordered v a).
Proof.
  intros Hg Hb Hl Ev. destruct (bl_alloc g Hb lab Hl) as [o Eo].
  destruct (checkRace0_spec g Hg lab Hl v o Ev Eo) as (r0 & E0 & H0).
  pose proof (checkRace1_none g Hg lab Hl) as E1.
  destruct (checkRace2_spec g Hg lab Hl v Hb Ev) as (r2 & E2 & H2).
  destruct (checkRace3_spec g Hg lab Hl Hb) as (r3 & E3 & H3).
  destruct (checkRace4_spec g Hg lab Hl v Hb Ev) as (r4 & E4 & H4).
  destruct (checkRace5_spec g Hg lab Hl Hb) as (r5 & E5 & H5).
  assert (exists r6, checkRace6 g lab = Ret r6 /\ (r6 = None <-> forall l, races g lab l -> ordered v l) /\
    (forall l, r6 = Some l -> races g lab l /\ ~ ordered v l)) as (r6 & E6 & H6 & H6').
  { destruct (stops_racy g 2 v _ _ (visitRaceLHS6_1_stops g Hg lab Hl v _ (fresh_inv g 2 v))) as (r & E & Hr & Hr').
    exists r. split; [unfold checkRace6; rewrite Ev; exact E|]. split; [|done]. rewrite Hr. split; [|by auto].
    intros Hall l Hr0. apply Hall; [done|apply Hr0]. }
  unfold checkErrors, or_else. rewrite E0, E1, E2, E3, E4, E5, E6. cbn [mbind outcome_bind].
  assert (Hsafe : passes g (ordered v) lab <->
    r0 = None /\ r2 = None /\ r3 = None /\ r4 = None /\ r5 = None /\ r6 = None).
  { rewrite H0, H2, H3, H4, H5, H6. split.
    - intros []. split_and!; auto; intros; eauto. apply ps_alloc0. congruence.
    - intros (A0 & A2 & A3 & A4 & A5 & A6). split; eauto. intros a Ha. apply A0. congruence. }
  assert (Hbad : (exists a, alloc_pred g lab = Ret (Some a) /\ ~ ordered v a) <-> r0 <> None).
  { rewrite H0, Eo. split.
    - intros (a & Ha1 & Ha) Hall. injection Ha1 as ->. by apply Ha, Hall.
    - intros Hn. destruct o as [a|]; [|by destruct Hn]. exists a. split; [done|]. intros Ha. apply Hn. by intros ? [= <-]. }
  setoid_rewrite Hsafe. setoid_rewrite Hbad. clear -H6'.
  destruct r0 as [?|]; [eexists _, _; split; [done|]; split_and!; [intuition discriminate|discriminate|by split]|].
  assert (forall e r, e <> VE_OK -> e <> VE_RaceNotAtomic -> e <> VE_AccessNonMalloc ->
    forall P : Prop, ~ P -> (exists e' r', Ret (e, r) = Ret (e', r') /\ (e' = VE_OK <-> P) /\
      (e' = VE_RaceNotAtomic -> exists l, r' = Some l /\ races g lab l /\ ~ ordered v l) /\
      (e' = VE_AccessNonMalloc <-> (None : option Label) <> None))) as Hother.
  { intros e r ? ? ? P HP. exists e, r. split; [done|]. split_and!; [tauto|done|tauto]. }
  destruct r2; [by apply Hother; [..|intuition discriminate]|].
  destruct r3; [by apply Hother; [..|intuition discriminate]|].
  destruct r4; [by apply Hother; [..|intuition discriminate]|].
  destruct r5; [by apply Hother; [..|intuition discriminate]|].
  destruct r6 as [l|].
  - exists VE_RaceNotAtomic, (Some l). split; [done|]. split_and!; [intuition discriminate| |by split].
    intros _. exists l. split; [done|]. by apply H6'.
  - exists VE_OK, None. split; [done|]. split_and!; [tauto|done|by split].
Qed.

(** A view that is exact orders exactly what happens before. *)
Definition happens_before (g : Graph) (lab l : Label) : Prop := index (getPos l) = 0 \/ hb g l lab.
Lemma exact_ordered g lab v l :
  labelled g -> exact_view g (hb_step g) lab v -> l ∈ labels g -> ordered v l <-> happens_before g lab l.
Proof.
  intros Hg [_ Hv] [e He]%labels_iff. unfold ordered, happens_before.
  rewrite (proj1 (lb_ok _ Hg e l He)). by apply Hv.
Qed.

(** Without the conditions: the check for two frees never finds a label. *)
Lemma mark_marks_accept k x lab m m' : mark_marks k x lab m = Ret m' -> lhsAccept m' = lhsAccept m.
Proof. unfold mark_marks. destruct (mark_node _ _ _ _); simpl; [by intros [= <-]|done..]. Qed.
Lemma first_accepted_false g i n : first_accepted g i (replicate n false) = Ret None.
Proof. revert i. induction n as [|n IH]; intros i; [done|apply IH]. Qed.
Lemma checkRace1_never g lab o : checkRace1 g lab = Ret o -> o = None.
Proof.
  unfold checkRace1, visitRaceLHS1_1. destruct (mark_marks 1 entered lab _) as [m1| |] eqn:E1; [|done..].
  cbn [mbind outcome_bind].
  do 4 (rewrite free_loop_skip by auto; cbn [mbind outcome_bind]).
  destruct (mark_marks 1 left lab m1) as [m2| |] eqn:E2; [|done..]. cbn [mbind outcome_bind].
  rewrite (mark_marks_accept _ _ _ _ _ E2), (mark_marks_accept _ _ _ _ _ E1).
  unfold fresh_marks. cbn [lhsAccept]. rewrite first_accepted_false. congruence.
Qed.

(** ** The conditions on a concrete graph *)

Definition retb {A} (o : outcome A) : bool := match o with Ret _ => true | _ => false end.
Definition blocks_okb (g : Graph) : bool :=
  forallb (fun l => retb (alloc_pred g l) && retb (alloc_succs g l) && retb (free_succ g l) &&
    match free_pred g l with Ret (Some a) => Isa.MallocLabel (kind a) | Ret None => true | _ => false end &&
    retb (unprotected g l)) (labels g).
Lemma retb_ret {A} (o : outcome A) : retb o = true -> exists x, o = Ret x.
Proof. destruct o; [by eexists|done..]. Qed.
Lemma blocks_okb_sound g : blocks_okb g = true -> blocks_ok g.
Proof.
  unfold blocks_okb. rewrite forallb_forall. intros H.
  assert (forall l, l ∈ labels g -> _) as H' by (intros l Hl; exact (H l (proj1 (list_elem_of_In _ _) Hl))).
  clear H. split.
  1-3,6: intros l Hl; specialize (H' l Hl); rewrite !andb_true_iff in H'; apply retb_ret; tauto.
  - intros l Hl. specialize (H' l Hl). rewrite !andb_true_iff in H'.
    destruct (free_pred g l); [by eexists|by intuition..].
  - intros l a Hl E. specialize (H' l Hl). rewrite !andb_true_iff, E in H'. tauto.
Qed.

(** A block that its thread initialises before creating a second thread, which
    loads from it ([initialised]); then the first thread stores again ([heap]). *)
Definition block : Event := mkEvent 0 1.
Definition add_access (g : Graph) (lab : Label) : Graph :=
  match addAlloc (add_viewed g lab) (Some block) (getPos lab) with Ret g' => g' | _ => g end.
Definition na_store (t i v : Z) : Label :=
  Make.WriteLabel (mkEvent t i) NotAtomic 256 8 Unsigned v WriteAttr.None_ DepInfo.no_deps.
Definition initialised : Graph :=
  let malloc := Make.MallocLabel block NotAtomic 256 16 8 SD_Heap ST_Volatile AS_User EmptyString DepInfo.no_deps in
  let g := add_access (add_viewed (addNewThread empty) malloc) (na_store 0 2 1) in
  let g := foldl add_viewed g
    [Make.ThreadCreateLabel (mkEvent 0 3) Release (mkThreadInfo 1 0 0 0 (-1)) DepInfo.no_deps;
     Make.ThreadStartLabel (mkEvent 1 0) Acquire (mkEvent 0 3) (mkThreadInfo 1 0 0 0 (-1)) (-1)] in
  let g := add_access g (Make.ReadLabel (mkEvent 1 1) NotAtomic 256 8 Unsigned None DepInfo.no_deps) in
  read_from g (mkEvent 1 1) (mkEvent 0 2).
Definition heap : Graph := add_access initialised (na_store 0 4 2).
Definition load : Label := default (na_store 0 0 0) (label_at initialised (mkEvent 1 1)).
Definition store : Label := default (na_store 0 0 0) (label_at heap (mkEvent 0 4)).

(** A block freed twice, as the driver's handler adds the frees. *)
Definition add_free (g : Graph) (i : Z) : Graph :=
  let fLab := FreeLabel.setAlloc (Some block) (FreeLabel.setFreedSize 16
    (Make.FreeLabel (mkEvent 0 i) NotAtomic 256 0 DepInfo.no_deps)) in
  alter_label (MallocLabel.setFree (Some (mkEvent 0 i))) block (add_viewed g fLab).
Definition freed_twice : Graph :=
  add_free (add_free (add_viewed (addNewThread empty)
    (Make.MallocLabel block NotAtomic 256 16 8 SD_Heap ST_Volatile AS_User EmptyString DepInfo.no_deps)) 2) 3.
Definition second_free : Label := default load (label_at freed_twice (mkEvent 0 3)).

(** ** The properties *)

(** Property C5.  No false alarm, and no error missed but of three kinds: the
    check of a memory-safe label answers [VE_OK]; and when it answers [VE_OK] the
    label is memory safe unless it frees a block that is freed twice, retires a
    block whose allocation does not happen before it, or conflicts with an
    unordered access that overlaps it and starts at another address, which are
    what [covered] excludes and the checks do not look for. *)
Theorem checkErrors_ok_iff g lab :
  well_stamped g -> blocks_ok g -> lab ∈ labels g -> has_exact g (hb_step g) 0 lab ->
  exists e r, checkErrors g lab = Ret (e, r) /\
    (memory_safe g (happens_before g lab) lab <-> e = VE_OK /\ covered g (happens_before g lab) lab).
Proof.
  intros Hg Hb Hl (v & Ev & Hv). destruct (checkErrors_spec g lab v Hg Hb Hl Ev) as (e & r & E & Hs & _).
  exists e, r. split; [done|]. rewrite Hs, memory_safe_passes. pose proof (ws_labelled _ Hg) as Hlab.
  assert (passes g (happens_before g lab) lab <-> passes g (ordered v) lab) as Hp by
    (split; apply passes_iff; intros l Hin; [symmetry|]; by apply exact_ordered).
  tauto.
Qed.

(** Property C25.  The label reported with [VE_RaceNotAtomic] is another access
    of the same location that conflicts with the checked one - one of the two is
    not atomic, one is a write - and does not happen before it; and
    [VE_AccessNonMalloc] is reported exactly when the allocation of the access
    does not happen before it. *)
Theorem checkErrors_reports g lab :
  well_stamped g -> blocks_ok g -> lab ∈ labels g -> has_exact g (hb_step g) 0 lab ->
  exists e r, checkErrors g lab = Ret (e, r) /\
    (e = VE_RaceNotAtomic -> exists l, r = Some l /\ races g lab l /\ ~ happens_before g lab l) /\
    (e = VE_AccessNonMalloc <-> exists a, alloc_pred g lab = Ret (Some a) /\ ~ happens_before g lab a).
Proof.
  intros Hg Hb Hl (v & Ev & Hv). destruct (checkErrors_spec g lab v Hg Hb Hl Ev) as (e & r & E & _ & Hr & Ha).
  exists e, r. split; [done|]. pose proof (ws_labelled _ Hg) as Hlab. split.
  - intros He. destruct (Hr He) as (l & ? & Hrace & Ho). exists l. do 2 (split; [done|]).
    by rewrite <- (exact_ordered g lab v) by (done || apply Hrace).
  - rewrite Ha. split; intros (a & Ea & Ho); exists a; (split; [done|]);
      pose proof (alloc_pred_in g lab a Ea); revert Ho; by rewrite (exact_ordered g lab v).
Qed.

(** [checkErrors] never reports [VE_DoubleFree], not even for the
    second of two frees of one block: the check looks for same-location labels
    of a free, and there are none. *)
Theorem checkErrors_never_double_free g lab e r :
  checkErrors g lab = Ret (e, r) -> e <> VE_DoubleFree.
Proof.
  unfold checkErrors. intros H.
  assert (Hor : forall c err rest, or_else c err rest = Ret (e, r) ->
    (err <> VE_DoubleFree \/ forall o, c = Ret o -> o = None) -> (rest = Ret (e, r) -> e <> VE_DoubleFree) ->
    e <> VE_DoubleFree).
  { unfold or_else. intros c err rest E Hc Hrest. destruct c as [[l|]| |]; simpl in E; try done; [|by apply Hrest].
    destruct Hc as [Hc|Hc]; [congruence|]. by specialize (Hc _ eq_refl). }
  revert H. intros H. eapply Hor; [exact H|by left|]. clear H. intros H.
  eapply Hor; [exact H|right; apply checkRace1_never|]. clear H. intros H.
  do 5 (eapply Hor; [exact H|by left|]; clear H; intros H). congruence.
Qed.

(** Property C14. [checkWarnings] reports a write-write race, unless one was
    reported before, exactly when another write that starts at the same address is
    not before the checked write in program order with reads-from; the label
    reported is such a write. *)
Theorem checkWarnings_ww_race g lab seenWarnings :
  well_stamped g -> lab ∈ labels g -> VE_WWRace ∉ seenWarnings -> has_exact g (porf_step g) 1 lab ->
  exists ws, checkWarnings g lab seenWarnings = Ret ws /\
    let ww l := same_location g lab l /\ is_write lab = true /\ is_write l = true /\
                index (getPos l) <> 0 /\ ~ porf g l lab in
    (ws = [] /\ forall l, ~ ww l) \/ (exists l, ws = [(VE_WWRace, l)] /\ ww l).
Proof.
  intros Hg Hl Hseen (v & Ev & Hv). unfold checkWarnings. rewrite bool_decide_eq_false_2 by done.
  destruct (stops_racy g 2 v _ _ (visitRaceLHS7_1_stops g Hg lab Hl v _ (fresh_inv g 2 v))) as (r & E & Hr & Hr').
  assert (checkRace7 g lab = Ret r) as -> by (unfold checkRace7; rewrite Ev; exact E).
  cbn [mbind outcome_bind].
  assert (Ho : forall l, l ∈ labels g -> ordered v l <-> index (getPos l) = 0 \/ porf g l lab).
  { intros l [e He]%labels_iff. unfold ordered. rewrite (proj1 (lb_ok _ (ws_labelled _ Hg) e l He)).
    by apply (proj2 Hv). }
  destruct r as [l|]; eexists; (split; [done|]); cbn zeta.
  - right. exists l. split; [done|]. destruct (Hr' l eq_refl) as [(Hs & ? & ?) Hn].
    split_and!; try done; contradict Hn; apply Ho; auto; apply Hs.
  - left. split; [done|]. intros l (Hs & H1 & H2 & H3 & H4).
    assert (ordered v l) as [?|?]%Ho by (apply Hr; [done..|apply Hs]); [done|done|apply Hs].
Qed.

Lemma initialised_ok : well_stamped initialised /\ blocks_ok initialised /\
  load ∈ labels initialised /\ has_exact initialised (hb_step initialised) 0 load.
Proof.
  assert (load ∈ labels initialised) as Hl by (apply labels_iff; exists (mkEvent 1 1); vm_compute; reflexivity).
  split_and!; [|apply blocks_okb_sound; vm_compute; reflexivity|done|].
  - apply (navigable_well_stamped _ 0), navigableb_sound. vm_compute. reflexivity.
  - apply stored_hb_exact; [vm_compute; reflexivity..|done].
Qed.
Lemma heap_ok : well_stamped heap /\ blocks_ok heap /\
  store ∈ labels heap /\ has_exact heap (hb_step heap) 0 store.
Proof.
  assert (store ∈ labels heap) as Hl by (apply labels_iff; exists (mkEvent 0 4); vm_compute; reflexivity).
  split_and!; [|apply blocks_okb_sound; vm_compute; reflexivity|done|].
  - apply (navigable_well_stamped _ 0), navigableb_sound. vm_compute. reflexivity.
  - apply stored_hb_exact; [vm_compute; reflexivity..|done].
Qed.

(** A label that frees nothing and whose conflicts start at its address is covered. *)
Lemma covered_access g before lab :
  Isa.FreeLabel (kind lab) = false ->
  forallb (fun l => negb (conflicting lab l) || (MemAccessLabel.getAddr l =? MemAccessLabel.getAddr lab)) (labels g) = true ->
  covered g before lab.
Proof.
  intros Hf Hr. assert (free_pred g lab = Ret None) as Hn by (unfold free_pred; by rewrite Hf).
  rewrite forallb_forall in Hr. split; [intros ?? H; rewrite Hn in H; discriminate|intros ?? H; rewrite Hn in H; discriminate|].
  intros l (Hl & _ & Hc & _) Ha. apply list_elem_of_In in Hl. specialize (Hr l Hl). rewrite Hc in Hr.
  apply Z.eqb_eq in Hr. done.
Qed.
(** The load of the initialised block is safe, the store that races with it is not. *)
Lemma checkErrors_ok_iff_witness :
  memory_safe initialised (happens_before initialised load) load /\
  ~ memory_safe heap (happens_before heap store) store.
Proof.
  split.
  - destruct initialised_ok as (H1 & H2 & H3 & H4).
    destruct (checkErrors_ok_iff initialised load H1 H2 H3 H4) as (e & r & E & Hiff).
    apply Hiff. vm_compute in E. injection E as <- _. split; [reflexivity|].
    apply covered_access; vm_compute; reflexivity.
  - destruct heap_ok as (H1 & H2 & H3 & H4).
    destruct (checkErrors_ok_iff heap store H1 H2 H3 H4) as (e & r & E & Hiff).
    intros Hs. apply Hiff in Hs as [He _]. vm_compute in E. injection E as <- _. discriminate.
Defined.
(** What is missed: the second of two frees, and two stores of different threads
    that overlap at different addresses. *)
Lemma second_free_missed :
  checkErrors freed_twice second_free = Ret (VE_OK, None) /\
  forall before, ~ memory_safe freed_twice before second_free.
Proof.
  split; [vm_compute; reflexivity|]. intros before [].
  set (first_free := default load (label_at freed_twice (mkEvent 0 2))).
  set (malloc := default load (label_at freed_twice block)).
  apply (ms_once0 malloc first_free); try (vm_compute; reflexivity); [|vm_compute; discriminate].
  apply labels_iff. exists (mkEvent 0 2). vm_compute. reflexivity.
Qed.
Definition torn : Graph := add_access heap
  (Make.WriteLabel (mkEvent 1 2) NotAtomic 260 4 Unsigned 2 WriteAttr.None_ DepInfo.no_deps).
Lemma overlap_missed :
  let lab := default load (label_at torn (mkEvent 1 2)) in
  checkErrors torn lab = Ret (VE_OK, None) /\ ~ memory_safe torn (happens_before torn lab) lab.
Proof.
  cbv zeta. set (lab := default _ _). split; [vm_compute; reflexivity|].
  assert (lab ∈ labels torn) as Hl by (apply labels_iff; exists (mkEvent 1 2); vm_compute; reflexivity).
  assert (has_exact torn (hb_step torn) 0 lab) as (v & Ev & Hv) by (apply stored_hb_exact; [vm_compute; reflexivity..|done]).
  assert (labelled torn) as Hg
    by (apply ws_labelled, (navigable_well_stamped _ 0), navigableb_sound; vm_compute; reflexivity).
  intros []. set (other := default lab (label_at torn (mkEvent 0 4))).
  assert (other ∈ labels torn) as Ho by (apply labels_iff; exists (mkEvent 0 4); vm_compute; reflexivity).
  assert (data_race torn lab other) as Hr%ms_race0.
  { split; [done|]. split; [vm_compute; discriminate|]. split; [vm_compute; reflexivity|]. right.
    exists 260. vm_compute. split_and!; congruence. }
  apply (exact_ordered torn lab v other Hg Hv Ho) in Hr. revert Hr. unfold ordered.
  vm_compute in Ev. injection Ev as <-. vm_compute. discriminate.
Qed.
(** The last store races with the load. *)
Lemma checkErrors_reports_witness :
  exists l, races heap store l /\ ~ happens_before heap store l /\ getPos l = mkEvent 1 1.
Proof.
  destruct heap_ok as (H1 & H2 & H3 & H4).
  destruct (checkErrors_reports heap store H1 H2 H3 H4) as (e & r & E & Hr & _).
  assert (e = VE_RaceNotAtomic /\ getPos <$> r = Some (mkEvent 1 1)) as [He Hp].
  { vm_compute in E. injection E as <- <-. split; reflexivity. }
  destruct (Hr He) as (l & -> & Hrace & Hn). exists l. split; [exact Hrace|]. split; [exact Hn|].
  injection Hp as Hp. exact Hp.
Defined.

Lemma checkErrors_never_double_free_witness :
  getPos second_free = mkEvent 0 3 /\ is_free second_free = true /\ FreeLabel.getAlloc second_free = Some block /\
  from_option is_free false (label_at freed_twice (mkEvent 0 2)) = true /\
  exists e r, checkErrors freed_twice second_free = Ret (e, r) /\ e <> VE_DoubleFree.
Proof.
  do 4 (split; [vm_compute; reflexivity|]). exists VE_OK, None.
  assert (checkErrors freed_twice second_free = Ret (VE_OK, None)) as E by (vm_compute; reflexivity).
  split; [exact E|]. exact (checkErrors_never_double_free _ _ _ _ E).
Defined.

(** The second thread stores as well, not after the last store of the first. *)
Definition contended : Graph := add_access heap (na_store 1 2 3).
Definition late_store : Label := default load (label_at contended (mkEvent 1 2)).
Lemma checkWarnings_ww_race_witness :
  exists l, checkWarnings contended late_store [] = Ret [(VE_WWRace, l)] /\
    getPos l = mkEvent 0 4 /\ is_write l = true /\ ~ porf contended l late_store.
Proof.
  destruct (checkWarnings_ww_race contended late_store []) as (ws & E & Hws).
  - apply (navigable_well_stamped _ 0), navigableb_sound. vm_compute. reflexivity.
  - apply labels_iff. exists (mkEvent 1 2). vm_compute. reflexivity.
  - by intros ?%elem_of_nil.
  - assert (navigableb contended 1 = true) as Hn by (vm_compute; reflexivity).
    apply navigableb_sound in Hn as [Hn Ho].
    apply stored_exact with (calc := Calc.calculate1);
      [intros x y Hy; by apply porf_step_lt|intros y Hy; by apply calculate1_exact| | |].
    + intros y. by apply (navigable_stamped contended 1).
    + intros y. apply recomputed_sound. vm_compute. reflexivity.
    + apply labels_iff. exists (mkEvent 1 2). vm_compute. reflexivity.
  - destruct Hws as [[-> _]|(l & -> & _ & _ & Hw & _ & Hn)]; [exfalso; vm_compute in E; discriminate E|].
    exists l. split; [exact E|]. split; [|split; [exact Hw|exact Hn]]. clear Hw Hn. vm_compute in E.
    injection E as <-. reflexivity.
Defined.
End Safety.
