(* ===== verification/RACoherence.v ===== *)
(** * Coherent reads, revisits and placings (src/src/RADriver.cpp, from
    [isWriteRfBefore] to [getCoherentPlacings]).

    An iterator over the stores of an access is the list of the stores from
    there on.  The driver's graph is not const, so looking up the stores of a
    location creates its bucket ([touchLoc]); the operations that do so return
    the graph too.  [mixer] is the option of the configuration for mixed-size
    accesses. *)
From S2P Require Import Prelude Event SVal SAddr VSet Deps Views Labels LabelClasses Graph GraphBase Iterators RAViews.
#[local] Open Scope Z_scope.

Module Coherence.
Import ExecutionGraph GraphIterators Calc.

(** The non-const [getStoresToLoc]: [coherence[getBucket(addr)]]. *)
Definition touchLoc (g : Graph) (access : AAccess) : Graph :=
  set_coherence (InitLabel.bucket_alter id (getBucket (acc_addr access)) (coherence g)) g.

(** Searches with conditions that may fail. *)
Fixpoint anyM {A} (f : A -> outcome bool) (l : list A) : outcome bool :=
  match l with
  | [] => Ret false
  | x :: l => b ← f x; if b : bool then Ret true else anyM f l
  end.
(** [std::find_if]: from the first element that satisfies [f] on. *)
Fixpoint findM {A} (f : A -> outcome bool) (l : list A) : outcome (list A) :=
  match l with
  | [] => Ret []
  | x :: l' => b ← f x; if b : bool then Ret l else findM f l'
  end.
(** [erase(remove_if(..))]: the elements that do not satisfy [f]. *)
Fixpoint removeM {A} (f : A -> outcome bool) (l : list A) : outcome (list A) :=
  match l with
  | [] => Ret []
  | x :: l => b ← f x; l' ← removeM f l; Ret (if b : bool then l' else x :: l')
  end.

(** ** Before and after *)

Definition isWriteRfBefore (g : Graph) (a b : Event) (access : AAccess) : outcome bool :=
  bLab ← getEventLabel g b;
  before ← EventLabel.view bLab 0;
  if View.contains before a then Ret true
  else
    lab ← getEventLabel g a;
    _ ← BUG_ON (negb (Isa.WriteLabel (kind lab)));
    anyM (fun r => rLab ← getEventLabel g r;
                   Ret (MemAccessLabel.overlaps rLab access && View.contains before (getPos rLab)))
      (WriteLabel.readers lab).

Definition isHbOptRfBefore (g : Graph) (e write : Event) (access : AAccess) : outcome bool :=
  lab ← getEventLabel g write;
  _ ← BUG_ON (negb (Isa.WriteLabel (kind lab)));
  v ← EventLabel.view lab 0;
  if View.contains v e then Ret true
  else
    anyM (fun r => rLab ← getEventLabel g r;
                   if MemAccessLabel.overlaps rLab access
                   then w ← EventLabel.view rLab 0; Ret (View.contains w e) else Ret false)
      (WriteLabel.readers lab).

(** ** Splitting coherence *)

Definition splitLocMOBefore (g : Graph) (mLab : Label) : outcome (list Event) :=
  let access := MemAccessLabel.getAccess mLab in
  c ← co g access;
  rit ← findM (fun w => isWriteRfBefore g w (getPos mLab) access) (rev c);
  match rit with
  | [] => Ret c
  | w :: _ => co_succs g w access
  end.

Definition splitLocMOAfterHb (g : Graph) (rLab : Label) : outcome (list Event) :=
  let access := MemAccessLabel.getAccess rLab in
  b ← anyM (fun rf => l ← getEventLabel g rf; v ← EventLabel.view l 0; Ret (View.contains v (getPos rLab)))
        (getInitRfsAtLoc g access);
  c ← co g access;
  if b : bool then Ret c
  else
    it ← findM (fun w => isHbOptRfBefore g (getPos rLab) w access) c;
    match it with
    | [] => Ret []
    | w :: it' =>
        l ← getEventLabel g w; v ← EventLabel.view l 0;
        Ret (if View.contains v (getPos rLab) then it else it')
    end.

Definition splitLocMOAfter (g : Graph) (sLab : Label) : outcome (list Event) :=
  let access := MemAccessLabel.getAccess sLab in
  c ← co g access; findM (fun w => isHbOptRfBefore g (getPos sLab) w access) c.

(** The stores from iterator [b] up to iterator [e] of one list. *)
Definition range (b e : list Event) : list Event := take (length b - length e) b.

(** ** The stores a read may read from *)

Definition getCoherentStores (mixer : bool) (g : Graph) (rLab : Label) : outcome (Graph * list Event) :=
  let access := MemAccessLabel.getAccess rLab in
  let g := touchLoc g access in
  c ← co g access;
  if mixer then Ret (g, init_pos :: c)
  else
    begIt ← splitLocMOBefore g rLab;
    let before := range c begIt in
    let stores := match last before with None => [init_pos] | Some w => [w] end in
    endIt ← (if isDepTracking then splitLocMOAfterHb g rLab else Ret []);
    Ret (g, stores ++ range begIt endIt).

(** ** Revisits *)

Fixpoint readers_of_stores (g : Graph) (ws : list Event) : outcome (list Event) :=
  match ws with
  | [] => Ret []
  | w :: ws => l ← getEventLabel g w; rs ← readers_of_stores g ws; Ret (WriteLabel.readers l ++ rs)
  end.
Definition getMOOptRfAfter (g : Graph) (sLab : Label) : outcome (list Event) :=
  after ← co_succs g (getPos sLab) (MemAccessLabel.getAccess sLab);
  rfAfter ← readers_of_stores g after;
  Ret (after ++ rfAfter).
Definition getMOInvOptRfAfter (g : Graph) (sLab : Label) : outcome (list Event) :=
  after ← co_preds g (getPos sLab) (MemAccessLabel.getAccess sLab);
  rfAfter ← readers_of_stores g after;
  Ret (after ++ rfAfter ++ getInitRfsAtLoc g (MemAccessLabel.getAccess sLab)).

(** The load [e] is (mo;rf?;hb?;po)-after: its view has one of [es]. *)
Definition view_has_any (g : Graph) (es : list Event) (e : Event) : outcome bool :=
  l ← getEventLabel g e; v ← EventLabel.view l 0; Ret (existsb (View.contains v) es).

Definition getCoherentRevisits (mixer : bool) (g : Graph) (sLab : Label) (pporf : View.t) :
    outcome (list Event) :=
  ls ← getRevisitable g sLab pporf;
  b ← (if negb isDepTracking then isCoMaximal g (MemAccessLabel.getAccess sLab) (getPos sLab) else Ret false);
  if b : bool then Ret ls
  else if mixer then Ret ls
  else
    optRfs ← getMOOptRfAfter g sLab;
    ls ← removeM (view_has_any g optRfs) ls;
    if negb isDepTracking then Ret ls
    else
      ls ← removeM (fun e => l ← getEventLabel g (getPos sLab); v ← EventLabel.view l 0; Ret (View.contains v e)) ls;
      moInvOptRfs ← getMOInvOptRfAfter g sLab;
      removeM (fun e =>
        eLab ← getEventLabel g e;
        s ← EventLabel.getStamp eLab;
        v ← getViewFromStamp g s;
        let v := View.update v pporf in
        anyM (fun ev => if View.contains v ev
                        then l ← getEventLabel g ev; w ← EventLabel.view l 0; Ret (View.contains w e)
                        else Ret false) moInvOptRfs) ls.

(** ** Where a store may be placed: the first and the last iterator *)

Definition getCoherentPlacings (g : Graph) (wLab : Label) : outcome (Graph * (list Event * list Event)) :=
  let access := MemAccessLabel.getAccess wLab in
  if isRMWStore wLab then
    p ← getPreviousLabel g (getPos wLab);
    match p with
    | None => Undef
    | Some pLab =>
        if negb (Isa.ReadLabel (kind pLab)) then Bug
        else
          match ReadLabel.getRf pLab with
          | None => Bug
          | Some w =>
              rfLab ← getEventLabel g w;
              if Isa.WriteLabel (kind rfLab) then
                let g := touchLoc g (MemAccessLabel.getAccess rfLab) in
                wIt ← co_succs g w (MemAccessLabel.getAccess rfLab); Ret (g, (wIt, wIt))
              else let g := touchLoc g access in c ← co g access; Ret (g, (c, c))
          end
    end
  else
    let g := touchLoc g access in
    rangeBegin ← splitLocMOBefore g wLab;
    rangeEnd ← (if isDepTracking then splitLocMOAfter g wLab else Ret []);
    Ret (g, (rangeBegin, rangeEnd)).

End Coherence.
