(* ===== verification/RACoherenceFacts.v ===== *)
(** * Coherent options: which stores a read may read from, where a store may be
    placed and which reads it may revisit (properties of RACoherence.v). *)
From Stdlib Require Import String.
From S2P Require Import Prelude Event SVal SAddr VSet Deps Views Labels LabelClasses Graph GraphBase GraphRf GraphCutTo Iterators RAViews RASearch RAHb RAExact RARace RARaceFacts RASafety RACoherence.
#[local] Open Scope Z_scope.

Module CoherenceFacts.
Import ExecutionGraph GraphIterators Calc Lookup Rf Hb Exact RaceFacts Safety Cut Coherence.

(** ** Searches whose condition decides a property *)
Section Searches.
Context {A : Type} (f : A -> outcome bool) (P : A -> Prop).

Definition decides (x : A) : Prop := exists b, f x = Ret b /\ (b = true <-> P x).

Lemma anyM_decides l :
  (forall x, x ∈ l -> decides x) -> exists b, anyM f l = Ret b /\ (b = true <-> exists x, x ∈ l /\ P x).
Proof.
  induction l as [|x l IH]; intros H; simpl.
  { exists false. split; [done|]. split; [done|]. by intros (? & ?%elem_of_nil & _). }
  destruct (H x) as (b & -> & Hb); [left|]. simpl. destruct b.
  - exists true. split; [done|]. split; [|done]. intros _. exists x. split; [left|by apply Hb].
  - destruct IH as (b & E & Hl). { intros y Hy. apply H. by right. }
    exists b. split; [done|]. rewrite Hl. split.
    + intros (y & ? & ?). exists y. split; [by right|done].
    + intros (y & [->|Hy]%elem_of_cons & Hp); [by apply Hb in Hp|by exists y].
Qed.

Lemma findM_decides l :
  (forall x, x ∈ l -> decides x) ->
  exists l1 l2, findM f l = Ret l2 /\ l = l1 ++ l2 /\ (forall x, x ∈ l1 -> ~ P x) /\
    (forall x, head l2 = Some x -> P x).
Proof.
  induction l as [|x l IH]; intros H; simpl.
  { exists [], []. split; [done|]. split; [done|]. split; [by intros ? ?%elem_of_nil|done]. }
  destruct (H x) as (b & -> & Hb); [left|]. simpl. destruct b.
  - exists [], (x :: l). split; [done|]. split; [done|].
    split; [by intros ? ?%elem_of_nil|]. intros y [= <-]. by apply Hb.
  - destruct IH as (l1 & l2 & E & -> & H1 & H2). { intros y Hy. apply H. by right. }
    exists (x :: l1), l2. split; [done|]. split; [done|]. split; [|done].
    intros y [->|Hy]%elem_of_cons; [|by apply H1]. intros Hp. by apply Hb in Hp.
Qed.

Lemma removeM_decides l :
  (forall x, x ∈ l -> decides x) ->
  exists l', removeM f l = Ret l' /\ sublist l' l /\ forall x, x ∈ l' <-> x ∈ l /\ ~ P x.
Proof.
  induction l as [|x l IH]; intros H; simpl.
  { exists []. split; [done|]. split; [constructor|]. intros x. split; [by intros ?%elem_of_nil|by intros [? _]]. }
  destruct (H x) as (b & -> & Hb); [left|]. simpl.
  destruct IH as (l' & -> & Hs & Hl). { intros y Hy. apply H. by right. }
  simpl. eexists. split; [done|]. destruct b.
  - split; [by constructor|]. intros y. rewrite Hl, elem_of_cons. split; [by intuition|].
    intros [[->|?] Hn]; [|done]. by destruct Hn; apply Hb.
  - split; [by constructor|]. intros y. rewrite !elem_of_cons, Hl. split; [|by intuition].
    intros [->|[? ?]]; [|by split; [right|]]. split; [by left|]. intros Hp. by apply Hb in Hp.
Qed.
End Searches.

(** ** The stores of a location in coherence order *)

Record ordered_stores (g : Graph) (access : AAccess) : Prop := {
  os_consistent : consistent g;
  os_nodup : NoDup (stores_at g (getBucket (acc_addr access)));
  os_write w : w ∈ stores_at g (getBucket (acc_addr access)) -> is_write g w;
}.
(** The stores that overlap with an access; the buckets that are not there are
    empty. *)
Definition co_order (g : Graph) (access : AAccess) : list Event :=
  overlapping g access (stores_at g (getBucket (acc_addr access))).

Lemma touch_stores g access :
  getStoresToLoc (touchLoc g access) (acc_addr access) = Ret (stores_at g (getBucket (acc_addr access))).
Proof.
  unfold getStoresToLoc, touchLoc, stores_at. cbn [coherence set_coherence].
  rewrite bucket_get_alter, decide_True by done. done.
Qed.
Lemma touch_co g access : co (touchLoc g access) access = Ret (co_order g access).
Proof. unfold co. by rewrite touch_stores. Qed.

Lemma after_split w s1 s2 : w ∉ s1 -> after w (s1 ++ w :: s2) = Ret s2.
Proof.
  induction s1 as [|x s1 IH]; intros Hw; simpl; [by rewrite decide_True|].
  rewrite decide_False by (intros ->; apply Hw; left). apply IH. intros ?. apply Hw. by right.
Qed.

Lemma split_at {A} (l1 l2 k1 k2 : list A) x :
  NoDup (l1 ++ x :: l2) -> l1 ++ x :: l2 = k1 ++ x :: k2 -> l1 = k1 /\ l2 = k2.
Proof.
  revert k1. induction l1 as [|y l1 IH]; intros [|z k1] Hn E; simpl in *; injection E; intros; subst; [done| | |].
  - exfalso. apply NoDup_cons in Hn as [Hn _]. apply Hn. set_solver.
  - exfalso. apply NoDup_cons in Hn as [Hn _]. apply Hn. set_solver.
  - apply NoDup_cons in Hn as [_ Hn]. by destruct (IH k1 Hn) as [-> ->].
Qed.

(** The successors of a store are the rest of the order. *)
Lemma co_succs_split g access ss c1 w c2 :
  getStoresToLoc g (acc_addr access) = Ret ss -> NoDup ss ->
  overlapping g access ss = c1 ++ w :: c2 -> co_succs g w access = Ret c2.
Proof.
  intros Es Hn Ec. unfold co_succs. rewrite Es. cbn [mbind outcome_bind].
  assert (w ∈ overlapping g access ss) as Hw by (rewrite Ec; set_solver).
  unfold overlapping in Hw. apply list_elem_of_In, filter_In in Hw as [Hw Hp].
  apply list_elem_of_In in Hw. apply list_elem_of_split in Hw as (s1 & s2 & ->).
  assert (w ∉ s1) by (apply NoDup_app in Hn as (_ & Hn & _); intros ?; by apply (Hn w); [|left]).
  rewrite after_split by done. cbn [mbind outcome_bind].
  unfold overlapping in *. rewrite List.filter_app in Ec. simpl in *. rewrite Hp in Ec |- *. simpl. f_equal.
  apply (split_at _ _ _ _ _) in Ec as [_ ->]; [done|].
  assert (NoDup (List.filter (label_sat g (MemAccessLabel.OverlapFilter access)) (s1 ++ w :: s2))) as Hf
    by (by apply NoDup_ListNoDup, List.NoDup_filter, NoDup_ListNoDup).
  rewrite List.filter_app in Hf. simpl in Hf. by rewrite Hp in Hf.
Qed.

Lemma co_order_write g access w : ordered_stores g access -> w ∈ co_order g access -> is_write g w.
Proof.
  intros Ho Hw. unfold co_order, overlapping in Hw. apply list_elem_of_In, filter_In in Hw as [Hw _].
  by apply (os_write _ _ Ho), list_elem_of_In.
Qed.
Lemma co_order_nodup g access : ordered_stores g access -> NoDup (co_order g access).
Proof. intros Ho. apply NoDup_ListNoDup, List.NoDup_filter, NoDup_ListNoDup, Ho. Qed.
Lemma write_label g w : is_write g w -> exists x, label_at g w = Some x /\ Isa.WriteLabel (kind x) = true.
Proof. unfold is_write, label_sat. destruct (label_at g w) as [x|]; [by exists x|done]. Qed.
Lemma getEventLabel_at g e l : label_at g e = Some l -> getEventLabel g e = Ret l.
Proof. unfold getEventLabel. by intros ->. Qed.
Lemma reader_label g w x r :
  consistent g -> label_at g w = Some x -> r ∈ WriteLabel.readers x -> exists y, label_at g r = Some y.
Proof.
  intros Hc Hx Hr. assert (w ∈ (rfs_of g r).*1) as Hw.
  { apply (c_readers _ Hc). unfold readers_of. by rewrite Hx. }
  unfold rfs_of in Hw. destruct (label_at g r) as [y|]; [by exists y|]. by apply elem_of_nil in Hw.
Qed.

(** ** Stores (reads-from and happens-before)-before a label *)

(** The view has the store or one of its readers that overlap with the access. *)
Definition seen_write (g : Graph) (access : AAccess) (v : View.t) (w : Event) : Prop :=
  exists x, label_at g w = Some x /\
    (ordered v x \/ exists r y, r ∈ WriteLabel.readers x /\ label_at g r = Some y /\
                       MemAccessLabel.overlaps y access = true /\ ordered v y).
(** The store or such a reader happens before [lab]. *)
Definition rf_hb_before (g : Graph) (access : AAccess) (lab : Label) (w : Event) : Prop :=
  exists x, label_at g w = Some x /\
    (happens_before g lab x \/ exists r y, r ∈ WriteLabel.readers x /\ label_at g r = Some y /\
                                 MemAccessLabel.overlaps y access = true /\ happens_before g lab y).

Lemma seen_write_exact g access lab v w :
  labelled g -> exact_view g (hb_step g) lab v -> seen_write g access v w <-> rf_hb_before g access lab w.
Proof.
  intros Hg Hv.
  assert (forall e x, label_at g e = Some x -> ordered v x <-> happens_before g lab x) as Ho.
  { intros e x Hx. apply exact_ordered; [done..|]. apply labels_iff. by exists e. }
  unfold seen_write, rf_hb_before. split; intros (x & Hx & H); exists x; (split; [done|]);
    (destruct H as [H|(r & y & Hr & Hy & Hov & H)]; [left|right; exists r, y; split_and!; try done]);
    by eapply Ho.
Qed.

Lemma isWriteRfBefore_decides g access lab v w :
  consistent g -> label_at g (getPos lab) = Some lab -> EventLabel.view lab 0 = Ret v -> is_write g w ->
  decides (fun w => isWriteRfBefore g w (getPos lab) access) (seen_write g access v) w.
Proof.
  intros Hc Hl Hv Hw. destruct (write_label g w Hw) as (x & Hx & Hk).
  pose proof (proj1 (lb_ok _ (c_labelled _ Hc) w x Hx)) as Hp.
  unfold decides, isWriteRfBefore. rewrite (getEventLabel_at _ _ _ Hl). cbn [mbind outcome_bind]. rewrite Hv.
  cbn [mbind outcome_bind]. destruct (View.contains v w) eqn:Ev.
  { exists true. split; [done|]. split; [|done]. intros _. exists x. split; [done|]. left.
    unfold ordered. by rewrite Hp. }
  rewrite (getEventLabel_at _ _ _ Hx). cbn [mbind outcome_bind]. rewrite Hk. cbn [negb BUG_ON mbind outcome_bind].
  match goal with |- exists b, anyM ?f ?l = _ /\ _ =>
    destruct (anyM_decides f (fun r => exists y, label_at g r = Some y /\
      MemAccessLabel.overlaps y access = true /\ ordered v y) l) as (b & E & Hb) end.
  - intros r Hr. destruct (reader_label g w x r Hc Hx Hr) as (y & Hy). unfold decides, getEventLabel.
    rewrite Hy. cbn [mbind outcome_bind]. eexists. split; [done|]. rewrite andb_true_iff. unfold ordered.
    split; [intros [? ?]; by exists y|]. by intros (y' & [= <-] & ? & ?).
  - exists b. split; [exact E|]. rewrite Hb. unfold seen_write. split.
    + intros (r & Hr & y & Hy). exists x. split; [done|]. right. by exists r, y.
    + intros (x' & Hx' & H). rewrite Hx in Hx'. injection Hx' as <-.
      destruct H as [H|(r & y & Hr & H)]; [|by exists r; split; [|exists y]].
      unfold ordered in H. rewrite Hp in H. congruence.
Qed.

(** ** The part of coherence after the last store seen *)

Definition split_at_last (P : Event -> Prop) (c c1 c2 : list Event) : Prop :=
  c = c1 ++ c2 /\ (forall w, w ∈ c2 -> ~ P w) /\ (forall w, last c1 = Some w -> P w).

Lemma splitLocMOBefore_splits g lab v :
  let access := MemAccessLabel.getAccess lab in
  ordered_stores g access -> label_at g (getPos lab) = Some lab -> EventLabel.view lab 0 = Ret v ->
  exists c1 c2, splitLocMOBefore (touchLoc g access) lab = Ret c2 /\
    split_at_last (seen_write g access v) (co_order g access) c1 c2.
Proof.
  intros access Ho Hl Hv. unfold splitLocMOBefore. fold access. rewrite touch_co. cbn [mbind outcome_bind].
  destruct (findM_decides (fun w => isWriteRfBefore g w (getPos lab) access) (seen_write g access v)
    (rev (co_order g access))) as (l1 & l2 & E & Ec & H1 & H2).
  { intros w Hw. apply isWriteRfBefore_decides; [apply Ho|done..|]. apply (co_order_write g access); [done|].
    by apply list_elem_of_In, in_rev, list_elem_of_In. }
  change (findM (fun w => isWriteRfBefore (touchLoc g access) w (getPos lab) access) (rev (co_order g access)) = Ret l2) in E.
  rewrite E. cbn [mbind outcome_bind].
  apply (f_equal (@rev _)) in Ec. rewrite rev_involutive, rev_app_distr in Ec.
  destruct l2 as [|w l2].
  - exists [], (co_order g access). split; [done|]. split; [done|]. split; [|done].
    intros w Hw. apply H1. rewrite Ec in Hw. simpl in Hw. by apply list_elem_of_In, in_rev, list_elem_of_In.
  - exists (rev l2 ++ [w]), (rev l1). simpl in Ec. rewrite <- app_assoc in Ec. split; [|split; [|split]].
    + eapply (co_succs_split (touchLoc g access)); [apply touch_stores|apply Ho|exact Ec].
    + by rewrite <- app_assoc.
    + intros x Hx. apply H1. by apply list_elem_of_In, in_rev, list_elem_of_In.
    + intros x. rewrite last_snoc. intros [= <-]. by apply H2.
Qed.

(** The split as an index: from [k] on no store is seen, and [k] is the least. *)
Lemma split_index P c c1 c2 i :
  split_at_last P c c1 c2 ->
  (length c1 <= i)%nat <-> forall j w, (i <= j)%nat -> c !! j = Some w -> ~ P w.
Proof.
  intros (-> & H2 & H1). split.
  - intros Hi j w Hj Hw. apply H2. rewrite lookup_app_r in Hw by lia. by eapply list_elem_of_lookup_2.
  - intros H. destruct (decide (length c1 <= i)%nat) as [?|Hn]; [done|]. exfalso.
    destruct (last c1) as [w|] eqn:El; [|by apply last_None in El; subst; simpl in Hn; lia].
    assert (P w) as Hw by (by apply H1). rewrite last_lookup in El. revert Hw. apply (H (pred (length c1))); [lia|].
    rewrite lookup_app_l; [done|]. by eapply lookup_lt_Some.
Qed.
Lemma split_proper (P Q : Event -> Prop) c c1 c2 :
  (forall w, P w <-> Q w) -> split_at_last P c c1 c2 -> split_at_last Q c c1 c2.
Proof. intros H (-> & H2 & H1). split; [done|]. split; intros w Hw; rewrite <- H; auto. Qed.

Lemma splitLocMOBefore_exact g lab :
  let access := MemAccessLabel.getAccess lab in
  ordered_stores g access -> label_at g (getPos lab) = Some lab -> has_exact g (hb_step g) 0 lab ->
  exists c1 c2, splitLocMOBefore (touchLoc g access) lab = Ret c2 /\
    split_at_last (rf_hb_before g access lab) (co_order g access) c1 c2.
Proof.
  intros access Ho Hl (v & Ev & Hv). destruct (splitLocMOBefore_splits g lab v Ho Hl Ev) as (c1 & c2 & E & Hs).
  exists c1, c2. split; [exact E|]. eapply split_proper; [|exact Hs].
  intros w. apply seen_write_exact; [apply Ho|done].
Qed.

Lemma range_prefix c1 c2 : range (c1 ++ c2) c2 = c1.
Proof. unfold range. rewrite length_app, Nat.add_sub. by rewrite take_app_length. Qed.
Lemma range_all c : range c [] = c.
Proof. unfold range. rewrite Nat.sub_0_r. by rewrite firstn_all. Qed.

(** ** The loads to revisit *)

(** [x] is (mo;rf?)-after the store at [s]: a later store that overlaps with the
    access, or a read of such a store. *)
Definition mo_rf_after (g : Graph) (access : AAccess) (s : Event) (x : Label) : Prop :=
  exists c1 c2 w y, co_order g access = c1 ++ s :: c2 /\ w ∈ c2 /\ label_at g w = Some y /\
    (x = y \/ exists r, r ∈ WriteLabel.readers y /\ label_at g r = Some x).

Lemma drop_after_stamp_in g st es es' e : drop_after_stamp g st es = Ret es' -> e ∈ es' -> e ∈ es.
Proof.
  revert es'. induction es as [|x es IH]; intros es'; simpl; [by intros [= <-]|].
  destruct (getEventLabel g x) as [l| |]; [|done..]. cbn [mbind outcome_bind].
  destruct (EventLabel.getStamp l) as [s| |]; [|done..]. cbn [mbind outcome_bind].
  destruct (drop_after_stamp g st es) as [tl| |]; [|done..]. cbn [mbind outcome_bind].
  specialize (IH tl eq_refl). intros [= <-] He. destruct (s >? st).
  - right. auto.
  - apply elem_of_cons in He as [->|He]; [left|right; auto].
Qed.
Lemma getRevisitable_in g sLab (pporf : View.t) ls e :
  getRevisitable g sLab pporf = Ret ls -> e ∈ ls -> exists l, label_at g e = Some l.
Proof.
  unfold getRevisitable. destruct (getPendingRMW g sLab) as [p| |]; [|done..]. cbn [mbind outcome_bind].
  set (es := List.filter _ _). intros H He.
  assert (e ∈ es) as Hes.
  { unfold drop_after_pending in H. case_match; [by injection H as <-|].
    destruct es as [|x es'] eqn:Ees; [injection H as <-; by apply elem_of_nil in He|].
    destruct (getEventLabel g p) as [l| |]; [|done..]. cbn [mbind outcome_bind] in H.
    destruct (EventLabel.getStamp l) as [s| |]; [|done..]. cbn [mbind outcome_bind] in H.
    by eapply drop_after_stamp_in. }
  apply list_elem_of_In, filter_In in Hes as [_ Hes]. apply andb_true_iff in Hes as [_ Hes].
  unfold label_sat in Hes. destruct (label_at g e) as [l|]; [by exists l|done].
Qed.

Lemma readers_of_stores_spec g ws :
  (forall w, w ∈ ws -> is_Some (label_at g w)) ->
  exists rs, readers_of_stores g ws = Ret rs /\
    forall r, r ∈ rs <-> exists w y, w ∈ ws /\ label_at g w = Some y /\ r ∈ WriteLabel.readers y.
Proof.
  induction ws as [|w ws IH]; intros H; simpl.
  { exists []. split; [done|]. intros r. split; [by intros ?%elem_of_nil|by intros (? & ? & ?%elem_of_nil & _)]. }
  destruct (H w) as [y Hy]; [left|]. rewrite (getEventLabel_at _ _ _ Hy). cbn [mbind outcome_bind].
  destruct IH as (rs & -> & Hrs). { intros x Hx. apply H. by right. }
  cbn [mbind outcome_bind]. eexists. split; [done|]. intros r. rewrite elem_of_app, Hrs. split.
  - intros [?|(w' & y' & ? & ? & ?)]; [exists w, y|exists w', y']; (split; [|done]); [left|by right].
  - intros (w' & y' & [->|?]%elem_of_cons & Hy' & ?); [left; congruence|right; by exists w', y'].
Qed.

Lemma getMOOptRfAfter_spec g sLab c1 c2 :
  let access := MemAccessLabel.getAccess sLab in
  ordered_stores g access -> co_order g access = c1 ++ getPos sLab :: c2 ->
  exists es, getMOOptRfAfter g sLab = Ret es /\
    forall e, e ∈ es <-> exists x, label_at g e = Some x /\ mo_rf_after g access (getPos sLab) x.
Proof.
  intros access Ho Ec. pose proof (c_labelled _ (os_consistent _ _ Ho)) as Hg.
  assert (getStoresToLoc g (acc_addr access) = Ret (stores_at g (getBucket (acc_addr access)))) as Es.
  { unfold getStoresToLoc, co_order, stores_at in *. destruct (InitLabel.bucket_get _ _); [done|].
    simpl in Ec. by destruct c1. }
  unfold getMOOptRfAfter. fold access.
  rewrite (co_succs_split g access _ _ _ _ Es (os_nodup _ _ Ho) Ec). cbn [mbind outcome_bind].
  assert (Hw : forall w, w ∈ c2 -> exists y, label_at g w = Some y).
  { intros w Hw. destruct (write_label g w) as (y & Hy & _); [|by exists y].
    apply (co_order_write g access); [done|]. rewrite Ec. set_solver. }
  destruct (readers_of_stores_spec g c2) as (rs & -> & Hrs); [by intros w ?; apply Hw|].
  cbn [mbind outcome_bind]. eexists. split; [done|]. intros e. rewrite elem_of_app, Hrs. split.
  - intros [He|(w & y & He & Hy & Hr)].
    + destruct (Hw e He) as (y & Hy). exists y. split; [done|]. exists c1, c2, e, y. by split_and!; [..|left].
    + destruct (reader_label g w y e (os_consistent _ _ Ho) Hy Hr) as (x & Hx). exists x. split; [done|].
      exists c1, c2, w, y. split_and!; [done..|]. right. by exists e.
  - intros (x & Hx & k1 & k2 & w & y & Ek & Hwk & Hy & H). rewrite Ec in Ek.
    apply split_at in Ek as [_ <-]; [|rewrite <- Ec; by apply co_order_nodup].
    destruct H as [->|(r & Hr & Hrx)].
    + left. by rewrite <- (proj1 (lb_ok _ Hg e y Hx)), (proj1 (lb_ok _ Hg w y Hy)).
    + right. exists w, y. split; [done|]. split; [done|].
      by rewrite <- (proj1 (lb_ok _ Hg e x Hx)), (proj1 (lb_ok _ Hg r x Hrx)).
Qed.

Lemma isCoMaximal_last g access s c1 c2 :
  ordered_stores g access -> co_order g access = c1 ++ s :: c2 -> EventOps.isInitializer s = false ->
  isCoMaximal g access s = Ret (bool_decide (c2 = [])).
Proof.
  intros Ho Ec Hs. unfold isCoMaximal, co.
  assert (overlapping g access <$> getStoresToLoc g (acc_addr access) = Ret (co_order g access)) as ->.
  { unfold getStoresToLoc, co_order, stores_at in *. destruct (InitLabel.bucket_get _ _); [done|].
    simpl in Ec. by destruct c1. }
  cbn [mbind outcome_bind]. rewrite Hs. f_equal. apply bool_decide_ext. rewrite Ec.
  pose proof (co_order_nodup g access Ho) as Hn. rewrite Ec in Hn.
  destruct c2 as [|y c2 _] using rev_ind; [by rewrite last_snoc|].
  change (c1 ++ s :: c2 ++ [y]) with (c1 ++ (s :: c2) ++ [y]). rewrite app_assoc, last_snoc.
  split; [|by destruct c2]. intros [= ->]. exfalso.
  apply NoDup_app in Hn as (_ & _ & Hn). apply NoDup_cons in Hn as [Hn _]. apply Hn. set_solver.
Qed.

(** ** A concrete graph

    The first thread stores 1 to [x], creates the second and publishes with a
    release store to [y]; the second acquires it, loads [x], stores 3 to [x] and
    loads it back, while the first has stored 2 in between in coherence. *)
Definition ordered_storesb (g : Graph) (access : AAccess) : bool :=
  let ss := stores_at g (getBucket (acc_addr access)) in
  consistentb g && bool_decide (NoDup ss) && forallb (label_sat g (fun l => Isa.WriteLabel (kind l))) ss.
Lemma ordered_storesb_sound g access : ordered_storesb g access = true -> ordered_stores g access.
Proof.
  unfold ordered_storesb. rewrite !andb_true_iff, bool_decide_eq_true, forallb_forall.
  intros [[Hc Hn] Hw]. split; [by apply consistentb_sound|done|].
  intros w Hin. by apply Hw, list_elem_of_In.
Qed.

Definition x_access : AAccess := mkAccess 64 8 Unsigned.
Definition x_store (t i v : Z) : Label :=
  Make.WriteLabel (mkEvent t i) Monotonic 64 8 Unsigned v WriteAttr.None_ DepInfo.no_deps.
Definition x_load (t i : Z) : Label := Make.ReadLabel (mkEvent t i) Monotonic 64 8 Unsigned None DepInfo.no_deps.
Definition add_ordered (n : nat) (g : Graph) (lab : Label) : Graph := addStoreToCO (add_viewed g lab) lab n.
Definition published : Graph :=
  let g := add_ordered 0 (trackCoherenceAtLoc (addNewThread empty) x_access) (x_store 0 1 1) in
  let g := foldl add_viewed g
    [Make.ThreadCreateLabel (mkEvent 0 2) Release (mkThreadInfo 1 0 0 0 (-1)) DepInfo.no_deps;
     Make.WriteLabel (mkEvent 0 3) Release 72 8 Unsigned 1 WriteAttr.None_ DepInfo.no_deps;
     Make.ThreadStartLabel (mkEvent 1 0) Acquire (mkEvent 0 2) (mkThreadInfo 1 0 0 0 (-1)) (-1);
     Make.ReadLabel (mkEvent 1 1) Acquire 72 8 Unsigned None DepInfo.no_deps] in
  let g := read_from g (mkEvent 1 1) (mkEvent 0 3) in
  read_from (add_viewed g (x_load 1 2)) (mkEvent 1 2) (mkEvent 0 1).
(** A second store by the first thread, not yet in coherence. *)
Definition stored : Graph := add_viewed published (x_store 0 4 2).
Definition ordered_graph : Graph :=
  let g := add_ordered 1 (add_viewed (add_ordered 1 published (x_store 1 3 3)) (x_load 1 4)) (x_store 0 4 2) in
  read_from g (mkEvent 1 4) (mkEvent 1 3).
Definition label_in (g : Graph) (t i : Z) : Label := default (x_load t i) (label_at g (mkEvent t i)).

Lemma ordered_graph_ok : ordered_stores ordered_graph x_access /\
  co_order ordered_graph x_access = [mkEvent 0 1; mkEvent 0 4; mkEvent 1 3] /\
  forall l, l ∈ labels ordered_graph -> has_exact ordered_graph (hb_step ordered_graph) 0 l.
Proof.
  split; [apply ordered_storesb_sound; vm_compute; reflexivity|]. split; [vm_compute; reflexivity|].
  intros l. apply stored_hb_exact; vm_compute; reflexivity.
Qed.

(** ** The properties *)

(** Property C20.  [getCoherentStores], in both modes.  Without [-mixer] it
    offers exactly the coherent stores: its list is a final part of the
    initializer followed by the location's stores in coherence order, and starts
    at the first store after which no store is (reads-from and
    happens-before)-before the read.  With [-mixer] it offers the initializer and
    every store of the location, coherent or not. *)
Theorem getCoherentStores_readable mixer g rLab :
  let access := MemAccessLabel.getAccess rLab in
  let all := init_pos :: co_order g access in
  ordered_stores g access -> label_at g (getPos rLab) = Some rLab -> has_exact g (hb_step g) 0 rLab ->
  exists k, getCoherentStores mixer g rLab = Ret (touchLoc g access, if mixer then all else drop k all) /\
    (k < length all)%nat /\
    forall i, (k <= i)%nat <-> forall j w, (i < j)%nat -> all !! j = Some w -> ~ rf_hb_before g access rLab w.
Proof.
  intros access all Ho Hl Hx. destruct (splitLocMOBefore_exact g rLab Ho Hl Hx) as (c1 & c2 & E & Hs).
  fold access in E, Hs. exists (length c1). pose proof Hs as (Ec & _ & _).
  unfold getCoherentStores, isDepTracking. fold access. rewrite touch_co. cbn [mbind outcome_bind].
  split; [|split].
  - destruct mixer; [done|]. rewrite E. cbn [mbind outcome_bind]. rewrite Ec, range_prefix, range_all.
    do 2 f_equal. unfold all. rewrite Ec. destruct c1 as [|x c1 _] using rev_ind; [done|].
    rewrite last_snoc, length_app, Nat.add_1_r, <- app_assoc. simpl. by rewrite drop_app_length.
  - unfold all. rewrite Ec. simpl. rewrite length_app. lia.
  - intros i. rewrite (split_index _ _ _ _ i Hs). split; intros H j w Hj Hw.
    + destruct j as [|j]; [lia|]. by apply (H j); [lia|].
    + by apply (H (S j)); [lia|].
Qed.

(** Property C22.  [getCoherentPlacings]: a store that is not part of a
    read-modify-write may be placed exactly at the indices of its coherence order
    from which on no store is (reads-from and happens-before)-before it; the
    store of a read-modify-write has one place, directly after the store its read
    reads from. *)
Theorem getCoherentPlacings_coherent g wLab :
  let access := MemAccessLabel.getAccess wLab in
  ordered_stores g access -> label_at g (getPos wLab) = Some wLab -> has_exact g (hb_step g) 0 wLab ->
  (isRMWStore wLab = false -> exists k,
    getCoherentPlacings g wLab = Ret (touchLoc g access, (drop k (co_order g access), [])) /\
    (k <= length (co_order g access))%nat /\
    forall i, (k <= i)%nat <->
      forall j w, (i <= j)%nat -> co_order g access !! j = Some w -> ~ rf_hb_before g access wLab w) /\
  (isRMWStore wLab = true -> forall p w x c1 c2,
    getPreviousLabel g (getPos wLab) = Ret (Some p) -> Isa.ReadLabel (kind p) = true ->
    ReadLabel.getRf p = Some w -> label_at g w = Some x -> Isa.WriteLabel (kind x) = true ->
    ordered_stores g (MemAccessLabel.getAccess x) -> co_order g (MemAccessLabel.getAccess x) = c1 ++ w :: c2 ->
    getCoherentPlacings g wLab = Ret (touchLoc g (MemAccessLabel.getAccess x), (c2, c2))).
Proof.
  intros access Ho Hl Hx. unfold getCoherentPlacings, isDepTracking. fold access. split; intros ->.
  - destruct (splitLocMOBefore_exact g wLab Ho Hl Hx) as (c1 & c2 & E & Hs). fold access in E, Hs.
    exists (length c1). rewrite E. cbn [mbind outcome_bind]. pose proof Hs as (Ec & _ & _). split; [|split].
    + by rewrite Ec, drop_app_length.
    + rewrite Ec, length_app. lia.
    + intros i. by apply split_index with (c2 := c2).
  - intros p w x c1 c2 Ep Hp Ew Ex Hw Hox Ec. rewrite Ep. cbn [mbind outcome_bind]. rewrite Hp, Ew. cbn [negb].
    rewrite (getEventLabel_at _ _ _ Ex). cbn [mbind outcome_bind]. rewrite Hw.
    by rewrite (co_succs_split (touchLoc g (MemAccessLabel.getAccess x)) _ _ c1 w c2 (touch_stores _ _) (os_nodup _ _ Hox) Ec).
Qed.


(** The first load of [x] may read either store of the first thread or the later
    store of its own thread, but not the initializer. *)
Lemma getCoherentStores_readable_witness :
  exists k stores, (fun r => snd <$> r) (getCoherentStores false ordered_graph (label_in ordered_graph 1 2)) = Ret stores /\
    stores = [mkEvent 0 1; mkEvent 0 4; mkEvent 1 3] /\ k = 1%nat /\
    (forall j w, (k < j)%nat -> (init_pos :: co_order ordered_graph x_access) !! j = Some w ->
      ~ rf_hb_before ordered_graph x_access (label_in ordered_graph 1 2) w).
Proof.
  destruct ordered_graph_ok as (Ho & Ec & Hx).
  destruct (getCoherentStores_readable false ordered_graph (label_in ordered_graph 1 2)) as (k & E & Hk & Hi).
  - exact Ho.
  - vm_compute. reflexivity.
  - apply Hx, labels_iff. exists (mkEvent 1 2). vm_compute. reflexivity.
  - change (MemAccessLabel.getAccess (label_in ordered_graph 1 2)) with x_access in *. rewrite Ec in *.
    assert (snd <$> getCoherentStores false ordered_graph (label_in ordered_graph 1 2) =
      Ret [mkEvent 0 1; mkEvent 0 4; mkEvent 1 3]) as Ev by (vm_compute; reflexivity).
    exists k, [mkEvent 0 1; mkEvent 0 4; mkEvent 1 3]. split; [exact Ev|]. split; [reflexivity|].
    rewrite E in Ev. cbn [fmap outcome_fmap snd] in Ev. injection Ev as Ev.
    assert (k = 1%nat) as -> by (apply (f_equal length) in Ev; rewrite length_drop in Ev; simpl in Ev, Hk; lia).
    split; [reflexivity|]. apply (Hi 1%nat). lia.
Defined.

(** The second store of the first thread goes anywhere after its first. *)
Lemma getCoherentPlacings_coherent_witness :
  exists k, (fun r => snd <$> r) (getCoherentPlacings stored (label_in stored 0 4)) = Ret (drop k [mkEvent 0 1], []) /\
    (k <= 1)%nat /\ k = 1%nat.
Proof.
  destruct (getCoherentPlacings_coherent stored (label_in stored 0 4)) as [H _].
  - apply ordered_storesb_sound. vm_compute. reflexivity.
  - vm_compute. reflexivity.
  - apply stored_hb_exact; [vm_compute; reflexivity..|]. apply labels_iff. exists (mkEvent 0 4). vm_compute. reflexivity.
  - destruct H as (k & E & Hk & _); [vm_compute; reflexivity|].
    change (MemAccessLabel.getAccess (label_in stored 0 4)) with x_access in *.
    assert (co_order stored x_access = [mkEvent 0 1]) as Ec by (vm_compute; reflexivity). rewrite Ec in E, Hk.
    exists k. split; [by rewrite E|]. split; [exact Hk|]. simpl in Hk.
    destruct k as [|k]; [|lia]. exfalso. apply (f_equal (fun r => snd <$> r)) in E. vm_compute in E. discriminate E.
Defined.

End CoherenceFacts.
