(* ===== verification/Interp.v ===== *)
(** * The interpreter's state as the driver sees it (src/src/Interpreter.h,
    Interpreter.cpp, Execution.cpp).

    A stack frame holds values and an instruction of LLVM and is a parameter
    [Frame]; a function is its number.  Values of LLVM are a parameter [Value].  Random
    numbers and dependencies of a thread and the exit value are not modelled. *)
From S2P Require Import Prelude Event SVal SAddr VSet SExpr Deps Views Labels.
#[local] Open Scope Z_scope.

Module Interp.

(** ** Threads *)

Inductive BlockageType :=
| NotBlocked | ThreadJoin | Spinloop | FaiZNESpinloop | LockZNESpinloop | HelpedCas | Confirmation
| ReadOptBlock | LockNotAcq | LockNotRel | Barrier | Cons | Error | User.
#[global] Instance BlockageType_eq : EqDecision BlockageType.
Proof. solve_decision. Defined.
Inductive ProgramState := Ctors | Main | Dtors | Recovery.
#[global] Instance ProgramState_eq : EqDecision ProgramState.
Proof. solve_decision. Defined.
Inductive ExecutionState := Normal | Replay.
#[global] Instance ExecutionState_eq : EqDecision ExecutionState.
Proof. solve_decision. Defined.

Section State.
Context {Frame Value : Type}.

Record Thread := mkThread {
  id : Z; parentId : Z; threadFun : Z; threadArg : Z;
  ECStack : list Frame; initEC : list Frame;
  tls : gmap Z Value;
  globalInstructions : Z; blocked : BlockageType;
  (** [globalInstSnap], and the frame [curInstSnap] points into; not set by a constructor *)
  snapshot : option (Z * Frame) }.
Record Dynamic := mkDynamic {
  threads : list Thread; currentThread : Z; execState : ExecutionState; programState : ProgramState;
  (** null is 0 *)
  fdToFile : list Z;
  (** the last one registered is the head *)
  AtExitHandlers : list Z }.

Definition isMain (t : Thread) : bool := id t =? 0.
Definition isBlocked (t : Thread) : bool := negb (bool_decide (blocked t = NotBlocked)).
Definition block (b : BlockageType) (t : Thread) : Thread :=
  mkThread (id t) (parentId t) (threadFun t) (threadArg t) (ECStack t) (initEC t) (tls t) (globalInstructions t) b (snapshot t).
Definition unblock : Thread -> Thread := block NotBlocked.
Definition setECStack (fs : list Frame) (t : Thread) : Thread :=
  mkThread (id t) (parentId t) (threadFun t) (threadArg t) fs (initEC t) (tls t) (globalInstructions t) (blocked t)
    (snapshot t).
Definition setInitEC (fs : list Frame) (t : Thread) : Thread :=
  mkThread (id t) (parentId t) (threadFun t) (threadArg t) (ECStack t) fs (tls t) (globalInstructions t) (blocked t)
    (snapshot t).
Definition setTls (m : gmap Z Value) (t : Thread) : Thread :=
  mkThread (id t) (parentId t) (threadFun t) (threadArg t) (ECStack t) (initEC t) m (globalInstructions t) (blocked t)
    (snapshot t).
Definition setGlobal (n : Z) (t : Thread) : Thread :=
  mkThread (id t) (parentId t) (threadFun t) (threadArg t) (ECStack t) (initEC t) (tls t) n (blocked t) (snapshot t).
Definition setSnapshot (s : option (Z * Frame)) (t : Thread) : Thread :=
  mkThread (id t) (parentId t) (threadFun t) (threadArg t) (ECStack t) (initEC t) (tls t) (globalInstructions t) (blocked t) s.

Definition getNumThreads (d : Dynamic) : Z := Z.of_nat (length (threads d)).
(** No bounds are checked. *)
Definition getThrById (d : Dynamic) (i : Z) : outcome Thread := vec_get (threads d) i.
Definition getCurThr (d : Dynamic) : outcome Thread := getThrById d (currentThread d).
Definition set_threads (ts : list Thread) (d : Dynamic) : Dynamic :=
  mkDynamic ts (currentThread d) (execState d) (programState d) (fdToFile d) (AtExitHandlers d).
Definition alter_thread (f : Thread -> Thread) (i : Z) (d : Dynamic) : outcome Dynamic :=
  t ← getThrById d i; Ret (set_threads (<[Z.to_nat i := f t]> (threads d)) d).

Definition scheduleThread (tid : Z) (d : Dynamic) : Dynamic :=
  mkDynamic (threads d) tid (execState d) (programState d) (fdToFile d) (AtExitHandlers d).
Definition setProgramState (s : ProgramState) (d : Dynamic) : Dynamic :=
  mkDynamic (threads d) (currentThread d) (execState d) s (fdToFile d) (AtExitHandlers d).
Definition setExecState (s : ExecutionState) (d : Dynamic) : Dynamic :=
  mkDynamic (threads d) (currentThread d) s (programState d) (fdToFile d) (AtExitHandlers d).
Definition set_fdToFile (fds : list Z) (d : Dynamic) : Dynamic :=
  mkDynamic (threads d) (currentThread d) (execState d) (programState d) fds (AtExitHandlers d).
Definition set_AtExitHandlers (fs : list Z) (d : Dynamic) : Dynamic :=
  mkDynamic (threads d) (currentThread d) (execState d) (programState d) (fdToFile d) fs.

(** *** Positions *)

Definition currPos (d : Dynamic) : outcome Event :=
  t ← getCurThr d; Ret (mkEvent (id t) (globalInstructions t)).
Definition nextPos (d : Dynamic) : outcome Event := EventOps.next <$> currPos d.
(** The counter is an [unsigned int]. *)
Definition bump (k : Z) (d : Dynamic) : outcome (Event * Dynamic) :=
  t ← getCurThr d;
  let n := u32 (globalInstructions t + k) in
  d ← alter_thread (setGlobal n) (currentThread d) d; Ret (mkEvent (id t) n, d).
Definition incPos : Dynamic -> outcome (Event * Dynamic) := bump 1.
Definition decPos : Dynamic -> outcome (Event * Dynamic) := bump (-1).

(** *** Resetting and creating threads *)

(** The initial values of the thread-local variables. *)
Section Tls.
Context (threadLocalVars : gmap Z Value).

Definition reset_state (t : Thread) : Thread := setGlobal 0 (unblock (setTls threadLocalVars (setECStack [] t))).
Definition resetThread (i : Z) : Dynamic -> outcome Dynamic := alter_thread reset_state i.
Definition reset (d : Dynamic) : outcome Dynamic :=
  mfold (fun d t => resetThread (id t) d) (threads d) (set_AtExitHandlers [] (scheduleThread 0 d)).

Definition addNewThread (thread : Thread) (d : Dynamic) : outcome Dynamic :=
  if id thread =? getNumThreads d then Ret (set_threads (threads d ++ [thread]) d)
  else
    t ← getThrById d (id thread);
    _ ← BUG_ON (negb (threadFun t =? threadFun thread) || negb (id t =? id thread));
    Ret (set_threads (<[Z.to_nat (id thread) := thread]> (threads d)) d).
Definition createAddMainThread (mainFun : Z) (d : Dynamic) : outcome Dynamic :=
  addNewThread (mkThread 0 (-1) mainFun 0 [] [] threadLocalVars 0 NotBlocked None) (set_threads [] d).
(** [Thread(F, arg, tid, pid, SF)] keeps [SF] in [initEC]; it is pushed on the
    stack too. *)
Definition createAddNewThread (F arg tid pid : Z) (SF : Frame) : Dynamic -> outcome Dynamic :=
  addNewThread (mkThread tid pid F arg [SF] [SF] threadLocalVars 0 NotBlocked None).
Definition createAddRecoveryThread (recoveryRoutine tid : Z) : Dynamic -> outcome Dynamic :=
  addNewThread (mkThread tid (-1) recoveryRoutine 0 [] [] threadLocalVars 0 NotBlocked None).

(** [constructAddThreadFromInfo]: [start] makes the first frame of the function
    that has the number of the thread information. *)
Definition constructAddThreadFromInfo (start : ThreadInfo -> Frame) (ti : ThreadInfo) : Dynamic -> outcome Dynamic :=
  createAddNewThread (ti_funId ti) (ti_arg ti) (ti_id ti) (ti_parentId ti) (start ti).
Definition setExecutionContext (mainFun : Z) (start : ThreadInfo -> Frame) (tis : list ThreadInfo) (d : Dynamic)
  : outcome Dynamic :=
  d ← createAddMainThread mainFun (set_threads [] d);
  mfold (fun d ti => constructAddThreadFromInfo start ti d) tis d.
End Tls.

End State.
Arguments Thread : clear implicits.
Arguments Dynamic : clear implicits.

(** ** Static memory: the address ranges of the global variables *)

(** [std::lower_bound] by the end of a range. *)
Fixpoint first_not_before (allocas : list (Z * Z)) (addr : Z) : option (Z * Z) :=
  match allocas with
  | [] => None
  | r :: allocas => if snd r <? addr then first_not_before allocas addr else Some r
  end.
Definition isStaticallyAllocated (staticAllocas : list (Z * Z)) (addr : Z) : bool :=
  match first_not_before staticAllocas addr with
  | None => false
  | Some (lo, hi) => (lo <=? addr) && (addr <=? hi)
  end.
Definition getStaticAllocBegin (staticAllocas : list (Z * Z)) (addr : Z) : outcome Z :=
  match first_not_before staticAllocas addr with
  | None => Bug
  | Some (lo, hi) => _ ← BUG_ON ((addr <? lo) || (addr >? hi)); Ret lo
  end.

(** ** Read-modify-writes *)

(** [llvm::AtomicRMWInst::BinOp], in the order of its declaration. *)
Definition Xchg : Z := 0.
Definition Add : Z := 1.
Definition Sub : Z := 2.
Definition And : Z := 3.
Definition Nand : Z := 4.
Definition Or : Z := 5.
Definition Xor : Z := 6.
Definition Max : Z := 7.
Definition Min : Z := 8.
Definition UMax : Z := 9.
Definition UMin : Z := 10.
Definition executeAtomicRMWOperation (oldVal val size op : Z) : outcome Z :=
  if op =? Xchg then Ret val
  else if op =? Add then Ret (SVal.add oldVal val)
  else if op =? Sub then Ret (SVal.sub oldVal val)
  else if op =? And then Ret (SVal.land oldVal val)
  else if op =? Nand then Ret (SVal.lnot (SVal.land oldVal val))
  else if op =? Or then Ret (SVal.lor oldVal val)
  else if op =? Xor then Ret (SVal.lxor oldVal val)
  else if op =? Max then
    o ← SVal.signExtendBottom oldVal (ASize.getBits size);
    v ← SVal.signExtendBottom val (ASize.getBits size);
    Ret (if SVal.sgt o v then oldVal else val)
  else if op =? Min then
    o ← SVal.signExtendBottom oldVal (ASize.getBits size);
    v ← SVal.signExtendBottom val (ASize.getBits size);
    Ret (if SVal.slt o v then oldVal else val)
  else if op =? UMax then Ret (if SVal.ugt oldVal val then oldVal else val)
  else if op =? UMin then Ret (if SVal.ult oldVal val then oldVal else val)
  else Ret val.

End Interp.
