(* ===== verification/Execution.v ===== *)
(** * The execution the driver explores (GenMCDriver::Execution,
    src/src/GenMCDriver.hpp and GenMCDriver.cpp): a graph, the work list and the
    choices of the estimator, and how it is restricted to a stamp. *)
From S2P Require Import Prelude Event SVal SAddr VSet SExpr Deps Views Labels LabelClasses Graph Revisits.
#[local] Open Scope Z_scope.

(** [std::map<Stamp, VSet<Event>>] *)
Abbreviation ChoiceMap := (list (Z * list Event)).
Record Execution := mkExecution { graph : Graph; choices : ChoiceMap; workqueue : WorkQueue.t }.

Module Exec.
Import ExecutionGraph.

Definition set_graph (g : Graph) (x : Execution) : Execution := mkExecution g (choices x) (workqueue x).
Definition set_choices (c : ChoiceMap) (x : Execution) : Execution := mkExecution (graph x) c (workqueue x).
Definition set_workqueue (q : WorkQueue.t) (x : Execution) : Execution := mkExecution (graph x) (choices x) q.

(** ** Reads whose store was cut *)

(** The coherence-last store, or the initializer. *)
Definition co_max (g : Graph) (access : AAccess) : outcome Event :=
  from_option id EventOps.getInit ∘ last <$> co g access.
Definition repairRead (g : Graph) (lab : Label) : outcome Graph :=
  last ← co_max g (MemAccessLabel.getAccess lab);
  g ← changeRf g (getPos lab) last;
  w ← getEventLabel g last;
  sw ← EventLabel.getStamp w;
  sr ← EventLabel.getStamp lab;
  Ret (alter_label (fun l => ReadLabel.setIPRStatus (sw >? sr) (MemAccessLabel.setAddedMax true l)) (getPos lab) g).
Definition repair_last (g : Graph) (i : Z) : outcome Graph :=
  rLab ← getLastThreadLabel g i;
  if Isa.ReadLabel (kind rLab) && negb (ReadLabel.hasRf rLab) then repairRead g rLab else Ret g.
Definition repairDanglingReads (g : Graph) : outcome Graph :=
  mfold repair_last (seqZ 0 (getNumThreads g)) g.

(** ** Restriction *)

Definition restrictGraph (stamp : Z) (x : Execution) : outcome Execution :=
  g ← cutToStamp (graph x) stamp;
  g ← compressStampsAfter g stamp;
  g ← repairDanglingReads g;
  Ret (set_graph g x).
Definition restrictChoices (stamp : Z) (x : Execution) : Execution :=
  set_choices (List.filter (fun c => negb (fst c >? stamp)) (choices x)) x.
Definition restrict (stamp : Z) (x : Execution) : outcome Execution :=
  x ← restrictGraph stamp x;
  let x := set_workqueue (WorkQueue.restrictWorklist stamp (workqueue x)) x in
  Ret (restrictChoices stamp x).

End Exec.
