(* ===== verification/MemoryModel.v ===== *)
(** * The interface between the driver and a memory model (the virtual functions
    of src/src/GenMCDriver.hpp), and the model that implements it
    (src/src/RADriver.hpp). *)
From S2P Require Import Prelude Event SVal SAddr VSet SExpr Deps Views Labels LabelClasses Graph RAViews RARace RACoherence.
#[local] Open Scope Z_scope.

(** A label passed by pointer is a label of the graph; a function that changes
    the graph returns it. *)
Class MemoryModel := {
  updateMMViews : Graph -> Label -> outcome Graph;
  calculatePrefixView : Graph -> Label -> outcome Clock;
  isConsistent : Graph -> Label -> bool;
  isRecoveryValid : Graph -> Label -> bool;
  checkErrors : Graph -> Label -> outcome (VerificationError * option Label);
  checkWarnings : Graph -> Label -> list VerificationError -> outcome (list (VerificationError * Label));
  getCoherentRevisits : bool -> Graph -> Label -> View.t -> outcome (list Event);
  getCoherentStores : bool -> Graph -> Label -> outcome (Graph * list Event);
  getCoherentPlacings : Graph -> Label -> outcome (Graph * (list Event * list Event));
  isWriteRfBefore : Graph -> Event -> Event -> AAccess -> outcome bool;
  isDepTracking : bool;
  getHbView : Label -> outcome View.t
}.

(** [RADriver] *)
Definition RADriver : MemoryModel := {|
  updateMMViews := Calc.updateMMViews;
  calculatePrefixView := Calc.calculatePrefixView;
  isConsistent := Race.isConsistent;
  isRecoveryValid := Race.isRecoveryValid;
  checkErrors := Race.checkErrors;
  checkWarnings := Race.checkWarnings;
  getCoherentRevisits := Coherence.getCoherentRevisits;
  getCoherentStores := Coherence.getCoherentStores;
  getCoherentPlacings := Coherence.getCoherentPlacings;
  isWriteRfBefore := Coherence.isWriteRfBefore;
  isDepTracking := Calc.isDepTracking;
  getHbView := Calc.getHbView
|}.

(** [getPrefixView(lab)]: computed when the label has none (it is then stored;
    a label that goes through [updateMMViews] has one). *)
Definition getPrefixView `{MemoryModel} (g : Graph) (lab : Label) : outcome View.t :=
  c ← match prefixView lab with Some c => Ret c | None => calculatePrefixView g lab end;
  match c with CView v => Ret v | CDep _ => Undef end.
