(* ===== verification/Driver.v ===== *)
(** * The state of the verification driver (src/src/GenMCDriver.hpp,
    GenMCDriver.cpp), the monad its methods run in, and error reporting.

    The configuration, the program under verification and the memory model are
    classes.  A program is what the driver gets from LLVM and from the random
    number generators: none of it is code of the repository.  Output (printing a
    graph, the replay that collects source lines for it) is not modelled, a
    driver has no thread pool, and only one stops the process: [ERROR] ends the
    computation like [BUG]. *)
From S2P Require Import Prelude Event SVal SAddr VSet SExpr Trie Deps Views Labels LabelClasses Graph Iterators Bounds Revisits Interp RARace Execution MemoryModel.
#[local] Open Scope Z_scope.

(** ** Configuration (src/src/Config.hpp) *)

Inductive SchedulePolicy := ltr | wf | wfr | arbitrary.
Class Config := mkConfig {
  conf_bound : option Z; conf_boundType : BoundType;
  conf_symmetryReduction : bool; conf_helper : bool; conf_mixer : bool; conf_checkLiveness : bool;
  conf_instructionCaching : bool; conf_disableRaceDetection : bool; conf_disableBAM : bool; conf_ipr : bool;
  conf_persevere : bool; conf_schedulePolicy : SchedulePolicy;
  conf_estimationMin : Z; conf_sdThreshold : Z }.

(** ** The program: what the driver asks LLVM's side of the interpreter *)

(** [long double] and its operations. *)
Class LongDouble := mkLongDouble {
  LD : Type;
  ld : Z -> LD;
  ld_add : LD -> LD -> LD; ld_sub : LD -> LD -> LD; ld_mul : LD -> LD -> LD; ld_div : LD -> LD -> LD;
  ld_sqrt : LD -> LD;
  ld_leb : LD -> LD -> bool; ld_ltb : LD -> LD -> bool }.
Class Program := mkProgram {
  Frame : Type;
  (** [llvm::GenericValue]; the thread-local variables and their initial values *)
  GenericValue : Type; threadLocalVars : gmap Z GenericValue;
  (** the instruction at the top frame of a thread is a load, or a call that may be one *)
  nextIsLoad : Frame -> bool;
  (** the frame that starts the function of a thread *)
  startFrame : ThreadInfo -> Frame;
  (** the annotation of the load a frame is at, its registers replaced by their values *)
  frameAnnot : Frame -> option (SExprOps.SExpr Z);
  mainFun : Z; recoveryFun : Z; mainStack : list Frame; recoveryStack : list Frame;
  staticAllocas : list (Z * Z);
  getLocInitVal : AAccess -> Z;
  (** [MyDist dist(a, b); dist(rng)] *)
  RNG : Type;
  uniform : Z -> Z -> RNG -> Z * RNG;
  numbers :: LongDouble }.

(** ** The driver *)

Inductive Mode := VerificationMode | EstimationMode (budget : Z).
#[global] Existing Instance numbers.
Abbreviation ValueTrie := (Trie.Node (A := Z) (P := list Label)).

Section State.
Context `{Program}.

Record Result := mkResult {
  status : VerificationError; explored : Z; exploredBlocked : Z; boundExceeding : Z;
  estimationMean : LD; estimationVariance : LD;
  warnings : list VerificationError }.
Record Driver := mkDriver {
  mode : Mode;
  EE : Interp.Dynamic Frame GenericValue;
  (** the top of the stack is the head of the list *)
  execStack : list Execution;
  alloctor : SAddrAllocator;
  fds : list bool;
  seenPrefixes : list (Z * ValueTrie);
  threadPrios : list Event;
  isMootExecution : bool;
  readToReschedule : Event;
  lastAdded : Event;
  result : Result;
  shouldHalt : bool;
  rng : RNG;
  estRng : RNG }.

(** *** Methods: computations over the driver *)

Definition M (A : Type) : Type := Driver -> outcome (A * Driver).
#[export] Instance M_ret : MRet M := fun A a d => Ret (a, d).
#[export] Instance M_bind : MBind M := fun A B f m d =>
  match m d with Ret (a, d') => f a d' | Bug => Bug | Undef => Undef end.
#[export] Instance M_fmap : FMap M := fun A B f m d =>
  match m d with Ret (a, d') => Ret (f a, d') | Bug => Bug | Undef => Undef end.
Definition lift {A} (o : outcome A) : M A := fun d => a ← o; Ret (a, d).
Definition gets {A} (f : Driver -> A) : M A := fun d => Ret (f d, d).
Definition modify (f : Driver -> Driver) : M unit := fun d => Ret (tt, f d).

(** A loop over a list, an early exit, and a search with effects. *)
Fixpoint forM {A} (l : list A) (f : A -> M unit) : M unit :=
  match l with
  | [] => mret tt
  | x :: l => mbind (fun _ => forM l f) (f x)
  end.
Fixpoint foldMM {A S} (f : S -> A -> M S) (l : list A) (s : S) : M S :=
  match l with
  | [] => mret s
  | x :: l => mbind (fun s => foldMM f l s) (f s x)
  end.
Fixpoint existsMM {A} (f : A -> M bool) (l : list A) : M bool :=
  match l with
  | [] => mret false
  | x :: l => mbind (fun b : bool => if b then mret true else existsMM f l) (f x)
  end.
Fixpoint filterMM {A} (f : A -> M bool) (l : list A) : M (list A) :=
  match l with
  | [] => mret []
  | x :: l => mbind (fun b : bool => mbind (fun l' => mret (if b then x :: l' else l')) (filterMM f l)) (f x)
  end.

(** *** Fields *)

Definition set_EE (e : Interp.Dynamic Frame GenericValue) (d : Driver) : Driver :=
  mkDriver (mode d) e (execStack d) (alloctor d) (fds d) (seenPrefixes d) (threadPrios d) (isMootExecution d)
    (readToReschedule d) (lastAdded d) (result d) (shouldHalt d) (rng d) (estRng d).
Definition set_mode (m : Mode) (d : Driver) : Driver :=
  mkDriver m (EE d) (execStack d) (alloctor d) (fds d) (seenPrefixes d) (threadPrios d) (isMootExecution d)
    (readToReschedule d) (lastAdded d) (result d) (shouldHalt d) (rng d) (estRng d).
Definition set_execStack (x : list Execution) (d : Driver) : Driver :=
  mkDriver (mode d) (EE d) x (alloctor d) (fds d) (seenPrefixes d) (threadPrios d) (isMootExecution d)
    (readToReschedule d) (lastAdded d) (result d) (shouldHalt d) (rng d) (estRng d).
Definition set_alloctor (a : SAddrAllocator) (d : Driver) : Driver :=
  mkDriver (mode d) (EE d) (execStack d) a (fds d) (seenPrefixes d) (threadPrios d) (isMootExecution d)
    (readToReschedule d) (lastAdded d) (result d) (shouldHalt d) (rng d) (estRng d).
Definition set_fds (f : list bool) (d : Driver) : Driver :=
  mkDriver (mode d) (EE d) (execStack d) (alloctor d) f (seenPrefixes d) (threadPrios d) (isMootExecution d)
    (readToReschedule d) (lastAdded d) (result d) (shouldHalt d) (rng d) (estRng d).
Definition set_seenPrefixes (s : list (Z * ValueTrie)) (d : Driver) : Driver :=
  mkDriver (mode d) (EE d) (execStack d) (alloctor d) (fds d) s (threadPrios d) (isMootExecution d)
    (readToReschedule d) (lastAdded d) (result d) (shouldHalt d) (rng d) (estRng d).
Definition set_threadPrios (p : list Event) (d : Driver) : Driver :=
  mkDriver (mode d) (EE d) (execStack d) (alloctor d) (fds d) (seenPrefixes d) p (isMootExecution d)
    (readToReschedule d) (lastAdded d) (result d) (shouldHalt d) (rng d) (estRng d).
Definition set_moot (b : bool) (d : Driver) : Driver :=
  mkDriver (mode d) (EE d) (execStack d) (alloctor d) (fds d) (seenPrefixes d) (threadPrios d) b
    (readToReschedule d) (lastAdded d) (result d) (shouldHalt d) (rng d) (estRng d).
Definition set_readToReschedule (r : Event) (d : Driver) : Driver :=
  mkDriver (mode d) (EE d) (execStack d) (alloctor d) (fds d) (seenPrefixes d) (threadPrios d) (isMootExecution d)
    r (lastAdded d) (result d) (shouldHalt d) (rng d) (estRng d).
Definition set_lastAdded (e : Event) (d : Driver) : Driver :=
  mkDriver (mode d) (EE d) (execStack d) (alloctor d) (fds d) (seenPrefixes d) (threadPrios d) (isMootExecution d)
    (readToReschedule d) e (result d) (shouldHalt d) (rng d) (estRng d).
Definition set_result (r : Result) (d : Driver) : Driver :=
  mkDriver (mode d) (EE d) (execStack d) (alloctor d) (fds d) (seenPrefixes d) (threadPrios d) (isMootExecution d)
    (readToReschedule d) (lastAdded d) r (shouldHalt d) (rng d) (estRng d).
Definition set_halt (b : bool) (d : Driver) : Driver :=
  mkDriver (mode d) (EE d) (execStack d) (alloctor d) (fds d) (seenPrefixes d) (threadPrios d) (isMootExecution d)
    (readToReschedule d) (lastAdded d) (result d) b (rng d) (estRng d).
Definition set_rngs (r e : RNG) (d : Driver) : Driver :=
  mkDriver (mode d) (EE d) (execStack d) (alloctor d) (fds d) (seenPrefixes d) (threadPrios d) (isMootExecution d)
    (readToReschedule d) (lastAdded d) (result d) (shouldHalt d) r e.
Definition set_status (s : VerificationError) (r : Result) : Result :=
  mkResult s (explored r) (exploredBlocked r) (boundExceeding r) (estimationMean r) (estimationVariance r) (warnings r).
Definition add_warning (w : VerificationError) (r : Result) : Result :=
  mkResult (status r) (explored r) (exploredBlocked r) (boundExceeding r) (estimationMean r) (estimationVariance r)
    (w :: warnings r).
(** The counters are [unsigned]. *)
Definition count (full blocked bound : Z) (r : Result) : Result :=
  mkResult (status r) (u32 (explored r + full)) (u32 (exploredBlocked r + blocked)) (u32 (boundExceeding r + bound))
    (estimationMean r) (estimationVariance r) (warnings r).
Definition set_estimate (m v : LD) (r : Result) : Result :=
  mkResult (status r) (explored r) (exploredBlocked r) (boundExceeding r) m v (warnings r).
End State.

Module Drv.
Import ExecutionGraph GraphIterators.
Section Methods.
Context `{Program} `{Config} `{MemoryModel}.

(** *** The execution, its graph and the interpreter *)

(** [back()] of an empty stack is undefined. *)
Definition getExecution : M Execution :=
  fun d => match execStack d with x :: _ => Ret (x, d) | [] => Undef end.
Definition putExecution (x : Execution) : M unit := modify (fun d => set_execStack (x :: tail (execStack d)) d).
Definition getGraph : M Graph := x ← getExecution; mret (graph x).
Definition putGraph (g : Graph) : M unit := x ← getExecution; putExecution (Exec.set_graph g x).
(** A function of the graph, one that changes the graph, and both. *)
Definition onGraph {A} (f : Graph -> outcome A) : M A := g ← getGraph; lift (f g).
Definition inGraph (f : Graph -> outcome Graph) : M unit := g ← onGraph f; putGraph g.
Definition viaGraph {A} (f : Graph -> outcome (Graph * A)) : M A := r ← onGraph f; putGraph (fst r);; mret (snd r).
Definition alterLabel (f : Label -> Label) (e : Event) : M unit := inGraph (fun g => Ret (alter_label f e g)).
Definition labelOf (e : Event) : M Label := onGraph (fun g => getEventLabel g e).
Definition onEE {A} (f : Interp.Dynamic Frame GenericValue -> outcome A) : M A := e ← gets EE; lift (f e).
Definition inEE (f : Interp.Dynamic Frame GenericValue -> outcome (Interp.Dynamic Frame GenericValue)) : M unit :=
  e ← onEE f; modify (set_EE e).

Definition pushExecution (x : Execution) : M unit := modify (fun d => set_execStack (x :: execStack d) d).
Definition popExecution : M bool := fun d =>
  match execStack d with
  | [] => Ret (false, d)
  | _ :: xs => Ret (negb (bool_decide (xs = [])), set_execStack xs d)
  end.

Definition addToWorklist (stamp : Z) (item : Revisits.Revisit) : M unit :=
  x ← getExecution; putExecution (Exec.set_workqueue (WorkQueue.addToWorklist stamp item (workqueue x)) x).
Definition getNextItem : M (option (Z * Revisits.Revisit)) :=
  x ← getExecution;
  r ← lift (WorkQueue.getNextItem (workqueue x));
  putExecution (Exec.set_workqueue (snd r) x);;
  mret (fst r).

(** *** Modes and flags *)

Definition inEstimationMode : M bool := gets (fun d => match mode d with EstimationMode _ => true | _ => false end).
Definition inRecoveryMode : M bool := gets (fun d => bool_decide (Interp.programState (EE d) = Interp.Recovery)).
Definition inReplay : M bool := gets (fun d => bool_decide (Interp.execState (EE d) = Interp.Replay)).
Definition isHalting : M bool := gets shouldHalt.
Definition halt (s : VerificationError) : M unit := modify (fun d => set_halt true (set_result (set_status s (result d)) d)).
Definition isMoot : M bool := gets isMootExecution.
Definition moot : M unit := modify (set_moot true).
Definition unmoot : M unit := modify (set_moot false).
Definition isRescheduledRead (r : Event) : M bool := gets (fun d => bool_decide (readToReschedule d = r)).
Definition setRescheduledRead (r : Event) : M unit := modify (set_readToReschedule r).
Definition resetThreadPrioritization : M unit := modify (set_threadPrios []).
Definition resetExplorationOptions : M unit :=
  unmoot;; setRescheduledRead EventOps.getInit;; resetThreadPrioritization.

(** *** Fresh addresses and file descriptors *)

Definition getFreshAddr (aLab : Label) : M Z :=
  match payload aLab with
  | PMalloc _ _ _ size alignment sdur stype spc _ =>
      lift (BUG_ON ((alignment <=? 0) || negb (Z.land alignment (alignment - 1) =? 0)));;
      let durable := match stype with ST_Durable => true | _ => false end in
      let internal := match spc with AS_Internal => true | _ => false end in
      a ← gets alloctor;
      r ← lift (match sdur with
                | SD_Automatic => Allocator.allocAutomatic a size alignment durable internal
                | SD_Heap => Allocator.allocHeap a size alignment durable internal
                | _ => Bug
                end);
      modify (set_alloctor (snd r));; mret (fst r)
  | _ => lift Undef
  end.

(** [llvm::BitVector]: [resize] fills with zeros, [set] needs an index inside. *)
Definition resize_bits (n : Z) (v : list bool) : list bool :=
  let n := Z.to_nat n in take n v ++ replicate (n - length v) false.
Definition set_bit (i : Z) (v : list bool) : outcome (list bool) :=
  if (0 <=? i) && (i <? Z.of_nat (length v)) then Ret (<[Z.to_nat i := true]> v) else Undef.
Fixpoint find_first_unset (v : list bool) (i : Z) : Z :=
  match v with
  | [] => -1
  | b :: v => if b then find_first_unset v (i + 1) else i
  end.
Definition mark_fd (fd : Z) (v : list bool) : outcome (list bool) :=
  set_bit fd (if fd >? Z.of_nat (length v) then resize_bits fd v else v).
Definition markFdAsUsed (fd : Z) : M unit := v ← gets fds; v ← lift (mark_fd fd v); modify (set_fds v).
(** The recursive call after growing finds a descriptor. *)
Definition getFreshFd : M Z :=
  v ← gets fds;
  let fd := find_first_unset v 0 in
  if fd =? -1 then
    let v := resize_bits (2 * Z.of_nat (length v) + 1) v in
    modify (set_fds v);;
    let fd := find_first_unset v 0 in markFdAsUsed fd;; mret fd
  else markFdAsUsed fd;; mret fd.

End Methods.
End Drv.
