(* ===== verification/Checks.v ===== *)
(** * Error reports, values and validity checks of the driver
    (src/src/GenMCDriver.cpp).

    A method that may report an error runs in the driver's monad; the value of
    a write is one of them, since it reports mixed-size accesses. *)
From S2P Require Import Prelude Event SVal SAddr VSet SExpr Deps Views Labels LabelClasses Graph Iterators Bounds Interp RARace RACoherence Execution MemoryModel Driver.
#[local] Open Scope Z_scope.

Module Checks.
Import ExecutionGraph GraphIterators EdgeLabels Coherence Drv.
Section Methods.
Context `{P : Program} `{C : Config} `{MM : MemoryModel}.

(** ** Reporting *)

(** [VE_InvalidAccessBegin <= s && s <= VE_InvalidAccessEnd] *)
Definition isInvalidAccessError (s : VerificationError) : bool :=
  match s with
  | VE_InvalidAccessBegin | VE_UninitializedMem | VE_AccessNonMalloc | VE_AccessFreed | VE_InvalidAccessEnd => true
  | _ => false
  end.
(** The message, the racy label and the printed trace are output.  The state of
    the interpreter is saved and restored around the replay. *)
Definition reportError (pos : Event) (type : VerificationError) (shouldHalt : bool) : M unit :=
  halting ← isHalting;
  replay ← inReplay;
  estimating ← inEstimationMode;
  if (halting : bool) || (replay : bool) || (negb shouldHalt && (estimating : bool)) then mret tt
  else
    errLab ← labelOf pos;
    (if isInvalidAccessError type && Isa.ReadLabel (kind errLab)
     then inGraph (fun g => changeRf g pos EventOps.getBottom) else mret tt);;
    if shouldHalt then halt type else mret tt.

(** Whether a warning is an error under the configuration. *)
Definition is_symmetric_thread (ls : list Label) : bool :=
  match ls with
  | l :: _ => match payload l with PThreadStart _ _ s => negb (s =? -1) | _ => false end
  | [] => false
  end.
Definition annotated_read (l : Label) : bool :=
  Isa.ReadLabel (kind l) && bool_decide (is_Some (ReadLabel.getAnnot l)).
Definition warning_isHardError (g : Graph) (pos : Event) (wcode : VerificationError) : outcome bool :=
  if negb (bool_decide (wcode = VE_WWRace)) then Ret false
  else if negb conf_symmetryReduction && negb conf_ipr then Ret false
  else
    lab ← getEventLabel g pos;
    Ret (conf_symmetryReduction && existsb is_symmetric_thread (events g)
         || conf_ipr && existsb annotated_read (samelocs g lab)).
Definition reportWarningOnce (pos : Event) (wcode : VerificationError) : M bool :=
  hardError ← onGraph (fun g => warning_isHardError g pos wcode);
  known ← gets (fun d => bool_decide (wcode ∈ warnings (result d)));
  (if (hardError : bool) || negb known then reportError pos wcode hardError else mret tt);;
  (if negb known then modify (fun d => set_result (add_warning wcode (result d)) d) else mret tt);;
  (if bool_decide (wcode = VE_WWRace)
   then alterLabel (fun l => WriteLabel.setAttr (WriteAttr.setAttr (WriteLabel.getAttr l) WriteAttr.WWRacy) l) pos
   else mret tt);;
  mret hardError.

Fixpoint report_warnings (pos : Event) (ws : list VerificationError) : M VerificationError :=
  match ws with
  | [] => mret VE_OK
  | w :: ws => hard ← reportWarningOnce pos w; if hard : bool then mret w else report_warnings pos ws
  end.
Definition checkForRaces (pos : Event) : M VerificationError :=
  estimating ← inEstimationMode;
  if conf_disableRaceDetection || estimating then mret VE_OK
  else
    lab ← labelOf pos;
    r ← onGraph (fun g => checkErrors g lab);
    if negb (bool_decide (fst r = VE_OK)) then reportError pos (fst r) true;; mret (fst r)
    else
      known ← gets (fun d => warnings (result d));
      ws ← onGraph (fun g => checkWarnings g lab known);
      report_warnings pos (map fst ws).

(** ** Values *)

(** A write of the graph, [None] for the null pointer. *)
Definition getWriteValue (w : option Event) (access : AAccess) : M Z :=
  match w with
  | None => mret 0
  | Some e =>
      if EventOps.isInitializer e then mret (getLocInitVal access)
      else
        wLab ← labelOf e;
        lift (BUG_ON (negb (Isa.WriteLabel (kind wLab))));;
        (if negb conf_mixer && negb (MemAccessLabel.getSize wLab =? acc_size access)
         then reportError e VE_MixedSize true else mret tt);;
        lift (WriteLabel.getSizedValAtOffset wLab access)
  end.
Definition or_part (access : AAccess) (ret : Z) (p : Event * AAccess) : M Z :=
  let offset := SVal.mul (SAddr.diff (acc_addr (snd p)) (acc_addr access)) 8 in
  val ← getWriteValue (Some (fst p)) (snd p);
  v ← lift (SVal.shl val offset);
  mret (SVal.lor ret v).
Definition getWriteValues (rfs : RfsT) (access : AAccess) : M Z := foldMM (or_part access) rfs 0.
Definition getReadValue (rLab : Label) : M Z :=
  getWriteValues (ReadLabel.getRfs rLab) (MemAccessLabel.getAccess rLab).
(** The contents of a file are not initialized explicitly. *)
Definition getDskWriteValue (e : Event) (access : AAccess) : M Z :=
  if EventOps.isInitializer e then mret 0 else getWriteValue (Some e) access.
Definition getDskWriteValues (rfs : RfsT) : M Z :=
  foldMM (fun ret p => v ← getDskWriteValue (fst p) (snd p); mret (SVal.lxor ret v)) rfs 0.
Definition getDskReadValue (rLab : Label) : M Z := getDskWriteValues (ReadLabel.getRfs rLab).

Definition getJoinValue (g : Graph) (jLab : Label) : outcome Z :=
  lLab ← getLastThreadLabel g (join_getChildId jLab);
  _ ← BUG_ON (negb (Isa.ThreadFinishLabel (kind lLab)));
  Ret (ThreadFinishLabel.getRetVal lLab).
Definition getStartValue (g : Graph) (bLab : Label) : Z :=
  if EventOps.isInitializer (getPos bLab) || (EventLabel.getThread bLab =? recoveryTID g) then 0
  else match payload bLab with PThreadStart _ i _ => ti_arg i | _ => 0 end.

(** The first non-atomic store at the address of the barrier. *)
Definition getBarrierInitValue (access : AAccess) : M Z :=
  ss ← onGraph (fun g => co g access);
  found ← onGraph (fun g => findM (fun w =>
    bLab ← getEventLabel g w;
    _ ← BUG_ON (negb (Isa.WriteLabel (kind bLab)));
    Ret ((MemAccessLabel.getAddr bLab =? acc_addr access) && EventLabel.isNotAtomic bLab)) ss);
  match found with [] => lift Bug | w :: _ => getWriteValue (Some w) access end.
(** [None]: the read has no value, which only a replay meets. *)
Definition getReadRetValue (rLab : Label) : M (option Z) :=
  if negb (ReadLabel.hasRf rLab) then replay ← inReplay; lift (BUG_ON (negb replay));; mret None
  else
    res ← getReadValue rLab;
    (if Isa.BWaitReadLabel (kind rLab) then
       init ← getBarrierInitValue (MemAccessLabel.getAccess rLab);
       if res =? init then mret tt
       else last ← onGraph (fun g => getLastThreadLabel g (EventLabel.getThread rLab));
            lift (BUG_ON (negb (EventLabel.isTerminator last)))
     else mret tt);;
    mret (Some res).
Definition getRecReadRetValue (rLab : Label) : M Z :=
  rf ← onGraph (fun g => getLastThreadStoreAtLoc g (getPos rLab) (MemAccessLabel.getAddr rLab));
  lift (BUG_ON (EventOps.isInitializer rf));;
  getWriteValue (Some rf) (MemAccessLabel.getAccess rLab).

(** Every part of a read is coherence-maximal. *)
Fixpoint allM {A} (f : A -> outcome bool) (l : list A) : outcome bool :=
  match l with
  | [] => Ret true
  | x :: l => b ← f x; if b : bool then allM f l else Ret false
  end.
Definition areCoMaximal (g : Graph) (writes : RfsT) : outcome bool :=
  allM (fun p => isCoMaximal g (snd p) (fst p)) writes.

(** ** Validity of accesses *)

Definition isUninitializedAccess (addr : Z) (pos : Event) : bool :=
  SAddr.isDynamic addr && EventOps.isInitializer pos.
Definition report {A} (pos : Event) (type : VerificationError) (ret : A) : M A := reportError pos type true;; mret ret.

Definition checkAccessValidity (lab : Label) : M VerificationError :=
  let addr := MemAccessLabel.getAddr lab in
  if negb (SAddr.isDynamic addr) && negb (Interp.isStaticallyAllocated staticAllocas addr)
     || SAddr.isDynamic addr && negb (bool_decide (is_Some (MemAccessLabel.getAlloc lab)))
  then report (getPos lab) VE_AccessNonMalloc VE_AccessNonMalloc
  else mret VE_OK.
(** A destroyed mutex has the value [-1], a destroyed barrier 0. *)
Definition reads_value (cls : EventLabelKind -> bool) (rLab : Label) (v : Z) : M bool :=
  if cls (kind rLab) then x ← getReadValue rLab; mret (SVal.eqb x (SVal.make v)) else mret false.
Definition checkInitializedMem_read (rLab : Label) : M VerificationError :=
  let pos := getPos rLab in
  destroyed ← reads_value Isa.LockCasReadLabel rLab (-1);
  if destroyed : bool then report pos VE_UninitializedMem VE_UninitializedMem
  else if Isa.BIncFaiReadLabel (kind rLab) && existsb (fun p => EventOps.isInitializer (fst p)) (ReadLabel.getRfs rLab)
  then report pos VE_UninitializedMem VE_UninitializedMem
  else
    destroyed ← reads_value Isa.BIncFaiReadLabel rLab 0;
    if destroyed : bool then report pos VE_AccessFreed VE_UninitializedMem
    else if existsb (fun p => isUninitializedAccess (acc_addr (snd p)) (fst p)) (ReadLabel.getRfs rLab)
    then report pos VE_UninitializedMem VE_UninitializedMem
    else mret VE_OK.
Definition checkInitializedMem_write (wLab : Label) : M VerificationError :=
  let pos := getPos wLab in
  locked ← (if Isa.UnlockWriteLabel (kind wLab)
            then onGraph (fun g => negb ∘ EventOps.isInitializer <$> getMatchingLock g pos) else mret true);
  if negb locked then report pos VE_InvalidUnlock VE_InvalidUnlock
  else if negb (Isa.BInitWriteLabel (kind wLab)) then mret VE_OK
  else if SVal.eqb (WriteLabel.getVal wLab) 0 then report pos VE_InvalidBInit VE_InvalidBInit
  else
    again ← onGraph (fun g =>
      ss ← co g (MemAccessLabel.getAccess wLab);
      ls ← deref_all g ss;
      Ret (existsb (fun sLab => negb (bool_decide (getPos sLab = pos))
                                && (MemAccessLabel.getAddr sLab =? MemAccessLabel.getAddr wLab)
                                && Isa.BInitWriteLabel (kind sLab)) ls));
    if again : bool then report pos VE_InvalidBInit VE_InvalidBInit else mret VE_OK.

Definition checkFinalAnnotations (wLab : Label) : M unit :=
  if negb conf_helper then mret tt
  else
    more ← onGraph (fun g => hasLocMoreThanOneStore g (MemAccessLabel.getAccess wLab));
    if more : bool then mret tt
    else
      ls ← onGraph (fun g => ss ← co g (MemAccessLabel.getAccess wLab); deref_all g ss);
      bad ← lift (if WriteLabel.isFinal wLab
                  then anyM (fun sLab => v ← getHbView wLab; Ret (negb (View.contains v (getPos sLab)))) ls
                  else Ret (existsb WriteLabel.isFinal ls));
      if bad : bool then reportError (getPos wLab) VE_Annotation true else mret tt.
Definition checkIPRValidity (rLab : Label) : M unit :=
  if negb (bool_decide (is_Some (ReadLabel.getAnnot rLab))) || negb conf_ipr then mret tt
  else
    ls ← onGraph (fun g => ss ← co g (MemAccessLabel.getAccess rLab); deref_all g ss);
    match List.find (fun wLab => WriteLabel.hasAttr wLab WriteAttr.WWRacy) ls with
    | Some wLab => reportError (getPos wLab) VE_WWRace true
    | None => mret tt
    end.

(** ** Liveness: threads blocked at a spin loop *)

(** From [j] down to 1, the labels given last first. *)
Fixpoint reads_maximal (g : Graph) (ls : list Label) : outcome bool :=
  match ls with
  | [] => Bug
  | lab :: ls =>
      _ ← BUG_ON (Isa.LoopBeginLabel (kind lab));
      if Isa.SpinStartLabel (kind lab) then Ret true
      else if Isa.ReadLabel (kind lab) then
        b ← areCoMaximal g (ReadLabel.getRfs lab); if b : bool then reads_maximal g ls else Ret false
      else reads_maximal g ls
  end.
Definition threadReadsMaximal (g : Graph) (tid : Z) : outcome bool :=
  bLab ← getLastThreadLabel g tid;
  _ ← BUG_ON (negb (Isa.BlockLabel (kind bLab)));
  lastLab ← Bounds.some (getPreviousLabel g (getPos bLab));
  let start := if Isa.SpinStartLabel (kind lastLab) then EventOps.prev (getPos lastLab) else getPos lastLab in
  ls ← po_before g (EventOps.next start) 1;
  reads_maximal g ls.
Fixpoint all_maximal (g : Graph) (last : Z) (tids : list Z) : outcome (option Z) :=
  match tids with
  | [] => Ret (Some last)
  | tid :: tids => b ← threadReadsMaximal g tid; if b : bool then all_maximal g tid tids else Ret None
  end.
Definition spin_blocked (g : Graph) : outcome (list Z) :=
  removeM (fun i => l ← getLastThreadLabel g i; Ret (negb (Isa.SpinloopBlockLabel (kind l))))
    (seqZ 0 (getNumThreads g)).
Definition checkLiveness : M unit :=
  halting ← isHalting;
  if halting : bool then mret tt
  else
    spinBlocked ← onGraph spin_blocked;
    match spinBlocked with
    | [] => mret tt
    | _ =>
        nonTermTID ← onGraph (fun g => all_maximal g 0 spinBlocked);
        match nonTermTID with
        | Some t => e ← onGraph (fun g => Ret (getLastThreadEvent g t)); reportError e VE_Liveness true
        | None => mret tt
        end
    end.

End Methods.
End Checks.
