(* ===== verification/Symmetry.v ===== *)
(** * Symmetry reduction (src/src/GenMCDriver.cpp): threads created with the same
    function and argument, and the check that only one order of two symmetric
    threads is explored. *)
From S2P Require Import Prelude Event SVal SAddr VSet SExpr Deps Views Labels LabelClasses Graph Iterators Bounds RAViews RARace RACoherence MemoryModel Driver Checks.
#[local] Open Scope Z_scope.

Module Symmetry.
Import ExecutionGraph GraphIterators EdgeLabels Coherence.

(** ** The symmetric predecessor and successor of a thread, -1 for none *)

Definition getSymmetricTid (l : Label) : Z := match payload l with PThreadStart _ _ s => s | _ => -1 end.
Definition getThreadInfo (l : Label) : outcome ThreadInfo :=
  match payload l with PThreadStart _ i _ => Ret i | _ => Undef end.
(** [getFirstThreadLabel(tid)], a cast of the label; undefined when there is none. *)
Definition first_label (g : Graph) (tid : Z) : outcome Label :=
  l ← getEventLabel g (getFirstThreadEvent tid);
  if Isa.ThreadStartLabel (kind l) then Ret l else Undef.
Definition getSymmPredTid (g : Graph) (tid : Z) : outcome Z := getSymmetricTid <$> first_label g tid.
Fixpoint first_symmetric (g : Graph) (symm : Z) (tids : list Z) : outcome Z :=
  match tids with
  | [] => Ret (-1)
  | i :: tids => s ← getSymmPredTid g i; if s =? symm then Ret i else first_symmetric g symm tids
  end.
Definition getSymmSuccTid (g : Graph) (tid : Z) : outcome Z :=
  first_symmetric g tid (seqZ (tid + 1) (getNumThreads g - (tid + 1))).
(** The chain of a loop [while (symm != -1)]. *)
Fixpoint chain (fuel : nat) (next : Z -> outcome Z) (tid : Z) : outcome (list Z) :=
  match fuel with
  | O => Undef
  | S fuel => symm ← next tid; if symm =? -1 then Ret [] else r ← chain fuel next symm; Ret (symm :: r)
  end.
Definition symm_preds (g : Graph) (tid : Z) : outcome (list Z) :=
  chain (S (Z.to_nat (getNumThreads g))) (getSymmPredTid g) tid.
Definition symm_succs (g : Graph) (tid : Z) : outcome (list Z) :=
  chain (S (Z.to_nat (getNumThreads g))) (getSymmSuccTid g) tid.

(** ** The common prefix of two threads *)

Definition from_thread (tid : Z) (p : Event * AAccess) : bool := thread (fst p) =? tid.
Fixpoint same_indices (a b : RfsT) : bool :=
  match a, b with
  | [], [] => true
  | p :: a, q :: b => (index (fst p) =? index (fst q)) && same_indices a b
  | _, _ => false
  end.
(** [pos] is an event of the graph or the next one of its thread.  The loop from
    [j]: the pairs of labels at [j], [j+1], .. up to the limit. *)
Fixpoint symm_prefix (tid tid' j limit : Z) (ps : list (Label * Label)) : Z :=
  match ps with
  | [] => limit
  | (labA, labB) :: ps =>
      let rest := symm_prefix tid tid' (j + 1) limit ps in
      if negb (bool_decide (kind labA = kind labB)) then j - 1
      else if Isa.ReadLabel (kind labA) then
        let rfsA := ReadLabel.getRfs labA in
        let rfsB := ReadLabel.getRfs labB in
        if forallb (from_thread tid) rfsA && forallb (from_thread tid') rfsB && same_indices rfsA rfsB then rest
        else if negb (bool_decide (rfsA = rfsB)) then j - 1 else rest
      else if Isa.WriteLabel (kind labA) && negb (WriteLabel.isLocal labA) then j - 1
      else rest
  end.
Definition calcLargestSymmPrefixBeforeSR (g : Graph) (tid : Z) (pos : Event) : Z :=
  if (tid <? 0) || (tid >=? getNumThreads g) then -1
  else
    let limit := Z.min (index pos) (getThreadSize g tid - 1) in
    let n := Z.to_nat limit in
    symm_prefix tid (thread pos) 0 limit
      (zip (take n (thread_labels g tid)) (take n (thread_labels g (thread pos)))).
Definition sharePrefixSR (g : Graph) (tid : Z) (pos : Event) : bool :=
  calcLargestSymmPrefixBeforeSR g tid pos =? index pos.

(** ** The order between two symmetric accesses *)

(** One of the stores, or a reader of it, is at [pos]. *)
Definition reaches (g : Graph) (pos : Event) (es : list Event) : outcome bool :=
  anyM (fun e => sLab ← getEventLabel g e;
                 Ret (bool_decide (getPos sLab = pos) || bool_decide (pos ∈ WriteLabel.readers sLab))) es.
Definition isEcoBefore (g : Graph) (lab : Label) (tid : Z) : outcome bool :=
  if negb (Isa.MemAccessLabel (kind lab)) then Ret false
  else
    let symmPos := mkEvent tid (EventLabel.getIndex lab) in
    co ← co_succs_of g lab;
    b ← reaches g symmPos co;
    if b : bool then Ret true else fr ← fr_succs_of g lab; reaches g symmPos fr.
Definition isEcoSymmetric (g : Graph) (lab : Label) (tid : Z) : outcome bool :=
  symmLab ← getEventLabel g (mkEvent tid (EventLabel.getIndex lab));
  if Isa.ReadLabel (kind lab) then
    if Isa.ReadLabel (kind symmLab) then Ret (bool_decide (ReadLabel.getRfs lab = ReadLabel.getRfs symmLab)) else Undef
  else
    _ ← BUG_ON (negb (Isa.WriteLabel (kind lab)));
    s ← co_imm_succ g (getPos lab);
    Ret (bool_decide (s = if Isa.WriteLabel (kind symmLab) then Some (getPos symmLab) else None)).

(** The label at the same index of the symmetric thread, when the threads agree
    up to it and the labels are of one kind. *)
Definition symmetric_label (g : Graph) (lab : Label) (symm : Z) : outcome (option Label) :=
  _ ← BUG_ON (symm =? -1);
  let pos := mkEvent symm (EventLabel.getIndex lab) in
  if negb (sharePrefixSR g symm (getPos lab)) || negb (containsPos g pos) then Ret None
  else symmLab ← getEventLabel g pos; Ret (if decide (kind symmLab = kind lab) then Some symmLab else None).
Definition isPredSymmetryOK1 (g : Graph) (lab : Label) (symm : Z) : outcome bool :=
  s ← symmetric_label g lab symm;
  match s with None => Ret true | Some _ => negb <$> isEcoBefore g lab symm end.
Definition isSuccSymmetryOK1 (g : Graph) (lab : Label) (symm : Z) : outcome bool :=
  s ← symmetric_label g lab symm;
  match s with None => Ret true | Some symmLab => negb <$> isEcoBefore g symmLab (EventLabel.getThread lab) end.
Definition isPredSymmetryOK (g : Graph) (lab : Label) : outcome bool :=
  preds ← symm_preds g (EventLabel.getThread lab); Checks.allM (isPredSymmetryOK1 g lab) preds.
Definition isSuccSymmetryOK (g : Graph) (lab : Label) : outcome bool :=
  succs ← symm_succs g (EventLabel.getThread lab); Checks.allM (isSuccSymmetryOK1 g lab) succs.
Definition isSymmetryOK (g : Graph) (lab : Label) : outcome bool :=
  b ← isPredSymmetryOK g lab; if b : bool then isSuccSymmetryOK g lab else Ret false.

(** ** Which thread a new thread is symmetric to *)

Definition isSymmetricToSR (g : Graph) (candidate : Z) (parent : Event) (info : ThreadInfo) : outcome bool :=
  first ← first_label g candidate;
  cInfo ← getThreadInfo first;
  if (ti_id cInfo =? ti_id info) || negb (ti_parentId cInfo =? ti_parentId info)
     || negb (ti_funId cInfo =? ti_funId info) || negb (ti_arg cInfo =? ti_arg info)
  then Ret false
  else
    let minI := Z.min (index parent) (index (getParentCreate first)) in
    let maxI := Z.max (index parent) (index (getParentCreate first)) in
    negb <$> anyM (fun j => l ← getEventLabel g (mkEvent (thread parent) j); Ret (Isa.MemAccessLabel (kind l)))
               (seqZ minI (maxI - minI)).
Fixpoint greatest_symmetric (g : Graph) (parent : Event) (info : ThreadInfo) (tids : list Z) : outcome Z :=
  match tids with
  | [] => Ret (-1)
  | i :: tids => b ← isSymmetricToSR g i parent info; if b : bool then Ret i else greatest_symmetric g parent info tids
  end.
Definition getSymmetricTidSR `{Config} (g : Graph) (tcLab : Label) (childInfo : ThreadInfo) : outcome Z :=
  if negb conf_symmetryReduction then Ret (-1)
  else if negb (ti_symmId childInfo =? -1) then Ret (ti_symmId childInfo)
  else greatest_symmetric g (getPos tcLab) childInfo (rev (seqZ 1 (ti_id childInfo - 1))).

(** ** Prefixes and reads-from options *)

Definition updatePrefixWithSymmetriesSR `{MemoryModel} (g : Graph) (lab : Label) : outcome Graph :=
  t ← getSymmPredTid g (EventLabel.getThread lab);
  if t =? -1 then Ret g
  else
    v ← getPrefixView g lab;
    let si := calcLargestSymmPrefixBeforeSR g t (getPos lab) in
    symmLab ← getEventLabel g (mkEvent t si);
    w ← getPrefixView g symmLab;
    v ← (if Isa.ReadLabel (kind symmLab)
         then mfold (fun v p => l ← getEventLabel g (fst p); w ← getPrefixView g l; Ret (View.update v w))
                (ReadLabel.getRfs symmLab) (View.update v w)
         else Ret (View.update v w));
    Ret (alter_label (EventLabel.setPrefixView (CView v)) (getPos lab) g).

(** The sizes compared are those of one label. *)
Definition filterSymmetricStoresSR `{Config} (g : Graph) (rLab : Label) (stores : list Event) : outcome (list Event) :=
  t ← getSymmPredTid g (EventLabel.getThread rLab);
  if t =? -1 then Ret stores
  else if negb (sharePrefixSR g t (getPos rLab)) then Ret stores
  else
    lab ← getEventLabel g (mkEvent t (EventLabel.getIndex rLab));
    if negb (Isa.ReadLabel (kind lab)) || negb (MemAccessLabel.getAddr lab =? MemAccessLabel.getAddr rLab)
       || negb (MemAccessLabel.getSize lab =? MemAccessLabel.getSize lab) then Ret stores
    else
      rmw ← isRMWLoad g lab;
      if negb rmw then Ret stores
      else
        _ ← BUG_ON conf_mixer;
        removeM (fun s => match ReadLabel.getRf lab with Some w => Ret (bool_decide (w = s)) | None => Undef end) stores.

End Symmetry.
