(* ===== verification/Schedule.v ===== *)
(** * Adding labels, the cache of value prefixes, blocking and scheduling
    (src/src/GenMCDriver.cpp). *)
From S2P Require Import Prelude Event SVal SAddr VSet SExpr Trie Deps Views Labels LabelClasses Graph Iterators Bounds Interp RARace RACoherence Execution MemoryModel Driver Checks Symmetry.
#[local] Open Scope Z_scope.

Module Schedule.
Import ExecutionGraph GraphIterators EdgeLabels Drv Checks Symmetry.
Section Methods.
Context `{P : Program} `{C : Config} `{MM : MemoryModel}.

(** ** Bounds and validity of an execution *)

Definition executionExceedsBound (strategy : BoundCalculationStrategy) : M bool :=
  estimating ← inEstimationMode;
  match conf_bound with
  | Some b => if estimating : bool then mret false
              else onGraph (fun g => Bounds.doesExecutionExceedBound conf_boundType g b strategy)
  | None => mret false
  end.
Definition fullExecutionExceedsBound : M bool := executionExceedsBound NonSlacked.
Definition partialExecutionExceedsBound : M bool := executionExceedsBound Slacked.
Definition isExecutionValid (pos : Event) : M bool :=
  lab ← labelOf pos;
  ok ← onGraph (fun g => isSymmetryOK g lab);
  if negb ok then mret false
  else
    ok ← onGraph (fun g => Ret (isConsistent g lab));
    if negb ok then mret false else negb <$> partialExecutionExceedsBound.

Definition isExecutionDrivenByGraph (lab : Label) : M bool :=
  g ← getGraph;
  let curr := getPos lab in
  if index curr <? getThreadSize g (thread curr)
  then l ← labelOf curr; mret (negb (Isa.EmptyLabel (kind l))) else mret false.

(** ** The cache: labels by the values read before them *)

(** The labels of the thread before [pos], in order. *)
Definition prefix_values (st : list Z * Event) (lab : Label) : M (list Z * Event) :=
  let push v := mret (fst st ++ [v], getPos lab) in
  if Isa.ReadLabel (kind lab) then
    v ← (if Isa.DskReadLabel (kind lab) then getDskReadValue lab else getReadValue lab); push v
  else if Isa.ThreadJoinLabel (kind lab) then v ← onGraph (fun g => getJoinValue g lab); push v
  else if Isa.ThreadStartLabel (kind lab) then v ← onGraph (fun g => Ret (getStartValue g lab)); push v
  else match payload lab with
       | POptional _ expanded => push (if expanded then 1 else 0)
       | _ => lift (BUG_ON (EventLabel.hasValue lab));; mret st
       end.
Definition extractValPrefix (pos : Event) : M (list Z * Event) :=
  ls ← onGraph (fun g => @rev Label <$> po_before g pos 0);
  foldMM prefix_values ls ([], EventOps.default).

(** The first hole after the start of the thread, or the next position. *)
Definition findNextLabelToAdd (g : Graph) (pos : Event) : Event :=
  match List.find (fun l => Isa.EmptyLabel (kind l)) (po_succs g (mkEvent (thread pos) 0)) with
  | Some l => getPos l
  | None => EventOps.next (getLastThreadEvent g (thread pos))
  end.

(** [seenPrefixes[thread]] creates an empty trie. *)
Definition trie_of (thread : Z) (s : list (Z * ValueTrie)) : ValueTrie :=
  match List.find (fun p => fst p =? thread) s with Some p => snd p | None => Trie.make [] end.
Fixpoint set_trie (thread : Z) (t : ValueTrie) (s : list (Z * ValueTrie)) : list (Z * ValueTrie) :=
  match s with
  | [] => [(thread, t)]
  | p :: s => if fst p =? thread then (thread, t) :: s else p :: set_trie thread t s
  end.
Definition retrieveCachedSuccessors (thread : Z) (seq : list Z) : M (option (list Label)) :=
  s ← gets seenPrefixes; lift (Trie.lookup SVal.ult (trie_of thread s) seq).
Definition last_index (data : option (list Label)) (none : Z) : Z :=
  match data ≫= last with Some l => EventLabel.getIndex l | None => none end.
Definition cached_copy (lab l : Label) : Label :=
  reset (clone_label (if EventLabel.getIndex l =? EventLabel.getIndex lab then lab else l)).
Definition cacheEventLabel (lab : Label) : M unit :=
  estimating ← inEstimationMode;
  if negb conf_instructionCaching || estimating then mret tt
  else
    let thr := EventLabel.getThread lab in
    let toIdx := EventLabel.getIndex lab in
    p ← extractValPrefix (getPos lab);
    data ← retrieveCachedSuccessors thr (fst p);
    let known := match data with Some (_ :: _) => true | _ => false end in
    let fromIdx := last_index data (index (snd p)) in
    if known && (fromIdx >=? toIdx) then mret tt
    else
      ls ← onGraph (fun g => deref_all g (map (mkEvent thr) (seqZ (fromIdx + 1) (toIdx - 1 - fromIdx))));
      let labs := map (cached_copy lab) (ls ++ if fromIdx <? toIdx then [lab] else []) in
      s ← gets seenPrefixes;
      match data with
      | None =>
          r ← lift (Trie.addSeq SVal.ult [] (trie_of thr s) (fst p) labs);
          lift (BUG_ON (negb (fst r)));;
          modify (set_seenPrefixes (set_trie thr (snd r) s))
      | Some data =>
          lift (BUG_ON (negb known && (index (snd p) >=? toIdx)));;
          lift (BUG_ON (known && negb (fromIdx + 1 =? toIdx)));;
          r ← lift (Trie.setSeqData SVal.ult (trie_of thr s) (fst p) (data ++ labs));
          modify (set_seenPrefixes (set_trie thr (snd r) s))
      end.

(** ** Adding a label *)

Definition findAllocatingLabel (g : Graph) (addr : Z) : option Event :=
  getPos <$> List.find (fun l => Isa.MallocLabel (kind l) && MallocLabel.contains l addr) (labels g).
Definition updateLabelViews (pos : Event) : M unit :=
  lab ← labelOf pos;
  inGraph (fun g => updateMMViews g lab);;
  if negb conf_symmetryReduction then mret tt
  else lab ← labelOf pos; inGraph (fun g => updatePrefixWithSymmetriesSR g lab).
(** The label is added under its own position, which stands for the returned
    pointer. *)
Definition addLabelToGraph (lab : Label) : M unit :=
  (if EventLabel.getIndex lab >? 0 then cacheEventLabel lab else mret tt);;
  inGraph (fun g => ExecutionGraph.addLabelToGraph g lab);;
  updateLabelViews (getPos lab);;
  (if Isa.MemAccessLabel (kind lab)
   then inGraph (fun g => addAlloc g (findAllocatingLabel g (MemAccessLabel.getAddr lab)) (getPos lab)) else mret tt);;
  modify (set_lastAdded (getPos lab)).

(** ** Blocking threads *)

Definition blockThread (bLab : Label) : M unit :=
  let t := EventLabel.getThread bLab in
  inGraph (fun g => if decide (getPos bLab = getLastThreadEvent g t) then removeLast g t else Ret g);;
  inGraph (fun g => ExecutionGraph.addLabelToGraph g bLab).
Definition unblockThread (pos : Event) : M unit :=
  bLab ← onGraph (fun g => getLastThreadLabel g (thread pos));
  lift (BUG_ON (negb (Isa.BlockLabel (kind bLab))));;
  inGraph (fun g => removeLast g (thread pos)).

(** The last access before [start] that other threads see; the labels are given
    last first, [finals] are the reads from final writes met so far. *)
Definition rf_write_sat (g : Graph) (cond : Label -> bool) (p : Event * AAccess) : bool :=
  label_sat g (fun l => Isa.WriteLabel (kind l) && cond l) (fst p).
Definition same_place (a b : Label) : bool :=
  (MemAccessLabel.getAddr a =? MemAccessLabel.getAddr b) && (MemAccessLabel.getSize a =? MemAccessLabel.getSize b).
Fixpoint visible_access (g : Graph) (finals ls : list Label) : option Label :=
  match ls with
  | [] => None
  | lab :: ls =>
      if Isa.ReadLabel (kind lab) then
        if conf_helper && isConfirming lab then visible_access g finals ls
        else if negb (ReadLabel.hasRf lab) then Some lab
        else if forallb (rf_write_sat g WriteLabel.isLocal) (ReadLabel.getRfs lab) then visible_access g finals ls
        else if forallb (rf_write_sat g WriteLabel.isFinal) (ReadLabel.getRfs lab)
        then visible_access g (finals ++ [lab]) ls
        else if existsb (fun l => same_place l lab) finals then visible_access g finals ls
        else Some lab
      else if Isa.WriteLabel (kind lab) && negb (WriteLabel.isFinal lab) && negb (WriteLabel.isLocal lab)
      then Some lab
      else visible_access g finals ls
  end.
Definition getPreviousVisibleAccessLabel (g : Graph) (start : Event) : outcome (option Label) :=
  ls ← po_before g start 1; Ret (visible_access g [] ls).
Definition mootExecutionIfFullyBlocked (pos : Event) : M unit :=
  lab ← onGraph (fun g => getPreviousVisibleAccessLabel g pos);
  match lab with
  | Some l => if Isa.ReadLabel (kind l) && (negb (EventLabel.isRevisitable l) || negb (MemAccessLabel.wasAddedMax l))
              then moot else mret tt
  | None => mret tt
  end.
Definition blockThreadTryMoot (bLab : Label) : M unit :=
  blockThread bLab;; mootExecutionIfFullyBlocked (getPos bLab).

(** ** Picking the next thread *)

Definition isSchedulable (thread : Z) : M bool :=
  thr ← onEE (fun e => Interp.getThrById e thread);
  lab ← onGraph (fun g => getLastThreadLabel g thread);
  mret (negb (bool_decide (length (Interp.ECStack thr) = O)) && negb (EventLabel.isTerminator lab)).
Definition scheduleThread (tid : Z) : M unit := inEE (fun e => Ret (Interp.scheduleThread tid e)).
Definition all_tids : M (list Z) := g ← getGraph; mret (seqZ 0 (getNumThreads g)).
(** Schedules the first thread of a list that satisfies [cond], as [pick] says. *)
Fixpoint schedule_first (cond : Z -> M bool) (pick : Z -> M Z) (ts : list Z) : M bool :=
  match ts with
  | [] => mret false
  | i :: ts => b ← cond i;
               if b : bool then t ← pick i; scheduleThread t;; mret true else schedule_first cond pick ts
  end.

Definition schedulePrioritized : M bool :=
  prios ← gets threadPrios;
  match prios with
  | [] => mret false
  | _ => lift (BUG_ON (bool_decide (is_Some conf_bound)));; schedule_first isSchedulable mret (map thread prios)
  end.
Definition scheduleNextLTR : M bool := ts ← all_tids; schedule_first isSchedulable mret ts.

(** The next instruction of the thread: of the frame at the top of its stack. *)
Definition isNextThreadInstLoad (tid : Z) : M bool :=
  thr ← onEE (fun e => Interp.getThrById e tid);
  lift (match last (Interp.ECStack thr) with Some f => Ret (nextIsLoad f) | None => Undef end).
(** The graph has a label at the next position of the thread. *)
Definition follows_graph (i : Z) : M bool :=
  b ← isSchedulable i;
  if negb b then mret false
  else
    thr ← onEE (fun e => Interp.getThrById e i);
    g ← getGraph; mret (containsPos g (mkEvent i (Interp.globalInstructions thr + 1))).
(** The earliest schedulable thread of the symmetric chain: the last one met. *)
Definition getFirstSchedulableSymmetric (tid : Z) : M Z :=
  if negb conf_symmetryReduction then mret tid
  else
    preds ← onGraph (fun g => symm_preds g tid);
    foldMM (fun firstSched symm => b ← isSchedulable symm; mret (if b : bool then symm else firstSched)) preds tid.
Definition schedulable_write (i : Z) : M bool :=
  b ← isSchedulable i; if negb b then mret false else negb <$> isNextThreadInstLoad i.
Definition scheduleNextWF : M bool :=
  ts ← all_tids;
  done ← schedule_first follows_graph mret ts;
  if done : bool then mret true
  else
    done ← schedule_first schedulable_write getFirstSchedulableSymmetric ts;
    if done : bool then mret true else schedule_first isSchedulable getFirstSchedulableSymmetric ts.

Definition scheduleNextWFR : M bool :=
  ts ← all_tids;
  done ← schedule_first follows_graph mret ts;
  if done : bool then mret true
  else
    ready ← filterMM isSchedulable ts;
    writes ← filterMM (fun i => negb <$> isNextThreadInstLoad i) ready;
    nonwrites ← filterMM isNextThreadInstLoad ready;
    let selection := match writes with [] => nonwrites | _ => writes end in
    match selection with
    | [] => mret false
    | _ =>
        r ← gets rng;
        let '(k, r) := uniform 0 (Z.of_nat (length selection) - 1) r in
        modify (fun d => set_rngs r (estRng d) d);;
        candidate ← lift (vec_get selection k);
        t ← getFirstSchedulableSymmetric candidate; scheduleThread t;; mret true
    end.
Definition scheduleNextRandom : M bool :=
  ts ← all_tids;
  let n := Z.of_nat (length ts) in
  r ← gets rng;
  let '(random, r) := uniform 0 n r in
  modify (fun d => set_rngs r (estRng d) d);;
  schedule_first isSchedulable getFirstSchedulableSymmetric (map (fun j => (j + random) mod n) ts).

Definition scheduleAtomicity : M bool :=
  e ← gets lastAdded;
  lastLab ← labelOf e;
  if Isa.FaiReadLabel (kind lastLab) then scheduleThread (thread e);; mret true
  else if Isa.CasReadLabel (kind lastLab) then
    v ← getReadValue lastLab;
    if bool_decide (RmwReadLabel.getExpected lastLab = Some v) then scheduleThread (thread e);; mret true
    else mret false
  else mret false.
Definition scheduleNormal : M bool :=
  estimating ← inEstimationMode;
  if estimating : bool then scheduleNextWFR
  else match conf_schedulePolicy with
       | ltr => scheduleNextLTR
       | wf => scheduleNextWF
       | wfr => scheduleNextWFR
       | arbitrary => scheduleNextRandom
       end.

(** A read that was blocked when it was added is tried again. *)
Fixpoint reschedule_first (ts : list Z) : M bool :=
  match ts with
  | [] => mret false
  | i :: ts =>
      lab ← onGraph (fun g => getLastThreadLabel g i);
      if negb (Isa.ReadOptBlockLabel (kind lab)) then reschedule_first ts
      else
        lift (BUG_ON (bool_decide (is_Some conf_bound)));;
        setRescheduledRead (getPos lab);;
        unblockThread (getPos lab);;
        scheduleThread i;; mret true
  end.
Definition rescheduleReads : M bool := ts ← all_tids; reschedule_first ts.

(** [a || b] *)
Definition or_try (a b : M bool) : M bool := r ← a; if r : bool then mret true else b.
Definition scheduleNext : M bool :=
  m ← isMoot;
  h ← isHalting;
  if (m : bool) || (h : bool) then mret false
  else or_try scheduleAtomicity (or_try schedulePrioritized (or_try scheduleNormal rescheduleReads)).

(** ** Consistency of a new access *)

Definition checkAtomicity (wLab : Label) : M bool :=
  b ← onGraph (fun g => violatesAtomicity g wLab);
  if b : bool then moot;; mret false else mret true.
Definition ensureConsistentStore (pos : Event) : M bool :=
  wLab ← labelOf pos;
  ok ← checkAtomicity wLab;
  ok ← (if ok : bool then isExecutionValid pos else mret false);
  if negb ok then moot;; mret false else mret true.
(** From the last option back; the options that are left. *)
Fixpoint try_rfs (pos : Event) (rev_rfs : list Event) : M (list Event) :=
  match rev_rfs with
  | [] => mret []
  | w :: ws =>
      inGraph (fun g => changeRf g pos w);;
      ok ← isExecutionValid pos;
      if ok : bool then mret rev_rfs else try_rfs pos ws
  end.
Definition ensureConsistentRf (pos : Event) (rfs : list Event) : M (bool * list Event) :=
  left ← try_rfs pos (rev rfs);
  match left with
  | _ :: _ => mret (true, rev left)
  | [] => lift (BUG_ON (negb (bool_decide (is_Some conf_bound))));; moot;; mret (false, [])
  end.
Definition filterInvalidRecRfs (pos : Event) (rfs : list Event) : M (list Event) :=
  rfs ← filterMM (fun r => inGraph (fun g => changeRf g pos r);;
                           rLab ← labelOf pos; onGraph (fun g => Ret (isRecoveryValid g rLab))) rfs;
  match rfs with
  | [] => lift Bug
  | r :: _ => inGraph (fun g => changeRf g pos r);; mret rfs
  end.

End Methods.
End Schedule.
