(* ===== verification/Permutations.v ===== *)
(** * Enumeration of permutations (src/src/CombinatoricUtils.hpp).

    A range is the list of its elements.  A call of the user's function sees the
    elements at that moment; the enumeration is the sequence of the contents it
    is called on, together with the contents that are left at the end.  The
    driver permutes whole ranges ([mid == last]), and its function returns false
    except to stop, which ends the sequence early. *)
From S2P Require Import Prelude.
From Stdlib Require Import Permutation.

Module Permutations.
Section Permute.
Context {A : Type}.

(** [swap(first[i], first[j])] *)
Definition swap (i j : nat) (s : list A) : list A :=
  match s !! i, s !! j with Some a, Some b => <[i := b]> (<[j := a]> s) | _, _ => s end.

(** The contents the function was called on, and the range. *)
Definition Run : Type := (list (list A) * list A)%type.
Definition call (r : Run) : Run := (fst r ++ [snd r], snd r).
Definition swaps (i j : nat) (r : Run) : Run := (fst r, swap i j (snd r)).

(** The calls that [permute_] and [permute] make on three elements. *)
Definition three (r : Run) : Run :=
  let r := call r in
  let r := call (swaps 1 2 r) in
  let r := call (swaps 1 2 (swaps 0 2 r)) in
  let r := call (swaps 1 2 r) in
  let r := call (swaps 1 2 (swaps 0 1 r)) in
  call (swaps 1 2 r).

(** The calls on the range from [fp1] on, the first element being in front of
    every contents. *)
Definition under (a : A) (r : Run) : Run := (map (cons a) (fst r), a :: snd r).
Definition after (v : list (list A)) (r : Run) : Run := (v ++ fst r, snd r).
(** [reverse(fp1, last1)] *)
Definition reverse_tail (s : list A) : list A := match s with [] => [] | a :: s => a :: rev s end.

(** The loop over [p], from position [p] for [n] rounds, and the call after it;
    [rec] permutes the range from [fp1] on. *)
Fixpoint permute_loop (rec : list A -> Run) (n p : nat) (s : list A) : Run :=
  match s with
  | [] => ([], [])
  | a :: t =>
      let r := under a (rec t) in
      match n with
      | O => r
      | S n => after (fst r) (permute_loop rec n (S p) (swap 0 p (reverse_tail (snd r))))
      end
  end.
(** [d1] is the length of the range. *)
Fixpoint permute_ (d1 : nat) (s : list A) : Run :=
  match d1 with
  | 0%nat | 1%nat => call ([], s)
  | 2%nat => call (swaps 0 1 (call ([], s)))
  | 3%nat => three ([], s)
  | S d => permute_loop (permute_ d) d 1 s
  end.
Definition permute (s : list A) : Run :=
  match length s with
  | 0%nat | 1%nat => call ([], s)
  | 2%nat => swaps 0 1 (call (swaps 0 1 (call ([], s))))
  | 3%nat => swaps 0 2 (three ([], s))
  | S d => let r := permute_loop (permute_ d) d 1 s in (fst r, rev (snd r))
  end.
(** [for_each_permutation(first, last, last, f)] *)
Definition for_each_permutation (s : list A) : Run := permute s.

(** ** The order of the calls: the first element, then the permutations of the rest *)

(** The positions to take the first element from: what is before and after. *)
Fixpoint picks (before s : list A) : list (A * list A) :=
  match s with
  | [] => []
  | a :: s => (a, before ++ s) :: picks (before ++ [a]) s
  end.
Fixpoint orders (d : nat) (s : list A) : list (list A) :=
  match d with
  | O => [[]]
  | S d => flat_map (fun p => map (cons (fst p)) (orders d (snd p))) (picks [] s)
  end.

(** *** The calls follow that order *)

Lemma swap_step before a b s :
  swap 0 (S (length before)) (a :: before ++ b :: s) = b :: (before ++ a :: s).
Proof.
  unfold swap. simpl. rewrite list_lookup_middle by done. simpl. f_equal.
  rewrite insert_app_r_alt by lia. by rewrite Nat.sub_diag.
Qed.

Lemma permute_loop_eq (rec : list A -> Run) d s : forall before a,
  (forall t, length t = d -> rec t = (orders d t, rev t)) ->
  (length before + length s)%nat = d ->
  permute_loop rec (length s) (S (length before)) (a :: before ++ s) =
  (flat_map (fun p => map (cons (fst p)) (orders d (snd p))) (picks before (a :: s)), rev (before ++ a :: s)).
Proof.
  induction s as [|b s IH]; intros before a Hrec Hd; simpl in Hd.
  - cbn. rewrite !app_nil_r, Hrec, rev_app_distr by lia. done.
  - specialize (IH (before ++ [a]) b Hrec). rewrite length_app in IH. simpl length in *.
    replace (length before + 1)%nat with (S (length before)) in IH by lia.
    rewrite <- !app_assoc in IH. simpl in IH.
    simpl permute_loop. rewrite Hrec by (rewrite length_app; simpl; lia). simpl snd. simpl fst.
    unfold reverse_tail. rewrite rev_involutive, swap_step, IH by lia. unfold after. cbn. f_equal.
Qed.

Lemma permute_eq_rev d s : length s = d -> permute_ d s = (orders d s, rev s).
Proof.
  revert s. induction d as [|d IH]; intros s Hs; [by destruct s|].
  destruct d as [|[|[|d]]]; [by destruct s as [|? []]|by destruct s as [|? [|? []]]
    |by destruct s as [|? [|? [|? []]]]|].
  destruct s as [|a s]; [done|]. injection Hs as Hs.
  change (permute_loop (permute_ (3 + d)) (3 + d) 1 (a :: s) = (orders (4 + d) (a :: s), rev (a :: s))).
  rewrite <- Hs at 2. apply (permute_loop_eq _ (3 + d) s []); [exact IH|exact Hs].
Qed.

Lemma for_each_permutation_eq s : for_each_permutation s = (orders (length s) s, s).
Proof.
  unfold for_each_permutation, permute.
  destruct s as [|a [|b [|c [|e s]]]]; try reflexivity.
  set (t := b :: c :: e :: s).
  pose proof (permute_loop_eq (permute_ (length t)) (length t) t [] a (permute_eq_rev _) eq_refl) as E.
  change ((let r := permute_loop (permute_ (length t)) (length t) 1 (a :: t) in (fst r, rev (snd r))) =
          (orders (length (a :: t)) (a :: t), a :: t)).
  cbv zeta. change (length (@nil A)) with O in E. change ([] ++ t) with t in E.
  rewrite E. cbn [fst snd]. by rewrite rev_involutive.
Qed.

(** *** The order has every permutation once *)

Lemma picks_spec s : forall before a r,
  (a, r) ∈ picks before s <-> exists l1 l2, s = l1 ++ a :: l2 /\ r = before ++ l1 ++ l2.
Proof.
  induction s as [|b s IH]; intros before a r; simpl.
  - split; [by intros ?%elem_of_nil|]. intros (l1 & l2 & E & _). by destruct l1.
  - rewrite elem_of_cons, IH. split.
    + intros [[= -> ->]|(l1 & l2 & -> & ->)]; [by exists [], s|].
      exists (b :: l1), l2. by rewrite <- app_assoc.
    + intros ([|x l1] & l2 & [= -> ->] & ->); [by left|right].
      exists l1, l2. by rewrite <- app_assoc.
Qed.

Lemma orders_spec d s t : length s = d -> t ∈ orders d s <-> Permutation t s.
Proof.
  revert s t. induction d as [|d IH]; intros s t Hs; simpl.
  - destruct s; [|done]. rewrite list_elem_of_singleton. split; [by intros ->|].
    intros H. by apply Permutation_nil, Permutation_sym.
  - rewrite list_elem_of_In, in_flat_map. split.
    + intros ([a r] & Hp & Ht). apply list_elem_of_In, picks_spec in Hp as (l1 & l2 & -> & ->).
      rewrite length_app in Hs. simpl in Hs.
      apply in_map_iff in Ht as (t' & <- & Ht). apply list_elem_of_In, IH in Ht; [|simpl; rewrite length_app; lia].
      simpl in *. rewrite Ht. apply Permutation_middle.
    + intros Ht. destruct t as [|a t]; [apply Permutation_length in Ht; simpl in Ht; lia|].
      destruct (in_split a s) as (l1 & l2 & ->); [apply (Permutation_in _ Ht); by left|].
      exists (a, l1 ++ l2). split; [apply list_elem_of_In, picks_spec; eauto|].
      apply in_map, list_elem_of_In, IH; simpl; [rewrite !length_app in *; simpl in *; lia|].
      eapply Permutation_cons_app_inv, Ht.
Qed.

Lemma picks_heads s before : map fst (picks before s) = s.
Proof. revert before. induction s as [|a s IH]; intros before; simpl; [done|]. by rewrite IH. Qed.

Lemma orders_NoDup d s : length s = d -> NoDup s -> NoDup (orders d s).
Proof.
  revert s. induction d as [|d IH]; intros s Hs Hn; simpl; [apply NoDup_singleton|].
  assert (NoDup (map fst (picks [] s))) as Hh by (by rewrite picks_heads).
  assert (forall p, p ∈ picks [] s -> NoDup (orders d (snd p))) as Hr.
  { intros [a r] (l1 & l2 & -> & ->)%picks_spec. apply IH.
    - simpl. rewrite length_app in *. simpl in *. lia.
    - simpl. revert Hn. rewrite <- Permutation_middle. by intros [_ ?]%NoDup_cons. }
  clear IH Hs Hn. induction (picks [] s) as [|[a r] ps IH]; simpl in *; [constructor|].
  apply NoDup_cons in Hh as [Ha Hh]. apply NoDup_app. split_and!.
  - apply (NoDup_fmap_2 (cons a)), (Hr (a, r)); left.
  - intros t Ht Ht'. apply list_elem_of_In, in_map_iff in Ht as (? & <- & _).
    apply list_elem_of_In, in_flat_map in Ht' as ([b r'] & Hb & Ht').
    apply in_map_iff in Ht' as (? & [= -> _] & _).
    apply Ha, list_elem_of_In, (in_map fst _ _ Hb).
  - apply IH; [done|]. intros p Hp. apply Hr. by right.
Qed.

Lemma length_orders d s : length s = d -> length (orders d s) = fact d.
Proof.
  revert s. induction d as [|d IH]; intros s Hs; [done|].
  change (fact (S d)) with (S d * fact d)%nat. simpl orders.
  assert (length (picks [] s) = S d) as Hl by (rewrite <- (length_map fst), picks_heads; done).
  assert (forall p, p ∈ picks [] s -> length (orders d (snd p)) = fact d) as Hr.
  { intros [a r] (l1 & l2 & -> & ->)%picks_spec. apply IH. simpl. rewrite length_app in *. simpl in *. lia. }
  rewrite <- Hl. clear -Hr. induction (picks [] s) as [|p ps IHp]; [done|].
  simpl. rewrite length_app, length_map, Hr, IHp; [done| |left].
  intros q Hq. apply Hr. by right.
Qed.

End Permute.

(** ** The enumeration *)

(** Property C28.  [for_each_permutation] calls its function on every permutation of
    the range, [n!] times, on no contents twice when the elements are distinct,
    and leaves the range as it was. *)
Theorem for_each_permutation_enumerates {A} (s : list A) :
  (forall t, t ∈ fst (for_each_permutation s) <-> Permutation t s) /\
  length (fst (for_each_permutation s)) = fact (length s) /\
  (NoDup s -> NoDup (fst (for_each_permutation s))) /\
  snd (for_each_permutation s) = s.
Proof.
  rewrite for_each_permutation_eq. split_and!; cbn [fst snd].
  - intros t. by apply orders_spec.
  - by apply length_orders.
  - by apply orders_NoDup.
  - done.
Qed.

Lemma for_each_permutation_enumerates_witness :
  NoDup [1; 2; 3; 4; 5] /\ NoDup (fst (for_each_permutation [1; 2; 3; 4; 5])) /\
  length (fst (for_each_permutation [1; 2; 3; 4; 5])) = 120%nat.
Proof.
  assert (NoDup [1; 2; 3; 4; 5]) as Hn by (apply (bool_decide_unpack _); vm_compute; exact I).
  destruct (for_each_permutation_enumerates [1; 2; 3; 4; 5]) as (_ & Hl & Hd & _).
  split; [exact Hn|]. split; [exact (Hd Hn)|]. rewrite Hl. reflexivity.
Defined.

End Permutations.
