(* ===== verification/RfOptions.v ===== *)
(** * What a read may read from (src/src/GenMCDriver.cpp): the parts of an access
    read from each store, and the sets of stores a revisit may keep. *)
From S2P Require Import Prelude Event SVal SAddr VSet SExpr Deps Views Labels LabelClasses Graph Iterators RAViews RARace RACoherence MemoryModel.
#[local] Open Scope Z_scope.

Module RfOptions.
Import ExecutionGraph Coherence.

(** ** Reads-from options *)

Section Enumerate.
Context `{MM : MemoryModel}.

(** The part of [remaining] that the store covers; the initializer (the null
    label) covers all of it. *)
Definition write_at (g : Graph) (store : Event) : option Label :=
  match label_at g store with Some l => if Isa.WriteLabel (kind l) then Some l else None | None => None end.
Definition store_overlap (g : Graph) (store : Event) (remaining : list Z) : list Z :=
  match write_at g store with
  | Some wLab => AccessOps.getOverlap (MemAccessLabel.getAccess wLab) remaining
  | None => remaining
  end.
(** Some coherence-successor of the store, in the access, is read or written
    before the read. *)
Definition overwritten (g : Graph) (rLab : Label) (store : Event) (a : AAccess) : outcome bool :=
  succs ← (if write_at g store then co_succs g store a else co g a);
  anyM (fun succ => MemoryModel.isWriteRfBefore g succ (getPos rLab) a) succs.

(** [all_of] over the accesses, each pushed to the current option. *)
Fixpoint push_parts (g : Graph) (rLab : Label) (store : Event) (accs : list AAccess) (current : RfsT) :
    outcome (option RfsT) :=
  match accs with
  | [] => Ret (Some current)
  | a :: accs =>
      b ← overwritten g rLab store a;
      if b : bool then Ret None else push_parts g rLab store accs (current ++ [(store, a)])
  end.
(** The stores are given last first; the options are in the order they are
    pushed.  [std::set] of events: a list without the erased event. *)
Fixpoint enumerateRfHelper (g : Graph) (word : Z) (rev_stores : list Event) (current : RfsT)
    (remaining : list Z) (rLab : Label) (mustUse : list Event) : outcome (list RfsT) :=
  match remaining, rev_stores with
  | [], _ => Ret (match mustUse with [] => [current] | _ => [] end)
  | _, [] => Ret []
  | _, store :: rest =>
      let overlap := store_overlap g store remaining in
      reading ← (match overlap with
                 | [] => Ret []
                 | _ =>
                     accs ← AccessOps.getAccesses word overlap Unsigned;
                     o ← push_parts g rLab store accs current;
                     match o with
                     | None => Ret []
                     | Some newCurrent =>
                         enumerateRfHelper g word rest newCurrent (AccessOps.subtract remaining overlap) rLab
                           (List.filter (fun e => negb (bool_decide (e = store))) mustUse)
                     end
                 end);
      skipping ← enumerateRfHelper g word rest current remaining rLab mustUse;
      Ret (reading ++ skipping)
  end.
Definition enumerateRfOptions (g : Graph) (stores : list Event) (access : AAccess) (rLab : Label)
    (mustUse : list Event) : outcome (list RfsT) :=
  options ← enumerateRfHelper g (SAddr.align (acc_addr access)) (rev stores) [] (AccessOps.WordFragment access)
              rLab mustUse;
  Ret (rev options).
End Enumerate.

(** ** Sets of stores to keep *)

Fixpoint enumerateSubsetHelper (rev_stores current : list Event) (view : View.t) : list (list Event) :=
  match rev_stores with
  | [] => [rev current]
  | store :: rest =>
      enumerateSubsetHelper rest current view ++
      (if View.contains view store then []
       else enumerateSubsetHelper rest (current ++ [store]) (View.setMax view store))
  end.

End RfOptions.
