(* ===== verification/RfOptionsFacts.v ===== *)
(** * Every option of [enumerateRfOptions] assigns each byte of the access once
    (src/src/GenMCDriver.cpp). *)
From S2P Require Import Prelude Event SVal SAddr VSet SExpr Deps Views Labels LabelClasses Graph GraphBase GraphRf Iterators RAViews RAExact RARace RACoherence RACoherenceFacts MemoryModel RfOptions.
#[local] Open Scope Z_scope.

Module RfFacts.
Import ExecutionGraph Coherence RfOptions AccessOps.

(** ** Fragments *)

Lemma set_insert_elem x s y : y ∈ set_insert x s <-> y = x \/ y ∈ s.
Proof.
  induction s as [|z s IH]; simpl; [set_solver|].
  destruct (Z.ltb_spec x z); [set_solver|]. destruct (Z.ltb_spec z x); [set_solver|].
  assert (x = z) as -> by lia. set_solver.
Qed.
Lemma set_insert_above x s :
  Forall (fun y => y < x) s -> set_insert x s = s ++ [x].
Proof.
  induction 1 as [|z s Hz Hs IH]; simpl; [done|].
  destruct (Z.ltb_spec x z); [lia|]. destruct (Z.ltb_spec z x); [|lia]. by rewrite IH.
Qed.
Lemma WordFragment_range a :
  WordFragment a = range (SAddr.getByte (acc_addr a)) (acc_size a).
Proof.
  unfold WordFragment. set (b := SAddr.getByte _).
  assert (forall n, foldl (fun s i => set_insert (b + Z.of_nat i) s) [] (seq 0 n) = range b (Z.of_nat n)) as Hn.
  { induction n as [|n IH]; [done|]. rewrite seq_S, foldl_app, IH. cbn [foldl].
    rewrite set_insert_above.
    - rewrite Nat2Z.inj_succ, <- Z.add_1_r, range_snoc by lia. done.
    - apply Forall_forall. intros y Hy. apply elem_of_seqZ in Hy. simpl. lia. }
  rewrite Hn. unfold range. destruct (Z.le_gt_cases 0 (acc_size a)) as [Hs|Hs]; [by rewrite Z2Nat.id|].
  rewrite (seqZ_nil _ (acc_size a)) by lia. rewrite seqZ_nil by lia. done.
Qed.
Lemma range_sorted b n : StronglySorted Z.lt (range b n).
Proof.
  unfold range, seqZ. generalize (Z.to_nat n) as k. intros k. generalize 0%nat as i.
  induction k as [|k IH]; intros i; simpl; constructor; [apply IH|].
  apply Forall_forall. intros y (j & -> & Hj)%list_elem_of_fmap. apply elem_of_seq in Hj. lia.
Qed.
Lemma filter_sorted (P : Z -> Prop) `{forall x, Decision (P x)} (l : list Z) :
  StronglySorted Z.lt l -> StronglySorted Z.lt (filter P l).
Proof.
  induction 1 as [|x l Hs IH Hx]; [constructor|]. rewrite filter_cons. case_decide; [|done].
  constructor; [done|]. rewrite Forall_forall in *. intros y [_ Hy]%list_elem_of_filter. by apply Hx.
Qed.
Lemma increasing_NoDup (l : list Z) : StronglySorted Z.lt l -> NoDup l.
Proof.
  induction 1 as [|x l Hs IH Hx]; constructor; [|done].
  intros Hin. rewrite Forall_forall in Hx. specialize (Hx _ Hin). lia.
Qed.
(** What is read and what remains make up the fragment. *)
Lemma overlap_subtract (f o : list Z) :
  NoDup f -> NoDup o -> o ⊆ f -> Permutation (o ++ subtract f o) f.
Proof.
  intros Hf Ho Hs. unfold subtract. apply NoDup_Permutation; [|done|].
  - apply NoDup_app. split_and!; [done| |by apply NoDup_filter].
    intros x Hx [Hn _]%list_elem_of_filter. done.
  - intros x. rewrite elem_of_app, list_elem_of_filter.
    split; [intros [Hx|[_ Hx]]; [by apply Hs|done]|]. intros Hx. destruct (decide (x ∈ o)); auto.
Qed.

(** ** Options *)

Section Options.
Context `{MM : MemoryModel} (g : Graph) (word : Z) (rLab : Label).
Hypothesis word_ok : SAddr.ok word.
Hypothesis word_aligned : SAddr.align word = word.
Hypothesis word_low : word + 2 ^ 31 < 2 ^ 64.

Definition fragment_ok (f : list Z) : Prop := StronglySorted Z.lt f /\ Forall (fun x => 0 <= x < 2 ^ 31) f.
Definition parts_bytes (o : RfsT) : list Z := flat_map (fun p => access_bytes (snd p)) o.
(** The bytes of a part that is read from a write are bytes of the write. *)
Definition covered (e : Event) (a : AAccess) : Prop :=
  forall w, write_at g e = Some w ->
  forall b, b ∈ access_bytes a -> exists i, i ∈ WordFragment (MemAccessLabel.getAccess w) /\ b = word + i.
Record option_of (stores : list Event) (fragment : list Z) (mustUse : list Event) (o : RfsT) : Prop := {
  oo_bytes : Permutation (parts_bytes o) (map (fun i => word + i) fragment);
  oo_must e : e ∈ mustUse -> e ∈ map fst o;
  oo_part e a : (e, a) ∈ o -> e ∈ stores /\ covered e a /\ overwritten g rLab e a = Ret false;
}.

Lemma store_overlap_spec store f :
  fragment_ok f ->
  fragment_ok (store_overlap g store f) /\ store_overlap g store f ⊆ f /\
  forall w, write_at g store = Some w ->
    store_overlap g store f ⊆ WordFragment (MemAccessLabel.getAccess w).
Proof.
  intros [Hs Hf]. unfold store_overlap. destruct (write_at g store) as [w|]; [|by split_and!].
  unfold getOverlap, intersect. split_and!.
  - split; [apply filter_sorted; rewrite WordFragment_range; apply range_sorted|].
    rewrite Forall_forall in *. intros x [Hx _]%list_elem_of_filter. by apply Hf.
  - intros x [Hx _]%list_elem_of_filter. done.
  - intros ? [= <-] x [_ Hx]%list_elem_of_filter. done.
Qed.

Lemma push_parts_spec store accs : forall current o,
  push_parts g rLab store accs current = Ret (Some o) ->
  o = current ++ map (pair store) accs /\ Forall (fun a => overwritten g rLab store a = Ret false) accs.
Proof.
  induction accs as [|a accs IH]; intros current o; simpl.
  - intros [= <-]. by rewrite app_nil_r.
  - destruct (overwritten g rLab store a) as [[]| |] eqn:E; simpl; try done.
    intros [-> H]%IH. rewrite <- app_assoc. split; [done|]. by constructor.
Qed.

Lemma parts_bytes_of store accs : parts_bytes (map (pair store) accs) = flat_map access_bytes accs.
Proof. unfold parts_bytes. rewrite !flat_map_concat_map, map_map. done. Qed.

Lemma enumerate_spec stores : forall current remaining mustUse options o,
  fragment_ok remaining ->
  enumerateRfHelper g word stores current remaining rLab mustUse = Ret options -> o ∈ options ->
  exists parts, o = current ++ parts /\ option_of stores remaining mustUse parts.
Proof.
  induction stores as [|store rest IH]; intros current remaining mustUse options o Hok He Ho.
  - destruct remaining as [|x r]; simpl in He; injection He as <-; [|by apply elem_of_nil in Ho].
    destruct mustUse; [|by apply elem_of_nil in Ho]. apply list_elem_of_singleton in Ho as ->.
    exists []. rewrite app_nil_r. split; [done|]. split; [done|set_solver|set_solver].
  - destruct remaining as [|x r].
    { simpl in He. injection He as <-. destruct mustUse; [|by apply elem_of_nil in Ho].
      apply list_elem_of_singleton in Ho as ->. exists []. rewrite app_nil_r. split; [done|].
      split; [done|set_solver|set_solver]. }
    remember (x :: r) as remaining eqn:Er. assert (remaining <> []) as Hne by (by subst). clear Er x r.
    assert (enumerateRfHelper g word (store :: rest) current remaining rLab mustUse =
            (reading ← match store_overlap g store remaining with
                 | [] => Ret []
                 | _ =>
                     accs ← getAccesses word (store_overlap g store remaining) Unsigned;
                     o ← push_parts g rLab store accs current;
                     match o with
                     | None => Ret []
                     | Some newCurrent =>
                         enumerateRfHelper g word rest newCurrent (subtract remaining (store_overlap g store remaining)) rLab
                           (List.filter (fun e => negb (bool_decide (e = store))) mustUse)
                     end
                 end;
             skipping ← enumerateRfHelper g word rest current remaining rLab mustUse;
             Ret (reading ++ skipping))) as E by (by destruct remaining).
    rewrite E in He. clear E.
    destruct (store_overlap_spec store remaining Hok) as (Hov & Hsub & Hw).
    remember (store_overlap g store remaining) as overlap eqn:Eo. clear Eo.
    match type of He with (?r ≫= _) = _ => destruct r as [reading| |] eqn:Er; [|done|done] end.
    cbn [mbind outcome_bind] in He.
    destruct (enumerateRfHelper g word rest current remaining rLab mustUse) as [skipping| |] eqn:Es; [|done|done].
    cbn [mbind outcome_bind] in He. injection He as <-.
    apply elem_of_app in Ho as [Ho|Ho].
    + destruct overlap as [|b bs]; [injection Er as <-; by apply elem_of_nil in Ho|].
      destruct (getAccesses_partition word (b :: bs) Unsigned word_ok word_aligned word_low
                  (proj1 Hov) (proj2 Hov)) as (accs & Ea & Hb & _ & _).
      rewrite Ea in Er. cbn [mbind outcome_bind] in Er.
      destruct (push_parts g rLab store accs current) as [[nc|]| |] eqn:Ep; try done.
      2: { injection Er as <-. by apply elem_of_nil in Ho. }
      cbn [mbind outcome_bind] in Er. apply push_parts_spec in Ep as [-> Hnot].
      assert (fragment_ok (subtract remaining (b :: bs))) as Hok'.
      { destruct Hok as [Hs Hf]. split; [by apply filter_sorted|].
        rewrite Forall_forall in *. intros y [_ Hy]%list_elem_of_filter. by apply Hf. }
      destruct (IH _ _ _ _ _ Hok' Er Ho) as (parts & -> & [Hby Hm Hp]).
      exists (map (pair store) accs ++ parts). rewrite <- app_assoc. split; [done|]. split.
      * unfold parts_bytes. rewrite flat_map_app. fold (parts_bytes (map (pair store) accs)).
        rewrite parts_bytes_of, Hb. fold (parts_bytes parts). rewrite Hby, <- map_app.
        apply Permutation_map, overlap_subtract; [apply increasing_NoDup, Hok|apply increasing_NoDup, Hov|done].
      * intros e He. rewrite map_app, elem_of_app. destruct (decide (e = store)) as [->|Hn].
        -- left. destruct accs as [|a accs]; [done|]. simpl. left.
        -- right. apply Hm, list_elem_of_In, filter_In. split; [by apply list_elem_of_In|].
           by rewrite bool_decide_eq_false_2.
      * intros e a [(a' & [= -> ->] & Ha)%list_elem_of_fmap|Hin]%elem_of_app.
        -- split; [left|]. split; [|rewrite Forall_forall in Hnot; by apply Hnot].
           intros w Ew y Hy. assert (y ∈ map (fun i => word + i) (b :: bs)) as Hy'.
           { rewrite <- Hb. apply list_elem_of_In, in_flat_map. exists a'. split; by apply list_elem_of_In. }
           apply list_elem_of_fmap in Hy' as (i & -> & Hi). exists i. split; [by apply (Hw w)|done].
        -- destruct (Hp e a Hin) as (? & ? & ?). split; [by right|done].
    + destruct (IH _ _ _ _ _ Hok Es Ho) as (parts & -> & [Hby Hm Hp]).
      exists parts. split; [done|]. split; [done|done|]. intros e a Hin.
      destruct (Hp e a Hin) as (? & ? & ?). split; [by right|done].
Qed.
End Options.

(** An access inside the address space, below its last 2 GiB. *)
Definition access_ok (a : AAccess) : Prop :=
  SAddr.ok (acc_addr a) /\ acc_addr a + 2 ^ 31 < 2 ^ 64 /\ 0 <= acc_size a < 2 ^ 30.

Lemma access_fragment a :
  access_ok a ->
  fragment_ok (WordFragment a) /\
  map (fun i => SAddr.align (acc_addr a) + i) (WordFragment a) = access_bytes a.
Proof.
  intros (Hok & _ & Hs). rewrite WordFragment_range. split; [split; [apply range_sorted|]|].
  - apply Forall_forall. intros x Hx%elem_of_seqZ. rewrite SAddr.getByte_spec in Hx.
    pose proof (Z.mod_pos_bound (acc_addr a) 8). lia.
  - rewrite <- range_shift. unfold access_bytes. f_equal.
    rewrite SAddr.align_spec, SAddr.getByte_spec by done. lia.
Qed.

(** Property C9.  Every option for an access reads each of its bytes from exactly
    one store: the parts of an option are disjoint and make up the access, each
    part read from a write lies inside what the write writes, comes from one of
    the given stores, no coherence-successor of which the read already knows, and
    every store that must be used is. *)
Theorem enumerateRfOptions_partition `{MM : MemoryModel} g stores access rLab mustUse options o :
  access_ok access ->
  enumerateRfOptions g stores access rLab mustUse = Ret options -> o ∈ options ->
  Permutation (parts_bytes o) (access_bytes access) /\ NoDup (parts_bytes o) /\
  (forall e, e ∈ mustUse -> e ∈ map fst o) /\
  (forall e a, (e, a) ∈ o ->
     e ∈ stores /\ covered g (SAddr.align (acc_addr access)) e a /\ overwritten g rLab e a = Ret false).
Proof.
  intros Hok. unfold enumerateRfOptions.
  destruct (enumerateRfHelper _ _ _ _ _ _ _) as [opts| |] eqn:He; [|done|done].
  cbn [mbind outcome_bind]. intros [= <-] Ho.
  assert (o ∈ opts) as Ho' by (by apply list_elem_of_In, in_rev, list_elem_of_In).
  destruct (access_fragment access Hok) as (Hf & Hb). destruct Hok as (Ha & Hlow & _).
  pose proof (SAddr.align_spec _ Ha) as Hal. pose proof (Z.mod_pos_bound (acc_addr access) 8 ltac:(lia)).
  pose proof (Z.mod_le (acc_addr access) 8 (proj1 Ha) ltac:(lia)).
  destruct (enumerate_spec g (SAddr.align (acc_addr access)) rLab) with (stores := rev stores)
    (current := @nil (Event * AAccess)) (remaining := WordFragment access) (mustUse := mustUse)
    (options := opts) (o := o) as (parts & -> & [Hp Hm Hpart]);
    [unfold SAddr.ok in *; lia|by apply SAddr.align_idem|lia|done|done|done|].
  rewrite Hb in Hp. simpl. split_and!; [done| |done|].
  - rewrite Hp. apply increasing_NoDup, range_sorted.
  - intros e a Hin. destruct (Hpart e a Hin) as (Hin' & ?). split; [|done].
    by apply list_elem_of_In, in_rev, list_elem_of_In.
Qed.

(** A thread stores to a word and then to its upper half; another one loads it. *)
Definition word_store : Label := Make.WriteLabel (mkEvent 0 2) Monotonic 64 8 Unsigned 7 WriteAttr.None_ DepInfo.no_deps.
Definition half_store : Label := Make.WriteLabel (mkEvent 0 3) Monotonic 68 4 Unsigned 5 WriteAttr.None_ DepInfo.no_deps.
Definition word_load : Label := Make.ReadLabel (mkEvent 1 1) Monotonic 64 8 Unsigned None DepInfo.no_deps.
Definition mixed : Graph :=
  let info := mkThreadInfo 1 0 0 0 (-1) in
  let g := foldl Exact.add_viewed (trackCoherenceAtLoc (addNewThread Rf.empty) (mkAccess 64 8 Unsigned))
    [Make.ThreadCreateLabel (mkEvent 0 1) Release info DepInfo.no_deps;
     Make.ThreadStartLabel (mkEvent 1 0) Acquire (mkEvent 0 1) info (-1)] in
  Exact.add_viewed
    (addStoreToCO (Exact.add_viewed (addStoreToCO (Exact.add_viewed g word_store) word_store 0) half_store) half_store 1)
    word_load.

(** The load may take the upper half from the second store and the lower half
    from the first, or from the initializer. *)
Definition mixed_options : list RfsT :=
  let low := mkAccess 64 4 Unsigned in
  let high := (mkEvent 0 3, mkAccess 68 4 Unsigned) in
  [[high; (EventOps.getInit, low)]; [high; (mkEvent 0 2, low)]].
Lemma enumerateRfOptions_partition_witness :
  enumerateRfOptions (MM := RADriver) mixed [EventOps.getInit; mkEvent 0 2; mkEvent 0 3] (mkAccess 64 8 Unsigned)
    word_load [mkEvent 0 3] = Ret mixed_options /\
  forall o, o ∈ mixed_options ->
    Permutation (parts_bytes o) (access_bytes (mkAccess 64 8 Unsigned)) /\ NoDup (parts_bytes o) /\
    (forall e, e ∈ [mkEvent 0 3] -> e ∈ map fst o) /\
    (forall e a, (e, a) ∈ o ->
       e ∈ [EventOps.getInit; mkEvent 0 2; mkEvent 0 3] /\ covered mixed 64 e a /\
       overwritten (MM := RADriver) mixed word_load e a = Ret false).
Proof.
  assert (enumerateRfOptions (MM := RADriver) mixed [EventOps.getInit; mkEvent 0 2; mkEvent 0 3]
            (mkAccess 64 8 Unsigned) word_load [mkEvent 0 3] = Ret mixed_options) as E by (vm_compute; reflexivity).
  split; [exact E|]. intros o Ho.
  exact (enumerateRfOptions_partition mixed [EventOps.getInit; mkEvent 0 2; mkEvent 0 3] (mkAccess 64 8 Unsigned)
           word_load [mkEvent 0 3] mixed_options o ltac:(unfold access_ok, SAddr.ok; simpl; lia) E Ho).
Defined.
End RfFacts.
