(* ===== verification/RevisitCalc.v ===== *)
(** * Which revisits are explored (src/src/GenMCDriver.cpp): the view a backward
    revisit keeps, maximal extensions, and the copies of graphs it explores.

    Views are plain: the graph is not a dependency-tracking one. *)
From S2P Require Import Prelude Event SVal SAddr VSet SExpr Deps Views Labels LabelClasses Graph Iterators RAViews RARace RACoherence Revisits Execution MemoryModel Driver Checks Schedule RfOptions.
#[local] Open Scope Z_scope.

Module RevisitCalc.
Import ExecutionGraph GraphIterators Coherence Checks Schedule RfOptions.

Section Calc.
Context `{C : Config} `{MM : MemoryModel}.

(** ** The view of a revisit *)

(** [updatePredsWithPrefixView] on a graph that does not track dependencies. *)
Definition update_preds (g : Graph) (preds : View.t) (lab : Label) : outcome View.t :=
  pporf ← getPrefixView g lab; Ret (View.update preds pporf).
Definition getRevisitView (g : Graph) (rLab sLab : Label) (midLab : option Label) (keepSet : list Event) :
    outcome View.t :=
  preds ← getPredsView g (getPos rLab);
  preds ← update_preds g preds sLab;
  preds ← mfold (fun v e => l ← getEventLabel g e; update_preds g v l) keepSet preds;
  match midLab with Some l => update_preds g preds l | None => Ret preds end.

Definition constructBackwardRevisit (g : Graph) (rLab sLab : Label) (rfs : RfsT) (keepSet : list Event) :
    outcome Revisits.Revisit :=
  let r := getPos rLab in
  let s := getPos sLab in
  if conf_mixer then v ← getRevisitView g rLab sLab None keepSet; Ret (Revisits.BackwardRevisitMIXER r s v rfs)
  else if negb conf_helper then v ← getRevisitView g rLab sLab None []; Ret (Revisits.BackwardRevisit r s v)
  else
    pending ← getPendingRMW g sLab;
    pLab ← getNextLabel g pending;
    pending ← (if EventOps.isInitializer pending then Ret None
               else match pLab with
                    | Some l => if Isa.WriteLabel (kind l)
                                then Ret (if WriteLabel.hasAttr l WriteAttr.RevBlocker
                                          then Some (EventOps.next pending) else None)
                                else Undef
                    | None => Undef
                    end);
    prefix ← getPrefixView g sLab;
    let plain := v ← getRevisitView g rLab sLab None []; Ret (Revisits.BackwardRevisit r s v) in
    match pending with
    | None => plain
    | Some p =>
        midLab ← getEventLabel g p;
        w ← getPrefixView g midLab;
        st ← EventLabel.getStamp rLab;
        sm ← EventLabel.getStamp midLab;
        if negb (View.contains w r) && (st <? sm) && negb (View.contains prefix p)
        then v ← getRevisitView g rLab sLab (Some midLab) []; Ret (Revisits.BackwardRevisitHELPER r s v p)
        else plain
    end.

(** ** Maximality *)

Definition view_of (r : Revisits.Revisit) : outcome View.t :=
  match Revisits.getViewNoRel r with Some v => Ret v | None => Undef end.
Definition rev_of (r : Revisits.Revisit) : outcome Event :=
  match Revisits.getRev r with Some e => Ret e | None => Undef end.
(** [revisitDeletesEvent]; [prefixContainsSameLoc] is for dependency tracking. *)
Definition revisitDeletesEvent (v : View.t) (lab : Label) : bool := negb (View.contains v (getPos lab)).

(** A store the label reads from is deleted and was added after it. *)
Definition hasBeenRevisitedByDeleted (g : Graph) (v : View.t) (lab : Label) : outcome bool :=
  if negb (Isa.ReadLabel (kind lab)) || ReadLabel.isIPR lab then Ret false
  else anyM (fun p =>
         if View.contains v (fst p) then Ret false
         else w ← getEventLabel g (fst p); sw ← EventLabel.getStamp w; sr ← EventLabel.getStamp lab; Ret (sw >? sr))
       (ReadLabel.getRfs lab).
(** The stores of a label with the part of the location they stand for. *)
Definition label_stores (lab : Label) : RfsT :=
  if Isa.ReadLabel (kind lab) then ReadLabel.getRfs lab else [(getPos lab, MemAccessLabel.getAccess lab)].
Definition isCoBeforeSavedPrefix (g : Graph) (r : Revisits.Revisit) (v : View.t) (lab : Label) : outcome bool :=
  if negb (Isa.MemAccessLabel (kind lab)) then Ret false
  else
    rev ← rev_of r;
    anyM (fun p =>
      succs ← (if write_at g (fst p) then co_succs g (fst p) (snd p) else co g (snd p));
      Ret (existsb (fun s => View.contains v s && negb (bool_decide (s = rev))) succs)) (label_stores lab).
Definition coherenceSuccRemainInGraph (g : Graph) (r : Revisits.Revisit) (v : View.t) : outcome bool :=
  rev ← rev_of r;
  wLab ← getEventLabel g rev;
  if isRMWStore wLab then Ret true
  else
    succs ← co_succs g rev (MemAccessLabel.getAccess wLab);
    Ret (match succs with [] => true | s :: _ => View.contains v s end).
Definition wasAddedMaximally (lab : Label) : bool :=
  if Isa.MemAccessLabel (kind lab) then MemAccessLabel.wasAddedMax lab
  else match payload lab with POptional _ expanded => negb expanded | _ => true end.
(** A label that goes, or is revisited, is no obstacle. *)
Definition maximal_label (g : Graph) (r : Revisits.Revisit) (v : View.t) (lab : Label) : outcome bool :=
  if negb (bool_decide (getPos lab = Revisits.getPos r)) && View.contains v (getPos lab) then Ret true
  else if negb (wasAddedMaximally lab) then Ret false
  else
    b ← isCoBeforeSavedPrefix g r v lab;
    if b : bool then Ret false else negb <$> hasBeenRevisitedByDeleted g v lab.
Definition isMaximalExtension (g : Graph) (r : Revisits.Revisit) : outcome bool :=
  v ← view_of r;
  b ← coherenceSuccRemainInGraph g r v;
  if negb b then Ret false
  else
    let kept := match r with
                | Revisits.BackwardRevisitMIXER _ _ _ rfs => forallb (fun p => View.contains v (fst p)) rfs
                | _ => true
                end in
    if negb kept then Ret false else allM (maximal_label g r v) (labels g).

(** Some thread does not end where the view does, or at a terminator right after. *)
Definition thread_goes_on (g : Graph) (v : View.t) (i : Z) : outcome bool :=
  let n := View.getMax v i + 1 in
  if n =? getThreadSize g i then Ret false
  else l ← getEventLabel g (mkEvent i n); Ret (negb (EventLabel.isTerminator l)).
Definition revisitModifiesGraph (g : Graph) (r : Revisits.Revisit) : outcome bool :=
  v ← view_of r; anyM (thread_goes_on g v) (seqZ 0 (getNumThreads g)).

(** ** Candidates to keep (MIXER) *)

Definition enumerateKeepCandidates (g : Graph) (rLab : Label) (store : Event) : outcome (list (list Event)) :=
  preds ← getPredsView g (getPos rLab);
  sLab ← getEventLabel g store;
  preds ← update_preds g preds sLab;
  ss ← co g (MemAccessLabel.getAccess rLab);
  let cs := List.filter (fun s => negb (View.contains preds s)) ss in
  _ ← BUG_ON (existsb (fun s => EventOps.EventL2RCompare s (getPos rLab)) cs);
  Ret (enumerateSubsetHelper (rev (List.filter (fun s => EventOps.EventL2RCompare s store) cs)) [] preds).

(** ** Copies *)

(** The view for the copy and the copy itself. *)
Definition copy_view (r : Revisits.Revisit) (v : View.t) : View.t :=
  match r with
  | Revisits.BackwardRevisitHELPER _ _ _ mid =>
      View.setMax v (mkEvent (thread mid) (View.getMax v (thread mid) - 2))
  | _ => v
  end.
Definition copyGraph (g : Graph) (r : Revisits.Revisit) (v : View.t) : outcome Graph :=
  rev ← rev_of r;
  revLab ← getEventLabel g rev;
  prefix ← getPrefixView g revLab;
  og ← getCopyUpTo g (copy_view r v);
  rLab ← getEventLabel og (Revisits.getPos r);
  st ← EventLabel.getStamp rLab;
  og ← compressStampsAfter og st;
  Ret (set_events (map (map (fun lab => if View.contains prefix (getPos lab)
                                        then EventLabel.setRevisitStatus false lab else lab)) (events og)) og).

(** The choices of the labels that are in the copy, at their new stamps. *)
Definition copy_choices (og : Graph) (choices result : ChoiceMap) (lab : Label) : outcome ChoiceMap :=
  s ← EventLabel.getStamp lab;
  if negb (containsPos og (getPos lab)) then Ret result
  else match OrderedMap.lookup s choices with
       | None => Ret result
       | Some es =>
           l ← getEventLabel og (getPos lab);
           s' ← EventLabel.getStamp l;
           Ret (foldl (fun m e => if containsPos og e
                                  then OrderedMap.alter [] (fun c => VSet.insert1 EventOps.ltb c e) s' m else m)
                  result es)
       end.
Definition createChoiceMapForCopy (g og : Graph) (choices : ChoiceMap) : outcome ChoiceMap :=
  mfold (copy_choices og choices) (labels g) [].

(** ** Helper: conflicting stores *)

Definition isConflictingNonRevBlocker (g : Graph) (pLab : option Label) (sLab : Label) (s : Event) : outcome bool :=
  sLab2 ← getEventLabel g s;
  if bool_decide (s = getPos sLab) || negb (isRMWStore sLab2) then Ret false
  else
    prefix ← getPrefixView g sLab;
    s2 ← EventLabel.getStamp sLab2;
    before ← match pLab with Some l => p ← EventLabel.getStamp l; Ret (p <? s2) | None => Ret false end;
    if View.contains prefix s && negb before then Ret false
    else if EventLabel.getThread sLab2 <=? EventLabel.getThread sLab then Ret false
    else anyM (fun r => rLab ← getEventLabel g r; sr ← EventLabel.getStamp rLab;
                        Ret ((sr <? s2) && negb (View.contains prefix r))) (WriteLabel.readers sLab2).
(** A load is the last visible access of a blocked thread. *)
Definition blocked_load (g : Graph) (l : Event) : outcome bool :=
  lLab ← getLastThreadLabel g (thread l);
  pLab ← getPreviousVisibleAccessLabel g (getPos lLab);
  Ret (Isa.BlockLabel (kind lLab) && match pLab with Some p => bool_decide (getPos p = l) | None => false end).

End Calc.
End RevisitCalc.
