(* ===== verification/Revisiting.v ===== *)
(** * Revisits (src/src/GenMCDriver.cpp): what a new store may revisit, the
    in-place revisits, and how a revisit changes the graph.

    A label passed by pointer is its position.  Messages to the user
    ([WARN_ONCE]) are output. *)
From S2P Require Import Prelude Event SVal SAddr VSet SExpr Deps Views Labels LabelClasses Graph Iterators RAViews RARace RACoherence Revisits Interp Execution MemoryModel Driver Checks Symmetry Schedule Permutations RfOptions RevisitCalc.
#[local] Open Scope Z_scope.

Module Revisiting.
Import ExecutionGraph GraphIterators Coherence Drv Checks Schedule RfOptions RevisitCalc.
Section Methods.
Context `{P : Program} `{C : Config} `{MM : MemoryModel}.

Definition getStamp (pos : Event) : M Z := lab ← labelOf pos; lift (EventLabel.getStamp lab).
(** A cast to a read that is a dereferenced null pointer otherwise. *)
Definition readAt (pos : Event) : M Label :=
  lab ← labelOf pos; if Isa.ReadLabel (kind lab) then mret lab else lift Undef.
Definition is_rmw_read (lab : Label) : bool := Isa.CasReadLabel (kind lab) || Isa.FaiReadLabel (kind lab).

(** ** Reads that would block *)

Definition annot_false (annot : SExprOps.SExpr Z) (val : Z) : outcome bool :=
  r ← SExprOps.evaluate_with Z.ltb annot val; Ret (negb (SVal.getBool (fst r))).
Definition willBeAssumeBlocked (rLab : Label) (val : Z) : outcome bool :=
  if conf_ipr || Isa.LockCasReadLabel (kind rLab) then
    match ReadLabel.getAnnot rLab with Some annot => annot_false annot val | None => Ret false end
  else Ret false.
Definition removeCASReadIfBlocks (rLab : Label) (store : Event) : M bool :=
  if conf_mixer || isUninitializedAccess (MemAccessLabel.getAddr rLab) store || bool_decide (is_Some conf_bound)
     || negb (Isa.CasReadLabel (kind rLab))
  then mret false
  else
    val ← getWriteValue (Some store) (MemAccessLabel.getAccess rLab);
    b ← lift (willBeAssumeBlocked rLab val);
    if negb b then mret false
    else blockThread (Make.ReadOptBlockLabel (getPos rLab) (MemAccessLabel.getAddr rLab));; mret true.

(** ** The reads-from options of a read, and filters *)

Definition removeMM {A} (f : A -> M bool) : list A -> M (list A) := filterMM (fun x => negb <$> f x).
Definition settled_rmw (rLab : Label) (before : View.t) (s : Event) : M bool :=
  oldVal ← getWriteValue (Some s) (MemAccessLabel.getAccess rLab);
  let settled := onGraph (fun g => isStoreReadBySettledRMW g s (MemAccessLabel.getAddr rLab) before) in
  if Isa.FaiReadLabel (kind rLab) then settled
  else if bool_decide (RmwReadLabel.getExpected rLab = Some oldVal) then settled else mret false.
Definition getRfsApproximation (rLab : Label) : M (list Event) :=
  rfs ← viaGraph (fun g => MemoryModel.getCoherentStores conf_mixer g rLab);
  if negb (is_rmw_read rLab) || conf_mixer then mret rfs
  else
    before ← onGraph (fun g => getPrefixView g rLab);
    removeMM (settled_rmw rLab before) rfs.
Definition filterConflictingBarriers (rLab : Label) (stores : list Event) : M (list Event) :=
  if conf_disableBAM || negb (Isa.BIncFaiReadLabel (kind rLab)) then mret stores
  else onGraph (fun g => removeM (fun s => isStoreReadByExclusiveRead g s (MemAccessLabel.getAddr rLab)) stores).
Definition filterValuesFromAnnotSAVER (rLab : Label) (stores : list Event) : M (list Event) :=
  match ReadLabel.getAnnot rLab with
  | None => mret stores
  | Some annot =>
      match last stores with
      | None => lift Bug
      | Some maximal =>
          stores ← removeMM (fun w =>
            val ← getWriteValue (Some w) (MemAccessLabel.getAccess rLab);
            if bool_decide (w = maximal) then mret false
            else
              m ← onGraph (fun g => isCoMaximal g (MemAccessLabel.getAccess rLab) w);
              if m : bool then mret false else lift (annot_false annot val)) stores;
          lift (BUG_ON (bool_decide (length stores = O)));; mret stores
      end
  end.
(** The stores that are left, and whether the read is added. *)
Definition filterOptimizeRfs (rLab : Label) (stores : list Event) : M (bool * list Event) :=
  stores ← (if conf_symmetryReduction
            then onGraph (fun g => Symmetry.filterSymmetricStoresSR g rLab stores) else mret stores);
  stores ← (if negb conf_disableBAM then filterConflictingBarriers rLab stores else mret stores);
  stores ← filterValuesFromAnnotSAVER rLab stores;
  resched ← isRescheduledRead (getPos rLab);
  if resched : bool then mret (true, stores)
  else
    match last stores with
    | None => lift Undef
    | Some w => b ← removeCASReadIfBlocks rLab w; mret (negb b, stores)
    end.
Definition filterAtomicityViolations (rLab : Label) (stores : list Event) : M (list Event) :=
  if negb (is_rmw_read rLab) then mret stores
  else
    lift (BUG_ON conf_mixer);;
    let successful l :=
      b ← onGraph (fun g => isRMWLoad g l);
      if negb b then mret false
      else
        v ← getReadValue l;
        mret (negb (Isa.CasReadLabel (kind rLab)) || bool_decide (RmwReadLabel.getExpected rLab = Some v)) in
    removeMM (fun s =>
      sLab ← labelOf s;
      rs ← onGraph (fun g => if Isa.InitLabel (kind sLab)
                             then es ← init_rfs g (MemAccessLabel.getAccess rLab); deref_all g es
                             else rf_succs g sLab);
      existsMM successful rs) stores.

(** ** The loads a store may revisit *)

(** Latest first; no two labels have one stamp. *)
Fixpoint insert_by_stamp (p : Z * Event) (l : list (Z * Event)) : list (Z * Event) :=
  match l with
  | [] => [p]
  | q :: l => if fst q <? fst p then p :: q :: l else q :: insert_by_stamp p l
  end.
Definition sort_by_stamp (g : Graph) (es : list Event) : outcome (list Event) :=
  ps ← mfold (fun l e => lab ← getEventLabel g e; s ← EventLabel.getStamp lab; Ret (insert_by_stamp (s, e) l)) es [];
  Ret (map snd ps).
Definition getRevisitableApproximation (sLab : Label) : M (list Event) :=
  onGraph (fun g =>
    prefix ← getPrefixView g sLab;
    loads ← MemoryModel.getCoherentRevisits conf_mixer g sLab prefix;
    sort_by_stamp g loads).

(** ** Completing a read-modify-write *)

Definition counterpart (rLab : Label) (result wattr : Z) : outcome Label :=
  let create (mk : Event -> AtomicOrdering -> Z -> Z -> AType -> Z -> Z -> Deps -> Label) :=
    Ret (mk (EventOps.next (getPos rLab)) (ordering rLab) (MemAccessLabel.getAddr rLab) (MemAccessLabel.getSize rLab)
            (MemAccessLabel.getType rLab) result wattr DepInfo.no_deps) in
  match kind rLab with
  | EL_BIncFaiRead => create Make.BIncFaiWriteLabel
  | EL_NoRetFaiRead => create Make.NoRetFaiWriteLabel
  | EL_FaiRead => create Make.FaiWriteLabel
  | EL_LockCasRead => create Make.LockCasWriteLabel
  | EL_TrylockCasRead => create Make.TrylockCasWriteLabel
  | EL_CasRead => create Make.CasWriteLabel
  | EL_HelpedCasRead => create Make.HelpedCasWriteLabel
  | EL_ConfirmingCasRead => create Make.ConfirmingCasWriteLabel
  | _ => Bug
  end.
(** The value the write part stores, [None] when the read is no successful RMW. *)
Definition rmw_result (rLab : Label) : M (option Z) :=
  match RmwReadLabel.extra rLab with
  | RCas expected swap _ =>
      v ← getReadValue rLab; mret (if SVal.eqb v expected then Some swap else None)
  | RFai op opVal _ =>
      rfVal ← getReadValue rLab;
      result ← lift (Interp.executeAtomicRMWOperation rfVal opVal (MemAccessLabel.getSize rLab) op);
      if Isa.BIncFaiReadLabel (kind rLab) && (result =? 0)
      then v ← getBarrierInitValue (MemAccessLabel.getAccess rLab); mret (Some v)
      else mret (Some result)
  | _ => mret None
  end.

(** The new coherence order: a store goes after the RMW write once it overlaps a
    part already [seen], before it otherwise; the parts read from it are then
    seen. *)
Definition mark_seen (s : Event) (st : RfsT * list AAccess) : RfsT * list AAccess :=
  (List.filter (fun p => negb (bool_decide (fst p = s))) (fst st),
   snd st ++ map snd (List.filter (fun p => bool_decide (fst p = s)) (fst st))).
Fixpoint split_coherence (g : Graph) (st : RfsT * list AAccess) (coh : list Event) :
    outcome (list Event * list Event) :=
  match coh with
  | [] => Ret ([], [])
  | s :: coh =>
      sLab ← getEventLabel g s;
      if existsb (fun a => AccessOps.overlaps a (MemAccessLabel.getAccess sLab)) (snd st)
      then r ← split_coherence g st coh; Ret (fst r, s :: snd r)
      else r ← split_coherence g (mark_seen s st) coh; Ret (s :: fst r, snd r)
  end.
Definition place_rmw (g : Graph) (rLab : Label) (w : Event) : outcome Graph :=
  let access := MemAccessLabel.getAccess rLab in
  coh ← getStoresToLoc g (acc_addr access);
  r ← split_coherence g (mark_seen EventOps.getInit (ReadLabel.getRfs rLab, [])) coh;
  Ret (set_coherence (InitLabel.bucket_alter (fun _ => fst r ++ w :: snd r) (getBucket (acc_addr access))
                        (coherence g)) g).
(** The position of the added write. *)
Definition completeRevisitedRMW (pos : Event) : M (option Event) :=
  rLab ← readAt pos;
  if negb (is_rmw_read rLab) then mret None
  else
    result ← rmw_result rLab;
    match result with
    | None => mret None
    | Some v =>
        wLab ← lift (counterpart rLab v (RmwReadLabel.getAttr rLab));
        addLabelToGraph wLab;;
        rLab ← readAt pos;
        lift (BUG_ON (negb (ReadLabel.hasRf rLab)));;
        inGraph (fun g => place_rmw g rLab (getPos wLab));;
        mret (Some (getPos wLab))
    end.

(** ** In-place revisits *)

Definition prioritize (es : list Event) : M unit := modify (set_threadPrios es).
Definition revisitInPlace (read store : Event) : M unit :=
  lift (BUG_ON (bool_decide (is_Some conf_bound)));;
  next ← onGraph (fun g => getNextLabel g read);
  (if (next : option Label) then inGraph (fun g => removeLast g (thread read)) else mret tt);;
  inGraph (fun g => changeRf g read store);;
  alterLabel (fun l => ReadLabel.setIPRStatus true (MemAccessLabel.setAddedMax true l)) read;;
  _ ← completeRevisitedRMW read;
  inEE (Interp.resetThread threadLocalVars (thread read));;
  inEE (Interp.alter_thread (fun t => Interp.setECStack (Interp.initEC t) t) (thread read));;
  prioritize [read].

Definition all_maximal (g : Graph) (pos : Event) : outcome bool :=
  lab ← getEventLabel g pos; areCoMaximal g (ReadLabel.getRfs lab).
(** A thread blocked at a barrier: the increment is two labels before the block. *)
Definition barrier_fai (g : Graph) (b : Event) : outcome Label :=
  p ← getPreviousLabel g (EventOps.prev b);
  match p with
  | Some pLab => if Isa.BIncFaiWriteLabel (kind pLab) then Ret pLab else Undef
  | None => Undef
  end.
Definition blocked_at (g : Graph) (addr : Z) : outcome (list Event) :=
  removeM (fun b => pLab ← barrier_fai g b; Ret (negb (MemAccessLabel.getAddr pLab =? addr)))
    (collectAllEvents g (fun l => Isa.BarrierBlockLabel (kind l))).
Definition unblock_barrier (store b : Event) : M unit :=
  pLab ← onGraph (fun g => barrier_fai g b);
  unblockThread b;;
  inGraph (fun g => removeLast g (thread b));;
  let r := EventOps.prev b in
  addLabelToGraph (Make.BWaitReadLabel r (ordering pLab) (MemAccessLabel.getAddr pLab) (MemAccessLabel.getSize pLab)
                     (MemAccessLabel.getType pLab) None (deps pLab));;
  inGraph (fun g => changeRf g r store);;
  m ← onGraph (fun g => all_maximal g r);
  alterLabel (MemAccessLabel.setAddedMax m) r.
Definition tryOptimizeBarrierRevisits (sLab : Label) : M bool :=
  if conf_disableBAM then mret false
  else
    iVal ← getBarrierInitValue (MemAccessLabel.getAccess sLab);
    if negb (SVal.eqb (WriteLabel.getVal sLab) iVal) then mret true
    else
      bs ← onGraph (fun g => blocked_at g (MemAccessLabel.getAddr sLab));
      forM bs (unblock_barrier (getPos sLab));;
      mret true.
Definition ipr_blocked (l : Event) : M bool :=
  rLab ← readAt l;
  if Isa.CasReadLabel (kind rLab) then mret false
  else v ← getReadValue rLab; lift (willBeAssumeBlocked rLab v).
(** A read that would be annotated and reads a later store, not in the prefix. *)
Definition revisited_outside (g : Graph) (sLab : Label) (l : Event) : outcome bool :=
  rLab ← getEventLabel g l;
  match ReadLabel.getAnnot rLab with
  | None => Ret false
  | Some _ =>
      match ReadLabel.getRf rLab with
      | None => Undef
      | Some w =>
          wLab ← getEventLabel g w;
          sw ← EventLabel.getStamp wLab;
          sr ← EventLabel.getStamp rLab;
          if sw >? sr then v ← getPrefixView g sLab; Ret (negb (View.contains v w)) else Ret false
      end
  end.
(** Constructing the backward revisit has no effect: only its read and store are
    used. *)
Definition tryOptimizeIPRs (store : Event) (loads : list Event) : M (list Event) :=
  if negb conf_ipr then mret loads
  else
    toIPR ← filterMM ipr_blocked loads;
    let loads := List.filter (fun l => negb (bool_decide (l ∈ toIPR))) loads in
    forM toIPR (fun l => revisitInPlace l store);;
    sLab ← labelOf store;
    pending ← onGraph (fun g => getPendingRMW g sLab);
    if EventOps.isInitializer pending then mret loads
    else onGraph (fun g => removeM (revisited_outside g sLab) loads).

(** ** Helper *)

Definition unconfirmed (g : Graph) (l : Event) : outcome bool :=
  lab ← getEventLabel g l;
  if negb (isConfirming lab) then Ret false
  else
    r ← getMatchingSpeculativeRead g l (Some EventOps.getInit);
    pLab ← getEventLabel g (fst r);
    _ ← BUG_ON (negb (Isa.ReadLabel (kind pLab)));
    Ret (match snd r with Some sc => EventOps.isInitializer sc | None => true end).
Definition optimizeUnconfirmedRevisits (loads : list Event) : M (list Event) :=
  if negb conf_helper then mret loads else onGraph (fun g => removeM (unconfirmed g) loads).
Definition tryOptimizeRevBlockerAddition (sLab : Label) (loads : list Event) : M (bool * list Event) :=
  if negb (WriteLabel.hasAttr sLab WriteAttr.RevBlocker) then mret (false, loads)
  else
    b ← onGraph (fun g =>
      pLab ← getPreviousVisibleAccessLabel g (EventOps.prev (getPos sLab));
      ss ← co g (MemAccessLabel.getAccess sLab);
      anyM (isConflictingNonRevBlocker g pLab sLab) ss);
    if b : bool then moot;; mret (true, []) else mret (false, loads).
Definition tryOptimizeRevisits (store : Event) (loads : list Event) : M (bool * list Event) :=
  sLab ← labelOf store;
  done ← (if negb conf_disableBAM && Isa.BIncFaiWriteLabel (kind sLab) then tryOptimizeBarrierRevisits sLab
          else mret false);
  if done : bool then mret (true, loads)
  else
    loads ← tryOptimizeIPRs store loads;
    if negb conf_helper then mret (false, loads)
    else loads ← optimizeUnconfirmedRevisits loads; sLab ← labelOf store; tryOptimizeRevBlockerAddition sLab loads.
Definition checkRevBlockHELPER (sLab : Label) (loads : list Event) : M bool :=
  if negb conf_helper || negb (WriteLabel.hasAttr sLab WriteAttr.RevBlocker) then mret true
  else b ← onGraph (fun g => anyM (blocked_load g) loads); if b : bool then moot;; mret false else mret true.

End Methods.
End Revisiting.
