(* ===== verification/Typed.v ===== *)
(** * Well-typed graphs: every label is at its position and has a stamp, its data
    fit its kind, and the initializer, and nothing else, is at its place.

    The operations of ExecutionGraph.cpp keep this, but for [removeLast], which may
    remove the initializer; a label is added at a free slot or not at all. *)
From S2P Require Import Prelude Event SVal SAddr VSet SExpr Deps Views Labels LabelClasses Graph GraphBase GraphRf GraphCut Iterators RAViews RARace RACoherence Revisits Execution Interp MemoryModel Driver Checks Symmetry Schedule Permutations RfOptions RevisitCalc Revisiting.
#[local] Open Scope Z_scope.

Module Typed.
Import ExecutionGraph Lookup.

(** ** Labels *)

Record placed (l : Label) : Prop := {
  pl_ok : LabelFacts.label_ok l = true;
  pl_valid : valid (getPos l);
  pl_stamp : is_Some (stamp l);
  pl_init : getPos l = init_pos -> kind l = EL_Init }.
(** What a change of a label must respect. *)
Record kept (l l' : Label) : Prop := {
  kp_pos : getPos l' = getPos l;
  kp_kind : kind l' = kind l;
  kp_ok : LabelFacts.label_ok l = true -> LabelFacts.label_ok l' = true;
  kp_stamp : is_Some (stamp l) -> is_Some (stamp l') }.
#[export] Instance kept_pre : PreOrder kept.
Proof.
  split; [by constructor|]. intros l1 l2 l3 [] []. constructor; [congruence..|by auto|by auto].
Qed.
Lemma placed_kept l l' : kept l l' -> placed l -> placed l'.
Proof. intros [] []. constructor; rewrite ?kp_pos0, ?kp_kind0; auto. Qed.

(** Every setter, and any chain of them. *)
Ltac kept_setter := intros; match goal with |- kept ?l _ => LabelFacts.case_payload l; constructor; done end.
Ltac kept_if := match goal with |- kept _ (if ?b then _ else _) => destruct b end.
Lemma kept_setRf o l : kept l (ReadLabel.setRf o l).
Proof. destruct o; kept_setter. Qed.
Lemma kept_setStamp s l : kept l (EventLabel.setStamp s l).
Proof. by constructor. Qed.
Lemma kept_addReader r l l' : WriteLabel.addReader r l = Ret l' -> kept l l'.
Proof. unfold WriteLabel.addReader. destruct (BUG_ON _); [|done..]. intros [= <-]. kept_setter. Qed.
Lemma kept_addAccess r l l' : MallocLabel.addAccess r l = Ret l' -> kept l l'.
Proof. unfold MallocLabel.addAccess. destruct (BUG_ON _); [|done..]. intros [= <-]. kept_setter. Qed.

(** ** Graphs *)

Record typed (g : Graph) : Prop := {
  ty_at e l : label_at g e = Some l -> getPos l = e /\ placed l;
  ty_init : is_Some (label_at g init_pos) }.
Lemma typed_label g e l : typed g -> getEventLabel g e = Ret l -> getPos l = e /\ placed l.
Proof. intros Hg. unfold getEventLabel. destruct (label_at g e) eqn:E; [|done]. intros [= <-]. by apply Hg. Qed.
Lemma typed_labelled g : typed g -> Rf.labelled g.
Proof.
  intros Hg. split; [intros e l H%Hg; split; apply H|]. destruct (ty_init g Hg) as [l El]. exists l. split; [done|].
  apply Hg in El as [Hp Hl]. by apply Hl.
Qed.
Lemma typed_stamped g e l : typed g -> label_at g e = Some l -> is_Some (stamp l).
Proof. intros Hg H%Hg. apply H. Qed.

(** Two graphs with the same labels. *)
Lemma typed_events g g' : events g' = events g -> typed g -> typed g'.
Proof.
  intros E. assert (forall e, label_at g' e = label_at g e) as Hat by (intros e; unfold label_at; by rewrite E).
  intros [H1 H2]. split; [intros e l|]; rewrite Hat; [apply H1|done].
Qed.
(** Every label is one of [g], changed by little. *)
Lemma typed_from g g' :
  (forall e l', label_at g' e = Some l' -> exists l, label_at g e = Some l /\ kept l l') ->
  is_Some (label_at g' init_pos) -> typed g -> typed g'.
Proof.
  intros H Hi Hg. split; [|done]. intros e l' El'. destruct (H _ _ El') as (l & El & Hk).
  apply Hg in El as [Hp Hl]. split; [by rewrite (kp_pos _ _ Hk)|by eapply placed_kept].
Qed.

(** An index below zero is the index zero of a vector here. *)
Definition clamp (e : Event) : Event := mkEvent (Z.of_nat (Z.to_nat (thread e))) (Z.of_nat (Z.to_nat (index e))).
Lemma alter_clamp f e g : alter_label f e g = alter_label f (clamp e) g.
Proof. unfold alter_label, clamp. cbn. by rewrite !Nat2Z.id. Qed.
Lemma typed_alter f e g : (forall l, kept l (f l)) -> typed g -> typed (alter_label f e g).
Proof.
  intros Hf Hg. rewrite alter_clamp. assert (valid (clamp e)) as Hv by (unfold valid, clamp; cbn; lia).
  apply (typed_from g); [intros e' l'| |done]; rewrite label_at_alter by done; case_decide.
  - destruct (label_at g e') as [l|]; [|done]. intros [= <-]. by exists l.
  - intros El. by exists l'.
  - destruct Hg as [_ [l ->]]. by exists (f l).
  - by destruct Hg.
Qed.
Lemma typed_put l e g : placed l -> getPos l = e -> typed g -> typed (alter_label (fun _ => l) e g).
Proof.
  intros Hl <- [H1 H2]. pose proof (pl_valid l Hl) as Hv. split.
  - intros e' l'. rewrite label_at_alter by done. case_decide; [|apply H1].
    destruct (label_at g e'); [|done]. intros [= <-]. by subst.
  - rewrite label_at_alter by done. case_decide; [|done]. destruct H2 as [x ->]. by exists l.
Qed.
Lemma typed_foldl {A} (f : Graph -> A -> Graph) l g :
  (forall g x, typed g -> typed (f g x)) -> typed g -> typed (foldl f g l).
Proof. intros Hf. revert g. induction l as [|x l IH]; intros g Hg; cbn; [done|]. by apply IH, Hf. Qed.
Lemma typed_mfold {A} (f : Graph -> A -> outcome Graph) l g g' :
  (forall g x g', typed g -> f g x = Ret g' -> typed g') -> typed g -> mfold f l g = Ret g' -> typed g'.
Proof.
  intros Hf. revert g. induction l as [|x l IH]; intros g Hg; cbn; [by intros [= <-]|].
  destruct (f g x) as [g1| |] eqn:E; [|done..]. cbn. apply IH. by eapply Hf.
Qed.

(** ** Operations *)

Ltac steps H :=
  repeat match type of H with
  | mbind _ ?m = Ret _ => let E := fresh "E" in destruct m eqn:E; cbn [mbind outcome_bind] in H; [|discriminate H..]
  end.

(** *** Adding and removing *)

Lemma typed_add g lab g' :
  LabelFacts.label_ok lab = true -> typed g -> addLabelToGraph g lab = Ret g' -> typed g'.
Proof.
  intros Hok Hg [Hs ->]%add_label_inv. assert (getPos lab <> init_pos) as Hni.
  { intros Hp. destruct (ty_init g Hg) as [l El]. rewrite <- Hp in El.
    pose proof (Rf.free_slot_label _ _ _ Hs El) as Hk. apply Hg in El as [Hpl Hl].
    rewrite (pl_init l Hl) in Hk by congruence. done. }
  split; [intros e l|]; rewrite put_label_at by done; case_decide; try apply Hg; [|done].
  intros [= <-]. subst. rewrite stamped_pos. split; [done|].
  assert (kind (stamped g lab) = kind lab /\ payload (stamped g lab) = payload lab) as [Ek Ep]
    by (unfold stamped; by destruct (EventLabel.hasStamp lab)).
  constructor; rewrite ?stamped_pos; [unfold LabelFacts.label_ok; by rewrite Ek, Ep|by destruct Hs| |done].
  unfold stamped, EventLabel.hasStamp. case_bool_decide; cbn; [done|by eexists].
Qed.

Lemma typed_resize g pos :
  valid pos -> pos <> init_pos -> typed g -> thread pos < getNumThreads g -> typed (resizeThread pos g).
Proof.
  intros [Ht Hi] Hni Hg Hlt. unfold resizeThread.
  assert (forall e l, label_at (set_thread (thread pos) (take (Z.to_nat (index pos)) (thread_labels g (thread pos))) g) e = Some l ->
    label_at g e = Some l) as Hsub.
  { intros e l E. pose proof (label_at_valid _ _ _ E) as Hv.
    rewrite label_at_set_thread in E by (done || lia). case_decide as Hd; [|done].
    apply lookup_take_Some in E as [E _]. by rewrite label_at_thread, Hd. }
  split; [intros e l El%Hsub; by apply Hg|]. rewrite label_at_set_thread by (done || lia).
  destruct (ty_init g Hg) as [l El]. case_decide as Hd; [|by rewrite El].
  rewrite label_at_thread in El by done. rewrite Hd in El. exists l. rewrite lookup_take, <- El.
  apply decide_True. destruct pos as [t i]. cbn in *. assert (i <> 0) by (intros ->; subst; done). lia.
Qed.
(** Typed, with the thread sizes of [n]. *)
Definition sized (n g : Graph) : Prop := typed g /\ map length (events g) = map length (events n).
Lemma sized_alter n f e g : (forall l, kept l (f l)) -> sized n g -> sized n (alter_label f e g).
Proof. intros Hf [H1 H2]. split; [by apply typed_alter|by rewrite alter_thread_sizes]. Qed.
Lemma sized_foldl {A} n (f : Graph -> A -> Graph) l g :
  (forall g x, sized n g -> sized n (f g x)) -> sized n g -> sized n (foldl f g l).
Proof. intros Hf. revert g. induction l as [|x l IH]; intros g Hg; cbn; [done|]. by apply IH, Hf. Qed.
Ltac sized_tac :=
  repeat match goal with
  | |- sized _ (if ?b then _ else _) => destruct b
  | |- sized _ (match ?o with _ => _ end) => destruct o
  | |- sized _ (alter_label _ _ _) => apply sized_alter; [intros; first [apply kept_setRf|kept_setter]|]
  | |- sized _ (remove_from_readers _ _ _) => unfold remove_from_readers
  | |- sized _ (foldl _ _ _) => apply sized_foldl; [intros ? []; intros|]
  | |- sized _ _ => assumption
  end.
(** What [removeLast] leaves: a graph of the same shape, resized. *)
Lemma removeLast_resizes g tid g' :
  typed g -> removeLast g tid = Ret g' ->
  exists g1, sized g g1 /\ label_at g (getLastThreadEvent g tid) <> None /\ g' = resizeThread (getLastThreadEvent g tid) g1.
Proof.
  intros Hg E. unfold removeLast in E. destruct (getLastThreadLabel g tid) as [lab| |] eqn:El; [|done..].
  cbn [mbind outcome_bind] in E. pose proof (typed_label _ _ _ Hg El) as [Hp Hl]. cbv zeta in E. rewrite Hp in E.
  assert (label_at g (getLastThreadEvent g tid) <> None) as Hn.
  { unfold getLastThreadLabel, getEventLabel in El. by destruct (label_at g _). }
  assert (sized g g) as H0 by done. clear El.
  destruct (Isa.FreeLabel (kind lab)); [destruct (FreeLabel.getAlloc lab); [|done]|];
    cbn [mbind outcome_bind] in E; injection E as <-;
    match goal with |- exists _, _ /\ _ /\ resizeThread _ ?g1 = _ => exists g1; split; [sized_tac|done] end.
Qed.
Lemma last_thread g tid : label_at g (getLastThreadEvent g tid) <> None -> 0 <= tid < getNumThreads g.
Proof.
  intros Hn. assert (containsPos g (getLastThreadEvent g tid) = true) as Hc
    by (apply label_at_some_iff; by destruct (label_at g _)).
  unfold containsPos in Hc. rewrite !andb_true_iff in Hc. cbn [thread getLastThreadEvent] in Hc. lia.
Qed.
Lemma typed_removeLast g tid g' :
  typed g -> getLastThreadEvent g tid <> init_pos -> removeLast g tid = Ret g' -> typed g'.
Proof.
  intros Hg Hni E. destruct (removeLast_resizes _ _ _ Hg E) as (g1 & [H1 H2] & Hn & ->).
  apply last_thread in Hn as Ht. apply typed_resize; [|done|done|rewrite (sizes_threads g g1 H2); cbn; lia].
  destruct (label_at g _) eqn:El; [|done]. by eapply label_at_valid.
Qed.
Lemma removeLast_size g tid g' :
  typed g -> removeLast g tid = Ret g' -> getThreadSize g' tid = getThreadSize g tid - 1.
Proof.
  intros Hg E. destruct (removeLast_resizes _ _ _ Hg E) as (g1 & [H1 H2] & Hn & ->).
  apply last_thread in Hn as Ht. unfold resizeThread. cbn [thread index getLastThreadEvent].
  rewrite set_thread_size by (rewrite (sizes_threads g g1 H2); lia).
  pose proof (sizes_size g g1 tid H2) as Hs. unfold getThreadSize in *. rewrite length_take.
  destruct (label_at g _) eqn:El; [|done]. apply label_at_valid in El as [_ Hi]. cbn in Hi. unfold getThreadSize in Hi. lia.
Qed.

(** *** Reads-from edges *)

Lemma typed_addInitRf g r g' : typed g -> addInitRfToLoc g r = Ret g' -> typed g'.
Proof.
  intros Hg. unfold addInitRfToLoc. destruct (BUG_ON _); [|done..]. intros [= <-].
  apply typed_alter; [kept_setter|done].
Qed.
Lemma typed_detach r g o : typed g -> typed (detach_reader r g o).
Proof.
  intros Hg. unfold detach_reader, removeInitRfToLoc. repeat case_match; try done; (apply typed_alter; [kept_setter|done]).
Qed.
Lemma typed_attach r g s g' : typed g -> attach_reader r g s = Ret g' -> typed g'.
Proof.
  intros Hg. unfold attach_reader. destruct (getEventLabel g s) as [w| |] eqn:Ew; [|done..]. cbn [mbind outcome_bind].
  apply (typed_label _ _ _ Hg) in Ew as [Hp Hw]. destruct (Isa.WriteLabel (kind w)).
  - destruct (WriteLabel.addReader _ w) as [w'| |] eqn:Ea; [|done..]. intros [= <-]. apply kept_addReader in Ea.
    apply typed_put; [by eapply placed_kept|by rewrite (kp_pos _ _ Ea)|done].
  - destruct (BUG_ON _); [|done..]. by apply typed_addInitRf.
Qed.
Lemma typed_changeRf g r s g' : typed g -> changeRf g r s = Ret g' -> typed g'.
Proof.
  intros Hg. unfold changeRf. destruct (getEventLabel g r) as [rLab| |]; [|done..]. cbn [mbind outcome_bind].
  destruct (BUG_ON _); [|done..]. cbn [mbind outcome_bind]. destruct (if EventOps.isBottom s then _ else _) as [rf| |]; [|done..].
  cbn [mbind outcome_bind].
  assert (typed (match ReadLabel.getRf rLab with
                 | Some o => detach_reader rLab (alter_label (ReadLabel.setRf rf) r g) o
                 | None => alter_label (ReadLabel.setRf rf) r g end)) as H1.
  { assert (typed (alter_label (ReadLabel.setRf rf) r g)) by (apply typed_alter; [apply kept_setRf|done]).
    case_match; [by apply typed_detach|done]. }
  destruct (EventOps.isBottom s); [intros [= <-]; exact H1|]. by apply typed_attach.
Qed.
Lemma typed_changeRfs g r rfs g' : typed g -> changeRfs g r rfs = Ret g' -> typed g'.
Proof.
  intros Hg. unfold changeRfs. destruct (getEventLabel g r) as [rLab| |]; [|done..]. cbn [mbind outcome_bind].
  destruct (BUG_ON _); [|done..]. cbn [mbind outcome_bind]. destruct (resolve_rfs g rfs) as [l| |]; [|done..].
  cbn [mbind outcome_bind]. apply typed_mfold; [intros g1 x g2; apply typed_attach|].
  apply typed_foldl; [intros g1 x; apply typed_detach|]. apply typed_alter; [kept_setter|done].
Qed.
Lemma typed_addAlloc g a m g' : typed g -> addAlloc g a m = Ret g' -> typed g'.
Proof.
  intros Hg. unfold addAlloc. destruct a as [a|]; [|by intros [= <-]].
  assert (typed (alter_label (MemAccessLabel.setAlloc (Some a)) m g)) as H1 by (apply typed_alter; [kept_setter|done]).
  destruct (getEventLabel _ a) as [l| |] eqn:El; [|done..]. cbn [mbind outcome_bind].
  apply (typed_label _ _ _ H1) in El as [Hp Hl].
  destruct (MallocLabel.addAccess m l) as [l'| |] eqn:Ea; [|done..]. intros [= <-]. apply kept_addAccess in Ea.
  apply typed_put; [by eapply placed_kept|by rewrite (kp_pos _ _ Ea)|done].
Qed.
Lemma typed_trackCoherence g a : typed g -> typed (trackCoherenceAtLoc g a).
Proof. intros Hg. apply typed_alter; [kept_setter|]. by apply (typed_events g). Qed.
Lemma typed_addThread g : typed g -> typed (addNewThread g).
Proof.
  intros Hg. assert (forall e, label_at (addNewThread g) e = label_at g e) as E.
  { intros e. destruct (decide (valid e)); [|by rewrite !label_at_no_valid].
    rewrite !label_at_lookup by done. unfold addNewThread. cbn.
    destruct (decide (Z.to_nat (thread e) < length (events g))%nat); [by rewrite lookup_app_l|].
    rewrite lookup_app_r, (lookup_ge_None_2 (events g)) by lia. cbn.
    by destruct (Z.to_nat (thread e) - length (events g))%nat. }
  split; [intros e l|]; rewrite E; apply Hg.
Qed.
Lemma typed_addRecovery g : typed g -> typed (addRecoveryThread g).
Proof. intros Hg%typed_addThread. by apply (typed_events (addNewThread g)). Qed.

(** *** Restriction *)

Lemma kept_cut_rfs {V} `{VectorClock V} (v : V) todo l l' : cut_rfs v todo l = Ret l' -> kept l l'.
Proof.
  revert l. induction todo as [|[w a] todo IH]; intros l; cbn; [by intros [= <-]|].
  destruct (vc_contains v w); [apply IH|]. destruct todo; [|done]. intros [= <-]. kept_setter.
Qed.
Lemma kept_cut_label {V} `{VectorClock V} (v : V) l l' : cut_label v l = Ret l' -> kept l l'.
Proof.
  unfold cut_label. set (l1 := if Isa.WriteLabel (kind l) then _ else l).
  assert (kept l l1) as H1 by (unfold l1; case_match; [kept_setter|done]).
  destruct (if Isa.ReadLabel (kind l1) then _ else _) as [l2| |] eqn:E2; [|done..]. cbn [mbind outcome_bind].
  assert (kept l l2) as H2.
  { transitivity l1; [done|]. destruct (Isa.ReadLabel (kind l1)); [by eapply kept_cut_rfs|by injection E2 as <-]. }
  clearbody l1. clear H1 E2. set (l3 := if _ && _ then MemAccessLabel.setAlloc None l2 else l2).
  assert (kept l l3) as H3 by (transitivity l2; [done|]; unfold l3; case_match; [kept_setter|done]).
  set (l4 := if _ && _ then ThreadFinishLabel.setParentJoin None l3 else l3).
  assert (kept l l4) as H4 by (transitivity l3; [done|]; unfold l4; case_match; [kept_setter|done]).
  set (l5 := if _ && _ then FreeLabel.setAlloc None l4 else l4).
  assert (kept l l5) as H5 by (transitivity l4; [done|]; unfold l5; case_match; [kept_setter|done]).
  destruct (Isa.MallocLabel (kind l5)); [|by intros [= <-]]. intros [= <-]. transitivity l5; [done|].
  case_match; [kept_setter|]. clearbody l5. clear. kept_setter.
Qed.
Lemma restrict_threads_sub {V} `{VectorClock V} (v : V) thrs : forall i es,
  restrict_threads v i thrs = Ret es ->
  forall k thr', es !! k = Some thr' ->
    exists thr, thrs !! k = Some thr /\ thr' = take (Z.to_nat (vc_getMax v (i + Z.of_nat k) + 1)) thr.
Proof.
  induction thrs as [|thr thrs IH]; intros i es; cbn; [by intros [= <-]|].
  destruct (_ <=? _); [|done]. destruct (restrict_threads v (i + 1) thrs) as [tl| |] eqn:E; [|done..].
  intros [= <-] [|k] thr'; cbn.
  - intros [= <-]. exists thr. by rewrite Z.add_0_r.
  - intros Hk. destruct (IH _ _ E k thr' Hk) as (t & Ht & ->). exists t. split; [done|].
    by replace (i + 1 + Z.of_nat k) with (i + Z.of_nat (S k)) by lia.
Qed.
Lemma restrict_threads_head {V} `{VectorClock V} (v : V) thrs i es thr :
  restrict_threads v i thrs = Ret es -> thrs !! 0%nat = Some thr ->
  es !! 0%nat = Some (take (Z.to_nat (vc_getMax v i + 1)) thr).
Proof.
  destruct thrs as [|t thrs]; [done|]. cbn. destruct (_ <=? _); [|done].
  destruct (restrict_threads v (i + 1) thrs); [|done..]. by intros [= <-] [= ->].
Qed.
Lemma typed_restrict {V} `{VectorClock V} (v : V) g es :
  0 <= vc_getMax v 0 -> typed g -> restrict_threads v 0 (events g) = Ret es -> typed (set_events es g).
Proof.
  intros Hv Hg E.
  assert (forall e l, label_at (set_events es g) e = Some l -> label_at g e = Some l) as Hsub.
  { intros e l El. pose proof (label_at_valid _ _ _ El) as He. rewrite label_at_lookup in El |- * by done. cbn in El.
    destruct (es !! Z.to_nat (thread e)) as [thr'|] eqn:Et; [|done].
    destruct (restrict_threads_sub v _ _ _ E _ _ Et) as (thr & -> & ->). cbn in *.
    by apply lookup_take_Some in El as [El _]. }
  split; [intros e l El%Hsub; by apply Hg|]. destruct (ty_init g Hg) as [l El].
  rewrite label_at_lookup in El |- * by done. change (Z.to_nat (thread init_pos)) with 0%nat in *.
  change (Z.to_nat (index init_pos)) with 0%nat in *. cbn [set_events events].
  destruct (events g !! 0%nat) as [thr|] eqn:Et; [|done]. rewrite (restrict_threads_head v _ _ _ _ E Et).
  cbn [mbind option_bind] in *. rewrite lookup_take, decide_True by lia. by exists l.
Qed.
Lemma typed_cutToStamp g st g' : typed g -> cutToStamp g st = Ret g' -> typed g'.
Proof.
  intros Hg. unfold cutToStamp.
  destruct (StampView.getViewFromStamp_threads g st) as (v & -> & _ & Hv); [intros e l; by apply typed_stamped|].
  cbn [mbind outcome_bind]. assert (0 <= View.getMax v 0) as H0.
  { destruct (Hv 0) as (o & Ho & ->); [|destruct o; cbn; [by destruct Ho as [[]]|done]].
    split; [done|]. destruct (ty_init g Hg) as [l El]. apply label_at_some_iff_size in El as Hs.
    assert (containsPos g init_pos = true) as Hc by (apply label_at_some_iff; by eexists).
    unfold containsPos in Hc. rewrite !andb_true_iff in Hc. destruct Hc as [[[_ Hc] _] _]. by apply Z.ltb_lt in Hc. }
  unfold removeAfter. destruct (mfold (keep_step g) _ _) as [keep| |]; [|done..]. cbn [mbind outcome_bind].
  destruct (removeAfter_loop _ _ _ _ _ _) as [r| |]; [|done..]. cbn [mbind outcome_bind].
  set (g1 := alter_label _ init_pos _).
  assert (typed g1) as H1 by (apply typed_alter; [kept_setter|by apply (typed_events g)]).
  destruct (mfold (cut_step v) _ g1) as [g2| |] eqn:E2; [|done..]. cbn [mbind outcome_bind].
  assert (typed g2) as H2.
  { revert E2. apply typed_mfold; [|done]. intros g3 e g4 H3. unfold cut_step.
    destruct (getEventLabel g3 e) as [l| |] eqn:El; [|done..]. cbn [mbind outcome_bind].
    destruct (cut_label v l) as [l'| |] eqn:Ec; [|done..]. intros [= <-]. apply kept_cut_label in Ec.
    apply (typed_label _ _ _ H3) in El as [Hp Hl].
    apply typed_put; [by eapply placed_kept|by rewrite (kp_pos _ _ Ec)|done]. }
  destruct (restrict_threads v 0 (events g2)) as [es| |] eqn:Er; [|done..]. intros [= <-].
  by apply (typed_restrict v).
Qed.

(** Labels changed one by one. *)
Lemma typed_forall2 g es : Forall2 (Forall2 kept) (events g) es -> typed g -> typed (set_events es g).
Proof.
  intros HF Hg. assert (forall e, option_Forall2 kept (label_at g e) (label_at (set_events es g) e)) as Hat.
  { intros e. destruct (decide (valid e)); [|rewrite !label_at_no_valid by done; constructor].
    rewrite !label_at_lookup by done. cbn [set_events events].
    destruct (proj1 (Forall2_lookup _ _ _) HF (Z.to_nat (thread e))) as [thr thr' Ht|]; [|constructor].
    exact (proj1 (Forall2_lookup _ _ _) Ht (Z.to_nat (index e))). }
  apply (typed_from g); [| |done].
  - intros e l' El. specialize (Hat e). rewrite El in Hat. inversion Hat; subst. eauto.
  - pose proof (Hat init_pos) as H. destruct (ty_init g Hg) as [l El]. rewrite El in H. inversion H; subst. by eexists.
Qed.
Lemma kept_compress_thread st ls : forall n r, compress_thread st n ls = Ret r -> Forall2 kept ls (snd r).
Proof.
  induction ls as [|l ls IH]; intros n r; cbn; [intros [= <-]; constructor|].
  destruct (EventLabel.getStamp l) as [s| |]; [|done..]. cbn [mbind outcome_bind].
  destruct (s >? st); (destruct (compress_thread st _ ls) as [r'| |] eqn:E; [|done..]); intros [= <-];
    (constructor; [|by eapply IH]); [apply kept_setStamp|done].
Qed.
Lemma kept_compress_threads st thrs : forall n r, compress_threads st n thrs = Ret r -> Forall2 (Forall2 kept) thrs (snd r).
Proof.
  induction thrs as [|thr thrs IH]; intros n r; cbn; [intros [= <-]; constructor|].
  destruct (compress_thread st n thr) as [r1| |] eqn:E1; [|done..]. cbn [mbind outcome_bind].
  destruct (compress_threads st _ thrs) as [r2| |] eqn:E2; [|done..]. intros [= <-].
  constructor; [by eapply kept_compress_thread|by eapply IH].
Qed.
Lemma typed_compress g st g' : typed g -> compressStampsAfter g st = Ret g' -> typed g'.
Proof.
  intros Hg. unfold compressStampsAfter. destruct (compress_threads _ _ _) as [r| |] eqn:E; [|done..]. intros [= <-].
  apply (typed_events (set_events (snd r) g)); [done|]. apply typed_forall2; [|done]. by eapply kept_compress_threads.
Qed.

(** *** Copies *)

Section Copy.
Context {V : Type} `{VectorClock V} (v : V).
Lemma ok_clone l : LabelFacts.label_ok l = true -> LabelFacts.label_ok (clone_label l) = true.
Proof. apply kp_ok. kept_setter. Qed.
Lemma typed_copy_event g other e other' : typed g -> typed other -> copy_event g v other e = Ret other' -> typed other'.
Proof.
  intros Hg Ho. unfold copy_event. destruct (negb _); [by apply typed_add|].
  destruct (negb _); [by intros [= <-]|]. destruct (getEventLabel g e) as [l| |] eqn:El; [|done..]. cbn [mbind outcome_bind].
  apply (typed_label _ _ _ Hg) in El as [_ Hl]. destruct (addLabelToGraph _ _) as [o1| |] eqn:Ea; [|done..].
  apply typed_add in Ea; [|by apply ok_clone, Hl|done]. intros [= <-].
  assert (typed (if Isa.WriteLabel (kind l)
    then alter_label (WriteLabel.removeReader (fun r => negb (vc_contains v r))) e o1 else o1))
    by (destruct (Isa.WriteLabel (kind l)); [apply typed_alter; [kept_setter|]|]; done).
  destruct (Isa.MemAccessLabel (kind l)); [by apply typed_trackCoherence|done].
Qed.
Lemma typed_copy_thread g other i other' : typed g -> typed other -> copy_thread g v other i = Ret other' -> typed other'.
Proof.
  intros Hg Ho. unfold copy_thread. destruct (if i =? 0 then _ else _) as [o1| |] eqn:E1; [|done..]. cbn [mbind outcome_bind].
  apply typed_mfold; [intros g1 e g2 H1; by apply typed_copy_event|]. destruct (i =? 0); [by injection E1 as <-|].
  destruct (getEventLabel g _) as [l| |] eqn:El; [|done..]. apply (typed_label _ _ _ Hg) in El as [_ Hl].
  eapply typed_add; [|done|exact E1]. apply ok_clone, Hl.
Qed.
Lemma typed_fix_label g other e other' : typed other -> fix_label g v other e = Ret other' -> typed other'.
Proof.
  intros Ho. unfold fix_label. destruct (getEventLabel other e) as [l| |] eqn:El; [|done..]. cbn [mbind outcome_bind].
  intros E. apply (typed_label _ _ _ Ho) in El as [Hp Hl].
  match type of E with context [if Isa.ReadLabel (kind l) then ?x else l] => set (l1 := if Isa.ReadLabel (kind l) then x else l) in * end.
  assert (kept l l1) as K1 by (unfold l1; kept_if; [clear; kept_setter|done]). clearbody l1.
  destruct (if Isa.WriteLabel (kind l1) then _ else _) as [l2| |] eqn:E2; [|done..]. cbn [mbind outcome_bind] in E.
  assert (kept l l2) as K2.
  { transitivity l1; [done|]. destruct (Isa.WriteLabel (kind l1)); [|by injection E2 as <-].
    destruct (getEventLabel g e); [|done..]. cbn [mbind outcome_bind] in E2.
    destruct (copies_of _ _ _ _); [|done..]. injection E2 as <-. clear. kept_setter. }
  clear K1 E2.
  match type of E with context [if Isa.MemAccessLabel (kind l2) then ?x else l2] => set (l3 := if Isa.MemAccessLabel (kind l2) then x else l2) in * end.
  assert (kept l l3) as K3 by (transitivity l2; [done|]; unfold l3; kept_if; [clear; kept_setter|done]). clearbody l3.
  match type of E with context [if Isa.ThreadFinishLabel (kind l3) then ?x else l3] => set (l4 := if Isa.ThreadFinishLabel (kind l3) then x else l3) in * end.
  assert (kept l l4) as K4 by (transitivity l3; [done|]; unfold l4; kept_if; [clear; kept_setter|done]). clearbody l4.
  destruct (if Isa.MallocLabel (kind l4) then _ else _) as [l5| |] eqn:E5; [|done..]. cbn [mbind outcome_bind] in E.
  assert (kept l l5) as K5.
  { transitivity l4; [done|]. destruct (Isa.MallocLabel (kind l4)); [|by injection E5 as <-].
    destruct (getEventLabel g e); [|done..]. cbn [mbind outcome_bind] in E5.
    destruct (copies_of _ _ _ _); [|done..]. injection E5 as <-. clear. kept_setter. }
  clear K2 K3 K4 E5. injection E as <-.
  match goal with |- typed (alter_label (fun _ => ?l6) _ _) => assert (kept l l6) as K6 end.
  { transitivity l5; [done|]. kept_if; [clear; kept_setter|done]. }
  apply typed_put; [by eapply placed_kept|by rewrite (kp_pos _ _ K6)|done].
Qed.
Lemma typed_make g : make = Ret g -> typed g /\ length (events g) = 1%nat.
Proof.
  intros [= <-]. split; [|done]. split; [|by eexists].
  intros [t i] l. unfold label_at. cbn [thread index]. destruct (_ || _) eqn:Hneg; [done|]. cbn.
  rewrite orb_false_iff, !Z.ltb_ge in Hneg.
  destruct (Z.to_nat t) eqn:Et; [|done]. cbn. destruct (Z.to_nat i) eqn:Ei; [|done]. intros [= <-].
  assert (t = 0) as -> by lia. assert (i = 0) as -> by lia. split; [done|]. constructor; done.
Qed.
Lemma typed_nonempty g : typed g -> (0 < length (events g))%nat.
Proof.
  intros [_ [l El]]. rewrite label_at_lookup in El by done.
  destruct (events g !! Z.to_nat (thread init_pos)) eqn:E; [|done]. apply lookup_lt_Some in E. cbn in E. lia.
Qed.
Lemma typed_copyGraphUpTo g other other' :
  typed g -> typed other -> length (events other) = 1%nat -> copyGraphUpTo g other v = Ret other' -> typed other'.
Proof.
  intros Hg Ho Hlen. unfold copyGraphUpTo. set (o0 := mkGraph _ _ _ _).
  assert (typed o0) as H0.
  { pose proof (typed_nonempty g Hg). assert (forall e, label_at o0 e = label_at other e) as E.
    { intros e. destruct (decide (valid e)); [|by rewrite !label_at_no_valid].
      rewrite !label_at_lookup by done. unfold o0. cbn [events]. rewrite take_ge by lia.
      destruct (decide (Z.to_nat (thread e) < length (events other))%nat); [by rewrite lookup_app_l|].
      rewrite lookup_app_r, (lookup_ge_None_2 (events other)) by lia. cbn [mbind option_bind].
      destruct (replicate _ _ !! _) eqn:Er; [|done]. by apply lookup_replicate in Er as [-> _]. }
    split; [intros e l|]; rewrite E; apply Ho. }
  destruct (mfold (copy_thread g v) _ o0) as [o1| |] eqn:E1; [|done..]. cbn [mbind outcome_bind].
  assert (typed o1) as H1 by (revert E1; apply typed_mfold; [|done]; intros g1 i g2; by apply typed_copy_thread).
  destruct (mfold (fix_label g v) _ o1) as [o2| |] eqn:E2; [|done..]. cbn [mbind outcome_bind].
  assert (typed o2) as H2 by (revert E2; apply typed_mfold; [|done]; intros g1 i g2; by apply typed_fix_label).
  destruct (mfold (copy_store v) _ o2) as [o3| |] eqn:E3; [|done..]. cbn [mbind outcome_bind].
  assert (typed o3) as H3.
  { revert E3. apply typed_mfold; [|done]. intros g1 e g2 Ht. unfold copy_store.
    destruct (vc_contains v e); [|by intros [= <-]]. destruct (getEventLabel g1 e); [|done..]. intros [= <-].
    by apply (typed_events g1). }
  apply typed_mfold; [|done]. intros g1 b g2 Ht. unfold copy_init_bucket. destruct (InitLabel.bucket_get _ _); [|done].
  apply typed_mfold; [|done]. intros g3 r g4 Ht'. unfold copy_init_reader. destruct (vc_contains v r); [|by intros [= <-]].
  destruct (getEventLabel g3 r); [|done..]. by apply typed_addInitRf.
Qed.
Lemma typed_getCopyUpTo g other : typed g -> getCopyUpTo g v = Ret other -> typed other.
Proof.
  intros Hg. unfold getCopyUpTo. destruct make as [o| |] eqn:E; [|done..]. cbn [mbind outcome_bind].
  apply typed_make in E as [Ho Hlen]. by apply typed_copyGraphUpTo.
Qed.
End Copy.

(** *** The executions *)

Lemma typed_repairRead g lab g' : typed g -> Exec.repairRead g lab = Ret g' -> typed g'.
Proof.
  intros Hg. unfold Exec.repairRead. destruct (Exec.co_max _ _) as [w| |]; [|done..]. cbn [mbind outcome_bind].
  destruct (changeRf _ _ _) as [g1| |] eqn:E; [|done..]. apply typed_changeRf in E; [|done]. cbn [mbind outcome_bind].
  destruct (getEventLabel g1 w) as [l| |]; [|done..]. cbn [mbind outcome_bind].
  destruct (EventLabel.getStamp l); [|done..]. cbn [mbind outcome_bind].
  destruct (EventLabel.getStamp lab); [|done..]. intros [= <-]. apply typed_alter; [kept_setter|done].
Qed.
Lemma typed_repair g g' : typed g -> Exec.repairDanglingReads g = Ret g' -> typed g'.
Proof.
  intros Hg. apply typed_mfold; [|done]. intros g1 i g2 H1. unfold Exec.repair_last.
  destruct (getLastThreadLabel g1 i) as [l| |]; [|done..]. cbn [mbind outcome_bind].
  destruct (_ && _); [by apply typed_repairRead|by intros [= <-]].
Qed.
Lemma typed_restrict_execution st x x' : typed (graph x) -> Exec.restrict st x = Ret x' -> typed (graph x').
Proof.
  intros Hg. unfold Exec.restrict, Exec.restrictGraph.
  destruct (cutToStamp (graph x) st) as [g1| |] eqn:E1; [|done..]. apply typed_cutToStamp in E1; [|done].
  cbn [mbind outcome_bind]. destruct (compressStampsAfter g1 st) as [g2| |] eqn:E2; [|done..].
  apply typed_compress in E2; [|done]. cbn [mbind outcome_bind].
  destruct (Exec.repairDanglingReads g2) as [g3| |] eqn:E3; [|done..]. apply typed_repair in E3; [|done].
  cbn [mbind outcome_bind]. by intros [= <-].
Qed.
Lemma typed_copyGraph `{MM : MemoryModel} g r v g' : typed g -> RevisitCalc.copyGraph g r v = Ret g' -> typed g'.
Proof.
  intros Hg. unfold RevisitCalc.copyGraph. destruct (RevisitCalc.rev_of r) as [e| |]; [|done..]. cbn [mbind outcome_bind].
  destruct (getEventLabel g e) as [l| |]; [|done..]. cbn [mbind outcome_bind].
  destruct (getPrefixView g l) as [p| |]; [|done..]. cbn [mbind outcome_bind].
  destruct (getCopyUpTo g _) as [o1| |] eqn:E1; [|done..]. apply typed_getCopyUpTo in E1; [|done]. cbn [mbind outcome_bind].
  destruct (getEventLabel o1 _) as [r1| |]; [|done..]. cbn [mbind outcome_bind].
  destruct (EventLabel.getStamp r1) as [st| |]; [|done..]. cbn [mbind outcome_bind].
  destruct (compressStampsAfter o1 st) as [o2| |] eqn:E2; [|done..]. apply typed_compress in E2; [|done].
  intros [= <-]. apply typed_forall2; [|done]. apply Forall2_fmap_r, Forall_Forall2_diag, Forall_forall. intros thr _.
  apply Forall2_fmap_r, Forall_Forall2_diag, Forall_forall. intros x _. unfold compose.
  destruct (View.contains p (getPos x)); [by constructor|reflexivity].
Qed.
Lemma typed_place_rmw g r w g' : typed g -> Revisiting.place_rmw g r w = Ret g' -> typed g'.
Proof.
  intros Hg. unfold Revisiting.place_rmw. destruct (getStoresToLoc _ _) as [c| |]; [|done..]. cbn [mbind outcome_bind].
  destruct (Revisiting.split_coherence _ _ _); [|done..]. intros [= <-]. by apply (typed_events g).
Qed.
Lemma typed_symmetric `{MM : MemoryModel} g l g' : typed g -> Symmetry.updatePrefixWithSymmetriesSR g l = Ret g' -> typed g'.
Proof.
  intros Hg. unfold Symmetry.updatePrefixWithSymmetriesSR. intros E. steps E. destruct (_ =? -1) in E; [by injection E as <-|].
  steps E. injection E as <-. by apply typed_alter.
Qed.

(** *** The memory model *)

Class TypedModel (MM : MemoryModel) := {
  tm_views g l g' : typed g -> placed l -> updateMMViews g l = Ret g' -> typed g';
  tm_stores b g l g' ss : typed g -> getCoherentStores b g l = Ret (g', ss) -> typed g';
  tm_placings g l g' ss : typed g -> getCoherentPlacings g l = Ret (g', ss) -> typed g' }.
Lemma placed_later l l' : kept l l' -> placed l -> placed l' /\ getPos l' = getPos l.
Proof. intros Hk Hl. split; [by eapply placed_kept|by apply kp_pos]. Qed.
Lemma typed_updateMMViews g l g' : typed g -> placed l -> RAViews.Calc.updateMMViews g l = Ret g' -> typed g'.
Proof.
  intros Hg Hl. unfold RAViews.Calc.updateMMViews. cbv zeta. set (l1 := EventLabel.setCalculated _ l).
  assert (kept l l1) as K1 by by constructor. destruct (placed_later _ _ K1 Hl) as [Hl1 Hp1].
  set (g1 := alter_label _ _ g). assert (typed g1) as H1 by (by apply typed_put).
  destruct (RAViews.Calc.calculateViews g1 l1) as [vs| |]; [|done..]. cbn [mbind outcome_bind].
  set (l2 := EventLabel.setViews vs l1). assert (kept l1 l2) as K2 by by constructor.
  destruct (placed_later _ _ K2 Hl1) as [Hl2 Hp2].
  set (g2 := alter_label _ _ g1). assert (typed g2) as H2 by (by apply typed_put).
  destruct (RAViews.Calc.calculatePrefixView g2 l2) as [pv| |]; [|done..]. intros [= <-].
  assert (kept l2 (EventLabel.setPrefixView pv l2)) as K3 by by constructor.
  destruct (placed_later _ _ K3 Hl2). by apply typed_put.
Qed.
#[export] Instance typed_RADriver : TypedModel RADriver.
Proof.
  split; cbn.
  - apply typed_updateMMViews.
  - intros b g l g' ss Hg. unfold Coherence.getCoherentStores, Coherence.touchLoc. intros E. steps E.
    assert (g' = set_coherence (InitLabel.bucket_alter id (getBucket (acc_addr (MemAccessLabel.getAccess l))) (coherence g)) g) as ->
      by (destruct b; [by injection E as <-|]; steps E; by injection E as <-).
    by apply (typed_events g).
  - intros g l g' ss Hg. unfold Coherence.getCoherentPlacings, Coherence.touchLoc. intros E.
    assert (events g' = events g) as Eg; [|by apply (typed_events g)].
    repeat (first [progress steps E | case_match; try discriminate E]); injection E as <- _; done.
Qed.
End Typed.
