(* ===== verification/Backtrack.v ===== *)
(** * Coherence placings, backward revisits and taking a backtracking option
    (src/src/GenMCDriver.cpp). *)
From S2P Require Import Prelude Event SVal SAddr VSet SExpr Deps Views Labels LabelClasses Graph Iterators RAViews RARace RACoherence Revisits Interp Execution MemoryModel Driver Checks Symmetry Schedule Permutations RfOptions RevisitCalc Revisiting.
#[local] Open Scope Z_scope.

Module Backtrack.
Import ExecutionGraph GraphIterators Coherence Drv Checks Schedule RfOptions RevisitCalc Revisiting.

(** ** Placing a store in a mixed-size coherence order *)

(** The order of the stores at each byte of the word. *)
Definition byte_coherence (g : Graph) (coh : list Event) (bucket i : Z) : outcome (list Event) :=
  ls ← deref_all g coh;
  Ret (map getPos (List.filter (fun l => MemAccessLabel.overlaps l (mkAccess (SAddr.add bucket i) 1 Signed)) ls)).
Fixpoint collect {A B} (f : A -> outcome B) (l : list A) : outcome (list B) :=
  match l with
  | [] => Ret []
  | x :: l => y ← f x; ys ← collect f l; Ret (y :: ys)
  end.
Definition getPerByteCoherence (g : Graph) (coh : list Event) (access : AAccess) : outcome (list (list Event)) :=
  collect (byte_coherence g coh (SAddr.align (acc_addr access))) (seqZ 0 8).

(** The store after [lsize] overlapping stores, and its index.  The first
    component of the loop is what is pushed. *)
Fixpoint insert_after (g : Graph) (sLab : Label) (n : nat) (coh : list Event) : outcome (list Event) :=
  match coh with
  | [] => Ret []
  | e :: coh =>
      l ← getEventLabel g e;
      if MemAccessLabel.overlaps_lab sLab l then
        match n with
        | 1%nat => Ret (e :: getPos sLab :: coh)
        | _ => r ← insert_after g sLab (pred n) coh; Ret (e :: r)
        end
      else r ← insert_after g sLab n coh; Ret (e :: r)
  end.
Definition constructCoSeq (g : Graph) (coh : list Event) (lsize : nat) (sLab : Label) : outcome (list Event) :=
  match lsize with O => Ret (getPos sLab :: coh) | _ => insert_after g sLab lsize coh end.

(** Keys in the order of [cmpOrders]: lexicographic on lists of lists. *)
Fixpoint lex {A} (ltb : A -> A -> bool) (l k : list A) : bool :=
  match l, k with
  | _, [] => false
  | [], _ :: _ => true
  | x :: l, y :: k => if ltb x y then true else if ltb y x then false else lex ltb l k
  end.
Definition cmpOrders : list (list Event) -> list (list Event) -> bool := lex (lex EventOps.EventL2RCompare).
Fixpoint cache_set (k : list (list Event)) (v : list Event) (m : list (list (list Event) * list Event)) :
    list (list (list Event) * list Event) :=
  match m with
  | [] => [(k, v)]
  | p :: m' => if cmpOrders k (fst p) then (k, v) :: m
               else if cmpOrders (fst p) k then p :: cache_set k v m' else (k, v) :: m'
  end.

Section Methods.
Context `{P : Program} `{C : Config} `{MM : MemoryModel}.

(** A coherence-successor makes the placing impossible. *)
Fixpoint bad_placing (g : Graph) (lab : Label) (remaining : list Z) (succs : list Event) : outcome bool :=
  match succs with
  | [] => Ret false
  | pos :: succs =>
      nLab ← getEventLabel g pos;
      let overlap := AccessOps.getOverlap (MemAccessLabel.getAccess nLab) remaining in
      if negb (bool_decide (overlap = [])) && isRMWStore nLab then Ret true
      else
        before ← (if MemAccessLabel.overlaps_lab lab nLab
                  then MemoryModel.isWriteRfBefore g pos (getPos lab) (MemAccessLabel.getAccess lab) else Ret false);
        if before : bool then Ret true else bad_placing g lab (AccessOps.subtract remaining overlap) succs
  end.
Definition try_placing (g : Graph) (lab : Label) (coh : list Event) (m : list (list (list Event) * list Event))
    (i : nat) : outcome (list (list (list Event) * list Event)) :=
  newCoh ← constructCoSeq g coh i lab;
  succs ← after (getPos lab) newCoh;
  bad ← bad_placing g lab (AccessOps.WordFragment (MemAccessLabel.getAccess lab)) succs;
  if bad : bool then Ret m
  else k ← getPerByteCoherence g newCoh (MemAccessLabel.getAccess lab); Ret (cache_set k newCoh m).
Definition try_permutation (g : Graph) (lab : Label) (order : list (list Event)) (overlapping : nat)
    (m : list (list (list Event) * list Event)) (coh : list Event) :
    outcome (list (list (list Event) * list Event)) :=
  o ← getPerByteCoherence g coh (MemAccessLabel.getAccess lab);
  if bool_decide (o = order) then mfold (try_placing g lab coh) (seq 0 overlapping) m else Ret m.
Definition mixed_placings (g : Graph) (lab : Label) : outcome (list (list Event)) :=
  coh ← getStoresToLoc g (MemAccessLabel.getAddr lab);
  order ← getPerByteCoherence g coh (MemAccessLabel.getAccess lab);
  over ← co g (MemAccessLabel.getAccess lab);
  m ← mfold (try_permutation g lab order (length over)) (fst (Permutations.for_each_permutation coh)) [];
  Ret (map snd m).

(** ** Placing a store *)

(** The index in the bucket of an iterator, given as the stores from it on. *)
Definition co_index (g : Graph) (lab : Label) (it : list Event) : outcome nat :=
  ss ← getStoresToLoc g (MemAccessLabel.getAddr lab);
  match it with
  | [] => Ret (length ss)
  | e :: _ => l ← after e ss; Ret (length ss - S (length l))%nat
  end.
Definition add_at (pos : Event) (it : list Event) : M unit :=
  lab ← labelOf pos;
  inGraph (fun g => n ← co_index g lab it; Ret (addStoreToCO g lab n)).
(** A [VSet] made of a vector has its elements in their order. *)
Definition setChoices (stamp : Z) (es : list Event) : M unit :=
  x ← getExecution;
  putExecution (Exec.set_choices (OrderedMap.alter [] (fun _ => es) stamp (choices x)) x).
(** [MyDist dist(0, n); dist(estRng)] *)
Definition random_upto (n : Z) : M Z :=
  r ← gets estRng;
  let '(k, r) := uniform 0 n r in
  modify (fun d => set_rngs (rng d) r d);; mret k.
Definition same_access (a b : AAccess) : bool := (acc_addr a =? acc_addr b) && (acc_size a =? acc_size b).
Definition warn_race (pos : Event) (racy : bool) : M unit :=
  if racy then _ ← reportWarningOnce pos VE_WWRace; mret tt else mret tt.
Definition before_store (pos : Event) (access : AAccess) (succ : Event) : M bool :=
  onGraph (fun g =>
    l ← getEventLabel g succ;
    if isRMWStore l then Ret false else negb <$> MemoryModel.isWriteRfBefore g succ pos access).
Definition calcCoOrderings (pos : Event) : M unit :=
  lab ← labelOf pos;
  range ← viaGraph (fun g => MemoryModel.getCoherentPlacings g lab);
  let places := Coherence.range (fst range) (snd range) in
  let racy := negb (bool_decide (places = [])) in
  st ← getStamp pos;
  estimating ← inEstimationMode;
  if estimating : bool then
    k ← random_upto (Z.of_nat (length places));
    add_at pos (drop (Z.to_nat k) (fst range));;
    setChoices st (places ++ [EventOps.getBottom]);;
    warn_race pos racy
  else
    accs ← onGraph (fun g => ls ← deref_all g places; Ret (map MemAccessLabel.getAccess ls));
    (if forallb (fun a => same_access a (MemAccessLabel.getAccess lab)) accs then
       succs ← filterMM (before_store pos (MemAccessLabel.getAccess lab)) places;
       forM succs (fun s => addToWorklist st (Revisits.WriteForwardRevisit pos s))
     else
       seqs ← onGraph (fun g => mixed_placings g lab);
       forM seqs (fun s => addToWorklist st (Revisits.WriteRevisitMIXER pos pos s)));;
    add_at pos (snd range);;
    warn_race pos racy.

(** ** Backward revisits *)

Definition addChoice (sLab : Label) (l : Event) : M unit :=
  s ← getStamp l;
  x ← getExecution;
  putExecution (Exec.set_choices (OrderedMap.alter [] (fun c => VSet.insert1 EventOps.ltb c (getPos sLab)) s (choices x)) x).
Definition keep_sets (sLab rLab : Label) : M (list (list Event)) :=
  if negb conf_mixer then mret []
  else
    accs ← onGraph (fun g => ss ← co g (MemAccessLabel.getAccess rLab); ls ← deref_all g ss;
                             Ret (map MemAccessLabel.getAccess ls));
    if forallb (fun a => same_access a (MemAccessLabel.getAccess rLab)) accs then mret [[]]
    else onGraph (fun g => enumerateKeepCandidates g rLab (getPos sLab)).
Definition push_revisit (sLab rLab : Label) (keepSet : list Event) (rfs : RfsT) : M unit :=
  br ← onGraph (fun g => constructBackwardRevisit g rLab sLab rfs keepSet);
  ok ← onGraph (fun g => isMaximalExtension g br);
  if ok : bool then s ← getStamp (getPos sLab); addToWorklist s br else mret tt.
(** Under MIXER the schedule is from left to right, and only reads left of the
    store are revisited. *)
Definition is_ltr : bool := match conf_schedulePolicy with ltr => true | _ => false end.
Definition revisit_load (store l : Event) : M unit :=
  sLab ← labelOf store;
  rLab ← readAt l;
  lift (BUG_ON (conf_mixer && negb is_ltr));;
  if conf_mixer && negb (EventOps.EventL2RCompare l store) then mret tt
  else
    keepSets ← keep_sets sLab rLab;
    stores ← getRfsApproximation rLab;
    lift (BUG_ON (negb (bool_decide (store ∈ stores))));;
    forM keepSets (fun keepSet =>
      let mustUse := VSet.of_range EventOps.EventL2RCompare (keepSet ++ [store]) in
      options ← onGraph (fun g => enumerateRfOptions g stores (MemAccessLabel.getAccess rLab) rLab mustUse);
      forM options (push_revisit sLab rLab keepSet)).
Definition calcRevisits (store : Event) : M bool :=
  sLab ← labelOf store;
  loads ← getRevisitableApproximation sLab;
  r ← tryOptimizeRevisits store loads;
  if fst r : bool then mret true
  else
    estimating ← inEstimationMode;
    (if estimating : bool then forM (snd r) (addChoice sLab) else forM (snd r) (revisit_load store));;
    sLab ← labelOf store;
    ok ← checkAtomicity sLab;
    ok ← (if ok : bool then checkRevBlockHELPER sLab (snd r) else mret false);
    if negb ok then mret false else negb <$> isMoot.

(** ** Taking an option *)

Definition revisitWrite (pos : Event) (r : Revisits.Revisit) : M bool :=
  wLab ← labelOf pos;
  lift (BUG_ON (negb (Isa.WriteLabel (kind wLab))));;
  inGraph (fun g => Ret (removeStoreFromCO g wLab));;
  (match r with
   | Revisits.WriteRevisitMIXER _ _ seq =>
       inGraph (fun g => Ret (set_coherence (InitLabel.bucket_alter (fun _ => seq)
         (getBucket (MemAccessLabel.getAddr wLab)) (coherence g)) g))
   | Revisits.WriteForwardRevisit _ succ => add_at pos [succ]
   | _ => lift Undef
   end);;
  alterLabel (MemAccessLabel.setAddedMax false) pos;;
  calcRevisits pos.
Definition setOptional (expandable expanded : bool) (l : Label) : Label :=
  match payload l with POptional _ _ => EventLabel.setPayload (POptional expandable expanded) l | _ => l end.
Definition revisitOptional (pos : Event) : M bool :=
  oLab ← labelOf pos;
  modify (fun d => set_result (count 0 (-1) 0 (result d)) d);;
  lift (BUG_ON (negb (Isa.OptionalLabel (kind oLab))));;
  alterLabel (setOptional false true) pos;;
  mret true.

Definition read_maximal (r : Revisits.Revisit) (dflt : outcome bool) : outcome bool :=
  match Revisits.isMaximal r with Some m => Ret m | None => dflt end.
(** A barrier wait that reads another value than the initial one blocks. *)
Definition block_barrier (rLab : Label) : M unit :=
  if negb (Isa.BWaitReadLabel (kind rLab)) then mret tt
  else
    v ← getReadValue rLab;
    init ← getBarrierInitValue (MemAccessLabel.getAccess rLab);
    if SVal.eqb v init then mret tt else blockThread (Make.BarrierBlockLabel (EventOps.next (getPos rLab))).
Definition prioritize_speculative (rLab : Label) : M unit :=
  oLab ← onGraph (fun g => getPreviousLabelST g rLab (fun l => Isa.SpeculativeReadLabel (kind l)));
  if conf_helper && (Isa.SpeculativeReadLabel (kind rLab) || bool_decide (is_Some oLab))
  then prioritize [getPos rLab] else mret tt.
Definition block_lock (rLab : Label) : M unit :=
  if negb (Isa.LockCasReadLabel (kind rLab)) then mret tt
  else
    blockThread (Make.LockNotAcqBlockLabel (EventOps.next (getPos rLab)));;
    match conf_bound, ReadLabel.getRf rLab with
    | None, Some w => prioritize [w]
    | None, None => lift Undef
    | Some _, _ => mret tt
    end.
(** The write of a completed RMW is revisited in turn. *)
Definition complete_or (pos : Event) (rest : M unit) : M bool :=
  sLab ← completeRevisitedRMW pos;
  match sLab with Some s => calcRevisits s | None => rest;; mret true end.
Definition revisitRead (r : Revisits.Revisit) : M bool :=
  lift (BUG_ON (negb (Revisits.isReadRevisit r)));;
  let pos := Revisits.getPos r in
  rLab ← labelOf pos;
  rev ← lift (rev_of r);
  lift (BUG_ON (negb (Isa.ReadLabel (kind rLab))));;
  inGraph (fun g => changeRf g pos rev);;
  m ← onGraph (fun g => read_maximal r (isCoMaximal g (MemAccessLabel.getAccess rLab) rev));
  alterLabel (fun l => ReadLabel.setIPRStatus false (MemAccessLabel.setAddedMax m l)) pos;;
  rLab ← labelOf pos;
  gone ← removeCASReadIfBlocks rLab rev;
  if gone : bool then mret true
  else complete_or pos (block_barrier rLab;; block_lock rLab;; prioritize_speculative rLab).
Definition revisitReadMIXER (r : Revisits.Revisit) (rfs : RfsT) : M bool :=
  let pos := Revisits.getPos r in
  rLab ← readAt pos;
  inGraph (fun g => changeRfs g pos rfs);;
  m ← onGraph (fun g => read_maximal r (areCoMaximal g rfs));
  alterLabel (fun l => ReadLabel.setIPRStatus false (MemAccessLabel.setAddedMax m l)) pos;;
  rLab ← labelOf pos;
  complete_or pos (block_barrier rLab;; prioritize_speculative rLab).

(** A forward revisit of a read by one store stops the process: the call below
    [BUG()] is not reached. *)
Definition forwardRevisit (r : Revisits.Revisit) : M bool :=
  match r with
  | Revisits.WriteForwardRevisit pos _ | Revisits.WriteRevisitMIXER pos _ _ => revisitWrite pos r
  | Revisits.OptionalForwardRevisit pos => revisitOptional pos
  | Revisits.RerunForwardRevisit => mret true
  | Revisits.ReadForwardRevisitMIXER _ rfs => revisitReadMIXER r rfs
  | _ => lift Bug
  end.
Definition recalculated_view (r : Revisits.Revisit) (read store : Event) : M View.t :=
  onGraph (fun g =>
    match r with
    | Revisits.BackwardRevisitMIXER _ _ v _ => Ret v
    | _ =>
        rLab ← getEventLabel g read;
        sLab ← getEventLabel g store;
        mid ← match Revisits.getMid r with Some m => Some <$> getEventLabel g m | None => Ret None end;
        getRevisitView g rLab sLab mid []
    end).
Definition backwardRevisit (r : Revisits.Revisit) : M bool :=
  store ← lift (rev_of r);
  v ← recalculated_view r (Revisits.getPos r) store;
  x ← getExecution;
  og ← lift (copyGraph (graph x) r v);
  m ← lift (createChoiceMapForCopy (graph x) og (choices x));
  pushExecution (mkExecution og m []);;
  inGraph Exec.repairDanglingReads;;
  ok ← match r with Revisits.BackwardRevisitMIXER _ _ _ rfs => revisitReadMIXER r rfs | _ => revisitRead r end;
  lift (BUG_ON (negb ok && negb conf_mixer));;
  mret true.
Definition restrictAndRevisit (stamp : Z) (item : Revisits.Revisit) : M bool :=
  x ← getExecution;
  x ← lift (Exec.restrict stamp x);
  putExecution x;;
  modify (set_lastAdded (Revisits.getPos item));;
  if Revisits.isForwardRevisit item then forwardRevisit item
  else if Revisits.isBackwardRevisit item then backwardRevisit item
  else lift Bug.

Definition isRevisitValid (r : Revisits.Revisit) : M bool :=
  let pos := Revisits.getPos r in
  mLab ← labelOf pos;
  if negb (Isa.MemAccessLabel (kind mLab)) then mret true
  else
    ok ← isExecutionValid pos;
    if negb ok then mret false
    else
      err ← (if Isa.ReadLabel (kind mLab) then checkInitializedMem_read mLab else mret VE_OK);
      if negb (bool_decide (err = VE_OK)) then mret false
      else
        mLab ← labelOf pos;
        nLab ← onGraph (fun g => getNextLabel g pos);
        rmw ← onGraph (fun g => isRMWLoad g mLab);
        if negb rmw then mret true
        else match nLab with
             | None => lift Undef
             | Some n =>
                 ok ← isExecutionValid (getPos n);
                 if negb ok then mret false
                 else err ← checkForRaces (getPos n); mret (bool_decide (err = VE_OK))
             end.

End Methods.
End Backtrack.
