(* ===== verification/Handlers.v ===== *)
(** * The handlers of the driver (src/src/GenMCDriver.cpp) and their dispatcher
    (src/src/DriverHandlerDispatcher.hpp).

    A handler takes the label the interpreter made and returns what the
    interpreter continues with; [None] is [std::nullopt], after which the thread
    is reset. *)
From Stdlib Require Import String.
From S2P Require Import Prelude Event SVal SAddr VSet SExpr Deps Views Labels LabelClasses Graph Iterators Bounds RAViews RARace RACoherence Revisits Interp Execution MemoryModel Driver Checks Symmetry Schedule RfOptions RevisitCalc Revisiting Backtrack.
#[local] Open Scope Z_scope.

(** Setters of labels the handlers use (EventLabel.hpp). *)
Module HandlerLabels.
Definition setChildId (cid : Z) (l : Label) : Label :=
  match payload l with
  | PThreadCreate i =>
      EventLabel.setPayload (PThreadCreate (mkThreadInfo cid (ti_parentId i) (ti_funId i) (ti_arg i) (ti_symmId i))) l
  | _ => l
  end.
Definition getChildInfo (l : Label) : outcome ThreadInfo :=
  match payload l with PThreadCreate i => Ret i | _ => Undef end.
Definition getBlockChild (l : Label) : Z := match payload l with PJoinBlock c => c | _ => 0 end.
Definition getReadOptAddr (l : Label) : Z := match payload l with PReadOpt a => a | _ => 0 end.
Definition isExpanded (l : Label) : bool := match payload l with POptional _ e => e | _ => false end.
Definition isExpandable (l : Label) : bool := match payload l with POptional e _ => e | _ => false end.
Definition setExpandable (b : bool) (l : Label) : Label :=
  match payload l with POptional _ e => EventLabel.setPayload (POptional b e) l | _ => l end.
Definition getFd (l : Label) : Z := match payload l with PDskOpen _ fd => fd | _ => 0 end.
Definition setFd (fd : Z) (l : Label) : Label :=
  match payload l with PDskOpen n _ => EventLabel.setPayload (PDskOpen n fd) l | _ => l end.
End HandlerLabels.

Module Handlers.
Import ExecutionGraph GraphIterators EdgeLabels Coherence Drv Checks Schedule RfOptions RevisitCalc Revisiting
  Backtrack HandlerLabels.
Section Methods.
Context `{P : Program} `{C : Config} `{MM : MemoryModel}.

(** ** Handlers that only add the label *)

Definition add_new (lab : Label) : M unit :=
  b ← isExecutionDrivenByGraph lab; if b : bool then mret tt else addLabelToGraph lab.
Definition handleThreadKill (lab : Label) : M unit :=
  b ← isExecutionDrivenByGraph lab; lift (BUG_ON b);; addLabelToGraph lab.
Definition handleFenceLKMM : Label -> M unit := add_new.
Definition handleFence (lab : Label) : M unit :=
  if Isa.SmpFenceLabelLKMM (kind lab) then handleFenceLKMM lab else add_new lab.
Definition handleCLFlush : Label -> M unit := add_new.
Definition handleHpProtect : Label -> M unit := add_new.
Definition handleRCULockLKMM : Label -> M unit := add_new.
Definition handleRCUUnlockLKMM : Label -> M unit := add_new.
Definition handleRCUSyncLKMM : Label -> M unit := add_new.
Definition handleDskFsync : Label -> M unit := add_new.
Definition handleDskSync : Label -> M unit := add_new.
Definition handleDskPbarrier : Label -> M unit := add_new.
Definition handleLoopBegin : Label -> M unit := add_new.
Definition handleBlock (lab : Label) : M unit :=
  b ← isExecutionDrivenByGraph lab;
  if b : bool then mret tt else addLabelToGraph (clone_label lab);; blockThreadTryMoot lab.

(** ** Threads *)

(** The thread whose start names the position as its creation, or the next free
    identifier. *)
Fixpoint find_child (g : Graph) (parent : Event) (tids : list Z) : outcome Z :=
  match tids with
  | [] => Ret (getNumThreads g)
  | cid :: tids =>
      if isThreadEmpty g cid then find_child g parent tids
      else
        bLab ← getEventLabel g (getFirstThreadEvent cid);
        _ ← BUG_ON (negb (Isa.ThreadStartLabel (kind bLab)));
        if decide (getParentCreate bLab = parent) then Ret cid else find_child g parent tids
  end.
Definition handleThreadCreate (tcLab : Label) : M Z :=
  let pos := getPos tcLab in
  b ← isExecutionDrivenByGraph tcLab;
  if b : bool then lab ← labelOf pos; info ← lift (getChildInfo lab); mret (ti_id info)
  else
    cid ← onGraph (fun g => find_child g pos (seqZ 0 (getNumThreads g)));
    let lab := setChildId cid tcLab in
    addLabelToGraph lab;;
    info ← lift (getChildInfo lab);
    inEE (Interp.constructAddThreadFromInfo threadLocalVars startFrame info);;
    g ← getGraph;
    (if cid =? getNumThreads g then
       putGraph (addNewThread g);;
       n ← onEE (fun e => Ret (Interp.getNumThreads e));
       lift (BUG_ON (negb (n =? getNumThreads g + 1)))
     else lift (BUG_ON (negb (getThreadSize g cid =? 1)));; inGraph (fun g => removeLast g cid));;
    symm ← onGraph (fun g => Symmetry.getSymmetricTidSR g lab info);
    addLabelToGraph (Make.ThreadStartLabel (mkEvent cid 0) Acquire pos info symm);;
    mret cid.
Definition handleThreadJoin (lab : Label) : M (option Z) :=
  let pos := getPos lab in
  let cid := join_getChildId lab in
  b ← isExecutionDrivenByGraph lab;
  if b : bool then l ← labelOf pos; v ← onGraph (fun g => getJoinValue g l); mret (Some v)
  else
    last ← onGraph (fun g => getLastThreadLabel g cid);
    if negb (Isa.ThreadFinishLabel (kind last)) then blockThread (Make.JoinBlockLabel pos cid);; mret None
    else
      addLabelToGraph lab;;
      eLab ← onGraph (fun g => getLastThreadLabel g cid);
      lift (BUG_ON (negb (Isa.ThreadFinishLabel (kind eLab))));;
      alterLabel (ThreadFinishLabel.setParentJoin (Some pos)) (getPos eLab);;
      g ← getGraph;
      if (cid <? 0) || (getNumThreads g <=? cid) || (cid =? thread pos)
      then reportError pos VE_InvalidJoin true;; mret (Some 0)
      else
        exceeds ← partialExecutionExceedsBound;
        if exceeds : bool then moot;; mret None
        else jLab ← labelOf pos; v ← onGraph (fun g => getJoinValue g jLab); mret (Some v).
Definition relieve (tid i : Z) : M unit :=
  pLab ← onGraph (fun g => getLastThreadLabel g i);
  if Isa.JoinBlockLabel (kind pLab) && (getBlockChild pLab =? tid) then unblockThread (getPos pLab) else mret tt.
Definition moot_if_exceeds : M unit :=
  exceeds ← partialExecutionExceedsBound; if exceeds : bool then moot else mret tt.
Definition handleThreadFinish (eLab : Label) : M unit :=
  b ← isExecutionDrivenByGraph eLab;
  if b : bool then mret tt
  else
    addLabelToGraph eLab;;
    ts ← all_tids;
    forM ts (relieve (EventLabel.getThread eLab));;
    moot_if_exceeds.

(** ** Spin loops *)

Definition is_fai (l : Label) : bool := Isa.FaiReadLabel (kind l) || Isa.FaiWriteLabel (kind l).
(** The last FAI write before a label; null is dereferenced. *)
Definition last_fai_write (g : Graph) (l : Label) : outcome Label :=
  Bounds.some (getPreviousLabelST g l (fun l => Isa.FaiWriteLabel (kind l))).
Definition reconsider_thread (pos : Event) (i : Z) : M unit :=
  eLab ← onGraph (fun g => getLastThreadLabel g i);
  if negb (Isa.FaiZNEBlockLabel (kind eLab)) then mret tt
  else
    faiLab ← onGraph (fun g => last_fai_write g eLab);
    lab ← labelOf pos;
    if negb (MemAccessLabel.getAddr faiLab =? MemAccessLabel.getAddr lab) || is_fai lab then mret tt
    else
      v ← lift (getHbView faiLab);
      if View.contains v pos then mret tt
      else
        unblockThread (getPos eLab);;
        addLabelToGraph (Make.FaiZNESpinEndLabel (getPos eLab) DepInfo.no_deps).
Definition checkReconsiderFaiSpinloop (pos : Event) : M unit := ts ← all_tids; forM ts (reconsider_thread pos).
Definition checkReconsiderReadOpts (sLab : Label) : M unit :=
  ts ← all_tids;
  forM ts (fun i =>
    bLab ← onGraph (fun g => getLastThreadLabel g i);
    if Isa.ReadOptBlockLabel (kind bLab) && (getReadOptAddr bLab =? MemAccessLabel.getAddr sLab)
    then unblockThread (getPos bLab) else mret tt).

(** A write that stores the value it read, by an exchange, has no effect. *)
Definition isWriteEffectful (wLab : Label) : M bool :=
  if negb (Isa.FaiWriteLabel (kind wLab)) then mret true
  else
    rLab ← onGraph (fun g => Bounds.some (getPreviousLabel g (getPos wLab)));
    match RmwReadLabel.getOp rLab with
    | None => lift Undef
    | Some op =>
        if negb (op =? Interp.Xchg) then mret true
        else v ← getReadValue rLab; mret (negb (SVal.eqb v (WriteLabel.getVal wLab)))
    end.
Definition observed (wLab l : Label) : bool :=
  EventLabel.isAtLeastRelease l
  || Isa.ReadLabel (kind l) && (MemAccessLabel.getAddr l =? MemAccessLabel.getAddr wLab).
(** The labels of a thread at the indices [lo, .., hi - 1]. *)
Definition labels_between (g : Graph) (tid lo hi : Z) : outcome (list Label) :=
  deref_all g (map (mkEvent tid) (seqZ lo (hi - lo))).
Definition isWriteObservable (g : Graph) (wLab : Label) : outcome bool :=
  if EventLabel.isAtLeastRelease wLab || negb (SAddr.isDynamic (MemAccessLabel.getAddr wLab)) then Ret true
  else
    mLab ← getPreviousLabelST g wLab
             (fun l => Isa.MallocLabel (kind l) && MallocLabel.contains l (MemAccessLabel.getAddr wLab));
    match mLab with
    | None => Ret true
    | Some m =>
        ls ← labels_between g (EventLabel.getThread wLab) (EventLabel.getIndex m + 1) (EventLabel.getIndex wLab);
        Ret (existsb (observed wLab) ls)
    end.
Definition side_effect (l : Label) : M bool :=
  if negb (Isa.WriteLabel (kind l)) then mret false
  else b ← isWriteEffectful l; if b : bool then onGraph (fun g => isWriteObservable g l) else mret false.
Definition handleSpinStart (lab : Label) : M unit :=
  let pos := getPos lab in
  b ← isExecutionDrivenByGraph lab;
  if b : bool then mret tt
  else
    addLabelToGraph lab;;
    stLab ← labelOf pos;
    lbLab ← onGraph (fun g => getPreviousLabelST g stLab (fun l => Isa.LoopBeginLabel (kind l)));
    match lbLab with
    | None => lift Bug
    | Some lb =>
        pLab ← onGraph (fun g => getPreviousLabelST g stLab (fun l =>
          Isa.SpinStartLabel (kind l) && (EventLabel.getIndex l >? EventLabel.getIndex lb)));
        match pLab with
        | None => mret tt
        | Some p =>
            ls ← onGraph (fun g => labels_between g (thread pos) (EventLabel.getIndex p + 1) (index pos));
            b ← existsMM side_effect ls;
            if b : bool then mret tt else blockThreadTryMoot (Make.SpinloopBlockLabel pos)
        end
    end.
Definition areFaiZNEConstraintsSat (g : Graph) (lab : Label) : outcome bool :=
  ssLab ← getPreviousLabelST g lab (fun l => Isa.SpinStartLabel (kind l));
  match ssLab with
  | None => Bug
  | Some ss =>
      ls ← labels_between g (EventLabel.getThread lab) (EventLabel.getIndex ss + 1) (EventLabel.getIndex lab);
      if existsb (fun l => Isa.WriteLabel (kind l) && negb (Isa.FaiWriteLabel (kind l))) ls then Ret false
      else
        w ← getPreviousLabelST g lab (fun l => Isa.FaiWriteLabel (kind l));
        match w with
        | None => Bug
        | Some wLab =>
            negb <$> anyM (fun l =>
              if Isa.MemAccessLabel (kind l) && (MemAccessLabel.getAddr l =? MemAccessLabel.getAddr wLab)
                 && negb (is_fai l)
              then v ← getHbView wLab; Ret (negb (View.contains v (getPos l))) else Ret false) (labels g)
        end
  end.
Definition handleFaiZNESpinEnd (lab : Label) : M unit :=
  b ← isExecutionDrivenByGraph lab;
  if b : bool then mret tt
  else
    addLabelToGraph lab;;
    zLab ← labelOf (getPos lab);
    sat ← onGraph (fun g => areFaiZNEConstraintsSat g zLab);
    if sat : bool then blockThreadTryMoot (Make.FaiZNEBlockLabel (getPos lab)) else mret tt.
Definition handleLockZNESpinEnd (lab : Label) : M unit :=
  b ← isExecutionDrivenByGraph lab;
  if b : bool then mret tt
  else addLabelToGraph lab;; blockThreadTryMoot (Make.LockZNEBlockLabel (getPos lab)).

(** ** Loads *)

Definition ok_then {A} (check : M VerificationError) (bad : A) (rest : M A) : M A :=
  err ← check; if decide (err = VE_OK) then rest else mret bad.
Definition getCurrentAnnotConcretized : M (option (SExprOps.SExpr Z)) :=
  thr ← onEE Interp.getCurThr;
  lift (match last (Interp.ECStack thr) with Some f => Ret (frameAnnot f) | None => Undef end).
(** Estimation: a random store among those that keep the execution valid. *)
Definition pickRandomRf (pos : Event) (stores : list Event) : M (option Z) :=
  stores ← filterMM (fun s => inGraph (fun g => changeRf g pos s);; isExecutionValid pos) stores;
  k ← random_upto (Z.of_nat (length stores) - 1);
  s ← lift (vec_get stores k);
  inGraph (fun g => changeRf g pos s);;
  rLab ← labelOf pos;
  ok_then (checkInitializedMem_read rLab) None (v ← getReadValue rLab; mret (Some v)).
(** The options but the last are pushed in order. *)
Definition push_options (pos : Event) (options : list RfsT) : M unit :=
  st ← getStamp pos;
  forM (removelast options) (fun rfs => addToWorklist st (Revisits.ReadForwardRevisitMIXER pos rfs)).
(** A barrier wait that reads another value than the initial one blocks: [true]
    when the handler returns at once. *)
Definition block_wait (pos : Event) (retVal : Z) : M bool :=
  lab ← labelOf pos;
  if negb (Isa.BWaitReadLabel (kind lab)) then mret false
  else
    init ← getBarrierInitValue (MemAccessLabel.getAccess lab);
    if SVal.eqb retVal init then mret false
    else blockThread (Make.BarrierBlockLabel (EventOps.next pos));; mret (negb conf_disableBAM).
Definition finish_load (pos : Event) (stores : list Event) (options : list RfsT) (retVal : Z) : M (option Z) :=
  lab ← labelOf pos;
  resched ← isRescheduledRead pos;
  (if resched : bool then setRescheduledRead EventOps.getInit else mret tt);;
  checkIPRValidity lab;;
  estimating ← inEstimationMode;
  if estimating : bool then
    st ← getStamp pos;
    setChoices st stores;;
    stores ← filterAtomicityViolations lab stores;
    pickRandomRf pos stores
  else checkReconsiderFaiSpinloop pos;; push_options pos options;; mret (Some retVal).
Definition read_options (pos : Event) (stores : list Event) : M (option Z) :=
  lab ← labelOf pos;
  options ← onGraph (fun g => enumerateRfOptions g stores (MemAccessLabel.getAccess lab) lab []);
  match last options with
  | None => lift Bug
  | Some rfs =>
      inGraph (fun g => changeRfs g pos rfs);;
      r ← (if conf_mixer then mret (true, stores) else ensureConsistentRf pos stores);
      if negb (fst r) then mret None
      else
        lab ← labelOf pos;
        ok_then (checkInitializedMem_read lab) None
          (lab ← labelOf pos;
           retVal ← getReadValue lab;
           early ← block_wait pos retVal;
           if early : bool then mret (Some retVal) else finish_load pos (snd r) options retVal)
  end.
Definition handleLoad (rLab : Label) : M (option Z) :=
  let pos := getPos rLab in
  recovery ← inRecoveryMode;
  if recovery && SAddr.isVolatile (MemAccessLabel.getAddr rLab) then v ← getRecReadRetValue rLab; mret (Some v)
  else
    b ← isExecutionDrivenByGraph rLab;
    if b : bool then lab ← readAt pos; getReadRetValue lab
    else
      inGraph (fun g => Ret (trackCoherenceAtLoc g (MemAccessLabel.getAccess rLab)));;
      rLab ← match ReadLabel.getAnnot rLab with
             | Some _ => mret rLab
             | None => a ← getCurrentAnnotConcretized; mret (ReadLabel.setAnnot a rLab)
             end;
      addLabelToGraph rLab;;
      lab ← labelOf pos;
      ok_then (checkAccessValidity lab) None (
      ok_then (checkForRaces pos) None (
        lab ← labelOf pos;
        stores ← getRfsApproximation lab;
        lift (BUG_ON (bool_decide (length stores = O)));;
        r ← (if conf_mixer then mret (true, stores) else filterOptimizeRfs lab stores);
        if negb (fst r) then mret None else read_options pos (snd r))).

(** ** Stores *)

Definition annotateStoreHELPER (wLab : Label) : M Label :=
  if negb conf_helper || negb (isRMWStore wLab) || Isa.LockCasWriteLabel (kind wLab)
     || Isa.TrylockCasWriteLabel (kind wLab)
  then mret wLab
  else
    pLab ← onGraph (fun g => Bounds.some (getPreviousLabel g (getPos wLab)));
    mLab ← onGraph (fun g => getPreviousVisibleAccessLabel g (getPos pLab));
    match mLab with
    | None => mret wLab
    | Some m =>
        if MemAccessLabel.wasAddedMax m && (negb (Isa.ReadLabel (kind m)) || EventLabel.isRevisitable m)
        then mret wLab
        else
          let mark a := WriteAttr.setAttr a WriteAttr.RevBlocker in
          alterLabel (fun l => RmwReadLabel.setAttr (mark (RmwReadLabel.getAttr l)) l) (getPos pLab);;
          mret (WriteLabel.setAttr (mark (WriteLabel.getAttr wLab)) wLab)
    end.
Definition unblockWaitingHelping : M unit :=
  ts ← all_tids;
  forM ts (fun i =>
    bLab ← onGraph (fun g => getLastThreadLabel g i);
    if Isa.HelpedCASBlockLabel (kind bLab) then inGraph (fun g => removeLast g i) else mret tt).
Definition after_store (pos : Event) : M unit :=
  checkReconsiderFaiSpinloop pos;;
  lab ← labelOf pos;
  (if Isa.HelpedCasWriteLabel (kind lab) then unblockWaitingHelping else mret tt);;
  checkReconsiderReadOpts lab;;
  lab ← labelOf pos;
  checkFinalAnnotations lab.
Definition handleStore (wLab : Label) : M unit :=
  let pos := getPos wLab in
  b ← isExecutionDrivenByGraph wLab;
  if b : bool then mret tt
  else
    inGraph (fun g => Ret (trackCoherenceAtLoc g (MemAccessLabel.getAccess wLab)));;
    wLab ← annotateStoreHELPER wLab;
    wLab ← (if Isa.BIncFaiWriteLabel (kind wLab) && (WriteLabel.getVal wLab =? 0)
            then v ← getBarrierInitValue (MemAccessLabel.getAccess wLab); mret (WriteLabel.setVal v wLab)
            else mret wLab);
    addLabelToGraph wLab;;
    lab ← labelOf pos;
    ok_then (checkAccessValidity lab) tt (
    ok_then (checkInitializedMem_write lab) tt (
      calcCoOrderings pos;;
      cons ← ensureConsistentStore pos;
      err ← (if cons : bool then checkForRaces pos else mret VE_OK);
      if negb (bool_decide (err = VE_OK)) then mret tt
      else
        recovery ← inRecoveryMode;
        replay ← inReplay;
        (if (recovery : bool) || (replay : bool) then mret tt else _ ← calcRevisits pos; mret tt);;
        if negb cons then mret tt else after_store pos)).

(** ** Memory management *)

Definition handleMalloc (aLab : Label) : M Z :=
  let pos := getPos aLab in
  b ← isExecutionDrivenByGraph aLab;
  if b : bool then
    lab ← labelOf pos; lift (BUG_ON (negb (Isa.MallocLabel (kind lab))));; mret (MallocLabel.getAllocAddr lab)
  else
    aLab ← (if MallocLabel.getAllocAddr aLab =? 0
            then a ← getFreshAddr aLab; mret (MallocLabel.setAllocAddr a aLab) else mret aLab);
    addLabelToGraph aLab;;
    mret (MallocLabel.getAllocAddr aLab).
(** [alloc->setFree] dereferences a null pointer when nothing was allocated. *)
Definition handleFree (dLab : Label) : M unit :=
  let pos := getPos dLab in
  b ← isExecutionDrivenByGraph dLab;
  if b : bool then mret tt
  else
    alloc ← onGraph (fun g => Ret (findAllocatingLabel g (FreeLabel.getFreedAddr dLab)));
    size ← match alloc with Some a => l ← labelOf a; mret (MallocLabel.getAllocSize l) | None => mret 0 end;
    addLabelToGraph (FreeLabel.setAlloc alloc (FreeLabel.setFreedSize size dLab));;
    match alloc with
    | None => lift Undef
    | Some a => alterLabel (MallocLabel.setFree (Some pos)) a;; _ ← checkForRaces pos; mret tt
    end.

(** ** Disk accesses *)

Definition handleDskRead (drLab : Label) : M Z :=
  let pos := getPos drLab in
  b ← isExecutionDrivenByGraph drLab;
  if b : bool then
    rLab ← labelOf pos; lift (BUG_ON (negb (Isa.DskReadLabel (kind rLab))));; getDskReadValue rLab
  else
    inGraph (fun g => Ret (trackCoherenceAtLoc g (MemAccessLabel.getAccess drLab)));;
    validStores ← getRfsApproximation drLab;
    recovery ← inRecoveryMode;
    let drLab := if recovery : bool then EventLabel.setOrdering Monotonic drLab else drLab in
    first ← lift (match validStores with w :: _ => Ret w | [] => Bug end);
    addLabelToGraph drLab;;
    inGraph (fun g => changeRf g pos first);;
    validStores ← filterInvalidRecRfs pos validStores;
    st ← getStamp pos;
    forM (tail validStores) (fun w => addToWorklist st (Revisits.ReadForwardRevisit pos w false));;
    match validStores with
    | w :: _ => getDskWriteValue w (MemAccessLabel.getAccess drLab)
    | [] => lift Undef
    end.
Definition handleDskWrite (wLab : Label) : M unit :=
  let pos := getPos wLab in
  b ← isExecutionDrivenByGraph wLab;
  if b : bool then mret tt
  else
    inGraph (fun g => Ret (trackCoherenceAtLoc g (MemAccessLabel.getAccess wLab)));;
    range ← viaGraph (fun g => MemoryModel.getCoherentPlacings g wLab);
    lift (BUG_ON (negb (bool_decide (Coherence.range (fst range) (snd range) = []))));;
    addLabelToGraph wLab;;
    add_at pos (snd range);;
    _ ← calcRevisits pos; mret tt.
Definition handleDskOpen (oLab : Label) : M Z :=
  let pos := getPos oLab in
  b ← isExecutionDrivenByGraph oLab;
  if b : bool then lab ← labelOf pos; lift (BUG_ON (negb (Isa.DskOpenLabel (kind lab))));; mret (getFd lab)
  else
    fd ← getFreshFd;
    lift (BUG_ON (fd =? -1));;
    addLabelToGraph (setFd fd oLab);;
    mret fd.

(** ** Helping compare-and-swaps and optional blocks *)

(** From index [j] of a view down to the last write of the thread. *)
Definition last_write_before (g : Graph) (e : Event) : outcome Z :=
  ls ← po_before g (EventOps.next e) 1;
  Ret (match List.find (fun l => Isa.WriteLabel (kind l)) ls with Some l => EventLabel.getIndex l | None => 0 end).
Definition writesBeforeHelpedContainedInView (g : Graph) (lab : Label) (view : View.t) : outcome bool :=
  hb ← getHbView lab;
  allM (fun i =>
    j ← last_write_before g (mkEvent i (View.getMax hb i));
    Ret ((j =? 0) || View.contains view (mkEvent i j))) (seqZ 0 (View.size hb)).
Definition helped_by (hLab l : Label) : bool :=
  match payload hLab with
  | PHelpingCas a expected swap =>
      Isa.HelpedCasReadLabel (kind l) && (MemAccessLabel.getAddr l =? acc_addr a)
      && bool_decide (MemAccessLabel.getType l = acc_type a) && (MemAccessLabel.getSize l =? acc_size a)
      && bool_decide (ordering l = ordering hLab) && bool_decide (RmwReadLabel.getExpected l = Some expected)
      && bool_decide (RmwReadLabel.getSwapVal l = Some swap)
  | _ => false
  end.
(** The inner [hLab] hides the helping one: the view of a helped CAS is compared
    with its own. *)
Definition checkHelpingCasCondition (g : Graph) (hLab : Label) : outcome bool :=
  hs ← removeM (fun e => l ← getEventLabel g e; negb <$> isRMWLoad g l)
         (collectAllEvents g (helped_by hLab));
  match hs with
  | [] => Ret false
  | _ =>
      bad ← anyM (fun h => hLab ← getEventLabel g h; view ← getHbView hLab;
                           negb <$> writesBeforeHelpedContainedInView g hLab view) hs;
      _ ← BUG_ON bad; Ret true
  end.
Definition handleHelpingCas (hLab : Label) : M bool :=
  let pos := getPos hLab in
  b ← isExecutionDrivenByGraph hLab;
  if b : bool then mret true
  else
    addLabelToGraph hLab;;
    lab ← labelOf pos;
    ok ← onGraph (fun g => checkHelpingCasCondition g lab);
    if ok : bool then mret true else blockThread (Make.HelpedCASBlockLabel pos);; mret false.
Definition is_optional (l : Label) : bool := Isa.OptionalLabel (kind l).
Definition handleOptional (lab : Label) : M bool :=
  let pos := getPos lab in
  b ← isExecutionDrivenByGraph lab;
  if b : bool then l ← labelOf pos; mret (isExpanded l)
  else
    g ← getGraph;
    let lab := if existsb (fun l => is_optional l && negb (isExpandable l)) (labels g)
               then setExpandable false lab else lab in
    addLabelToGraph lab;;
    estimating ← inEstimationMode;
    (if negb estimating && isExpandable lab
     then st ← getStamp pos; addToWorklist st (Revisits.OptionalForwardRevisit pos) else mret tt);;
    mret false.

(** ** The dispatcher: the handler of a label class, inherited by its subclasses *)

Definition void {A} (m : M A) : M unit := _ ← m; mret tt.
Definition override (c : LabelClass) : option (Label -> M unit) :=
  match c with
  | C_BlockLabel => Some handleBlock
  | C_OptionalLabel => Some (fun l => void (handleOptional l))
  | C_ReadLabel => Some (fun l => void (handleLoad l))
  | C_DskReadLabel => Some (fun l => void (handleDskRead l))
  | C_WriteLabel => Some handleStore
  | C_DskWriteLabel => Some handleDskWrite
  | C_FenceLabel => Some handleFence
  | C_CLFlushLabel => Some handleCLFlush
  | C_DskFsyncLabel => Some handleDskFsync
  | C_DskSyncLabel => Some handleDskSync
  | C_DskPbarrierLabel => Some handleDskPbarrier
  | C_ThreadCreateLabel => Some (fun l => void (handleThreadCreate l))
  | C_ThreadJoinLabel => Some (fun l => void (handleThreadJoin l))
  | C_ThreadFinishLabel => Some handleThreadFinish
  | C_MallocLabel => Some (fun l => void (handleMalloc l))
  | C_FreeLabel => Some handleFree
  | C_HpProtectLabel => Some handleHpProtect
  | C_LoopBeginLabel => Some handleLoopBegin
  | C_SpinStartLabel => Some handleSpinStart
  | C_FaiZNESpinEndLabel => Some handleFaiZNESpinEnd
  | C_LockZNESpinEndLabel => Some handleLockZNESpinEnd
  | C_ThreadKillLabel => Some handleThreadKill
  | C_HelpingCasLabel => Some (fun l => void (handleHelpingCas l))
  | C_DskOpenLabel => Some (fun l => void (handleDskOpen l))
  | C_EventLabel => Some (fun _ => lift Bug)
  | _ => None
  end.
(** No class is more than five delegations from [EventLabel]. *)
Fixpoint resolve (fuel : nat) (c : LabelClass) : option (Label -> M unit) :=
  match override c, fuel, LabelVisitor.delegate c with
  | Some h, _, _ => Some h
  | None, S fuel, Some c => resolve fuel c
  | _, _, _ => None
  end.
(** [visit(lab)]: the label is cloned for the handler. *)
Definition dispatch (lab : Label) : M unit :=
  c ← lift (LabelVisitor.visit (kind lab));
  match resolve 5 c with Some h => h (clone_label lab) | None => lift Undef end.

End Methods.
End Handlers.
