(* ===== verification/Explore.v ===== *)
(** * The exploration (src/src/GenMCDriver.cpp): running the program, the end of
    an execution, estimation, and the choice of the next option; and the loops of
    the interpreter around it (src/src/Execution.cpp, Interpreter.cpp).

    A loop that need not end is a step that says whether to go on: [Loop] is the
    relation between the states before and after it, [loop] runs it with fuel. *)
From S2P Require Import Prelude Event SVal SAddr VSet SExpr Trie Deps Views Labels LabelClasses Graph Iterators Bounds RAViews RARace RACoherence Revisits Interp Execution MemoryModel Driver Checks Symmetry Schedule RfOptions RevisitCalc Revisiting Backtrack Handlers.
#[local] Open Scope Z_scope.

Module Explore.
Import ExecutionGraph GraphIterators EdgeLabels Coherence Drv Checks Schedule Revisiting Backtrack HandlerLabels Handlers.

Section Loops.
Context `{P : Program}.

(** [while (body);] *)
Inductive Loop (body : M bool) : Driver -> Driver -> Prop :=
| loop_stop d d' : body d = Ret (false, d') -> Loop body d d'
| loop_again d d1 d' : body d = Ret (true, d1) -> Loop body d1 d' -> Loop body d d'.
(** [false]: the fuel ran out. *)
Fixpoint loop (fuel : nat) (body : M bool) : M bool :=
  match fuel with
  | O => mret false
  | S fuel => b ← body; if b : bool then loop fuel body else mret true
  end.

(** The fuelled loop ends exactly when the loop does, in the same state. *)
Lemma loop_Loop body d d' : Loop body d d' <-> exists fuel, loop fuel body d = Ret (true, d').
Proof.
  split.
  - induction 1 as [d d' E|d d1 d' E _ [n IH]].
    + exists 1%nat. cbn. unfold mbind, M_bind. by rewrite E.
    + exists (S n). cbn. unfold mbind, M_bind. by rewrite E.
  - intros [n E]. revert d E. induction n as [|n IH]; intros d E; [done|].
    cbn in E. unfold mbind, M_bind in E. destruct (body d) as [[[] d1]| |] eqn:Eb; try done.
    + eapply loop_again; [exact Eb|by apply IH].
    + injection E as <-. by apply loop_stop.
Qed.
End Loops.

Section Methods.
Context `{P : Program} `{C : Config} `{MM : MemoryModel}.

(** ** Starting an execution *)

Definition thread_info (g : Graph) (i : Z) : outcome ThreadInfo :=
  bLab ← getEventLabel g (getFirstThreadEvent i); Symmetry.getThreadInfo bLab.
Definition createExecutionContext (g : Graph) : outcome (list ThreadInfo) :=
  collect (thread_info g) (seqZ 1 (getNumThreads g - 1)).
(** A thread that was created and has not finished starts over. *)
Definition to_start (g : Graph) (i : Z) : outcome bool :=
  _ ← BUG_ON (isThreadEmpty g i);
  labFst ← getEventLabel g (getFirstThreadEvent i);
  let parent := getParentCreate labFst in
  if negb (containsPos g parent) then Ret false
  else
    pLab ← getEventLabel g parent;
    if negb (Isa.ThreadCreateLabel (kind pLab)) then Ret false
    else
      labLast ← getLastThreadLabel g i;
      Ret (negb (Isa.ThreadFinishLabel (kind labLast)) && negb (i =? recoveryTID g)).
Definition restart (t : Interp.Thread Frame GenericValue) : Interp.Thread Frame GenericValue := Interp.setECStack (Interp.initEC t) t.
Definition start_thread (i : Z) : M unit :=
  b ← onGraph (fun g => to_start g i);
  if negb b then mret tt
  else
    thr ← onEE (fun e => Interp.getThrById e i);
    lift (BUG_ON (negb (bool_decide (length (Interp.ECStack thr) = O))));;
    inEE (Interp.alter_thread restart i).
Definition handleExecutionStart : M unit :=
  g ← getGraph; forM (seqZ 1 (getNumThreads g - 1)) start_thread.

(** ** Running the program *)

(** The labels seen after the same values are added without the interpreter. *)
Fixpoint add_cached (labs : list Label) : M unit :=
  match labs with
  | [] => mret tt
  | vlab :: labs =>
      lift (BUG_ON (EventLabel.hasStamp vlab));;
      dispatch vlab;;
      last ← onGraph (fun g => getLastThreadLabel g (EventLabel.getThread vlab));
      m ← isMoot;
      thr ← onEE Interp.getCurThr;
      h ← isHalting;
      if Isa.BlockLabel (kind last) || (m : bool) || Interp.isBlocked thr || (h : bool) then mret tt
      else add_cached labs
  end.
Definition tryOptimizeScheduling (pos : Event) : M bool :=
  estimating ← inEstimationMode;
  if negb conf_instructionCaching || (estimating : bool) then mret false
  else
    next ← onGraph (fun g => Ret (findNextLabelToAdd g pos));
    p ← extractValPrefix next;
    res ← retrieveCachedSuccessors (thread pos) (fst p);
    match res with
    | Some (l :: ls) =>
        if last_index res (-1) <? index next then mret false else add_cached (l :: ls);; mret true
    | _ => mret false
    end.
(** The interpreter visits the next instruction of the current thread: that is
    LLVM's code and the translation of calls to labels. *)
Context (visitInst : M unit).
Definition run_step : M bool :=
  b ← scheduleNext;
  if negb b then mret false
  else
    pos ← onEE Interp.currPos;
    done ← tryOptimizeScheduling pos;
    (if done : bool then mret tt else visitInst);;
    mret true.

(** ** The end of an execution *)

Definition blocked_thread (g : Graph) (t : Interp.Thread Frame GenericValue) : outcome bool :=
  let i := Interp.id t in
  if (i >=? getNumThreads g) || isThreadEmpty g i then Ret false
  else l ← getLastThreadLabel g i; Ret (Isa.BlockLabel (kind l)).
Definition isExecutionBlocked : M bool :=
  e ← gets EE; onGraph (fun g => anyM (blocked_thread g) (Interp.threads e)).

(** *** Helper: annotations of helped and helping CASes; [ERROR] exits *)
Definition read_by_helped (g : Graph) (sLab : Label) : outcome bool :=
  rs ← deref_all g (WriteLabel.readers sLab); Ret (existsb (fun l => Isa.HelpedCasReadLabel (kind l)) rs).
Definition unordered_store (g : Graph) (access : AAccess) (expected : Z) : outcome bool :=
  ss ← co g access;
  anyM (fun s => sLab ← getEventLabel g s;
                 if SVal.eqb expected (WriteLabel.getVal sLab) then negb <$> read_by_helped g sLab else Ret false) ss.
Definition reads_access (access : AAccess) (l : Label) : bool :=
  Isa.ReadLabel (kind l) && bool_decide (MemAccessLabel.getAccess l = access).
Definition check_helping (g : Graph) (h : Event) : outcome unit :=
  hLab ← getEventLabel g h;
  match payload hLab with
  | PHelpingCas access expected _ =>
      bad ← unordered_store g access expected;
      _ ← BUG_ON bad;
      if SAddr.isStatic (acc_addr access) && SVal.eqb expected (getLocInitVal access) then
        _ ← BUG_ON conf_mixer;
        BUG_ON (negb (existsb (fun l => reads_access access l && Isa.HelpedCasReadLabel (kind l)) (labels g)))
      else Ret tt
  | _ => Bug
  end.
Definition checkHelpingCasAnnotation (g : Graph) : outcome unit :=
  waiting ← anyM (fun i => l ← getLastThreadLabel g i; Ret (Isa.HelpedCASBlockLabel (kind l))) (seqZ 0 (getNumThreads g));
  _ ← BUG_ON waiting;
  mfold (fun _ h => check_helping g h) (collectAllEvents g (fun l => Isa.HelpingCasLabel (kind l))) tt.

(** *** Estimation *)
Definition sample (choices : ChoiceMap) : LD :=
  foldl (fun sum kv => ld_mul sum (ld (Z.of_nat (length (snd kv))))) (ld 1) choices.
(** One step of Welford's algorithm: the new mean and variance. *)
Definition welford (s total prevM prevV : LD) : LD * LD :=
  let m := ld_add prevM (ld_div (ld_sub s prevM) total) in
  (m, ld_add prevV (ld_sub (ld_mul (ld_div (ld_sub s prevM) total) (ld_sub s m)) (ld_div prevV total))).
Definition updateStSpaceEstimation : M unit :=
  x ← getExecution;
  r ← gets result;
  let total := ld_add (ld_add (ld (explored r)) (ld (exploredBlocked r))) (ld 1) in
  let '(m, v) := welford (sample (choices x)) total (estimationMean r) (estimationVariance r) in
  modify (fun d => set_result (set_estimate m v (result d)) d).
(** The budget is [unsigned]. *)
Definition shouldStopEstimating : M bool :=
  md ← gets mode;
  match md with
  | VerificationMode => lift Undef
  | EstimationMode budget =>
      let remaining := u32 (budget - 1) in
      modify (set_mode (EstimationMode remaining));;
      if remaining =? 0 then mret true
      else
        r ← gets result;
        let total := u32 (explored r + exploredBlocked r) in
        let sd := ld_sqrt (estimationVariance r) in
        mret ((total >=? conf_estimationMin)
              && (ld_leb sd (ld_div (estimationMean r) (ld conf_sdThreshold))
                  || ld_ltb (estimationMean r) (ld total)))
  end.

Definition counted (full blocked bound : Z) : M unit :=
  modify (fun d => set_result (count full blocked bound (result d)) d).
Definition handleExecutionEnd : M unit :=
  m ← isMoot;
  if m : bool then mret tt
  else
    (if conf_helper then onGraph checkHelpingCasAnnotation else mret tt);;
    estimating ← inEstimationMode;
    (if estimating : bool then
       updateStSpaceEstimation;;
       stop ← shouldStopEstimating;
       if stop : bool then mret tt else addToWorklist 0 Revisits.RerunForwardRevisit
     else mret tt);;
    blocked ← isExecutionBlocked;
    if blocked : bool then counted 0 1 0;; (if conf_checkLiveness then checkLiveness else mret tt)
    else
      exceeds ← fullExecutionExceedsBound;
      (if exceeds : bool then counted 0 0 1 else mret tt);;
      counted 1 0 0.

(** ** Recovery *)

Definition setupRecoveryRoutine (tid : Z) : M unit :=
  n ← onEE (fun e => Ret (Interp.getNumThreads e));
  lift (BUG_ON (tid >=? n));;
  scheduleThread tid;;
  inEE (Interp.alter_thread (fun t =>
    let t := Interp.setECStack recoveryStack t in
    if bool_decide (length (Interp.initEC t) = O) then Interp.setInitEC recoveryStack t else t) tid).
Definition handleRecoveryStart : M unit :=
  blocked ← isExecutionBlocked;
  if blocked : bool then mret tt
  else
    inGraph (fun g => Ret (if recoveryTID g =? -1 then addRecoveryThread g else g));;
    g ← getGraph;
    let tid := recoveryTID g in
    let psb := match collectAllEvents g (fun l => Isa.DskPbarrierLabel (kind l)) with
               | [] => [EventOps.getInit] | l => l end in
    lift (BUG_ON (1 <? length psb)%nat);;
    let pc := List.last psb EventOps.getInit in
    addLabelToGraph (Make.ThreadStartLabel (mkEvent tid 0) Acquire pc (mkThreadInfo tid (thread pc) 0 0 (-1)) (-1));;
    inEE (Interp.createAddRecoveryThread threadLocalVars recoveryFun tid);;
    setupRecoveryRoutine tid.
Definition handleRecoveryEnd : M unit := scheduleThread 0.

(** ** The loop over the options *)

Definition start_main (t : Interp.Thread Frame GenericValue) : Interp.Thread Frame GenericValue :=
  Interp.setInitEC mainStack (Interp.setECStack mainStack t).
(** [runAsMain] up to the run, and the recovery up to its run. *)
Definition before_run : M unit :=
  inEE (Interp.reset threadLocalVars);;
  inEE (Interp.alter_thread start_main 0);;
  inEE (fun e => Ret (Interp.setProgramState Interp.Main e));;
  handleExecutionStart.
Definition before_recovery : M unit :=
  inEE (fun e => Ret (Interp.setProgramState Interp.Recovery e));; handleRecoveryStart.

(** One iteration of the search for an option; whether to search on, and whether
    there is an execution to run. *)
Inductive Next := Run | Again | Finished.
Definition try_option : M Next :=
  resetExplorationOptions;;
  item ← getNextItem;
  match item with
  | None => more ← popExecution; mret (if more : bool then Again else Finished)
  | Some (stamp, r) =>
      ok ← restrictAndRevisit stamp r;
      ok ← (if ok : bool then isRevisitValid r else mret false);
      mret (if ok : bool then Run else Again)
  end.
Inductive Picks : Driver -> bool -> Driver -> Prop :=
| picks_run d d' : try_option d = Ret (Run, d') -> Picks d true d'
| picks_none d d' : try_option d = Ret (Finished, d') -> Picks d false d'
| picks_again d d1 b d' : try_option d = Ret (Again, d1) -> Picks d1 b d' -> Picks d b d'.
Inductive Executes : Driver -> Driver -> Prop :=
| executes d d1 d2 d3 d4 :
    before_run d = Ret (tt, d1) -> Loop run_step d1 d2 -> handleExecutionEnd d2 = Ret (tt, d3) ->
    (if conf_persevere
     then exists d5 d6, before_recovery d3 = Ret (tt, d5) /\ Loop run_step d5 d6 /\ handleRecoveryEnd d6 = Ret (tt, d4)
     else d4 = d3) ->
    Executes d d4.
Inductive Explores : Driver -> Driver -> Prop :=
| explores_halt d : shouldHalt d = true -> Explores d d
| explores_end d d1 d2 :
    shouldHalt d = false -> Executes d d1 -> Picks d1 false d2 -> Explores d d2
| explores_more d d1 d2 d3 :
    shouldHalt d = false -> Executes d d1 -> Picks d1 true d2 -> Explores d2 d3 -> Explores d d3.

(** The same with fuel: [false] when it runs out. *)
Fixpoint pick (fuel : nat) : M (option bool) :=
  match fuel with
  | O => mret None
  | S fuel => n ← try_option; match n with Run => mret (Some true) | Finished => mret (Some false) | Again => pick fuel end
  end.
Definition execute (fuel : nat) : M bool :=
  before_run;;
  ended ← loop fuel run_step;
  if negb ended then mret false
  else
    handleExecutionEnd;;
    if conf_persevere then
      before_recovery;;
      ended ← loop fuel run_step;
      if negb ended then mret false else handleRecoveryEnd;; mret true
    else mret true.
Fixpoint explore_loop (fuel : nat) : M bool :=
  match fuel with
  | O => mret false
  | S n =>
      h ← isHalting;
      if h : bool then mret true
      else
        ended ← execute fuel;
        if negb ended then mret false
        else
          p ← pick fuel;
          match p with None => mret false | Some true => explore_loop n | Some false => mret true end
  end.
Definition start_exploration : M unit :=
  resetExplorationOptions;;
  tis ← onGraph createExecutionContext;
  inEE (Interp.setExecutionContext threadLocalVars mainFun startFrame tis).
Definition explore (fuel : nat) : M bool := start_exploration;; explore_loop fuel.

End Methods.

(** [GenMCDriver(conf, mod, modInfo, mode)] *)
Definition default_fds : list bool := replicate 20 false.
Definition make_driver `{P : Program} (md : Mode) (r e : RNG) : outcome Driver :=
  g ← ExecutionGraph.make;
  Ret (mkDriver md (Interp.mkDynamic [] 0 Interp.Normal Interp.Main [] []) [mkExecution g [] []] Allocator.init default_fds
         [] [] false EventOps.getInit EventOps.getInit (mkResult VE_OK 0 0 0 (ld 0) (ld 0) []) false r e).
End Explore.
