(* ===== verification/Calls.v ===== *)
(** * The interpreter's calls of the driver (src/src/Interpreter.h,
    Interpreter.cpp, Execution.cpp).

    What LLVM provides - values and types, functions, stack frames with their
    instructions - is the class [Machine]; the file system's static information is
    the class [FsInfo].  Models with a dependency tracker are not modelled:
    [makeEventDeps] answers null and every label has no dependencies.  Names for
    printing are left out, except those labels keep. *)
From Stdlib Require Import String.
From stdpp Require Import strings.
From S2P Require Import Prelude Event SVal SAddr VSet SExpr Deps Views Labels LabelClasses Graph Bounds Revisits Interp RARace Execution MemoryModel Driver Checks Schedule Handlers Explore.
#[local] Open Scope Z_scope.

(** ** LLVM's side *)

Class Machine {P : Program} := mkMachine {
  (** a value: a pointer, and an integer with its methods *)
  GVTOP : GenericValue -> Z;
  getLimitedValue : GenericValue -> Z;
  getZExtValue : GenericValue -> Z;
  isStrictlyPositive : GenericValue -> bool;
  getBoolValue : GenericValue -> bool;
  (** [llvm::Type] *)
  Typ : Type;
  isIntegerTy : Typ -> bool;
  getSignBit : Typ -> Z;
  getTypeAllocSize : Typ -> Z;
  getPointerTo : Typ -> Typ;
  voidTy : Typ;
  int8Ty : Typ;
  (** a value with the integer [v] at the width of a type, and with a pointer *)
  integerGV : Typ -> Z -> GenericValue;
  pointerGV : Z -> GenericValue;
  (** [llvm::Function]; a function is named by its address too *)
  Func : Type;
  getName : Func -> string;
  getReturnType : Func -> Typ;
  getParamType0 : Func -> Typ;
  functionID : Z -> Z;
  argSize : Z -> Z;
  (** [ExecutionContext]: [--CurInst]; [CurInst] as it is in another frame; what
      [returnValueToCaller] does to the calling frame; the allocas; the identifier
      of the instruction before [CurInst]; a frame at the start of a function *)
  prevInst : Frame -> Frame;
  withInst : Frame -> Frame -> Frame;
  saveResult : Typ -> GenericValue -> Frame -> Frame;
  frameAllocas : Frame -> list Z;
  instID : Frame -> Z;
  enterFunction : Z -> Frame;
  (** the C string at the place of a static address *)
  staticString : Z -> string }.

Inductive JournalDataFS := writeback | ordered | journal.
#[global] Instance JournalDataFS_eq : EqDecision JournalDataFS.
Proof. solve_decision. Defined.
Definition journal_index (j : JournalDataFS) : Z :=
  match j with writeback => 0 | ordered => 1 | journal => 2 end.
(** [inodeElement i] and [fileElement i] are the offsets of the fields. *)
Class FsInfo {P : Program} `{!Machine} := mkFsInfo {
  inodeTyp : Typ; fileTyp : Typ; inodeIntTyp : Typ;
  inodeElement : Z -> Z; fileElement : Z -> Z;
  blockSize : Z; maxFileSize : Z;
  journalData : JournalDataFS; disableDelalloc : bool;
  filenames : list string;
  dirInode : Z;
  disableStopOnSystemError : bool;
  errnoAddr : Z; errnoTyp : Typ }.

(** [std::prev(end)] of a stack of frames, changed. *)
Definition alter_last {A} (f : A -> A) (l : list A) : list A :=
  match last l with Some x => removelast l ++ [f x] | None => l end.

Module Calls.
Import Drv Checks Handlers.

Section Calls.
Context `{P : Program} `{C : Config} `{MM : MemoryModel}.

(** ** The current thread *)

Definition curThread : M (Interp.Thread Frame GenericValue) := onEE Interp.getCurThr.
Definition curPos : M Event := onEE Interp.currPos.
Definition inCurThread (f : Interp.Thread Frame GenericValue -> Interp.Thread Frame GenericValue) : M unit :=
  e ← gets EE; inEE (Interp.alter_thread f (Interp.currentThread e)).
Definition curBlocked : M bool := t ← curThread; mret (Interp.isBlocked t).
(** [ECStack().back()]: undefined when there is none. *)
Definition topFrame : M Frame :=
  t ← curThread; lift (match last (Interp.ECStack t) with Some f => Ret f | None => Undef end).
Definition inTopFrame (f : Frame -> Frame) : M unit :=
  _ ← topFrame; inCurThread (fun t => Interp.setECStack (alter_last f (Interp.ECStack t)) t).

Definition incPos : M Event := r ← onEE Interp.incPos; modify (set_EE (snd r));; mret (fst r).
Definition decPos : M Event := r ← onEE Interp.decPos; modify (set_EE (snd r));; mret (fst r).

(** ** The macros *)

(** [is_load]: the method is [handleLoad]; [back] moves [CurInst] back.  The
    arguments are evaluated after the position is increased. *)
Definition CALL_DRIVER {A} (is_load : bool) (method : Event -> M A) : M A :=
  recovery ← inRecoveryMode;
  (if negb recovery || negb is_load then _ ← incPos; mret tt else mret tt);;
  pos ← curPos;
  method pos.
Definition CALL_DRIVER_RESET_IF_NONE {A} (is_load : bool) (back : M unit) (method : Event -> M (option A)) : M (option A) :=
  pos ← incPos;
  ret ← method pos;
  replay ← inReplay;
  recovery ← inRecoveryMode;
  (match ret with
   | None => if replay : bool then (if (recovery : bool) && is_load then _ ← decPos; mret tt else mret tt)
             else _ ← decPos; back
   | Some _ => if (recovery : bool) && is_load then _ ← decPos; mret tt else mret tt
   end);;
  mret ret.
Definition CALL_DRIVER_RESET_IF_FALSE (back : M unit) (method : Event -> M bool) : M bool :=
  pos ← incPos;
  ret ← method pos;
  (if ret : bool then mret tt else _ ← decPos; back);;
  mret ret.
(** [std::optional::value] throws on an empty one. *)
Definition value {A} (o : option A) : M A := lift (match o with Some a => Ret a | None => Undef end).

Context `{Mc : !Machine} `{Fs : !FsInfo}.

Definition back : M unit := inTopFrame prevInst.

(** ** Values and types *)

Definition getTypeSize (t : Typ) : Z := u32 (getTypeAllocSize t).
Definition TYPE_TO_ATYPE (t : Typ) : AType :=
  if isIntegerTy t then (if negb (getSignBit t =? 0) then Signed else Unsigned) else Pointer.
Definition SVAL_TO_GV (v : Z) (t : Typ) : GenericValue := if isIntegerTy t then integerGV t v else pointerGV v.
Definition GV_TO_SVAL (v : GenericValue) (t : Typ) : Z := if isIntegerTy t then getLimitedValue v else GVTOP v.
Definition INT_TO_GV (t : Typ) (v : Z) : GenericValue := integerGV t v.
(** [getStaticAddr], read as a C string. *)
Definition getStaticString (a : Z) : M string :=
  lift (_ ← BUG_ON (negb (Interp.isStaticallyAllocated staticAllocas a));
        _ ← Interp.getStaticAllocBegin staticAllocas a; Ret (staticString a)).
(** Addresses are 64 bits wide. *)
Definition offset (a i : Z) : Z := u64 (a + i).

(** ** Frames *)

Definition returnValueToCaller (t : Typ) (r : GenericValue) : M unit := inTopFrame (saveResult t r).
Definition takeSnapshot : M unit :=
  f ← topFrame;
  inCurThread (fun t => Interp.setSnapshot (Some (Interp.globalInstructions t, prevInst f)) t).
Definition rollToSnapshot : M unit :=
  t ← curThread;
  match Interp.snapshot t with
  | None => lift Undef
  | Some (n, f) => inCurThread (Interp.setGlobal n);; inTopFrame (withInst f)
  end.
Definition blockCurrent (b : Interp.BlockageType) : M unit := inCurThread (Interp.block b).
Definition freeAllocas (allocas : list Z) : M unit :=
  forM allocas (fun a => CALL_DRIVER false (fun pos =>
    handleFree (Make.FreeLabel pos NotAtomic a 0 DepInfo.no_deps))).

(** ** System errors *)

Inductive SystemError :=
| SE_EPERM | SE_ENOENT | SE_EIO | SE_EBADF | SE_ENOMEM | SE_EEXIST | SE_EINVAL | SE_EMFILE | SE_ENFILE
| SE_ETXTBSY | SE_EFBIG | SE_ESPIPE.
Definition errno (e : SystemError) : Z :=
  match e with
  | SE_EPERM => 1 | SE_ENOENT => 2 | SE_EIO => 5 | SE_EBADF => 9 | SE_ENOMEM => 12 | SE_EEXIST => 17
  | SE_EINVAL => 22 | SE_EMFILE => 24 | SE_ENFILE => 23 | SE_ETXTBSY => 26 | SE_EFBIG => 27 | SE_ESPIPE => 29
  end.
(** The errors that have a message: [errorList.at] throws for the others. *)
Definition in_errorList (e : SystemError) : bool :=
  match e with SE_ETXTBSY | SE_ESPIPE => false | _ => true end.
Definition stopOnSystemErrors : bool := negb disableStopOnSystemError.
Definition report_here (e : VerificationError) : M unit := pos ← curPos; reportError pos e true.
Definition handleSystemError (code : SystemError) : M unit :=
  if stopOnSystemErrors then report_here VE_SystemError
  else
    (if in_errorList code then mret tt else lift Undef);;
    CALL_DRIVER false (fun pos =>
      handleStore (Make.WriteLabel pos Monotonic errnoAddr (getTypeSize errnoTyp) Signed (errno code)
                     WriteAttr.None_ DepInfo.no_deps)).

(** ** Locks *)

(** The annotation of the read of a lock: its value is not 1. *)
Definition not_locked (size id : Z) : SExprOps.SExpr Z :=
  SExprOps.CmpExpr SExprOps.Ne (SExprOps.RegisterExpr (ASize.getBits size) id EmptyString)
    (SExprOps.ConcreteExpr (ASize.getBits size) 1).
Definition handleLock (addr size : Z) : M unit :=
  recovery ← inRecoveryMode;
  if recovery : bool then mret tt
  else
    f ← topFrame;
    ret ← CALL_DRIVER_RESET_IF_NONE true back (fun pos =>
      handleLoad (ReadLabel.setAnnot (Some (not_locked size (instID f)))
        (Make.LockCasReadLabel_default pos addr size WriteAttr.None_ None DepInfo.no_deps)));
    match ret with
    | None => mret tt
    | Some v =>
        blocked ← curBlocked;
        if blocked : bool then mret tt
        else if v =? 0
        then CALL_DRIVER false (fun pos => handleStore (Make.LockCasWriteLabel_default pos addr size DepInfo.no_deps))
        else CALL_DRIVER false (fun pos => handleBlock (Make.LockNotAcqBlockLabel pos))
    end.
Definition handleUnlock (addr size : Z) : M unit :=
  recovery ← inRecoveryMode;
  if recovery : bool then mret tt
  else CALL_DRIVER false (fun pos => handleStore (Make.UnlockWriteLabel_default pos addr size DepInfo.no_deps)).

End Calls.
End Calls.
