(* ===== verification/InternalNames.v ===== *)
(** * The functions the interpreter provides: their codes and names
    (src/src/InterpreterEnumAPI.hpp, InterpreterEnumAPI.cpp). *)
From Stdlib Require Import String.
From stdpp Require Import strings.
From S2P Require Import Prelude.
#[local] Open Scope Z_scope.

Module InternalNames.

(** In the order of the source, which the range checks depend on. *)
Inductive InternalFunctions :=
| FN_AssertFail | FN_OptBegin | FN_LoopBegin | FN_SpinStart | FN_SpinEnd | FN_FaiZNESpinEnd |
FN_LockZNESpinEnd | FN_Assume | FN_KillThread | FN_NondetInt | FN_ThreadSelf | FN_AnnotateBegin |
FN_AnnotateEnd | FN_HazptrProtect | FN_HazptrClear | FN_NoSideEffectsLast | FN_ThreadCreate |
FN_ThreadCreateSymmetric | FN_ThreadJoin | FN_ThreadExit | FN_AtExit | FN_Malloc | FN_MallocAligned |
FN_MallocZero | FN_PMalloc | FN_HazptrAlloc | FN_MallocLast | FN_Free | FN_HazptrFree | FN_HazptrRetire |
FN_MutexInit | FN_MutexLock | FN_MutexUnlock | FN_MutexTrylock | FN_MutexDestroy | FN_BarrierInit |
FN_BarrierWait | FN_BarrierDestroy | FN_OpenFS | FN_CreatFS | FN_RenameFS | FN_LinkFS | FN_UnlinkFS |
FN_TruncateFS | FN_LastInodeFS | FN_WriteFS | FN_PwriteFS | FN_PersBarrierFS | FN_LastInvRecFS | FN_ReadFS |
FN_PreadFS | FN_FsyncFS | FN_SyncFS | FN_LseekFS | FN_CloseFS | FN_LastFS | FN_SmpFenceLKMM |
FN_RCUReadLockLKMM | FN_RCUReadUnlockLKMM | FN_SynchronizeRCULKMM | FN_CLFlush | FN_Memcpy | FN_Memmove |
FN_Memset.
#[global] Instance InternalFunctions_eq : EqDecision InternalFunctions.
Proof. solve_decision. Defined.

Definition all_codes : list InternalFunctions :=
  [FN_AssertFail; FN_OptBegin; FN_LoopBegin; FN_SpinStart; FN_SpinEnd; FN_FaiZNESpinEnd; FN_LockZNESpinEnd;
   FN_Assume; FN_KillThread; FN_NondetInt; FN_ThreadSelf; FN_AnnotateBegin; FN_AnnotateEnd; FN_HazptrProtect;
   FN_HazptrClear; FN_NoSideEffectsLast; FN_ThreadCreate; FN_ThreadCreateSymmetric; FN_ThreadJoin;
   FN_ThreadExit; FN_AtExit; FN_Malloc; FN_MallocAligned; FN_MallocZero; FN_PMalloc; FN_HazptrAlloc;
   FN_MallocLast; FN_Free; FN_HazptrFree; FN_HazptrRetire; FN_MutexInit; FN_MutexLock; FN_MutexUnlock;
   FN_MutexTrylock; FN_MutexDestroy; FN_BarrierInit; FN_BarrierWait; FN_BarrierDestroy; FN_OpenFS; FN_CreatFS;
   FN_RenameFS; FN_LinkFS; FN_UnlinkFS; FN_TruncateFS; FN_LastInodeFS; FN_WriteFS; FN_PwriteFS;
   FN_PersBarrierFS; FN_LastInvRecFS; FN_ReadFS; FN_PreadFS; FN_FsyncFS; FN_SyncFS; FN_LseekFS; FN_CloseFS;
   FN_LastFS; FN_SmpFenceLKMM; FN_RCUReadLockLKMM; FN_RCUReadUnlockLKMM; FN_SynchronizeRCULKMM; FN_CLFlush;
   FN_Memcpy; FN_Memmove; FN_Memset].
(** The value of an enumerator. *)
Definition code (f : InternalFunctions) : Z :=
  match f with
  | FN_AssertFail => 0 | FN_OptBegin => 1 | FN_LoopBegin => 2 | FN_SpinStart => 3 | FN_SpinEnd => 4 |
  FN_FaiZNESpinEnd => 5 | FN_LockZNESpinEnd => 6 | FN_Assume => 7 | FN_KillThread => 8 | FN_NondetInt => 9 |
  FN_ThreadSelf => 10 | FN_AnnotateBegin => 11 | FN_AnnotateEnd => 12 | FN_HazptrProtect => 13 |
  FN_HazptrClear => 14 | FN_NoSideEffectsLast => 15 | FN_ThreadCreate => 16 | FN_ThreadCreateSymmetric => 17 |
  FN_ThreadJoin => 18 | FN_ThreadExit => 19 | FN_AtExit => 20 | FN_Malloc => 21 | FN_MallocAligned => 22 |
  FN_MallocZero => 23 | FN_PMalloc => 24 | FN_HazptrAlloc => 25 | FN_MallocLast => 26 | FN_Free => 27 |
  FN_HazptrFree => 28 | FN_HazptrRetire => 29 | FN_MutexInit => 30 | FN_MutexLock => 31 | FN_MutexUnlock => 32
  | FN_MutexTrylock => 33 | FN_MutexDestroy => 34 | FN_BarrierInit => 35 | FN_BarrierWait => 36 |
  FN_BarrierDestroy => 37 | FN_OpenFS => 38 | FN_CreatFS => 39 | FN_RenameFS => 40 | FN_LinkFS => 41 |
  FN_UnlinkFS => 42 | FN_TruncateFS => 43 | FN_LastInodeFS => 44 | FN_WriteFS => 45 | FN_PwriteFS => 46 |
  FN_PersBarrierFS => 47 | FN_LastInvRecFS => 48 | FN_ReadFS => 49 | FN_PreadFS => 50 | FN_FsyncFS => 51 |
  FN_SyncFS => 52 | FN_LseekFS => 53 | FN_CloseFS => 54 | FN_LastFS => 55 | FN_SmpFenceLKMM => 56 |
  FN_RCUReadLockLKMM => 57 | FN_RCUReadUnlockLKMM => 58 | FN_SynchronizeRCULKMM => 59 | FN_CLFlush => 60 |
  FN_Memcpy => 61 | FN_Memmove => 62 | FN_Memset => 63
  end.

Open Scope string_scope.
Definition internalFunNames : list (string * InternalFunctions) :=
  [("__VERIFIER_assert_fail", FN_AssertFail); ("__VERIFIER_opt_begin", FN_OptBegin); ("__VERIFIER_loop_begin",
   FN_LoopBegin); ("__VERIFIER_spin_start", FN_SpinStart); ("__VERIFIER_spin_end", FN_SpinEnd);
   ("__VERIFIER_faiZNE_spin_end", FN_FaiZNESpinEnd); ("__VERIFIER_lockZNE_spin_end", FN_LockZNESpinEnd);
   ("__VERIFIER_kill_thread", FN_KillThread); ("__VERIFIER_assume", FN_Assume); ("__VERIFIER_nondet_int",
   FN_NondetInt); ("__VERIFIER_malloc", FN_Malloc); ("__VERIFIER_malloc_aligned", FN_MallocAligned);
   ("__VERIFIER_palloc", FN_PMalloc); ("__VERIFIER_free", FN_Free); ("__VERIFIER_thread_self", FN_ThreadSelf);
   ("__VERIFIER_thread_create", FN_ThreadCreate); ("__VERIFIER_thread_create_symmetric",
   FN_ThreadCreateSymmetric); ("__VERIFIER_thread_join", FN_ThreadJoin); ("__VERIFIER_thread_exit",
   FN_ThreadExit); ("__VERIFIER_atexit", FN_AtExit); ("__VERIFIER_mutex_init", FN_MutexInit);
   ("__VERIFIER_mutex_lock", FN_MutexLock); ("__VERIFIER_mutex_unlock", FN_MutexUnlock);
   ("__VERIFIER_mutex_trylock", FN_MutexTrylock); ("__VERIFIER_mutex_destroy", FN_MutexDestroy);
   ("__VERIFIER_barrier_init", FN_BarrierInit); ("__VERIFIER_barrier_wait", FN_BarrierWait);
   ("__VERIFIER_barrier_destroy", FN_BarrierDestroy); ("__VERIFIER_hazptr_alloc", FN_HazptrAlloc);
   ("__VERIFIER_hazptr_protect", FN_HazptrProtect); ("__VERIFIER_hazptr_clear", FN_HazptrClear);
   ("__VERIFIER_hazptr_free", FN_HazptrFree); ("__VERIFIER_hazptr_retire", FN_HazptrRetire);
   ("__VERIFIER_openFS", FN_OpenFS); ("__VERIFIER_closeFS", FN_CloseFS); ("__VERIFIER_creatFS", FN_CreatFS);
   ("__VERIFIER_renameFS", FN_RenameFS); ("__VERIFIER_linkFS", FN_LinkFS); ("__VERIFIER_unlinkFS",
   FN_UnlinkFS); ("__VERIFIER_truncateFS", FN_TruncateFS); ("__VERIFIER_readFS", FN_ReadFS);
   ("__VERIFIER_preadFS", FN_PreadFS); ("__VERIFIER_writeFS", FN_WriteFS); ("__VERIFIER_pwriteFS",
   FN_PwriteFS); ("__VERIFIER_fsyncFS", FN_FsyncFS); ("__VERIFIER_syncFS", FN_SyncFS); ("__VERIFIER_lseekFS",
   FN_LseekFS); ("__VERIFIER_pbarrier", FN_PersBarrierFS); ("__VERIFIER_annotate_begin", FN_AnnotateBegin);
   ("__VERIFIER_annotate_end", FN_AnnotateEnd); ("__VERIFIER_lkmm_fence", FN_SmpFenceLKMM);
   ("__VERIFIER_rcu_read_lock", FN_RCUReadLockLKMM); ("__VERIFIER_rcu_read_unlock", FN_RCUReadUnlockLKMM);
   ("__VERIFIER_synchronize_rcu", FN_SynchronizeRCULKMM); ("__VERIFIER_clflush", FN_CLFlush); ("_Znwm",
   FN_Malloc); ("_ZdlPv", FN_Free); ("__rust_alloc", FN_Malloc); ("__rust_alloc_zeroed", FN_MallocZero);
   ("__rust_dealloc", FN_Free); ("memcpy", FN_Memcpy); ("memmove", FN_Memmove); ("memset", FN_Memset)].
Close Scope string_scope.

(** [find] on an unordered map. *)
Fixpoint lookup_name (l : list (string * InternalFunctions)) (name : string) : option InternalFunctions :=
  match l with
  | [] => None
  | (n, f) :: l => if String.eqb n name then Some f else lookup_name l name
  end.
Definition codeOf (name : string) : option InternalFunctions := lookup_name internalFunNames name.

(** ** Classes of functions: ranges of the enumeration *)

Definition code_in (lo hi : InternalFunctions) (f : InternalFunctions) : bool :=
  (code lo <=? code f) && (code f <=? code hi).
Definition named (p : InternalFunctions -> bool) (name : string) : bool :=
  match codeOf name with Some f => p f | None => false end.

Definition isInternalFunction : string -> bool := named (fun _ => true).
Definition isCleanInternalFunction : string -> bool := named (code_in FN_AssertFail FN_NoSideEffectsLast).
Definition isErrorFunction : string -> bool := named (fun f => bool_decide (f = FN_AssertFail)).
Definition isSpinEndFunction : string -> bool := named (fun f => bool_decide (f = FN_SpinEnd)).
Definition isAssumeFunction : string -> bool := named (code_in FN_SpinEnd FN_Assume).
Definition isAllocFunction : string -> bool := named (code_in FN_Malloc FN_MallocLast).
Definition isMutexCode : InternalFunctions -> bool := code_in FN_MutexInit FN_MutexDestroy.
Definition isBarrierCode : InternalFunctions -> bool := code_in FN_BarrierInit FN_BarrierDestroy.
Definition isFsCode : InternalFunctions -> bool := code_in FN_OpenFS FN_LastFS.
Definition isFsInodeCode : InternalFunctions -> bool := code_in FN_OpenFS FN_LastInodeFS.
Definition isFsInvalidRecCode : InternalFunctions -> bool := code_in FN_CreatFS FN_LastInvRecFS.
Definition hasGlobalLoadSemantics : string -> bool :=
  named (fun f => bool_decide (f = FN_MutexLock) || bool_decide (f = FN_MutexTrylock)
                  || bool_decide (f = FN_BarrierWait) || isFsCode f).

(** ** What the classes hold *)

Lemma code_inj f g : code f = code g -> f = g.
Proof.
  assert (forall f, nth (Z.to_nat (code f)) all_codes FN_Memset = f) as H by (by intros []).
  intros E. by rewrite <- (H f), E, H.
Qed.
Lemma codes_are_positions : map code all_codes = seqZ 0 64.
Proof. reflexivity. Qed.

(** The calls that are refused during recovery, by their name: those that change
    the directory or a file, and the barrier; not the ones that only make changes
    persist. *)
Lemma refused_in_recovery :
  filter (fun p => isFsInvalidRecCode (snd p) = true) internalFunNames =
  [("__VERIFIER_creatFS"%string, FN_CreatFS); ("__VERIFIER_renameFS"%string, FN_RenameFS);
   ("__VERIFIER_linkFS"%string, FN_LinkFS); ("__VERIFIER_unlinkFS"%string, FN_UnlinkFS);
   ("__VERIFIER_truncateFS"%string, FN_TruncateFS); ("__VERIFIER_writeFS"%string, FN_WriteFS);
   ("__VERIFIER_pwriteFS"%string, FN_PwriteFS); ("__VERIFIER_pbarrier"%string, FN_PersBarrierFS)].
Proof. vm_compute. reflexivity. Qed.
End InternalNames.
