(* ===== verification/Instructions.v ===== *)
(** * The instructions that reach the driver (Execution.cpp): loads, stores, fences,
    compare-and-exchange and read-modify-writes, with thread-local accesses.

    An instruction of LLVM, its operands and its metadata are parameters; a
    dependency is tracked by no model here, so that labels have none. *)
From S2P Require Import Prelude Event SVal SAddr VSet SExpr Deps Views Labels LabelClasses Graph Bounds Revisits Interp RARace Execution MemoryModel Driver Checks Schedule Handlers Explore Calls.
#[local] Open Scope Z_scope.

(** ** LLVM's side *)

Class Instructions {P : Program} `{!Machine} := mkInstructions {
  Inst : Type;
  (** [getOperandValue] of the pointer, of the value stored or combined, of the
      value compared with and of the new one *)
  pointerOperand : Inst -> Frame -> GenericValue;
  valueOperand : Inst -> Frame -> GenericValue;
  compareOperand : Inst -> Frame -> GenericValue;
  newValOperand : Inst -> Frame -> GenericValue;
  (** the type of what is loaded, stored or compared *)
  accessType : Inst -> Typ;
  getOrdering : Inst -> AtomicOrdering;
  getSuccessOrdering : Inst -> AtomicOrdering;
  getOperation : Inst -> Z;
  (** the metadata "genmc.attr" *)
  attrMetadata : Inst -> option Z;
  SetValue : Inst -> GenericValue -> Frame -> Frame;
  (** [APInt] *)
  getBitWidth : GenericValue -> Z;
  extractBitsAsZExtValue : GenericValue -> Z -> Z -> Z;
  getIntegerBitWidth : Typ -> Z;
  isPointerTy : Typ -> bool;
  getPointerSize : Z;
  int1Ty : Typ;
  executeICMP_EQ : GenericValue -> GenericValue -> Typ -> GenericValue;
  aggregateGV : list GenericValue -> GenericValue }.

Module Instructions.
Import Drv Checks Handlers Calls.

Definition GENMC_KIND_NONVR : Z := 0x00010000.
Definition GENMC_KIND_HELPED : Z := 0x00020000.
Definition GENMC_KIND_HELPING : Z := 0x00040000.
Definition GENMC_KIND_SPECUL : Z := 0x00080000.
Definition GENMC_KIND_CONFIRM : Z := 0x00100000.
Definition GENMC_KIND (flags : Z) : Z := Z.land flags 0xffff0000.

(** ** Kinds of the labels, from the metadata *)

Definition getReadKind (md : option Z) : outcome EventLabelKind :=
  match md with
  | None => Ret EL_Read
  | Some flags =>
      if GENMC_KIND flags =? GENMC_KIND_SPECUL then Ret EL_SpeculativeRead
      else if GENMC_KIND flags =? GENMC_KIND_CONFIRM then Ret EL_ConfirmingRead
      else Bug
  end.
Definition getCasKinds (md : option Z) : outcome (EventLabelKind * EventLabelKind) :=
  match md with
  | None => Ret (EL_CasRead, EL_CasWrite)
  | Some flags =>
      if GENMC_KIND flags =? 0 then Ret (EL_CasRead, EL_CasWrite)
      else if GENMC_KIND flags =? GENMC_KIND_HELPED then Ret (EL_HelpedCasRead, EL_HelpedCasWrite)
      else if GENMC_KIND flags =? GENMC_KIND_HELPING then Ret (EL_HelpingCas, EL_HelpingCas)
      else if GENMC_KIND flags =? GENMC_KIND_CONFIRM then Ret (EL_ConfirmingCasRead, EL_ConfirmingCasWrite)
      else Bug
  end.
Definition getFaiKinds (md : option Z) : outcome (EventLabelKind * EventLabelKind) :=
  match md with
  | None => Ret (EL_FaiRead, EL_FaiWrite)
  | Some flags => if GENMC_KIND flags =? GENMC_KIND_NONVR then Ret (EL_NoRetFaiRead, EL_NoRetFaiWrite) else Bug
  end.
(** All flags are kept. *)
Definition getWriteAttr (md : option Z) : Z := match md with None => WriteAttr.None_ | Some flags => u32 flags end.

Section Instructions.
Context `{P : Program} `{C : Config} `{MM : MemoryModel} `{Mc : !Machine} `{Is : !Instructions}.
#[local] Abbreviation no_deps := DepInfo.no_deps.

(** ** Thread-local storage: bytes by address *)

Definition storeTLSValue (tls : gmap Z GenericValue) (ptr : Z) (val : GenericValue) (typ : Typ) : gmap Z GenericValue :=
  if isIntegerTy typ && (getIntegerBitWidth typ >=? 8)
  then foldl (fun m j => <[offset ptr j := integerGV int8Ty (extractBitsAsZExtValue val 8 (j * 8))]> m) tls
         (seqZ 0 (getIntegerBitWidth typ / 8))
  else <[ptr := val]> tls.
(** The bytes that are there, at their place in the word. *)
Definition tls_bytes (tls : gmap Z GenericValue) (ptr n : Z) : Z :=
  foldl (fun acc j => match tls !! offset ptr j with Some v => Z.lor acc (Z.shiftl (getZExtValue v) (j * 8)) | None => acc end)
    0 (seqZ 0 n).
(** An entry that is narrower than the access stands for its first byte. *)
Definition loadTLSValue (tls : gmap Z GenericValue) (ptr : Z) (val : GenericValue) (typ : Typ) : GenericValue :=
  if isIntegerTy typ && (getBitWidth val <? getIntegerBitWidth typ)
  then integerGV typ (tls_bytes tls ptr (getIntegerBitWidth typ / 8))
  else if isPointerTy typ && (getBitWidth val =? 8) then pointerGV (tls_bytes tls ptr getPointerSize)
  else val.
Definition setTls (tls : gmap Z GenericValue) : M unit := inCurThread (Interp.setTls tls).
Definition setResult (I : Inst) (v : GenericValue) : M unit := inTopFrame (SetValue I v).

(** ** The visitors *)

Section Visit.
Context (I : Inst).
Let typ : Typ := accessType I.
Let size : Z := getTypeSize typ.
Let atyp : AType := TYPE_TO_ATYPE typ.
Let attr : Z := getWriteAttr (attrMetadata I).

(** The pointer, and the thread-local entry at it. *)
Definition pointer (SF : Frame) : Z := GVTOP (pointerOperand I SF).
Definition thread_local (ptr : Z) : M (option (gmap Z GenericValue * GenericValue)) :=
  thr ← curThread;
  mret (match Interp.tls thr !! ptr with Some v => Some (Interp.tls thr, v) | None => None end).

Definition visitLoadInst : M unit :=
  SF ← topFrame;
  let ptr := pointer SF in
  local ← thread_local ptr;
  match local with
  | Some (tls, val) => setResult I (loadTLSValue tls ptr val typ)
  | None =>
      k ← lift (getReadKind (attrMetadata I));
      val ← CALL_DRIVER_RESET_IF_NONE true back (fun pos =>
        handleLoad (Make.Read k pos (getOrdering I) ptr size atyp None RPlain no_deps));
      match val with
      | None => mret tt
      | Some v => setResult I (SVAL_TO_GV v typ)
      end
  end.

Definition visitStoreInst : M unit :=
  SF ← topFrame;
  let val := valueOperand I SF in
  let ptr := pointer SF in
  local ← thread_local ptr;
  match local with
  | Some (tls, _) => setTls (storeTLSValue tls ptr val typ)
  | None =>
      CALL_DRIVER false (fun pos =>
        handleStore (Make.WriteLabel pos (getOrdering I) ptr size atyp (GV_TO_SVAL val typ) attr no_deps))
  end.

Definition visitFenceInst : M unit :=
  CALL_DRIVER false (fun pos => handleFence (Make.FenceLabel pos (getOrdering I) no_deps)).

(** A compare-and-exchange of the kinds: the value read and whether it was the
    expected one, or nothing when the load has to be tried again. *)
Definition cas_visit (kR kW : EventLabelKind) (ptr cmpVal newVal : Z) : M (option (Z * bool)) :=
  ret ← CALL_DRIVER_RESET_IF_NONE true back (fun pos =>
    handleLoad (Make.CasRead kR pos (getSuccessOrdering I) ptr size atyp cmpVal newVal attr None no_deps));
  match ret with
  | None => mret None
  | Some v =>
      (if v =? cmpVal then
         CALL_DRIVER false (fun pos =>
           handleStore (Make.Write kW pos (getSuccessOrdering I) ptr size atyp newVal attr WPlain no_deps))
       else mret tt);;
      mret (Some (v, v =? cmpVal))
  end.
(** The answer of a helping CAS is the value of an empty [std::optional]. *)
Definition helping_visit (ptr cmpVal newVal : Z) : M (option (Z * bool)) :=
  ok ← CALL_DRIVER_RESET_IF_FALSE back (fun pos =>
    handleHelpingCas (Make.HelpingCasLabel pos (getSuccessOrdering I) ptr size atyp cmpVal newVal no_deps));
  if ok : bool then lift Undef else mret None.
Definition cas_result (r : option (Z * bool)) : M unit :=
  match r with
  | None => mret tt
  | Some (v, cmpRes) => setResult I (aggregateGV [SVAL_TO_GV v typ; INT_TO_GV int1Ty (Z.b2z cmpRes)])
  end.
Definition visitAtomicCmpXchgInst : M unit :=
  SF ← topFrame;
  let cmpVal := compareOperand I SF in
  let newVal := newValOperand I SF in
  let ptr := pointer SF in
  local ← thread_local ptr;
  match local with
  | Some (tls, val) =>
      let oldVal := loadTLSValue tls ptr val typ in
      let cmpRes := executeICMP_EQ oldVal cmpVal typ in
      (if getBoolValue cmpRes then setTls (storeTLSValue tls ptr newVal typ) else mret tt);;
      setResult I (aggregateGV [oldVal; cmpRes])
  | None =>
      kinds ← lift (getCasKinds (attrMetadata I));
      let '(kR, kW) := kinds in
      let exp := GV_TO_SVAL cmpVal typ in
      let swap := GV_TO_SVAL newVal typ in
      r ← (if bool_decide (kR = EL_HelpingCas) then helping_visit ptr exp swap else cas_visit kR kW ptr exp swap);
      cas_result r
  end.

(** A thread that was blocked by its load does not store. *)
Definition fai_visit (kR kW : EventLabelKind) (ptr val : Z) : M unit :=
  ret ← CALL_DRIVER_RESET_IF_NONE true back (fun pos =>
    handleLoad (Make.FaiRead kR pos (getOrdering I) ptr size atyp (getOperation I) val attr None no_deps));
  match ret with
  | None => mret tt
  | Some v =>
      newVal ← lift (Interp.executeAtomicRMWOperation v val size (getOperation I));
      blocked ← curBlocked;
      (if blocked : bool then mret tt
       else CALL_DRIVER false (fun pos =>
         handleStore (Make.Write kW pos (getOrdering I) ptr size atyp newVal attr WPlain no_deps)));;
      setResult I (SVAL_TO_GV v typ)
  end.
Definition visitAtomicRMWInst : M unit :=
  SF ← topFrame;
  let ptr := pointer SF in
  let val := GV_TO_SVAL (valueOperand I SF) typ in
  lift (BUG_ON (negb (isIntegerTy typ)));;
  local ← thread_local ptr;
  match local with
  | Some (tls, old) =>
      let oldVal := loadTLSValue tls ptr old typ in
      newVal ← lift (Interp.executeAtomicRMWOperation (GV_TO_SVAL oldVal typ) val size (getOperation I));
      setTls (storeTLSValue tls ptr (SVAL_TO_GV newVal typ) typ);;
      setResult I oldVal
  | None =>
      kinds ← lift (getFaiKinds (attrMetadata I));
      fai_visit (fst kinds) (snd kinds) ptr val
  end.
End Visit.
End Instructions.
End Instructions.
