(* ===== verification/Intrinsics.v ===== *)
(** * The functions the interpreter provides to programs, the file system's
    aside (src/src/Execution.cpp): assertions, spinloops, memory, threads, locks,
    barriers, hazard pointers, LKMM primitives and memory copies. *)
From Stdlib Require Import String.
From stdpp Require Import strings.
From S2P Require Import Prelude Event SVal SAddr VSet SExpr Deps Views Labels LabelClasses Graph Bounds Revisits Interp RARace Execution MemoryModel Driver Checks Schedule Handlers Explore Calls.
#[local] Open Scope Z_scope.

Module Intrinsics.
Import Drv Checks Handlers Calls.

(** [alignof(std::max_align_t)] *)
Definition max_align : Z := 16.
Definition PTHREAD_BARRIER_SERIAL_THREAD : Z := -1.
Definition smpFenceTypes : list (string * SmpFenceType) :=
  [("mb", MB); ("rmb", RMB); ("wmb", WMB); ("ba", MBBA); ("aa", MBAA); ("as", MBAS); ("aul", MBAUL)]%string.

Section Intrinsics.
Context `{P : Program} `{C : Config} `{MM : MemoryModel} `{Mc : !Machine} `{Fs : !FsInfo}.
(** The function called and its arguments. *)
Context (F : Func) (ArgVals : list GenericValue).
#[local] Abbreviation no_deps := DepInfo.no_deps.

Definition arg (i : Z) : M GenericValue := lift (vec_get ArgVals i).
Definition retTyp : Typ := getReturnType F.
(** [result.IntVal = APInt(typ->getIntegerBitWidth(), v); returnValueToCaller(typ, result)] *)
Definition return_int (v : Z) : M unit := returnValueToCaller retTyp (INT_TO_GV retTyp v).
Definition return_sval (v : Z) : M unit := returnValueToCaller retTyp (SVAL_TO_GV v retTyp).
Definition return_pointer (p : Z) : M unit := returnValueToCaller retTyp (pointerGV p).

(** ** Assertions, loops and assumptions *)

Definition callAssertFail : M unit :=
  recovery ← inRecoveryMode;
  let errT := if recovery : bool then VE_Recovery else VE_Safety in
  (match ArgVals with a :: _ => _ ← getStaticString (GVTOP a); mret tt | [] => mret tt end);;
  report_here errT.
Definition callOptBegin : M unit :=
  expand ← CALL_DRIVER false (fun pos => handleOptional (Make.OptionalLabel pos no_deps));
  return_int (if expand : bool then 1 else 0).
Definition callLoopBegin : M unit := CALL_DRIVER false (fun pos => handleLoopBegin (Make.LoopBeginLabel pos no_deps)).
Definition callSpinStart : M unit := CALL_DRIVER false (fun pos => handleSpinStart (Make.SpinStartLabel pos no_deps)).
Definition callSpinEnd : M unit :=
  a ← arg 0;
  if negb (getBoolValue a) then CALL_DRIVER false (fun pos => handleBlock (Make.SpinloopBlockLabel pos)) else mret tt.
Definition callFaiZNESpinEnd : M unit :=
  CALL_DRIVER false (fun pos => handleFaiZNESpinEnd (Make.FaiZNESpinEndLabel pos no_deps)).
Definition callLockZNESpinEnd : M unit :=
  CALL_DRIVER false (fun pos => handleLockZNESpinEnd (Make.LockZNESpinEndLabel pos no_deps)).
Definition callKillThread : M unit :=
  a ← arg 0;
  if getBoolValue a then inCurThread (Interp.setECStack []) else mret tt.
Definition callAssume : M unit :=
  a ← arg 0;
  if negb (getBoolValue a) then CALL_DRIVER false (fun pos => handleBlock (Make.UserBlockLabel pos)) else mret tt.
(** [MyDist] ranges over an unsigned type, so the bounds are out of order. *)
Definition callNondetInt : M unit := lift Undef.

(** ** Memory *)

Definition malloc (size alignment : Z) (stype : StorageType) (spc : AddressSpace) (name : string) : M Z :=
  CALL_DRIVER false (fun pos =>
    handleMalloc (Make.MallocLabel pos NotAtomic 0 (u32 size) (u32 alignment) SD_Heap stype spc name no_deps)).
Definition storeNA (addr size : Z) (type : AType) (val : Z) : M unit :=
  CALL_DRIVER false (fun pos => handleStore (Make.WriteLabel pos NotAtomic addr size type val WriteAttr.None_ no_deps)).
Definition callMalloc : M unit :=
  a ← arg 0;
  if negb (isStrictlyPositive a) then report_here VE_Allocation
  else
    address ← malloc (getLimitedValue a) max_align ST_Volatile AS_User EmptyString;
    return_sval address.
Definition callMallocAligned : M unit :=
  a0 ← arg 0;
  a1 ← arg 1;
  let align := getLimitedValue a0 in
  let size := getLimitedValue a1 in
  if negb (isStrictlyPositive a0) || negb (Z.land align (u64 (align - 1)) =? 0) then report_here VE_Allocation
  else if negb (isStrictlyPositive a1) || negb (size mod align =? 0) then report_here VE_Allocation
  else
    address ← malloc size align ST_Volatile AS_User EmptyString;
    return_sval address.
Definition callMallocZero : M unit :=
  a ← arg 0;
  if negb (isStrictlyPositive a) then report_here VE_Allocation
  else
    let size := getLimitedValue a in
    address ← malloc size max_align ST_Volatile AS_User EmptyString;
    forM (seqZ 0 size) (fun i => storeNA (offset address i) (ASize.make 1) Unsigned 0);;
    return_sval address.
Definition callPMalloc : M unit :=
  a ← arg 0;
  if negb (isStrictlyPositive a) then report_here VE_Allocation
  else
    address ← malloc (getLimitedValue a) max_align ST_Durable AS_User EmptyString;
    return_sval address.
Definition free (ptr : Z) : M unit :=
  CALL_DRIVER false (fun pos => handleFree (Make.FreeLabel pos NotAtomic ptr 0 no_deps)).
Definition callFree : M unit :=
  a ← arg 0;
  if negb (GVTOP a =? 0) then free (GVTOP a) else mret tt.

(** ** Threads *)

Definition callThreadSelf : M unit := t ← curThread; return_sval (u64 (Interp.id t)).
Definition callThreadCreate : M unit :=
  a1 ← arg 1;
  let calledFun := GVTOP a1 in
  if calledFun =? 0 then report_here VE_InvalidCreate
  else
    a2 ← arg 2;
    symm ← (if 3 <? Z.of_nat (length ArgVals) then a3 ← arg 3; mret (signed 32 (u32 (getLimitedValue a3))) else mret (-1));
    p ← curPos;
    let info := mkThreadInfo (-1) (thread p) (functionID calledFun) (GVTOP a2) symm in
    tid ← CALL_DRIVER false (fun pos => handleThreadCreate (Make.ThreadCreateLabel pos Release info no_deps));
    return_int tid.
Definition callThreadCreateSymmetric : M unit := callThreadCreate.
Definition callThreadJoin : M unit :=
  a ← arg 0;
  result ← CALL_DRIVER_RESET_IF_NONE false back (fun pos =>
    handleThreadJoin (Make.ThreadJoinLabel pos Acquire (u32 (getLimitedValue a)) no_deps));
  match result with None => mret tt | Some v => return_sval v end.
(** *** Leaving a function.  The handlers registered with [atexit] run the
    interpreter: [atExit] is [runAtExitHandlers]. *)
Context (atExit : M unit).
Definition pop_frame : M unit :=
  f ← topFrame;
  freeAllocas (frameAllocas f);;
  inCurThread (fun t => Interp.setECStack (removelast (Interp.ECStack t)) t).
Definition popStackAndReturnValueToCaller (t : Typ) (r : GenericValue) : M unit :=
  pop_frame;;
  thr ← curThread;
  match Interp.ECStack thr with
  | [] =>
      state ← gets (fun d => Interp.programState (EE d));
      (if Interp.isMain thr && bool_decide (state = Interp.Main) then atExit else mret tt);;
      state ← gets (fun d => Interp.programState (EE d));
      if negb (bool_decide (state = Interp.Dtors))
      then CALL_DRIVER false (fun pos => handleThreadFinish (Make.ThreadFinishLabel pos Release (GV_TO_SVAL r t)))
      else mret tt
  | _ => returnValueToCaller t r
  end.
Fixpoint pop_frames (n : nat) : M unit :=
  match n with O => mret tt | S n => pop_frame;; pop_frames n end.
Definition callThreadExit : M unit :=
  thr ← curThread;
  pop_frames (pred (length (Interp.ECStack thr)));;
  a ← arg 0;
  popStackAndReturnValueToCaller retTyp a.
Definition addAtExitHandler (f : Z) : M unit :=
  inEE (fun e => Ret (Interp.set_AtExitHandlers (f :: Interp.AtExitHandlers e) e)).
Definition callAtExit : M unit := a ← arg 0; addAtExitHandler (GVTOP a);; return_int 0.

(** ** Mutexes and barriers *)

Definition callMutexInit : M unit :=
  a ← arg 0;
  _ ← arg 1;
  storeNA (GVTOP a) (getTypeSize retTyp) (TYPE_TO_ATYPE retTyp) 0;;
  return_int 0.
Definition callMutexLock : M unit := a ← arg 0; handleLock (GVTOP a) (getTypeSize retTyp);; return_int 0.
Definition callMutexUnlock : M unit := a ← arg 0; handleUnlock (GVTOP a) (getTypeSize retTyp);; return_int 0.
Definition callMutexTrylock : M unit :=
  a ← arg 0;
  let size := getTypeSize retTyp in
  f ← topFrame;
  r ← CALL_DRIVER true (fun pos =>
    handleLoad (ReadLabel.setAnnot (Some (not_locked size (instID f)))
      (Make.TrylockCasReadLabel_default pos (GVTOP a) size WriteAttr.None_ None no_deps)));
  ret ← value r;
  let cmpRes := ret =? 0 in
  (if cmpRes
   then CALL_DRIVER false (fun pos => handleStore (Make.TrylockCasWriteLabel_default pos (GVTOP a) size no_deps))
   else mret tt);;
  return_int (if cmpRes then 0 else 1).
Definition callMutexDestroy : M unit :=
  a ← arg 0;
  storeNA (GVTOP a) (getTypeSize retTyp) (TYPE_TO_ATYPE retTyp) (u64 (-1));;
  return_int 0.

Definition callBarrierInit : M unit :=
  a0 ← arg 0;
  _ ← arg 1;
  a2 ← arg 2;
  CALL_DRIVER false (fun pos =>
    handleStore (Make.BInitWriteLabel pos NotAtomic (GVTOP a0) (getTypeSize retTyp) (TYPE_TO_ATYPE retTyp)
                   (GV_TO_SVAL a2 retTyp) no_deps));;
  return_int 0.
Definition callBarrierWait : M unit :=
  a ← arg 0;
  let barrier := GVTOP a in
  let asize := getTypeSize retTyp in
  let atyp := TYPE_TO_ATYPE retTyp in
  oldVal ← CALL_DRIVER_RESET_IF_NONE true back (fun pos =>
    handleLoad (Make.BIncFaiReadLabel pos AcquireRelease barrier asize atyp Interp.Sub 1 WriteAttr.None_ None no_deps));
  match oldVal with
  | None => mret tt
  | Some old =>
      blocked ← curBlocked;
      if (SVal.getSigned old <=? 0) || (blocked : bool) then mret tt
      else
        newVal ← lift (Interp.executeAtomicRMWOperation old 1 asize Interp.Sub);
        CALL_DRIVER false (fun pos =>
          handleStore (Make.BIncFaiWriteLabel pos AcquireRelease barrier asize atyp newVal WriteAttr.None_ no_deps));;
        _ ← CALL_DRIVER true (fun pos => handleLoad (Make.BWaitReadLabel pos Acquire barrier asize atyp None no_deps));
        return_int (if negb (newVal =? 0) then 0 else PTHREAD_BARRIER_SERIAL_THREAD)
  end.
Definition callBarrierDestroy : M unit :=
  a ← arg 0;
  CALL_DRIVER false (fun pos =>
    handleStore (Make.BDestroyWriteLabel pos NotAtomic (GVTOP a) (getTypeSize retTyp) (TYPE_TO_ATYPE retTyp) 0 no_deps));;
  return_int 0.

(** ** Hazard pointers *)

Definition callHazptrAlloc : M unit :=
  address ← malloc (getTypeSize retTyp) max_align ST_Volatile AS_Internal EmptyString;
  return_sval address.
Definition callHazptrProtect : M unit :=
  hp ← arg 0;
  ptr ← arg 1;
  CALL_DRIVER false (fun pos => handleHpProtect (Make.HpProtectLabel pos Release (GVTOP hp) (GVTOP ptr) no_deps)).
Definition callHazptrClear : M unit :=
  let typ := getPointerTo voidTy in
  hp ← arg 0;
  CALL_DRIVER false (fun pos =>
    handleStore (Make.WriteLabel pos Release (GVTOP hp) (getTypeSize typ) (TYPE_TO_ATYPE typ) 0 WriteAttr.None_ no_deps)).
Definition callHazptrFree : M unit := a ← arg 0; free (GVTOP a).
Definition callHazptrRetire : M unit :=
  a ← arg 0; CALL_DRIVER false (fun pos => handleFree (Make.HpRetireLabel pos NotAtomic (GVTOP a) 0 no_deps)).

(** ** LKMM and persistency *)

Definition callSmpFenceLKMM : M unit :=
  a ← arg 0;
  name ← getStaticString (GVTOP a);
  ft ← lift (match List.find (fun p => String.eqb (fst p) name) smpFenceTypes with Some p => Ret (snd p) | None => Undef end);
  CALL_DRIVER false (fun pos => handleFence (Make.SmpFenceLabelLKMM pos Monotonic ft no_deps)).
Definition callRCUReadLockLKMM : M unit :=
  CALL_DRIVER false (fun pos => handleRCULockLKMM (Make.RCULockLabelLKMM pos no_deps)).
Definition callRCUReadUnlockLKMM : M unit :=
  CALL_DRIVER false (fun pos => handleRCUUnlockLKMM (Make.RCUUnlockLabelLKMM pos no_deps)).
Definition callSynchronizeRCULKMM : M unit :=
  CALL_DRIVER false (fun pos => handleRCUSyncLKMM (Make.RCUSyncLabelLKMM pos no_deps)).
Definition callCLFlush : M unit :=
  a ← arg 0; CALL_DRIVER false (fun pos => handleCLFlush (Make.CLFlushLabel pos Monotonic (GVTOP a) no_deps)).

(** ** Copying and setting memory, byte by byte *)

Definition loadByte (addr : Z) : M (option Z) :=
  CALL_DRIVER true (fun pos => handleLoad (Make.ReadLabel pos NotAtomic addr (ASize.make 1) Unsigned None no_deps)).
Definition storeByte (addr val : Z) : M unit := storeNA addr (ASize.make 1) Unsigned val.
(** The value is whether the loop ran to its end. *)
Fixpoint copy_bytes (dest src : Z) (idx : list Z) : M bool :=
  match idx with
  | [] => mret true
  | i :: idx =>
      val ← loadByte (offset src i);
      match val with
      | None => mret false
      | Some v => storeByte (offset dest i) v;; copy_bytes dest src idx
      end
  end.
Definition callMemcpy : M unit :=
  d ← arg 0; s ← arg 1; l ← arg 2;
  ended ← copy_bytes (GVTOP d) (GVTOP s) (seqZ 0 (getZExtValue l));
  if ended : bool then return_pointer (GVTOP d) else mret tt.
Fixpoint read_bytes (src : Z) (idx : list Z) : M (option (list Z)) :=
  match idx with
  | [] => mret (Some [])
  | i :: idx =>
      val ← loadByte (offset src i);
      match val with
      | None => mret None
      | Some v => rest ← read_bytes src idx; mret (match rest with Some vs => Some (v :: vs) | None => None end)
      end
  end.
Definition callMemmove : M unit :=
  d ← arg 0; s ← arg 1; l ← arg 2;
  let range := seqZ 0 (getZExtValue l) in
  bytes ← read_bytes (GVTOP s) range;
  match bytes with
  | None => mret tt
  | Some bytes =>
      forM (zip range bytes) (fun p => storeByte (offset (GVTOP d) (fst p)) (snd p));;
      return_pointer (GVTOP d)
  end.
Definition callMemset : M unit :=
  d ← arg 0; v ← arg 1; l ← arg 2;
  let val := Z.land (getZExtValue v) 255 in
  forM (seqZ 0 (getZExtValue l)) (fun i => storeByte (offset (GVTOP d) i) val);;
  return_pointer (GVTOP d).

End Intrinsics.

(** ** Handlers registered with [atexit] *)

Section AtExit.
Context `{P : Program} `{C : Config} `{MM : MemoryModel} `{Mc : !Machine}.
(** One iteration of [runAtExitHandlers]; a handler that wants arguments is
    skipped. *)
Definition enter (f : Z) : M unit := inCurThread (fun t => Interp.setECStack (Interp.ECStack t ++ [enterFunction f]) t).
Definition exit_handler (run : M unit) : M bool :=
  hs ← gets (fun d => Interp.AtExitHandlers (EE d));
  match hs with
  | [] => mret false
  | f :: hs =>
      inEE (fun e => Ret (Interp.set_AtExitHandlers hs e));;
      (if negb (argSize f =? 0) then mret tt
       else inEE (fun e => Ret (Interp.scheduleThread 0 e));; enter f;; run);;
      mret true
  end.
(** [runAtExitHandlers]: the loop ends when no handler is left. *)
Definition set_state (s : Interp.ProgramState) : M unit := inEE (fun e => Ret (Interp.setProgramState s e)).
Definition RunsAtExitHandlers (run : M unit) (d d' : Driver) : Prop :=
  exists d1 d2, set_state Interp.Dtors d = Ret (tt, d1) /\ Explore.Loop (exit_handler run) d1 d2 /\
                set_state (Interp.programState (EE d)) d2 = Ret (tt, d').
End AtExit.
End Intrinsics.
