(* ===== verification/FileSystem.v ===== *)
(** * The file system the interpreter provides (src/src/Execution.cpp,
    Interpreter.cpp).

    One directory, whose entries are known statically; inodes and file
    descriptions live in memory the driver allocates, sizes and offsets in memory,
    contents and metadata on disk.  [SVal(42)] is how a function says that the
    thread blocked. *)
From Stdlib Require Import String.
From stdpp Require Import strings pretty.
From S2P Require Import Prelude Event SVal SAddr VSet SExpr Deps Views Labels LabelClasses Graph Bounds Revisits Interp RARace Execution MemoryModel Driver Checks Schedule Handlers Explore Calls Intrinsics.
#[local] Open Scope Z_scope.

Module FileSystem.
Import Drv Checks Handlers Calls Intrinsics.

(** ** Constants *)

Definition SEEK_SET : Z := 0.
Definition SEEK_CUR : Z := 1.
Definition SEEK_END : Z := 2.
Definition O_RDONLY : Z := 0x0.
Definition O_WRONLY : Z := 0x1.
Definition O_RDWR : Z := 0x2.
Definition O_CREAT : Z := 0x40.
Definition O_TRUNC : Z := 0x200.
Definition O_APPEND : Z := 0x400.
Definition O_SYNC : Z := 0x101000.
Definition O_DSYNC : Z := 0x1000.
Definition O_ACCMODE : Z := 0x3.
Definition VALID_OPEN_FLAGS : Z := foldr Z.lor 0 [O_RDONLY; O_WRONLY; O_RDWR; O_CREAT; O_TRUNC; O_APPEND; O_SYNC; O_DSYNC].
Definition OPEN_FMODE (flag : Z) : Z := Z.land (u64 (flag + 1)) O_ACCMODE.
Definition FMODE_READ : Z := 1.
Definition FMODE_WRITE : Z := 2.
Definition has (flags mask : Z) : bool := negb (Z.land flags mask =? 0).
(** [~mask] of an [int], converted to 64 bits. *)
Definition without (flags mask : Z) : Z := Z.land flags (u64 (Z.lnot mask)).
(** What functions answer when the thread blocked. *)
Definition BLOCKED : Z := 42.
Definition minus_one : Z := u64 (-1).

Section FileSystem.
Context `{P : Program} `{C : Config} `{MM : MemoryModel} `{Mc : !Machine} `{Fs : !FsInfo}.
#[local] Abbreviation no_deps := DepInfo.no_deps.

(** ** Set-up *)

Definition delalloc : bool := bool_decide (journalData = ordered) && negb disableDelalloc.
(** The entries of the directory, laid out in its data. *)
Definition nameToInodeAddr : list (string * Z) :=
  let intPtrSize := getTypeSize (getPointerTo inodeIntTyp) in
  imap (fun count name => (name, offset (offset dirInode (inodeElement 4)) (u32 (Z.of_nat count * intPtrSize)))) filenames.
Definition getInodeAddrFromName (name : string) : outcome Z :=
  match List.find (fun p => String.eqb (fst p) name) nameToInodeAddr with Some p => Ret (snd p) | None => Undef end.

(** File descriptors; [IndexedMap::grow] fills with null. *)
Definition getFileFromFd (fd : Z) : M Z :=
  fds ← gets (fun d => Interp.fdToFile (EE d));
  let fd := signed 32 (u32 fd) in
  mret (if (0 <=? fd) && (fd <? Z.of_nat (length fds)) then nth (Z.to_nat fd) fds 0 else 0).
Definition set_fd (fd file : Z) (fds : list Z) : outcome (list Z) :=
  if fd <? 0 then Undef
  else
    let fds := if fd >=? Z.of_nat (length fds)
               then fds ++ replicate (Z.to_nat fd + 1 - length fds) 0 else fds in
    Ret (<[Z.to_nat fd := file]> fds).
Definition setFdToFile (fd file : Z) : M unit :=
  inEE (fun e => fds ← set_fd (signed 32 (u32 fd)) file (Interp.fdToFile e); Ret (Interp.set_fdToFile fds e)).

(** Fields *)
Definition GET_FILE_INODE_ADDR (file : Z) : Z := offset file (fileElement 0).
Definition GET_FILE_COUNT_ADDR (file : Z) : Z := offset file (fileElement 1).
Definition GET_FILE_FLAGS_ADDR (file : Z) : Z := offset file (fileElement 2).
Definition GET_FILE_POS_LOCK_ADDR (file : Z) : Z := offset file (fileElement 3).
Definition GET_FILE_OFFSET_ADDR (file : Z) : Z := offset file (fileElement 4).
Definition GET_INODE_LOCK_ADDR (inode : Z) : Z := offset inode (inodeElement 0).
Definition GET_INODE_ISIZE_ADDR (inode : Z) : Z := offset inode (inodeElement 1).
Definition GET_INODE_ITRANSACTION_ADDR (inode : Z) : Z := offset inode (inodeElement 2).
Definition GET_INODE_IDISKSIZE_ADDR (inode : Z) : Z := offset inode (inodeElement 3).
Definition GET_INODE_DATA_ADDR (inode : Z) : Z := offset inode (inodeElement 4).
Definition GET_METADATA_MAPPING (inode : Z) : Z := inode.
Definition GET_DATA_MAPPING (inode : Z) : Z := inode.
Definition GET_JOURNAL_MAPPING (inode : Z) : Z := 0.

(** Accesses to memory and disk, of a type; a load must answer. *)
Definition load (ord : AtomicOrdering) (addr size : Z) (atyp : AType) : M Z :=
  r ← CALL_DRIVER true (fun pos => handleLoad (Make.ReadLabel pos ord addr size atyp None no_deps));
  value r.
Definition store (ord : AtomicOrdering) (addr size : Z) (atyp : AType) (val : Z) : M unit :=
  CALL_DRIVER false (fun pos => handleStore (Make.WriteLabel pos ord addr size atyp val WriteAttr.None_ no_deps)).
Definition readDisk (addr size : Z) (atyp : AType) : M Z :=
  CALL_DRIVER false (fun pos => handleDskRead (Make.DskReadLabel_default pos addr size atyp None no_deps)).

(** The type [int] of the calls. *)
Context (intTyp : Typ).
#[local] Abbreviation asize := (getTypeSize intTyp).
#[local] Abbreviation atyp := (TYPE_TO_ATYPE intTyp).
#[local] Abbreviation ptrSize := (getTypeSize (getPointerTo intTyp)).

(** ** Inodes *)

Definition getInodeTransStatus (inode : Z) : M Z := readDisk (GET_INODE_ITRANSACTION_ADDR inode) asize atyp.
Definition setInodeTransStatus (inode val : Z) : M unit :=
  CALL_DRIVER false (fun pos =>
    handleDskWrite (Make.DskJnlWriteLabel pos Release (GET_INODE_ITRANSACTION_ADDR inode) asize atyp val
                      (GET_JOURNAL_MAPPING inode) inode no_deps)).
Definition readInodeSizeFS (inode : Z) : M Z :=
  recovery ← inRecoveryMode;
  if recovery : bool then readDisk (GET_INODE_IDISKSIZE_ADDR inode) asize atyp
  else load Acquire (GET_INODE_ISIZE_ADDR inode) asize atyp.
Definition updateInodeSizeFS (inode newSize : Z) : M unit :=
  store Release (GET_INODE_ISIZE_ADDR inode) asize atyp newSize.
Definition executeFsyncFS (inode : Z) : M unit :=
  CALL_DRIVER false (fun pos => handleDskFsync (Make.DskFsyncLabel pos Release inode (getTypeSize inodeTyp) no_deps)).
Definition updateInodeDisksizeFS (inode newSize ordDataBegin ordDataEnd : Z) : M unit :=
  let is_ordered := bool_decide (journalData = ordered) in
  let inodeData := GET_INODE_DATA_ADDR inode in
  let ordDataRange := if is_ordered then (offset inodeData ordDataBegin, offset inodeData ordDataEnd) else (0, 0) in
  CALL_DRIVER false (fun pos =>
    handleDskWrite (Make.DskMdWriteLabel pos Release (GET_INODE_IDISKSIZE_ADDR inode) asize atyp newSize
                      (GET_METADATA_MAPPING inode) ordDataRange no_deps));;
  if is_ordered && negb delalloc then executeFsyncFS inode else mret tt.

(** The counters are [unsigned], the offsets and the count [int]. *)
Definition int (v : Z) : Z := signed 32 (u32 v).
Definition writeDataToDisk (buf bufOffset inode inodeOffset count : Z) (dataTyp : Typ) : M unit :=
  let inodeData := GET_INODE_DATA_ADDR inode in
  let size := getTypeSize dataTyp in
  forM (seqZ 0 (u32 count)) (fun i =>
    val ← load NotAtomic (offset (offset buf (int bufOffset)) i) size (TYPE_TO_ATYPE dataTyp);
    CALL_DRIVER false (fun pos =>
      handleDskWrite (Make.DskWriteLabel pos Release (offset (offset inodeData (int inodeOffset)) i) size
                        (TYPE_TO_ATYPE dataTyp) val (GET_DATA_MAPPING inode) no_deps))).
Definition readDataFromDisk (inode inodeOffset buf bufOffset count : Z) (dataTyp : Typ) : M unit :=
  let inodeData := GET_INODE_DATA_ADDR inode in
  let size := getTypeSize dataTyp in
  forM (seqZ 0 (u32 count)) (fun i =>
    val ← readDisk (offset (offset inodeData (int inodeOffset)) i) size (TYPE_TO_ATYPE dataTyp);
    store NotAtomic (offset (offset buf (int bufOffset)) i) size (TYPE_TO_ATYPE dataTyp) val).
Definition zeroDskRangeFS (inode start stop : Z) (writeIntTyp : Typ) : M unit :=
  let dataOffset := GET_INODE_DATA_ADDR inode in
  forM (seqZ start (stop - start)) (fun i =>
    CALL_DRIVER false (fun pos =>
      handleDskWrite (Make.DskWriteLabel pos Release (offset dataOffset i) (getTypeSize writeIntTyp)
                        (TYPE_TO_ATYPE writeIntTyp) 0 (GET_DATA_MAPPING inode) no_deps))).

(** ** The directory *)

Definition updateDirNameInode (name : string) (inode : Z) : M unit :=
  inodeAddr ← lift (getInodeAddrFromName name);
  executeFsyncFS dirInode;;
  CALL_DRIVER false (fun pos =>
    handleDskWrite (Make.DskDirWriteLabel pos Release inodeAddr ptrSize Pointer inode (GET_DATA_MAPPING dirInode) no_deps));;
  if bool_decide (journalData = journal) then executeFsyncFS dirInode else mret tt.
Definition checkOpenFlagsFS (flags : Z) : M Z :=
  if negb (Z.land flags (u64 (Z.lnot VALID_OPEN_FLAGS)) =? 0) then handleSystemError SE_EINVAL;; mret minus_one
  else mret 0.
(** The thread is rolled back and blocked while a transaction is open. *)
Definition block_consistency : M Z := rollToSnapshot;; blockCurrent Interp.Cons;; mret BLOCKED.
Definition executeInodeLookupFS (filename : string) : M Z :=
  inTrans ← getInodeTransStatus dirInode;
  if inTrans =? 1 then block_consistency
  else
    inodeAddr ← lift (getInodeAddrFromName filename);
    readDisk inodeAddr ptrSize Pointer.
Definition executeInodeCreateFS (filename : string) : M Z :=
  inode ← CALL_DRIVER false (fun pos =>
    handleMalloc (Make.MallocLabel pos NotAtomic 0 (getTypeSize inodeTyp) max_align SD_Heap ST_Durable AS_Internal
                    ("__inode_" ++ filename)%string no_deps));
  store Release (GET_INODE_LOCK_ADDR inode) asize atyp 0;;
  store Release (GET_INODE_ISIZE_ADDR inode) asize atyp 0;;
  setInodeTransStatus inode 0;;
  updateInodeDisksizeFS inode 0 0 0;;
  updateDirNameInode filename inode;;
  mret inode.
(** [handleLock] with its continuation: [None] when the thread blocked. *)
Definition locking {A} (lock : Z) (body : M A) : M (option A) :=
  handleLock lock asize;;
  blocked ← curBlocked;
  if blocked : bool then rollToSnapshot;; mret None else a ← body; mret (Some a).
Definition dirLock : Z := GET_INODE_LOCK_ADDR dirInode.
(** The inode and the flags. *)
Definition executeLookupOpenFS (file : string) (flags : Z) : M (Z * Z) :=
  if negb (has flags O_CREAT) then inode ← executeInodeLookupFS file; mret (inode, flags)
  else
    r ← locking dirLock (
      inode ← executeInodeLookupFS file;
      blocked ← curBlocked;
      if blocked : bool then mret (inode, flags)
      else
        r ← (if negb (inode =? 0) then mret (inode, flags)
             else inode ← executeInodeCreateFS file; mret (inode, without flags O_TRUNC));
        handleUnlock dirLock asize;;
        mret r);
    mret (match r with None => (BLOCKED, flags) | Some r => r end).

(** ** Opening and closing *)

(** The label is created with the size of an [int] for its descriptor, which the
    driver replaces. *)
Definition executeOpenFS (filename : string) (flags inode : Z) : M Z :=
  fd ← CALL_DRIVER false (fun pos => handleDskOpen (Make.DskOpenLabel pos Release filename asize no_deps));
  p ← curPos;
  let sname := ("__file_" ++ filename ++ "_" ++ pretty (thread p) ++ "_" ++ pretty (index p))%string in
  file ← CALL_DRIVER false (fun pos =>
    handleMalloc (Make.MallocLabel pos NotAtomic 0 (getTypeSize fileTyp) max_align SD_Heap ST_Volatile AS_Internal
                    sname no_deps));
  store NotAtomic (GET_FILE_INODE_ADDR file) ptrSize Pointer inode;;
  store NotAtomic (GET_FILE_FLAGS_ADDR file) asize atyp flags;;
  store NotAtomic (GET_FILE_OFFSET_ADDR file) asize atyp 0;;
  store Release (GET_FILE_POS_LOCK_ADDR file) asize atyp 0;;
  store Release (GET_FILE_COUNT_ADDR file) asize atyp 1;;
  setFdToFile fd file;;
  mret fd.
Definition truncate_to (inode length : Z) : M Z :=
  oldIsize ← readInodeSizeFS inode;
  r ← (if SVal.getSigned length >? SVal.getSigned oldIsize
       then if SVal.getSigned length >=? maxFileSize then handleSystemError SE_EFBIG;; mret None
            else zeroDskRangeFS inode oldIsize length int8Ty;; mret (Some (oldIsize, length))
       else mret (Some (0, 0)));
  match r with
  | None => mret minus_one
  | Some (ordRangeBegin, ordRangeEnd) =>
      updateInodeDisksizeFS inode length ordRangeBegin ordRangeEnd;;
      updateInodeSizeFS inode length;;
      (if journal_index journalData >=? journal_index ordered then executeFsyncFS inode else mret tt);;
      mret 0
  end.
Definition executeTruncateFS (inode length : Z) : M Z :=
  if SVal.getSigned length <? 0 then handleSystemError SE_EINVAL;; mret minus_one
  else
    let inodeLock := GET_INODE_LOCK_ADDR inode in
    r ← locking inodeLock (ret ← truncate_to inode length; handleUnlock inodeLock asize;; mret ret);
    mret (match r with None => BLOCKED | Some ret => ret end).
(** The last reference to a file description frees it. *)
Definition executeReleaseFileFS (fileDesc : Z) : M unit := free fileDesc.
Definition executeCloseFS (fd : Z) : M Z :=
  fileDesc ← getFileFromFd fd;
  if fileDesc =? 0 then handleSystemError SE_EBADF;; mret minus_one
  else
    let fileCount := GET_FILE_COUNT_ADDR fileDesc in
    r ← CALL_DRIVER true (fun pos =>
      handleLoad (Make.FaiReadLabel pos AcquireRelease fileCount asize atyp Interp.Sub 1 WriteAttr.None_ None no_deps));
    ret ← value r;
    newVal ← lift (Interp.executeAtomicRMWOperation ret 1 asize Interp.Sub);
    CALL_DRIVER false (fun pos =>
      handleStore (Make.FaiWriteLabel pos AcquireRelease fileCount asize atyp newVal WriteAttr.None_ no_deps));;
    (if newVal =? 0 then executeReleaseFileFS fileDesc else mret tt);;
    mret 0.

(** ** Links *)

Definition executeLinkFS (newpath : string) (oldInode : Z) : M Z := updateDirNameInode newpath oldInode;; mret 0.
Definition executeUnlinkFS (pathname : string) : M Z := updateDirNameInode pathname 0;; mret 0.
Definition executeRenameFS (oldpath : string) (oldInode : Z) (newpath : string) (newInode : Z) : M Z :=
  if oldInode =? newInode then mret 0
  else
    setInodeTransStatus dirInode 1;;
    result ← executeLinkFS newpath oldInode;
    lift (BUG_ON (SVal.getSigned result =? -1));;
    result ← executeUnlinkFS oldpath;
    setInodeTransStatus dirInode 0;;
    mret result.

(** ** Reading and writing *)

(** Whether the disk size is to be updated, and to what. *)
Definition shouldUpdateInodeDisksizeFS (iSize wOffset countVal : Z) : outcome (option Z) :=
  if blockSize =? 0 then Undef
  else
    let bi := iSize mod blockSize in
    let rb := blockSize - bi in
    let be := u64 (iSize + rb) in
    let stop := u64 (wOffset + countVal) in
    let shouldUpdate := (((wOffset <=? iSize) && (iSize <? stop))
                         || ((wOffset <? be) && (be <=? stop))
                         || ((iSize <=? wOffset) && (stop <=? be)))
                        && (bi >? 0) in
    Ret (if shouldUpdate then Some (Z.min be stop) else None).
(** The answer is -1 on failure and [BLOCKED] when the thread blocked. *)
Definition executeReadFS (file buf : Z) (bufElemTyp : Typ) (off count : Z) : M Z :=
  flags ← load NotAtomic (GET_FILE_FLAGS_ADDR file) asize atyp;
  if negb (has (OPEN_FMODE flags) FMODE_READ) then handleSystemError SE_EBADF;; mret minus_one
  else
    inode ← load Monotonic (GET_FILE_INODE_ADDR file) ptrSize Pointer;
    iSize ← readInodeSizeFS inode;
    if SVal.sge off iSize then mret 0
    else
      let nr := SVal.sub iSize off in
      let nr := if SVal.getSigned nr >=? SVal.getSigned count then count else nr in
      readDataFromDisk inode (SVal.getSigned off) buf 0 (SVal.getSigned nr) bufElemTyp;;
      if bool_decide (journalData = journal) then
        inTrans ← getInodeTransStatus inode;
        if inTrans =? 1 then block_consistency else mret nr
      else mret nr.
(** How much to write, and where: [wOffset] stays 0 when nothing is written. *)
Definition executeWriteChecksFS (inode flags off count : Z) : M (Z * Z) :=
  if SVal.getSigned count <=? 0 then mret (count, 0)
  else
    wOffset ← (if has flags O_APPEND then readInodeSizeFS inode else mret off);
    if SVal.getSigned wOffset >=? maxFileSize then handleSystemError SE_EFBIG;; mret (minus_one, wOffset)
    else
      let left := maxFileSize - SVal.getSigned wOffset in
      lift (if left >=? 2 ^ 63 then Undef else Ret (u64 (Z.min (SVal.getSigned count) left), wOffset)).
(** The pieces of a write: each is at [bufOffset] of the buffer, at
    [inodeOffset] of the file and [bytes] long.  A piece takes at least a byte. *)
Fixpoint write_blocks (fuel : nat) (bufOffset inodeOffset dataCount : Z) : outcome (list (Z * Z * Z)) :=
  match fuel with
  | O => Undef
  | S fuel =>
      if blockSize =? 0 then Undef
      else
        let bytes := Z.min blockSize dataCount in
        let blockIndex := inodeOffset mod blockSize in
        let blockRem := blockSize - blockIndex in
        let bytes := if negb (blockIndex =? 0) && (bytes >? blockRem) then blockRem else bytes in
        let rest := u64 (dataCount - bytes) in
        ps ← (if rest =? 0 then Ret []
              else write_blocks fuel (int (bufOffset + bytes)) (u64 (inodeOffset + bytes)) rest);
        Ret ((bufOffset, inodeOffset, bytes) :: ps)
  end.
Definition write_piece (inode buf : Z) (bufElemTyp : Typ) (ordRangeBegin : Z) (p : Z * Z * Z) : M Z :=
  let '(bufOffset, inodeOffset, bytes) := p in
  let journaled := bool_decide (journalData = journal) in
  (if journaled then setInodeTransStatus inode 1 else mret tt);;
  writeDataToDisk buf bufOffset inode inodeOffset bytes bufElemTyp;;
  let newSize := u64 (inodeOffset + bytes) in
  size ← readInodeSizeFS inode;
  b ← (if SVal.getSigned newSize >? SVal.getSigned size
       then updateInodeDisksizeFS inode newSize ordRangeBegin newSize;;
            updateInodeSizeFS inode newSize;;
            mret newSize
       else mret ordRangeBegin);
  (if journaled then setInodeTransStatus inode 0;; executeFsyncFS inode else mret tt);;
  mret b.
Definition executeBufferedWriteFS (inode buf : Z) (bufElemTyp : Typ) (wOffset count : Z) : M Z :=
  iSize ← readInodeSizeFS inode;
  (if delalloc then
     d ← lift (shouldUpdateInodeDisksizeFS iSize wOffset count);
     match d with
     | Some dSize => zeroDskRangeFS inode iSize dSize bufElemTyp;; updateInodeDisksizeFS inode dSize iSize dSize
     | None => mret tt
     end
   else mret tt);;
  (if SVal.getSigned wOffset >? SVal.getSigned iSize then zeroDskRangeFS inode iSize wOffset bufElemTyp else mret tt);;
  ps ← lift (write_blocks (S (Z.to_nat count)) 0 wOffset count);
  _ ← foldMM (write_piece inode buf bufElemTyp) ps 0;
  mret count.
Definition executeWriteFS (file buf : Z) (bufElemTyp : Typ) (off count : Z) : M Z :=
  flags ← load NotAtomic (GET_FILE_FLAGS_ADDR file) asize atyp;
  if negb (has (OPEN_FMODE flags) FMODE_WRITE) then handleSystemError SE_EBADF;; mret minus_one
  else
    inode ← load Monotonic (GET_FILE_INODE_ADDR file) ptrSize Pointer;
    let inodeLock := GET_INODE_LOCK_ADDR inode in
    r ← locking inodeLock (
      w ← executeWriteChecksFS inode flags off count;
      ret ← (if SVal.getSigned (fst w) <=? 0 then mret 0
             else executeBufferedWriteFS inode buf bufElemTyp (snd w) (fst w));
      handleUnlock inodeLock asize;;
      (if (SVal.getSigned ret >? 0) && has flags O_SYNC then executeFsyncFS inode else mret tt);;
      mret ret);
    mret (match r with None => BLOCKED | Some ret => ret end).

(** ** Seeking *)

Definition executeLseekFS (file off whence : Z) : M Z :=
  inode ← load Monotonic (GET_FILE_INODE_ADDR file) ptrSize Pointer;
  fileSize ← readInodeSizeFS inode;
  let fileOffset := GET_FILE_OFFSET_ADDR file in
  let update newOffset := store NotAtomic fileOffset asize atyp newOffset;; mret newOffset in
  if whence =? SEEK_SET then update off
  else if whence =? SEEK_END then update (SVal.add off fileSize)
  else if whence =? SEEK_CUR then
    cur ← load NotAtomic fileOffset asize atyp;
    if off =? 0 then mret cur else update (SVal.add cur off)
  else handleSystemError SE_EINVAL;; mret minus_one.
End FileSystem.
End FileSystem.
