(* ===== verification/FsCalls.v ===== *)
(** * The calls of the file system, and the dispatch of the interpreter's
    functions (src/src/Execution.cpp). *)
From Stdlib Require Import String.
From stdpp Require Import strings.
From S2P Require Import Prelude Event SVal SAddr VSet SExpr Deps Views Labels LabelClasses Graph Bounds Revisits Interp RARace Execution MemoryModel Driver Checks Schedule Handlers Explore Calls InternalNames Intrinsics FileSystem.
#[local] Open Scope Z_scope.

Module FsCalls.
Import Drv Checks Handlers Calls InternalNames Intrinsics FileSystem.

Section FsCalls.
Context `{P : Program} `{C : Config} `{MM : MemoryModel} `{Mc : !Machine} `{Fs : !FsInfo}.
Section Call.
Context (F : Func) (ArgVals : list GenericValue).
#[local] Abbreviation no_deps := DepInfo.no_deps.
#[local] Abbreviation arg := (arg ArgVals).
#[local] Abbreviation return_int := (return_int F).
#[local] Abbreviation return_sval := (return_sval F).

(** ** Calls that answer an [int] *)

Section Directory.
Let intTyp : Typ := getReturnType F.
Let size : Z := getTypeSize intTyp.
(** The section of a call that holds the directory's lock: [None] when the thread
    blocked in it, else the answer; the lock is released before it is returned. *)
Definition in_directory (body : M (option GenericValue)) : M unit :=
  r ← locking intTyp dirLock (
    r ← body;
    match r with
    | None => mret tt
    | Some v => handleUnlock dirLock size;; returnValueToCaller intTyp v
    end);
  mret tt.
(** [executeInodeLookupFS], and whether the thread blocked. *)
Definition lookup_or_block (name : string) : M (option Z) :=
  inode ← executeInodeLookupFS intTyp name;
  blocked ← curBlocked;
  mret (if blocked : bool then None else Some inode).
Definition failing (e : SystemError) : M (option GenericValue) := handleSystemError e;; mret (Some (INT_TO_GV intTyp (-1))).
Definition answer (v : Z) : M (option GenericValue) := mret (Some (SVAL_TO_GV v intTyp)).
Definition path (i : Z) : M string := a ← arg i; getStaticString (GVTOP a).

Definition open_file (filename : string) (flags : Z) : M unit :=
  takeSnapshot;;
  retO ← checkOpenFlagsFS flags;
  if retO =? minus_one then return_sval retO
  else
    r ← executeLookupOpenFS intTyp filename flags;
    let '(inode, flags) := r in
    blocked ← curBlocked;
    if blocked : bool then mret tt
    else if inode =? 0 then handleSystemError SE_ENOENT;; return_int (-1)
    else
      fd ← executeOpenFS intTyp filename flags inode;
      if negb (has flags O_TRUNC) then return_sval fd
      else if negb (has (OPEN_FMODE flags) FMODE_WRITE) then report_here VE_InvalidTruncate;; return_int (-1)
      else
        ret ← executeTruncateFS intTyp inode 0;
        if ret =? BLOCKED then mret tt
        else if ret =? minus_one then return_int (-1)
        else return_sval fd.
Definition callOpenFS : M unit :=
  filename ← path 0;
  a1 ← arg 1;
  open_file filename (getLimitedValue a1).
(** The flags are an [int] of the type returned, and read back. *)
Definition callCreatFS : M unit :=
  let flags := INT_TO_GV intTyp (Z.lor (Z.lor O_CREAT O_WRONLY) O_TRUNC) in
  _ ← arg 0;
  _ ← arg 1;
  filename ← path 0;
  open_file filename (getLimitedValue flags).
Definition callCloseFS : M unit :=
  a ← arg 0;
  takeSnapshot;;
  result ← executeCloseFS intTyp (getLimitedValue a);
  return_sval result.
(** The search for the new name does not look whether the thread blocked. *)
Definition callLinkFS : M unit :=
  oldpath ← path 0;
  newpath ← path 1;
  takeSnapshot;;
  in_directory (
    source ← lookup_or_block oldpath;
    match source with
    | None => mret None
    | Some source =>
        if source =? 0 then failing SE_ENOENT
        else
          target ← executeInodeLookupFS intTyp newpath;
          if negb (target =? 0) then failing SE_EEXIST
          else v ← executeLinkFS intTyp newpath source; answer v
    end).
Definition callUnlinkFS : M unit :=
  pathname ← path 0;
  takeSnapshot;;
  in_directory (
    inode ← lookup_or_block pathname;
    match inode with
    | None => mret None
    | Some inode =>
        if inode =? 0 then failing SE_ENOENT
        else v ← executeUnlinkFS intTyp pathname; answer v
    end).
Definition callRenameFS : M unit :=
  oldpath ← path 0;
  newpath ← path 1;
  takeSnapshot;;
  in_directory (
    source ← lookup_or_block oldpath;
    match source with
    | None => mret None
    | Some source =>
        if source =? 0 then failing SE_ENOENT
        else
          target ← lookup_or_block newpath;
          match target with
          | None => mret None
          | Some target => v ← executeRenameFS intTyp oldpath source newpath target; answer v
          end
    end).
Definition callTruncateFS : M unit :=
  filename ← path 0;
  a1 ← arg 1;
  takeSnapshot;;
  r ← locking intTyp dirLock (
    inode ← lookup_or_block filename;
    match inode with
    | None => mret tt
    | Some inode =>
        handleUnlock dirLock size;;
        if inode =? 0 then handleSystemError SE_ENOENT;; return_int (-1)
        else
          ret ← executeTruncateFS intTyp inode (getLimitedValue a1);
          if ret =? BLOCKED then mret tt else return_sval ret
    end);
  mret tt.
Definition callFsyncFS : M unit :=
  fd ← arg 0;
  takeSnapshot;;
  file ← getFileFromFd (getLimitedValue fd);
  if file =? 0 then handleSystemError SE_EBADF;; return_int (-1)
  else
    inode ← load Monotonic (GET_FILE_INODE_ADDR file) (getTypeSize (getPointerTo intTyp)) Pointer;
    executeFsyncFS inode;;
    return_int 0.
End Directory.

(** ** Calls whose [int] is the type of the file descriptor *)

Section Files.
Let intTyp : Typ := getParamType0 F.
#[local] Abbreviation asize := (getTypeSize intTyp).
#[local] Abbreviation atyp := (TYPE_TO_ATYPE intTyp).

(** The file description of the first argument, or an error. *)
Definition with_file (fd : GenericValue) (bad : M unit) (body : Z -> M unit) : M unit :=
  file ← getFileFromFd (getLimitedValue fd);
  if file =? 0 then handleSystemError SE_EBADF;; bad else body file.
Definition unlock_file (file : Z) : M unit := handleUnlock (GET_FILE_POS_LOCK_ADDR file) asize.
Definition move_offset (file off n : Z) : M unit :=
  if SVal.getSigned n >=? 0 then store NotAtomic (GET_FILE_OFFSET_ADDR file) asize atyp (SVal.add off n) else mret tt.

(** An unopened file answers -1 at the width of the descriptor. *)
Definition callReadFS : M unit :=
  fd ← arg 0; buf ← arg 1; a2 ← arg 2;
  let count := getLimitedValue a2 in
  takeSnapshot;;
  with_file fd (returnValueToCaller (getReturnType F) (INT_TO_GV intTyp (-1))) (fun file =>
    _ ← locking intTyp (GET_FILE_POS_LOCK_ADDR file) (
      off ← load NotAtomic (GET_FILE_OFFSET_ADDR file) asize atyp;
      nr ← executeReadFS intTyp file (GVTOP buf) int8Ty off count;
      blocked ← curBlocked;
      if blocked : bool then mret tt
      else move_offset file off nr;; unlock_file file;; return_sval nr);
    mret tt).
(** A write of 42 bytes is taken for a blocked one. *)
Definition callWriteFS : M unit :=
  fd ← arg 0; buf ← arg 1; a2 ← arg 2;
  let count := getLimitedValue a2 in
  takeSnapshot;;
  with_file fd (return_int (-1)) (fun file =>
    _ ← locking intTyp (GET_FILE_POS_LOCK_ADDR file) (
      off ← load NotAtomic (GET_FILE_OFFSET_ADDR file) asize atyp;
      nw ← executeWriteFS intTyp file (GVTOP buf) int8Ty off count;
      if SVal.getSigned nw =? BLOCKED then mret tt
      else move_offset file off nw;; unlock_file file;; return_sval nw);
    mret tt).
Definition callSyncFS : M unit :=
  CALL_DRIVER false (fun pos => handleDskSync (Make.DskSyncLabel pos Release no_deps)).
Definition callPreadFS : M unit :=
  fd ← arg 0; buf ← arg 1; a2 ← arg 2; a3 ← arg 3;
  takeSnapshot;;
  if SVal.getSigned (getLimitedValue a3) <? 0 then handleSystemError SE_EINVAL;; return_int (-1)
  else with_file fd (return_int (-1)) (fun file =>
    nr ← executeReadFS intTyp file (GVTOP buf) int8Ty (getLimitedValue a3) (getLimitedValue a2);
    blocked ← curBlocked;
    if blocked : bool then mret tt else return_sval nr).
(** Whether the thread blocked is not looked at: the answer is then 42. *)
Definition callPwriteFS : M unit :=
  fd ← arg 0; buf ← arg 1; a2 ← arg 2; a3 ← arg 3;
  takeSnapshot;;
  if SVal.getSigned (getLimitedValue a3) <? 0 then handleSystemError SE_EINVAL;; return_int (-1)
  else with_file fd (return_int (-1)) (fun file =>
    nw ← executeWriteFS intTyp file (GVTOP buf) int8Ty (getLimitedValue a3) (getLimitedValue a2);
    return_sval nw).
Definition callLseekFS : M unit :=
  fd ← arg 0; a1 ← arg 1; a2 ← arg 2;
  takeSnapshot;;
  with_file fd (return_int (-1)) (fun file =>
    _ ← locking intTyp (GET_FILE_POS_LOCK_ADDR file) (
      newOffset ← executeLseekFS intTyp file (getLimitedValue a1) (getLimitedValue a2);
      unlock_file file;;
      return_sval newOffset);
    mret tt).
Definition callPersBarrierFS : M unit :=
  CALL_DRIVER false (fun pos => handleDskPbarrier (Make.DskPbarrierLabel pos Release no_deps)).
End Files.

(** ** The dispatch *)

Context (atExit : M unit).
Definition isInvalidRecCall (f : InternalFunctions) : M bool :=
  if isFsInvalidRecCode f then mret true
  else if bool_decide (f = FN_OpenFS) then a ← arg 1; mret (has (getLimitedValue a) O_CREAT) else mret false.
Definition call_function (f : InternalFunctions) : M unit :=
  match f with
  | FN_AssertFail => callAssertFail ArgVals
  | FN_OptBegin => callOptBegin F
  | FN_LoopBegin => callLoopBegin
  | FN_SpinStart => callSpinStart
  | FN_SpinEnd => callSpinEnd ArgVals
  | FN_FaiZNESpinEnd => callFaiZNESpinEnd
  | FN_LockZNESpinEnd => callLockZNESpinEnd
  | FN_KillThread => callKillThread ArgVals
  | FN_Assume => callAssume ArgVals
  | FN_NondetInt => callNondetInt
  | FN_Malloc => callMalloc F ArgVals
  | FN_MallocAligned => callMallocAligned F ArgVals
  | FN_MallocZero => callMallocZero F ArgVals
  | FN_PMalloc => callPMalloc F ArgVals
  | FN_Free => callFree ArgVals
  | FN_ThreadSelf => callThreadSelf F
  | FN_ThreadCreate => callThreadCreate F ArgVals
  | FN_ThreadCreateSymmetric => callThreadCreateSymmetric F ArgVals
  | FN_ThreadJoin => callThreadJoin F ArgVals
  | FN_ThreadExit => callThreadExit F ArgVals atExit
  | FN_AtExit => callAtExit F ArgVals
  | FN_MutexInit => callMutexInit F ArgVals
  | FN_MutexLock => callMutexLock F ArgVals
  | FN_MutexUnlock => callMutexUnlock F ArgVals
  | FN_MutexTrylock => callMutexTrylock F ArgVals
  | FN_MutexDestroy => callMutexDestroy F ArgVals
  | FN_BarrierInit => callBarrierInit F ArgVals
  | FN_BarrierWait => callBarrierWait F ArgVals
  | FN_BarrierDestroy => callBarrierDestroy F ArgVals
  | FN_HazptrAlloc => callHazptrAlloc F
  | FN_HazptrProtect => callHazptrProtect ArgVals
  | FN_HazptrClear => callHazptrClear ArgVals
  | FN_HazptrFree => callHazptrFree ArgVals
  | FN_HazptrRetire => callHazptrRetire ArgVals
  | FN_OpenFS => callOpenFS
  | FN_CreatFS => callCreatFS
  | FN_CloseFS => callCloseFS
  | FN_RenameFS => callRenameFS
  | FN_LinkFS => callLinkFS
  | FN_UnlinkFS => callUnlinkFS
  | FN_TruncateFS => callTruncateFS
  | FN_ReadFS => callReadFS
  | FN_WriteFS => callWriteFS
  | FN_FsyncFS => callFsyncFS
  | FN_SyncFS => callSyncFS
  | FN_PreadFS => callPreadFS
  | FN_PwriteFS => callPwriteFS
  | FN_LseekFS => callLseekFS
  | FN_PersBarrierFS => callPersBarrierFS
  | FN_SmpFenceLKMM => callSmpFenceLKMM ArgVals
  | FN_RCUReadLockLKMM => callRCUReadLockLKMM
  | FN_RCUReadUnlockLKMM => callRCUReadUnlockLKMM
  | FN_SynchronizeRCULKMM => callSynchronizeRCULKMM
  | FN_CLFlush => callCLFlush ArgVals
  | FN_Memcpy => callMemcpy F ArgVals
  | FN_Memmove => callMemmove F ArgVals
  | FN_Memset => callMemset F ArgVals
  | FN_AnnotateBegin | FN_AnnotateEnd | FN_NoSideEffectsLast | FN_MallocLast | FN_LastInodeFS
  | FN_LastInvRecFS | FN_LastFS => lift Bug
  end.
Definition callInternalFunction : M unit :=
  f ← lift (match codeOf (getName F) with Some f => Ret f | None => Undef end);
  recovery ← inRecoveryMode;
  invalid ← (if recovery : bool then isInvalidRecCall f else mret false);
  if invalid : bool then report_here VE_InvalidRecoveryCall else call_function f.
(** [callFunction] on what is not code of the program. *)
Definition is_panic : bool := String.eqb (getName F) "rust_begin_unwind".
Definition callProvided : M unit := if is_panic then report_here VE_Safety else callInternalFunction.
End Call.
End FsCalls.
End FsCalls.
