(* ===== verification/Programs.v ===== *)
(** * Small programs explored from end to end.

    A frame holds the instructions it has done, the last one first, and those that
    are left.  An instruction is a load, a store, a fence, an atomic addition or a
    compare-and-exchange, done by the interpreter's visitor of it, or a call of one
    of the functions the interpreter provides.  What an instruction returns is
    dropped. *)
From Stdlib Require Import String.
From stdpp Require Import strings.
From S2P Require Import Prelude Event SVal SAddr VSet SExpr Deps Views Labels LabelClasses Graph Bounds Revisits Interp RARace Execution MemoryModel Driver Schedule Handlers Explore Calls InternalNames Instructions Intrinsics FileSystem FsCalls.
#[local] Open Scope Z_scope.

Module Programs.
Import Drv Handlers Calls Instructions Intrinsics FsCalls.

(** ** Instructions *)

Inductive Instr :=
| Load (ord : AtomicOrdering) (addr size : Z)
| Store (ord : AtomicOrdering) (addr size val : Z)
| FetchAdd (ord : AtomicOrdering) (addr size val : Z)
| CmpXchg (ord : AtomicOrdering) (addr size expected swap : Z) (attr : option Z)
| Fence (ord : AtomicOrdering)
| Call (name : string) (args : list Z).
Abbreviation Spawn f := (Call "__VERIFIER_thread_create" [0; f; 0]).
Definition is_load (f : list Instr * list Instr) : bool :=
  match snd f with
  | Load _ _ _ :: _ | FetchAdd _ _ _ _ :: _ | CmpXchg _ _ _ _ _ _ :: _ => true
  | Call name _ :: _ => InternalNames.hasGlobalLoadSemantics name
  | _ => false
  end.

(** ** The program and LLVM's side of it *)

(** Static memory from [2^63] on, all zeros; no numbers are drawn. *)
Definition addr (i : Z) : Z := 2 ^ 63 + 8 * i.
Definition no_numbers : LongDouble :=
  {| LD := unit; ld _ := tt; ld_add _ _ := tt; ld_sub _ _ := tt; ld_mul _ _ := tt; ld_div _ _ := tt; ld_sqrt _ := tt;
     ld_leb _ _ := false; ld_ltb _ _ := false |}.
Definition program (code : list (list Instr)) : Program :=
  let body i := ([], nth (Z.to_nat i) code []) in
  {| Frame := list Instr * list Instr; GenericValue := Z; threadLocalVars := ∅; nextIsLoad := is_load; startFrame i := body (ti_funId i);
     frameAnnot _ := None; mainFun := 0; recoveryFun := -1; mainStack := [body 0]; recoveryStack := [];
     staticAllocas := [(addr 0, addr 100)]; getLocInitVal _ := 0;
     RNG := unit; uniform _ _ r := (0, r); numbers := no_numbers |}.

Definition back_frame (f : list Instr * list Instr) : list Instr * list Instr :=
  match fst f with i :: d => (d, i :: snd f) | [] => f end.
Inductive SimpleType := IntOf (bytes : Z) | PtrType | VoidType.
Definition simple_size (t : SimpleType) : Z := match t with IntOf n => n | PtrType => 8 | VoidType => 0 end.
(** Allocations answer pointers; reads and writes 64 bits; the rest an [int]. *)
Definition return_type (name : string) : SimpleType :=
  if InternalNames.isAllocFunction name || String.eqb name "memcpy" then PtrType
  else match InternalNames.codeOf name with
       | Some InternalNames.FN_ReadFS | Some InternalNames.FN_WriteFS | Some InternalNames.FN_PreadFS
       | Some InternalNames.FN_PwriteFS | Some InternalNames.FN_LseekFS => IntOf 8
       | _ => IntOf 4
       end.
Definition machine (code : list (list Instr)) : Machine (P := program code) :=
  let P := program code in
  mkMachine P
    (** a pointer; the integer with its methods *)
    (fun v => v) (fun v => v) (fun v => v) (fun v => (0 <? v) && (v <? 2 ^ 63)) (fun v => negb (v =? 0))
    (** types *)
    SimpleType (fun t => match t with IntOf _ => true | _ => false end) (fun t => 2 ^ (8 * simple_size t - 1))
    simple_size (fun _ => PtrType) VoidType (IntOf 1) (fun t v => wrap (8 * simple_size t) v) (fun v => v)
    (** functions *)
    string (fun f => f) return_type (fun _ => IntOf 4) (fun f => f) (fun _ => 0)
    (** frames *)
    (fun f => back_frame f) (fun s _ => s) (fun _ _ f => f) (fun _ => []) (fun _ => 0)
    (fun f => ([], nth (Z.to_nat f) code []))
    (fun a => if a =? addr 50 then "a"%string else "b"%string).
(** The operands of an instruction are constants. *)
Definition operand (i : Instr) : Z :=
  match i with Load _ a _ | Store _ a _ _ | FetchAdd _ a _ _ | CmpXchg _ a _ _ _ _ => a | _ => 0 end.
Definition operand_size (i : Instr) : Z :=
  match i with Load _ _ s | Store _ _ s _ | FetchAdd _ _ s _ | CmpXchg _ _ s _ _ _ => s | _ => 0 end.
Definition instr_ordering (i : Instr) : AtomicOrdering :=
  match i with
  | Load o _ _ | Store o _ _ _ | FetchAdd o _ _ _ | CmpXchg o _ _ _ _ _ | Fence o => o
  | Call _ _ => NotAtomic
  end.
Definition instructions (code : list (list Instr)) : Instructions (P := program code) (H := machine code) :=
  mkInstructions (program code) (machine code)
    Instr (fun i _ => operand i)
    (fun i _ => match i with Store _ _ _ v | FetchAdd _ _ _ v => v | _ => 0 end)
    (fun i _ => match i with CmpXchg _ _ _ e _ _ => e | _ => 0 end)
    (fun i _ => match i with CmpXchg _ _ _ _ v _ => v | _ => 0 end)
    (fun i => IntOf (operand_size i)) instr_ordering instr_ordering (fun _ => Interp.Add)
    (fun i => match i with CmpXchg _ _ _ _ _ attr => attr | _ => None end)
    (fun _ _ f => f)
    (** integers *)
    (fun _ => 64) (fun v n off => Z.land (Z.shiftr v off) (Z.ones n)) (fun t => 8 * simple_size t)
    (fun t => match t with PtrType => true | _ => false end) 8 (IntOf 1) (fun a b _ => Z.b2z (a =? b)) (fun _ => 0).
(** One directory at [addr 60]; fields are eight bytes apart. *)
Definition fs_info (code : list (list Instr)) : FsInfo (P := program code) (H := machine code) :=
  let eight i := 8 * i in
  mkFsInfo (program code) (machine code) (IntOf 200) (IntOf 40) (IntOf 4) eight eight
    4 64 ordered true ["a"; "b"]%string (addr 60) true (addr 90) (IntOf 4).
Definition config (mixer : bool) : Config :=
  {| conf_bound := None; conf_boundType := context; conf_symmetryReduction := false; conf_helper := false;
     conf_mixer := mixer; conf_checkLiveness := false; conf_instructionCaching := false;
     conf_disableRaceDetection := false; conf_disableBAM := true; conf_ipr := false; conf_persevere := false;
     conf_schedulePolicy := ltr; conf_estimationMin := 10; conf_sdThreshold := 10 |}.

Section Visit.
Context (code : list (list Instr)) (C : Config).
#[local] Instance code_program : Program := program code.
#[local] Instance code_machine : Machine := machine code.
#[local] Instance code_files : FsInfo := fs_info code.
#[local] Instance code_instructions : Instructions := instructions code.
#[local] Instance code_config : Config := C.
#[local] Instance ra : MemoryModel := RADriver.

(** [Instruction &I = *SF.CurInst++; visit(I)]; no handlers are registered. *)
Definition advance (f : list Instr * list Instr) : list Instr * list Instr :=
  match snd f with i :: rest => (i :: fst f, rest) | [] => f end.
Definition perform (i : Instr) : M unit :=
  match i with
  | Load _ _ _ => visitLoadInst i
  | Store _ _ _ _ => visitStoreInst i
  | FetchAdd _ _ _ _ => visitAtomicRMWInst i
  | CmpXchg _ _ _ _ _ _ => visitAtomicCmpXchgInst i
  | Fence _ => visitFenceInst i
  | Call name args => callProvided name args (mret tt)
  end.
Definition visit : M unit :=
  f ← topFrame;
  match snd (f : list Instr * list Instr) with
  | [] => popStackAndReturnValueToCaller (mret tt) (IntOf 4) 0
  | i :: _ => inTopFrame advance;; perform i
  end.

(** The driver's answer: how many complete and blocked executions, and an error. *)
Definition verify (fuel : nat) : outcome (bool * (Z * Z * VerificationError)) :=
  d ← Explore.make_driver VerificationMode tt tt;
  r ← Explore.explore visit fuel d;
  let res := result (snd r) in
  Ret (fst r, (explored res, exploredBlocked res, status res)).
End Visit.
End Programs.
