(* ===== verification/Frames.v ===== *)
(** * What the methods of the driver leave as it is.

    [Keeps R m]: whenever [m] returns, the driver before and after are related by
    the preorder [R].  [Framing R] says that [R] allows every change the methods of
    the driver make to its fields; the methods then keep it, by the rules of the
    combinators.  A relation that [tracks] the graphs may ask that they stay
    well-typed, and may assume it of the driver before. *)
From S2P Require Import Prelude Event SVal SAddr VSet SExpr Trie Deps Views Labels LabelClasses Graph GraphBase Iterators Bounds Revisits Interp RARace RACoherence Execution MemoryModel Driver Checks Symmetry Schedule RfOptions RevisitCalc Revisiting Typed TrieFacts.
#[local] Open Scope Z_scope.

Module Frames.
Import ExecutionGraph GraphIterators EdgeLabels Drv Checks Schedule Typed.

(** The identifier of a thread of the interpreter is its index. *)
Definition ids_are_indices {F V} (e : Interp.Dynamic F V) : Prop :=
  forall i t, Interp.threads e !! i = Some t -> Interp.id t = Z.of_nat i.
Definition keeps_ids {F V} (f : Interp.Dynamic F V -> outcome (Interp.Dynamic F V)) : Prop :=
  forall e e', f e = Ret e' -> ids_are_indices e -> ids_are_indices e'.

Section Keeps.
Context `{P : Program}.
Definition Keeps (R : Driver -> Driver -> Prop) {A} (m : M A) : Prop :=
  forall d a d', m d = Ret (a, d') -> R d d'.

(** The graphs of the stack are well-typed, and so are the labels of the cache. *)
Definition ok (l : Label) : Prop := LabelFacts.label_ok l = true.
Definition cache_ok (s : list (Z * ValueTrie)) : Prop :=
  Forall (fun p => TrieFacts.all_data (Forall ok) (snd p)) s.
Definition stack_typed (xs : list Execution) : Prop := Forall (fun x => typed (graph x)) xs.
Definition sound (d : Driver) : Prop := stack_typed (execStack d) /\ cache_ok (seenPrefixes d).

(** The changes to the fields, the stack of executions aside. *)
Class Framing `{MM : MemoryModel} (R : Driver -> Driver -> Prop) := {
  tracks : Prop;
  frame_model : tracks -> TypedModel MM;
  frame_assume d d' : ((tracks -> sound d) -> R d d') -> R d d';
  frame_pre :: PreOrder R;
  frame_graph d x xs g :
    execStack d = x :: xs -> (tracks -> typed (graph x) -> typed g) -> R d (set_execStack (Exec.set_graph g x :: xs) d);
  frame_choices d x xs c : execStack d = x :: xs -> R d (set_execStack (Exec.set_choices c x :: xs) d);
  frame_EE d e : (ids_are_indices (EE d) -> ids_are_indices e) -> R d (set_EE e d);
  frame_mode d m : R d (set_mode m d);
  frame_alloctor d a : R d (set_alloctor a d);
  frame_fds d f : R d (set_fds f d);
  frame_prefixes d s : (tracks -> cache_ok (seenPrefixes d) -> cache_ok s) -> R d (set_seenPrefixes s d);
  frame_prios d p : R d (set_threadPrios p d);
  frame_moot d b : R d (set_moot b d);
  frame_resched d r : R d (set_readToReschedule r d);
  frame_added d e : R d (set_lastAdded e d);
  frame_rngs d r e : R d (set_rngs r e d);
  frame_halt d s : s <> VE_OK -> shouldHalt d = false ->
    R d (set_halt true (set_result (set_status s (result d)) d));
  frame_warning d w : R d (set_result (add_warning w (result d)) d);
  frame_count d f b e : R d (set_result (count f b e (result d)) d);
  frame_estimate d m v : R d (set_result (set_estimate m v (result d)) d)
}.
(** Any change to the stack of executions too. *)
Class WorkFraming `{MM : MemoryModel} (R : Driver -> Driver -> Prop) := {
  work_frame :: Framing R;
  frame_stack d xs : (tracks -> stack_typed (execStack d) -> stack_typed xs) -> R d (set_execStack xs d)
}.

Section Rules.
Context {R : Driver -> Driver -> Prop} `{PreOrder _ R}.
Implicit Types A B : Type.

Lemma keeps_ret {A} (a : A) : Keeps R (mret a).
Proof. intros d b d' [= _ <-]. reflexivity. Qed.
Lemma keeps_lift {A} (o : outcome A) : Keeps R (lift o).
Proof. intros d b d'. unfold lift. destruct o; cbn; [|done|done]. intros [= _ <-]. reflexivity. Qed.
Lemma keeps_gets {A} (f : Driver -> A) : Keeps R (gets f).
Proof. intros d b d' [= _ <-]. reflexivity. Qed.
Lemma keeps_bind {A B} (m : M A) (f : A -> M B) :
  Keeps R m -> (forall a, Keeps R (f a)) -> Keeps R (mbind f m).
Proof.
  intros Hm Hf d b d'. unfold mbind, M_bind. destruct (m d) as [[a d1]| |] eqn:E; [|done|done].
  intros E'. transitivity d1; [by eapply Hm|by eapply Hf].
Qed.
(** What the first step returned. *)
Lemma keeps_bind_value {A B} (Q : A -> Prop) (m : M A) (f : A -> M B) :
  Keeps R m -> (forall d a d', m d = Ret (a, d') -> Q a) -> (forall a, Q a -> Keeps R (f a)) -> Keeps R (mbind f m).
Proof.
  intros Hm HQ Hf d b d'. unfold mbind, M_bind. destruct (m d) as [[a d1]| |] eqn:E; [|done|done].
  intros E'. transitivity d1; [by eapply Hm|]. eapply Hf; [by eapply HQ|done].
Qed.
Lemma keeps_bind_lift {A B} (o : outcome A) (k : A -> M B) :
  (forall a, o = Ret a -> Keeps R (k a)) -> Keeps R (mbind k (lift o)).
Proof.
  intros Hk d b d'. unfold lift, mbind, M_bind, outcome_bind. destruct o as [a| |]; [|done..]. by apply Hk.
Qed.
Lemma keeps_fmap {A B} (f : A -> B) (m : M A) : Keeps R m -> Keeps R (f <$> m).
Proof.
  intros Hm d b d'. unfold fmap, M_fmap. destruct (m d) as [[a d1]| |] eqn:E; [|done|done].
  intros [= _ <-]. by eapply Hm.
Qed.
Lemma keeps_modify (f : Driver -> Driver) : (forall d, R d (f d)) -> Keeps R (modify f).
Proof. intros Hf d b d' [= _ <-]. apply Hf. Qed.
Lemma keeps_forM {A} (l : list A) f : (forall x, Keeps R (f x)) -> Keeps R (forM l f).
Proof. intros Hf. induction l as [|x l IH]; cbn; [apply keeps_ret|]. by apply keeps_bind. Qed.
Lemma keeps_forM_in {A} (l : list A) f : (forall x, x ∈ l -> Keeps R (f x)) -> Keeps R (forM l f).
Proof.
  induction l as [|x l IH]; cbn; intros Hf; [apply keeps_ret|].
  apply keeps_bind; [apply Hf; by left|]. intros _. apply IH. intros y Hy. apply Hf. by right.
Qed.
Lemma filterMM_sat {A} (Q : A -> Prop) (f : A -> M bool) l :
  (forall x d d', f x d = Ret (true, d') -> Q x) -> forall d l' d', filterMM f l d = Ret (l', d') -> Forall Q l'.
Proof.
  intros HQ. induction l as [|x l IH]; intros d l' d'; cbn; [by intros [= <- _]|].
  unfold mbind, M_bind. destruct (f x d) as [[b d1]| |] eqn:E; [|done..].
  destruct (filterMM f l d1) as [[l1 d2]| |] eqn:E1; [|done..]. intros [= <- _].
  apply IH in E1. destruct b; [|done]. constructor; [by eapply HQ|done].
Qed.
Lemma keeps_foldMM {A S} (f : S -> A -> M S) l : (forall s x, Keeps R (f s x)) -> forall s, Keeps R (foldMM f l s).
Proof.
  intros Hf. induction l as [|x l IH]; intros s; cbn; [apply keeps_ret|].
  by apply keeps_bind.
Qed.
Lemma keeps_existsMM {A} (f : A -> M bool) l : (forall x, Keeps R (f x)) -> Keeps R (existsMM f l).
Proof.
  intros Hf. induction l as [|x l IH]; cbn; [apply keeps_ret|]. apply keeps_bind; [done|].
  intros []; [apply keeps_ret|done].
Qed.
Lemma keeps_filterMM {A} (f : A -> M bool) l : (forall x, Keeps R (f x)) -> Keeps R (filterMM f l).
Proof.
  intros Hf. induction l as [|x l IH]; cbn; [apply keeps_ret|]. apply keeps_bind; [done|].
  intros b. apply keeps_bind; [done|]. intros l'. apply keeps_ret.
Qed.
End Rules.
End Keeps.

Lemma onGraph_ret `{P : Program} {A} (f : Graph -> outcome A) d a d' :
  onGraph f d = Ret (a, d') -> d' = d /\ exists x xs, execStack d = x :: xs /\ f (graph x) = Ret a.
Proof.
  unfold onGraph, getGraph, getExecution, lift, mbind, M_bind. destruct (execStack d) as [|x xs]; [done|]. cbn.
  destruct (f (graph x)) eqn:E; cbn; [|done|done]. intros [= -> <-]. eauto.
Qed.

(** A relation that does not track the graphs. *)
Ltac untracked :=
  lazymatch goal with
  | |- WorkFraming _ => unshelve econstructor; [untracked|]
  | |- Framing _ =>
      unshelve econstructor;
        [exact False|intros []|let H := fresh in intros ? ? H; exact (H (fun f : False => match f with end))|..]
  end.
Create HintDb keeps discriminated.
#[export] Hint Constants Opaque : keeps.
#[export] Hint Extern 1 (PreOrder _) => apply _ : keeps.
#[export] Hint Extern 1 (Framing _) => apply _ : keeps.
#[export] Hint Extern 1 (WorkFraming _) => apply _ : keeps.

(** ** State and flags *)

Section State.
Context `{P : Program} {R : Driver -> Driver -> Prop}.

Lemma getExecution_keeps `{!PreOrder R} : Keeps R getExecution.
Proof. intros d x d'. unfold getExecution. destruct (execStack d); [done|]. intros [= _ <-]. reflexivity. Qed.
Lemma getGraph_keeps `{!PreOrder R} : Keeps R getGraph.
Proof. apply keeps_bind; [apply getExecution_keeps|]. intros x. apply keeps_ret. Qed.
Lemma onGraph_keeps `{!PreOrder R} {A} (f : Graph -> outcome A) : Keeps R (onGraph f).
Proof. apply keeps_bind; [apply getGraph_keeps|]. intros g. apply keeps_lift. Qed.
Lemma labelOf_keeps `{!PreOrder R} e : Keeps R (labelOf e).
Proof. apply onGraph_keeps. Qed.
Lemma onEE_keeps `{!PreOrder R} {A} (f : Interp.Dynamic Frame GenericValue -> outcome A) : Keeps R (onEE f).
Proof. apply keeps_bind; [apply keeps_gets|]. intros e. apply keeps_lift. Qed.
Lemma inEstimationMode_keeps `{!PreOrder R} : Keeps R inEstimationMode.
Proof. apply keeps_gets. Qed.
Lemma inRecoveryMode_keeps `{!PreOrder R} : Keeps R inRecoveryMode.
Proof. apply keeps_gets. Qed.
Lemma inReplay_keeps `{!PreOrder R} : Keeps R inReplay.
Proof. apply keeps_gets. Qed.
Lemma isHalting_keeps `{!PreOrder R} : Keeps R isHalting.
Proof. apply keeps_gets. Qed.
Lemma isMoot_keeps `{!PreOrder R} : Keeps R isMoot.
Proof. apply keeps_gets. Qed.
Lemma isRescheduledRead_keeps `{!PreOrder R} r : Keeps R (isRescheduledRead r).
Proof. apply keeps_gets. Qed.

Context `{MM : MemoryModel} `{FR : !Framing R}.

(** *** Facts, for the relations that track the graphs *)

Lemma keeps_bind_fact {A B} (Q : A -> Prop) (m : M A) (f : A -> M B) :
  Keeps R m -> (tracks -> forall d a d', sound d -> m d = Ret (a, d') -> Q a) ->
  (forall a, (tracks -> Q a) -> Keeps R (f a)) -> Keeps R (mbind f m).
Proof.
  intros Hm HQ Hf d b d'. unfold mbind, M_bind. destruct (m d) as [[a d1]| |] eqn:E; [|done|done]. intros E'.
  apply frame_assume. intros Hs. transitivity d1; [by eapply Hm|].
  eapply Hf; [|done]. intros Ht. exact (HQ Ht d a d1 (Hs Ht) E).
Qed.
(** A function of a well-typed graph. *)
Lemma keeps_bind_graph {A B} (Q : A -> Prop) (f : Graph -> outcome A) (k : A -> M B) :
  (tracks -> forall g a, typed g -> f g = Ret a -> Q a) -> (forall a, (tracks -> Q a) -> Keeps R (k a)) ->
  Keeps R (mbind k (onGraph f)).
Proof.
  intros HQ. apply keeps_bind_fact; [apply onGraph_keeps|].
  intros Ht d a d' [Hs _] (_ & x & xs & E & Ef)%onGraph_ret. eapply (HQ Ht); [|exact Ef].
  unfold stack_typed in Hs. rewrite E in Hs. by apply Forall_cons in Hs as [Hx _].
Qed.
Lemma keeps_bind_label {B} e (k : Label -> M B) :
  (forall l, (tracks -> getPos l = e /\ placed l) -> Keeps R (k l)) -> Keeps R (mbind k (labelOf e)).
Proof. apply keeps_bind_graph. intros _ g l. apply typed_label. Qed.

Lemma keeps_bind_execution {B} (k : Execution -> M B) :
  (forall x, (tracks -> typed (graph x)) -> Keeps R (k x)) -> Keeps R (mbind k getExecution).
Proof.
  apply (keeps_bind_fact (fun x => typed (graph x))); [apply getExecution_keeps|].
  intros _ d x d' [Hs _]. unfold getExecution. destruct (execStack d) as [|y xs] eqn:E; [done|].
  intros [= <- _]. by apply Forall_cons in Hs as [Hx _].
Qed.
Lemma keeps_bind_getGraph {B} (k : Graph -> M B) :
  (forall g, (tracks -> typed g) -> Keeps R (k g)) -> Keeps R (mbind k getGraph).
Proof.
  apply (keeps_bind_fact typed); [apply getGraph_keeps|].
  intros _ d g d' [Hs _]. unfold getGraph, getExecution, mbind, M_bind. destruct (execStack d) as [|y xs] eqn:E; [done|].
  intros [= <- _]. by apply Forall_cons in Hs as [Hx _].
Qed.
(** A change of the top of the stack that leaves the graph. *)
Lemma keeps_execution (f : Execution -> Execution) :
  (forall d x xs, execStack d = x :: xs -> R d (set_execStack (f x :: xs) d)) ->
  Keeps R (x ← getExecution; putExecution (f x)).
Proof.
  intros Hf d a d'. unfold putExecution, getExecution, modify, mbind, M_bind.
  destruct (execStack d) as [|x xs] eqn:E; [done|]. rewrite E. intros [= _ <-]. by apply Hf.
Qed.
Lemma putGraph_keeps g : (tracks -> typed g) -> Keeps R (putGraph g).
Proof.
  intros Hg d a d'. unfold putGraph, putExecution, getExecution, modify, mbind, M_bind.
  destruct (execStack d) as [|x xs] eqn:E; [done|]. rewrite E. intros [= _ <-]. apply frame_graph; [done|].
  intros Ht _. by apply Hg.
Qed.
Lemma inGraph_keeps f : (tracks -> forall g g', typed g -> f g = Ret g' -> typed g') -> Keeps R (inGraph f).
Proof. intros Hf. apply (keeps_bind_graph typed); [done|]. intros g. apply putGraph_keeps. Qed.
Lemma viaGraph_keeps {A} (f : Graph -> outcome (Graph * A)) :
  (tracks -> forall g g' a, typed g -> f g = Ret (g', a) -> typed g') -> Keeps R (viaGraph f).
Proof.
  intros Hf. apply (keeps_bind_graph (fun r => typed (fst r))); [intros Ht g [g' a]; by apply Hf|].
  intros r Hr. apply keeps_bind; [by apply putGraph_keeps|]. intros _. apply keeps_ret.
Qed.
Lemma alterLabel_keeps f e : (forall l, kept l (f l)) -> Keeps R (alterLabel f e).
Proof. intros Hf. apply inGraph_keeps. intros _ g g' Hg [= <-]. by apply typed_alter. Qed.
Lemma inEE_keeps (f : Interp.Dynamic Frame GenericValue -> outcome (Interp.Dynamic Frame GenericValue)) : keeps_ids f -> Keeps R (inEE f).
Proof.
  intros Hf d a d'. unfold inEE, onEE, gets, lift, modify, mbind, M_bind. cbn.
  destruct (f (EE d)) as [e| |] eqn:E; cbn; [|done|done]. intros [= _ <-]. apply frame_EE. by apply Hf.
Qed.
Lemma moot_keeps : Keeps R moot.
Proof. apply keeps_modify. intros d. apply frame_moot. Qed.
Lemma unmoot_keeps : Keeps R unmoot.
Proof. apply keeps_modify. intros d. apply frame_moot. Qed.
Lemma setRescheduledRead_keeps r : Keeps R (setRescheduledRead r).
Proof. apply keeps_modify. intros d. apply frame_resched. Qed.
Lemma resetThreadPrioritization_keeps : Keeps R resetThreadPrioritization.
Proof. apply keeps_modify. intros d. apply frame_prios. Qed.
Lemma setPrios_keeps p : Keeps R (modify (set_threadPrios p)).
Proof. apply keeps_modify. intros d. apply frame_prios. Qed.
Lemma setPrefixes_keeps s : (tracks -> cache_ok s) -> Keeps R (modify (set_seenPrefixes s)).
Proof. intros Hs. apply keeps_modify. intros d. apply frame_prefixes. intros Ht _. by apply Hs. Qed.
Lemma setAdded_keeps e : Keeps R (modify (set_lastAdded e)).
Proof. apply keeps_modify. intros d. apply frame_added. Qed.
Lemma setMode_keeps m : Keeps R (modify (set_mode m)).
Proof. apply keeps_modify. intros d. apply frame_mode. Qed.
Lemma setAlloctor_keeps a : Keeps R (modify (set_alloctor a)).
Proof. apply keeps_modify. intros d. apply frame_alloctor. Qed.
Lemma setFds_keeps f : Keeps R (modify (set_fds f)).
Proof. apply keeps_modify. intros d. apply frame_fds. Qed.
Lemma setRng_keeps r : Keeps R (modify (fun d => set_rngs r (estRng d) d)).
Proof. apply keeps_modify. intros d. apply frame_rngs. Qed.
Lemma setEstRng_keeps r : Keeps R (modify (fun d => set_rngs (rng d) r d)).
Proof. apply keeps_modify. intros d. apply frame_rngs. Qed.
Lemma addWarning_keeps w : Keeps R (modify (fun d => set_result (add_warning w (result d)) d)).
Proof. apply keeps_modify. intros d. apply frame_warning. Qed.
Lemma setCount_keeps f b e : Keeps R (modify (fun d => set_result (count f b e (result d)) d)).
Proof. apply keeps_modify. intros d. apply frame_count. Qed.
Lemma setEstimate_keeps m v : Keeps R (modify (fun d => set_result (set_estimate m v (result d)) d)).
Proof. apply keeps_modify. intros d. apply frame_estimate. Qed.
End State.
#[export] Hint Resolve getExecution_keeps getGraph_keeps onGraph_keeps labelOf_keeps onEE_keeps inEstimationMode_keeps
  inRecoveryMode_keeps inReplay_keeps isHalting_keeps isMoot_keeps isRescheduledRead_keeps inEE_keeps moot_keeps unmoot_keeps setRescheduledRead_keeps
  resetThreadPrioritization_keeps setPrios_keeps setAdded_keeps setMode_keeps setAlloctor_keeps
  setFds_keeps setRng_keeps setEstRng_keeps addWarning_keeps setCount_keeps setEstimate_keeps : keeps.

(** ** Changes of the graph *)

Lemma ok_kept l l' : kept l l' -> ok l -> ok l'.
Proof. intros H. apply H. Qed.
(** A label that is made, known, or one of these changed by setters. *)
Ltac label_known :=
  match goal with
  | H : tracks -> ?Q |- _ => match Q with context [placed] => let T := type of H in
      match goal with Ht : tracks |- _ => specialize (H Ht) end end
  end.
Ltac ok_label :=
  repeat label_known; intuition idtac;
  repeat match goal with |- ok (if ?b then _ else _) => destruct b end;
  first [ reflexivity | assumption
        | match goal with
          | H : ok ?l |- _ => apply (ok_kept l); [kept_setter|exact H]
          | H : placed ?l |- _ => apply (ok_kept l); [kept_setter|exact (pl_ok l H)]
          end ].
#[export] Hint Extern 1 (ok _) => ok_label : keeps.
#[export] Hint Extern 1 (placed _) => repeat label_known; intuition idtac : keeps.

Section Changes.
Context `{P : Program} {R : Driver -> Driver -> Prop} `{MM : MemoryModel} `{FR : !Framing R}.
Lemma changeRf_keeps r w : Keeps R (inGraph (fun g => changeRf g r w)).
Proof. apply inGraph_keeps. intros _ g g'. apply typed_changeRf. Qed.
Lemma changeRfs_keeps r rfs : Keeps R (inGraph (fun g => changeRfs g r rfs)).
Proof. apply inGraph_keeps. intros _ g g'. apply typed_changeRfs. Qed.
Lemma addAlloc_keeps (a : Graph -> option Event) m : Keeps R (inGraph (fun g => addAlloc g (a g) m)).
Proof. apply inGraph_keeps. intros _ g g'. apply typed_addAlloc. Qed.
Lemma trackCoherence_keeps a : Keeps R (inGraph (fun g => Ret (trackCoherenceAtLoc g a))).
Proof. apply inGraph_keeps. intros _ g g' Hg [= <-]. by apply typed_trackCoherence. Qed.
Lemma repair_keeps : Keeps R (inGraph Exec.repairDanglingReads).
Proof. apply inGraph_keeps. intros _ g g'. apply typed_repair. Qed.
Lemma symmetric_keeps l : Keeps R (inGraph (fun g => Symmetry.updatePrefixWithSymmetriesSR g l)).
Proof. apply inGraph_keeps. intros _ g g'. apply typed_symmetric. Qed.
(** Only the coherence changes. *)
Lemma coherence_keeps (f : Graph -> outcome Graph) :
  (forall g g', f g = Ret g' -> events g' = events g) -> Keeps R (inGraph f).
Proof. intros Hf. apply inGraph_keeps. intros _ g g' Hg E. by eapply typed_events, Hg; apply Hf. Qed.
Lemma views_keeps l : (tracks -> placed l) -> Keeps R (inGraph (fun g => updateMMViews g l)).
Proof. intros Hl. apply inGraph_keeps. intros Ht g g' Hg. apply (tm_views (TypedModel := frame_model Ht)); [done|by apply Hl]. Qed.
Lemma put_keeps l : (tracks -> ok l) -> Keeps R (inGraph (fun g => ExecutionGraph.addLabelToGraph g l)).
Proof. intros Hl. apply inGraph_keeps. intros Ht g g'. by apply typed_add, Hl. Qed.
Lemma stores_keeps b l : Keeps R (viaGraph (fun g => getCoherentStores b g l)).
Proof. apply viaGraph_keeps. intros Ht g g' ss. apply (tm_stores (TypedModel := frame_model Ht)). Qed.
Lemma placings_keeps l : Keeps R (viaGraph (fun g => getCoherentPlacings g l)).
Proof. apply viaGraph_keeps. intros Ht g g' ss. apply (tm_placings (TypedModel := frame_model Ht)). Qed.
Lemma place_keeps r w : Keeps R (inGraph (fun g => Revisiting.place_rmw g r w)).
Proof. apply inGraph_keeps. intros _ g g'. apply typed_place_rmw. Qed.

(** A look at the graph, and a change of it, at one driver. *)
Lemma keeps_onGraph_at {A B} (f : Graph -> outcome A) (k : A -> M B) :
  (forall d x xs a b d', execStack d = x :: xs -> (tracks -> typed (graph x)) -> f (graph x) = Ret a ->
     k a d = Ret (b, d') -> R d d') -> Keeps R (mbind k (onGraph f)).
Proof.
  intros H d b d'. unfold mbind at 1, M_bind at 1. destruct (onGraph f d) as [[a d1]| |] eqn:E; [|done..].
  apply onGraph_ret in E as (-> & x & xs & E & Ef). intros Ek. apply frame_assume. intros Hs.
  eapply H; [exact E| |exact Ef|exact Ek]. intros Ht. destruct (Hs Ht) as [Hst _].
  unfold stack_typed in Hst. rewrite E in Hst. by apply Forall_cons in Hst as [Hx _].
Qed.
Lemma inGraph_at f d d' x xs :
  execStack d = x :: xs -> inGraph f d = Ret (tt, d') ->
  exists g, f (graph x) = Ret g /\ d' = set_execStack (Exec.set_graph g x :: xs) d.
Proof.
  intros E. unfold inGraph, mbind at 1, M_bind at 1. destruct (onGraph f d) as [[g d1]| |] eqn:Ef; [|done..].
  apply onGraph_ret in Ef as (-> & y & ys & E' & Ef). rewrite E in E'. injection E' as <- <-.
  unfold putGraph, getExecution, putExecution, modify, mbind, M_bind. rewrite E. intros [= <-]. rewrite E. eauto.
Qed.
Lemma graph_step d x xs g :
  execStack d = x :: xs -> (tracks -> typed g) -> R d (set_execStack (Exec.set_graph g x :: xs) d).
Proof. intros E Hg. apply frame_graph; [done|]. intros Ht _. by apply Hg. Qed.
Lemma keeps_assoc {A B D} (m : M A) (h : A -> M B) (k : B -> M D) :
  Keeps R (mbind k (mbind h m)) -> Keeps R (mbind (fun x => mbind k (h x)) m).
Proof.
  intros H d b d' E. apply (H d b d'). revert E. unfold mbind, M_bind. by destruct (m d) as [[a d1]| |].
Qed.
End Changes.
#[export] Hint Resolve changeRf_keeps changeRfs_keeps addAlloc_keeps trackCoherence_keeps repair_keeps symmetric_keeps
  put_keeps stores_keeps placings_keeps place_keeps : keeps.

(** ** Positions off the initializer *)

Lemma next_off_init e : valid e -> EventOps.next e <> init_pos.
Proof. intros [_ Hi] E. apply (f_equal index) in E. cbn in E. lia. Qed.
Lemma driven_init `{P : Program} `{C : Config} lab d d' :
  sound d -> isExecutionDrivenByGraph lab d = Ret (false, d') -> getPos lab <> init_pos.
Proof.
  intros [Hs _] E Hp. revert E. unfold isExecutionDrivenByGraph, getGraph, getExecution, labelOf, onGraph.
  unfold getGraph, getExecution, lift, mret, M_ret, mbind, M_bind, outcome_bind.
  destruct (execStack d) as [|x xs] eqn:E; [done|]. apply Forall_cons in Hs as [Hx _].
  destruct (ty_init _ Hx) as [l El]. pose proof (Lookup.label_at_some_iff_size _ _ _ El) as Hl. rewrite Hp.
  destruct (Z.ltb_spec (index init_pos) (getThreadSize (graph x) (thread init_pos))); [|lia].
  rewrite E. unfold getEventLabel. rewrite El. apply (ty_at _ Hx) in El as [Hl1 Hl2].
  by rewrite (pl_init l Hl2 Hl1).
Qed.
Section Off.
Context `{P : Program} `{C : Config} {R : Driver -> Driver -> Prop} `{MM : MemoryModel} `{FR : !Framing R}.
Lemma keeps_bind_driven {B} lab (k : bool -> M B) :
  Keeps R (isExecutionDrivenByGraph lab) -> Keeps R (k true) ->
  ((tracks -> getPos lab <> init_pos) -> Keeps R (k false)) -> Keeps R (mbind k (isExecutionDrivenByGraph lab)).
Proof.
  intros Hd H1 H2. apply (keeps_bind_fact (fun b => b = false -> getPos lab <> init_pos)); [done| |].
  - intros _ d b d' Hs E ->. by eapply driven_init.
  - intros [] Hb; [done|]. apply H2. intros Ht. by apply Hb.
Qed.
End Off.
Ltac off_init :=
  repeat label_known; repeat match goal with H : _ /\ _ |- _ => destruct H end;
  match goal with
  | H : tracks -> _ <> init_pos |- _ => apply H; assumption
  | H : placed ?l |- _ => exact (next_off_init _ (pl_valid l H))
  | H : placed ?l, E : getPos ?l = ?e |- ?p <> init_pos =>
      change p with (EventOps.next e); rewrite <- E; exact (next_off_init _ (pl_valid l H))
  end.
#[export] Hint Extern 1 (_ <> init_pos) => off_init : keeps.

(** The rules, one step; the branches of a test are taken one by one. *)
Ltac keeps_step :=
  match goal with
  | |- forall _, _ => intro
  | |- Keeps _ (mret _) => apply keeps_ret
  | |- Keeps _ (lift _) => apply keeps_lift
  | |- Keeps _ (gets _) => apply keeps_gets
  | |- Keeps _ (mbind _ (isExecutionDrivenByGraph _)) => apply keeps_bind_driven; [solve [eauto with keeps]|..]; cbv beta iota
  | |- Keeps _ (mbind _ (labelOf _)) => apply keeps_bind_label; let l := fresh "l" in intros l ?
  | |- _ => solve [eauto with keeps]
  | |- Keeps _ (alterLabel _ _) => apply alterLabel_keeps; intros; first [apply kept_setRf | kept_setter]
  | |- Keeps _ (mbind _ _) => apply keeps_bind
  | |- Keeps _ (fmap _ _) => apply keeps_fmap
  | |- Keeps _ (forM _ _) => apply keeps_forM
  | |- Keeps _ (foldMM _ _ _) => apply keeps_foldMM
  | |- Keeps _ (existsMM _ _) => apply keeps_existsMM
  | |- Keeps _ (filterMM _ _) => apply keeps_filterMM
  | |- Keeps _ (if negb (bool_decide ?p) then _ else _) => destruct (bool_decide_reflect p); cbn [negb]
  | |- Keeps _ (match ?x with _ => _ end) => destruct x
  | |- Keeps _ (let _ := _ in _) => cbv zeta
  end.
Ltac keeps := repeat keeps_step.

(** ** The interpreter keeps the identifiers of its threads *)

Lemma vec_get_ret {A} (v : list A) i x : vec_get v i = Ret x -> 0 <= i /\ v !! Z.to_nat i = Some x.
Proof.
  unfold vec_get. destruct (Z.ltb_spec i 0); [done|]. destruct (v !! Z.to_nat i); [|done]. by intros [= <-].
Qed.
Section Ids.
Context {F V : Type} (tlv : gmap Z V).
Implicit Types e : Interp.Dynamic F V.

Lemma ids_insert (ts : list (Interp.Thread F V)) i t :
  (forall j t', ts !! j = Some t' -> Interp.id t' = Z.of_nat j) -> Interp.id t = Z.of_nat i ->
  forall j t', <[i := t]> ts !! j = Some t' -> Interp.id t' = Z.of_nat j.
Proof. intros Hts Ht j t'. rewrite list_lookup_insert_Some. intros [(<- & <- & _)|(_ & H)]; [done|by apply Hts]. Qed.
Lemma alter_thread_ids f i : (forall t, Interp.id (f t) = Interp.id t) -> keeps_ids (Interp.alter_thread (Frame := F) (Value := V) f i).
Proof.
  intros Hf e e'. unfold Interp.alter_thread, Interp.getThrById.
  destruct (vec_get (Interp.threads e) i) as [t| |] eqn:E; [|done|done]. cbn. intros [= <-] He j t'. cbn.
  apply vec_get_ret in E as [Hi E]. apply ids_insert; [exact He|]. rewrite Hf. by apply He.
Qed.
Lemma addNewThread_ids t : keeps_ids (Interp.addNewThread (Frame := F) (Value := V) t).
Proof.
  intros e e'. unfold Interp.addNewThread. destruct (Interp.id t =? Interp.getNumThreads e) eqn:E.
  - intros [= <-] He j t'. cbn. rewrite lookup_app_Some. intros [H|[Hl H]]; [by apply He|].
    apply list_lookup_singleton_Some in H as [Hj <-]. unfold Interp.getNumThreads in E. lia.
  - unfold Interp.getThrById. destruct (vec_get (Interp.threads e) (Interp.id t)) as [t0| |] eqn:E0; cbn; [|done|done].
    destruct (BUG_ON _) eqn:Eb; cbn; [|done|done]. intros [= <-] He j t'. cbn.
    apply vec_get_ret in E0 as [Hi E0]. apply ids_insert; [exact He|]. lia.
Qed.
Lemma scheduleThread_ids tid : keeps_ids (fun e : Interp.Dynamic F V => Ret (Interp.scheduleThread tid e)).
Proof. intros e e' [= <-] He. exact He. Qed.
Lemma setProgramState_ids s : keeps_ids (fun e : Interp.Dynamic F V => Ret (Interp.setProgramState s e)).
Proof. intros e e' [= <-] He. exact He. Qed.
Lemma mfold_ids {X} (f : Interp.Dynamic F V -> X -> outcome (Interp.Dynamic F V)) l :
  (forall x, keeps_ids (fun e => f e x)) -> keeps_ids (mfold f l).
Proof.
  intros Hf. induction l as [|x l IH]; intros e e'; cbn; [by intros [= <-]|].
  destruct (f e x) as [e1| |] eqn:E; cbn; [|done|done]. intros H1 He. apply (IH _ _ H1), (Hf x _ _ E), He.
Qed.
Lemma resetThread_ids i : keeps_ids (Interp.resetThread (Frame := F) (Value := V) tlv i).
Proof. by apply alter_thread_ids. Qed.
Lemma reset_ids : keeps_ids (Interp.reset (Frame := F) (Value := V) tlv).
Proof. intros e e' E He. refine (mfold_ids _ _ _ _ _ E He). intros t. apply resetThread_ids. Qed.
Lemma constructAddThreadFromInfo_ids st ti : keeps_ids (Interp.constructAddThreadFromInfo (Frame := F) (Value := V) tlv st ti).
Proof. apply addNewThread_ids. Qed.
Lemma createAddRecoveryThread_ids f tid : keeps_ids (Interp.createAddRecoveryThread (Frame := F) (Value := V) tlv f tid).
Proof. apply addNewThread_ids. Qed.
Lemma setExecutionContext_ids mf st tis : keeps_ids (Interp.setExecutionContext (Frame := F) (Value := V) tlv mf st tis).
Proof.
  intros e e'. unfold Interp.setExecutionContext, Interp.createAddMainThread.
  destruct (Interp.addNewThread _ _) as [e1| |] eqn:E; cbn; [|done|done]. intros E' _.
  refine (mfold_ids _ _ _ _ _ E' _); [intros ti; apply constructAddThreadFromInfo_ids|].
  apply (addNewThread_ids _ _ _ E). by intros i t.
Qed.
End Ids.
#[export] Hint Resolve addNewThread_ids scheduleThread_ids setProgramState_ids resetThread_ids reset_ids
  constructAddThreadFromInfo_ids createAddRecoveryThread_ids setExecutionContext_ids : keeps.
End Frames.
