(* ===== verification/FramesDriver.v ===== *)
(** * The methods of the driver keep every framing relation. *)
From S2P Require Import Prelude Event SVal SAddr VSet SExpr Trie Deps Views Labels LabelClasses Graph GraphBase Iterators Bounds Revisits Interp RARace RACoherence Execution MemoryModel Driver Checks Symmetry Schedule RfOptions RevisitCalc Revisiting Backtrack Handlers Explore Typed TrieFacts Frames.
#[local] Open Scope Z_scope.

Module FramesDriver.
Import ExecutionGraph GraphIterators EdgeLabels Drv Checks Schedule RevisitCalc Revisiting Backtrack Handlers Explore Typed TrieFacts Frames.

(** ** Errors, values and checks *)

Section Checks.
Context `{P : Program} `{C : Config} `{MM : MemoryModel} {R : Driver -> Driver -> Prop} `{FR : !Framing R}.

(** A computation that returns did its first step. *)
Lemma reportError_keeps pos s h : (h = true -> s <> VE_OK) -> Keeps R (reportError pos s h).
Proof.
  intros Hs d a d'. unfold reportError, isHalting, inReplay, inEstimationMode, gets, mbind, M_bind at 1 2 3. cbn.
  destruct (shouldHalt d) eqn:Eh; cbn; [by intros [= _ <-]|].
  destruct (bool_decide _ || _); [by intros [= _ <-]|].
  unfold labelOf, onGraph, inGraph, getGraph, putGraph, getExecution, putExecution, lift, halt, modify, mret, M_ret,
    mbind, M_bind, outcome_bind. cbn.
  destruct (execStack d) as [|x xs] eqn:Ex; cbn; [done|].
  destruct (getEventLabel _ _) as [l| |]; cbn; [|done|done].
  destruct (_ && _); cbn.
  - unfold onGraph, getGraph, getExecution, lift, mret, M_ret, mbind, M_bind, outcome_bind. rewrite Ex. cbn.
    destruct (changeRf _ _ _) as [g| |] eqn:Eg; cbn; [|done|done]. rewrite Ex. cbn.
    assert (R d (set_execStack (Exec.set_graph g x :: xs) d)) as H1.
    { apply frame_graph; [done|]. intros _ Hg. eapply typed_changeRf; [exact Hg|]. exact Eg. }
    rewrite Ex. cbn. destruct h; intros [= _ <-]; [|exact H1]. transitivity (set_execStack (Exec.set_graph g x :: xs) d); [exact H1|].
    exact (frame_halt (set_execStack (Exec.set_graph g x :: xs) d) s (Hs eq_refl) Eh).
  - destruct h; intros [= _ <-]; [apply frame_halt; [by apply Hs|done]|done].
Qed.
Lemma reportError_keeps' pos s h : s <> VE_OK -> Keeps R (reportError pos s h).
Proof. intros Hs. by apply reportError_keeps. Qed.
Hint Resolve reportError_keeps' : keeps.
Lemma report_keeps {A} pos s (r : A) : s <> VE_OK -> Keeps R (report pos s r).
Proof. intros Hs. unfold report. keeps. Qed.
Hint Resolve report_keeps : keeps.
Lemma warning_isHardError_race g pos w : warning_isHardError g pos w = Ret true -> w = VE_WWRace.
Proof. unfold warning_isHardError. by case_bool_decide. Qed.
Lemma reportWarningOnce_keeps pos w : Keeps R (reportWarningOnce pos w).
Proof.
  unfold reportWarningOnce.
  apply (keeps_bind_value (fun h => h = true -> w <> VE_OK)); [keeps| |].
  - intros d h d' (_ & x & xs & _ & E)%onGraph_ret ->. by rewrite (warning_isHardError_race _ _ _ E).
  - intros h Hh. keeps. apply reportError_keeps. exact Hh.
Qed.
Hint Resolve reportWarningOnce_keeps : keeps.
Lemma report_warnings_keeps pos ws : Keeps R (report_warnings pos ws).
Proof. induction ws as [|w ws IH]; cbn; keeps. Qed.
Hint Resolve report_warnings_keeps : keeps.
Lemma checkForRaces_keeps pos : Keeps R (checkForRaces pos).
Proof. unfold checkForRaces. keeps. Qed.
Hint Resolve checkForRaces_keeps : keeps.
Lemma getWriteValue_keeps w a : Keeps R (getWriteValue w a).
Proof. unfold getWriteValue. keeps. Qed.
Hint Resolve getWriteValue_keeps : keeps.
Lemma or_part_keeps a v p : Keeps R (or_part a v p).
Proof. unfold or_part. keeps. Qed.
Hint Resolve or_part_keeps : keeps.
Lemma getWriteValues_keeps rfs a : Keeps R (getWriteValues rfs a).
Proof. unfold getWriteValues. keeps. Qed.
Hint Resolve getWriteValues_keeps : keeps.
Lemma getReadValue_keeps l : Keeps R (getReadValue l).
Proof. unfold getReadValue. keeps. Qed.
Lemma getDskWriteValue_keeps e a : Keeps R (getDskWriteValue e a).
Proof. unfold getDskWriteValue. keeps. Qed.
Hint Resolve getReadValue_keeps getDskWriteValue_keeps : keeps.
Lemma getDskReadValue_keeps l : Keeps R (getDskReadValue l).
Proof. unfold getDskReadValue, getDskWriteValues. keeps. Qed.
Lemma getBarrierInitValue_keeps a : Keeps R (getBarrierInitValue a).
Proof. unfold getBarrierInitValue. keeps. Qed.
Hint Resolve getDskReadValue_keeps getBarrierInitValue_keeps : keeps.
Lemma getReadRetValue_keeps l : Keeps R (getReadRetValue l).
Proof. unfold getReadRetValue. keeps. Qed.
Lemma getRecReadRetValue_keeps l : Keeps R (getRecReadRetValue l).
Proof. unfold getRecReadRetValue. keeps. Qed.
Lemma checkAccessValidity_keeps l : Keeps R (checkAccessValidity l).
Proof. unfold checkAccessValidity. keeps. Qed.
Lemma reads_value_keeps c l v : Keeps R (reads_value c l v).
Proof. unfold reads_value. keeps. Qed.
Hint Resolve reads_value_keeps : keeps.
Lemma checkInitializedMem_read_keeps l : Keeps R (checkInitializedMem_read l).
Proof. unfold checkInitializedMem_read. keeps. Qed.
Lemma checkInitializedMem_write_keeps l : Keeps R (checkInitializedMem_write l).
Proof. unfold checkInitializedMem_write. keeps. Qed.
Lemma checkFinalAnnotations_keeps l : Keeps R (checkFinalAnnotations l).
Proof. unfold checkFinalAnnotations. keeps. Qed.
Lemma checkIPRValidity_keeps l : Keeps R (checkIPRValidity l).
Proof. unfold checkIPRValidity. keeps. Qed.
Lemma checkLiveness_keeps : Keeps R checkLiveness.
Proof. unfold checkLiveness. keeps. Qed.
End Checks.
#[export] Hint Resolve reportError_keeps' report_keeps reportWarningOnce_keeps checkForRaces_keeps getWriteValue_keeps
  getReadValue_keeps getDskWriteValue_keeps getDskReadValue_keeps getBarrierInitValue_keeps getReadRetValue_keeps
  getRecReadRetValue_keeps checkAccessValidity_keeps checkInitializedMem_read_keeps checkInitializedMem_write_keeps
  checkFinalAnnotations_keeps checkIPRValidity_keeps checkLiveness_keeps : keeps.

(** ** Labels and scheduling *)

Section Schedule.
Context `{P : Program} `{C : Config} `{MM : MemoryModel} {R : Driver -> Driver -> Prop}.

Lemma executionExceedsBound_keeps `{!PreOrder R} s : Keeps R (executionExceedsBound s).
Proof. unfold executionExceedsBound. keeps. Qed.
Hint Resolve executionExceedsBound_keeps : keeps.
Lemma isExecutionValid_keeps `{!PreOrder R} pos : Keeps R (isExecutionValid pos).
Proof. unfold isExecutionValid, partialExecutionExceedsBound. keeps. Qed.
Lemma isExecutionDrivenByGraph_keeps `{!PreOrder R} l : Keeps R (isExecutionDrivenByGraph l).
Proof. unfold isExecutionDrivenByGraph. keeps. Qed.
Lemma retrieveCachedSuccessors_keeps `{!PreOrder R} i s : Keeps R (retrieveCachedSuccessors i s).
Proof. unfold retrieveCachedSuccessors. keeps. Qed.
Lemma isSchedulable_keeps `{!PreOrder R} i : Keeps R (isSchedulable i).
Proof. unfold isSchedulable. keeps. Qed.
Lemma isNextThreadInstLoad_keeps `{!PreOrder R} i : Keeps R (isNextThreadInstLoad i).
Proof. unfold isNextThreadInstLoad. keeps. Qed.
Lemma all_tids_keeps `{!PreOrder R} : Keeps R all_tids.
Proof. unfold all_tids. keeps. Qed.
Hint Resolve isExecutionValid_keeps isExecutionDrivenByGraph_keeps retrieveCachedSuccessors_keeps isSchedulable_keeps
  isNextThreadInstLoad_keeps all_tids_keeps : keeps.
Lemma follows_graph_keeps `{!PreOrder R} i : Keeps R (follows_graph i).
Proof. unfold follows_graph. keeps. Qed.
Lemma schedulable_write_keeps `{!PreOrder R} i : Keeps R (schedulable_write i).
Proof. unfold schedulable_write. keeps. Qed.
Lemma getFirstSchedulableSymmetric_keeps `{!PreOrder R} i : Keeps R (getFirstSchedulableSymmetric i).
Proof. unfold getFirstSchedulableSymmetric. keeps. Qed.
Hint Resolve follows_graph_keeps schedulable_write_keeps getFirstSchedulableSymmetric_keeps : keeps.

Context `{FR : !Framing R}.
Lemma prefix_values_keeps st l : Keeps R (prefix_values st l).
Proof. unfold prefix_values. keeps. Qed.
Hint Resolve prefix_values_keeps : keeps.
Lemma extractValPrefix_keeps pos : Keeps R (extractValPrefix pos).
Proof. unfold extractValPrefix. keeps. Qed.
Hint Resolve extractValPrefix_keeps : keeps.
(** *** The cache *)

Lemma trie_of_ok t s : cache_ok s -> TrieFacts.all_data (Forall ok) (trie_of t s).
Proof.
  intros Hs. unfold trie_of. destruct (List.find _ s) as [p|] eqn:E; [|apply TrieFacts.all_make; constructor].
  apply find_some in E as [Hin _]. by apply list_elem_of_In, (proj1 (Forall_forall _ _) Hs) in Hin.
Qed.
Lemma set_trie_ok t n s : TrieFacts.all_data (Forall ok) n -> cache_ok s -> cache_ok (set_trie t n s).
Proof.
  intros Hn. unfold cache_ok. induction s as [|p s IH]; cbn; [by repeat constructor|].
  intros [Hp Hs]%Forall_cons. destruct (_ =? _); constructor; try done. by apply IH.
Qed.
Lemma cached_copy_ok l x : ok l -> ok x -> ok (cached_copy l x).
Proof.
  intros Hl Hx. unfold cached_copy, ok. rewrite LabelFacts.reset_label_ok.
  destruct (_ =? _); by apply ok_clone.
Qed.
Lemma typed_deref g es ls : typed g -> deref_all g es = Ret ls -> Forall placed ls.
Proof.
  intros Hg. revert ls. induction es as [|e es IH]; intros ls; cbn; [intros [= <-]; constructor|].
  destruct (getEventLabel g e) as [l| |] eqn:El; [|done..]. cbn [mbind outcome_bind].
  destruct (deref_all g es) as [tl| |] eqn:Et; [|done..]. intros [= <-].
  constructor; [exact (proj2 (typed_label _ _ _ Hg El))|by apply IH].
Qed.
Lemma cached_ok d t s o d' :
  sound d -> retrieveCachedSuccessors t s d = Ret (Some o, d') -> Forall ok o.
Proof.
  intros [_ Hc]. unfold retrieveCachedSuccessors, gets, lift, mbind, M_bind, outcome_bind.
  destruct (Trie.lookup _ _ _) as [r| |] eqn:E; [|done..]. intros [= -> _].
  eapply TrieFacts.all_lookup; [|exact E]. by apply trie_of_ok.
Qed.
Lemma cacheEventLabel_keeps l : (tracks -> ok l) -> Keeps R (cacheEventLabel l).
Proof.
  intros Hl. unfold cacheEventLabel. apply keeps_bind; [keeps|]. intros est. destruct (_ || _); [keeps|].
  cbv zeta. apply keeps_bind; [keeps|]. intros p.
  apply (keeps_bind_fact (fun data => Forall ok (default [] data))); [keeps| |].
  { intros _ d [o|] d' Hs E; [by eapply cached_ok|constructor]. }
  intros data Hd. destruct (_ && _); [keeps|].
  apply (keeps_bind_graph (Forall placed)); [intros _ g ls; apply typed_deref|]. intros ls Hls.
  set (labs := map _ _).
  assert (tracks -> Forall ok labs) as Hlabs.
  { intros Ht. apply Forall_map, Forall_app. split.
    - eapply Forall_impl; [by apply Hls|]. intros x Hx. apply cached_copy_ok; [by apply Hl|apply Hx].
    - destruct (_ <? _); repeat constructor. apply cached_copy_ok; by apply Hl. }
  apply (keeps_bind_fact cache_ok); [keeps|by intros _ d s d' [_ Hs] [= <- _]|]. intros s Hs.
  destruct data as [data|].
  - do 2 (apply keeps_bind; [keeps|]; intros []). apply (keeps_bind_fact (fun r => TrieFacts.all_data (Forall ok) (snd r))); [keeps| |].
    + intros Ht d [b n] d' _. unfold lift, outcome_bind, mbind. destruct (Trie.setSeqData _ _ _ _) as [r| |] eqn:E; [|done..].
      intros [= -> _]. cbn. eapply TrieFacts.all_setSeqData, E; [apply Forall_app; split; [by apply Hd|by apply Hlabs]|].
      by apply trie_of_ok, Hs.
    + intros r Hr. apply setPrefixes_keeps. intros Ht. apply set_trie_ok; [by apply Hr|by apply Hs].
  - apply (keeps_bind_fact (fun r => TrieFacts.all_data (Forall ok) (snd r))); [keeps| |].
    + intros Ht d [b n] d' _. unfold lift, outcome_bind, mbind. destruct (Trie.addSeq _ _ _ _ _) as [r| |] eqn:E; [|done..].
      intros [= -> _]. cbn. eapply TrieFacts.all_addSeq, E; [constructor|by apply Hlabs|by apply trie_of_ok, Hs].
    + intros r Hr. apply keeps_bind; [keeps|]. intros []. apply setPrefixes_keeps. intros Ht.
      apply set_trie_ok; [by apply Hr|by apply Hs].
Qed.

(** *** Adding a label *)

Lemma updateLabelViews_keeps pos : Keeps R (updateLabelViews pos).
Proof.
  unfold updateLabelViews. keeps. apply views_keeps. intros Ht. by apply H.
Qed.
Hint Resolve cacheEventLabel_keeps updateLabelViews_keeps : keeps.
Lemma addLabelToGraph_keeps l : (tracks -> ok l) -> Keeps R (Schedule.addLabelToGraph l).
Proof. intros Hl. unfold Schedule.addLabelToGraph. keeps. Qed.
Lemma blockThread_keeps l : (tracks -> ok l) -> (tracks -> getPos l <> init_pos) -> Keeps R (blockThread l).
Proof.
  intros Hl Hp. unfold blockThread. cbv zeta. apply keeps_bind; [|keeps]. apply inGraph_keeps. intros Ht g g' Hg.
  case_decide as Hd; [|by intros [= <-]]. apply typed_removeLast; [done|]. rewrite <- Hd. by apply Hp.
Qed.
(** A block label is not the initializer. *)
Lemma unblockThread_at pos d x xs d' :
  execStack d = x :: xs -> unblockThread pos d = Ret (tt, d') ->
  exists l g, getLastThreadLabel (graph x) (thread pos) = Ret l /\ Isa.BlockLabel (kind l) = true /\
    removeLast (graph x) (thread pos) = Ret g /\ d' = set_execStack (Exec.set_graph g x :: xs) d /\
    (typed (graph x) -> typed g).
Proof.
  intros E. unfold unblockThread, mbind at 1, M_bind at 1. destruct (onGraph _ d) as [[l d1]| |] eqn:El; [|done..].
  apply onGraph_ret in El as (-> & y & ys & E' & El). rewrite E in E'. injection E' as <- <-.
  unfold lift, mbind, M_bind, outcome_bind. destruct (Isa.BlockLabel (kind l)) eqn:Eb; [|done]. cbn.
  intros (g & Eg & ->)%(inGraph_at _ _ _ _ _ E). exists l, g. repeat split_and; try done. intros Hg.
  refine (typed_removeLast _ _ _ Hg _ Eg). intros Hi.
  unfold getLastThreadLabel in El. apply (typed_label _ _ _ Hg) in El as [Hp Hl].
  rewrite (pl_init l Hl) in Eb by congruence. done.
Qed.
Lemma unblockThread_keeps pos : Keeps R (unblockThread pos).
Proof.
  intros d [] d' E. destruct (execStack d) as [|x xs] eqn:Ex.
  { revert E. unfold unblockThread, onGraph, getGraph, getExecution, mbind, M_bind. by rewrite Ex. }
  destruct (unblockThread_at _ _ _ _ _ Ex E) as (l & g & _ & _ & _ & -> & Hg). by apply frame_graph.
Qed.
Lemma mootExecutionIfFullyBlocked_keeps pos : Keeps R (mootExecutionIfFullyBlocked pos).
Proof. unfold mootExecutionIfFullyBlocked. keeps. Qed.
Hint Resolve addLabelToGraph_keeps blockThread_keeps unblockThread_keeps mootExecutionIfFullyBlocked_keeps : keeps.
Lemma blockThreadTryMoot_keeps l : (tracks -> ok l) -> (tracks -> getPos l <> init_pos) -> Keeps R (blockThreadTryMoot l).
Proof. intros Hl Hp. unfold blockThreadTryMoot. keeps. Qed.

Lemma scheduleThread_keeps tid : Keeps R (scheduleThread tid).
Proof. unfold scheduleThread. keeps. Qed.
Hint Resolve scheduleThread_keeps : keeps.
Lemma schedule_first_keeps cond pick ts :
  (forall i, Keeps R (cond i)) -> (forall i, Keeps R (pick i)) -> Keeps R (schedule_first cond pick ts).
Proof. intros Hc Hp. induction ts as [|i ts IH]; cbn; keeps. Qed.
Lemma schedulePrioritized_keeps : Keeps R schedulePrioritized.
Proof. unfold schedulePrioritized. keeps. apply schedule_first_keeps; keeps. Qed.
Lemma scheduleNextLTR_keeps : Keeps R scheduleNextLTR.
Proof. unfold scheduleNextLTR. keeps. apply schedule_first_keeps; keeps. Qed.
Lemma scheduleNextWF_keeps : Keeps R scheduleNextWF.
Proof. unfold scheduleNextWF. keeps; apply schedule_first_keeps; keeps. Qed.
Lemma scheduleNextWFR_keeps : Keeps R scheduleNextWFR.
Proof. unfold scheduleNextWFR. keeps; apply schedule_first_keeps; keeps. Qed.
Lemma scheduleNextRandom_keeps : Keeps R scheduleNextRandom.
Proof. unfold scheduleNextRandom. keeps; apply schedule_first_keeps; keeps. Qed.
Hint Resolve schedulePrioritized_keeps scheduleNextLTR_keeps scheduleNextWF_keeps scheduleNextWFR_keeps
  scheduleNextRandom_keeps : keeps.
Lemma scheduleAtomicity_keeps : Keeps R scheduleAtomicity.
Proof. unfold scheduleAtomicity. keeps. Qed.
Lemma scheduleNormal_keeps : Keeps R scheduleNormal.
Proof. unfold scheduleNormal. keeps. Qed.
Lemma reschedule_first_keeps ts : Keeps R (reschedule_first ts).
Proof. induction ts as [|i ts IH]; cbn; keeps. Qed.
Hint Resolve scheduleAtomicity_keeps scheduleNormal_keeps reschedule_first_keeps : keeps.
Lemma scheduleNext_keeps : Keeps R scheduleNext.
Proof. unfold scheduleNext, or_try, rescheduleReads. keeps. Qed.

Lemma checkAtomicity_keeps l : Keeps R (checkAtomicity l).
Proof. unfold checkAtomicity. keeps. Qed.
Hint Resolve checkAtomicity_keeps : keeps.
Lemma ensureConsistentStore_keeps pos : Keeps R (ensureConsistentStore pos).
Proof. unfold ensureConsistentStore. keeps. Qed.
Lemma try_rfs_keeps pos rfs : Keeps R (try_rfs pos rfs).
Proof. induction rfs as [|w ws IH]; cbn; keeps. Qed.
Hint Resolve try_rfs_keeps : keeps.
Lemma ensureConsistentRf_keeps pos rfs : Keeps R (ensureConsistentRf pos rfs).
Proof. unfold ensureConsistentRf. keeps. Qed.
Lemma filterInvalidRecRfs_keeps pos rfs : Keeps R (filterInvalidRecRfs pos rfs).
Proof. unfold filterInvalidRecRfs. keeps. Qed.
End Schedule.
#[export] Hint Resolve executionExceedsBound_keeps isExecutionValid_keeps isExecutionDrivenByGraph_keeps
  retrieveCachedSuccessors_keeps isSchedulable_keeps isNextThreadInstLoad_keeps all_tids_keeps follows_graph_keeps
  schedulable_write_keeps getFirstSchedulableSymmetric_keeps extractValPrefix_keeps cacheEventLabel_keeps
  updateLabelViews_keeps addLabelToGraph_keeps blockThread_keeps unblockThread_keeps
  mootExecutionIfFullyBlocked_keeps blockThreadTryMoot_keeps scheduleThread_keeps scheduleNext_keeps
  checkAtomicity_keeps ensureConsistentStore_keeps ensureConsistentRf_keeps filterInvalidRecRfs_keeps : keeps.

(** ** Revisits *)

Section Revisiting.
Context `{P : Program} `{C : Config} `{MM : MemoryModel} {R : Driver -> Driver -> Prop} `{FR : !Framing R}.

Lemma getStamp_keeps pos : Keeps R (getStamp pos).
Proof. unfold getStamp. keeps. Qed.
Lemma readAt_keeps pos : Keeps R (readAt pos).
Proof. unfold readAt. keeps. Qed.
Hint Resolve getStamp_keeps readAt_keeps : keeps.
Lemma kind_off_init l k : placed l -> kind l = k -> k <> EL_Init -> getPos l <> init_pos.
Proof. intros Hl <- Hk Hp. by apply Hk, Hl. Qed.
Lemma removeCASReadIfBlocks_keeps l s : (tracks -> placed l) -> Keeps R (removeCASReadIfBlocks l s).
Proof.
  intros Hl. unfold removeCASReadIfBlocks. destruct (_ || negb (Isa.CasReadLabel (kind l))) eqn:Ec; [keeps|].
  keeps. apply blockThread_keeps; [done|]. intros Ht Hp. rewrite orb_false_iff in Ec. destruct Ec as [_ Ec].
  apply (pl_init l (Hl Ht)) in Hp. by rewrite Hp in Ec.
Qed.
Lemma removeMM_keeps {A} (f : A -> M bool) l : (forall x, Keeps R (f x)) -> Keeps R (removeMM f l).
Proof. intros Hf. unfold removeMM. keeps. Qed.
Lemma settled_rmw_keeps l v s : Keeps R (settled_rmw l v s).
Proof. unfold settled_rmw. keeps. Qed.
Hint Resolve removeCASReadIfBlocks_keeps removeMM_keeps settled_rmw_keeps : keeps.
Lemma getRfsApproximation_keeps l : Keeps R (getRfsApproximation l).
Proof. unfold getRfsApproximation. keeps. Qed.
Lemma filterConflictingBarriers_keeps l ss : Keeps R (filterConflictingBarriers l ss).
Proof. unfold filterConflictingBarriers. keeps. Qed.
Lemma filterValuesFromAnnotSAVER_keeps l ss : Keeps R (filterValuesFromAnnotSAVER l ss).
Proof. unfold filterValuesFromAnnotSAVER. keeps. apply removeMM_keeps. keeps. Qed.
Hint Resolve filterConflictingBarriers_keeps filterValuesFromAnnotSAVER_keeps : keeps.
Lemma filterOptimizeRfs_keeps l ss : (tracks -> placed l) -> Keeps R (filterOptimizeRfs l ss).
Proof. intros Hl. unfold filterOptimizeRfs. keeps. Qed.
Lemma filterAtomicityViolations_keeps l ss : Keeps R (filterAtomicityViolations l ss).
Proof. unfold filterAtomicityViolations. keeps. apply removeMM_keeps. keeps. Qed.
Lemma getRevisitableApproximation_keeps l : Keeps R (getRevisitableApproximation l).
Proof. unfold getRevisitableApproximation. keeps. Qed.
Lemma rmw_result_keeps l : Keeps R (rmw_result l).
Proof. unfold rmw_result. keeps. Qed.
Hint Resolve rmw_result_keeps : keeps.
Lemma counterpart_ok r v a l : counterpart r v a = Ret l -> ok l.
Proof. unfold counterpart. by destruct (kind r); try done; intros [= <-]. Qed.
Lemma completeRevisitedRMW_keeps pos : Keeps R (completeRevisitedRMW pos).
Proof.
  unfold completeRevisitedRMW. apply keeps_bind; [keeps|]. intros r. destruct (negb _); [keeps|].
  apply keeps_bind; [keeps|]. intros [v|]; [|keeps]. apply keeps_bind_lift. intros l E%counterpart_ok. keeps.
Qed.
Lemma prioritize_keeps es : Keeps R (prioritize es).
Proof. unfold prioritize. keeps. Qed.
Lemma restart_ids f i : (forall t, Interp.id (f t) = Interp.id t) -> Keeps R (inEE (Interp.alter_thread f i)).
Proof. intros Hf. apply inEE_keeps, alter_thread_ids, Hf. Qed.
Hint Resolve completeRevisitedRMW_keeps prioritize_keeps : keeps.
(** The label after a read, and the last one, is not the initializer. *)
Lemma drop_next_keeps read :
  valid read -> Keeps R (next ← onGraph (fun g => getNextLabel g read);
                         if (next : option Label) then inGraph (fun g => removeLast g (thread read)) else mret tt).
Proof.
  intros [Hv1 Hv2]. apply keeps_onGraph_at. intros d x xs [n|] [] d' E Hg En; [|by intros [= <-]].
  intros (g & Eg & ->)%(inGraph_at _ _ _ _ _ E). apply graph_step; [done|]. intros Ht. specialize (Hg Ht).
  refine (typed_removeLast _ _ _ Hg _ Eg). unfold getNextLabel in En. destruct (bool_decide _); [done|].
  unfold getEventLabel in En. destruct (label_at (graph x) (EventOps.next read)) eqn:El; [|done].
  apply Lookup.label_at_some_iff_size in El. cbn in El. unfold getLastThreadEvent. intros [= H1 H2].
  cbn in *. lia.
Qed.
Lemma revisitInPlace_keeps l s : valid l -> Keeps R (revisitInPlace l s).
Proof.
  intros Hl. unfold revisitInPlace. apply keeps_bind; [keeps|]. intros _.
  apply keeps_assoc, keeps_bind; [by apply drop_next_keeps|]. keeps. by apply restart_ids.
Qed.
(** The increment of a thread blocked at a barrier is two labels before the block. *)
Lemma unblock_twice_keeps b :
  Keeps R (pLab ← onGraph (fun g => barrier_fai g b); unblockThread b;; inGraph (fun g => removeLast g (thread b));; mret pLab).
Proof.
  apply keeps_onGraph_at. intros d x xs p p' d' E Hg Ep. unfold mbind, M_bind.
  destruct (unblockThread b d) as [[[] d1]| |] eqn:E1; [|done..].
  destruct (unblockThread_at _ _ _ _ _ E E1) as (bl & g1 & Ebl & Ekb & Er1 & -> & Ht1).
  destruct (inGraph _ _) as [[[] d2]| |] eqn:E2; [|done..].
  destruct (inGraph_at _ (set_execStack (Exec.set_graph g1 x :: xs) d) _ (Exec.set_graph g1 x) xs eq_refl E2) as (g2 & Er2 & ->).
  intros [= _ <-].
  change (set_execStack (Exec.set_graph g2 (Exec.set_graph g1 x) :: xs) (set_execStack (Exec.set_graph g1 x :: xs) d))
    with (set_execStack (Exec.set_graph g2 x :: xs) d).
  apply graph_step; [done|]. intros Ht. specialize (Hg Ht). pose proof (Ht1 Hg) as Hg1.
  refine (typed_removeLast _ _ _ Hg1 _ Er2). pose proof (removeLast_size _ _ _ Hg Er1) as Hs.
  unfold getLastThreadEvent. rewrite Hs. intros [= H1 H2].
  unfold barrier_fai, getPreviousLabel in Ep. destruct (index (EventOps.prev b) =? 0); [done|].
  destruct (getEventLabel (graph x) (EventOps.prev (EventOps.prev b))) as [pl| |] eqn:Epl; [|done..].
  cbn [mbind outcome_bind fmap outcome_fmap] in Ep. destruct (Isa.BIncFaiWriteLabel (kind pl)) eqn:Ek; [|done].
  unfold getLastThreadLabel in Ebl. pose proof (typed_label _ _ _ Hg Epl) as [Hp1 Hp2].
  pose proof (typed_label _ _ _ Hg Ebl) as [Hb1 Hb2].
  assert (getPos pl <> init_pos) as Hni by (intros Hi; apply Hp2 in Hi; by rewrite Hi in Ek).
  unfold getEventLabel in Epl. destruct (label_at _ (EventOps.prev (EventOps.prev b))) as [pl'|] eqn:El; [|done].
  injection Epl as ->. apply Lookup.label_at_some_iff_size in El as Hsz. pose proof (Lookup.label_at_valid _ _ _ El) as [_ Hi].
  cbn in Hsz, Hi. rewrite Hp1 in Hni.
  assert (index b - 1 - 1 <> 0) by (intros Hz; apply Hni; unfold EventOps.prev; cbn; by rewrite H1, Hz).
  assert (index b - 1 - 1 = 1) as Hone by lia.
  assert (EventOps.prev (EventOps.prev b) = getLastThreadEvent (graph x) (thread b)) as Heq.
  { unfold EventOps.prev, getLastThreadEvent. cbn. f_equal. lia. }
  unfold getEventLabel in Ebl. rewrite <- Heq, El in Ebl. injection Ebl as ->.
  by destruct (kind bl).
Qed.
Lemma keeps_returning {A D} (m : M A) (u v : M unit) (k : A -> M D) :
  Keeps R (a ← m; u;; v;; mret a) -> (forall a, Keeps R (k a)) -> Keeps R (a ← m; u;; v;; k a).
Proof.
  intros H Hk d b d'. unfold Keeps, mbind, M_bind in H |- *. specialize (H d).
  destruct (m d) as [[a d1]| |]; [|done..]. destruct (u d1) as [[[] d2]| |]; [|done..].
  destruct (v d2) as [[[] d3]| |]; [|done..]. intros E. transitivity d3; [exact (H _ _ eq_refl)|by eapply Hk].
Qed.
Lemma unblock_barrier_keeps s b : Keeps R (unblock_barrier s b).
Proof.
  unfold unblock_barrier. apply keeps_returning; [apply unblock_twice_keeps|]. keeps.
Qed.
Hint Resolve unblock_barrier_keeps : keeps.
Lemma tryOptimizeBarrierRevisits_keeps l : Keeps R (tryOptimizeBarrierRevisits l).
Proof. unfold tryOptimizeBarrierRevisits. keeps. Qed.
Lemma ipr_blocked_keeps l : Keeps R (ipr_blocked l).
Proof. unfold ipr_blocked. keeps. Qed.
Hint Resolve tryOptimizeBarrierRevisits_keeps ipr_blocked_keeps : keeps.
Lemma ipr_blocked_valid l d d' : ipr_blocked l d = Ret (true, d') -> valid l.
Proof.
  unfold ipr_blocked, readAt, mbind, M_bind, labelOf. destruct (onGraph _ d) as [[r d1]| |] eqn:E; [|done..].
  intros _. apply onGraph_ret in E as (_ & x & xs & _ & E). unfold getEventLabel in E.
  destruct (label_at (graph x) l) eqn:El; [|done]. by apply Lookup.label_at_valid in El.
Qed.
Lemma tryOptimizeIPRs_keeps s ls : Keeps R (tryOptimizeIPRs s ls).
Proof.
  unfold tryOptimizeIPRs. destruct (negb conf_ipr); [keeps|].
  apply (keeps_bind_value (Forall valid)); [keeps| |].
  { intros d es d'. apply (filterMM_sat valid). apply ipr_blocked_valid. }
  intros es Hes. cbv zeta. apply keeps_bind; [|keeps]. apply keeps_forM_in. intros e He.
  apply revisitInPlace_keeps. by eapply Forall_forall.
Qed.
Lemma optimizeUnconfirmedRevisits_keeps ls : Keeps R (optimizeUnconfirmedRevisits ls).
Proof. unfold optimizeUnconfirmedRevisits. keeps. Qed.
Lemma tryOptimizeRevBlockerAddition_keeps l ls : Keeps R (tryOptimizeRevBlockerAddition l ls).
Proof. unfold tryOptimizeRevBlockerAddition. keeps. Qed.
Hint Resolve tryOptimizeIPRs_keeps optimizeUnconfirmedRevisits_keeps tryOptimizeRevBlockerAddition_keeps : keeps.
Lemma tryOptimizeRevisits_keeps s ls : Keeps R (tryOptimizeRevisits s ls).
Proof. unfold tryOptimizeRevisits. keeps. Qed.
Lemma checkRevBlockHELPER_keeps l ls : Keeps R (checkRevBlockHELPER l ls).
Proof. unfold checkRevBlockHELPER. keeps. Qed.
End Revisiting.
#[export] Hint Resolve getStamp_keeps readAt_keeps removeCASReadIfBlocks_keeps removeMM_keeps getRfsApproximation_keeps
  filterOptimizeRfs_keeps filterAtomicityViolations_keeps getRevisitableApproximation_keeps
  completeRevisitedRMW_keeps prioritize_keeps tryOptimizeRevisits_keeps checkRevBlockHELPER_keeps : keeps.

(** ** Placings, backward revisits and options *)

Section Backtrack.
Context `{P : Program} `{C : Config} `{MM : MemoryModel} {R : Driver -> Driver -> Prop}.

Lemma before_store_keeps `{!PreOrder R} pos a s : Keeps R (before_store pos a s).
Proof. unfold before_store. keeps. Qed.
Hint Resolve before_store_keeps : keeps.
Section Base.
Context `{FR : !Framing R}.
Lemma set_choices_keeps (f : ChoiceMap -> ChoiceMap) :
  Keeps R (x ← getExecution; putExecution (Exec.set_choices (f (choices x)) x)).
Proof. apply (keeps_execution (fun x => Exec.set_choices (f (choices x)) x)). intros. by apply frame_choices. Qed.
Lemma add_at_keeps pos it : Keeps R (add_at pos it).
Proof.
  unfold add_at. apply keeps_bind_label. intros l _. apply coherence_keeps. intros g g' E. steps E. by injection E as <-.
Qed.
Lemma setChoices_keeps s es : Keeps R (setChoices s es).
Proof. apply (set_choices_keeps (OrderedMap.alter [] (fun _ => es) s)). Qed.
Lemma random_upto_keeps n : Keeps R (random_upto n).
Proof. unfold random_upto. keeps. Qed.
Lemma warn_race_keeps pos b : Keeps R (warn_race pos b).
Proof. unfold warn_race. keeps. Qed.
Lemma addChoice_keeps l e : Keeps R (addChoice l e).
Proof.
  unfold addChoice. apply keeps_bind; [keeps|]. intros a.
  apply (set_choices_keeps (OrderedMap.alter [] (fun c => VSet.insert1 EventOps.ltb c (getPos l)) a)).
Qed.
Lemma keep_sets_keeps s r : Keeps R (keep_sets s r).
Proof. unfold keep_sets. keeps. Qed.
Lemma block_barrier_keeps l : (tracks -> placed l) -> Keeps R (block_barrier l).
Proof. intros Hl. unfold block_barrier. keeps. Qed.
Lemma prioritize_speculative_keeps l : Keeps R (prioritize_speculative l).
Proof. unfold prioritize_speculative. keeps. Qed.
Lemma block_lock_keeps l : (tracks -> placed l) -> Keeps R (block_lock l).
Proof. intros Hl. unfold block_lock. keeps. Qed.
Lemma revisitOptional_keeps pos : Keeps R (revisitOptional pos).
Proof. unfold revisitOptional. keeps. Qed.
Lemma recalculated_view_keeps r x y : Keeps R (recalculated_view r x y).
Proof. unfold recalculated_view. keeps. Qed.
Lemma isRevisitValid_keeps r : Keeps R (isRevisitValid r).
Proof. unfold isRevisitValid. keeps. Qed.
End Base.
Hint Resolve add_at_keeps setChoices_keeps random_upto_keeps warn_race_keeps addChoice_keeps keep_sets_keeps
  block_barrier_keeps prioritize_speculative_keeps block_lock_keeps revisitOptional_keeps recalculated_view_keeps : keeps.

(** Without -mixer there is no set of stores to keep: no revisit is pushed. *)
Lemma keep_sets_no_mixer s r d ks d' : conf_mixer = false -> keep_sets s r d = Ret (ks, d') -> ks = [].
Proof. intros Hm. unfold keep_sets. rewrite Hm. cbn. by intros [= <- _]. Qed.
Lemma revisit_load_keeps_no_mixer `{FR : !Framing R} s l : conf_mixer = false -> Keeps R (revisit_load s l).
Proof.
  intros Hm. unfold revisit_load. rewrite Hm.
  do 3 (apply keeps_bind; [keeps|]; intros ?). cbn [andb negb].
  apply (keeps_bind_value (fun ks => ks = [])); [keeps| |].
  - intros d ks d'. by apply keep_sets_no_mixer.
  - intros ks ->. do 2 (apply keeps_bind; [keeps|]; intros ?). apply keeps_ret.
Qed.
Lemma calcRevisits_keeps_no_mixer `{FR : !Framing R} s : conf_mixer = false -> Keeps R (calcRevisits s).
Proof. intros Hm. unfold calcRevisits. keeps. by apply revisit_load_keeps_no_mixer. Qed.

Context `{WR : !WorkFraming R}.
Lemma putExecution_keeps x : (tracks -> typed (graph x)) -> Keeps R (putExecution x).
Proof.
  intros Hx. apply keeps_modify. intros d. apply frame_stack. intros Ht Hs. constructor; [by apply Hx|].
  destruct Hs; [constructor|done].
Qed.
Lemma pushExecution_keeps x : (tracks -> typed (graph x)) -> Keeps R (pushExecution x).
Proof. intros Hx. apply keeps_modify. intros d. apply frame_stack. intros Ht Hs. constructor; [by apply Hx|done]. Qed.
Lemma popExecution_keeps : Keeps R popExecution.
Proof.
  intros d b d'. unfold popExecution. destruct (execStack d) as [|x xs] eqn:E; intros [= _ <-]; [reflexivity|].
  apply frame_stack. rewrite E. intros _ Hs. by inversion Hs.
Qed.
Hint Resolve putExecution_keeps pushExecution_keeps popExecution_keeps : keeps.
Lemma addToWorklist_keeps s r : Keeps R (addToWorklist s r).
Proof. apply keeps_bind_execution. intros x Hx. by apply putExecution_keeps. Qed.
Lemma getNextItem_keeps : Keeps R getNextItem.
Proof.
  apply keeps_bind_execution. intros x Hx. apply keeps_bind; [keeps|]. intros r.
  apply keeps_bind; [by apply putExecution_keeps|]. keeps.
Qed.
Hint Resolve addToWorklist_keeps : keeps.
Lemma calcCoOrderings_keeps pos : Keeps R (calcCoOrderings pos).
Proof. unfold calcCoOrderings. keeps. Qed.
Lemma push_revisit_keeps s r ks rfs : Keeps R (push_revisit s r ks rfs).
Proof. unfold push_revisit. keeps. Qed.
Hint Resolve push_revisit_keeps : keeps.
Lemma revisit_load_keeps s l : Keeps R (revisit_load s l).
Proof. unfold revisit_load. keeps. Qed.
Hint Resolve revisit_load_keeps : keeps.
Lemma calcRevisits_keeps s : Keeps R (calcRevisits s).
Proof. unfold calcRevisits. keeps. Qed.
Hint Resolve calcRevisits_keeps : keeps.
Lemma revisitWrite_keeps pos r : Keeps R (revisitWrite pos r).
Proof.
  unfold revisitWrite. keeps; apply coherence_keeps; by intros g g' [= <-].
Qed.
Lemma complete_or_keeps pos m : Keeps R m -> Keeps R (complete_or pos m).
Proof. intros Hm. unfold complete_or. keeps. Qed.
Hint Resolve complete_or_keeps : keeps.
Lemma revisitRead_keeps r : Keeps R (revisitRead r).
Proof. unfold revisitRead. keeps. apply complete_or_keeps. keeps. Qed.
Lemma revisitReadMIXER_keeps r rfs : Keeps R (revisitReadMIXER r rfs).
Proof. unfold revisitReadMIXER. keeps. apply complete_or_keeps. keeps. Qed.
Hint Resolve revisitWrite_keeps revisitRead_keeps revisitReadMIXER_keeps : keeps.
Lemma forwardRevisit_keeps r : Keeps R (forwardRevisit r).
Proof. unfold forwardRevisit. keeps. Qed.
Lemma backwardRevisit_keeps r : Keeps R (backwardRevisit r).
Proof.
  unfold backwardRevisit. do 2 (apply keeps_bind; [keeps|]; intros ?). apply keeps_bind_execution. intros x Hx.
  apply keeps_bind_lift. intros og E. apply keeps_bind_lift. intros m _.
  apply keeps_bind; [apply pushExecution_keeps; intros Ht; by eapply typed_copyGraph, E; apply Hx|]. keeps.
Qed.
Hint Resolve forwardRevisit_keeps backwardRevisit_keeps : keeps.
Lemma restrictAndRevisit_keeps s r : Keeps R (restrictAndRevisit s r).
Proof.
  apply keeps_bind_execution. intros x Hx. apply keeps_bind_lift. intros x' E.
  apply keeps_bind; [apply putExecution_keeps; intros Ht; by eapply typed_restrict_execution, E; apply Hx|]. keeps.
Qed.
End Backtrack.
#[export] Hint Resolve before_store_keeps add_at_keeps setChoices_keeps random_upto_keeps warn_race_keeps
  addChoice_keeps isRevisitValid_keeps putExecution_keeps pushExecution_keeps popExecution_keeps addToWorklist_keeps
  getNextItem_keeps calcCoOrderings_keeps calcRevisits_keeps restrictAndRevisit_keeps : keeps.

(** ** Handlers *)

Section Handlers.
Context `{P : Program} `{C : Config} `{MM : MemoryModel} {R : Driver -> Driver -> Prop} `{WR : !WorkFraming R}.

Lemma add_new_keeps l : (tracks -> ok l) -> Keeps R (add_new l).
Proof. intros Hl. unfold add_new. keeps. Qed.
Hint Resolve add_new_keeps : keeps.
Lemma handleThreadKill_keeps l : (tracks -> ok l) -> Keeps R (handleThreadKill l).
Proof. intros Hl. unfold handleThreadKill. keeps. Qed.
Lemma handleFence_keeps l : (tracks -> ok l) -> Keeps R (handleFence l).
Proof. intros Hl. unfold handleFence, handleFenceLKMM. keeps. Qed.
Lemma handleBlock_keeps l : (tracks -> ok l) -> Keeps R (handleBlock l).
Proof. intros Hl. unfold handleBlock. keeps. Qed.
Lemma typed_child g e c : typed g -> e <> init_pos -> find_child g e (seqZ 0 (getNumThreads g)) = Ret c -> c <> 0.
Proof.
  intros Hg He. pose proof (typed_nonempty g Hg) as Hn. generalize (seqZ 0 (getNumThreads g)) as ts.
  induction ts as [|i ts IH]; cbn; [intros [= <-]; unfold getNumThreads; lia|].
  destruct (isThreadEmpty g i); [done|]. destruct (getEventLabel g _) as [l| |] eqn:El; [|done..]. cbn [mbind outcome_bind].
  apply (typed_label _ _ _ Hg) in El as [Hp Hl]. destruct (Isa.ThreadStartLabel (kind l)) eqn:Ek; [|done].
  cbn [negb BUG_ON mbind outcome_bind]. case_decide as Hd; [|done]. intros [= <-] ->.
  apply He. rewrite <- Hd. pose proof (pl_ok l Hl) as Hk. unfold LabelFacts.label_ok in Hk.
  rewrite (pl_init l Hl) in Hk by done. unfold EdgeLabels.getParentCreate. by destruct (payload l).
Qed.
Lemma handleThreadCreate_keeps l : (tracks -> ok l) -> Keeps R (handleThreadCreate l).
Proof. 
  intros Hl. unfold handleThreadCreate. cbv zeta. apply keeps_bind_driven; [keeps|keeps|]. intros Hp. cbv iota.
  apply (keeps_bind_graph (fun cid => cid <> 0)); [intros Ht g c Hg; apply typed_child; [done|by apply Hp]|]. intros c Hc.
  do 3 (apply keeps_bind; [keeps|]; intros ?). apply keeps_bind_getGraph. intros g Hg.
  assert (tracks -> typed (addNewThread g)) as Hg' by (intros Ht; by apply typed_addThread, Hg).
  apply keeps_bind; [|keeps]. destruct (_ =? _); [apply keeps_bind; [by apply putGraph_keeps|keeps]|].
  apply keeps_bind; [keeps|]. intros _. apply inGraph_keeps. intros Ht g1 g2 H1. apply typed_removeLast; [done|].
  intros [= H2 _]. by apply Hc.
Qed.
Lemma handleThreadJoin_keeps l : (tracks -> ok l) -> Keeps R (handleThreadJoin l).
Proof. intros Hl. unfold handleThreadJoin, partialExecutionExceedsBound. keeps. Qed.
Lemma handleThreadFinish_keeps l : (tracks -> ok l) -> Keeps R (handleThreadFinish l).
Proof. intros Hl. unfold handleThreadFinish, moot_if_exceeds, partialExecutionExceedsBound, relieve. keeps. Qed.
Lemma reconsider_thread_keeps pos i : Keeps R (reconsider_thread pos i).
Proof. unfold reconsider_thread. keeps. Qed.
Hint Resolve reconsider_thread_keeps : keeps.
Lemma checkReconsiderFaiSpinloop_keeps pos : Keeps R (checkReconsiderFaiSpinloop pos).
Proof. unfold checkReconsiderFaiSpinloop. keeps. Qed.
Lemma checkReconsiderReadOpts_keeps l : Keeps R (checkReconsiderReadOpts l).
Proof. unfold checkReconsiderReadOpts. keeps. Qed.
Lemma side_effect_keeps l : Keeps R (side_effect l).
Proof. unfold side_effect, isWriteEffectful. keeps. Qed.
Hint Resolve checkReconsiderFaiSpinloop_keeps checkReconsiderReadOpts_keeps side_effect_keeps : keeps.
Lemma handleSpinStart_keeps l : (tracks -> ok l) -> Keeps R (handleSpinStart l).
Proof. intros Hl. unfold handleSpinStart. keeps. Qed.
Lemma handleFaiZNESpinEnd_keeps l : (tracks -> ok l) -> Keeps R (handleFaiZNESpinEnd l).
Proof. intros Hl. unfold handleFaiZNESpinEnd. keeps. Qed.
Lemma handleLockZNESpinEnd_keeps l : (tracks -> ok l) -> Keeps R (handleLockZNESpinEnd l).
Proof. intros Hl. unfold handleLockZNESpinEnd. keeps. Qed.

Lemma ok_then_keeps {A} c (bad : A) rest : Keeps R c -> Keeps R rest -> Keeps R (ok_then c bad rest).
Proof. intros Hc Hr. unfold ok_then. keeps. Qed.
Lemma getCurrentAnnotConcretized_keeps : Keeps R getCurrentAnnotConcretized.
Proof. unfold getCurrentAnnotConcretized. keeps. Qed.
Lemma pickRandomRf_keeps pos ss : Keeps R (pickRandomRf pos ss).
Proof. unfold pickRandomRf. keeps. apply ok_then_keeps; keeps. Qed.
Lemma push_options_keeps pos os : Keeps R (push_options pos os).
Proof. unfold push_options. keeps. Qed.
Lemma block_wait_keeps pos v : Keeps R (block_wait pos v).
Proof. unfold block_wait. keeps. Qed.
Hint Resolve getCurrentAnnotConcretized_keeps pickRandomRf_keeps push_options_keeps block_wait_keeps : keeps.
Lemma finish_load_keeps pos ss os v : Keeps R (finish_load pos ss os v).
Proof. unfold finish_load. keeps. Qed.
Hint Resolve finish_load_keeps : keeps.
Lemma read_options_keeps pos ss : Keeps R (read_options pos ss).
Proof. unfold read_options. keeps. apply ok_then_keeps; keeps. Qed.
Hint Resolve read_options_keeps : keeps.
Lemma handleLoad_keeps l : (tracks -> ok l) -> Keeps R (handleLoad l).
Proof.
  intros Hl. unfold handleLoad. cbv zeta. apply keeps_bind; [keeps|]. intros rec. destruct (_ && _); [keeps|].
  apply keeps_bind_driven; [keeps|keeps|]. intros Hp. cbv iota. apply keeps_bind; [keeps|]. intros _.
  apply (keeps_bind_fact ok); [keeps| |].
  { intros Ht d a d' _. destruct (ReadLabel.getAnnot l); [intros [= <- _]; by apply Hl|].
    unfold mbind, M_bind. destruct (getCurrentAnnotConcretized d) as [[x d1]| |]; [|done..]. intros [= <- _].
    apply (ok_kept l); [kept_setter|by apply Hl]. }
  intros l' Hl'. apply keeps_bind; [keeps|]. intros _. apply keeps_bind_label. intros ? _.
  apply ok_then_keeps; [keeps|]. apply ok_then_keeps; keeps.
Qed.
Lemma annotateStoreHELPER_keeps l : Keeps R (annotateStoreHELPER l).
Proof. unfold annotateStoreHELPER. keeps. Qed.
Lemma annotateStoreHELPER_kept l d w d' : annotateStoreHELPER l d = Ret (w, d') -> kept l w.
Proof.
  unfold annotateStoreHELPER. destruct (_ || _ || _ || _); [by intros [= <- _]|]. unfold mbind, M_bind.
  destruct (onGraph _ d) as [[p d1]| |]; [|done..]. destruct (onGraph _ d1) as [[[m|] d2]| |]; [|by intros [= <- _]|done..].
  destruct (_ && _); [by intros [= <- _]|]. cbv zeta. destruct (alterLabel _ _ d2) as [[[] d3]| |]; [|done..].
  intros [= <- _]. kept_setter.
Qed.
Lemma unblockWaitingHelping_keeps : Keeps R unblockWaitingHelping.
Proof.
  unfold unblockWaitingHelping. apply keeps_bind; [keeps|]. intros ts. apply keeps_forM. intros i.
  apply keeps_onGraph_at. intros d x xs l [] d' E Hg El. destruct (Isa.HelpedCASBlockLabel (kind l)) eqn:Ek;
    [|by intros [= <-]]. intros (g & Eg & ->)%(inGraph_at _ _ _ _ _ E). apply graph_step; [done|]. intros Ht.
  refine (typed_removeLast _ _ _ (Hg Ht) _ Eg). intros Hi. apply (typed_label _ _ _ (Hg Ht)) in El as [Hp Hl].
  rewrite (pl_init l Hl) in Ek by congruence. done.
Qed.
Hint Resolve unblockWaitingHelping_keeps : keeps.
Lemma after_store_keeps pos : Keeps R (after_store pos).
Proof. unfold after_store. keeps. Qed.
Hint Resolve annotateStoreHELPER_keeps after_store_keeps : keeps.
Lemma handleStore_keeps l : (tracks -> ok l) -> Keeps R (handleStore l).
Proof.
  intros Hl. unfold handleStore. cbv zeta. apply keeps_bind_driven; [keeps|keeps|]. intros Hp. cbv iota.
  apply keeps_bind; [keeps|]. intros _. apply (keeps_bind_fact ok); [keeps| |].
  { intros Ht d a d' _ E%annotateStoreHELPER_kept. by apply (ok_kept l), Hl. }
  intros l1 H1. apply (keeps_bind_fact ok); [keeps| |].
  { intros Ht d a d' _. destruct (_ && _); [|intros [= <- _]; by apply H1].
    unfold mbind, M_bind. destruct (getBarrierInitValue _ d) as [[x d1]| |]; [|done..]. intros [= <- _].
    apply (ok_kept l1); [kept_setter|by apply H1]. }
  intros l2 H2. apply keeps_bind; [keeps|]. intros _. apply keeps_bind_label. intros ? _.
  apply ok_then_keeps; [keeps|]. apply ok_then_keeps; keeps.
Qed.
Lemma getFreshAddr_keeps l : Keeps R (getFreshAddr l).
Proof. unfold getFreshAddr. keeps. Qed.
Lemma getFreshFd_keeps : Keeps R getFreshFd.
Proof. unfold getFreshFd, markFdAsUsed. keeps. Qed.
Hint Resolve getFreshAddr_keeps getFreshFd_keeps : keeps.
Lemma handleMalloc_keeps l : (tracks -> ok l) -> Keeps R (handleMalloc l).
Proof.
  intros Hl. unfold handleMalloc. cbv zeta. apply keeps_bind_driven; [keeps|keeps|]. intros Hp. cbv iota.
  apply (keeps_bind_fact ok); [keeps| |keeps]. intros Ht d a d' _. destruct (_ =? 0); [|intros [= <- _]; by apply Hl].
  unfold mbind, M_bind. destruct (getFreshAddr l d) as [[x d1]| |]; [|done..]. intros [= <- _].
  apply (ok_kept l); [kept_setter|by apply Hl].
Qed.
Lemma handleFree_keeps l : (tracks -> ok l) -> Keeps R (handleFree l).
Proof. intros Hl. unfold handleFree. keeps. Qed.
Lemma handleDskRead_keeps l : (tracks -> ok l) -> Keeps R (handleDskRead l).
Proof. intros Hl. unfold handleDskRead. keeps. Qed.
Lemma handleDskWrite_keeps l : (tracks -> ok l) -> Keeps R (handleDskWrite l).
Proof. intros Hl. unfold handleDskWrite. keeps. Qed.
Lemma handleDskOpen_keeps l : (tracks -> ok l) -> Keeps R (handleDskOpen l).
Proof. intros Hl. unfold handleDskOpen. keeps. Qed.
Lemma handleHelpingCas_keeps l : (tracks -> ok l) -> Keeps R (handleHelpingCas l).
Proof. intros Hl. unfold handleHelpingCas. keeps. Qed.
Lemma handleOptional_keeps l : (tracks -> ok l) -> Keeps R (handleOptional l).
Proof. intros Hl. unfold handleOptional. keeps. Qed.
Lemma void_keeps {A} (m : M A) : Keeps R m -> Keeps R (void m).
Proof. intros Hm. unfold void. keeps. Qed.
End Handlers.
#[export] Hint Resolve add_new_keeps handleThreadKill_keeps handleFence_keeps handleBlock_keeps handleThreadCreate_keeps
  handleThreadJoin_keeps handleThreadFinish_keeps handleSpinStart_keeps handleFaiZNESpinEnd_keeps
  handleLockZNESpinEnd_keeps handleLoad_keeps handleStore_keeps handleMalloc_keeps handleFree_keeps
  handleDskRead_keeps handleDskWrite_keeps handleDskOpen_keeps handleHelpingCas_keeps handleOptional_keeps
  void_keeps : keeps.

(** ** The exploration *)

Section Explore.
Context `{P : Program} `{C : Config} `{MM : MemoryModel} {R : Driver -> Driver -> Prop} `{WR : !WorkFraming R}.

Lemma override_keeps c h l : (tracks -> ok l) -> override c = Some h -> Keeps R (h l).
Proof.
  intros Hl. destruct c; intros [= <-];
    unfold handleCLFlush, handleHpProtect, handleDskFsync, handleDskSync, handleDskPbarrier, handleLoopBegin; keeps.
Qed.
Lemma resolve_keeps n c h l : (tracks -> ok l) -> resolve n c = Some h -> Keeps R (h l).
Proof.
  intros Hl. revert c. induction n as [|n IH]; intros c; cbn; destruct (override c) eqn:E; try done.
  - intros [= <-]. by eapply override_keeps.
  - intros [= <-]. by eapply override_keeps.
  - destruct (LabelVisitor.delegate c); [apply IH|done].
Qed.
Lemma dispatch_keeps l : (tracks -> ok l) -> Keeps R (dispatch l).
Proof.
  intros Hl. unfold dispatch. apply keeps_bind; [keeps|]. intros c. destruct (resolve 5 c) eqn:E; [|keeps].
  eapply resolve_keeps, E. intros Ht. by apply ok_clone, Hl.
Qed.
Hint Resolve dispatch_keeps : keeps.
Lemma add_cached_keeps ls : (tracks -> Forall ok ls) -> Keeps R (add_cached ls).
Proof.
  induction ls as [|l ls IH]; cbn; intros Hls; [keeps|].
  assert (tracks -> ok l) by (intros Ht; by apply Hls, Forall_cons in Ht as [? _]).
  assert (tracks -> Forall ok ls) by (intros Ht; by apply Hls, Forall_cons in Ht as [_ ?]). keeps.
Qed.
Lemma tryOptimizeScheduling_keeps pos : Keeps R (tryOptimizeScheduling pos).
Proof.
  unfold tryOptimizeScheduling. apply keeps_bind; [keeps|]. intros est. destruct (_ || _); [keeps|].
  do 2 (apply keeps_bind; [keeps|]; intros ?).
  apply (keeps_bind_fact (fun r => Forall ok (default [] r))); [keeps| |].
  { intros _ d [o|] d' Hs E; [by eapply cached_ok|constructor]. }
  intros [[|l ls]|] Hr; [keeps| |keeps]. destruct (_ <? _); [keeps|].
  apply keeps_bind; [by apply add_cached_keeps|keeps].
Qed.
Hint Resolve tryOptimizeScheduling_keeps : keeps.
Lemma run_step_keeps visitInst : Keeps R visitInst -> Keeps R (run_step visitInst).
Proof. intros Hv. unfold run_step. keeps. Qed.
Lemma handleExecutionStart_keeps : Keeps R handleExecutionStart.
Proof. unfold handleExecutionStart, start_thread. keeps. by apply restart_ids. Qed.
Lemma handleExecutionEnd_keeps : Keeps R handleExecutionEnd.
Proof.
  unfold handleExecutionEnd, updateStSpaceEstimation, shouldStopEstimating, isExecutionBlocked, counted,
    fullExecutionExceedsBound. keeps.
Qed.
Lemma before_run_keeps : Keeps R before_run.
Proof.
  unfold before_run. pose proof handleExecutionStart_keeps. keeps. by apply restart_ids.
Qed.
Lemma before_recovery_keeps : Keeps R before_recovery.
Proof.
  unfold before_recovery, handleRecoveryStart, isExecutionBlocked, setupRecoveryRoutine. keeps.
  { apply inGraph_keeps. intros _ g g' Hg. destruct (_ =? _); intros [= <-]; [by apply typed_addRecovery|done]. }
  apply restart_ids. intros t. by destruct (bool_decide _).
Qed.
Lemma try_option_keeps : Keeps R try_option.
Proof. unfold try_option, resetExplorationOptions. keeps. Qed.
Lemma start_exploration_keeps : Keeps R start_exploration.
Proof. unfold start_exploration, resetExplorationOptions. keeps. Qed.

Lemma Loop_keeps body d d' : Keeps R body -> Loop body d d' -> R d d'.
Proof.
  intros Hb. induction 1 as [d d' E|d d1 d' E _ IH]; [by eapply Hb|].
  transitivity d1; [by eapply Hb|done].
Qed.
Lemma Picks_keeps d b d' : Picks d b d' -> R d d'.
Proof.
  induction 1 as [d d' E|d d' E|d d1 b d' E _ IH]; [by eapply try_option_keeps..|].
  transitivity d1; [by eapply try_option_keeps|done].
Qed.
Context (visitInst : M unit) (Hv : Keeps R visitInst).
Lemma Executes_keeps d d' : Executes visitInst d d' -> R d d'.
Proof.
  intros [d0 d1 d2 d3 d4 E1 L E2 H]. transitivity d1; [by eapply before_run_keeps|].
  transitivity d2; [by eapply Loop_keeps, L; apply run_step_keeps|].
  transitivity d3; [by eapply handleExecutionEnd_keeps|].
  destruct conf_persevere; [|by subst].
  destruct H as (d5 & d6 & E3 & L' & E4). transitivity d5; [by eapply before_recovery_keeps|].
  transitivity d6; [by eapply Loop_keeps, L'; apply run_step_keeps|].
  refine (scheduleThread_keeps 0 _ _ _ E4).
Qed.
Lemma Explores_keeps d d' : Explores visitInst d d' -> R d d'.
Proof.
  induction 1 as [d|d d1 d2 _ He Hp|d d1 d2 d3 _ He Hp _ IH]; [reflexivity| |].
  - transitivity d1; [by eapply Executes_keeps|by eapply Picks_keeps].
  - transitivity d1; [by eapply Executes_keeps|]. transitivity d2; [by eapply Picks_keeps|done].
Qed.
End Explore.
End FramesDriver.
