(* ===== verification/FramesCalls.v ===== *)
(** * The functions the interpreter provides keep every framing relation.

    They reach the driver through its methods only, and change threads without
    changing their identifiers: a program made of them is an interpreter for which
    the guarantees of the exploration hold. *)
From S2P Require Import Prelude Event SVal SAddr VSet SExpr Trie Deps Views Labels LabelClasses Graph Iterators Bounds Revisits Interp RARace RACoherence Execution MemoryModel Driver Checks Symmetry Schedule RfOptions RevisitCalc Revisiting Backtrack Handlers Explore Calls InternalNames Instructions Intrinsics FileSystem FsCalls Frames FramesDriver.
#[local] Open Scope Z_scope.

Module FramesCalls.
Import Drv Checks Handlers Calls Instructions Intrinsics FileSystem FsCalls Frames FramesDriver.

Section Calls.
Context `{P : Program} `{C : Config} `{MM : MemoryModel} `{Mc : !Machine} `{Fs : !FsInfo}.
Context {R : Driver -> Driver -> Prop} `{WR : !WorkFraming R}.

Lemma bump_ids k : keeps_ids (F := Frame) (V := GenericValue) (fun e => r ← Interp.bump k e; Ret (snd r)).
Proof.
  intros e e'. unfold Interp.bump. destruct (Interp.getCurThr e) as [t| |]; cbn; [|done..].
  set (f := Interp.setGlobal _). pose proof (alter_thread_ids f (Interp.currentThread e) ltac:(done) e) as Ha.
  destruct (Interp.alter_thread f _ e) as [e1| |]; cbn; [|done..]. intros [= <-]. by apply Ha.
Qed.
Lemma bump_keeps k : Keeps R (r ← onEE (Interp.bump k); modify (set_EE (snd r));; mret (fst r)).
Proof.
  intros d a d'. unfold onEE, gets, lift, modify, mbind, M_bind, mret, M_ret, outcome_bind.
  destruct (Interp.bump k (EE d)) as [[p e]| |] eqn:E; cbn; [|done..]. intros [= _ <-]. apply frame_EE. cbn.
  refine (bump_ids k _ _ _). unfold mbind, outcome_bind. by rewrite E.
Qed.
Lemma incPos_keeps : Keeps R incPos.
Proof. apply (bump_keeps 1). Qed.
Lemma decPos_keeps : Keeps R decPos.
Proof. apply (bump_keeps (-1)). Qed.
Hint Resolve incPos_keeps decPos_keeps : keeps.

Lemma curThread_keeps : Keeps R curThread.
Proof. unfold curThread. keeps. Qed.
Lemma curPos_keeps : Keeps R curPos.
Proof. unfold curPos. keeps. Qed.
Hint Resolve curThread_keeps curPos_keeps : keeps.
Lemma inCurThread_keeps f : (forall t, Interp.id (f t) = Interp.id t) -> Keeps R (inCurThread f).
Proof. intros Hf. unfold inCurThread. keeps. by apply inEE_keeps, alter_thread_ids. Qed.
Lemma curBlocked_keeps : Keeps R curBlocked.
Proof. unfold curBlocked. keeps. Qed.
Lemma topFrame_keeps : Keeps R topFrame.
Proof. unfold topFrame. keeps. Qed.
Hint Resolve curBlocked_keeps topFrame_keeps : keeps.
Lemma inTopFrame_keeps f : Keeps R (inTopFrame f).
Proof. unfold inTopFrame. keeps. by apply inCurThread_keeps. Qed.
Hint Resolve inTopFrame_keeps : keeps.

Lemma CALL_DRIVER_keeps {A} b (m : Event -> M A) : (forall p, Keeps R (m p)) -> Keeps R (CALL_DRIVER b m).
Proof. intros Hm. unfold CALL_DRIVER. keeps. Qed.
Lemma CALL_DRIVER_RESET_keeps {A} b back (m : Event -> M (option A)) :
  Keeps R back -> (forall p, Keeps R (m p)) -> Keeps R (CALL_DRIVER_RESET_IF_NONE b back m).
Proof. intros Hb Hm. unfold CALL_DRIVER_RESET_IF_NONE. keeps. Qed.
Lemma CALL_DRIVER_FALSE_keeps back (m : Event -> M bool) :
  Keeps R back -> (forall p, Keeps R (m p)) -> Keeps R (CALL_DRIVER_RESET_IF_FALSE back m).
Proof. intros Hb Hm. unfold CALL_DRIVER_RESET_IF_FALSE. keeps. Qed.
Lemma value_keeps {A} (o : option A) : Keeps R (value o).
Proof. unfold value. keeps. Qed.
Lemma back_keeps : Keeps R back.
Proof. unfold back. keeps. Qed.
Hint Resolve value_keeps back_keeps : keeps.
End Calls.

(** The rules of the calls, tried after those of the combinators. *)
Ltac calls :=
  repeat first
    [ progress keeps
    | apply CALL_DRIVER_keeps
    | apply CALL_DRIVER_RESET_keeps
    | apply CALL_DRIVER_FALSE_keeps
    | apply inCurThread_keeps; done ].
#[export] Hint Resolve incPos_keeps decPos_keeps curThread_keeps curPos_keeps curBlocked_keeps topFrame_keeps
  inTopFrame_keeps value_keeps back_keeps : keeps.

(** The instructions' visitors. *)
Section Visitors.
Context `{P : Program} `{C : Config} `{MM : MemoryModel} `{Mc : !Machine} `{Is : !Instructions}.
Context {R : Driver -> Driver -> Prop} `{WR : !WorkFraming R}.
Lemma setTls_keeps tls : Keeps R (setTls tls).
Proof. unfold setTls. calls. Qed.
Lemma setResult_keeps I v : Keeps R (setResult I v).
Proof. unfold setResult. calls. Qed.
Lemma thread_local_keeps ptr : Keeps R (thread_local ptr).
Proof. unfold thread_local. calls. Qed.
Hint Resolve setTls_keeps setResult_keeps thread_local_keeps : keeps.
(** The kinds that the metadata names are kinds of reads and of writes. *)
Lemma getReadKind_read md k : getReadKind md = Ret k -> ReadLabel.classof k = true.
Proof. unfold getReadKind. repeat (case_match; try discriminate); by intros [= <-]. Qed.
Lemma getCasKinds_rw md kR kW :
  getCasKinds md = Ret (kR, kW) -> kR <> EL_HelpingCas -> ReadLabel.classof kR = true /\ WriteLabel.classof kW = true.
Proof. unfold getCasKinds. repeat (case_match; try discriminate); by intros [= <- <-]. Qed.
Lemma getFaiKinds_rw md k : getFaiKinds md = Ret k -> ReadLabel.classof (fst k) = true /\ WriteLabel.classof (snd k) = true.
Proof. unfold getFaiKinds. repeat (case_match; try discriminate); by intros [= <-]. Qed.
Lemma cas_visit_keeps I kR kW a e n :
  ReadLabel.classof kR = true -> WriteLabel.classof kW = true -> Keeps R (cas_visit I kR kW a e n).
Proof. intros HR HW. unfold cas_visit. calls. Qed.
Lemma helping_visit_keeps I a e n : Keeps R (helping_visit I a e n).
Proof. unfold helping_visit. calls. Qed.
Lemma cas_result_keeps I r : Keeps R (cas_result I r).
Proof. unfold cas_result. calls. Qed.
Lemma fai_visit_keeps I kR kW a v :
  ReadLabel.classof kR = true -> WriteLabel.classof kW = true -> Keeps R (fai_visit I kR kW a v).
Proof. intros HR HW. unfold fai_visit. calls. Qed.
Hint Resolve helping_visit_keeps cas_result_keeps : keeps.
Lemma visitLoadInst_keeps I : Keeps R (visitLoadInst I).
Proof.
  unfold visitLoadInst. apply keeps_bind; [calls|]. intros SF. cbv zeta. apply keeps_bind; [calls|]. intros [[tls v]|]; [calls|].
  apply keeps_bind_lift. intros k Hk%getReadKind_read. calls.
Qed.
Lemma visitStoreInst_keeps I : Keeps R (visitStoreInst I).
Proof. unfold visitStoreInst. calls. Qed.
Lemma visitFenceInst_keeps I : Keeps R (visitFenceInst I).
Proof. unfold visitFenceInst. calls. Qed.
Lemma visitAtomicCmpXchgInst_keeps I : Keeps R (visitAtomicCmpXchgInst I).
Proof.
  unfold visitAtomicCmpXchgInst. apply keeps_bind; [calls|]. intros SF. cbv zeta. apply keeps_bind; [calls|].
  intros [[tls v]|]; [calls|]. apply keeps_bind_lift. intros [kR kW] Hk.
  apply keeps_bind; [|calls]. destruct (bool_decide_reflect (kR = EL_HelpingCas)) as [|Hne]; [calls|].
  destruct (getCasKinds_rw _ _ _ Hk Hne). by apply cas_visit_keeps.
Qed.
Lemma visitAtomicRMWInst_keeps I : Keeps R (visitAtomicRMWInst I).
Proof.
  unfold visitAtomicRMWInst. apply keeps_bind; [calls|]. intros SF. cbv zeta. apply keeps_bind; [calls|]. intros _.
  apply keeps_bind; [calls|]. intros [[tls v]|]; [calls|]. apply keeps_bind_lift. intros k [HR HW]%getFaiKinds_rw.
  by apply fai_visit_keeps.
Qed.
End Visitors.
#[export] Hint Resolve visitLoadInst_keeps visitStoreInst_keeps visitFenceInst_keeps visitAtomicCmpXchgInst_keeps
  visitAtomicRMWInst_keeps : keeps.

Section Added.
Context `{P : Program} `{C : Config} `{MM : MemoryModel} {R : Driver -> Driver -> Prop} `{WR : !WorkFraming R}.
Lemma adding_keeps (h : Label -> M unit) l : h = add_new -> (tracks -> ok l) -> Keeps R (h l).
Proof. intros ->. apply add_new_keeps. Qed.
Lemma handleDskFsync_keeps l : (tracks -> ok l) -> Keeps R (handleDskFsync l).
Proof. by apply adding_keeps. Qed.
Lemma handleDskSync_keeps l : (tracks -> ok l) -> Keeps R (handleDskSync l).
Proof. by apply adding_keeps. Qed.
Lemma handleDskPbarrier_keeps l : (tracks -> ok l) -> Keeps R (handleDskPbarrier l).
Proof. by apply adding_keeps. Qed.
Lemma handleLoopBegin_keeps l : (tracks -> ok l) -> Keeps R (handleLoopBegin l).
Proof. by apply adding_keeps. Qed.
Lemma handleHpProtect_keeps l : (tracks -> ok l) -> Keeps R (handleHpProtect l).
Proof. by apply adding_keeps. Qed.
Lemma handleRCULockLKMM_keeps l : (tracks -> ok l) -> Keeps R (handleRCULockLKMM l).
Proof. by apply adding_keeps. Qed.
Lemma handleRCUUnlockLKMM_keeps l : (tracks -> ok l) -> Keeps R (handleRCUUnlockLKMM l).
Proof. by apply adding_keeps. Qed.
Lemma handleRCUSyncLKMM_keeps l : (tracks -> ok l) -> Keeps R (handleRCUSyncLKMM l).
Proof. by apply adding_keeps. Qed.
Lemma handleCLFlush_keeps l : (tracks -> ok l) -> Keeps R (handleCLFlush l).
Proof. by apply adding_keeps. Qed.
End Added.
#[export] Hint Resolve handleDskFsync_keeps handleDskSync_keeps handleDskPbarrier_keeps handleLoopBegin_keeps
  handleHpProtect_keeps handleRCULockLKMM_keeps handleRCUUnlockLKMM_keeps handleRCUSyncLKMM_keeps
  handleCLFlush_keeps : keeps.

Section Provided.
Context `{P : Program} `{C : Config} `{MM : MemoryModel} `{Mc : !Machine} `{Fs : !FsInfo}.
Context {R : Driver -> Driver -> Prop} `{WR : !WorkFraming R}.

Lemma getStaticString_keeps a : Keeps R (getStaticString a).
Proof. unfold getStaticString. keeps. Qed.
Lemma returnValueToCaller_keeps t r : Keeps R (returnValueToCaller t r).
Proof. unfold returnValueToCaller. keeps. Qed.
Lemma takeSnapshot_keeps : Keeps R takeSnapshot.
Proof. unfold takeSnapshot. calls. Qed.
Lemma rollToSnapshot_keeps : Keeps R rollToSnapshot.
Proof. unfold rollToSnapshot. calls. Qed.
Lemma blockCurrent_keeps b : Keeps R (blockCurrent b).
Proof. unfold blockCurrent. calls. Qed.
Lemma report_here_keeps e : e <> VE_OK -> Keeps R (report_here e).
Proof. intros He. unfold report_here. calls. Qed.
Hint Resolve getStaticString_keeps returnValueToCaller_keeps takeSnapshot_keeps rollToSnapshot_keeps
  blockCurrent_keeps report_here_keeps : keeps.
Lemma freeAllocas_keeps l : Keeps R (freeAllocas l).
Proof. unfold freeAllocas. calls. Qed.
Lemma handleSystemError_keeps e : Keeps R (handleSystemError e).
Proof. unfold handleSystemError. calls; by apply report_here_keeps. Qed.
Lemma handleLock_keeps a s : Keeps R (handleLock a s).
Proof. unfold handleLock. calls. Qed.
Lemma handleUnlock_keeps a s : Keeps R (handleUnlock a s).
Proof. unfold handleUnlock. calls. Qed.
Hint Resolve freeAllocas_keeps handleSystemError_keeps handleLock_keeps handleUnlock_keeps : keeps.

(** *** Loops, memory, threads and locks *)

Context (F : Func) (args : list GenericValue).
Lemma arg_keeps i : Keeps R (arg args i).
Proof. unfold arg. keeps. Qed.
Lemma return_int_keeps v : Keeps R (return_int F v).
Proof. unfold return_int. keeps. Qed.
Lemma return_sval_keeps v : Keeps R (return_sval F v).
Proof. unfold return_sval. keeps. Qed.
Lemma return_pointer_keeps v : Keeps R (return_pointer F v).
Proof. unfold return_pointer. keeps. Qed.
Lemma malloc_keeps s a t sp n : Keeps R (malloc s a t sp n).
Proof. unfold malloc. calls. Qed.
Lemma storeNA_keeps a s t v : Keeps R (storeNA a s t v).
Proof. unfold storeNA. calls. Qed.
Lemma free_keeps p : Keeps R (free p).
Proof. unfold free. calls. Qed.
Lemma loadByte_keeps a : Keeps R (loadByte a).
Proof. unfold loadByte. calls. Qed.
Lemma storeByte_keeps a v : Keeps R (storeByte a v).
Proof. apply storeNA_keeps. Qed.
Lemma pop_frame_keeps : Keeps R pop_frame.
Proof. unfold pop_frame. calls. Qed.
Hint Resolve arg_keeps return_int_keeps return_sval_keeps return_pointer_keeps malloc_keeps storeNA_keeps free_keeps
  loadByte_keeps storeByte_keeps pop_frame_keeps : keeps.
Lemma pop_frames_keeps n : Keeps R (pop_frames n).
Proof. induction n as [|n IH]; cbn; keeps. Qed.
Lemma copy_bytes_keeps d s idx : Keeps R (copy_bytes d s idx).
Proof. induction idx as [|i idx IH]; cbn; keeps. Qed.
Lemma read_bytes_keeps s idx : Keeps R (read_bytes s idx).
Proof. induction idx as [|i idx IH]; cbn; keeps. Qed.
Hint Resolve pop_frames_keeps copy_bytes_keeps read_bytes_keeps : keeps.
Lemma popStack_keeps atExit t r : Keeps R atExit -> Keeps R (popStackAndReturnValueToCaller atExit t r).
Proof. intros Hx. unfold popStackAndReturnValueToCaller. calls. Qed.
Lemma addAtExitHandler_keeps f : Keeps R (addAtExitHandler f).
Proof. apply inEE_keeps. by intros e e' [= <-] He. Qed.
Hint Resolve addAtExitHandler_keeps : keeps.
Lemma setFdToFile_keeps fd f : Keeps R (setFdToFile fd f).
Proof.
  apply inEE_keeps. intros e e'. destruct (set_fd _ _ _) as [fds| |]; cbn; [|done..]. by intros [= <-] He.
Qed.
Lemma getFileFromFd_keeps fd : Keeps R (getFileFromFd fd).
Proof. unfold getFileFromFd. keeps. Qed.
Hint Resolve setFdToFile_keeps getFileFromFd_keeps : keeps.

(** *** The file system *)

Lemma load_keeps o a s t : Keeps R (load o a s t).
Proof. unfold load. calls. Qed.
Lemma store_keeps o a s t v : Keeps R (store o a s t v).
Proof. unfold store. calls. Qed.
Lemma readDisk_keeps a s t : Keeps R (readDisk a s t).
Proof. unfold readDisk. calls. Qed.
Hint Resolve load_keeps store_keeps readDisk_keeps : keeps.
Lemma getInodeTransStatus_keeps (t : Typ) i : Keeps R (getInodeTransStatus t i).
Proof. unfold getInodeTransStatus. calls. Qed.
Hint Resolve getInodeTransStatus_keeps : keeps.
Lemma setInodeTransStatus_keeps (t : Typ) i v : Keeps R (setInodeTransStatus t i v).
Proof. unfold setInodeTransStatus. calls. Qed.
Hint Resolve setInodeTransStatus_keeps : keeps.
Lemma readInodeSizeFS_keeps (t : Typ) i : Keeps R (readInodeSizeFS t i).
Proof. unfold readInodeSizeFS. calls. Qed.
Hint Resolve readInodeSizeFS_keeps : keeps.
Lemma updateInodeSizeFS_keeps (t : Typ) i v : Keeps R (updateInodeSizeFS t i v).
Proof. unfold updateInodeSizeFS. calls. Qed.
Hint Resolve updateInodeSizeFS_keeps : keeps.
Lemma executeFsyncFS_keeps i : Keeps R (executeFsyncFS i).
Proof. unfold executeFsyncFS. calls. Qed.
Hint Resolve executeFsyncFS_keeps : keeps.
Lemma updateInodeDisksizeFS_keeps (t : Typ) i v b e : Keeps R (updateInodeDisksizeFS t i v b e).
Proof. unfold updateInodeDisksizeFS. calls. Qed.
Hint Resolve updateInodeDisksizeFS_keeps : keeps.
Lemma writeDataToDisk_keeps b o i io c (t : Typ) : Keeps R (writeDataToDisk b o i io c t).
Proof. unfold writeDataToDisk. calls. Qed.
Hint Resolve writeDataToDisk_keeps : keeps.
Lemma readDataFromDisk_keeps i io b o c (t : Typ) : Keeps R (readDataFromDisk i io b o c t).
Proof. unfold readDataFromDisk. calls. Qed.
Hint Resolve readDataFromDisk_keeps : keeps.
Lemma zeroDskRangeFS_keeps i a b (t : Typ) : Keeps R (zeroDskRangeFS i a b t).
Proof. unfold zeroDskRangeFS. calls. Qed.
Hint Resolve zeroDskRangeFS_keeps : keeps.
Lemma updateDirNameInode_keeps (t : Typ) n i : Keeps R (updateDirNameInode t n i).
Proof. unfold updateDirNameInode. calls. Qed.
Hint Resolve updateDirNameInode_keeps : keeps.
Lemma checkOpenFlagsFS_keeps f : Keeps R (checkOpenFlagsFS f).
Proof. unfold checkOpenFlagsFS. calls. Qed.
Hint Resolve checkOpenFlagsFS_keeps : keeps.
Lemma block_consistency_keeps : Keeps R (block_consistency).
Proof. unfold block_consistency. calls. Qed.
Hint Resolve block_consistency_keeps : keeps.
Lemma executeInodeLookupFS_keeps (t : Typ) n : Keeps R (executeInodeLookupFS t n).
Proof. unfold executeInodeLookupFS. calls. Qed.
Hint Resolve executeInodeLookupFS_keeps : keeps.
Lemma executeInodeCreateFS_keeps (t : Typ) n : Keeps R (executeInodeCreateFS t n).
Proof. unfold executeInodeCreateFS. calls. Qed.
Hint Resolve executeInodeCreateFS_keeps : keeps.
Lemma locking_keeps {A} (t : Typ) l (m : M A) : Keeps R m -> Keeps R (locking t l m).
Proof. intros Hm. unfold locking. calls. Qed.
Lemma executeLookupOpenFS_keeps (t : Typ) f fl : Keeps R (executeLookupOpenFS t f fl).
Proof. unfold executeLookupOpenFS. calls; apply locking_keeps; calls. Qed.
Hint Resolve executeLookupOpenFS_keeps : keeps.
Lemma executeOpenFS_keeps (t : Typ) f fl i : Keeps R (executeOpenFS t f fl i).
Proof. unfold executeOpenFS. calls. Qed.
Hint Resolve executeOpenFS_keeps : keeps.
Lemma truncate_to_keeps (t : Typ) i l : Keeps R (truncate_to t i l).
Proof. unfold truncate_to. calls. Qed.
Hint Resolve truncate_to_keeps : keeps.
Lemma executeTruncateFS_keeps (t : Typ) i l : Keeps R (executeTruncateFS t i l).
Proof. unfold executeTruncateFS. calls; apply locking_keeps; calls. Qed.
Hint Resolve executeTruncateFS_keeps : keeps.
Lemma executeReleaseFileFS_keeps f : Keeps R (executeReleaseFileFS f).
Proof. unfold executeReleaseFileFS. calls. Qed.
Hint Resolve executeReleaseFileFS_keeps : keeps.
Lemma executeCloseFS_keeps (t : Typ) f : Keeps R (executeCloseFS t f).
Proof. unfold executeCloseFS. calls. Qed.
Hint Resolve executeCloseFS_keeps : keeps.
Lemma executeLinkFS_keeps (t : Typ) n i : Keeps R (executeLinkFS t n i).
Proof. unfold executeLinkFS. calls. Qed.
Hint Resolve executeLinkFS_keeps : keeps.
Lemma executeUnlinkFS_keeps (t : Typ) n : Keeps R (executeUnlinkFS t n).
Proof. unfold executeUnlinkFS. calls. Qed.
Hint Resolve executeUnlinkFS_keeps : keeps.
Lemma executeRenameFS_keeps (t : Typ) o i n j : Keeps R (executeRenameFS t o i n j).
Proof. unfold executeRenameFS. calls. Qed.
Hint Resolve executeRenameFS_keeps : keeps.
Lemma executeReadFS_keeps (t : Typ) f b (bt : Typ) o c : Keeps R (executeReadFS t f b bt o c).
Proof. unfold executeReadFS. calls. Qed.
Hint Resolve executeReadFS_keeps : keeps.
Lemma executeWriteChecksFS_keeps (t : Typ) i f o c : Keeps R (executeWriteChecksFS t i f o c).
Proof. unfold executeWriteChecksFS. calls. Qed.
Hint Resolve executeWriteChecksFS_keeps : keeps.
Lemma write_piece_keeps (t : Typ) i b (bt : Typ) o p : Keeps R (write_piece t i b bt o p).
Proof. unfold write_piece. calls. Qed.
Hint Resolve write_piece_keeps : keeps.
Lemma executeBufferedWriteFS_keeps (t : Typ) i b (bt : Typ) o c : Keeps R (executeBufferedWriteFS t i b bt o c).
Proof. unfold executeBufferedWriteFS. calls. Qed.
Hint Resolve executeBufferedWriteFS_keeps : keeps.
Lemma executeWriteFS_keeps (t : Typ) f b (bt : Typ) o c : Keeps R (executeWriteFS t f b bt o c).
Proof. unfold executeWriteFS. calls; apply locking_keeps; calls. Qed.
Hint Resolve executeWriteFS_keeps : keeps.
Lemma executeLseekFS_keeps (t : Typ) f o w : Keeps R (executeLseekFS t f o w).
Proof. unfold executeLseekFS. calls. Qed.
Hint Resolve executeLseekFS_keeps : keeps.

(** *** The calls *)

Lemma callLoopBegin_keeps : Keeps R callLoopBegin.
Proof. unfold callLoopBegin. calls. Qed.
Lemma callSpinStart_keeps : Keeps R callSpinStart.
Proof. unfold callSpinStart. calls. Qed.
Lemma callFaiZNESpinEnd_keeps : Keeps R callFaiZNESpinEnd.
Proof. unfold callFaiZNESpinEnd. calls. Qed.
Lemma callLockZNESpinEnd_keeps : Keeps R callLockZNESpinEnd.
Proof. unfold callLockZNESpinEnd. calls. Qed.
Lemma callNondetInt_keeps : Keeps R callNondetInt.
Proof. unfold callNondetInt. calls. Qed.
Lemma callRCUReadLockLKMM_keeps : Keeps R callRCUReadLockLKMM.
Proof. unfold callRCUReadLockLKMM. calls. Qed.
Lemma callRCUReadUnlockLKMM_keeps : Keeps R callRCUReadUnlockLKMM.
Proof. unfold callRCUReadUnlockLKMM. calls. Qed.
Lemma callSynchronizeRCULKMM_keeps : Keeps R callSynchronizeRCULKMM.
Proof. unfold callSynchronizeRCULKMM. calls. Qed.
Lemma callOptBegin_keeps : Keeps R (callOptBegin F).
Proof. unfold callOptBegin. calls. Qed.
Lemma callThreadSelf_keeps : Keeps R (callThreadSelf F).
Proof. unfold callThreadSelf. calls. Qed.
Lemma callHazptrAlloc_keeps : Keeps R (callHazptrAlloc F).
Proof. unfold callHazptrAlloc. calls. Qed.
Lemma callAssertFail_keeps : Keeps R (callAssertFail args).
Proof. unfold callAssertFail. calls; apply report_here_keeps; by case_match. Qed.
Lemma callSpinEnd_keeps : Keeps R (callSpinEnd args).
Proof. unfold callSpinEnd. calls; by apply report_here_keeps. Qed.
Lemma callKillThread_keeps : Keeps R (callKillThread args).
Proof. unfold callKillThread. calls; by apply report_here_keeps. Qed.
Lemma callAssume_keeps : Keeps R (callAssume args).
Proof. unfold callAssume. calls; by apply report_here_keeps. Qed.
Lemma callFree_keeps : Keeps R (callFree args).
Proof. unfold callFree. calls; by apply report_here_keeps. Qed.
Lemma callHazptrProtect_keeps : Keeps R (callHazptrProtect args).
Proof. unfold callHazptrProtect. calls; by apply report_here_keeps. Qed.
Lemma callHazptrClear_keeps : Keeps R (callHazptrClear args).
Proof. unfold callHazptrClear. calls; by apply report_here_keeps. Qed.
Lemma callHazptrFree_keeps : Keeps R (callHazptrFree args).
Proof. unfold callHazptrFree. calls; by apply report_here_keeps. Qed.
Lemma callHazptrRetire_keeps : Keeps R (callHazptrRetire args).
Proof. unfold callHazptrRetire. calls; by apply report_here_keeps. Qed.
Lemma callSmpFenceLKMM_keeps : Keeps R (callSmpFenceLKMM args).
Proof. unfold callSmpFenceLKMM. calls; by apply report_here_keeps. Qed.
Lemma callCLFlush_keeps : Keeps R (callCLFlush args).
Proof. unfold callCLFlush. calls; by apply report_here_keeps. Qed.
Lemma callMalloc_keeps : Keeps R (callMalloc F args).
Proof. unfold callMalloc. calls; by apply report_here_keeps. Qed.
Lemma callMallocAligned_keeps : Keeps R (callMallocAligned F args).
Proof. unfold callMallocAligned. calls; by apply report_here_keeps. Qed.
Lemma callMallocZero_keeps : Keeps R (callMallocZero F args).
Proof. unfold callMallocZero. calls; by apply report_here_keeps. Qed.
Lemma callPMalloc_keeps : Keeps R (callPMalloc F args).
Proof. unfold callPMalloc. calls; by apply report_here_keeps. Qed.
Lemma callThreadCreate_keeps : Keeps R (callThreadCreate F args).
Proof. unfold callThreadCreate. calls; by apply report_here_keeps. Qed.
Lemma callThreadJoin_keeps : Keeps R (callThreadJoin F args).
Proof. unfold callThreadJoin. calls; by apply report_here_keeps. Qed.
Lemma callAtExit_keeps : Keeps R (callAtExit F args).
Proof. unfold callAtExit. calls; by apply report_here_keeps. Qed.
Lemma callMutexInit_keeps : Keeps R (callMutexInit F args).
Proof. unfold callMutexInit. calls; by apply report_here_keeps. Qed.
Lemma callMutexLock_keeps : Keeps R (callMutexLock F args).
Proof. unfold callMutexLock. calls; by apply report_here_keeps. Qed.
Lemma callMutexUnlock_keeps : Keeps R (callMutexUnlock F args).
Proof. unfold callMutexUnlock. calls; by apply report_here_keeps. Qed.
Lemma callMutexTrylock_keeps : Keeps R (callMutexTrylock F args).
Proof. unfold callMutexTrylock. calls; by apply report_here_keeps. Qed.
Lemma callMutexDestroy_keeps : Keeps R (callMutexDestroy F args).
Proof. unfold callMutexDestroy. calls; by apply report_here_keeps. Qed.
Lemma callBarrierInit_keeps : Keeps R (callBarrierInit F args).
Proof. unfold callBarrierInit. calls; by apply report_here_keeps. Qed.
Lemma callBarrierWait_keeps : Keeps R (callBarrierWait F args).
Proof. unfold callBarrierWait. calls; by apply report_here_keeps. Qed.
Lemma callBarrierDestroy_keeps : Keeps R (callBarrierDestroy F args).
Proof. unfold callBarrierDestroy. calls; by apply report_here_keeps. Qed.
Lemma callMemcpy_keeps : Keeps R (callMemcpy F args).
Proof. unfold callMemcpy. calls; by apply report_here_keeps. Qed.
Lemma callMemmove_keeps : Keeps R (callMemmove F args).
Proof. unfold callMemmove. calls; by apply report_here_keeps. Qed.
Lemma callMemset_keeps : Keeps R (callMemset F args).
Proof. unfold callMemset. calls; by apply report_here_keeps. Qed.
Lemma callThreadExit_keeps atExit : Keeps R atExit -> Keeps R (callThreadExit F args atExit).
Proof. intros Hx. unfold callThreadExit. calls. by apply popStack_keeps. Qed.
Lemma path_keeps i : Keeps R (path args i).
Proof. unfold path. keeps. Qed.
Lemma lookup_or_block_keeps n : Keeps R (lookup_or_block F n).
Proof. unfold lookup_or_block. keeps. Qed.
Lemma failing_keeps e : Keeps R (failing F e).
Proof. unfold failing. keeps. Qed.
Lemma answer_keeps v : Keeps R (answer F v).
Proof. unfold answer. keeps. Qed.
Hint Resolve path_keeps lookup_or_block_keeps failing_keeps answer_keeps : keeps.
Lemma in_directory_keeps m : Keeps R m -> Keeps R (in_directory F m).
Proof. intros Hm. unfold in_directory. calls; apply locking_keeps; calls. Qed.
Lemma open_file_keeps n f : Keeps R (open_file F n f).
Proof. unfold open_file. calls; by apply report_here_keeps. Qed.
Hint Resolve open_file_keeps : keeps.
Lemma unlock_file_keeps f : Keeps R (unlock_file F f).
Proof. unfold unlock_file. keeps. Qed.
Lemma move_offset_keeps f o n : Keeps R (move_offset F f o n).
Proof. unfold move_offset. keeps. Qed.
Lemma with_file_keeps fd bad body : Keeps R bad -> (forall f, Keeps R (body f)) -> Keeps R (with_file fd bad body).
Proof. intros Hb Hf. unfold with_file. keeps. Qed.
Hint Resolve unlock_file_keeps move_offset_keeps : keeps.
Ltac provided :=
  repeat first [ progress calls | apply in_directory_keeps | apply with_file_keeps | apply locking_keeps
               | apply report_here_keeps; done ].
Lemma callOpenFS_keeps : Keeps R (callOpenFS F args).
Proof. unfold callOpenFS. provided. Qed.
Lemma callCreatFS_keeps : Keeps R (callCreatFS F args).
Proof. unfold callCreatFS. provided. Qed.
Lemma callCloseFS_keeps : Keeps R (callCloseFS F args).
Proof. unfold callCloseFS. provided. Qed.
Lemma callLinkFS_keeps : Keeps R (callLinkFS F args).
Proof. unfold callLinkFS. provided. Qed.
Lemma callUnlinkFS_keeps : Keeps R (callUnlinkFS F args).
Proof. unfold callUnlinkFS. provided. Qed.
Lemma callRenameFS_keeps : Keeps R (callRenameFS F args).
Proof. unfold callRenameFS. provided. Qed.
Lemma callTruncateFS_keeps : Keeps R (callTruncateFS F args).
Proof. unfold callTruncateFS. provided. Qed.
Lemma callFsyncFS_keeps : Keeps R (callFsyncFS F args).
Proof. unfold callFsyncFS. provided. Qed.
Lemma callReadFS_keeps : Keeps R (callReadFS F args).
Proof. unfold callReadFS. provided. Qed.
Lemma callWriteFS_keeps : Keeps R (callWriteFS F args).
Proof. unfold callWriteFS. provided. Qed.
Lemma callPreadFS_keeps : Keeps R (callPreadFS F args).
Proof. unfold callPreadFS. provided. Qed.
Lemma callPwriteFS_keeps : Keeps R (callPwriteFS F args).
Proof. unfold callPwriteFS. provided. Qed.
Lemma callLseekFS_keeps : Keeps R (callLseekFS F args).
Proof. unfold callLseekFS. provided. Qed.
Lemma callSyncFS_keeps : Keeps R callSyncFS.
Proof. unfold callSyncFS. calls. Qed.
Lemma callPersBarrierFS_keeps : Keeps R callPersBarrierFS.
Proof. unfold callPersBarrierFS. calls. Qed.
Hint Resolve
  callLoopBegin_keeps callSpinStart_keeps callFaiZNESpinEnd_keeps callLockZNESpinEnd_keeps callNondetInt_keeps
  callRCUReadLockLKMM_keeps callRCUReadUnlockLKMM_keeps callSynchronizeRCULKMM_keeps callOptBegin_keeps
  callThreadSelf_keeps callHazptrAlloc_keeps callSyncFS_keeps callPersBarrierFS_keeps callOpenFS_keeps
  callCreatFS_keeps callCloseFS_keeps callLinkFS_keeps callUnlinkFS_keeps callRenameFS_keeps
  callTruncateFS_keeps callFsyncFS_keeps callReadFS_keeps callWriteFS_keeps callPreadFS_keeps
  callPwriteFS_keeps callLseekFS_keeps callThreadExit_keeps callAssertFail_keeps callSpinEnd_keeps
  callKillThread_keeps callAssume_keeps callFree_keeps callHazptrProtect_keeps callHazptrClear_keeps
  callHazptrFree_keeps callHazptrRetire_keeps callSmpFenceLKMM_keeps callCLFlush_keeps callMalloc_keeps
  callMallocAligned_keeps callMallocZero_keeps callPMalloc_keeps callThreadCreate_keeps callThreadJoin_keeps
  callAtExit_keeps callMutexInit_keeps callMutexLock_keeps callMutexUnlock_keeps callMutexTrylock_keeps
  callMutexDestroy_keeps callBarrierInit_keeps callBarrierWait_keeps callBarrierDestroy_keeps callMemcpy_keeps
  callMemmove_keeps callMemset_keeps : keeps.
Lemma call_function_keeps atExit f : Keeps R atExit -> Keeps R (call_function F args atExit f).
Proof. intros Hx. destruct f; cbn [call_function]; try apply callThreadCreate_keeps; keeps. Qed.
Hint Resolve call_function_keeps : keeps.
Lemma isInvalidRecCall_keeps f : Keeps R (isInvalidRecCall args f).
Proof. unfold isInvalidRecCall. keeps. Qed.
Hint Resolve isInvalidRecCall_keeps : keeps.
Lemma callInternalFunction_keeps atExit : Keeps R atExit -> Keeps R (callInternalFunction F args atExit).
Proof. intros Hx. unfold callInternalFunction. keeps. Qed.
Lemma callProvided_keeps atExit : Keeps R atExit -> Keeps R (callProvided F args atExit).
Proof. intros Hx. unfold callProvided. keeps; by apply callInternalFunction_keeps. Qed.
End Provided.
#[export] Hint Resolve callProvided_keeps popStack_keeps : keeps.
End FramesCalls.
