(* ===== verification/ScheduleFacts.v ===== *)
(** * Scheduling: what the next step of an execution is, and that an execution ends
    only when there is none. *)
From S2P Require Import Prelude Event SVal SAddr VSet SExpr Trie Deps Views Labels LabelClasses Graph Iterators Bounds Revisits Interp RARace RACoherence Execution MemoryModel Driver Checks Symmetry Schedule Handlers Explore Frames FramesDriver Programs.
#[local] Open Scope Z_scope.

Module ScheduleFacts.
Import ExecutionGraph GraphIterators EdgeLabels Drv Checks Schedule Frames FramesDriver.

Section Facts.
Context `{P : Program} `{C : Config} `{MM : MemoryModel}.

(** A method that only reads leaves the driver alone. *)
Lemma reads_only {A} (m : M A) d a d' : Keeps eq m -> m d = Ret (a, d') -> d' = d.
Proof. intros Hm E. symmetry. by eapply Hm. Qed.

(** [schedule_first] answers false only when no thread of the list satisfies the
    condition. *)
Lemma schedule_first_none cond pick ts d d' :
  (forall i, Keeps eq (cond i)) -> schedule_first cond pick ts d = Ret (false, d') ->
  d' = d /\ forall i, i ∈ ts -> cond i d = Ret (false, d).
Proof.
  intros Hc. induction ts as [|i ts IH]; cbn.
  - intros [= <-]. split; [done|]. intros i Hi. by apply elem_of_nil in Hi.
  - unfold mbind at 1, M_bind at 1. destruct (cond i d) as [[[] d1]| |] eqn:E; [| |done..].
    + unfold mbind, M_bind. destruct (pick i d1) as [[t d2]| |]; [|done..].
      by destruct (scheduleThread t d2) as [[[] d3]| |].
    + apply reads_only in E as Hd; [|done]. subst d1. intros E'.
      destruct (IH E') as [-> H]. split; [done|]. intros j [->|Hj]%elem_of_cons; [done|by apply H].
Qed.
Lemma all_tids_ret d ts d' : all_tids d = Ret (ts, d') ->
  d' = d /\ exists x xs, execStack d = x :: xs /\ ts = seqZ 0 (getNumThreads (graph x)).
Proof.
  unfold all_tids, getGraph, getExecution, mbind, M_bind. destruct (execStack d) as [|x xs] eqn:E; [done|]. cbn.
  intros [= <- <-]. eauto.
Qed.
(** No thread of the graph can be scheduled. *)
Definition Idle (d : Driver) : Prop :=
  exists x xs, execStack d = x :: xs /\ forall i, 0 <= i < getNumThreads (graph x) -> isSchedulable i d = Ret (false, d).

Lemma tids_idle d x xs : execStack d = x :: xs ->
  (forall i, i ∈ seqZ 0 (getNumThreads (graph x)) -> isSchedulable i d = Ret (false, d)) -> Idle d.
Proof. intros Hx H. exists x, xs. split; [done|]. intros i Hi. apply H, elem_of_seqZ. lia. Qed.
Lemma scheduleNextLTR_idle d d' : scheduleNextLTR d = Ret (false, d') -> d' = d /\ Idle d.
Proof.
  unfold scheduleNextLTR, mbind, M_bind. destruct (all_tids d) as [[ts d1]| |] eqn:E; [|done..].
  apply all_tids_ret in E as (-> & x & xs & Hx & ->). intros [-> H]%schedule_first_none; [|intros i; apply isSchedulable_keeps].
  split; [done|by eapply tids_idle].
Qed.
Lemma scheduleNextWF_idle d d' : scheduleNextWF d = Ret (false, d') -> d' = d /\ Idle d.
Proof.
  unfold scheduleNextWF, mbind, M_bind. destruct (all_tids d) as [[ts d1]| |] eqn:E; [|done..].
  apply all_tids_ret in E as (-> & x & xs & Hx & ->).
  destruct (schedule_first follows_graph _ _ d) as [[[] d1]| |] eqn:E1; [done| |done..].
  apply schedule_first_none in E1 as [-> _]; [|intros i; apply follows_graph_keeps].
  destruct (schedule_first schedulable_write _ _ d) as [[[] d1]| |] eqn:E2; [done| |done..].
  apply schedule_first_none in E2 as [-> _]; [|intros i; apply schedulable_write_keeps].
  intros [-> H]%schedule_first_none; [|intros i; apply isSchedulable_keeps].
  split; [done|by eapply tids_idle].
Qed.
(** The threads in the order of the random policy are all the threads. *)
Lemma rotation_all n k i : 0 <= i < n -> i ∈ map (fun j => (j + k) mod n) (seqZ 0 n).
Proof.
  intros Hi. apply list_elem_of_In, in_map_iff. exists ((i - k) mod n).
  pose proof (Z.mod_pos_bound (i - k) n ltac:(lia)). split.
  - rewrite Zplus_mod_idemp_l. replace (i - k + k) with i by lia. by apply Z.mod_small.
  - apply list_elem_of_In, elem_of_seqZ. lia.
Qed.
Lemma scheduleNextRandom_idle d d' :
  scheduleNextRandom d = Ret (false, d') -> (exists r, d' = set_rngs r (estRng d) d) /\ Idle d'.
Proof.
  unfold scheduleNextRandom, mbind, M_bind. destruct (all_tids d) as [[ts d1]| |] eqn:E; [|done..].
  apply all_tids_ret in E as (-> & x & xs & Hx & ->). unfold gets, modify.
  destruct (uniform _ _ _) as [k r]. intros [-> H]%schedule_first_none; [|intros i; apply isSchedulable_keeps].
  split; [by exists r|]. exists x, xs. split; [done|]. intros i Hi. apply H.
  set (n := getNumThreads (graph x)) in *.
  assert (Z.of_nat (length (seqZ 0 n)) = n) as Hn by (rewrite length_seqZ; lia).
  rewrite Hn. by apply rotation_all.
Qed.
Lemma filterMM_none (f : Z -> M bool) ts : (forall i, Keeps eq (f i)) -> forall d l d',
  filterMM f ts d = Ret (l, d') -> d' = d /\ (l = [] -> forall i, i ∈ ts -> f i d = Ret (false, d)) /\
  (forall i, i ∈ l -> i ∈ ts /\ f i d = Ret (true, d)).
Proof.
  intros Hf. induction ts as [|i ts IH]; intros d l d'; cbn.
  - intros [= <- <-]. split_and!; [done|intros _ i Hi; by apply elem_of_nil in Hi|intros i Hi; by apply elem_of_nil in Hi].
  - unfold mbind, M_bind. destruct (f i d) as [[b d1]| |] eqn:E; [|done..].
    apply reads_only in E as Hd; [|done]. subst d1.
    destruct (filterMM f ts d) as [[l' d1]| |] eqn:E'; [|done..]. intros [= <- <-].
    destruct (IH _ _ _ E') as (-> & H & H'). split; [done|]. destruct b.
    + split; [done|]. intros j [->|Hj]%elem_of_cons; [split; [by left|done]|].
      destruct (H' j Hj). split; [by right|done].
    + split; [intros -> j [->|Hj]%elem_of_cons; [done|by apply H]|]. intros j Hj. destruct (H' j Hj). split; [by right|done].
Qed.
(** A thread is next at a load or not: some ready thread is selected. *)
Lemma negb_load_keeps i : Keeps eq (negb <$> isNextThreadInstLoad i).
Proof. apply keeps_fmap, isNextThreadInstLoad_keeps. Qed.
Lemma scheduleNextWFR_idle d d' : scheduleNextWFR d = Ret (false, d') -> d' = d /\ Idle d.
Proof.
  unfold scheduleNextWFR, mbind, M_bind. destruct (all_tids d) as [[ts d1]| |] eqn:E; [|done..].
  apply all_tids_ret in E as (-> & x & xs & Hx & ->).
  destruct (schedule_first follows_graph _ _ d) as [[[] d1]| |] eqn:E1; [done| |done..].
  apply schedule_first_none in E1 as [-> _]; [|intros i; apply follows_graph_keeps].
  destruct (filterMM isSchedulable _ d) as [[ready d1]| |] eqn:Er; [|done..].
  apply filterMM_none in Er as (-> & Hr & _); [|intros i; apply isSchedulable_keeps].
  destruct (filterMM _ ready d) as [[ws d1]| |] eqn:Ew; [|done..].
  apply filterMM_none in Ew as (-> & Hw & _); [|apply negb_load_keeps].
  destruct (filterMM isNextThreadInstLoad ready d) as [[ns d1]| |] eqn:En; [|done..].
  apply filterMM_none in En as (-> & Hn & _); [|intros i; apply isNextThreadInstLoad_keeps].
  assert (ws = [] -> ns = [] -> ready = []) as Hrd.
  { intros Hws Hns. destruct ready as [|i rd]; [done|]. exfalso.
    specialize (Hw Hws i (list_elem_of_here _ _)). specialize (Hn Hns i (list_elem_of_here _ _)).
    unfold fmap, M_fmap in Hw. by rewrite Hn in Hw. }
  assert (forall sel, match sel with
          | [] => mret false
          | _ :: _ => r ← gets rng;
             let '(k, r) := uniform 0 (Z.of_nat (length sel) - 1) r in
             modify (fun d => set_rngs r (estRng d) d);;
             candidate ← lift (vec_get sel k);
             t ← getFirstSchedulableSymmetric candidate; scheduleThread t;; mret true
          end d = Ret (false, d') -> sel = [] /\ d' = d) as Hsel.
  { intros [|i sel]; [by intros [= <-]|]. unfold gets, modify, mbind, M_bind.
    destruct (uniform _ _ _) as [k r]. destruct (lift _ _) as [[c d1]| |]; [|done..].
    destruct (getFirstSchedulableSymmetric c d1) as [[t d2]| |]; [|done..].
    by destruct (scheduleThread t d2) as [[[] d3]| |]. }
  intros [Hs ->]%Hsel. split; [done|]. eapply tids_idle; [done|]. apply Hr, Hrd.
  - by destruct ws.
  - by destruct ws.
Qed.
Lemma scheduleNormal_idle d d' :
  scheduleNormal d = Ret (false, d') -> (exists r, d' = set_rngs r (estRng d) d) /\ Idle d'.
Proof.
  assert (exists r, d = set_rngs r (estRng d) d) as Hr by (exists (rng d); by destruct d).
  unfold scheduleNormal, inEstimationMode, gets, mbind, M_bind. destruct (mode d); [|intros [-> H]%scheduleNextWFR_idle; done].
  destruct conf_schedulePolicy.
  - intros [-> H]%scheduleNextLTR_idle. done.
  - intros [-> H]%scheduleNextWF_idle. done.
  - intros [-> H]%scheduleNextWFR_idle. done.
  - apply scheduleNextRandom_idle.
Qed.

(** *** A scheduled thread can run *)

(** The thread [t] is scheduled, and the driver is otherwise the one where it can
    run. *)
Definition Runs (t : Z) (d d' : Driver) : Prop :=
  d' = set_EE (Interp.scheduleThread t (EE d)) d /\ isSchedulable t d = Ret (true, d).
Lemma isSchedulable_scheduled i t d b :
  isSchedulable i d = Ret (b, d) ->
  isSchedulable i (set_EE (Interp.scheduleThread t (EE d)) d) = Ret (b, set_EE (Interp.scheduleThread t (EE d)) d).
Proof.
  unfold isSchedulable, onEE, onGraph, getGraph, getExecution, gets, lift, mbind, M_bind, outcome_bind, mret, M_ret,
    Interp.getThrById. cbn [EE set_EE Interp.threads Interp.scheduleThread execStack].
  destruct (vec_get _ i) as [thr| |]; [|done..]. cbn [EE set_EE execStack].
  destruct (execStack d) as [|x xs]; [done|]. destruct (getLastThreadLabel _ i) as [l| |]; [|done..].
  by intros [= <-].
Qed.
Lemma scheduleThread_ret t d a d' :
  scheduleThread t d = Ret (a, d') -> d' = set_EE (Interp.scheduleThread t (EE d)) d.
Proof. unfold scheduleThread, inEE, onEE, gets, lift, modify, mbind, M_bind. cbn. by intros [= _ <-]. Qed.
Lemma schedule_first_runs cond pick ts d d' :
  (forall i, Keeps eq (cond i)) -> (forall i, Keeps eq (pick i)) ->
  (forall i t, cond i d = Ret (true, d) -> pick i d = Ret (t, d) -> isSchedulable t d = Ret (true, d)) ->
  schedule_first cond pick ts d = Ret (true, d') -> exists t, Runs t d d'.
Proof.
  intros Hc Hp Hs. induction ts as [|i ts IH]; [done|]. cbn. unfold mbind at 1, M_bind at 1.
  destruct (cond i d) as [[b d1]| |] eqn:E; [|done..]. apply reads_only in E as Hd; [|done]. subst d1.
  destruct b; [|exact IH]. unfold mbind, M_bind.
  destruct (pick i d) as [[t d1]| |] eqn:Ep; [|done..]. apply reads_only in Ep as Hd; [|done]. subst d1.
  destruct (scheduleThread t d) as [[[] d1]| |] eqn:Et; [|done..]. intros [= <-]. exists t.
  split; [by eapply scheduleThread_ret|by eapply Hs].
Qed.
Lemma getFirstSchedulableSymmetric_runs i t d :
  isSchedulable i d = Ret (true, d) -> getFirstSchedulableSymmetric i d = Ret (t, d) -> isSchedulable t d = Ret (true, d).
Proof.
  unfold getFirstSchedulableSymmetric. intros Hi. destruct conf_symmetryReduction; cbn; [|by intros [= <-]].
  unfold mbind at 1, M_bind at 1. destruct (onGraph _ d) as [[ps d1]| |] eqn:E; [|done..].
  apply onGraph_ret in E as (-> & _). revert i Hi. induction ps as [|p ps IH]; intros i Hi; cbn; [by intros [= <-]|].
  unfold mbind, M_bind. destruct (isSchedulable p d) as [[b d1]| |] eqn:E; [|done..].
  apply reads_only in E as Hd; [|apply isSchedulable_keeps]. subst d1. apply IH. by destruct b.
Qed.
Lemma mret_runs i t d : isSchedulable i d = Ret (true, d) -> (mret i : M Z) d = Ret (t, d) -> isSchedulable t d = Ret (true, d).
Proof. by intros H [= <-]. Qed.
Lemma follows_graph_runs i d : follows_graph i d = Ret (true, d) -> isSchedulable i d = Ret (true, d).
Proof.
  unfold follows_graph, mbind at 1, M_bind at 1. destruct (isSchedulable i d) as [[[] d1]| |] eqn:E; [|done..].
  apply reads_only in E as Hd; [|apply isSchedulable_keeps]. by subst.
Qed.
Lemma schedulable_write_runs i d : schedulable_write i d = Ret (true, d) -> isSchedulable i d = Ret (true, d).
Proof.
  unfold schedulable_write, mbind at 1, M_bind at 1. destruct (isSchedulable i d) as [[[] d1]| |] eqn:E; [|done..].
  apply reads_only in E as Hd; [|apply isSchedulable_keeps]. by subst.
Qed.
Ltac schedule_first_cases :=
  first [intros ?; first [apply isSchedulable_keeps|apply follows_graph_keeps|apply schedulable_write_keeps
                         |apply getFirstSchedulableSymmetric_keeps|apply keeps_ret]
        |intros ? ? ?; first [apply mret_runs|apply getFirstSchedulableSymmetric_runs];
         first [done|by apply follows_graph_runs|by apply schedulable_write_runs]].

Lemma schedulePrioritized_spec d b d' : schedulePrioritized d = Ret (b, d') ->
  if b then exists t, Runs t d d' else d' = d.
Proof.
  unfold schedulePrioritized, gets, mbind, M_bind. destruct (threadPrios d) as [|e es]; [by intros [= <- <-]|].
  destruct (lift _ d) as [[[] d1]| |] eqn:E; [|done..].
  assert (d1 = d) as -> by (by eapply reads_only, E; apply keeps_lift).
  destruct b.
  - apply schedule_first_runs; schedule_first_cases.
  - intros [-> _]%schedule_first_none; [done|schedule_first_cases].
Qed.
Lemma scheduleNextLTR_runs d d' : scheduleNextLTR d = Ret (true, d') -> exists t, Runs t d d'.
Proof.
  unfold scheduleNextLTR, mbind, M_bind. destruct (all_tids d) as [[ts d1]| |] eqn:E; [|done..].
  apply all_tids_ret in E as (-> & _). apply schedule_first_runs; schedule_first_cases.
Qed.
Lemma scheduleNextWF_runs d d' : scheduleNextWF d = Ret (true, d') -> exists t, Runs t d d'.
Proof.
  unfold scheduleNextWF, mbind, M_bind. destruct (all_tids d) as [[ts d1]| |] eqn:E; [|done..].
  apply all_tids_ret in E as (-> & _).
  destruct (schedule_first follows_graph _ _ d) as [[[] d1]| |] eqn:E1; [| |done..].
  { intros [= <-]. revert E1. apply schedule_first_runs; schedule_first_cases. }
  apply schedule_first_none in E1 as [-> _]; [|schedule_first_cases].
  destruct (schedule_first schedulable_write _ _ d) as [[[] d1]| |] eqn:E2; [| |done..].
  { intros [= <-]. revert E2. apply schedule_first_runs; schedule_first_cases. }
  apply schedule_first_none in E2 as [-> _]; [|schedule_first_cases].
  apply schedule_first_runs; schedule_first_cases.
Qed.
(** Drawing a random number in between changes only the generator. *)
Definition Scheduled (d d' : Driver) : Prop := exists r t, Runs t (set_rngs r (estRng d) d) d'.
Lemma runs_scheduled t d d' : Runs t d d' -> Scheduled d d'.
Proof. intros H. exists (rng d), t. by destruct d. Qed.
Lemma isSchedulable_rng i r d b :
  isSchedulable i d = Ret (b, d) -> isSchedulable i (set_rngs r (estRng d) d) = Ret (b, set_rngs r (estRng d) d).
Proof.
  unfold isSchedulable, onEE, onGraph, getGraph, getExecution, gets, lift, mbind, M_bind, outcome_bind, mret, M_ret.
  cbn [EE set_rngs execStack]. destruct (Interp.getThrById _ i) as [thr| |]; [|done..]. cbn [execStack set_rngs].
  destruct (execStack d) as [|x xs]; [done|]. destruct (getLastThreadLabel _ i) as [l| |]; [|done..].
  by intros [= <-].
Qed.
Lemma scheduleNextRandom_runs d d' : scheduleNextRandom d = Ret (true, d') -> Scheduled d d'.
Proof.
  unfold scheduleNextRandom, mbind, M_bind. destruct (all_tids d) as [[ts d1]| |] eqn:E; [|done..].
  apply all_tids_ret in E as (-> & _). unfold gets, modify. destruct (uniform _ _ _) as [k r].
  intros [t H]%schedule_first_runs; [by exists r, t|schedule_first_cases..].
Qed.
Lemma vec_get_elem {A} (l : list A) k c : vec_get l k = Ret c -> c ∈ l.
Proof. intros [_ H]%vec_get_ret. by eapply list_elem_of_lookup_2. Qed.
Lemma select_runs sel d d' :
  (forall i, i ∈ sel -> isSchedulable i d = Ret (true, d)) ->
  match sel with
  | [] => mret false
  | _ :: _ => r ← gets rng;
      let '(k, r) := uniform 0 (Z.of_nat (length sel) - 1) r in
      modify (fun d => set_rngs r (estRng d) d);;
      candidate ← lift (vec_get sel k);
      t ← getFirstSchedulableSymmetric candidate; scheduleThread t;; mret true
  end d = Ret (true, d') -> Scheduled d d'.
Proof.
  intros Hs. destruct sel as [|i0 sel]; [done|]. unfold gets, modify, mbind, M_bind.
  destruct (uniform _ _ _) as [k r]. unfold lift at 1. destruct (vec_get (i0 :: sel) k) as [c| |] eqn:Ev; [|done..].
  apply vec_get_elem in Ev. cbn [mbind outcome_bind]. set (d0 := set_rngs r (estRng d) d).
  destruct (getFirstSchedulableSymmetric c d0) as [[t d1]| |] eqn:E; [|done..].
  apply reads_only in E as Hd; [|apply getFirstSchedulableSymmetric_keeps]. subst d1.
  destruct (scheduleThread t d0) as [[[] d1]| |] eqn:Et; [|done..]. intros [= <-]. exists r, t.
  split; [by eapply scheduleThread_ret|]. eapply getFirstSchedulableSymmetric_runs, E. by apply isSchedulable_rng, Hs.
Qed.
Lemma scheduleNextWFR_runs d d' : scheduleNextWFR d = Ret (true, d') -> Scheduled d d'.
Proof.
  unfold scheduleNextWFR, mbind, M_bind. destruct (all_tids d) as [[ts d1]| |] eqn:E; [|done..].
  apply all_tids_ret in E as (-> & _).
  destruct (schedule_first follows_graph _ _ d) as [[[] d1]| |] eqn:E1; [| |done..].
  { intros [= <-]. apply schedule_first_runs in E1 as [t H]; [by eapply runs_scheduled|schedule_first_cases..]. }
  apply schedule_first_none in E1 as [-> _]; [|schedule_first_cases].
  destruct (filterMM isSchedulable _ d) as [[ready d1]| |] eqn:Er; [|done..].
  apply filterMM_none in Er as (-> & _ & Hr); [|schedule_first_cases].
  destruct (filterMM _ ready d) as [[ws d1]| |] eqn:Ew; [|done..].
  apply filterMM_none in Ew as (-> & _ & Hw); [|apply negb_load_keeps].
  destruct (filterMM isNextThreadInstLoad ready d) as [[ns d1]| |] eqn:En; [|done..].
  apply filterMM_none in En as (-> & _ & Hn); [|intros i; apply isNextThreadInstLoad_keeps].
  intros H. apply select_runs in H; [done|]. intros i Hi. apply Hr.
  destruct ws; [by apply Hn|by apply Hw].
Qed.
Lemma scheduleNormal_runs d d' : scheduleNormal d = Ret (true, d') -> Scheduled d d'.
Proof.
  unfold scheduleNormal, inEstimationMode, gets, mbind, M_bind. destruct (mode d); [|apply scheduleNextWFR_runs].
  destruct conf_schedulePolicy.
  - intros [t H]%scheduleNextLTR_runs. by eapply runs_scheduled.
  - intros [t H]%scheduleNextWF_runs. by eapply runs_scheduled.
  - apply scheduleNextWFR_runs.
  - apply scheduleNextRandom_runs.
Qed.

(** *** Reads that were set aside *)

(** The thread [i] ends in a load that was set aside. *)
Definition SetAside (x : Execution) (i : Z) (l : Label) : Prop :=
  getLastThreadLabel (graph x) i = Ret l /\ Isa.ReadOptBlockLabel (kind l) = true.
(** The driver in which the load that [l] stands for is tried again: the block
    is removed, the load recorded, and its thread scheduled. *)
Definition retried (x : Execution) (xs : list Execution) (i : Z) (l : Label) (g : Graph) (d : Driver) : Driver :=
  set_EE (Interp.scheduleThread i (EE d))
    (set_execStack (Exec.set_graph g x :: xs) (set_readToReschedule (getPos l) d)).

Lemma reschedule_first_spec ts x xs d b d' : execStack d = x :: xs -> reschedule_first ts d = Ret (b, d') ->
  if b then exists i l g, i ∈ ts /\ SetAside x i l /\ removeLast (graph x) (thread (getPos l)) = Ret g /\
              d' = retried x xs i l g d
  else d' = d /\ forall i, i ∈ ts -> exists l, getLastThreadLabel (graph x) i = Ret l /\
              Isa.ReadOptBlockLabel (kind l) = false.
Proof.
  intros Hx. induction ts as [|i ts IH]; cbn.
  - intros [= <- <-]. split; [done|]. intros i Hi. by apply elem_of_nil in Hi.
  - unfold mbind at 1, M_bind at 1. destruct (onGraph _ d) as [[l d1]| |] eqn:E; [|done..].
    apply onGraph_ret in E as (-> & y & ys & E & El). rewrite Hx in E. injection E as <- <-.
    destruct (Isa.ReadOptBlockLabel (kind l)) eqn:Ek; cbn [negb].
    + unfold mbind, M_bind. destruct (lift _ d) as [[[] d1]| |] eqn:Eb; [|done..].
      assert (d1 = d) as -> by (by eapply reads_only, Eb; apply keeps_lift).
      unfold setRescheduledRead, modify, unblockThread, mbind, M_bind.
      destruct (onGraph _ (set_readToReschedule _ d)) as [[bl d1]| |] eqn:Eg; [|done..].
      apply onGraph_ret in Eg as [-> _]. destruct (lift (BUG_ON (negb (Isa.BlockLabel _))) _) as [[[] d1]| |] eqn:El2; [|done..].
      apply reads_only in El2; [|apply keeps_lift]. subst d1.
      destruct (inGraph _ _) as [[[] d1]| |] eqn:Ei; [|done..].
      apply (inGraph_at _ _ _ x xs) in Ei as (g & Eg & ->); [|exact Hx].
      destruct (scheduleThread i _) as [[[] d2]| |] eqn:Et; [|done..]. intros [= <- <-].
      apply scheduleThread_ret in Et. subst d2. exists i, l, g. split; [by left|]. by split_and!.
    + intros E'. specialize (IH E'). destruct b.
      * destruct IH as (i' & l' & g & Hi & H). exists i', l', g. split; [by right|done].
      * destruct IH as [-> H]. split; [done|]. intros j [->|Hj]%elem_of_cons; [by exists l|by apply H].
Qed.

(** Whether the label added last is the read of an RMW that has still to store:
    a fetch-and-add, or a compare-and-exchange that read what it expects.  The
    second driver is the one after the value was looked at: reading it reports
    accesses of different sizes without [-mixer]. *)
Inductive HalfDoneRmw (d : Driver) : bool -> Driver -> Prop :=
| half_fai l : labelOf (lastAdded d) d = Ret (l, d) -> Isa.FaiReadLabel (kind l) = true -> HalfDoneRmw d true d
| half_cas l v d1 : labelOf (lastAdded d) d = Ret (l, d) -> Isa.CasReadLabel (kind l) = true ->
    getReadValue l d = Ret (v, d1) -> RmwReadLabel.getExpected l = Some v -> HalfDoneRmw d true d1
| failed_cas l v d1 : labelOf (lastAdded d) d = Ret (l, d) -> Isa.FaiReadLabel (kind l) = false ->
    Isa.CasReadLabel (kind l) = true -> getReadValue l d = Ret (v, d1) -> RmwReadLabel.getExpected l <> Some v ->
    HalfDoneRmw d false d1
| no_rmw l : labelOf (lastAdded d) d = Ret (l, d) -> Isa.FaiReadLabel (kind l) = false ->
    Isa.CasReadLabel (kind l) = false -> HalfDoneRmw d false d.

Lemma scheduleAtomicity_spec d b d' : scheduleAtomicity d = Ret (b, d') ->
  exists d1, HalfDoneRmw d b d1 /\
    d' = if b then set_EE (Interp.scheduleThread (thread (lastAdded d)) (EE d1)) d1 else d1.
Proof.
  unfold scheduleAtomicity, gets, mbind at 1 2, M_bind at 1 2.
  destruct (labelOf (lastAdded d) d) as [[l d1]| |] eqn:El; [|done..].
  apply reads_only in El as Hd; [|apply labelOf_keeps]. subst d1.
  destruct (Isa.FaiReadLabel (kind l)) eqn:Ef.
  { unfold mbind, M_bind. destruct (scheduleThread _ d) as [[[] d1]| |] eqn:Et; [|done..]. intros [= <- <-].
    apply scheduleThread_ret in Et. exists d. split; [by eapply half_fai|done]. }
  destruct (Isa.CasReadLabel (kind l)) eqn:Ec; [|intros [= <- <-]; exists d; split; [by eapply no_rmw|done]].
  unfold mbind, M_bind. destruct (getReadValue l d) as [[v d1]| |] eqn:Ev; [|done..]. case_bool_decide as He.
  - destruct (scheduleThread _ d1) as [[[] d2]| |] eqn:Et; [|done..]. intros [= <- <-].
    apply scheduleThread_ret in Et. exists d1. split; [by eapply half_cas|done].
  - intros [= <- <-]. exists d1. split; [by eapply failed_cas|done].
Qed.

(** What the next step of an execution is: the step that completes a half-done
    RMW, which comes before all others; a thread that can run; or, when none
    can, a load that was set aside and is tried again.  Nothing else of the
    driver changes, up to the state of the generator of the random policies. *)
Inductive Next (d : Driver) : Driver -> Prop :=
| next_rmw d1 : HalfDoneRmw d true d1 -> Next d (set_EE (Interp.scheduleThread (thread (lastAdded d)) (EE d1)) d1)
| next_thread d1 t r : HalfDoneRmw d false d1 -> isSchedulable t d1 = Ret (true, d1) ->
    Next d (set_EE (Interp.scheduleThread t (EE d1)) (set_rngs r (estRng d1) d1))
| next_retry d1 x xs t l g r : HalfDoneRmw d false d1 -> Idle d1 -> execStack d1 = x :: xs ->
    0 <= t < getNumThreads (graph x) -> SetAside x t l -> removeLast (graph x) (thread (getPos l)) = Ret g ->
    Next d (retried x xs t l g (set_rngs r (estRng d1) d1)).
(** There is no next step; the driver is the second one, again up to the generator. *)
Definition Finished (d d' : Driver) : Prop :=
  exists d1 r, HalfDoneRmw d false d1 /\ Idle d1 /\ d' = set_rngs r (estRng d1) d1 /\
  exists x xs, execStack d1 = x :: xs /\ forall i, 0 <= i < getNumThreads (graph x) ->
    exists l, getLastThreadLabel (graph x) i = Ret l /\ Isa.ReadOptBlockLabel (kind l) = false.

Lemma set_rngs_back r d : set_rngs (rng d) (estRng d) (set_rngs r (estRng d) d) = d.
Proof. by destruct d. Qed.
Lemma isSchedulable_rng_back i r d b :
  isSchedulable i (set_rngs r (estRng d) d) = Ret (b, set_rngs r (estRng d) d) -> isSchedulable i d = Ret (b, d).
Proof. intros H%(isSchedulable_rng _ (rng d)). change (estRng (set_rngs r (estRng d) d)) with (estRng d) in H. by rewrite set_rngs_back in H. Qed.
Lemma scheduled_next d d1 d' : HalfDoneRmw d false d1 -> Scheduled d1 d' -> Next d d'.
Proof. intros Hh (r & t & -> & H%isSchedulable_rng_back). by apply (next_thread d d1 t r). Qed.
Lemma idle_rng r d : Idle (set_rngs r (estRng d) d) -> Idle d.
Proof. intros (x & xs & Hx & H). exists x, xs. split; [done|]. intros i Hi. by eapply isSchedulable_rng_back, H. Qed.

(** Property C8.  [scheduleNext] on an execution that goes on answers true only
    after it made the next step from the driver it was called in: it scheduled
    the thread of the RMW that is half done; else a thread that can run; else,
    when none can, the thread of a load that was set aside, whose block it removed
    from the graph.  It answers false only when no RMW is half done, no thread of
    the graph can run and none ends in a load that was set aside.  The rest of the
    driver is as it was, up to the state of the random generator and to the error
    that reading the value of a compare-and-exchange can report.  This holds for
    every policy. *)
Theorem scheduleNext_progress d b d' :
  scheduleNext d = Ret (b, d') -> isMootExecution d = false -> shouldHalt d = false ->
  if b then Next d d' else Finished d d'.
Proof.
  intros E Hm Hh. unfold scheduleNext, isMoot, isHalting, gets, mbind at 1 2, M_bind at 1 2 in E.
  rewrite Hm, Hh in E. cbn [orb] in E. unfold or_try at 1, mbind at 1, M_bind at 1 in E.
  destruct (scheduleAtomicity d) as [[b1 d1]| |] eqn:E1; [|done..].
  apply scheduleAtomicity_spec in E1 as (d0 & Hr & Ed). destruct b1.
  { injection E as <- <-. subst d1. by apply next_rmw. }
  subst d0. unfold or_try at 1, mbind at 1, M_bind at 1 in E.
  destruct (schedulePrioritized d1) as [[b2 d2]| |] eqn:E2; [|done..]. apply schedulePrioritized_spec in E2.
  destruct b2.
  { injection E as <- <-. destruct E2 as [t H]. eapply scheduled_next, runs_scheduled; done. }
  subst d2. unfold or_try, mbind at 1, M_bind at 1 in E.
  destruct (scheduleNormal d1) as [[[] d2]| |] eqn:E3; [| |done..].
  { injection E as <- <-. by eapply scheduled_next, scheduleNormal_runs. }
  apply scheduleNormal_idle in E3 as [[r ->] Hi%idle_rng]. unfold rescheduleReads, mbind, M_bind in E.
  destruct (all_tids _) as [[ts d3]| |] eqn:Et; [|done..]. apply all_tids_ret in Et as (-> & x & xs & Hx & ->).
  apply (reschedule_first_spec _ x xs) in E; [|done]. destruct b.
  - destruct E as (i & l & g & Ht%elem_of_seqZ & Hs & Eg & ->). apply (next_retry d d1 x xs i l g r); done.
  - destruct E as [-> H]. exists d1, r. do 3 (split; [done|]). exists x, xs. split; [done|].
    intros i ?. apply H, elem_of_seqZ. lia.
Qed.
End Facts.

(** The driver when an execution of a program starts, and after its first
    scheduling. *)
Definition first_step {P : Program} {C : Config} (r e : RNG) : outcome (Driver * (bool * Driver)) :=
  d ← Explore.make_driver VerificationMode r e;
  s ← Explore.start_exploration d;
  r ← Explore.before_run (snd s);
  n ← scheduleNext (snd r);
  Ret (snd r, n).
Lemma first_step_ret {P : Program} {C : Config} r e d n : first_step r e = Ret (d, n) -> scheduleNext d = Ret n.
Proof.
  unfold first_step, mbind, outcome_bind. destruct (Explore.make_driver _ _ _) as [d0| |]; [|done..].
  destruct (Explore.start_exploration d0) as [[u s]| |]; [|done..]. cbv beta iota delta [snd].
  destruct (Explore.before_run s) as [[u2 d1]| |]; [|done..].
  destruct (scheduleNext d1) as [p| |] eqn:En; [|done..]. by intros [= <- <-].
Qed.
Definition goes_on {P : Program} (o : outcome (Driver * (bool * Driver))) : bool :=
  match o with Ret (d, (b, _)) => b && negb (isMootExecution d) && negb (shouldHalt d) | _ => false end.
Lemma goes_on_ret {P : Program} o : goes_on o = true ->
  exists d d', o = Ret (d, (true, d')) /\ isMootExecution d = false /\ shouldHalt d = false.
Proof.
  destruct o as [[d [b d']]| |]; cbn; [|done..]. rewrite !andb_true_iff, !negb_true_iff. intros [[-> ?] ?]. eauto.
Qed.

(** One thread stores and loads: its first instruction is scheduled. *)
Definition one : list (list Programs.Instr) :=
  [[Programs.Store Monotonic (Programs.addr 0) 4 1; Programs.Load Monotonic (Programs.addr 0) 4]].
#[local] Instance one_program : Program := Programs.program one.
#[local] Instance one_config : Config := Programs.config true.
Lemma scheduleNext_progress_witness :
  exists d d' : Driver,
    scheduleNext d = Ret (true, d') /\
    isMootExecution d = false /\ shouldHalt d = false /\ Next d d'.
Proof.
  destruct (goes_on_ret (first_step (P := one_program) (C := one_config) tt tt) ltac:(vm_compute; reflexivity))
    as (d & d' & E & Hm & Hh).
  apply first_step_ret in E.
  exists d, d'. split; [exact E|]. split; [exact Hm|]. split; [exact Hh|].
  exact (scheduleNext_progress d true d' E Hm Hh).
Defined.
End ScheduleFacts.
