(* ===== verification/ExploreFacts.v ===== *)
(** * The exploration as a whole: its verdict, what it leaves undone, and its fuel. *)
From S2P Require Import Prelude Event SVal SAddr VSet SExpr Trie Deps Views Labels LabelClasses Graph Iterators Bounds Revisits Interp RARace RACoherence Execution MemoryModel Driver Checks Symmetry Schedule Revisiting Backtrack Handlers Explore Calls InternalNames Intrinsics FileSystem FsCalls Frames FramesDriver FramesCalls Programs.
#[local] Open Scope Z_scope.

Module ExploreFacts.
Import ExecutionGraph Drv Checks Schedule Backtrack Handlers Explore Calls Intrinsics FsCalls Frames FramesDriver FramesCalls Programs.

(** ** The verdict *)

Section Verdict.
Context `{P : Program} `{MM : MemoryModel}.
(** An error is final; without one the status does not change, or an error is
    reported. *)
Definition Verdict (d d' : Driver) : Prop :=
  if shouldHalt d then shouldHalt d' = true /\ status (result d') = status (result d)
  else if shouldHalt d' then status (result d') <> VE_OK
  else status (result d') = status (result d).

#[export] Instance Verdict_pre : PreOrder Verdict.
Proof.
  split.
  - intros d. unfold Verdict. by destruct (shouldHalt d).
  - intros d1 d2 d3. unfold Verdict. destruct (shouldHalt d1), (shouldHalt d2), (shouldHalt d3);
      intros H1 H2; destruct_and?; try done; try congruence; split; congruence.
Qed.
#[export] Instance Verdict_framing : WorkFraming Verdict.
Proof.
  untracked; try apply _; intros; unfold Verdict; simpl; try by destruct (shouldHalt d).
Qed.

(** The identifiers of the threads of the interpreter stay their indices. *)
Definition SameIds (d d' : Driver) : Prop := ids_are_indices (EE d) -> ids_are_indices (EE d').
#[export] Instance SameIds_framing : WorkFraming SameIds.
Proof.
  assert (PreOrder SameIds) by (split; [intros d H; exact H|intros d1 d2 d3 H1 H2 H; exact (H2 (H1 H))]).
  untracked; try done; intros; unfold SameIds in *; simpl in *; auto.
Qed.
End Verdict.

(** ** Loops and fuel *)

Section Fuel.
Context `{P : Program} `{C : Config} `{MM : MemoryModel}.

Lemma loop_more body n m d d' : (n <= m)%nat -> loop n body d = Ret (true, d') -> loop m body d = Ret (true, d').
Proof.
  revert m d. induction n as [|n IH]; intros [|m] d Hle; try done; [lia|]. cbn. unfold mbind, M_bind.
  destruct (body d) as [[[] d1]| |]; [|done..]. apply IH. lia.
Qed.
Lemma pick_more n m b d d' : (n <= m)%nat -> pick n d = Ret (Some b, d') -> pick m d = Ret (Some b, d').
Proof.
  revert m d. induction n as [|n IH]; intros [|m] d Hle; try done; [lia|]. cbn. unfold mbind, M_bind.
  destruct (try_option d) as [[[] d1]| |]; try done. apply IH. lia.
Qed.
Lemma pick_Picks d b d' : Picks d b d' <-> exists n, pick n d = Ret (Some b, d').
Proof.
  split.
  - induction 1 as [d d' E|d d' E|d d1 b d' E _ [n IH]].
    + exists 1%nat. cbn. unfold mbind, M_bind. by rewrite E.
    + exists 1%nat. cbn. unfold mbind, M_bind. by rewrite E.
    + exists (S n). cbn. unfold mbind, M_bind. by rewrite E.
  - intros [n E]. revert d E. induction n as [|n IH]; intros d E; [done|].
    cbn in E. unfold mbind, M_bind in E. destruct (try_option d) as [[[] d1]| |] eqn:Et; try done.
    + injection E as <- <-. by apply picks_run.
    + eapply picks_again; [exact Et|by apply IH].
    + injection E as <- <-. by apply picks_none.
Qed.

Context (visitInst : M unit).
Lemma execute_more n m d d' : (n <= m)%nat -> execute visitInst n d = Ret (true, d') -> execute visitInst m d = Ret (true, d').
Proof.
  intros Hle. unfold execute. unfold mbind, M_bind.
  destruct (before_run d) as [[[] d1]| |]; [|done..].
  destruct (loop n (run_step visitInst) d1) as [[[] d2]| |] eqn:E; [|done..].
  rewrite (loop_more _ _ _ _ _ Hle E). cbn [negb].
  destruct (handleExecutionEnd d2) as [[[] d3]| |]; [|done..].
  destruct conf_persevere; [|done].
  destruct (before_recovery d3) as [[[] d4]| |]; [|done..].
  destruct (loop n (run_step visitInst) d4) as [[[] d5]| |] eqn:E2; [|done..].
  by rewrite (loop_more _ _ _ _ _ Hle E2).
Qed.
Lemma execute_Executes d d' : Executes visitInst d d' <-> exists n, execute visitInst n d = Ret (true, d').
Proof.
  split.
  - intros [d0 d1 d2 d3 d4 E1 [n L]%loop_Loop E2 H]. unfold execute, mbind, M_bind. destruct conf_persevere.
    + destruct H as (d5 & d6 & E3 & [m L']%loop_Loop & E4). exists (Nat.max n m).
      rewrite E1, (loop_more _ _ _ _ _ (Nat.le_max_l n m) L). cbn [negb].
      rewrite E2, E3, (loop_more _ _ _ _ _ (Nat.le_max_r n m) L'). cbn [negb]. by rewrite E4.
    + exists n. rewrite E1, L. cbn [negb]. rewrite E2. by subst.
  - intros [n E]. unfold execute, mbind, M_bind in E.
    destruct (before_run d) as [[[] d1]| |] eqn:E1; [|done..].
    destruct (loop n (run_step visitInst) d1) as [[[] d2]| |] eqn:L; [|done..]. cbn [negb] in E.
    destruct (handleExecutionEnd d2) as [[[] d3]| |] eqn:E2; [|done..].
    eapply executes; [exact E1|apply loop_Loop; by exists n|exact E2|]. destruct conf_persevere; [|by injection E].
    destruct (before_recovery d3) as [[[] d4]| |] eqn:E3; [|done..].
    destruct (loop n (run_step visitInst) d4) as [[[] d5]| |] eqn:L'; [|done..]. cbn [negb] in E.
    destruct (handleRecoveryEnd d5) as [[[] d6]| |] eqn:E4; [|done..]. injection E as <-.
    exists d4, d5. split_and!; [done|apply loop_Loop; by exists n|done].
Qed.
Lemma explore_loop_more n m d d' :
  (n <= m)%nat -> explore_loop visitInst n d = Ret (true, d') -> explore_loop visitInst m d = Ret (true, d').
Proof.
  revert m d. induction n as [|n IH]; intros [|m] d Hle; try done; [lia|].
  cbn [explore_loop]. unfold isHalting, gets, mbind, M_bind. destruct (shouldHalt d); [done|].
  destruct (execute visitInst (S n) d) as [[[] d1]| |] eqn:E; [|done..].
  rewrite (execute_more _ _ _ _ Hle E). cbn [negb].
  destruct (pick (S n) d1) as [[[b|] d2]| |] eqn:Ep; [|done..].
  rewrite (pick_more _ _ _ _ _ Hle Ep). destruct b; [|done]. apply IH. lia.
Qed.
(** The fuelled exploration ends in a state exactly when the loops of the code
    do. *)
Lemma explore_loop_Explores d d' :
  Explores visitInst d d' <-> exists n, explore_loop visitInst n d = Ret (true, d').
Proof.
  split.
  - induction 1 as [d H|d d1 d2 H [n E]%execute_Executes [m Ep]%pick_Picks
                   |d d1 d2 d3 H [n E]%execute_Executes [m Ep]%pick_Picks _ [k IH]].
    + exists 1%nat. cbn [explore_loop]. unfold isHalting, gets, mbind, M_bind. by rewrite H.
    + exists (S (Nat.max n m)). cbn [explore_loop]. unfold isHalting, gets, mbind, M_bind. rewrite H.
      rewrite (execute_more n (S (Nat.max n m)) d d1); [|lia|done]. cbn [negb].
      by rewrite (pick_more m (S (Nat.max n m)) false d1 d2); [|lia|].
    + set (f := Nat.max n (Nat.max m k)). exists (S f). cbn [explore_loop].
      unfold isHalting, gets, mbind, M_bind. rewrite H.
      rewrite (execute_more n (S f) d d1); [|lia|done]. cbn [negb].
      rewrite (pick_more m (S f) true d1 d2); [|lia|done]. apply (explore_loop_more k); [lia|done].
  - intros [n E]. revert d E. induction n as [|n IH]; intros d E; [done|].
    cbn [explore_loop] in E. unfold isHalting, gets, mbind, M_bind in E.
    destruct (shouldHalt d) eqn:H; [injection E as <-; by apply explores_halt|].
    destruct (execute visitInst (S n) d) as [[[] d1]| |] eqn:Ex; [|done..]. cbn [negb] in E.
    destruct (pick (S n) d1) as [[[b|] d2]| |] eqn:Ep; [|done..].
    assert (Executes visitInst d d1) by (apply execute_Executes; by exists (S n)).
    assert (Picks d1 b d2) by (apply pick_Picks; by exists (S n)).
    destruct b; [eapply explores_more; eauto|]. injection E as <-. by eapply explores_end.
Qed.
End Fuel.

(** ** What the exploration guarantees *)

(** The exploration with some fuel ends in a state exactly when the
    nested loops of the code, run from the state the exploration starts in, end
    there; more fuel does not change the state it ends in. *)
Lemma explore_is_exploration `{P : Program} `{C : Config} `{MM : MemoryModel} visitInst d d' :
  ((exists n, explore visitInst n d = Ret (true, d')) <->
   exists d1, start_exploration d = Ret (tt, d1) /\ Explores visitInst d1 d') /\
  forall n m, (n <= m)%nat -> explore visitInst n d = Ret (true, d') -> explore visitInst m d = Ret (true, d').
Proof.
  unfold explore, mbind, M_bind. split; [split|].
  - intros [n E]. destruct (start_exploration d) as [[[] d1]| |]; [|done..]. exists d1. split; [done|].
    apply explore_loop_Explores. by exists n.
  - intros (d1 & -> & [n E]%explore_loop_Explores). by exists n.
  - intros n m Hle. destruct (start_exploration d) as [[[] d1]| |]; [|done..]. by apply explore_loop_more.
Qed.

Section Guarantees.
Context `{P : Program} `{C : Config} `{MM : MemoryModel}.

(** The search for an option gives up when no execution is left. *)
Lemma try_option_finished d d' : try_option d = Ret (Finished, d') -> execStack d' = [].
Proof.
  unfold try_option, mbind at 1, M_bind at 1. destruct (resetExplorationOptions d) as [[[] d1]| |]; [|done..].
  unfold mbind at 1, M_bind at 1. destruct (getNextItem d1) as [[[[s r]|] d2]| |]; [| |done..].
  - unfold mbind, M_bind, mret, M_ret. destruct (restrictAndRevisit s r d2) as [[[] d3]| |]; [| |done..].
    + by destruct (isRevisitValid r d3) as [[[] d4]| |].
    + done.
  - unfold popExecution, mbind, M_bind, mret, M_ret. destruct (execStack d2) as [|x xs] eqn:E.
    + intros [= <-]. done.
    + case_bool_decide; cbn; [|done]. intros [= <-]. done.
Qed.
Lemma Picks_none d d' : Picks d false d' -> execStack d' = [].
Proof. intros H. remember false as b eqn:Hb. induction H; [done|by eapply try_option_finished|auto]. Qed.
Lemma Explores_ends visitInst d d' : Explores visitInst d d' -> shouldHalt d' = true \/ execStack d' = [].
Proof. induction 1; [by left| |done]. right. by eapply Picks_none. Qed.
End Guarantees.

(**  The exploration ends with the verdict VE_OK exactly when no
    error stopped it, and only after every execution on its stack was explored:
    no backtracking option is left.  The status of the first error is the one
    that is reported. *)
Theorem explores_verdict `{P : Program} `{C : Config} `{MM : MemoryModel} visitInst d d' :
  Keeps Verdict visitInst -> Explores visitInst d d' -> shouldHalt d = false -> status (result d) = VE_OK ->
  (status (result d') = VE_OK <-> shouldHalt d' = false) /\
  (status (result d') = VE_OK -> execStack d' = []).
Proof.
  intros Hv He Hh Hs. pose proof (Explores_keeps visitInst Hv _ _ He) as H. unfold Verdict in H.
  rewrite Hh in H. pose proof (Explores_ends _ _ _ He) as [Hd|Hd]; destruct (shouldHalt d'); split; try done;
    try (split; congruence).
Qed.

(** ** Programs keep what the driver keeps *)

Section Visit.
Context (code : list (list Instr)) (C : Config).
#[local] Instance code_program : Program := program code.
#[local] Instance code_config : Config := C.
#[local] Instance ra : MemoryModel := RADriver.
Context {R : Driver -> Driver -> Prop} `{WR : !WorkFraming R}.

Lemma visit_keeps : Keeps R (visit code C).
Proof.
  unfold visit, perform. calls; try apply popStack_keeps; try apply callProvided_keeps; calls.
  apply (topFrame_keeps (P := code_program)).
Qed.
End Visit.

(** ** The interpreter starts every execution afresh *)

Section Reset.
Context {F V : Type} (tlv : gmap Z V).
Implicit Types e : Interp.Dynamic F V.
Definition clear (t : Interp.Thread F V) : Prop :=
  Interp.ECStack t = [] /\ Interp.tls t = tlv /\ Interp.blocked t = Interp.NotBlocked /\ Interp.globalInstructions t = 0.

Lemma resetThread_ret e i t :
  Interp.threads e !! i = Some t ->
  Interp.resetThread tlv (Z.of_nat i) e = Ret (Interp.set_threads (<[i := Interp.reset_state tlv t]> (Interp.threads e)) e).
Proof.
  intros E. unfold Interp.resetThread, Interp.alter_thread, Interp.getThrById, vec_get.
  destruct (Z.ltb_spec (Z.of_nat i) 0); [lia|]. rewrite Nat2Z.id, E. done.
Qed.
(** Resetting the threads [i, .., i + n - 1]. *)
Lemma reset_threads (ts : list (Interp.Thread F V)) : forall e i,
  (forall j t, ts !! j = Some t -> Interp.id t = Z.of_nat (i + j)) ->
  (i + length ts = length (Interp.threads e))%nat ->
  (forall j t, (j < i)%nat -> Interp.threads e !! j = Some t -> clear t) ->
  exists e', mfold (fun e (t : Interp.Thread F V) => Interp.resetThread tlv (Interp.id t) e) ts e = Ret e' /\
    Interp.currentThread e' = Interp.currentThread e /\ Interp.AtExitHandlers e' = Interp.AtExitHandlers e /\
    length (Interp.threads e') = length (Interp.threads e) /\
    forall j t, Interp.threads e' !! j = Some t -> clear t.
Proof.
  induction ts as [|t ts IH]; intros e i Hts Hlen Hc; cbn.
  - exists e. split_and!; [done..|]. intros j t Hj. eapply Hc; [|done]. apply lookup_lt_Some in Hj. simpl in Hlen. lia.
  - assert (Interp.id t = Z.of_nat i) as Hid by (rewrite (Hts 0%nat t eq_refl); lia). simpl in Hlen.
    destruct (lookup_lt_is_Some_2 (Interp.threads e) i) as [t0 E0]; [lia|].
    rewrite Hid, (resetThread_ret _ _ _ E0). cbn.
    destruct (IH (Interp.set_threads (<[i := Interp.reset_state tlv t0]> (Interp.threads e)) e) (S i))
      as (e' & E & Hcur & Hat & Hl & Hcl).
    + intros j t' Hj. rewrite (Hts (S j) t' Hj). lia.
    + cbn. rewrite length_insert. lia.
    + cbn. intros j t' Hj. rewrite list_lookup_insert_Some. intros [(<- & <- & _)|(Hne & H)]; [done|].
      apply (Hc j); [lia|done].
    + exists e'. cbn in Hcur, Hl. rewrite length_insert in Hl. by split_and!.
Qed.
Lemma reset_clears e :
  ids_are_indices e ->
  exists e', Interp.reset tlv e = Ret e' /\ Interp.currentThread e' = 0 /\ Interp.AtExitHandlers e' = [] /\
    length (Interp.threads e') = length (Interp.threads e) /\
    forall j t, Interp.threads e' !! j = Some t -> clear t.
Proof.
  intros He. unfold Interp.reset. apply (reset_threads _ (Interp.set_AtExitHandlers [] (Interp.scheduleThread 0 e)) 0%nat); cbn; [exact He|done|lia].
Qed.
End Reset.

Lemma start_exploration_ids `{P : Program} d d1 : start_exploration d = Ret (tt, d1) -> ids_are_indices (EE d1).
Proof.
  unfold start_exploration, mbind, M_bind. destruct (resetExplorationOptions d) as [[[] d2]| |]; [|done..].
  destruct (onGraph _ d2) as [[tis d3]| |]; [|done..].
  unfold inEE, onEE, gets, lift, modify, mbind, M_bind, outcome_bind.
  destruct (Interp.setExecutionContext _ _ _ _) as [e| |] eqn:E; [|done..]. intros [= <-].
  unfold Interp.setExecutionContext, Interp.createAddMainThread, mbind, outcome_bind in E.
  destruct (Interp.addNewThread _ _) as [e1| |] eqn:E1; [|done..]. cbn [EE set_EE].
  refine (mfold_ids _ _ _ _ _ E _); [intros ti; apply constructAddThreadFromInfo_ids|].
  apply (addNewThread_ids _ _ _ E1). by intros i t.
Qed.


(** ** A program explored from its start *)

(** The driver at the start of the exploration and at its end. *)
Definition full_run (code : list (list Instr)) (C : Config) (fuel : nat) :
    outcome (Driver (H := program code) * (bool * Driver (H := program code))) :=
  d ← make_driver (P := program code) VerificationMode tt tt;
  s ← start_exploration (P := program code) d;
  e ← explore_loop (P := program code) (C := C) (MM := RADriver) (visit code C) fuel (snd s);
  Ret (snd s, e).
Lemma full_run_loop code C n d d' :
  full_run code C n = Ret (d, (true, d')) ->
  exists d0, start_exploration (P := program code) d0 = Ret (tt, d) /\
             explore_loop (P := program code) (C := C) (MM := RADriver) (visit code C) n d = Ret (true, d').
Proof.
  unfold full_run, mbind, outcome_bind. intros E.
  destruct (make_driver _ _ _) as [d0| |]; [|done..]. exists d0.
  destruct (start_exploration d0) as [[[] d1]| |]; [|done..]. cbv beta iota delta [snd] in E.
  destruct (explore_loop _ _ d1) as [[b d2]| |] eqn:Ee; [|done..].
  injection E as -> -> ->. done.
Qed.
Lemma full_run_Explores code C n d d' :
  full_run code C n = Ret (d, (true, d')) ->
  Explores (P := program code) (C := C) (MM := RADriver) (visit code C) d d'.
Proof. intros (d0 & _ & E)%full_run_loop. apply explore_loop_Explores. by exists n. Qed.
Definition fresh_run {P : Program} (o : outcome (Driver * (bool * Driver))) : bool :=
  match o with
  | Ret (d, (ended, d')) => ended && negb (shouldHalt d) && bool_decide (status (result d) = VE_OK)
                            && bool_decide (status (result d') = VE_OK)
  | _ => false
  end.
Lemma fresh_run_ret {P : Program} o :
  fresh_run o = true ->
  exists d d', o = Ret (d, (true, d')) /\ shouldHalt d = false /\ status (result d) = VE_OK /\
               status (result d') = VE_OK.
Proof.
  destruct o as [[d [ended d']]| |]; cbn; [|done..]. rewrite !andb_true_iff. intros [[[-> H1] H2] H3].
  apply bool_decide_eq_true in H2, H3. exists d, d'. by destruct (shouldHalt d).
Qed.

(** Store buffering: two threads store to one variable and load the other. *)
Definition x : Z := addr 0.
Definition y : Z := addr 1.
Definition sb : list (list Instr) :=
  [[Spawn 1; Spawn 2]; [Store Monotonic x 4 1; Load Monotonic y 4]; [Store Monotonic y 4 1; Load Monotonic x 4]].

Lemma explores_verdict_witness :
  exists d d' : Driver (H := program sb),
    Keeps (P := program sb) Verdict (visit sb (config true)) /\
    Explores (P := program sb) (C := config true) (MM := RADriver) (visit sb (config true)) d d' /\
    shouldHalt d = false /\ status (result d) = VE_OK /\
    status (result d') = VE_OK /\ shouldHalt d' = false /\ execStack d' = [].
Proof.
  destruct (fresh_run_ret (full_run sb (config true) 100) ltac:(vm_compute; reflexivity)) as (d & d' & E & Hh & Hs & Hs').
  pose proof (full_run_Explores _ _ _ _ _ E) as He.
  assert (Keeps (P := program sb) Verdict (visit sb (config true))) as Hv by (apply visit_keeps; apply _).
  destruct (explores_verdict (P := program sb) (C := config true) (MM := RADriver) _ d d' Hv He Hh Hs) as [H1 H2].
  exists d, d'. split; [exact Hv|]. split; [exact He|]. split; [exact Hh|]. split; [exact Hs|]. split; [exact Hs'|].
  split; [by apply H1|by apply H2].
Defined.
Lemma explore_is_exploration_witness :
  exists d d' : Driver (H := program sb),
    (100 <= 200)%nat /\
    explore (P := program sb) (C := config true) (MM := RADriver) (visit sb (config true)) 100 d = Ret (true, d') /\
    explore (P := program sb) (C := config true) (MM := RADriver) (visit sb (config true)) 200 d = Ret (true, d').
Proof.
  destruct (fresh_run_ret (full_run sb (config true) 100) ltac:(vm_compute; reflexivity)) as (d & d' & E & _).
  destruct (full_run_loop _ _ _ _ _ E) as (d0 & E0 & E1).
  assert (explore (P := program sb) (C := config true) (MM := RADriver) (visit sb (config true)) 100 d0 = Ret (true, d'))
    as Ee by (unfold explore, mbind, M_bind; rewrite E0; exact E1).
  assert (100 <= 200)%nat as Hle by lia.
  exists d0, d'. split; [exact Hle|]. split; [exact Ee|].
  exact (proj2 (explore_is_exploration (P := program sb) (C := config true) (MM := RADriver) _ d0 d') _ _ Hle Ee).
Defined.
End ExploreFacts.
