(* ===== verification/Litmus.v ===== *)
(** * What the exploration finds: litmus tests, and the role of -mixer.

    The classical small programs are run through the whole model, from the
    creation of the driver to its verdict, and the number of executions it counts
    is the number of consistent ones.  Without -mixer a store revisits nothing:
    the set of sets of stores to keep, over which the revisits range, stays empty,
    and executions are missed. *)
From Stdlib Require Import String.
From stdpp Require Import strings.
From S2P Require Import Prelude Event SVal SAddr VSet SExpr Trie Deps Views Labels LabelClasses Graph Iterators Bounds Revisits Interp RARace RACoherence Execution MemoryModel Driver Checks Schedule RevisitCalc Revisiting Backtrack Handlers Explore Calls InternalNames Instructions Intrinsics FileSystem FsCalls Programs Frames FramesDriver FramesCalls ExploreFacts.
#[local] Open Scope Z_scope.

Module Litmus.
Import Drv Backtrack Handlers Explore Calls InternalNames Instructions Intrinsics FileSystem FsCalls Programs Frames FramesDriver FramesCalls ExploreFacts.

(** ** No backward revisits without -mixer *)

(** The work lists of the stack of executions. *)
Definition worklists `{P : Program} (d : Driver) : list WorkQueue.t := map workqueue (execStack d).
Definition SameWork `{P : Program} (d d' : Driver) : Prop := worklists d' = worklists d.
#[local] Instance SameWork_framing `{P : Program} `{MM : MemoryModel} : Framing SameWork.
Proof.
  unfold SameWork, worklists. untracked; try done.
  - split; [by intros d|by intros d1 d2 d3 -> ->].
  - intros d x xs g E _. by rewrite E.
  - intros d x xs c E. by rewrite E.
Qed.


(** ** Litmus tests *)

Section Tests.
Let x := addr 0.
Let y := addr 1.
#[local] Abbreviation rlx := Monotonic.
Definition two (p q : list Instr) : list (list Instr) := [[Spawn 1; Spawn 2]; p; q].
(** Store buffering; load buffering. *)
Definition SB := two [Store rlx x 4 1; Load rlx y 4] [Store rlx y 4 1; Load rlx x 4].
Definition LB := two [Load rlx y 4; Store rlx x 4 1] [Load rlx x 4; Store rlx y 4 1].
(** Message passing, synchronised and not. *)
Definition MP := two [Store rlx x 4 1; Store Release y 4 1] [Load Acquire y 4; Load rlx x 4].
Definition MP_relaxed := two [Store rlx x 4 1; Store rlx y 4 1] [Load rlx y 4; Load rlx x 4].
(** Read-read coherence, over one and over two stores. *)
Definition CoRR := two [Store rlx x 4 1] [Load rlx x 4; Load rlx x 4].
Definition CoRR2 := two [Store rlx x 4 1; Store rlx x 4 2] [Load rlx x 4; Load rlx x 4].
(** Independent reads of independent writes. *)
Definition IRIW : list (list Instr) :=
  [[Spawn 1; Spawn 2; Spawn 3; Spawn 4]; [Store rlx x 4 1]; [Store rlx y 4 1];
   [Load Acquire x 4; Load Acquire y 4]; [Load Acquire y 4; Load Acquire x 4]].
(** [n] stores to one location; [n] atomic increments. *)
Definition STORES (n : Z) : list (list Instr) := map (fun i => Spawn i) (seqZ 1 n) :: map (fun v => [Store rlx x 4 v]) (seqZ 1 n).
Definition INCS (n : Z) : list (list Instr) := map (fun i => Spawn i) (seqZ 1 n) :: replicate (Z.to_nat n) [FetchAdd rlx x 4 1].
(** Non-atomic accesses that race. *)
Definition RACE := two [Store NotAtomic x 4 1] [Load NotAtomic x 4].
(** A store of four bytes read in two halves, and the other way round. *)
Definition HALVES := two [Store rlx x 4 1] [Load rlx x 2; Load rlx (x + 2) 2].
Definition WHOLE := two [Store rlx x 2 1; Store rlx (x + 2) 2 1] [Load rlx x 4].

(** Competing and chained compare-and-exchanges; message passing with fences. *)
Definition CAS (e v : Z) (attr : option Z) : list Instr := [CmpXchg rlx x 4 e v attr].
Definition MP_fences := two [Store rlx x 4 1; Fence Release; Store rlx y 4 1] [Load rlx y 4; Fence Acquire; Load rlx x 4].
(** A helping CAS without and with one that it helps. *)
Definition UNHELPED := two [Store rlx x 4 1] (CAS 0 1 (Some GENMC_KIND_HELPING)).
Definition HELPED := two (CAS 0 1 (Some GENMC_KIND_HELPED)) (CAS 0 1 (Some GENMC_KIND_HELPING)).

(** The exploration of the litmus tests from end to end, to its end
    and with the right number of executions: four for store buffering, three for
    load buffering (a cycle of program order and reads-from is inconsistent) and
    for message passing (reading the flag and missing the data is), four without
    synchronisation, three and six for read-read coherence (no read goes back),
    sixteen for IRIW, the n! orders of n stores and of n increments, and four for
    a read in two halves or of two halves, two for compare-and-exchanges that
    compete (one fails) or follow one another; fences synchronise as the release
    and the acquire do, and the race is reported.  A helping CAS with no CAS to help
    blocks; one that has a CAS to help takes the value of an empty optional. *)
Example litmus_tests :
  let run code := verify code (config true) 200 in
  let all n := Ret (true, (n, 0, VE_OK)) in
  run SB = all 4 /\ run LB = all 3 /\ run MP = all 3 /\ run MP_relaxed = all 4 /\
  run CoRR = all 3 /\ run CoRR2 = all 6 /\ run IRIW = all 16 /\
  run (STORES 2) = all 2 /\ run (STORES 3) = all 6 /\ run (INCS 2) = all 2 /\ run (INCS 3) = all 6 /\
  run HALVES = all 4 /\ run WHOLE = all 4 /\
  run (two (CAS 0 1 None) (CAS 0 2 None)) = all 2 /\ run (two (CAS 0 1 None) (CAS 1 2 None)) = all 2 /\
  run MP_fences = all 3 /\ run RACE = Ret (true, (1, 0, VE_RaceNotAtomic)) /\
  run UNHELPED = Ret (true, (0, 1, VE_OK)) /\ run HELPED = Undef.
Proof. cbv zeta. repeat split; vm_compute; reflexivity. Qed.

(** Without -mixer executions are missed, and two increments give one order. *)
Lemma default_misses_executions :
  verify SB (config false) 200 = Ret (true, (2, 0, VE_OK)) /\
  verify LB (config false) 200 = Ret (true, (2, 0, VE_OK)) /\
  verify (INCS 2) (config false) 200 = Ret (true, (1, 0, VE_OK)).
Proof. repeat split; vm_compute; reflexivity. Qed.
(** ** Programs that call the provided functions *)

(** A reading and a writing of [y], neither atomic; in [n] threads behind a lock,
    behind [n] parties' barrier. *)
Definition CRITICAL : list Instr := [Load NotAtomic y 4; Store NotAtomic y 4 1].
Definition LOCKED (n : Z) : list (list Instr) :=
  map (fun i => Spawn i) (seqZ 1 n) ::
  replicate (Z.to_nat n) (Call "__VERIFIER_mutex_lock" [x] :: CRITICAL ++ [Call "__VERIFIER_mutex_unlock" [x]])%list.
Definition TRYLOCK := two [Call "__VERIFIER_mutex_trylock" [x]] [Call "__VERIFIER_mutex_trylock" [x]].
Definition BARRIER (n : Z) : list (list Instr) :=
  (Call "__VERIFIER_barrier_init" [x; 0; n] :: map (fun i => Spawn i) (seqZ 1 n)) ::
  replicate (Z.to_nat n) [Call "__VERIFIER_barrier_wait" [x]].
Definition BARRIER_MP : list (list Instr) :=
  [[Call "__VERIFIER_barrier_init" [x; 0; 2]; Spawn 1; Spawn 2];
   [Store NotAtomic y 4 1; Call "__VERIFIER_barrier_wait" [x]];
   [Call "__VERIFIER_barrier_wait" [x]; Load NotAtomic y 4]].
(** A thread that ends early, and is joined. *)
Definition JOINED : list (list Instr) :=
  [[Spawn 1; Call "__VERIFIER_thread_join" [1]; Load NotAtomic x 4];
   [Store NotAtomic x 4 1; Call "__VERIFIER_thread_exit" [0]; Store NotAtomic y 4 1]].
Definition ASSUMED := two [Store rlx x 4 1] [Load rlx x 4; Call "__VERIFIER_assume" [0]].
Definition ASSERTED := two [Store rlx x 4 1] [Load rlx x 4; Call "__VERIFIER_assert_fail" [addr 50]].
Definition COPIED : list (list Instr) := [[Store NotAtomic x 1 7; Call "memcpy" [y; x; 3]; Load NotAtomic y 1]].
Definition NO_MEMORY : list (list Instr) := [[Call "__VERIFIER_malloc" [8]; Call "__VERIFIER_malloc" [0]]].

(** The provided functions do their work from end to end: a lock
    orders the critical sections (n! executions, and no race where there is one
    without it) and waiting for it is a blocked execution; a lock that is only
    tried never blocks; a barrier passes when the last party arrives and orders
    what is before and after it; what a thread does is seen after it is joined, and
    [thread_exit] ends it; [assume(0)] blocks every execution, [assert_fail] and an
    allocation of nothing are reported, and [memcpy] copies without a race. *)
Example provided_functions :
  let run code := verify code (config true) 1000 in
  let ends n k e := Ret (true, (n, k, e)) in
  run (LOCKED 2) = ends 2 1 VE_OK /\ run (LOCKED 3) = ends 6 6 VE_OK /\
  run (two CRITICAL CRITICAL) = ends 1 0 VE_RaceNotAtomic /\
  run TRYLOCK = ends 2 0 VE_OK /\
  run (BARRIER 2) = ends 2 2 VE_OK /\ run BARRIER_MP = ends 2 2 VE_OK /\
  run JOINED = ends 1 0 VE_OK /\ run COPIED = ends 1 0 VE_OK /\
  run ASSUMED = ends 0 1 VE_OK /\ run ASSERTED = ends 1 0 VE_Safety /\
  run NO_MEMORY = ends 1 0 VE_Allocation.
Proof. cbv zeta. repeat split; vm_compute; reflexivity. Qed.
End Tests.

(** The driver at the end of the first execution. *)
Definition first_execution (code : list (list Instr)) (C : Config) (fuel : nat) : outcome (Driver (H := program code)) :=
  d ← make_driver (P := program code) VerificationMode tt tt;
  s ← start_exploration (P := program code) d;
  s ← before_run (P := program code) (snd s);
  s ← loop (P := program code) fuel (run_step (P := program code) (C := C) (MM := RADriver) (visit code C)) (snd s);
  Ret (snd s).
Definition revisits_after (code : list (list Instr)) (C : Config) (fuel : nat) (store : Event) :
    outcome (Driver (H := program code) * (bool * Driver (H := program code))) :=
  d ← first_execution code C fuel;
  r ← calcRevisits (P := program code) (C := C) (MM := RADriver) store d;
  Ret (d, r).
Lemma revisits_after_ret code C fuel store :
  (match revisits_after code C fuel store with Ret _ => true | _ => false end) = true ->
  exists d b d', calcRevisits (P := program code) (C := C) (MM := RADriver) store d = Ret (b, d').
Proof.
  unfold revisits_after, mbind, outcome_bind. destruct (first_execution code C fuel) as [d| |]; [|done..].
  destruct (calcRevisits store d) as [[b d']| |] eqn:E; [|done..]. intros _. by exists d, b, d'.
Qed.
End Litmus.
