(* ===== verification/SoundFacts.v ===== *)
(** * The graphs of the exploration are well-typed, from its start to its end. *)
From S2P Require Import Prelude Event SVal SAddr VSet SExpr Trie TrieFacts Deps Views Labels LabelClasses Graph GraphBase GraphRf Iterators Bounds Revisits Interp RARace RACoherence Execution MemoryModel Driver Checks Symmetry Schedule Revisiting Backtrack Handlers Explore Calls InternalNames Instructions Intrinsics FileSystem FsCalls Typed Frames FramesDriver FramesCalls Programs ExploreFacts Litmus.
#[local] Open Scope Z_scope.

Module SoundFacts.
Import ExecutionGraph Drv Explore Typed Frames FramesDriver FramesCalls Programs ExploreFacts Litmus.

(** ** The states the exploration goes through *)

Section Reached.
Context `{P : Program} `{C : Config} `{MM : MemoryModel} (visitInst : M unit).
(** What the loops of the code do, one call after another, in any order. *)
Inductive Does : Driver -> Driver -> Prop :=
| does_start d d' : before_run d = Ret (tt, d') -> Does d d'
| does_step d b d' : run_step visitInst d = Ret (b, d') -> Does d d'
| does_end d d' : handleExecutionEnd d = Ret (tt, d') -> Does d d'
| does_recover d d' : before_recovery d = Ret (tt, d') -> Does d d'
| does_recovered d d' : handleRecoveryEnd d = Ret (tt, d') -> Does d d'
| does_pick d n d' : try_option d = Ret (n, d') -> Does d d'.
Inductive Reached (d : Driver) : Driver -> Prop :=
| reached_start : Reached d d
| reached_next d1 d2 : Reached d d1 -> Does d1 d2 -> Reached d d2.

Lemma Reached_trans d1 d2 d3 : Reached d1 d2 -> Reached d2 d3 -> Reached d1 d3.
Proof. intros H. induction 1; [done|by eapply reached_next]. Qed.
Lemma Reached_one d d' : Does d d' -> Reached d d'.
Proof. apply reached_next, reached_start. Qed.
Lemma Loop_Reached d d' : Loop (run_step visitInst) d d' -> Reached d d'.
Proof.
  induction 1 as [d d' E|d d1 d' E _ IH]; [by eapply Reached_one, does_step|].
  eapply Reached_trans; [by eapply Reached_one, does_step|done].
Qed.
Lemma Picks_Reached d b d' : Picks d b d' -> Reached d d'.
Proof.
  induction 1 as [d d' E|d d' E|d d1 b d' E _ IH]; [by eapply Reached_one, does_pick..|].
  eapply Reached_trans; [by eapply Reached_one, does_pick|done].
Qed.
Lemma Executes_Reached d d' : Executes visitInst d d' -> Reached d d'.
Proof.
  intros [d0 d1 d2 d3 d4 E1 L E2 H].
  eapply Reached_trans; [by eapply Reached_one, does_start|]. eapply Reached_trans; [by apply Loop_Reached|].
  eapply Reached_trans; [by eapply Reached_one, does_end|].
  destruct conf_persevere; [|subst; apply reached_start]. destruct H as (d5 & d6 & E3 & L' & E4).
  eapply Reached_trans; [by eapply Reached_one, does_recover|]. eapply Reached_trans; [by apply Loop_Reached|].
  by eapply Reached_one, does_recovered.
Qed.
Lemma loop_Reached n b d d' : loop n (run_step visitInst) d = Ret (b, d') -> Reached d d'.
Proof.
  revert d. induction n as [|n IH]; intros d; cbn; [intros [= _ <-]; apply reached_start|].
  unfold mbind, M_bind. destruct (run_step visitInst d) as [[[] d1]| |] eqn:E; [| |done..].
  - intros H. eapply Reached_trans; [by eapply Reached_one, does_step|by apply IH].
  - intros [= _ <-]. by eapply Reached_one, does_step.
Qed.
(** The end of the exploration is one of them. *)
Lemma Explores_Reached d d' : Explores visitInst d d' -> Reached d d'.
Proof.
  induction 1 as [d|d d1 d2 _ He Hp|d d1 d2 d3 _ He Hp _ IH]; [apply reached_start| |].
  - eapply Reached_trans; [by apply Executes_Reached|by eapply Picks_Reached].
  - eapply Reached_trans; [by apply Executes_Reached|]. eapply Reached_trans; [by eapply Picks_Reached|done].
Qed.
Lemma Does_keeps {R : Driver -> Driver -> Prop} `{WR : !WorkFraming R} d d' :
  Keeps R visitInst -> Does d d' -> R d d'.
Proof.
  intros Hv. destruct 1 as [d d' E|d b d' E|d d' E|d d' E|d d' E|d n d' E].
  - by eapply before_run_keeps.
  - by eapply run_step_keeps.
  - by eapply handleExecutionEnd_keeps.
  - by eapply before_recovery_keeps.
  - refine (scheduleThread_keeps 0 _ _ _ E).
  - by eapply try_option_keeps.
Qed.
Lemma Reached_keeps {R : Driver -> Driver -> Prop} `{WR : !WorkFraming R} d d' :
  Keeps R visitInst -> Reached d d' -> R d d'.
Proof. intros Hv. induction 1 as [|d1 d2 _ IH Hd]; [reflexivity|]. etransitivity; [done|by apply Does_keeps]. Qed.
End Reached.

(** ** Well-typed graphs *)

Definition Sound `{P : Program} (d d' : Driver) : Prop := sound d -> sound d'.
#[export] Instance Sound_framing `{P : Program} `{MM : MemoryModel} `{TM : !TypedModel MM} : WorkFraming Sound.
Proof.
  assert (forall d d', execStack d' = execStack d -> seenPrefixes d' = seenPrefixes d -> Sound d d') as Hsame.
  { intros d d' E1 E2. unfold Sound, sound. by rewrite E1, E2. }
  assert (forall d x xs x', execStack d = x :: xs -> (typed (graph x) -> typed (graph x')) ->
    Sound d (set_execStack (x' :: xs) d)) as Htop.
  { intros d x xs x' E Hx [Hs Hc]. split; [|exact Hc]. revert Hs. unfold stack_typed. cbn. rewrite E.
    intros [H1 H2]%Forall_cons. constructor; auto. }
  unshelve econstructor; [unshelve econstructor; [exact True|..]|]; try done; try by (intros; apply Hsame).
  - intros d d' H Hs. by apply H.
  - split; [by intros d H|]. intros d1 d2 d3 H1 H2 Hs. by apply H2, H1.
  - intros d x xs g E Hg. apply (Htop d x); auto.
  - intros d x xs c E. by apply (Htop d x).
  - intros d s Hs [H1 H2]. split; [exact H1|]. cbn. auto.
  - intros d xs Hs [H1 H2]. split; [exact (Hs I H1)|exact H2].
Qed.
Lemma make_driver_sound `{P : Program} md r e d : make_driver md r e = Ret d -> sound d.
Proof.
  unfold make_driver. destruct ExecutionGraph.make as [g| |] eqn:E; [|done..]. intros [= <-].
  apply typed_make in E as [Hg _]. split; [cbn; by apply Forall_cons|by constructor].
Qed.

(** Property C7.  From the creation of the driver on, in every state the
    exploration goes through - between any two calls of its loops, in any order, in
    recovery and across revisits - the graph of every execution on the stack is
    well-typed: a label that is at a position has that position, a stamp, and data
    that fit its kind, and the initializer, and only it, is at (0, 0).  So do the data
    of the labels cached for other executions fit their kinds.  The interpreter may
    be any that reaches the driver through its methods. *)
Theorem explored_graphs_typed `{P : Program} `{C : Config} `{MM : MemoryModel} `{TM : !TypedModel MM}
    visitInst md r e d0 d1 d :
  Keeps Sound visitInst -> make_driver md r e = Ret d0 -> start_exploration d0 = Ret (tt, d1) ->
  Reached visitInst d1 d ->
  (forall x, x ∈ execStack d -> typed (graph x)) /\ cache_ok (seenPrefixes d).
Proof.
  intros Hv E0 E1 Hr. assert (sound d) as [Hs Hc].
  { apply (Reached_keeps visitInst d1 d Hv Hr), (start_exploration_keeps (R := Sound) d0 tt d1 E1).
    by eapply make_driver_sound. }
  split; [|done]. by apply Forall_forall.
Qed.

(** The end of the first execution of store buffering. *)
Lemma first_execution_reached code C n d :
  first_execution code C n = Ret d ->
  exists d0 d1, make_driver (P := program code) VerificationMode tt tt = Ret d0 /\
    start_exploration (P := program code) d0 = Ret (tt, d1) /\
    Reached (P := program code) (C := C) (MM := RADriver) (visit code C) d1 d.
Proof.
  unfold first_execution, mbind, outcome_bind. destruct (make_driver _ _ _) as [d0| |]; [|done..].
  destruct (start_exploration d0) as [[[] d1]| |] eqn:E1; [|done..]. cbv beta iota delta [snd].
  destruct (before_run d1) as [[[] d2]| |] eqn:E2; [|done..].
  destruct (loop _ _ d2) as [[b d3]| |] eqn:E3; [|done..]. intros [= <-]. exists d0, d1. split_and!; [done..|].
  eapply Reached_trans; [by eapply Reached_one, does_start|by eapply loop_Reached].
Qed.
Definition running {P : Program} (o : outcome Driver) : bool :=
  match o with Ret d => match execStack d with [] => false | _ => true end | _ => false end.
Lemma running_ret {P : Program} o : running o = true -> exists d x xs, o = Ret d /\ execStack d = x :: xs.
Proof. destruct o as [d| |]; [|done..]. cbn. destruct (execStack d) as [|x xs] eqn:E; [done|]. intros _. by exists d, x, xs. Qed.

Lemma explored_graphs_typed_witness :
  exists (d0 d1 d : Driver (H := program sb)) x,
    Keeps (P := program sb) Sound (visit sb (config true)) /\
    make_driver (P := program sb) VerificationMode tt tt = Ret d0 /\
    start_exploration (P := program sb) d0 = Ret (tt, d1) /\
    Reached (P := program sb) (C := config true) (MM := RADriver) (visit sb (config true)) d1 d /\
    x ∈ execStack d /\ typed (graph x).
Proof.
  destruct (running_ret (first_execution sb (config true) 100) ltac:(vm_compute; reflexivity)) as (d & x & xs & E & Ex).
  destruct (first_execution_reached _ _ _ _ E) as (d0 & d1 & E0 & E1 & Hr).
  assert (Keeps (P := program sb) Sound (visit sb (config true))) as Hv by (apply visit_keeps; apply _).
  assert (x ∈ execStack d) as Hx by (rewrite Ex; by left).
  exists d0, d1, d, x. split; [exact Hv|]. split; [exact E0|]. split; [exact E1|]. split; [exact Hr|]. split; [exact Hx|].
  exact (proj1 (explored_graphs_typed (P := program sb) (C := config true) (MM := RADriver) _ _ _ _ d0 d1 d Hv E0 E1 Hr) x Hx).
Defined.
End SoundFacts.
