(* ===== verification/ConfigOptions.v ===== *)
(** * The configuration (src/src/Config.cpp, Config.hpp), the models it may name
    (MemoryModel.hpp) and the driver made for it (DriverFactory.hpp, main.cpp).

    What the command line parser leaves in the [cl::opt] variables is a record;
    warnings are output, and [ERROR] ends the process.  The release build is
    modelled: options of the debug build do not exist. *)
From Stdlib Require Import String.
From stdpp Require Import strings.
From S2P Require Import Prelude VSet Bounds MemoryModel Driver Calls.
#[local] Open Scope Z_scope.

(** ** Memory models *)

Inductive ModelType := SC | TSO | RA | RC11 | IMM.
#[global] Instance ModelType_eq : EqDecision ModelType.
Proof. solve_decision. Defined.
#[global] Instance SchedulePolicy_eq : EqDecision SchedulePolicy.
Proof. solve_decision. Defined.
Definition isStrongerThan (model other : ModelType) : bool :=
  match model, other with
  | SC, (TSO | RA | RC11 | IMM) | TSO, (RA | RC11 | IMM) | RA, (RC11 | IMM) | RC11, IMM => true
  | _, _ => false
  end.
Inductive VerbosityLevel := Quiet | Error | Warning | Tip.

Module Cfg.

(** ** Command line options *)

(** The options that are checked and adapted to each other. *)
Record Switches := mkSwitches {
  clModelType : ModelType; clDisableEstimation : bool; clBound : Z; clLAPOR : bool;
  clDisableSymmetryReduction : bool; clHelper : bool; clMixer : bool; clDisableBAM : bool; clDisableIPR : bool;
  clDisableMMDetector : bool; clSchedulePolicy : SchedulePolicy }.
(** The other ones. *)
Record Others := mkOthers {
  clCFLAGS : list string; clInputFile : string; clThreads : Z; clBoundType : BoundType;
  clPrintErrorTrace : bool; clDotGraphFile : string; clCheckLiveness : bool;
  clDisableInstructionCaching : bool; clDisableRaceDetection : bool; clDisableStopOnSystemError : bool;
  clPersevere : bool; clBlockSize : Z; clMaxFileSize : Z; clJournalData : JournalDataFS; clDisableDelalloc : bool;
  clLoopUnroll : Z; clNoUnrollFuns : list string; clDisableLoopJumpThreading : bool;
  clDisableCastElimination : bool; clDisableFunctionInliner : bool; clDisableSpinAssume : bool;
  clDisableCodeCondenser : bool; clDisableLoadAnnot : bool; clDisableAssumePropagation : bool;
  clDisableConfirmAnnot : bool;
  clEstimationMax : Z; clEstimationMin : Z; clEstimationSdThreshold : Z;
  clProgramEntryFunction : list string; clInputFromBitcodeFile : bool; clTransformFile : string;
  clSkipTransforms : bool; clTransformOnly : bool; clTransformBcFile : string; clDiscoverRustTests : bool;
  clRustTestFilter : string; clListRustTests : bool; clTraceOutputDir : string; clPerTestTimeout : Z;
  clWarnOnGraphSize : Z; clPrintArbitraryScheduleSeed : bool; clArbitraryScheduleSeed : string;
  clPrintExecGraphs : bool; clPrintBlockedExecs : bool; clVLevel : VerbosityLevel }.
Record Options := mkOptions { switches : Switches; others : Others }.

(** What they are when they are not given. *)
Definition default_switches : Switches := mkSwitches RC11 false (-1) false false false false false false false wf.
Definition default_others (input : string) : Others :=
  {| clCFLAGS := []; clInputFile := input; clThreads := 1; clBoundType := round;
     clPrintErrorTrace := false; clDotGraphFile := ""; clCheckLiveness := false;
     clDisableInstructionCaching := false; clDisableRaceDetection := false; clDisableStopOnSystemError := false;
     clPersevere := false; clBlockSize := 2; clMaxFileSize := 64; clJournalData := ordered; clDisableDelalloc := false;
     clLoopUnroll := -1; clNoUnrollFuns := []; clDisableLoopJumpThreading := false;
     clDisableCastElimination := false; clDisableFunctionInliner := false; clDisableSpinAssume := false;
     clDisableCodeCondenser := false; clDisableLoadAnnot := false; clDisableAssumePropagation := false;
     clDisableConfirmAnnot := false;
     clEstimationMax := 1000; clEstimationMin := 10; clEstimationSdThreshold := 10;
     clProgramEntryFunction := []; clInputFromBitcodeFile := false; clTransformFile := "";
     clSkipTransforms := false; clTransformOnly := false; clTransformBcFile := ""; clDiscoverRustTests := false;
     clRustTestFilter := ""; clListRustTests := false; clTraceOutputDir := ""; clPerTestTimeout := 0;
     clWarnOnGraphSize := 1024; clPrintArbitraryScheduleSeed := false; clArbitraryScheduleSeed := "";
     clPrintExecGraphs := false; clPrintBlockedExecs := false; clVLevel := Tip |}.
Definition default_options (input : string) : Options := mkOptions default_switches (default_others input).

(** ** Checking *)

(** In-place revisiting and symmetry reduction have no effect under IMM. *)
Definition adapt_imm (s : Switches) : Switches :=
  if bool_decide (clModelType s = IMM) && (negb (clDisableIPR s) || negb (clDisableSymmetryReduction s))
  then mkSwitches (clModelType s) (clDisableEstimation s) (clBound s) (clLAPOR s) true (clHelper s) (clMixer s)
         (clDisableBAM s) true (clDisableMMDetector s) (clSchedulePolicy s)
  else s.
Definition adapt_bound (s : Switches) : Switches :=
  if negb (clBound s =? -1)
     && (clLAPOR s || clHelper s || negb (clDisableBAM s) || negb (clDisableSymmetryReduction s)
         || negb (clDisableIPR s) || negb (bool_decide (clSchedulePolicy s = ltr)))
  then mkSwitches (clModelType s) (clDisableEstimation s) (clBound s) false true false (clMixer s) true true
         (clDisableMMDetector s) ltr
  else s.
Definition adapt_mixer (s : Switches) : Switches :=
  if clMixer s
  then mkSwitches RA true (-1) (clLAPOR s) true false true true true true ltr
  else s.
(** The file system is asked whether the input is a regular file. *)
Definition checkConfigOptions (is_regular_file : string -> bool) (o : Options) : outcome Options :=
  let s := switches o in
  _ ← BUG_ON (clLAPOR s);
  _ ← BUG_ON (clHelper s && bool_decide (clSchedulePolicy s = arbitrary));
  let s := adapt_imm s in
  _ ← BUG_ON (negb (clBound s =? -1) && negb (bool_decide (clModelType s = SC)));
  let s := adapt_mixer (adapt_bound s) in
  _ ← BUG_ON (negb (is_regular_file (clInputFile (others o))));
  Ret (mkOptions s (others o)).

(** ** The configuration *)

(** The model may change later. *)
Record Chosen := mkChosen { model_ : ModelType; isDepTrackingModel_ : bool }.
Record Settings := mkSettings {
  cflags : list string; inputFile : string;
  estimate : bool; threads : Z; bound : option Z; boundType : BoundType;
  LAPOR : bool; symmetryReduction : bool; helper : bool; mixer : bool; checkLiveness : bool; printErrorTrace : bool;
  dotFile : string; instructionCaching : bool; disableRaceDetection : bool; disableBAM : bool; ipr : bool;
  disableStopOnSystemError : bool;
  persevere : bool; blockSize : Z; maxFileSize : Z; journalData : JournalDataFS; disableDelalloc : bool;
  unroll : option Z; noUnrollFuns : list string; castElimination : bool; inlineFunctions : bool;
  loopJumpThreading : bool; spinAssume : bool; codeCondenser : bool; loadAnnot : bool; assumePropagation : bool;
  confirmAnnot : bool; mmDetector : bool;
  estimationMax : Z; estimationMin : Z; sdThreshold : Z; inputFromBitcodeFile : bool; printExecGraphs : bool;
  printBlockedExecs : bool; schedulePolicy : SchedulePolicy; randomScheduleSeed : string;
  printRandomScheduleSeed : bool; transformFile : string; skipTransforms : bool; transformOnly : bool;
  transformBcFile : string; programEntryFun : string; programEntryFuns : list string; discoverRustTests : bool;
  rustTestFilter : string; listRustTests : bool; traceOutputDir : string; perTestTimeout : Z; warnOnGraphSize : Z;
  vLevel : VerbosityLevel }.
Record Conf := mkConf { chosen : Chosen; settings :> Settings }.
Definition model (c : Conf) : ModelType := model_ (chosen c).
Definition isDepTrackingModel (c : Conf) : bool := isDepTrackingModel_ (chosen c).
(** [isDepTrackingModel] is set with the model. *)
Definition choose (m : ModelType) : Chosen := mkChosen m (bool_decide (m = IMM)).

(** The option [N] of an [int] with the default -1. *)
Definition given (n : Z) : option Z := if n >=? 0 then Some n else None.
(** Functions of the runtime library are never unrolled. *)
Definition no_unroll (funs : list string) : list string :=
  foldl (VSet.insert1 String.ltb) (VSet.of_range String.ltb funs) ["memcpy"; "memmove"; "memset"; "memcmp"]%string.
Definition entry_functions (funs : list string) : list string := match funs with [] => ["main"%string] | _ => funs end.
Definition saveConfigOptions (o : Options) : Conf :=
  let s := switches o in
  let o := others o in
  let entries := entry_functions (clProgramEntryFunction o) in
  mkConf (choose (clModelType s))
  {| cflags := clCFLAGS o; inputFile := clInputFile o;
     dotFile := clDotGraphFile o; estimate := negb (clDisableEstimation s);
     estimationMax := clEstimationMax o; estimationMin := clEstimationMin o; sdThreshold := clEstimationSdThreshold o;
     threads := clThreads o; bound := given (clBound s);
     boundType := clBoundType o; LAPOR := clLAPOR s; symmetryReduction := negb (clDisableSymmetryReduction s);
     helper := clHelper s; mixer := clMixer s; printErrorTrace := clPrintErrorTrace o; checkLiveness := clCheckLiveness o;
     instructionCaching := negb (clDisableInstructionCaching o); disableRaceDetection := clDisableRaceDetection o;
     disableBAM := clDisableBAM s; ipr := negb (clDisableIPR s);
     disableStopOnSystemError := clDisableStopOnSystemError o;
     persevere := clPersevere o; blockSize := clBlockSize o; maxFileSize := clMaxFileSize o;
     journalData := clJournalData o; disableDelalloc := clDisableDelalloc o;
     unroll := given (clLoopUnroll o); noUnrollFuns := no_unroll (clNoUnrollFuns o);
     loopJumpThreading := negb (clDisableLoopJumpThreading o); castElimination := negb (clDisableCastElimination o);
     inlineFunctions := negb (clDisableFunctionInliner o); spinAssume := negb (clDisableSpinAssume o);
     codeCondenser := negb (clDisableCodeCondenser o); loadAnnot := negb (clDisableLoadAnnot o);
     assumePropagation := negb (clDisableAssumePropagation o); confirmAnnot := negb (clDisableConfirmAnnot o);
     mmDetector := negb (clDisableMMDetector s);
     programEntryFuns := entries; programEntryFun := hd EmptyString entries; warnOnGraphSize := clWarnOnGraphSize o;
     schedulePolicy := clSchedulePolicy s; printRandomScheduleSeed := clPrintArbitraryScheduleSeed o;
     randomScheduleSeed := clArbitraryScheduleSeed o; printExecGraphs := clPrintExecGraphs o;
     printBlockedExecs := clPrintBlockedExecs o; inputFromBitcodeFile := clInputFromBitcodeFile o;
     transformFile := clTransformFile o; skipTransforms := clSkipTransforms o; transformOnly := clTransformOnly o;
     transformBcFile := clTransformBcFile o; discoverRustTests := clDiscoverRustTests o;
     rustTestFilter := clRustTestFilter o; listRustTests := clListRustTests o; traceOutputDir := clTraceOutputDir o;
     perTestTimeout := clPerTestTimeout o; vLevel := clVLevel o |}.
(** After the command line is parsed. *)
Definition getConfigOptions (is_regular_file : string -> bool) (o : Options) : outcome Conf :=
  o ← checkConfigOptions is_regular_file o; Ret (saveConfigOptions o).

(** ** The driver that is made *)

(** [transformInput]: the model found by the detector pass, when it is stronger. *)
Definition adjust_model (determinedMM : option ModelType) (c : Conf) : Conf :=
  match determinedMM with
  | Some m => if mmDetector c && isStrongerThan m (model c) then mkConf (choose m) (settings c) else c
  | None => c
  end.
(** [DriverFactory::create]: the cases of the other models are commented out. *)
Definition create (c : Conf) : outcome MemoryModel :=
  match model c with RA => Ret RADriver | _ => Bug end.
(** What the driver reads of the configuration. *)
Definition driver_config (c : Conf) : Config :=
  mkConfig (bound c) (boundType c) (symmetryReduction c) (helper c) (mixer c) (checkLiveness c) (instructionCaching c)
    (disableRaceDetection c) (disableBAM c) (ipr c) (persevere c) (schedulePolicy c) (estimationMin c) (sdThreshold c).
End Cfg.
