(* ===== verification/Verification.v ===== *)
(** * From the configuration to the exit code (GenMCDriver::verify and estimate,
    main.cpp).

    Parsing, compiling and transforming the input, listing its tests and the
    child processes of [-per-test-timeout] are the operating system's and LLVM's:
    what they answer is a parameter.  Printing and the files output goes to are
    left out, but for the check on the bound. *)
From Stdlib Require Import String.
From S2P Require Import Prelude Event SVal Labels Bounds Revisits Interp RARace Execution MemoryModel Driver Explore ConfigOptions.
#[local] Open Scope Z_scope.

Module Verification.
Import Drv Explore Cfg.

#[global] Instance BoundType_eq : EqDecision BoundType.
Proof. solve_decision. Defined.
Definition ECOMPILE : Z := 5.
Definition EVERIFY : Z := 42.

(** ** Results *)

Section Results.
Context `{P : Program}.
Definition no_result : Result := mkResult VE_OK 0 0 0 (ld 0) (ld 0) [].
(** [Result::operator+=]: the latest error stays; warnings are a set. *)
Definition add_result (r other : Result) : Result :=
  {| status := if decide (status other = VE_OK) then status r else status other;
     explored := u32 (explored r + explored other);
     exploredBlocked := u32 (exploredBlocked r + exploredBlocked other);
     boundExceeding := u32 (boundExceeding r + boundExceeding other);
     estimationMean := ld_add (estimationMean r) (estimationMean other);
     estimationVariance := ld_add (estimationVariance r) (estimationVariance other);
     warnings := foldl (fun ws w => if decide (w ∈ ws) then ws else w :: ws) (warnings r) (warnings other) |}.

(** ** Verifying one entry function *)

(** The interpreter is given the driver's configuration and model. *)
Context (visitInst : Config -> MemoryModel -> M unit).
(** [driver->run()] by the driver that is made for the configuration; whether the
    fuel was enough, and the result. *)
Definition run (c : Conf) (md : Mode) (rng est : RNG) (fuel : nat) : outcome (bool * Result) :=
  MM ← create c;
  d ← make_driver md rng est;
  let C := driver_config c in
  r ← explore (C := C) (MM := MM) (visitInst C MM) fuel d;
  Ret (fst r, result (snd r)).
(** With several threads the workers' results are added, in the order of the
    pool's futures. *)
Definition verify (c : Conf) (rng est : RNG) (fuel : nat) (futures : list Result) : outcome (bool * Result) :=
  if threads c =? 1 then run c VerificationMode rng est fuel
  else Ret (true, foldl add_result no_result futures).
Definition estimation (c : Conf) (rng est : RNG) (fuel : nat) : outcome (bool * Result) :=
  run c (EstimationMode (estimationMax c)) rng est fuel.
(** The number of executions over the bound is printed for context bounds only. *)
Definition printVerificationResults (c : Conf) (r : Result) : outcome unit :=
  if negb (boundExceeding r =? 0) then BUG_ON (bool_decide (boundType c = round)) else Ret tt.
End Results.

(** ** The process *)

(** How the verification of an entry function ends: in the process with a status,
    or in a child that exits with a code, dies of a signal, or is killed when its
    time is over. *)
Inductive TestRun := InProcess (s : VerificationError) | Exited (code : Z) | Signalled | TimedOut.
Definition after_test (overallResult : Z) (t : TestRun) : Z :=
  match t with
  | InProcess s => if decide (s = VE_OK) then overallResult else EVERIFY
  | Exited code => if negb (code =? 0) then EVERIFY else overallResult
  | Signalled | TimedOut => overallResult
  end.
(** What the process does not compute itself. *)
Record World := mkWorld {
  compiles : bool;
  discovered : list string;
  determinedMM : option ModelType;
  estimated : VerificationError;
  tests : Conf -> list string -> list TestRun }.
Definition verify_all (w : World) (c : Conf) (entries : list string) : Z :=
  if estimate c && (length entries =? 1)%nat && negb (bool_decide (estimated w = VE_OK)) then EVERIFY
  else foldl after_test 0 (tests w c entries).
Definition transformed (w : World) (c : Conf) (entries : list string) : Z :=
  let c := if skipTransforms c then c else adjust_model (determinedMM w) c in
  if transformOnly c then 0 else verify_all w c entries.
(** The exit code of [main] for a configuration. *)
Definition main (w : World) (c : Conf) : Z :=
  if negb (inputFromBitcodeFile c) && negb (compiles w) then ECOMPILE
  else if discoverRustTests c then
    match discovered w with
    | [] => 1
    | ts => if listRustTests c then 0 else transformed w c ts
    end
  else transformed w c (programEntryFuns c).
End Verification.
