(* ===== verification/ConfigFacts.v ===== *)
(** * What the accepted configurations promise the driver, and what the verdict of
    a verification and the exit code mean. *)
From Stdlib Require Import String.
From stdpp Require Import strings.
From S2P Require Import Prelude VSet Event SVal Labels Graph Bounds Revisits Interp RARace Execution MemoryModel Driver Calls Checks Backtrack Explore Typed Frames FramesDriver Programs ExploreFacts ConfigOptions Verification.
#[local] Open Scope Z_scope.

Module ConfigFacts.
Import Cfg Drv Checks Explore Frames FramesDriver Programs ExploreFacts Verification.

(** ** Memory models *)

(** "Is stronger than" is a strict total order. *)
Lemma isStrongerThan_order a b c :
  isStrongerThan a a = false /\
  (isStrongerThan a b = true -> isStrongerThan b c = true -> isStrongerThan a c = true) /\
  (a = b \/ isStrongerThan a b = true \/ isStrongerThan b a = true).
Proof. destruct a, b, c; cbn; repeat split; try done; auto. Qed.

(** ** Accepted options *)

(** The switches after checking, whatever they were. *)
Record agreed (s : Switches) : Prop := {
  ag_lapor : clLAPOR s = false;
  ag_helper : clHelper s = true -> clSchedulePolicy s <> arbitrary;
  ag_imm : clModelType s = IMM -> clDisableIPR s = true /\ clDisableSymmetryReduction s = true;
  ag_bound : clBound s <> -1 -> clModelType s = SC /\ clMixer s = false /\ clSchedulePolicy s = ltr;
  ag_bounded : clBound s <> -1 -> clHelper s = false /\ clDisableBAM s = true /\ clDisableIPR s = true /\
                                   clDisableSymmetryReduction s = true;
  ag_mixer : clMixer s = true ->
    clModelType s = RA /\ clDisableEstimation s = true /\ clBound s = -1 /\ clHelper s = false /\
    clDisableBAM s = true /\ clDisableIPR s = true /\ clDisableSymmetryReduction s = true /\
    clDisableMMDetector s = true /\ clSchedulePolicy s = ltr }.
Lemma BUG_ON_ret b u : BUG_ON b = Ret u -> b = false.
Proof. by destruct b. Qed.
Lemma adapt_imm_same s : clBound (adapt_imm s) = clBound s /\ clModelType (adapt_imm s) = clModelType s.
Proof. unfold adapt_imm. by destruct (_ && _). Qed.
Lemma adapt_imm_off s :
  clModelType s = IMM -> clDisableIPR (adapt_imm s) = true /\ clDisableSymmetryReduction (adapt_imm s) = true.
Proof. unfold adapt_imm. intros ->. destruct (clDisableIPR s) eqn:E1, (clDisableSymmetryReduction s) eqn:E2; cbn; auto. Qed.
Lemma adapt_imm_keeps s :
  clHelper (adapt_imm s) = clHelper s /\ clSchedulePolicy (adapt_imm s) = clSchedulePolicy s /\
  clLAPOR (adapt_imm s) = clLAPOR s /\ clMixer (adapt_imm s) = clMixer s.
Proof. unfold adapt_imm. by destruct (_ && _). Qed.
Lemma adapt_bound_unbounded s : clBound s = -1 -> adapt_bound s = s.
Proof. unfold adapt_bound. by intros ->. Qed.
Lemma adapt_bound_bounded s :
  clBound s <> -1 -> clLAPOR s = false ->
  let s' := adapt_bound s in
  clBound s' = clBound s /\ clModelType s' = clModelType s /\ clMixer s' = clMixer s /\ clLAPOR s' = false /\
  clSchedulePolicy s' = ltr /\ clHelper s' = false /\ clDisableBAM s' = true /\ clDisableIPR s' = true /\
  clDisableSymmetryReduction s' = true.
Proof.
  intros Hb Hl. cbv zeta. unfold adapt_bound. destruct (Z.eqb_spec (clBound s) (-1)); [done|]. cbn [negb andb].
  destruct (_ || _) eqn:E; [done|]. rewrite !orb_false_iff, !negb_false_iff, bool_decide_eq_true in E. naive_solver.
Qed.
Lemma agreed_mixer s : clLAPOR s = false -> (clMixer s = false -> agreed s) -> agreed (adapt_mixer s).
Proof.
  intros Hl Hs. unfold adapt_mixer. destruct (clMixer s); [|by apply Hs]. split; cbn; intros; try done.
Qed.
Lemma checked_agreed f o o' : checkConfigOptions f o = Ret o' -> agreed (switches o').
Proof.
  unfold checkConfigOptions. set (s := switches o).
  destruct (BUG_ON (clLAPOR s)) eqn:E1; [|done..]. apply BUG_ON_ret in E1. cbn [mbind outcome_bind].
  destruct (BUG_ON (clHelper s && _)) eqn:E2; [|done..]. apply BUG_ON_ret in E2. cbn [mbind outcome_bind].
  destruct (BUG_ON (negb (clBound _ =? -1) && _)) eqn:E3; [|done..]. apply BUG_ON_ret in E3. cbn [mbind outcome_bind].
  destruct (BUG_ON (negb (f _))); [|done..]. intros [= <-]. cbn [switches]. clearbody s. clear o f a a0 a1 a2.
  destruct (adapt_imm_same s) as [Eb Em]. destruct (adapt_imm_keeps s) as (Eh & Ep & El & Ex). rewrite Eb, Em in E3.
  assert (clHelper s = true -> clSchedulePolicy s <> arbitrary) as Hh by (intros Hh Hp; by rewrite Hh, Hp in E2).
  assert (clLAPOR (adapt_imm s) = false) as Hl by congruence.
  destruct (Z.eq_dec (clBound s) (-1)) as [Hb|Hb].
  - rewrite adapt_bound_unbounded by congruence. apply agreed_mixer; [done|]. intros Hx.
    split; [done|by rewrite Eh, Ep|intros Hm; apply adapt_imm_off; congruence|congruence..].
  - destruct (adapt_bound_bounded (adapt_imm s)) as (H1 & H2 & H3 & H4 & H5 & H6 & H7 & H8 & H9); [congruence|done|].
    assert (clModelType s = SC).
    { destruct (Z.eqb_spec (clBound s) (-1)); [done|]. by destruct (bool_decide_reflect (clModelType s = SC)). }
    apply agreed_mixer; [done|]. intros Hx. split; try congruence; intros _; repeat split; congruence.
Qed.
(** Checking what was accepted changes nothing. *)
Lemma agreed_checked s :
  agreed s -> adapt_mixer (adapt_bound (adapt_imm s)) = s.
Proof.
  destruct s as [m e b l sr h x bam ipr mm sp]. intros [H1 H2 H3 H4 H5 H6]. cbn in *. subst l.
  unfold adapt_mixer, adapt_bound, adapt_imm. cbn.
  destruct x.
  - destruct H6 as (-> & -> & -> & -> & -> & -> & -> & -> & ->); done.
  - assert ((bool_decide (m = IMM) && (negb ipr || negb sr)) = false) as ->.
    { destruct (bool_decide_reflect (m = IMM)); [|done]. by destruct H3 as [-> ->]. }
    cbn. destruct (Z.eqb_spec b (-1)) as [->|Hb]; [done|]. cbn.
    destruct (H4 Hb) as (-> & _ & ->). destruct (H5 Hb) as (-> & -> & -> & ->). done.
Qed.

(** Property C27.  A configuration that is accepted fits the driver: the options that
    exclude each other are adapted, and checking once more changes nothing.  With
    -mixer the driver is the one for RA, whatever model was asked for or detected,
    the schedule is from left to right, and in-place revisiting, barriers, symmetry
    reduction, helping, bounds and estimation are off, as the driver's checks on the
    configuration demand.  A driver is only made for RA and never with a bound:
    bounds need the model SC, which has none. *)
Theorem accepted_configuration f o c det :
  getConfigOptions f o = Ret c ->
  let c' := adjust_model det c in
  let C := driver_config c' in
  (mixer c' = true ->
     c' = c /\ create c' = Ret RADriver /\ Backtrack.is_ltr (C := C) = true /\ estimate c' = false /\
     conf_bound (Config := C) = None /\ conf_ipr (Config := C) = false /\ conf_disableBAM (Config := C) = true /\
     conf_symmetryReduction (Config := C) = false /\ conf_helper (Config := C) = false) /\
  ((exists MM, create c' = Ret MM) <-> model c' = RA) /\
  (model c' = RA -> conf_bound (Config := C) = None) /\
  (conf_helper (Config := C) = true -> schedulePolicy c' <> arbitrary) /\
  exists o', checkConfigOptions f o = Ret o' /\ checkConfigOptions f o' = Ret o' /\ c = saveConfigOptions o'.
Proof.
  unfold getConfigOptions. destruct (checkConfigOptions f o) as [o1| |] eqn:E; [|done..]. intros [= <-].
  pose proof (checked_agreed _ _ _ E) as Ha. cbv zeta.
  assert (bound (saveConfigOptions o1) <> None -> clBound (switches o1) <> -1) as Hb by (intros H E1; cbn in H; by rewrite E1 in H).
  assert (forall m, isStrongerThan m SC = false) as Hsc by (by intros []).
  split; [|split; [|split; [|split]]].
  - intros Hx. assert (clMixer (switches o1) = true) as Hm.
    { revert Hx. unfold adjust_model. by destruct det as [m|]; [destruct (_ && _)|]. }
    destruct (ag_mixer _ Ha Hm) as (H1 & H2 & H3 & H4 & H5 & H6 & H7 & H8 & H9).
    assert (adjust_model det (saveConfigOptions o1) = saveConfigOptions o1) as ->
      by (destruct det as [m|]; cbn; [by rewrite H8|done]).
    unfold create, Backtrack.is_ltr, model. cbn. rewrite H1, H2, H3, H4, H5, H6, H7, H9. done.
  - unfold create. destruct (model _); split; intros H; try done; try (by destruct H); by eexists.
  - intros Hm. cbn. destruct (bound (adjust_model det (saveConfigOptions o1))) as [n|] eqn:En; [|done]. exfalso.
    assert (bound (adjust_model det (saveConfigOptions o1)) = bound (saveConfigOptions o1)) as Eb
      by (unfold adjust_model; by destruct det as [m|]; [destruct (_ && _)|]).
    rewrite Eb in En. destruct (ag_bound _ Ha) as (H1 & _); [apply Hb; by rewrite En|].
    revert Hm. unfold adjust_model, model. cbn. rewrite H1. destruct det as [m|]; [rewrite Hsc, andb_false_r|]; cbn; by rewrite H1.
  - intros Hh. assert (clHelper (switches o1) = true) as Hh'
      by (revert Hh; unfold adjust_model; by destruct det as [m|]; [destruct (_ && _)|]).
    unfold adjust_model. by destruct det as [m|]; [destruct (_ && _)|]; apply (ag_helper _ Ha).
  - exists o1. split; [done|]. split; [|done]. unfold checkConfigOptions. rewrite (ag_lapor _ Ha). cbn [BUG_ON mbind outcome_bind].
    assert (clHelper (switches o1) && bool_decide (clSchedulePolicy (switches o1) = arbitrary) = false) as ->.
    { destruct (clHelper (switches o1)) eqn:Eh; [|done]. by rewrite bool_decide_eq_false_2 by (by apply (ag_helper _ Ha)). }
    cbn [BUG_ON mbind outcome_bind].
    assert (negb (clBound (adapt_imm (switches o1)) =? -1) && negb (bool_decide (clModelType (adapt_imm (switches o1)) = SC)) = false) as ->.
    { destruct (adapt_imm_same (switches o1)) as [-> ->].
      destruct (Z.eqb_spec (clBound (switches o1)) (-1)) as [|Hn]; [done|]. by destruct (ag_bound _ Ha Hn) as (-> & _). }
    cbn [BUG_ON mbind outcome_bind]. rewrite (agreed_checked _ Ha).
    assert (f (clInputFile (others o1)) = true) as ->.
    { unfold checkConfigOptions in E. cbv zeta in E. Typed.steps E. injection E as <-.
      match goal with H : BUG_ON (negb (f _)) = Ret _ |- _ => by apply BUG_ON_ret, negb_false_iff in H end. }
    by destruct o1.
Qed.
Definition mixer_options : Options :=
  mkOptions (mkSwitches RC11 false 3 false false false true false false false wf) (default_others "a.c").
(** The bound needs SC; without it -mixer is accepted. *)
Definition mixer_alone : Options :=
  mkOptions (mkSwitches RC11 false (-1) false false false true false false false wf) (default_others "a.c").
Lemma accepted_configuration_witness :
  getConfigOptions (fun _ => true) mixer_options = Bug /\
  exists c, getConfigOptions (fun _ => true) mixer_alone = Ret c /\ mixer c = true /\
    create (adjust_model (Some SC) c) = Ret RADriver.
Proof.
  split; [vm_compute; reflexivity|]. eexists. split; [reflexivity|]. split; [reflexivity|].
  exact (proj1 (proj2 (proj1 (accepted_configuration (fun _ => true) mixer_alone _ (Some SC) eq_refl) eq_refl))).
Defined.
(** The default model has no driver. *)
Lemma default_has_no_driver f input :
  f input = true -> exists c, getConfigOptions f (default_options input) = Ret c /\ create (adjust_model None c) = Bug.
Proof.
  intros Hf. unfold getConfigOptions, checkConfigOptions. cbn [switches others default_options clLAPOR clHelper default_switches
    BUG_ON mbind outcome_bind andb]. cbn. rewrite Hf. by eexists.
Qed.

(** ** The verdict of a verification *)

Section Verdicts.
Context `{P : Program}.
Definition ok_result (r : Result) : Prop := status r = VE_OK.
Definition total (f : Result -> Z) (rs : list Result) : Z := foldr (fun r n => f r + n) 0 rs.
Definition counts (r : Result) : list Z := [explored r; exploredBlocked r; boundExceeding r].
Lemma add_results rs : forall r,
  let res := foldl add_result r rs in
  (ok_result res <-> ok_result r /\ Forall ok_result rs) /\
  (forall f, f = explored \/ f = exploredBlocked \/ f = boundExceeding -> u32 (f res) = u32 (f r + total f rs)).
Proof.
  induction rs as [|x rs IH]; intros r; cbn [foldl total foldr]; cbv zeta.
  - split; [split; [by intros H|by intros [H _]]|]. intros f _. by rewrite Z.add_0_r.
  - destruct (IH (add_result r x)) as [H1 H2]. split.
    + rewrite H1, Forall_cons. unfold ok_result, add_result. cbn. case_decide; naive_solver.
    + intros f Hf. rewrite (H2 f Hf). unfold u32, wrap. rewrite Z.add_assoc, <- (Zplus_mod_idemp_l (f r + f x)).
      rewrite <- (Zplus_mod_idemp_l (f (add_result r x))).
      f_equal. f_equal. destruct Hf as [->|[->| ->]]; cbn; unfold u32, wrap; by rewrite Zmod_mod.
Qed.

(** Property C6.  What a verification answers.  With one thread it is the exploration
    of the driver made for the configuration: the answer is VE_OK exactly when no
    error stopped it, and then no execution or option is left.  With several it is
    VE_OK exactly when every worker's is, and the numbers of executions are the
    sums of theirs, modulo 2^32. *)
Theorem verify_verdict visitInst c rng est fuel futures res :
  (forall C MM, Keeps Verdict (visitInst C MM)) ->
  verify visitInst c rng est fuel futures = Ret (true, res) ->
  if threads c =? 1 then
    exists MM d d1 d', create c = Ret MM /\ make_driver VerificationMode rng est = Ret d /\
      start_exploration d = Ret (tt, d1) /\
      Explores (C := driver_config c) (MM := MM) (visitInst (driver_config c) MM) d1 d' /\ res = result d' /\
      (status res = VE_OK <-> shouldHalt d' = false) /\ (status res = VE_OK -> execStack d' = [])
  else
    (status res = VE_OK <-> Forall ok_result futures) /\
    (forall f, f = explored \/ f = exploredBlocked \/ f = boundExceeding -> u32 (f res) = u32 (total f futures)).
Proof.
  intros Hv. unfold verify. destruct (threads c =? 1).
  - unfold run. destruct (create c) as [MM| |]; [|done..]. cbn [mbind outcome_bind].
    destruct (make_driver _ rng est) as [d| |] eqn:Ed; [|done..]. cbn [mbind outcome_bind].
    unfold explore. unfold mbind at 2, M_bind. destruct (start_exploration d) as [[[] d1]| |] eqn:Es; [|done..].
    destruct (explore_loop _ fuel d1) as [[b d']| |] eqn:Ee; [|done..]. cbn. intros [= -> <-].
    assert (Explores (C := driver_config c) (MM := MM) (visitInst (driver_config c) MM) d1 d') as He
      by (apply explore_loop_Explores; by exists fuel).
    assert (shouldHalt d1 = false /\ status (result d1) = VE_OK) as [Hh Hs].
    { pose proof (start_exploration_keeps (MM := MM) (R := Verdict) d tt d1 Es) as H. unfold Verdict in H.
      unfold make_driver in Ed. destruct ExecutionGraph.make; [|done..]. injection Ed as <-. cbn in H.
      unfold start_exploration in Es. destruct (shouldHalt d1) eqn:E; [|by split].
      exfalso. revert Es E. unfold resetExplorationOptions, unmoot, setRescheduledRead, resetThreadPrioritization, onGraph,
        getGraph, getExecution, inEE, onEE, gets, modify, lift, mret, M_ret, mbind, M_bind, outcome_bind. cbn.
      destruct (createExecutionContext _); cbn; [|done..]. destruct (Interp.setExecutionContext _ _ _ _); cbn; [|done..].
      by intros [= <-]. }
    pose proof (explores_verdict _ _ _ (Hv _ _) He Hh Hs) as [H1 H2].
    by exists MM, d, d1, d'.
  - intros [= <-]. destruct (add_results futures no_result) as [H1 H2]. split.
    + unfold ok_result in *. rewrite H1. cbn. naive_solver.
    + intros f Hf. rewrite (H2 f Hf). destruct Hf as [->|[->| ->]]; done.
Qed.
End Verdicts.

(** Store buffering under the configuration of -mixer. *)
Definition mixer_conf : Conf := saveConfigOptions (mkOptions (adapt_mixer (switches mixer_alone)) (others mixer_alone)).
Definition verified {P : Program} (o : outcome (bool * Result)) : bool :=
  match o with Ret (ended, r) => ended && bool_decide (status r = VE_OK) && (explored r =? 4) | _ => false end.
Lemma verified_ret {P : Program} o :
  verified o = true -> exists r, o = Ret (true, r) /\ status r = VE_OK /\ explored r = 4.
Proof.
  destruct o as [[[] r]| |]; cbn; [|done..]. rewrite andb_true_iff, bool_decide_eq_true. intros [H1 H2]. exists r.
  split; [done|]. split; [done|lia].
Qed.
Lemma verify_verdict_witness :
  exists res d1 d',
    verify (P := program sb) (fun C _ => visit sb C) mixer_conf tt tt 100 [] = Ret (true, res) /\
    Explores (P := program sb) (C := driver_config mixer_conf) (MM := RADriver) (visit sb (driver_config mixer_conf)) d1 d' /\
    status res = VE_OK /\ explored res = 4 /\ res = result d' /\ execStack d' = [].
Proof.
  destruct (verified_ret (verify (P := program sb) (fun C _ => visit sb C) mixer_conf tt tt 100 []) ltac:(vm_compute; reflexivity))
    as (res & E & Hs & H4).
  assert (forall (C : Config) (MM : MemoryModel), Keeps (P := program sb) Verdict (visit sb C)) as Hv
    by (intros C MM; apply visit_keeps; apply _).
  destruct (verify_verdict (P := program sb) (fun C _ => visit sb C) mixer_conf tt tt 100 [] res Hv E)
    as (MM & d & d1 & d' & [= <-] & _ & _ & He & Hr & H1 & H2).
  exists res, d1, d'. split; [exact E|]. split; [exact He|]. split; [exact Hs|]. split; [exact H4|]. split; [exact Hr|by apply H2].
Defined.

(** ** The exit code *)

(** A test passes unless it fails: time may run out, and a signal may end it. *)
Definition passed (t : TestRun) : Prop :=
  match t with InProcess s => s = VE_OK | Exited code => code = 0 | Signalled | TimedOut => True end.
Lemma after_tests ts : forall n,
  (foldl after_test n ts = 0 <-> n = 0 /\ Forall passed ts) /\
  (n = 0 \/ n = EVERIFY -> foldl after_test n ts = 0 \/ foldl after_test n ts = EVERIFY).
Proof.
  induction ts as [|t ts IH]; intros n; cbn [foldl]; [split; [split; [by split|by intros [? _]]|done]|].
  destruct (IH (after_test n t)) as [H1 H2]. split.
  - rewrite H1, Forall_cons. destruct t as [s|code| |]; cbn.
    + case_decide; [naive_solver|]. split; [intros [? _]; done|naive_solver].
    + destruct (Z.eqb_spec code 0) as [->|]; cbn; [naive_solver|]. split; [intros [? _]; done|naive_solver].
    + naive_solver.
    + naive_solver.
  - intros Hn. apply H2. destruct t as [s|code| |]; cbn; [case_decide| |..]; auto. destruct (negb _); auto.
Qed.
(** When there is something to verify, the process ends with 0 exactly when no test
    fails. *)
Lemma main_exit_code w (c : Conf) :
  inputFromBitcodeFile c = true \/ compiles w = true -> discoverRustTests c = false -> transformOnly c = false ->
  estimate c = false -> skipTransforms c = false ->
  main w c = 0 <-> Forall passed (tests w (adjust_model (determinedMM w) c) (programEntryFuns c)).
Proof.
  intros Hc Hd Ht He Hs. unfold main, transformed. rewrite Hs.
  assert (negb (inputFromBitcodeFile c) && negb (compiles w) = false) as -> by (destruct Hc as [-> | ->]; [done|by rewrite andb_false_r]).
  rewrite Hd. assert (settings (adjust_model (determinedMM w) c) = settings c) as E
    by (unfold adjust_model; by destruct (determinedMM w); [destruct (_ && _)|]).
  rewrite E, Ht. unfold verify_all. rewrite E, He. cbn [andb].
  rewrite (proj1 (after_tests _ 0)). naive_solver.
Qed.
(** A test whose time runs out counts as verified. *)
Lemma timeout_passes w (c : Conf) :
  inputFromBitcodeFile c = true -> discoverRustTests c = false -> transformOnly c = false -> estimate c = false ->
  skipTransforms c = false -> (forall c ts, tests w c ts = [TimedOut]) -> main w c = 0.
Proof. intros H1 H2 H3 H4 H5 Hw. apply main_exit_code; auto. rewrite Hw. by repeat constructor. Qed.
End ConfigFacts.
