(* ===== verification/FileFacts.v ===== *)
(** * What the file system's functions guarantee: a write is cut into pieces that
    cover its range block by block, stays below the size limit, and disk sizes only
    grow within a block; file descriptors name the files they were given. *)
From S2P Require Import Prelude Event SVal SAddr VSet SExpr Trie Deps Views Labels LabelClasses Graph Bounds Revisits Interp RARace RACoherence Execution MemoryModel Driver Checks Schedule Backtrack Handlers Explore Calls InternalNames Intrinsics FileSystem FsCalls Programs RACoherenceFacts.
#[local] Open Scope Z_scope.

Module FileFacts.
Import Drv Checks Handlers Explore Calls Intrinsics FileSystem FsCalls Programs.

Section Writes.
Context `{P : Program} `{Mc : !Machine} `{Fs : !FsInfo}.

(** ** The pieces of a write *)

Definition file_bytes (p : Z * Z * Z) : list Z := let '(_, o, n) := p in seqZ o n.
Definition buffer_bytes (p : Z * Z * Z) : list Z := let '(b, _, n) := p in seqZ b n.
(** A piece is not empty and its first and last byte are in one block. *)
Definition one_block (p : Z * Z * Z) : Prop :=
  let '(_, o, n) := p in 0 < n /\ o / blockSize = (o + n - 1) / blockSize.

Lemma int_small z : 0 <= z < 2 ^ 31 -> int z = z.
Proof. intros Hz. unfold int. rewrite wrap_small by lia. unfold signed. by case_match; try lia. Qed.
(** The length of the next piece. *)
Definition piece (off count : Z) : Z :=
  let bytes := Z.min blockSize count in
  let rem := blockSize - off mod blockSize in
  if negb (off mod blockSize =? 0) && (bytes >? rem) then rem else bytes.
Lemma piece_ok off count :
  0 < blockSize -> 0 < count -> 0 < piece off count <= count /\ off mod blockSize + piece off count <= blockSize.
Proof.
  intros Hb Hc. pose proof (Z.mod_pos_bound off blockSize Hb). unfold piece.
  destruct (Z.eqb_spec (off mod blockSize) 0); cbn [negb andb]; [lia|]. destruct (Z.gtb_spec (Z.min blockSize count) (blockSize - off mod blockSize)); lia.
Qed.
Lemma piece_one_block b off count : 0 < blockSize -> 0 < count -> one_block (b, off, piece off count).
Proof.
  intros Hb Hc. destruct (piece_ok off count Hb Hc) as [H1 H2]. split; [lia|].
  pose proof (Z.mod_pos_bound off blockSize Hb). pose proof (Z_div_mod_eq_full off blockSize) as E.
  apply (Z.div_unique_pos _ _ _ (off mod blockSize + piece off count - 1)); lia.
Qed.

Lemma write_blocks_cover_from fuel : forall buf off count,
  0 < blockSize -> 0 <= buf -> 0 <= off -> 0 < count -> buf + count < 2 ^ 31 -> off + count < 2 ^ 64 ->
  (Z.to_nat count <= fuel)%nat ->
  exists ps, write_blocks fuel buf off count = Ret ps /\
    flat_map file_bytes ps = seqZ off count /\ flat_map buffer_bytes ps = seqZ buf count /\ Forall one_block ps.
Proof.
  induction fuel as [|fuel IH]; intros buf off count Hb Hbuf Hoff Hc Hsum Hend Hf; [lia|].
  cbn [write_blocks]. rewrite (proj2 (Z.eqb_neq blockSize 0)) by lia.
  fold (piece off count). set (n := piece off count).
  destruct (piece_ok off count Hb Hc) as [Hn _]. fold n in Hn.
  rewrite (wrap_small 64 (count - n)) by lia. pose proof (piece_one_block buf off count Hb Hc) as Hone. fold n in Hone.
  destruct (Z.eqb_spec (count - n) 0) as [E|E].
  - assert (n = count) as -> by lia. eexists. split; [reflexivity|]. cbn. rewrite !app_nil_r. eauto.
  - rewrite int_small, (wrap_small 64 (off + n)) by lia.
    destruct (IH (buf + n) (off + n) (count - n)) as (ps & -> & H1 & H2 & H3); [lia..|].
    eexists. split; [reflexivity|]. cbn [flat_map file_bytes buffer_bytes]. rewrite H1, H2, <- !seqZ_app by lia.
    replace (n + (count - n)) with count by lia. eauto.
Qed.

(** Property C36.  A write of [count] bytes at [off] is cut into finitely many pieces;
    read in order they are exactly the bytes of the file from [off] on and of the
    buffer from its start, each once, and no piece is empty or crosses a block. *)
Theorem write_blocks_cover off count :
  0 < blockSize -> 0 <= off -> 0 < count < 2 ^ 31 -> off + count < 2 ^ 64 ->
  exists ps, write_blocks (S (Z.to_nat count)) 0 off count = Ret ps /\
    flat_map file_bytes ps = seqZ off count /\ flat_map buffer_bytes ps = seqZ 0 count /\ Forall one_block ps.
Proof. intros. apply write_blocks_cover_from; lia. Qed.

(** ** The size on disk *)

(**  With delayed allocation the size on disk is updated before a write
    exactly when the write touches what is left of the last, partly filled block,
    and then to the end of the write or of the block: it grows, within the block. *)
Theorem shouldUpdateInodeDisksizeFS_iff iSize off count :
  0 < blockSize -> 0 <= iSize -> iSize + blockSize < 2 ^ 64 -> 0 <= off -> 0 < count -> off + count < 2 ^ 64 ->
  let stop := iSize - iSize mod blockSize + blockSize in
  exists d, shouldUpdateInodeDisksizeFS iSize off count = Ret d /\
    (is_Some d <-> iSize mod blockSize <> 0 /\ exists x, iSize <= x < stop /\ off <= x < off + count) /\
    forall s, d = Some s -> s = Z.min stop (off + count) /\ iSize < s <= stop.
Proof.
  intros Hb Hs Hs' Ho Hc Ho' stop. pose proof (Z.mod_pos_bound iSize blockSize Hb) as Hm.
  unfold shouldUpdateInodeDisksizeFS. rewrite (proj2 (Z.eqb_neq blockSize 0)) by lia.
  rewrite (wrap_small 64 (off + count)), (wrap_small 64 (iSize + (blockSize - iSize mod blockSize))) by lia.
  replace (iSize + (blockSize - iSize mod blockSize)) with stop by lia.
  assert (iSize < stop <= iSize + blockSize) as Hst by lia. clearbody stop.
  set (b := _ && (_ >? 0)).
  assert (b = true <-> iSize mod blockSize <> 0 /\ off < stop /\ iSize < off + count) as Hiff.
  { unfold b. rewrite !andb_true_iff, !orb_true_iff, !andb_true_iff, !Z.leb_le, !Z.ltb_lt, Z.gtb_lt. lia. }
  eexists. split; [reflexivity|]. destruct b; (split; [split|]).
  - intros _. destruct (proj1 Hiff eq_refl) as (H1 & H2 & H3). split; [done|].
    exists (Z.max iSize off). lia.
  - intros _. by eexists.
  - intros s [= <-]. destruct (proj1 Hiff eq_refl) as (H1 & H2 & H3). lia.
  - by intros [? ?].
  - intros (H1 & x & Hx). assert (false = true) by (apply Hiff; lia). done.
  - done.
Qed.
End Writes.

(** ** The limit on file sizes *)

Section Limit.
Context `{P : Program} `{C : Config} `{MM : MemoryModel} `{Mc : !Machine} `{Fs : !FsInfo}.

Lemma getSigned_u64 z : - 2 ^ 63 <= z < 2 ^ 63 -> SVal.getSigned (u64 z) = z.
Proof. intros Hz. apply signed_wrap; lia. Qed.
Lemma signed_word_range z : 0 <= z < 2 ^ 64 -> - 2 ^ 63 <= SVal.getSigned z < 2 ^ 63.
Proof. intros Hz. apply (signed_range 64); lia. Qed.

(**  What the checks of a write allow, at the offset they answer, ends
    at or below the size limit and is no more than was asked for; without O_APPEND
    the offset is the one asked for. *)
Theorem executeWriteChecksFS_bounds (t : Typ) inode flags off count d w wOffset d' :
  0 <= count < 2 ^ 64 -> executeWriteChecksFS t inode flags off count d = Ret ((w, wOffset), d') ->
  0 < SVal.getSigned w ->
  SVal.getSigned wOffset + SVal.getSigned w <= maxFileSize /\ SVal.getSigned w <= SVal.getSigned count /\
  (has flags O_APPEND = false -> wOffset = off).
Proof.
  intros Hc. pose proof (signed_word_range count Hc) as Hr. unfold executeWriteChecksFS.
  destruct (Z.leb_spec (SVal.getSigned count) 0) as [Hle|Hlt].
  { intros [= <- <- _]. lia. }
  unfold mbind at 1, M_bind at 1.
  assert (forall d1 wo, (if SVal.getSigned wo >=? maxFileSize then handleSystemError SE_EFBIG;; mret (minus_one, wo)
            else let left := maxFileSize - SVal.getSigned wo in
                 lift (if left >=? 2 ^ 63 then Undef else Ret (u64 (Z.min (SVal.getSigned count) left), wo))) d1
          = Ret ((w, wOffset), d') -> 0 < SVal.getSigned w ->
          wo = wOffset /\ SVal.getSigned wo + SVal.getSigned w <= maxFileSize /\ SVal.getSigned w <= SVal.getSigned count) as Hend.
  { intros d1 wo. rewrite Z.geb_leb. destruct (Z.leb_spec maxFileSize (SVal.getSigned wo)) as [H|H].
    - unfold mbind, M_bind. destruct (handleSystemError _ d1) as [[[] d2]| |]; [|done..]. intros [= <- <- _] Hw.
      by vm_compute in Hw.
    - cbv zeta. rewrite Z.geb_leb. destruct (Z.leb_spec (2 ^ 63) (maxFileSize - SVal.getSigned wo)) as [Hb|Hb]; [done|].
      intros [= <- <- _] _. rewrite getSigned_u64 by lia. lia. }
  destruct (has flags O_APPEND).
  - destruct (readInodeSizeFS t inode d) as [[wo d1]| |]; [|done..]. intros E Hw. destruct (Hend _ _ E Hw) as (-> & H1 & H2).
    by split_and!.
  - intros E Hw. destruct (Hend _ _ E Hw) as (<- & H1 & H2). by split_and!.
Qed.
End Limit.

(** ** File descriptors *)

Section Descriptors.
Context `{P : Program}.
Lemma set_fd_lookup fd file fds : 0 <= fd ->
  exists fds', set_fd fd file fds = Ret fds' /\
    forall i, 0 <= i ->
      (if (0 <=? i) && (i <? Z.of_nat (length fds')) then nth (Z.to_nat i) fds' 0 else 0) =
      if i =? fd then file else if (0 <=? i) && (i <? Z.of_nat (length fds)) then nth (Z.to_nat i) fds 0 else 0.
Proof.
  intros Hfd. unfold set_fd. rewrite (proj2 (Z.ltb_ge fd 0)) by done.
  set (l := if _ >=? _ then _ else fds).
  assert (forall i, nth i l 0 = nth i fds 0) as Hl.
  { intros i. unfold l. destruct (fd >=? _); [|done]. rewrite !nth_lookup. destruct (Nat.lt_ge_cases i (length fds)).
    - by rewrite lookup_app_l.
    - rewrite lookup_app_r, (lookup_ge_None_2 fds) by done. cbn.
      destruct (replicate _ 0 !! _) as [z|] eqn:E; [|done]. by apply lookup_replicate_1 in E as [-> _]. }
  assert (Z.to_nat fd < length l)%nat as Hlen.
  { unfold l. rewrite Z.geb_leb. destruct (Z.leb_spec (Z.of_nat (length fds)) fd); [|lia].
    rewrite length_app, length_replicate. lia. }
  assert (length fds <= length l)%nat as Hle by (unfold l; destruct (fd >=? _); rewrite ?length_app; lia).
  eexists. split; [reflexivity|]. intros i Hi. rewrite length_insert, (proj2 (Z.leb_le 0 i)) by done. cbn [andb].
  rewrite (nth_lookup (<[_:=_]> l)). destruct (Z.eqb_spec i fd) as [->|Hne].
  - rewrite (proj2 (Z.ltb_lt fd _)) by lia. by rewrite list_lookup_insert_eq.
  - rewrite list_lookup_insert_ne, <- nth_lookup, Hl by lia.
    destruct (Z.ltb_spec i (Z.of_nat (length l))), (Z.ltb_spec i (Z.of_nat (length fds))); try done; [|lia].
    apply nth_overflow. lia.
Qed.

(** Setting the file of a descriptor is what getting it answers, and changes no
    other descriptor. *)
Lemma setFdToFile_get fd file d :
  0 <= fd < 2 ^ 31 ->
  exists d', setFdToFile fd file d = Ret (tt, d') /\
    forall i, 0 <= i < 2 ^ 31 ->
      exists f, getFileFromFd i d = Ret (f, d) /\ getFileFromFd i d' = Ret (if i =? fd then file else f, d').
Proof.
  intros Hfd. unfold setFdToFile, inEE, onEE, gets, lift, modify, mbind, M_bind, outcome_bind.
  assert (forall z, 0 <= z < 2 ^ 31 -> signed 32 (u32 z) = z) as Hz by (intros; apply signed_wrap; lia).
  rewrite Hz by done. destruct (set_fd_lookup fd file (Interp.fdToFile (EE d))) as (fds' & -> & Hget); [lia|].
  eexists. split; [reflexivity|]. intros i Hi.
  unfold getFileFromFd, gets, mbind, M_bind, mret, M_ret. rewrite !Hz by done. eexists. split; [reflexivity|].
  cbn [EE set_EE Interp.fdToFile Interp.set_fdToFile]. by rewrite Hget by lia.
Qed.
End Descriptors.

(** ** Disk writes under RA *)

Section DiskWrites.
Import ExecutionGraph.
Context `{P : Program} `{C : Config}.

(** Reading and changing the graph of the execution on top. *)
Lemma onGraph_top {A} (f : Graph -> outcome A) d x xs : execStack d = x :: xs ->
  onGraph f d = match f (graph x) with Ret a => Ret (a, d) | Bug => Bug | Undef => Undef end.
Proof.
  intros E. unfold onGraph, getGraph, getExecution, lift, mbind, M_bind. rewrite E. cbn. by destruct (f (graph x)).
Qed.
Lemma inGraph_top (f : Graph -> outcome Graph) d x xs g : execStack d = x :: xs -> f (graph x) = Ret g ->
  inGraph f d = Ret (tt, set_execStack (Exec.set_graph g x :: xs) d).
Proof.
  intros E Ef. unfold inGraph, mbind, M_bind. rewrite (onGraph_top f d x xs E), Ef.
  unfold putGraph, getExecution, putExecution, modify, mbind, M_bind. by rewrite E, ?E.
Qed.
Lemma label_at_end g e : getThreadSize g (thread e) <= index e -> label_at g e = None.
Proof.
  unfold getThreadSize, thread_labels, label_at. intros H. destruct (_ || _) eqn:E; [done|].
  apply orb_false_iff in E as [Et Ei]. rewrite Et in H. destruct (events g !! Z.to_nat (thread e)); [|done].
  cbn in *. apply lookup_ge_None_2. lia.
Qed.
Lemma track_size g a t : getThreadSize (trackCoherenceAtLoc g a) t = getThreadSize g t.
Proof.
  unfold getThreadSize, thread_labels, trackCoherenceAtLoc, alter_label. cbn [events set_events set_coherence].
  destruct (t <? 0); [done|].
  destruct (decide (Z.to_nat t = Z.to_nat (thread init_pos))) as [->|Hne].
  - rewrite list_lookup_alter. destruct (events g !! _) as [l|]; [|done].
    change (Z.of_nat (length (alter (InitLabel.map_initRfs (InitLabel.bucket_alter id (getBucket (acc_addr a)))) (Z.to_nat (index init_pos)) l)) = Z.of_nat (length l)).
    by rewrite length_alter.
  - by rewrite list_lookup_alter_ne.
Qed.
Lemma placings_undefined g wLab :
  isRMWStore wLab = false -> getThreadSize g (thread (getPos wLab)) <= index (getPos wLab) ->
  CoherenceFacts.co_order g (MemAccessLabel.getAccess wLab) <> [] -> Coherence.getCoherentPlacings g wLab = Undef.
Proof.
  intros Hr He Hc. unfold Coherence.getCoherentPlacings. rewrite Hr. cbv zeta.
  unfold Coherence.splitLocMOBefore. cbv zeta. rewrite CoherenceFacts.touch_co. cbn [mbind outcome_bind].
  destruct (rev (CoherenceFacts.co_order g _)) as [|w l] eqn:E.
  { apply (f_equal (@rev _)) in E. rewrite rev_involutive in E. done. }
  cbn [Coherence.findM]. unfold Coherence.isWriteRfBefore, getEventLabel.
  change (label_at (Coherence.touchLoc g _) (getPos wLab)) with (label_at g (getPos wLab)).
  by rewrite (label_at_end _ _ He).
Qed.

(**  Under RA a disk write has no defined behaviour when its location has
    a store already: its place in coherence is asked for before its label is in the
    graph, and the label is looked up by its position. *)
Theorem handleDskWrite_undefined wLab d x xs :
  execStack d = x :: xs -> getThreadSize (graph x) (thread (getPos wLab)) <= index (getPos wLab) ->
  Isa.DskWriteLabel (kind wLab) = true ->
  CoherenceFacts.co_order (trackCoherenceAtLoc (graph x) (MemAccessLabel.getAccess wLab)) (MemAccessLabel.getAccess wLab) <> [] ->
  handleDskWrite (MM := RADriver) wLab d = Undef.
Proof.
  intros Ex Hs Hk Hc. assert (isRMWStore wLab = false) as Hr by (unfold isRMWStore; by destruct (kind wLab)).
  assert (Schedule.isExecutionDrivenByGraph wLab d = Ret (false, d)) as Hd.
  { unfold Schedule.isExecutionDrivenByGraph, getGraph, getExecution, mbind, M_bind, mret, M_ret. rewrite Ex. cbn beta iota.
    by rewrite (proj2 (Z.ltb_ge _ _)). }
  unfold handleDskWrite. cbv zeta. unfold mbind at 1, M_bind at 1. rewrite Hd. cbn beta iota.
  unfold mbind at 1, M_bind at 1.
  rewrite (inGraph_top (fun g => Ret (trackCoherenceAtLoc g (MemAccessLabel.getAccess wLab))) d x xs _ Ex eq_refl). cbn beta iota.
  unfold mbind at 1, M_bind at 1, viaGraph, mbind at 1, M_bind at 1.
  rewrite (onGraph_top _ (set_execStack (Exec.set_graph (trackCoherenceAtLoc (graph x) (MemAccessLabel.getAccess wLab)) x :: xs) d)
    (Exec.set_graph (trackCoherenceAtLoc (graph x) (MemAccessLabel.getAccess wLab)) x) xs eq_refl).
  cbn [graph Exec.set_graph]. rewrite placings_undefined; [done|done| |done]. by rewrite track_size.
Qed.
End DiskWrites.

(** ** Instances *)

Lemma returns_with {A} (p : A -> bool) (o : outcome A) :
  match o with Ret a => p a | _ => false end = true -> exists a, o = Ret a /\ p a = true.
Proof. destruct o as [a| |]; [|done..]. by exists a. Qed.

#[local] Instance nothing : Program := program [].
#[local] Instance nothing_machine : Machine := machine [].
#[local] Instance nothing_files : FsInfo := fs_info [].
#[local] Instance mixer : Config := config true.
#[local] Instance ra : MemoryModel := RADriver.
Lemma write_blocks_cover_witness :
  0 < blockSize /\ 0 <= 3 /\ 0 < 6 < 2 ^ 31 /\ 3 + 6 < 2 ^ 64 /\
  exists ps, write_blocks (S (Z.to_nat 6)) 0 3 6 = Ret ps /\
    flat_map file_bytes ps = seqZ 3 6 /\ flat_map buffer_bytes ps = seqZ 0 6 /\ Forall one_block ps.
Proof.
  assert (0 < blockSize) as H1 by done. assert (0 <= 3) as H2 by done.
  assert (0 < 6 < 2 ^ 31) as H3 by done. assert (3 + 6 < 2 ^ 64) as H4 by done.
  split; [exact H1|]. split; [exact H2|]. split; [exact H3|]. split; [exact H4|].
  exact (write_blocks_cover 3 6 H1 H2 H3 H4).
Defined.
Lemma shouldUpdateInodeDisksizeFS_iff_witness :
  let stop := 6 - 6 mod blockSize + blockSize in
  exists d, shouldUpdateInodeDisksizeFS 6 5 2 = Ret d /\
    (is_Some d <-> 6 mod blockSize <> 0 /\ exists x, 6 <= x < stop /\ 5 <= x < 5 + 2) /\
    forall s, d = Some s -> s = Z.min stop (5 + 2) /\ 6 < s <= stop.
Proof.
  exact (shouldUpdateInodeDisksizeFS_iff 6 5 2
    ltac:(done) ltac:(done) ltac:(done) ltac:(done) ltac:(done) ltac:(done)).
Defined.
Definition checked_write (off count : Z) : outcome (Z * Z * Driver) :=
  d ← make_driver VerificationMode tt tt;
  executeWriteChecksFS (IntOf 4) (addr 60) O_RDWR off count d.
Lemma executeWriteChecksFS_bounds_witness :
  exists d w wOffset d',
    0 <= 10 < 2 ^ 64 /\
    executeWriteChecksFS (IntOf 4) (addr 60) O_RDWR 60 10 d = Ret ((w, wOffset), d') /\
    0 < SVal.getSigned w /\
    SVal.getSigned wOffset + SVal.getSigned w <= 64 /\ SVal.getSigned w <= SVal.getSigned 10 /\
    (has O_RDWR O_APPEND = false -> wOffset = 60).
Proof.
  destruct (returns_with (fun r => (fst (fst r) =? 4) && (snd (fst r) =? 60)) (checked_write 60 10) ltac:(vm_compute; reflexivity))
    as ([[w wo] d'] & E & Hr). cbn [fst snd] in Hr. apply andb_true_iff in Hr as [H4%Z.eqb_eq H60%Z.eqb_eq]. subst w wo.
  unfold checked_write, mbind, outcome_bind in E. destruct (make_driver _ _ _) as [d| |]; [|done..].
  assert (0 <= 10 < 2 ^ 64) as H1 by done. assert (0 < SVal.getSigned 4) as H2 by done.
  exists d, 4, 60, d'. split; [exact H1|]. split; [exact E|]. split; [exact H2|].
  exact (executeWriteChecksFS_bounds (IntOf 4) (addr 60) O_RDWR 60 10 d 4 60 d' H1 E H2).
Defined.

(** A second write of one byte of the disk. *)
Definition disk_write (i : Z) : Label :=
  Make.DskWriteLabel (mkEvent 0 i) Release (addr 61) 1 Unsigned 7 0 DepInfo.no_deps.
Definition after_write : outcome (Driver) :=
  d ← make_driver VerificationMode tt tt;
  s ← start_exploration d;
  s ← before_run (snd s);
  s ← handleDskWrite (disk_write 1) (snd s);
  Ret (snd s).
Lemma handleDskWrite_undefined_witness :
  exists (d : Driver) x xs,
    execStack d = x :: xs /\ ExecutionGraph.getThreadSize (graph x) 0 <= 2 /\
    Isa.DskWriteLabel (kind (disk_write 2)) = true /\
    CoherenceFacts.co_order (ExecutionGraph.trackCoherenceAtLoc (graph x) (MemAccessLabel.getAccess (disk_write 2)))
      (MemAccessLabel.getAccess (disk_write 2)) <> [] /\
    handleDskWrite (disk_write 2) d = Undef.
Proof.
  destruct (returns_with (fun d => match execStack d with
    | x :: _ => (ExecutionGraph.getThreadSize (graph x) 0 <=? 2) && (0 <? length
       (CoherenceFacts.co_order (ExecutionGraph.trackCoherenceAtLoc (graph x) (MemAccessLabel.getAccess (disk_write 2)))
          (MemAccessLabel.getAccess (disk_write 2))))%nat | [] => false end) after_write ltac:(vm_compute; reflexivity))
    as (d & _ & H). destruct (execStack d) as [|x xs] eqn:Ex; [done|].
  apply andb_true_iff in H as [H1%Z.leb_le H2%Nat.ltb_lt].
  assert (CoherenceFacts.co_order (ExecutionGraph.trackCoherenceAtLoc (graph x) (MemAccessLabel.getAccess (disk_write 2)))
          (MemAccessLabel.getAccess (disk_write 2)) <> []) as H3 by (intros E; rewrite E in H2; cbn in H2; lia).
  exists d, x, xs. split; [exact Ex|]. split; [exact H1|]. split; [reflexivity|]. split; [exact H3|].
  exact (handleDskWrite_undefined (disk_write 2) d x xs Ex H1 eq_refl H3).
Defined.
End FileFacts.
