(* ===== verification/ThreadPool.v ===== *)
(** * The pool of worker threads (ThreadPool.hpp, ThreadPool.cpp).

    The queue of tasks, the counter of remaining tasks, the mutex with its
    condition variable, the workers and the thread that owns the pool are one state;
    what a thread does between two points where another one can interfere is a step.
    Steps are a function of the action that is taken: which thread moves and what is
    left open by the code (what a driver does while it runs a task, which waiter a
    notification wakes, spurious wake-ups). *)
From S2P Require Import Prelude.
#[local] Open Scope Z_scope.

Module ThreadPool.

Section Pool.
Context {Task : Type}.

(** ** The queue: [GlobalWorkQueue] *)

Definition push (t : Task) (q : list Task) : list Task := q ++ [t].
Definition tryPop (q : list Task) : option (Task * list Task) :=
  match last q with Some t => Some (t, removelast q) | None => None end.

(** ** Workers *)

(** Where a worker is: in [popTask] before it looks at the queue, before it locks
    [stateMtx_], with the lock, waiting, and woken up before and after it has the
    lock again; running a task, in [submit] of another one; after the run. *)
Inductive PC :=
| Pop | PopLock | PopCheck | Wait | WaitLock | WaitHeld
| Run (t : Task)
| SubmitLock (t new : Task) | SubmitInc (t new : Task) | SubmitPush (t new : Task) | SubmitNotify (t : Task)
| DecLock | Dec | NotifyAll
| Done.
(** The result of a worker is made by the tasks its driver has run. *)
Record Worker := mkWorker { pc : PC; ran : list Task }.

(** The thread that owns the pool: in the constructor, in [waitForTasks], after it,
    in the destructor (halted, joining the workers), and at its end. *)
Inductive Main := Adding | Waiting | Returned | Joining | Joined.

Record State := mkState {
  queue : list Task;
  remainingTasks : Z;
  shouldHalt : bool;
  stateMtx : option nat;
  workers : list Worker;
  main : Main }.
Definition set_queue (q : list Task) (s : State) : State :=
  mkState q (remainingTasks s) (shouldHalt s) (stateMtx s) (workers s) (main s).
Definition set_remaining (r : Z) (s : State) : State :=
  mkState (queue s) r (shouldHalt s) (stateMtx s) (workers s) (main s).
Definition set_owner (o : option nat) (s : State) : State :=
  mkState (queue s) (remainingTasks s) (shouldHalt s) o (workers s) (main s).
Definition set_workers (ks : list Worker) (s : State) : State :=
  mkState (queue s) (remainingTasks s) (shouldHalt s) (stateMtx s) ks (main s).
Definition set_main (m : Main) (s : State) : State :=
  mkState (queue s) (remainingTasks s) (shouldHalt s) (stateMtx s) (workers s) m.

Definition put (w : nat) (k : Worker) (s : State) : State := set_workers (<[w := k]> (workers s)) s.
Definition incRemainingTasks (s : State) : State := set_remaining (u32 (remainingTasks s + 1)) s.
Definition decRemainingTasks (s : State) : State := set_remaining (u32 (remainingTasks s - 1)) s.

(** *** The condition variable *)

Definition is_waiting (k : Worker) : bool := match pc k with Wait => true | _ => false end.
Definition wake (k : Worker) : Worker := if is_waiting k then mkWorker WaitLock (ran k) else k.
Definition notify_all (s : State) : State := set_workers (map wake (workers s)) s.
(** A waiter is woken if there is one. *)
Definition notify_one (v : option nat) (s : State) : option State :=
  match v with
  | None => if existsb is_waiting (workers s) then None else Some s
  | Some v =>
      match workers s !! v with
      | Some k => if is_waiting k then Some (put v (wake k) s) else None
      | None => None
      end
  end.
(** [halt]: under the lock. *)
Definition halt (s : State) : option State :=
  match stateMtx s with
  | Some _ => None
  | None => Some (notify_all (mkState (queue s) (remainingTasks s) true None (workers s) (main s)))
  end.

(** ** Steps *)

(** What a worker does next: go on with what the code says; from within a task,
    submit another one or stop the pool; wake a waiter; wake up by itself. *)
Inductive Act := Go | Submit (t : Task) | Halts | Notifies (v : option nat) | Wakes.
Inductive Action := OfWorker (w : nat) (a : Act) | AddWorker | OfMain.

Section Worker.
Context (w : nat) (k : Worker).
Definition goto (p : PC) (s : State) : State := put w (mkWorker p (ran k)) s.
Definition lock (p : PC) (s : State) : option State :=
  match stateMtx s with Some _ => None | None => Some (goto p (set_owner (Some w) s)) end.
Definition unlock (p : PC) (s : State) : State := goto p (set_owner None s).

Definition worker_step (a : Act) (s : State) : option State :=
  match pc k, a with
  | Pop, Go =>
      match tryPop (queue s) with
      | Some (t, q) => Some (goto (Run t) (set_queue q s))
      | None => Some (goto PopLock s)
      end
  | PopLock, Go => lock PopCheck s
  | PopCheck, Go => Some (unlock (if shouldHalt s || (remainingTasks s =? 0) then Done else Wait) s)
  | Wait, Wakes => Some (goto WaitLock s)
  | WaitLock, Go => lock WaitHeld s
  | WaitHeld, Go => Some (unlock Pop s)
  | Run t, Go => Some (put w (mkWorker DecLock (ran k ++ [t])) s)
  | Run t, Submit new => Some (goto (SubmitLock t new) s)
  | Run t, Halts => halt s
  | SubmitLock t new, Go => lock (SubmitInc t new) s
  | SubmitInc t new, Go => Some (goto (SubmitPush t new) (incRemainingTasks s))
  | SubmitPush t new, Go => Some (goto (SubmitNotify t) (set_queue (push new (queue s)) s))
  | SubmitNotify t, Notifies v =>
      match notify_one v s with Some s => Some (unlock (Run t) s) | None => None end
  | DecLock, Go => lock Dec s
  | Dec, Go =>
      let s := decRemainingTasks s in
      Some (if remainingTasks s =? 0 then goto NotifyAll s else unlock Pop s)
  | NotifyAll, Go => Some (unlock Done (notify_all s))
  | _, _ => None
  end.
End Worker.

Definition is_done (k : Worker) : bool := match pc k with Done => true | _ => false end.

Section Main.
Context (numWorkers : nat).

(** The pool before its first worker: the first task is submitted. *)
Definition init (t : Task) : State := mkState [t] 1 false None [] Adding.
Definition addWorker (s : State) : option State :=
  match main s with
  | Adding => if Nat.ltb (length (workers s)) numWorkers then Some (set_workers (workers s ++ [mkWorker Pop []]) s) else None
  | _ => None
  end.
Definition main_step (s : State) : option State :=
  match main s with
  | Adding => if Nat.eqb (length (workers s)) numWorkers then Some (set_main Waiting s) else None
  | Waiting => if shouldHalt s || negb (remainingTasks s >? 0) then Some (set_main Returned s) else None
  | Returned => halt (set_main Joining s)
  | Joining => if forallb is_done (workers s) then Some (set_main Joined s) else None
  | Joined => None
  end.
Definition step (a : Action) (s : State) : option State :=
  match a with
  | OfWorker w a => match workers s !! w with Some k => worker_step w k a s | None => None end
  | AddWorker => addWorker s
  | OfMain => main_step s
  end.

Fixpoint run (acts : list Action) (s : State) : option State :=
  match acts with
  | [] => Some s
  | a :: acts => match step a s with Some s => run acts s | None => None end
  end.
End Main.

(** ** What is pending *)

(** The tasks a worker accounts for in the counter, and those it has in hand. *)
Definition weight (k : Worker) : nat :=
  match pc k with
  | Run _ | SubmitLock _ _ | SubmitInc _ _ | SubmitNotify _ | DecLock | Dec => 1
  | SubmitPush _ _ => 2
  | _ => 0
  end.
Definition hand (k : Worker) : list Task :=
  match pc k with
  | Run t | SubmitNotify t => [t]
  | SubmitLock t new | SubmitInc t new | SubmitPush t new => [t; new]
  | _ => []
  end.
Definition pending (s : State) : nat := length (queue s) + sum_list_with weight (workers s).
Definition submitted (acts : list Action) : list Task :=
  flat_map (fun a => match a with OfWorker _ (Submit t) => [t] | _ => [] end) acts.
Definition is_halt (a : Action) : bool := match a with OfWorker _ Halts => true | _ => false end.
End Pool.
Arguments PC : clear implicits.
Arguments Worker : clear implicits.
Arguments State : clear implicits.
Arguments Act : clear implicits.
Arguments Action : clear implicits.
End ThreadPool.
