(* ===== verification/ThreadPoolFacts.v ===== *)
(** * The pool of worker threads: nothing submitted is lost, and the pool never
    gets stuck, whatever the interleaving. *)
From S2P Require Import Prelude ThreadPool.
#[local] Open Scope nat_scope.

Module ThreadPoolFacts.
Import ThreadPool.

(** ** Sums and concatenations over the workers *)

Lemma sum_insert {A} (f : A -> nat) l w k k' :
  l !! w = Some k -> sum_list_with f (<[w := k']> l) + f k = sum_list_with f l + f k'.
Proof.
  revert w. induction l as [|a l IH]; intros [|w] Hw; try done; cbn in *.
  - injection Hw as ->. lia.
  - specialize (IH w Hw). change (f a + sum_list_with f (<[w := k']> l) + f k = f a + sum_list_with f l + f k'). lia.
Qed.
Lemma flat_insert {A B} (f : A -> list B) l w k k' :
  l !! w = Some k -> flat_map f (<[w := k']> l) ++ f k ≡ₚ flat_map f l ++ f k'.
Proof.
  revert w. induction l as [|a l IH]; intros [|w] Hw; try done; cbn in *.
  - injection Hw as ->. rewrite <- !app_assoc. solve_Permutation.
  - rewrite <- !app_assoc. f_equiv. exact (IH w Hw).
Qed.
Lemma sum_map {A} (f : A -> nat) (g : A -> A) l : (forall a, f (g a) = f a) -> sum_list_with f (map g l) = sum_list_with f l.
Proof. intros H. induction l as [|a l IH]; cbn; [done|]. by rewrite H, IH. Qed.
Lemma flat_map_same {A B} (f : A -> list B) (g : A -> A) l : (forall a, f (g a) = f a) -> flat_map f (map g l) = flat_map f l.
Proof. intros H. induction l as [|a l IH]; cbn; [done|]. by rewrite H, IH. Qed.
Lemma sum_zero {A} (f : A -> nat) l w k : sum_list_with f l = 0 -> l !! w = Some k -> f k = 0.
Proof. revert w. induction l as [|a l IH]; intros [|w]; cbn; try done; intros H; [intros [= ->]; lia|]. apply IH. lia. Qed.

Section Facts.
Context {Task : Type}.
Implicit Types (s : State Task) (k : Worker Task) (q : list Task).

Lemma tryPop_some q t q' : tryPop q = Some (t, q') -> q = q' ++ [t].
Proof.
  unfold tryPop. destruct q as [|x q] using rev_ind; [done|]. rewrite last_snoc, removelast_last. by intros [= -> ->].
Qed.
Lemma tryPop_none q : tryPop q = None -> q = [].
Proof. unfold tryPop. destruct q as [|x q] using rev_ind; [done|]. by rewrite last_snoc. Qed.

(** Waking changes neither what a worker accounts for nor what it has. *)
Lemma wake_weight k : weight (wake k) = weight k.
Proof. unfold wake, is_waiting, weight. by destruct (pc k) eqn:E; cbn; rewrite ?E. Qed.
Lemma wake_hand k : hand (wake k) = hand k.
Proof. unfold wake, is_waiting, hand. by destruct (pc k) eqn:E; cbn; rewrite ?E. Qed.
Lemma wake_ran k : ran (wake k) = ran k.
Proof. unfold wake. by destruct (is_waiting k). Qed.
Lemma notify_one_some v s s' : notify_one v s = Some s' ->
  s' = s \/ exists w k, workers s !! w = Some k /\ pc k = Wait /\ s' = put w (mkWorker WaitLock (ran k)) s.
Proof.
  unfold notify_one. destruct v as [v|].
  - destruct (workers s !! v) as [k|] eqn:E; [|done]. unfold wake, is_waiting. destruct (pc k) eqn:Ek; try done.
    intros [= <-]. right. by exists v, k.
  - destruct (existsb _ _); [done|]. intros [= <-]. by left.
Qed.

(** ** One step of a worker *)

(** A worker that moves: what becomes of it, and of what the others see. *)
Lemma lookup_put w k' s v k : workers (put w k' s) !! v = Some k ->
  (v = w /\ k = k' /\ is_Some (workers s !! w)) \/ (v <> w /\ workers s !! v = Some k).
Proof. cbn. rewrite list_lookup_insert_Some. intros [(-> & -> & H)|[H1 H2]]; [left|right]; eauto using lookup_lt_is_Some_2. Qed.
Lemma lookup_wake s v k : workers (notify_all s) !! v = Some k -> exists k0, workers s !! v = Some k0 /\ k = wake k0.
Proof. cbn. rewrite list_lookup_fmap_Some. intros (k0 & -> & H). eauto. Qed.
Lemma pending_put w k k' s : workers s !! w = Some k -> pending (put w k' s) + weight k = pending s + weight k'.
Proof.
  intros Hw. pose proof (sum_insert weight _ w k k' Hw) as H. unfold pending. cbn [queue workers put set_workers].
  rewrite <- !Nat.add_assoc. by rewrite H.
Qed.
Lemma pending_wake s : pending (notify_all s) = pending s.
Proof. unfold pending. cbn. by rewrite (sum_map _ _ _ wake_weight). Qed.

(** What the setters do to what is pending. *)
Lemma pending_owner o s : pending (set_owner o s) = pending s.
Proof. done. Qed.
Lemma pending_inc s : pending (incRemainingTasks s) = pending s.
Proof. done. Qed.
Lemma pending_dec s : pending (decRemainingTasks s) = pending s.
Proof. done. Qed.
Lemma pending_queue q s : pending (set_queue q s) + length (queue s) = pending s + length q.
Proof. unfold pending. cbn [queue workers set_queue]. lia. Qed.
Hint Rewrite pending_owner pending_inc pending_dec @pending_wake : pool.

(** Every case of a step of the worker [k], with its guards and where [k] was. *)
Ltac step_cases H Hpc :=
  unfold worker_step, lock, unlock, halt in H;
  match type of H with context [match pc ?k with _ => _ end] => destruct (pc k) eqn:Hpc end;
  repeat match type of H with context [match ?x with _ => _ end] => destruct x eqn:?; try discriminate H end;
  try discriminate H; injection H as <-; unfold goto in *.

(** *** The counter counts what is pending *)

Definition counted s : Prop := remainingTasks s = Z.of_nat (pending s).
Definition fits s : Prop := (Z.of_nat (pending s) < 2 ^ 32)%Z.

Lemma pending_goto w k p s : workers s !! w = Some k ->
  pending (goto w k p s) + weight k = pending s + weight (mkWorker p (ran k)).
Proof. apply pending_put. Qed.
Lemma pending_notify_one v s s' : notify_one v s = Some s' -> pending s' = pending s /\ remainingTasks s' = remainingTasks s.
Proof.
  intros [->|(w & k & Hw & Hk & ->)]%notify_one_some; [done|]. split; [|done].
  pose proof (pending_put w k (mkWorker WaitLock (ran k)) s Hw) as H. unfold weight in H. rewrite Hk in H. cbn [pc] in H. lia.
Qed.
(** The worker that moves is not woken on the way. *)
Lemma notify_one_self v s s' w k : notify_one v s = Some s' -> workers s !! w = Some k -> pc k <> Wait -> workers s' !! w = Some k.
Proof.
  intros [->|(u & ku & Hu & Hk & ->)]%notify_one_some Hw Hp; [done|].
  cbn [workers put set_workers]. rewrite list_lookup_insert_ne; [done|]. intros ->. by simplify_eq.
Qed.
Lemma wake_self s w k : workers s !! w = Some k -> pc k <> Wait -> workers (notify_all s) !! w = Some k.
Proof. intros Hw Hp. cbn [workers notify_all set_workers]. rewrite list_lookup_fmap, Hw. cbn. unfold wake, is_waiting. by destruct (pc k). Qed.

(** How much more, or less, is pending after the worker has moved. *)
Ltac counting Hw Hpc :=
  lazymatch type of Hw with workers ?s !! ?w = Some ?k =>
    try match goal with H : notify_one _ _ = Some ?s0 |- _ =>
      pose proof (notify_one_self _ _ _ _ _ H Hw ltac:(congruence)); apply pending_notify_one in H as [? ?] end;
    try match goal with |- context [notify_all s] =>
      pose proof (wake_self s w k Hw ltac:(congruence)); pose proof (pending_wake s) end;
    try match goal with H : tryPop _ = Some _ |- _ => apply tryPop_some in H end;
    try match goal with |- context [put w ?k' ?s1] =>
      assert (pending (put w k' s1) + weight k = pending s1 + weight k') as Hp by (by apply pending_put);
      change (remainingTasks (put w k' s1)) with (remainingTasks s1); unfold weight in Hp; rewrite Hpc in Hp; cbn [pc] in Hp end
  end.
Lemma worker_counted w k a s s' :
  workers s !! w = Some k -> worker_step w k a s = Some s' -> fits s' -> counted s -> counted s'.
Proof.
  unfold counted, fits. intros Hw Hs Hf Hc.
  step_cases Hs Hpc; counting Hw Hpc.
  all: autorewrite with pool in *.
  all: try match goal with |- context [set_queue ?q ?s] => pose proof (pending_queue q s) as Hq end.
  all: cbn [remainingTasks set_owner set_queue notify_all set_workers incRemainingTasks decRemainingTasks set_remaining] in *.
  all: try match goal with H : queue _ = _ |- _ => rewrite H in * end; unfold push in *; rewrite ?length_app in *; cbn [length] in *.
  all: rewrite ?(wrap_small 32) by lia; try lia.
  exact Hc.
Qed.

(** *** The mutex *)

(** A worker is in a section of [stateMtx_] exactly when the mutex is its own. *)
Definition holds (p : PC Task) : bool :=
  match p with PopCheck | WaitHeld | SubmitInc _ _ | SubmitPush _ _ | SubmitNotify _ | Dec | NotifyAll => true | _ => false end.
Definition locked s : Prop :=
  (forall w k, workers s !! w = Some k -> holds (pc k) = true <-> stateMtx s = Some w) /\
  forall w, stateMtx s = Some w -> is_Some (workers s !! w).
Lemma wake_holds k : holds (pc (wake k)) = holds (pc k).
Proof. unfold wake, is_waiting. by destruct (pc k) eqn:E; cbn; rewrite ?E. Qed.
Lemma locked_wake s : locked s -> locked (notify_all s).
Proof.
  intros [H1 H2]. split.
  - intros w k (k0 & Hw & ->)%lookup_wake. rewrite wake_holds. by apply H1.
  - intros w Hw. cbn. rewrite list_lookup_fmap, fmap_is_Some. by apply H2.
Qed.
(** Moving outside the section; into it; out of it. *)
Lemma locked_put w k k' s : workers s !! w = Some k -> holds (pc k') = holds (pc k) -> locked s -> locked (put w k' s).
Proof.
  intros Hw Hk [H1 H2]. split.
  - intros v kv [(-> & -> & _)|[Hne Hv]]%lookup_put; [rewrite Hk|]; by apply H1.
  - intros v Hv. cbn. rewrite lookup_lt_is_Some, length_insert, <- lookup_lt_is_Some. by apply H2.
Qed.
Lemma locked_in w k k' s : workers s !! w = Some k -> stateMtx s = None -> holds (pc k') = true -> locked s ->
  locked (put w k' (set_owner (Some w) s)).
Proof.
  intros Hw Ho Hk [H1 H2]. split.
  - intros v kv [(-> & -> & _)|[Hne Hv]]%lookup_put; cbn; [by rewrite Hk|].
    pose proof (proj1 (H1 v kv Hv)) as H. split; [|by intros [= ->]]. intros Hkv. rewrite Ho in H. by specialize (H Hkv).
  - intros v. cbn. intros [= <-]. rewrite list_lookup_insert_eq by (by eapply lookup_lt_Some). by eexists.
Qed.
Lemma locked_out w k k' s : workers s !! w = Some k -> holds (pc k) = true -> holds (pc k') = false -> locked s ->
  locked (put w k' (set_owner None s)).
Proof.
  intros Hw Hh Hk [H1 H2]. split; [|done].
  intros v kv [(-> & -> & _)|[Hne Hv]]%lookup_put; cbn; [by rewrite Hk|].
  split; [|done]. intros Hkv%(H1 v kv Hv). apply (H1 w k Hw) in Hh. congruence.
Qed.
Lemma locked_queue q s : locked s -> locked (set_queue q s).
Proof. done. Qed.
Lemma locked_remaining r s : locked s -> locked (set_remaining r s).
Proof. done. Qed.
Lemma locked_notify_one v s s' : notify_one v s = Some s' -> locked s -> locked s'.
Proof.
  intros [->|(w & k & Hw & Hk & ->)]%notify_one_some; [done|]. apply (locked_put w k); [done|]. by rewrite Hk.
Qed.
Lemma worker_locked w k a s s' : workers s !! w = Some k -> worker_step w k a s = Some s' -> locked s -> locked s'.
Proof.
  intros Hw Hs Hl. step_cases Hs Hpc.
  all: try (apply (locked_put w k); [done|by rewrite Hpc|done]).
  all: try (apply (locked_in w k); done).
  all: try (apply (locked_out w k); [done|by rewrite Hpc|done..]).
  - apply locked_wake. unfold locked. cbn. by rewrite <- Heqo.
  - pose proof (notify_one_self _ _ _ _ _ Heqo Hw ltac:(congruence)) as Hw0.
    apply (locked_out w k); [done|by rewrite Hpc|done|]. by eapply locked_notify_one.
  - apply (locked_out w k); [by apply wake_self; [|congruence]|by rewrite Hpc|done|]. by apply locked_wake.
Qed.

(** *** Who waits *)

(** A worker waits only while the pool is not halted and tasks are left, or the one
    that finished the last task is about to wake it. *)
Definition waits s : Prop := forall w k, workers s !! w = Some k -> pc k = Wait ->
  shouldHalt s = false /\ (remainingTasks s = 0%Z -> exists v kv, workers s !! v = Some kv /\ pc kv = NotifyAll).
Lemma waits_put w k k' s : workers s !! w = Some k -> pc k <> NotifyAll ->
  (pc k' = Wait -> shouldHalt s = false /\ remainingTasks s <> 0%Z) -> waits s -> waits (put w k' s).
Proof.
  intros Hw Hk Hk' Hs v kv [(-> & -> & _)|[Hne Hv]]%lookup_put Hp; [by destruct (Hk' Hp)|].
  destruct (Hs v kv Hv Hp) as [H1 H2]. split; [done|]. intros Hr. destruct (H2 Hr) as (u & ku & Hu & Hn).
  exists u, ku. split; [|done]. cbn. rewrite list_lookup_insert_ne; [done|]. intros <-. by simplify_eq.
Qed.
Lemma wake_awake k : pc (wake k) <> Wait.
Proof. unfold wake, is_waiting. by destruct (pc k) eqn:E; cbn; rewrite ?E. Qed.
Lemma waits_wake s : waits (notify_all s).
Proof. intros w k (k0 & _ & ->)%lookup_wake H. by apply wake_awake in H. Qed.
(** The counter matters only when it is 0. *)
Lemma waits_remaining r s : r <> 0%Z -> waits s -> waits (set_remaining r s).
Proof. intros Hr Hs w k Hw Hk. by destruct (Hs w k Hw Hk). Qed.
Lemma waits_notify_one v s s' : notify_one v s = Some s' -> waits s -> waits s'.
Proof. intros [->|(w & k & Hw & Hk & ->)]%notify_one_some; [done|]. apply (waits_put w k); [done|by rewrite Hk|done]. Qed.
Lemma worker_waits w k a s s' :
  workers s !! w = Some k -> worker_step w k a s = Some s' -> fits s' -> counted s -> waits s -> waits s'.
Proof.
  intros Hw Hs Hf Hc Hl. pose proof (worker_counted _ _ _ _ _ Hw Hs Hf Hc) as Hc'. step_cases Hs Hpc.
  all: try (apply (waits_put w k); [done|by rewrite Hpc|done|done]).
  - apply (waits_put w k); [done|by rewrite Hpc| |done]. intros _. cbn. apply orb_false_iff in Heqb as [H1 H2%Z.eqb_neq]. done.
  - apply waits_wake.
  - apply (waits_put w k); [done|by rewrite Hpc|done|]. apply waits_remaining; [|done].
    pose proof (pending_put w k (mkWorker (SubmitPush t new) (ran k)) (incRemainingTasks s) Hw) as Hp.
    unfold weight in Hp. rewrite Hpc, pending_inc in Hp. cbn [pc] in Hp. unfold counted in Hc'.
    change (u32 (remainingTasks s + 1) = Z.of_nat (pending (put w (mkWorker (SubmitPush t new) (ran k)) (incRemainingTasks s)))) in Hc'. lia.
  - apply (waits_put w k); [by apply (notify_one_self _ _ _ _ _ Heqo Hw); congruence|by rewrite Hpc|done|].
    by apply (waits_notify_one _ _ _ Heqo).
  - intros v kv [(-> & -> & _)|[Hne Hv]]%lookup_put Hp; [done|]. destruct (Hl v kv Hv Hp) as [H1 _]. split; [done|].
    intros _. exists w, (mkWorker NotifyAll (ran k)). split; [|done]. cbn. apply list_lookup_insert_eq. by eapply lookup_lt_Some.
  - apply (waits_put w k); [done|by rewrite Hpc|done|]. apply waits_remaining; [by apply Z.eqb_neq|done].
  - intros v kv [(-> & -> & _)|[Hne (k0 & _ & ->)%lookup_wake]]%lookup_put Hp; [done|]. by apply wake_awake in Hp.
Qed.

(** *** Nothing is pending *)

Lemma pending_zero_queue s : pending s = 0 -> queue s = [].
Proof. unfold pending. intros H. apply nil_length_inv. lia. Qed.
Lemma pending_zero_weight s w k : pending s = 0 -> workers s !! w = Some k -> weight k = 0.
Proof. unfold pending. intros H. apply sum_zero. lia. Qed.
Lemma weight_zero_hand k : weight k = 0 -> hand k = [].
Proof. unfold weight, hand. by destruct (pc k). Qed.

(** *** Who will look at the queue *)


(** Workers that are yet to look at the queue. *)
Definition active (p : PC Task) : bool :=
  match p with
  | Pop | WaitLock | WaitHeld | Run _ | SubmitLock _ _ | SubmitInc _ _ | SubmitPush _ _ | SubmitNotify _ | DecLock | Dec => true
  | _ => false
  end.
Definition served s : Prop :=
  queue s <> [] -> workers s = [] \/ exists w k, workers s !! w = Some k /\ active (pc k) = true.
Lemma served_put w k' s : is_Some (workers s !! w) -> active (pc k') = true -> served (put w k' s).
Proof.
  intros Hw Hk _. right. exists w, k'. split; [|done]. cbn. apply list_lookup_insert_eq. by apply lookup_lt_is_Some.
Qed.
Lemma served_keep w k k' s : workers s !! w = Some k -> active (pc k) = false -> served s -> served (put w k' s).
Proof.
  intros Hw Hk Hs Hq. destruct (Hs Hq) as [E|(v & kv & Hv & Ha)]; [rewrite E in Hw; by destruct w|].
  right. exists v, kv. split; [|done]. cbn. rewrite list_lookup_insert_ne; [done|]. intros ->. congruence.
Qed.
Lemma served_wake s : served s -> served (notify_all s).
Proof.
  intros Hs Hq. destruct (Hs Hq) as [E|(v & kv & Hv & Ha)]; [left; cbn; by rewrite E|].
  right. exists v, (wake kv). cbn. rewrite list_lookup_fmap, Hv. split; [done|]. unfold wake. by destruct (is_waiting kv).
Qed.
Lemma worker_served w k a s s' :
  workers s !! w = Some k -> worker_step w k a s = Some s' -> fits s' -> counted s -> served s -> served s'.
Proof.
  intros Hw Hs Hf Hc Hl. pose proof (worker_counted _ _ _ _ _ Hw Hs Hf Hc) as Hc'. step_cases Hs Hpc.
  all: try (by apply served_put).
  all: try (apply (served_keep w k); [done|by rewrite Hpc|done]).
  - intros Hq. by apply tryPop_none in Heqo.
  - by apply served_wake.
  - apply served_put; [|done]. eexists. apply (notify_one_self _ _ _ _ _ Heqo Hw). congruence.
  - intros Hq. unfold counted in Hc'. exfalso. apply Hq, (pending_zero_queue (put w (mkWorker NotifyAll (ran k)) (decRemainingTasks s))).
    apply Z.eqb_eq in Heqb. cbn [remainingTasks put set_workers] in Hc'. lia.
  - apply (served_keep w k); [by apply wake_self; [|congruence]|by rewrite Hpc|]. by apply served_wake.
Qed.

(** *** What a worker leaves as it is *)

Record kept s s' : Prop := {
  kept_main : main s' = main s;
  kept_length : length (workers s') = length (workers s);
  kept_halt : shouldHalt s = true -> shouldHalt s' = true;
  kept_zero : pending s = 0 -> pending s' = 0 }.
Lemma notify_one_kept v s s' : notify_one v s = Some s' ->
  main s' = main s /\ length (workers s') = length (workers s) /\ shouldHalt s' = shouldHalt s /\ queue s' = queue s.
Proof. intros [->|(w & k & Hw & Hk & ->)]%notify_one_some; [done|]. cbn. by rewrite length_insert. Qed.
Lemma worker_kept w k a s s' : workers s !! w = Some k -> worker_step w k a s = Some s' -> kept s s'.
Proof.
  intros Hw Hs.
  assert (pending s = 0 -> weight k = 0) as Hz by (intros H; by eapply pending_zero_weight).
  unfold weight in Hz. step_cases Hs Hpc; constructor.
  all: try match goal with H : notify_one _ _ = Some ?s0 |- _ =>
    pose proof (notify_one_kept _ _ _ H) as (? & ? & ? & ?) end.
  all: try done.
  all: try (cbn; by rewrite ?length_insert, ?length_fmap, ?length_map).
  all: try (intros H0; specialize (Hz H0); done).
  all: try (intros H0; counting Hw Hpc; autorewrite with pool in *; lia).
  - intros Hq0%pending_zero_queue. by rewrite Hq0 in Heqo.
  - cbn. congruence.
  - intros Hp0. specialize (Hz Hp0). lia.
Qed.

(** ** Runs *)

Section Runs.
Context (n : nat) (t0 : Task).

(** The interleavings in which fewer than 2^32 tasks are ever pending. *)
Inductive Runs : list (Action Task) -> State Task -> Prop :=
| Runs_init : Runs [] (init t0)
| Runs_step acts a s s' : Runs acts s -> step n a s = Some s' -> fits s' -> Runs (acts ++ [a]) s'.

Definition settled s : Prop :=
  (main s <> Adding -> length (workers s) = n) /\
  (main s = Returned -> shouldHalt s = true \/ pending s = 0) /\
  (main s = Joining \/ main s = Joined -> shouldHalt s = true) /\
  (main s = Joined -> forallb is_done (workers s) = true).
Definition pool_ok s : Prop := counted s /\ locked s /\ waits s /\ served s /\ settled s /\ length (workers s) <= n.

Lemma worker_done w k a s : pc k = Done -> worker_step w k a s = None.
Proof. unfold worker_step. intros ->. by destruct a. Qed.
Lemma worker_ok w k a s s' :
  workers s !! w = Some k -> worker_step w k a s = Some s' -> fits s' -> pool_ok s -> pool_ok s'.
Proof.
  intros Hw Hs Hf (Hc & Hl & Hwt & Hsv & (S1 & S2 & S3 & S4) & Hn).
  destruct (worker_kept _ _ _ _ _ Hw Hs) as [Km Kl Kh Kz]. unfold pool_ok, settled. rewrite Km, Kl. split_and!; try done.
  - by eapply worker_counted.
  - by eapply worker_locked.
  - by eapply worker_waits.
  - by eapply worker_served.
  - intros HR. destruct (S2 HR); auto.
  - auto.
  - intros HJ. specialize (S4 HJ). rewrite forallb_forall in S4. exfalso.
    assert (is_done k = true) as Hd by (apply S4; apply list_elem_of_In, list_elem_of_lookup; eauto).
    unfold is_done in Hd. destruct (pc k) eqn:Hpc; try done. by rewrite (worker_done _ _ _ _ Hpc) in Hs.
Qed.
Lemma halt_some s s' : halt s = Some s' ->
  stateMtx s = None /\ s' = notify_all (mkState (queue s) (remainingTasks s) true None (workers s) (main s)).
Proof. unfold halt. destruct (stateMtx s); [done|]. by intros [= <-]. Qed.
Lemma main_ok s s' : main_step n s = Some s' -> pool_ok s -> pool_ok s'.
Proof.
  intros Hs (Hc & Hl & Hwt & Hsv & (S1 & S2 & S3 & S4) & Hn). unfold main_step in Hs. destruct (main s) eqn:Hm; try done.
  - destruct (Nat.eqb_spec (length (workers s)) n); [|done]. injection Hs as <-. unfold pool_ok, settled. cbn. split_and!; try done.
    by intros [|].
  - destruct (shouldHalt s || _) eqn:Hb; [|done]. injection Hs as <-. unfold pool_ok, settled. cbn. split_and!; try done; [auto| |by intros [|]].
    intros _. apply orb_true_iff in Hb as [->|Hb]; [by left|]. right. change (pending s = 0). unfold counted in Hc.
    apply negb_true_iff in Hb. destruct (Z.gtb_spec (remainingTasks s) 0); [done|]. lia.
  - apply halt_some in Hs as [Ho ->]. cbn in Ho. unfold pool_ok, settled. split_and!.
    + unfold counted. by rewrite pending_wake.
    + apply locked_wake. unfold locked. cbn. by rewrite <- Ho.
    + apply waits_wake.
    + by apply served_wake.
    + cbn. rewrite length_map. by intros _; apply S1.
    + done.
    + done.
    + done.
    + cbn. by rewrite length_map.
  - destruct (forallb _ _) eqn:Hb; [|done]. injection Hs as <-. unfold pool_ok, settled. cbn. split_and!; try done; auto.
Qed.
Lemma init_ok : pool_ok (init t0).
Proof.
  unfold pool_ok, settled, counted, locked, waits, served. cbn. split_and!; try done; try lia; try (by intros [|]).
  by left.
Qed.
Lemma addWorker_ok s s' : addWorker n s = Some s' -> fits s' -> pool_ok s -> pool_ok s'.
Proof.
  unfold addWorker. intros Hs Hf (Hc & [L1 L2] & Hwt & Hsv & Hst & Hn). destruct (main s) eqn:Hm; try done.
  destruct (Nat.ltb_spec (length (workers s)) n); [|done]. injection Hs as <-. unfold pool_ok. split_and!.
  - unfold counted, pending in *. cbn. rewrite sum_list_with_app. cbn. by rewrite !Nat.add_0_r.
  - split.
    + intros w k. cbn. intros [Hw|[Hge Hw]]%lookup_app_Some; [by apply L1|].
      destruct (w - length (workers s)) eqn:E; cbn in Hw; [|by destruct n0]. injection Hw as <-. cbn. split; [done|].
      intros [? ?%lookup_lt_Some]%L2. lia.
    + intros w [k Hk]%L2. exists k. cbn. by apply lookup_app_l_Some.
  - intros w k. cbn. intros [Hw|[Hge Hw]]%lookup_app_Some Hk.
    + destruct (Hwt w k Hw Hk) as [H1 H2]. split; [done|]. intros (v & kv & Hv & Hn')%H2. exists v, kv. split; [|done]. by apply lookup_app_l_Some.
    + destruct (w - length (workers s)) eqn:E; cbn in Hw; [|by destruct n0]. by injection Hw as <-.
  - intros _. right. exists (length (workers s)), (mkWorker Pop []). split; [|done]. cbn. by rewrite list_lookup_middle.
  - unfold settled. cbn. rewrite Hm. split_and!; try done. by intros [|].
  - cbn. rewrite length_app. cbn. lia.
Qed.
Lemma runs_ok acts s : Runs acts s -> pool_ok s.
Proof.
  induction 1 as [|acts a s s' _ IH Hs Hf]; [apply init_ok|]. destruct a as [w a| |]; cbn in Hs.
  - destruct (workers s !! w) as [k|] eqn:Hw; [|done]. by eapply worker_ok.
  - by eapply addWorker_ok.
  - by eapply main_ok.
Qed.

(** ** Nothing is lost, and nothing is run twice *)

Definition items k : list Task := hand k ++ ran k.
Definition tasks s : list Task := queue s ++ flat_map items (workers s).
Lemma wake_items k : items (wake k) = items k.
Proof. unfold items. by rewrite wake_hand, wake_ran. Qed.
Lemma tasks_wake s : tasks (notify_all s) = tasks s.
Proof. unfold tasks. cbn. by rewrite (flat_map_same _ _ _ wake_items). Qed.
Lemma tasks_put w k k' s : workers s !! w = Some k -> tasks (put w k' s) ++ items k ≡ₚ tasks s ++ items k'.
Proof.
  intros Hw. unfold tasks. change (workers (put w k' s)) with (<[w := k']> (workers s)). change (queue (put w k' s)) with (queue s).
  rewrite <- !app_assoc. by rewrite (flat_insert items _ w k k' Hw).
Qed.
(** The task that goes through the hands of the worker comes from where it was. *)
Lemma tasks_move w k k' s (old new : list Task) :
  workers s !! w = Some k -> items k ++ new ≡ₚ items k' ++ old -> tasks (put w k' s) ++ old ≡ₚ tasks s ++ new.
Proof.
  intros Hw Hk. apply (inj (.++ items k)). rewrite <- !app_assoc, (Permutation_app_comm old), (Permutation_app_comm new), Hk.
  by rewrite app_assoc, (tasks_put w k k' s Hw), <- app_assoc.
Qed.
Lemma tasks_still w k k' s : workers s !! w = Some k -> items k ≡ₚ items k' -> tasks (put w k' s) ≡ₚ tasks s.
Proof.
  intros Hw Hk. rewrite <- (app_nil_r (tasks s)), <- (tasks_move w k k' s [] []); [by rewrite app_nil_r|done|by rewrite !app_nil_r].
Qed.
Lemma tasks_notify_one v s s' : notify_one v s = Some s' -> tasks s' ≡ₚ tasks s.
Proof.
  intros [->|(w & k & Hw & Hk & ->)]%notify_one_some; [done|]. apply (tasks_still w k); [done|]. unfold items, hand. by rewrite Hk.
Qed.
Definition submits (a : Act Task) : list Task := match a with Submit t => [t] | _ => [] end.
Lemma worker_tasks w k a s s' : workers s !! w = Some k -> worker_step w k a s = Some s' -> tasks s' ≡ₚ tasks s ++ submits a.
Proof.
  intros Hw Hs. step_cases Hs Hpc; cbn [submits]; rewrite ?app_nil_r.
  all: try (by etransitivity; [apply (tasks_still w k); [done|unfold items, hand; by rewrite Hpc]|]).
  - apply tryPop_some in Heqo.
    rewrite <- (app_nil_r (tasks (put _ _ _))), (tasks_move w k _ (set_queue l s) [] [t] Hw).
    + unfold tasks. cbn. rewrite Heqo, <- !app_assoc. f_equiv. apply Permutation_app_comm.
    + unfold items, hand. rewrite Hpc. cbn. rewrite app_nil_r. solve_Permutation.
  - apply (tasks_still w k); [done|]. unfold items, hand. rewrite Hpc. cbn. solve_Permutation.
  - rewrite <- (app_nil_r (tasks (put _ _ _))). apply (tasks_move w k); [done|].
    unfold items, hand. rewrite Hpc. cbn. rewrite app_nil_r. solve_Permutation.
  - by rewrite tasks_wake.
  - apply (inj (.++ [new])). rewrite (tasks_move w k _ (set_queue (push new (queue s)) s) [new] [] Hw).
    + unfold tasks, push. cbn. rewrite app_nil_r, <- !app_assoc. f_equiv. apply Permutation_app_comm.
    + unfold items, hand. rewrite Hpc. cbn. rewrite app_nil_r. solve_Permutation.
  - rewrite <- (tasks_notify_one _ _ _ Heqo). etransitivity; [|reflexivity].
    etransitivity; [apply (tasks_still w k); [apply (notify_one_self _ _ _ _ _ Heqo Hw); congruence|]|reflexivity].
    unfold items, hand. by rewrite Hpc.
  - rewrite <- (tasks_wake s). etransitivity; [apply (tasks_still w k); [apply wake_self; [done|congruence]|]|reflexivity].
    unfold items, hand. by rewrite Hpc.
Qed.

Lemma tasks_all acts s : Runs acts s -> tasks s ≡ₚ t0 :: submitted acts.
Proof.
  induction 1 as [|acts a s s' Hr IH Hs Hf]; [done|]. unfold submitted. rewrite flat_map_app. cbn [flat_map].
  rewrite app_nil_r, app_comm_cons. fold (submitted acts). rewrite <- IH. destruct a as [w a| |]; cbn in Hs.
  - destruct (workers s !! w) as [k|] eqn:Hw; [|done]. rewrite (worker_tasks _ _ _ _ _ Hw Hs). by destruct a.
  - unfold addWorker in Hs. destruct (main s), (Nat.ltb (length (workers s)) n); try done. injection Hs as <-.
    unfold tasks. cbn [queue workers set_workers]. rewrite flat_map_app. cbn. by rewrite !app_nil_r.
  - rewrite app_nil_r. unfold main_step in Hs. destruct (main s); try done.
    + destruct (Nat.eqb _ _); [|done]. by injection Hs as <-.
    + destruct (_ || _); [|done]. by injection Hs as <-.
    + apply halt_some in Hs as [_ ->]. by rewrite tasks_wake.
    + destruct (forallb _ _); [|done]. by injection Hs as <-.
Qed.

(** Property C13.  Every task that was submitted is in the queue, in the hands of one
    worker or among those run, and as often as it was submitted: whatever the
    interleaving, no task is lost and none is run twice. *)
Theorem tasks_conserved acts s : Runs acts s -> tasks s ≡ₚ t0 :: submitted acts.
Proof. apply tasks_all. Qed.

(** ** The pool is never stuck *)

(** Steps that do not depend on what a driver does or on a spurious wake-up. *)
Definition progress (a : Action Task) : bool :=
  match a with OfWorker _ Go | OfWorker _ (Notifies _) | AddWorker | OfMain => true | _ => false end.
Definition can_go s : Prop := exists a s', progress a = true /\ step n a s = Some s'.
Lemma worker_goes w k s a s' : workers s !! w = Some k -> progress (OfWorker w a) = true -> worker_step w k a s = Some s' -> can_go s.
Proof. intros Hw Hp Hs. exists (OfWorker w a), s'. split; [done|]. cbn. by rewrite Hw. Qed.
Lemma notify_one_possible s : exists v s', notify_one v s = Some s'.
Proof.
  destruct (existsb is_waiting (workers s)) eqn:E.
  - apply existsb_exists in E as (k & Hk & Hw). apply list_elem_of_In, list_elem_of_lookup in Hk as [v Hv].
    exists (Some v). unfold notify_one. rewrite Hv, Hw. by eexists.
  - exists None. unfold notify_one. rewrite E. by eexists.
Qed.
(** With the mutex a worker goes on; without it, if nobody has it. *)
Lemma holder_goes w k s : workers s !! w = Some k -> holds (pc k) = true -> can_go s.
Proof.
  intros Hw Hh. destruct (pc k) eqn:Hpc; try done.
  all: try (eapply (worker_goes w k s Go _ Hw eq_refl); unfold worker_step; rewrite Hpc; reflexivity).
  destruct (notify_one_possible s) as (v & s1 & Hv).
  eapply (worker_goes w k s (Notifies v) _ Hw eq_refl). unfold worker_step. rewrite Hpc, Hv. reflexivity.
Qed.
Definition resting (p : PC Task) : bool := match p with Wait | Done => true | _ => false end.
Lemma free_goes w k s : workers s !! w = Some k -> resting (pc k) = false -> stateMtx s = None -> can_go s.
Proof.
  intros Hw Hr Ho. destruct (holds (pc k)) eqn:Hh; [by eapply holder_goes|].
  destruct (pc k) eqn:Hpc; try done.
  1: destruct (tryPop (queue s)) as [[t q]|] eqn:Hq.
  all: eapply (worker_goes w k s Go _ Hw eq_refl); unfold worker_step, lock; rewrite Hpc, ?Ho, ?Hq; reflexivity.
Qed.
Lemma all_resting s : (exists w k, workers s !! w = Some k /\ resting (pc k) = false) \/
  forall w k, workers s !! w = Some k -> resting (pc k) = true.
Proof.
  destruct (existsb (fun k => negb (resting (pc k))) (workers s)) eqn:E.
  - left. apply existsb_exists in E as (k & Hk & Hr%negb_true_iff). apply list_elem_of_In, list_elem_of_lookup in Hk as [w Hw]. eauto.
  - right. intros w k Hw. apply not_true_iff_false in E. destruct (resting (pc k)) eqn:Hr; [done|]. destruct E.
    apply existsb_exists. exists k. rewrite Hr. split; [|done]. apply list_elem_of_In, list_elem_of_lookup. eauto.
Qed.
(** When all workers rest, what is pending is in the queue. *)
Lemma sum_all_zero (ks : list (Worker Task)) :
  (forall w k, ks !! w = Some k -> resting (pc k) = true) -> sum_list_with weight ks = 0.
Proof.
  induction ks as [|k ks IH]; intros H; cbn; [done|]. rewrite (IH (fun w => H (S w))).
  specialize (H 0 k eq_refl). unfold weight. by destruct (pc k).
Qed.
Lemma resting_queue s : pool_ok s -> workers s <> [] -> (forall w k, workers s !! w = Some k -> resting (pc k) = true) -> pending s = 0.
Proof.
  intros (_ & _ & _ & Hsv & _) Hne Hr. unfold pending. rewrite (sum_all_zero _ Hr). destruct (queue s) as [|t q] eqn:Hq; [done|].
  destruct Hsv as [E|(w & k & Hw & Ha)]; [by rewrite Hq|done|]. specialize (Hr w k Hw). by destruct (pc k).
Qed.

(** Property C11.  The pool never gets stuck: until the owner has joined all workers
    some thread can go on, without a spurious wake-up and whatever the drivers do.
    In particular the workers do not all wait while a task is queued, and everybody
    who waits is woken when the last task is finished or the pool is halted. *)
Theorem pool_never_stuck acts s : Runs acts s -> 0 < n -> main s <> Joined -> can_go s.
Proof.
  intros Hr Hn Hm. pose proof (runs_ok _ _ Hr) as Hok. pose proof Hok as (Hc & [L1 L2] & Hwt & Hsv & (S1 & S2 & S3 & S4) & Hle).
  destruct (stateMtx s) as [w|] eqn:Ho.
  { destruct (L2 w eq_refl) as [k Hw]. eapply (holder_goes w k); [done|]. by apply (L1 w k Hw). }
  destruct (all_resting s) as [(w & k & Hw & Hrk)|Hrest]; [by eapply free_goes|].
  assert (forall s', main_step n s = Some s' -> can_go s) as Hmain by (intros s' Hs; by exists OfMain, s').
  unfold main_step in Hmain. destruct (main s) eqn:Em; try done.
  - destruct (Nat.eqb_spec (length (workers s)) n) as [E|E]; [by eapply Hmain|].
    exists AddWorker. unfold step, addWorker. rewrite Em, (proj2 (Nat.ltb_lt _ _)) by lia. by eexists.
  - assert (workers s <> []) as Hne by (intros E; rewrite E in S1; specialize (S1 ltac:(done)); cbn in S1; lia).
    pose proof (resting_queue s Hok Hne Hrest) as Hp. unfold counted in Hc. rewrite Hp in Hc. rewrite Hc, orb_true_r in Hmain. by eapply Hmain.
  - unfold halt in Hmain. cbn in Hmain. rewrite Ho in Hmain. by eapply Hmain.
  - assert (forallb is_done (workers s) = true) as Hd.
    { apply forallb_forall. intros k Hk. apply list_elem_of_In, list_elem_of_lookup in Hk as [w Hw]. specialize (Hrest w k Hw).
      unfold is_done. destruct (pc k) eqn:Hpc; try done. destruct (Hwt w k Hw Hpc) as [Hf _]. by rewrite S3 in Hf by auto. }
    rewrite Hd in Hmain. by eapply Hmain.
Qed.

(** ** What has been run at the end *)

Definition over (m : Main) : bool := match m with Returned | Joining | Joined => true | _ => false end.
Lemma worker_halts w k a s s' : worker_step w k a s = Some s' -> a <> Halts -> shouldHalt s' = shouldHalt s.
Proof.
  intros Hs Ha. step_cases Hs Hpc; try done.
  cbn. by destruct (notify_one_kept _ _ _ Heqo) as (_ & _ & -> & _).
Qed.
(** Without a halt by a driver, the pool is halted by its owner only, after all. *)
Lemma runs_quiet acts s : Runs acts s -> existsb is_halt acts = false ->
  (shouldHalt s = true -> over (main s) = true) /\ (over (main s) = true -> pending s = 0).
Proof.
  induction 1 as [|acts a s s' Hr IH Hs Hf]; [done|]. rewrite existsb_app. intros [Hq Ha]%orb_false_iff.
  specialize (IH Hq) as [I1 I2]. cbn in Ha. rewrite orb_false_r in Ha. destruct a as [w a| |]; cbn in Hs.
  - destruct (workers s !! w) as [k|] eqn:Hw; [|done]. destruct (worker_kept _ _ _ _ _ Hw Hs) as [Km Kl Kh Kz].
    rewrite Km, (worker_halts _ _ _ _ _ Hs) by (by intros ->). auto.
  - unfold addWorker in Hs. destruct (main s) eqn:Em, (Nat.ltb (length (workers s)) n); try done. injection Hs as <-. cbn. by rewrite Em.
  - pose proof (runs_ok _ _ Hr) as (Hc & _ & _ & _ & _). unfold main_step in Hs. destruct (main s) eqn:Em; try done.
    + destruct (Nat.eqb _ _); [|done]. by injection Hs as <-.
    + destruct (shouldHalt s || _) eqn:Hb; [|done]. injection Hs as <-. split; [done|]. intros _.
      apply orb_true_iff in Hb as [Hb|Hb]; [by specialize (I1 Hb)|]. change (pending s = 0). unfold counted in Hc.
      apply negb_true_iff in Hb. destruct (Z.gtb_spec (remainingTasks s) 0); [done|]. lia.
    + apply halt_some in Hs as [_ ->]. rewrite pending_wake. split; [done|]. intros _. by apply I2.
    + destruct (forallb _ _); [|done]. injection Hs as <-. split; [done|]. intros _. by apply I2.
Qed.

(** Property C12.  When no driver halted the pool and [waitForTasks] has returned,
    the queue is empty and the workers have run exactly the tasks submitted, each
    as often as it was submitted. *)
Theorem pool_runs_every_task acts s :
  Runs acts s -> existsb is_halt acts = false -> over (main s) = true ->
  queue s = [] /\ flat_map ran (workers s) ≡ₚ t0 :: submitted acts.
Proof.
  intros Hr Hq Ho. destruct (runs_quiet acts s Hr Hq) as [_ Hp]. specialize (Hp Ho).
  pose proof (pending_zero_queue s Hp) as E. split; [done|]. rewrite <- (tasks_all acts s Hr). unfold tasks. rewrite E. cbn.
  assert (forall w k, workers s !! w = Some k -> hand k = []) as Hh
    by (intros w k Hw; by eapply weight_zero_hand, pending_zero_weight).
  revert Hh. generalize (workers s). intros ks. induction ks as [|k ks IH]; intros Hh; cbn; [done|].
  rewrite (IH (fun w => Hh (S w))). unfold items. by rewrite (Hh 0 k eq_refl).
Qed.

(** *** Runs from a list of actions *)

Fixpoint checked (acts : list (Action Task)) s : option (State Task) :=
  match acts with
  | [] => Some s
  | a :: acts =>
      match step n a s with
      | Some s => if (Z.of_nat (pending s) <? 2 ^ 32)%Z then checked acts s else None
      | None => None
      end
  end.
Lemma checked_runs acts : forall done s s', Runs done s -> checked acts s = Some s' -> Runs (done ++ acts) s'.
Proof.
  induction acts as [|a acts IH]; intros l s s' Hr Hc; cbn in Hc.
  - injection Hc as <-. by rewrite app_nil_r.
  - destruct (step n a s) as [s1|] eqn:Hs; [|done]. destruct (Z.ltb_spec (Z.of_nat (pending s1)) (2 ^ 32)); [|done].
    rewrite cons_middle, app_assoc. apply (IH _ s1); [|done]. by apply (Runs_step _ _ _ _ Hr Hs).
Qed.
Lemma runs_with (p : State Task -> bool) acts :
  match checked acts (init t0) with Some s => p s | None => false end = true -> exists s, Runs acts s /\ p s = true.
Proof.
  destruct (checked acts (init t0)) as [s|] eqn:E; [|done]. intros Hp. exists s. split; [|done].
  by apply (checked_runs acts [] (init t0)); [constructor|].
Qed.
End Runs.
End Facts.

(** ** Two workers *)

Definition W (w : nat) : Action nat := OfWorker w Go.
(** The second worker finds the queue empty; before it locks the mutex the first
    one submits a task and notifies nobody; the second one then waits. *)
Definition lost : list (Action nat) :=
  [AddWorker; AddWorker; OfMain; W 0; W 1; OfWorker 0 (Submit 1); W 0; W 0; W 0; OfWorker 0 (Notifies None); W 1; W 1].
Definition rest : list (Action nat) :=
  [W 0; W 0; W 0; W 0; W 0; W 0; W 0; W 0; W 1; W 1; W 1; W 1; W 1; OfMain; OfMain; OfMain].

(** A worker may wait while a task is queued: the notification came between its
    look at the queue and its wait. *)
Lemma lost_wakeup : exists s, Runs 2 0 lost s /\ queue s = [1] /\
  exists k, workers s !! 1 = Some k /\ pc k = Wait.
Proof.
  destruct (runs_with 2 0 (fun s => match queue s, workers s with [1], [_; k] => is_waiting k | _, _ => false end)
    lost ltac:(vm_compute; reflexivity)) as (s & Hr & Hp). exists s. split; [done|].
  destruct (queue s) as [|[|[|]] [|]]; try done. destruct (workers s) as [|k0 [|k [|]]]; try done.
  split; [done|]. exists k. split; [done|]. unfold is_waiting in Hp. by destruct (pc k).
Qed.
Lemma tasks_conserved_witness : exists s, Runs 2 0 lost s /\ tasks s ≡ₚ 0 :: submitted lost.
Proof.
  destruct (runs_with 2 0 (fun _ => true) lost ltac:(vm_compute; reflexivity)) as (s & Hr & _).
  exists s. split; [exact Hr|]. exact (tasks_conserved 2 0 lost s Hr).
Defined.
Lemma pool_never_stuck_witness : exists s, Runs 2 0 lost s /\ 0 < 2 /\ main s <> Joined /\ can_go 2 s.
Proof.
  destruct (runs_with 2 0 (fun s => match main s with Joined => false | _ => true end) lost ltac:(vm_compute; reflexivity)) as (s & Hr & Hp).
  assert (main s <> Joined) as Hm by (intros E; rewrite E in Hp; discriminate Hp). assert (0 < 2) as H2 by lia.
  exists s. split; [exact Hr|]. split; [exact H2|]. split; [exact Hm|]. exact (pool_never_stuck 2 0 lost s Hr H2 Hm).
Defined.
Lemma pool_runs_every_task_witness : exists s,
  Runs 2 0 (lost ++ rest) s /\ existsb is_halt (lost ++ rest) = false /\ over (main s) = true /\
  queue s = [] /\ flat_map ran (workers s) ≡ₚ 0 :: submitted (lost ++ rest).
Proof.
  destruct (runs_with 2 0 (fun s => over (main s)) (lost ++ rest) ltac:(vm_compute; reflexivity)) as (s & Hr & Ho).
  exists s. split; [exact Hr|]. split; [reflexivity|]. split; [exact Ho|].
  exact (pool_runs_every_task 2 0 (lost ++ rest) s Hr eq_refl Ho).
Defined.
End ThreadPoolFacts.
