(* ===== verification/InstAnnotator.v ===== *)
(** * Annotation of loads (src/src/Static/Transforms/InstAnnotator.cpp,
    LoadAnnotationPass.cpp, Static/LLVMUtils.cpp and LLVMUtils.hpp): the
    condition, over the registers of a function, under which the code after a
    load reaches an assume that fails.

    LLVM's values are not part of the repository: what the code asks of them is
    the class [IR].  A pointer to a value is the value; reading through a null
    pointer, and the assertions of LLVM, are [Undef]; [ERROR] stops the process
    ([Bug]).  The running numbers that name registers are only printed and left
    out. *)
From Stdlib Require Import String.
From stdpp Require Import strings.
From S2P Require Import Prelude SExpr InternalNames.
#[local] Open Scope Z_scope.

Module Annotator.
Import SExprOps InternalNames.

(** ** Values of LLVM, by what the source distinguishes *)

(** Users of a null and of a constant expression: is one of them an
    instruction.  A constant expression of another type than the integers may
    fold to another constant. *)
Inductive Constant :=
| UndefValue (integerBits : option Z)
| ConstantInt (bits value : Z)
| IntegerConstantExpr
| ConstantPointerNull (instUser : bool) (allocSize : Z)
| ConstantExpr (instUser : bool) (folded : option Constant)
| OtherConstant.

Inductive Instr {V B F : Type} :=
| CastInst (k : CastKind) (op : V)
| BitCastInst (op : V)
| PtrIntCastInst (srcSize dstSize : Z) (op : V)
| SelectInst (c t f : V)
| BinaryInst (k : ArithKind) (l r : V)
| ICmpInst (pred : CmpKind) (l r : V)
| ExtractValueInst (integerTy : bool) (indices : list Z) (aggregate : V)
| PHINode (incoming : list (B * V))
| LoadInst
| StoreInst
| AtomicCmpXchgInst (compare : V)
| AtomicRMWInst
| AllocaInst
| FenceInst
| CallInst (calledFunction strippedOperand : option F) (name : string) (args : list V)
| BranchInst (target : B)
| CondBranchInst (cond : V) (ifTrue ifFalse : B)
| OtherInst.
#[global] Arguments Instr : clear implicits.

Inductive ValueClass {V B F : Type} :=
| IsConstant (c : Constant)
| IsArgument
| IsInstruction (i : Instr V B F)
| IsOther.
#[global] Arguments ValueClass : clear implicits.

(** A function: its blocks, each a list of instructions. *)
Class IR := mkIR {
  Value : Type;
  Block : Type;
  Function_ : Type;
  Value_eq :: EqDecision Value;
  Value_countable :: Countable Value;
  Block_eq :: EqDecision Block;
  Function_eq :: EqDecision Function_;
  describe : Value -> ValueClass Value Block Function_;
  blocks : list Block;
  insts : Block -> list Value;
  getParent : Value -> Block;
  predecessors : Block -> list Block;
  operands : Value -> list Value;
  allocSizeInBits : Value -> Z;
  primitiveSizeInBits : Value -> Z;
  mayHaveSideEffects : Value -> bool;
  mayReadOrWriteMemory : Value -> bool;
  address : Value -> Z }.

Section Values.
Context `{IR}.

Definition inst (v : Value) : option (Instr Value Block Function_) :=
  match describe v with IsInstruction i => Some i | _ => None end.
Definition phi (v : Value) : option (list (Block * Value)) :=
  match inst v with Some (PHINode incoming) => Some incoming | _ => None end.
Definition isLoad (v : Value) : bool := match inst v with Some LoadInst => true | _ => false end.
Definition isCmpXchg (v : Value) : bool :=
  match inst v with Some (AtomicCmpXchgInst _) => true | _ => false end.
Definition isBranch (v : Value) : bool :=
  match inst v with Some (BranchInst _ | CondBranchInst _ _ _) => true | _ => false end.
Definition callee (v : Value) : option string :=
  match inst v with Some (CallInst _ _ name _) => Some name | _ => None end.
(** Is [v] a call of a function whose name satisfies [p]. *)
Definition calls (p : string -> bool) (v : Value) : bool :=
  match callee v with Some name => p name | None => false end.

(** The instructions of [l] from [v] on. *)
Fixpoint from (v : Value) (l : list Value) : list Value :=
  match l with
  | [] => []
  | x :: l' => if decide (x = v) then l else from v l'
  end.
Definition getNextNode (v : Value) : option Value := from v (insts (getParent v)) !! 1%nat.
Definition deref {A} (p : option A) : outcome A := match p with Some x => Ret x | None => Undef end.
Definition front (b : Block) : outcome Value := deref (head (insts b)).
Definition getTerminator (b : Block) : outcome Value := deref (last (insts b)).
Definition instructions : list Value := mjoin (insts <$> blocks).

Fixpoint getIncomingValueForBlock (incoming : list (Block * Value)) (b : Block) : outcome Value :=
  match incoming with
  | [] => Undef
  | (b', v) :: incoming => if decide (b' = b) then Ret v else getIncomingValueForBlock incoming b
  end.

(** ** Helpers on instructions (LLVMUtils) *)

Definition extractsFromCAS (integerTy : bool) (indices : list Z) (aggregate : Value) : option (Value * Value) :=
  if negb integerTy || (1 <? length indices)%nat then None
  else match inst aggregate with
       | Some (AtomicCmpXchgInst compare) => Some (aggregate, compare)
       | _ => None
       end.

Definition isIntrinsicCallNoSideEffects (i : Value) : bool := calls isCleanInternalFunction i.

Definition hasSideEffects (i : Value) (cleanFuns : option (list Function_)) : bool :=
  match inst i with
  | Some AllocaInst => true
  | Some d =>
      if mayHaveSideEffects i then
        match d with
        | CallInst _ fun_ name _ =>
            if isInternalFunction name then negb (isCleanInternalFunction name)
            else match cleanFuns, fun_ with
                 | Some clean, Some f => negb (bool_decide (f ∈ clean))
                 | _, _ => true
                 end
        | LoadInst | FenceInst => false
        | _ => true
        end
      else false
  | None => false
  end.

(** Calls [f] on the instructions of every path, backwards and without cycles,
    from [curr] to [to].  A path has no block twice, so the number of blocks is
    enough fuel. *)
Fixpoint backPaths {S} (f : S -> Value -> S) (fuel : nat) (curr to : Block) (path : list Block) (s : S) : outcome S :=
  match fuel with
  | O => Undef
  | S fuel =>
      let path := path ++ [curr] in
      if decide (curr = to) then Ret (foldl (fun s bb => foldl f s (rev (insts bb))) s path)
      else mfold (fun s pred => if decide (pred ∈ path) then Ret s else backPaths f fuel pred to path s)
             (predecessors curr) s
  end.
Definition foreachInBackPathTo {S} (from_ to : Block) (f : S -> Value -> S) (s : S) : outcome S :=
  backPaths f (length blocks) from_ to [] s.

(** ** Expressions for operands and instructions *)

Fixpoint generateConstantExpr (c : Constant) : outcome (SExpr Value) :=
  match c with
  | UndefValue (Some bits) => Ret (ConcreteExpr bits 42)
  | UndefValue None | IntegerConstantExpr => Undef
  | ConstantInt bits value => Ret (ConcreteExpr bits (Z.min value (2 ^ 64 - 1)))
  | ConstantPointerNull instUser size => _ ← BUG_ON (negb instUser); Ret (ConcreteExpr size 0)
  | ConstantExpr instUser folded =>
      match instUser, folded with true, Some c => generateConstantExpr c | _, _ => Bug end
  | OtherConstant => Bug
  end.
Definition generateOperandExpr (op : Value) : outcome (SExpr Value) :=
  match describe op with
  | IsConstant c => generateConstantExpr c
  | IsArgument | IsInstruction _ => Ret (RegisterExpr (allocSizeInBits op) op "")
  | IsOther => Bug
  end.

Definition generateInstExpr (curr : Value) : outcome (SExpr Value) :=
  let width := primitiveSizeInBits curr in
  match inst curr with
  | Some (CastInst k op) => e ← generateOperandExpr op; Ret (CastExpr k width e)
  | Some (SelectInst c t f) =>
      c ← generateOperandExpr c; t ← generateOperandExpr t; f ← generateOperandExpr f; Ret (Select c t f)
  | Some (BinaryInst SRem _ _) => Ret createTrue
  | Some (BinaryInst k l r) =>
      l ← generateOperandExpr l; r ← generateOperandExpr r; Ret (ArithExpr k width l r)
  | Some (ExtractValueInst integerTy indices aggregate) =>
      match extractsFromCAS integerTy indices aggregate with
      | None => Ret createTrue
      | Some (cas, compare) =>
          if bool_decide (head indices = Some 0) then generateOperandExpr cas
          else l ← generateOperandExpr cas; r ← generateOperandExpr compare; Ret (CmpExpr Eq l r)
      end
  | Some (BitCastInst op) => generateOperandExpr op
  | Some (PtrIntCastInst srcSize dstSize op) =>
      e ← generateOperandExpr op;
      Ret (if dstSize <? srcSize then CastExpr Trunc width e
           else if srcSize <? dstSize then CastExpr ZExt width e
           else e)
  | Some (ICmpInst pred l r) =>
      l ← generateOperandExpr l; r ← generateOperandExpr r; Ret (CmpExpr pred l r)
  | _ => Ret createTrue
  end.
End Values.

(** ** The annotator *)

Inductive Status := unseen | entered | left_.
#[global] Instance Status_eq : EqDecision Status.
Proof. solve_decision. Defined.

Section Annotate.
Context `{IR}.

Record Annotator := mkAnnotator { statusMap : gmap Value Status; annotMap : gmap Value (SExpr Value) }.
Definition reset : Annotator := mkAnnotator ∅ ∅.
Definition status (s : Annotator) (i : Value) : Status := default unseen (statusMap s !! i).
Definition setStatus (s : Annotator) (i : Value) (st : Status) : Annotator :=
  mkAnnotator (<[i := st]> (statusMap s)) (annotMap s).
Definition getAnnot (s : Annotator) (i : Value) : option (SExpr Value) := annotMap s !! i.
Definition setAnnot (s : Annotator) (i : Value) (annot : SExpr Value) : Annotator :=
  mkAnnotator (statusMap s) (<[i := annot]> (annotMap s)).
(** A moved pointer is null. *)
Definition releaseAnnot (s : Annotator) (i : Value) : option (SExpr Value) * Annotator :=
  (getAnnot s i, mkAnnotator (statusMap s) (delete i (annotMap s))).

(** The loop over the phis at the start of a block entered from [b]. *)
Fixpoint substitutePhis (b : Block) (l : list Value) (e : SExpr Value) : outcome (SExpr Value) :=
  match l with
  | [] => Undef
  | p :: l =>
      match phi p with
      | None => Ret e
      | Some incoming =>
          v ← getIncomingValueForBlock incoming b;
          op ← generateOperandExpr v;
          substitutePhis b l (substitute e p op)
      end
  end.
Definition phisOnEdge (curr succ : Value) (e : SExpr Value) : outcome (SExpr Value) :=
  if decide (getParent curr = getParent succ) then Ret e
  else substitutePhis (getParent curr) (from succ (insts (getParent succ))) e.
Definition isPhi (v : Value) : bool := match phi v with Some _ => true | None => false end.

Definition propagateAnnotFromSucc (s : Annotator) (curr succ : Value) : outcome (SExpr Value) :=
  a ← deref (getAnnot s succ);
  succExp ← phisOnEdge curr succ (clone a);
  if isBranch curr || (isPhi curr && bool_decide (getParent curr = getParent succ)) then Ret succExp
  else currOp ← generateInstExpr curr; Ret (substitute succExp curr currOp).

(** The next instruction, or the first ones of the blocks a branch goes to. *)
Definition nextOrTargets (i : Value) : outcome (list Value) :=
  match getNextNode i with
  | Some j => Ret [j]
  | None =>
      match inst i with
      | Some (BranchInst b) => f ← front b; Ret [f]
      | Some (CondBranchInst _ b c) => f ← front b; g ← front c; Ret [f; g]
      | _ => Ret []
      end
  end.
Definition getNextOrBranchSuccessors (i : Value) : outcome (list Value) :=
  if isLoad i || hasSideEffects i None then Ret []
  else if calls isAssumeFunction i || calls isErrorFunction i then Ret []
  else nextOrTargets i.

(** The depth-first search both annotations share: [successors] gives the
    successors, [leave] annotates an instruction when it is left.  Every call
    enters an unseen instruction. *)
Section Search.
Context (successors : Value -> outcome (list Value)).
Context (leave : Value -> list Value -> Annotator -> outcome Annotator).
Fixpoint dfs (fuel : nat) (curr : Value) (s : Annotator) : outcome Annotator :=
  match fuel with
  | O => Undef
  | S fuel =>
      succs ← successors curr;
      _ ← BUG_ON (2 <? length succs)%nat;
      s ← mfold (fun s succ =>
             match status s succ with
             | unseen => dfs fuel succ s
             | entered => Ret (setAnnot s succ createTrue)
             | left_ => Ret s
             end) succs (setStatus s curr entered);
      leave curr succs (setStatus s curr left_)
  end.
End Search.
Definition dfs_fuel : nat := S (length instructions).

(** The condition of a branch is read as a register. *)
Definition branchCondition (curr : Value) : outcome (SExpr Value) :=
  match inst curr with
  | Some (CondBranchInst cond _ _) => Ret (RegisterExpr (primitiveSizeInBits cond) cond "")
  | _ => Undef
  end.
Definition firstArgument (curr : Value) : outcome Value :=
  match inst curr with Some (CallInst _ _ _ args) => deref (head args) | _ => Undef end.

(** The end of [annotateDFS]. *)
Definition annotateLeft (curr : Value) (succs : list Value) (s : Annotator) : outcome Annotator :=
  match succs with
  | [] =>
      if calls isAssumeFunction curr
      then op ← firstArgument curr; e ← generateOperandExpr op; Ret (setAnnot s curr e)
      else Ret (setAnnot s curr createTrue)
  | [a; b] =>
      regExp ← branchCondition curr;
      t ← propagateAnnotFromSucc s curr a;
      f ← propagateAnnotFromSucc s curr b;
      Ret (setAnnot s curr (Select regExp t f))
  | a :: _ => e ← propagateAnnotFromSucc s curr a; Ret (setAnnot s curr e)
  end.
Definition annotateDFS : nat -> Value -> Annotator -> outcome Annotator :=
  dfs getNextOrBranchSuccessors annotateLeft.

Definition allUnseen : Annotator := foldl (fun s i => setStatus s i unseen) reset instructions.

(** The annotation of the load [curr]. *)
Definition annotate (curr : Value) : outcome (SExpr Value) :=
  _ ← BUG_ON (negb (isLoad curr) && negb (isCmpXchg curr));
  next ← deref (getNextNode curr);
  s ← annotateDFS dfs_fuel next allUnseen;
  deref (fst (releaseAnnot s next)).

(** The condition under which [bb] jumps to its first successor. *)
Definition annotateBBCond (bb : Block) (pred : option Block) : outcome (SExpr Value) :=
  bi ← getTerminator bb;
  match inst bi with
  | Some (BranchInst _) => Ret createTrue
  | Some (CondBranchInst cond _ _) =>
      e ← generateOperandExpr cond;
      s ← mfold (fun s i =>
             if mayReadOrWriteMemory i then Ret (setAnnot s i createFalse)
             else next ← deref (getNextNode i); e ← propagateAnnotFromSucc s i next; Ret (setAnnot s i e))
           (rev (removelast (insts bb))) (setAnnot reset bi e);
      first ← front bb;
      match pred with
      | Some p => t ← getTerminator p; propagateAnnotFromSucc s t first
      | None => deref (fst (releaseAnnot s first))
      end
  | _ => Ret createFalse
  end.

(** ** Annotation of a CAS with the condition of a backedge *)

(** [header]: the header of the loop. *)
Definition getNextOrBranchSuccessorsInLoop (backedgePaths : list Block) (header : Block)
    (cleanSet : option (list Function_)) (i : Value) : outcome (list Value) :=
  first ← front header;
  if negb (bool_decide (getParent i ∈ backedgePaths)) || bool_decide (i = first) then Ret []
  else
    let inCleanSet :=
      match inst i, cleanSet with
      | Some (CallInst (Some f) _ _ _), Some clean => bool_decide (f ∈ clean)
      | _, _ => false
      end in
    _ ← BUG_ON (hasSideEffects i None && negb (isCmpXchg i) && negb inCleanSet);
    nextOrTargets i.

(** Calls are left before the case for assumes is reached. *)
Definition propagateAnnotFromSuccInLoop (s : Annotator) (curr succ : Value) : outcome (SExpr Value) :=
  a ← deref (getAnnot s succ);
  succExp ← phisOnEdge curr succ (clone a);
  if isBranch curr || (isPhi curr && bool_decide (getParent curr = getParent succ))
  then Ret succExp
  else match inst curr with
       | Some (AtomicCmpXchgInst _ | ExtractValueInst _ _ _ | LoadInst | CallInst _ _ _ _) => Ret succExp
       | _ => currOp ← generateInstExpr curr; Ret (substitute succExp curr currOp)
       end.

Definition annotateInLoopLeft (backedgePaths : list Block) (header : Block)
    (curr : Value) (succs : list Value) (s : Annotator) : outcome Annotator :=
  match succs with
  | [] =>
      if negb (bool_decide (getParent curr ∈ backedgePaths)) then Ret (setAnnot s curr createFalse)
      else if decide (getParent curr = header) then Ret (setAnnot s curr createTrue)
      else Bug
  | [a; b] =>
      regExp ← branchCondition curr;
      t ← propagateAnnotFromSuccInLoop s curr a;
      f ← propagateAnnotFromSuccInLoop s curr b;
      Ret (setAnnot s curr (Select regExp t f))
  | a :: _ => e ← propagateAnnotFromSuccInLoop s curr a; Ret (setAnnot s curr e)
  end.
Definition annotateCASWithBackedgeCondDFS (backedgePaths : list Block) (header : Block)
    (cleanSet : option (list Function_)) : nat -> Value -> Annotator -> outcome Annotator :=
  dfs (getNextOrBranchSuccessorsInLoop backedgePaths header cleanSet) (annotateInLoopLeft backedgePaths header).

Definition annotateCASWithBackedgeCond (curr : Value) (latch header : Block)
    (cleanSet : option (list Function_)) : outcome (SExpr Value) :=
  backedgePaths ← foreachInBackPathTo latch header (fun paths i => getParent i :: paths) [];
  next ← deref (getNextNode curr);
  s ← annotateCASWithBackedgeCondDFS backedgePaths header cleanSet dfs_fuel next allUnseen;
  deref (fst (releaseAnnot s next)).

(** ** The loads of a function that are annotated (LoadAnnotationPass) *)

(** The condition that decides whether a block is left for a phi. *)
Definition conditionOf (b : Block) : outcome (option Value) :=
  term ← getTerminator b;
  Ret match inst term with Some (CondBranchInst cond _ _) => Some cond | _ => None end.

(** [phis] is passed by value.  The operands of a phi are its incoming values. *)
Fixpoint calcSourceLoads (fuel : nat) (phis : gset Value) (source : list Value) (i : Value) : outcome (list Value) :=
  match fuel with
  | O => Undef
  | S fuel =>
      match inst i with
      | None | Some (StoreInst | AtomicRMWInst | AllocaInst) => Ret source
      | Some (LoadInst | AtomicCmpXchgInst _) => Ret (source ++ [i])
      | Some (PHINode incoming) =>
          if decide (i ∈ phis) then Ret source
          else mfold (fun source bv =>
                 match describe (snd bv) with
                 | IsInstruction _ => calcSourceLoads fuel ({[i]} ∪ phis) source (snd bv)
                 | IsConstant _ =>
                     c ← conditionOf (fst bv);
                     match c with
                     | Some cond => calcSourceLoads fuel ({[i]} ∪ phis) source cond
                     | None => Ret source
                     end
                 | _ => Ret source
                 end) incoming source
      | Some _ =>
          mfold (fun source v =>
            match inst v with Some _ => calcSourceLoads fuel phis source v | None => Ret source end)
            (operands i) source
      end
  end.

(** [std::unique]: drops an element equal to the one before. *)
Fixpoint unique (l : list Value) : list Value :=
  match l with
  | x :: (y :: _) as l' => if decide (x = y) then unique l' else x :: unique l'
  | _ => l
  end.
Definition not_after (x y : Value) : Prop := Z.le (address x) (address y).
#[local] Instance not_after_dec x y : Decision (not_after x y).
Proof. unfold not_after. apply _. Defined.
Definition sortValues (l : list Value) : list Value := merge_sort not_after l.

Definition getSourceLoads (fuel : nat) (assm : Value) : outcome (list Value) :=
  arg ← firstArgument assm;
  source ← match inst arg with Some _ => calcSourceLoads fuel ∅ [] arg | None => Ret [] end;
  Ret (unique (sortValues source)).

(** The flags of the walk from an assume back to a load, and the loads found. *)
Record Walk := mkWalk { assumeFound : bool; loadFound : bool; sideEffects : bool; found : list Value }.
Definition walk (assm li : Value) (w : Walk) (i : Value) : Walk :=
  if negb (assumeFound w) then
    mkWalk (match callee i with Some _ => bool_decide (i = assm) | None => false end)
      (loadFound w) (sideEffects w) (found w)
  else
    let other := negb (bool_decide (i = li)) in
    let side :=
      if loadFound w then sideEffects w
      else sideEffects w || (hasSideEffects i None && other) || (isLoad i && other) in
    if loadFound w then mkWalk true true side (found w)
    else if bool_decide (i = li) then mkWalk false false false (if side then found w else found w ++ [li])
    else mkWalk true false side (found w).
Definition filterAnnotatableFromSource (assm : Value) (source : list Value) : outcome (list Value) :=
  result ← mfold (fun result li =>
      w ← foreachInBackPathTo (getParent assm) (getParent li) (walk assm li) (mkWalk false false false result);
      Ret (found w)) source [];
  Ret (unique result).

Definition getAnnotatableLoads (fuel : nat) (assm : Value) : outcome (list Value) :=
  if negb (calls isAssumeFunction assm) then Ret []
  else sourceLoads ← getSourceLoads fuel assm; filterAnnotatableFromSource assm sourceLoads.

(** [LoadAnnotationAnalysis::run]: the annotations of the loads of a function. *)
Definition run (fuel : nat) : outcome (gmap Value (SExpr Value)) :=
  mfold (fun annots a =>
    if calls isAssumeFunction a then
      loads ← getAnnotatableLoads fuel a;
      mfold (fun annots l => e ← annotate l; Ret (<[l := e]> annots)) loads annots
    else Ret annots) instructions ∅.
End Annotate.
End Annotator.
