(* ===== verification/InstAnnotatorFacts.v ===== *)
(** * What the annotation of a load means (properties of InstAnnotator.v): the steps
    of a function, where annotations represent them, and the annotation as a
    condition for an assume to fail.  What instructions compute is a parameter,
    which OperationsFacts.v instantiates with the operations of the interpreter. *)
From Stdlib Require Import String.
From stdpp Require Import strings.
From S2P Require Import Prelude SVal SExpr SExprFacts InternalNames InstAnnotator.
#[local] Open Scope Z_scope.

Module AnnotatorFacts.
Import SExprOps SExprFacts InternalNames Annotator.

(** ** Executions of a function *)
Section Semantics.
Context `{IR}.
(** What registers hold, and the number an annotation takes for it. *)
Context {Word : Type} (number : Word -> Z).
(** [compute ι i]: what the instruction [i] computes from the registers [ι], if
    annotations represent its operation exactly there. *)
Context (compute : (Value -> Word) -> Value -> option Word).
Abbreviation Regs := (Value -> Word).

(** The value of a constant that has an expression: at most 64 bits, 0 for null,
    and 42 stands for an undefined value. *)
Fixpoint constant_value (c : Constant) : Z :=
  match c with
  | UndefValue _ => 42
  | ConstantInt _ v => Z.min v (2 ^ 64 - 1)
  | ConstantExpr _ (Some c) => constant_value c
  | _ => 0
  end.
(** Constants are registers that are never written. *)
Definition constants_hold (ι : Regs) : Prop :=
  forall v c, describe v = IsConstant c -> number (ι v) = constant_value c.

(** The phis of [l] read their operands for the edge from [b] at once. *)
Fixpoint phi_operand (b : Block) (l : list Value) (x : Value) : option Value :=
  match l with
  | [] => None
  | p :: l =>
      match phi p with
      | None => None
      | Some incoming =>
          if decide (p = x)
          then match getIncomingValueForBlock incoming b with Ret v => Some v | _ => None end
          else phi_operand b l x
      end
  end.
Definition enter (ι : Regs) (b : Block) (succ x : Value) : Word :=
  match phi_operand b (insts (getParent succ)) x with Some v => ι v | None => ι x end.
(** Registers after an instruction that computes [a]. *)
Definition after (ι : Regs) (i : Value) (a : Word) (x : Value) : Word := if decide (x = i) then a else ι x.

(** Neither a load, nor an instruction with side effects, nor the failing of an
    assertion. *)
Definition silent (i : Value) : bool :=
  negb (isLoad i) && negb (hasSideEffects i None) && negb (calls isErrorFunction i).
Definition passed (i : Value) : bool :=
  silent i && negb (calls isAssumeFunction i) && negb (isBranch i) && negb (isPhi i).
(** The block the branch [i] goes to. *)
Definition jumps (ι : Regs) (i : Value) (b : Block) : Prop :=
  inst i = Some (BranchInst b) \/
  exists c b1 b2, inst i = Some (CondBranchInst c b1 b2) /\ b = if SVal.getBool (number (ι c)) then b1 else b2.

(** A silent step of the function: the registers and the next instruction. *)
Abbreviation State := (Regs * Value)%type.
Inductive Step : State -> State -> Prop :=
| step_inst ι ι' i j a :
    passed i = true -> compute ι i = Some a -> getNextNode i = Some j -> (forall x, ι' x = after ι i a x) ->
    Step (ι, i) (ι', j)
| step_phi ι i j : silent i = true -> isPhi i = true -> getNextNode i = Some j -> Step (ι, i) (ι, j)
| step_jump ι ι' i b j :
    jumps ι i b -> front b = Ret j -> (forall x, ι' x = enter ι (getParent i) j x) -> Step (ι, i) (ι', j).

(** An assume whose argument is false. *)
Inductive Fails : State -> Prop :=
| assume_false ι i v :
    calls isAssumeFunction i = true -> firstArgument i = Ret v -> SVal.getBool (number (ι v)) = false -> Fails (ι, i).

(** On the edge from [b] a phi of the list reads a later one. *)
Fixpoint mixed (b : Block) (l : list Value) : bool :=
  match l with
  | [] => false
  | p :: l =>
      match phi p with
      | None => false
      | Some incoming =>
          match getIncomingValueForBlock incoming b with Ret q => bool_decide (q ∈ l) && isPhi q | _ => false end ||
          mixed b l
      end
  end.
(** Where the code's annotations may not say what the step does: an operation
    that is not represented exactly; a jump to a block one of whose phis reads a
    later one, which are substituted one after the other; a jump of a block with
    phis to itself, on which they are not substituted. *)
Inductive Inexact : State -> Prop :=
| inexact_inst ι i : passed i = true -> compute ι i = None -> Inexact (ι, i)
| inexact_phis ι i b : jumps ι i b -> mixed (getParent i) (insts b) = true -> Inexact (ι, i)
| inexact_loop ι i j : jumps ι i (getParent i) -> front (getParent i) = Ret j -> isPhi j = true -> Inexact (ι, i).

(** Execution from [i] silently goes on to an assume that fails, or to a step
    that annotations do not represent. *)
Definition Discards (ι : Regs) (i : Value) : Prop := exists s, rtc Step (ι, i) s /\ (Fails s \/ Inexact s).
Lemma discards_step ι ι' i j : Step (ι, i) (ι', j) -> Discards ι' j -> Discards ι i.
Proof. intros Hs (s & Hr & H'). exists s. split; [by eapply rtc_l|done]. Qed.
Lemma discards_here ι i : Fails (ι, i) \/ Inexact (ι, i) -> Discards ι i.
Proof. intros H'. exists (ι, i). by split. Qed.

(** *** The rules of LLVM the proofs need *)

Record Wellformed : Prop := mkWellformed {
  insts_nodup b : NoDup (insts b);
  insts_parent b i : i ∈ insts b -> getParent i = b;
  branches_last i : isBranch i = true -> getNextNode i = None }.

(** ** Expressions under registers *)

Definition env (ι : Regs) (x : Value) : outcome Z := Ret (number (ι x)).
(** [compute] is what the expression of an instruction says. *)
Definition represents : Prop :=
  forall ι i e a, constants_hold ι -> passed i = true -> compute ι i = Some a -> generateInstExpr i = Ret e ->
    is_Some (inst i) /\ denote (env ι) e = Ret (number a).

Lemma constant_denotes ρ : forall c e, generateConstantExpr c = Ret e -> denote (env ρ) e = Ret (constant_value c).
Proof.
  fix IH 1. intros [[]|bits v| |[] size|[] [c|]|] e; cbn; try done; try (by intros [= <-]). apply IH.
Qed.
Lemma operand_denotes ι v e :
  constants_hold ι -> generateOperandExpr v = Ret e -> denote (env ι) e = Ret (number (ι v)).
Proof.
  unfold generateOperandExpr. intros Hc. specialize (Hc v).
  destruct (describe v) as [c| | |]; [rewrite (Hc c) by done; apply constant_denotes|by intros [= <-]..|done].
Qed.
(** Substituting a register is assigning it. *)
Lemma substitute_denotes ι ι' e r op a :
  denote (env ι) op = Ret (number a) -> (forall y, ι' y = if decide (y = r) then a else ι y) ->
  denote (env ι) (substitute e r op) = denote (env ι') e.
Proof.
  intros Hop Hι'. unfold substitute. rewrite denote_replace. apply denote_ext. intros y.
  unfold env_replaced, env. rewrite Hι'. destruct (decide (y = r)); [by rewrite denote_clone|done].
Qed.

Lemma from_sub v l : from v l ⊆ l.
Proof. induction l as [|x l IH]; cbn; [set_solver|]. destruct (decide _); set_solver. Qed.
Lemma phi_operand_in b l x v : phi_operand b l x = Some v -> x ∈ l /\ isPhi x = true.
Proof.
  induction l as [|p l IH]; cbn; [done|]. destruct (phi p) as [incoming|] eqn:E; [|done].
  destruct (decide (p = x)) as [->|]; [unfold isPhi; rewrite E; set_solver|]. intros [? ?]%IH. set_solver.
Qed.
Lemma phi_register x : isPhi x = true -> forall c, describe x <> IsConstant c.
Proof. unfold isPhi, phi, inst. intros Hp c Hc. by rewrite Hc in Hp. Qed.
Lemma enter_constants ι b j ι' :
  constants_hold ι -> (forall x, ι' x = enter ι b j x) -> constants_hold ι'.
Proof.
  intros Hc Hι' v c Hv. rewrite Hι'. unfold enter. destruct (phi_operand _ _ v) as [w|] eqn:E; [|by apply Hc].
  apply phi_operand_in in E as [_ E]. by destruct (phi_register v E c).
Qed.
Lemma after_constants ι i a ι' :
  constants_hold ι -> is_Some (inst i) -> (forall x, ι' x = after ι i a x) -> constants_hold ι'.
Proof.
  intros Hc [d Hd] Hι' v c Hv. rewrite Hι'. unfold after. destruct (decide (v = i)) as [->|]; [|by apply Hc].
  unfold inst in Hd. by rewrite Hv in Hd.
Qed.

(** Substituting the phis one after the other is assigning them at once, when
    none reads a later one. *)
Lemma substitutePhis_denotes b ι : forall l e e' ι', constants_hold ι ->
  substitutePhis b l e = Ret e' -> NoDup l -> mixed b l = false ->
  (forall x, ι' x = match phi_operand b l x with Some v => ι v | None => ι x end) ->
  denote (env ι) e' = denote (env ι') e.
Proof.
  intros l e e' ι' Hc. revert e ι'. induction l as [|p l IH]; intros e ι' He Hnd Hm Hι'; cbn in *; [done|].
  destruct (phi p) as [incoming|] eqn:Hp.
  2:{ injection He as [= <-]. apply denote_ext. intros x. unfold env. by rewrite Hι'. }
  apply NoDup_cons in Hnd as [Hpl Hnd]. ret_inv. rename a into v, a0 into op.
  apply orb_false_iff in Hm as [Hv Hm].
  set (ι1 := fun x => match phi_operand b l x with Some v => ι v | None => ι x end).
  rewrite (IH _ ι1 He Hnd Hm) by done.
  assert (ι1 v = ι v) as Hv1.
  { unfold ι1. destruct (phi_operand b l v) eqn:Eo; [|done]. apply phi_operand_in in Eo as [Hin Hphi].
    by rewrite bool_decide_eq_true_2, Hphi in Hv. }
  assert (constants_hold ι1) as Hc1.
  { intros x c Hx. unfold ι1. destruct (phi_operand b l x) eqn:Eo; [|by apply Hc].
    apply phi_operand_in in Eo as [_ Eo]. by destruct (phi_register x Eo c). }
  apply substitute_denotes with (a := ι v); [rewrite <- Hv1; by apply operand_denotes|].
  intros y. rewrite Hι'. unfold ι1. destruct (decide (p = y)) as [->|Hne].
  - by rewrite decide_True by done.
  - by rewrite !decide_False by done.
Qed.

(** ** Annotations propagate backwards *)
Context (Hf : Wellformed) (Hr : represents).

Lemma next_parent i j : getNextNode i = Some j -> getParent j = getParent i.
Proof. intros E%list_elem_of_lookup_2. apply (insts_parent Hf), (from_sub i), E. Qed.
Lemma front_head b j : front b = Ret j -> exists l, insts b = j :: l.
Proof. unfold front. destruct (insts b) as [|x l]; cbn; [done|]. intros [= ->]. eauto. Qed.
Lemma front_parent b j : front b = Ret j -> getParent j = b.
Proof. intros (l & E)%front_head. apply (insts_parent Hf). rewrite E. by left. Qed.
Lemma from_front b j : front b = Ret j -> from j (insts b) = insts b.
Proof. intros (l & E)%front_head. rewrite E. cbn. by rewrite decide_True. Qed.

Definition targets (i : Value) (b : Block) : Prop :=
  inst i = Some (BranchInst b) \/
  (exists c b', inst i = Some (CondBranchInst c b b') \/ inst i = Some (CondBranchInst c b' b)).
Lemma targets_branch i b : targets i b -> isBranch i = true.
Proof. unfold isBranch. by intros [->|(? & ? & [->| ->])]. Qed.
Lemma jumps_targets ι i b : jumps ι i b -> targets i b.
Proof.
  intros [?|(c & b1 & b2 & E & ->)]; [by left|]. right.
  destruct (SVal.getBool _); eauto.
Qed.

(** The annotation of an instruction holds what that of the next one holds after
    it, if its operation is represented. *)
Lemma propagate_next s i j a e :
  getNextNode i = Some j -> silent i = true -> calls isAssumeFunction i = false ->
  getAnnot s j = Some a -> propagateAnnotFromSucc s i j = Ret e -> forall ι, constants_hold ι ->
  Inexact (ι, i) \/ exists ι', Step (ι, i) (ι', j) /\ constants_hold ι' /\ denote (env ι) e = denote (env ι') a.
Proof.
  intros Hn Hs Ha Hj He ι Hc. unfold propagateAnnotFromSucc in He. rewrite Hj in He. cbn in He.
  unfold phisOnEdge in He. rewrite (next_parent _ _ Hn), decide_True in He by done. cbn in He.
  assert (isBranch i = false) as Hb.
  { destruct (isBranch i) eqn:E; [|done]. apply (branches_last Hf) in E. congruence. }
  rewrite Hb, bool_decide_eq_true_2, andb_true_r in He by done. cbn in He. destruct (isPhi i) eqn:Hp.
  - injection He as <-. right. exists ι. split; [by apply step_phi|]. split; [done|]. apply denote_clone.
  - assert (passed i = true) as Hpass by (unfold passed; by rewrite Hs, Ha, Hb, Hp).
    destruct (compute ι i) as [w|] eqn:Ew; [|left; by apply inexact_inst]. right. ret_inv.
    destruct (Hr ι i _ w Hc Hpass Ew E) as [Hi Hw]. subst e. exists (after ι i w).
    split; [by eapply step_inst|]. split; [by eapply after_constants|].
    rewrite <- (denote_clone _ a). by eapply substitute_denotes.
Qed.

Lemma propagate_target s i b j a e ι :
  jumps ι i b -> front b = Ret j -> getAnnot s j = Some a -> propagateAnnotFromSucc s i j = Ret e -> constants_hold ι ->
  Inexact (ι, i) \/ exists ι', Step (ι, i) (ι', j) /\ constants_hold ι' /\ denote (env ι) e = denote (env ι') a.
Proof.
  intros Ht Hb Hj He Hc. unfold propagateAnnotFromSucc in He. rewrite Hj in He. cbn in He.
  rewrite (targets_branch _ _ (jumps_targets _ _ _ Ht)) in He. cbn in He. ret_inv. subst.
  unfold phisOnEdge in E. rewrite (front_parent _ _ Hb) in *.
  assert (Step (ι, i) (enter ι (getParent i) j, j)) as Hstep by (by eapply step_jump).
  assert (constants_hold (enter ι (getParent i) j)) as Hc' by (by eapply enter_constants).
  destruct (decide (getParent i = b)) as [Hp|Hp].
  - injection E as <-. destruct (isPhi j) eqn:Hphi; [left; subst b; by eapply inexact_loop|].
    right. exists (enter ι (getParent i) j). do 2 (split; [done|]). rewrite denote_clone. apply denote_ext. intros x.
    unfold env, enter. rewrite (front_parent _ _ Hb). destruct (front_head _ _ Hb) as (l & ->).
    cbn. unfold isPhi in Hphi. by destruct (phi j).
  - rewrite (from_front _ _ Hb) in E. destruct (mixed (getParent i) (insts b)) eqn:Hm; [left; by eapply inexact_phis|].
    right. exists (enter ι (getParent i) j). do 2 (split; [done|]). rewrite <- (denote_clone _ a).
    eapply substitutePhis_denotes; [done|exact E|apply (insts_nodup Hf)|done|].
    intros x. unfold enter. by rewrite (front_parent _ _ Hb).
Qed.

(** ** The search keeps annotations sound *)
Definition sound (i : Value) (e : SExpr Value) : Prop :=
  forall ι v, constants_hold ι -> denote (env ι) e = Ret v -> SVal.getBool v = false -> Discards ι i.
Definition Sound (s : Annotator) : Prop := forall i e, getAnnot s i = Some e -> sound i e.

Lemma sound_true i : sound i createTrue.
Proof. by intros ι v _ [= <-]. Qed.
Lemma Sound_set s i e : Sound s -> sound i e -> Sound (setAnnot s i e).
Proof.
  intros Hs He j e'. unfold getAnnot, setAnnot. cbn. rewrite lookup_insert_Some.
  intros [[<- <-]|[_ Hj]]; [done|]. by apply Hs.
Qed.
Lemma Sound_status s i st : Sound s -> Sound (setStatus s i st).
Proof. done. Qed.

Lemma successors_inv i succs : getNextOrBranchSuccessors i = Ret succs ->
  succs = [] \/
  (calls isAssumeFunction i = false /\ silent i = true /\
    ((exists j, getNextNode i = Some j /\ succs = [j]) \/
     (exists b j, inst i = Some (BranchInst b) /\ front b = Ret j /\ succs = [j]) \/
     (exists c b b' j j', inst i = Some (CondBranchInst c b b') /\ front b = Ret j /\ front b' = Ret j' /\
        succs = [j; j']))).
Proof.
  unfold getNextOrBranchSuccessors. destruct (isLoad i) eqn:El; [by intros [= <-]; left|].
  destruct (hasSideEffects i None) eqn:Eh; [by intros [= <-]; left|]. cbn.
  destruct (calls isAssumeFunction i) eqn:Ea; [by intros [= <-]; left|]. cbn.
  destruct (calls isErrorFunction i) eqn:Ee; [by intros [= <-]; left|]. unfold nextOrTargets.
  assert (silent i = true) as Hs by (unfold silent; by rewrite El, Eh, Ee).
  destruct (getNextNode i) as [j|]; [intros [= <-]; right; split_and!; [done..|left; eauto]|].
  destruct (inst i) as [[]|]; intros Hret; ret_inv; subst; try (by left); right; split_and!; try done; right.
  - left. eauto.
  - right. repeat eexists; eauto.
Qed.

Lemma sound_step s i j e (P : Regs -> Prop) :
  Sound s -> is_Some (getAnnot s j) ->
  (forall a ι, getAnnot s j = Some a -> P ι -> constants_hold ι -> Inexact (ι, i) \/
     exists ι', Step (ι, i) (ι', j) /\ constants_hold ι' /\ denote (env ι) e = denote (env ι') a) ->
  forall ι v, P ι -> constants_hold ι -> denote (env ι) e = Ret v -> SVal.getBool v = false -> Discards ι i.
Proof.
  intros Hs [a Ha] Hstep ι v HP Hc Hv Hf0. destruct (Hstep a ι Ha HP Hc) as [?|(ι' & Hst & Hc' & Heq)].
  - apply discards_here. by right.
  - eapply discards_step; [exact Hst|]. eapply (Hs j a Ha); [done| |exact Hf0]. by rewrite <- Heq.
Qed.
Lemma propagate_annot s i j e : propagateAnnotFromSucc s i j = Ret e -> is_Some (getAnnot s j).
Proof. unfold propagateAnnotFromSucc. destruct (getAnnot s j); [eauto|done]. Qed.

Lemma annotateLeft_sound i succs s s' :
  getNextOrBranchSuccessors i = Ret succs -> Sound s -> annotateLeft i succs s = Ret s' -> Sound s'.
Proof.
  intros Hsuccs Hs Hl. destruct (successors_inv _ _ Hsuccs) as [->|(Ha & Hsi & Hcase)].
  { cbn in Hl. destruct (calls isAssumeFunction i) eqn:Ea; ret_inv; subst; apply Sound_set; auto using sound_true.
    intros ι v Hc Hv Hb. rewrite (operand_denotes ι a a0 Hc E0) in Hv. injection Hv as <-.
    apply discards_here. left. by eapply assume_false. }
  destruct Hcase as [(j & Hn & ->)|[(b & j & Hi & Hb & ->)|(c & b & b' & j & j' & Hi & Hb & Hb' & ->)]]; cbn in Hl; ret_inv; subst;
    apply Sound_set; try done.
  - intros ι v. apply (sound_step s i j _ (fun _ => True)); [done|by eapply propagate_annot| |done].
    intros. by eapply propagate_next.
  - intros ι v. apply (sound_step s i j _ (fun _ => True)); [done|by eapply propagate_annot| |done].
    intros. eapply propagate_target; try done. by left.
  - unfold branchCondition in E. rewrite Hi in E. injection E as <-. intros ι v Hc Hv Hfalse. cbn in Hv.
    destruct (SVal.getBool (number (ι c))) eqn:Hcb.
    + revert Hc Hv Hfalse. apply (sound_step s i j a0 (fun ι => SVal.getBool (number (ι c)) = true));
        [done|by eapply propagate_annot| |done].
      intros a ι' Ha' HP Hc. eapply propagate_target; try done. right. exists c, b, b'. by rewrite HP.
    + revert Hc Hv Hfalse. apply (sound_step s i j' a1 (fun ι => SVal.getBool (number (ι c)) = false));
        [done|by eapply propagate_annot| |done].
      intros a ι' Ha' HP Hc. eapply propagate_target; try done. right. exists c, b, b'. by rewrite HP.
Qed.

Lemma annotateDFS_sound : forall fuel curr s s', Sound s -> annotateDFS fuel curr s = Ret s' -> Sound s'.
Proof.
  induction fuel as [|fuel IH]; intros curr s s' Hs Hd; [done|]. cbn in Hd. ret_inv.
  eapply annotateLeft_sound; [exact E| |exact Hd]. apply Sound_status.
  eapply (mfold_ret Sound); [|exact E1|by apply Sound_status].
  intros x t t' _ Ht. cbn. destruct (status t x); [by apply IH|intros [= <-]|by intros [= <-]].
  apply Sound_set; auto using sound_true.
Qed.

Lemma allUnseen_empty : annotMap allUnseen = ∅ /\ forall i, status allUnseen i = unseen.
Proof.
  unfold allUnseen. assert (forall l s, annotMap s = ∅ -> (forall i, status s i = unseen) ->
    let t := foldl (fun s i => setStatus s i unseen) s l in annotMap t = ∅ /\ forall i, status t i = unseen) as Hl.
  { induction l as [|x l IH]; intros s Ha Hs; cbn; [done|]. apply IH; [done|]. intros i. unfold status, setStatus. cbn.
    rewrite lookup_insert. case_decide; [done|apply Hs]. }
  apply Hl; [done|]. intros i. unfold status, reset. cbn. by rewrite lookup_empty.
Qed.
Lemma annotate_returns_sound li e j : getNextNode li = Some j -> annotate li = Ret e -> sound j e.
Proof.
  intros Hn Ha. unfold annotate in Ha. rewrite Hn in Ha. revert Ha. generalize dfs_fuel. intros fuel Ha. unfold annotateDFS in Ha.
  destruct (BUG_ON _); cbn [mbind outcome_bind deref] in Ha; [|done..].
  destruct (dfs _ _ _ _ _) as [a0| |] eqn:E0; cbn in Ha; [|done..].
  assert (Sound a0) as Hs.
  { eapply annotateDFS_sound; [|exact E0]. intros i e'. unfold getAnnot.
    by rewrite (proj1 allUnseen_empty), lookup_empty. }
  destruct (getAnnot a0 j) as [e'|] eqn:Ej; [|done]. injection Ha as <-. exact (Hs _ _ Ej).
Qed.

(** ** The search ends and annotates *)

(** Operands have expressions, branches lead to blocks of the function, which do
    not consist of phis and whose phis have a value for every edge. *)
Record Complete : Prop := mkComplete {
  instructions_generate i : i ∈ instructions -> exists e, generateInstExpr i = Ret e;
  assumes_generate i : i ∈ instructions -> calls isAssumeFunction i = true ->
    exists v e, firstArgument i = Ret v /\ generateOperandExpr v = Ret e;
  targets_blocks i b : i ∈ instructions -> targets i b ->
    b ∈ blocks /\ (exists x, x ∈ insts b /\ isPhi x = false) /\
    forall p incoming, p ∈ insts b -> phi p = Some incoming ->
      exists v e, getIncomingValueForBlock incoming (getParent i) = Ret v /\ generateOperandExpr v = Ret e }.
Context (Hc : Complete).

Lemma in_instructions i : i ∈ instructions <-> exists b, b ∈ blocks /\ i ∈ insts b.
Proof.
  unfold instructions. rewrite list_elem_of_join. split.
  - intros (l & Hi & (b & -> & Hb)%list_elem_of_fmap). eauto.
  - intros (b & Hb & Hi). exists (insts b). split; [done|]. apply list_elem_of_fmap. eauto.
Qed.
Lemma next_in i j : i ∈ instructions -> getNextNode i = Some j -> j ∈ instructions.
Proof.
  intros (b & Hb & Hi)%in_instructions Hn%list_elem_of_lookup_2%from_sub. apply in_instructions.
  rewrite (insts_parent Hf _ _ Hi) in Hn. eauto.
Qed.
Lemma front_in b j : b ∈ blocks -> front b = Ret j -> j ∈ instructions.
Proof. intros Hb (l & E)%front_head. apply in_instructions. exists b. rewrite E. split; [done|by left]. Qed.
Lemma target_front i b : i ∈ instructions -> targets i b -> exists j, front b = Ret j /\ j ∈ instructions.
Proof.
  intros Hi Ht. destruct (targets_blocks Hc i b Hi Ht) as (Hb & (x & Hx & _) & _).
  assert (exists j, front b = Ret j) as [j Hj]; [|eauto using front_in].
  unfold front. destruct (insts b); [by apply elem_of_nil in Hx|by eexists].
Qed.

Lemma successors_total i : i ∈ instructions ->
  exists succs, getNextOrBranchSuccessors i = Ret succs /\ (length succs <= 2)%nat /\ forall j, j ∈ succs -> j ∈ instructions.
Proof.
  intros Hi. assert (exists succs, nextOrTargets i = Ret succs /\ (length succs <= 2)%nat /\
    forall j, j ∈ succs -> j ∈ instructions) as Hn.
  { unfold nextOrTargets. destruct (getNextNode i) as [j|] eqn:En.
    { exists [j]. split_and!; [done|cbn; lia|]. intros x ->%list_elem_of_singleton. by eapply next_in. }
    destruct (inst i) as [[]|] eqn:Ei; try (exists []; split_and!; [done|cbn; lia|intros j Hj; by apply elem_of_nil in Hj]).
    - destruct (target_front i target Hi) as (j & Hj & Hin); [by left|]. rewrite Hj. exists [j].
      split_and!; [done|cbn; lia|]. by intros x ->%list_elem_of_singleton.
    - destruct (target_front i ifTrue Hi) as (j & Hj & Hin); [right; eauto|].
      destruct (target_front i ifFalse Hi) as (k & Hk & Hin'); [right; eauto|]. rewrite Hj. cbn. rewrite Hk. exists [j; k].
      split_and!; [done|cbn; lia|]. intros x [->| ->%list_elem_of_singleton]%elem_of_cons; done. }
  unfold getNextOrBranchSuccessors.
  destruct (_ || _); [|destruct (_ || _); [|done]];
    (exists []; split_and!; [done|cbn; lia|intros j Hj; by apply elem_of_nil in Hj]).
Qed.

Lemma substitutePhis_total b l : (exists x, x ∈ l /\ isPhi x = false) ->
  (forall p incoming, p ∈ l -> phi p = Some incoming ->
     exists v e, getIncomingValueForBlock incoming b = Ret v /\ generateOperandExpr v = Ret e) ->
  forall e, exists e', substitutePhis b l e = Ret e'.
Proof.
  induction l as [|p l IH]; intros (x & Hx & Hphi) Hgen e; [by apply elem_of_nil in Hx|]. cbn.
  destruct (phi p) as [incoming|] eqn:Hp; [|by eexists].
  destruct (Hgen p incoming) as (v & op & -> & Hop); [by left|done|]. cbn. rewrite Hop. cbn. apply IH.
  - apply elem_of_cons in Hx as [->|]; [unfold isPhi in Hphi; by rewrite Hp in Hphi|eauto].
  - intros q inc Hq. apply Hgen. by right.
Qed.

Lemma propagate_total s i j : i ∈ instructions -> is_Some (getAnnot s j) ->
  (getNextNode i = Some j \/ exists b, targets i b /\ front b = Ret j) ->
  exists e, propagateAnnotFromSucc s i j = Ret e.
Proof.
  intros Hi [a Ha] Hedge. unfold propagateAnnotFromSucc. rewrite Ha. cbn.
  assert (exists e, phisOnEdge i j (clone a) = Ret e) as [e ->].
  { unfold phisOnEdge. destruct Hedge as [Hn|(b & Ht & Hb)].
    - rewrite (next_parent _ _ Hn), decide_True by done. by eexists.
    - case_decide as Hp; [by eexists|]. rewrite (front_parent _ _ Hb), (from_front _ _ Hb).
      destruct (targets_blocks Hc i b Hi Ht) as (_ & Hx & Hgen). by apply substitutePhis_total. }
  cbn. destruct (_ || _); [by eexists|]. destruct (instructions_generate Hc i Hi) as [e' ->]. by eexists.
Qed.

Lemma annotateLeft_total i succs s : i ∈ instructions -> getNextOrBranchSuccessors i = Ret succs ->
  (forall j, j ∈ succs -> is_Some (getAnnot s j)) -> exists e, annotateLeft i succs s = Ret (setAnnot s i e).
Proof.
  intros Hi Hsuccs Hann. destruct (successors_inv _ _ Hsuccs) as [->|(_ & _ & Hcase)].
  { cbn. destruct (calls isAssumeFunction i) eqn:Ea; [|by eexists].
    destruct (assumes_generate Hc i Hi Ea) as (v & e & -> & He). cbn. rewrite He. by eexists. }
  destruct Hcase as [(j & Hn & ->)|[(b & j & Hb & Hj & ->)|(c & b & b' & j & j' & Hb & Hj & Hj' & ->)]]; cbn.
  - destruct (propagate_total s i j) as [e ->]; [done|apply Hann; by left|by left|by eexists].
  - destruct (propagate_total s i j) as [e ->]; [done|apply Hann; by left| |by eexists].
    right. exists b. split; [by left|done].
  - unfold branchCondition. rewrite Hb. cbn.
    destruct (propagate_total s i j) as [e ->]; [done|apply Hann; by left|right; exists b; split; [right; eauto|done]|].
    destruct (propagate_total s i j') as [e' ->];
      [done|apply Hann; right; by left|right; exists b'; split; [right; eauto|done]|].
    by eexists.
Qed.

(** Instructions that are left are annotated. *)
Definition Annotated (s : Annotator) : Prop := forall i, status s i = left_ -> is_Some (getAnnot s i).
(** A search enters unseen instructions only and drops no annotation. *)
Definition extends (s t : Annotator) : Prop :=
  (forall i, status s i <> unseen -> status t i = status s i) /\
  (forall i, is_Some (getAnnot s i) -> is_Some (getAnnot t i)).
#[local] Instance extends_preorder : PreOrder extends.
Proof.
  split; [done|]. intros s t u [H1 H2] [H3 H4]. split; [|by auto]. intros i Hi.
  rewrite <- (H1 i Hi). apply H3. by rewrite (H1 i Hi).
Qed.
Definition unseen_count (s : Annotator) : nat := length (filter (fun i => status s i = unseen) instructions).
Lemma unseen_count_extends s t : extends s t -> (unseen_count t <= unseen_count s)%nat.
Proof.
  intros [Hst _]. unfold unseen_count. induction instructions as [|x l IH]; [done|].
  rewrite !filter_cons. destruct (decide (status t x = unseen)) as [Ht|Ht].
  - rewrite decide_True; [cbn; lia|]. destruct (decide (status s x = unseen)) as [|Hs]; [done|].
    by rewrite (Hst x Hs) in Ht.
  - case_decide; cbn; lia.
Qed.
Lemma status_set s i st x : status (setStatus s i st) x = if decide (i = x) then st else status s x.
Proof. unfold status, setStatus. cbn. rewrite lookup_insert. case_decide; done. Qed.
Lemma getAnnot_set s i e x : getAnnot (setAnnot s i e) x = if decide (i = x) then Some e else getAnnot s x.
Proof. unfold getAnnot, setAnnot. cbn. by rewrite lookup_insert. Qed.
Lemma enter_count s i : i ∈ instructions -> status s i = unseen ->
  (unseen_count (setStatus s i entered) < unseen_count s)%nat.
Proof.
  intros Hi Hs. unfold unseen_count.
  assert (forall l, (length (filter (fun x => status (setStatus s i entered) x = unseen) l)
     <= length (filter (fun x => status s x = unseen) l))%nat) as Hle.
  { induction l as [|x l IH]; [done|]. rewrite !filter_cons, status_set.
    destruct (decide (i = x)); repeat case_decide; cbn in *; try done; lia. }
  induction instructions as [|x l IH]; [by apply elem_of_nil in Hi|].
  rewrite !filter_cons, status_set. specialize (Hle l). apply elem_of_cons in Hi as [<-|Hi].
  - destruct (decide (i = i)); [|done]. destruct (decide (entered = unseen)); [done|].
    destruct (decide (status s i = unseen)); [cbn; lia|done].
  - specialize (IH Hi). destruct (decide (i = x)); repeat case_decide; cbn in *; try done; lia.
Qed.
Lemma extends_annot s i e : extends s (setAnnot s i e).
Proof. split; [done|]. intros x. rewrite getAnnot_set. by case_decide. Qed.

Definition visit_successor (fuel : nat) (s : Annotator) (succ : Value) : outcome Annotator :=
  match status s succ with
  | unseen => annotateDFS fuel succ s
  | entered => Ret (setAnnot s succ createTrue)
  | left_ => Ret s
  end.
Lemma annotateDFS_step fuel curr s succs :
  getNextOrBranchSuccessors curr = Ret succs -> (length succs <= 2)%nat ->
  annotateDFS (S fuel) curr s =
    (s ← mfold (visit_successor fuel) succs (setStatus s curr entered); annotateLeft curr succs (setStatus s curr left_)).
Proof.
  intros Hsuccs Hlen. unfold annotateDFS at 1. cbn [dfs]. rewrite Hsuccs. cbn [mbind outcome_bind].
  by rewrite (proj2 (Nat.ltb_ge 2 _) Hlen).
Qed.
Lemma dfs_total : forall fuel curr s, curr ∈ instructions -> status s curr = unseen -> Annotated s ->
  (unseen_count s <= fuel)%nat ->
  exists s', annotateDFS fuel curr s = Ret s' /\ extends s s' /\ Annotated s' /\ is_Some (getAnnot s' curr).
Proof.
  induction fuel as [|fuel IH]; intros curr s Hin Hun Hann Hfuel.
  { pose proof (enter_count s curr Hin Hun). lia. }
  destruct (successors_total curr Hin) as (succs & Hsuccs & Hlen & Hsin).
  rewrite (annotateDFS_step _ _ _ _ Hsuccs Hlen).
  pose proof (enter_count s curr Hin Hun) as Hcount.
  set (s1 := setStatus s curr entered) in *.
  assert (Annotated s1) as Hann1.
  { intros i. unfold s1. rewrite status_set. case_decide; [done|]. apply Hann. }
  assert (forall l t, (forall j, j ∈ l -> j ∈ instructions) -> Annotated t -> (unseen_count t <= fuel)%nat ->
    exists t', mfold (visit_successor fuel) l t = Ret t' /\
      extends t t' /\ Annotated t' /\ forall j, j ∈ l -> is_Some (getAnnot t' j)) as Hloop.
  { induction l as [|x l IHl]; intros t Hl Ht Hft.
    { exists t. split_and!; [done..|]. intros j Hj. by apply elem_of_nil in Hj. }
    assert (exists t1, visit_successor fuel t x = Ret t1 /\ extends t t1 /\ Annotated t1 /\ is_Some (getAnnot t1 x))
      as (t1 & Hx & Hext & Ht1 & Hxa).
    { unfold visit_successor. destruct (status t x) eqn:Ex.
      - apply IH; try done. apply Hl. by left.
      - exists (setAnnot t x createTrue). split_and!; [done|apply extends_annot| |rewrite getAnnot_set, decide_True; eauto].
        intros i Hi. rewrite getAnnot_set. case_decide; [eauto|]. by apply Ht.
      - exists t. split_and!; [done..|]. by apply Ht. }
    destruct (IHl t1) as (t' & Hm & Hext' & Ht' & Hla); [intros; apply Hl; by right|done| |].
    { pose proof (unseen_count_extends _ _ Hext). lia. }
    exists t'. cbn [mfold]. rewrite Hx. cbn [mbind outcome_bind].
    split_and!; [done|by transitivity t1|done|]. intros j [->|Hj]%elem_of_cons; [by apply Hext'|by apply Hla]. }
  destruct (Hloop succs s1) as (t & Hm & Hext & Ht & Hta); [done..|lia|].
  rewrite Hm. cbn [mbind outcome_bind].
  destruct (annotateLeft_total curr succs (setStatus t curr left_)) as [e ->]; [done..|].
  eexists. split; [done|]. destruct Hext as [Hst Hgrow]. split_and!.
  - split.
    + intros i Hi. change (status (setStatus t curr left_) i = status s i). rewrite status_set. case_decide as Hci.
      { subst. by rewrite Hun in Hi. }
      rewrite Hst; unfold s1; rewrite status_set, decide_False by done; done.
    + intros i Hi. rewrite getAnnot_set. case_decide; [eauto|]. by apply Hgrow.
  - intros i Hi. change (status (setStatus t curr left_) i = left_) in Hi. revert Hi. rewrite status_set, getAnnot_set.
    case_decide; [eauto|]. apply Ht.
  - rewrite getAnnot_set, decide_True; eauto.
Qed.

(** The annotation of a load exists, and when it is false under the registers
    the load leaves, the value of the load can be discarded. *)
Lemma annotate_discards li j :
  li ∈ instructions -> isLoad li || isCmpXchg li = true -> getNextNode li = Some j ->
  exists e, annotate li = Ret e /\ sound j e.
Proof.
  intros Hin Hli Hn.
  assert (exists e, annotate li = Ret e) as [e He].
  { destruct (dfs_total dfs_fuel j allUnseen) as (s & Hs & _ & _ & [e He]).
    - by eapply next_in.
    - apply allUnseen_empty.
    - intros i. by rewrite (proj2 allUnseen_empty).
    - unfold unseen_count, dfs_fuel. pose proof (length_filter (fun i => status allUnseen i = unseen) instructions). lia.
    - exists e. unfold annotate. rewrite Hn.
      replace (negb (isLoad li) && negb (isCmpXchg li)) with false by (by destruct (isLoad li), (isCmpXchg li)).
      cbn [BUG_ON deref mbind outcome_bind]. rewrite Hs. cbn. by rewrite He. }
  exists e. split; [done|]. by eapply annotate_returns_sound.
Qed.
End Semantics.

(** ** An example: the load decides which branch is taken, a phi remembers it,
    the assume wants the first one, and the block is left to the start again. *)
Module Example.
Inductive Val := start | cmp | test | jump | choice | assume | again | zero | no | yes.
#[global] Instance Val_eq : EqDecision Val.
Proof. solve_decision. Defined.
Definition index (v : Val) : nat :=
  match v with
  | start => 0 | cmp => 1 | test => 2 | jump => 3 | choice => 4 | assume => 5 | again => 6 | zero => 7 | no => 8 | yes => 9
  end.
Definition values : list Val := [start; cmp; test; jump; choice; assume; again; zero; no; yes].
#[global] Program Instance Val_countable : Countable Val :=
  inj_countable index (fun n => values !! n) _.
Next Obligation. by intros []. Qed.
Inductive Blk := entry | other | join_.
#[global] Instance Blk_eq : EqDecision Blk.
Proof. solve_decision. Defined.

Definition description (v : Val) : ValueClass Val Blk unit :=
  match v with
  | start => IsInstruction LoadInst
  | cmp => IsInstruction (ICmpInst Eq start zero)
  | test => IsInstruction (CondBranchInst cmp join_ other)
  | jump => IsInstruction (BranchInst join_)
  | choice => IsInstruction (PHINode [(entry, yes); (other, no)])
  | assume => IsInstruction (CallInst None None "__VERIFIER_assume" [choice])
  | again => IsInstruction (BranchInst entry)
  | zero => IsConstant (ConstantInt 32 0)
  | no => IsConstant (ConstantInt 1 0)
  | yes => IsConstant (ConstantInt 1 1)
  end.
Definition code (b : Blk) : list Val :=
  match b with entry => [start; cmp; test] | other => [jump] | join_ => [choice; assume; again] end.
Definition parent (v : Val) : Blk :=
  match v with jump => other | choice | assume | again => join_ | _ => entry end.
#[global] Instance program : IR :=
  mkIR Val Blk unit _ _ _ _ description [entry; other; join_] code parent
    (fun b => match b with entry => [join_] | other => [entry] | join_ => [entry; other] end)
    (fun _ => []) (fun _ => 32) (fun _ => 32) (fun v => bool_decide (v = assume)) (fun v => bool_decide (v = start))
    (fun v => Z.of_nat (index v)).
Lemma program_wellformed : Wellformed (H := program).
Proof.
  split.
  - intros []; apply (bool_decide_unpack _); by vm_compute.
  - intros [] i Hi; cbn in Hi; repeat (apply elem_of_cons in Hi as [->|Hi]; [done|]); by apply elem_of_nil in Hi.
  - by intros [].
Qed.
Lemma program_complete : Complete (H := program).
Proof.
  split.
  - intros [] _; eexists; reflexivity.
  - intros [] _; try done. intros _. exists choice. eexists. done.
  - intros i b _ [Hi|(c & b' & [Hi|Hi])]; destruct i; try done; injection Hi; intros; subst.
    all: split; [cbn; set_solver|split].
    all: try (exists start; split; [cbn; set_solver|done]).
    all: try (exists assume; split; [cbn; set_solver|done]).
    all: try (exists jump; split; [cbn; set_solver|done]).
    all: intros p incoming Hin Hp; destruct p; try done; injection Hp as <-.
    all: first [by eexists _, _|exfalso; revert Hin; cbn; set_solver].
Qed.
End Example.

End AnnotatorFacts.
