(* ===== verification/Numbers.v ===== *)
(** * LLVM's integers and floating-point numbers.

    [APInt] is not part of the repository: its operations are a class, what its
    documentation says of them is another, and pairs of a width and a number are
    an instance of both.  Numbers of type [float] and [double] are those of IEEE
    754, as the Standard Library specifies them; [fmod] and the conversions of
    [APInt] are parameters. *)
From Stdlib Require Import SpecFloat.
From S2P Require Import Prelude SExpr.
#[local] Open Scope Z_scope.

Module Numbers.
Import SExprOps.

Class APIntOps := mkAPIntOps {
  APInt : Type;
  (** the number an integer stands for, without a sign *)
  value : APInt -> Z;
  (** [APInt(bits, val)] *)
  mkAPInt : Z -> Z -> APInt;
  getBitWidth : APInt -> Z;
  getZExtValue : APInt -> Z;
  iadd : APInt -> APInt -> APInt;
  isub : APInt -> APInt -> APInt;
  imul : APInt -> APInt -> APInt;
  udiv : APInt -> APInt -> APInt;
  sdiv : APInt -> APInt -> APInt;
  urem : APInt -> APInt -> APInt;
  srem : APInt -> APInt -> APInt;
  iand : APInt -> APInt -> APInt;
  ior : APInt -> APInt -> APInt;
  ixor : APInt -> APInt -> APInt;
  (** [eq], [ne], [ult], .. *)
  icmp : CmpKind -> APInt -> APInt -> bool;
  shl : APInt -> Z -> APInt;
  lshr : APInt -> Z -> APInt;
  ashr : APInt -> Z -> APInt;
  trunc : APInt -> Z -> APInt;
  sext : APInt -> Z -> APInt;
  zext : APInt -> Z -> APInt;
  zextOrTrunc : APInt -> Z -> APInt;
  floatToBits : spec_float -> APInt;
  doubleToBits : spec_float -> APInt;
  bitsToFloat : APInt -> spec_float;
  bitsToDouble : APInt -> spec_float;
  RoundFloatToAPInt : spec_float -> Z -> APInt;
  RoundDoubleToAPInt : spec_float -> Z -> APInt;
  RoundAPIntToFloat : APInt -> spec_float;
  RoundAPIntToDouble : APInt -> spec_float;
  RoundSignedAPIntToFloat : APInt -> spec_float;
  RoundSignedAPIntToDouble : APInt -> spec_float;
  NextPowerOf2 : Z -> Z;
  fmodf : spec_float -> spec_float -> spec_float;
  fmod : spec_float -> spec_float -> spec_float }.

(** The signed reading. *)
Definition svalue `{APIntOps} (a : APInt) : Z := signed (getBitWidth a) (value a).
Definition compare (k : CmpKind) (w x y : Z) : bool :=
  match k with
  | Eq => x =? y
  | Ne => negb (x =? y)
  | Ult => x <? y
  | Ule => x <=? y
  | Ugt => y <? x
  | Uge => y <=? x
  | Slt => signed w x <? signed w y
  | Sle => signed w x <=? signed w y
  | Sgt => signed w y <? signed w x
  | Sge => signed w y <=? signed w x
  end.

(** The documented behaviour, of integers with a bit at least.  Operands of an operation have one width, divisors
    are not 0, shifts are not longer than the width, extensions extend. *)
Class APIntLaws `{APIntOps} : Prop := {
  width_pos a : 0 < getBitWidth a;
  value_range a : 0 <= value a < 2 ^ getBitWidth a;
  width_mk w v : 0 < w -> getBitWidth (mkAPInt w v) = w;
  value_mk w v : 0 < w -> value (mkAPInt w v) = wrap w v;
  zext_value a : value a < 2 ^ 64 -> getZExtValue a = value a;
  value_iadd a b : getBitWidth a = getBitWidth b -> value (iadd a b) = wrap (getBitWidth a) (value a + value b);
  value_isub a b : getBitWidth a = getBitWidth b -> value (isub a b) = wrap (getBitWidth a) (value a - value b);
  value_imul a b : getBitWidth a = getBitWidth b -> value (imul a b) = wrap (getBitWidth a) (value a * value b);
  value_udiv a b : getBitWidth a = getBitWidth b -> value b <> 0 -> value (udiv a b) = value a / value b;
  value_urem a b : getBitWidth a = getBitWidth b -> value b <> 0 -> value (urem a b) = value a mod value b;
  value_sdiv a b : getBitWidth a = getBitWidth b -> value b <> 0 ->
    value (sdiv a b) = wrap (getBitWidth a) (Z.quot (svalue a) (svalue b));
  value_srem a b : getBitWidth a = getBitWidth b -> value b <> 0 ->
    value (srem a b) = wrap (getBitWidth a) (Z.rem (svalue a) (svalue b));
  value_iand a b : getBitWidth a = getBitWidth b -> value (iand a b) = Z.land (value a) (value b);
  value_ior a b : getBitWidth a = getBitWidth b -> value (ior a b) = Z.lor (value a) (value b);
  value_ixor a b : getBitWidth a = getBitWidth b -> value (ixor a b) = Z.lxor (value a) (value b);
  icmp_compare k a b : getBitWidth a = getBitWidth b -> icmp k a b = compare k (getBitWidth a) (value a) (value b);
  value_shl a n : 0 <= n <= getBitWidth a -> value (shl a n) = wrap (getBitWidth a) (Z.shiftl (value a) n);
  value_lshr a n : 0 <= n <= getBitWidth a -> value (lshr a n) = Z.shiftr (value a) n;
  value_ashr a n : 0 <= n <= getBitWidth a -> value (ashr a n) = wrap (getBitWidth a) (Z.shiftr (svalue a) n);
  value_trunc a w : 0 < w <= getBitWidth a -> value (trunc a w) = wrap w (value a);
  value_sext a w : getBitWidth a <= w -> value (sext a w) = wrap w (svalue a);
  value_zext a w : getBitWidth a <= w -> value (zext a w) = value a;
  width_iadd a b : getBitWidth (iadd a b) = getBitWidth a;
  width_ior a b : getBitWidth (ior a b) = getBitWidth a;
  width_shl a n : getBitWidth (shl a n) = getBitWidth a;
  width_lshr a n : getBitWidth (lshr a n) = getBitWidth a;
  width_trunc a w : 0 < w -> getBitWidth (trunc a w) = w;
  width_zext a w : 0 < w -> getBitWidth (zext a w) = w;
  NextPowerOf2_next n : 0 <= n -> exists k, 0 <= k /\ NextPowerOf2 n = 2 ^ k /\ n < 2 ^ k /\ (k = 0 \/ 2 ^ (k - 1) <= n);
  apint_ext a b : getBitWidth a = getBitWidth b -> value a = value b -> a = b }.

(** ** Pairs of a width and a number *)

Record ZInt := mkZInt { zwidth : positive; zvalue : Z; zvalid : (0 <=? zvalue) && (zvalue <? 2 ^ Zpos zwidth) = true }.
Lemma wrap_valid (w : positive) v : (0 <=? wrap (Zpos w) v) && (wrap (Zpos w) v <? 2 ^ Zpos w) = true.
Proof. pose proof (wrap_range (Zpos w) v). apply andb_true_iff. rewrite Z.leb_le, Z.ltb_lt. lia. Qed.
Definition zint (w : positive) (v : Z) : ZInt := mkZInt w (wrap (Zpos w) v) (wrap_valid w v).
Definition zsigned (a : ZInt) : Z := signed (Zpos (zwidth a)) (zvalue a).
(** The width of 0 bits that [APInt] has is not needed. *)
Definition to_width (w : Z) : positive := Z.to_pos w.
Definition op2 (f : Z -> Z -> Z) (a b : ZInt) : ZInt := zint (zwidth a) (f (zvalue a) (zvalue b)).
Definition next_power_of_2 (n : Z) : Z := if n =? 0 then 1 else 2 ^ (Z.log2 n + 1).
#[export] Instance ZInt_ops : APIntOps := {|
  APInt := ZInt; value := zvalue; mkAPInt w v := zint (to_width w) v; getBitWidth a := Zpos (zwidth a);
  getZExtValue := zvalue;
  iadd := op2 Z.add; isub := op2 Z.sub; imul := op2 Z.mul; udiv := op2 Z.div; urem := op2 Z.modulo;
  sdiv a b := zint (zwidth a) (Z.quot (zsigned a) (zsigned b));
  srem a b := zint (zwidth a) (Z.rem (zsigned a) (zsigned b));
  iand := op2 Z.land; ior := op2 Z.lor; ixor := op2 Z.lxor;
  icmp k a b := compare k (Zpos (zwidth a)) (zvalue a) (zvalue b);
  shl a n := zint (zwidth a) (Z.shiftl (zvalue a) n); lshr a n := zint (zwidth a) (Z.shiftr (zvalue a) n);
  ashr a n := zint (zwidth a) (Z.shiftr (zsigned a) n);
  trunc a w := zint (to_width w) (zvalue a); sext a w := zint (to_width w) (zsigned a);
  zext a w := zint (to_width w) (zvalue a); zextOrTrunc a w := zint (to_width w) (zvalue a);
  floatToBits _ := zint 32 0; doubleToBits _ := zint 64 0; bitsToFloat _ := S754_zero false;
  bitsToDouble _ := S754_zero false; RoundFloatToAPInt _ w := zint (to_width w) 0;
  RoundDoubleToAPInt _ w := zint (to_width w) 0; RoundAPIntToFloat _ := S754_zero false;
  RoundAPIntToDouble _ := S754_zero false; RoundSignedAPIntToFloat _ := S754_zero false;
  RoundSignedAPIntToDouble _ := S754_zero false; NextPowerOf2 := next_power_of_2;
  fmodf x _ := x; fmod x _ := x |}.

Lemma zvalue_range a : 0 <= zvalue a < 2 ^ Zpos (zwidth a).
Proof. destruct a as [w v Hv]; cbn. apply andb_true_iff in Hv as [?%Z.leb_le ?%Z.ltb_lt]. lia. Qed.
Lemma zint_ext a b : zwidth a = zwidth b -> zvalue a = zvalue b -> a = b.
Proof.
  destruct a as [w v Hv], b as [w' v' Hv']; cbn. intros -> ->. f_equal. apply (proof_irrel _).
Qed.
Lemma bitwise_range (f : Z -> Z -> Z) w x y :
  0 <= w -> (forall a b i, Z.testbit (f a b) i = false \/ Z.testbit a i = true \/ Z.testbit b i = true) ->
  (forall a b, 0 <= a -> 0 <= b -> 0 <= f a b) -> 0 <= x < 2 ^ w -> 0 <= y < 2 ^ w -> wrap w (f x y) = f x y.
Proof.
  intros Hw Hbits Hpos Hx Hy. apply Z.bits_inj'. intros i Hi. rewrite wrap_testbit by done.
  destruct (Z.ltb_spec i w); [done|]. cbn.
  destruct (Hbits x y i) as [->|[Hb|Hb]]; [done|..]; rewrite Z.testbit_true in Hb by done.
  all: assert (2 ^ w <= 2 ^ i) by (apply Z.pow_le_mono_r; lia).
  all: rewrite Z.div_small in Hb by lia; done.
Qed.

#[export] Instance ZInt_laws : APIntLaws.
Proof.
  split; cbn; intros; try match goal with H : Zpos _ = Zpos _ |- _ => injection H as H end;
    rewrite ?Z2Pos.id by lia; try done; try apply zvalue_range.
  1-5: pose proof (zvalue_range a); pose proof (zvalue_range b); rewrite <- ?H in *.
  - apply wrap_small. split; [apply Z.div_pos; lia|].
    eapply Z.le_lt_trans; [apply Z.div_le_upper_bound with (q := zvalue a); nia|lia].
  - apply wrap_small. pose proof (Z.mod_pos_bound (zvalue a) (zvalue b)). lia.
  - apply bitwise_range; [lia|..]; try done.
    + intros x y i. rewrite Z.land_spec. destruct (Z.testbit x i); auto.
    + intros x y ??. apply Z.land_nonneg. auto.
  - apply bitwise_range; [lia|..]; try done.
    + intros x y i. rewrite Z.lor_spec. destruct (Z.testbit x i), (Z.testbit y i); auto.
    + intros x y ??. apply Z.lor_nonneg. auto.
  - apply bitwise_range; [lia|..]; try done.
    + intros x y i. rewrite Z.lxor_spec. destruct (Z.testbit x i), (Z.testbit y i); auto.
    + intros x y ??. apply Z.lxor_nonneg. tauto.
  - pose proof (zvalue_range a). apply wrap_small. split; [apply Z.shiftr_nonneg; lia|].
    rewrite Z.shiftr_div_pow2 by lia. pose proof (Z.pow_pos_nonneg 2 n). apply Z.div_lt_upper_bound; nia.
  - pose proof (zvalue_range a). apply wrap_small.
    assert (2 ^ Zpos (zwidth a) <= 2 ^ w) by (apply Z.pow_le_mono_r; lia). lia.
  - unfold next_power_of_2. destruct (Z.eqb_spec n 0) as [->|Hn]; [exists 0; repeat split; auto; lia|].
    pose proof (Z.log2_spec n) as [Hl Hu]; [lia|]. pose proof (Z.log2_nonneg n). exists (Z.log2 n + 1).
    replace (Z.succ (Z.log2 n)) with (Z.log2 n + 1) in Hu by lia.
    replace (Z.log2 n + 1 - 1) with (Z.log2 n) by lia. repeat split; auto; lia.
  - by apply zint_ext.
Qed.
End Numbers.
