(* ===== verification/Operations.v ===== *)
(** * Values of the interpreter and the operations on them (src/src/Execution.cpp):
    arithmetic, comparisons, shifts, casts, aggregates and the addresses of
    elements, on scalars and on vectors.

    A case of a type that the source answers with [llvm_unreachable], an assertion
    that fails, an index out of range and a division by zero are [Undef].  What is
    printed before is left out. *)
From Stdlib Require Import SpecFloat.
From S2P Require Import Prelude SExpr Numbers.
#[local] Open Scope Z_scope.

Module Operations.
Import SExprOps Numbers.

(** ** Types and values *)

Inductive Typ :=
| VoidTy | IntegerTy (bits : Z) | FloatTy | DoubleTy | PointerTy | VectorTy (num : Z) (elem : Typ)
| ArrayTy | StructTy | OtherTy.
#[global] Instance Typ_eq : EqDecision Typ.
Proof. solve_decision. Defined.
Definition getScalarType (t : Typ) : Typ := match t with VectorTy _ e => e | _ => t end.
Definition isVectorTy (t : Typ) : bool := match t with VectorTy _ _ => true | _ => false end.
Definition isFloatTy (t : Typ) : bool := match t with FloatTy => true | _ => false end.
Definition isDoubleTy (t : Typ) : bool := match t with DoubleTy => true | _ => false end.
(** Pointers have no primitive size. *)
Definition getPrimitiveSizeInBits (t : Typ) : Z :=
  match t with IntegerTy w => w | FloatTy => 32 | DoubleTy => 64 | _ => 0 end.
Definition getScalarSizeInBits (t : Typ) : Z := getPrimitiveSizeInBits (getScalarType t).
(** [cast<IntegerType>(Ty)->getBitWidth()] *)
Definition integerBits (t : Typ) : outcome Z := match t with IntegerTy w => Ret w | _ => Undef end.

Inductive FArith := FAdd | FSub | FMul | FDiv | FRem.
Inductive BinaryOp := IntOp (k : ArithKind) | FloatOp (k : FArith).
Inductive FCmpOp := FEq | FNe | FLt | FLe | FGt | FGe.
Inductive FPredicate := FCMP_FALSE | FCMP_TRUE | FCMP_ORD | FCMP_UNO | FCMP_O (op : FCmpOp) | FCMP_U (op : FCmpOp).
Inductive CastOp := IntCast (k : CastKind) | FPTrunc | FPExt | FPToUI | FPToSI | UIToFP | SIToFP | PtrToInt | IntToPtr | BitCast.

Section Values.
Context `{APIntOps}.

(** [GenericValue]: an integer, a union and the elements of an aggregate.  The union
    of a new value is a pair of zeros. *)
Inductive Union :=
| DoubleMember (d : spec_float) | FloatMember (f : spec_float) | PointerMember (p : Z) | UIntPairMember (first second : Z).
Inductive GenericValue := mkGV (IntVal : APInt) (union : Union) (AggregateVal : list GenericValue).
Definition IntVal (g : GenericValue) : APInt := let '(mkGV i _ _) := g in i.
Definition union (g : GenericValue) : Union := let '(mkGV _ u _) := g in u.
Definition AggregateVal (g : GenericValue) : list GenericValue := let '(mkGV _ _ l) := g in l.
Definition newGV : GenericValue := mkGV (mkAPInt 1 0) (UIntPairMember 0 0) [].
Definition withInt (i : APInt) (g : GenericValue) : GenericValue := mkGV i (union g) (AggregateVal g).
Definition withUnion (u : Union) (g : GenericValue) : GenericValue := mkGV (IntVal g) u (AggregateVal g).
Definition withAggregate (l : list GenericValue) (g : GenericValue) : GenericValue := mkGV (IntVal g) (union g) l.
Definition intGV (i : APInt) : GenericValue := withInt i newGV.
Definition boolGV (b : bool) : GenericValue := intGV (mkAPInt 1 (Z.b2z b)).
Definition floatGV (f : spec_float) : GenericValue := withUnion (FloatMember f) newGV.
Definition doubleGV (d : spec_float) : GenericValue := withUnion (DoubleMember d) newGV.
Definition pointerGV (p : Z) : GenericValue := withUnion (PointerMember p) newGV.
Definition vectorGV (l : list GenericValue) : GenericValue := withAggregate l newGV.

(** Another member than the one written last is read for new values only, whose
    bits are zeros. *)
Definition DoubleVal (g : GenericValue) : outcome spec_float :=
  match union g with DoubleMember d => Ret d | UIntPairMember 0 0 => Ret (S754_zero false) | _ => Undef end.
Definition FloatVal (g : GenericValue) : outcome spec_float :=
  match union g with FloatMember f => Ret f | UIntPairMember 0 0 => Ret (S754_zero false) | _ => Undef end.
Definition PointerVal (g : GenericValue) : outcome Z :=
  match union g with PointerMember p => Ret p | UIntPairMember 0 0 => Ret 0 | _ => Undef end.

(** Element by element. *)
Definition mapVector (f : GenericValue -> outcome GenericValue) (g : GenericValue) : outcome GenericValue :=
  vectorGV <$> mapM f (AggregateVal g).
Definition zipVector (f : GenericValue -> GenericValue -> outcome GenericValue) (g h : GenericValue) : outcome GenericValue :=
  if decide (length (AggregateVal g) = length (AggregateVal h))
  then vectorGV <$> mapM (fun p => f (fst p) (snd p)) (zip (AggregateVal g) (AggregateVal h))
  else Undef.
Definition onElements (f : GenericValue -> GenericValue -> outcome GenericValue) (ty : Typ) : GenericValue -> GenericValue -> outcome GenericValue :=
  if isVectorTy ty then zipVector f else f.

(** ** Integer comparisons *)

(** Pointers are compared without a sign by every predicate. *)
Definition comparePointers (k : CmpKind) (p q : Z) : bool :=
  match k with
  | Eq => p =? q
  | Ne => negb (p =? q)
  | Ult | Slt => p <? q
  | Ule | Sle => p <=? q
  | Ugt | Sgt => q <? p
  | Uge | Sge => q <=? p
  end.
(** [executeICMP_EQ], [executeICMP_NE], .. *)
Definition executeICMP (k : CmpKind) (Src1 Src2 : GenericValue) (ty : Typ) : outcome GenericValue :=
  let ints g h := Ret (boolGV (icmp k (IntVal g) (IntVal h))) in
  match ty with
  | IntegerTy _ => ints Src1 Src2
  | VectorTy _ _ => zipVector ints Src1 Src2
  | PointerTy => p ← PointerVal Src1; q ← PointerVal Src2; Ret (boolGV (comparePointers k p q))
  | _ => Undef
  end.

(** ** Floating-point comparisons *)

Definition compareFloats (op : FCmpOp) (x y : spec_float) : bool :=
  match op with
  | FEq => SFeqb x y
  | FNe => negb (SFeqb x y)
  | FLt => SFltb x y
  | FLe => SFleb x y
  | FGt => SFltb y x
  | FGe => SFleb y x
  end.
(** The member a comparison of values of type [ty] reads, where what is not a
    [float] is taken for a [double]. *)
Definition number (ty : Typ) (g : GenericValue) : outcome spec_float := if isFloatTy ty then FloatVal g else DoubleVal g.
Definition test2 (p : spec_float -> spec_float -> bool) (ty : Typ) (g h : GenericValue) : outcome bool :=
  x ← number ty g; y ← number ty h; Ret (p x y).
Definition isNaN (x : spec_float) : bool := negb (SFeqb x x).
Definition eitherNaN (x y : spec_float) : bool := isNaN x || isNaN y.

(** [IMPLEMENT_FCMP], [IMPLEMENT_VECTOR_FCMP] *)
Definition fcmp (op : FCmpOp) (Src1 Src2 : GenericValue) (ty : Typ) : outcome GenericValue :=
  match ty with
  | FloatTy | DoubleTy => boolGV <$> test2 (compareFloats op) ty Src1 Src2
  | VectorTy _ e => zipVector (fun g h => boolGV <$> test2 (compareFloats op) e g h) Src1 Src2
  | _ => Undef
  end.
(** [MASK_VECTOR_NANS] and the loop that applies the mask: the elements of [Dest]
    are [flag] where an operand is not a number. *)
Fixpoint maskNaNs (flag : bool) (e : Typ) (l1 l2 dest : list GenericValue) : outcome (list GenericValue) :=
  match l1, l2, dest with
  | g :: l1, h :: l2, d :: dest =>
      nan ← test2 eitherNaN e g h;
      rest ← maskNaNs flag e l1 l2 dest;
      Ret ((if nan : bool then withInt (mkAPInt 1 (Z.b2z flag)) d else d) :: rest)
  | _, _, _ => Ret dest
  end.
Definition withNaNs (flag : bool) (func : GenericValue -> GenericValue -> Typ -> outcome GenericValue)
    (Src1 Src2 : GenericValue) (ty : Typ) : outcome GenericValue :=
  nan ← test2 eitherNaN ty Src1 Src2;
  if nan : bool then Ret (boolGV flag)
  else
    Dest ← func Src1 Src2 ty;
    match ty with
    | VectorTy _ e =>
        l ← maskNaNs flag e (AggregateVal Src1) (AggregateVal Src2) (AggregateVal Dest); Ret (withAggregate l Dest)
    | _ => Ret Dest
    end.
Definition executeFCMP_ONE : GenericValue -> GenericValue -> Typ -> outcome GenericValue := withNaNs false (fcmp FNe).
Definition executeFCMP_O (op : FCmpOp) : GenericValue -> GenericValue -> Typ -> outcome GenericValue :=
  match op with FNe => executeFCMP_ONE | _ => fcmp op end.
Definition executeFCMP_U (op : FCmpOp) : GenericValue -> GenericValue -> Typ -> outcome GenericValue :=
  withNaNs true (executeFCMP_O op).
Definition perElement (p : spec_float -> spec_float -> bool) (Src1 Src2 : GenericValue) (ty : Typ) : outcome GenericValue :=
  onElements (fun g h => boolGV <$> test2 p (getScalarType ty) g h) ty Src1 Src2.
Definition executeFCMP_ORD : GenericValue -> GenericValue -> Typ -> outcome GenericValue :=
  perElement (fun x y => negb (eitherNaN x y)).
Definition executeFCMP_UNO : GenericValue -> GenericValue -> Typ -> outcome GenericValue := perElement eitherNaN.
Definition executeFCMP_BOOL (val : bool) (Src1 Src2 : GenericValue) (ty : Typ) : outcome GenericValue :=
  onElements (fun _ _ => Ret (boolGV val)) ty Src1 Src2.
Definition executeFCMP (p : FPredicate) : GenericValue -> GenericValue -> Typ -> outcome GenericValue :=
  match p with
  | FCMP_FALSE => executeFCMP_BOOL false
  | FCMP_TRUE => executeFCMP_BOOL true
  | FCMP_ORD => executeFCMP_ORD
  | FCMP_UNO => executeFCMP_UNO
  | FCMP_O op => executeFCMP_O op
  | FCMP_U op => executeFCMP_U op
  end.
Inductive Predicate := IntPredicate (k : CmpKind) | FloatPredicate (p : FPredicate).
Definition executeCmpInst (p : Predicate) : GenericValue -> GenericValue -> Typ -> outcome GenericValue :=
  match p with IntPredicate k => executeICMP k | FloatPredicate p => executeFCMP p end.

(** ** Arithmetic *)

Definition floatArith (k : FArith) (x y : spec_float) : spec_float :=
  match k with
  | FAdd => SFadd 24 128 x y | FSub => SFsub 24 128 x y | FMul => SFmul 24 128 x y | FDiv => SFdiv 24 128 x y
  | FRem => fmodf x y
  end.
Definition doubleArith (k : FArith) (x y : spec_float) : spec_float :=
  match k with
  | FAdd => SFadd 53 1024 x y | FSub => SFsub 53 1024 x y | FMul => SFmul 53 1024 x y | FDiv => SFdiv 53 1024 x y
  | FRem => fmod x y
  end.
(** [executeFAddInst], [executeFSubInst], .. *)
Definition executeFArith (k : FArith) (ty : Typ) (Src1 Src2 : GenericValue) : outcome GenericValue :=
  match ty with
  | FloatTy => x ← FloatVal Src1; y ← FloatVal Src2; Ret (floatGV (floatArith k x y))
  | DoubleTy => x ← DoubleVal Src1; y ← DoubleVal Src2; Ret (doubleGV (doubleArith k x y))
  | _ => Undef
  end.
Definition divide (f : APInt -> APInt -> APInt) (a b : APInt) : outcome APInt :=
  if value b =? 0 then Undef else Ret (f a b).
(** Shifts are not binary operators here. *)
Definition intArith (k : ArithKind) (a b : APInt) : outcome APInt :=
  match k with
  | Add => Ret (iadd a b) | Sub => Ret (isub a b) | Mul => Ret (imul a b)
  | UDiv => divide udiv a b | SDiv => divide sdiv a b | URem => divide urem a b | SRem => divide srem a b
  | And => Ret (iand a b) | Or => Ret (ior a b) | Xor => Ret (ixor a b)
  | Shl | LShr | AShr => Undef
  end.
(** [visitBinaryOperator], from the operands on. *)
Definition executeBinaryOperator (op : BinaryOp) (ty : Typ) (Src1 Src2 : GenericValue) : outcome GenericValue :=
  match op with
  | IntOp k => onElements (fun g h => intGV <$> intArith k (IntVal g) (IntVal h)) ty Src1 Src2
  | FloatOp k => onElements (executeFArith k (getScalarType ty)) ty Src1 Src2
  end.

Definition getShiftAmount (orgShiftAmount : Z) (valueToShift : APInt) : Z :=
  let valueWidth := getBitWidth valueToShift in
  if orgShiftAmount <? valueWidth then orgShiftAmount
  else u32 (Z.land (u64 (NextPowerOf2 (u32 (valueWidth - 1)) - 1)) orgShiftAmount).
Definition shiftBy (k : ArithKind) (a : APInt) (n : Z) : outcome APInt :=
  if n <=? getBitWidth a then
    match k with Shl => Ret (shl a n) | LShr => Ret (lshr a n) | AShr => Ret (ashr a n) | _ => Undef end
  else Undef.
(** [visitShl], [visitLShr] and [visitAShr], from the operands on. *)
Definition executeShift (k : ArithKind) (ty : Typ) (Src1 Src2 : GenericValue) : outcome GenericValue :=
  onElements (fun g h => intGV <$> shiftBy k (IntVal g) (getShiftAmount (getZExtValue (IntVal h)) (IntVal g))) ty Src1 Src2.

Definition executeSelectInst (Src1 Src2 Src3 : GenericValue) (ty : Typ) : outcome GenericValue :=
  let choose c t f := if value (IntVal c) =? 0 then f else t in
  if isVectorTy ty then
    if decide (length (AggregateVal Src1) = length (AggregateVal Src2) /\ length (AggregateVal Src2) = length (AggregateVal Src3))
    then Ret (vectorGV (zip_with (fun c p => choose c (fst p) (snd p)) (AggregateVal Src1)
                          (zip (AggregateVal Src2) (AggregateVal Src3))))
    else Undef
  else Ret (choose Src1 Src2 Src3).

(** ** Casts *)

Definition castInt (k : CastKind) (a : APInt) (bits : Z) : APInt :=
  match k with Trunc => trunc a bits | SExt => sext a bits | ZExt => zext a bits end.
Definition onEach (f : GenericValue -> outcome GenericValue) (srcTy : Typ) : GenericValue -> outcome GenericValue :=
  if isVectorTy srcTy then mapVector f else f.
(** [executeTruncInst], [executeSExtInst] and [executeZExtInst] *)
Definition executeIntCast (k : CastKind) (srcTy dstTy : Typ) (Src : GenericValue) : outcome GenericValue :=
  bits ← integerBits (if isVectorTy srcTy then getScalarType dstTy else dstTy);
  onEach (fun g => Ret (intGV (castInt k (IntVal g) bits))) srcTy Src.

(** The conversions of C++ between [float] and [double]. *)
Definition round_to (prec emax : Z) (x : spec_float) : spec_float :=
  match x with
  | S754_finite s m e => binary_normalize prec emax (if s then Zneg m else Zpos m) e s
  | _ => x
  end.
Definition executeFPTruncInst (srcTy dstTy : Typ) (Src : GenericValue) : outcome GenericValue :=
  if isDoubleTy (getScalarType srcTy) && isFloatTy (getScalarType dstTy)
  then onEach (fun g => x ← DoubleVal g; Ret (floatGV (round_to 24 128 x))) srcTy Src else Undef.
Definition executeFPExtInst (srcTy dstTy : Typ) (Src : GenericValue) : outcome GenericValue :=
  if isFloatTy (getScalarType srcTy) && isDoubleTy (getScalarType dstTy)
  then onEach (fun g => x ← FloatVal g; Ret (doubleGV (round_to 53 1024 x))) srcTy Src else Undef.
(** [executeFPToUIInst] and [executeFPToSIInst] are the same. *)
Definition executeFPToInt (srcTy dstTy : Typ) (Src : GenericValue) : outcome GenericValue :=
  bits ← integerBits (if isVectorTy srcTy then getScalarType dstTy else dstTy);
  onEach (fun g =>
    if isFloatTy (getScalarType srcTy) then x ← FloatVal g; Ret (intGV (RoundFloatToAPInt x bits))
    else x ← DoubleVal g; Ret (intGV (RoundDoubleToAPInt x bits))) srcTy Src.
(** [executeUIToFPInst] and [executeSIToFPInst] *)
Definition executeIntToFP (isSigned : bool) (srcTy dstTy : Typ) (Src : GenericValue) : outcome GenericValue :=
  let t := if isVectorTy srcTy then getScalarType dstTy else dstTy in
  if isFloatTy t || isDoubleTy t then
    onEach (fun g => Ret
      (if isFloatTy t
       then floatGV ((if isSigned then RoundSignedAPIntToFloat else RoundAPIntToFloat) (IntVal g))
       else doubleGV ((if isSigned then RoundSignedAPIntToDouble else RoundAPIntToDouble) (IntVal g)))) srcTy Src
  else Undef.
Definition executePtrToIntInst (dstTy : Typ) (Src : GenericValue) : outcome GenericValue :=
  bits ← integerBits dstTy; p ← PointerVal Src; Ret (intGV (mkAPInt bits p)).
(** [ptrBits]: [getPointerSizeInBits] *)
Definition executeIntToPtrInst (ptrBits : Z) (Src : GenericValue) : outcome GenericValue :=
  let i := if ptrBits =? getBitWidth (IntVal Src) then IntVal Src else zextOrTrunc (IntVal Src) ptrBits in
  Ret (pointerGV (getZExtValue i)).

(** *** [executeBitCastInst] *)
Section BitCast.
Context (isLittleEndian : bool) (srcBits dstBits : Z).

(** The shifts of the parts of an integer, as the loops count them. *)
Definition partShift (bits : Z) (ratio j : nat) : Z :=
  if isLittleEndian then bits * Z.of_nat j else bits * Z.of_nat (ratio - 1 - j).
(** One integer from [ratio] narrower ones. *)
Definition joinParts (ratio : nat) (parts : list APInt) : APInt :=
  foldl (fun elt p => ior elt (shl (zext (snd p) dstBits) (partShift srcBits ratio (fst p))))
    (zext (mkAPInt 1 0) dstBits) (imap pair parts).
Fixpoint joinAll (num ratio : nat) (l : list APInt) : list APInt :=
  match num with
  | O => []
  | S num => joinParts ratio (take ratio l) :: joinAll num ratio (drop ratio l)
  end.
(** [ratio] integers from one. *)
Definition splitParts (ratio : nat) (a : APInt) : list APInt :=
  (fun j => let elt := lshr a (partShift dstBits ratio j) in if dstBits <? srcBits then trunc elt dstBits else elt)
    <$> seq 0 ratio.
Definition regroup (srcNum dstNum : nat) (l : list APInt) : list APInt :=
  if (dstNum <? srcNum)%nat then joinAll dstNum (srcNum / dstNum) l
  else mjoin (splitParts (dstNum / srcNum) <$> l).
End BitCast.

Definition toBits (elemTy : Typ) (g : GenericValue) : outcome APInt :=
  match elemTy with
  | FloatTy => x ← FloatVal g; Ret (floatToBits x)
  | DoubleTy => x ← DoubleVal g; Ret (doubleToBits x)
  | IntegerTy _ => Ret (IntVal g)
  | _ => Undef
  end.
Definition fromBits (elemTy : Typ) (i : APInt) : GenericValue :=
  match elemTy with
  | FloatTy => floatGV (bitsToFloat i)
  | DoubleTy => doubleGV (bitsToDouble i)
  | _ => intGV i
  end.
Definition bitCastVector (isLittleEndian : bool) (srcTy dstTy : Typ) (Src : GenericValue) : outcome GenericValue :=
  let elems := if isVectorTy srcTy then AggregateVal Src else [Src] in
  let srcNum := Z.of_nat (length elems) in
  let srcBits := getScalarSizeInBits srcTy in
  let dstBits := getScalarSizeInBits dstTy in
  dstNum ← (if isVectorTy dstTy then (if dstBits =? 0 then Undef else Ret (srcNum * srcBits / dstBits)) else Ret 1);
  if negb (srcNum * srcBits =? dstNum * dstBits) then Undef
  else
    ints ← mapM (toBits (getScalarType srcTy)) elems;
    let parts := regroup isLittleEndian srcBits dstBits (Z.to_nat srcNum) (Z.to_nat dstNum) ints in
    if isVectorTy dstTy then Ret (vectorGV (fromBits (getScalarType dstTy) <$> parts))
    else match parts with i :: _ => Ret (fromBits dstTy i) | [] => Undef end.
Definition bitCastScalar (srcTy dstTy : Typ) (Src : GenericValue) : outcome GenericValue :=
  match dstTy, srcTy with
  | PointerTy, PointerTy => p ← PointerVal Src; Ret (pointerGV p)
  | IntegerTy _, FloatTy => x ← FloatVal Src; Ret (intGV (floatToBits x))
  | IntegerTy _, DoubleTy => x ← DoubleVal Src; Ret (intGV (doubleToBits x))
  | IntegerTy _, IntegerTy _ => Ret (intGV (IntVal Src))
  | FloatTy, IntegerTy _ => Ret (floatGV (bitsToFloat (IntVal Src)))
  | FloatTy, _ => x ← FloatVal Src; Ret (floatGV x)
  | DoubleTy, IntegerTy _ => Ret (doubleGV (bitsToDouble (IntVal Src)))
  | DoubleTy, _ => x ← DoubleVal Src; Ret (doubleGV x)
  | _, _ => Undef
  end.
Definition executeBitCastInst (isLittleEndian : bool) (srcTy dstTy : Typ) (Src : GenericValue) : outcome GenericValue :=
  if isVectorTy srcTy || isVectorTy dstTy then bitCastVector isLittleEndian srcTy dstTy Src
  else bitCastScalar srcTy dstTy Src.

(** ** Elements of vectors and aggregates *)

(** What is copied of a value: the integer, a member of the union or the elements. *)
Definition copyMember (ty : Typ) (src dest : GenericValue) : outcome GenericValue :=
  match ty with
  | IntegerTy _ => Ret (withInt (IntVal src) dest)
  | FloatTy => x ← FloatVal src; Ret (withUnion (FloatMember x) dest)
  | DoubleTy => x ← DoubleVal src; Ret (withUnion (DoubleMember x) dest)
  | _ => Undef
  end.
Definition copyValue (ty : Typ) (src dest : GenericValue) : outcome GenericValue :=
  match ty with
  | ArrayTy | StructTy | VectorTy _ _ => Ret (withAggregate (AggregateVal src) dest)
  | PointerTy => p ← PointerVal src; Ret (withUnion (PointerMember p) dest)
  | _ => copyMember ty src dest
  end.
(** An index that is out of range gives a new value. *)
Definition executeExtractElement (ty : Typ) (Src1 Src2 : GenericValue) : outcome GenericValue :=
  match AggregateVal Src1 !! Z.to_nat (u32 (getZExtValue (IntVal Src2))) with
  | Some e => copyMember ty e newGV
  | None => Ret newGV
  end.
Definition executeInsertElement (elemTy : Typ) (Src1 Src2 Src3 : GenericValue) : outcome GenericValue :=
  let indx := Z.to_nat (u32 (getZExtValue (IntVal Src3))) in
  match AggregateVal Src1 !! indx with
  | Some e => e ← copyMember elemTy Src2 e; Ret (vectorGV (<[indx := e]> (AggregateVal Src1)))
  | None => Undef
  end.
Definition executeShuffleVector (elemTy : Typ) (Src1 Src2 Src3 : GenericValue) : outcome GenericValue :=
  mapVector (fun m =>
    match (AggregateVal Src1 ++ AggregateVal Src2) !! Z.to_nat (u32 (getZExtValue (IntVal m))) with
    | Some e => copyMember elemTy e newGV
    | None => Undef
    end) Src3.

(** The element the indices lead to. *)
Fixpoint elementAt (indices : list Z) (g : GenericValue) : outcome GenericValue :=
  match indices with
  | [] => Ret g
  | i :: indices => e ← vec_get (AggregateVal g) i; elementAt indices e
  end.
Definition executeExtractValue (indexedTy : Typ) (indices : list Z) (Src : GenericValue) : outcome GenericValue :=
  e ← elementAt indices Src; copyValue indexedTy e newGV.
Fixpoint alterAt (f : GenericValue -> outcome GenericValue) (indices : list Z) (g : GenericValue) : outcome GenericValue :=
  match indices with
  | [] => f g
  | i :: indices =>
      e ← vec_get (AggregateVal g) i;
      e ← alterAt f indices e;
      Ret (withAggregate (<[Z.to_nat i := e]> (AggregateVal g)) g)
  end.
Definition executeInsertValue (indexedTy : Typ) (indices : list Z) (Src1 Src2 : GenericValue) : outcome GenericValue :=
  alterAt (copyValue indexedTy Src2) indices Src1.

(** ** Operands *)

(** A step of [getelementptr]: a field at its offset, or an index of some width
    into elements of some size. *)
Inductive Step {A : Type} := FieldStep (offset : Z) | IndexStep (size bits : Z) (idx : A).
#[global] Arguments Step : clear implicits.
Inductive Operand :=
| Register (r : Z) (ty : Typ)
| ConstantValue (g : GenericValue) (ty : Typ)
| GlobalAddress (p : Z)
| CastConstant (op : CastOp) (dstTy : Typ) (src : Operand)
| GEPConstant (ptr : Operand) (steps : list (Step Operand))
| CmpConstant (p : Predicate) (ty : Typ) (l r : Operand)
| SelectConstant (c t f : Operand)
| BinaryConstant (op : BinaryOp) (l r : Operand).
Fixpoint typeOf (o : Operand) : Typ :=
  match o with
  | Register _ ty | ConstantValue _ ty | CmpConstant _ ty _ _ => ty
  | CastConstant _ ty _ => ty
  | GlobalAddress _ | GEPConstant _ _ => PointerTy
  | SelectConstant _ t _ => typeOf t
  | BinaryConstant _ l _ => typeOf l
  end.

(** The target machine. *)
Context (isLittleEndian : bool) (ptrBits : Z).

Definition executeCast (op : CastOp) (srcTy dstTy : Typ) (Src : GenericValue) : outcome GenericValue :=
  match op with
  | IntCast k => executeIntCast k srcTy dstTy Src
  | FPTrunc => executeFPTruncInst srcTy dstTy Src
  | FPExt => executeFPExtInst srcTy dstTy Src
  | FPToUI | FPToSI => executeFPToInt srcTy dstTy Src
  | UIToFP => executeIntToFP false srcTy dstTy Src
  | SIToFP => executeIntToFP true srcTy dstTy Src
  | PtrToInt => executePtrToIntInst dstTy Src
  | IntToPtr => executeIntToPtrInst ptrBits Src
  | BitCast => executeBitCastInst isLittleEndian srcTy dstTy Src
  end.

(** [Idx]: 32-bit indices are signed, others must have 64 bits. *)
Definition gepIndex (bits : Z) (i : APInt) : outcome Z :=
  if bits =? 32 then Ret (signed 32 (u32 (getZExtValue i)))
  else if bits =? 64 then Ret (signed 64 (u64 (getZExtValue i)))
  else Undef.
Section GEP.
Context {A : Type} (eval : A -> outcome GenericValue).
Fixpoint gepTotal (steps : list (Step A)) (total : Z) : outcome Z :=
  match steps with
  | [] => Ret total
  | FieldStep offset :: steps => gepTotal steps (u64 (total + offset))
  | IndexStep size bits idx :: steps =>
      g ← eval idx; i ← gepIndex bits (IntVal g); gepTotal steps (u64 (total + size * i))
  end.
Definition executeGEPOperation (ptr : GenericValue) (steps : list (Step A)) : outcome GenericValue :=
  total ← gepTotal steps 0; p ← PointerVal ptr; Ret (pointerGV (u64 (p + total))).
End GEP.

(** The second half of [getConstantExprValue]: shifts by the amount given. *)
Definition constantBinary (op : BinaryOp) (ty : Typ) (Op0 Op1 : GenericValue) : outcome GenericValue :=
  match op with
  | IntOp ((Shl | LShr | AShr) as k) => intGV <$> shiftBy k (IntVal Op0) (getZExtValue (IntVal Op1))
  | IntOp k => intGV <$> intArith k (IntVal Op0) (IntVal Op1)
  | FloatOp k => executeFArith k ty Op0 Op1
  end.

(** [getOperandValue] and [getConstantExprValue]; a register that was not set has
    a new value. *)
Section Evaluate.
Context (Values : gmap Z GenericValue).
Fixpoint getOperandValue (o : Operand) : outcome GenericValue :=
  match o with
  | Register r _ => Ret (default newGV (Values !! r))
  | ConstantValue g _ => Ret g
  | GlobalAddress p => Ret (pointerGV p)
  | CastConstant op dstTy src => g ← getOperandValue src; executeCast op (typeOf src) dstTy g
  | GEPConstant ptr steps => p ← getOperandValue ptr; executeGEPOperation getOperandValue p steps
  | CmpConstant p _ l r => x ← getOperandValue l; y ← getOperandValue r; executeCmpInst p x y (typeOf l)
  | SelectConstant c t f =>
      x ← getOperandValue c; y ← getOperandValue t; z ← getOperandValue f; executeSelectInst x y z (typeOf c)
  | BinaryConstant op l r => x ← getOperandValue l; y ← getOperandValue r; constantBinary op (typeOf l) x y
  end.
End Evaluate.
End Values.
End Operations.
