(* ===== verification/Contexts.v ===== *)
(** * Stack frames and the instructions that work on a frame alone
    (src/src/Interpreter.h, Execution.cpp): registers, blocks and phis, branches,
    and the visitors of arithmetic, comparisons, casts and aggregates.  The visitors
    of the other instructions are in Instructions.v and Registers.v.

    A value of LLVM is the number of its register, a block is its number.  Data
    dependencies are tracked by no model here. *)
From S2P Require Import Prelude SExpr Labels Numbers Operations.
#[local] Open Scope Z_scope.

Module Contexts.
Import SExprOps Numbers Operations.

Section Instructions.
Context `{APIntOps}.

(** The call a frame waits for: the register of its result and the type, and the
    normal destination of an invoke. *)
Record CallSite := mkCallSite { callResult : Z; callType : Typ; normalDest : option Z }.
Inductive Callee := InlineAsm | VAStart | VAEnd | VACopy | Called (f : Operand).

(** ** Instructions; [res] is the register of the result, [attr] the metadata
    "genmc.attr", [annot] the annotation of a load *)

Inductive Inst :=
| BinaryOperator (res : Z) (op : BinaryOp) (l r : Operand)
| ShiftOperator (res : Z) (k : ArithKind) (l r : Operand)
| CmpInst (res : Z) (p : Predicate) (l r : Operand)
| SelectInst (res : Z) (c t f : Operand)
| CastInst (res : Z) (op : CastOp) (dstTy : Typ) (src : Operand)
| GetElementPtrInst (res : Z) (ptr : Operand) (steps : list (Step Operand))
| ExtractElementInst (res : Z) (ty : Typ) (vec idx : Operand)
| InsertElementInst (res : Z) (elemTy : Typ) (vec elt idx : Operand)
| ShuffleVectorInst (res : Z) (elemTy : Typ) (l r mask : Operand)
| ExtractValueInst (res : Z) (indexedTy : Typ) (indices : list Z) (agg : Operand)
| InsertValueInst (res : Z) (indexedTy : Typ) (indices : list Z) (agg val : Operand)
| PHINode (res : Z) (incoming : list (Z * Operand))
| BranchInst (dest : Z)
| CondBranchInst (cond : Operand) (ifTrue ifFalse : Z)
| SwitchInst (cond : Operand) (cases : list (Operand * Z)) (defaultDest : Z)
| IndirectBrInst (addr : Operand)
| ReturnInst (val : option Operand)
| UnreachableInst
| LoadInst (res : Z) (ty : Typ) (ord : AtomicOrdering) (ptr : Operand) (attr : option Z) (annot : option (SExpr Z))
| StoreInst (ord : AtomicOrdering) (val ptr : Operand) (attr : option Z)
| FenceInst (ord : AtomicOrdering)
| AtomicCmpXchgInst (res : Z) (successOrd : AtomicOrdering) (ptr cmp new : Operand) (attr : option Z)
| AtomicRMWInst (res : Z) (binop : Z) (ord : AtomicOrdering) (ptr val : Operand) (attr : option Z)
| AllocaInst (res : Z) (allocatedTy : Typ) (num : Operand) (align : Z)
| VAArgInst (res : Z) (ty : Typ) (valist : Operand)
| CallInst (call : CallSite) (callee : Callee) (args : list Operand).

Record ExecutionContext := mkContext {
  CurFunction : Z; CurBB : Z; CurInst : nat; Caller : option CallSite;
  Values : gmap Z GenericValue; VarArgs : list GenericValue; Allocas : list Z }.
Definition setPosition (bb : Z) (i : nat) (SF : ExecutionContext) : ExecutionContext :=
  mkContext (CurFunction SF) bb i (Caller SF) (Values SF) (VarArgs SF) (Allocas SF).
Definition setValues (m : gmap Z GenericValue) (SF : ExecutionContext) : ExecutionContext :=
  mkContext (CurFunction SF) (CurBB SF) (CurInst SF) (Caller SF) m (VarArgs SF) (Allocas SF).
Definition setCaller (c : option CallSite) (SF : ExecutionContext) : ExecutionContext :=
  mkContext (CurFunction SF) (CurBB SF) (CurInst SF) c (Values SF) (VarArgs SF) (Allocas SF).
Definition addAlloca (p : Z) (SF : ExecutionContext) : ExecutionContext :=
  mkContext (CurFunction SF) (CurBB SF) (CurInst SF) (Caller SF) (Values SF) (VarArgs SF) (Allocas SF ++ [p]).
Definition SetValue (r : Z) (g : GenericValue) (SF : ExecutionContext) : ExecutionContext :=
  setValues (<[r := g]> (Values SF)) SF.

(** The blocks of a function, and the target machine. *)
Context (isLittleEndian : bool) (ptrBits : Z) (code : Z -> Z -> list Inst).

Definition operand (SF : ExecutionContext) (o : Operand) : outcome GenericValue :=
  getOperandValue isLittleEndian ptrBits (Values SF) o.
Definition block (SF : ExecutionContext) : list Inst := code (CurFunction SF) (CurBB SF).
Definition currentInst (SF : ExecutionContext) : outcome Inst :=
  match block SF !! CurInst SF with Some i => Ret i | None => Undef end.

(** ** Jumps *)

Fixpoint incomingFor (prev : Z) (incoming : list (Z * Operand)) : outcome Operand :=
  match incoming with
  | [] => Undef
  | (b, v) :: incoming => if b =? prev then Ret v else incomingFor prev incoming
  end.
(** The first loop of [SwitchToNewBasicBlock]: the values of the phis the
    instructions start with. *)
Fixpoint readPhis (prev : Z) (SF : ExecutionContext) (l : list Inst) : outcome (list GenericValue) :=
  match l with
  | [] => Undef
  | PHINode _ incoming :: l =>
      v ← incomingFor prev incoming; g ← operand SF v; rest ← readPhis prev SF l; Ret (g :: rest)
  | _ => Ret []
  end.
(** The second one: [++SF.CurInst] past every phi. *)
Fixpoint writePhis (l : list Inst) (ResultValues : list GenericValue) (SF : ExecutionContext) : outcome ExecutionContext :=
  match l with
  | [] => Undef
  | PHINode res _ :: l =>
      match ResultValues with
      | g :: ResultValues => writePhis l ResultValues (setPosition (CurBB SF) (S (CurInst SF)) (SetValue res g SF))
      | [] => Undef
      end
  | _ => Ret SF
  end.
Definition SwitchToNewBasicBlock (Dest : Z) (SF : ExecutionContext) : outcome ExecutionContext :=
  let PrevBB := CurBB SF in
  let SF := setPosition Dest 0 SF in
  ResultValues ← readPhis PrevBB SF (block SF);
  writePhis (block SF) ResultValues SF.

(** ** Visitors of a frame whose [CurInst] is past the instruction *)

Definition visitBranchInst (dest : Z) (SF : ExecutionContext) : outcome ExecutionContext :=
  SwitchToNewBasicBlock dest SF.
Definition visitCondBranchInst (cond : Operand) (ifTrue ifFalse : Z) (SF : ExecutionContext) : outcome ExecutionContext :=
  c ← operand SF cond;
  SwitchToNewBasicBlock (if value (IntVal c) =? 0 then ifFalse else ifTrue) SF.
Fixpoint findCase (CondVal : GenericValue) (ElTy : Typ) (cases : list (Operand * Z)) (SF : ExecutionContext) : outcome (option Z) :=
  match cases with
  | [] => Ret None
  | (c, dest) :: cases =>
      CaseVal ← operand SF c;
      r ← executeICMP Eq CondVal CaseVal ElTy;
      if negb (value (IntVal r) =? 0) then Ret (Some dest) else findCase CondVal ElTy cases SF
  end.
Definition visitSwitchInst (cond : Operand) (cases : list (Operand * Z)) (defaultDest : Z) (SF : ExecutionContext) : outcome ExecutionContext :=
  CondVal ← operand SF cond;
  dest ← findCase CondVal (typeOf cond) cases SF;
  SwitchToNewBasicBlock (default defaultDest dest) SF.
(** The address of a block is its number. *)
Definition visitIndirectBrInst (addr : Operand) (SF : ExecutionContext) : outcome ExecutionContext :=
  g ← operand SF addr; p ← PointerVal g; SwitchToNewBasicBlock p SF.

Definition set (res : Z) (R : outcome GenericValue) (SF : ExecutionContext) : outcome ExecutionContext :=
  g ← R; Ret (SetValue res g SF).
Definition visitBinaryOperator (res : Z) (op : BinaryOp) (l r : Operand) (SF : ExecutionContext) : outcome ExecutionContext :=
  Src1 ← operand SF l; Src2 ← operand SF r; set res (executeBinaryOperator op (typeOf l) Src1 Src2) SF.
Definition visitShift (res : Z) (k : ArithKind) (l r : Operand) (SF : ExecutionContext) : outcome ExecutionContext :=
  Src1 ← operand SF l; Src2 ← operand SF r; set res (executeShift k (typeOf l) Src1 Src2) SF.
Definition visitCmpInst (res : Z) (p : Predicate) (l r : Operand) (SF : ExecutionContext) : outcome ExecutionContext :=
  Src1 ← operand SF l; Src2 ← operand SF r; set res (executeCmpInst p Src1 Src2 (typeOf l)) SF.
Definition visitSelectInst (res : Z) (c t f : Operand) (SF : ExecutionContext) : outcome ExecutionContext :=
  Src1 ← operand SF c; Src2 ← operand SF t; Src3 ← operand SF f;
  set res (executeSelectInst Src1 Src2 Src3 (typeOf c)) SF.
Definition visitCastInst (res : Z) (op : CastOp) (dstTy : Typ) (src : Operand) (SF : ExecutionContext) : outcome ExecutionContext :=
  Src ← operand SF src; set res (executeCast isLittleEndian ptrBits op (typeOf src) dstTy Src) SF.
Definition visitGetElementPtrInst (res : Z) (ptr : Operand) (steps : list (Step Operand)) (SF : ExecutionContext) : outcome ExecutionContext :=
  p ← operand SF ptr; set res (executeGEPOperation (operand SF) p steps) SF.
Definition visitExtractElementInst (res : Z) (ty : Typ) (vec idx : Operand) (SF : ExecutionContext) : outcome ExecutionContext :=
  Src1 ← operand SF vec; Src2 ← operand SF idx; set res (executeExtractElement ty Src1 Src2) SF.
Definition visitInsertElementInst (res : Z) (elemTy : Typ) (vec elt idx : Operand) (SF : ExecutionContext) : outcome ExecutionContext :=
  Src1 ← operand SF vec; Src2 ← operand SF elt; Src3 ← operand SF idx;
  set res (executeInsertElement elemTy Src1 Src2 Src3) SF.
Definition visitShuffleVectorInst (res : Z) (elemTy : Typ) (l r mask : Operand) (SF : ExecutionContext) : outcome ExecutionContext :=
  Src1 ← operand SF l; Src2 ← operand SF r; Src3 ← operand SF mask;
  set res (executeShuffleVector elemTy Src1 Src2 Src3) SF.
Definition visitExtractValueInst (res : Z) (indexedTy : Typ) (indices : list Z) (agg : Operand) (SF : ExecutionContext) : outcome ExecutionContext :=
  Src ← operand SF agg; set res (executeExtractValue indexedTy indices Src) SF.
Definition visitInsertValueInst (res : Z) (indexedTy : Typ) (indices : list Z) (agg val : Operand) (SF : ExecutionContext) : outcome ExecutionContext :=
  Src1 ← operand SF agg; Src2 ← operand SF val; set res (executeInsertValue indexedTy indices Src1 Src2) SF.

(** [visitVAArgInst]: the argument list is a register with the depth of a frame and
    the number of the next argument; [++VAList.UIntPairVal.second] changes a copy. *)
Definition visitVAArgInst (ECStack : list ExecutionContext) (res : Z) (ty : Typ) (valist : Operand) (SF : ExecutionContext)
  : outcome ExecutionContext :=
  VAList ← operand SF valist;
  match union VAList with
  | UIntPairMember depth n =>
      frame ← vec_get ECStack depth;
      Src ← vec_get (VarArgs frame) n;
      Dest ← match ty with IntegerTy _ | PointerTy | FloatTy | DoubleTy => copyValue ty Src newGV | _ => Undef end;
      Ret (SetValue res Dest SF)
  | _ => Undef
  end.

(** ** Calls *)

(** What a return does to the frame of the caller: [popStackAndReturnValueToCaller]
    and [returnValueToCaller]. *)
Definition returnTo (Result : GenericValue) (CallingSF : ExecutionContext) : outcome ExecutionContext :=
  match Caller CallingSF with
  | None => Ret CallingSF
  | Some call =>
      let SF := if decide (callType call = VoidTy) then CallingSF else SetValue (callResult call) Result CallingSF in
      SF ← match normalDest call with Some b => SwitchToNewBasicBlock b SF | None => Ret SF end;
      Ret (setCaller None SF)
  end.
(** The type and the value [visitReturnInst] returns. *)
Definition returned (val : option Operand) (SF : ExecutionContext) : outcome (Typ * GenericValue) :=
  match val with
  | Some v => g ← operand SF v; Ret (typeOf v, g)
  | None => Ret (VoidTy, newGV)
  end.

(** One instruction, [Instruction &I = *SF.CurInst++; visit(I)], when it works on
    the frame alone. *)
Definition visitLocal (SF : ExecutionContext) : outcome (option ExecutionContext) :=
  inst ← currentInst SF;
  let SF := setPosition (CurBB SF) (S (CurInst SF)) SF in
  match inst with
  | BinaryOperator res op l r => Some <$> visitBinaryOperator res op l r SF
  | ShiftOperator res k l r => Some <$> visitShift res k l r SF
  | CmpInst res p l r => Some <$> visitCmpInst res p l r SF
  | SelectInst res c t f => Some <$> visitSelectInst res c t f SF
  | CastInst res op dstTy src => Some <$> visitCastInst res op dstTy src SF
  | GetElementPtrInst res ptr steps => Some <$> visitGetElementPtrInst res ptr steps SF
  | ExtractElementInst res ty vec idx => Some <$> visitExtractElementInst res ty vec idx SF
  | InsertElementInst res ty vec elt idx => Some <$> visitInsertElementInst res ty vec elt idx SF
  | ShuffleVectorInst res ty l r mask => Some <$> visitShuffleVectorInst res ty l r mask SF
  | ExtractValueInst res ty indices agg => Some <$> visitExtractValueInst res ty indices agg SF
  | InsertValueInst res ty indices agg val => Some <$> visitInsertValueInst res ty indices agg val SF
  | BranchInst dest => Some <$> visitBranchInst dest SF
  | CondBranchInst cond t f => Some <$> visitCondBranchInst cond t f SF
  | SwitchInst cond cases def => Some <$> visitSwitchInst cond cases def SF
  | IndirectBrInst addr => Some <$> visitIndirectBrInst addr SF
  | PHINode _ _ => Undef
  | UnreachableInst => Bug
  | _ => Ret None
  end.
End Instructions.
End Contexts.
