(* ===== verification/OperationsFacts.v ===== *)
(** * What the operations of the interpreter compute (properties of Operations.v
    and Contexts.v), and that annotations (InstAnnotator.v) agree with them. *)
From S2P Require Import Prelude SVal SExpr SExprFacts Numbers Operations Contexts InstAnnotator InstAnnotatorFacts.
#[local] Open Scope Z_scope.

Module OperationsFacts.
Import SExprOps SExprFacts Numbers Operations Contexts.

(** ** Shifts *)
Section Shifts.
Context `{APIntLaws}.

Lemma mask_is_mod k n : 0 <= k -> Z.land (2 ^ k - 1) n = n mod 2 ^ k.
Proof. intros Hk. rewrite Z.land_comm, <- Z.land_ones by done. f_equal. rewrite Z.ones_equiv. lia. Qed.

Lemma next_power k : 0 <= k -> NextPowerOf2 (2 ^ k - 1) = 2 ^ k.
Proof.
  intros Hk. pose proof (Z.pow_pos_nonneg 2 k). destruct (NextPowerOf2_next (2 ^ k - 1)) as (j & Hj & -> & Hlt & Hle); [lia|].
  f_equal. destruct Hle as [->|Hle].
  - destruct (Z.eq_dec k 0) as [->|]; [done|]. pose proof (Z.pow_gt_1 2 k ltac:(lia)). lia.
  - assert (k <= j) by (apply (Z.pow_le_mono_r_iff 2); lia).
    assert (j - 1 < k) by (apply (Z.pow_lt_mono_r_iff 2); lia). lia.
Qed.

(** At a width that is a power of two an amount is taken modulo the width. *)
Lemma getShiftAmount_mod k (a : APInt) n :
  0 <= k < 32 -> getBitWidth a = 2 ^ k -> 0 <= n -> getShiftAmount n a = n mod 2 ^ k.
Proof.
  intros Hk Hw Hn. unfold getShiftAmount. rewrite Hw.
  pose proof (Z.pow_pos_nonneg 2 k). assert (2 ^ k < 2 ^ 32) by (apply Z.pow_lt_mono_r; lia).
  destruct (Z.ltb_spec n (2 ^ k)); [by rewrite Z.mod_small|].
  rewrite (wrap_small 32 (2 ^ k - 1)), next_power, (wrap_small 64) by lia.
  rewrite mask_is_mod by lia. apply wrap_small. pose proof (Z.mod_pos_bound n (2 ^ k)). lia.
Qed.

(** The value that is shifted, by a scalar shift. *)
Definition shifted (k : ArithKind) (w x n : Z) : Z :=
  match k with
  | Shl => wrap w (Z.shiftl x n)
  | LShr => Z.shiftr x n
  | _ => wrap w (Z.shiftr (signed w x) n)
  end.
Definition isShift (k : ArithKind) : bool := match k with Shl | LShr | AShr => true | _ => false end.

Lemma shiftBy_value k (a : APInt) n : isShift k = true -> 0 <= n <= getBitWidth a ->
  exists c, shiftBy k a n = Ret c /\ value c = shifted k (getBitWidth a) (value a) n.
Proof.
  intros Hk Hn. unfold shiftBy. rewrite (proj2 (Z.leb_le n _)) by lia.
  destruct k; try done; eexists; (split; [reflexivity|]); cbn.
  - by apply value_shl.
  - by apply value_lshr.
  - rewrite value_ashr by done. done.
Qed.

(** Property C18. Shifts of integers whose width is a power of two are defined for
    every amount, and shift by the amount modulo the width. *)
Theorem executeShift_modulo op k (a b : APInt) :
  isShift op = true -> 0 <= k < 32 -> getBitWidth a = 2 ^ k -> value b < 2 ^ 64 ->
  exists g, executeShift op (IntegerTy (2 ^ k)) (intGV a) (intGV b) = Ret g /\
    value (IntVal g) = shifted op (2 ^ k) (value a) (value b mod 2 ^ k).
Proof.
  intros Hop Hk Hw Hb. pose proof (Z.pow_pos_nonneg 2 k). pose proof (value_range b).
  unfold executeShift. cbn. rewrite zext_value, (getShiftAmount_mod k) by (done || lia).
  pose proof (Z.mod_pos_bound (value b) (2 ^ k)).
  destruct (shiftBy_value op a (value b mod 2 ^ k)) as (c & -> & Hc); [done|lia|].
  eexists. split; [reflexivity|]. cbn. by rewrite Hc, Hw.
Qed.
End Shifts.

(** At other widths an amount may stay above the width, which LLVM's integers do
    not allow. *)
Example shift_out_of_range :
  executeShift Shl (IntegerTy 24) (intGV (mkAPInt 24 1)) (intGV (mkAPInt 24 30)) = Undef.
Proof. vm_compute. reflexivity. Qed.

Lemma executeShift_modulo_witness :
  isShift Shl = true /\
  exists g, executeShift Shl (IntegerTy (2 ^ 5)) (intGV (mkAPInt 32 3)) (intGV (mkAPInt 32 33)) = Ret g /\
    value (IntVal g) = shifted Shl (2 ^ 5) (value (mkAPInt 32 3)) (value (mkAPInt 32 33) mod 2 ^ 5).
Proof. split; [done|]. apply (executeShift_modulo Shl 5); vm_compute; by try split. Defined.

(** ** Casts between an integer and a vector of its parts *)
Section BitCasts.
Context `{APIntLaws} (isLittleEndian : bool) (N : nat) (w : Z).
Context (HN : (2 <= N)%nat) (Hw : 0 < w).
Let W : Z := Z.of_nat N * w.
Let s (j : nat) : Z := partShift isLittleEndian w N j.

Lemma partShift_range j : (j < N)%nat -> 0 <= s j /\ s j + w <= W.
Proof. intros Hj. unfold s, partShift, W. destruct isLittleEndian; split; nia. Qed.
Lemma partShift_covers i : 0 <= i < W -> exists j, (j < N)%nat /\ s j <= i < s j + w.
Proof.
  intros Hi. unfold s, partShift, W in *.
  assert (0 <= i / w < Z.of_nat N) by (split; [apply Z.div_pos; lia|apply Z.div_lt_upper_bound; lia]).
  pose proof (Z.div_mod i w ltac:(lia)). pose proof (Z.mod_pos_bound i w Hw).
  destruct isLittleEndian.
  - exists (Z.to_nat (i / w)). rewrite Z2Nat.id by lia. split; [lia|nia].
  - exists (N - 1 - Z.to_nat (i / w))%nat. split; [lia|].
    replace (Z.of_nat (N - 1 - (N - 1 - Z.to_nat (i / w)))) with (i / w) by lia. nia.
Qed.

Definition part (a : APInt) (j : nat) : APInt := trunc (lshr a (s j)) w.
Lemma splitParts_parts a : splitParts isLittleEndian W w N a = part a <$> seq 0 N.
Proof.
  unfold splitParts, part. rewrite (proj2 (Z.ltb_lt w W)) by (unfold W; nia). done.
Qed.
Lemma part_width a j : getBitWidth (part a j) = w.
Proof. by apply width_trunc. Qed.
Lemma part_bit a j i : getBitWidth a = W -> (j < N)%nat -> 0 <= i ->
  Z.testbit (value (part a j)) i = (i <? w) && Z.testbit (value a) (i + s j).
Proof.
  intros Ha Hj Hi. pose proof (partShift_range j Hj). unfold part.
  rewrite value_trunc by (rewrite width_lshr; lia). rewrite wrap_testbit by lia. f_equal.
  rewrite value_lshr by lia. rewrite Z.shiftr_spec by done. done.
Qed.

(** One more part. *)
Lemma join_bit acc p n : getBitWidth acc = W -> getBitWidth p = w -> 0 <= n -> n + w <= W ->
  getBitWidth (ior acc (shl (zext p W) n)) = W /\
  forall i, 0 <= i -> Z.testbit (value (ior acc (shl (zext p W) n))) i =
    Z.testbit (value acc) i || ((n <=? i) && Z.testbit (value p) (i - n)).
Proof.
  intros Hacc Hp Hn Hle. assert (0 < W) by lia. split; [by rewrite width_ior|]. intros i Hi.
  rewrite value_ior by (rewrite width_shl, width_zext by done; done). rewrite Z.lor_spec. f_equal.
  rewrite value_shl by (rewrite width_zext by done; lia). rewrite width_zext by done.
  rewrite wrap_testbit, value_zext, Z.shiftl_spec by lia.
  destruct (Z.leb_spec n i); [|by rewrite (Z.testbit_neg_r _ (i - n)), andb_false_r by lia]. cbn.
  destruct (Z.ltb_spec i W); [done|]. cbn. pose proof (value_range p). rewrite Hp in *. symmetry.
  rewrite <- (wrap_small w (value p)) by done. rewrite wrap_testbit by lia. by rewrite (proj2 (Z.ltb_ge _ _)) by lia.
Qed.
Lemma joinParts_bit (a : APInt) : getBitWidth a = W -> forall js acc, (forall j, j ∈ js -> (j < N)%nat) -> getBitWidth acc = W ->
  let r := foldl (fun elt p => ior elt (shl (zext (snd p) W) (partShift isLittleEndian w N (fst p)))) acc
             ((fun j => (j, part a j)) <$> js) in
  getBitWidth r = W /\ forall i, 0 <= i -> Z.testbit (value r) i = true <->
    Z.testbit (value acc) i = true \/ exists j, j ∈ js /\ s j <= i < s j + w /\ Z.testbit (value a) i = true.
Proof.
  intros Ha. induction js as [|j js IH]; intros acc Hjs Hacc; cbn.
  { split; [done|]. intros i Hi. split; [by left|]. intros [?|(j & Hj & _)]; [done|]. by apply elem_of_nil in Hj. }
  assert (j < N)%nat as Hj by (apply Hjs; by left). pose proof (partShift_range j Hj) as Hr.
  destruct (join_bit acc (part a j) (s j)) as [Hw' Hbit]; [done|apply part_width|lia|lia|].
  destruct (IH (ior acc (shl (zext (part a j) W) (s j)))) as [HwR HR]; [intros; apply Hjs; by right|done|].
  split; [done|]. intros i Hi. etransitivity; [exact (HR i Hi)|]. rewrite Hbit by done. rewrite orb_true_iff, andb_true_iff, Z.leb_le. split.
  - intros [[Hb|[Hle Hb]]|(j' & Hj' & Hb)]; [by left|right|right].
    + rewrite part_bit in Hb by (done || lia). apply andb_true_iff in Hb as [Hlt%Z.ltb_lt Hb].
      replace (i - s j + s j) with i in Hb by lia. exists j. split; [by left|]. split; [lia|done].
    + exists j'. split; [by right|done].
  - intros [Hb|(j' & [->|Hj']%elem_of_cons & Hin & Hb)]; [by left; left|left; right|right; eauto].
    split; [lia|]. rewrite part_bit by (done || lia). rewrite (proj2 (Z.ltb_lt _ _)) by lia. cbn.
    by replace (i - s j + s j) with i by lia.
Qed.
Lemma joinParts_parts (a : APInt) : getBitWidth a = W -> joinParts isLittleEndian w W N (part a <$> seq 0 N) = a.
Proof.
  intros Ha. unfold joinParts.
  assert (imap pair (part a <$> seq 0 N) = (fun j => (j, part a j)) <$> seq 0 N) as ->.
  { apply list_eq. intros j. rewrite list_lookup_imap, !list_lookup_fmap.
    destruct (decide (j < N)%nat); [by rewrite lookup_seq_lt|by rewrite lookup_seq_ge by lia]. }
  assert (0 < W) by (unfold W; nia).
  destruct (joinParts_bit a Ha (seq 0 N) (zext (mkAPInt 1 0) W)) as [HwR HR];
    [intros j Hj%elem_of_seq; lia|by apply width_zext|].
  apply apint_ext; [by rewrite Ha|]. apply Z.bits_inj'. intros i Hi. apply eq_true_iff_eq. rewrite HR by done.
  rewrite value_zext, value_mk by (rewrite ?width_mk; lia). change (wrap 1 0) with 0. rewrite Z.bits_0. split.
  - intros [?|(j & _ & _ & Hb)]; done.
  - intros Hb. right. assert (i < W).
    { destruct (Z.lt_ge_cases i W); [done|]. pose proof (value_range a). rewrite Ha in *.
      rewrite <- (wrap_small W (value a)), wrap_testbit in Hb by lia. by rewrite (proj2 (Z.ltb_ge _ _)) in Hb by lia. }
    destruct (partShift_covers i) as (j & Hj & Hin); [lia|]. exists j. split; [apply elem_of_seq; lia|done].
Qed.

Lemma mapM_ret {A B} (f : A -> outcome B) (g : A -> B) l : (forall x, f x = Ret (g x)) -> mapM f l = Ret (g <$> l).
Proof. intros Hf. induction l as [|x l IH]; cbn; [done|]. rewrite Hf. cbn. by rewrite IH. Qed.

(** Property C19. A cast of an integer to a vector of [N] equal parts gives [N]
    elements, and the cast back gives the integer, whichever the byte order. *)
Theorem bitcast_roundtrip (a : APInt) :
  getBitWidth a = W ->
  exists v, executeBitCastInst isLittleEndian (IntegerTy W) (VectorTy (Z.of_nat N) (IntegerTy w)) (intGV a) = Ret v /\
    length (AggregateVal v) = N /\
    executeBitCastInst isLittleEndian (VectorTy (Z.of_nat N) (IntegerTy w)) (IntegerTy W) v = Ret (intGV a).
Proof.
  intros Ha. exists (vectorGV (intGV <$> (part a <$> seq 0 N))).
  assert (0 < W) by (unfold W; nia). split_and!.
  - unfold executeBitCastInst, bitCastVector. cbn [isVectorTy orb getScalarSizeInBits getScalarType getPrimitiveSizeInBits length].
    rewrite (proj2 (Z.eqb_neq w 0)) by lia. cbn [mbind outcome_bind].
    replace (Z.of_nat 1 * W / w) with (Z.of_nat N) by (unfold W; rewrite Z.mul_1_l; symmetry; apply Z.div_mul; lia).
    rewrite (proj2 (Z.eqb_eq _ _)) by (unfold W; lia). cbn [negb mapM mret outcome_ret mbind outcome_bind].
    unfold regroup. change (Z.to_nat (Z.of_nat 1)) with 1%nat. rewrite Nat2Z.id, (proj2 (Nat.ltb_ge N 1)) by lia.
    rewrite Nat.div_1_r. change (Ret (vectorGV (intGV <$> (splitParts isLittleEndian W w N a ++ []))) =
      Ret (vectorGV (intGV <$> (part a <$> seq 0 N)))).
    by rewrite app_nil_r, splitParts_parts.
  - cbn. by rewrite !length_fmap, length_seq.
  - unfold executeBitCastInst, bitCastVector. cbn [isVectorTy orb getScalarSizeInBits getScalarType getPrimitiveSizeInBits].
    replace (AggregateVal _) with (intGV <$> (part a <$> seq 0 N)) by done. rewrite !length_fmap, length_seq.
    cbn [mbind outcome_bind]. rewrite (proj2 (Z.eqb_eq _ _)) by (unfold W; lia). cbn [negb].
    rewrite (mapM_ret _ IntVal) by done. cbn [mbind outcome_bind]. rewrite Nat2Z.id. change (Z.to_nat 1) with 1%nat.
    unfold regroup. rewrite (proj2 (Nat.ltb_lt 1 N)) by lia. rewrite Nat.div_1_r. cbn [joinAll].
    rewrite <- list_fmap_compose. replace ((IntVal ∘ intGV) <$> (part a <$> seq 0 N)) with (part a <$> seq 0 N).
    2:{ rewrite <- list_fmap_compose. by apply list_fmap_ext. }
    rewrite take_ge by (rewrite length_fmap, length_seq; lia). rewrite joinParts_parts by done. done.
Qed.
End BitCasts.

(** ** Annotations compute what the interpreter computes *)
Section Annotations.
Context `{IR : Annotator.IR} `{APIntLaws}.
Import Annotator AnnotatorFacts.
(** The integers in the registers. *)
Context (ι : Value -> APInt).

(** The operation of the interpreter's visitor of an instruction on integers; the
    result has [bits] bits.  The register of a compare-and-exchange stands for the
    value it read. *)
Definition interpret (bits : Z) (d : Instr Value Block Function_) : outcome GenericValue :=
  let ty v := IntegerTy (getBitWidth (ι v)) in
  let gv v := intGV (ι v) in
  match d with
  | BinaryInst k l r =>
      if isShift k then executeShift k (ty l) (gv l) (gv r) else executeBinaryOperator (IntOp k) (ty l) (gv l) (gv r)
  | ICmpInst k l r => executeICMP k (gv l) (gv r) (ty l)
  | Annotator.CastInst k op => executeIntCast k (ty op) (IntegerTy bits) (gv op)
  | Annotator.SelectInst c t f => executeSelectInst (gv c) (gv t) (gv f) (ty c)
  | BitCastInst op => bitCastScalar (ty op) (IntegerTy bits) (gv op)
  | Annotator.ExtractValueInst integerTy indices aggregate =>
      match extractsFromCAS integerTy indices aggregate with
      | Some (cas, compare) =>
          Ret (if bool_decide (head indices = Some 0) then gv cas
               else intGV (mkAPInt 1 (Z.b2z (value (ι cas) =? value (ι compare)))))
      | None => Undef
      end
  | _ => Undef
  end.

(** Annotations calculate with 64 bits and have no casts: what an instruction must
    satisfy for this to make no difference. *)
Definition nonneg (v : Value) : bool := value (ι v) <? 2 ^ (getBitWidth (ι v) - 1).
Definition exactArith (k : ArithKind) (l r : Value) : bool :=
  let w := getBitWidth (ι l) in
  let x := value (ι l) in let y := value (ι r) in
  match k with
  | Add => (w =? 64) || (x + y <? 2 ^ w)
  | Sub => (w =? 64) || (y <=? x)
  | Mul => (w =? 64) || (x * y <? 2 ^ w)
  | UDiv | URem | And | Or | Xor => true
  | SDiv | SRem => nonneg l && nonneg r
  | Shl => (y <? w) && ((w =? 64) || (Z.shiftl x y <? 2 ^ w))
  | LShr => y <? w
  | AShr => (y <? w) && nonneg l
  end.
Definition isSigned (k : CmpKind) : bool := match k with Slt | Sle | Sgt | Sge => true | _ => false end.
Definition exact (bits : Z) (d : Instr Value Block Function_) : bool :=
  let w v := getBitWidth (ι v) in
  match d with
  | BinaryInst k l r => (w l =? w r) && (w l <=? 64) && exactArith k l r
  | ICmpInst k l r => (w l =? w r) && (w l <=? 64) && (negb (isSigned k) || (w l =? 64) || (nonneg l && nonneg r))
  | Annotator.CastInst ZExt op => w op <=? bits
  | Annotator.CastInst SExt op => (w op <=? bits) && nonneg op
  | Annotator.CastInst Trunc op => (0 <? bits) && (bits <=? w op) && (value (ι op) <? 2 ^ bits)
  | Annotator.SelectInst _ _ _ | BitCastInst _ | Annotator.ExtractValueInst _ _ _ => true
  | _ => false
  end.
(** What the expression of an instruction evaluates to: the result, but for the
    remainders.  The expression of an unsigned one is evaluated by a division, the
    one of a signed one is [true]. *)
Definition annotated (d : Instr Value Block Function_) (result : Z) : outcome Z :=
  match d with
  | BinaryInst URem l r => SVal.div (value (ι l)) (value (ι r))
  | BinaryInst SRem l r => Ret 1
  | _ => Ret result
  end.

Context (Hρ : constants_hold value ι).

Lemma operand_is v e : generateOperandExpr v = Ret e -> denote (env value ι) e = Ret (value (ι v)).
Proof. by apply operand_denotes. Qed.
Lemma nonneg_signed v : nonneg v = true -> svalue (ι v) = value (ι v).
Proof. unfold nonneg, svalue, signed. by intros ->. Qed.
Lemma value_64 v : getBitWidth (ι v) <= 64 -> 0 <= value (ι v) < 2 ^ 64.
Proof.
  intros Hw. pose proof (value_range (ι v)). pose proof (width_pos (ι v)).
  assert (2 ^ getBitWidth (ι v) <= 2 ^ 64) by (apply Z.pow_le_mono_r; lia). lia.
Qed.
Lemma wrap_exact w x : 0 <= x -> 0 < w <= 64 -> (w =? 64) || (x <? 2 ^ w) = true -> u64 x = wrap w x.
Proof.
  intros Hx Hw [->%Z.eqb_eq|Hlt%Z.ltb_lt]%orb_true_iff; [done|].
  assert (2 ^ w <= 2 ^ 64) by (apply Z.pow_le_mono_r; lia). rewrite !wrap_small; lia.
Qed.

(** A shift by less than the width. *)
Lemma executeShift_small k (a b : APInt) w g : isShift k = true -> value b < getBitWidth a -> value b < 2 ^ 64 ->
  executeShift k (IntegerTy w) (intGV a) (intGV b) = Ret g ->
  value (IntVal g) = shifted k (getBitWidth a) (value a) (value b).
Proof.
  intros Hk Hb H64. unfold executeShift. cbn. rewrite zext_value by done. unfold getShiftAmount.
  rewrite (proj2 (Z.ltb_lt _ _) Hb). pose proof (value_range b).
  destruct (shiftBy_value k a (value b)) as (c & -> & Hc); [done|lia|]. intros [= <-]. done.
Qed.

Lemma binary_agrees k l r g bits : k <> URem -> k <> SRem ->
  exact bits (BinaryInst k l r) = true -> interpret bits (BinaryInst k l r) = Ret g ->
  arith k (value (ι l)) (value (ι r)) = Ret (value (IntVal g)).
Proof.
  cbn [exact interpret]. intros Hnu Hns He Hi. apply andb_true_iff in He as [[Hw%Z.eqb_eq H64%Z.leb_le]%andb_true_iff He].
  pose proof (value_range (ι l)) as Hl. pose proof (value_range (ι r)) as Hr. pose proof (width_pos (ι l)).
  pose proof (value_64 l H64). pose proof (value_64 r ltac:(lia)) as Hr64. unfold exactArith in He.
  destruct k; cbn [isShift] in Hi; cbn in Hi; unfold divide in Hi; cbn [arith].
  - injection Hi as <-. cbn. rewrite value_iadd by done. f_equal. apply wrap_exact; [lia..|done].
  - injection Hi as <-. cbn. rewrite value_isub by done. f_equal. unfold SVal.sub.
    apply orb_true_iff in He as [->%Z.eqb_eq|Hle%Z.leb_le]; [done|]. rewrite !wrap_small; lia.
  - injection Hi as <-. cbn. rewrite value_imul by done. f_equal. apply wrap_exact; [nia|lia|done].
  - destruct (Z.eqb_spec (value (ι r)) 0); cbn in Hi; [done|]. injection Hi as <-. cbn.
    unfold SVal.div. rewrite (proj2 (Z.eqb_neq _ _)) by done. by rewrite value_udiv.
  - destruct (Z.eqb_spec (value (ι r)) 0); cbn in Hi; [done|]. injection Hi as <-. cbn.
    unfold SVal.div. rewrite (proj2 (Z.eqb_neq _ _)) by done. rewrite value_sdiv by done.
    apply andb_true_iff in He as [Hn1 Hn2]. rewrite !nonneg_signed by done.
    rewrite Z.quot_div_nonneg by lia. rewrite wrap_small; [done|]. split; [apply Z.div_pos; lia|].
    eapply Z.le_lt_trans; [apply Z.div_le_upper_bound with (q := value (ι l)); nia|lia].
  - done.
  - done.
  - injection Hi as <-. cbn. by rewrite value_iand.
  - injection Hi as <-. cbn. by rewrite value_ior.
  - injection Hi as <-. cbn. by rewrite value_ixor.
  - apply andb_true_iff in He as [Hy%Z.ltb_lt He]. apply (executeShift_small _ _ _ 0) in Hi; [|done|lia..].
    rewrite Hi. unfold SVal.shl. rewrite (proj2 (Z.ltb_lt _ _)) by lia. f_equal. cbn.
    apply wrap_exact; [apply Z.shiftl_nonneg; lia|lia|done].
  - apply Z.ltb_lt in He. apply (executeShift_small _ _ _ 0) in Hi; [|done|lia..].
    rewrite Hi. unfold SVal.shr. by rewrite (proj2 (Z.ltb_lt _ _)) by lia.
  - apply andb_true_iff in He as [Hy%Z.ltb_lt Hn]. apply (executeShift_small _ _ _ 0) in Hi; [|done|lia..].
    rewrite Hi. unfold SVal.shr. rewrite (proj2 (Z.ltb_lt _ _)) by lia. f_equal. cbn.
    pose proof (nonneg_signed l Hn) as Hs. unfold svalue in Hs. rewrite Hs. symmetry. apply wrap_small.
    split; [apply Z.shiftr_nonneg; lia|]. rewrite Z.shiftr_div_pow2 by lia. pose proof (Z.pow_pos_nonneg 2 (value (ι r))).
    apply Z.div_lt_upper_bound; nia.
Qed.

(** The signed reading is the same at 64 bits and when it is not negative. *)
Lemma signed_exact l r : getBitWidth (ι l) = getBitWidth (ι r) -> getBitWidth (ι l) <= 64 ->
  (getBitWidth (ι l) =? 64) || (nonneg l && nonneg r) = true ->
  SVal.getSigned (value (ι l)) = signed (getBitWidth (ι l)) (value (ι l)) /\
  SVal.getSigned (value (ι r)) = signed (getBitWidth (ι l)) (value (ι r)).
Proof.
  intros Hw H64 [He%Z.eqb_eq|[Hl Hr]%andb_true_iff]%orb_true_iff; [by rewrite He|].
  assert (forall v, nonneg v = true -> getBitWidth (ι v) <= 64 -> SVal.getSigned (value (ι v)) = value (ι v)) as Hg.
  { intros v Hv Hwv. unfold SVal.getSigned, signed. rewrite (proj2 (Z.ltb_lt _ _)); [done|].
    unfold nonneg in Hv. apply Z.ltb_lt in Hv. eapply Z.lt_le_trans; [exact Hv|]. apply Z.pow_le_mono_r; [lia|].
    unfold SVal.width. lia. }
  pose proof (nonneg_signed l Hl). pose proof (nonneg_signed r Hr). unfold svalue in *. rewrite !Hg by (done || lia).
  split; [done|]. rewrite Hw. done.
Qed.
Lemma compare_agrees k l r bits : exact bits (ICmpInst k l r) = true ->
  cmp k (value (ι l)) (value (ι r)) = icmp k (ι l) (ι r).
Proof.
  cbn [exact]. intros [[Hw%Z.eqb_eq H64%Z.leb_le]%andb_true_iff He]%andb_true_iff. rewrite icmp_compare by done.
  rewrite <- orb_assoc in He. apply orb_true_iff in He as [Hu|He].
  - destruct k; try done; cbn; unfold SVal.eqb, SVal.uge, SVal.ugt; rewrite ?SVal.ult_spec, ?SVal.ule_spec;
      rewrite ?(Z.eqb_sym (value (ι r))); try done; zcases; cbn; lia.
  - destruct (signed_exact l r Hw H64 He) as [Hsl Hsr].
    destruct k; cbn; unfold SVal.eqb, SVal.uge, SVal.ugt, SVal.sge, SVal.sgt;
      rewrite ?SVal.ult_spec, ?SVal.ule_spec, ?SVal.slt_spec, ?SVal.sle_spec, ?Hsl, ?Hsr, ?(Z.eqb_sym (value (ι r)));
      try done; zcases; cbn; lia.
Qed.

Lemma value_bool (b : bool) : value (mkAPInt 1 (Z.b2z b)) = of_bool b.
Proof. rewrite value_mk by lia. by destruct b. Qed.
Lemma cast_agrees k op bits : exact bits (Annotator.CastInst k op) = true ->
  value (castInt k (ι op) bits) = value (ι op).
Proof.
  cbn [exact]. intros He. pose proof (value_range (ι op)). pose proof (width_pos (ι op)).
  destruct k; cbn [castInt].
  - apply Z.leb_le in He. by apply value_zext.
  - apply andb_true_iff in He as [Hw%Z.leb_le Hn]. rewrite value_sext, nonneg_signed by done. apply wrap_small.
    assert (2 ^ getBitWidth (ι op) <= 2 ^ bits) by (apply Z.pow_le_mono_r; lia). lia.
  - apply andb_true_iff in He as [[Hb%Z.ltb_lt Hw%Z.leb_le]%andb_true_iff Hv%Z.ltb_lt].
    rewrite value_trunc by done. apply wrap_small. lia.
Qed.

(** The interpreter computes remainders. *)
Lemma remainder_result k l r g bits : k = URem \/ k = SRem ->
  exact bits (BinaryInst k l r) = true -> interpret bits (BinaryInst k l r) = Ret g ->
  value (ι r) <> 0 /\ value (IntVal g) = value (ι l) mod value (ι r).
Proof.
  cbn [exact interpret]. intros Hk He Hi. apply andb_true_iff in He as [[Hw%Z.eqb_eq H64%Z.leb_le]%andb_true_iff He].
  pose proof (value_range (ι l)) as Hl. pose proof (value_range (ι r)) as Hr. unfold exactArith in He.
  destruct Hk as [->| ->]; cbn in Hi; unfold divide in Hi;
    (destruct (Z.eqb_spec (value (ι r)) 0) as [|Hz]; cbn in Hi; [done|]; injection Hi as <-; cbn; split; [done|]).
  - by apply value_urem.
  - apply andb_true_iff in He as [Hn1 Hn2]. rewrite value_srem, !nonneg_signed by done.
    rewrite Z.rem_mod_nonneg by lia. pose proof (Z.mod_pos_bound (value (ι l)) (value (ι r)) ltac:(lia)). rewrite <- Hw in Hr. apply wrap_small. lia.
Qed.

Lemma expression_annotates i d bits e g :
  inst i = Some d -> exact bits d = true -> generateInstExpr i = Ret e -> interpret bits d = Ret g ->
  denote (env value ι) e = annotated d (value (IntVal g)).
Proof.
  intros Hi Hex He Hg. unfold generateInstExpr in He. rewrite Hi in He.
  destruct d as [k op|op| |c t f|k l r|pred l r|integerTy indices agg| | | | | | | | | | | ]; try done.
  - ret_inv. subst e. cbn [denote annotated]. rewrite (operand_is _ _ E). f_equal.
    assert (intGV (castInt k (ι op) bits) = g) as <-.
    { cbn in Hg. destruct k; cbn in Hg; by injection Hg. }
    symmetry. by apply cast_agrees.
  - injection Hg as <-. cbn. by apply operand_is.
  - ret_inv. subst e. injection Hg as <-. unfold Select. cbn [denote annotated].
    rewrite (operand_is _ _ E), (operand_is _ _ E0), (operand_is _ _ E1). cbn. unfold SVal.getBool.
    by destruct (value (ι c) =? 0).
  - assert (k = SRem \/ k <> SRem) as [->|Hs] by (destruct k; auto); [by injection He as <-|].
    assert (exists x y, generateOperandExpr l = Ret x /\ generateOperandExpr r = Ret y /\
      e = ArithExpr k (primitiveSizeInBits i) x y) as (x & y & Hx & Hy & ->) by (destruct k; ret_inv; subst; eauto; done).
    cbn [denote]. rewrite (operand_is _ _ Hx), (operand_is _ _ Hy). cbn [mbind outcome_bind].
    assert (k = URem \/ k <> URem) as [->|Hu] by (destruct k; auto); [done|]. rewrite (binary_agrees k l r g bits) by done. by destruct k.
  - ret_inv. subst e. cbn [denote]. rewrite (operand_is _ _ E), (operand_is _ _ E0). cbn [mbind outcome_bind].
    rewrite (compare_agrees pred l r bits) by done. injection Hg as <-. cbn. by rewrite value_bool.
  - cbn [interpret] in Hg. destruct (extractsFromCAS integerTy indices agg) as [[cas compare]|]; [|done].
    injection Hg as <-. cbn [annotated]. case_bool_decide.
    + by apply operand_is.
    + ret_inv. subst e. cbn [denote]. rewrite (operand_is _ _ E), (operand_is _ _ E0). cbn. rewrite value_bool. unfold SVal.eqb. by rewrite Z.eqb_sym.
Qed.

End Annotations.

(** ** Annotations of loads *)
Section Loads.
Context `{IR : Annotator.IR} `{APIntLaws}.
Import Annotator AnnotatorFacts.

(** What the interpreter computes for an instruction, where its expression
    represents it: not for remainders, where widths or signs make a difference,
    or where the annotator has no expression for the instruction. *)
Definition isRemainder (d : Instr Value Block Function_) : bool :=
  match d with BinaryInst (URem | SRem) _ _ => true | _ => false end.
Definition computed (ι : Value -> APInt) (i : Value) : option APInt :=
  match inst i with
  | Some d =>
      if exact ι (primitiveSizeInBits i) d && negb (isRemainder d)
      then match interpret ι (primitiveSizeInBits i) d with Ret g => Some (IntVal g) | _ => None end
      else None
  | None => None
  end.
Lemma computed_represents : represents value computed.
Proof.
  intros ι i e a Hc _ Ha He. unfold computed in Ha. destruct (inst i) as [d|] eqn:Hi; [|done]. split; [by eexists|].
  destruct (exact ι (primitiveSizeInBits i) d) eqn:Hex; [|done]. destruct (isRemainder d) eqn:Hrem; [done|].
  cbn [andb negb] in Ha. destruct (interpret ι _ d) as [g| |] eqn:Hg; [|done..]. injection Ha as <-.
  rewrite (expression_annotates ι Hc i d _ e g Hi Hex He Hg).
  by destruct d as [| | | |[]| | | | | | | | | | | | |].
Qed.

End Loads.

(** ** Jumps *)
Section Jumps.
Context `{APIntOps} (isLittleEndian : bool) (ptrBits : Z) (code : Z -> Z -> list Inst).
#[local] Abbreviation operand := (operand isLittleEndian ptrBits).
#[local] Abbreviation switch := (SwitchToNewBasicBlock isLittleEndian ptrBits code).

Fixpoint phis (l : list Inst) : list (Z * list (Z * Operand)) :=
  match l with PHINode res incoming :: l => (res, incoming) :: phis l | _ => [] end.

Lemma readPhis_values prev SF l :
  (length (phis l) < length l)%nat ->
  (forall res incoming, (res, incoming) ∈ phis l -> exists v g, incomingFor prev incoming = Ret v /\ operand SF v = Ret g) ->
  exists gs, readPhis isLittleEndian ptrBits prev SF l = Ret gs /\
    Forall2 (fun p g => exists v, incomingFor prev (snd p) = Ret v /\ operand SF v = Ret g) (phis l) gs.
Proof.
  induction l as [|[] l IH]; cbn [phis length]; intros Hlen Hv; [lia|..]; cbn; try by eexists.
  destruct (Hv res incoming) as (v & g & Hi & Ho); [by left|]. rewrite Hi. cbn. rewrite Ho. cbn.
  destruct IH as (gs & Hgs & Hall); [lia|intros; eapply Hv; by right|]. rewrite Hgs. cbn.
  eexists. split; [done|]. constructor; eauto.
Qed.

Lemma writePhis_values l gs SF : (length (phis l) < length l)%nat -> length gs = length (phis l) -> NoDup (fst <$> phis l) ->
  exists SF', writePhis l gs SF = Ret SF' /\ CurBB SF' = CurBB SF /\ CurInst SF' = (CurInst SF + length (phis l))%nat /\
    (forall i res incoming g, phis l !! i = Some (res, incoming) -> gs !! i = Some g -> Values SF' !! res = Some g) /\
    (forall res, res ∉ (fst <$> phis l) -> Values SF' !! res = Values SF !! res).
Proof.
  revert gs SF. induction l as [|[] l IH]; intros gs SF Hlen Hgs Hnd; cbn [phis length] in *; [lia|..].
  12:{ destruct gs as [|g gs]; [done|]. apply NoDup_cons in Hnd as [Hres Hnd]. cbn [writePhis].
       destruct (IH gs (setPosition (CurBB SF) (S (CurInst SF)) (SetValue res g SF))) as (SF' & HSF & Hbb & Hci & Hset & Hkeep);
         [lia|cbn in *; lia|done|]. exists SF'. cbn in *. split_and!; [done|done|lia|..].
       - intros [|i] r inc g' Hp Hg; cbn in *; [|eauto]. injection Hp as <- <-. injection Hg as <-.
         rewrite Hkeep by done. by rewrite lookup_insert_eq.
       - intros r [Hr Hr']%not_elem_of_cons. rewrite Hkeep by done. by rewrite lookup_insert_ne. }
  all: exists SF; cbn; split_and!; [done|done|lia|by intros [] |done].
Qed.

(** Property C17. A jump executes the phis of its target at once: each gets the value
    its operand has before the jump, whichever phis are written before; other
    registers keep their values, and execution goes on after the phis. *)
Theorem SwitchToNewBasicBlock_parallel Dest SF :
  let l := code (CurFunction SF) Dest in
  (length (phis l) < length l)%nat -> NoDup (fst <$> phis l) ->
  (forall res incoming, (res, incoming) ∈ phis l ->
     exists v g, incomingFor (CurBB SF) incoming = Ret v /\ operand SF v = Ret g) ->
  exists SF', switch Dest SF = Ret SF' /\ CurBB SF' = Dest /\ CurInst SF' = length (phis l) /\
    (forall res incoming, (res, incoming) ∈ phis l ->
       exists v g, incomingFor (CurBB SF) incoming = Ret v /\ operand SF v = Ret g /\ Values SF' !! res = Some g) /\
    (forall res, res ∉ (fst <$> phis l) -> Values SF' !! res = Values SF !! res).
Proof.
  intros l Hlen Hnd Hv. unfold SwitchToNewBasicBlock. unfold block. cbn [CurFunction CurBB setPosition]. fold l.
  destruct (readPhis_values (CurBB SF) (setPosition Dest 0 SF) l Hlen Hv) as (gs & -> & Hall). cbn [mbind outcome_bind].
  destruct (writePhis_values l gs (setPosition Dest 0 SF) Hlen) as (SF' & -> & Hbb & Hci & Hset & Hkeep);
    [symmetry; by eapply Forall2_length|done|].
  exists SF'. split_and!; [done|done|done| |done].
  intros res incoming [i Hi]%list_elem_of_lookup.
  destruct (Forall2_lookup_l _ _ _ _ _ Hall Hi) as (g & Hg & v & Hin & Ho). eauto 10.
Qed.
End Jumps.

(** ** Examples *)

Lemma bitcast_roundtrip_witness :
  exists v, executeBitCastInst false (IntegerTy 32) (VectorTy 4 (IntegerTy 8)) (intGV (mkAPInt 32 0x01020304)) = Ret v /\
    length (AggregateVal v) = 4%nat /\
    executeBitCastInst false (VectorTy 4 (IntegerTy 8)) (IntegerTy 32) v = Ret (intGV (mkAPInt 32 0x01020304)).
Proof. apply (bitcast_roundtrip false 4 8); [lia|lia|reflexivity]. Defined.

(** The load of the example of InstAnnotatorFacts.v has read 7. *)
Definition sample_ints (v : AnnotatorFacts.Example.Val) : APInt :=
  match v with
  | AnnotatorFacts.Example.start => mkAPInt 32 7
  | AnnotatorFacts.Example.yes => mkAPInt 1 1
  | _ => mkAPInt 32 0
  end.
Lemma sample_constants : AnnotatorFacts.constants_hold (H := AnnotatorFacts.Example.program) value sample_ints.
Proof. intros [] c Hc; try discriminate Hc; injection Hc as <-; reflexivity. Qed.
(** After the load of 7 the assume fails: every step is represented. *)
Lemma sample_fails :
  exists s, rtc (AnnotatorFacts.Step (H := AnnotatorFacts.Example.program) value
                   (computed (IR := AnnotatorFacts.Example.program))) (sample_ints, AnnotatorFacts.Example.cmp) s /\
    AnnotatorFacts.Fails (H := AnnotatorFacts.Example.program) value s.
Proof.
  eexists (_, _). split.
  - eapply (rtc_l _ _ (_, _)); [eapply (AnnotatorFacts.step_inst (H := AnnotatorFacts.Example.program) value _); [reflexivity..|intros x; reflexivity]|].
    eapply (rtc_l _ _ (_, _)); [eapply (AnnotatorFacts.step_jump (H := AnnotatorFacts.Example.program) value _); [right; do 3 eexists; split; reflexivity|reflexivity|intros x; reflexivity]|].
    eapply (rtc_l _ _ (_, _)); [eapply (AnnotatorFacts.step_jump (H := AnnotatorFacts.Example.program) value _); [left; reflexivity|reflexivity|intros x; reflexivity]|].
    eapply (rtc_l _ _ (_, _)); [eapply (AnnotatorFacts.step_phi (H := AnnotatorFacts.Example.program) value _); reflexivity|]. apply rtc_refl.
  - eapply (AnnotatorFacts.assume_false (H := AnnotatorFacts.Example.program)); [reflexivity..|]. vm_compute. reflexivity.
Qed.

(** Two phis that swap their registers. *)
Definition swap_code (f b : Z) : list Inst :=
  let i32 r := Register r (IntegerTy 32) in
  [PHINode 1 [(0, i32 2)]; PHINode 2 [(0, i32 1)]; ReturnInst None].
Definition swap_context : ExecutionContext :=
  mkContext 0 0 0 None {[1 := intGV (mkAPInt 32 10); 2 := intGV (mkAPInt 32 20)]} [] [].
Lemma SwitchToNewBasicBlock_parallel_witness :
  exists SF', SwitchToNewBasicBlock true 64 swap_code 1 swap_context = Ret SF' /\
    Values SF' !! 1 = Some (intGV (mkAPInt 32 20)) /\ Values SF' !! 2 = Some (intGV (mkAPInt 32 10)).
Proof.
  destruct (SwitchToNewBasicBlock_parallel true 64 swap_code 1 swap_context) as (SF' & HSF & _ & _ & Hset & _).
  - cbn. lia.
  - apply (bool_decide_unpack _). by vm_compute.
  - intros res incoming [[= -> ->]|[[= -> ->]|[]%elem_of_nil]%elem_of_cons]%elem_of_cons; eexists _, _; by split.
  - exists SF'. split; [done|].
    destruct (Hset 1 [(0, Register 2 (IntegerTy 32))]) as (v & g & Hv & Hg & H1); [by left|].
    destruct (Hset 2 [(0, Register 1 (IntegerTy 32))]) as (v' & g' & Hv' & Hg' & H2); [right; by left|].
    injection Hv as <-. injection Hg as <-. injection Hv' as <-. injection Hg' as <-. by rewrite H1, H2.
Defined.
End OperationsFacts.
