(* ===== verification/Registers.v ===== *)
(** * Programs of functions, blocks and registers under the interpreter
    (src/src/Execution.cpp, Interpreter.cpp): the instances of the driver's and of
    the interpreter's interfaces whose stack frames are those of Contexts.v and
    whose values are those of Operations.v, and the step of the interpreter.

    A function is its address.  A frame is the outcome of what was done to it: a
    jump to a normal destination may be undefined, and so is the step it is part
    of.  Not modelled: external functions, the lowering of intrinsics LLVM does not
    pass through, names of variables. *)
From Stdlib Require Import String.
From stdpp Require Import strings.
From S2P Require Import Prelude Event SVal SAddr VSet SExpr Deps Views Labels LabelClasses Graph Bounds Revisits Interp RARace Execution MemoryModel Driver Schedule Handlers Explore Calls InternalNames Instructions Intrinsics FileSystem FsCalls Numbers Operations Contexts.
#[local] Open Scope Z_scope.

Module Registers.
Import Numbers Operations Contexts.

Section Code.
Context `{APIntOps}.

(** ** A module of LLVM *)

(** A declaration has no blocks. *)
Record Function := mkFunction {
  functionName : string; returnType : Operations.Typ; paramType0 : Operations.Typ;
  arguments : list Z; isVarArg : bool;
  blocks : list (list Inst);
  registerType : Z -> Operations.Typ }.
Record Code := mkCode {
  functions : Z -> option Function;
  mainFunction : Z; recoveryRoutine : Z;
  statics : list (Z * Z); initialValue : AAccess -> Z; strings : Z -> string;
  threadLocals : gmap Z GenericValue }.
(** The target machine. *)
Record Target := mkTarget { isLittleEndian : bool; ptrBits : Z; allocSize : Operations.Typ -> Z }.

Context (code : Code) (T : Target).
Definition Frame : Type := outcome ExecutionContext.

Definition function (F : Z) : outcome Function := match functions code F with Some fn => Ret fn | None => Undef end.
Definition blockOf (F bb : Z) : list Inst :=
  match functions code F with Some fn => default [] (blocks fn !! Z.to_nat bb) | None => [] end.
#[local] Abbreviation operand := (operand (isLittleEndian T) (ptrBits T)).
#[local] Abbreviation currentInst := (currentInst blockOf).

(** ** Values *)

Definition GVTOP (g : GenericValue) : Z := match PointerVal g with Ret p => p | _ => 0 end.
Definition getLimitedValue (g : GenericValue) : Z := Z.min (value (IntVal g)) (2 ^ 64 - 1).
Definition isIntegerTy (t : Operations.Typ) : bool := match t with IntegerTy _ => true | _ => false end.
Definition integerGV (t : Operations.Typ) (v : Z) : GenericValue := intGV (mkAPInt (getPrimitiveSizeInBits t) v).
Definition toSVal (t : Operations.Typ) (g : GenericValue) : Z := if isIntegerTy t then getLimitedValue g else GVTOP g.

(** ** Frames *)

(** [callFunction], on a function that has a body. *)
Definition setArguments (fn : Function) (ArgVals : list GenericValue) (SF : ExecutionContext) : ExecutionContext :=
  foldl (fun SF p => Contexts.SetValue (fst p) (snd p) SF) SF (zip (arguments fn) ArgVals).
Definition newFrame (F : Z) (fn : Function) (ArgVals : list GenericValue) : outcome ExecutionContext :=
  let n := length (arguments fn) in
  if bool_decide (length ArgVals = n) || (bool_decide (n < length ArgVals)%nat && isVarArg fn)
  then Ret (setArguments fn ArgVals (mkContext F 0 0 None ∅ (drop n ArgVals) []))
  else Undef.
Definition functionFrame (F : Z) (ArgVals : list GenericValue) : Frame := fn ← function F; newFrame F fn ArgVals.
(** A thread's function has one parameter, or none. *)
Definition threadFrame (F arg : Z) : Frame :=
  fn ← function F;
  let SF := mkContext F 0 0 None ∅ [] [] in
  Ret (match arguments fn with r :: _ => Contexts.SetValue r (pointerGV arg) SF | [] => SF end).

Definition resultOf (i : Inst) : option Z :=
  match i with
  | BinaryOperator r _ _ _ | ShiftOperator r _ _ _ | CmpInst r _ _ _ | SelectInst r _ _ _ | CastInst r _ _ _
  | GetElementPtrInst r _ _ | ExtractElementInst r _ _ _ | InsertElementInst r _ _ _ _ | ShuffleVectorInst r _ _ _ _
  | ExtractValueInst r _ _ _ | InsertValueInst r _ _ _ _ | PHINode r _ | LoadInst r _ _ _ _ _
  | AtomicCmpXchgInst r _ _ _ _ _ | AtomicRMWInst r _ _ _ _ _ | AllocaInst r _ _ _ | VAArgInst r _ _ => Some r
  | CallInst c _ _ => Some (callResult c)
  | _ => None
  end.
(** [CurInst->getPrevNode()] *)
Definition previousInst (SF : ExecutionContext) : option Inst :=
  match CurInst SF with O => None | S i => block blockOf SF !! i end.

(** The load is not concretised itself. *)
Definition getCurrentAnnotConcretized (SF : ExecutionContext) : option (SExprOps.SExpr Z) :=
  match previousInst SF with
  | Some (LoadInst res _ _ _ _ (Some annot)) =>
      let typ r := match functions code (CurFunction SF) with Some fn => registerType fn r | None => VoidTy end in
      Some (SExprOps.concretize annot (fun r =>
        if r =? res then None
        else (fun g => (toSVal (typ r) g, ASize.make (u32 (allocSize T (typ r)) * 8))) <$> Values SF !! r))
  | _ => None
  end.

(** ** The instances *)

Definition nextIsLoad (SF : ExecutionContext) : bool :=
  match block blockOf SF !! CurInst SF with
  | Some (LoadInst _ _ _ _ _ _) | Some (AtomicCmpXchgInst _ _ _ _ _ _) | Some (AtomicRMWInst _ _ _ _ _ _) => true
  | Some (CallInst _ (Called (GlobalAddress F)) _) =>
      match functions code F with Some fn => InternalNames.hasGlobalLoadSemantics (functionName fn) | None => false end
  | _ => false
  end.
Context (RNG : Type) (uniform : Z -> Z -> RNG -> Z * RNG) (N : LongDouble).
Definition program : Program :=
  {| Driver.Frame := Frame; Driver.GenericValue := GenericValue; threadLocalVars := threadLocals code;
     Driver.nextIsLoad f := match f with Ret SF => nextIsLoad SF | _ => false end;
     startFrame ti := threadFrame (ti_funId ti) (ti_arg ti);
     frameAnnot f := match f with Ret SF => getCurrentAnnotConcretized SF | _ => None end;
     mainFun := mainFunction code; recoveryFun := recoveryRoutine code;
     mainStack := [functionFrame (mainFunction code) []];
     recoveryStack := [functionFrame (recoveryRoutine code) []];
     staticAllocas := statics code; getLocInitVal := initialValue code;
     Driver.RNG := RNG; Driver.uniform := uniform; numbers := N |}.

Definition onContext (f : ExecutionContext -> outcome ExecutionContext) (fr : Frame) : Frame := SF ← fr; f SF.
Definition unknown : Function := mkFunction EmptyString VoidTy VoidTy [] false [] (fun _ => VoidTy).
Definition machine : Machine (P := program) :=
  mkMachine program
    GVTOP getLimitedValue (fun g => getZExtValue (IntVal g)) (fun g => 0 <? svalue (IntVal g))
    (fun g => negb (value (IntVal g) =? 0))
    (** types *)
    Operations.Typ isIntegerTy (fun t => 2 ^ (getPrimitiveSizeInBits t - 1)) (allocSize T) (fun _ => PointerTy) VoidTy
    (IntegerTy 8) integerGV pointerGV
    (** functions *)
    Function functionName returnType paramType0 (fun F => F)
    (fun F => match functions code F with Some fn => Z.of_nat (length (arguments fn)) | None => 0 end)
    (** frames *)
    (onContext (fun SF => Ret (setPosition (CurBB SF) (pred (CurInst SF)) SF)))
    (fun s => onContext (fun SF => S0 ← s; Ret (setPosition (CurBB SF) (CurInst (S0 : ExecutionContext)) SF)))
    (fun _ g => onContext (returnTo (isLittleEndian T) (ptrBits T) blockOf g))
    (fun f => match f with Ret SF => Allocas SF | _ => [] end)
    (fun f => match f with
              | Ret SF => match previousInst SF with Some i => default 0 (resultOf i) | None => 0 end
              | _ => 0 end)
    (fun F => functionFrame F []) (strings code).

(** The operands of an instruction that reaches the driver. *)
Definition operandsOf (i : Inst) : list Operand :=
  match i with
  | LoadInst _ _ _ ptr _ _ => [ptr]
  | StoreInst _ val ptr _ => [val; ptr]
  | AtomicCmpXchgInst _ _ ptr cmp new _ => [cmp; new; ptr]
  | AtomicRMWInst _ _ _ ptr val _ => [ptr; val]
  | AllocaInst _ _ num _ => [num]
  | _ => []
  end.
Definition evaluate (o : option Operand) (f : Frame) : GenericValue :=
  match f, o with
  | Ret SF, Some o => match operand SF o with Ret g => g | _ => newGV end
  | _, _ => newGV
  end.
Definition instructions : Instructions (P := program) (H := machine) :=
  mkInstructions program machine
    Inst
    (fun i => evaluate match i with
       | LoadInst _ _ _ p _ _ | StoreInst _ _ p _ | AtomicCmpXchgInst _ _ p _ _ _ | AtomicRMWInst _ _ _ p _ _ => Some p
       | _ => None end)
    (fun i => evaluate match i with StoreInst _ v _ _ | AtomicRMWInst _ _ _ _ v _ => Some v | _ => None end)
    (fun i => evaluate match i with AtomicCmpXchgInst _ _ _ c _ _ => Some c | _ => None end)
    (fun i => evaluate match i with AtomicCmpXchgInst _ _ _ _ n _ => Some n | _ => None end)
    (fun i => match i with
       | LoadInst _ ty _ _ _ _ => ty
       | StoreInst _ v _ _ | AtomicRMWInst _ _ _ _ v _ => typeOf v
       | AtomicCmpXchgInst _ _ _ c _ _ => typeOf c
       | _ => VoidTy end)
    (fun i => match i with
       | LoadInst _ _ o _ _ _ | StoreInst o _ _ _ | FenceInst o | AtomicRMWInst _ _ o _ _ _ => o
       | _ => NotAtomic end)
    (fun i => match i with AtomicCmpXchgInst _ o _ _ _ _ => o | _ => NotAtomic end)
    (fun i => match i with AtomicRMWInst _ op _ _ _ _ => op | _ => 0 end)
    (fun i => match i with
       | LoadInst _ _ _ _ a _ | StoreInst _ _ _ a | AtomicCmpXchgInst _ _ _ _ _ a | AtomicRMWInst _ _ _ _ _ a => a
       | _ => None end)
    (fun i g => match resultOf i with Some r => onContext (fun SF => Ret (Contexts.SetValue r g SF)) | None => id end)
    (** integers *)
    (fun g => getBitWidth (IntVal g))
    (fun g n off => Z.land (Z.shiftr (value (IntVal g)) off) (Z.ones n))
    getPrimitiveSizeInBits (fun t => bool_decide (t = PointerTy)) (ptrBits T / 8) (IntegerTy 1)
    (fun a b t => match executeICMP SExprOps.Eq a b t with Ret g => g | _ => newGV end) vectorGV.
End Code.

(** ** The interpreter's step *)

Import Drv Handlers Calls Instructions Intrinsics FsCalls.

Section Step.
Context `{APIntOps} (code : Code) (T : Target) {RNG : Type} {uniform : Z -> Z -> RNG -> Z * RNG} {N : LongDouble}.
#[local] Instance code_program : Program := program code T RNG uniform N.
#[local] Instance code_machine : Machine := machine code T RNG uniform N.
#[local] Instance code_instructions : Instructions := instructions code T RNG uniform N.
Context `{C : Config} `{MM : MemoryModel} `{Fs : !FsInfo}.
#[local] Abbreviation operand := (operand (isLittleEndian T) (ptrBits T)).
#[local] Abbreviation GenericValue := Operations.GenericValue.

(** The top frame. *)
Definition currentSF : M ExecutionContext := f ← topFrame; lift f.
Definition setSF (SF : ExecutionContext) : M unit := inTopFrame (P := code_program) (fun _ => Ret SF).

Section Visit.
(** [runAtExitHandlers] *)
Context (atExit : M unit).

Definition callFunction (F : Z) (ArgVals : list GenericValue) : M unit :=
  fn ← lift (function code F);
  if is_panic fn || InternalNames.isInternalFunction (functionName fn)
  then callProvided fn ArgVals atExit
  else if bool_decide (blocks fn = []) then lift Undef
  else
    SF ← lift (newFrame F fn ArgVals);
    inCurThread (fun t => Interp.setECStack (Interp.ECStack t ++ [Ret SF]) t).

(** The call is past in [SF]. *)
Definition visitCallInstWrapper (call : CallSite) (callee : Callee) (args : list Operand) (SF : ExecutionContext) : M unit :=
  match callee with
  | InlineAsm | VAEnd => mret tt
  | VAStart =>
      t ← curThread;
      let ArgIndex := withUnion (UIntPairMember (Z.of_nat (length (Interp.ECStack t)) - 1) 0) newGV in
      setSF (Contexts.SetValue (callResult call) ArgIndex SF)
  | VACopy =>
      g ← lift (match args with a :: _ => operand SF a | [] => Undef end);
      setSF (Contexts.SetValue (callResult call) g SF)
  | Called f =>
      let SF := setCaller (Some call) SF in
      setSF SF;;
      ArgVals ← lift (mapM (operand SF) args);
      SRC ← lift (operand SF f);
      callFunction (GVTOP SRC) ArgVals
  end.

Definition visitReturnInst (val : option Operand) (SF : ExecutionContext) : M unit :=
  r ← lift (returned (isLittleEndian T) (ptrBits T) val SF);
  popStackAndReturnValueToCaller atExit (fst r) (snd r).

Definition visitAllocaInst (res : Z) (allocatedTy : Operations.Typ) (num : Operand) (align : Z) (SF : ExecutionContext) : M unit :=
  n ← lift (operand SF num);
  let NumElements := u32 (getZExtValue (IntVal n)) in
  let MemToAlloc := Z.max 1 (u32 (NumElements * u32 (allocSize T allocatedTy))) in
  result ← CALL_DRIVER false (fun pos =>
    handleMalloc (Make.MallocLabel pos NotAtomic 0 MemToAlloc (u32 align) SD_Automatic ST_Volatile AS_User EmptyString
                    DepInfo.no_deps));
  SF ← currentSF;
  setSF (Contexts.SetValue res (pointerGV result) (addAlloca result SF)).

(** Instructions that reach the driver or other frames. *)
Definition visitGlobal (i : Inst) (SF : ExecutionContext) : M unit :=
  _ ← lift (mapM (operand SF) (operandsOf i));
  match i with
  | LoadInst _ _ _ _ _ _ => visitLoadInst i
  | StoreInst _ _ _ _ => visitStoreInst i
  | FenceInst _ => visitFenceInst i
  | AtomicCmpXchgInst _ _ _ _ _ _ => visitAtomicCmpXchgInst i
  | AtomicRMWInst _ _ _ _ _ _ => visitAtomicRMWInst i
  | AllocaInst res ty num align => visitAllocaInst res ty num align SF
  | VAArgInst res ty valist =>
      t ← curThread;
      stack ← lift (mapM (fun f : Frame => f) (Interp.ECStack t));
      SF ← lift (visitVAArgInst (isLittleEndian T) (ptrBits T) stack res ty valist SF);
      setSF SF
  | CallInst call callee args => visitCallInstWrapper call callee args SF
  | ReturnInst val => visitReturnInst val SF
  | _ => lift Undef
  end.
(** What was done to the frames is defined. *)
Definition checkFrames : M unit :=
  t ← curThread; _ ← lift (mapM (fun f : Frame => f) (Interp.ECStack t)); mret tt.

(** [Instruction &I = *SF.CurInst++; visit(I)] *)
Definition visitInst : M unit :=
  SF ← currentSF;
  i ← lift (currentInst (blockOf code) SF);
  r ← lift (visitLocal (isLittleEndian T) (ptrBits T) (blockOf code) SF);
  (match r with
   | Some SF => setSF SF
   | None =>
       let SF := setPosition (CurBB SF) (S (CurInst SF)) SF in
       setSF SF;; visitGlobal i SF
   end);;
  checkFrames.

End Visit.

(** The loops take fuel, and are undefined without.  While handlers run the state of
    the program is [Dtors], in which the main thread runs none. *)
Definition run (fuel : nat) (I : M unit) : M unit :=
  ended ← Explore.loop fuel (Explore.run_step I); if ended : bool then mret tt else lift Undef.
Definition runAtExitHandlers (fuel : nat) (run : M unit) : M unit :=
  oldState ← gets (fun d => Interp.programState (EE d));
  set_state Interp.Dtors;;
  ended ← Explore.loop fuel (exit_handler run);
  if ended : bool then set_state oldState else lift Undef.
Definition visit (fuel : nat) : M unit := visitInst (runAtExitHandlers fuel (run fuel (visitInst (lift Undef)))).

(** The driver's answer: how many complete and blocked executions, and an error. *)
Definition verify (r e : RNG) (fuel : nat) : outcome (bool * (Z * Z * VerificationError)) :=
  d ← Explore.make_driver VerificationMode r e;
  r ← Explore.explore (visit fuel) fuel d;
  let res := result (snd r) in
  Ret (fst r, (explored res, exploredBlocked res, status res)).
End Step.
End Registers.
