(* ===== verification/RegistersFacts.v ===== *)
(** * Programs with registers, branches, loops and calls, explored from end to end
    (properties of Registers.v). *)
From Stdlib Require Import String.
From stdpp Require Import strings.
From S2P Require Import Prelude Event SVal SAddr VSet SExpr Deps Views Labels LabelClasses Graph Bounds Revisits Interp RARace Execution MemoryModel Driver Schedule Handlers Explore Calls InternalNames Instructions Intrinsics FileSystem FsCalls Programs Frames FramesDriver FramesCalls ExploreFacts SoundFacts Numbers Operations Contexts Registers.
#[local] Open Scope Z_scope.

Module RegistersFacts.
Import Intrinsics Frames FramesDriver FramesCalls Numbers Operations Contexts Registers.

(** ** Programs *)

Section Programs.
Let i32 : Typ := IntegerTy 32.
Definition const (n : Z) : Operand := ConstantValue (intGV (mkAPInt 32 n)) i32.
Definition reg (r : Z) : Operand := Register r i32.
Definition x : Operand := GlobalAddress (2 ^ 63).
Definition y : Operand := GlobalAddress (2 ^ 63 + 8).
#[local] Abbreviation rlx := Monotonic.
Definition load (r : Z) (ord : AtomicOrdering) (p : Operand) : Inst := LoadInst r i32 ord p None None.
Definition store (ord : AtomicOrdering) (v : Z) (p : Operand) : Inst := StoreInst ord (const v) p None.
Definition add (r : Z) (a b : Operand) : Inst := BinaryOperator r (IntOp SExprOps.Add) a b.
Definition compare (r : Z) (k : SExprOps.CmpKind) (a b : Operand) : Inst := CmpInst r (IntPredicate k) a b.
Definition branch (r ifTrue ifFalse : Z) : Inst := CondBranchInst (Register r (IntegerTy 1)) ifTrue ifFalse.
Definition call (r F : Z) (args : list Operand) : Inst := CallInst (mkCallSite r i32 None) (Called (GlobalAddress F)) args.
Definition invoke (F : Z) (args : list Operand) : Inst := CallInst (mkCallSite 0 VoidTy None) (Called (GlobalAddress F)) args.

Definition provided (F : Z) : option Function :=
  let f name := Some (mkFunction name i32 i32 [] true [] (fun _ => i32)) in
  if F =? 101 then f "__VERIFIER_thread_create"%string
  else if F =? 102 then f "__VERIFIER_thread_join"%string
  else if F =? 103 then f "__VERIFIER_assert_fail"%string
  else if F =? 104 then f "__VERIFIER_assume"%string
  else if F =? 105 then f "__VERIFIER_atexit"%string
  else None.
Definition create (r F : Z) : Inst := call r 101 [const 0; GlobalAddress F; const 0].
Definition join (r : Z) : Inst := call 90 102 [reg r].
Definition fail : Inst := invoke 103 [].
(** Function 1 is the main function; the arguments of a function are registers. *)
Definition program_of (fs : list (list Z * list (list Inst))) : Code :=
  mkCode (fun F => match fs !! Z.to_nat (F - 1) with
                   | Some (args, bs) => if F <? 100 then Some (mkFunction "f" i32 i32 args false bs (fun _ => i32)) else None
                   | None => provided F end)
    1 0 [(2 ^ 63, 2 ^ 63 + 800)] (fun _ => 0) (fun _ => EmptyString) ∅.
Definition target : Target :=
  mkTarget true 64 (fun t => match t with IntegerTy w => (w + 7) / 8 | FloatTy => 4 | _ => 8 end).

(** Message passing: the data are looked at if the flag is set. *)
Definition FLAG (w r : AtomicOrdering) : Code := program_of
  [([], [[create 1 2; create 2 3; ReturnInst None]]);
   ([], [[store rlx 42 x; store w 1 y; ReturnInst None]]);
   ([], [[load 1 r y; compare 2 SExprOps.Ne (reg 1) (const 0); branch 2 1 3];
         [load 3 rlx x; compare 4 SExprOps.Eq (reg 3) (const 42); branch 4 3 2];
         [fail; ReturnInst None];
         [ReturnInst None]])].
(** Two threads that count to [n] each, by one instruction or by two; the total is
    looked at when both are joined. *)
Definition COUNTERS (n : Z) (count : list Inst) : Code := program_of
  [([], [[create 1 2; create 2 2; join 1; join 2; load 3 rlx x; compare 4 SExprOps.Eq (reg 3) (const (2 * n)); branch 4 2 1];
         [fail; ReturnInst None];
         [ReturnInst None]]);
   ([], [[BranchInst 1];
         PHINode 1 [(0, const 0); (1, reg 2)] :: count ++
           [add 2 (reg 1) (const 1); compare 3 SExprOps.Ult (reg 2) (const n); branch 3 1 2];
         [ReturnInst None]])]%list.
Definition atomically : list Inst := [AtomicRMWInst 10 Interp.Add rlx x (const 1) None].
Definition in_two_steps : list Inst := [load 10 rlx x; add 11 (reg 10) (const 1); StoreInst rlx (reg 11) x None].

(** A recursive function, and a variable of its frame. *)
Definition FACTORIAL (n result : Z) : Code := program_of
  [([], [[call 1 2 [const n]; compare 2 SExprOps.Eq (reg 1) (const result); branch 2 2 1];
         [fail; ReturnInst None];
         [ReturnInst None]]);
   ([1], [[AllocaInst 2 i32 (const 1) 4; StoreInst NotAtomic (reg 1) (Register 2 PointerTy) None;
           compare 3 SExprOps.Ule (reg 1) (const 1); branch 3 1 2];
          [ReturnInst (Some (const 1))];
          [BinaryOperator 4 (IntOp SExprOps.Sub) (reg 1) (const 1); call 5 2 [reg 4];
           load 6 NotAtomic (Register 2 PointerTy);
           BinaryOperator 7 (IntOp SExprOps.Mul) (reg 6) (reg 5); ReturnInst (Some (reg 7))]])].

(** A lock taken by a compare-and-exchange, and a reading and a writing behind it. *)
Definition SPINLOCK (unlock : AtomicOrdering) : Code :=
  let enter := [[AtomicCmpXchgInst 1 Acquire y (const 0) (const 1) None;
                 ExtractValueInst 2 (IntegerTy 1) [1] (Register 1 StructTy); branch 2 1 2];
                [load 3 NotAtomic x; add 4 (reg 3) (const 1); StoreInst NotAtomic (reg 4) x None; store unlock 0 y;
                 ReturnInst None];
                [ReturnInst None]] in
  program_of [([], [[create 1 2; create 2 2; ReturnInst None]]); ([], enter)].

(** Peterson's algorithm, its waiting turned into an assumption. *)
Definition PETERSON : Code :=
  let at_ i := GlobalAddress (2 ^ 63 + 16 + 8 * i) in
  let thread me other :=
    [[store Release 1 (at_ me); store Release other y;
      load 1 Acquire (at_ other); compare 2 SExprOps.Eq (reg 1) (const 0);
      load 3 Acquire y; compare 4 SExprOps.Eq (reg 3) (const me);
      BinaryOperator 5 (IntOp SExprOps.Or) (Register 2 (IntegerTy 1)) (Register 4 (IntegerTy 1));
      CastInst 6 (IntCast SExprOps.ZExt) i32 (Register 5 (IntegerTy 1)); invoke 104 [reg 6];
      load 7 NotAtomic x; StoreInst NotAtomic (reg 7) x None; store Release 0 (at_ me); ReturnInst None]] in
  program_of [([], [[create 1 2; create 2 3; ReturnInst None]]); ([], thread 0 1); ([], thread 1 0)].

(** A handler registered with [atexit]. *)
Definition ATEXIT (expected : Z) : Code := program_of
  [([], [[store rlx 1 x; call 1 105 [GlobalAddress 2]; store rlx 2 x; ReturnInst None]]);
   ([], [[load 1 rlx x; compare 2 SExprOps.Eq (reg 1) (const expected); branch 2 2 1]; [fail; ReturnInst None]; [ReturnInst None]])].
End Programs.

Section Verify.
Context (code : Code).
#[local] Instance fs : FsInfo (H := machine code target unit (fun _ _ r => (0, r)) Programs.no_numbers) :=
  let eight i := 8 * i in
  mkFsInfo _ (machine code target unit (fun _ _ r => (0, r)) Programs.no_numbers) (IntegerTy 64) (IntegerTy 64) (IntegerTy 32)
    eight eight 4 64 ordered true [] 0 true 0 (IntegerTy 32).
Definition verify (fuel : nat) : outcome (bool * (Z * Z * VerificationError)) :=
  Registers.verify code target (C := Programs.config true) (MM := RADriver) (Fs := fs) tt tt fuel.
End Verify.

(** Programs with registers, branches, loops, calls and local variables
    have the executions and verdicts they should, from the creation of the driver
    to its answer.  Message passing whose reader looks at the data behind a branch
    has two executions and its assertion holds, unless the flag is written without
    release or read without acquire.  Two threads that each count to [n] in a loop, by an
    atomic increment, reach [2n], in as many orders as there are; with a load and
    a store the assertion fails.  A recursive function with a variable in each frame
    computes the factorial.  A lock made of a compare-and-exchange protects what is
    behind it if it is released by a release store, and a race is reported if not;
    Peterson's algorithm does not protect it under this memory model.  A handler
    registered with [atexit] sees what the main function did last. *)
Example register_programs :
  let ends n k e := Ret (true, (n, k, e)) in
  let run code := verify code 1000 in
  run (FLAG Release Acquire) = ends 2 0 VE_OK /\
  run (FLAG Monotonic Acquire) = ends 2 0 VE_Safety /\ run (FLAG Release Monotonic) = ends 2 0 VE_Safety /\
  run (COUNTERS 1 atomically) = ends 2 0 VE_OK /\ run (COUNTERS 2 atomically) = ends 6 0 VE_OK /\
  run (COUNTERS 3 atomically) = ends 20 0 VE_OK /\
  run (COUNTERS 1 in_two_steps) = ends 2 0 VE_Safety /\
  run (FACTORIAL 5 120) = ends 1 0 VE_OK /\ run (FACTORIAL 5 121) = ends 1 0 VE_Safety /\
  run (SPINLOCK Release) = ends 4 0 VE_OK /\ run (SPINLOCK Monotonic) = ends 1 0 VE_RaceNotAtomic /\
  run PETERSON = ends 2 1 VE_RaceNotAtomic /\
  run (ATEXIT 2) = ends 1 0 VE_OK /\ run (ATEXIT 1) = ends 1 0 VE_Safety.
Proof. cbv zeta. repeat split; vm_compute; reflexivity. Qed.

(** Of an annotation over the load and another register, the other one is replaced. *)
Example annotation_concretized :
  let annot := SExprOps.CmpExpr SExprOps.Ult (SExprOps.RegisterExpr 32 1 EmptyString) (SExprOps.RegisterExpr 32 2 EmptyString) in
  let code := program_of [([], [[LoadInst 1 (IntegerTy 32) Acquire y None (Some annot); ReturnInst None]])] in
  getCurrentAnnotConcretized code target (mkContext 1 0 1 None {[1 := intGV (mkAPInt 32 5); 2 := intGV (mkAPInt 32 7)]} [] []) =
  Some (SExprOps.CmpExpr SExprOps.Ult (SExprOps.RegisterExpr 32 1 EmptyString) (SExprOps.ConcreteExpr 32 7)).
Proof. vm_compute. reflexivity. Qed.

(** ** Every such program keeps what the methods of the driver keep *)

Section Keeps.
Context `{APIntOps} (code : Code) (T : Target) {RNG : Type} {uniform : Z -> Z -> RNG -> Z * RNG} {N : LongDouble}.
#[local] Instance code_program : Program := program code T RNG uniform N.
#[local] Instance code_machine : Machine := machine code T RNG uniform N.
Context `{C : Config} `{MM : MemoryModel} `{Fs : !FsInfo}.
Context {R : Driver -> Driver -> Prop} `{WR : !WorkFraming R}.

Lemma currentSF_keeps : Keeps R (currentSF code T).
Proof. unfold currentSF. calls. apply (topFrame_keeps (P := code_program)). Qed.
Lemma setSF_keeps SF : Keeps R (setSF code T SF).
Proof. apply (inTopFrame_keeps (P := code_program)). Qed.
Hint Resolve currentSF_keeps setSF_keeps : keeps.
Section Visit.
Context (atExit : M unit) (Hx : Keeps R atExit).
Lemma callFunction_keeps F args : Keeps R (callFunction code T (Fs := Fs) atExit F args).
Proof. unfold callFunction. calls. Qed.
Hint Resolve callFunction_keeps : keeps.
Lemma visitCall_keeps call callee args SF : Keeps R (visitCallInstWrapper code T (Fs := Fs) atExit call callee args SF).
Proof. unfold visitCallInstWrapper. calls. Qed.
Hint Resolve visitCall_keeps : keeps.
Lemma visitGlobal_keeps i SF : Keeps R (visitGlobal code T (Fs := Fs) atExit i SF).
Proof.
  unfold visitGlobal, visitReturnInst, visitAllocaInst.
  calls. apply (curThread_keeps (P := code_program)).
Qed.
Lemma visitInst_keeps : Keeps R (visitInst code T (Fs := Fs) atExit).
Proof.
  unfold visitInst, checkFrames. calls; [apply visitGlobal_keeps|apply (curThread_keeps (P := code_program))].
Qed.
End Visit.

Lemma loop_keeps n (body : M bool) : Keeps R body -> Keeps R (Explore.loop n body).
Proof. intros Hb. induction n as [|n IH]; cbn; calls. Qed.
Hint Resolve loop_keeps run_step_keeps : keeps.
Lemma exit_handler_keeps (r : M unit) : Keeps R r -> Keeps R (exit_handler r).
Proof. intros Hr. unfold exit_handler, enter. calls. by apply inEE_keeps; intros e e' [= <-]. Qed.
Lemma run_keeps n I : Keeps R I -> Keeps R (run code T n I).
Proof.
  intros HI. unfold run. apply keeps_bind; [by apply loop_keeps, run_step_keeps|]. intros []; calls.
Qed.
Lemma runAtExitHandlers_keeps n (r : M unit) : Keeps R r -> Keeps R (runAtExitHandlers code T n r).
Proof.
  intros Hr. unfold runAtExitHandlers, set_state. apply keeps_bind; [calls|]. intros s.
  apply keeps_bind; [by apply inEE_keeps, setProgramState_ids|]. intros _.
  apply keeps_bind; [by apply loop_keeps, exit_handler_keeps|]. intros []; [by apply inEE_keeps, setProgramState_ids|calls].
Qed.
Lemma program_step_keeps n : Keeps R (visit code T (Fs := Fs) n).
Proof.
  unfold visit. apply visitInst_keeps, runAtExitHandlers_keeps, run_keeps, visitInst_keeps, keeps_lift.
Qed.
End Keeps.

(** With enough fuel the handlers run as the loop of the code runs them. *)
Lemma runAtExitHandlers_runs `{APIntOps} code T {RNG} {uniform} {N} `{C : Config} `{MM : MemoryModel} (r : M unit) d d' :
  let P := program code T RNG uniform N in
  (exists n, runAtExitHandlers code T n r d = Ret (tt, d')) <->
  RunsAtExitHandlers (P := P) (Mc := machine code T RNG uniform N) r d d'.
Proof.
  cbv zeta. unfold runAtExitHandlers, RunsAtExitHandlers, mbind, M_bind, gets. cbv beta iota. split.
  - intros [n E]. revert E. case_match eqn:E1; [|done..]. destruct a as [[] d1].
    case_match eqn:El; [|done..]. destruct a as [[] d2]; [|done]. intros E.
    exists d1, d2. split; [exact E1|]. split; [|exact E]. apply Explore.loop_Loop. by exists n.
  - intros (d1 & d2 & E1 & [n El]%Explore.loop_Loop & E2). exists n.
    do 2 (match goal with
          | |- match ?t with _ => _ end = _ =>
              first [replace t with (Ret (tt, d1)) by (symmetry; exact E1)|replace t with (Ret (true, d2)) by (symmetry; exact El)]
          end; cbv iota).
    exact E2.
Qed.
End RegistersFacts.
