(* ===== verification/GraphTables.v ===== *)
(** * Graphs as matrices and as adjacency lists (src/Matrix2D.hpp, src/Matrix2D.tcc, src/AdjList.hpp, src/AdjList.tcc)

    The two containers for a relation over the elements of a vector.  No other part of
    the program uses them.  [Matrix]: a flat vector of bytes with one per pair; edges,
    in-degrees, one topological sorting (Kahn's algorithm), all of them, and the
    combinations of those of several matrices, irreflexivity and the transitive closure.
    [AdjList]: a list of successors per node; nodes and edges, the depth-first exploration
    with its callbacks, and what is built from it (a topological sorting, the transitive
    closure), and the enumerations of sortings.  [Sortings]: the enumerations, whose code is
    the same in both but for the loop over the successors.

    - An edge of a matrix is a byte other than 0, at the index [computeIndex] of the build
      without __MATRIX_2D_INCREMENTAL__, which no build file sets.
    - [int] arithmetic of [binSearch] and [transClosure] that leaves the type,
      and an index outside a vector, is [Undef].
    - A property that is called on a sorting ([F &&prop]) is a function of the sorting.
    - [ids], an unordered_map, is a [gmap]: nothing iterates over it. Its [at]
      throws without the key ([Undef]).
    - A row of [transC], a BitVector, is a list of booleans. Reading or setting a
      bit past its end is [Undef] (an assertion of LLVM); [|=] makes the row as
      long as the other one first.
    - The callbacks of [dfs] get the state of the exploration by reference, and
      what they capture: they are functions on the pair of both.
    - Fuel: the number of elements for [topoSort], since none is pushed twice, and one more
      for [allTopoSortUtil], where a call schedules an element or is a leaf; the number of
      nodes for [dfsUtil], since a call enters an unseen node; the length for [binSearch].
      GraphTablesFacts.v proves that it is enough.
    - Printing ([operator<<]) is left out. *)

From S2P Require Import Prelude.

Module Sortings.

(** A value of type [int], [Undef] when the type has no such value. *)
Definition int_val (z : Z) : outcome Z := if (- 2 ^ 31 <=? z) && (z <? 2 ^ 31) then Ret z else Undef.

(** [inDegree[i] += d] *)
Definition add_at (inDegree : list Z) (i d : Z) : outcome (list Z) :=
  x ← vec_get inDegree i; y ← int_val (x + d); Ret (<[Z.to_nat i := y]> inDegree).

(** What [allTopoSortUtil] changes through its references. *)
Record Search (T : Type) := mkSearch { current : list T; inDegree : list Z; found : bool }.
Arguments mkSearch {T} _ _ _.
Arguments current {T} _.
Arguments inDegree {T} _.
Arguments found {T} _.

(** [allTopoSortUtil] of Matrix2D.tcc and AdjList.tcc, which differ in the loop
    that adds [d] to the in-degrees of the successors of [i]: [shift i d]. *)
Section sortings.
Context {T : Type} (prop : list T -> outcome bool) (elems : list T).
Context (shift : Z -> Z -> list Z -> outcome (list Z)).

(** One round of the loop over the elements; [rec] is the recursive call. *)
Definition try_element (rec : list bool -> Search T -> outcome (Search T)) (visited : list bool)
    (s : Search T * bool) (i : Z) : outcome (Search T * bool) :=
  let '(st, scheduled) := s in
  if found st then Ret (st, scheduled)
  else
    d ← vec_get (inDegree st) i;
    v ← vec_get visited i;
    if (d =? 0) && negb v then
      deg ← shift i (- 1) (inDegree st);
      e ← vec_get elems i;
      st ← rec (<[Z.to_nat i := true]> visited) (mkSearch (current st ++ [e]) deg (found st));
      if found st then Ret (st, scheduled)
      else deg ← shift i 1 (inDegree st);
           Ret (mkSearch (removelast (current st)) deg (found st), true)
    else Ret (st, scheduled).

Fixpoint sortings (fuel : nat) (visited : list bool) (st : Search T) : outcome (Search T) :=
  match fuel with
  | O => Bug
  | S fuel =>
      if found st then Ret st
      else
        '(st, scheduled) ← mfold (try_element (sortings fuel) visited) (seqZ 0 (Z.of_nat (length elems))) (st, false);
        if found st then Ret st
        else if negb scheduled then
          b ← prop (current st); Ret (mkSearch (current st) (inDegree st) b)
        else Ret st
  end.
End sortings.

(** [combineAllTopoSortUtil]: the recursion over [toCombine]; [all] is the
    enumeration of one graph. *)
Section combine.
Context {T G : Type} (all : (list T -> outcome bool) -> G -> outcome bool) (prop : list (list T) -> outcome bool).

Fixpoint combine (toCombine : list G) (current : list (list T)) : outcome bool :=
  match toCombine with
  | [] => prop current
  | g :: toCombine => all (fun sorting => combine toCombine (current ++ [sorting])) g
  end.
End combine.
End Sortings.

Module Matrix.
Import Sortings.

Section search.
Context {T : Type} (gt lt : T -> T -> bool).

(** The loop of [binSearch]. *)
Fixpoint binSearch_loop (fuel : nat) (arr : list T) (low high : Z) (what : T) : outcome Z :=
  match fuel with
  | O => Ret (- 1)
  | S fuel =>
      if low <=? high then
        sum ← int_val (low + high);
        let mid := Z.quot sum 2 in
        a ← vec_get arr mid;
        if gt a what then binSearch_loop fuel arr low (mid - 1) what
        else if lt a what then binSearch_loop fuel arr (mid + 1) high what
        else Ret mid
      else Ret (- 1)
  end.

Definition binSearch (arr : list T) (len : Z) (what : T) : outcome Z :=
  binSearch_loop (Z.to_nat len) arr 0 (len - 1) what.
End search.

Record Matrix2D (T : Type) := mkMatrix { matrix_ : list Z; elems_ : list T }.
Arguments mkMatrix {T} _ _.
Arguments matrix_ {T} _.
Arguments elems_ {T} _.

Section matrix.
Context {T : Type} `{EqDecision T}.

(** The constructor from the elements. *)
Definition make (es : list T) : Matrix2D T := mkMatrix (repeat 0 (length es * length es)) es.

Definition getElems (m : Matrix2D T) : list T := elems_ m.

Definition clear (m : Matrix2D T) : Matrix2D T := mkMatrix [] [].

Definition size (m : Matrix2D T) : Z := u32 (Z.of_nat (length (elems_ m))).

Definition empty (m : Matrix2D T) : bool := size m =? 0.

(** [for (auto i = 0u; i < size(); i++)] *)
Definition indices (m : Matrix2D T) : list Z := seqZ 0 (size m).

Definition computeIndex (m : Matrix2D T) (i j : Z) : Z := u32 (i * Z.of_nat (length (elems_ m)) + j).

Definition getIndex (m : Matrix2D T) (e : T) : outcome Z :=
  match list_find (fun x => x = e) (elems_ m) with
  | Some (i, _) => Ret (signed 32 (u32 (Z.of_nat i)))
  | None => Bug
  end.

(** [operator()(unsigned int, unsigned int) const] *)
Definition at_ (m : Matrix2D T) (i j : Z) : outcome bool :=
  v ← vec_get (matrix_ m) (computeIndex m i j); Ret (negb (v =? 0)).

(** [operator()(unsigned int, unsigned int)] on the left of an assignment. *)
Definition set_ (m : Matrix2D T) (i j v : Z) : outcome (Matrix2D T) :=
  let idx := Z.to_nat (computeIndex m i j) in
  if decide (idx < length (matrix_ m))%nat then Ret (mkMatrix (<[idx := v]> (matrix_ m)) (elems_ m)) else Undef.

(** [operator()(const T &, const T &) const] *)
Definition at_elems (m : Matrix2D T) (a b : T) : outcome bool :=
  i ← getIndex m a; j ← getIndex m b; at_ m (u32 i) (u32 j).

Definition set_elems (m : Matrix2D T) (a b : T) (v : Z) : outcome (Matrix2D T) :=
  i ← getIndex m a; j ← getIndex m b; set_ m (u32 i) (u32 j) v.

(** The overloads with one element and one index. *)
Definition at_elem_index (m : Matrix2D T) (a : T) (j : Z) : outcome bool :=
  i ← getIndex m a; at_ m (u32 i) j.

Definition at_index_elem (m : Matrix2D T) (i : Z) (b : T) : outcome bool :=
  j ← getIndex m b; at_ m i (u32 j).

(** [operator==] *)
Definition eqb (m m' : Matrix2D T) : bool :=
  bool_decide (elems_ m' = elems_ m) && bool_decide (matrix_ m' = matrix_ m).

(** The elements whose index satisfies the test, in order. *)
Definition collect_elems (m : Matrix2D T) (test : Z -> outcome bool) : outcome (list T) :=
  mfold (fun result i =>
    b ← test i;
    if b : bool then e ← vec_get (elems_ m) i; Ret (result ++ [e]) else Ret result) (indices m) [].

Definition getInEdges (m : Matrix2D T) (e : T) : outcome (list T) :=
  eI ← getIndex m e; collect_elems m (fun i => at_ m i (u32 eI)).

Definition getOutEdges (m : Matrix2D T) (e : T) : outcome (list T) :=
  eI ← getIndex m e; collect_elems m (fun i => at_ m (u32 eI) i).

(** The loop of [hasNoEdges], with its early return. *)
Fixpoint hasNoEdges_from (m : Matrix2D T) (eI : Z) (l : list Z) : outcome bool :=
  match l with
  | [] => Ret true
  | i :: l =>
      a ← at_ m i (u32 eI);
      if a : bool then Ret false
      else b ← at_ m (u32 eI) i; if b : bool then Ret false else hasNoEdges_from m eI l
  end.

Definition hasNoEdges (m : Matrix2D T) (e : T) : outcome bool :=
  eI ← getIndex m e; hasNoEdges_from m eI (indices m).

Definition getInDegrees (m : Matrix2D T) : outcome (list Z) :=
  mfold (fun deg i => mfold (fun deg j => b ← at_ m j i; add_at deg i (Z.b2z b)) (indices m) deg)
    (indices m) (repeat 0 (Z.to_nat (size m))).

(** One round of the loop over the successors of [nextI] in [topoSort]. *)
Definition relax (m : Matrix2D T) (nextI : Z) (s : list Z * list Z) (i : Z) : outcome (list Z * list Z) :=
  let '(deg, stack) := s in
  b ← at_ m nextI i;
  if negb b then Ret (deg, stack)
  else deg ← add_at deg i (- 1);
       d ← vec_get deg i;
       Ret (deg, if d =? 0 then i :: stack else stack).

(** [while (stack.size() > 0)]; the back of the stack is the head of the list. *)
Fixpoint topoSort_loop (fuel : nat) (m : Matrix2D T) (deg stack : list Z) (sorted : list T)
  : outcome (list Z * list T) :=
  match stack, fuel with
  | [], _ => Ret (deg, sorted)
  | _ :: _, O => Bug
  | nextI :: stack, S fuel =>
      e ← vec_get (elems_ m) nextI;
      '(deg, stack) ← mfold (relax m nextI) (indices m) (deg, stack);
      topoSort_loop fuel m deg stack (sorted ++ [e])
  end.

(** [for (i...) if (inDegree[i] == 0) stack.push_back(i)] *)
Definition sources (deg : list Z) : outcome (list Z) :=
  mfold (fun stack i => d ← vec_get deg i; Ret (if d =? 0 then i :: stack else stack))
    (seqZ 0 (Z.of_nat (length deg))) [].

Definition topoSort (m : Matrix2D T) : outcome (list T) :=
  deg ← getInDegrees m;
  stack ← sources deg;
  '(deg, sorted) ← topoSort_loop (length (elems_ m)) m deg stack [];
  _ ← BUG_ON (existsb (fun d => 0 <? d) deg);
  Ret sorted.

Definition shift_degrees (m : Matrix2D T) (i d : Z) (deg : list Z) : outcome (list Z) :=
  mfold (fun deg j => b ← at_ m i j; if b : bool then add_at deg j d else Ret deg) (indices m) deg.

Definition allTopoSortUtil (prop : list T -> outcome bool) (fuel : nat) (m : Matrix2D T) (visited : list bool)
    (st : Search T) : outcome (Search T) :=
  sortings prop (elems_ m) (shift_degrees m) fuel visited st.

Definition allTopoSort (prop : list T -> outcome bool) (m : Matrix2D T) : outcome bool :=
  deg ← getInDegrees m;
  st ← allTopoSortUtil prop (S (length (elems_ m))) m (repeat false (Z.to_nat (size m))) (mkSearch [] deg false);
  Ret (found st).

Definition combineAllTopoSortUtil (prop : list (list T) -> outcome bool) (toCombine : list (Matrix2D T))
    (current : list (list T)) : outcome bool := combine allTopoSort prop toCombine current.

Definition combineAllTopoSort (prop : list (list T) -> outcome bool) (toCombine : list (Matrix2D T))
  : outcome bool := combineAllTopoSortUtil prop toCombine [].

Definition addEdgesFromTo (m : Matrix2D T) (froms tos : list T) : outcome (Matrix2D T) :=
  mfold (fun m f => mfold (fun m t => set_elems m f t 1) tos m) froms m.

(** The loop of [isIrreflexive]. *)
Fixpoint isIrreflexive_from (m : Matrix2D T) (l : list Z) : outcome bool :=
  match l with
  | [] => Ret true
  | i :: l => b ← at_ m i i; if b : bool then Ret false else isIrreflexive_from m l
  end.

Definition isIrreflexive (m : Matrix2D T) : outcome bool := isIrreflexive_from m (indices m).

(** [matrix_[i * len + j]] with its index computed in [int]. *)
Definition cell (len i j : Z) : outcome Z := row ← int_val (i * len); int_val (row + j).

(** [matrix_[i * len + j] = matrix_[i * len + j] | matrix_[k * len + j]] *)
Definition or_cell (len i k : Z) (mx : list Z) (j : Z) : outcome (list Z) :=
  ij ← cell len i j;
  kj ← cell len k j;
  a ← vec_get mx ij;
  b ← vec_get mx kj;
  Ret (<[Z.to_nat ij := Z.lor a b]> mx).

(** The body of the loop over [k]: row [k] goes into row [i] if [i] has an edge to [k]. *)
Definition or_row (len i : Z) (mx : list Z) (k : Z) : outcome (list Z) :=
  ik ← cell len i k;
  b ← vec_get mx ik;
  if b =? 0 then Ret mx else mfold (or_cell len i k) (seqZ 0 len) mx.

(** [for (i = 1; i < len; i++) for (k = 0; k < i; k++)] *)
Definition lower_pass (len : Z) (mx : list Z) : outcome (list Z) :=
  mfold (fun mx i => mfold (or_row len i) (seqZ 0 i) mx) (seqZ 1 (len - 1)) mx.

(** [for (i = 0; i < len - 1; i++) for (k = i + 1; k < len; k++)] *)
Definition upper_pass (len : Z) (mx : list Z) : outcome (list Z) :=
  mfold (fun mx i => mfold (or_row len i) (seqZ (i + 1) (len - (i + 1))) mx) (seqZ 0 (len - 1)) mx.

Definition transClosure (m : Matrix2D T) : outcome (Matrix2D T) :=
  let len := signed 32 (size m) in
  mx ← lower_pass len (matrix_ m);
  mx ← upper_pass len mx;
  Ret (mkMatrix mx (elems_ m)).
End matrix.
End Matrix.

(** Three elements in a chain, and a cycle. *)
Example chain_sorted :
  (m ← Matrix.addEdgesFromTo (Matrix.make [10; 20; 30]) [30] [10];
   m ← Matrix.addEdgesFromTo m [10] [20]; Matrix.topoSort m) = Ret [30; 10; 20].
Proof. vm_compute. reflexivity. Qed.

Example cycle_stops :
  (m ← Matrix.addEdgesFromTo (Matrix.make [10; 20; 30]) [30; 20] [10; 20]; Matrix.topoSort m) = Bug.
Proof. vm_compute. reflexivity. Qed.

Example chain_closed :
  (m ← Matrix.addEdgesFromTo (Matrix.make [10; 20; 30]) [30] [10];
   m ← Matrix.addEdgesFromTo m [10] [20]; m ← Matrix.transClosure m; Ret (Matrix.matrix_ m))
  = Ret [0; 1; 0; 0; 0; 0; 1; 1; 0].
Proof. vm_compute. reflexivity. Qed.

Module AdjList.
Import Sortings.

Inductive NodeStatus := unseen | entered | left.

#[export] Instance NodeStatus_dec : EqDecision NodeStatus.
Proof. solve_decision. Defined.

Record AdjList (T : Type) `{Countable T} := mkAdj {
  elems : list T;
  nodeSucc : list (list Z);
  inDegree : list Z;
  ids : gmap T Z;
  calculatedTransC : bool;
  transC : list (list bool)
}.
Arguments mkAdj {T _ _} _ _ _ _ _ _.
Arguments elems {T _ _} _.
Arguments nodeSucc {T _ _} _.
Arguments inDegree {T _ _} _.
Arguments ids {T _ _} _.
Arguments calculatedTransC {T _ _} _.
Arguments transC {T _ _} _.

(** The variables [t], [m], [p], [d] and [f] of [dfs]. *)
Record Dfs := mkDfs { t : Z; m : list NodeStatus; p : list Z; d : list Z; f : list Z }.

(** [v[i] = x] *)
Definition vec_set {A} (v : list A) (i : Z) (x : A) : outcome (list A) :=
  _ ← vec_get v i; Ret (<[Z.to_nat i := x]> v).

(** [a |= b] of two bit vectors. *)
Fixpoint bits_or (a b : list bool) : list bool :=
  match a, b with
  | x :: a, y :: b => (x || y) :: bits_or a b
  | [], b => b
  | a, [] => a
  end.

Section adj.
Context {T : Type} `{Countable T}.

(** [ids[elems[i]] = i] for every [i] in order. *)
Fixpoint number (i : Z) (es : list T) (ids : gmap T Z) : gmap T Z :=
  match es with [] => ids | e :: es => number (i + 1) es (<[e := i]> ids) end.

Definition make (es : list T) : AdjList T :=
  let n := length es in
  mkAdj es (repeat [] n) (repeat 0 n) (number 0 es ∅) false (repeat (repeat false n) n).

Definition getElems (l : AdjList T) : list T := elems l.

Definition getIndex (l : AdjList T) (a : T) : outcome Z :=
  match ids l !! a with Some i => Ret i | None => Undef end.

Definition size (l : AdjList T) : Z := u32 (Z.of_nat (length (elems l))).

Definition empty (l : AdjList T) : bool := size l =? 0.

Definition addNode (l : AdjList T) (a : T) : AdjList T :=
  let id := length (elems l) in
  mkAdj (elems l ++ [a]) (nodeSucc l ++ [[]]) (inDegree l ++ [0]) (<[a := u32 (Z.of_nat id)]> (ids l)) false
    (transC l ++ [repeat false id]).

(** [operator()(NodeId, NodeId)] *)
Definition has_edge (l : AdjList T) (a b : Z) : outcome bool :=
  row ← vec_get (transC l) a; vec_get row b.

(** [operator()(T, T)] *)
Definition has_edge_elems (l : AdjList T) (a b : T) : outcome bool :=
  i ← getIndex l a; j ← getIndex l b; has_edge l i j.

(** The overloads with one element and one node. *)
Definition has_edge_elem_node (l : AdjList T) (a : T) (b : Z) : outcome bool :=
  i ← getIndex l a; has_edge l i b.

Definition has_edge_node_elem (l : AdjList T) (a : Z) (b : T) : outcome bool :=
  j ← getIndex l b; has_edge l a j.

(** [addEdge(NodeId, NodeId)] *)
Definition addEdge (l : AdjList T) (a b : Z) : outcome (AdjList T) :=
  e ← has_edge l a b;
  if e : bool then Ret l
  else
    succs ← vec_get (nodeSucc l) a;
    ns ← vec_set (nodeSucc l) a (succs ++ [b]);
    row ← vec_get (transC l) a;
    row ← vec_set row b true;
    tc ← vec_set (transC l) a row;
    deg ← add_at (inDegree l) b 1;
    Ret (mkAdj (elems l) ns deg (ids l) false tc).

(** [addEdge(T, T)] *)
Definition addEdge_elems (l : AdjList T) (a b : T) : outcome (AdjList T) :=
  i ← getIndex l a; j ← getIndex l b; addEdge l i j.

Definition addEdgesFromTo (l : AdjList T) (froms tos : list T) : outcome (AdjList T) :=
  mfold (fun l f => mfold (fun l t => addEdge_elems l f t) tos l) froms l.

Definition getInDegrees (l : AdjList T) : list Z := inDegree l.

Definition hasNoEdges (l : AdjList T) (a : T) : outcome bool :=
  i ← getIndex l a;
  d ← vec_get (inDegree l) i;
  if negb (d =? 0) then Ret false
  else s ← vec_get (nodeSucc l) i; Ret (Nat.eqb (length s) 0).

Section dfs.
(** What the callbacks capture. *)
Context {X : Type}.
Context (atEntryV : Z -> Dfs * X -> outcome (Dfs * X)) (atTreeE : Z -> Z -> Dfs * X -> outcome (Dfs * X)).
Context (atBackE : Z -> Z -> Dfs * X -> outcome (Dfs * X)) (atForwE : Z -> Z -> Dfs * X -> outcome (Dfs * X)).
Context (atExitV : Z -> Dfs * X -> outcome (Dfs * X)) (atEnd : Dfs * X -> outcome (Dfs * X)).

(** [m[i] = entered; d[i] = ++t] *)
Definition enter (i : Z) (s : Dfs) : outcome Dfs :=
  m' ← vec_set (m s) i entered;
  let t' := u32 (t s + 1) in
  d' ← vec_set (d s) i t';
  Ret (mkDfs t' m' (p s) d' (f s)).

(** [m[i] = left; f[i] = ++t] *)
Definition leave (i : Z) (s : Dfs) : outcome Dfs :=
  m' ← vec_set (m s) i left;
  let t' := u32 (t s + 1) in
  f' ← vec_set (f s) i t';
  Ret (mkDfs t' m' (p s) (d s) f').

(** The body of the loop over the successors of [i]; [rec] is the recursive call. *)
Definition visit_succ (rec : Z -> Dfs * X -> outcome (Dfs * X)) (i : Z) (s : Dfs * X) (j : Z)
  : outcome (Dfs * X) :=
  status ← vec_get (m s.1) j;
  match status with
  | unseen =>
      p' ← vec_set (p s.1) j i;
      s ← rec j (mkDfs (t s.1) (m s.1) p' (d s.1) (f s.1), s.2);
      atTreeE i j s
  | entered => atBackE i j s
  | left => atForwE i j s
  end.

Fixpoint dfsUtil (fuel : nat) (l : AdjList T) (i : Z) (s : Dfs * X) : outcome (Dfs * X) :=
  match fuel with
  | O => Bug
  | S fuel =>
      st ← enter i s.1;
      s ← atEntryV i (st, s.2);
      succs ← vec_get (nodeSucc l) i;
      s ← mfold (visit_succ (dfsUtil fuel l) i) succs s;
      st ← leave i s.1;
      atExitV i (st, s.2)
  end.

Definition start (l : AdjList T) : Dfs :=
  let n := length (nodeSucc l) in mkDfs 0 (repeat unseen n) (repeat (u32 (- 42)) n) (repeat 0 n) (repeat 0 n).

(** The body of the loop of [dfs]. *)
Definition dfs_root (l : AdjList T) (s : Dfs * X) (i : Z) : outcome (Dfs * X) :=
  status ← vec_get (m s.1) i;
  match status with unseen => dfsUtil (length (nodeSucc l)) l i s | _ => Ret s end.

Definition dfs (l : AdjList T) (x : X) : outcome (Dfs * X) :=
  s ← mfold (dfs_root l) (seqZ 0 (Z.of_nat (length (nodeSucc l)))) (start l, x);
  atEnd s.

Definition visitReachable (l : AdjList T) (a : T) (x : X) : outcome (Dfs * X) :=
  i ← getIndex l a;
  s ← dfsUtil (length (nodeSucc l)) l i (start l, x);
  atEnd s.
End dfs.

Definition topoSort (l : AdjList T) : outcome (list T) :=
  s ← dfs (fun _ s => Ret s) (fun _ _ s => Ret s) (fun _ _ _ => Bug) (fun _ _ s => Ret s)
        (fun i s => e ← vec_get (elems l) i; Ret (s.1, s.2 ++ [e])) (fun s => Ret s) l [];
  Ret (rev s.2).

(** [transC[i] |= transC[j]; transC[i].set(j)] *)
Definition absorb (i : Z) (tc : list (list bool)) (j : Z) : outcome (list (list bool)) :=
  ri ← vec_get tc i;
  rj ← vec_get tc j;
  row ← vec_set (bits_or ri rj) j true;
  vec_set tc i row.

Definition close_node (l : AdjList T) (i : Z) (s : Dfs * list (list bool)) : outcome (Dfs * list (list bool)) :=
  succs ← vec_get (nodeSucc l) i;
  tc ← mfold (absorb i) succs s.2;
  Ret (s.1, tc).

Definition transClosure (l : AdjList T) : outcome (AdjList T) :=
  if calculatedTransC l then Ret l
  else
    s ← dfs (fun _ s => Ret s) (fun _ _ s => Ret s) (fun _ _ s => Ret s) (fun _ _ s => Ret s)
          (close_node l) (fun s => Ret s) l (transC l);
    Ret (mkAdj (elems l) (nodeSucc l) (inDegree l) (ids l) true s.2).

Fixpoint isIrreflexive_from (tc : list (list bool)) (nodes : list Z) : outcome bool :=
  match nodes with
  | [] => Ret true
  | i :: nodes => row ← vec_get tc i; b ← vec_get row i; if b : bool then Ret false else isIrreflexive_from tc nodes
  end.

Definition isIrreflexive (l : AdjList T) : outcome bool :=
  isIrreflexive_from (transC l) (seqZ 0 (Z.of_nat (length (elems l)))).

(** [for (it = adj_begin(i); it != adj_end(i); ++it) inDegree[*it] += d] *)
Definition shift_degrees (l : AdjList T) (i d : Z) (deg : list Z) : outcome (list Z) :=
  succs ← vec_get (nodeSucc l) i; mfold (fun deg j => add_at deg j d) succs deg.

Definition allTopoSortUtil (prop : list T -> outcome bool) (fuel : nat) (l : AdjList T) (visited : list bool)
    (st : Search T) : outcome (Search T) :=
  sortings prop (elems l) (shift_degrees l) fuel visited st.

Definition allTopoSort (prop : list T -> outcome bool) (l : AdjList T) : outcome bool :=
  st ← allTopoSortUtil prop (S (length (elems l))) l (repeat false (length (elems l)))
         (mkSearch [] (getInDegrees l) false);
  Ret (found st).

Definition combineAllTopoSortUtil (prop : list (list T) -> outcome bool) (toCombine : list (AdjList T))
    (current : list (list T)) : outcome bool := combine allTopoSort prop toCombine current.

Definition combineAllTopoSort (prop : list (list T) -> outcome bool) (toCombine : list (AdjList T))
  : outcome bool := combineAllTopoSortUtil prop toCombine [].
End adj.
End AdjList.

Example adj_chain_sorted :
  (l ← AdjList.addEdgesFromTo (AdjList.make [10; 20; 30]) [30] [10];
   l ← AdjList.addEdgesFromTo l [10] [20]; AdjList.topoSort l) = Ret [30; 10; 20].
Proof. vm_compute. reflexivity. Qed.

(** The closure of a cycle of three nodes is not all the pairs. *)
Example adj_cycle_closure :
  (l ← AdjList.addEdgesFromTo (AdjList.make [10; 20; 30]) [10] [20];
   l ← AdjList.addEdgesFromTo l [20] [30]; l ← AdjList.addEdgesFromTo l [30] [10];
   l ← AdjList.transClosure l; Ret (AdjList.transC l))
  = Ret [[true; true; true]; [true; true; true]; [true; true; false]].
Proof. vm_compute. reflexivity. Qed.
