(* ===== verification/GraphTablesFacts.v ===== *)
(** * Matrix2D and AdjList sort, enumerate and close the relation they hold

    [SortingsFacts], what both share: vectors read as functions of the index, loops over an
    interval, the orders in which every node comes after its predecessors ([topo]) and the
    absence of cycles, the in-degrees of what is not placed yet ([deg_of]), and the
    enumeration of [Sortings.sortings] for any representation whose [shift] changes the
    in-degrees as the edges say ([ShiftsDegrees]).

    [MatrixFacts], for a matrix that its index arithmetic can handle ([wf]):
    - [topoSort_loop_spec], [topoSort_spec]: Kahn's algorithm ends within its
      fuel, with every element after its predecessors, or stops the process, because of a cycle;
    - [allTopoSort_elements], [combineAllTopoSort_iff]: the enumerations find a sorting
      (one of each matrix) that the property accepts exactly when there is one;
    - [transClosure_exact]: the two passes over the rows compute the transitive closure.
      [via b i j] is a path from [i] to [j] whose inner nodes are below [b]; the first
      pass makes every row complete for the paths through smaller nodes.

    [AdjListFacts]:
    - [adj_addEdge_spec], [adj_make_wf]: the representation ([wf]) is kept, with the edges
      asked for and no other; [addNode_addEdge_undef]: not so after [addNode];
    - [Section dfs]: [dfsUtil] and [dfs] refine a system that only knows the nodes
      that are entered (a path, [gray], with the number of the nodes left before) and the list of
      those that were left ([out]). An invariant [Inv] of these and of what the callbacks keep
      holds at the end if entering and leaving a node preserve it; the exploration ends
      within its fuel;
    - [adj_topoSort_spec]: the reversed order of leaving sorts the nodes; a back edge, at which
      [topoSort] stops the process, is met exactly when there is a cycle;
    - [adj_transClosure_spec]: what [transClosure] computes is between the edges and their
      closure, is the closure when there is no cycle, and has a reflexive pair when there is one;
    - [representations_agree]: the two containers give the same answers. *)

From S2P Require Import Prelude.
From S2P Require Import GraphTables.
From stdpp Require Import relations.

#[local] Open Scope Z_scope.

Module SortingsFacts.
Import Sortings.

(** ** Loops over an interval and vectors as functions *)

Lemma mfold_seqZ {S} (I : Z -> S -> Prop) (f : S -> Z -> outcome S) a k s :
  0 <= k -> I a s ->
  (forall i s, a <= i < a + k -> I i s -> exists s', f s i = Ret s' /\ I (i + 1) s') ->
  exists s', mfold f (seqZ a k) s = Ret s' /\ I (a + k) s'.
Proof.
  intros Hk. revert a s; pattern k; apply natlike_ind; [|intros x Hx IH|done]; intros a s Ha Hf.
  - exists s. by rewrite Z.add_0_r.
  - rewrite seqZ_cons by lia. cbn. destruct (Hf a s) as (s1 & -> & H1); [lia|done|]. cbn.
    destruct (IH (a + 1) s1) as (s2 & E & H2); [done|intros i u ?; apply Hf; lia|].
    exists s2. rewrite Z.pred_succ, <- Z.add_1_r. split; [exact E|].
    by replace (a + Z.succ x) with (a + 1 + x) by lia.
Qed.

(** The vector [v] has [n] elements, the one at [i] being [g i]. *)
Record is_vec {A} (n : Z) (v : list A) (g : Z -> A) : Prop := {
  vec_len : Z.of_nat (length v) = n;
  vec_at i : 0 <= i < n -> vec_get v i = Ret (g i)
}.

Lemma vec_get_lookup {A} (v : list A) i x : 0 <= i -> vec_get v i = Ret x <-> v !! Z.to_nat i = Some x.
Proof.
  intros Hi. unfold vec_get. destruct (Z.ltb_spec i 0); [lia|].
  destruct (v !! Z.to_nat i); split; intros E; congruence.
Qed.

Lemma is_vec_set {A} n (v : list A) g i x :
  is_vec n v g -> 0 <= i < n -> is_vec n (<[Z.to_nat i := x]> v) (fun j => if decide (j = i) then x else g j).
Proof.
  intros [L G] Hi. split; [by rewrite length_insert|]. intros j Hj. apply vec_get_lookup; [lia|].
  case_decide as E; [subst; apply list_lookup_insert_eq; lia|].
  rewrite list_lookup_insert_ne by lia. apply vec_get_lookup; [lia|]. by apply G.
Qed.

Lemma is_vec_ext {A} n (v : list A) g h :
  is_vec n v g -> (forall i, 0 <= i < n -> g i = h i) -> is_vec n v h.
Proof. intros [L G] E. split; [done|]. intros i Hi. by rewrite G, E. Qed.

Lemma repeat_is_replicate {A} (x : A) k : repeat x k = replicate k x.
Proof. induction k; cbn; congruence. Qed.

Lemma filter_in_ext {A} (P Q : A -> Prop) `{!forall x, Decision (P x)} `{!forall x, Decision (Q x)} (l : list A) :
  (forall x, x ∈ l -> P x <-> Q x) -> filter P l = filter Q l.
Proof.
  induction l as [|x l IH]; intros HPQ; [done|]. rewrite !filter_cons, IH by (intros y Hy; apply HPQ; by right).
  pose proof (HPQ x ltac:(left)). by destruct (decide (P x)), (decide (Q x)); try tauto.
Qed.

Lemma is_vec_repeat {A} n (x : A) : 0 <= n -> is_vec n (repeat x (Z.to_nat n)) (fun _ => x).
Proof.
  intros Hn. split; [rewrite repeat_is_replicate, length_replicate; lia|]. intros i Hi. apply vec_get_lookup; [lia|].
  rewrite repeat_is_replicate. apply lookup_replicate. split; [done|lia].
Qed.

Lemma is_vec_list {A} (v : list A) (x : A) : is_vec (Z.of_nat (length v)) v (fun i => nth (Z.to_nat i) v x).
Proof.
  split; [done|]. intros i Hi. apply vec_get_lookup; [lia|].
  destruct (lookup_lt_is_Some_2 v (Z.to_nat i)) as [y Hy]; [lia|].
  rewrite Hy. f_equal. symmetry. by apply nth_lookup_Some.
Qed.

Lemma int_val_ret z : - 2 ^ 31 <= z < 2 ^ 31 -> int_val z = Ret z.
Proof. intros H. unfold int_val. by rewrite (proj2 (Z.leb_le _ _)), (proj2 (Z.ltb_lt _ _)) by lia. Qed.

Lemma add_at_vec n v g i d :
  is_vec n v g -> 0 <= i < n -> - 2 ^ 31 <= g i + d < 2 ^ 31 ->
  exists v', add_at v i d = Ret v' /\ is_vec n v' (fun j => if decide (j = i) then g i + d else g j).
Proof.
  intros V Hi Hb. unfold add_at. rewrite (vec_at _ _ _ V i Hi). cbn. rewrite int_val_ret by done. cbn.
  eexists. split; [reflexivity|]. by apply is_vec_set.
Qed.

(** ** Binary search *)

Section search.
Context {T : Type} (lt : T -> T -> bool) `{!StrictTotal lt} (arr : list T) (n : Z) (g : Z -> T) (what : T).
Context (V : is_vec n arr g) (Hn : n < 2 ^ 30) (Hsorted : forall i j, 0 <= i < j -> j < n -> lt (g j) (g i) = false).

Lemma binSearch_loop_spec fuel : forall low high,
  0 <= low -> high < n -> high - low + 1 <= Z.of_nat fuel ->
  (forall i, 0 <= i < n -> g i = what -> low <= i <= high) ->
  exists r, Matrix.binSearch_loop (fun a b => lt b a) lt fuel arr low high what = Ret r /\
    ((r = - 1 /\ forall i, 0 <= i < n -> g i <> what) \/ (0 <= r < n /\ g r = what)).
Proof using All.
  assert (Hle : forall i j, 0 <= i <= j -> j < n -> lt (g j) (g i) = false).
  { intros i j Hi Hj. destruct (decide (i = j)) as [->|]; [apply ltb_irrefl|apply Hsorted; lia]. }
  induction fuel as [|fuel IH]; intros low high Hl Hh Hf Hin; cbn.
  { exists (- 1). split; [done|]. left. split; [done|]. intros i Hi Hg. specialize (Hin i Hi Hg). lia. }
  destruct (Z.leb_spec low high) as [Hlh|Hlh].
  2: { exists (- 1). split; [done|]. left. split; [done|]. intros i Hi Hg. specialize (Hin i Hi Hg). lia. }
  rewrite int_val_ret by lia. cbn. pose proof (Z.quot_div_nonneg (low + high) 2 ltac:(lia) ltac:(lia)) as Eq.
  rewrite Eq. set (mid := (low + high) / 2). assert (Hmid : low <= mid <= high) by (unfold mid; split; [apply Z.div_le_lower_bound|apply Z.div_le_upper_bound]; lia).
  rewrite (vec_at _ _ _ V mid) by lia. cbn. destruct (lt what (g mid)) eqn:E1; [|destruct (lt (g mid) what) eqn:E2].
  - apply IH; [lia..|]. intros i Hi Hg. specialize (Hin i Hi Hg). destruct (decide (mid <= i)) as [Hmi|]; [|lia].
    exfalso. pose proof (Hle mid i ltac:(lia) ltac:(lia)). subst. congruence.
  - apply IH; [lia..|]. intros i Hi Hg. specialize (Hin i Hi Hg). destruct (decide (i <= mid)) as [Hmi|]; [|lia].
    exfalso. pose proof (Hle i mid ltac:(lia) ltac:(lia)). subst. congruence.
  - exists mid. split; [done|]. right. split; [lia|]. by apply (ltb_total (g mid) what).
Qed.

(** In a sorted array [binSearch] returns a place of the element, or -1 if there is none. *)
Lemma binSearch_spec :
  exists r, Matrix.binSearch (fun a b => lt b a) lt arr n what = Ret r /\
    ((r = - 1 /\ forall i, 0 <= i < n -> g i <> what) \/ (0 <= r < n /\ g r = what)).
Proof using All.
  pose proof (vec_len _ _ _ V). apply binSearch_loop_spec; [lia..|]. intros i Hi _. lia.
Qed.
End search.

(** ** Orders and cycles *)

(** Where every element of [R] has one of [R] before it, [R] is empty. *)
Lemma no_source_empty {A} `{EqDecision A} (S : relation A) (R : list A) :
  Transitive S -> Irreflexive S -> (forall x, x ∈ R -> exists y, y ∈ R /\ S y x) -> R = [].
Proof.
  intros St Si. induction R as [|a R IH]; intros H; [done|]. exfalso.
  assert (HR : R = []).
  { apply IH. intros x Hx. destruct (H x) as (y & Hy & Syx); [by right|].
    apply elem_of_cons in Hy as [->|Hy]; [|by exists y].
    destruct (H a) as (z & Hz & Sza); [by left|]. exists z.
    apply elem_of_cons in Hz as [->|Hz]; [by apply irreflexivity in Sza|]. split; [done|]. by transitivity a. }
  subst R. destruct (H a) as (y & Hy & Sya); [by left|].
  apply list_elem_of_singleton in Hy as ->. by apply irreflexivity in Sya.
Qed.

Section order.
Context (n : Z) (edge : Z -> Z -> bool).

Definition E (i j : Z) : Prop := 0 <= i < n /\ 0 <= j < n /\ edge i j = true.

Definition acyclic : Prop := forall i, ~ tc E i i.

(** Every node of the list is new, and all its predecessors are before it. *)
Inductive topo : list Z -> Prop :=
| topo_nil : topo []
| topo_snoc l x : topo l -> 0 <= x < n -> x ∉ l -> (forall y, E y x -> y ∈ l) -> topo (l ++ [x]).

(** No node can be added to the list. *)
Definition stuck (l : list Z) : Prop := forall x, 0 <= x < n -> x ∉ l -> exists y, y ∉ l /\ E y x.

Definition all_nodes (l : list Z) : Prop := forall x, 0 <= x < n -> x ∈ l.

Lemma topo_nodes l x : topo l -> x ∈ l -> 0 <= x < n.
Proof. intros H. induction H; [by intros ?%not_elem_of_nil|]. intros [?| ->%list_elem_of_singleton]%elem_of_app; auto. Qed.

Lemma topo_NoDup l : topo l -> NoDup l.
Proof.
  induction 1; [constructor|]. apply NoDup_app. split; [done|]. split; [|apply NoDup_singleton].
  intros y Hy ->%list_elem_of_singleton. done.
Qed.

Lemma topo_length l : 0 <= n -> topo l -> Z.of_nat (length l) <= n.
Proof.
  intros Hn H. pose proof (submseteq_length l (seqZ 0 n)) as L.
  rewrite length_seqZ in L. enough (l ⊆+ seqZ 0 n) by (specialize (L ltac:(done)); lia).
  apply NoDup_submseteq; [by apply topo_NoDup|]. intros x Hx%topo_nodes; [|done]. apply elem_of_seqZ. lia.
Qed.

Lemma topo_app l l' : topo (l ++ l') -> topo l.
Proof.
  induction l' as [|x l' IH] using rev_ind; [by rewrite app_nil_r|].
  rewrite app_assoc. intros H. apply IH. inversion H as [E'|? ? ? ? ? ? E']; [by destruct ((l ++ l')); destruct l|].
  apply app_inj_tail in E' as [<- _]. done.
Qed.

Lemma topo_last l x : topo (l ++ [x]) -> 0 <= x < n /\ x ∉ l /\ forall y, E y x -> y ∈ l.
Proof.
  intros H. inversion H as [E'|? ? ? ? ? ? E']; [by destruct l|].
  apply app_inj_tail in E' as [<- <-]. done.
Qed.

Lemma topo_before l b x y : topo l -> l !! b = Some x -> E y x -> exists a, (a < b)%nat /\ l !! a = Some y.
Proof.
  intros H. revert b x. induction H as [|l z H IH Hz Hn Hp]; intros b x Hb Hyx; [done|].
  apply lookup_app_Some in Hb as [Hb|[Hl Hb]].
  - destruct (IH _ _ Hb Hyx) as (a & Ha & E1). exists a. split; [done|]. by apply lookup_app_l_Some.
  - apply list_lookup_singleton_Some in Hb as [Hb <-].
    apply Hp in Hyx. apply list_elem_of_lookup in Hyx as [a Ha]. exists a.
    pose proof (lookup_lt_Some _ _ _ Ha). split; [lia|]. by apply lookup_app_l_Some.
Qed.

(** An order, from what every position has before it. *)
Lemma topo_intro l :
  NoDup l -> (forall x, x ∈ l -> 0 <= x < n) ->
  (forall b x y, l !! b = Some x -> E y x -> exists a, (a < b)%nat /\ l !! a = Some y) -> topo l.
Proof.
  induction l as [|x l IH] using rev_ind; intros ND Hr Hb; [constructor|].
  apply NoDup_app in ND as (ND & Hx & _). constructor.
  - apply IH; [done|intros y Hy; apply Hr, elem_of_app; by left|]. intros b z y Hz HE.
    pose proof (lookup_lt_Some _ _ _ Hz). destruct (Hb b z y) as (a & Ha & Ea); [by apply lookup_app_l_Some|done|].
    exists a. split; [done|]. by rewrite lookup_app_l in Ea by lia.
  - apply Hr, elem_of_app. right. left.
  - intros Hin. apply (Hx x Hin). left.
  - intros y HE. destruct (Hb (length l) x y) as (a & Ha & Ea); [by rewrite lookup_app_r, Nat.sub_diag|done|].
    rewrite lookup_app_l in Ea by done. by eapply list_elem_of_lookup_2.
Qed.

Lemma topo_before_tc l x y : tc E y x -> topo l -> forall b, l !! b = Some x -> exists a, (a < b)%nat /\ l !! a = Some y.
Proof.
  intros H Hl. induction H as [y x H|y z x H _ IH]; intros b Hb; [by eapply topo_before|].
  destruct (IH _ Hb) as (c & Hc & Ec). destruct (topo_before _ _ _ _ Hl Ec H) as (a & Ha & Ea).
  exists a. split; [lia|done].
Qed.

(** If all the nodes can be ordered, there is no cycle. *)
Lemma topo_acyclic l : topo l -> all_nodes l -> acyclic.
Proof.
  intros Hl Ha i Hi. assert (Hn : 0 <= i < n) by (inversion Hi as [? ? [? ?]|? ? ? [? ?]]; tauto).
  apply Ha, list_elem_of_lookup in Hn as [b Hb].
  destruct (topo_before_tc _ _ _ Hi Hl _ Hb) as (a & Hab & Ea).
  pose proof (NoDup_lookup _ _ _ _ (topo_NoDup _ Hl) Ea Hb). lia.
Qed.

(** Without cycles an order to which nothing can be added has all the nodes. *)
Lemma stuck_all_nodes l : acyclic -> stuck l -> all_nodes l.
Proof.
  intros Hc Hs x Hx. destruct (decide (x ∈ l)) as [|Hn]; [done|].
  enough (Hnil : filter (fun x => x ∉ l) (seqZ 0 n) = []).
  { assert (Hin : x ∈ filter (fun x => x ∉ l) (seqZ 0 n)) by (apply list_elem_of_filter; rewrite elem_of_seqZ; repeat split; done || lia).
    rewrite Hnil in Hin. by apply not_elem_of_nil in Hin. }
  apply (no_source_empty (tc E)); [intros ???; apply tc_transitive|intros i; apply Hc|].
  intros z [Hz Hzn]%list_elem_of_filter. apply elem_of_seqZ in Hzn.
  destruct (Hs z) as (y & Hy & Eyz); [lia|done|]. exists y. split; [|by apply tc_once].
  apply list_elem_of_filter. split; [done|]. apply elem_of_seqZ. destruct Eyz as [? _]. lia.
Qed.

Lemma stuck_iff l : acyclic -> stuck l <-> all_nodes l.
Proof. intros Hc. split; [by apply stuck_all_nodes|]. intros Ha x Hx Hn. by destruct Hn; apply Ha. Qed.

(** ** In-degrees *)

(** The number of the predecessors of [j] that are not in [D]. *)
Definition deg_of (D : list Z) (j : Z) : Z :=
  Z.of_nat (length (filter (fun i => i ∉ D /\ edge i j = true) (seqZ 0 n))).

Lemma deg_of_range D j : 0 <= n -> 0 <= deg_of D j <= n.
Proof.
  intros Hn. unfold deg_of.
  pose proof (length_filter (fun i => i ∉ D /\ edge i j = true) (seqZ 0 n)). rewrite length_seqZ in *. lia.
Qed.

Lemma deg_of_zero D j : 0 <= j < n -> deg_of D j = 0 <-> forall y, E y j -> y ∈ D.
Proof.
  intros Hj. unfold deg_of. split.
  - intros L y (Hy & _ & He). destruct (decide (y ∈ D)) as [|Hn]; [done|].
    assert (Hin : y ∈ filter (fun i => i ∉ D /\ edge i j = true) (seqZ 0 n))
      by (apply list_elem_of_filter; rewrite elem_of_seqZ; repeat split; done || lia).
    destruct (filter _ _); [by apply not_elem_of_nil in Hin|done].
  - intros H. destruct (filter _ _) as [|y l] eqn:Ef; [done|]. exfalso.
    assert (Hin : y ∈ filter (fun i => i ∉ D /\ edge i j = true) (seqZ 0 n)) by (rewrite Ef; left).
    apply list_elem_of_filter in Hin as [[Hn He] Hy%elem_of_seqZ]. apply Hn, H. repeat split; done || lia.
Qed.

Lemma deg_of_snoc D x j : 0 <= x < n -> x ∉ D -> deg_of (D ++ [x]) j = deg_of D j - Z.b2z (edge x j).
Proof.
  intros Hx Hn. unfold deg_of. assert (Hin : x ∈ seqZ 0 n) by (apply elem_of_seqZ; lia).
  pose proof (NoDup_seqZ 0 n) as ND. apply list_elem_of_split in Hin as (l1 & l2 & El). rewrite El in ND |- *.
  apply NoDup_app in ND as (_ & N1 & [N2 _]%NoDup_cons).
  rewrite !filter_app, !length_app, !filter_cons.
  assert (Hsame : forall l : list Z, x ∉ l -> filter (fun i => i ∉ D ++ [x] /\ edge i j = true) l = filter (fun i => i ∉ D /\ edge i j = true) l).
  { intros l Hl. apply filter_in_ext. intros y Hy. rewrite not_elem_of_app, list_elem_of_singleton.
    assert (y ≠ x) by (intros ->; done). tauto. }
  rewrite !Hsame; [|done|intros Hx1; apply (N1 x Hx1); left].
  rewrite decide_False by (intros [Hd _]; apply Hd, elem_of_app; right; left).
  destruct (edge x j) eqn:Ex.
  - rewrite decide_True by done. cbn [length]. cbn [Z.b2z]. lia.
  - rewrite decide_False by naive_solver. cbn [Z.b2z]. lia.
Qed.

Lemma topo_closed l x y : topo l -> x ∈ l -> E y x -> y ∈ l.
Proof.
  intros Hl [b Hb]%list_elem_of_lookup HE. destruct (topo_before _ _ _ _ Hl Hb HE) as (a & _ & Ha).
  by eapply list_elem_of_lookup_2.
Qed.

(** The order can be extended by [x]. *)
Definition ready (D : list Z) (x : Z) : Prop := 0 <= x < n /\ x ∉ D /\ deg_of D x = 0.

Lemma ready_topo D x : topo D -> ready D x <-> topo (D ++ [x]).
Proof.
  intros Ht. split.
  - intros (Hx & Hn & Hd). constructor; [done..|]. by apply deg_of_zero.
  - intros (Hx & Hn & Hp)%topo_last. repeat split; [lia..|done|]. by apply deg_of_zero.
Qed.

Lemma not_ready_stuck D : (forall x, ~ ready D x) -> stuck D.
Proof.
  intros H x Hx Hn. destruct (filter (fun i => i ∉ D /\ edge i x = true) (seqZ 0 n)) as [|y l] eqn:Ef.
  - exfalso. apply (H x). repeat split; [lia..|done|]. unfold deg_of. by rewrite Ef.
  - assert (Hin : y ∈ filter (fun i => i ∉ D /\ edge i x = true) (seqZ 0 n)) by (rewrite Ef; left).
    apply list_elem_of_filter in Hin as [[Hy He] Hin%elem_of_seqZ]. exists y. split; [done|]. repeat split; done || lia.
Qed.

(** An order to which nothing can be added. *)
Definition maximal (l : list Z) : Prop := topo l /\ stuck l.

Lemma maximal_ready D x R : maximal (D ++ x :: R) -> topo (D ++ [x]).
Proof. intros [Ht _]. apply (topo_app _ R). by rewrite <- app_assoc. Qed.
End order.

(** The orders depend on the edges between the nodes only. *)
Lemma topo_ext n edge edge' l :
  (forall i j, E n edge i j <-> E n edge' i j) -> topo n edge l -> topo n edge' l.
Proof. intros HE Ht. induction Ht; constructor; try done. intros y ?%HE. auto. Qed.

Lemma maximal_ext n edge edge' l :
  (forall i j, E n edge i j <-> E n edge' i j) -> maximal n edge l -> maximal n edge' l.
Proof.
  intros HE [Ht Hs]. split; [by eapply topo_ext|]. intros x Hx Hn. destruct (Hs x Hx Hn) as (y & Hy & Hyx).
  exists y. split; [done|]. by apply HE.
Qed.

(** What orders the reversed edges, reversed orders the edges. *)
Lemma topo_rev n edge l : topo n (fun i j => edge j i) l -> all_nodes n l -> topo n edge (rev l).
Proof.
  intros Ht Ha. rewrite rev_alt. change (rev_append l []) with (reverse l). apply topo_intro.
  - rewrite reverse_Permutation. by eapply topo_NoDup.
  - intros x Hx. rewrite reverse_Permutation in Hx. exact (topo_nodes _ _ _ _ Ht Hx).
  - intros b x y Hb HE. destruct HE as (Hy & Hx & He). apply reverse_lookup_Some in Hb as [Hb Hlb].
    pose proof (Ha y Hy) as [c Hc]%list_elem_of_lookup.
    destruct (topo_before n (fun i j => edge j i) l c y x Ht Hc) as (a & Hac & Ea); [by split|].
    pose proof (lookup_lt_Some _ _ _ Hc). pose proof (NoDup_lookup _ _ _ _ (topo_NoDup _ _ _ Ht) Ea Hb).
    exists (length l - S c)%nat. split; [lia|]. apply reverse_lookup_Some. split; [|lia].
    by replace (length l - S (length l - S c))%nat with c by lia.
Qed.

(** One more edge. *)
Lemma deg_of_add n edge edge' i j b :
  0 <= i < n -> edge i j = false ->
  (forall a, 0 <= a < n -> edge' a b = edge a b || (bool_decide (a = i) && bool_decide (b = j))) ->
  deg_of n edge' [] b = deg_of n edge [] b + (if decide (b = j) then 1 else 0).
Proof.
  intros Hi He Hadd. unfold deg_of. assert (Hin : i ∈ seqZ 0 n) by (apply elem_of_seqZ; lia).
  assert (Hr : forall a, a ∈ seqZ 0 n -> 0 <= a < n) by (intros a ?%elem_of_seqZ; lia).
  pose proof (NoDup_seqZ 0 n) as ND. apply list_elem_of_split in Hin as (l1 & l2 & El). rewrite El in ND, Hr |- *.
  apply NoDup_app in ND as (_ & N1 & [N2 _]%NoDup_cons).
  rewrite !filter_app, !length_app, !filter_cons.
  assert (Hsame : forall l : list Z, i ∉ l -> (forall a, a ∈ l -> 0 <= a < n) ->
    filter (fun a => a ∉ [] /\ edge' a b = true) l = filter (fun a => a ∉ [] /\ edge a b = true) l).
  { intros l Hl Hlr. apply filter_in_ext. intros a Ha. rewrite Hadd by auto.
    rewrite (bool_decide_eq_false_2 (a = i)) by (intros ->; done). cbn. by rewrite orb_false_r. }
  rewrite !Hsame; [|done| |intros Hx; apply (N1 i Hx); left|];
    [|intros a Ha; apply Hr, elem_of_app; right; by right|intros a Ha; apply Hr, elem_of_app; by left].
  specialize (Hadd i ltac:(lia)). rewrite (bool_decide_eq_true_2 (i = i)) in Hadd by done. cbn in Hadd.
  destruct (decide (b = j)) as [->|Hb].
  - rewrite bool_decide_eq_true_2, orb_true_r in Hadd by done.
    rewrite decide_True by (split; [apply not_elem_of_nil|done]).
    rewrite decide_False by (rewrite He; intros [_ ?]; done). cbn [length]. lia.
  - rewrite bool_decide_eq_false_2, orb_false_r in Hadd by done. rewrite Hadd. lia.
Qed.

(** One more candidate for a predecessor. *)
Lemma deg_of_succ b edge j : 0 <= b -> deg_of (b + 1) edge [] j = deg_of b edge [] j + Z.b2z (edge b j).
Proof.
  intros Hb. unfold deg_of. rewrite seqZ_app by lia. rewrite filter_app, length_app, Nat2Z.inj_add. f_equal.
  change (seqZ (0 + b) 1) with [b]. rewrite filter_cons. destruct (edge b j) eqn:Ee.
  - rewrite decide_True by (split; [apply not_elem_of_nil|done]). done.
  - rewrite decide_False by naive_solver. done.
Qed.

(** ** The enumeration of the sortings *)

(** [shift i d] adds [d] to the in-degrees of the successors of [i]. *)
Class ShiftsDegrees (n : Z) (edge : Z -> Z -> bool) (shift : Z -> Z -> list Z -> outcome (list Z)) : Prop :=
  shift_spec i d deg g :
    0 <= i < n -> is_vec n deg g ->
    (forall j, 0 <= j < n -> - 2 ^ 31 <= g j /\ g j + Z.abs d < 2 ^ 31 /\ - 2 ^ 31 <= g j + d) ->
    exists deg', shift i d deg = Ret deg' /\ is_vec n deg' (fun j => g j + d * Z.b2z (edge i j)).

Section enumeration.
Context {T : Type} (n : Z) (edge : Z -> Z -> bool) (elems : list T) (el : Z -> T).
Context (shift : Z -> Z -> list Z -> outcome (list Z)) `{!ShiftsDegrees n edge shift}.
Context (prop : list T -> outcome bool) (holds : list T -> bool).
Context (Hn : 0 <= n < 2 ^ 30) (Hel : is_vec n elems el) (Hprop : forall l, prop l = Ret (holds l)).

(** Scheduling [x] takes the in-degrees from those of [D] to those of [D ++ [x]]. *)
Lemma shift_down D x deg :
  0 <= x < n -> x ∉ D -> is_vec n deg (deg_of n edge D) ->
  exists deg', shift x (- 1) deg = Ret deg' /\ is_vec n deg' (deg_of n edge (D ++ [x])).
Proof.
  intros Hx Hd V. destruct (shift_spec x (- 1) deg _ Hx V) as (deg' & -> & V').
  { intros j _. pose proof (deg_of_range n edge D j). lia. }
  exists deg'. split; [done|]. eapply is_vec_ext; [exact V'|]. intros j _. cbn. rewrite deg_of_snoc by done. lia.
Qed.

(** ... and back. *)
Lemma shift_up D x deg :
  0 <= x < n -> x ∉ D -> is_vec n deg (deg_of n edge (D ++ [x])) ->
  exists deg', shift x 1 deg = Ret deg' /\ is_vec n deg' (deg_of n edge D).
Proof.
  intros Hx Hd V. destruct (shift_spec x 1 deg _ Hx V) as (deg' & -> & V').
  { intros j _. pose proof (deg_of_range n edge (D ++ [x]) j). lia. }
  exists deg'. split; [done|]. eapply is_vec_ext; [exact V'|]. intros j _. cbn. rewrite deg_of_snoc by done. lia.
Qed.

(** What a call that starts from the order [D] ends with. *)
Definition explored (D : list Z) (st : Search T) : Prop :=
  if found st then exists R, maximal n edge (D ++ R) /\ holds (map el (D ++ R)) = true
  else current st = map el D /\ is_vec n (Sortings.inDegree st) (deg_of n edge D) /\
       forall R, maximal n edge (D ++ R) -> holds (map el (D ++ R)) = false.

(** The loop over the elements, when those below [i] have been tried. *)
Definition explored_below (D : list Z) (i : Z) (s : Search T * bool) : Prop :=
  let '(st, scheduled) := s in
  if found st then exists R, maximal n edge (D ++ R) /\ holds (map el (D ++ R)) = true
  else current st = map el D /\ is_vec n (Sortings.inDegree st) (deg_of n edge D) /\
       (forall x R, x < i -> maximal n edge (D ++ x :: R) -> holds (map el (D ++ x :: R)) = false) /\
       (scheduled = true <-> exists x, x < i /\ ready n edge D x).

Lemma try_element_spec rec D visited i s :
  (forall x visited st, topo n edge (D ++ [x]) -> is_vec n visited (fun i => bool_decide (i ∈ D ++ [x])) ->
     found st = false -> current st = map el (D ++ [x]) -> is_vec n (Sortings.inDegree st) (deg_of n edge (D ++ [x])) ->
     exists st', rec visited st = Ret st' /\ explored (D ++ [x]) st') ->
  topo n edge D -> is_vec n visited (fun i => bool_decide (i ∈ D)) -> 0 <= i < n -> explored_below D i s ->
  exists s', try_element elems shift rec visited s i = Ret s' /\ explored_below D (i + 1) s'.
Proof.
  intros Hrec Ht Hv Hi Hs. destruct s as [st sch]. unfold try_element, explored_below in *.
  destruct (found st) eqn:Ef; [exists (st, sch); by rewrite Ef|]. destruct Hs as (Hc & Hd & Hx & Hsch).
  rewrite (vec_at _ _ _ Hd i Hi). cbn. rewrite (vec_at _ _ _ Hv i Hi). cbn.
  destruct (decide (ready n edge D i)) as [Hr|Hr].
  - pose proof Hr as (_ & Hni & Hd0). rewrite Hd0, bool_decide_eq_false_2 by done. cbn.
    destruct (shift_down D i _ Hi Hni Hd) as (deg & -> & Hd1). cbn. rewrite (vec_at _ _ _ Hel i Hi). cbn.
    destruct (Hrec i (<[Z.to_nat i:=true]> visited) (mkSearch (current st ++ [el i]) deg false)) as (st' & Hst' & He);
      [by apply ready_topo|..|done| |done|].
    { eapply is_vec_ext; [by apply is_vec_set|]. intros j Hj. cbn. case_decide as Hji; symmetry.
      - subst. apply bool_decide_eq_true_2, elem_of_app. right. left.
      - apply bool_decide_ext. rewrite elem_of_app, list_elem_of_singleton. tauto. }
    { cbn. by rewrite Hc, map_app. }
    rewrite Hst'. cbn. unfold explored in He. destruct (found st') eqn:Ef'.
    + exists (st', sch). rewrite Ef'. split; [done|]. destruct He as (R & Hm & Hh). rewrite <- app_assoc in *. by exists (i :: R).
    + destruct He as (Hc' & Hd' & Hno). destruct (shift_up D i _ Hi Hni Hd') as (deg2 & -> & Hd2). cbn.
      eexists. split; [reflexivity|]. cbn. split; [rewrite Hc', map_app; apply removelast_last|]. split; [done|]. split.
      * intros x R Hxi Hm. destruct (decide (x = i)) as [->|Hne]; [|apply Hx; [lia|done]].
        specialize (Hno R). rewrite <- app_assoc in Hno. by apply Hno.
      * split; [|done]. intros _. exists i. split; [lia|]. done.
  - destruct ((deg_of n edge D i =? 0) && negb (bool_decide (i ∈ D))) eqn:Et.
    { exfalso. bool_to_prop. apply Hr. done. }
    exists (st, sch). rewrite Ef. split; [done|]. split; [done|]. split; [done|]. split.
    + intros x R Hxi Hm. destruct (decide (x = i)) as [->|Hne]; [|apply Hx; [lia|done]].
      exfalso. apply Hr, ready_topo; [done|]. by eapply maximal_ready.
    + rewrite Hsch. split; intros (x & Hxi & Hrx); exists x; split; try done; [lia|].
      destruct (decide (x = i)) as [->|]; [done|lia].
Qed.

(** Every maximal order that extends [D] is tried, until [holds] accepts one. *)
Lemma sortings_spec fuel : forall D visited st,
  Z.of_nat fuel + Z.of_nat (length D) = n + 1 -> topo n edge D -> is_vec n visited (fun i => bool_decide (i ∈ D)) ->
  found st = false -> current st = map el D -> is_vec n (Sortings.inDegree st) (deg_of n edge D) ->
  exists st', sortings prop elems shift fuel visited st = Ret st' /\ explored D st'.
Proof.
  induction fuel as [|fuel IH]; intros D visited st Hfuel Ht Hv Hf Hc Hd.
  { pose proof (topo_length n edge D ltac:(lia) Ht). lia. }
  cbn. rewrite Hf.
  destruct (mfold_seqZ (explored_below D) (try_element elems shift (sortings prop elems shift fuel) visited) 0 n (st, false))
    as ([st' sch] & E1 & H1); [lia| | |].
  { unfold explored_below. rewrite Hf. split; [done|]. split; [done|]. split.
    - intros x R Hx Hm%maximal_ready%topo_last. lia.
    - split; [done|]. intros (x & Hx & ? & _). lia. }
  { intros i s Hi Hs. apply try_element_spec; [|done..]. intros x visited' st1 Ht' Hv' ???.
    apply IH; [|done..]. rewrite length_app. cbn. lia. }
  rewrite (vec_len _ _ _ Hel). rewrite E1. cbn. unfold explored_below in H1. destruct (found st') eqn:Ef'.
  { exists st'. unfold explored. by rewrite Ef'. }
  destruct H1 as (Hc' & Hd' & Hno & Hsch). destruct sch; cbn.
  - exists st'. split; [done|]. unfold explored. rewrite Ef'. split; [done|]. split; [done|]. intros R Hm.
    destruct R as [|x R].
    + exfalso. destruct (proj1 Hsch eq_refl) as (x & _ & Hr). destruct Hm as [_ Hst]. rewrite app_nil_r in Hst.
      destruct Hr as (Hx & Hxn & Hx0). destruct (Hst x Hx Hxn) as (y & Hy & HE). by eapply deg_of_zero in HE.
    + apply Hno; [|done]. destruct Hm as [Hm _]. apply (topo_nodes n edge _ x) in Hm; [lia|].
      apply elem_of_app. right. left.
  - rewrite Hprop. cbn. eexists. split; [reflexivity|]. rewrite Hc'.
    assert (Hst : stuck n edge D).
    { apply not_ready_stuck. intros x Hr. enough (false = true) by done. apply Hsch. exists x. split; [|done].
      destruct Hr as [? _]. lia. }
    unfold explored. cbn. destruct (holds (map el D)) eqn:Eh.
    + exists []. by rewrite app_nil_r.
    + split; [done|]. split; [done|]. intros R [Hm _]. destruct R as [|x R]; [by rewrite app_nil_r|]. exfalso.
      rewrite cons_middle, app_assoc in Hm. apply topo_app, topo_last in Hm as (Hx & Hxn & Hp).
      destruct (Hst x Hx Hxn) as (y & Hy & HE). auto.
Qed.

(** From the beginning: whether some maximal order is accepted. *)
Lemma sortings_from_start deg :
  is_vec n deg (deg_of n edge []) ->
  exists st, sortings prop elems shift (S (length elems)) (repeat false (Z.to_nat n)) (mkSearch [] deg false) = Ret st /\
    (found st = true <-> exists l, maximal n edge l /\ holds (map el l) = true).
Proof.
  intros Hd. destruct (sortings_spec (S (length elems)) [] (repeat false (Z.to_nat n)) (mkSearch [] deg false))
    as (st & -> & He); [|constructor| |done..|].
  - pose proof (vec_len _ _ _ Hel). cbn [length]. lia.
  - eapply is_vec_ext; [apply is_vec_repeat; lia|]. intros i _. symmetry. apply bool_decide_eq_false_2. apply not_elem_of_nil.
  - exists st. split; [done|]. unfold explored in He. destruct (found st).
    + split; [intros _; exact He|done].
    + destruct He as (_ & _ & Hno). split; [done|]. intros (l & Hm & Hh). specialize (Hno l Hm). cbn in Hno. congruence.
Qed.
End enumeration.

(** ** Combinations of sortings *)

Section combinations.
Context {T G : Type} (all : (list T -> outcome bool) -> G -> outcome bool).
Context (good : G -> Prop) (sorting_of : G -> list T -> Prop).
Context (Hall : forall g prop holds, good g -> (forall l, prop l = Ret (holds l)) ->
  exists b, all prop g = Ret b /\ (b = true <-> exists s, sorting_of g s /\ holds s = true)).

Lemma combine_spec prop gs : forall current holds,
  Forall good gs -> (forall l, prop l = Ret (holds l)) ->
  exists b, combine all prop gs current = Ret b /\
    (b = true <-> exists ss, Forall2 sorting_of gs ss /\ holds (current ++ ss) = true).
Proof using Hall.
  induction gs as [|g gs IH]; intros current holds W Hp; cbn.
  - exists (holds current). split; [apply Hp|]. split.
    + intros Hh. exists []. by rewrite app_nil_r.
    + intros (ss & ->%Forall2_nil_inv_l & Hh). by rewrite app_nil_r in Hh.
  - apply Forall_cons in W as [W Ws].
    set (rest := fun sorting => combine all prop gs (current ++ [sorting])).
    set (accepts := fun sorting => match rest sorting with Ret b => b | _ => false end).
    assert (Hrest : forall s, rest s = Ret (accepts s)).
    { intros s. unfold accepts, rest. destruct (IH (current ++ [s]) holds Ws Hp) as (b & -> & _). done. }
    destruct (Hall g rest accepts W Hrest) as (b & -> & Hb). exists b. split; [done|]. rewrite Hb. clear Hb.
    assert (Hacc : forall s, accepts s = true <-> exists ss, Forall2 sorting_of gs ss /\ holds (current ++ s :: ss) = true).
    { intros s. unfold accepts, rest. destruct (IH (current ++ [s]) holds Ws Hp) as (b' & -> & Hb'). rewrite Hb'.
      split; intros (ss & HF & Hh); exists ss; (split; [done|]); by rewrite <- app_assoc in *. }
    split.
    + intros (s & Hs & Hh). apply Hacc in Hh as (ss & HF & Hh). exists (s :: ss). split; [by constructor|done].
    + intros (ss & HF & Hh). apply Forall2_cons_inv_l in HF as (s & ss' & Hs & HF & ->).
      exists s. split; [done|]. apply Hacc. by exists ss'.
Qed.
End combinations.
End SortingsFacts.

Module MatrixFacts.
Import Sortings Matrix SortingsFacts.

Section facts.
Context {T : Type} (m : Matrix2D T) (el : Z -> T).

Definition dim : Z := Z.of_nat (length (elems_ m)).

(** Square, and no index leaves [int]. *)
Record wf : Prop := {
  wf_square : Z.of_nat (length (matrix_ m)) = dim * dim;
  wf_bound : dim * dim <= 2 ^ 31
}.

(** An entry of a flat square of side [n]. *)
Definition entry (n : Z) (mx : list Z) (i j : Z) : bool := negb (nth (Z.to_nat (i * n + j)) mx 0 =? 0).

Definition edge : Z -> Z -> bool := entry dim (matrix_ m).

Context (W : wf).

Lemma dim_range : 0 <= dim < 2 ^ 30.
Proof using W. destruct W. unfold dim in *. nia. Qed.

Lemma size_dim : size m = dim.
Proof using W. pose proof dim_range. unfold size. apply wrap_small. unfold dim in *. lia. Qed.

Lemma indices_dim : indices m = seqZ 0 dim.
Proof using W. unfold indices. by rewrite size_dim. Qed.

Lemma at_edge i j : 0 <= i < dim -> 0 <= j < dim -> at_ m i j = Ret (edge i j).
Proof using W.
  intros Hi Hj. pose proof W as [L B]. unfold at_, computeIndex, edge, entry. fold dim.
  assert (0 <= i * dim + j < dim * dim) by nia. rewrite wrap_small by lia.
  destruct (is_vec_list (matrix_ m) 0) as [_ G]. rewrite G by lia. done.
Qed.

Context (Hel : is_vec dim (elems_ m) el).

(** ** In-degrees *)

Lemma getInDegrees_spec : exists deg, getInDegrees m = Ret deg /\ is_vec dim deg (deg_of dim edge []).
Proof using W.
  pose proof dim_range. unfold getInDegrees. rewrite indices_dim, size_dim.
  destruct (mfold_seqZ (fun i deg => is_vec dim deg (fun j => if decide (j < i) then deg_of dim edge [] j else 0))
    (fun deg i => mfold (fun deg j => b ← at_ m j i; add_at deg i (Z.b2z b)) (seqZ 0 dim) deg) 0 dim
    (repeat 0 (Z.to_nat dim))) as (deg & -> & V); [lia| | |].
  - eapply is_vec_ext; [apply is_vec_repeat; lia|]. intros i Hi. cbn. by rewrite decide_False by lia.
  - intros i deg Hi V.
    destruct (mfold_seqZ (fun b deg => is_vec dim deg (fun j => if decide (j < i) then deg_of dim edge [] j
        else if decide (j = i) then deg_of b edge [] i else 0))
      (fun deg j => b ← at_ m j i; add_at deg i (Z.b2z b)) 0 dim deg) as (deg' & -> & V'); [lia| | |].
    + eapply is_vec_ext; [exact V|]. intros j Hj. cbn. repeat case_decide; done.
    + intros j deg1 Hj V1. rewrite at_edge by lia. cbn.
      destruct (add_at_vec _ _ _ i (Z.b2z (edge j i)) V1) as (deg2 & -> & V2); [lia| |].
      { cbn. rewrite decide_False, decide_True by lia. pose proof (deg_of_range j edge [] i). destruct (edge j i); cbn [Z.b2z]; lia. }
      eexists. split; [done|]. eapply is_vec_ext; [exact V2|]. intros k Hk. cbn.
      destruct (decide (k = i)) as [->|]; [|repeat case_decide; done].
      rewrite !(decide_False (P := i < i)), !(decide_True (P := i = i)) by lia. rewrite deg_of_succ by lia. done.
    + eexists. split; [done|]. eapply is_vec_ext; [exact V'|]. intros j Hj. cbn. repeat case_decide; subst; done || lia.
  - exists deg. split; [done|]. eapply is_vec_ext; [exact V|]. intros j Hj. cbn. by rewrite decide_True by lia.
Qed.

(** ** The sorting *)

Lemma sources_spec deg :
  is_vec dim deg (deg_of dim edge []) ->
  exists stack, sources deg = Ret stack /\ NoDup stack /\ forall x, x ∈ stack <-> ready dim edge [] x.
Proof using W.
  intros V. pose proof dim_range. unfold sources. rewrite (vec_len _ _ _ V).
  destruct (mfold_seqZ (fun i stack => NoDup stack /\ forall x, x ∈ stack <-> x < i /\ ready dim edge [] x)
    (fun stack i => d ← vec_get deg i; Ret (if d =? 0 then i :: stack else stack)) 0 dim []) as (stack & -> & ND & Hs);
    [lia| | |].
  - split; [constructor|]. intros x. split; [by intros ?%not_elem_of_nil|]. intros (? & ? & _). lia.
  - intros i s Hi [ND Hs]. rewrite (vec_at _ _ _ V) by lia. cbn. eexists. split; [done|].
    destruct (Z.eqb_spec (deg_of dim edge [] i) 0) as [E0|E0].
    + split; [constructor; [rewrite Hs; lia|done]|]. intros x. rewrite elem_of_cons, Hs. split.
      * intros [->|[? ?]]; [|split; [lia|done]]. split; [lia|]. repeat split; [lia..|apply not_elem_of_nil|done].
      * intros [Hx Hr]. destruct (decide (x = i)); [by left|]. right. split; [lia|done].
    + split; [done|]. intros x. rewrite Hs. split; intros [Hx Hr]; (split; [|done]); [lia|].
      destruct (decide (x = i)) as [->|]; [|lia]. by destruct Hr as (_ & _ & ?).
  - exists stack. split; [done|]. split; [done|]. intros x. rewrite Hs. split; [tauto|].
    intros Hr. split; [|done]. destruct Hr as [? _]. lia.
Qed.

(** The loop over the successors of [x], which goes behind [D]. *)
Lemma relax_spec D x deg stack :
  0 <= x < dim -> x ∉ D -> is_vec dim deg (deg_of dim edge D) -> NoDup stack ->
  (forall y, y ∈ stack -> deg_of dim edge D y = 0) ->
  exists deg' stack', mfold (relax m x) (indices m) (deg, stack) = Ret (deg', stack') /\
    is_vec dim deg' (deg_of dim edge (D ++ [x])) /\ NoDup stack' /\
    forall y, y ∈ stack' <-> y ∈ stack \/ (0 <= y < dim /\ edge x y = true /\ deg_of dim edge (D ++ [x]) y = 0).
Proof using W.
  intros Hx Hn V ND Hz. pose proof dim_range. rewrite indices_dim.
  destruct (mfold_seqZ (fun i s => is_vec dim s.1 (fun j => if decide (j < i) then deg_of dim edge (D ++ [x]) j else deg_of dim edge D j) /\
      NoDup s.2 /\ forall y, y ∈ s.2 <-> y ∈ stack \/ (0 <= y < i /\ edge x y = true /\ deg_of dim edge (D ++ [x]) y = 0))
    (relax m x) 0 dim (deg, stack)) as ([deg' stack'] & -> & V' & ND' & Hs'); [lia| | |].
  - cbn. split; [|split; [done|]].
    + eapply is_vec_ext; [exact V|]. intros j Hj. cbn. by rewrite decide_False by lia.
    + intros y. split; [tauto|]. intros [?|[? _]]; [done|lia].
  - intros i [dg st] Hi (V1 & ND1 & Hs). cbn [fst snd] in *. unfold relax. rewrite at_edge by lia. cbn.
    destruct (edge x i) eqn:Ee; cbn.
    + pose proof (deg_of_range dim edge D i). pose proof (deg_of_snoc dim edge D x i Hx Hn) as Hsn.
      rewrite Ee in Hsn. cbn in Hsn.
      destruct (add_at_vec _ _ _ i (- 1) V1) as (dg' & -> & V2); [lia|cbn; rewrite decide_False by lia; lia|].
      cbn. rewrite (vec_at _ _ _ V2) by lia. cbn. rewrite decide_True, decide_False by lia.
      eexists. split; [done|]. cbn. split; [|split].
      * eapply is_vec_ext; [exact V2|]. intros j Hj. cbn. rewrite (decide_False (P := i < i)) by lia. repeat case_decide; subst; done || lia.
      * destruct (Z.eqb_spec (deg_of dim edge D i + -1) 0) as [E0|E0]; [|done]. constructor; [|done]. rewrite Hs. intros [Hin|[? _]]; [|lia].
        apply Hz in Hin. pose proof (deg_of_range dim edge (D ++ [x]) i). lia.
      * intros y. destruct (Z.eqb_spec (deg_of dim edge D i + -1) 0) as [E0|E0]; rewrite ?elem_of_cons, Hs.
        -- split; [intros [->|[?|(? & ?)]]; [right; repeat split; done || lia|tauto|right; split; [lia|tauto]]|].
           intros [?|(? & ?)]; [tauto|]. destruct (decide (y = i)); [tauto|]. right. right. split; [lia|tauto].
        -- split; (intros [?|(? & ? & ?)]; [by left|]); right; repeat split; try done; try lia.
           destruct (decide (y = i)) as [->|]; lia.
    + eexists. split; [done|]. cbn. split; [|split; [done|]].
      * eapply is_vec_ext; [exact V1|]. intros j Hj. cbn. repeat case_decide; try done; try lia.
        assert (j = i) as -> by lia. rewrite deg_of_snoc, Ee by done. cbn. lia.
      * intros y. rewrite Hs. split; (intros [?|(? & ? & ?)]; [by left|]); right; repeat split; try done; try lia.
        destruct (decide (y = i)) as [->|]; [congruence|lia].
  - exists deg', stack'. split; [done|]. cbn in *. split; [|done].
    eapply is_vec_ext; [exact V'|]. intros j Hj. cbn. by rewrite decide_True by lia.
Qed.

(** The stack holds what is ready, before and after a node goes behind [D]. *)
Lemma ready_snoc D x stack y :
  topo dim edge D -> NoDup (x :: stack) -> (forall y, y ∈ x :: stack <-> ready dim edge D y) ->
  y ∈ stack \/ (0 <= y < dim /\ edge x y = true /\ deg_of dim edge (D ++ [x]) y = 0) <-> ready dim edge (D ++ [x]) y.
Proof using W.
  intros Ht [Nx _]%NoDup_cons Hr. pose proof dim_range.
  pose proof (proj1 (Hr x) ltac:(left)) as (Hx & Hxn & Hx0).
  unfold ready. rewrite not_elem_of_app, list_elem_of_singleton.
  pose proof (deg_of_snoc dim edge D x y Hx Hxn) as Hsn. pose proof (deg_of_range dim edge (D ++ [x]) y).
  split.
  - intros [Hy|(Hy & He & Hy0)].
    + pose proof (proj1 (Hr y) ltac:(by right)) as (Hyd & Hyn & Hy0). split; [done|]. split; [split; [done|]|].
      * intros ->. done.
      * destruct (edge x y); cbn in Hsn; lia.
    + assert (HE : E dim edge x y) by (repeat split; done || lia). split; [done|]. split; [split|done].
      * intros Hin. apply Hxn. by eapply topo_closed.
      * intros ->. apply Hxn. eapply deg_of_zero in Hx0; done.
  - intros (Hy & [Hyn Hyx] & Hy0). destruct (edge x y) eqn:He; [by right|left].
    cbn in Hsn. assert (Hin : y ∈ x :: stack) by (apply Hr; repeat split; done || lia).
    apply elem_of_cons in Hin as [?|?]; done.
Qed.

Lemma topoSort_loop_spec fuel : forall D deg stack,
  Z.of_nat fuel + Z.of_nat (length D) = dim -> topo dim edge D -> is_vec dim deg (deg_of dim edge D) ->
  NoDup stack -> (forall x, x ∈ stack <-> ready dim edge D x) ->
  exists D' deg', topoSort_loop fuel m deg stack (map el D) = Ret (deg', map el D') /\
    maximal dim edge D' /\ is_vec dim deg' (deg_of dim edge D').
Proof using W Hel.
  induction fuel as [|fuel IH]; intros D deg stack Hf Ht V ND Hs; (destruct stack as [|x stack]; cbn;
    [exists D, deg; split; [done|]; split; [split; [done|]|done]; apply not_ready_stuck; intros x Hr%Hs; by apply not_elem_of_nil in Hr|]).
  - pose proof dim_range. pose proof (proj1 (Hs x) ltac:(left)) as Hr. apply ready_topo in Hr; [|done].
    apply topo_length in Hr; [|lia]. rewrite length_app in Hr. cbn in Hr. lia.
  - pose proof (proj1 (Hs x) ltac:(left)) as (Hx & Hxn & Hx0). rewrite (vec_at _ _ _ Hel) by done. cbn.
    apply NoDup_cons in ND as ND'. destruct ND' as [Nx ND'].
    destruct (relax_spec D x deg stack) as (deg1 & stack1 & -> & V1 & ND1 & Hs1); [done..| |].
    { intros y Hy. apply (Hs y). by right. }
    cbn. replace (map el D ++ [el x]) with (map el (D ++ [x])) by (by rewrite map_app).
    apply IH; [rewrite length_app; cbn; lia| |done..|].
    + apply ready_topo; [done|]. exact (conj Hx (conj Hxn Hx0)).
    + intros y. rewrite Hs1. by apply ready_snoc.
Qed.

Lemma existsb_positive deg g :
  is_vec dim deg g -> existsb (fun d => 0 <? d) deg = false <-> forall i, 0 <= i < dim -> g i <= 0.
Proof using Type.
  intros [L G]. split.
  - intros Hf i Hi. specialize (G i Hi). apply vec_get_lookup in G; [|lia]. apply list_elem_of_lookup_2, list_elem_of_In in G.
    destruct (Z.leb_spec (g i) 0); [done|]. enough (existsb (fun d => 0 <? d) deg = true) by congruence.
    apply existsb_exists. exists (g i). split; [done|]. by apply Z.ltb_lt.
  - intros Hg. apply not_true_iff_false. intros (d & Hd & Hlt)%existsb_exists. apply Z.ltb_lt in Hlt.
    apply list_elem_of_In, list_elem_of_lookup in Hd as [k Hk]. pose proof (lookup_lt_Some _ _ _ Hk).
    specialize (G (Z.of_nat k) ltac:(lia)). apply vec_get_lookup in G; [|lia]. rewrite Nat2Z.id in G.
    specialize (Hg (Z.of_nat k) ltac:(lia)). assert (d = g (Z.of_nat k)) by congruence. lia.
Qed.

(** A sorting of all the elements, or the process stops, because of a cycle. *)
Lemma topoSort_spec :
  match topoSort m with
  | Ret s => exists l, s = map el l /\ topo dim edge l /\ all_nodes dim l
  | Bug => ~ acyclic dim edge
  | Undef => False
  end.
Proof using W Hel.
  unfold topoSort. destruct getInDegrees_spec as (deg & -> & V). cbn.
  destruct (sources_spec deg V) as (stack & -> & ND & Hs). cbn.
  change (@nil T) with (map el []).
  destruct (topoSort_loop_spec (length (elems_ m)) [] deg stack) as (l & deg' & -> & [Ht Hst] & V'); [|constructor|done..|].
  { unfold dim. cbn. lia. }
  cbn. pose proof (existsb_positive _ _ V') as Hex. destruct (existsb _ deg'); cbn.
  - intros Hc. enough (true = false) by done. apply Hex. intros i Hi.
    pose proof (stuck_all_nodes _ _ _ Hc Hst) as Ha. rewrite (proj2 (deg_of_zero dim edge l i Hi)); [done|].
    intros y [Hy _]. by apply Ha.
  - exists l. split; [done|]. split; [done|]. intros x Hx. destruct (decide (x ∈ l)) as [|Hxn]; [done|].
    destruct (Hst x Hx Hxn) as (y & Hy & HE). pose proof dim_range. pose proof (deg_of_range dim edge l x ltac:(lia)).
    pose proof (proj1 Hex eq_refl x Hx). destruct Hy. apply (deg_of_zero dim edge l x Hx); [lia|done].
Qed.

(** ** All the sortings *)

#[export] Instance matrix_shift_degrees_spec : ShiftsDegrees dim edge (shift_degrees m).
Proof using W.
  intros i d deg g Hi V Hb. pose proof dim_range. unfold shift_degrees. rewrite indices_dim.
  destruct (mfold_seqZ (fun k deg => is_vec dim deg (fun j => if decide (j < k) then g j + d * Z.b2z (edge i j) else g j))
    (fun deg j => b ← at_ m i j; if b : bool then add_at deg j d else Ret deg) 0 dim deg) as (deg' & -> & V'); [lia| | |].
  - eapply is_vec_ext; [exact V|]. intros j Hj. cbn. by rewrite decide_False by lia.
  - intros k deg1 Hk V1. rewrite at_edge by lia. cbn. destruct (edge i k) eqn:Ee.
    + destruct (add_at_vec _ _ _ k d V1) as (deg2 & -> & V2); [lia| |].
      { cbn. rewrite decide_False by lia. specialize (Hb k ltac:(lia)). lia. }
      eexists. split; [done|]. eapply is_vec_ext; [exact V2|]. intros j Hj. cbn.
      rewrite (decide_False (P := k < k)) by lia. repeat case_decide; subst; try done; try lia. rewrite Ee. cbn. lia.
    + eexists. split; [done|]. eapply is_vec_ext; [exact V1|]. intros j Hj. cbn. repeat case_decide; try done; try lia.
      assert (j = k) as -> by lia. rewrite Ee. cbn. lia.
  - exists deg'. split; [done|]. eapply is_vec_ext; [exact V'|]. intros j Hj. cbn. by rewrite decide_True by lia.
Qed.

Lemma allTopoSort_spec prop holds :
  (forall l, prop l = Ret (holds l)) ->
  exists b, allTopoSort prop m = Ret b /\
    (b = true <-> exists l, maximal dim edge l /\ holds (map el l) = true).
Proof using W Hel.
  intros Hp. unfold allTopoSort, allTopoSortUtil. destruct getInDegrees_spec as (deg & -> & V). cbn [mbind outcome_bind].
  rewrite size_dim.
  destruct (sortings_from_start dim edge (elems_ m) el (shift_degrees m) prop holds dim_range Hel Hp deg V) as (st & -> & Hst).
  cbn. by exists (found st).
Qed.
End facts.

(** ** The transitive closure *)

Section closure.
Context (n : Z) (Hn : 0 <= n) (Hb : n * n <= 2 ^ 31).

Definition square (mx : list Z) : Prop := Z.of_nat (length mx) = n * n.

Lemma cell_ret i j : 0 <= i < n -> 0 <= j < n -> cell n i j = Ret (i * n + j) /\ 0 <= i * n + j < n * n.
Proof using Hn Hb. intros Hi Hj. unfold cell. rewrite int_val_ret by nia. cbn. rewrite int_val_ret by nia. split; [done|nia]. Qed.

Lemma index_inj i j a b :
  0 <= i < n -> 0 <= j < n -> 0 <= a < n -> 0 <= b < n -> Z.to_nat (i * n + j) = Z.to_nat (a * n + b) -> i = a /\ j = b.
Proof using Hb Hn n.
  intros ???? Heq. apply Z2Nat.inj in Heq; [|nia..].
  assert (i = a) by (apply (Z.div_mod_unique n i a j b); [lia..|]; lia). subst. lia.
Qed.

Lemma square_get mx i : square mx -> 0 <= i < n * n -> vec_get mx i = Ret (nth (Z.to_nat i) mx 0).
Proof using Type. intros Hs Hi. destruct (is_vec_list mx 0) as [_ G]. apply G. unfold square in Hs. lia. Qed.

Lemma or_cell_spec mx i k j :
  square mx -> 0 <= i < n -> 0 <= k < n -> 0 <= j < n ->
  exists mx', or_cell n i k mx j = Ret mx' /\ square mx' /\
    forall a b, 0 <= a < n -> 0 <= b < n ->
      entry n mx' a b = (if decide (a = i /\ b = j) then entry n mx i j || entry n mx k j else entry n mx a b).
Proof using Hn Hb.
  intros Hs Hi Hk Hj. unfold or_cell. destruct (cell_ret i j Hi Hj) as [-> Hij], (cell_ret k j Hk Hj) as [-> Hkj]. cbn.
  rewrite !square_get by done. cbn. eexists. split; [reflexivity|]. split; [unfold square; by rewrite length_insert|].
  intros a b Ha Hbr. unfold entry at 1. unfold square in Hs. case_decide as Hd.
  - destruct Hd as [-> ->]. rewrite nth_lookup, list_lookup_insert_eq by lia. cbn [default from_option id].
    unfold entry. set (x := nth _ _ _). set (y := nth _ _ _). pose proof (Z.lor_eq_0_iff x y) as Hl.
    destruct (Z.eqb_spec (Z.lor x y) 0), (Z.eqb_spec x 0), (Z.eqb_spec y 0); cbn; tauto.
  - rewrite !nth_lookup, list_lookup_insert_ne; [by rewrite <- nth_lookup|].
    intros Heq. apply Hd. apply index_inj in Heq as [-> ->]; done.
Qed.

(** Row [i] gets what row [k] has, if it has an edge to [k]. *)
Lemma or_row_spec mx i k :
  square mx -> 0 <= i < n -> 0 <= k < n -> i <> k ->
  exists mx', or_row n i mx k = Ret mx' /\ square mx' /\
    forall a b, 0 <= a < n -> 0 <= b < n ->
      entry n mx' a b = entry n mx a b || (bool_decide (a = i) && entry n mx i k && entry n mx k b).
Proof using Hn Hb.
  intros Hs Hi Hk Hik. unfold or_row. destruct (cell_ret i k Hi Hk) as [-> Hc]. cbn. rewrite square_get by done. cbn.
  assert (He : entry n mx i k = negb (nth (Z.to_nat (i * n + k)) mx 0 =? 0)) by done.
  destruct (Z.eqb (nth _ _ _) 0).
  { exists mx. split; [done|]. split; [done|]. intros a b _ _. rewrite He. cbn. by rewrite andb_false_r, orb_false_r. }
  destruct (mfold_seqZ (fun j mx' => square mx' /\ forall a b, 0 <= a < n -> 0 <= b < n ->
      entry n mx' a b = if decide (a = i /\ b < j) then entry n mx i b || entry n mx k b else entry n mx a b)
    (or_cell n i k) 0 n mx) as (mx' & E1 & Hs' & Hm'); [lia| | |].
  - split; [done|]. intros a b ? ?. by rewrite decide_False by lia.
  - intros j mx1 Hj [Hs1 Hm1]. destruct (or_cell_spec mx1 i k j) as (mx2 & -> & Hs2 & Hm2); [done|lia..|].
    exists mx2. split; [done|]. split; [done|]. intros a b Ha Hbr. rewrite Hm2 by done. case_decide as Hd.
    + destruct Hd as [-> ->]. rewrite !Hm1 by lia. rewrite decide_False by lia. rewrite decide_False by lia.
      by rewrite decide_True by lia.
    + rewrite Hm1 by done. apply decide_ext. lia.
  - exists mx'. split; [done|]. split; [done|]. intros a b Ha Hbr. rewrite Hm' by done. rewrite He. cbn.
    rewrite andb_true_r. case_decide as Hd.
    + destruct Hd as [-> _]. by rewrite bool_decide_eq_true_2 by done.
    + rewrite bool_decide_eq_false_2 by lia. cbn. by rewrite orb_false_r.
Qed.

Context (mx0 : list Z) (Hs0 : square mx0).

(** A path over the edges of the matrix as it was, through nodes below [b]. *)
Inductive via (b : Z) : Z -> Z -> Prop :=
| via_edge i j : E n (entry n mx0) i j -> via b i j
| via_node i k j : k < b -> via b i k -> via b k j -> via b i j.

Lemma via_le b b' i j : b <= b' -> via b i j -> via b' i j.
Proof using Type. intros Hl H. induction H; [by constructor|]. eapply via_node; [|done..]. lia. Qed.

(** A path through [b] splits there. *)
Lemma via_split b i j : via (b + 1) i j -> via b i j \/ (via b i b /\ via b b j).
Proof using Type.
  induction 1 as [i j HE|i k j Hk _ IH1 _ IH2]; [left; by constructor|].
  destruct (decide (k = b)) as [->|Hne]; [right; tauto|]. assert (Hlt : k < b) by lia.
  pose proof (via_node b) as V.
  destruct IH1 as [?|[? ?]], IH2 as [?|[? ?]]; first [left; by eapply V|right; split; first [done|by eapply V]].
Qed.

Lemma via_range b i j : via b i j -> 0 <= i < n /\ 0 <= j < n.
Proof using Type. induction 1 as [i j (? & ? & _)|]; tauto. Qed.

Lemma via_tc i j : via n i j <-> tc (E n (entry n mx0)) i j.
Proof using Type.
  split.
  - induction 1; [by apply tc_once|]. by eapply tc_transitive.
  - induction 1 as [i j HE|i k j HE _ IH]; [by constructor|]. apply (via_node _ _ k); [|by constructor|done].
    destruct HE as (_ & ? & _). lia.
Qed.

(** Row [i] has every path through nodes below [b]. *)
Definition has_row (mx : list Z) (i b : Z) : Prop := forall j, via b i j -> entry n mx i j = true.

(** What both passes keep: edges are not lost, and only paths are added. *)
Record between (mx : list Z) : Prop := {
  bt_square : square mx;
  bt_more i j : 0 <= i < n -> 0 <= j < n -> entry n mx0 i j = true -> entry n mx i j = true;
  bt_path i j : 0 <= i < n -> 0 <= j < n -> entry n mx i j = true -> via n i j
}.

Lemma between_start : between mx0.
Proof using Hs0. split; [done..|]. intros. by apply via_edge. Qed.

(** One step of a pass: row [i] gets the paths through [k], if row [k] has those through nodes below it. *)
Lemma or_row_step mx i k :
  between mx -> 0 <= i < n -> 0 <= k < n -> i <> k ->
  exists mx', or_row n i mx k = Ret mx' /\ between mx' /\
    (forall a b, has_row mx a b -> has_row mx' a b) /\
    (has_row mx i k -> has_row mx k k -> has_row mx' i (k + 1)).
Proof using Hn Hb.
  intros B Hi Hk Hik. destruct (or_row_spec mx i k (bt_square _ B) Hi Hk Hik) as (mx' & -> & Hs & Hm).
  exists mx'. split; [done|]. split; [|split].
  - split; [done|..].
    + intros a b Ha Hbr He. rewrite Hm by done. by rewrite (bt_more _ B) by done.
    + intros a b Ha Hbr He. rewrite Hm in He by done. apply orb_true_iff in He as [He|He]; [by apply (bt_path _ B)|].
      bool_to_prop. subst. apply (via_node _ _ k); [lia|by apply (bt_path _ B)..].
  - intros a b Hr j Hv. pose proof (via_range _ _ _ Hv) as [? ?]. rewrite Hm by done. by rewrite (Hr j Hv).
  - intros Hri Hrk j Hv. pose proof (via_range _ _ _ Hv) as [? ?]. rewrite Hm by done.
    apply via_split in Hv as [Hv|[Hv1 Hv2]]; [by rewrite (Hri _ Hv)|].
    by rewrite (Hri _ Hv1), (Hrk _ Hv2), bool_decide_eq_true_2, orb_true_r by done.
Qed.

Lemma has_row_start mx i : between mx -> has_row mx i 0.
Proof using Type.
  intros B j Hv. pose proof (via_range _ _ _ Hv) as [? ?].
  inversion Hv as [? ? HE|? k ? Hk H1 H2]; subst; [apply (bt_more _ B); [done..|by destruct HE as (_ & _ & ?)]|].
  apply via_range in H2. lia.
Qed.

(** After the first pass row [i] has the paths through nodes below [i]. *)
Lemma lower_pass_spec :
  exists mx, lower_pass n mx0 = Ret mx /\ between mx /\ forall i, 0 <= i < n -> has_row mx i i.
Proof using Hn Hb Hs0.
  unfold lower_pass. destruct (decide (n = 0)) as [E0|E0].
  { replace (seqZ 1 (n - 1)) with (@nil Z) by (by rewrite E0). exists mx0. split; [done|]. split; [apply between_start|]. lia. }
  destruct (mfold_seqZ (fun i mx => between mx /\ forall a, 0 <= a < i -> has_row mx a a)
    (fun mx i => mfold (or_row n i) (seqZ 0 i) mx) 1 (n - 1) mx0) as (mx & -> & B & Hr); [lia| | |].
  - split; [apply between_start|]. intros a Ha. assert (a = 0) as -> by lia. apply has_row_start, between_start.
  - intros i mx Hi [B Hr].
    destruct (mfold_seqZ (fun k mx => between mx /\ (forall a, 0 <= a < i -> has_row mx a a) /\ has_row mx i k)
      (or_row n i) 0 i mx) as (mx' & -> & B' & Hr' & Hi'); [lia| | |].
    + split; [done|]. split; [done|]. by apply has_row_start.
    + intros k mx1 Hk (B1 & Hr1 & Hi1). destruct (or_row_step mx1 i k B1) as (mx2 & -> & B2 & Hk2 & Hs2); [lia..|].
      exists mx2. split; [done|]. split; [done|]. split; [by auto|]. apply Hs2; [done|]. by apply Hr1.
    + exists mx'. split; [done|]. split; [done|]. intros a Ha. destruct (decide (a = i)) as [->|]; [done|]. apply Hr'. lia.
  - exists mx. split; [done|]. split; [done|]. intros i Hi. apply Hr. lia.
Qed.

(** A path from [i] through nodes up to [i] has one through smaller nodes. *)
Lemma has_row_self mx i : has_row mx i i -> has_row mx i (i + 1).
Proof using Type. intros Hr j [Hv|[_ Hv]]%via_split; by apply Hr. Qed.

Lemma upper_pass_spec mx1 :
  between mx1 -> (forall i, 0 <= i < n -> has_row mx1 i i) ->
  exists mx, upper_pass n mx1 = Ret mx /\ between mx /\ forall i, 0 <= i < n -> has_row mx i n.
Proof using Hn Hb.
  intros B1 H1. unfold upper_pass. destruct (decide (n = 0)) as [E0|E0].
  { replace (seqZ 0 (n - 1)) with (@nil Z) by (by rewrite E0). exists mx1. split; [done|]. split; [done|]. lia. }
  destruct (mfold_seqZ (fun i mx => between mx /\ (forall a, 0 <= a < n -> has_row mx a a) /\ forall a, 0 <= a < i -> has_row mx a n)
    (fun mx i => mfold (or_row n i) (seqZ (i + 1) (n - (i + 1))) mx) 0 (n - 1) mx1) as (mx & -> & B & Hr & Hd); [lia| | |].
  - split; [done|]. split; [done|]. lia.
  - intros i mx Hi (B & Hr & Hd).
    destruct (mfold_seqZ (fun k mx => between mx /\ (forall a, 0 <= a < n -> has_row mx a a) /\
        (forall a, 0 <= a < i -> has_row mx a n) /\ has_row mx i k)
      (or_row n i) (i + 1) (n - (i + 1)) mx) as (mx' & -> & B' & Hr' & Hd' & Hi'); [lia| | |].
    + split; [done|]. split; [done|]. split; [done|]. apply has_row_self, Hr. lia.
    + intros k mx2 Hk (B2 & Hr2 & Hd2 & Hi2). destruct (or_row_step mx2 i k B2) as (mx3 & -> & B3 & Hk3 & Hs3); [lia..|].
      exists mx3. split; [done|]. split; [done|]. split; [by auto|]. split; [by auto|]. apply Hs3; [done|]. apply Hr2. lia.
    + exists mx'. split; [done|]. split; [done|]. split; [done|]. intros a Ha.
      destruct (decide (a = i)) as [->|]; [by replace (i + 1 + (n - (i + 1))) with n in Hi' by lia|]. apply Hd'. lia.
  - exists mx. split; [done|]. split; [done|]. intros i Hi. destruct (decide (i = n - 1)) as [->|]; [|apply Hd; lia].
    replace n with (n - 1 + 1) at 2 by lia. apply has_row_self, Hr. lia.
Qed.
End closure.

(** ** The operations on a matrix *)

Section results.
Context {T : Type} `{EqDecision T} `{Inhabited T}.

Definition el_at (m : Matrix2D T) (i : Z) : T := nth (Z.to_nat i) (elems_ m) inhabitant.

Lemma el_at_spec m : is_vec (dim m) (elems_ m) (el_at m).
Proof. apply is_vec_list. Qed.

(** The edges between the positions of the matrix. *)
Definition rel (m : Matrix2D T) : relation Z := E (dim m) (edge m).

Lemma transClosure_spec (m : Matrix2D T) :
  wf m -> exists m', transClosure m = Ret m' /\ wf m' /\ elems_ m' = elems_ m /\
    forall i j, 0 <= i < dim m -> 0 <= j < dim m -> edge m' i j = true <-> tc (rel m) i j.
Proof.
  intros W. pose proof (dim_range m W) as Hn. destruct W as [Hs Hb]. unfold transClosure. rewrite size_dim by (by split).
  replace (signed 32 (dim m)) with (dim m) by (unfold signed; destruct (Z.ltb_spec (dim m) (2 ^ (32 - 1))); lia).
  destruct (lower_pass_spec (dim m) ltac:(lia) Hb (matrix_ m) Hs) as (mx1 & -> & B1 & H1). cbn.
  destruct (upper_pass_spec (dim m) ltac:(lia) Hb (matrix_ m) mx1 B1 H1) as (mx & -> & B & Hr). cbn.
  eexists. split; [reflexivity|]. split; [split; [exact (bt_square _ _ _ B)|exact Hb]|]. split; [done|].
  intros i j Hi Hj. unfold edge. cbn. change (dim (mkMatrix mx (elems_ m))) with (dim m). unfold rel, edge. rewrite <- via_tc.
  split; [by apply (bt_path _ _ _ B)|by apply Hr].
Qed.

Lemma isIrreflexive_spec (m : Matrix2D T) :
  wf m -> exists b, isIrreflexive m = Ret b /\ (b = true <-> forall i, 0 <= i < dim m -> edge m i i = false).
Proof.
  intros W. unfold isIrreflexive. rewrite indices_dim by done.
  enough (Hl : forall l, (forall i, i ∈ l -> 0 <= i < dim m) ->
    exists b, isIrreflexive_from m l = Ret b /\ (b = true <-> forall i, i ∈ l -> edge m i i = false)).
  { destruct (Hl (seqZ 0 (dim m))) as (b & -> & Hbl); [intros i ?%elem_of_seqZ; lia|]. exists b. split; [done|].
    rewrite Hbl. split; intros Ha i Hi; apply Ha; [apply elem_of_seqZ; lia|apply elem_of_seqZ in Hi; lia]. }
  induction l as [|i l IH]; intros Hl; cbn.
  - exists true. split; [done|]. split; [|done]. intros _ i ?%not_elem_of_nil. done.
  - rewrite at_edge by (try done; apply Hl; left). cbn. destruct (edge m i i) eqn:Ee.
    + exists false. split; [done|]. split; [done|]. intros Ha. rewrite <- Ee. symmetry. apply Ha. left.
    + destruct IH as (b & -> & Hbl); [intros j Hj; apply Hl; by right|]. exists b. split; [done|]. rewrite Hbl.
      split; [intros Ha j [->|Hj]%elem_of_cons; auto|intros Ha j Hj; apply Ha; by right].
Qed.

(** A maximal order of the elements. *)
Definition sorting_of (m : Matrix2D T) (s : list T) : Prop :=
  exists l, maximal (dim m) (edge m) l /\ s = map (el_at m) l.

Lemma allTopoSort_elements (m : Matrix2D T) prop holds :
  wf m -> (forall l, prop l = Ret (holds l)) ->
  exists b, allTopoSort prop m = Ret b /\ (b = true <-> exists s, sorting_of m s /\ holds s = true).
Proof.
  intros W Hp. destruct (allTopoSort_spec m (el_at m) W (el_at_spec m) prop holds Hp) as (b & -> & Hb).
  exists b. split; [done|]. rewrite Hb. split.
  - intros (l & Hm & Hh). exists (map (el_at m) l). split; [by exists l|done].
  - intros (s & (l & Hm & ->) & Hh). by exists l.
Qed.

(** [transClosure] of a matrix within its bounds returns the same elements with an edge
    between two positions exactly where a path of the given edges leads from the one to the other. *)
Theorem transClosure_exact (m : Matrix2D T) :
  wf m -> exists m', transClosure m = Ret m' /\ elems_ m' = elems_ m /\
    forall i j, 0 <= i < dim m -> 0 <= j < dim m -> at_ m' i j = Ret true <-> tc (rel m) i j.
Proof.
  intros W. destruct (transClosure_spec m W) as (m' & -> & W' & He & Hc). exists m'. split; [done|]. split; [done|].
  intros i j Hi Hj. assert (Hd : dim m' = dim m) by (unfold dim; by rewrite He).
  rewrite at_edge by (try done; by rewrite Hd). rewrite <- Hc by done. split; [by intros [=]|by intros ->].
Qed.

(** The two tests for cycles agree: [topoSort] sorts the elements, each
    once and after its predecessors, if the closure of the matrix is irreflexive,
    and stops the process otherwise. *)
Theorem topoSort_iff_irreflexive (m : Matrix2D T) :
  wf m -> exists b, (closed ← transClosure m; isIrreflexive closed) = Ret b /\
    if b : bool
    then exists l, topoSort m = Ret (map (el_at m) l) /\ topo (dim m) (edge m) l /\ all_nodes (dim m) l
    else topoSort m = Bug.
Proof.
  intros W. destruct (transClosure_spec m W) as (m' & -> & W' & He & Hc). cbn.
  destruct (isIrreflexive_spec m' W') as (b & -> & Hb). exists b. split; [done|].
  assert (Hd : dim m' = dim m) by (unfold dim; by rewrite He). rewrite Hd in Hb.
  pose proof (topoSort_spec m (el_at m) W (el_at_spec m)) as Hts.
  assert (Hac : b = true <-> acyclic (dim m) (edge m)).
  { rewrite Hb. split.
    - intros Hi i Hcyc. assert (Hr : 0 <= i < dim m) by (inversion Hcyc as [? ? [? _]|? ? ? [? _]]; done).
      apply (Hc i i Hr Hr) in Hcyc. by rewrite Hi in Hcyc.
    - intros Hac i Hi. destruct (edge m' i i) eqn:Ee; [|done]. apply (Hc i i Hi Hi) in Ee. by apply Hac in Ee. }
  destruct b, (topoSort m) as [s| |]; try done.
  - destruct Hts as (l & -> & Hl). by exists l.
  - by destruct Hts; apply Hac.
  - destruct Hts as (l & -> & Ht & Ha). enough (false = true) by done. apply Hac. by eapply topo_acyclic.
Qed.

(** [combineAllTopoSort] returns whether some combination of maximal orders, one of each
    matrix, satisfies the property it is given. *)
Theorem combineAllTopoSort_iff (ms : list (Matrix2D T)) (holds : list (list T) -> bool) :
  Forall wf ms ->
  exists b, combineAllTopoSort (fun ss => Ret (holds ss)) ms = Ret b /\
    (b = true <-> exists ss, Forall2 sorting_of ms ss /\ holds ss = true).
Proof.
  intros W. refine (combine_spec allTopoSort wf sorting_of _ (fun ss => Ret (holds ss)) ms [] holds W (fun _ => eq_refl)).
  clear. intros m prop holds W Hp. apply allTopoSort_elements; [done..].
Qed.
End results.
End MatrixFacts.

Module AdjListFacts.
Import Sortings SortingsFacts AdjList.

(** A loop of which a step may stop the process, for a reason [bad]. *)
Lemma mfold_or_bug {A S} (bad : Prop) (I : list A -> S -> Prop) (f : S -> A -> outcome S) l :
  (forall before x s, x ∈ l -> I before s ->
     (exists s', f s x = Ret s' /\ I (before ++ [x]) s') \/ (f s x = Bug /\ bad)) ->
  forall before s, I before s ->
     (exists s', mfold f l s = Ret s' /\ I (before ++ l) s') \/ (mfold f l s = Bug /\ bad).
Proof.
  induction l as [|x l IH]; intros Hf before s Hs; cbn.
  - left. exists s. by rewrite app_nil_r.
  - destruct (Hf before x s) as [(s1 & -> & H1)|[-> Hb]]; [left|done| |by right]. cbn.
    destruct (IH ltac:(intros; apply Hf; [by right|done]) _ _ H1) as [(s2 & E2 & H2)|[E2 Hb]]; [left|by right].
    exists s2. split; [done|]. by rewrite <- app_assoc in H2.
Qed.

Lemma vec_set_ret {A} (v : list A) i x y : vec_get v i = Ret x -> vec_set v i y = Ret (<[Z.to_nat i := y]> v).
Proof. unfold vec_set. by intros ->. Qed.

Section graph.
Context {T : Type} `{Countable T} (l : AdjList T).

Definition dim : Z := Z.of_nat (length (nodeSucc l)).

Definition succ (i : Z) : list Z := nth (Z.to_nat i) (nodeSucc l) [].

Definition edge (i j : Z) : bool := bool_decide (j ∈ succ i).

(** The bit [j] of row [i]. *)
Definition bit (tc : list (list bool)) (i j : Z) : bool := nth (Z.to_nat j) (nth (Z.to_nat i) tc []) false.

(** Rows and columns for [n] nodes. *)
Definition bits_square (n : Z) (tc : list (list bool)) : Prop :=
  Z.of_nat (length tc) = n /\ Forall (fun row => Z.of_nat (length row) = n) tc.

Record wf : Prop := {
  wf_dim : dim < 2 ^ 30;
  wf_elems : Z.of_nat (length (elems l)) = dim;
  wf_range i j : j ∈ succ i -> 0 <= j < dim;
  wf_unique i : NoDup (succ i);
  wf_degrees : is_vec dim (AdjList.inDegree l) (deg_of dim edge []);
  wf_square : bits_square dim (transC l);
  wf_bits i j : 0 <= i < dim -> 0 <= j < dim -> bit (transC l) i j = edge i j
}.

Lemma succ_get i : 0 <= i < dim -> vec_get (nodeSucc l) i = Ret (succ i).
Proof. intros Hi. destruct (is_vec_list (nodeSucc l) []) as [_ G]. by apply G. Qed.

Lemma E_succ i j : wf -> 0 <= i < dim -> E dim edge i j <-> j ∈ succ i.
Proof.
  intros W Hi. unfold E, edge. rewrite bool_decide_eq_true. split; [tauto|]. intros Hj.
  pose proof (wf_range W i j Hj). tauto.
Qed.
End graph.

(** ** Rows of bits *)

Section bits.
Context (n : Z) (tc : list (list bool)) (Hs : bits_square n tc).

Lemma row_get i : 0 <= i < n -> exists row, vec_get tc i = Ret row /\ Z.of_nat (length row) = n /\
  forall j, 0 <= j < n -> vec_get row j = Ret (bit tc i j).
Proof using Hs.
  intros Hi. destruct Hs as [L F]. destruct (is_vec_list tc []) as [_ G]. rewrite L in G.
  exists (nth (Z.to_nat i) tc []). split; [by apply G|].
  assert (Hrow : Z.of_nat (length (nth (Z.to_nat i) tc [])) = n).
  { apply (Forall_nth (fun row => Z.of_nat (length row) = n)); [done|lia]. }
  split; [done|]. intros j Hj. destruct (is_vec_list (nth (Z.to_nat i) tc []) false) as [_ G']. apply G'. lia.
Qed.

Lemma set_row i row' : 0 <= i < n -> Z.of_nat (length row') = n ->
  exists tc', vec_set tc i row' = Ret tc' /\ bits_square n tc' /\
    forall a b, 0 <= a < n -> bit tc' a b = if decide (a = i) then nth (Z.to_nat b) row' false else bit tc a b.
Proof using Hs.
  intros Hi Hrow. destruct (row_get i Hi) as (row & Hr & _). unfold vec_set. rewrite Hr. cbn.
  eexists. split; [reflexivity|]. destruct Hs as [L F]. split.
  - split; [by rewrite length_insert|]. by apply Forall_insert.
  - intros a b Ha. unfold bit. case_decide as Hd; [subst|].
    + f_equal. rewrite nth_lookup, list_lookup_insert_eq by lia. done.
    + f_equal. rewrite !nth_lookup, list_lookup_insert_ne by lia. done.
Qed.
End bits.

Lemma bits_or_length a b : length a = length b -> length (bits_or a b) = length a.
Proof. revert b. induction a as [|x a IH]; intros [|y b] Hl; cbn in *; try done. by rewrite IH by lia. Qed.

Lemma bits_or_nth a b j : nth j (bits_or a b) false = nth j a false || nth j b false.
Proof.
  revert b j. induction a as [|x a IH]; intros [|y b] [|j]; cbn; try done; by rewrite orb_false_r.
Qed.

(** ** Building the graph *)

Section building.
Context {T : Type} `{Countable T}.

Lemma succ_make (es : list T) i : succ (make es) i = [].
Proof.
  unfold succ, make. cbn. rewrite repeat_is_replicate, nth_lookup.
  destruct (replicate _ _ !! _) eqn:E0; [|done]. by apply lookup_replicate in E0 as [-> _].
Qed.

Lemma adj_make_wf (es : list T) : Z.of_nat (length es) < 2 ^ 30 -> wf (make es).
Proof.
  intros Hn. assert (Hd : dim (make es) = Z.of_nat (length es)).
  { unfold dim, make. cbn. by rewrite repeat_is_replicate, length_replicate. }
  assert (He : forall i j, edge (make es) i j = false).
  { intros i j. unfold edge. rewrite succ_make. apply bool_decide_eq_false_2, not_elem_of_nil. }
  split; rewrite ?Hd; try done.
  - intros i j. rewrite succ_make. by intros ?%not_elem_of_nil.
  - intros i. rewrite succ_make. constructor.
  - pose proof (is_vec_repeat (Z.of_nat (length es)) 0 ltac:(lia)) as V. rewrite Nat2Z.id in V.
    eapply is_vec_ext; [exact V|]. intros j Hj. cbn. symmetry. apply deg_of_zero; [done|].
    intros y (_ & _ & Hy). by rewrite He in Hy.
  - unfold make. cbn. split; [by rewrite repeat_is_replicate, length_replicate|].
    rewrite repeat_is_replicate. apply Forall_replicate. by rewrite repeat_is_replicate, length_replicate.
  - intros i j Hi Hj. rewrite He. unfold bit, make. cbn. rewrite !repeat_is_replicate, !nth_lookup.
    rewrite lookup_replicate_2 by lia. cbn. by rewrite lookup_replicate_2 by lia.
Qed.

(** The successor lists with [j] behind those of [i]. *)
Section one_edge.
Context (l l' : AdjList T) (i j : Z) (Hi : 0 <= i < dim l).
Context (Hns : nodeSucc l' = <[Z.to_nat i := succ l i ++ [j]]> (nodeSucc l)).

Lemma dim_insert : dim l' = dim l.
Proof using Hns. unfold dim. by rewrite Hns, length_insert. Qed.

Lemma succ_insert a : 0 <= a < dim l -> succ l' a = if decide (a = i) then succ l i ++ [j] else succ l a.
Proof using Hi Hns.
  intros Ha. unfold succ at 1. rewrite Hns. unfold dim in Ha, Hi. case_decide as Hai; [subst|].
  - by rewrite nth_lookup, list_lookup_insert_eq by lia.
  - unfold succ. by rewrite !nth_lookup, list_lookup_insert_ne by lia.
Qed.

Lemma edge_insert a b :
  0 <= a < dim l -> edge l' a b = edge l a b || (bool_decide (a = i) && bool_decide (b = j)).
Proof using Hi Hns.
  intros Ha. unfold edge. rewrite succ_insert by done. case_decide as Hai; [subst|].
  - rewrite (bool_decide_eq_true_2 (i = i)) by done. cbn. rewrite <- bool_decide_or. apply bool_decide_ext.
    by rewrite elem_of_app, list_elem_of_singleton.
  - rewrite (bool_decide_eq_false_2 (a = i)) by done. cbn. by rewrite orb_false_r.
Qed.

(** What the successor lists of the nodes satisfy, the empty one and so every one does. *)
Lemma succ_all (P : list Z -> Prop) : P [] -> (forall a, 0 <= a < dim l -> P (succ l' a)) -> forall a, P (succ l' a).
Proof using Hi Hns.
  intros P0 Pr a. destruct (decide (0 <= a < dim l)) as [Ha|Ha]; [by apply Pr|]. destruct (decide (a < 0)).
  - specialize (Pr 0 ltac:(lia)). unfold succ in *. by replace (Z.to_nat a) with (Z.to_nat 0) by lia.
  - unfold succ. rewrite nth_overflow; [done|]. rewrite Hns, length_insert. unfold dim in *. lia.
Qed.

Lemma succ_insert_ok :
  wf l -> 0 <= j < dim l -> edge l i j = false ->
  (forall a b, b ∈ succ l' a -> 0 <= b < dim l) /\ (forall a, NoDup (succ l' a)).
Proof using Hi Hns.
  intros W Hj Ee. split.
  - intros a b. revert a. apply (succ_all (fun s => b ∈ s -> 0 <= b < dim l)); [by intros ?%not_elem_of_nil|].
    intros a Ha. rewrite succ_insert by done. case_decide; [|apply W].
    intros [Hb| ->%list_elem_of_singleton]%elem_of_app; [by eapply wf_range|done].
  - apply (succ_all NoDup); [constructor|]. intros a Ha. rewrite succ_insert by done. case_decide; [|apply W].
    apply NoDup_app. split; [apply W|]. split; [|apply NoDup_singleton].
    intros b Hb ->%list_elem_of_singleton. by apply bool_decide_eq_false in Ee.
Qed.
End one_edge.

(** The row with the bit set, and every row as it was. *)
Lemma bits_insert (l : AdjList T) i j row tc :
  wf l -> 0 <= i < dim l -> 0 <= j < dim l -> vec_get (transC l) i = Ret row ->
  (forall a b, 0 <= a < dim l ->
     bit tc a b = if decide (a = i) then nth (Z.to_nat b) (<[Z.to_nat j := true]> row) false else bit (transC l) a b) ->
  forall a b, 0 <= a < dim l -> 0 <= b < dim l ->
    bit tc a b = edge l a b || (bool_decide (a = i) && bool_decide (b = j)).
Proof.
  intros W Hi Hj Hrow Htc a b Ha Hb.
  destruct (row_get _ _ (wf_square l W) i Hi) as (row' & Hrow' & Hlen & Hbits).
  rewrite Hrow in Hrow'. injection Hrow' as <-. rewrite Htc by done. rewrite <- (wf_bits l W) by done.
  case_decide as Hai; [subst|].
  - rewrite (bool_decide_eq_true_2 (i = i)) by done. cbn. destruct (decide (b = j)) as [->|Hne].
    + rewrite (bool_decide_eq_true_2 (j = j)), orb_true_r by done. by rewrite nth_lookup, list_lookup_insert_eq by lia.
    + rewrite (bool_decide_eq_false_2 (b = j)), orb_false_r by done.
      rewrite nth_lookup, list_lookup_insert_ne by lia. specialize (Hbits b Hb).
      apply vec_get_lookup in Hbits; [|lia]. by rewrite Hbits.
  - rewrite (bool_decide_eq_false_2 (a = i)) by done. cbn. by rewrite orb_false_r.
Qed.

Lemma adj_addEdge_spec (l : AdjList T) i j :
  wf l -> 0 <= i < dim l -> 0 <= j < dim l ->
  exists l', addEdge l i j = Ret l' /\ wf l' /\ dim l' = dim l /\ elems l' = elems l /\ ids l' = ids l /\
    forall a b, 0 <= a < dim l -> edge l' a b = edge l a b || (bool_decide (a = i) && bool_decide (b = j)).
Proof.
  intros W Hi Hj. unfold addEdge, has_edge.
  destruct (row_get _ _ (wf_square l W) i Hi) as (row & Hrow & Hlen & Hbits). rewrite Hrow. cbn.
  rewrite Hbits by done. cbn. rewrite (wf_bits l W) by done. destruct (edge l i j) eqn:Ee.
  { exists l. do 5 (split; [done|]). intros a b _. destruct (decide (a = i /\ b = j)) as [[-> ->]|Hne]; [by rewrite Ee|].
    destruct (bool_decide_reflect (a = i)), (bool_decide_reflect (b = j)); try tauto; by rewrite orb_false_r. }
  rewrite succ_get by done. cbn. rewrite (vec_set_ret _ _ _ _ (succ_get l i Hi)). cbn.
  rewrite (vec_set_ret _ _ _ _ (Hbits j Hj)). cbn.
  destruct (set_row _ _ (wf_square l W) i (<[Z.to_nat j:=true]> row) Hi) as (tc & -> & Hsq & Htc); [by rewrite length_insert|]. cbn.
  pose proof (deg_of_range (dim l) (edge l) [] j) as Hdr. pose proof (wf_dim l W) as Hdim.
  destruct (add_at_vec _ _ _ j 1 (wf_degrees l W) Hj) as (deg & -> & Hdeg); [lia|]. cbn.
  set (l' := mkAdj _ _ _ _ _ _). exists l'. split; [done|].
  pose proof (dim_insert l l' i j eq_refl) as Hd. pose proof (edge_insert l l' i j Hi eq_refl) as Hedge.
  destruct (succ_insert_ok l l' i j Hi eq_refl W Hj Ee) as [Hsr Hsu].
  split; [|done]. split; rewrite ?Hd; [done|apply W|done|done| |done|].
  - eapply is_vec_ext; [exact Hdeg|]. intros b Hb. cbn. symmetry.
    rewrite (deg_of_add (dim l) (edge l) (edge l') i j b Hi Ee) by (intros; by apply Hedge). case_decide; subst; lia.
  - intros a b Ha Hb. rewrite Hedge by done. by apply (bits_insert l i j row).
Qed.

Lemma addEdge_wf (l l' : AdjList T) i j :
  wf l -> 0 <= i < dim l -> 0 <= j < dim l -> addEdge l i j = Ret l' -> wf l'.
Proof. intros W Hi Hj E0. destruct (adj_addEdge_spec l i j W Hi Hj) as (l2 & E2 & W2 & _). congruence. Qed.

(** After [addNode] no edge from an old node to the new one can be added: the rows
    of the old nodes have no bit for it, and the row of the new one is a bit short. *)
Lemma addNode_addEdge_undef (l : AdjList T) a i :
  wf l -> 0 <= i <= dim l -> addEdge (addNode l a) i (dim l) = Undef.
Proof.
  intros W Hi. pose proof (wf_square l W) as [L F]. pose proof (wf_elems l W) as He.
  assert (Hrow : exists row, vec_get (transC (addNode l a)) i = Ret row /\ Z.of_nat (length row) = dim l).
  { destruct (decide (i = dim l)) as [->|Hne].
    - exists (repeat false (length (elems l))). rewrite repeat_is_replicate, length_replicate. split; [|done].
      apply vec_get_lookup; [lia|]. unfold addNode. cbn. rewrite lookup_app_r by lia.
      replace (Z.to_nat (dim l) - length (transC l))%nat with 0%nat by lia. by rewrite repeat_is_replicate.
    - destruct (row_get _ _ (wf_square l W) i ltac:(lia)) as (row & Hrow & Hlen & _). exists row. split; [|done].
      apply vec_get_lookup in Hrow; [|lia]. apply vec_get_lookup; [lia|]. unfold addNode. cbn.
      rewrite lookup_app_l by lia. done. }
  destruct Hrow as (row & Hr & Hlen). unfold addEdge, has_edge. rewrite Hr. cbn. unfold vec_get.
  destruct (Z.ltb_spec (dim l) 0); [unfold dim in *; lia|]. rewrite (proj2 (lookup_ge_None row (Z.to_nat (dim l)))); [done|lia].
Qed.
End building.

(** ** The exploration *)

Section dfs.
Context {T : Type} `{Countable T} (l : AdjList T) (W : wf l) {X : Type}.

Abbreviation n := (dim l).
Abbreviation EE := (E n (edge l)).

(** A node that is entered, and the number of the nodes that had been left then; the last one is first. *)
Abbreviation stack := (list (Z * nat)).

Definition parent_ok (gray : stack) (i : Z) : Prop :=
  match gray with [] => True | (g, _) :: _ => EE g i end.

(** The entered nodes are a path. *)
Fixpoint path_ok (gray : stack) : Prop :=
  match gray with [] => True | (i, _) :: gray => parent_ok gray i /\ path_ok gray end.

Record placed (gray : stack) (out : list Z) : Prop := {
  pl_unique : NoDup (out ++ gray.*1);
  pl_range i : i ∈ out ++ gray.*1 -> 0 <= i < n;
  pl_path : path_ok gray
}.

(** From an entered node a path leads to the last one. *)
Lemma path_reaches gray i k j : path_ok ((i, k) :: gray) -> j ∈ gray.*1 -> tc EE j i.
Proof using Type.
  revert i k. induction gray as [|[g k'] gray IH]; intros i k [Hp Hrest] Hj; [by apply not_elem_of_nil in Hj|].
  cbn in Hj. apply elem_of_cons in Hj as [->|Hj]; [by apply tc_once|].
  eapply tc_r; [by eapply IH|exact Hp].
Qed.

Lemma placed_room gray out i :
  placed gray out -> 0 <= i < n -> i ∉ out ++ gray.*1 -> (length out + length gray < Z.to_nat n)%nat.
Proof using Type.
  intros [U R _] Hi Hni. pose proof (submseteq_length (i :: out ++ gray.*1) (seqZ 0 n)) as L.
  rewrite length_seqZ in L. cbn in L. rewrite length_app, length_fmap in L.
  enough (i :: out ++ gray.*1 ⊆+ seqZ 0 n) by (specialize (L ltac:(done)); lia).
  apply NoDup_submseteq; [by constructor|]. intros x Hx. apply elem_of_seqZ.
  apply elem_of_cons in Hx as [->|Hx]; [lia|]. apply R in Hx. lia.
Qed.

Definition status_of (gray : stack) (out : list Z) (i : Z) : NodeStatus :=
  if decide (i ∈ out) then left else if decide (i ∈ gray.*1) then entered else unseen.

(** The variables of [dfs] say which nodes are entered and which are left. *)
Record shows (gray : stack) (out : list Z) (s : Dfs) : Prop := {
  sh_status : is_vec n (AdjList.m s) (status_of gray out);
  sh_p : Z.of_nat (length (AdjList.p s)) = n;
  sh_d : Z.of_nat (length (AdjList.d s)) = n;
  sh_f : Z.of_nat (length (AdjList.f s)) = n
}.

Lemma vec_set_len {A} (v : list A) i x :
  Z.of_nat (length v) = n -> 0 <= i < n -> exists v', vec_set v i x = Ret v' /\ Z.of_nat (length v') = n.
Proof using Type.
  intros Hv Hi. destruct (is_vec_list v x) as [_ G]. rewrite (vec_set_ret _ _ _ _ (G i ltac:(lia))).
  eexists. split; [done|]. by rewrite length_insert.
Qed.

Lemma enter_spec gray out s i k :
  shows gray out s -> 0 <= i < n -> i ∉ out ->
  exists s', enter i s = Ret s' /\ shows ((i, k) :: gray) out s'.
Proof using Type.
  intros [V P D F] Hi Hni. unfold enter. rewrite (vec_set_ret _ _ _ _ (vec_at _ _ _ V i Hi)). cbn.
  destruct (vec_set_len (AdjList.d s) i (u32 (AdjList.t s + 1)) D Hi) as (d' & -> & Hd). cbn.
  eexists. split; [done|]. split; [|done..]. eapply is_vec_ext; [by apply is_vec_set|]. intros j Hj. cbn.
  unfold status_of. cbn. case_decide; [subst; by rewrite (decide_False (P := i ∈ out)), decide_True by (done || left)|].
  case_decide; [done|]. apply decide_ext. rewrite elem_of_cons. tauto.
Qed.

Lemma leave_spec gray out s i k :
  shows ((i, k) :: gray) out s -> 0 <= i < n ->
  exists s', leave i s = Ret s' /\ shows gray (out ++ [i]) s'.
Proof using Type.
  intros [V P D F] Hi. unfold leave. rewrite (vec_set_ret _ _ _ _ (vec_at _ _ _ V i Hi)). cbn.
  destruct (vec_set_len (AdjList.f s) i (u32 (AdjList.t s + 1)) F Hi) as (f' & -> & Hf). cbn.
  eexists. split; [done|]. split; [|done..]. eapply is_vec_ext; [by apply is_vec_set|]. intros j Hj. cbn.
  unfold status_of. case_decide as Hji.
  - subst. by rewrite decide_True by (apply elem_of_app; right; left).
  - assert (Hout : j ∈ out ++ [i] <-> j ∈ out) by (rewrite elem_of_app, list_elem_of_singleton; tauto).
    rewrite (decide_ext _ _ _ _ Hout). case_decide; [done|]. apply decide_ext. cbn. rewrite elem_of_cons. tauto.
Qed.

(** What is known of the callbacks: nothing happens on entry and at tree and
    forward edges, a back edge may stop the process, leaving changes the rest. *)
Context (exitX : Z -> X -> outcome X) (stops : bool).
Context (atBackE : Z -> Z -> Dfs * X -> outcome (Dfs * X)) (atExitV : Z -> Dfs * X -> outcome (Dfs * X)).
Context (Hback : forall i j s, atBackE i j s = if stops then Bug else Ret s).
Context (Hexit : forall i s, atExitV i s = (x ← exitX i s.2; Ret (s.1, x))).

(** An invariant of the nodes and of what the callbacks keep. *)
Context (Inv : stack -> list Z -> X -> Prop).
Context (Henter : forall gray out x i,
  placed ((i, length out) :: gray) out -> Inv gray out x -> Inv ((i, length out) :: gray) out x).
Context (Hleave : forall gray out x i k,
  placed ((i, k) :: gray) out -> Inv ((i, k) :: gray) out x ->
  (forall j, j ∈ succ l i -> j ∈ out \/ (stops = false /\ j ∈ i :: gray.*1)) ->
  exists x', exitX i x = Ret x' /\ Inv gray (out ++ [i]) x').

Abbreviation explore := (dfsUtil (fun _ s => Ret s) (fun _ _ s => Ret s) atBackE (fun _ _ s => Ret s) atExitV).

Record ok (gray : stack) (out : list Z) (s : Dfs * X) : Prop := {
  ok_placed : placed gray out;
  ok_shows : shows gray out s.1;
  ok_inv : Inv gray out s.2
}.

(** Stopping at a back edge, for a cycle. *)
Definition stopped : Prop := stops = true /\ exists c, tc EE c c.

Lemma placed_enter gray out i :
  placed gray out -> 0 <= i < n -> i ∉ out ++ gray.*1 -> parent_ok gray i -> placed ((i, length out) :: gray) out.
Proof using Type.
  intros [U R P] Hi Hni Hp. split; [|intros j; cbn; rewrite <- Permutation_middle; intros [->|?]%elem_of_cons; auto|done].
  cbn. rewrite <- Permutation_middle. by constructor.
Qed.

Lemma placed_leave gray out i k : placed ((i, k) :: gray) out -> placed gray (out ++ [i]).
Proof using Type.
  intros [U R [_ P]]. cbn in *. split; [|intros j Hj; apply R|done]; by rewrite <- app_assoc in *.
Qed.

Lemma visit_succ_spec fuel gray out i k s j :
  (forall gray out s i, ok gray out s -> 0 <= i < n -> i ∉ out ++ gray.*1 -> parent_ok gray i ->
     (Z.to_nat n <= fuel + length out + length gray)%nat ->
     (exists s' new, explore fuel l i s = Ret s' /\ ok gray (out ++ new) s' /\ i ∈ new) \/
     (explore fuel l i s = Bug /\ stopped)) ->
  ok ((i, k) :: gray) out s -> j ∈ succ l i -> (Z.to_nat n <= fuel + length out + S (length gray))%nat ->
  (exists s' new, visit_succ (fun _ _ s => Ret s) atBackE (fun _ _ s => Ret s) (explore fuel l) i s j = Ret s' /\
     ok ((i, k) :: gray) (out ++ new) s' /\ (j ∈ out ++ new \/ (stops = false /\ j ∈ i :: gray.*1))) \/
  (visit_succ (fun _ _ s => Ret s) atBackE (fun _ _ s => Ret s) (explore fuel l) i s j = Bug /\ stopped).
Proof using EqDecision0 H Hback Hleave Inv T W X atBackE atExitV exitX l stops.
  intros IH [P S V] Hj Hf. pose proof (wf_range l W _ _ Hj) as Hjn.
  assert (Hin : 0 <= i < n) by (apply (pl_range _ _ P), elem_of_app; right; left).
  pose proof (proj2 (E_succ l i j W Hin) Hj) as HE.
  unfold visit_succ. rewrite (vec_at _ _ _ (sh_status _ _ _ S) j Hjn). cbn [mbind outcome_bind]. unfold status_of.
  destruct (decide (j ∈ out)) as [Hjo|Hjo].
  { left. exists s, []. rewrite app_nil_r. split; [done|]. split; [by split|]. by left. }
  destruct (decide (j ∈ ((i, k) :: gray).*1)) as [Hjg|Hjg].
  - rewrite Hback. destruct stops eqn:Est.
    + right. split; [done|]. split; [done|]. exists j. cbn in Hjg. apply elem_of_cons in Hjg as [->|Hjg]; [by apply tc_once|].
      eapply tc_r; [|exact HE]. eapply path_reaches; [exact (pl_path _ _ P)|done].
    + left. exists s, []. rewrite app_nil_r. split; [done|]. split; [by split|]. right. done.
  - destruct (vec_set_len (AdjList.p s.1) j i (sh_p _ _ _ S) Hjn) as (p' & -> & Hp). cbn.
    destruct (IH ((i, k) :: gray) out (mkDfs (AdjList.t s.1) (AdjList.m s.1) p' (AdjList.d s.1) (AdjList.f s.1), s.2) j)
      as [(s' & new & -> & Hok & Hnew)|[-> Hst]]; [|done| |done| | |by right].
    + split; [done| |done]. destruct S as [S1 S2 S3 S4]. split; done.
    + rewrite elem_of_app. tauto.
    + cbn. lia.
    + left. exists s', new. cbn. split; [done|]. split; [done|]. left. apply elem_of_app. by right.
Qed.

(** [dfsUtil] enters an unseen node and leaves it, or stops at a back edge. *)
Lemma dfsUtil_spec fuel : forall gray out s i,
  ok gray out s -> 0 <= i < n -> i ∉ out ++ gray.*1 -> parent_ok gray i ->
  (Z.to_nat n <= fuel + length out + length gray)%nat ->
  (exists s' new, explore fuel l i s = Ret s' /\ ok gray (out ++ new) s' /\ i ∈ new) \/
  (explore fuel l i s = Bug /\ stopped).
Proof using W Hback Hexit Henter Hleave.
  induction fuel as [|fuel IH]; intros gray out s i [P S V] Hi Hni Hpar Hf.
  { pose proof (placed_room _ _ _ P Hi Hni). lia. }
  cbn. pose proof (placed_enter _ _ _ P Hi Hni Hpar) as P1.
  destruct (enter_spec gray out s.1 i (length out) S Hi) as (st & -> & S1); [rewrite elem_of_app in Hni; tauto|]. cbn.
  rewrite succ_get by done. cbn.
  destruct (mfold_or_bug stopped (fun before s => exists new, ok ((i, length out) :: gray) (out ++ new) s /\
      forall j, j ∈ before -> j ∈ out ++ new \/ (stops = false /\ j ∈ i :: gray.*1))
    (visit_succ (fun _ _ s => Ret s) atBackE (fun _ _ s => Ret s) (explore fuel l) i) (succ l i)) with (before := @nil Z) (s := (st, s.2))
    as [([st' x'] & -> & new & [P2 S2 V2] & Hall)|[-> Hst]].
  - intros before j s1 Hj (new & Hok & Hall).
    destruct (visit_succ_spec fuel gray (out ++ new) i (length out) s1 j IH Hok Hj) as [(s2 & new' & -> & Hok' & Hj')|?];
      [rewrite length_app; lia| |by right].
    left. exists s2. split; [done|]. exists (new ++ new'). rewrite app_assoc. split; [done|].
    intros b [Hb|[->|[]%elem_of_nil]%elem_of_cons]%elem_of_app; [|done].
    destruct (Hall b Hb) as [?|?]; [|by right]. left. apply elem_of_app. by left.
  - exists []. rewrite app_nil_r. split; [by split; [| |apply Henter]|]. intros j ?%not_elem_of_nil. done.
  - cbn in S2, V2 |- *. destruct (leave_spec gray (out ++ new) st' i (length out) S2 Hi) as (st2 & -> & S3). cbn.
    rewrite Hexit. cbn. destruct (Hleave gray (out ++ new) x' i (length out) P2 V2) as (x2 & -> & V3); [done|]. cbn.
    left. exists (st2, x2), (new ++ [i]). rewrite app_assoc. split; [done|]. split; [split; [|done..]|].
    + by eapply placed_leave.
    + apply elem_of_app. right. left.
  - by right.
Qed.

(** [dfs] leaves every node, or stops at a back edge. *)
Lemma dfs_spec x :
  Inv [] [] x ->
  (exists s out, dfs (fun _ s => Ret s) (fun _ _ s => Ret s) atBackE (fun _ _ s => Ret s) atExitV (fun s => Ret s) l x = Ret s /\
     ok [] out s /\ all_nodes n out) \/
  (dfs (fun _ s => Ret s) (fun _ _ s => Ret s) atBackE (fun _ _ s => Ret s) atExitV (fun s => Ret s) l x = Bug /\ stopped).
Proof using W Hback Hexit Henter Hleave.
  intros V. unfold dfs.
  destruct (mfold_or_bug stopped (fun before s => exists out, ok [] out s /\ forall j, j ∈ before -> j ∈ out)
    (dfs_root (fun _ s => Ret s) (fun _ _ s => Ret s) atBackE (fun _ _ s => Ret s) atExitV l)
    (seqZ 0 (Z.of_nat (length (nodeSucc l))))) with (before := @nil Z) (s := (start l, x))
    as [(s & -> & out & Hok & Hall)|[-> Hst]].
  - intros before i s Hi%elem_of_seqZ (out & [P S V1] & Hall). assert (Hin : 0 <= i < n) by (unfold dim; lia).
    unfold dfs_root. rewrite (vec_at _ _ _ (sh_status _ _ _ S) i Hin). cbn [mbind outcome_bind]. unfold status_of.
    assert (Hkeep : forall out' : list Z, (forall j, j ∈ out -> j ∈ out') -> i ∈ out' -> forall j, j ∈ before ++ [i] -> j ∈ out').
    { intros out' Ho Hio j [Hj|[->|[]%elem_of_nil]%elem_of_cons]%elem_of_app; auto. }
    destruct (decide (i ∈ out)) as [Hio|Hio]; [left; exists s; split; [done|]; exists out; split; [by split|by apply Hkeep]|].
    destruct (decide (i ∈ ([] : stack).*1)) as [[]%elem_of_nil|_].
    destruct (dfsUtil_spec (length (nodeSucc l)) [] out s i) as [(s' & new & -> & Hok & Hnew)|?]; [by split|done| |done| | |by right].
    + cbn. by rewrite app_nil_r.
    + unfold dim. lia.
    + left. exists s'. split; [done|]. exists (out ++ new). split; [done|]. apply Hkeep; [|by apply elem_of_app; right].
      intros j Hj. apply elem_of_app. by left.
  - exists []. split; [|intros j ?%not_elem_of_nil; done]. split; [|split|done].
    + split; [constructor|by intros i ?%not_elem_of_nil|done].
    + unfold start. cbn. pose proof (is_vec_repeat n unseen ltac:(unfold dim; lia)) as V1. unfold dim in V1. rewrite Nat2Z.id in V1.
      eapply is_vec_ext; [exact V1|]. intros i _. unfold status_of. rewrite decide_False by apply not_elem_of_nil. done.
    + cbn. unfold dim. by rewrite repeat_is_replicate, length_replicate.
    + cbn. unfold dim. by rewrite repeat_is_replicate, length_replicate.
    + cbn. unfold dim. by rewrite repeat_is_replicate, length_replicate.
  - left. exists s, out. split; [done|]. split; [done|]. intros i Hi. apply Hall, elem_of_seqZ. unfold dim in Hi. lia.
  - by right.
Qed.
End dfs.

(** ** The sorting *)

Section sorting.
Context {T : Type} `{Countable T} (l : AdjList T) (W : wf l) (el : Z -> T) (Hel : is_vec (dim l) (elems l) el).

(** The nodes that were left, in order, all behind their successors. *)
Definition sorted_inv (gray : list (Z * nat)) (out : list Z) (x : list T) : Prop :=
  x = map el out /\ topo (dim l) (fun i j => edge l j i) out.

Definition push (i : Z) (x : list T) : outcome (list T) := e ← vec_get (elems l) i; Ret (x ++ [e]).

Lemma sorted_leave gray out x i k :
  placed l ((i, k) :: gray) out -> sorted_inv ((i, k) :: gray) out x ->
  (forall j, j ∈ succ l i -> j ∈ out \/ (true = false /\ j ∈ i :: gray.*1)) ->
  exists x', push i x = Ret x' /\ sorted_inv gray (out ++ [i]) x'.
Proof using W Hel.
  intros P [-> Ht] Hs. assert (Hi : 0 <= i < dim l) by (apply (pl_range _ _ _ P), elem_of_app; right; left).
  unfold push. rewrite (vec_at _ _ _ Hel i Hi). cbn. eexists. split; [reflexivity|].
  split; [by rewrite map_app|]. constructor; [done|done| |].
  - pose proof (pl_unique _ _ _ P) as U. apply NoDup_app in U as (_ & U & _). intros Hin. apply (U i Hin). left.
  - intros y (Hy & _ & He). destruct (Hs y) as [?|[? _]]; [|done..]. by apply bool_decide_eq_true in He.
Qed.

Lemma adj_topoSort_spec :
  match topoSort l with
  | Ret s => exists ord, s = map el ord /\ topo (dim l) (edge l) ord /\ all_nodes (dim l) ord
  | Bug => exists c, tc (E (dim l) (edge l)) c c
  | Undef => False
  end.
Proof using W Hel.
  unfold topoSort.
  destruct (dfs_spec l W push true (fun _ _ _ => Bug) (fun i s => e ← vec_get (elems l) i; Ret (s.1, s.2 ++ [e]))
    ltac:(done) ltac:(intros i s; unfold push; by destruct (vec_get _ _)) sorted_inv ltac:(by intros) sorted_leave [])
    as [(s & out & -> & [_ _ [Hx Ht]] & Ha)|[-> [_ Hc]]]; [by split; [|constructor]| |done].
  cbn. exists (rev out). split; [by rewrite Hx, map_rev|]. split; [by apply topo_rev|].
  intros i Hi. apply list_elem_of_In, in_rev. rewrite rev_involutive. apply list_elem_of_In. by apply Ha.
Qed.
End sorting.

(** ** The closure *)

Section closure.
Context {T : Type} `{Countable T} (l : AdjList T) (W : wf l).

Abbreviation n := (dim l).
Abbreviation EE := (E n (edge l)).
Abbreviation rows := (list (list bool)).

(** What leaving [i] makes of the rows. *)
Definition absorb_all (i : Z) (tc : rows) : outcome rows :=
  succs ← vec_get (nodeSucc l) i; mfold (absorb i) succs tc.

Lemma absorb_spec tc i j :
  bits_square n tc -> 0 <= i < n -> 0 <= j < n ->
  exists tc', absorb i tc j = Ret tc' /\ bits_square n tc' /\
    forall a b, 0 <= a < n -> 0 <= b < n ->
      bit tc' a b = if decide (a = i) then bit tc i b || bit tc j b || bool_decide (b = j) else bit tc a b.
Proof using Type.
  intros Hs Hi Hj. unfold absorb. destruct (row_get n tc Hs i Hi) as (ri & Hri & Li & Bi), (row_get n tc Hs j Hj) as (rj & Hrj & Lj & Bj).
  rewrite Hri, Hrj. cbn.
  assert (Lo : length (bits_or ri rj) = length ri) by (apply bits_or_length; lia).
  assert (G : vec_get (bits_or ri rj) j = Ret (nth (Z.to_nat j) (bits_or ri rj) false)).
  { destruct (is_vec_list (bits_or ri rj) false) as [_ G]. apply G. lia. }
  rewrite (vec_set_ret _ _ _ _ G). cbn.
  destruct (set_row n tc Hs i (<[Z.to_nat j:=true]> (bits_or ri rj)) Hi) as (tc' & -> & Hs' & Hb'); [rewrite length_insert; lia|].
  exists tc'. split; [done|]. split; [done|]. intros a b Ha Hbn. rewrite Hb' by done. case_decide as Hai; [|done].
  specialize (Bi b Hbn). specialize (Bj b Hbn). apply vec_get_lookup in Bi, Bj; [|lia..].
  destruct (decide (b = j)) as [->|Hne].
  - rewrite nth_lookup, list_lookup_insert_eq by lia. by rewrite bool_decide_eq_true_2, orb_true_r.
  - rewrite nth_lookup, list_lookup_insert_ne, <- nth_lookup, bits_or_nth by lia.
    rewrite (bool_decide_eq_false_2 (b = j)), orb_false_r by done.
    by rewrite (nth_lookup_Some _ _ _ _ Bi), (nth_lookup_Some _ _ _ _ Bj).
Qed.

Lemma absorb_all_spec tc i :
  bits_square n tc -> 0 <= i < n ->
  exists tc', absorb_all i tc = Ret tc' /\ bits_square n tc' /\
    (forall a b, 0 <= a < n -> 0 <= b < n -> a <> i -> bit tc' a b = bit tc a b) /\
    (forall b, 0 <= b < n -> bit tc' i b = true <->
       bit tc i b = true \/ exists j, j ∈ succ l i /\ (bit tc j b = true \/ b = j)).
Proof using W.
  intros Hs Hi. unfold absorb_all. rewrite succ_get by done. cbn [mbind outcome_bind].
  destruct (mfold_or_bug False (fun before tc' => bits_square n tc' /\
      (forall a b, 0 <= a < n -> 0 <= b < n -> a <> i -> bit tc' a b = bit tc a b) /\
      (forall b, 0 <= b < n -> bit tc' i b = true <->
         bit tc i b = true \/ exists j, j ∈ before /\ (bit tc j b = true \/ b = j)))
    (absorb i) (succ l i)) with (before := @nil Z) (s := tc) as [(tc' & -> & Hs' & Ho & Hr)|[_ []]].
  - intros before j tc1 Hj (Hs1 & Ho1 & Hr1). pose proof (wf_range l W _ _ Hj) as Hjn.
    destruct (absorb_spec tc1 i j Hs1 Hi Hjn) as (tc2 & -> & Hs2 & Hb2). left. exists tc2. split; [done|]. split; [done|]. split.
    + intros a b Ha Hb Hai. rewrite Hb2 by done. rewrite decide_False by done. by apply Ho1.
    + intros b Hb. rewrite Hb2 by done. rewrite decide_True by done. rewrite !orb_true_iff, bool_decide_eq_true, (Hr1 b Hb).
      setoid_rewrite elem_of_app. setoid_rewrite list_elem_of_singleton. destruct (decide (j = i)) as [->|Hji].
      * rewrite (Hr1 b Hb). naive_solver.
      * rewrite (Ho1 j b) by done. naive_solver.
  - split; [done|]. split; [done|]. intros b Hb. split; [by left|]. intros [?|(j & ?%not_elem_of_nil & _)]; done.
  - exists tc'. done.
Qed.

(** Every bit of the row of [x] is one of the row of [y]. *)
Definition sub_row (tc : rows) (x y : Z) : Prop := forall b, 0 <= b < n -> bit tc x b = true -> bit tc y b = true.

(** Of an entered node [g]: what was left since then has its bits in a
    successor of [g] that was left, and what was left before has its
    successors among these, or among what was entered before. *)
Fixpoint gray_ok (tc : rows) (out : list Z) (gray : list (Z * nat)) (h : nat) : Prop :=
  match gray with
  | [] => True
  | (g, k) :: gray =>
      (k <= h)%nat /\
      (forall q x, (k <= q < h)%nat -> out !! q = Some x -> exists y, EE g y /\ y ∈ out /\ sub_row tc x y) /\
      (forall q x y, (q < k)%nat -> out !! q = Some x -> EE x y -> y ∈ take k out \/ y ∈ gray.*1) /\
      gray_ok tc out gray k
  end.

Record closing (gray : list (Z * nat)) (out : list Z) (tc : rows) : Prop := {
  cl_square : bits_square n tc;
  cl_edges x y : EE x y -> bit tc x y = true;
  cl_sound x y : 0 <= x < n -> 0 <= y < n -> bit tc x y = true -> relations.tc EE x y;
  cl_sub p q x y : out !! p = Some x -> out !! q = Some y -> (q < p)%nat -> EE x y -> sub_row tc y x;
  cl_left p i : out !! p = Some i -> exists k, (k <= p)%nat /\
    (forall q x, (k <= q < p)%nat -> out !! q = Some x -> sub_row tc x i) /\
    (forall q x y, (q < k)%nat -> out !! q = Some x -> EE x y -> y ∈ take k out \/ y ∉ take (S p) out);
  cl_gray : gray_ok tc out gray (length out);
  cl_succ x y : x ∈ out -> EE x y -> y ∈ out \/ y ∈ gray.*1
}.

Lemma closing_start : calculatedTransC l = false -> closing [] [] (transC l).
Proof using W.
  intros _. split; try done; [apply W|..].
  - intros x y (Hx & Hy & He). by rewrite (wf_bits l W).
  - intros x y Hx Hy Hb. apply tc_once. rewrite (wf_bits l W) in Hb by done. by split.
  - by intros x y ?%not_elem_of_nil.
Qed.

Lemma closing_enter gray out tc i :
  placed l ((i, length out) :: gray) out -> closing gray out tc -> closing ((i, length out) :: gray) out tc.
Proof using Type.
  intros P C. split; [apply C..| |].
  - cbn. split; [done|]. split; [lia|]. split; [|apply C]. intros q x y Hq Hx HE.
    rewrite firstn_all. apply (cl_succ _ _ _ C x y); [by eapply list_elem_of_lookup_2|done].
  - intros x y Hx HE. cbn. rewrite elem_of_cons. destruct (cl_succ _ _ _ C x y Hx HE); tauto.
Qed.

(** Leaving [i] changes nothing of what is said of the nodes below it. *)
Lemma gray_ok_leave tc tc' out i : forall gray h,
  (h <= length out)%nat -> i ∉ out -> (forall x, x ∈ out -> 0 <= x < n) ->
  (forall a b, 0 <= a < n -> 0 <= b < n -> a <> i -> bit tc' a b = bit tc a b) ->
  gray_ok tc out gray h -> gray_ok tc' (out ++ [i]) gray h.
Proof using Type.
  intros gray. induction gray as [|[g k] gray IH]; intros h Hh Hi Hr Hsame; [done|]. cbn.
  intros (Hk & H1 & H2 & H3). split; [done|]. split; [|split].
  - intros q x Hq Hx. rewrite lookup_app_l in Hx by lia. destruct (H1 q x Hq Hx) as (y & HE & Hy & Hsub).
    exists y. split; [done|]. split; [apply elem_of_app; by left|]. pose proof (list_elem_of_lookup_2 _ _ _ Hx) as Hxo.
    intros b Hb. rewrite !Hsame; [by apply Hsub|..]; auto; by intros ->.
  - intros q x y Hq Hx HE. rewrite lookup_app_l in Hx by lia. rewrite take_app_le by lia. by apply (H2 q x).
  - apply IH; [lia|done..].
Qed.

(** The node below counts what was left during the visit of [i] as reached through [i]. *)
Lemma gray_ok_bump tc out gray h h' i :
  (h <= h')%nat -> i ∈ out -> parent_ok l gray i ->
  (forall q x, (h <= q < h')%nat -> out !! q = Some x -> sub_row tc x i) ->
  gray_ok tc out gray h -> gray_ok tc out gray h'.
Proof using Type.
  intros Hh Hi Hp Hnew. destruct gray as [|[g k] gray]; [done|]. cbn. intros (Hk & H1 & H2 & H3).
  split; [lia|]. split; [|split; done]. intros q x Hq Hx. destruct (decide (q < h)%nat) as [Hlt|Hge]; [apply (H1 q x); [lia|done]|].
  exists i. split; [done|]. split; [done|]. apply (Hnew q); [lia|done].
Qed.

(** Leaving [i]: the rows before ([tc]) and after ([tc']). *)
Section leaving.
Context (gray : list (Z * nat)) (out : list Z) (tc tc' : rows) (i : Z) (k : nat).
Context (P : placed l ((i, k) :: gray) out) (C : closing ((i, k) :: gray) out tc).
Context (Hs' : bits_square n tc').
Context (Hother : forall a b, 0 <= a < n -> 0 <= b < n -> a <> i -> bit tc' a b = bit tc a b).
Context (Hrow : forall b, 0 <= b < n ->
  bit tc' i b = true <-> bit tc i b = true \/ exists j, j ∈ succ l i /\ (bit tc j b = true \/ b = j)).
Context (Hsucc : forall j, j ∈ succ l i -> j ∈ out \/ j ∈ i :: gray.*1).

Lemma lv_range x : x ∈ out ++ i :: gray.*1 -> 0 <= x < n.
Proof using P. apply (pl_range _ _ _ P). Qed.

Lemma lv_i : 0 <= i < n.
Proof using P. apply lv_range, elem_of_app. right. left. Qed.

Lemma lv_new : i ∉ out.
Proof using P. pose proof (pl_unique _ _ _ P) as U. apply NoDup_app in U as (_ & U & _). intros Hin. apply (U i Hin). left. Qed.

Lemma lv_out x : x ∈ out -> 0 <= x < n /\ x <> i.
Proof using P. intros Hx. split; [apply lv_range, elem_of_app; by left|]. intros ->. by apply lv_new. Qed.

Lemma lv_sub x y : x ∈ out -> y ∈ out -> sub_row tc x y -> sub_row tc' x y.
Proof using P Hother.
  intros [Hx Hxi]%lv_out [Hy Hyi]%lv_out Hsub b Hb. rewrite !Hother by done. by apply Hsub.
Qed.

(** The row of a successor that was left goes into the row of [i]. *)
Lemma lv_sub_new y : y ∈ out -> EE i y -> sub_row tc' y i.
Proof using W P Hother Hrow.
  intros Hy HE b Hb Hyb. pose proof (lv_out y Hy) as [Hyn Hyi]. rewrite Hother in Hyb by done.
  apply Hrow; [done|]. right. exists y. split; [|by left]. by apply (E_succ l i y W lv_i).
Qed.

(** What was left since [i] was entered has its bits in the row of [i]. *)
Lemma lv_since q x : (k <= q < length out)%nat -> out !! q = Some x -> sub_row tc' x i.
Proof using W P C Hother Hrow.
  intros Hq Hx. destruct (cl_gray _ _ _ C) as (_ & H1 & _). destruct (H1 q x Hq Hx) as (y & HE & Hy & Hsub).
  intros b Hb Hxb. apply (lv_sub_new y Hy HE b Hb). apply (lv_sub x y); [by eapply list_elem_of_lookup_2|done..].
Qed.

Lemma lv_lookup p x : (out ++ [i]) !! p = Some x -> (out !! p = Some x /\ (p < length out)%nat) \/ (p = length out /\ x = i).
Proof using Type.
  intros [Hp|[Hp Hx]]%lookup_app_Some; [left; split; [done|]; by eapply lookup_lt_Some|].
  apply list_lookup_singleton_Some in Hx as [Hx <-]. right. split; [lia|done].
Qed.

Lemma lv_left p x : (out ++ [i]) !! p = Some x -> exists k', (k' <= p)%nat /\
  (forall q y, (k' <= q < p)%nat -> (out ++ [i]) !! q = Some y -> sub_row tc' y x) /\
  (forall q y z, (q < k')%nat -> (out ++ [i]) !! q = Some y -> EE y z -> z ∈ take k' (out ++ [i]) \/ z ∉ take (S p) (out ++ [i])).
Proof using W P C Hother Hrow.
  intros [[Hx Hp]|[-> ->]]%lv_lookup.
  - destruct (cl_left _ _ _ C p x Hx) as (k' & Hk & H1 & H2). exists k'. split; [done|]. split.
    + intros q y Hq Hy. rewrite lookup_app_l in Hy by lia. apply lv_sub; [by eapply list_elem_of_lookup_2..|]. by apply (H1 q).
    + intros q y z Hq Hy HE. rewrite lookup_app_l in Hy by lia. rewrite !take_app_le by lia. by apply (H2 q y).
  - destruct (cl_gray _ _ _ C) as (Hk & _ & H2 & _). exists k. split; [done|]. split.
    + intros q y Hq Hy. rewrite lookup_app_l in Hy by lia. by apply (lv_since q).
    + intros q y z Hq Hy HE. rewrite lookup_app_l in Hy by lia. rewrite take_app_le by lia.
      destruct (H2 q y z Hq Hy HE) as [?|Hz]; [by left|right].
      rewrite firstn_all2 by (rewrite length_app; cbn; lia).
      pose proof (pl_unique _ _ _ P) as U. cbn in U. apply NoDup_app in U as (_ & U1 & [U2 _]%NoDup_cons).
      intros [Hzo| ->%list_elem_of_singleton]%elem_of_app; [|done]. apply (U1 z Hzo). by right.
Qed.

Lemma closing_leave : closing gray (out ++ [i]) tc'.
Proof using W P C Hs' Hother Hrow Hsucc.
  assert (Hmore : forall x y, 0 <= x < n -> 0 <= y < n -> bit tc x y = true -> bit tc' x y = true).
  { intros x y Hx Hy Hb. destruct (decide (x = i)) as [->|]; [apply Hrow; tauto|by rewrite Hother]. }
  split; [done| | | |exact lv_left| |].
  - intros x y HE. pose proof HE as (Hx & Hy & _). apply Hmore; [done..|]. by apply C.
  - intros x y Hx Hy Hb. destruct (decide (x = i)) as [->|]; [|rewrite Hother in Hb by done; by apply (cl_sound _ _ _ C)].
    apply Hrow in Hb; [|done]. destruct Hb as [Hb|(j & Hj & Hb)]; [by apply (cl_sound _ _ _ C)|].
    pose proof (proj2 (E_succ l i j W lv_i) Hj) as HE. destruct Hb as [Hb| ->]; [|by apply tc_once].
    eapply tc_l; [exact HE|]. apply (cl_sound _ _ _ C); [by eapply wf_range|done..].
  - intros p q x y [[Hx Hp]|[-> ->]]%lv_lookup [[Hy Hq]|[-> ->]]%lv_lookup Hlt HE; try lia.
    + apply lv_sub; [by eapply list_elem_of_lookup_2..|]. by apply (cl_sub _ _ _ C p q).
    + apply lv_sub_new; [by eapply list_elem_of_lookup_2|done].
  - destruct (cl_gray _ _ _ C) as (Hk & _ & _ & H3).
    apply (gray_ok_bump tc' (out ++ [i]) gray k _ i); [rewrite length_app; lia|apply elem_of_app; right; left|apply (pl_path _ _ _ P)| |].
    + intros q x Hq [[Hx Hqo]|[-> ->]]%lv_lookup; [|by intros ? ?]. apply (lv_since q); [lia|done].
    + apply (gray_ok_leave tc); [done|apply lv_new|intros x Hx; by apply lv_out|done..].
  - intros x y [Hx| ->%list_elem_of_singleton]%elem_of_app HE; rewrite elem_of_app, list_elem_of_singleton.
    + destruct (cl_succ _ _ _ C x y Hx HE) as [?|Hy]; [tauto|]. cbn in Hy. rewrite elem_of_cons in Hy. tauto.
    + apply (E_succ l i y W lv_i) in HE. destruct (Hsucc y HE) as [?|Hy]; [tauto|]. rewrite elem_of_cons in Hy. tauto.
Qed.
End leaving.

(** At the end: an edge to a node that was not left earlier is part of a cycle, which shows. *)
Lemma late_edge out tc u r pu pr :
  closing [] out tc -> NoDup out -> EE u r -> out !! pu = Some u -> out !! pr = Some r -> (pu <= pr)%nat -> bit tc r r = true.
Proof using Type.
  intros C ND HE Hu Hr Hle. pose proof (cl_edges _ _ _ C _ _ HE) as Hb. pose proof HE as (_ & Hrn & _).
  destruct (decide (pu = pr)) as [->|Hne]; [by replace u with r in Hb by congruence|].
  destruct (cl_left _ _ _ C pr r Hr) as (k & Hk & H1 & H2). destruct (decide (k <= pu)%nat) as [Hge|Hlt].
  - apply (H1 pu u); [lia|done..].
  - exfalso. destruct (H2 pu u r) as [Hin|Hnin]; [lia|done..| |].
    + apply list_elem_of_lookup in Hin as [q Hq]. apply lookup_take_Some in Hq as [Hq Hqk].
      pose proof (NoDup_lookup _ _ _ _ ND Hq Hr). lia.
    + apply Hnin. apply list_elem_of_lookup. exists pr. apply lookup_take_Some. split; [done|lia].
Qed.

Lemma closed_acyclic out tc :
  closing [] out tc -> NoDup out -> (forall x, x ∈ out -> 0 <= x < n) -> all_nodes n out ->
  acyclic n (edge l) <-> forall r, 0 <= r < n -> bit tc r r = false.
Proof using Type.
  intros C ND Hr Ha. split.
  - intros Hc r Hrn. apply not_true_iff_false. intros Hb. apply (Hc r). by apply (cl_sound _ _ _ C).
  - intros Hirr. apply (topo_acyclic n (edge l) (rev out)).
    + apply topo_rev; [|done]. apply topo_intro; [done..|]. intros b x y Hb (Hy & Hx & He).
      pose proof (Ha y Hy) as [a Hya]%list_elem_of_lookup. exists a. split; [|done].
      destruct (decide (a < b)%nat) as [|Hge]; [done|]. exfalso.
      assert (Hby : bit tc y y = true) by (apply (late_edge out tc x y b a); try done; lia).
      by rewrite Hirr in Hby.
    + intros x Hx. apply list_elem_of_In, in_rev. rewrite rev_involutive. apply list_elem_of_In. by apply Ha.
Qed.

Lemma closed_exact out tc :
  closing [] out tc -> NoDup out -> all_nodes n out -> acyclic n (edge l) ->
  forall x y, relations.tc EE x y -> bit tc x y = true.
Proof using Type.
  intros C ND Ha Hc x y Hxy. induction Hxy as [x y HE|x z y HE Hzy IH]; [by apply C|].
  pose proof HE as (Hx & Hz & _). pose proof (Ha x Hx) as [px Hpx]%list_elem_of_lookup.
  pose proof (Ha z Hz) as [pz Hpz]%list_elem_of_lookup.
  assert (Hy : 0 <= y < n).
  { clear -Hzy. induction Hzy as [? ? (_ & ? & _)|]; done. }
  destruct (decide (pz < px)%nat) as [Hlt|Hge]; [by apply (cl_sub _ _ _ C px pz x z)|].
  exfalso. apply (Hc z). apply (cl_sound _ _ _ C); [done..|]. apply (late_edge out tc x z px pz); try done. lia.
Qed.

Lemma adj_isIrreflexive_spec (l' : AdjList T) :
  bits_square n (transC l') -> Z.of_nat (length (elems l')) = n ->
  exists b, isIrreflexive l' = Ret b /\ (b = true <-> forall i, 0 <= i < n -> bit (transC l') i i = false).
Proof using Type.
  intros Hs Hl. unfold isIrreflexive. rewrite Hl.
  enough (Hgen : forall nodes, (forall i, i ∈ nodes -> 0 <= i < n) ->
    exists b, isIrreflexive_from (transC l') nodes = Ret b /\ (b = true <-> forall i, i ∈ nodes -> bit (transC l') i i = false)).
  { destruct (Hgen (seqZ 0 n)) as (b & -> & Hb); [intros i ?%elem_of_seqZ; lia|]. exists b. split; [done|].
    rewrite Hb. split; intros Ha i Hi; apply Ha; [apply elem_of_seqZ; lia|apply elem_of_seqZ in Hi; lia]. }
  induction nodes as [|i nodes IH]; intros Hr; cbn.
  - exists true. split; [done|]. split; [|done]. by intros _ i ?%not_elem_of_nil.
  - assert (Hi : 0 <= i < n) by (apply Hr; left). destruct (row_get n _ Hs i Hi) as (row & -> & _ & Hrow). cbn.
    rewrite Hrow by done. cbn. destruct (bit (transC l') i i) eqn:Eb.
    + exists false. split; [done|]. split; [done|]. intros Ha. rewrite <- Eb. symmetry. apply Ha. left.
    + destruct IH as (b & -> & Hb); [intros j Hj; apply Hr; by right|]. exists b. split; [done|]. rewrite Hb.
      split; [intros Ha j [->|Hj]%elem_of_cons; auto|intros Ha j Hj; apply Ha; by right].
Qed.

Lemma adj_transClosure_spec :
  calculatedTransC l = false ->
  exists l', transClosure l = Ret l' /\ elems l' = elems l /\ nodeSucc l' = nodeSucc l /\ bits_square n (transC l') /\
    (forall i j, 0 <= i < n -> 0 <= j < n -> bit (transC l') i j = true -> relations.tc EE i j) /\
    (acyclic n (edge l) <-> forall i, 0 <= i < n -> bit (transC l') i i = false) /\
    (acyclic n (edge l) -> forall i j, relations.tc EE i j -> bit (transC l') i j = true).
Proof using W.
  intros Hcalc. unfold transClosure. rewrite Hcalc.
  destruct (dfs_spec l W absorb_all false (fun _ _ s => Ret s) (close_node l) ltac:(done)
    ltac:(intros i s; unfold close_node, absorb_all; by destruct (vec_get _ _)) closing
    ltac:(intros gray out x i; apply closing_enter)) with (x := transC l)
    as [(s & out & -> & [[U R _] _ C] & Ha)|[_ [[=] _]]]; [| |].
  - intros gray out tc i k P C Hs. assert (Hi : 0 <= i < n) by (apply (pl_range _ _ _ P), elem_of_app; right; left).
    destruct (absorb_all_spec tc i (cl_square _ _ _ C) Hi) as (tc' & -> & Hs' & Ho & Hr). exists tc'. split; [done|].
    apply (closing_leave gray out tc tc' i k P C Hs' Ho Hr). intros j Hj. destruct (Hs j Hj) as [?|[_ ?]]; tauto.
  - by apply closing_start.
  - cbn in U, R. rewrite app_nil_r in U, R. cbn. eexists. split; [reflexivity|]. cbn. split; [done|]. split; [done|].
    split; [apply C|]. split; [apply C|]. split; [by apply (closed_acyclic out)|]. intros Hc. by apply (closed_exact out).
Qed.
End closure.

(** ** All the sortings *)

Section sortings.
Context {T : Type} `{Countable T} (l : AdjList T) (W : wf l) (el : Z -> T) (Hel : is_vec (dim l) (elems l) el).

#[export] Instance adj_shift_degrees_spec : ShiftsDegrees (dim l) (edge l) (shift_degrees l).
Proof using W.
  intros i d deg g Hi V Hb. unfold shift_degrees. rewrite succ_get by done. cbn [mbind outcome_bind].
  pose proof (wf_unique l W i) as ND.
  assert (Hgen : forall succs before deg, NoDup (before ++ succs) -> (forall j, j ∈ succs -> 0 <= j < dim l) ->
    is_vec (dim l) deg (fun j => g j + d * Z.b2z (bool_decide (j ∈ before))) ->
    exists deg', mfold (fun deg j => add_at deg j d) succs deg = Ret deg' /\
      is_vec (dim l) deg' (fun j => g j + d * Z.b2z (bool_decide (j ∈ before ++ succs)))).
  { induction succs as [|x succs IH]; intros before dg ND' Hr V'; cbn; [exists dg; by rewrite app_nil_r|].
    assert (Hx : x ∉ before).
    { apply NoDup_app in ND' as (_ & N1 & _). intros Hin. apply (N1 x Hin). left. }
    assert (Hxn : 0 <= x < dim l) by (apply Hr; left).
    destruct (add_at_vec _ _ _ x d V' Hxn) as (dg' & -> & V2).
    { cbn. rewrite bool_decide_eq_false_2 by done. cbn. specialize (Hb x Hxn). lia. }
    cbn. destruct (IH (before ++ [x]) dg') as (deg' & -> & V3).
    - by rewrite <- app_assoc.
    - intros j Hj. apply Hr. by right.
    - eapply is_vec_ext; [exact V2|]. intros j Hj. cbn. destruct (decide (j = x)) as [->|Hjx].
      + rewrite (bool_decide_eq_false_2 (x ∈ before)) by done. rewrite bool_decide_eq_true_2 by (apply elem_of_app; right; left). cbn. lia.
      + do 3 f_equal. apply bool_decide_ext. rewrite elem_of_app, list_elem_of_singleton. tauto.
    - exists deg'. split; [done|]. by rewrite <- app_assoc in V3. }
  destruct (Hgen (succ l i) [] deg) as (deg' & -> & V'); [done|intros j Hj; by apply (wf_range l W i)| |by exists deg'].
  eapply is_vec_ext; [exact V|]. intros j _. cbn. rewrite bool_decide_eq_false_2 by apply not_elem_of_nil. cbn. lia.
Qed.

Lemma adj_allTopoSort_spec prop holds :
  (forall s, prop s = Ret (holds s)) ->
  exists b, allTopoSort prop l = Ret b /\
    (b = true <-> exists ord, maximal (dim l) (edge l) ord /\ holds (map el ord) = true).
Proof using W Hel.
  intros Hp. unfold allTopoSort, allTopoSortUtil, getInDegrees. pose proof (wf_dim l W) as Hd. pose proof (wf_elems l W) as He.
  replace (repeat false (length (elems l))) with (repeat false (Z.to_nat (dim l))) by (f_equal; lia).
  destruct (sortings_from_start (dim l) (edge l) (elems l) el (shift_degrees l) prop holds ltac:(unfold dim in *; lia) Hel Hp
    (AdjList.inDegree l) (wf_degrees l W)) as (st & -> & Hst).
  cbn. by exists (found st).
Qed.
End sortings.

(** ** The two representations *)

Section agreement.
Context {T : Type} `{Countable T} `{Inhabited T}.

Definition node (l : AdjList T) (i : Z) : T := nth (Z.to_nat i) (elems l) inhabitant.

Lemma node_spec l : wf l -> is_vec (dim l) (elems l) (node l).
Proof. intros W. rewrite <- (wf_elems l W). apply is_vec_list. Qed.

(** A matrix and a list with the same elements and the same edges between their positions. *)
Record same_graph (mx : Matrix.Matrix2D T) (l : AdjList T) : Prop := {
  sg_matrix : MatrixFacts.wf mx;
  sg_list : wf l;
  sg_fresh : calculatedTransC l = false;
  sg_elems : Matrix.elems_ mx = elems l;
  sg_edges i j : 0 <= i < dim l -> 0 <= j < dim l -> Matrix.at_ mx i j = has_edge l i j
}.

Lemma sg_dim mx l : same_graph mx l -> MatrixFacts.dim mx = dim l.
Proof. intros S. unfold MatrixFacts.dim. rewrite (sg_elems _ _ S). apply (wf_elems l), S. Qed.

Lemma has_edge_bit (l l' : AdjList T) i j :
  bits_square (dim l) (transC l') -> 0 <= i < dim l -> 0 <= j < dim l -> has_edge l' i j = Ret (bit (transC l') i j).
Proof.
  intros Hs Hi Hj. unfold has_edge. destruct (row_get _ _ Hs i Hi) as (row & -> & _ & G). by apply G.
Qed.

Lemma sg_edge mx l i j :
  same_graph mx l -> 0 <= i < dim l -> 0 <= j < dim l -> MatrixFacts.edge mx i j = edge l i j.
Proof.
  intros S Hi Hj. pose proof (sg_edges _ _ S i j Hi Hj) as He. pose proof (sg_dim _ _ S) as Hd.
  rewrite MatrixFacts.at_edge in He by first [exact (sg_matrix _ _ S)|rewrite Hd; done].
  rewrite (has_edge_bit l l) in He by first [done|exact (wf_square l (sg_list _ _ S))].
  injection He as ->. by apply (wf_bits l (sg_list _ _ S)).
Qed.

Lemma sg_rel mx l i j : same_graph mx l -> MatrixFacts.rel mx i j <-> E (dim l) (edge l) i j.
Proof.
  intros S. unfold MatrixFacts.rel, E. rewrite (sg_dim _ _ S).
  split; intros (Hi & Hj & He); (split; [done|]; split; [done|]); [by rewrite <- (sg_edge mx)|by rewrite (sg_edge mx l)].
Qed.

Lemma sg_tc mx l i j : same_graph mx l -> tc (MatrixFacts.rel mx) i j <-> tc (E (dim l) (edge l)) i j.
Proof.
  intros S. split; induction 1 as [? ? HE|? ? ? HE _ IH];
    [apply tc_once|eapply tc_l; [|exact IH]|apply tc_once|eapply tc_l; [|exact IH]]; by apply (sg_rel mx l).
Qed.

Lemma sg_node mx l i : same_graph mx l -> MatrixFacts.el_at mx i = node l i.
Proof. intros S. unfold MatrixFacts.el_at, node. by rewrite (sg_elems _ _ S). Qed.

Lemma sg_map mx l ord : same_graph mx l -> map (MatrixFacts.el_at mx) ord = map (node l) ord.
Proof. intros S. apply map_ext. intros i. by apply sg_node. Qed.

Lemma sg_maximal mx l ord :
  same_graph mx l -> maximal (MatrixFacts.dim mx) (MatrixFacts.edge mx) ord <-> maximal (dim l) (edge l) ord.
Proof.
  intros S. pose proof (fun i j => sg_rel mx l i j S) as HE. unfold MatrixFacts.rel in HE. rewrite (sg_dim _ _ S) in *.
  split; apply maximal_ext; intros i j; by rewrite HE.
Qed.

Lemma sg_acyclic mx l :
  same_graph mx l -> acyclic (MatrixFacts.dim mx) (MatrixFacts.edge mx) <-> acyclic (dim l) (edge l).
Proof. intros S. split; intros Hc i Hi; apply (Hc i); by apply (sg_tc mx l). Qed.

Lemma agree_allTopoSort mx l holds :
  same_graph mx l -> exists r,
    Matrix.allTopoSort (fun s => Ret (holds s)) mx = Ret r /\ allTopoSort (fun s => Ret (holds s)) l = Ret r.
Proof.
  intros S. pose proof (sg_list _ _ S) as W.
  destruct (MatrixFacts.allTopoSort_spec mx _ (sg_matrix _ _ S) (MatrixFacts.el_at_spec mx) _ holds (fun _ => eq_refl)) as (r & -> & Hr).
  destruct (adj_allTopoSort_spec l W _ (node_spec l W) _ holds (fun _ => eq_refl)) as (r' & -> & Hr').
  exists r. split; [done|]. f_equal. apply eq_true_iff_eq. rewrite Hr, Hr'.
  split; intros (ord & Hm & Hh); exists ord; (split; [by apply (sg_maximal mx l)|]); [by rewrite (sg_map mx l)|by rewrite <- (sg_map mx l)].
Qed.

(** Whether the closure of the list is irreflexive, and what it is if so. *)
Lemma list_irreflexive (l : AdjList T) :
  wf l -> calculatedTransC l = false ->
  exists l' b, transClosure l = Ret l' /\ isIrreflexive l' = Ret b /\ (b = true <-> acyclic (dim l) (edge l)) /\
    (b = true -> forall i j, 0 <= i < dim l -> 0 <= j < dim l ->
       exists c, has_edge l' i j = Ret c /\ (c = true <-> tc (E (dim l) (edge l)) i j)).
Proof.
  intros W Hc. destruct (adj_transClosure_spec l W Hc) as (l' & E1 & He & _ & Hs & Hsound & Hac & Hex).
  destruct (adj_isIrreflexive_spec l l' Hs) as (b & E2 & Hb); [rewrite He; apply W|].
  exists l', b. split; [done|]. split; [done|]. rewrite <- Hac in Hb. split; [done|]. intros Hbt i j Hi Hj.
  rewrite (has_edge_bit l l') by done. eexists. split; [done|]. split; [by apply Hsound|]. by apply Hex, Hb.
Qed.

(** The same of the matrix, in the terms of the list. *)
Lemma matrix_irreflexive mx l :
  same_graph mx l ->
  exists mx' b, Matrix.transClosure mx = Ret mx' /\ Matrix.isIrreflexive mx' = Ret b /\ (b = true <-> acyclic (dim l) (edge l)) /\
    forall i j, 0 <= i < dim l -> 0 <= j < dim l ->
      exists c, Matrix.at_ mx' i j = Ret c /\ (c = true <-> tc (E (dim l) (edge l)) i j).
Proof.
  intros S. destruct (MatrixFacts.transClosure_spec mx (sg_matrix _ _ S)) as (mx' & Em & Wm' & Hem & Hcm).
  destruct (MatrixFacts.isIrreflexive_spec mx' Wm') as (b & Ei & Hb). exists mx', b. split; [done|]. split; [done|].
  assert (Hd : MatrixFacts.dim mx' = dim l) by (rewrite <- (sg_dim mx l S); unfold MatrixFacts.dim; by rewrite Hem).
  rewrite (sg_dim mx l S) in Hcm. rewrite Hd in Hb.
  assert (Hc : forall i j, 0 <= i < dim l -> 0 <= j < dim l -> MatrixFacts.edge mx' i j = true <-> tc (E (dim l) (edge l)) i j).
  { intros i j Hi Hj. rewrite (Hcm i j Hi Hj). by apply sg_tc. }
  split.
  - rewrite Hb. split.
    + intros Hi i Hcyc. assert (Hr : 0 <= i < dim l) by (inversion Hcyc as [? ? [? _]|? ? ? [? _]]; done).
      apply (Hc i i Hr Hr) in Hcyc. by rewrite Hi in Hcyc.
    + intros Hac i Hi. apply not_true_iff_false. by intros ?%Hc%Hac.
  - intros i j Hi Hj. rewrite MatrixFacts.at_edge by first [done|rewrite Hd; done]. eexists. split; [done|]. by apply Hc.
Qed.

Lemma sg_topoSort mx l :
  same_graph mx l ->
  match Matrix.topoSort mx with
  | Ret s => exists ord, s = map (node l) ord /\ topo (dim l) (edge l) ord /\ all_nodes (dim l) ord
  | Bug => ~ acyclic (dim l) (edge l)
  | Undef => False
  end.
Proof.
  intros S. pose proof (MatrixFacts.topoSort_spec mx _ (sg_matrix _ _ S) (MatrixFacts.el_at_spec mx)) as Ht.
  destruct (Matrix.topoSort mx); [|by rewrite <- (sg_acyclic mx l S)|done].
  destruct Ht as (ord & -> & Ht & Ha). exists ord. rewrite (sg_map mx l) by done. split; [done|].
  pose proof (fun i j => sg_rel mx l i j S) as HE. unfold MatrixFacts.rel in HE. rewrite (sg_dim _ _ S) in *.
  split; [|done]. by apply (topo_ext _ _ _ _ HE).
Qed.

(** Property C32.  Matrix2D and AdjList implement the same graphs: given one graph, both tell by the
    closure whether it has a cycle, with the same answer. Without one the two closures have the same
    edges and both [topoSort]s return all the elements, each after its predecessors; with one
    both stop the process. And both enumerate sortings that satisfy the same properties. *)
Theorem representations_agree (mx : Matrix.Matrix2D T) (l : AdjList T) :
  same_graph mx l -> exists mx' l' acyc,
    Matrix.transClosure mx = Ret mx' /\ transClosure l = Ret l' /\
    Matrix.isIrreflexive mx' = Ret acyc /\ isIrreflexive l' = Ret acyc /\
    (if acyc : bool
     then (forall i j, 0 <= i < dim l -> 0 <= j < dim l -> Matrix.at_ mx' i j = has_edge l' i j) /\
          exists p q, Matrix.topoSort mx = Ret (map (node l) p) /\ topoSort l = Ret (map (node l) q) /\
            topo (dim l) (edge l) p /\ all_nodes (dim l) p /\ topo (dim l) (edge l) q /\ all_nodes (dim l) q
     else Matrix.topoSort mx = Bug /\ topoSort l = Bug) /\
    forall holds, exists r,
      Matrix.allTopoSort (fun s => Ret (holds s)) mx = Ret r /\ allTopoSort (fun s => Ret (holds s)) l = Ret r.
Proof.
  intros S. pose proof (sg_list _ _ S) as W.
  destruct (matrix_irreflexive mx l S) as (mx' & b' & Em & Im & Hb' & Hcm).
  destruct (list_irreflexive l W (sg_fresh _ _ S)) as (l' & b & El & Il & Hb & Hcl).
  assert (b' = b) as -> by (apply eq_true_iff_eq; by rewrite Hb, Hb').
  exists mx', l', b. do 4 (split; [done|]). split; [|intros holds; by apply agree_allTopoSort].
  pose proof (sg_topoSort mx l S) as Tm. pose proof (adj_topoSort_spec l W _ (node_spec l W)) as Tl. destruct b.
  - assert (Hac : acyclic (dim l) (edge l)) by by apply Hb. split.
    + intros i j Hi Hj. destruct (Hcm i j Hi Hj) as (c & -> & Hc), (Hcl eq_refl i j Hi Hj) as (c' & -> & Hc').
      f_equal. apply eq_true_iff_eq. by rewrite Hc, Hc'.
    + destruct (Matrix.topoSort mx) as [s| |]; [|by destruct Tm|done].
      destruct (topoSort l) as [s'| |]; [|destruct Tl as [c Hcyc]; by destruct (Hac c)|done].
      destruct Tm as (p & -> & ? & ?), Tl as (q & -> & ? & ?). exists p, q. tauto.
  - assert (Hnc : forall ord, topo (dim l) (edge l) ord -> all_nodes (dim l) ord -> False).
    { intros ord Ht Ha. enough (false = true) by done. apply Hb. by eapply topo_acyclic. }
    destruct (Matrix.topoSort mx) as [s| |]; [|split; [done|]|done].
    + destruct Tm as (p & _ & Ht & Ha). by destruct (Hnc p).
    + destruct (topoSort l) as [s'| |]; [|done..]. destruct Tl as (q & _ & Ht & Ha). by destruct (Hnc q).
Qed.
End agreement.

(** Three elements in a chain, in both representations. *)
Definition chain_matrix : Matrix.Matrix2D Z := Matrix.mkMatrix [0; 1; 0; 0; 0; 1; 0; 0; 0] [10; 20; 30].
Definition chain_list : AdjList Z :=
  match addEdge (make [10; 20; 30]) 0 1 with
  | Ret l => match addEdge l 1 2 with Ret l => l | _ => l end
  | _ => make []
  end.

Lemma chain_same : same_graph chain_matrix chain_list.
Proof.
  assert (W : wf chain_list).
  { destruct (addEdge (make [10; 20; 30]) 0 1) as [l| |] eqn:E1; [|done..].
    assert (W1 : wf l) by (eapply addEdge_wf; [| | |exact E1]; [by apply adj_make_wf|vm_compute; split; congruence..]).
    apply (addEdge_wf l _ 1 2 W1); vm_compute in E1; injection E1 as <-; vm_compute; [split; congruence..|done]. }
  split; [|done|reflexivity|reflexivity|].
  - split; [reflexivity|]. vm_compute. congruence.
  - change (dim chain_list) with 3. intros i j Hi Hj.
    assert (i = 0 \/ i = 1 \/ i = 2) as [->|[->| ->]] by lia; assert (j = 0 \/ j = 1 \/ j = 2) as [->|[->| ->]] by lia; reflexivity.
Qed.

Lemma representations_agree_witness :
  same_graph chain_matrix chain_list /\
  exists mx' l' acyc, Matrix.transClosure chain_matrix = Ret mx' /\ transClosure chain_list = Ret l' /\
    Matrix.isIrreflexive mx' = Ret acyc /\ isIrreflexive l' = Ret acyc.
Proof.
  split; [exact chain_same|].
  destruct (representations_agree chain_matrix chain_list chain_same) as (mx' & l' & b & H1 & H2 & H3 & H4 & _).
  exists mx', l', b. exact (conj H1 (conj H2 (conj H3 H4))).
Defined.
End AdjListFacts.
